(* ===== verification/_CoqProject ===== *)
-Q . S2P
Prelude.v
Shard.v
ShardSpec.v
MapIface.v
CustomMap.v
CustomMapSpec.v
MapRefine.v
Decimal.v
Resp.v
RespSpec.v
Glob.v
Collections.v
CollectionsSpec.v
Float.v
ZSet.v
ZSetSpec.v
Value.v
Store.v
StoreSpec.v
Lcs.v
ListOps.v
HashOps.v
SetOps.v
ZSetOps.v
Commands.v
StoreClaims.v
Scan.v
ListSpec.v
SetSpec.v
ZSetOpsSpec.v
SmallStr.v
FloatBits.v
Rdb.v
RdbSpec.v
Seqlock.v
SeqlockSpec.v
Reply.v
Handler.v
CmdString.v
CmdKeys.v
CmdList.v
CmdHash.v
CmdSet.v
CmdZSet.v
Hll.v
Geo.v
CmdServer.v
HandlerSpec.v
CmdSpec.v
Bitmap.v
CmdBitmap.v
BitmapSpec.v
StreamOps.v
CmdStream.v
StreamSpec.v
Json.v
JsonOps.v
CmdJson.v
CmdGeo.v
CmdMoreSpec.v
JsonSpec.v
JsonPathSpec.v
CmdTable.v
CmdTableSpec.v
PubSub.v
PubSubSpec.v
Conn.v
ConnSpec.v
Server.v
ServerSpec.v
Ebr.v
EbrSpec.v
GeoSpec.v
Gate.v
GateSpec.v
GateClaims.v
RdbFile.v
Writes.v
Main.v
Notify.v
