(* ===== verification/Prelude.v ===== *)
(** * FyroDB (FlashDB): a verification development

    FyroDB is an in-memory key-value server that speaks the Redis protocol.
    A connection hands its bytes to a parser (src/src/utils/parser.rs), a
    command calls an operation of the store (src/src/storage), the store keeps
    its values in a sharded hash map (src/crates/customhash), and the reply is
    written back as RESP (src/src/utils/resp.rs).  Values expire: a background
    thread sweeps them, and reads hide them before that.  A snapshot file
    (src/src/storage/rdb.rs) carries the store across restarts.

    ** Files, bottom up

    - [Prelude]: bytes, machine integers, results, the order of strings, and
      the tactics and lemmas that all files share.
    - [Shard], [ShardSpec]: the state word of a map entry (lock bit, occupied
      bit, sequence number) and one linear-probing table (shard.rs, ops.rs):
      find, insert, growth, compaction, tombstones.
    - [MapIface]: the interface between map and store, a class of operations
      and a class of laws against a finite map.
    - [CustomMap], [CustomMapSpec], [MapRefine]: the sharded map (lib.rs,
      ops.rs); it discharges the interface.
    - [Seqlock], [SeqlockSpec]: concurrent access to one entry (lib.rs),
      step by step.
    - [Gate], [GateSpec], [GateClaims]: concurrent finds, insertions and growth
      of one shard (shard.rs, ops.rs), step by step.
    - [Ebr], [EbrSpec]: epoch-based reclamation (ebr.rs), step by step.
    - [SmallStr]: the sixteen-byte strings (small_str.rs, key.rs)
      over an explicit heap.
    - [Decimal], [Resp], [RespSpec]: decimal printing and parsing, the reply
      writers (resp.rs, frame.rs), the request parser (parser.rs).
    - [Glob]: pattern matching (util.rs).
    - [Float], [FloatBits]: binary64 and its text, its bits, how large its
      results can be, and decimals that are exactly a number.
    - [Collections], [CollectionsSpec]: the binary searches of the standard
      library; hashes, sets and lists with their compact and full encodings
      (value/collections.rs).
    - [ZSet], [ZSetSpec]: sorted sets, an ordered vector with a Bloom filter
      (value/zset_data.rs).
    - [Value]: stream identifiers and data (stream.rs), stored values, expiry
      and the two clocks (value/mod.rs).
    - [Store], [StoreSpec]: the store record and its TTL counter (store.rs),
      string, key and server operations (string.rs, keys.rs, server.rs).
    - [ListOps], [HashOps], [SetOps], [ZSetOps], [Lcs], [Scan]:
      list.rs, hash.rs and the float increments, set.rs, zset.rs, LCS of
      string.rs, the cursors of scan.rs, the incremental sweep of server.rs.
    - [Bitmap], [StreamOps], [Json], [JsonOps], [Hll], [Geo]: bitmap.rs, the
      commands of stream.rs, value/json_value.rs and json.rs, hll.rs, geo.rs.
    - [Commands]: the common write commands as one alphabet, and what they
      share; [Writes]: all write operations of the store and of the handlers,
      with the exceptions that break one of the shared properties.
    - [StoreClaims], [ListSpec], [SetSpec], [ZSetOpsSpec], [BitmapSpec],
      [StreamSpec], [JsonSpec], [JsonPathSpec], [GeoSpec]: the properties of
      the store's operations ([GeoSpec]: of hll.rs and geo.rs).
    - [Rdb], [RdbSpec]: the snapshot format, written and read (rdb.rs).
    - [RdbFile]: the files of a snapshot: written, synced, renamed, and what a
      crash leaves (rdb.rs).
    - [Reply]: replies as data and as a client reads them (resp.rs, resp3.rs).
    - [Handler], [HandlerSpec]: the monad of the command handlers, the macros
      of macros/cmd.rs in it, and what a handler may write.
    - [CmdString], [CmdKeys], [CmdList], [CmdHash], [CmdSet], [CmdZSet],
      [CmdServer], [CmdBitmap], [CmdStream], [CmdJson], [CmdGeo]: the handlers
      of src/src/commends, a file for each of its files but for hll.rs, which
      is in [CmdGeo]; [CmdSpec], [CmdMoreSpec]: that each writes one reply.
    - [CmdTable], [CmdTableSpec]: the command table (commends/mod.rs).
    - [PubSub], [PubSubSpec]: the publish/subscribe registry (src/src/pubsub).
    - [Notify]: the same under contention: pushing, notifying, draining and
      writing (slot.rs, conn.rs, worker.rs), and the snapshot of a channel shard
      (registry.rs), step by step.
    - [Conn], [ConnSpec]: dispatch, subscription mode and the shortcuts of a
      connection (src/src/handler).
    - [Server], [ServerSpec]: connections as byte streams and the turns of the
      workers (conn.rs, worker.rs).
    - [Main]: the configuration, the expiry thread among the commands
      (main.rs), and the memory figures of store.rs.

    ** How the code is modelled

    A struct is a [Record], an enum an [Inductive] with its constructors, a
    method a function with the same name that takes the state and returns the
    new state with the result.  [Option] is [option], [Result<_, &str>] is
    [result], a panic (a slice or an index out of bounds) is [None] where one
    is possible.  A [u64] or [i64] is a [Z] with the wrap-around, checked or
    saturating arithmetic of the source written out.  A [String] is its bytes.
    A [HashMap] or [HashSet] is a [gmap] or [gset]; its iteration order is the
    class [HashOrder], of which only the contents are known.  The hasher of the
    map is a function [hash_one] about which nothing is assumed.  The clock of
    an operation is a [Clock]: the real time and the time cached by the last
    tick.  The store is parametric in the map ([KVMap]); its properties are
    stated on [CustomMap].

    A command handler is a computation in the monad of [Handler]: it reads and
    changes the store and the output, goes on with a value, returns early (the
    [return] of a macro), or panics, which in the release build aborts the
    server.  What the platform supplies (time, INFO text, the outcome of
    writing a snapshot, the last digits of logarithms and of trigonometric
    functions) is a field of [Env], an argument.  Numbers are binary64, as in
    the source, by the [SpecFloat] of the standard library.

    The store operations run one at a time here, on entries whose lock is
    free.  What interleaving adds is the subject of four models, in each of which
    threads run one operation each, in steps of one access to shared memory, in
    any order: [Seqlock], one entry; [Gate], one shard, where the state words
    of the entries are reduced to the occupied bit; [Ebr], the reclamation of
    memory, with and without the store buffers of x86; [Notify], the slots of a
    worker and the snapshot of a channel shard.  In [RdbFile] a
    file that was not synced holds anything after a crash, and a directory some
    of the changes that were pending, in their order.  [Main] lets any writes run between two turns of the expiry
    thread, but for the four that do not count an expiry or move one.  Values
    in the store model are plain data; the ownership of their heap blocks is
    the subject of [SmallStr].

    ** What is shown

    - The map: any sequence of calls answers as a finite map with a key limit
      does; in every reachable state the shards are within their load factor,
      the key counter is exact, probes end, and iteration is exact.
    - An entry under contention: consistent reads are whole, the operations
      that test the occupied bit under the lock are linearizable, and no
      deadlock; [set] and [get] are not linearizable.
    - A shard under contention: no insertion is lost while the table grows, a
      key has one inserter, a find does not miss a key that was there when it
      started, and some thread can always go on; a compaction or the revival of
      a removed entry meanwhile breaks this.
    - Strings: representation and ownership; a clone shares its block.
    - Reclamation: under sequential consistency nothing is freed while a
      pinned thread holds it; with store buffers it is.
    - The protocol: encoding and parsing are inverse, a prefix of a command
      consumes nothing, and two inputs on which the parser fails.
    - Patterns: the matcher decides the pattern language for inputs without a
      star, and is sound for all.
    - Containers: hashes and sets refine finite maps and sets through every
      change of encoding; sorted sets stay sorted, refine a map from members to
      scores, and range queries are filters.
    - The store, for every run of writes from an empty store: the TTL counter
      never undercounts (but for COPY and a conditional SET with an expiry), an
      error changes nothing (but for SETRANGE, LMOVE, SMOVE and a SETEX on a
      full map), a write changes only its keys; and the results of the string, key, list, set and
      sorted-set commands, of the cursors and of the expiry sweeps.
    - Bitmaps: single bits, fields of BITFIELD with their overflow rules,
      counts and combinations, as functions on bits.
    - Streams: entries in order of their ids, ranges, deletion, trimming.
    - JSON: a printed document of finite numbers parses back, but for the
      strings that the parser mangles and the sign of minus zero; a value set at
      a path is found there and the paths that diverge from it are as they were;
      a document that is stored unparsed aborts the server later.
    - HyperLogLog: a sketch is a function of the set of its elements, merging
      is union.
    - Geographic sets: a position lies in the cell of its score, a search is a
      filter sorted by distance, and a member never moves.
    - Commands: every command of the table writes exactly one well-formed
      reply, but for the panics that are listed; the shortcuts agree with the
      table but for two; a pipeline on the wire does what its
      requests do one after the other.
    - Publish/subscribe: messages go to the subscribers, and the registry holds
      exactly the subscriptions of the open connections; no wake-up is lost
      while no output buffer is full, and one is when it is; subscriptions take
      effect one after the other, but a publisher can read a freed snapshot.
    - Snapshots: what was saved loads back, a stream without its groups; a crash at any point of a save
      leaves the old snapshot or the new one, a completed save survives a crash,
      and two saves at a time can corrupt the file.
    - The process: the configuration is within its bounds; the expiry thread
      removes what has expired and nothing else, while no key is renamed,
      copied or loaded from a snapshot.

    ** Bounds and fuel

    A probe loop gets one step per slot and insertion two attempts; both are
    shown to be enough in every reachable state.  The digit loops get one step
    per bit of the number plus one, the binary searches the length of the
    vector, the glob matcher a product of the two lengths, the snapshot loader
    the number of bytes plus one, the JSON parser twice the number of bytes
    plus two; each is shown to be enough by a theorem that states the result.
    The printing of a float tries as many lengths as the exact value of the
    number has digits, of which one reads back.  [hincrby] and [setrange] try
    again when another thread creates the key between their two steps: one
    round is enough here.  The sequence numbers compared by a reader are 32
    bits wide: the concurrent properties assume fewer than [2^31] operations in
    flight together with the reader.  The properties of the expiry thread are
    those of shards of at most 262144 slots, which one of its turns scans whole.

    ** What is not modelled

    Sockets, epoll, signals, the creation of threads and the shutdown (main.rs,
    worker.rs); the bindings of the allocator (rust-zmalloc) and its purging;
    the text of INFO; the stack that recursion takes (JSON), and the failure of
    an allocation; [clear] of the map under contention; the closing of a slow or broken
    subscriber while publishers push to it; memory orderings other than
    sequential consistency and the store buffers of [Ebr].

    The interleavings are models of one component each: what joins them, an
    operation of the store as a sequence of steps of [Gate], [Seqlock] and
    [Ebr] together, is left for later. *)

From stdpp Require Export base gmap list sets strings countable sorting.
From Stdlib Require Export ZArith Lia.
From Stdlib Require Import Strings.Byte.
From Stdlib Require Strings.String.

(** ** Bytes and byte strings

    A Rust [u8] is [Init.Byte.byte]; [b2z] is its value.  A Rust [String] or
    [&str] is its UTF-8 byte sequence, [bytes]. *)

Abbreviation byte := Corelib.Init.Byte.byte.
Abbreviation bytes := (list byte).

Definition b2z (b : byte) : Z := Z.of_N (Byte.to_N b).

(** [z as u8]: the low eight bits. *)
Definition z2b (z : Z) : byte :=
  match Byte.of_N (Z.to_N (z mod 256)) with
  | Some b => b
  | None => x00
  end.

#[global] Instance byte_eq_decision : EqDecision byte := Byte.byte_eq_dec.

#[global] Program Instance byte_countable : Countable byte :=
  inj_countable Byte.to_N Byte.of_N _.
Next Obligation. intros x. apply Byte.of_to_N. Qed.

(** Byte-string literals. *)
Definition B (s : String.string) : bytes := String.list_byte_of_string s.

(** ** Machine integers *)

Definition u64_mod : Z := 2 ^ 64.
Definition wrap64 (z : Z) : Z := z mod u64_mod.
Definition usize_max : Z := 2 ^ 64 - 1.
Definition i64_min : Z := - 2 ^ 63.
Definition i64_max : Z := 2 ^ 63 - 1.

Definition in_i64 (z : Z) : bool := (i64_min <=? z)%Z && (z <=? i64_max)%Z.
Definition in_u64 (z : Z) : bool := (0 <=? z)%Z && (z <? u64_mod)%Z.

(** [i64::checked_add] and [i64::checked_neg]. *)
Definition checked_add_i64 (a b : Z) : option Z :=
  if in_i64 (a + b) then Some (a + b)%Z else None.
Definition checked_neg_i64 (a : Z) : option Z :=
  if in_i64 (- a) then Some (- a)%Z else None.

(** [u64::checked_add], [u64::checked_mul]. *)
Definition checked_add_u64 (a b : Z) : option Z :=
  if in_u64 (a + b) then Some (a + b)%Z else None.
Definition checked_mul_u64 (a b : Z) : option Z :=
  if in_u64 (a * b) then Some (a * b)%Z else None.

(** [usize::saturating_mul] and [saturating_add]. *)
Definition saturating_mul (a b : Z) : Z := Z.min (a * b) usize_max.
Definition saturating_add (a b : Z) : Z := Z.min (a + b) usize_max.

(** [n.next_power_of_two()] for [n] that does not overflow. *)
Definition next_power_of_two (n : Z) : Z :=
  if (n <=? 1)%Z then 1%Z else (2 ^ (Z.log2 (n - 1) + 1))%Z.

(** [x.rotate_left(k)] on [u64], for [0 < k < 64]. *)
Definition rotate_left (x k : Z) : Z :=
  Z.lor (wrap64 (Z.shiftl x k)) (Z.shiftr x (64 - k)).

(** ** Fallible code *)

(** [Result<A, &'static str>]: the error is the message. *)
Inductive result (A : Type) : Type :=
| Ok (a : A)
| Err (e : bytes).
Arguments Ok {A} a.
Arguments Err {A} e.

Definition WRONGTYPE : bytes := B "WRONGTYPE".

(** ** Development tactics and hints *)

Create HintDb fyro.

(** Split the boolean tests of the goal and of the hypotheses, then close by
    arithmetic or congruence. *)
Ltac split_bool :=
  repeat match goal with
  | H : andb _ _ = true |- _ => apply andb_true_iff in H; destruct H
  | H : orb _ _ = false |- _ => apply orb_false_iff in H; destruct H
  | H : negb _ = true |- _ => apply negb_true_iff in H
  | H : negb _ = false |- _ => apply negb_false_iff in H
  | H : (_ <? _)%Z = true |- _ => apply Z.ltb_lt in H
  | H : (_ <? _)%Z = false |- _ => apply Z.ltb_ge in H
  | H : (_ <=? _)%Z = true |- _ => apply Z.leb_le in H
  | H : (_ <=? _)%Z = false |- _ => apply Z.leb_gt in H
  | H : (_ =? _)%Z = true |- _ => apply Z.eqb_eq in H
  | H : (_ =? _)%Z = false |- _ => apply Z.eqb_neq in H
  | H : (_ <? _)%nat = true |- _ => apply Nat.ltb_lt in H
  | H : (_ <? _)%nat = false |- _ => apply Nat.ltb_ge in H
  | H : (_ <=? _)%nat = true |- _ => apply Nat.leb_le in H
  | H : (_ <=? _)%nat = false |- _ => apply Nat.leb_gt in H
  | H : (_ =? _)%nat = true |- _ => apply Nat.eqb_eq in H
  | H : (_ =? _)%nat = false |- _ => apply Nat.eqb_neq in H
  | H : bool_decide _ = true |- _ => apply bool_decide_eq_true in H
  | H : bool_decide _ = false |- _ => apply bool_decide_eq_false in H
  end.

(** Case split on the scrutinee of the first match or [if] of the goal. *)
Ltac case_goal :=
  match goal with
  | |- context [match ?x with _ => _ end] =>
      lazymatch x with
      | context [match _ with _ => _ end] => fail
      | _ => let E := fresh "E" in destruct x eqn:E
      end
  end.

(** The same on a hypothesis. *)
Ltac case_hyp H :=
  match type of H with
  | context [match ?x with _ => _ end] =>
      lazymatch x with
      | context [match _ with _ => _ end] => fail
      | _ => let E := fresh "E" in destruct x eqn:E
      end
  end.

(** ** Lemmas on bytes *)

Lemma b2z_range b : (0 <= b2z b < 256)%Z.
Proof.
  unfold b2z. pose proof (Byte.to_N_bounded b) as H.
  apply N2Z.inj_le in H. simpl in H. lia.
Qed.

Lemma z2b_b2z b : z2b (b2z b) = b.
Proof.
  unfold z2b. pose proof (b2z_range b). rewrite Z.mod_small by lia.
  unfold b2z. by rewrite N2Z.id, Byte.of_to_N.
Qed.

Lemma b2z_z2b z : b2z (z2b z) = (z mod 256)%Z.
Proof.
  unfold z2b, b2z. pose proof (Z.mod_pos_bound z 256 eq_refl) as Hb.
  destruct (Byte.of_N (Z.to_N (z mod 256))) as [b|] eqn:E.
  - apply Byte.to_of_N in E. rewrite E, Z2N.id; lia.
  - apply Byte.of_N_None_iff in E.
    apply N2Z.inj_lt in E. rewrite Z2N.id in E by lia. lia.
Qed.

Lemma b2z_inj a b : b2z a = b2z b → a = b.
Proof. intros H. rewrite <- (z2b_b2z a), <- (z2b_b2z b). by rewrite H. Qed.

Lemma b2z_z2b_small z : (0 <= z < 256)%Z → b2z (z2b z) = z.
Proof. intros. rewrite b2z_z2b. by apply Z.mod_small. Qed.

#[export] Hint Resolve b2z_range : fyro.

(** ** The order of byte strings

    [Ord] of [str] is the lexicographic order of the bytes. *)

Fixpoint str_cmp (a b : bytes) : comparison :=
  match a, b with
  | [], [] => Eq
  | [], _ :: _ => Lt
  | _ :: _, [] => Gt
  | x :: a', y :: b' =>
      match Z.compare (b2z x) (b2z y) with
      | Eq => str_cmp a' b'
      | c => c
      end
  end.

Definition str_lt (a b : bytes) : bool := match str_cmp a b with Lt => true | _ => false end.
Definition str_le (a b : bytes) : bool := match str_cmp a b with Gt => false | _ => true end.

Lemma str_cmp_eq a b : str_cmp a b = Eq ↔ a = b.
Proof.
  revert b; induction a as [|x a IH]; intros [|y b]; simpl; try (split; congruence).
  destruct (Z.compare_spec (b2z x) (b2z y)) as [E|E|E].
  - rewrite IH. apply b2z_inj in E as ->. split; congruence.
  - split; [done|]. intros [= -> ->]. lia.
  - split; [done|]. intros [= -> ->]. lia.
Qed.

Lemma str_cmp_refl a : str_cmp a a = Eq.
Proof. by apply str_cmp_eq. Qed.

Lemma str_cmp_antisym a b : str_cmp b a = CompOpp (str_cmp a b).
Proof.
  revert b; induction a as [|x a IH]; intros [|y b]; simpl; try done.
  rewrite Z.compare_antisym. by destruct (Z.compare (b2z x) (b2z y)); simpl.
Qed.

Lemma str_cmp_lt_trans a b c : str_cmp a b = Lt → str_cmp b c = Lt → str_cmp a c = Lt.
Proof.
  revert b c; induction a as [|x a IH]; intros [|y b] [|z c]; simpl; try done.
  destruct (Z.compare_spec (b2z x) (b2z y)) as [E1|E1|E1]; [|intros _|done];
  destruct (Z.compare_spec (b2z y) (b2z z)) as [E2|E2|E2]; try done;
  destruct (Z.compare_spec (b2z x) (b2z z)); try lia; eauto.
Qed.

(** ** Generic list lemmas *)

Lemma Forall_take_drop {A} (P : A → Prop) n (l : list A) :
  Forall P l → Forall P (take n l) ∧ Forall P (drop n l).
Proof. intros H. rewrite <- (take_drop n l) in H. by apply Forall_app in H. Qed.

Local Open Scope Z_scope.

(** ** Counting threads

    A sum over a list, to count the threads at a point of their program. *)

Section Tally.
Context {A : Type}.
Implicit Types (f : A → Z) (l : list A).

Definition tally f l : Z := foldr (λ x n, f x + n) 0 l.

Lemma tally_insert f l t x y : l !! t = Some x → tally f (<[t := y]> l) = tally f l - f x + f y.
Proof. revert t. induction l as [|z l IH]; intros [|t] Ht; simplify_eq/=; [lia|rewrite (IH _ Ht); lia]. Qed.

Lemma tally_nonneg f l : (∀ x, 0 <= f x) → 0 <= tally f l.
Proof. intros Hf. induction l as [|x l IH]; simpl; [lia|]. specialize (Hf x). lia. Qed.

Lemma tally_le f g l : (∀ x, f x <= g x) → tally f l <= tally g l.
Proof. intros Hf. induction l as [|x l IH]; simpl; [lia|]. specialize (Hf x). lia. Qed.

Lemma tally_elem f l t x : (∀ x, 0 <= f x) → l !! t = Some x → f x <= tally f l.
Proof.
  intros Hf. revert t. induction l as [|z l IH]; intros [|t] Ht; simplify_eq/=.
  - pose proof (tally_nonneg f l Hf). lia.
  - specialize (IH _ Ht). specialize (Hf z). lia.
Qed.

Lemma tally_two f l t t' x y :
  (∀ x, 0 <= f x) → t ≠ t' → l !! t = Some x → l !! t' = Some y → f x + f y <= tally f l.
Proof.
  intros Hf Hne Ht Ht'. pose proof (tally_insert f l t x x Ht) as _.
  revert t t' Hne Ht Ht'. induction l as [|z l IH]; intros [|t] [|t'] Hne Ht Ht'; simplify_eq/=.
  - pose proof (tally_elem f l t' y Hf Ht'). lia.
  - pose proof (tally_elem f l t x Hf Ht). lia.
  - specialize (IH t t' ltac:(congruence) Ht Ht'). specialize (Hf z). lia.
Qed.

Lemma tally_zero f l : (∀ x, 0 <= f x) → tally f l = 0 → ∀ t x, l !! t = Some x → f x = 0.
Proof. intros Hf H0 t x Ht. pose proof (tally_elem f l t x Hf Ht). specialize (Hf x). lia. Qed.

Lemma tally_pos f l : (∀ x, 0 <= f x) → 0 < tally f l → ∃ t x, l !! t = Some x ∧ 0 < f x.
Proof.
  intros Hf. induction l as [|z l IH]; simpl; [lia|]. intros Hp.
  destruct (Z.lt_ge_cases 0 (f z)) as [Hz|Hz]; [by exists O, z|].
  destruct IH as (t & x & Ht & Hx); [lia|]. by exists (S t), x.
Qed.

Lemma tally_all_zero f l : (∀ x, x ∈ l → f x = 0) → tally f l = 0.
Proof.
  induction l as [|z l IH]; intros Hz; simpl; [done|].
  rewrite (Hz z) by set_solver. rewrite IH by set_solver. done.
Qed.
End Tally.

(** ** Little-endian integers *)


(** The low [k] bytes of [z], least significant first ([to_le_bytes]). *)
Fixpoint le_bytes (k : nat) (z : Z) : bytes :=
  match k with O => [] | S k' => z2b z :: le_bytes k' (z / 256) end.

Fixpoint of_le (l : bytes) : Z := match l with [] => 0 | b :: l' => b2z b + 256 * of_le l' end.

Lemma length_le_bytes k z : length (le_bytes k z) = k.
Proof. revert z. induction k as [|k IH]; intros z; simpl; [done|]. by rewrite IH. Qed.

Lemma of_le_bytes k z : of_le (le_bytes k z) = z mod 256 ^ Z.of_nat k.
Proof.
  revert z. induction k as [|k IH]; intros z; [simpl; by rewrite Z.mod_1_r|].
  cbn [le_bytes of_le]. rewrite IH, b2z_z2b, Nat2Z.inj_succ, Z.pow_succ_r by lia.
  rewrite Z.rem_mul_r by lia. done.
Qed.

Lemma of_le_small k z : 0 <= z < 256 ^ Z.of_nat k → of_le (le_bytes k z) = z.
Proof. intros Hz. rewrite of_le_bytes. by apply Z.mod_small. Qed.

(** The low bytes are those of a shorter integer. *)
Lemma take_le_bytes j k z : (j <= k)%nat → take j (le_bytes k z) = le_bytes j z.
Proof.
  revert k z. induction j as [|j IH]; intros [|k] z Hj; simpl; try done; try lia. rewrite IH by lia. done.
Qed.

Lemma of_le_snoc_zero l : of_le (l ++ [Byte.x00]) = of_le l.
Proof. induction l as [|b l IH]; simpl; [done|]. by rewrite IH. Qed.

#[global] Arguments le_bytes : simpl never.
