(* ===== verification/Shard.v ===== *)
(** One shard of the map: a linear-probing slot table with lazy growth
    (crates/customhash/src/shard.rs, and the per-shard parts of ops.rs).

    The table holds pointers to entries; every entry is owned by exactly one
    slot, so a slot is modelled by [option Entry] ([None] is the null pointer).
    A removed key keeps its entry with the occupied bit clear (a tombstone)
    until the table is rebuilt.  The probe loops are run with the capacity as
    fuel; [probe_spec] shows that a well-formed table never exhausts it.  The
    operations are the sequential semantics of the source, between which the
    insert gate and the grow lock are free; [Gate] interleaves them. *)

From S2P Require Import Prelude.
Local Open Scope Z_scope.

(** ** The state word of an entry

    One atomic [u64]: bit 0 is the writer lock, bit 1 says that the value is
    initialised, and the remaining bits count the writes of the seqlock.  The
    definitions are the word transformers of the source; the lemmas say which
    bits each of them changes. *)
Definition STATE_LOCK : Z := 1.
Definition STATE_OCCUPIED : Z := Z.shiftl 1 1.
Definition STATE_SEQ_ONE : Z := Z.shiftl 1 2.

(** [(state >> 2) as u32] *)
Definition state_seq (state : Z) : Z := (Z.shiftr state 2) mod 2 ^ 32.

(** [state & STATE_OCCUPIED != 0] *)
Definition state_occupied (state : Z) : bool := negb (Z.land state STATE_OCCUPIED =? 0).

(** [state & STATE_LOCK != 0], the test of the spin loops. *)
Definition state_locked (state : Z) : bool := negb (Z.land state STATE_LOCK =? 0).

(** [fetch_or(STATE_OCCUPIED)] or [fetch_and(!STATE_OCCUPIED)] *)
Definition state_set_occupied (state : Z) (occupied : bool) : Z :=
  if occupied then Z.lor state STATE_OCCUPIED else Z.ldiff state STATE_OCCUPIED.

(** [fetch_add(STATE_SEQ_ONE)], which wraps at 64 bits. *)
Definition state_seq_add (state : Z) : Z := wrap64 (state + STATE_SEQ_ONE).

(** The word a successful [state_lock] leaves: the compare-exchange of
    [current] by [current | STATE_LOCK] once the lock bit is clear. *)
Definition state_lock (state : Z) : Z := Z.lor state STATE_LOCK.

(** [fetch_and(!STATE_LOCK)] *)
Definition state_unlock (state : Z) : Z := Z.ldiff state STATE_LOCK.

(** The single store that ends [CustomMap::set] on an occupied entry:
    [(cur + STATE_SEQ_ONE) & !STATE_LOCK]. *)
Definition set_final_occupied (cur : Z) : Z := Z.ldiff (wrap64 (cur + STATE_SEQ_ONE)) STATE_LOCK.

(** The one that ends it on a vacant entry:
    [((cur + STATE_SEQ_ONE) | STATE_OCCUPIED) & !STATE_LOCK]. *)
Definition set_final_vacant (cur : Z) : Z :=
  Z.ldiff (Z.lor (wrap64 (cur + STATE_SEQ_ONE)) STATE_OCCUPIED) STATE_LOCK.

#[global] Arguments state_lock : simpl never.
#[global] Arguments state_unlock : simpl never.
#[global] Arguments state_seq_add : simpl never.
#[global] Arguments state_set_occupied : simpl never.
#[global] Arguments state_occupied : simpl never.
#[global] Arguments state_locked : simpl never.

(** ** Bit lemmas *)

Lemma land_pow2_testbit x i : 0 <= i → negb (Z.land x (2 ^ i) =? 0) = Z.testbit x i.
Proof.
  intros Hi. assert (Hland : Z.land x (2 ^ i) = if Z.testbit x i then 2 ^ i else 0).
  { apply Z.bits_inj'. intros j Hj. rewrite Z.land_spec, Z.pow2_bits_eqb by lia.
    destruct (Z.eqb_spec i j) as [->|Hne].
    - destruct (Z.testbit x j); [by rewrite Z.pow2_bits_true | by rewrite Z.bits_0].
    - rewrite andb_false_r. destruct (Z.testbit x i); [|by rewrite Z.bits_0].
      rewrite Z.pow2_bits_false by lia. done. }
  rewrite Hland. destruct (Z.testbit x i); [|done].
  pose proof (Z.pow_pos_nonneg 2 i ltac:(lia) Hi). destruct (Z.eqb_spec (2 ^ i) 0); [lia|done].
Qed.

Lemma state_occupied_bit x : state_occupied x = Z.testbit x 1.
Proof. apply (land_pow2_testbit x 1). lia. Qed.

Lemma state_locked_bit x : state_locked x = Z.testbit x 0.
Proof. apply (land_pow2_testbit x 0). lia. Qed.

(** Adding a multiple of four, modulo [2^64], keeps the two low bits. *)
Lemma seq_add_low_bits x i : 0 <= i < 2 → Z.testbit (state_seq_add x) i = Z.testbit x i.
Proof.
  intros Hi. unfold state_seq_add, wrap64, u64_mod.
  rewrite Z.mod_pow2_bits_low by lia.
  rewrite <- (Z.mod_pow2_bits_low (x + STATE_SEQ_ONE) 2 i) by lia.
  rewrite <- (Z.mod_pow2_bits_low x 2 i) by lia.
  f_equal. unfold STATE_SEQ_ONE. change (Z.shiftl 1 2) with (1 * 2 ^ 2).
  by rewrite Z.mod_add by lia.
Qed.

Lemma seq_add_range x : 0 <= state_seq_add x < 2 ^ 64.
Proof. apply Z.mod_pos_bound. lia. Qed.

(** One rewriting base evaluates every word transformer on the two flag bits. *)
Lemma lock_bit x i : 0 <= i → Z.testbit (state_lock x) i = Z.testbit x i || (i =? 0).
Proof.
  intros. unfold state_lock, STATE_LOCK. rewrite Z.lor_spec. by destruct i.
Qed.

Lemma unlock_bit x i : 0 <= i → Z.testbit (state_unlock x) i = Z.testbit x i && negb (i =? 0).
Proof.
  intros. unfold state_unlock, STATE_LOCK. rewrite Z.ldiff_spec. by destruct i.
Qed.

Lemma set_occupied_bit x b i :
  0 <= i → Z.testbit (state_set_occupied x b) i = if i =? 1 then b else Z.testbit x i.
Proof.
  intros. unfold state_set_occupied, STATE_OCCUPIED. change (Z.shiftl 1 1) with (2 ^ 1).
  destruct b.
  - rewrite Z.lor_spec, Z.pow2_bits_eqb, (Z.eqb_sym 1) by lia.
    destruct (Z.eqb_spec i 1) as [->|]; [by rewrite orb_true_r | by rewrite orb_false_r].
  - rewrite Z.ldiff_spec, Z.pow2_bits_eqb, (Z.eqb_sym 1) by lia.
    destruct (Z.eqb_spec i 1) as [->|]; [by rewrite andb_false_r | by rewrite andb_true_r].
Qed.

Lemma set_final_occupied_eq cur : set_final_occupied cur = state_unlock (state_seq_add cur).
Proof. done. Qed.

Lemma set_final_vacant_eq cur :
  set_final_vacant cur = state_unlock (state_set_occupied (state_seq_add cur) true).
Proof. done. Qed.

(** Evaluate a flag bit of a word built with the transformers. *)
Ltac flag_bits :=
  repeat first
    [ rewrite set_final_occupied_eq | rewrite set_final_vacant_eq
    | rewrite state_occupied_bit | rewrite state_locked_bit
    | rewrite lock_bit by lia | rewrite unlock_bit by lia
    | rewrite set_occupied_bit by lia | rewrite seq_add_low_bits by lia ];
  cbn [Z.eqb Pos.eqb negb andb orb]; rewrite ?andb_true_r, ?orb_false_r, ?andb_false_r, ?orb_true_r.


Definition LOAD_NUM : Z := 9.
Definition LOAD_DEN : Z := 10.
Definition DEFAULT_SHARD_CAPACITY : Z := 32768.
Definition INITIAL_SHARD_CAPACITY : Z := 8.

(** [value] is [None] while the [MaybeUninit] cell is not initialised. *)
Record Entry (V : Type) := mkEntry {
  e_hash : Z;
  e_key : bytes;
  e_state : Z;
  e_value : option V;
}.
Arguments mkEntry {V} _ _ _ _.
Arguments e_hash {V} _.
Arguments e_key {V} _.
Arguments e_state {V} _.
Arguments e_value {V} _.

Record SlotTable (V : Type) := mkTable {
  slots : list (option (Entry V));
  capacity : Z;
  mask : Z;
  threshold : Z;
}.
Arguments mkTable {V} _ _ _ _.
Arguments slots {V} _.
Arguments capacity {V} _.
Arguments mask {V} _.
Arguments threshold {V} _.

Record Shard (V : Type) := mkShard {
  table : SlotTable V;
  s_len : Z;
}.
Arguments mkShard {V} _ _.
Arguments table {V} _.
Arguments s_len {V} _.

Section Entries.
Context {V : Type}.
Implicit Types e : Entry V.

Definition set_state (st : Z) e : Entry V := mkEntry (e_hash e) (e_key e) st (e_value e).

Definition entry_occupied e : bool := state_occupied (e_state e).

(** Write under the lock on an occupied entry: lock, bump, drop and write the
    value, bump, unlock. *)
Definition entry_overwrite (v : V) e : Entry V :=
  mkEntry (e_hash e) (e_key e)
    (state_unlock (state_seq_add (state_seq_add (state_lock (e_state e))))) (Some v).

(** Write on a vacant entry: lock, bump, write, set the occupied bit, bump, unlock. *)
Definition entry_revive (v : V) e : Entry V :=
  mkEntry (e_hash e) (e_key e)
    (state_unlock (state_seq_add (state_set_occupied
      (state_seq_add (state_lock (e_state e))) true))) (Some v).

(** Remove: lock, bump, drop the value, clear the occupied bit, bump, unlock. *)
Definition entry_clear e : Entry V :=
  mkEntry (e_hash e) (e_key e)
    (state_unlock (state_seq_add (state_set_occupied
      (state_seq_add (state_lock (e_state e))) false))) None.

(** Lock and unlock without a write. *)
Definition entry_touch e : Entry V := set_state (state_unlock (state_lock (e_state e))) e.
End Entries.

(** ** The slot table *)

Section Tables.
Context {V : Type}.
Implicit Types (t : SlotTable V) (s : Shard V) (l : list (option (Entry V))).

(** [SlotTable::new] *)
Definition SlotTable_new (cap : Z) : SlotTable V :=
  let cap := Z.max (next_power_of_two cap) 8 in
  mkTable (replicate (Z.to_nat cap) None) cap (cap - 1) (cap * LOAD_NUM / LOAD_DEN).

Definition Shard_new (cap : Z) : Shard V := mkShard (SlotTable_new cap) 0.

(** Outcome of a probe loop: a matching entry, a null slot, or neither within
    the fuel. *)
Inductive Probe := Hit (i : nat) (e : Entry V) | Miss (i : nat) | Stuck.

(** The probe loop shared by [find], [insert_new] and the rehash loops:
    [i = (i + 1) & mask] until a null slot or an entry accepted by [matches]. *)
Fixpoint probe_loop (fuel : nat) l (msk : Z) (matches : Entry V → bool) (i : Z) : Probe :=
  match fuel with
  | O => Stuck
  | S fuel' =>
      match l !! Z.to_nat i with
      | None => Stuck
      | Some None => Miss (Z.to_nat i)
      | Some (Some e) =>
          if matches e then Hit (Z.to_nat i) e
          else probe_loop fuel' l msk matches (Z.land (i + 1) msk)
      end
  end.

(** [e.hash == hash && e.key == key] *)
Definition key_matches (key : bytes) (hash : Z) (e : Entry V) : bool :=
  (e_hash e =? hash) && bool_decide (e_key e = key).

Definition probe t (matches : Entry V → bool) (hash : Z) : Probe :=
  probe_loop (length (slots t)) (slots t) (mask t) matches (Z.land hash (mask t)).

(** [Shard::find] *)
Definition find s (key : bytes) (hash : Z) : option (nat * Entry V) :=
  match probe (table s) (key_matches key hash) hash with
  | Hit i e => Some (i, e)
  | Miss _ => None
  | Stuck => None
  end.

Definition set_slot t (i : nat) (o : option (Entry V)) : SlotTable V :=
  mkTable (<[i := o]> (slots t)) (capacity t) (mask t) (threshold t).

(** Store an updated entry behind the pointer found at slot [i]. *)
Definition put_entry s (i : nat) (e : Entry V) : Shard V :=
  mkShard (set_slot (table s) i (Some e)) (s_len s).

(** The placement loop of [grow_locked] and [compact_shard]: the first null
    slot from the entry's home. *)
Definition place t (e : Entry V) : SlotTable V :=
  match probe t (λ _, false) (e_hash e) with
  | Miss i => set_slot t i (Some e)
  | _ => t
  end.

(** One iteration of the rehash loop: null and vacant slots are skipped (the
    vacant entry is retired), a live entry is counted and placed. *)
Definition rehash_step (acc : SlotTable V * Z) (o : option (Entry V)) : SlotTable V * Z :=
  match o with
  | None => acc
  | Some e =>
      if negb (entry_occupied e) then acc
      else (place acc.1 e, acc.2 + 1)
  end.

Definition rehash l (t : SlotTable V) : SlotTable V * Z := foldl rehash_step (t, 0) l.

(** [Shard::grow_locked] *)
Definition grow_locked s : Shard V :=
  let old_table := table s in
  if s_len s <? threshold old_table then s
  else
    let new_cap := next_power_of_two (capacity old_table * 2) in
    let '(new_table, live_count) := rehash (slots old_table) (SlotTable_new new_cap) in
    mkShard new_table live_count.

(** [Shard::grow]: the gate is free, so the loop enters at once. *)
Definition grow s : Shard V := grow_locked s.

(** [Shard::insert_new]; each turn of the outer loop either finishes or grows.
    [None] is an exhausted fuel. *)
Fixpoint insert_new_loop (fuel : nat) s (key : bytes) (value : V) (hash : Z)
    : option (Shard V * bool) :=
  match fuel with
  | O => None
  | S fuel' =>
      if threshold (table s) <=? s_len s then insert_new_loop fuel' (grow s) key value hash
      else
        match probe (table s) (key_matches key hash) hash with
        | Miss i =>
            if threshold (table s) <=? s_len s
            then insert_new_loop fuel' (grow s) key value hash
            else
              let entry := mkEntry hash key STATE_OCCUPIED (Some value) in
              Some (mkShard (set_slot (table s) i (Some entry)) (s_len s + 1), true)
        | Hit i e =>
            let was_occupied := entry_occupied e in
            Some (put_entry s i (entry_revive value e), negb was_occupied)
        | Stuck => None
        end
  end.

Definition insert_new s (key : bytes) (value : V) (hash : Z) : Shard V * bool :=
  default (s, false) (insert_new_loop 2 s key value hash).

(** [Shard::insert_hashed] *)
Definition insert_hashed s (key : bytes) (value : V) (hash : Z) : Shard V * bool :=
  match find s key hash with
  | Some (i, existing) =>
      if entry_occupied existing then (put_entry s i (entry_overwrite value existing), false)
      else (put_entry s i (entry_revive value existing), true)
  | None => insert_new s key value hash
  end.

(** The live pairs of a slot list, in slot order. *)
Definition live_pair (o : option (Entry V)) : option (bytes * V) :=
  match o with
  | Some e => if entry_occupied e then (λ v, (e_key e, v)) <$> e_value e else None
  | None => None
  end.
Definition live_pairs l : list (bytes * V) := omap live_pair l.

(** [!p.is_null() && state_occupied(p)] *)
Definition slot_occupied (o : option (Entry V)) : bool :=
  match o with Some e => entry_occupied e | None => false end.

(** [CustomMap::compact_shard] on the shard it selects. *)
Definition shard_compact s : Shard V :=
  let old_table := table s in
  let live_count := Z.of_nat (length (filter (λ o, slot_occupied o = true) (slots old_table))) in
  let new_cap := Z.max (next_power_of_two (live_count * LOAD_DEN / LOAD_NUM + 1)) 8 in
  if capacity old_table <=? new_cap then s
  else
    let '(new_table, _) := rehash (slots old_table) (SlotTable_new new_cap) in
    mkShard new_table live_count.

(** The part of [CustomMap::clear] done for one shard. *)
Definition shard_clear s : Shard V := mkShard (SlotTable_new INITIAL_SHARD_CAPACITY) 0.
End Tables.

(** ** Invariant *)

Section Invariant.
Context {V : Type} (hash_of : bytes → Z).
Implicit Types (t : SlotTable V) (s : Shard V) (l : list (option (Entry V))) (e : Entry V).

(** An entry at rest: its hash is that of its key, it is not locked, and its
    value cell is initialised exactly when the occupied bit is set. *)
Record entry_wf e : Prop := {
  ew_hash : e_hash e = hash_of (e_key e);
  ew_unlocked : state_locked (e_state e) = false;
  ew_value : entry_occupied e = bool_decide (is_Some (e_value e));
}.

(** The slot at distance [d] of home [h]. *)
Definition slot_at (cap h : Z) (d : nat) : nat := Z.to_nat ((h + Z.of_nat d) mod cap).

Definition occupied_at l (j : nat) : Prop := ∃ e, l !! j = Some (Some e).

(** Slot [j] is reached from the entry's home through non-null slots. *)
Definition reach t e (j : nat) : Prop :=
  ∃ d : nat, Z.of_nat d < capacity t ∧ j = slot_at (capacity t) (e_hash e) d ∧
    ∀ d', (d' < d)%nat → occupied_at (slots t) (slot_at (capacity t) (e_hash e) d').

Record geometry t : Prop := {
  tw_pow : ∃ k, 3 <= k ∧ capacity t = 2 ^ k;
  tw_mask : mask t = capacity t - 1;
  tw_threshold : threshold t = capacity t * LOAD_NUM / LOAD_DEN;
  tw_len : Z.of_nat (length (slots t)) = capacity t;
}.

Record table_wf t : Prop := {
  tw_geometry : geometry t;
  tw_entry : ∀ j e, slots t !! j = Some (Some e) → entry_wf e;
  tw_reach : ∀ j e, slots t !! j = Some (Some e) → reach t e j;
  tw_keys : ∀ i j e e', slots t !! i = Some (Some e) → slots t !! j = Some (Some e') →
    e_key e = e_key e' → i = j;
}.

Definition nonnull l : nat := length (filter (λ o, is_Some o) l).

Record shard_wf s : Prop := {
  sw_table : table_wf (table s);
  sw_len : s_len s = Z.of_nat (nonnull (slots (table s)));
  sw_load : s_len s <= threshold (table s);
}.

(** ** Arithmetic of the probe sequence *)

Lemma geometry_cap t : geometry t → 8 <= capacity t.
Proof.
  intros [(k & Hk & ->) _ _ _]. change 8 with (2 ^ 3). apply Z.pow_le_mono_r; lia.
Qed.

Lemma geometry_threshold t : geometry t → threshold t < capacity t.
Proof.
  intros Hg. pose proof (geometry_cap t Hg). rewrite (tw_threshold _ Hg).
  unfold LOAD_NUM, LOAD_DEN. apply Z.div_lt_upper_bound; lia.
Qed.

Lemma land_mask t x : geometry t → Z.land x (mask t) = x mod capacity t.
Proof.
  intros [(k & Hk & Hc) Hm _ _]. rewrite Hm, Hc.
  rewrite <- (Z.land_ones x k) by lia. f_equal. rewrite Z.ones_equiv. lia.
Qed.

Lemma slot_at_lookup t h d : geometry t → is_Some (slots t !! slot_at (capacity t) h d).
Proof.
  intros Hg. apply lookup_lt_is_Some. pose proof (geometry_cap t Hg). pose proof (tw_len _ Hg).
  unfold slot_at. pose proof (Z.mod_pos_bound (h + Z.of_nat d) (capacity t) ltac:(lia)). lia.
Qed.

Lemma slot_at_cover t h j :
  geometry t → (j < length (slots t))%nat →
  ∃ d, Z.of_nat d < capacity t ∧ j = slot_at (capacity t) h d.
Proof.
  intros Hg Hj. pose proof (geometry_cap t Hg). pose proof (tw_len _ Hg) as Hl.
  exists (Z.to_nat ((Z.of_nat j - h) mod capacity t)).
  pose proof (Z.mod_pos_bound (Z.of_nat j - h) (capacity t) ltac:(lia)).
  split; [lia|]. unfold slot_at. rewrite Z2Nat.id by lia.
  rewrite Zplus_mod_idemp_r. replace (h + (Z.of_nat j - h)) with (Z.of_nat j) by lia.
  rewrite Z.mod_small by lia. lia.
Qed.

Lemma probe_step_index t h (d : nat) :
  geometry t →
  Z.land ((h + Z.of_nat d) mod capacity t + 1) (mask t) = (h + Z.of_nat (S d)) mod capacity t.
Proof.
  intros Hg. rewrite land_mask by done. rewrite Zplus_mod_idemp_l. f_equal. lia.
Qed.

Lemma nonnull_lt_null l : (nonnull l < length l)%nat → ∃ j, l !! j = Some None.
Proof.
  induction l as [|o l IH]; unfold nonnull; simpl; [lia|].
  destruct o as [e|]; [|by exists O].
  rewrite filter_cons_True by eauto. simpl. intros Hlt.
  destruct IH as [j Hj]; [unfold nonnull; lia|]. by exists (S j).
Qed.

Lemma nonnull_insert l j e :
  l !! j = Some None → nonnull (<[j := Some e]> l) = S (nonnull l).
Proof.
  unfold nonnull. revert j. induction l as [|o l IH]; intros [|j] Hj; simplify_eq/=.
  - reflexivity.
  - rewrite !filter_cons. case_decide; simpl; by rewrite IH.
Qed.

Lemma nonnull_update l j e e' :
  l !! j = Some (Some e) → nonnull (<[j := Some e']> l) = nonnull l.
Proof.
  unfold nonnull. revert j. induction l as [|o l IH]; intros [|j] Hj; simplify_eq/=.
  - reflexivity.
  - rewrite !filter_cons. case_decide; simpl; by rewrite IH.
Qed.

(** ** The probe loop *)

(** What the loop returns when started [d] slots after home [h], everything
    before having been passed. *)
Lemma probe_walk t m h dn fuel d :
  geometry t →
  slots t !! slot_at (capacity t) h dn = Some None →
  (d <= dn)%nat → (dn < d + fuel)%nat →
  (∀ d', (d' < d)%nat → ∃ e, slots t !! slot_at (capacity t) h d' = Some (Some e) ∧ m e = false) →
  match probe_loop fuel (slots t) (mask t) m ((h + Z.of_nat d) mod capacity t) with
  | Hit j e => slots t !! j = Some (Some e) ∧ m e = true
  | Miss j => slots t !! j = Some None ∧ ∃ d2, (d2 <= dn)%nat ∧ j = slot_at (capacity t) h d2 ∧
      ∀ d', (d' < d2)%nat → ∃ e, slots t !! slot_at (capacity t) h d' = Some (Some e) ∧ m e = false
  | Stuck => False
  end.
Proof.
  intros Hg Hnull. revert d. induction fuel as [|fuel IH]; intros d Hd Hf Hpath; [lia|].
  cbn [probe_loop]. change (Z.to_nat ((h + Z.of_nat d) mod capacity t)) with (slot_at (capacity t) h d).
  destruct (slot_at_lookup t h d Hg) as [o Ho]. rewrite Ho. destruct o as [e|]; [|by eauto].
  destruct (m e) eqn:Hm; [done|].
  rewrite probe_step_index by done. apply IH.
  - destruct (decide (d = dn)) as [->|]; [congruence|lia].
  - lia.
  - intros d' Hd'. destruct (decide (d' = d)) as [->|]; [by eauto|]. apply Hpath. lia.
Qed.

(** A table with a null slot: the probe ends, on a matching entry or on the
    null slot that ends the chain of [h]. *)
Lemma probe_ends t m h :
  geometry t → (nonnull (slots t) < length (slots t))%nat →
  match probe t m h with
  | Hit j e => slots t !! j = Some (Some e) ∧ m e = true
  | Miss j => slots t !! j = Some None ∧ ∃ d2, Z.of_nat d2 < capacity t ∧
      j = slot_at (capacity t) h d2 ∧
      ∀ d', (d' < d2)%nat → ∃ e, slots t !! slot_at (capacity t) h d' = Some (Some e) ∧ m e = false
  | Stuck => False
  end.
Proof.
  intros Hg Hnull. destruct (nonnull_lt_null _ Hnull) as [j Hj].
  destruct (slot_at_cover t h j Hg) as (dn & Hdn & ->); [by eapply lookup_lt_Some|].
  pose proof (tw_len _ Hg).
  pose proof (probe_walk t m h dn (length (slots t)) 0 Hg Hj ltac:(lia) ltac:(lia)
    ltac:(intros; lia)) as Hw.
  unfold probe. rewrite land_mask by done. rewrite Z.add_0_r in Hw.
  destruct (probe_loop _ _ _ _ _); [done| |done].
  destruct Hw as (? & d2 & ? & ? & ?). split; [done|]. exists d2. split; [lia|]. done.
Qed.

Lemma key_matches_true k e : entry_wf e → key_matches k (hash_of k) e = true ↔ e_key e = k.
Proof.
  intros Hw. unfold key_matches. rewrite andb_true_iff, Z.eqb_eq, bool_decide_eq_true.
  split; [by intros []|]. intros <-. split; [apply (ew_hash _ Hw)|done].
Qed.

(** Lookup by probing is exact: it hits the entry of the key when there is
    one, and otherwise ends on the slot where the key can be inserted. *)
Lemma probe_spec t k :
  table_wf t → (nonnull (slots t) < length (slots t))%nat →
  match probe t (key_matches k (hash_of k)) (hash_of k) with
  | Hit j e => slots t !! j = Some (Some e) ∧ e_key e = k
  | Miss j => slots t !! j = Some None ∧
      (∀ i e, slots t !! i = Some (Some e) → e_key e ≠ k) ∧
      ∃ d, Z.of_nat d < capacity t ∧ j = slot_at (capacity t) (hash_of k) d ∧
        ∀ d', (d' < d)%nat → occupied_at (slots t) (slot_at (capacity t) (hash_of k) d')
  | Stuck => False
  end.
Proof.
  intros Hw Hnull. pose proof (tw_geometry _ Hw) as Hg.
  pose proof (probe_ends t (key_matches k (hash_of k)) (hash_of k) Hg Hnull) as Hp.
  destruct (probe _ _ _) as [j e|j|]; [| |done].
  - destruct Hp as [Hj Hm]. split; [done|]. eapply key_matches_true; [|done].
    by eapply tw_entry.
  - destruct Hp as (Hj & d2 & Hd2 & -> & Hpath). split; [done|]. split.
    + intros i e Hi Hk. pose proof (tw_entry _ Hw _ _ Hi) as He.
      destruct (tw_reach _ Hw _ _ Hi) as (d & Hd & -> & Hr).
      rewrite (ew_hash _ He), Hk in *.
      destruct (Nat.lt_trichotomy d d2) as [Hlt|[->|Hlt]].
      * destruct (Hpath d Hlt) as (e' & He' & Hm). rewrite Hi in He'. simplify_eq.
        assert (key_matches (e_key e') (hash_of (e_key e')) e' = true) by by apply key_matches_true.
        congruence.
      * congruence.
      * destruct (Hr d2 Hlt) as [e' He']. congruence.
    + exists d2. split; [done|]. split; [done|]. intros d' Hd'.
      destruct (Hpath d' Hd') as (e' & He' & _). by exists e'.
Qed.

(** ** Live entries and the abstract map of a table *)

Definition live_entry (o : option (Entry V)) : option (Entry V) :=
  match o with Some e => if entry_occupied e then Some e else None | None => None end.
Definition live_entries l : list (Entry V) := omap live_entry l.

(** The finite map a table stands for. *)
Definition table_map t : gmap bytes V := list_to_map (live_pairs (slots t)).

Definition distinct_keys l : Prop :=
  ∀ i j e e', l !! i = Some (Some e) → l !! j = Some (Some e') → e_key e = e_key e' → i = j.

Lemma elem_of_live_entries l e :
  e ∈ live_entries l ↔ entry_occupied e = true ∧ ∃ j, l !! j = Some (Some e).
Proof.
  unfold live_entries. rewrite list_elem_of_omap. split.
  - intros ([e'|] & Hin & He); simplify_eq/=. case_match; simplify_eq.
    apply list_elem_of_lookup in Hin. eauto.
  - intros (Hocc & j & Hj). exists (Some e). split; [by eapply list_elem_of_lookup_2|].
    simpl. by rewrite Hocc.
Qed.

Lemma distinct_keys_cons o l : distinct_keys (o :: l) → distinct_keys l.
Proof. intros H i j e e' Hi Hj Hk. specialize (H (S i) (S j) e e' Hi Hj Hk). lia. Qed.

Lemma live_entries_NoDup l : distinct_keys l → NoDup (e_key <$> live_entries l).
Proof.
  induction l as [|o l IH]; intros Hd; [constructor|].
  pose proof (IH (distinct_keys_cons _ _ Hd)) as IH'. unfold live_entries in *. simpl.
  destruct (live_entry o) as [e|] eqn:Ho; [|done].
  destruct o as [e'|]; simpl in Ho; [|done]. case_match; simplify_eq. simpl.
  constructor; [|done]. intros (e2 & Hk & Hin)%list_elem_of_fmap.
  apply (elem_of_live_entries l) in Hin as (_ & j & Hj).
  by specialize (Hd O (S j) e _ eq_refl Hj Hk).
Qed.

Lemma live_pairs_entries l :
  live_pairs l = omap (λ e, (λ v, (e_key e, v)) <$> e_value e) (live_entries l).
Proof.
  unfold live_pairs, live_entries. induction l as [|[e|] l IH]; [done| |done].
  simpl. destruct (entry_occupied e); simpl; [|exact IH].
  destruct (e_value e); simpl; [f_equal|]; exact IH.
Qed.

Lemma live_pairs_keys (es : list (Entry V)) :
  (∀ e, e ∈ es → is_Some (e_value e)) →
  (omap (λ e, (λ v, (e_key e, v)) <$> e_value e) es).*1 = e_key <$> es.
Proof.
  induction es as [|e es IH]; intros Hv; [done|]. simpl.
  destruct (Hv e) as [v ->]; [set_solver|]. simpl. f_equal. apply IH. set_solver.
Qed.

Lemma entry_live_value e : entry_wf e → entry_occupied e = true → is_Some (e_value e).
Proof. intros He Hocc. rewrite (ew_value _ He) in Hocc. by apply bool_decide_eq_true in Hocc. Qed.

Lemma live_pairs_NoDup l :
  distinct_keys l → (∀ j e, l !! j = Some (Some e) → entry_wf e) → NoDup (live_pairs l).*1.
Proof.
  intros Hd Hw. rewrite live_pairs_entries, live_pairs_keys; [by apply live_entries_NoDup|].
  intros e (Hocc & j & Hj)%elem_of_live_entries. by eapply entry_live_value; eauto.
Qed.

(** Membership in the abstract map, by entries. *)
Definition holds l (k : bytes) (v : V) : Prop :=
  ∃ j e, l !! j = Some (Some e) ∧ e_key e = k ∧ entry_occupied e = true ∧ e_value e = Some v.

Lemma elem_of_live_pairs l k v : (k, v) ∈ live_pairs l ↔ holds l k v.
Proof.
  unfold holds. rewrite live_pairs_entries, list_elem_of_omap. split.
  - intros (e & (Hocc & j & Hj)%elem_of_live_entries & Hv).
    destruct (e_value e) eqn:Hval; simplify_eq/=. eauto 10.
  - intros (j & e & Hj & <- & Hocc & Hv). exists e. rewrite elem_of_live_entries, Hv. eauto.
Qed.

Lemma table_map_lookup t k v :
  table_wf t → table_map t !! k = Some v ↔ holds (slots t) k v.
Proof.
  intros Hw. unfold table_map. rewrite <- elem_of_live_pairs.
  symmetry. apply elem_of_list_to_map.
  apply live_pairs_NoDup; [exact (tw_keys _ Hw)|exact (tw_entry _ Hw)].
Qed.

Lemma table_map_size t : table_wf t → size (table_map t) = length (live_entries (slots t)).
Proof.
  intros Hw. unfold table_map.
  rewrite map_size_list_to_map
    by (apply live_pairs_NoDup; [exact (tw_keys _ Hw)|exact (tw_entry _ Hw)]).
  rewrite live_pairs_entries, <- (length_fmap fst), live_pairs_keys, length_fmap; [done|].
  intros e (Hocc & j & Hj)%elem_of_live_entries. eapply entry_live_value; [|done].
  by eapply tw_entry.
Qed.

Lemma map_eq_holds t (m : gmap bytes V) :
  table_wf t → (∀ k v, holds (slots t) k v ↔ m !! k = Some v) → table_map t = m.
Proof.
  intros Hw H. apply map_eq. intros k. apply option_eq. intros v.
  by rewrite table_map_lookup, H.
Qed.

Lemma holds_insert l i e k v :
  (i < length l)%nat →
  holds (<[i := Some e]> l) k v ↔
    (e_key e = k ∧ entry_occupied e = true ∧ e_value e = Some v) ∨
    (∃ j e', j ≠ i ∧ l !! j = Some (Some e') ∧ e_key e' = k ∧ entry_occupied e' = true ∧
       e_value e' = Some v).
Proof.
  intros Hi. unfold holds. split.
  - intros (j & e' & Hj & ?). destruct (decide (j = i)) as [->|Hne].
    + rewrite list_lookup_insert_eq in Hj by done. simplify_eq. by left.
    + rewrite list_lookup_insert_ne in Hj by done. right. eauto 10.
  - intros [?|(j & e' & Hne & Hj & ?)].
    + exists i, e. by rewrite list_lookup_insert_eq.
    + exists j, e'. by rewrite list_lookup_insert_ne.
Qed.

(** ** Entry operations keep the entry invariant *)

Lemma entry_overwrite_wf v e : entry_wf e → entry_occupied e = true → entry_wf (entry_overwrite v e).
Proof.
  intros [Hh Hl Hv] Hocc. unfold entry_occupied in *. split; simpl; [done| |].
  - by flag_bits.
  - revert Hocc. unfold entry_occupied. simpl. by flag_bits.
Qed.

Lemma entry_revive_wf v e : entry_wf e → entry_wf (entry_revive v e).
Proof.
  intros [Hh Hl Hv]. split; [done| |]; unfold entry_occupied; simpl; flag_bits; done.
Qed.

Lemma entry_clear_wf e : entry_wf e → entry_wf (entry_clear e).
Proof.
  intros [Hh Hl Hv]. split; [done| |]; unfold entry_occupied; simpl; flag_bits; done.
Qed.

Lemma entry_overwrite_occ v e :
  entry_occupied e = true → entry_occupied (entry_overwrite v e) = true.
Proof. unfold entry_occupied. simpl. by flag_bits. Qed.
Lemma entry_revive_occ v e : entry_occupied (entry_revive v e) = true.
Proof. unfold entry_occupied. simpl. by flag_bits. Qed.
Lemma entry_clear_occ e : entry_occupied (entry_clear e) = false.
Proof. unfold entry_occupied. simpl. by flag_bits. Qed.

(** ** Slot updates keep the table invariant *)

Lemma reach_mono t i e0 e j :
  reach t e j → reach (set_slot t i (Some e0)) e j.
Proof.
  intros (d & Hd & -> & Hpath). exists d. split; [done|]. split; [done|].
  intros d' Hd'. destruct (Hpath d' Hd') as [e' He']. unfold occupied_at, set_slot; simpl.
  destruct (decide (slot_at (capacity t) (e_hash e) d' = i)) as [<-|Hne].
  - exists e0. apply list_lookup_insert_eq. by eapply lookup_lt_Some.
  - exists e'. by rewrite list_lookup_insert_ne.
Qed.

Lemma geometry_set_slot t i o : geometry t → geometry (set_slot t i o).
Proof. intros [? ? ? ?]. split; simpl; auto. by rewrite length_insert. Qed.

(** Storing an entry that is reachable at [i] and whose key is no other
    slot's. *)
Lemma table_wf_set t i e :
  table_wf t → (i < length (slots t))%nat → entry_wf e → reach t e i →
  (∀ j e', j ≠ i → slots t !! j = Some (Some e') → e_key e' ≠ e_key e) →
  table_wf (set_slot t i (Some e)).
Proof.
  intros [Hg He Hr Hk] Hi Hew Hre Hfresh. split.
  - by apply geometry_set_slot.
  - intros j e' Hj. simpl in Hj. apply list_lookup_insert_Some in Hj as [(-> & ? & _)|(? & Hj)];
      [by simplify_eq|eauto].
  - intros j e' Hj. simpl in Hj. apply reach_mono.
    apply list_lookup_insert_Some in Hj as [(-> & ? & _)|(? & Hj)]; [by simplify_eq|eauto].
  - intros a b ea eb Ha Hb Heq. simpl in *.
    apply list_lookup_insert_Some in Ha as [(-> & ? & _)|(Hna & Ha)];
    apply list_lookup_insert_Some in Hb as [(-> & ? & _)|(Hnb & Hb)]; simplify_eq; eauto.
    + exfalso. eapply Hfresh; [|exact Hb|]; congruence.
    + exfalso. eapply Hfresh; [|exact Ha|]; congruence.
Qed.

(** Updating in place the entry found at slot [i]. *)
Lemma table_wf_update t i e e' :
  table_wf t → slots t !! i = Some (Some e) → entry_wf e' → e_key e' = e_key e →
  table_wf (set_slot t i (Some e')).
Proof.
  intros Hw Hi He' Hk. apply table_wf_set; [done|by eapply lookup_lt_Some|done| |].
  - pose proof (tw_reach _ Hw _ _ Hi) as Hr. unfold reach in *.
    by rewrite (ew_hash _ He'), Hk, <- (ew_hash _ (tw_entry _ Hw _ _ Hi)).
  - intros j e2 Hne Hj Heq. apply Hne. eapply (tw_keys _ Hw); [done|done|congruence].
Qed.

Lemma shard_wf_put s i e e' :
  shard_wf s → slots (table s) !! i = Some (Some e) → entry_wf e' → e_key e' = e_key e →
  shard_wf (put_entry s i e').
Proof.
  intros [Ht Hl Hload] Hi He' Hk. split; simpl.
  - by eapply table_wf_update.
  - by rewrite (nonnull_update _ _ e).
  - done.
Qed.

Lemma table_map_put t i e e' v :
  table_wf t → slots t !! i = Some (Some e) → entry_wf e' → e_key e' = e_key e →
  e_value e' = Some v →
  table_map (set_slot t i (Some e')) = <[e_key e := v]> (table_map t).
Proof.
  intros Hw Hi He' Hk Hv. apply map_eq_holds; [by eapply table_wf_update|].
  assert (Hocc : entry_occupied e' = true)
    by (rewrite (ew_value _ He'), Hv; apply bool_decide_eq_true; eauto).
  intros k v'. simpl. rewrite holds_insert by (by eapply lookup_lt_Some).
  rewrite lookup_insert_Some, table_map_lookup by done. split.
  - intros [(<- & _ & ?)|(j & e2 & Hne & Hj & <- & ?)]; [left; split; congruence|].
    right. split; [|by exists j, e2].
    intros Heq. apply Hne. eapply (tw_keys _ Hw); [exact Hj|exact Hi|done].
  - intros [(<- & <-)|(Hne & j & e2 & Hj & <- & ?)]; [left; done|].
    right. exists j, e2. split; [|done]. intros ->. congruence.
Qed.

Lemma table_map_clear t i e e' :
  table_wf t → slots t !! i = Some (Some e) → entry_wf e' → e_key e' = e_key e →
  entry_occupied e' = false →
  table_map (set_slot t i (Some e')) = delete (e_key e) (table_map t).
Proof.
  intros Hw Hi He' Hk Hocc. apply map_eq_holds; [by eapply table_wf_update|].
  intros k v'. simpl. rewrite holds_insert by (by eapply lookup_lt_Some).
  rewrite lookup_delete_Some, table_map_lookup by done. split.
  - intros [(_ & ? & _)|(j & e2 & Hne & Hj & <- & ?)]; [congruence|].
    split; [|by exists j, e2]. intros Heq. apply Hne. by eapply (tw_keys _ Hw).
  - intros (Hne & j & e2 & Hj & <- & ?). right. exists j, e2. split; [|done].
    intros ->. congruence.
Qed.
End Invariant.
