(* ===== verification/ShardSpec.v ===== *)
(** Correctness of the shard operations: every operation keeps the shard
    invariant, its loops end within their fuel, and it acts on the table's
    abstract map as the finite-map operation it implements. *)

From S2P Require Import Prelude Shard.
Local Open Scope Z_scope.

Section ShardOps.
Context {V : Type} (hash_of : bytes → Z).
Implicit Types (t : SlotTable V) (s : Shard V) (l : list (option (Entry V))) (e : Entry V).

Abbreviation entry_wf := (entry_wf (V:=V) hash_of).
Abbreviation table_wf := (table_wf (V:=V) hash_of).
Abbreviation shard_wf := (shard_wf (V:=V) hash_of).

(** ** Fresh tables *)

Lemma next_power_of_two_pow n : ∃ k, 0 <= k ∧ next_power_of_two n = 2 ^ k.
Proof.
  unfold next_power_of_two. destruct (n <=? 1) eqn:E; [by exists 0|].
  exists (Z.log2 (n - 1) + 1). pose proof (Z.log2_nonneg (n - 1)). split; [lia|done].
Qed.

Lemma next_power_of_two_ge n : n <= next_power_of_two n.
Proof.
  unfold next_power_of_two. destruct (n <=? 1) eqn:E; split_bool; [lia|].
  pose proof (Z.log2_spec (n - 1) ltac:(lia)) as [_ H]. rewrite Z.add_1_r. lia.
Qed.

Lemma nonnull_replicate n : nonnull (replicate n (@None (Entry V))) = O.
Proof. unfold nonnull. induction n; [done|]. simpl. exact IHn. Qed.

Lemma SlotTable_new_cap c : capacity (@SlotTable_new V c) = Z.max (next_power_of_two c) 8.
Proof. done. Qed.

Lemma SlotTable_new_geometry c : geometry (@SlotTable_new V c).
Proof.
  destruct (next_power_of_two_pow c) as (k & Hk & Hp).
  split; simpl; [|done|done|rewrite length_replicate; lia].
  rewrite Hp. destruct (Z.max_spec (2 ^ k) 8) as [[H ->]|[H ->]].
  - exists 3. by split.
  - exists k. split; [|done]. change 8 with (2 ^ 3) in H. apply Z.pow_le_mono_r_iff in H; lia.
Qed.

Lemma SlotTable_new_lookup c j e : slots (@SlotTable_new V c) !! j ≠ Some (Some e).
Proof. simpl. intros [? _]%lookup_replicate_1. done. Qed.

Lemma SlotTable_new_wf c : table_wf (SlotTable_new c).
Proof.
  split; [apply SlotTable_new_geometry|..]; intros * H;
    by apply SlotTable_new_lookup in H.
Qed.

Lemma holds_new c k v : ¬ holds (slots (@SlotTable_new V c)) k v.
Proof. intros (j & e & Hj & _). by apply SlotTable_new_lookup in Hj. Qed.

Lemma Shard_new_wf c : shard_wf (Shard_new c).
Proof.
  split; simpl; [apply SlotTable_new_wf|by rewrite nonnull_replicate|].
  unfold LOAD_NUM, LOAD_DEN. apply Z.div_pos; lia.
Qed.

Lemma Shard_new_map c : table_map (table (@Shard_new V c)) = ∅.
Proof.
  unfold Shard_new; simpl. eapply (map_eq_holds hash_of); [apply SlotTable_new_wf|].
  intros k v. rewrite lookup_empty. split; [|done]. intros H. by apply holds_new in H.
Qed.

(** ** Rehashing *)

Lemma place_spec t e :
  table_wf t → (nonnull (slots t) < length (slots t))%nat →
  entry_wf e → (∀ j e', slots t !! j = Some (Some e') → e_key e' ≠ e_key e) →
  ∃ i, slots t !! i = Some None ∧ place t e = set_slot t i (Some e) ∧ table_wf (place t e).
Proof.
  intros Hw Hnull He Hfresh. pose proof (tw_geometry _ _ Hw) as Hg.
  pose proof (probe_ends t (λ _, false) (e_hash e) Hg Hnull) as Hp. unfold place.
  destruct (probe _ _ _) as [j e'|j|]; [by destruct Hp| |done].
  destruct Hp as (Hj & d & Hd & -> & Hpath). eexists. split; [done|]. split; [done|].
  eapply table_wf_set; [done|by eapply lookup_lt_Some|done| |].
  - exists d. split; [done|]. split; [done|]. intros d' Hd'.
    destruct (Hpath d' Hd') as (e' & He' & _). by exists e'.
  - eauto.
Qed.

Definition place_all (es : list (Entry V)) t (c : Z) : SlotTable V * Z :=
  foldl (λ acc e, (place acc.1 e, acc.2 + 1)) (t, c) es.

Lemma rehash_place_all l t c :
  foldl rehash_step (t, c) l = place_all (live_entries l) t c.
Proof.
  revert t c. unfold place_all, live_entries.
  induction l as [|[e|] l IH]; intros t c; [done| |apply IH].
  simpl. destruct (entry_occupied e); simpl; apply IH.
Qed.

Lemma place_all_spec es t c :
  table_wf t → (nonnull (slots t) + length es < length (slots t))%nat →
  (∀ e, e ∈ es → entry_wf e) → NoDup (e_key <$> es) →
  (∀ j e' e, slots t !! j = Some (Some e') → e ∈ es → e_key e' ≠ e_key e) →
  let '(t', c') := place_all es t c in
  table_wf t' ∧ capacity t' = capacity t ∧ threshold t' = threshold t ∧
  nonnull (slots t') = (nonnull (slots t) + length es)%nat ∧
  c' = c + Z.of_nat (length es) ∧
  ∀ k v, holds (slots t') k v ↔ holds (slots t) k v ∨
    ∃ e, e ∈ es ∧ e_key e = k ∧ entry_occupied e = true ∧ e_value e = Some v.
Proof.
  revert t c. induction es as [|e es IH]; intros t c Hw Hlen Hes Hnd Hfresh; simpl.
  - split; [done|]. split; [done|]. split; [done|]. split; [lia|]. split; [lia|].
    intros k v. split; [by left|]. intros [?|(e & He & _)]; [done|by apply elem_of_nil in He].
  - simpl in Hlen. apply NoDup_cons in Hnd as [Hnin Hnd].
    destruct (place_spec t e) as (i & Hi & Hpl & Hw'); [done|lia|set_solver| |].
    { intros j e' Hj. eapply Hfresh; [done|set_solver]. }
    specialize (IH (place t e) (c + 1)). rewrite Hpl in *. unfold place_all in *. simpl.
    rewrite Hpl. simpl in IH. rewrite (nonnull_insert _ _ _ Hi), length_insert in IH.
    destruct (foldl _ _ _) as [t' c'] eqn:Hfold.
    destruct IH as (? & ? & ? & ? & ? & Hholds); [done|lia|set_solver|done| |].
    { intros j e' e2 Hj He2. apply list_lookup_insert_Some in Hj as [(_ & ? & _)|(_ & Hj)].
      - simplify_eq. intros Hk. apply Hnin. rewrite Hk. by apply list_elem_of_fmap_2.
      - eapply Hfresh; [done|set_solver]. }
    split; [done|]. split; [done|]. split; [done|]. split; [lia|]. split; [lia|].
    intros k v. rewrite Hholds, holds_insert by (by eapply lookup_lt_Some).
    split.
    + intros [[?|(j & e2 & Hne & Hj & ?)]|(e2 & ? & ?)].
      * right. exists e. rewrite elem_of_cons. auto.
      * left. by exists j, e2.
      * right. exists e2. rewrite elem_of_cons. auto.
    + intros [(j & e2 & Hj & ?)|(e2 & [->|He2]%elem_of_cons & ?)].
      * left. right. exists j, e2. split; [|done]. intros ->. congruence.
      * by left; left.
      * right. by exists e2.
Qed.

Lemma live_entries_le_nonnull l : (length (live_entries l) <= nonnull l)%nat.
Proof.
  unfold live_entries, nonnull. induction l as [|[e|] l IH]; [done| |exact IH].
  rewrite filter_cons_True by eauto. simpl.
  destruct (entry_occupied e); simpl; [apply le_n_S|apply le_S]; exact IH.
Qed.

(** Rebuilding a table into a fresh one that is large enough keeps its map. *)
Lemma rehash_spec t c :
  table_wf t →
  (Z.of_nat (length (live_entries (slots t))) < Z.max (next_power_of_two c) 8) →
  let '(t', n) := rehash (slots t) (SlotTable_new c) in
  table_wf t' ∧ capacity t' = Z.max (next_power_of_two c) 8 ∧
  nonnull (slots t') = length (live_entries (slots t)) ∧
  n = Z.of_nat (length (live_entries (slots t))) ∧
  table_map t' = table_map t.
Proof.
  intros Hw Hroom. unfold rehash. rewrite rehash_place_all.
  pose proof (place_all_spec (live_entries (slots t)) (SlotTable_new c) 0) as Hp.
  destruct (place_all _ _ _) as [t' n]. simpl in Hp.
  rewrite nonnull_replicate, length_replicate in Hp.
  destruct Hp as (Hw' & Hcap & _ & Hnn & Hn & Hholds).
  - apply SlotTable_new_wf.
  - lia.
  - intros e (_ & j & Hj)%elem_of_live_entries. by eapply tw_entry.
  - apply live_entries_NoDup. exact (tw_keys _ _ Hw).
  - intros j e' e Hj. exfalso. by apply (SlotTable_new_lookup c) in Hj.
  - split; [done|]. split; [done|]. split; [done|]. split; [lia|].
    eapply (map_eq_holds hash_of); [done|]. intros k v.
    rewrite Hholds, (table_map_lookup hash_of) by done. split.
    + intros [H|(e & (Hocc & j & Hj)%elem_of_live_entries & ? & ? & ?)];
        [by apply holds_new in H|]. by exists j, e.
    + intros (j & e & Hj & Hk & Hocc & Hv). right. exists e.
      rewrite elem_of_live_entries. by eauto 10.
Qed.

Lemma threshold_lower c : 8 <= c → c <= 2 * (c * LOAD_NUM / LOAD_DEN).
Proof.
  unfold LOAD_NUM, LOAD_DEN. intros Hc.
  pose proof (Z.div_mod (c * 9) 10 ltac:(lia)). pose proof (Z.mod_pos_bound (c * 9) 10 ltac:(lia)). lia.
Qed.

Lemma nonnull_bound s : shard_wf s → (nonnull (slots (table s)) < length (slots (table s)))%nat.
Proof.
  intros [Hw Hl Hload]. pose proof (tw_geometry _ _ Hw) as Hg.
  pose proof (geometry_threshold _ Hg). pose proof (tw_len _ Hg). lia.
Qed.

Lemma grow_spec s :
  shard_wf s → shard_wf (grow s) ∧ table_map (table (grow s)) = table_map (table s) ∧
  s_len (grow s) < threshold (table (grow s)).
Proof.
  intros Hs. pose proof Hs as [Hw Hl Hload]. unfold grow, grow_locked.
  pose proof (tw_geometry _ _ Hw) as Hg. pose proof (geometry_cap _ Hg) as Hcap.
  destruct (s_len s <? threshold (table s)) eqn:E; split_bool; [done|].
  pose proof (live_entries_le_nonnull (slots (table s))).
  pose proof (geometry_threshold _ Hg).
  pose proof (next_power_of_two_ge (next_power_of_two (capacity (table s) * 2))).
  pose proof (next_power_of_two_ge (capacity (table s) * 2)).
  pose proof (rehash_spec (table s) (next_power_of_two (capacity (table s) * 2)) Hw ltac:(lia)) as Hr.
  destruct (rehash _ _) as [t' n]. destruct Hr as (Hw' & Hcap' & Hnn & Hn & Hmap).
  pose proof (tw_threshold _ (tw_geometry _ _ Hw')) as Hthr.
  pose proof (threshold_lower (capacity t') ltac:(lia)).
  assert (n < threshold t') by lia.
  split; [|by simpl]. split; simpl; [done|lia|lia].
Qed.

(** ** Lookup *)

(** [find] never exhausts its fuel and returns the entry of the key, vacant or
    not, when the table has one. *)
Lemma find_spec s k :
  shard_wf s →
  match find s k (hash_of k) with
  | Some (i, e) => slots (table s) !! i = Some (Some e) ∧ e_key e = k ∧ entry_wf e
  | None => ∀ i e, slots (table s) !! i = Some (Some e) → e_key e ≠ k
  end.
Proof.
  intros Hs. pose proof (probe_spec hash_of (table s) k (sw_table _ _ Hs) (nonnull_bound _ Hs)) as Hp.
  unfold find. destruct (probe _ _ _) as [i e|i|]; [|by destruct Hp as (? & ? & ?)|done].
  destruct Hp as [Hi Hk]. split; [done|]. split; [done|]. exact (tw_entry _ _ (sw_table _ _ Hs) _ _ Hi).
Qed.

Lemma find_map s k :
  shard_wf s →
  table_map (table s) !! k =
    match find s k (hash_of k) with
    | Some (_, e) => if entry_occupied e then e_value e else None
    | None => None
    end.
Proof.
  intros Hs. pose proof (find_spec s k Hs) as Hf. pose proof (sw_table _ _ Hs) as Hw.
  apply option_eq. intros v. rewrite (table_map_lookup hash_of) by done.
  destruct (find s k (hash_of k)) as [[i e]|].
  - destruct Hf as (Hi & Hk & He). destruct (entry_occupied e) eqn:Hocc.
    + split; [|intros; by exists i, e]. intros (j & e' & Hj & Hk' & _ & Hv).
      assert (i = j) as <- by (eapply (tw_keys _ _ Hw); [done..|congruence]). congruence.
    + split; [|done]. intros (j & e' & Hj & Hk' & Hocc' & _).
      assert (i = j) as <- by (eapply (tw_keys _ _ Hw); [done..|congruence]). congruence.
  - split; [|done]. intros (j & e & Hj & Hk & _). by apply Hf in Hj.
Qed.

(** ** Insertion *)

Lemma put_wf_map s i e e' v :
  shard_wf s → slots (table s) !! i = Some (Some e) → entry_wf e' → e_key e' = e_key e →
  e_value e' = Some v →
  shard_wf (put_entry s i e') ∧
  table_map (table (put_entry s i e')) = <[e_key e := v]> (table_map (table s)).
Proof.
  intros Hs Hi He' Hk Hv. split; [by eapply shard_wf_put|].
  eapply (table_map_put hash_of); eauto. by apply sw_table.
Qed.

Lemma insert_new_step s k v :
  shard_wf s → s_len s < threshold (table s) →
  ∃ s' b, insert_new_loop 1 s k v (hash_of k) = Some (s', b) ∧ shard_wf s' ∧
    table_map (table s') = <[k := v]> (table_map (table s)) ∧
    b = bool_decide (table_map (table s) !! k = None).
Proof.
  intros Hs Hlt. pose proof (sw_table _ _ Hs) as Hw. pose proof (tw_geometry _ _ Hw) as Hg.
  pose proof (probe_spec hash_of (table s) k Hw (nonnull_bound _ Hs)) as Hp.
  pose proof (find_map s k Hs) as Hfm. unfold find in Hfm.
  cbn [insert_new_loop]. rewrite (proj2 (Z.leb_gt _ _) Hlt).
  destruct (probe _ _ _) as [i e|i|]; [| |done].
  - destruct Hp as [Hi <-]. pose proof (tw_entry _ _ Hw _ _ Hi) as He.
    destruct (put_wf_map s i e (entry_revive v e) v) as [? Hmap]; auto using entry_revive_wf.
    eexists _, _. split; [done|]. split; [done|]. split; [done|]. rewrite Hfm.
    destruct (entry_occupied e) eqn:Hocc; [|done].
    destruct (entry_live_value _ e He Hocc) as [w ->]. done.
  - destruct Hp as (Hi & Hfresh & d & Hd & -> & Hpath). rewrite Hfm.
    set (e := mkEntry _ _ _ _).
    assert (Hw' : table_wf (set_slot (table s) (slot_at (capacity (table s)) (hash_of k) d) (Some e))).
    { eapply table_wf_set; [done|by eapply lookup_lt_Some|done| |].
      - exists d. by split.
      - intros j e' _ Hj. by apply Hfresh in Hj. }
    eexists _, _. split; [done|]. split; [|split; [|done]].
    + split; simpl; [done|by rewrite nonnull_insert, (sw_len _ _ Hs), Nat2Z.inj_succ|lia].
    + eapply (map_eq_holds hash_of); [done|]. intros k' v'. simpl.
      rewrite holds_insert, lookup_insert_Some, (table_map_lookup hash_of)
        by (done || by eapply lookup_lt_Some). split.
      * intros [(<- & _ & [= <-])|(j & e' & Hne & Hj & <- & ?)]; [by left|].
        right. split; [|by exists j, e']. intros ->. by apply Hfresh in Hj.
      * intros [[<- <-]|(Hne & j & e' & Hj & <- & ?)]; [by left|].
        right. exists j, e'. split; [|done]. intros ->. congruence.
Qed.

(** Two turns of the outer loop are enough: after one growth the table has
    room. *)
Lemma insert_new_spec s k v :
  shard_wf s →
  ∃ s' b, insert_new_loop 2 s k v (hash_of k) = Some (s', b) ∧ shard_wf s' ∧
    table_map (table s') = <[k := v]> (table_map (table s)) ∧
    b = bool_decide (table_map (table s) !! k = None).
Proof.
  intros Hs. destruct (Z.lt_ge_cases (s_len s) (threshold (table s))) as [Hlt|Hge].
  - destruct (insert_new_step s k v Hs Hlt) as (s' & b & H1 & ?).
    exists s', b. split; [|done]. revert H1. cbn [insert_new_loop].
    rewrite (proj2 (Z.leb_gt _ _) Hlt). by destruct (probe _ _ _).
  - destruct (grow_spec s Hs) as (Hg & Hm & Hlt).
    destruct (insert_new_step (grow s) k v Hg Hlt) as (s' & b & H1 & ? & ? & ?).
    exists s', b. rewrite Hm in *. split; [|done].
    rewrite <- H1. cbn [insert_new_loop]. by rewrite (proj2 (Z.leb_le _ _) Hge).
Qed.

Lemma insert_new_correct s k v :
  shard_wf s →
  let '(s', b) := insert_new s k v (hash_of k) in
  shard_wf s' ∧ table_map (table s') = <[k := v]> (table_map (table s)) ∧
  b = bool_decide (table_map (table s) !! k = None).
Proof.
  intros Hs. destruct (insert_new_spec s k v Hs) as (s' & b & H & ?).
  unfold insert_new. rewrite H. done.
Qed.

Lemma insert_hashed_correct s k v :
  shard_wf s →
  let '(s', b) := insert_hashed s k v (hash_of k) in
  shard_wf s' ∧ table_map (table s') = <[k := v]> (table_map (table s)) ∧
  b = bool_decide (table_map (table s) !! k = None).
Proof.
  intros Hs. pose proof (find_spec s k Hs) as Hf. pose proof (find_map s k Hs) as Hfm.
  unfold insert_hashed. destruct (find s k (hash_of k)) as [[i e]|];
    [|by apply insert_new_correct].
  destruct Hf as (Hi & <- & He). rewrite Hfm. destruct (entry_occupied e) eqn:Hocc.
  - destruct (put_wf_map s i e (entry_overwrite v e) v); auto using entry_overwrite_wf.
    destruct (entry_live_value _ e He Hocc) as [w ->]. done.
  - destruct (put_wf_map s i e (entry_revive v e) v); auto using entry_revive_wf.
Qed.

(** Removing behind the pointer found by [find]. *)
Lemma clear_wf_map s i e :
  shard_wf s → slots (table s) !! i = Some (Some e) →
  shard_wf (put_entry s i (entry_clear e)) ∧
  table_map (table (put_entry s i (entry_clear e))) = delete (e_key e) (table_map (table s)).
Proof.
  intros Hs Hi. pose proof (tw_entry _ _ (sw_table _ _ Hs) _ _ Hi) as He.
  pose proof (entry_clear_wf _ e He). split; [by eapply shard_wf_put|].
  eapply (table_map_clear hash_of); eauto using entry_clear_occ. by apply sw_table.
Qed.

(** ** Compaction *)

Lemma occupied_count l : length (filter (λ o, slot_occupied o = true) l) = length (live_entries l).
Proof.
  unfold live_entries. induction l as [|[e|] l IH]; [done| |exact IH].
  rewrite filter_cons. simpl. destruct (entry_occupied e); simpl; [f_equal|]; exact IH.
Qed.

Lemma shard_compact_correct s :
  shard_wf s → shard_wf (shard_compact s) ∧
  table_map (table (shard_compact s)) = table_map (table s).
Proof.
  intros Hs. pose proof (sw_table _ _ Hs) as Hw. unfold shard_compact. rewrite occupied_count.
  set (n := Z.of_nat (length (live_entries _))).
  set (cap := Z.max _ 8). destruct (capacity (table s) <=? cap) eqn:E; [done|].
  pose proof (next_power_of_two_ge (n * LOAD_DEN / LOAD_NUM + 1)) as Hge.
  pose proof (next_power_of_two_ge cap).
  assert (Hn : 10 * n < 9 * cap).
  { unfold LOAD_DEN, LOAD_NUM in *. pose proof (Z.div_mod (n * 10) 9 ltac:(lia)).
    pose proof (Z.mod_pos_bound (n * 10) 9 ltac:(lia)). lia. }
  pose proof (rehash_spec (table s) cap Hw ltac:(lia)) as Hr.
  destruct (rehash _ _) as [t' n']. destruct Hr as (Hw' & Hcap & Hnn & Hn' & Hmap).
  split; [|done]. split; simpl; [done|lia|].
  rewrite (tw_threshold _ (tw_geometry _ _ Hw')), Hcap. unfold LOAD_NUM, LOAD_DEN.
  apply Z.div_le_lower_bound; lia.
Qed.
End ShardOps.
