(* ===== verification/MapIface.v ===== *)
(** The interface between the store and its concurrent map.

    [KVMap] lists the operations of [CustomMap] (crates/customhash/src/lib.rs
    and ops.rs) that the storage layer calls, with the closures of the source
    as functions: an [FnMut(&mut V) -> R] is [V → V * R], and a closure that
    mutates captured variables threads them as an accumulator.  [KVMapLaws]
    states what the map promises, against a finite map.  The store's
    definitions are parametric in the first and its theorems in the second;
    [CustomMap] discharges them, and so does the finite map itself. *)

From S2P Require Import Prelude.

Class KVMap (V M : Type) := {
  kv_get_ref : M → bytes → option V;
  kv_with_entry : ∀ {R : Type}, M → bytes → (V → R) → option R;
  kv_read_consistent : ∀ {R : Type}, M → bytes → (V → R) → option R;
  kv_insert : bytes → V → M → M * bool;
  kv_set : bytes → V → M → M * bool;
  (** [None] is [Err(Full)]. *)
  kv_try_insert : bytes → V → M → M * option bool;
  kv_try_set : bytes → V → M → M * option bool;
  kv_remove : bytes → M → M * option V;
  kv_remove_no_clone : bytes → M → M * bool;
  kv_update_with : ∀ {R : Type}, bytes → (V → V * R) → M → M * option R;
  kv_try_update : ∀ {R : Type}, bytes → (V → option (V * R)) → M → M * option R;
  kv_insert_if_absent : bytes → V → M → M * bool;
  kv_for_each : ∀ {A : Type}, (bytes → V → A → A) → M → A → A;
  kv_retain : ∀ {A : Type}, (bytes → V → A → A * bool) → M → A → M * A;
  kv_clear : M → M;
  kv_len : M → Z;
  kv_max_keys : M → Z;
}.

(** One pass of a [retain] closure over a list of pairs: the final accumulator
    and the pairs kept. *)
Fixpoint retain_run {V A : Type} (f : bytes → V → A → A * bool) (l : list (bytes * V)) (a : A)
    : A * list (bytes * V) :=
  match l with
  | [] => (a, [])
  | (k, v) :: l' =>
      let '(a', keep) := f k v a in
      let '(a'', kept) := retain_run f l' a' in
      (a'', if keep then (k, v) :: kept else kept)
  end.

Class KVMapLaws (V M : Type) `{KVMap V M} := {
  kv_wf : M → Prop;
  kv_abs : M → gmap bytes V;
  kv_get_ref_spec m k : kv_wf m → kv_get_ref m k = kv_abs m !! k;
  kv_with_entry_spec {R} m k (f : V → R) : kv_wf m → kv_with_entry m k f = f <$> kv_abs m !! k;
  kv_read_consistent_spec {R} m k (f : V → R) :
    kv_wf m → kv_read_consistent m k f = f <$> kv_abs m !! k;
  kv_insert_spec m k v : kv_wf m →
    kv_wf (kv_insert k v m).1 ∧ kv_abs (kv_insert k v m).1 = <[k := v]> (kv_abs m) ∧
    kv_max_keys (kv_insert k v m).1 = kv_max_keys m ∧
    (kv_insert k v m).2 = bool_decide (kv_abs m !! k = None);
  kv_set_spec m k v : kv_wf m →
    kv_wf (kv_set k v m).1 ∧ kv_abs (kv_set k v m).1 = <[k := v]> (kv_abs m) ∧
    kv_max_keys (kv_set k v m).1 = kv_max_keys m ∧
    (kv_set k v m).2 = bool_decide (kv_abs m !! k = None);
  kv_try_insert_spec m k v : kv_wf m →
    kv_try_insert k v m =
      if (kv_max_keys m <=? kv_len m)%Z && bool_decide (kv_get_ref m k = None) then (m, None)
      else let '(m', b) := kv_insert k v m in (m', Some b);
  kv_try_set_spec m k v : kv_wf m →
    kv_try_set k v m =
      if (kv_max_keys m <=? kv_len m)%Z && bool_decide (kv_get_ref m k = None) then (m, None)
      else let '(m', b) := kv_set k v m in (m', Some b);
  kv_remove_spec m k : kv_wf m →
    kv_wf (kv_remove k m).1 ∧ kv_abs (kv_remove k m).1 = delete k (kv_abs m) ∧
    kv_max_keys (kv_remove k m).1 = kv_max_keys m ∧
    (kv_remove k m).2 = kv_abs m !! k;
  kv_remove_no_clone_spec m k : kv_wf m →
    kv_wf (kv_remove_no_clone k m).1 ∧
    kv_abs (kv_remove_no_clone k m).1 = delete k (kv_abs m) ∧
    kv_max_keys (kv_remove_no_clone k m).1 = kv_max_keys m ∧
    (kv_remove_no_clone k m).2 = bool_decide (is_Some (kv_abs m !! k));
  kv_update_with_spec {R} m k (f : V → V * R) : kv_wf m →
    kv_wf (kv_update_with k f m).1 ∧
    kv_abs (kv_update_with k f m).1 =
      match kv_abs m !! k with Some v => <[k := (f v).1]> (kv_abs m) | None => kv_abs m end ∧
    kv_max_keys (kv_update_with k f m).1 = kv_max_keys m ∧
    (kv_update_with k f m).2 = (λ v, (f v).2) <$> kv_abs m !! k;
  kv_try_update_spec {R} m k (f : V → option (V * R)) : kv_wf m →
    kv_wf (kv_try_update k f m).1 ∧
    kv_abs (kv_try_update k f m).1 =
      match kv_abs m !! k ≫= f with Some (v, _) => <[k := v]> (kv_abs m) | None => kv_abs m end ∧
    kv_max_keys (kv_try_update k f m).1 = kv_max_keys m ∧
    (kv_try_update k f m).2 = snd <$> (kv_abs m !! k ≫= f);
  kv_insert_if_absent_spec m k v : kv_wf m →
    kv_wf (kv_insert_if_absent k v m).1 ∧
    kv_abs (kv_insert_if_absent k v m).1 =
      match kv_abs m !! k with Some _ => kv_abs m | None => <[k := v]> (kv_abs m) end ∧
    kv_max_keys (kv_insert_if_absent k v m).1 = kv_max_keys m ∧
    (kv_insert_if_absent k v m).2 = bool_decide (kv_abs m !! k = None);
  kv_for_each_spec {A} m (f : bytes → V → A → A) a : kv_wf m →
    ∃ l, l ≡ₚ map_to_list (kv_abs m) ∧ kv_for_each f m a = foldl (λ a p, f p.1 p.2 a) a l;
  kv_retain_spec {A} m (f : bytes → V → A → A * bool) a : kv_wf m →
    ∃ l, l ≡ₚ map_to_list (kv_abs m) ∧
      kv_wf (kv_retain f m a).1 ∧
      kv_abs (kv_retain f m a).1 = list_to_map (retain_run f l a).2 ∧
      kv_max_keys (kv_retain f m a).1 = kv_max_keys m ∧
      (kv_retain f m a).2 = (retain_run f l a).1;
  kv_clear_spec m : kv_wf m →
    kv_wf (kv_clear m) ∧ kv_abs (kv_clear m) = ∅ ∧ kv_max_keys (kv_clear m) = kv_max_keys m;
  kv_len_spec m : kv_wf m → kv_len m = Z.of_nat (size (kv_abs m));
}.

(** ** The finite map as a model of the interface *)

(** A finite map with its key limit. *)
Record LimitMap (V : Type) := mkLimitMap { lm_map : gmap bytes V; lm_max : Z }.
Arguments mkLimitMap {V} _ _.
Arguments lm_map {V} _.
Arguments lm_max {V} _.

Section Model.
Context {V : Type}.
Implicit Types m : LimitMap V.

Definition lm_put (g : gmap bytes V) m : LimitMap V := mkLimitMap g (lm_max m).
Definition lm_insert (k : bytes) (v : V) m : LimitMap V * bool :=
  (lm_put (<[k := v]> (lm_map m)) m, bool_decide (lm_map m !! k = None)).
Definition lm_try_insert (k : bytes) (v : V) m : LimitMap V * option bool :=
  if (lm_max m <=? Z.of_nat (size (lm_map m)))%Z && bool_decide (lm_map m !! k = None)
  then (m, None) else let '(m', b) := lm_insert k v m in (m', Some b).
Definition lm_update_with {R} (k : bytes) (f : V → V * R) m : LimitMap V * option R :=
  match lm_map m !! k with
  | Some v => (lm_put (<[k := (f v).1]> (lm_map m)) m, Some (f v).2)
  | None => (m, None)
  end.
Definition lm_try_update {R} (k : bytes) (f : V → option (V * R)) m : LimitMap V * option R :=
  match lm_map m !! k ≫= f with
  | Some (v, r) => (lm_put (<[k := v]> (lm_map m)) m, Some r)
  | None => (m, None)
  end.
Definition lm_insert_if_absent (k : bytes) (v : V) m : LimitMap V * bool :=
  match lm_map m !! k with
  | Some _ => (m, false)
  | None => (lm_put (<[k := v]> (lm_map m)) m, true)
  end.
Definition lm_retain {A} (f : bytes → V → A → A * bool) m (a : A) : LimitMap V * A :=
  let '(a', kept) := retain_run f (map_to_list (lm_map m)) a in
  (lm_put (list_to_map kept) m, a').

#[export] Instance lm_kv : KVMap V (LimitMap V) := {|
  kv_get_ref m k := lm_map m !! k;
  kv_with_entry R m k f := f <$> lm_map m !! k;
  kv_read_consistent R m k f := f <$> lm_map m !! k;
  kv_insert := lm_insert;
  kv_set := lm_insert;
  kv_try_insert := lm_try_insert;
  kv_try_set := lm_try_insert;
  kv_remove k m := (lm_put (delete k (lm_map m)) m, lm_map m !! k);
  kv_remove_no_clone k m :=
    (lm_put (delete k (lm_map m)) m, bool_decide (is_Some (lm_map m !! k)));
  kv_update_with := @lm_update_with;
  kv_try_update := @lm_try_update;
  kv_insert_if_absent := lm_insert_if_absent;
  kv_for_each A f m a := foldl (λ a p, f p.1 p.2 a) a (map_to_list (lm_map m));
  kv_retain := @lm_retain;
  kv_clear m := lm_put ∅ m;
  kv_len m := Z.of_nat (size (lm_map m));
  kv_max_keys := lm_max;
|}.

#[export] Instance lm_kv_laws : KVMapLaws V (LimitMap V).
Proof.
  refine {| kv_wf := λ _, True; kv_abs := lm_map |}; simpl; intros; auto.
  - unfold lm_update_with. by destruct (lm_map m !! k).
  - unfold lm_try_update. by destruct (lm_map m !! k ≫= f) as [[? ?]|].
  - unfold lm_insert_if_absent. by destruct (lm_map m !! k).
  - by exists (map_to_list (lm_map m)).
  - exists (map_to_list (lm_map m)). unfold lm_retain.
    by destruct (retain_run f (map_to_list (lm_map m)) a) as [a' kept].
Defined.
End Model.
