(* ===== verification/CustomMap.v ===== *)
(** The sharded map of crates/customhash/src/lib.rs and ops.rs.

    [hash_one] stands for the keyed hasher of the foldhash package; its result
    is a [u64], so the model takes it modulo [2^64] and assumes nothing else of
    it.  Each operation is the source's sequence on the entry it locates:
    find, lock, test the occupied bit, write, bump, unlock. *)

From S2P Require Import Prelude Shard ShardSpec MapIface.
Local Open Scope Z_scope.

Record CustomMap (V : Type) := mkCustomMap {
  shards : list (Shard V);
  shift : Z;
  shard_mask : Z;
  key_count : Z;
  max_keys : Z;
}.
Arguments mkCustomMap {V} _ _ _ _ _.
Arguments shards {V} _.
Arguments shift {V} _.
Arguments shard_mask {V} _.
Arguments key_count {V} _.
Arguments max_keys {V} _.

Section Ops.
Context {V : Type} (hash_one : bytes → Z).
Implicit Types (m : CustomMap V) (k key : bytes) (s : Shard V).

(** The [u64] the hasher returns. *)
Definition hash_of (key : bytes) : Z := wrap64 (hash_one key).

(** [CustomMap::build], for a power of two [n = 2^bits]. *)
Definition build (bits : Z) (per_shard : Z) (max_keys : Z) : CustomMap V :=
  mkCustomMap (replicate (Z.to_nat (2 ^ bits)) (Shard_new per_shard))
    (Z.min (64 - bits) 63) (2 ^ bits - 1) 0 max_keys.

(** [with_capacity]: [n = shard_count.next_power_of_two().max(1)]. *)
Definition with_capacity (shard_count expected_keys : Z) : CustomMap V :=
  build (Z.log2 (Z.max (next_power_of_two shard_count) 1)) INITIAL_SHARD_CAPACITY expected_keys.

Definition with_shards (n : Z) : CustomMap V :=
  build (Z.log2 (Z.max (next_power_of_two n) 1)) DEFAULT_SHARD_CAPACITY usize_max.

(** [((h >> shift) as usize) & shard_mask] *)
Definition shard_index m (key : bytes) : nat :=
  Z.to_nat (Z.land (Z.shiftr (hash_of key) (shift m)) (shard_mask m)).

Definition locate m (key : bytes) : Z * nat := (hash_of key, shard_index m key).

Definition set_shard m (i : nat) s : CustomMap V :=
  mkCustomMap (<[i := s]> (shards m)) (shift m) (shard_mask m) (key_count m) (max_keys m).

Definition set_key_count m (n : Z) : CustomMap V :=
  mkCustomMap (shards m) (shift m) (shard_mask m) n (max_keys m).

(** Find the entry of [key]: its shard, slot and contents. *)
Definition find_entry m (key : bytes) : option (nat * Shard V * nat * Entry V) :=
  let '(h, idx) := locate m key in
  s ← shards m !! idx; '(i, e) ← find s key h; Some (idx, s, i, e).

Definition write_entry m (idx : nat) s (i : nat) (e : Entry V) : CustomMap V :=
  set_shard m idx (put_entry s i e).

(** [with_entry], and [get] / [get_ref] with the value itself as result. *)
Definition with_entry {R} m (key : bytes) (f : V → R) : option R :=
  '(_, _, _, e) ← find_entry m key;
  if entry_occupied e then f <$> e_value e else None.

Definition get_ref m (key : bytes) : option V :=
  '(_, _, _, e) ← find_entry m key;
  if entry_occupied e then e_value e else None.

Definition contains_key m (key : bytes) : bool :=
  match find_entry m key with Some (_, _, _, e) => entry_occupied e | None => false end.

(** The entry is locked for the read, and left as it was. *)
Definition get_locked {R} m (key : bytes) (f : V → R) : CustomMap V * option R :=
  match find_entry m key with
  | None => (m, None)
  | Some (idx, s, i, e) =>
      (write_entry m idx s i (entry_touch e), if entry_occupied e then f <$> e_value e else None)
  end.

(** [read_consistent] with no concurrent writer: the first turn of the loop
    sees an even sequence number, and the same one after the read. *)
Definition read_consistent {R} m (key : bytes) (f : V → R) : option R :=
  '(_, _, _, e) ← find_entry m key;
  let seq1 := state_seq (e_state e) in
  if entry_occupied e then
    let result := f <$> e_value e in
    let seq2 := state_seq (e_state e) in
    if seq1 =? seq2 then result else None
  else None.

Definition insert (key : bytes) (value : V) m : CustomMap V * bool :=
  let '(h, idx) := locate m key in
  match shards m !! idx with
  | None => (m, false)
  | Some s =>
      let '(s', is_new) := insert_hashed s key value h in
      let m' := set_shard m idx s' in
      (if is_new then set_key_count m' (key_count m' + 1) else m', is_new)
  end.

Definition try_insert (key : bytes) (value : V) m : CustomMap V * option bool :=
  if (max_keys m <=? key_count m) && negb (contains_key m key) then (m, None)
  else let '(m', b) := insert key value m in (m', Some b).

(** The entry left by [set] on an occupied, respectively vacant, entry: the
    last bump, the occupied bit and the unlock are one store. *)
Definition set_occupied_entry (value : V) (e : Entry V) : Entry V :=
  mkEntry (e_hash e) (e_key e)
    (set_final_occupied (state_seq_add (state_lock (e_state e)))) (Some value).
Definition set_vacant_entry (value : V) (e : Entry V) : Entry V :=
  mkEntry (e_hash e) (e_key e)
    (set_final_vacant (state_seq_add (state_lock (e_state e)))) (Some value).

Definition set (key : bytes) (value : V) m : CustomMap V * bool :=
  let '(h, idx) := locate m key in
  match shards m !! idx with
  | None => (m, false)
  | Some s =>
      match find s key h with
      | Some (i, existing) =>
          if entry_occupied existing
          then (write_entry m idx s i (set_occupied_entry value existing), false)
          else
            let m' := write_entry m idx s i (set_vacant_entry value existing) in
            (set_key_count m' (key_count m' + 1), true)
      | None =>
          let '(s', is_new) := insert_new s key value h in
          let m' := set_shard m idx s' in
          (if is_new then set_key_count m' (key_count m' + 1) else m', is_new)
      end
  end.

Definition try_set (key : bytes) (value : V) m : CustomMap V * option bool :=
  if (max_keys m <=? key_count m) && negb (contains_key m key) then (m, None)
  else let '(m', b) := set key value m in (m', Some b).

Definition remove (key : bytes) m : CustomMap V * option V :=
  match find_entry m key with
  | None => (m, None)
  | Some (idx, s, i, e) =>
      if negb (entry_occupied e) then (m, None)
      else
        let m' := write_entry m idx s i (entry_clear e) in
        (set_key_count m' (key_count m' - 1), e_value e)
  end.

Definition remove_no_clone (key : bytes) m : CustomMap V * bool :=
  match find_entry m key with
  | None => (m, false)
  | Some (idx, s, i, e) =>
      if negb (entry_occupied e) then (m, false)
      else
        let m' := write_entry m idx s i (entry_clear e) in
        (set_key_count m' (key_count m' - 1), true)
  end.

Definition remove_with {R} (key : bytes) (f : V → R) m : CustomMap V * option R :=
  match find_entry m key with
  | None => (m, None)
  | Some (idx, s, i, e) =>
      if negb (entry_occupied e) then (m, None)
      else
        let m' := write_entry m idx s i (entry_clear e) in
        (set_key_count m' (key_count m' - 1), f <$> e_value e)
  end.

Definition update {R} (key : bytes) (f : V → V * R) m : CustomMap V * option R :=
  match find_entry m key with
  | None => (m, None)
  | Some (idx, s, i, e) =>
      match e_value e with
      | Some v =>
          if entry_occupied e then
            let '(new_val, result) := f v in
            (write_entry m idx s i (entry_overwrite new_val e), Some result)
          else (write_entry m idx s i (entry_touch e), None)
      | None => (write_entry m idx s i (entry_touch e), None)
      end
  end.

Definition try_update {R} (key : bytes) (f : V → option (V * R)) m : CustomMap V * option R :=
  match find_entry m key with
  | None => (m, None)
  | Some (idx, s, i, e) =>
      match e_value e with
      | Some v =>
          if entry_occupied e then
            match f v with
            | Some (new_val, r) => (write_entry m idx s i (entry_overwrite new_val e), Some r)
            | None => (write_entry m idx s i (entry_touch e), None)
            end
          else (write_entry m idx s i (entry_touch e), None)
      | None => (write_entry m idx s i (entry_touch e), None)
      end
  end.

(** [update_with] mutates the value in place: the closure's [&mut V] is its
    argument and first result. *)
Definition update_with {R} (key : bytes) (f : V → V * R) m : CustomMap V * option R :=
  match find_entry m key with
  | None => (m, None)
  | Some (idx, s, i, e) =>
      match e_value e with
      | Some v =>
          if entry_occupied e then
            let '(v', result) := f v in
            (write_entry m idx s i (entry_overwrite v' e), Some result)
          else (write_entry m idx s i (entry_touch e), None)
      | None => (write_entry m idx s i (entry_touch e), None)
      end
  end.

Definition insert_if_absent (key : bytes) (value : V) m : CustomMap V * bool :=
  let '(h, idx) := locate m key in
  match shards m !! idx with
  | None => (m, false)
  | Some s =>
      match find s key h with
      | Some (i, e) =>
          if entry_occupied e then (m, false)
          else
            let m' := write_entry m idx s i (entry_revive value e) in
            (set_key_count m' (key_count m' + 1), true)
      | None =>
          let '(s', is_new) := insert_new s key value h in
          let m' := set_shard m idx s' in
          (if is_new then set_key_count m' (key_count m' + 1) else m', is_new)
      end
  end.

Definition len m : Z := key_count m.
Definition is_empty m : bool := len m =? 0.

(** ** Whole-map operations (ops.rs) *)

(** [for_each] visits the shards in order and the slots of a shard in order. *)
Definition for_each {A} (f : bytes → V → A → A) m (a : A) : A :=
  foldl (λ a s, foldl (λ a p, f p.1 p.2 a) a (live_pairs (slots (table s)))) a (shards m).

Definition keys m : list bytes := for_each (λ k _ out, out ++ [k]) m [].

(** [rebuild] on the values of the first [budget] keys, in place. *)
Definition defragment_values (budget : nat) (rebuild : V → V) m : CustomMap V * nat :=
  foldl (λ '(m, rebuilt) key,
    let '(m', r) := update_with key (λ v, (rebuild v, tt)) m in
    (m', match r with Some _ => S rebuilt | None => rebuilt end)) (m, 0%nat) (take budget (keys m)).

(** One slot of [retain]: the accumulator of the closure, the number of
    removed entries, and the slot afterwards. *)
Definition retain_slot {A} (f : bytes → V → A → A * bool) (a : A) (o : option (Entry V))
    : A * Z * option (Entry V) :=
  match o with
  | None => (a, 0, None)
  | Some e =>
      if negb (entry_occupied e) then (a, 0, Some e)
      else
        match e_value e with
        | None => (a, 0, Some e)
        | Some v =>
            let '(a', keep) := f (e_key e) v a in
            if keep then (a', 0, Some e) else (a', 1, Some (entry_clear e))
        end
  end.

Fixpoint retain_slots {A} (f : bytes → V → A → A * bool) (a : A) (l : list (option (Entry V)))
    : A * Z * list (option (Entry V)) :=
  match l with
  | [] => (a, 0, [])
  | o :: l' =>
      let '(a', n, o') := retain_slot f a o in
      let '(a'', n', l'') := retain_slots f a' l' in
      (a'', n + n', o' :: l'')
  end.

Definition retain_shard_table {A} (f : bytes → V → A → A * bool) (a : A) s : A * Z * Shard V :=
  let t := table s in
  let '(a', n, l') := retain_slots f a (slots t) in
  (a', n, mkShard (mkTable l' (capacity t) (mask t) (threshold t)) (s_len s)).

Fixpoint retain_shards {A} (f : bytes → V → A → A * bool) (a : A) (ss : list (Shard V))
    : A * Z * list (Shard V) :=
  match ss with
  | [] => (a, 0, [])
  | s :: ss' =>
      let '(a', n, s') := retain_shard_table f a s in
      let '(a'', n', ss'') := retain_shards f a' ss' in
      (a'', n + n', s' :: ss'')
  end.

Definition retain {A} (f : bytes → V → A → A * bool) m (a : A) : CustomMap V * A :=
  let '(a', n, ss') := retain_shards f a (shards m) in
  (mkCustomMap ss' (shift m) (shard_mask m) (key_count m - n) (max_keys m), a').

Definition compact_shard (shard_idx : nat) m : CustomMap V :=
  match shards m !! shard_idx with
  | None => m
  | Some s => set_shard m shard_idx (shard_compact s)
  end.

Definition clear m : CustomMap V :=
  mkCustomMap (shard_clear <$> shards m) (shift m) (shard_mask m) 0 (max_keys m).

Definition shard_count m : nat := length (shards m).
Definition shard_slot_count m (shard : nat) : option Z := capacity ∘ table <$> shards m !! shard.

Definition shard_layout_matches m (capacities : list Z) : bool :=
  bool_decide (length capacities = length (shards m)) &&
  forallb (λ '(s, c), capacity (table s) =? c) (combine (shards m) capacities).

Definition peek_slot m (shard slot : nat) : option (bytes * V) :=
  s ← shards m !! shard; o ← slots (table s) !! slot; live_pair o.

Definition peek_slot_with {R} m (shard slot : nat) (f : bytes → V → R) : option R :=
  s ← shards m !! shard; o ← slots (table s) !! slot; '(k, v) ← live_pair o; Some (f k v).

#[export] Instance custom_kv : KVMap V (CustomMap V) := {|
  kv_get_ref := get_ref;
  kv_with_entry := @with_entry;
  kv_read_consistent := @read_consistent;
  kv_insert := insert;
  kv_set := set;
  kv_try_insert := try_insert;
  kv_try_set := try_set;
  kv_remove := remove;
  kv_remove_no_clone := remove_no_clone;
  kv_update_with := @update_with;
  kv_try_update := @try_update;
  kv_insert_if_absent := insert_if_absent;
  kv_for_each := @for_each;
  kv_retain := @retain;
  kv_clear := clear;
  kv_len := len;
  kv_max_keys := max_keys;
|}.
End Ops.

(** Small runs, with a toy hasher. *)
Definition toy_hash (k : bytes) : Z := foldl (λ h b, wrap64 (Z.lxor h (b2z b) * 0x100000001b3))
  0xcbf29ce484222325 k.

Example run_insert_get :
  get_ref toy_hash (insert toy_hash (B "b") 2 (insert toy_hash (B "a") 1 (with_capacity 4 100)).1).1
    (B "a") = Some 1.
Proof. vm_compute. reflexivity. Qed.
