(* ===== verification/CustomMapSpec.v ===== *)
(** [CustomMap] refines a finite map: the invariant of the sharded structure,
    its abstraction, and the laws of [KVMapLaws] for every operation. *)

From S2P Require Import Prelude Shard ShardSpec MapIface CustomMap.
Local Open Scope Z_scope.

Section Refinement.
Context {V : Type} (hash_one : bytes → Z).
Implicit Types (m : CustomMap V) (k key : bytes) (s : Shard V) (e : Entry V).

Abbreviation hash_of := (hash_of hash_one).
Abbreviation shard_index := (shard_index hash_one).

Definition shard_map s : gmap bytes V := table_map (table s).

(** The finite map a [CustomMap] stands for. *)
Definition abs m : gmap bytes V := ⋃ (shard_map <$> shards m).

(** The shards are well formed, there are [2^bits] of them, and every live key
    is in the shard its hash selects. *)
Record struct_wf m : Prop := {
  cw_count : ∃ bits, 0 <= bits ∧ Z.of_nat (length (shards m)) = 2 ^ bits ∧
    shard_mask m = 2 ^ bits - 1;
  cw_shard : ∀ i s, shards m !! i = Some s → shard_wf hash_of s;
  cw_home : ∀ i s k, shards m !! i = Some s → is_Some (shard_map s !! k) → shard_index m k = i;
}.

(** The invariant: in addition the key counter is exact. *)
Record map_wf m : Prop := {
  cw_struct : struct_wf m;
  cw_keys : key_count m = Z.of_nat (size (abs m));
}.

Lemma shard_index_lt m k : struct_wf m → (shard_index m k < length (shards m))%nat.
Proof.
  intros [(bits & Hb & Hl & Hm) _ _]. unfold CustomMap.shard_index. rewrite Hm.
  replace (2 ^ bits - 1) with (Z.ones bits) by (rewrite Z.ones_equiv; lia).
  rewrite Z.land_ones by lia.
  pose proof (Z.mod_pos_bound (Z.shiftr (hash_of k) (shift m)) (2 ^ bits) ltac:(lia)). lia.
Qed.

Lemma home_shard m k : struct_wf m → ∃ s, shards m !! shard_index m k = Some s ∧ shard_wf hash_of s.
Proof.
  intros Hw. destruct (lookup_lt_is_Some_2 _ _ (shard_index_lt m k Hw)) as [s Hs].
  exists s. split; [done|]. by eapply cw_shard.
Qed.

(** ** The abstraction, pointwise *)

Lemma unions_lookup (gs : list (gmap bytes V)) k j :
  (∀ i g, gs !! i = Some g → is_Some (g !! k) → i = j) →
  (⋃ gs) !! k = gs !! j ≫= (.!! k).
Proof.
  revert j. induction gs as [|g gs IH]; intros j Hj; simpl; [done|].
  destruct (g !! k) as [v|] eqn:Hg.
  - assert (O = j) as <- by (eapply Hj; [done|eauto]). simpl. rewrite Hg.
    by apply lookup_union_Some_l.
  - rewrite lookup_union_r by done. destruct j as [|j].
    + simpl. rewrite Hg. destruct ((⋃ gs) !! k) as [v|] eqn:Hu; [|done]. exfalso.
      assert (Hv : Some v = gs !! O ≫= (.!! k))
        by (apply IH; intros i g' Hi Hs; by specialize (Hj (S i) g' Hi Hs)).
      destruct (gs !! O) as [g'|] eqn:H0; simpl in Hv; [|done].
      by specialize (Hj 1%nat g' H0 (ex_intro _ v (eq_sym Hv))).
    + apply IH. intros i g' Hi Hs. specialize (Hj (S i) g' Hi Hs). lia.
Qed.

Lemma abs_lookup m k : struct_wf m → abs m !! k = shards m !! shard_index m k ≫= λ s, shard_map s !! k.
Proof.
  intros Hw. unfold abs. rewrite (unions_lookup _ k (shard_index m k)).
  - rewrite list_lookup_fmap. by destruct (shards m !! shard_index m k).
  - intros i g Hi Hs. rewrite list_lookup_fmap in Hi.
    destruct (shards m !! i) as [s|] eqn:E; simplify_eq/=. symmetry. by eapply cw_home.
Qed.

Lemma abs_home m k s :
  struct_wf m → shards m !! shard_index m k = Some s → abs m !! k = shard_map s !! k.
Proof. intros Hw Hs. by rewrite abs_lookup, Hs. Qed.

(** Replacing one shard. *)
Lemma set_shard_wf m i s s' :
  struct_wf m → shards m !! i = Some s → shard_wf hash_of s' →
  (∀ k, is_Some (shard_map s' !! k) → shard_index m k = i) → struct_wf (set_shard m i s').
Proof.
  intros [Hc Hs Hh] Hi Hs' Hhome. split; simpl.
  - by rewrite length_insert.
  - intros j s0 Hj. apply list_lookup_insert_Some in Hj as [(-> & -> & _)|[_ Hj]]; eauto.
  - intros j s0 k Hj Hk. apply list_lookup_insert_Some in Hj as [(-> & -> & _)|[_ Hj]].
    + by apply Hhome.
    + by eapply Hh.
Qed.

Lemma set_shard_insert m k s s' v :
  struct_wf m → shards m !! shard_index m k = Some s → shard_wf hash_of s' →
  shard_map s' = <[k := v]> (shard_map s) →
  struct_wf (set_shard m (shard_index m k) s') ∧
  abs (set_shard m (shard_index m k) s') = <[k := v]> (abs m).
Proof.
  intros Hw Hi Hs' Hm.
  assert (Hw' : struct_wf (set_shard m (shard_index m k) s')).
  { eapply set_shard_wf; [done..|]. intros k'. rewrite Hm, lookup_insert_is_Some.
    intros [->|[_ ?]]; [done|]. by eapply cw_home. }
  split; [done|]. apply map_eq. intros k'.
  rewrite (abs_lookup (set_shard _ _ _)) by done.
  change (shard_index (set_shard m (shard_index m k) s') k') with (shard_index m k'). simpl.
  destruct (decide (shard_index m k' = shard_index m k)) as [E|E].
  - rewrite E, list_lookup_insert_eq by (by eapply lookup_lt_Some). simpl. rewrite Hm.
    destruct (decide (k = k')) as [<-|Hne]; [by rewrite !lookup_insert_eq|].
    rewrite !lookup_insert_ne by done. symmetry. apply abs_home; congruence.
  - rewrite list_lookup_insert_ne, lookup_insert_ne by congruence. by rewrite abs_lookup.
Qed.

Lemma set_shard_delete m k s s' :
  struct_wf m → shards m !! shard_index m k = Some s → shard_wf hash_of s' →
  shard_map s' = delete k (shard_map s) →
  struct_wf (set_shard m (shard_index m k) s') ∧
  abs (set_shard m (shard_index m k) s') = delete k (abs m).
Proof.
  intros Hw Hi Hs' Hm.
  assert (Hw' : struct_wf (set_shard m (shard_index m k) s')).
  { eapply set_shard_wf; [done..|]. intros k'. rewrite Hm, lookup_delete_is_Some.
    intros [_ ?]. by eapply cw_home. }
  split; [done|]. apply map_eq. intros k'.
  rewrite (abs_lookup (set_shard _ _ _)) by done.
  change (shard_index (set_shard m (shard_index m k) s') k') with (shard_index m k'). simpl.
  destruct (decide (shard_index m k' = shard_index m k)) as [E|E].
  - rewrite E, list_lookup_insert_eq by (by eapply lookup_lt_Some). simpl. rewrite Hm.
    destruct (decide (k = k')) as [<-|Hne]; [by rewrite !lookup_delete_eq|].
    rewrite !lookup_delete_ne by done. symmetry. apply abs_home; congruence.
  - rewrite list_lookup_insert_ne, lookup_delete_ne by congruence. by rewrite abs_lookup.
Qed.

Lemma set_shard_same m i s s' :
  struct_wf m → shards m !! i = Some s → shard_wf hash_of s' →
  shard_map s' = shard_map s →
  struct_wf (set_shard m i s') ∧ abs (set_shard m i s') = abs m.
Proof.
  intros Hw Hi Hs' Hm.
  assert (Hw' : struct_wf (set_shard m i s')).
  { eapply set_shard_wf; [done..|]. intros k'. rewrite Hm. by eapply cw_home. }
  split; [done|]. apply map_eq. intros k'. rewrite !abs_lookup by done. simpl.
  change (shard_index (set_shard m i s') k') with (shard_index m k').
  destruct (decide (shard_index m k' = i)) as [<-|E].
  - rewrite list_lookup_insert_eq by (by eapply lookup_lt_Some). by rewrite Hi; simpl; rewrite Hm.
  - by rewrite list_lookup_insert_ne by congruence.
Qed.

(** ** Finding *)

Lemma find_entry_spec m k :
  struct_wf m →
  ∃ s, shards m !! shard_index m k = Some s ∧ shard_wf hash_of s ∧
  match find_entry hash_one m k with
  | Some (idx, s', i, e) => idx = shard_index m k ∧ s' = s ∧
      slots (table s) !! i = Some (Some e) ∧ e_key e = k ∧ entry_wf hash_of e ∧
      find s k (hash_of k) = Some (i, e) ∧
      abs m !! k = if entry_occupied e then e_value e else None
  | None => find s k (hash_of k) = None ∧ abs m !! k = None
  end.
Proof.
  intros Hw. destruct (home_shard m k Hw) as (s & Hs & Hsw). exists s. split; [done|].
  split; [done|]. unfold find_entry. simpl. rewrite Hs. simpl.
  pose proof (find_spec hash_of s k Hsw) as Hf. pose proof (find_map hash_of s k Hsw) as Hm.
  rewrite (abs_home m k s) by done. unfold shard_map.
  destruct (find s k (hash_of k)) as [[i e]|] eqn:E; simpl; [|done].
  destruct Hf as (? & ? & ?). by rewrite Hm.
Qed.

(** Destruct the lookup of [k] in [m]: the home shard, and either the entry
    found or its absence. *)
Ltac find_cases m k :=
  let s := fresh "s" in let Hs := fresh "Hs" in let Hsw := fresh "Hsw" in
  let Hf := fresh "Hf" in
  destruct (find_entry_spec m k) as (s & Hs & Hsw & Hf); [done|];
  destruct (find_entry hash_one m k) as [[[[? ?] ?i] ?e]|]; simpl;
    [destruct Hf as (-> & -> & ?Hi & ?Hk & ?He & ?Hfind & ?Habs)
    |destruct Hf as [?Hfind ?Habs]].

Lemma occupied_value e : entry_wf hash_of e → entry_occupied e = true → ∃ v, e_value e = Some v.
Proof. apply entry_live_value. Qed.

Lemma vacant_value e : entry_wf hash_of e → entry_occupied e = false → e_value e = None.
Proof.
  intros He Ho. rewrite (ew_value _ _ He) in Ho. apply bool_decide_eq_false in Ho.
  by destruct (e_value e); [exfalso; eauto|].
Qed.

Lemma contains_key_spec m k :
  struct_wf m → contains_key hash_one m k = bool_decide (is_Some (get_ref hash_one m k)).
Proof.
  intros Hw. unfold contains_key, get_ref. find_cases m k.
  - destruct (entry_occupied e) eqn:Ho; [|done].
    destruct (occupied_value e He Ho) as [v ->]. done.
  - done.
Qed.

Lemma get_ref_abs m k : struct_wf m → get_ref hash_one m k = abs m !! k.
Proof. intros Hw. unfold get_ref. find_cases m k; by rewrite Habs. Qed.

Lemma with_entry_abs {R} m k (f : V → R) :
  struct_wf m → with_entry hash_one m k f = f <$> abs m !! k.
Proof. intros Hw. unfold with_entry. find_cases m k; rewrite Habs; by try case_match. Qed.

Lemma read_consistent_abs {R} m k (f : V → R) :
  struct_wf m → read_consistent hash_one m k f = f <$> abs m !! k.
Proof.
  intros Hw. unfold read_consistent. find_cases m k; rewrite Habs; [|done].
  rewrite Z.eqb_refl. by case_match.
Qed.

(** ** Writing behind a found pointer *)

Lemma write_value m k s i e e' v :
  struct_wf m → shards m !! shard_index m k = Some s → shard_wf hash_of s →
  slots (table s) !! i = Some (Some e) → e_key e = k →
  entry_wf hash_of e' → e_key e' = k → e_value e' = Some v →
  struct_wf (write_entry m (shard_index m k) s i e') ∧
  abs (write_entry m (shard_index m k) s i e') = <[k := v]> (abs m).
Proof.
  intros Hw Hs Hsw Hi Hk He' Hk' Hv.
  destruct (put_wf_map hash_of s i e e' v) as [? Hm]; [done..|congruence|done|].
  rewrite Hk in Hm. by eapply set_shard_insert.
Qed.

Lemma write_clear m k s i e :
  struct_wf m → shards m !! shard_index m k = Some s → shard_wf hash_of s →
  slots (table s) !! i = Some (Some e) → e_key e = k →
  struct_wf (write_entry m (shard_index m k) s i (entry_clear e)) ∧
  abs (write_entry m (shard_index m k) s i (entry_clear e)) = delete k (abs m).
Proof.
  intros Hw Hs Hsw Hi Hk.
  destruct (clear_wf_map hash_of s i e) as [? Hm]; [done..|].
  rewrite Hk in Hm. by eapply set_shard_delete.
Qed.

(** Lock and unlock leaves an entry at rest as it was. *)
Lemma entry_touch_id e : entry_wf hash_of e → entry_touch e = e.
Proof.
  intros He. pose proof (ew_unlocked _ _ He) as Hl. rewrite state_locked_bit in Hl.
  unfold entry_touch, set_state. destruct e as [h k st v]. simpl in *. f_equal.
  apply Z.bits_inj'. intros j Hj. rewrite unlock_bit, lock_bit by lia.
  destruct (Z.eqb_spec j 0) as [->|]; [simpl; by rewrite Hl, andb_false_r|].
  by rewrite orb_false_r, andb_true_r.
Qed.

Lemma write_touch m k s i e :
  shards m !! shard_index m k = Some s → slots (table s) !! i = Some (Some e) →
  entry_wf hash_of e → write_entry m (shard_index m k) s i (entry_touch e) = m.
Proof.
  intros Hs Hi He. rewrite (entry_touch_id e He).
  unfold write_entry, set_shard, put_entry, set_slot.
  rewrite (list_insert_id _ _ _ Hi).
  replace (mkShard _ _) with s by (destruct s as [[]]; done).
  rewrite (list_insert_id _ _ _ Hs). by destruct m.
Qed.

(** ** The counter *)

Lemma set_key_count_wf m n :
  struct_wf m → n = Z.of_nat (size (abs m)) → map_wf (set_key_count m n).
Proof. intros [? ? ?] ->. split; [by split|done]. Qed.

Lemma size_insert_count (g : gmap bytes V) k v :
  Z.of_nat (size (<[k := v]> g)) = Z.of_nat (size g) + match g !! k with Some _ => 0 | None => 1 end.
Proof. rewrite map_size_insert. destruct (g !! k); unfold id; lia. Qed.

Lemma size_delete_count (g : gmap bytes V) k :
  Z.of_nat (size (delete k g)) = Z.of_nat (size g) - match g !! k with Some _ => 1 | None => 0 end.
Proof.
  rewrite map_size_delete. destruct (g !! k) as [v|] eqn:E; unfold id; [|lia].
  assert (size g ≠ 0)%nat; [|lia]. intros H%map_size_empty_inv. subst. by rewrite lookup_empty in E.
Qed.

(** ** Single-key operations *)

Lemma insert_new_map m k s v :
  map_wf m → shards m !! shard_index m k = Some s → shard_wf hash_of s →
  let '(s', b) := insert_new s k v (hash_of k) in
  let m' := set_shard m (shard_index m k) s' in
  let m'' := if b then set_key_count m' (key_count m' + 1) else m' in
  map_wf m'' ∧ abs m'' = <[k := v]> (abs m) ∧ b = bool_decide (abs m !! k = None).
Proof.
  intros [Hw Hc] Hs Hsw. pose proof (insert_new_correct hash_of s k v Hsw) as Hn.
  destruct (insert_new s k v (hash_of k)) as [s' b]. destruct Hn as (Hsw' & Hm & Hb).
  destruct (set_shard_insert m k s s' v Hw Hs Hsw' Hm) as [Hw' Ha].
  pose proof (abs_home m k s Hw Hs) as Hh. unfold shard_map in Hh. rewrite <- Hh in Hb.
  pose proof (size_insert_count (abs m) k v) as Hsz. cbn zeta.
  subst b. destruct (abs m !! k) as [w|] eqn:E; simpl.
  - split; [|by rewrite Ha]. split; [done|]. simpl. rewrite Ha. lia.
  - split; [|by rewrite <- Ha]. apply set_key_count_wf; [done|]. rewrite Ha. simpl. lia.
Qed.

Lemma insert_spec m k v :
  map_wf m →
  map_wf (insert hash_one k v m).1 ∧ abs (insert hash_one k v m).1 = <[k := v]> (abs m) ∧
  (insert hash_one k v m).2 = bool_decide (abs m !! k = None).
Proof.
  intros [Hw Hc]. unfold insert. simpl. destruct (home_shard m k Hw) as (s & Hs & Hsw). rewrite Hs.
  pose proof (insert_hashed_correct hash_of s k v Hsw) as Hn.
  destruct (insert_hashed s k v (hash_of k)) as [s' b]. destruct Hn as (Hsw' & Hm & Hb).
  destruct (set_shard_insert m k s s' v Hw Hs Hsw' Hm) as [Hw' Ha].
  pose proof (abs_home m k s Hw Hs) as Hh. unfold shard_map in Hh. rewrite <- Hh in Hb.
  pose proof (size_insert_count (abs m) k v) as Hsz. simpl.
  subst b. destruct (abs m !! k) as [w|] eqn:E; simpl.
  - split; [|by rewrite Ha]. split; [done|]. simpl. rewrite Ha. lia.
  - split; [|by rewrite <- Ha]. apply set_key_count_wf; [done|]. rewrite Ha. simpl. lia.
Qed.

Lemma set_occupied_entry_eq v e : set_occupied_entry v e = entry_overwrite v e.
Proof. done. Qed.

Lemma set_vacant_entry_wf v e : entry_wf hash_of e → entry_wf hash_of (set_vacant_entry v e).
Proof.
  intros [Hh Hl Hv]. split; [done| |]; unfold entry_occupied; simpl; flag_bits; done.
Qed.

(** A value written over a live entry, respectively over a vacant one with the
    counter bumped. *)
Lemma write_live m k s i e e' v :
  map_wf m → shards m !! shard_index m k = Some s → shard_wf hash_of s →
  slots (table s) !! i = Some (Some e) → e_key e = k → is_Some (abs m !! k) →
  entry_wf hash_of e' → e_key e' = k → e_value e' = Some v →
  map_wf (write_entry m (shard_index m k) s i e') ∧
  abs (write_entry m (shard_index m k) s i e') = <[k := v]> (abs m).
Proof.
  intros [Hw Hc] Hs Hsw Hi Hk [w Hlive] He' Hk' Hv.
  destruct (write_value m k s i e e' v Hw Hs Hsw Hi Hk He' Hk' Hv) as [Hw' Ha].
  split; [|done]. split; [done|]. simpl. rewrite Ha, size_insert_count, Hlive. lia.
Qed.

Lemma write_fresh m k s i e e' v :
  map_wf m → shards m !! shard_index m k = Some s → shard_wf hash_of s →
  slots (table s) !! i = Some (Some e) → e_key e = k → abs m !! k = None →
  entry_wf hash_of e' → e_key e' = k → e_value e' = Some v →
  let m' := write_entry m (shard_index m k) s i e' in
  map_wf (set_key_count m' (key_count m' + 1)) ∧
  abs (set_key_count m' (key_count m' + 1)) = <[k := v]> (abs m).
Proof.
  intros [Hw Hc] Hs Hsw Hi Hk Hnone He' Hk' Hv m'.
  destruct (write_value m k s i e e' v Hw Hs Hsw Hi Hk He' Hk' Hv) as [Hw' Ha].
  split; [|done]. apply set_key_count_wf; [done|].
  unfold m'. rewrite Ha, size_insert_count, Hnone. simpl. lia.
Qed.

Lemma write_removed m k s i e :
  map_wf m → shards m !! shard_index m k = Some s → shard_wf hash_of s →
  slots (table s) !! i = Some (Some e) → e_key e = k → is_Some (abs m !! k) →
  let m' := write_entry m (shard_index m k) s i (entry_clear e) in
  map_wf (set_key_count m' (key_count m' - 1)) ∧
  abs (set_key_count m' (key_count m' - 1)) = delete k (abs m).
Proof.
  intros [Hw Hc] Hs Hsw Hi Hk [w Hlive] m'.
  destruct (write_clear m k s i e Hw Hs Hsw Hi Hk) as [Hw' Ha].
  split; [|done]. apply set_key_count_wf; [done|].
  unfold m'. rewrite Ha, size_delete_count, Hlive. simpl. lia.
Qed.

Lemma set_spec m k v :
  map_wf m →
  map_wf (set hash_one k v m).1 ∧ abs (set hash_one k v m).1 = <[k := v]> (abs m) ∧
  (set hash_one k v m).2 = bool_decide (abs m !! k = None).
Proof.
  intros Hm. pose proof (cw_struct _ Hm) as Hw. unfold set. simpl. find_cases m k; rewrite Hs, Hfind.
  - destruct (entry_occupied e) eqn:Ho.
    + destruct (occupied_value e He Ho) as [w Hv]. rewrite Habs, Hv.
      destruct (write_live m k s i e (set_occupied_entry v e) v); auto.
      * rewrite Habs, Hv. eauto.
      * rewrite set_occupied_entry_eq. by apply entry_overwrite_wf.
    + destruct (write_fresh m k s i e (set_vacant_entry v e) v); auto using set_vacant_entry_wf.
      by rewrite Habs.
  - pose proof (insert_new_map m k s v Hm Hs Hsw) as Hn.
    by destruct (insert_new s k v (hash_of k)) as [s' b].
Qed.

Lemma insert_if_absent_spec m k v :
  map_wf m →
  map_wf (insert_if_absent hash_one k v m).1 ∧
  abs (insert_if_absent hash_one k v m).1 =
    match abs m !! k with Some _ => abs m | None => <[k := v]> (abs m) end ∧
  (insert_if_absent hash_one k v m).2 = bool_decide (abs m !! k = None).
Proof.
  intros Hm. pose proof (cw_struct _ Hm) as Hw. unfold insert_if_absent. simpl.
  find_cases m k; rewrite Hs, Hfind.
  - rewrite Habs. destruct (entry_occupied e) eqn:Ho.
    + destruct (occupied_value e He Ho) as [w ->]. done.
    + destruct (write_fresh m k s i e (entry_revive v e) v); auto using entry_revive_wf.
  - pose proof (insert_new_map m k s v Hm Hs Hsw) as Hn.
    destruct (insert_new s k v (hash_of k)) as [s' b]. simpl. by rewrite Habs in *.
Qed.

Lemma remove_with_spec {R} m k (f : V → R) :
  map_wf m →
  map_wf (remove_with hash_one k f m).1 ∧
  abs (remove_with hash_one k f m).1 = delete k (abs m) ∧
  (remove_with hash_one k f m).2 = f <$> abs m !! k.
Proof.
  intros Hm. pose proof (cw_struct _ Hm) as Hw. unfold remove_with. find_cases m k.
  - destruct (entry_occupied e) eqn:Ho; simpl.
    + destruct (occupied_value e He Ho) as [w Hv].
      destruct (write_removed m k s i e); auto; [rewrite Habs, Hv; eauto|]. by rewrite Habs.
    + rewrite Habs. split; [done|]. split; [|done]. symmetry. by apply delete_id.
  - rewrite Habs. split; [done|]. split; [|done]. symmetry. by apply delete_id.
Qed.

Lemma remove_eq m k : remove hash_one k m = remove_with hash_one k id m.
Proof.
  unfold remove, remove_with. destruct (find_entry hash_one m k) as [[[[? ?] ?] e]|]; [|done].
  destruct (negb (entry_occupied e)); [done|]. by rewrite option_fmap_id.
Qed.

Lemma remove_no_clone_eq m k :
  struct_wf m →
  remove_no_clone hash_one k m =
    ((remove hash_one k m).1, bool_decide (is_Some (remove hash_one k m).2)).
Proof.
  intros Hw. unfold remove_no_clone, remove. find_cases m k; [|done].
  destruct (entry_occupied e) eqn:Ho; [|done].
  by destruct (occupied_value e He Ho) as [w ->].
Qed.

Lemma try_update_spec {R} m k (f : V → option (V * R)) :
  map_wf m →
  map_wf (try_update hash_one k f m).1 ∧
  abs (try_update hash_one k f m).1 =
    match abs m !! k ≫= f with Some (v, _) => <[k := v]> (abs m) | None => abs m end ∧
  (try_update hash_one k f m).2 = snd <$> (abs m !! k ≫= f).
Proof.
  intros Hm. pose proof (cw_struct _ Hm) as Hw. unfold try_update. find_cases m k; [|by rewrite Habs].
  rewrite Habs. destruct (entry_occupied e) eqn:Ho.
  - destruct (occupied_value e He Ho) as [w Hv]. rewrite Hv. simpl.
    destruct (f w) as [[v r]|]; simpl; [|by rewrite write_touch].
    destruct (write_live m k s i e (entry_overwrite v e) v); auto using entry_overwrite_wf.
    rewrite Habs, Hv. eauto.
  - rewrite (vacant_value e He Ho). simpl. by rewrite write_touch.
Qed.

Lemma update_with_eq {R} m k (f : V → V * R) :
  update_with hash_one k f m = try_update hash_one k (λ v, Some (f v)) m.
Proof.
  unfold update_with, try_update. destruct (find_entry hash_one m k) as [[[[? ?] ?] e]|]; [|done].
  destruct (e_value e); [|done]. destruct (entry_occupied e); [|done]. by destruct (f v).
Qed.

(** ** Iteration *)

Definition all_pairs m : list (bytes * V) := concat ((λ s, live_pairs (slots (table s))) <$> shards m).

Lemma abs_all_pairs m : abs m = list_to_map (all_pairs m).
Proof.
  unfold abs, all_pairs. induction (shards m) as [|s ss IH]; [done|].
  simpl. rewrite list_to_map_app. unfold shard_map at 1, table_map. f_equal. exact IH.
Qed.

Lemma all_pairs_NoDup m : struct_wf m → NoDup (all_pairs m).*1.
Proof.
  intros Hw. pose proof (cw_shard _ Hw) as Hs. pose proof (cw_home _ Hw) as Hh.
  unfold all_pairs. clear Hw.
  assert (Hh' : ∃ off, ∀ i s k, shards m !! i = Some s → is_Some (shard_map s !! k) →
    shard_index m k = (off + i)%nat) by (exists O; eauto).
  destruct Hh' as [off Hh']. clear Hh. revert off Hs Hh'. generalize (shard_index m).
  induction (shards m) as [|s ss IH]; intros idx off Hs Hh; [constructor|].
  simpl. rewrite fmap_app. apply NoDup_app.
  assert (Hsw : shard_wf hash_of s) by (apply (Hs O); done).
  assert (Hin : ∀ s' k, shard_wf hash_of s' → k ∈ (live_pairs (slots (table s'))).*1 →
    is_Some (shard_map s' !! k)).
  { intros s' k Hs' ([k' v] & -> & Hp)%list_elem_of_fmap. exists v.
    apply (table_map_lookup hash_of); [by apply sw_table|]. by apply elem_of_live_pairs. }
  split; [|split].
  - eapply live_pairs_NoDup; [exact (tw_keys _ _ (sw_table _ _ Hsw))|
      exact (tw_entry _ _ (sw_table _ _ Hsw))].
  - intros k Hk Hk'. apply Hin in Hk; [|done].
    pose proof (Hh O s k eq_refl Hk) as H0.
    apply list_elem_of_fmap in Hk' as ([k' v] & -> & Hp).
    apply list_elem_of_In, in_concat in Hp as (lp & Hlp & Hp).
    apply list_elem_of_In in Hlp, Hp.
    apply list_elem_of_fmap in Hlp as (s' & -> & Hs').
    apply list_elem_of_lookup in Hs' as [j Hj].
    assert (Hk2 : is_Some (shard_map s' !! k')).
    { apply Hin; [by apply (Hs (S j))|]. apply list_elem_of_fmap. by exists (k', v). }
    pose proof (Hh (S j) s' k' Hj Hk2). simpl in *. lia.
  - apply (IH idx (S off)).
    + intros i s' Hi. by apply (Hs (S i)).
    + intros i s' k Hi Hk. rewrite (Hh (S i) s' k Hi Hk). lia.
Qed.

Lemma all_pairs_perm m : struct_wf m → all_pairs m ≡ₚ map_to_list (abs m).
Proof.
  intros Hw. rewrite abs_all_pairs. symmetry. apply map_to_list_to_map. by apply all_pairs_NoDup.
Qed.

Lemma for_each_all_pairs {A} (f : bytes → V → A → A) m a :
  for_each f m a = foldl (λ a p, f p.1 p.2 a) a (all_pairs m).
Proof.
  unfold for_each, all_pairs. revert a. induction (shards m) as [|s ss IH]; intros a; [done|].
  simpl. by rewrite IH, foldl_app.
Qed.

Lemma keys_eq m : keys m = (all_pairs m).*1.
Proof.
  unfold keys. rewrite for_each_all_pairs.
  assert (H : ∀ (l : list (bytes * V)) out, foldl (λ a p, a ++ [p.1]) out l = out ++ l.*1).
  { induction l as [|p l IH]; intros out; simpl; [by rewrite app_nil_r|].
    by rewrite IH, <- app_assoc. }
  by rewrite H.
Qed.

(** ** Construction and clearing *)

Lemma empty_struct_wf m bits :
  0 <= bits → Z.of_nat (length (shards m)) = 2 ^ bits → shard_mask m = 2 ^ bits - 1 →
  (∀ i s, shards m !! i = Some s → shard_wf hash_of s ∧ shard_map s = ∅) →
  struct_wf m ∧ abs m = ∅.
Proof.
  intros Hb Hl Hm Hs. assert (Hw : struct_wf m).
  { split; [by exists bits|by intros i s [? _]%Hs|].
    intros i s k Hi [v Hk]. destruct (Hs i s Hi) as [_ He]. by rewrite He in Hk. }
  split; [done|]. apply map_eq. intros k. rewrite abs_lookup, lookup_empty by done.
  destruct (shards m !! shard_index m k) as [s|] eqn:E; [|done].
  destruct (Hs _ _ E) as [_ He]. simpl. by rewrite He, lookup_empty.
Qed.

Lemma build_wf bits per mk : 0 <= bits → map_wf (build bits per mk) ∧ abs (build bits per mk) = ∅.
Proof.
  intros Hb. destruct (empty_struct_wf (build bits per mk) bits) as [Hw Ha]; [done| |done| |].
  - simpl. rewrite length_replicate. lia.
  - intros i s [-> _]%lookup_replicate_1. split; [apply Shard_new_wf|apply (Shard_new_map hash_of)].
  - split; [|done]. split; [done|]. by rewrite Ha.
Qed.

Lemma with_capacity_wf n mk : map_wf (with_capacity n mk) ∧ abs (with_capacity n mk) = ∅.
Proof. apply build_wf. apply Z.log2_nonneg. Qed.

Lemma clear_spec m : struct_wf m → map_wf (clear m) ∧ abs (clear m) = ∅.
Proof.
  intros Hw. destruct (cw_count _ Hw) as (bits & Hb & Hl & Hmask).
  destruct (empty_struct_wf (clear m) bits) as [Hw' Ha]; [done| |done| |].
  - simpl. by rewrite length_fmap.
  - intros i s Hi. simpl in Hi. rewrite list_lookup_fmap in Hi.
    destruct (shards m !! i); simplify_eq/=.
    split; [apply (Shard_new_wf hash_of)|apply (Shard_new_map hash_of)].
  - split; [|done]. split; [done|]. by rewrite Ha.
Qed.

Lemma compact_shard_spec i m : map_wf m → map_wf (compact_shard i m) ∧ abs (compact_shard i m) = abs m.
Proof.
  intros [Hw Hc]. unfold compact_shard. destruct (shards m !! i) as [s|] eqn:E; [|by split].
  destruct (shard_compact_correct hash_of s (cw_shard _ Hw _ _ E)) as [Hs Hmap].
  destruct (set_shard_same m i s (shard_compact s) Hw E Hs Hmap) as [Hw' Ha].
  split; [|done]. split; [done|]. simpl. by rewrite Ha.
Qed.

(** ** Retain *)

(** What [retain] may do to one slot. *)
Inductive retained : option (Entry V) → option (Entry V) → Prop :=
| retained_null : retained None None
| retained_keep e : retained (Some e) (Some e)
| retained_clear e : retained (Some e) (Some (entry_clear e)).

Lemma live_pairs_cons (o : option (Entry V)) l :
  live_pairs (o :: l) =
    match live_pair o with Some p => p :: live_pairs l | None => live_pairs l end.
Proof. done. Qed.

Lemma live_pair_occupied e v :
  entry_occupied e = true → e_value e = Some v → live_pair (Some e) = Some (e_key e, v).
Proof. intros Ho Hv. simpl. by rewrite Ho, Hv. Qed.

Lemma live_pair_vacant e : entry_occupied e = false → live_pair (Some e) = None.
Proof. intros Ho. simpl. by rewrite Ho. Qed.

Lemma retain_slots_spec {A} (f : bytes → V → A → A * bool) l a :
  (∀ j e, l !! j = Some (Some e) → entry_wf hash_of e) →
  let '(a', n, l') := retain_slots f a l in
  Forall2 retained l l' ∧
  retain_run f (live_pairs l) a = (a', live_pairs l') ∧
  n = Z.of_nat (length (live_pairs l)) - Z.of_nat (length (live_pairs l')).
Proof.
  revert a. induction l as [|o l IH]; intros a Hw; [by repeat constructor|].
  assert (IH' := λ a, IH a (λ j, Hw (S j))). clear IH.
  rewrite live_pairs_cons. cbn [retain_slots]. destruct o as [e|].
  2:{ specialize (IH' a). cbn [retain_slot live_pair]. destruct (retain_slots f a l) as [[a' n] l'].
      destruct IH' as (? & ? & ?). split; [by repeat constructor|]. done. }
  pose proof (Hw O e eq_refl) as He. unfold retain_slot.
  destruct (entry_occupied e) eqn:Ho; cbn [negb].
  2:{ specialize (IH' a). destruct (retain_slots f a l) as [[a' n] l'].
      destruct IH' as (? & ? & ?). split; [by repeat constructor|].
      by rewrite live_pairs_cons, live_pair_vacant. }
  destruct (occupied_value e He Ho) as [v Hv]. rewrite Hv, (live_pair_occupied e v) by done.
  cbn [retain_run]. destruct (f (e_key e) v a) as [a1 keep]. specialize (IH' a1).
  destruct keep; destruct (retain_slots f a1 l) as [[a' n] l']; destruct IH' as (? & -> & ?);
    (split; [by repeat constructor|]); rewrite live_pairs_cons.
  - rewrite (live_pair_occupied e v) by done. cbn [length]. split; [done|lia].
  - rewrite live_pair_vacant by apply entry_clear_occ. cbn [length]. split; [done|lia].
Qed.

Lemma retained_lookup l l' j e' :
  Forall2 retained l l' → l' !! j = Some (Some e') →
  ∃ e, l !! j = Some (Some e) ∧ (e' = e ∨ e' = entry_clear e).
Proof.
  intros Hf Hj. destruct (Forall2_lookup_r _ _ _ _ _ Hf Hj) as (o & Ho & Hr).
  inversion Hr; subst; eauto.
Qed.

Lemma retained_occupied_at l l' j : Forall2 retained l l' → occupied_at l j → occupied_at l' j.
Proof.
  intros Hf [e He]. destruct (Forall2_lookup_l _ _ _ _ _ Hf He) as (o & Ho & Hr).
  inversion Hr; subst; eexists; eauto.
Qed.

Lemma retained_nonnull l l' : Forall2 retained l l' → nonnull l' = nonnull l.
Proof.
  unfold nonnull. induction 1 as [|o o' l l' Hr Hf IH]; [done|].
  rewrite !filter_cons. inversion Hr; subst; repeat case_decide; simpl; rewrite ?IH; try done;
    exfalso; eauto.
Qed.

Lemma retained_table_wf t l' :
  table_wf hash_of t → Forall2 retained (slots t) l' →
  table_wf hash_of (mkTable l' (capacity t) (mask t) (threshold t)).
Proof.
  intros [[Hp Hm Ht Hl] He Hr Hk] Hf. split; [split; simpl; auto|..]; simpl.
  - by rewrite <- (Forall2_length _ _ _ Hf).
  - intros j e' Hj. destruct (retained_lookup _ _ _ _ Hf Hj) as (e & Hje & [->| ->]); eauto.
    apply entry_clear_wf. eauto.
  - intros j e' Hj. destruct (retained_lookup _ _ _ _ Hf Hj) as (e & Hje & Hor).
    destruct (Hr _ _ Hje) as (d & Hd & -> & Hpath).
    assert (Hh : e_hash e' = e_hash e) by (by destruct Hor as [->| ->]).
    exists d. simpl. rewrite Hh. split; [done|]. split; [done|].
    intros d' Hd'. eapply retained_occupied_at; eauto.
  - intros i j e1 e2 Hi Hj Heq.
    destruct (retained_lookup _ _ _ _ Hf Hi) as (e1' & Hi' & Ho1).
    destruct (retained_lookup _ _ _ _ Hf Hj) as (e2' & Hj' & Ho2).
    eapply Hk; [exact Hi'|exact Hj'|]. destruct Ho1 as [->| ->], Ho2 as [->| ->]; done.
Qed.

Lemma retain_run_app {A} (f : bytes → V → A → A * bool) l1 l2 a :
  retain_run f (l1 ++ l2) a =
    let '(a1, k1) := retain_run f l1 a in
    let '(a2, k2) := retain_run f l2 a1 in (a2, k1 ++ k2).
Proof.
  revert a. induction l1 as [|[k v] l1 IH]; intros a; simpl.
  - by destruct (retain_run f l2 a).
  - destruct (f k v a) as [a' keep]. rewrite IH.
    destruct (retain_run f l1 a') as [a1 k1]. destruct (retain_run f l2 a1) as [a2 k2].
    by destruct keep.
Qed.

Lemma retain_run_sublist {A} (f : bytes → V → A → A * bool) l a : (retain_run f l a).2 `sublist_of` l.
Proof.
  revert a. induction l as [|[k v] l IH]; intros a; simpl; [constructor|].
  destruct (f k v a) as [a' keep]. specialize (IH a').
  destruct (retain_run f l a') as [a'' kept]. simpl in *. by destruct keep; constructor.
Qed.

Lemma retain_table_spec {A} (f : bytes → V → A → A * bool) s a :
  shard_wf hash_of s →
  let '(a', n, s') := retain_shard_table f a s in
  shard_wf hash_of s' ∧
  retain_run f (live_pairs (slots (table s))) a = (a', live_pairs (slots (table s'))) ∧
  n = Z.of_nat (length (live_pairs (slots (table s)))) -
      Z.of_nat (length (live_pairs (slots (table s')))).
Proof.
  intros [Hw Hl Hload]. unfold retain_shard_table.
  pose proof (retain_slots_spec f (slots (table s)) a (tw_entry _ _ Hw)) as Hr.
  destruct (retain_slots f a (slots (table s))) as [[a' n] l']. destruct Hr as (Hf & Hrun & Hn).
  split; [|by split]. split; simpl; [by apply retained_table_wf| |done].
  by rewrite (retained_nonnull _ _ Hf).
Qed.

Lemma retain_shards_spec {A} (f : bytes → V → A → A * bool) ss a :
  (∀ i s, ss !! i = Some s → shard_wf hash_of s) →
  let pairs ss := concat ((λ s, live_pairs (slots (table s))) <$> ss) in
  let '(a', n, ss') := retain_shards f a ss in
  length ss' = length ss ∧
  (∀ i s', ss' !! i = Some s' → shard_wf hash_of s' ∧
     ∃ s, ss !! i = Some s ∧
       live_pairs (slots (table s')) `sublist_of` live_pairs (slots (table s))) ∧
  retain_run f (pairs ss) a = (a', pairs ss') ∧
  n = Z.of_nat (length (pairs ss)) - Z.of_nat (length (pairs ss')).
Proof.
  intros Hs pairs. revert a. induction ss as [|s ss IH]; intros a; simpl; [done|].
  pose proof (retain_table_spec f s a (Hs O s eq_refl)) as Ht.
  destruct (retain_shard_table f a s) as [[a1 n1] s1] eqn:E1. destruct Ht as (Hw1 & Hr1 & Hn1).
  specialize (IH (λ i, Hs (S i)) a1). destruct (retain_shards f a1 ss) as [[a2 n2] ss2].
  destruct IH as (Hlen & Hsub & Hr2 & Hn2).
  split; [simpl; by rewrite Hlen|]. split; [|split].
  - intros [|i] s'; simpl; [|by apply Hsub]. intros [= <-]. split; [done|]. exists s.
    split; [done|]. pose proof (retain_run_sublist f (live_pairs (slots (table s))) a) as H.
    by rewrite Hr1 in H.
  - change (retain_run f (live_pairs (slots (table s)) ++ pairs ss) a =
      (a2, live_pairs (slots (table s1)) ++ pairs ss2)).
    by rewrite retain_run_app, Hr1, Hr2.
  - change (n1 + n2 = Z.of_nat (length (live_pairs (slots (table s)) ++ pairs ss)) -
      Z.of_nat (length (live_pairs (slots (table s1)) ++ pairs ss2))).
    rewrite !length_app. lia.
Qed.

Lemma retain_spec {A} m (f : bytes → V → A → A * bool) a :
  map_wf m →
  map_wf (retain f m a).1 ∧
  abs (retain f m a).1 = list_to_map (retain_run f (all_pairs m) a).2 ∧
  (retain f m a).2 = (retain_run f (all_pairs m) a).1.
Proof.
  intros [Hw Hc]. pose proof (retain_shards_spec f (shards m) a (cw_shard _ Hw)) as Hr.
  unfold retain. destruct (retain_shards f a (shards m)) as [[a' n] ss'].
  cbn zeta in Hr. destruct Hr as (Hlen & Hsub & Hrun & Hn).
  set (m' := mkCustomMap ss' (shift m) (shard_mask m) (key_count m - n) (max_keys m)).
  assert (Hw' : struct_wf m').
  { split; [unfold m'; simpl; rewrite Hlen; apply (cw_count _ Hw)|by intros i s [? _]%Hsub|].
    intros i s' k Hi [v Hk]. destruct (Hsub i s' Hi) as (Hs' & s & Hsi & Hsl).
    change (shard_index m' k) with (shard_index m k). eapply cw_home; [done|exact Hsi|].
    exists v. apply (table_map_lookup hash_of); [by eapply sw_table, cw_shard|].
    apply elem_of_live_pairs. eapply elem_of_sublist; [|exact Hsl].
    apply elem_of_live_pairs. by apply (table_map_lookup hash_of); [apply sw_table|]. }
  assert (Hsize : ∀ m0, struct_wf m0 → size (abs m0) = length (all_pairs m0)).
  { intros m0 Hw0. rewrite abs_all_pairs. apply map_size_list_to_map. by apply all_pairs_NoDup. }
  unfold all_pairs at 1 2. rewrite Hrun. simpl. split; [|split; [|done]].
  - split; [done|]. simpl. rewrite Hc, Hn, !Hsize by done. unfold all_pairs, m'. simpl. lia.
  - by rewrite abs_all_pairs.
Qed.

(** ** The interface *)

Lemma absent_get m k :
  struct_wf m → negb (contains_key hash_one m k) = bool_decide (get_ref hash_one m k = None).
Proof. intros Hw. rewrite contains_key_spec by done. by destruct (get_ref hash_one m k). Qed.

(** No operation changes the number of shards, the home of a key or the key limit. *)
Definition constants m : nat * Z * Z * Z := (length (shards m), shift m, shard_mask m, max_keys m).

Lemma set_shard_constants m i s : constants (set_shard m i s) = constants m.
Proof. unfold constants. simpl. by rewrite length_insert. Qed.

Lemma set_key_count_constants m n : constants (set_key_count m n) = constants m.
Proof. done. Qed.

Lemma write_entry_constants m idx s i e : constants (write_entry m idx s i e) = constants m.
Proof. apply set_shard_constants. Qed.

Ltac same_constants := simpl; rewrite ?set_key_count_constants, ?write_entry_constants, ?set_shard_constants; done.

Lemma insert_constants k v m : constants (insert hash_one k v m).1 = constants m.
Proof.
  unfold insert. simpl. destruct (shards m !! _); [|done].
  destruct (insert_hashed _ _ _ _) as [? []]; same_constants.
Qed.

Lemma set_constants k v m : constants (set hash_one k v m).1 = constants m.
Proof.
  unfold set. simpl. destruct (shards m !! _) as [s|]; [|done].
  destruct (find s k _) as [[i e]|]; [destruct (entry_occupied e); same_constants|].
  destruct (insert_new _ _ _ _) as [? []]; same_constants.
Qed.

Lemma insert_if_absent_constants k v m : constants (insert_if_absent hash_one k v m).1 = constants m.
Proof.
  unfold insert_if_absent. simpl. destruct (shards m !! _) as [s|]; [|done].
  destruct (find s k _) as [[i e]|]; [destruct (entry_occupied e); same_constants|].
  destruct (insert_new _ _ _ _) as [? []]; same_constants.
Qed.

Lemma remove_with_constants {R} k (f : V → R) m : constants (remove_with hash_one k f m).1 = constants m.
Proof.
  unfold remove_with. destruct (find_entry hash_one m k) as [[[[? ?] ?] e]|]; [|done].
  destruct (negb (entry_occupied e)); same_constants.
Qed.

Lemma try_update_constants {R} k (f : V → option (V * R)) m : constants (try_update hash_one k f m).1 = constants m.
Proof.
  unfold try_update. destruct (find_entry hash_one m k) as [[[[? ?] ?] e]|]; [|done].
  destruct (e_value e) as [v|]; [|same_constants]. destruct (entry_occupied e); [|same_constants].
  destruct (f v) as [[? ?]|]; same_constants.
Qed.

Lemma retain_shards_length {A} (f : bytes → V → A → A * bool) a (ss : list (Shard V)) :
  length (retain_shards f a ss).2 = length ss.
Proof.
  revert a. induction ss as [|s ss IH]; intros a; [done|]. simpl.
  destruct (retain_shard_table f a s) as [[a' n] s']. specialize (IH a').
  destruct (retain_shards f a' ss) as [[? ?] ?]. simpl in *. by rewrite IH.
Qed.

Lemma retain_constants {A} (f : bytes → V → A → A * bool) m a : constants (retain f m a).1 = constants m.
Proof.
  unfold retain. pose proof (retain_shards_length f a (shards m)) as Hl.
  destruct (retain_shards f a (shards m)) as [[? ?] ?]. unfold constants. simpl in *. by rewrite Hl.
Qed.

Lemma clear_constants m : constants (clear m) = constants m.
Proof. unfold constants. simpl. by rewrite length_fmap. Qed.

Lemma compact_shard_constants i m : constants (compact_shard i m) = constants m.
Proof. unfold compact_shard. destruct (shards m !! i); [apply set_shard_constants|done]. Qed.

Lemma constants_max m m' : constants m' = constants m → max_keys m' = max_keys m.
Proof. by intros [= _ _ _ ->]. Qed.

Lemma constants_index m m' k : constants m' = constants m → shard_index m' k = shard_index m k.
Proof. intros [= _ Hs Hm _]. unfold CustomMap.shard_index. by rewrite Hs, Hm. Qed.

(** The sharded map implements the interface of the store. *)
#[export] Instance custom_kv_laws : KVMapLaws V (CustomMap V) (H := custom_kv hash_one).
Proof.
  refine {| kv_wf := map_wf; kv_abs := abs |}; simpl; intros.
  - by apply get_ref_abs, cw_struct.
  - by apply with_entry_abs, cw_struct.
  - by apply read_consistent_abs, cw_struct.
  - destruct (insert_spec m k v) as (? & ? & ?); [done|]. auto using constants_max, insert_constants.
  - destruct (set_spec m k v) as (? & ? & ?); [done|]. auto using constants_max, set_constants.
  - unfold try_insert, len. by rewrite absent_get by by apply cw_struct.
  - unfold try_set, len. by rewrite absent_get by by apply cw_struct.
  - rewrite remove_eq. destruct (remove_with_spec m k id) as (? & ? & Hr); [done|].
    rewrite option_fmap_id in Hr. auto using constants_max, remove_with_constants.
  - rewrite remove_no_clone_eq by by apply cw_struct. rewrite remove_eq.
    destruct (remove_with_spec m k id) as (? & ? & Hr); [done|].
    rewrite option_fmap_id in Hr. simpl. rewrite Hr. auto using constants_max, remove_with_constants.
  - rewrite update_with_eq. destruct (try_update_spec m k (λ v, Some (f v))) as (? & Ha & Hr); [done|].
    split; [done|]. rewrite Ha, Hr, (constants_max _ _ (try_update_constants k _ m)). split; [|split; [done|]].
    + destruct (abs m !! k); simpl; [by destruct (f v)|done].
    + by destruct (abs m !! k).
  - destruct (try_update_spec m k f) as (? & ? & ?); [done|]. auto using constants_max, try_update_constants.
  - destruct (insert_if_absent_spec m k v) as (? & ? & ?); [done|]. auto using constants_max, insert_if_absent_constants.
  - exists (all_pairs m). split; [by apply all_pairs_perm, cw_struct|]. apply for_each_all_pairs.
  - exists (all_pairs m). split; [by apply all_pairs_perm, cw_struct|].
    destruct (retain_spec m f a) as (? & ? & ?); [done|]. split; [done|]. split; [done|].
    split; [|done]. unfold retain. by destruct (retain_shards f a (shards m)) as [[? ?] ?].
  - destruct (clear_spec m) as [? ?]; [by apply cw_struct|]. done.
  - by apply cw_keys.
Defined.

(** The same promises, for the maps with the same constants. *)
Definition constant_laws (g : nat * Z * Z * Z) : KVMapLaws V (CustomMap V) (H := custom_kv hash_one).
Proof.
  pose (L := custom_kv_laws).
  refine {| kv_wf := λ m, map_wf m ∧ constants m = g; kv_abs := abs |}.
  - intros m k [Hw _]. exact (kv_get_ref_spec (KVMapLaws := L) m k Hw).
  - intros R m k f [Hw _]. exact (kv_with_entry_spec (KVMapLaws := L) m k f Hw).
  - intros R m k f [Hw _]. exact (kv_read_consistent_spec (KVMapLaws := L) m k f Hw).
  - intros m k v [Hw <-]. destruct (kv_insert_spec (KVMapLaws := L) m k v Hw) as [? ?].
    split; [split; [done|apply insert_constants]|done].
  - intros m k v [Hw <-]. destruct (kv_set_spec (KVMapLaws := L) m k v Hw) as [? ?].
    split; [split; [done|apply set_constants]|done].
  - intros m k v [Hw _]. exact (kv_try_insert_spec (KVMapLaws := L) m k v Hw).
  - intros m k v [Hw _]. exact (kv_try_set_spec (KVMapLaws := L) m k v Hw).
  - intros m k [Hw <-]. destruct (kv_remove_spec (KVMapLaws := L) m k Hw) as [? ?].
    split; [split; [done|]|done]. simpl. rewrite remove_eq. apply remove_with_constants.
  - intros m k [Hw <-]. destruct (kv_remove_no_clone_spec (KVMapLaws := L) m k Hw) as [? ?].
    split; [split; [done|]|done]. simpl. rewrite remove_no_clone_eq, remove_eq by by apply cw_struct. simpl.
    apply remove_with_constants.
  - intros R m k f [Hw <-]. destruct (kv_update_with_spec (KVMapLaws := L) m k f Hw) as [? ?].
    split; [split; [done|]|done]. simpl. rewrite update_with_eq. apply try_update_constants.
  - intros R m k f [Hw <-]. destruct (kv_try_update_spec (KVMapLaws := L) m k f Hw) as [? ?].
    split; [split; [done|apply try_update_constants]|done].
  - intros m k v [Hw <-]. destruct (kv_insert_if_absent_spec (KVMapLaws := L) m k v Hw) as [? ?].
    split; [split; [done|apply insert_if_absent_constants]|done].
  - intros A m f a [Hw _]. exact (kv_for_each_spec (KVMapLaws := L) m f a Hw).
  - intros A m f a [Hw <-]. destruct (kv_retain_spec (KVMapLaws := L) m f a Hw) as (l & ? & ? & ?).
    exists l. split; [done|]. split; [split; [done|apply retain_constants]|done].
  - intros m [Hw <-]. destruct (kv_clear_spec (KVMapLaws := L) m Hw) as [? ?].
    split; [split; [done|apply clear_constants]|done].
  - intros m [Hw _]. exact (kv_len_spec (KVMapLaws := L) m Hw).
Defined.

(** A read under the lock changes nothing and sees the value. *)
Lemma get_locked_spec {R} m k (f : V → R) :
  map_wf m → get_locked hash_one m k f = (m, f <$> abs m !! k).
Proof.
  intros [Hw _]. unfold get_locked. find_cases m k; rewrite Habs; [|done].
  rewrite (write_touch m _ _ _ _ Hs Hi He). by destruct (entry_occupied e).
Qed.

(** Rebuilding values into themselves changes nothing that can be seen. *)
Lemma defragment_values_spec budget (rebuild : V → V) m :
  map_wf m → (∀ v, rebuild v = v) →
  map_wf (defragment_values hash_one budget rebuild m).1 ∧ abs (defragment_values hash_one budget rebuild m).1 = abs m ∧
  constants (defragment_values hash_one budget rebuild m).1 = constants m.
Proof.
  intros Hw Hf. unfold defragment_values. generalize 0%nat as n. generalize (take budget (keys m)) as l.
  intros l. revert m Hw. induction l as [|k l IH]; intros m Hw n; [done|]. cbn [foldl].
  set (g := λ v, (rebuild v, tt)). pose proof (kv_update_with_spec (KVMapLaws := custom_kv_laws) m k g Hw) as Hs. simpl in Hs.
  pose proof (try_update_constants k (λ v, Some (g v)) m) as Hg. rewrite <- update_with_eq in Hg.
  destruct (update_with hash_one k g m) as [m' r]. simpl in Hs, Hg. destruct Hs as (Hw' & Ha & _).
  destruct (IH m' Hw' (match r with Some _ => S n | None => n end)) as (? & Ha' & Hg'). split; [done|].
  split; [etransitivity; [exact Ha'|]|by etransitivity; [exact Hg'|]].
  rewrite Ha. destruct (abs m !! k) as [v|] eqn:E; [|done]. rewrite Hf. by apply insert_id.
Qed.
End Refinement.
