(* ===== verification/MapRefine.v ===== *)
(** Refinement of the sharded map to a finite map, for whole runs.

    [MapOp] is the client's alphabet of calls on [CustomMap]; [map_step] runs a
    call on the sharded table and [spec_step] on a finite map with a key limit.
    The claims hold for every hasher, every number of shards and every run from
    the constructor, with growth, tombstones and compaction included. *)

From S2P Require Import Prelude Shard ShardSpec MapIface CustomMap CustomMapSpec.
Local Open Scope Z_scope.

Section Runs.
Context {V : Type} (hash_one : bytes → Z).
Implicit Types (m : CustomMap V) (g : gmap bytes V) (k : bytes) (v : V).

Inductive MapOp :=
| OpInsert k v
| OpTryInsert k v
| OpSet k v
| OpTrySet k v
| OpInsertIfAbsent k v
| OpRemove k
| OpRemoveNoClone k
| OpUpdateWith k (f : V → V * Z)
| OpTryUpdate k (f : V → option (V * Z))
| OpRetain (p : bytes → V → bool)
| OpCompactShard (i : nat)
| OpClear
| OpGet k
| OpReadConsistent k
| OpContainsKey k
| OpLen.

Inductive MapRes :=
| RUnit
| RBool (b : bool)
| RFull (r : option bool)
| RVal (o : option V)
| RInt (o : option Z).

Definition on_snd {A B C} (f : B → C) (p : A * B) : A * C := (p.1, f p.2).

(** One call on the sharded map. *)
Definition map_step (o : MapOp) m : CustomMap V * MapRes :=
  match o with
  | OpInsert k v => on_snd RBool (insert hash_one k v m)
  | OpTryInsert k v => on_snd RFull (try_insert hash_one k v m)
  | OpSet k v => on_snd RBool (set hash_one k v m)
  | OpTrySet k v => on_snd RFull (try_set hash_one k v m)
  | OpInsertIfAbsent k v => on_snd RBool (insert_if_absent hash_one k v m)
  | OpRemove k => on_snd RVal (remove hash_one k m)
  | OpRemoveNoClone k => on_snd RBool (remove_no_clone hash_one k m)
  | OpUpdateWith k f => on_snd RInt (update_with hash_one k f m)
  | OpTryUpdate k f => on_snd RInt (try_update hash_one k f m)
  | OpRetain p => on_snd (λ _, RUnit) (retain (λ k v _, (tt, p k v)) m tt)
  | OpCompactShard i => (compact_shard i m, RUnit)
  | OpClear => (clear m, RUnit)
  | OpGet k => (m, RVal (get_ref hash_one m k))
  | OpReadConsistent k => (m, RVal (read_consistent hash_one m k id))
  | OpContainsKey k => (m, RBool (contains_key hash_one m k))
  | OpLen => (m, RInt (Some (len m)))
  end.

(** The same call on a finite map that holds at most [limit] keys. *)
Definition spec_full (limit : Z) g k : bool :=
  (limit <=? Z.of_nat (size g)) && bool_decide (g !! k = None).

Definition spec_step (limit : Z) (o : MapOp) g : gmap bytes V * MapRes :=
  match o with
  | OpInsert k v | OpSet k v => (<[k := v]> g, RBool (bool_decide (g !! k = None)))
  | OpTryInsert k v | OpTrySet k v =>
      if spec_full limit g k then (g, RFull None)
      else (<[k := v]> g, RFull (Some (bool_decide (g !! k = None))))
  | OpInsertIfAbsent k v =>
      (match g !! k with Some _ => g | None => <[k := v]> g end,
       RBool (bool_decide (g !! k = None)))
  | OpRemove k => (delete k g, RVal (g !! k))
  | OpRemoveNoClone k => (delete k g, RBool (bool_decide (is_Some (g !! k))))
  | OpUpdateWith k f =>
      (match g !! k with Some v => <[k := (f v).1]> g | None => g end,
       RInt ((λ v, (f v).2) <$> g !! k))
  | OpTryUpdate k f =>
      (match g !! k ≫= f with Some (v, _) => <[k := v]> g | None => g end,
       RInt (snd <$> (g !! k ≫= f)))
  | OpRetain p => (filter (λ q, p q.1 q.2 = true) g, RUnit)
  | OpCompactShard _ => (g, RUnit)
  | OpClear => (∅, RUnit)
  | OpGet k | OpReadConsistent k => (g, RVal (g !! k))
  | OpContainsKey k => (g, RBool (bool_decide (is_Some (g !! k))))
  | OpLen => (g, RInt (Some (Z.of_nat (size g))))
  end.

(** A sequence of calls, with the results in order. *)
Fixpoint run {S} (step : MapOp → S → S * MapRes) (ops : list MapOp) (s : S) : S * list MapRes :=
  match ops with
  | [] => (s, [])
  | o :: ops' =>
      let '(s', r) := step o s in
      let '(s'', rs) := run step ops' s' in
      (s'', r :: rs)
  end.

(** ** One step *)

Lemma retain_run_filter (p : bytes → V → bool) (l : list (bytes * V)) :
  (retain_run (λ k v (_ : unit), (tt, p k v)) l tt).2 = filter (λ q, p q.1 q.2 = true) l.
Proof.
  induction l as [|[k v] l IH]; [done|]. rewrite filter_cons. simpl.
  destruct (retain_run _ l tt) as [u kept]. simpl in IH. subst.
  by destruct (p k v).
Qed.

Lemma retain_filter (p : bytes → V → bool) m :
  map_wf hash_one m →
  map_wf hash_one (retain (λ k v (_ : unit), (tt, p k v)) m tt).1 ∧
  abs (retain (λ k v (_ : unit), (tt, p k v)) m tt).1 = filter (λ q, p q.1 q.2 = true) (abs m).
Proof.
  intros Hm. destruct (retain_spec hash_one m (λ k v (_ : unit), (tt, p k v)) tt Hm) as (Hw & Ha & _).
  split; [done|]. rewrite Ha, retain_run_filter, abs_all_pairs.
  apply map_eq. intros k. apply option_eq. intros v.
  pose proof (all_pairs_NoDup hash_one m (cw_struct _ _ Hm)) as Hnd.
  rewrite map_lookup_filter_Some.
  rewrite <- !elem_of_list_to_map; [by rewrite list_elem_of_filter, (comm and)|done|].
  eapply sublist_NoDup; [exact Hnd|]. apply fmap_sublist, sublist_filter.
Qed.

Lemma spec_full_eq limit m k :
  map_wf hash_one m → limit = max_keys m →
  (max_keys m <=? key_count m) && negb (contains_key hash_one m k) = spec_full limit (abs m) k.
Proof.
  intros Hm ->. unfold spec_full. rewrite (cw_keys _ _ Hm).
  rewrite (absent_get hash_one m k) by by apply cw_struct.
  by rewrite get_ref_abs by by apply cw_struct.
Qed.

Lemma map_step_refines o m :
  map_wf hash_one m →
  map_wf hash_one (map_step o m).1 ∧ max_keys (map_step o m).1 = max_keys m ∧
  (abs (map_step o m).1, (map_step o m).2) = spec_step (max_keys m) o (abs m).
Proof.
  intros Hm. pose proof (cw_struct _ _ Hm) as Hs. destruct o; cbn [map_step spec_step on_snd fst snd].
  - destruct (insert_spec hash_one m k v Hm) as (? & -> & ->). auto using constants_max, insert_constants.
  - unfold try_insert. rewrite (spec_full_eq _ m k Hm eq_refl). destruct (spec_full _ _ _); [done|].
    destruct (insert_spec hash_one m k v Hm) as (? & Ha & Hb). pose proof (constants_max _ _ (insert_constants hash_one k v m)).
    destruct (insert hash_one k v m) as [m' b]. simpl in *. by rewrite Ha, Hb.
  - destruct (set_spec hash_one m k v Hm) as (? & -> & ->). auto using constants_max, set_constants.
  - unfold try_set. rewrite (spec_full_eq _ m k Hm eq_refl). destruct (spec_full _ _ _); [done|].
    destruct (set_spec hash_one m k v Hm) as (? & Ha & Hb). pose proof (constants_max _ _ (set_constants hash_one k v m)).
    destruct (set hash_one k v m) as [m' b]. simpl in *. by rewrite Ha, Hb.
  - destruct (insert_if_absent_spec hash_one m k v Hm) as (? & -> & ->). auto using constants_max, insert_if_absent_constants.
  - destruct (kv_remove_spec (KVMapLaws := custom_kv_laws hash_one) m k Hm) as (? & ? & ? & ?).
    simpl in *. split; [done|]. split; [done|congruence].
  - destruct (kv_remove_no_clone_spec (KVMapLaws := custom_kv_laws hash_one) m k Hm) as (? & ? & ? & ?).
    simpl in *. split; [done|]. split; [done|congruence].
  - destruct (kv_update_with_spec (KVMapLaws := custom_kv_laws hash_one) m k f Hm) as (? & ? & ? & ?).
    simpl in *. split; [done|]. split; [done|congruence].
  - destruct (kv_try_update_spec (KVMapLaws := custom_kv_laws hash_one) m k f Hm) as (? & ? & ? & ?).
    simpl in *. split; [done|]. split; [done|congruence].
  - destruct (retain_filter p m Hm) as [? ->]. split; [done|]. split; [|done].
    unfold retain. by destruct (retain_shards _ _ _) as [[? ?] ?].
  - destruct (compact_shard_spec hash_one i m Hm) as [? ->]. split; [done|]. split; [|done].
    unfold compact_shard. by destruct (shards m !! i).
  - destruct (clear_spec hash_one m Hs) as [? ->]. done.
  - by rewrite get_ref_abs.
  - by rewrite read_consistent_abs, option_fmap_id.
  - split; [done|]. split; [done|]. rewrite contains_key_spec by done. by rewrite get_ref_abs.
  - unfold len. by rewrite (cw_keys _ _ Hm).
Qed.

Lemma run_refines ops m :
  map_wf hash_one m →
  map_wf hash_one (run map_step ops m).1 ∧
  (abs (run map_step ops m).1, (run map_step ops m).2) = run (spec_step (max_keys m)) ops (abs m).
Proof.
  revert m. induction ops as [|o ops IH]; intros m Hm; [done|]. cbn [run].
  destruct (map_step_refines o m Hm) as (Hw & Hmax & Heq).
  destruct (map_step o m) as [m' r]. simpl in *. destruct (spec_step _ o _) as [g' r'].
  injection Heq as <- <-. destruct (IH m' Hw) as [Hw' Heq']. rewrite Hmax in Heq'.
  destruct (run map_step ops m') as [m'' rs]. simpl in *. by rewrite <- Heq'.
Qed.

(** The states a program can reach from the constructor. *)
Inductive reachable (n limit : Z) : CustomMap V → Prop :=
| reach_init : reachable n limit (with_capacity n limit)
| reach_step m o : reachable n limit m → reachable n limit (map_step o m).1.

Lemma reachable_wf n limit m : reachable n limit m → map_wf hash_one m.
Proof.
  induction 1 as [|m o Hm IH]; [apply with_capacity_wf|]. by apply map_step_refines.
Qed.

Lemma run_reachable n limit ops m :
  reachable n limit m → reachable n limit (run map_step ops m).1.
Proof.
  revert m. induction ops as [|o ops IH]; intros m Hm; [done|]. cbn [run].
  pose proof (IH _ (reach_step n limit m o Hm)) as H. destruct (map_step o m) as [m' r]. simpl in H.
  by destruct (run map_step ops m').
Qed.

(** ** Properties *)

(** C1: Functional refinement.  Any sequence of calls on a fresh sharded map
    returns, call by call, what a plain finite map with the same key limit
    returns, and leaves the sharded map standing for that finite map; whatever
    the hasher, the number of shards and the collisions. *)
Theorem map_run_refines (n limit : Z) (ops : list MapOp) :
  let '(m, rs) := run map_step ops (with_capacity n limit) in
  run (spec_step limit) ops ∅ = (abs m, rs).
Proof.
  destruct (with_capacity_wf (V := V) hash_one n limit) as [Hw Ha].
  destruct (run_refines ops (with_capacity n limit) Hw) as [_ Heq]. rewrite Ha in Heq.
  by destruct (run map_step ops (with_capacity n limit)) as [m rs].
Qed.

(** C21: The table invariant.  In every reachable state, every shard has a
    power-of-two capacity, its counter is the number of non-null slots and at
    most nine tenths of the capacity (so a probe always finds a null slot), every
    entry is unlocked, initialised exactly when its occupied bit is set, and
    reachable from its home slot through non-null slots, no two entries of a
    shard have the same key, and the key counter is the number of live keys. *)
Theorem map_reachable_invariant (n limit : Z) m :
  reachable n limit m →
  (∀ i s, shards m !! i = Some s → shard_wf (hash_of hash_one) s ∧
     10 * s_len s <= 9 * capacity (table s) ∧
     (nonnull (slots (table s)) < length (slots (table s)))%nat) ∧
  key_count m = Z.of_nat (length (keys m)).
Proof.
  intros Hr. pose proof (reachable_wf n limit m Hr) as [Hs Hc]. split.
  - intros i s Hi. pose proof (cw_shard _ _ Hs i s Hi) as Hw. split; [done|]. split; [|by eapply nonnull_bound].
    pose proof (sw_load _ _ Hw) as Hl.
    rewrite (tw_threshold _ (tw_geometry _ _ (sw_table _ _ Hw))) in Hl.
    unfold LOAD_NUM, LOAD_DEN in Hl. pose proof (Z.mul_div_le (capacity (table s) * 9) 10). lia.
  - rewrite Hc, keys_eq, length_fmap, abs_all_pairs. f_equal.
    apply map_size_list_to_map. by apply (all_pairs_NoDup hash_one).
Qed.

(** Termination of insertion and lookup.  In every reachable state and for
    every key, the probe loop ends on the key's entry or on a null slot within
    one pass over the table, and the retry loop of [insert_new] stores the pair
    after at most one growth. *)
Theorem map_probe_terminates (n limit : Z) m k v :
  reachable n limit m →
  ∃ s, shards m !! shard_index hash_one m k = Some s ∧
    (probe (table s) (key_matches k (hash_of hash_one k)) (hash_of hash_one k) ≠ Stuck) ∧
    ∃ s' b, insert_new_loop 2 s k v (hash_of hash_one k) = Some (s', b) ∧
      table_map (table s') = <[k := v]> (table_map (table s)).
Proof.
  intros Hr. pose proof (reachable_wf n limit m Hr) as [Hs _].
  destruct (home_shard hash_one m k Hs) as (s & Hi & Hw). exists s. split; [done|]. split.
  - pose proof (probe_spec (hash_of hash_one) (table s) k (sw_table _ _ Hw) (nonnull_bound _ _ Hw)) as Hp.
    intros E. by rewrite E in Hp.
  - destruct (insert_new_spec (hash_of hash_one) s k v Hw) as (s' & b & ? & _ & ? & _). by exists s', b.
Qed.

(** Iteration.  In every reachable state, [keys] lists every key of the
    finite map exactly once. *)
Theorem map_keys_exact (n limit : Z) m :
  reachable n limit m → keys m ≡ₚ (map_to_list (abs m)).*1 ∧ NoDup (keys m).
Proof.
  intros Hr. pose proof (reachable_wf n limit m Hr) as [Hs _]. rewrite keys_eq. split.
  - by rewrite (all_pairs_perm hash_one m Hs).
  - by apply (all_pairs_NoDup hash_one).
Qed.
End Runs.

(** ** Witnesses *)

Definition demo_ops : list (MapOp (V := Z)) :=
  (λ i, OpInsert [z2b i] i) <$> [1; 2; 3; 4; 5; 6; 7; 8; 9; 10].

Definition demo_map : CustomMap Z := (run (map_step toy_hash) demo_ops (with_capacity 1 100)).1.

Lemma demo_reachable : reachable toy_hash 1 100 demo_map.
Proof. apply run_reachable, reach_init. Qed.

Lemma map_reachable_invariant_witness :
  reachable toy_hash 1 100 demo_map ∧ key_count demo_map = 10 ∧
  key_count demo_map = Z.of_nat (length (keys demo_map)).
Proof.
  split; [exact demo_reachable|]. split; [vm_compute; reflexivity|].
  apply (map_reachable_invariant toy_hash 1 100 demo_map demo_reachable).
Defined.

Lemma map_probe_terminates_witness :
  reachable toy_hash 1 100 demo_map ∧
  ∃ s, shards demo_map !! shard_index toy_hash demo_map (B "new") = Some s ∧
    (probe (table s) (key_matches (B "new") (hash_of toy_hash (B "new")))
       (hash_of toy_hash (B "new")) ≠ Stuck) ∧
    ∃ s' b, insert_new_loop 2 s (B "new") 11 (hash_of toy_hash (B "new")) = Some (s', b) ∧
      table_map (table s') = <[B "new" := 11]> (table_map (table s)).
Proof.
  split; [exact demo_reachable|].
  apply (map_probe_terminates toy_hash 1 100 demo_map (B "new") 11 demo_reachable).
Defined.

Lemma map_keys_exact_witness :
  reachable toy_hash 1 100 demo_map ∧ length (keys demo_map) = 10%nat ∧ NoDup (keys demo_map).
Proof.
  split; [exact demo_reachable|]. split; [vm_compute; reflexivity|].
  apply (map_keys_exact toy_hash 1 100 demo_map demo_reachable).
Defined.
