(* ===== verification/Decimal.v ===== *)
(** Decimal integers: the standard library's [to_string] and [parse], and the
    digit loops of utils/resp.rs ([write_usize], [write_i64]) and
    pubsub/frame.rs ([push_usize], [resp_int_len]). *)

From S2P Require Import Prelude.
From Stdlib Require Import Strings.Byte.
Local Open Scope Z_scope.

(** [b'0' + d as u8] *)
Definition digit (d : Z) : byte := z2b (48 + d).

(** [b.is_ascii_digit()] and [(b - b'0')]. *)
Definition is_ascii_digit (b : byte) : bool := (48 <=? b2z b) && (b2z b <=? 57).
Definition digit_val (b : byte) : Z := b2z b - 48.

(** [while n > 0 { push(b'0' + n % 10); n /= 10 }]: the digits from the lowest.
    A positive [n] has at most [log2 n + 1] of them. *)
Fixpoint digits_loop (fuel : nat) (n : Z) : bytes :=
  match fuel with
  | O => []
  | S fuel' => if 0 <? n then digit (n mod 10) :: digits_loop fuel' (n / 10) else []
  end.

Definition digits_fuel (n : Z) : nat := S (Z.to_nat (Z.log2 n)).

(** [write_usize]: push the digits, then reverse the pushed part. *)
Definition write_usize (out : bytes) (n : Z) : bytes :=
  if n =? 0 then out ++ [digit 0]
  else out ++ rev (digits_loop (digits_fuel n) n).

(** The [loop] of [write_i64] on a negative number: Rust's [%] and [/]
    truncate, so the digits are those of [- n]. *)
Fixpoint neg_digits_loop (fuel : nat) (n : Z) : bytes :=
  match fuel with
  | O => []
  | S fuel' =>
      let d := digit (- (Z.rem n 10)) in
      let n' := Z.quot n 10 in
      d :: (if n' =? 0 then [] else neg_digits_loop fuel' n')
  end.

Definition write_i64 (out : bytes) (n : Z) : bytes :=
  if n <? 0 then (out ++ B "-") ++ rev (neg_digits_loop (digits_fuel (- n)) n)
  else write_usize out n.

(** pubsub/frame.rs [push_usize] is the same loop. *)
Definition push_usize (out : bytes) (n : Z) : bytes :=
  if n =? 0 then out ++ [digit 0]
  else out ++ rev (digits_loop (digits_fuel n) n).

Fixpoint int_len_loop (fuel : nat) (n : Z) : Z :=
  match fuel with
  | O => 0
  | S fuel' => if 0 <? n then 1 + int_len_loop fuel' (n / 10) else 0
  end.

Definition resp_int_len (n : Z) : Z := if n =? 0 then 1 else int_len_loop (digits_fuel n) n.

(** [to_string] of the unsigned and signed integer types. *)
Definition u64_to_string (n : Z) : bytes := write_usize [] n.
Definition i64_to_string (n : Z) : bytes := write_i64 [] n.

(** Digits of a string as a number, most significant first. *)
Fixpoint parse_digits (acc : Z) (s : bytes) : option Z :=
  match s with
  | [] => Some acc
  | b :: s' => if is_ascii_digit b then parse_digits (acc * 10 + digit_val b) s' else None
  end.

(** [str::parse::<i64>]: an optional sign, at least one digit, and a value in
    range. *)
Definition parse_i64 (s : bytes) : option Z :=
  let in_range n := if in_i64 n then Some n else None in
  match s with
  | [] => None
  | b :: s' =>
      if bool_decide (b = "-"%byte) then
        match s' with [] => None | _ => parse_digits 0 s' ≫= λ n, in_range (- n) end
      else if bool_decide (b = "+"%byte) then
        match s' with [] => None | _ => parse_digits 0 s' ≫= in_range end
      else parse_digits 0 s ≫= in_range
  end.

(** [str::parse::<u64>] (and [usize]): no minus sign. *)
Definition parse_u64 (s : bytes) : option Z :=
  let in_range n := if in_u64 n then Some n else None in
  match s with
  | [] => None
  | b :: s' =>
      if bool_decide (b = "+"%byte) then
        match s' with [] => None | _ => parse_digits 0 s' ≫= in_range end
      else parse_digits 0 s ≫= in_range
  end.

(** collections.rs [canonical_i64]. *)
Definition canonical_i64 (value : bytes) : option Z :=
  n ← parse_i64 value;
  if bool_decide (i64_to_string n = value) then Some n else None.

(** ** Digit lemmas *)

Lemma digit_b2z d : 0 <= d < 10 → b2z (digit d) = 48 + d.
Proof. intros. unfold digit. apply b2z_z2b_small. lia. Qed.

Lemma digit_ok d : 0 <= d < 10 → is_ascii_digit (digit d) = true ∧ digit_val (digit d) = d.
Proof. intros. unfold is_ascii_digit, digit_val. rewrite digit_b2z by lia. split; lia. Qed.

Lemma digits_fuel_step n : 10 <= n → (digits_fuel (n / 10) < digits_fuel n)%nat.
Proof.
  intros Hn. unfold digits_fuel. apply -> Nat.succ_lt_mono.
  apply Z2Nat.inj_lt; [apply Z.log2_nonneg|apply Z.log2_nonneg|].
  assert (n / 10 <= n / 2) by (apply Z.div_le_compat_l; lia).
  assert (0 < n / 10) by (apply Z.div_str_pos; lia).
  pose proof (Z.log2_le_mono (n / 10) (n / 2) ltac:(lia)).
  assert (Z.log2 (n / 2) = Z.log2 n - 1); [|lia].
  rewrite <- Z.div2_div, Z.div2_spec, Z.log2_shiftr by lia.
  pose proof (Z.log2_le_mono 2 n ltac:(lia)) as H2. change (Z.log2 2) with 1 in H2. lia.
Qed.

(** More fuel than needed does not change the digits. *)
Lemma digits_loop_fuel n : 0 <= n → ∀ f1 f2, (digits_fuel n <= f1)%nat → (digits_fuel n <= f2)%nat →
  digits_loop f1 n = digits_loop f2 n.
Proof.
  intros Hn. pattern n. apply (Z_lt_induction _); [|done]. clear n Hn.
  intros n IH f1 f2 H1 H2. destruct f1 as [|f1]; [unfold digits_fuel in H1; lia|].
  destruct f2 as [|f2]; [unfold digits_fuel in H2; lia|]. simpl.
  destruct (0 <? n) eqn:E; [|done]. apply Z.ltb_lt in E. f_equal.
  destruct (Z.lt_ge_cases n 10).
  - rewrite Z.div_small by lia. by destruct f1, f2.
  - pose proof (digits_fuel_step n ltac:(lia)).
    apply IH; [|lia|lia]. split; [apply Z.div_pos; lia|apply Z.div_lt; lia].
Qed.

(** The digits of [n], most significant first. *)
Definition dec (n : Z) : bytes := rev (digits_loop (digits_fuel n) n).

Lemma dec_step n : 0 < n → dec n = (if n <? 10 then [] else dec (n / 10)) ++ [digit (n mod 10)].
Proof.
  intros Hn. unfold dec at 1. unfold digits_fuel at 1. cbn [digits_loop].
  rewrite (proj2 (Z.ltb_lt _ _) Hn). cbn [rev]. f_equal.
  destruct (Z.ltb_spec n 10).
  - rewrite Z.div_small by lia. by destruct (Z.to_nat (Z.log2 n)).
  - unfold dec. f_equal. pose proof (digits_fuel_step n ltac:(lia)) as Hf.
    unfold digits_fuel in Hf at 2.
    apply digits_loop_fuel; [apply Z.div_pos; lia|lia|done].
Qed.

Lemma dec_induction (P : Z → Prop) :
  (∀ n, 0 < n < 10 → P n) → (∀ n, 10 <= n → P (n / 10) → P n) → ∀ n, 0 < n → P n.
Proof.
  intros H1 H2 n Hn. assert (H : 0 <= n) by lia. revert Hn. pattern n.
  apply Z_lt_induction; [|done]. clear n H. intros n IH Hn.
  destruct (Z.lt_ge_cases n 10); [by apply H1|].
  apply H2; [done|]. apply IH; [|apply Z.div_str_pos; lia].
  split; [apply Z.div_pos; lia|apply Z.div_lt; lia].
Qed.

Lemma parse_digits_app acc s1 s2 : parse_digits acc (s1 ++ s2) = parse_digits acc s1 ≫= λ n, parse_digits n s2.
Proof.
  revert acc. induction s1 as [|b s1 IH]; intros acc; simpl; [done|].
  destruct (is_ascii_digit b); [apply IH|done].
Qed.

Lemma parse_dec n : 0 < n → parse_digits 0 (dec n) = Some n.
Proof.
  intros Hn. revert n Hn. apply dec_induction; intros n Hn.
  - rewrite dec_step by lia. rewrite (proj2 (Z.ltb_lt n 10)) by lia. simpl.
    rewrite Z.mod_small by lia. destruct (digit_ok n ltac:(lia)) as [-> ->]. done.
  - intros IH. rewrite dec_step by lia. rewrite (proj2 (Z.ltb_ge n 10)) by lia.
    rewrite parse_digits_app, IH. simpl.
    pose proof (Z.mod_pos_bound n 10 ltac:(lia)).
    destruct (digit_ok (n mod 10) ltac:(lia)) as [-> ->]. simpl. f_equal.
    pose proof (Z.div_mod n 10 ltac:(lia)). lia.
Qed.

Lemma dec_head n : 0 < n → ∃ d s, dec n = digit d :: s ∧ 0 <= d < 10.
Proof.
  revert n. apply dec_induction; intros n Hn.
  - exists n, []. rewrite dec_step by lia. rewrite (proj2 (Z.ltb_lt n 10)) by lia.
    rewrite Z.mod_small by lia. split; [done|lia].
  - intros (d & s & Hd & ?). rewrite dec_step by lia. rewrite (proj2 (Z.ltb_ge n 10)) by lia.
    rewrite Hd. simpl. eauto.
Qed.

Lemma u64_to_string_eq n : 0 <= n → u64_to_string n = if n =? 0 then [digit 0] else dec n.
Proof. done. Qed.

(** The negative loop writes the digits of the absolute value. *)
Lemma neg_digits_loop_eq f n : n < 0 → (digits_fuel (- n) <= f)%nat →
  neg_digits_loop f n = digits_loop f (- n).
Proof.
  revert n. induction f as [|f IH]; intros n Hn Hf; [done|]. simpl.
  assert (Hr : - Z.rem n 10 = (- n) mod 10).
  { rewrite <- (Z.opp_involutive n) at 1. rewrite Z.rem_opp_l by lia.
    rewrite Z.rem_mod_nonneg by lia. lia. }
  assert (Hq : Z.quot n 10 = - ((- n) / 10)).
  { rewrite <- (Z.opp_involutive n) at 1. rewrite Z.quot_opp_l by lia.
    by rewrite Z.quot_div_nonneg by lia. }
  rewrite Hr, Hq, (proj2 (Z.ltb_lt 0 (- n))) by lia. f_equal.
  destruct (Z.lt_ge_cases (- n) 10).
  - rewrite Z.div_small by lia. simpl. by destruct f.
  - assert (0 < - n / 10) by (apply Z.div_str_pos; lia).
    rewrite (proj2 (Z.eqb_neq _ 0)) by lia.
    pose proof (digits_fuel_step (- n) ltac:(lia)).
    rewrite IH by (rewrite ?Z.opp_involutive; lia). by rewrite Z.opp_involutive.
Qed.

Lemma i64_to_string_neg n : n < 0 → i64_to_string n = "-"%byte :: dec (- n).
Proof.
  intros Hn. unfold i64_to_string, write_i64. rewrite (proj2 (Z.ltb_lt n 0)) by lia.
  rewrite neg_digits_loop_eq by lia. done.
Qed.

Lemma digit_not_sign d : 0 <= d < 10 → digit d ≠ "-"%byte ∧ digit d ≠ "+"%byte.
Proof.
  intros Hd. pose proof (digit_b2z d Hd) as H.
  split; intros E; rewrite E in H;
    [change (b2z "-"%byte) with 45 in H|change (b2z "+"%byte) with 43 in H]; lia.
Qed.

(** ** Round trips *)

Lemma parse_u64_to_string n : 0 <= n < 2 ^ 64 → parse_u64 (u64_to_string n) = Some n.
Proof.
  intros Hn. rewrite u64_to_string_eq by lia. destruct (Z.eqb_spec n 0) as [->|]; [done|].
  destruct (dec_head n) as (d & s & Hd & Hr); [lia|].
  pose proof (parse_dec n ltac:(lia)) as Hp. rewrite Hd in *. unfold parse_u64.
  rewrite bool_decide_eq_false_2 by (by apply digit_not_sign). rewrite Hp. simpl.
  unfold in_u64, u64_mod. by rewrite (proj2 (Z.leb_le 0 n)), (proj2 (Z.ltb_lt n (2 ^ 64))) by lia.
Qed.

Lemma parse_i64_to_string n : in_i64 n = true → parse_i64 (i64_to_string n) = Some n.
Proof.
  intros Hn. destruct (Z.lt_ge_cases n 0) as [Hneg|Hpos].
  - rewrite i64_to_string_neg by lia. unfold parse_i64.
    rewrite bool_decide_eq_true_2 by done.
    destruct (dec_head (- n)) as (d & s & Hd & Hr); [lia|].
    pose proof (parse_dec (- n) ltac:(lia)) as Hp. rewrite Hd in *. rewrite Hp. simpl.
    by rewrite Z.opp_involutive, Hn.
  - unfold i64_to_string, write_i64. rewrite (proj2 (Z.ltb_ge n 0)) by lia.
    change (write_usize [] n) with (u64_to_string n). rewrite u64_to_string_eq by lia.
    destruct (Z.eqb_spec n 0) as [->|]; [done|].
    destruct (dec_head n) as (d & s & Hd & Hr); [lia|].
    pose proof (parse_dec n ltac:(lia)) as Hp. rewrite Hd in *. unfold parse_i64.
    rewrite !bool_decide_eq_false_2 by (by apply digit_not_sign). rewrite Hp. simpl. by rewrite Hn.
Qed.

Lemma parse_u64_range t n : parse_u64 t = Some n → 0 <= n < 2 ^ 64.
Proof.
  unfold parse_u64. assert (Hin : ∀ o : option Z, (m ← o; if in_u64 m then Some m else None) = Some n → 0 <= n < 2 ^ 64).
  { intros o (m & _ & Hm)%bind_Some. destruct (in_u64 m) eqn:Em; simplify_eq. unfold in_u64, u64_mod in Em. split_bool. lia. }
  destruct t as [|b t]; [done|]. case_bool_decide; [destruct t; [done|]|]; apply Hin.
Qed.

Lemma canonical_i64_Some s n : canonical_i64 s = Some n ↔ in_i64 n = true ∧ s = i64_to_string n.
Proof.
  unfold canonical_i64. split.
  - destruct (parse_i64 s) as [m|] eqn:E; simpl; [|done]. case_bool_decide; [|done].
    intros [= ->]. split; [|done]. revert E. unfold parse_i64. intros E.
    repeat case_match; simplify_eq/=; try done; apply bind_Some in E as (? & ? & E);
      case_match; simplify_eq; done.
  - intros [Hn ->]. rewrite parse_i64_to_string by done. simpl. by rewrite bool_decide_eq_true_2.
Qed.

Lemma i64_to_string_inj a b :
  in_i64 a = true → in_i64 b = true → i64_to_string a = i64_to_string b → a = b.
Proof.
  intros Ha Hb E. pose proof (parse_i64_to_string a Ha) as H. rewrite E in H.
  rewrite parse_i64_to_string in H by done. congruence.
Qed.
