(* ===== verification/Resp.v ===== *)
(** The wire format: the reply writers of utils/resp.rs and utils/resp3.rs, the
    pub/sub frames of pubsub/frame.rs, and the request parser of
    utils/parser.rs.

    A Rust [Vec<u8>] passed as [&mut out] is an argument and the result.  The
    parser keeps byte offsets into its read buffer where the source keeps raw
    pointers: [parts_raw] is a list of (offset, length).  A Rust panic (slice
    bounds) is the outcome [None]. *)

From S2P Require Import Prelude Decimal.
From Stdlib Require Import Strings.Byte.
Local Open Scope Z_scope.

Definition CR : byte := x0d.
Definition LF : byte := x0a.
Definition CRLF : bytes := [CR; LF].

(** ** utils/resp.rs *)

Definition OK : bytes := B "+OK" ++ CRLF.
Definition NIL : bytes := B "$-1" ++ CRLF.
Definition ZERO : bytes := B ":0" ++ CRLF.
Definition ONE : bytes := B ":1" ++ CRLF.
Definition PONG : bytes := B "+PONG" ++ CRLF.
Definition INT_CACHE : list bytes :=
  [B ":0" ++ CRLF; B ":1" ++ CRLF; B ":2" ++ CRLF; B ":3" ++ CRLF; B ":4" ++ CRLF;
   B ":5" ++ CRLF; B ":6" ++ CRLF; B ":7" ++ CRLF; B ":8" ++ CRLF; B ":9" ++ CRLF].

Definition write_ok (out : bytes) : bytes := out ++ OK.
Definition write_pong (out : bytes) : bytes := out ++ PONG.
Definition write_nil (out : bytes) : bytes := out ++ NIL.

Definition zlen (s : bytes) : Z := Z.of_nat (length s).

Definition write_bulk_bytes (out s : bytes) : bytes :=
  let len := zlen s in
  let out :=
    if len <? 10 then out ++ B "$" ++ [digit len] ++ CRLF
    else if len <? 100 then out ++ B "$" ++ [digit (len / 10)] ++ [digit (len mod 10)] ++ CRLF
    else write_usize (out ++ B "$") len ++ CRLF in
  out ++ s ++ CRLF.

Definition write_bulk (out s : bytes) : bytes := write_bulk_bytes out s.

Definition write_integer (out : bytes) (n : Z) : bytes :=
  match (if (0 <=? n) && (n <? 10) then INT_CACHE !! Z.to_nat n else None) with
  | Some cached => out ++ cached
  | None => write_i64 (out ++ B ":") n ++ CRLF
  end.

Definition write_boolean (out : bytes) (b : bool) : bytes := out ++ (if b then ONE else ZERO).

Definition write_opt_bulk (out : bytes) (v : option bytes) : bytes :=
  match v with Some s => write_bulk out s | None => write_nil out end.

Definition write_opt_bulk_ref (out : bytes) (v : option bytes) : bytes :=
  match v with Some s => write_bulk out s | None => write_nil out end.

Definition write_array_header (out : bytes) (len : Z) : bytes := write_usize (out ++ B "*") len ++ CRLF.

Definition write_array (out : bytes) (items : list bytes) : bytes :=
  foldl write_bulk (write_array_header out (Z.of_nat (length items))) items.

Definition write_opt_array (out : bytes) (items : list (option bytes)) : bytes :=
  foldl write_opt_bulk (write_array_header out (Z.of_nat (length items))) items.

Definition write_err (out msg : bytes) : bytes := out ++ B "-ERR " ++ msg ++ CRLF.

Definition write_wrong_type (out : bytes) : bytes :=
  out ++ B "-WRONGTYPE Operation against a key holding the wrong kind of value" ++ CRLF.

Definition write_store_err (out err : bytes) : bytes :=
  if bool_decide (err = WRONGTYPE) then write_wrong_type out else write_err out err.

Definition write_wrong_args (out cmd : bytes) : bytes :=
  out ++ B "-ERR wrong number of arguments for '" ++ cmd ++ B "' command" ++ CRLF.

Definition write_simple (out s : bytes) : bytes := out ++ B "+" ++ s ++ CRLF.

(** ** pubsub/frame.rs *)

Definition bulk_into (out b : bytes) : bytes := push_usize (out ++ B "$") (zlen b) ++ CRLF ++ b ++ CRLF.

Definition encode_message (channel message : bytes) : bytes :=
  bulk_into (bulk_into (B "*3" ++ CRLF ++ B "$7" ++ CRLF ++ B "message" ++ CRLF) channel) message.

Definition encode_pmessage (pattern channel message : bytes) : bytes :=
  bulk_into (bulk_into (bulk_into (B "*4" ++ CRLF ++ B "$8" ++ CRLF ++ B "pmessage" ++ CRLF)
    pattern) channel) message.

Definition encode_sub_reply (kind channel : bytes) (count : Z) : bytes :=
  push_usize (bulk_into (bulk_into (B "*3" ++ CRLF) kind) channel ++ B ":") count ++ CRLF.

(** ** utils/parser.rs *)

Definition MAX_ARRAY_ELEMENTS : Z := 1024.
Definition MAX_BULK_BYTES : Z := 512 * 1024 * 1024.

Record RespParser := mkParser {
  rbuf : bytes;
  filled : nat;
  pos : nat;
  parts_raw : list (nat * nat);
}.

Inductive ParseResult := Complete | Incomplete | ParseError.

#[global] Instance ParseResult_eq_dec : EqDecision ParseResult.
Proof. solve_decision. Defined.

Definition set_pos (p : RespParser) (i : nat) : RespParser :=
  mkParser (rbuf p) (filled p) i (parts_raw p).
Definition set_parts (p : RespParser) (l : list (nat * nat)) : RespParser :=
  mkParser (rbuf p) (filled p) (pos p) l.

Definition RespParser_new : RespParser := mkParser (replicate 2048 x00) 0 0 [].

(** [read_buf]: make at least 1024 bytes of room after [filled], first by
    moving the unread bytes to the front ([copy_within]), then by doubling the
    buffer.  (The slice returned to the reader is [rbuf[filled..]].) *)
Definition read_buf (p : RespParser) : RespParser :=
  if (length (rbuf p) - filled p <? 1024)%nat then
    let p1 :=
      if (0 <? pos p)%nat then
        let moved := take (filled p - pos p) (drop (pos p) (rbuf p)) in
        mkParser (moved ++ drop (length moved) (rbuf p)) (filled p - pos p) 0 (parts_raw p)
      else p in
    if (length (rbuf p1) - filled p1 <? 1024)%nat then
      mkParser (rbuf p1 ++ replicate (length (rbuf p1)) x00) (filled p1) (pos p1) (parts_raw p1)
    else p1
  else p.

(** [did_fill(n)] after the reader wrote [data] at [filled]. *)
Definition did_fill (p : RespParser) (data : bytes) : RespParser :=
  mkParser (take (filled p) (rbuf p) ++ data ++ drop (filled p + length data) (rbuf p))
    (filled p + length data) (pos p) (parts_raw p).

(** [memchr::memchr] *)
Fixpoint memchr (b : byte) (s : bytes) : option nat :=
  match s with
  | [] => None
  | x :: s' => if bool_decide (x = b) then Some O else S <$> memchr b s'
  end.

(** The unread bytes, [rbuf[pos..filled]]. *)
Definition unread (p : RespParser) : bytes := take (filled p - pos p) (drop (pos p) (rbuf p)).

(** [scan_line]: bounds of the line at [pos] without its two last bytes. *)
Definition scan_line (p : RespParser) : option (nat * nat * RespParser) :=
  rel ← memchr LF (unread p);
  let start := pos p in
  let nl := (pos p + rel)%nat in
  let e := if (start <? nl)%nat then (nl - 1)%nat else nl in
  Some (start, e, set_pos p (nl + 1)).

Fixpoint parse_short (n : Z) (s : bytes) : option Z :=
  match s with
  | [] => Some n
  | b :: s' => if is_ascii_digit b then parse_short (n * 10 + digit_val b) s' else None
  end.

Fixpoint parse_long (n max : Z) (s : bytes) : option Z :=
  match s with
  | [] => Some n
  | b :: s' =>
      if is_ascii_digit b then
        m ← checked_mul_u64 n 10; n' ← checked_add_u64 m (digit_val b);
        if max <? n' then None else parse_long n' max s'
      else None
  end.

Definition parse_usize (s : bytes) (max : Z) : option Z :=
  match s with
  | [] => None
  | _ =>
      if (length s <=? 3)%nat then
        n ← parse_short 0 s; if max <? n then None else Some n
      else parse_long 0 max s
  end.

(** [&self.rbuf[a..b]], which panics when [a > b] or [b] is past the end. *)
Definition slice (s : bytes) (a b : nat) : option bytes :=
  if (a <=? b)%nat && (b <=? length s)%nat then Some (take (b - a) (drop a s)) else None.

(** The loop over the array elements. *)
Fixpoint parse_parts (n : nat) (start_pos : nat) (p : RespParser) : option (ParseResult * RespParser) :=
  match n with
  | O => Some (Complete, p)
  | S n' =>
      match scan_line p with
      | None => Some (Incomplete, set_pos p start_pos)
      | Some (bs, be, p1) =>
          if negb (bool_decide (rbuf p1 !! bs = Some "$"%byte)) then Some (ParseError, p1)
          else
            line ← slice (rbuf p1) (bs + 1) be;
            match parse_usize line MAX_BULK_BYTES with
            | None => Some (ParseError, p1)
            | Some len =>
                if Z.of_nat (filled p1 - pos p1) <? len + 2
                then Some (Incomplete, set_pos p1 start_pos)
                else
                  let len := Z.to_nat len in
                  parse_parts n' start_pos
                    (mkParser (rbuf p1) (filled p1) (pos p1 + len + 2)
                      (parts_raw p1 ++ [(pos p1, len)]))
            end
      end
  end.

(** Drop an oversized, fully consumed buffer: [truncate] and [shrink_to]. *)
Definition shrink_drained (p : RespParser) : RespParser :=
  if (pos p =? filled p)%nat && (16 * 1024 <? zlen (rbuf p)) then
    mkParser (take 2048 (rbuf p)) 0 0 (parts_raw p)
  else p.

Definition parse_one (p : RespParser) : option (ParseResult * RespParser) :=
  let p := set_parts p [] in
  let start_pos := pos p in
  match scan_line p with
  | None => Some (Incomplete, set_pos p start_pos)
  | Some (s, e, p1) =>
      if negb (bool_decide (rbuf p1 !! s = Some "*"%byte)) then Some (ParseError, p1)
      else
        line ← slice (rbuf p1) (s + 1) e;
        match parse_usize line MAX_ARRAY_ELEMENTS with
        | None => Some (ParseError, p1)
        | Some count =>
            '(r, p2) ← parse_parts (Z.to_nat count) start_pos p1;
            Some (r, match r with Complete => shrink_drained p2 | _ => p2 end)
        end
  end.

(** The bytes the handler sees for each part: [from_raw_parts(ptr, len)], read
    from the buffer the parser holds; [None] when the range is not in it. *)
Definition part_bytes (p : RespParser) (part : nat * nat) : option bytes :=
  slice (rbuf p) part.1 (part.1 + part.2).
Definition part_list (p : RespParser) : option (list bytes) := mapM (part_bytes p) (parts_raw p).

(** A client's encoding of a command: an array of bulk strings. *)
Definition encode_bulk (s : bytes) : bytes := B "$" ++ u64_to_string (zlen s) ++ CRLF ++ s ++ CRLF.
Definition encode_bulks (args : list bytes) : bytes := concat (encode_bulk <$> args).
Definition encode_command (args : list bytes) : bytes :=
  B "*" ++ u64_to_string (Z.of_nat (length args)) ++ CRLF ++ encode_bulks args.

Definition demo_parser (input : bytes) : RespParser := did_fill RespParser_new input.
Example demo_parse :
  (r ← parse_one (demo_parser (encode_command [B "GET"; B "key"])); part_list r.2)
  = Some [B "GET"; B "key"].
Proof. vm_compute. reflexivity. Qed.
Example demo_panic : parse_one (demo_parser (B "*" ++ [LF])) = None.
Proof. vm_compute. reflexivity. Qed.
