(* ===== verification/RespSpec.v ===== *)
(** The wire format: writers against their reference encoding, and the request
    parser on complete, partial and malformed input. *)

From S2P Require Import Prelude Decimal Resp.
From Stdlib Require Import Strings.Byte.
Local Open Scope Z_scope.

(** ** Writers *)

Lemma write_usize_app out n : 0 <= n → write_usize out n = out ++ u64_to_string n.
Proof. intros. unfold u64_to_string, write_usize. by destruct (n =? 0). Qed.

Lemma dec_small n : 0 < n < 10 → dec n = [digit n].
Proof.
  intros. rewrite dec_step, (proj2 (Z.ltb_lt n 10)), Z.mod_small by lia. done.
Qed.

Lemma bulk_header_eq n :
  0 <= n →
  (if n <? 10 then [digit n]
   else if n <? 100 then [digit (n / 10)] ++ [digit (n mod 10)] else u64_to_string n)
  = u64_to_string n.
Proof.
  intros Hn. destruct (Z.ltb_spec n 10); [|destruct (Z.ltb_spec n 100); [|done]].
  - rewrite u64_to_string_eq by lia. destruct (Z.eqb_spec n 0) as [->|]; [done|].
    by rewrite dec_small by lia.
  - rewrite u64_to_string_eq by lia. rewrite (proj2 (Z.eqb_neq n 0)) by lia.
    rewrite dec_step, (proj2 (Z.ltb_ge n 10)) by lia.
    rewrite dec_small; [done|]. split; [apply Z.div_str_pos; lia|apply Z.div_lt_upper_bound; lia].
Qed.

Lemma write_bulk_bytes_eq out s : write_bulk_bytes out s = out ++ encode_bulk s.
Proof.
  unfold write_bulk_bytes, encode_bulk. rewrite <- (bulk_header_eq (zlen s)) by (unfold zlen; lia).
  destruct (zlen s <? 10); [|destruct (zlen s <? 100)].
  - by rewrite <- !app_assoc.
  - by rewrite <- !app_assoc.
  - rewrite write_usize_app by (unfold zlen; lia). by rewrite <- !app_assoc.
Qed.

Lemma bulk_into_eq out s : bulk_into out s = out ++ encode_bulk s.
Proof.
  unfold bulk_into, encode_bulk. change push_usize with write_usize.
  rewrite write_usize_app by (unfold zlen; lia). by rewrite <- !app_assoc.
Qed.

Lemma foldl_write_bulk out items : foldl write_bulk out items = out ++ encode_bulks items.
Proof.
  revert out. unfold encode_bulks. induction items as [|s items IH]; intros out; simpl.
  - by rewrite app_nil_r.
  - rewrite IH. unfold write_bulk. by rewrite write_bulk_bytes_eq, <- app_assoc.
Qed.

Lemma write_array_eq items : write_array [] items = encode_command items.
Proof.
  unfold write_array, encode_command. rewrite foldl_write_bulk. unfold write_array_header.
  rewrite write_usize_app by lia. by rewrite <- !app_assoc.
Qed.

(** ** Number parsing *)

Lemma parse_short_digits n s : parse_short n s = parse_digits n s.
Proof. revert n. induction s as [|b s IH]; intros n; simpl; [done|]. by rewrite IH. Qed.

Lemma digit_val_range b : is_ascii_digit b = true → 0 <= digit_val b < 10.
Proof. unfold is_ascii_digit, digit_val. intros. split_bool. lia. Qed.

Lemma parse_digits_ge n s m : 0 <= n → parse_digits n s = Some m → n <= m.
Proof.
  revert n. induction s as [|b s IH]; simpl; intros n Hn H; [by simplify_eq|].
  destruct (is_ascii_digit b) eqn:E; [|done]. pose proof (digit_val_range b E).
  apply IH in H; lia.
Qed.

Lemma parse_long_spec n max s :
  0 <= n <= max → max < 2 ^ 60 →
  parse_long n max s = m ← parse_digits n s; if max <? m then None else Some m.
Proof.
  revert n. induction s as [|b s IH]; intros n Hn Hm; simpl.
  - by rewrite (proj2 (Z.ltb_ge max n)) by lia.
  - destruct (is_ascii_digit b) eqn:E; [|done]. pose proof (digit_val_range b E).
    unfold checked_mul_u64, checked_add_u64, in_u64, u64_mod.
    rewrite (proj2 (Z.leb_le 0 (n * 10))), (proj2 (Z.ltb_lt (n * 10) (2 ^ 64))) by lia. simpl.
    rewrite (proj2 (Z.leb_le 0 (n * 10 + digit_val b))),
      (proj2 (Z.ltb_lt (n * 10 + digit_val b) (2 ^ 64))) by lia. simpl.
    destruct (Z.ltb_spec max (n * 10 + digit_val b)) as [Hgt|Hle].
    + destruct (parse_digits _ s) as [m|] eqn:Hp; [|done]. simpl.
      apply parse_digits_ge in Hp; [|lia]. by rewrite (proj2 (Z.ltb_lt max m)) by lia.
    + apply IH; lia.
Qed.

(** The two code paths of [parse_usize] compute the same bounded decimal
    value. *)
Lemma parse_usize_spec s max :
  0 <= max < 2 ^ 60 →
  parse_usize s max =
    match s with
    | [] => None
    | _ => m ← parse_digits 0 s; if max <? m then None else Some m
    end.
Proof.
  intros Hm. unfold parse_usize. destruct s as [|b s]; [done|].
  destruct (length (b :: s) <=? 3)%nat.
  - by rewrite parse_short_digits.
  - by rewrite parse_long_spec by lia.
Qed.

Lemma u64_to_string_digits n : 0 <= n →
  parse_digits 0 (u64_to_string n) = Some n ∧ u64_to_string n ≠ [] ∧
  Forall (λ b, is_ascii_digit b = true) (u64_to_string n).
Proof.
  intros Hn. rewrite u64_to_string_eq by lia. destruct (Z.eqb_spec n 0) as [->|Hnz].
  { split; [done|]. split; [done|]. by repeat constructor. }
  split; [apply parse_dec; lia|]. split.
  - destruct (dec_head n) as (d & s & -> & _); [lia|done].
  - assert (0 < n) as Hp by lia. clear Hn Hnz. revert n Hp. apply dec_induction; intros n Hn.
    + rewrite dec_small by lia. repeat constructor. by apply digit_ok; lia.
    + intros IH. rewrite dec_step, (proj2 (Z.ltb_ge n 10)) by lia.
      apply Forall_app. split; [done|]. repeat constructor. apply digit_ok.
      apply Z.mod_pos_bound. lia.
Qed.

Lemma parse_usize_to_string n max :
  0 <= n <= max → max < 2 ^ 60 → parse_usize (u64_to_string n) max = Some n.
Proof.
  intros Hn Hm. rewrite parse_usize_spec by lia.
  destruct (u64_to_string_digits n) as (Hp & Hne & _); [lia|].
  destruct (u64_to_string n) as [|b s]; [done|]. rewrite Hp. simpl.
  by rewrite (proj2 (Z.ltb_ge max n)) by lia.
Qed.

Lemma digits_no_lf n : 0 <= n → LF ∉ u64_to_string n.
Proof.
  intros Hn Hin. destruct (u64_to_string_digits n Hn) as (_ & _ & Hf).
  rewrite Forall_forall in Hf. by specialize (Hf LF Hin).
Qed.

(** ** The parser's buffer *)

Record parser_wf (p : RespParser) : Prop := {
  pw_pos : (pos p <= filled p)%nat;
  pw_filled : (filled p <= length (rbuf p))%nat;
}.

Lemma unread_length p : parser_wf p → length (unread p) = (filled p - pos p)%nat.
Proof. intros [? ?]. unfold unread. rewrite length_take, length_drop. lia. Qed.

Lemma unread_split p :
  parser_wf p → rbuf p = take (pos p) (rbuf p) ++ unread p ++ drop (filled p) (rbuf p).
Proof.
  intros [Hp Hf]. unfold unread. rewrite <- (take_drop (pos p) (rbuf p)) at 1. f_equal.
  rewrite <- (take_drop (filled p - pos p) (drop (pos p) (rbuf p))) at 1. f_equal.
  rewrite drop_drop. f_equal. lia.
Qed.

Lemma slice_app (a b c : bytes) : slice (a ++ b ++ c) (length a) (length a + length b) = Some b.
Proof.
  unfold slice. rewrite (proj2 (Nat.leb_le _ _)), (proj2 (Nat.leb_le _ _))
    by (rewrite ?length_app; lia). simpl.
  rewrite drop_app_length. replace (length a + length b - length a)%nat with (length b) by lia.
  by rewrite take_app_length.
Qed.

Lemma unread_context p :
  parser_wf p → ∃ pre post, rbuf p = pre ++ unread p ++ post ∧ length pre = pos p.
Proof.
  intros Hw. eexists _, _. split; [by apply unread_split|].
  rewrite length_take. destruct Hw. lia.
Qed.

Lemma unread_slice p a b c :
  parser_wf p → unread p = a ++ b ++ c →
  slice (rbuf p) (pos p + length a) (pos p + length a + length b) = Some b.
Proof.
  intros Hw Hu. destruct (unread_context p Hw) as (pre & post & Hs & Hl).
  rewrite Hs, <- Hl, Hu, <- length_app.
  replace (pre ++ (a ++ b ++ c) ++ post) with ((pre ++ a) ++ b ++ (c ++ post))
    by (by rewrite <- !app_assoc).
  apply slice_app.
Qed.

Lemma unread_head p b r : parser_wf p → unread p = b :: r → rbuf p !! pos p = Some b.
Proof.
  intros Hw Hu. pose proof (unread_slice p [] [b] r Hw Hu) as Hs. unfold slice in Hs.
  case_match; [|done]. simplify_eq/=. rewrite Nat.add_0_r in *.
  replace (pos p + 1 - pos p)%nat with 1%nat in * by lia.
  destruct (drop (pos p) (rbuf p)) as [|x l] eqn:E; [done|]. simplify_eq/=.
  rewrite <- (Nat.add_0_r (pos p)), <- lookup_drop. by rewrite E.
Qed.

Lemma take_drop_sub {A} (n m : nat) (l : list A) : take (n - m) (drop m l) = drop m (take n l).
Proof.
  revert n m. induction l as [|x l IH]; intros n m; [by repeat (rewrite take_nil || rewrite drop_nil)|].
  destruct m as [|m]; [by rewrite Nat.sub_0_r, !drop_0|]. destruct n as [|n]; [done|].
  simpl. apply IH.
Qed.

Lemma set_pos_unread p a r :
  parser_wf p → unread p = a ++ r →
  parser_wf (set_pos p (pos p + length a)) ∧ unread (set_pos p (pos p + length a)) = r.
Proof.
  intros Hw Hu. pose proof (unread_length p Hw) as Hl. rewrite Hu, length_app in Hl.
  pose proof Hw as [Hp Hf]. split; [split; simpl; lia|].
  unfold unread in *. simpl. rewrite <- drop_drop, Nat.sub_add_distr, take_drop_sub, Hu.
  apply drop_app_length.
Qed.

Lemma parser_wf_parts p l : parser_wf p → parser_wf (set_parts p l).
Proof. by intros [? ?]. Qed.

(** ** Lines *)

Lemma memchr_absent s : LF ∉ s → memchr LF s = None.
Proof.
  induction s as [|b s IH]; simpl; [done|]. intros [Hb Hs]%not_elem_of_cons.
  rewrite bool_decide_eq_false_2 by congruence. by rewrite IH.
Qed.

Lemma memchr_first s r : LF ∉ s → memchr LF (s ++ LF :: r) = Some (length s).
Proof.
  induction s as [|b s IH]; simpl; [done|].
  intros [Hb Hs]%not_elem_of_cons. rewrite bool_decide_eq_false_2 by congruence. by rewrite IH.
Qed.

Lemma scan_line_absent p : LF ∉ unread p → scan_line p = None.
Proof. intros H. unfold scan_line. by rewrite memchr_absent. Qed.

Lemma scan_line_crlf p l r :
  LF ∉ l → unread p = l ++ CRLF ++ r →
  scan_line p = Some (pos p, (pos p + length l)%nat, set_pos p (pos p + length (l ++ CRLF))).
Proof.
  intros Hl Hu. unfold scan_line. rewrite Hu.
  replace (l ++ CRLF ++ r) with ((l ++ [CR]) ++ LF :: r) by (by rewrite <- app_assoc).
  rewrite memchr_first by (rewrite elem_of_app, list_elem_of_singleton; intros [?|?]; done).
  simpl. rewrite length_app. simpl.
  rewrite (proj2 (Nat.ltb_lt _ _)) by lia. rewrite length_app. simpl.
  replace (pos p + (length l + 1) - 1)%nat with (pos p + length l)%nat by lia.
  by replace (pos p + (length l + 1) + 1)%nat with (pos p + (length l + 2))%nat by lia.
Qed.

(** One header line [c <n> CRLF]: its bounds, first byte and number. *)
Lemma header_line p c n max r :
  parser_wf p → c ≠ LF → 0 <= n <= max → max < 2 ^ 60 →
  unread p = ([c] ++ u64_to_string n) ++ CRLF ++ r →
  ∃ bs be p1, scan_line p = Some (bs, be, p1) ∧
    p1 = set_pos p (pos p + length (([c] ++ u64_to_string n) ++ CRLF)) ∧
    parser_wf p1 ∧ unread p1 = r ∧ rbuf p1 !! bs = Some c ∧
    slice (rbuf p1) (bs + 1) be = Some (u64_to_string n) ∧
    parse_usize (u64_to_string n) max = Some n.
Proof.
  intros Hw Hc Hn Hmax Hu. eexists _, _, _. split; [eapply scan_line_crlf; [|exact Hu]|].
  { rewrite elem_of_app, list_elem_of_singleton. intros [?|Hin]; [done|].
    by apply digits_no_lf in Hin; [|lia]. }
  split; [done|]. rewrite app_assoc in Hu.
  destruct (set_pos_unread p _ _ Hw Hu) as [Hw1 Hu1]. split; [done|]. split; [done|]. simpl.
  split; [eapply unread_head; [done|by rewrite Hu]|]. split; [|by apply parse_usize_to_string].
  pose proof (unread_slice p [c] (u64_to_string n) (CRLF ++ r) Hw) as Hs.
  rewrite <- Nat.add_assoc in Hs. apply Hs. by rewrite Hu, <- !app_assoc.
Qed.

(** ** Round trip *)

Definition part_ok (p : RespParser) (part : nat * nat) (arg : bytes) : Prop :=
  part_bytes p part = Some arg.

(** Bulk sizes a server accepts. *)
Definition small_args (args : list bytes) : Prop := Forall (λ a, zlen a <= MAX_BULK_BYTES) args.

Lemma parse_parts_complete args p start r :
  parser_wf p → small_args args → unread p = encode_bulks args ++ r →
  ∃ parts, parse_parts (length args) start p =
    Some (Complete, mkParser (rbuf p) (filled p) (pos p + length (encode_bulks args)) (parts_raw p ++ parts)) ∧
    Forall2 (λ part a, slice (rbuf p) part.1 (part.1 + part.2) = Some a) parts args.
Proof.
  revert p. induction args as [|a args IH]; intros p Hw Hs Hu.
  { exists []. simpl. rewrite app_nil_r, Nat.add_0_r. destruct p; simpl. auto. }
  inversion Hs as [|? ? Ha Hs']; subst. change (encode_bulks (a :: args)) with (encode_bulk a ++ encode_bulks args) in *.
  assert (Hu1 : unread p = ([ "$"%byte ] ++ u64_to_string (zlen a)) ++ CRLF ++
    (a ++ CRLF) ++ encode_bulks args ++ r).
  { rewrite Hu. unfold encode_bulk. change (B "$") with [ "$"%byte ]. by rewrite <- !app_assoc. }
  destruct (header_line p "$"%byte (zlen a) MAX_BULK_BYTES _ Hw ltac:(done)
    ltac:(unfold zlen in *; lia) ltac:(done) Hu1)
    as (bs & be & p1 & Hscan & Hp1 & Hw1 & Hr1 & Hlk & Hsl & Hpu).
  cbn [parse_parts length]. rewrite Hscan, Hlk, bool_decide_eq_true_2 by done. cbn [negb].
  rewrite Hsl. cbn [mbind option_bind]. rewrite Hpu.
  pose proof (unread_length p1 Hw1) as Hlen. rewrite Hr1, !length_app in Hlen.
  change (length CRLF) with 2%nat in Hlen.
  rewrite (proj2 (Z.ltb_ge _ _)) by (unfold zlen; lia).
  replace (Z.to_nat (zlen a)) with (length a) by (unfold zlen; lia).
  rewrite app_assoc in Hr1.
  destruct (set_pos_unread p1 (a ++ CRLF) (encode_bulks args ++ r) Hw1) as [Hw2 Hr2];
    [by rewrite Hr1, <- !app_assoc|].
  set (p2 := mkParser (rbuf p1) (filled p1) (pos p1 + length a + 2) (parts_raw p1 ++ [(pos p1, length a)])).
  destruct (IH p2) as (parts & Hpp & Hf).
  - destruct Hw2. split; simpl in *; rewrite ?length_app in *; simpl in *; lia.
  - done.
  - rewrite <- Hr2. unfold unread. simpl. rewrite length_app. simpl. by rewrite Nat.add_assoc.
  - exists ((pos p1, length a) :: parts). split.
    + rewrite Hpp. f_equal. f_equal. subst p1. unfold p2. simpl. rewrite <- app_assoc. f_equal.
      unfold encode_bulk. rewrite !length_app. simpl. rewrite length_app. simpl. lia.
    + constructor.
      * simpl. rewrite <- app_assoc in Hr1.
        pose proof (unread_slice p1 [] a (CRLF ++ encode_bulks args ++ r) Hw1) as H.
        simpl in H. rewrite !Nat.add_0_r in H. subst p1. apply H. by rewrite Hr1, <- !app_assoc.
      * unfold p2 in Hf. subst p1. exact Hf.
Qed.

Lemma Forall2_mapM_slice s (parts : list (nat * nat)) args :
  Forall2 (λ part a, slice s part.1 (part.1 + part.2) = Some a) parts args →
  mapM (λ part, slice s part.1 (part.1 + part.2)) parts = Some args.
Proof. intros H. by apply mapM_Some. Qed.

(** The parser state after the array header of a command. *)
Lemma parse_one_header (args : list bytes) p body :
  parser_wf p → Z.of_nat (length args) <= MAX_ARRAY_ELEMENTS →
  unread p = (B "*" ++ u64_to_string (Z.of_nat (length args)) ++ CRLF) ++ body →
  let hdr := B "*" ++ u64_to_string (Z.of_nat (length args)) ++ CRLF in
  let p1 := set_pos (set_parts p []) (pos p + length hdr) in
  parser_wf p1 ∧ unread p1 = body ∧
  parse_one p = '(r, p2) ← parse_parts (length args) (pos p) p1;
    Some (r, match r with Complete => shrink_drained p2 | _ => p2 end).
Proof.
  intros Hw Hn Hu hdr p1.
  destruct (header_line (set_parts p []) "*"%byte (Z.of_nat (length args)) MAX_ARRAY_ELEMENTS body)
    as (bs & be & q & Hscan & Hq & Hw1 & Hr1 & Hlk & Hsl & Hpu);
    [by apply parser_wf_parts|done|lia|done| |].
  { change (unread (set_parts p [])) with (unread p). rewrite Hu. by rewrite <- !app_assoc. }
  assert (q = p1) as ->.
  { rewrite Hq. unfold p1, hdr. by rewrite <- app_assoc. }
  split; [done|]. split; [done|].
  unfold parse_one. rewrite Hscan, Hlk, bool_decide_eq_true_2 by done. cbn [negb].
  rewrite Hsl. cbn [mbind option_bind]. rewrite Hpu. by rewrite Nat2Z.id.
Qed.

(** ** Partial input *)

Lemma header_prefix_no_lf c n t :
  c ≠ LF → 0 <= n → t `prefix_of` ([c] ++ u64_to_string n) ++ CRLF →
  t ≠ ([c] ++ u64_to_string n) ++ CRLF → LF ∉ t.
Proof.
  intros Hc Hn [k Hk] Hne. destruct k as [|b k] using rev_ind; [by rewrite app_nil_r in Hk|].
  rewrite app_assoc in Hk. change CRLF with ([CR] ++ [LF]) in Hk. rewrite app_assoc in Hk.
  apply app_inj_tail in Hk as [Hk _]. intros Hin.
  assert (LF ∈ (([c] ++ u64_to_string n) ++ [CR])) as H by (rewrite Hk; set_solver).
  rewrite !elem_of_app, !list_elem_of_singleton in H. destruct H as [[?|H]|?]; [done| |done].
  by apply digits_no_lf in H.
Qed.

(** A prefix of [a ++ b] is a strict prefix of [a], or extends [a]. *)
Lemma prefix_app_cases (t a b : bytes) :
  t `prefix_of` a ++ b →
  (t `prefix_of` a ∧ t ≠ a) ∨ ∃ t', t = a ++ t' ∧ t' `prefix_of` b.
Proof.
  intros [k Hk]. destruct (decide (length a <= length t)%nat) as [Hle|Hgt].
  - right. exists (drop (length a) t).
    assert (Ha : take (length a) t = a).
    { pose proof (take_app_length a b) as H. by rewrite Hk, take_app_le in H by done. }
    split.
    + rewrite <- Ha at 1. by rewrite take_drop.
    + exists k. rewrite <- (take_drop (length a) t), Ha, <- app_assoc in Hk.
      by apply app_inv_head in Hk.
  - left. split; [|intros ->; lia]. exists (drop (length t) a).
    rewrite <- (take_drop (length t) a) at 1. f_equal.
    assert (H : take (length t) (a ++ b) = t) by (rewrite Hk; apply take_app_length).
    rewrite take_app_le in H by lia. done.
Qed.

Lemma parse_parts_incomplete args p start :
  parser_wf p → small_args args → unread p `prefix_of` encode_bulks args →
  unread p ≠ encode_bulks args →
  ∃ q, parse_parts (length args) start p = Some (Incomplete, q) ∧
    rbuf q = rbuf p ∧ filled q = filled p ∧ pos q = start.
Proof.
  revert p. induction args as [|a args IH]; intros p Hw Hs Hpre Hne.
  { exfalso. apply Hne. unfold encode_bulks in *. simpl in *. by apply prefix_nil_inv. }
  inversion Hs as [|? ? Ha Hs']; subst.
  set (hdr := ([ "$"%byte ] ++ u64_to_string (zlen a)) ++ CRLF).
  assert (Henc : encode_bulks (a :: args) = hdr ++ (a ++ CRLF) ++ encode_bulks args).
  { change (encode_bulks (a :: args)) with (encode_bulk a ++ encode_bulks args).
    unfold encode_bulk, hdr. change (B "$") with [ "$"%byte ]. by rewrite <- !app_assoc. }
  rewrite Henc in Hpre, Hne. cbn [parse_parts length].
  destruct (prefix_app_cases _ _ _ Hpre) as [[Hlt Hneq]|(t & Ht & Hpre')].
  { rewrite scan_line_absent; [by eauto|].
    eapply header_prefix_no_lf; [| |exact Hlt|exact Hneq]; [done|unfold zlen; lia]. }
  assert (Hu1 : unread p = ([ "$"%byte ] ++ u64_to_string (zlen a)) ++ CRLF ++ t)
    by (rewrite Ht; unfold hdr; by rewrite <- app_assoc).
  destruct (header_line p "$"%byte (zlen a) MAX_BULK_BYTES _ Hw ltac:(done)
    ltac:(unfold zlen in *; lia) ltac:(done) Hu1)
    as (bs & be & p1 & Hscan & Hp1 & Hw1 & Hr1 & Hlk & Hsl & Hpu).
  rewrite Hscan, Hlk, bool_decide_eq_true_2 by done. cbn [negb].
  rewrite Hsl. cbn [mbind option_bind]. rewrite Hpu.
  pose proof (unread_length p1 Hw1) as Hlen. rewrite Hr1 in Hlen.
  destruct (Z.ltb_spec (Z.of_nat (filled p1 - pos p1)) (zlen a + 2)) as [Hlt|Hge].
  { eexists. split; [done|]. by subst p1. }
  destruct (prefix_app_cases _ _ _ Hpre') as [[[k Hk] Hneq]|(t' & -> & Hpre2)].
  { exfalso. apply Hneq. apply (f_equal length) in Hk as Hkl. rewrite !length_app in Hkl.
    change (length CRLF) with 2%nat in Hkl. unfold zlen in Hge.
    destruct k; [by rewrite app_nil_r in Hk|simpl in Hkl; lia]. }
  replace (Z.to_nat (zlen a)) with (length a) by (unfold zlen; lia).
  destruct (set_pos_unread p1 (a ++ CRLF) t' Hw1 Hr1) as [Hw2 Hr2].
  set (p2 := mkParser (rbuf p1) (filled p1) (pos p1 + length a + 2) (parts_raw p1 ++ [(pos p1, length a)])).
  assert (Hr3 : unread p2 = t').
  { rewrite <- Hr2. unfold unread, p2. simpl. rewrite length_app. simpl. by rewrite Nat.add_assoc. }
  destruct (IH p2) as (q & Hq & ? & ? & ?).
  - destruct Hw2. split; simpl in *; rewrite ?length_app in *; simpl in *; lia.
  - done.
  - by rewrite Hr3.
  - rewrite Hr3. intros ->. apply Hne. by rewrite Ht, <- app_assoc.
  - exists q. split; [exact Hq|]. subst p1. unfold p2 in *. simpl in *. done.
Qed.

(** ** Properties of the wire format *)

Lemma shrink_drained_id p :
  pos p ≠ filled p ∨ zlen (rbuf p) <= 16 * 1024 → shrink_drained p = p.
Proof.
  intros H. unfold shrink_drained. destruct (Nat.eqb_spec (pos p) (filled p)); [|done].
  destruct H; [done|]. by rewrite (proj2 (Z.ltb_ge _ _)) by lia.
Qed.

Lemma unread_nil p : parser_wf p → unread p ≠ [] → pos p ≠ filled p.
Proof.
  intros Hw Hu E. apply Hu. apply nil_length_inv. rewrite unread_length by done. lia.
Qed.

Lemma encode_command_split args :
  encode_command args =
    (B "*" ++ u64_to_string (Z.of_nat (length args)) ++ CRLF) ++ encode_bulks args.
Proof. unfold encode_command. by rewrite <- !app_assoc. Qed.

(** The state [parse_one] reaches on a complete command, before the buffer is
    shrunk. *)
Lemma parse_one_complete args p r :
  parser_wf p → Z.of_nat (length args) <= MAX_ARRAY_ELEMENTS → small_args args →
  unread p = encode_command args ++ r →
  ∃ parts, let q := mkParser (rbuf p) (filled p) (pos p + length (encode_command args)) parts in
    parse_one p = Some (Complete, shrink_drained q) ∧
    Forall2 (λ part a, slice (rbuf p) part.1 (part.1 + part.2) = Some a) parts args.
Proof.
  intros Hw Hn Hs Hu. rewrite encode_command_split, <- app_assoc in Hu.
  destruct (parse_one_header args p _ Hw Hn Hu) as (Hw1 & Hu1 & Hp).
  destruct (parse_parts_complete args _ (pos p) r Hw1 Hs Hu1) as (parts & Hpp & Hf).
  exists parts. cbn zeta. rewrite encode_command_split, length_app, Nat.add_assoc.
  rewrite Hp, Hpp. done.
Qed.

(** C23: Parsing inverts the client encoding.  A command of at most 1024 bulk
    strings of at most 512 MiB at the head of the unread bytes is parsed in one
    call, the parts the handler reads are exactly its arguments, and the bytes
    after it stay unread.  (The buffer either holds more bytes or is not over
    16 KiB; the other case is [parse_one_dangling].) *)
Theorem parse_one_roundtrip args p r :
  parser_wf p → Z.of_nat (length args) <= MAX_ARRAY_ELEMENTS → small_args args →
  unread p = encode_command args ++ r →
  r ≠ [] ∨ zlen (rbuf p) <= 16 * 1024 →
  ∃ q, parse_one p = Some (Complete, q) ∧ part_list q = Some args ∧ unread q = r ∧ parser_wf q.
Proof.
  intros Hw Hn Hs Hu Hr.
  destruct (parse_one_complete args p r Hw Hn Hs Hu) as (parts & Hp & Hf).
  set (q := mkParser _ _ _ _) in *.
  destruct (set_pos_unread p (encode_command args) r Hw Hu) as [Hw' Hu'].
  assert (Hwq : parser_wf q) by (destruct Hw'; by split).
  assert (Huq : unread q = r) by exact Hu'.
  rewrite shrink_drained_id in Hp.
  - exists q. split; [done|]. split; [|done]. by apply Forall2_mapM_slice in Hf.
  - destruct Hr as [Hr|Hr]; [left|by right]. apply unread_nil; [done|]. by rewrite Huq.
Qed.

Lemma parse_one_roundtrip_witness :
  ∃ q, parse_one (demo_parser (encode_command [B "SET"; B "key"; B "value"] ++ B "*1"))
         = Some (Complete, q) ∧
       part_list q = Some [B "SET"; B "key"; B "value"] ∧ unread q = B "*1" ∧ parser_wf q.
Proof.
  apply (parse_one_roundtrip [B "SET"; B "key"; B "value"] (demo_parser _) (B "*1")).
  - split; vm_compute; lia.
  - vm_compute. discriminate.
  - repeat constructor; vm_compute; discriminate.
  - vm_compute. reflexivity.
  - left. discriminate.
Defined.

(** A command that has arrived only in part is never consumed.  On every
    strict prefix of a command the parser answers [Incomplete], keeps the read
    position and the buffered bytes, and so can be called again when more bytes
    have arrived. *)
Theorem parse_one_incomplete args p :
  parser_wf p → Z.of_nat (length args) <= MAX_ARRAY_ELEMENTS → small_args args →
  unread p `prefix_of` encode_command args → unread p ≠ encode_command args →
  ∃ q, parse_one p = Some (Incomplete, q) ∧ pos q = pos p ∧ filled q = filled p ∧ rbuf q = rbuf p.
Proof.
  intros Hw Hn Hs Hpre Hne. rewrite encode_command_split in Hpre, Hne.
  destruct (prefix_app_cases _ _ _ Hpre) as [[Hlt Hneq]|(t & Ht & Hpre')].
  - unfold parse_one. rewrite scan_line_absent; [by eexists|].
    change (unread (set_parts p [])) with (unread p).
    rewrite app_assoc in Hlt, Hneq.
    eapply (header_prefix_no_lf "*"%byte); [| |exact Hlt|exact Hneq]; [done|lia].
  - destruct (parse_one_header args p t Hw Hn Ht) as (Hw1 & Hu1 & Hp).
    destruct (parse_parts_incomplete args _ (pos p) Hw1 Hs) as (q & Hq & Hrb & Hfl & Hps).
    + by rewrite Hu1.
    + rewrite Hu1. intros ->. by rewrite Ht in Hne.
    + exists q. rewrite Hp, Hq. simpl. done.
Qed.

Definition partial_parser : RespParser :=
  demo_parser (take 20 (encode_command [B "SET"; B "key"; B "value"])).

Lemma parse_one_incomplete_witness :
  ∃ q, parse_one partial_parser = Some (Incomplete, q) ∧ pos q = pos partial_parser ∧
    filled q = filled partial_parser ∧ rbuf q = rbuf partial_parser.
Proof.
  apply (parse_one_incomplete [B "SET"; B "key"; B "value"] partial_parser).
  - split; vm_compute; lia.
  - vm_compute. discriminate.
  - repeat constructor; vm_compute; discriminate.
  - exists (drop 20 (encode_command [B "SET"; B "key"; B "value"])). vm_compute. reflexivity.
  - vm_compute. discriminate.
Defined.

(** A reply array is a well-formed request array.  What [write_array] writes
    for a list of items, with its fast paths for one- and two-digit lengths,
    is the canonical encoding of that list, so by the parser's round trip it
    reads back as the same list. *)
Theorem write_array_canonical out items :
  foldl write_bulk (write_array_header out (Z.of_nat (length items))) items =
    out ++ encode_command items ∧
  write_array [] items = encode_command items ∧
  ∀ s, bulk_into out s = write_bulk_bytes out s.
Proof.
  split; [|split].
  - rewrite foldl_write_bulk, encode_command_split. unfold write_array_header.
    rewrite write_usize_app by lia. by rewrite <- !app_assoc.
  - apply write_array_eq.
  - intros s. by rewrite bulk_into_eq, write_bulk_bytes_eq.
Qed.

(** A request line holding only its type byte makes the parser panic.  The
    slice [rbuf[s + 1..e]] has its start after its end when the line feed
    follows the star directly, whatever comes after it. *)
Theorem parse_one_bare_header_panics p r :
  parser_wf p → unread p = "*"%byte :: LF :: r → parse_one p = None.
Proof.
  intros Hw Hu. unfold parse_one.
  assert (Hs : scan_line (set_parts p []) = Some (pos p, pos p, set_pos (set_parts p []) (pos p + 2))).
  { unfold scan_line. change (unread (set_parts p [])) with (unread p). rewrite Hu. simpl.
    rewrite (proj2 (Nat.ltb_lt _ _)) by lia.
    replace (pos p + 1 - 1)%nat with (pos p) by lia.
    by replace (pos p + 1 + 1)%nat with (pos p + 2)%nat by lia. }
  rewrite Hs. simpl. rewrite (unread_head p _ _ Hw Hu), bool_decide_eq_true_2 by done. simpl.
  unfold slice. by rewrite (proj2 (Nat.leb_gt _ _)) by lia.
Qed.

Lemma parse_one_bare_header_panics_witness : parse_one (demo_parser (B "*" ++ [LF])) = None.
Proof.
  apply (parse_one_bare_header_panics (demo_parser (B "*" ++ [LF])) []).
  - split; vm_compute; lia.
  - vm_compute. reflexivity.
Defined.

Lemma slice_past_end s a b : (length s < b)%nat → slice s a b = None.
Proof.
  intros H. unfold slice. rewrite (proj2 (Nat.leb_gt b (length s))) by done. by rewrite andb_false_r.
Qed.

Lemma slice_length s a b x : slice s a b = Some x → length x = (b - a)%nat.
Proof.
  unfold slice. intros H. case_match; simplify_eq. split_bool. rewrite length_take, length_drop. lia.
Qed.

(** After a command that drains a buffer of more than 16 KiB the parser
    shrinks the buffer to 2 KiB before the handler has read the parts: every
    part longer than that lies outside the buffer the parser holds. *)
Theorem parse_one_dangling args p a :
  parser_wf p → Z.of_nat (length args) <= MAX_ARRAY_ELEMENTS → small_args args →
  unread p = encode_command args → 16 * 1024 < zlen (rbuf p) →
  a ∈ args → (2048 < length a)%nat →
  ∃ q, parse_one p = Some (Complete, q) ∧ length (rbuf q) = 2048%nat ∧ part_list q = None.
Proof.
  intros Hw Hn Hs Hu Hbig Ha Hlen.
  destruct (parse_one_complete args p [] Hw Hn Hs) as (parts & Hp & Hf); [by rewrite app_nil_r|].
  pose proof (unread_length p Hw) as Hul. rewrite Hu in Hul. pose proof Hw as [Hpos _].
  unfold shrink_drained in Hp. cbn [pos filled rbuf] in Hp.
  rewrite (proj2 (Nat.eqb_eq (pos p + _) (filled p))), (proj2 (Z.ltb_lt _ _)) in Hp by lia.
  eexists. split; [exact Hp|]. cbn [rbuf]. split.
  - rewrite length_take. unfold zlen in Hbig. lia.
  - unfold part_list. cbn [parts_raw]. apply eq_None_not_Some. intros [l Hl].
    apply mapM_Some in Hl. apply list_elem_of_lookup in Ha as [i Hi].
    destruct (Forall2_lookup_r _ _ _ _ _ Hf Hi) as (part & Hpart & Hsl).
    destruct (Forall2_lookup_l _ _ _ _ _ Hl Hpart) as (b & _ & Hb).
    unfold part_bytes in Hb. cbn [rbuf] in Hb. apply slice_length in Hsl.
    rewrite slice_past_end in Hb; [done|]. rewrite length_take. lia.
Qed.

Definition big_command : list bytes := [B "ECHO"; replicate 17000 "x"%byte].
Definition big_parser : RespParser :=
  mkParser (encode_command big_command) (length (encode_command big_command)) 0 [].

Lemma parse_one_dangling_witness :
  ∃ q, parse_one big_parser = Some (Complete, q) ∧ length (rbuf q) = 2048%nat ∧ part_list q = None.
Proof.
  apply (parse_one_dangling big_command big_parser (replicate 17000 "x"%byte)).
  - split; [apply Nat.le_0_l|reflexivity].
  - vm_compute. discriminate.
  - repeat constructor; vm_compute; discriminate.
  - vm_compute. reflexivity.
  - vm_compute. reflexivity.
  - right. left.
  - rewrite length_replicate. apply Nat.ltb_lt. vm_compute. reflexivity.
Defined.
