(* ===== verification/Glob.v ===== *)
(** Glob matching (utils/util.rs): the backtracking loop of [glob_match_bytes]
    against the declarative meaning of patterns. *)

From S2P Require Import Prelude.
From Stdlib Require Import Strings.Byte.

Definition STAR : byte := "*"%byte.
Definition QMARK : byte := "?"%byte.

(** The [while si < s.len()] loop.  The result is [Some pi] when the input is
    consumed, [None] for the early [return false]; the outer option is the
    fuel. *)
Fixpoint glob_loop (fuel : nat) (p s : bytes) (pi si : nat) (star : option nat) (retry_si : nat)
    : option (option nat) :=
  match fuel with
  | O => None
  | S fuel' =>
      match s !! si with
      | None => Some (Some pi)
      | Some x =>
          if match p !! pi with
             | Some c => bool_decide (c = QMARK) || bool_decide (c = x)
             | None => false
             end
          then glob_loop fuel' p s (S pi) (S si) star retry_si
          else if match p !! pi with Some c => bool_decide (c = STAR) | None => false end
          then glob_loop fuel' p s (S pi) si (Some pi) si
          else match star with
               | Some star_pi => glob_loop fuel' p s (S star_pi) (S retry_si) star (S retry_si)
               | None => Some None
               end
      end
  end.

(** [while pi < p.len() && p[pi] == b'*' { pi += 1 }; pi == p.len()] *)
Definition only_stars (rest : bytes) : bool := forallb (λ c, bool_decide (c = STAR)) rest.

Definition glob_fuel (p s : bytes) : nat := S (S (length s) * S (length s + length p)).

Definition glob_match_bytes (p s : bytes) : bool :=
  match glob_loop (glob_fuel p s) p s 0 0 None 0 with
  | Some (Some pi) => only_stars (drop pi p)
  | _ => false
  end.

Definition glob_match (pattern input : bytes) : bool := glob_match_bytes pattern input.

Lemma QMARK_STAR : QMARK ≠ STAR.
Proof. discriminate. Qed.

(** ** The meaning of a pattern *)

Inductive glob : bytes → bytes → Prop :=
| glob_nil : glob [] []
| glob_any c p s : glob p s → glob (QMARK :: p) (c :: s)
| glob_lit c p s : c ≠ STAR → glob p s → glob (c :: p) (c :: s)
| glob_star_skip p s : glob p s → glob (STAR :: p) s
| glob_star_eat c p s : glob (STAR :: p) s → glob (STAR :: p) (c :: s).

#[local] Hint Constructors glob : fyro.

Lemma glob_nil_stars p : glob p [] ↔ only_stars p = true.
Proof.
  split.
  - intros H. remember [] as s eqn:Es. induction H; simplify_eq/=; [done|]. by rewrite IHglob.
  - induction p as [|c p IH]; simpl; [eauto with fyro|].
    intros H. split_bool. subst. eauto with fyro.
Qed.

Lemma glob_star_suffix p s : glob (STAR :: p) s ↔ ∃ t u, s = t ++ u ∧ glob p u.
Proof.
  split.
  - intros H. remember (STAR :: p) as q eqn:Eq. induction H; simplify_eq/=.
    + by exists [], s.
    + destruct IHglob as (t & u & -> & Hu); [done|]. by exists (c :: t), u.
  - intros (t & u & -> & Hu). induction t; simpl; eauto with fyro.
Qed.

Lemma glob_star_absorb p t s : glob (STAR :: p) s → glob (STAR :: p) (t ++ s).
Proof. induction t; simpl; eauto with fyro. Qed.

Lemma glob_cons_inv c p x s :
  c ≠ STAR → glob (c :: p) (x :: s) → (c = QMARK ∨ c = x) ∧ glob p s.
Proof. intros Hc H. inversion H; subst; auto; done. Qed.

Lemma glob_cons_nil c p : c ≠ STAR → ¬ glob (c :: p) [].
Proof. intros Hc H. by inversion H; subst. Qed.

Lemma glob_cons c p x s : c = QMARK ∨ (c = x ∧ c ≠ STAR) → glob p s → glob (c :: p) (x :: s).
Proof. intros [->|[-> ?]] ?; eauto with fyro. Qed.

(** A star-free stretch of the pattern matched byte by byte. *)
Definition seg_match (seg t : bytes) : Prop :=
  Forall2 (λ c x, c ≠ STAR ∧ (c = QMARK ∨ c = x)) seg t.

Lemma glob_seg seg t p s : seg_match seg t → glob (seg ++ p) (t ++ s) ↔ glob p s.
Proof.
  induction 1 as [|c x seg t [Hc Hor] Hf IH]; simpl; [done|]. rewrite <- IH. split.
  - by intros [_ ?]%glob_cons_inv.
  - intros H. apply glob_cons; [|done]. destruct Hor; auto.
Qed.

Lemma glob_seg_inv seg t p s :
  seg_match seg t → glob (seg ++ p) s → ∃ t' u, s = t' ++ u ∧ length t' = length seg ∧ glob p u.
Proof.
  intros Hf. revert s. induction Hf as [|c x seg t [Hc _] Hf IH]; simpl; intros s H.
  - by exists [], s.
  - destruct s as [|y s]; [by apply glob_cons_nil in H|].
    apply glob_cons_inv in H as [_ H]; [|done].
    destruct (IH s H) as (t' & u & -> & Hl & Hu). exists (y :: t'), u. simpl. auto.
Qed.

(** After the earliest match of a stretch, the star before it needs no other. *)
Lemma glob_star_seg_star seg t rest u :
  seg_match seg t →
  glob (STAR :: seg ++ STAR :: rest) (t ++ u) ↔ glob (STAR :: rest) u.
Proof.
  intros Hf. pose proof (Forall2_length _ _ _ Hf) as Hl. rewrite (glob_star_suffix (seg ++ _)). split.
  - intros (a & b & Hab & Hb). destruct (glob_seg_inv _ _ _ _ Hf Hb) as (t' & v & -> & Hl' & Hv).
    rewrite app_assoc in Hab.
    assert (Hu : u = drop (length t) ((a ++ t') ++ v)) by (by rewrite <- Hab, drop_app_length).
    rewrite drop_app_le in Hu by (rewrite length_app; lia). rewrite Hu. by apply glob_star_absorb.
  - intros H. exists [], (t ++ u). split; [done|]. by apply glob_seg.
Qed.

(** ** The loop *)

Lemma drop_lookup {A} (l : list A) i x : l !! i = Some x → drop i l = x :: drop (S i) l.
Proof. intros H. by rewrite (drop_S l x i H). Qed.

Lemma drop_none {A} (l : list A) i : l !! i = None → drop i l = [].
Proof. intros H. apply drop_ge. by apply lookup_ge_None. Qed.

(** Work left, in iterations: each turn lowers it. *)
Definition glob_work (p s : bytes) (pi si retry : nat) : nat :=
  (length s - retry) * S (length s + length p) + (length s - si) + (length p - pi).

(** The loop is sound from any state whose remainders imply the whole match,
    and ends. *)
Lemma glob_loop_sound p s fuel pi si star retry :
  glob_work p s pi si retry < fuel → retry ≤ si → pi ≤ length p →
  (glob (drop pi p) (drop si s) → glob p s) →
  match star with
  | None => True
  | Some sp => p !! sp = Some STAR ∧ (glob (drop sp p) (drop retry s) → glob p s)
  end →
  ∃ r, glob_loop fuel p s pi si star retry = Some r ∧
    (∀ pi', r = Some pi' → only_stars (drop pi' p) = true → glob p s).
Proof.
  revert pi si star retry. induction fuel as [|fuel IH]; intros pi si star retry Hf Hrs Hpi Hcur Hstar.
  { lia. }
  cbn [glob_loop]. destruct (s !! si) as [x|] eqn:Hx.
  2:{ eexists. split; [done|]. intros pi' [= <-] Ho. apply Hcur. rewrite (drop_none s si Hx).
      by apply glob_nil_stars. }
  pose proof (lookup_lt_Some _ _ _ Hx) as Hsi. rewrite (drop_lookup s si x Hx) in Hcur.
  destruct (p !! pi) as [c|] eqn:Hc.
  - pose proof (lookup_lt_Some _ _ _ Hc) as Hpl. rewrite (drop_lookup p pi c Hc) in Hcur.
    destruct (bool_decide (c = QMARK) || bool_decide (c = x)) eqn:E1.
    + apply IH; [unfold glob_work in *; lia|lia|lia| |done]. intros H. apply Hcur.
      apply orb_true_iff in E1. rewrite !bool_decide_eq_true in E1.
      destruct (decide (c = STAR)) as [->|]; [eauto with fyro|].
      apply glob_cons; [|done]. destruct E1; auto.
    + destruct (decide (c = STAR)) as [->|E2];
        [rewrite bool_decide_eq_true_2 by done|rewrite bool_decide_eq_false_2 by done].
      * rewrite <- (drop_lookup s si x Hx) in Hcur.
        apply IH; [unfold glob_work in *; nia|lia|lia|by eauto with fyro|].
        split; [done|]. by rewrite (drop_lookup p pi _ Hc).
      * destruct star as [sp|]; [|by eexists]. destruct Hstar as [Hsp Hstar].
        rewrite (drop_lookup p sp _ Hsp) in Hstar.
        assert (glob (STAR :: drop (S sp) p) (drop (S retry) s) → glob p s) as Hnext.
        { intros H. apply Hstar.
          destruct (lookup_lt_is_Some_2 s retry) as [y Hy]; [lia|].
          rewrite (drop_lookup s retry y Hy). eauto with fyro. }
        pose proof (lookup_lt_Some _ _ _ Hsp).
        apply IH; [unfold glob_work in *; nia|lia|lia|by eauto with fyro|].
        split; [done|]. by rewrite (drop_lookup p sp _ Hsp).
  - destruct star as [sp|]; [|by eexists]. destruct Hstar as [Hsp Hstar].
    rewrite (drop_lookup p sp _ Hsp) in Hstar.
    assert (glob (STAR :: drop (S sp) p) (drop (S retry) s) → glob p s) as Hnext.
    { intros H. apply Hstar. destruct (lookup_lt_is_Some_2 s retry) as [y Hy]; [lia|].
      rewrite (drop_lookup s retry y Hy). eauto with fyro. }
    pose proof (lookup_lt_Some _ _ _ Hsp).
    apply IH; [unfold glob_work in *; nia|lia|lia|by eauto with fyro|].
    split; [done|]. by rewrite (drop_lookup p sp _ Hsp).
Qed.

(** What a state of the loop knows when the input has no star byte. *)
Definition glob_state (p s : bytes) (pi si : nat) (star : option nat) (retry : nat) : Prop :=
  match star with
  | None => glob p s ↔ glob (drop pi p) (drop si s)
  | Some sp => ∃ seg t, seg_match seg t ∧
      drop sp p = STAR :: seg ++ drop pi p ∧ drop retry s = t ++ drop si s ∧
      (glob p s ↔ glob (drop sp p) (drop retry s))
  end.

Lemma glob_state_backtrack p s pi si sp retry x :
  glob_state p s pi si (Some sp) retry → p !! sp = Some STAR → s !! si = Some x → retry ≤ si →
  ¬ glob (drop pi p) (drop si s) →
  glob_state p s (S sp) (S retry) (Some sp) (S retry).
Proof.
  intros (seg & t & Hf & Hp & Hs & Hiff) Hsp Hx Hle Hno.
  destruct (lookup_lt_is_Some_2 s retry) as [y Hy]; [apply lookup_lt_Some in Hx; lia|].
  exists [], []. split; [constructor|]. split; [by apply drop_lookup|]. split; [done|].
  rewrite Hiff. rewrite (drop_lookup s retry y Hy).
  assert (Hneg : ¬ glob (drop (S sp) p) (y :: drop (S retry) s)).
  { rewrite <- (drop_lookup s retry y Hy), Hs. rewrite (drop_lookup p sp _ Hsp) in Hp.
    injection Hp as Hp. rewrite Hp. by rewrite glob_seg. }
  rewrite (drop_lookup p sp _ Hsp). split; [|eauto with fyro].
  intros H. inversion H; subst; try done; by simplify_eq.
Qed.

(** At the end of the input. *)
Lemma glob_state_end p s pi si star retry :
  glob_state p s pi si star retry → s !! si = None → glob p s ↔ glob (drop pi p) [].
Proof.
  intros Hst Hx. pose proof (drop_none s si Hx) as Hd.
  destruct star as [sp|]; simpl in Hst; [|by rewrite Hd in Hst].
  destruct Hst as (seg & t & Hf & Hp & Hs & ->). rewrite Hp, Hs, Hd, glob_star_suffix. split.
  - intros (a & b & Hab & Hb). destruct (glob_seg_inv _ _ _ _ Hf Hb) as (t' & u & -> & Hl & Hu).
    apply (f_equal length) in Hab. rewrite !length_app in Hab. simpl in Hab.
    pose proof (Forall2_length _ _ _ Hf). destruct u; [done|]. simpl in *. lia.
  - intros H. exists [], (t ++ []). split; [done|]. by apply glob_seg.
Qed.

(** A pattern byte consumes an input byte. *)
Lemma glob_state_literal p s pi si star retry c x :
  glob_state p s pi si star retry → p !! pi = Some c → s !! si = Some x → c ≠ STAR →
  c = QMARK ∨ c = x → glob_state p s (S pi) (S si) star retry.
Proof.
  intros Hst Hc Hx Hcs E1. pose proof (drop_lookup p pi c Hc) as Hdp. pose proof (drop_lookup s si x Hx) as Hds.
  destruct star as [sp|]; simpl in *.
  - destruct Hst as (seg & t & Hf & Hp & Hs & Hiff). exists (seg ++ [c]), (t ++ [x]).
    split; [apply Forall2_app; [done|constructor; [by split|constructor]]|].
    split; [by rewrite Hp, Hdp, <- app_assoc|]. split; [by rewrite Hs, Hds, <- app_assoc|done].
  - rewrite Hst, Hdp, Hds. split; [by intros [_ ?]%glob_cons_inv|].
    intros H. apply glob_cons; [|done]. destruct E1; auto.
Qed.

Lemma glob_loop_exact p s fuel pi si star retry r :
  STAR ∉ s → retry ≤ si → pi ≤ length p →
  match star with None => True | Some sp => p !! sp = Some STAR end →
  glob_state p s pi si star retry →
  glob_loop fuel p s pi si star retry = Some r →
  (glob p s ↔ ∃ pi', r = Some pi' ∧ only_stars (drop pi' p) = true).
Proof.
  intros Hns. revert pi si star retry. induction fuel as [|fuel IH];
    intros pi si star retry Hrs Hpi Hsp Hst Hr; [done|].
  cbn [glob_loop] in Hr. destruct (s !! si) as [x|] eqn:Hx.
  2:{ simplify_eq. rewrite (glob_state_end _ _ _ _ _ _ Hst Hx), glob_nil_stars.
      split; [by eexists|by intros (? & [= <-] & ?)]. }
  assert (x ≠ STAR) as Hxs by (intros ->; apply Hns; by eapply list_elem_of_lookup_2).
  pose proof (drop_lookup s si x Hx) as Hds. pose proof (lookup_lt_Some _ _ _ Hx) as Hsi.
  destruct (p !! pi) as [c|] eqn:Hc.
  - pose proof (drop_lookup p pi c Hc) as Hdp. pose proof (lookup_lt_Some _ _ _ Hc) as Hpl.
    destruct (bool_decide (c = QMARK) || bool_decide (c = x)) eqn:E1.
    + apply orb_true_iff in E1. rewrite !bool_decide_eq_true in E1.
      assert (Hcs : c ≠ STAR) by (destruct E1 as [->| ->]; [exact QMARK_STAR|done]).
      eapply IH; [| | | |exact Hr]; [lia|lia|done|].
      by eapply glob_state_literal.
    + apply orb_false_iff in E1. rewrite !bool_decide_eq_false in E1. destruct E1 as [Eq Ex].
      destruct (decide (c = STAR)) as [->|E2];
        [rewrite bool_decide_eq_true_2 in Hr by done|rewrite bool_decide_eq_false_2 in Hr by done].
      * eapply IH; [| | | |exact Hr]; [lia|lia|done|]. exists [], [].
        split; [constructor|]. split; [done|]. split; [done|].
        destruct star as [sp|]; simpl in Hst; [|done].
        destruct Hst as (seg & t & Hf & Hp & Hs & ->). rewrite Hp, Hs, Hdp. by apply glob_star_seg_star.
      * assert (Hno : ¬ glob (drop pi p) (drop si s)).
        { rewrite Hdp, Hds. intros [[?|?] _]%glob_cons_inv; done. }
        destruct star as [sp|].
        -- pose proof (lookup_lt_Some _ _ _ Hsp). eapply IH; [| | | |exact Hr]; [lia|lia|done|].
           by eapply glob_state_backtrack.
        -- simplify_eq. simpl in Hst. split; [tauto|by intros (? & ? & _)].
  - assert (Hno : ¬ glob (drop pi p) (drop si s)).
    { rewrite (drop_none p pi Hc), Hds. intros H. inversion H. }
    destruct star as [sp|].
    + pose proof (lookup_lt_Some _ _ _ Hsp). eapply IH; [| | | |exact Hr]; [lia|lia|done|].
      by eapply glob_state_backtrack.
    + simplify_eq. simpl in Hst. split; [tauto|by intros (? & ? & _)].
Qed.

Lemma glob_loop_ends p s :
  ∃ r, glob_loop (glob_fuel p s) p s 0 0 None 0 = Some r ∧
    (∀ pi', r = Some pi' → only_stars (drop pi' p) = true → glob p s).
Proof.
  apply glob_loop_sound; try done; [|lia]. unfold glob_work, glob_fuel. simpl. lia.
Qed.

(** ** Properties *)

(** C38: Glob matching decides the language of [?] and [*].  For every pattern
    and every input without a star byte, the backtracking loop ends within its
    fuel and answers exactly whether the input is in the language [glob]: [?]
    is any byte, [*] any run of bytes, and every other byte of the pattern,
    brackets and backslash included, stands for itself.  The documentation
    promises bracket classes; [glob_class_is_literal] shows what its example
    does. *)
Theorem glob_match_correct p s :
  STAR ∉ s →
  is_Some (glob_loop (glob_fuel p s) p s 0 0 None 0) ∧ (glob_match p s = true ↔ glob p s).
Proof.
  intros Hs. destruct (glob_loop_ends p s) as (r & Hr & _). split; [by eexists|].
  rewrite (glob_loop_exact p s (glob_fuel p s) 0 0 None 0 r Hs); try done; [|lia].
  unfold glob_match, glob_match_bytes. rewrite Hr. destruct r as [pi|]; [|split; [done|by intros (? & ? & _)]].
  split; [by eexists|]. intros (? & [= <-] & ?). done.
Qed.

Lemma glob_match_correct_witness :
  (STAR ∉ B "user:42") ∧ (glob_match (B "us?r:*") (B "user:42") = true ↔ glob (B "us?r:*") (B "user:42")).
Proof.
  assert (H : STAR ∉ B "user:42") by (apply (bool_decide_unpack _); vm_compute; exact I).
  split; [exact H|]. apply (glob_match_correct (B "us?r:*") (B "user:42") H).
Defined.

(** A positive answer is always right, for every input; but an input that
    itself contains a star can be rejected although it matches: a pattern star
    facing an input star is consumed as a literal. *)
Theorem glob_match_sound_incomplete :
  (∀ p s, glob_match p s = true → glob p s) ∧
  glob (B "*") (B "*a") ∧ glob_match (B "*") (B "*a") = false.
Proof.
  split; [|split; [|reflexivity]].
  - intros p s H. destruct (glob_loop_ends p s) as (r & Hr & Hsound).
    unfold glob_match, glob_match_bytes in H. rewrite Hr in H. destruct r as [pi|]; [|done]. eauto.
  - apply (glob_star_absorb [] (B "*a") []). eauto with fyro.
Qed.

(** The guide of the pub/sub commands gives [news.[a-z]*] as a pattern that
    matches [news.tech] and [news.sports].  It matches neither: the bracket is
    a literal. *)
Theorem glob_class_is_literal :
  glob_match (B "news.[a-z]*") (B "news.tech") = false ∧
  glob_match (B "news.[a-z]*") (B "news.sports") = false ∧
  glob_match (B "news.[a-z]*") (B "news.[a-z]1") = true.
Proof. vm_compute. done. Qed.
