(* ===== verification/Collections.v ===== *)
(** The small-collection encodings of storage/value/collections.rs.

    A hash starts as one flat vector of alternating fields and values and
    becomes a hash table above 64 fields, and a vector again at 32; a set
    starts as a sorted vector of integers, becomes a vector of strings, then a
    hash set; a list is a deque in both encodings.  A Rust [HashMap] or
    [HashSet] is a [gmap] or [gset]; the order in which it iterates is not
    specified, so it is a parameter, [HashOrder]. *)

From S2P Require Import Prelude Decimal.

(** ** Binary search

    On a slice, as the Standard Library of Rust does it: [binary_search_by]
    halves a window and tests the element left at the end; [partition_point] is
    the same search with a predicate.  The specification is for slices cut in
    three by the comparison: below, equal, above. *)

Section Search.
Context {A : Type}.
Implicit Types (l : list A) (cmp : A → comparison).

(** The window loop: [size] is both the loop variable and enough fuel, since a
    turn removes at least one element of a window of two or more. *)
Fixpoint bs_loop (fuel : nat) cmp l (base size : nat) : nat :=
  match fuel with
  | O => base
  | S fuel' =>
      if 1 <? size then
        let half := size / 2 in
        let mid := base + half in
        let base' := match cmp <$> l !! mid with Some Gt => base | _ => mid end in
        bs_loop fuel' cmp l base' (size - half)
      else base
  end.

(** [Ok i] is [inl i], [Err i] is [inr i]. *)
Definition binary_search_by cmp l : nat + nat :=
  match l with
  | [] => inr 0
  | _ =>
      let base := bs_loop (length l) cmp l 0 (length l) in
      match cmp <$> l !! base with
      | Some Eq => inl base
      | Some Lt => inr (base + 1)
      | _ => inr base
      end
  end.

Definition partition_point (p : A → bool) l : nat :=
  match binary_search_by (λ x, if p x then Lt else Gt) l with inl i | inr i => i end.

(** ** Specification *)

(** [l] is cut by [cmp] into a part below, a part equal and a part above. *)
Definition cut_by cmp l : Prop :=
  ∃ n m, n <= m ∧
    (∀ i x, l !! i = Some x → i < n → cmp x = Lt) ∧
    (∀ i x, l !! i = Some x → n <= i < m → cmp x = Eq) ∧
    (∀ i x, l !! i = Some x → m <= i → cmp x = Gt).

(** Everything from the end of the window on is above, and the element at
    [base] is not, unless the window starts at the beginning. *)
Lemma bs_loop_spec cmp l fuel base size :
  cut_by cmp l → size <= fuel → 0 < size → base + size <= length l →
  (base = 0 ∨ ∃ x, l !! base = Some x ∧ cmp x ≠ Gt) →
  (∀ i x, l !! i = Some x → base + size <= i → cmp x = Gt) →
  ∃ b, bs_loop fuel cmp l base size = b ∧ b < length l ∧
    (b = 0 ∨ ∃ x, l !! b = Some x ∧ cmp x ≠ Gt) ∧
    (∀ i x, l !! i = Some x → b < i → cmp x = Gt).
Proof.
  intros Hc. revert base size. induction fuel as [|fuel IH]; intros base size Hf Hs Hl Hb Ha; [lia|].
  cbn [bs_loop]. destruct (1 <? size) eqn:E; split_bool.
  - set (half := size / 2). assert (2 * half <= size ∧ 0 < half) as [Hh Hh0].
    { unfold half. split; [apply Nat.Div0.mul_div_le|apply Nat.div_str_pos; lia]. }
    clearbody half.
    destruct (lookup_lt_is_Some_2 l (base + half)) as [y Hy]; [lia|]. rewrite Hy. simpl.
    assert (Hup : cmp y ≠ Gt → ∀ i x, l !! i = Some x → base + half + (size - half) <= i → cmp x = Gt).
    { intros _ i x Hi Hle. eapply Ha; [done|lia]. }
    destruct (cmp y) eqn:Ey;
      [apply IH; [lia|lia|lia|right; exists y; by rewrite Ey|by apply Hup]
      |apply IH; [lia|lia|lia|right; exists y; by rewrite Ey|by apply Hup]|].
    apply IH; [lia|lia|lia|done|]. intros i x Hi Hle. destruct Hc as (n & m & Hnm & H1 & H2 & H3).
    eapply H3; [done|]. destruct (decide (m <= base + half)); [lia|].
    destruct (decide (n <= base + half)); [by rewrite (H2 _ _ Hy) in Ey by lia|].
    by rewrite (H1 _ _ Hy) in Ey by lia.
  - exists base. split; [done|]. split; [lia|]. split; [done|]. intros. eapply Ha; [done|lia].
Qed.

(** The search answers [Ok] with an equal element, or [Err] with the position
    that separates the lower part from the upper one. *)
Lemma binary_search_by_spec cmp l :
  cut_by cmp l →
  match binary_search_by cmp l with
  | inl i => ∃ x, l !! i = Some x ∧ cmp x = Eq
  | inr i => i <= length l ∧ (∀ j x, l !! j = Some x → j < i → cmp x = Lt) ∧
      (∀ j x, l !! j = Some x → i <= j → cmp x = Gt)
  end.
Proof.
  intros Hc. unfold binary_search_by. destruct l as [|a l'] eqn:El; [by repeat split|].
  rewrite <- El in *. assert (0 < length l) by (rewrite El; simpl; lia).
  destruct (bs_loop_spec cmp l (length l) 0 (length l)) as (b & -> & Hb & Hb0 & Hab); auto.
  { intros i x Hi%lookup_lt_Some. lia. }
  destruct (lookup_lt_is_Some_2 l b Hb) as [y Hy]. rewrite Hy. simpl.
  pose proof Hc as (n & m & Hnm & H1 & H2 & H3). destruct (cmp y) eqn:Ey.
  - by exists y.
  - split; [lia|]. split; [|intros; eapply Hab; [done|lia]].
    intros j x Hj Hlt. eapply H1; [done|].
    destruct (decide (m <= b)); [by rewrite (H3 _ _ Hy) in Ey by lia|].
    destruct (decide (n <= b)); [by rewrite (H2 _ _ Hy) in Ey by lia|]. lia.
  - destruct Hb0 as [->|(x & Hx & Hng)]; [|congruence].
    split; [lia|]. split; [intros; lia|]. intros j x Hj _.
    destruct (decide (j = 0)) as [->|]; [congruence|]. eapply Hab; [done|lia].
Qed.

(** A monotone predicate: [partition_point] counts the elements that satisfy it. *)
Lemma partition_point_spec (p : A → bool) l n :
  n <= length l → (∀ i x, l !! i = Some x → p x = (i <? n)) →
  partition_point p l = n.
Proof.
  intros Hn Hp. unfold partition_point.
  assert (Hc : cut_by (λ x, if p x then Lt else Gt) l).
  { exists n, n. split; [done|]. repeat split; intros i x Hi Hlt; rewrite (Hp _ _ Hi).
    - by rewrite (proj2 (Nat.ltb_lt _ _)) by lia.
    - lia.
    - by rewrite (proj2 (Nat.ltb_ge _ _)) by lia. }
  pose proof (binary_search_by_spec _ _ Hc) as H.
  destruct (binary_search_by _ l) as [i|i].
  - destruct H as (x & _ & ?). by destruct (p x).
  - destruct H as (Hi & Hlo & Hhi). destruct (Nat.lt_trichotomy i n) as [?|[?|?]]; [|done|].
    + destruct (lookup_lt_is_Some_2 l i) as [x Hx]; [lia|].
      pose proof (Hhi _ _ Hx ltac:(lia)) as Hg. rewrite (Hp _ _ Hx) in Hg.
      by rewrite (proj2 (Nat.ltb_lt _ _)) in Hg by lia.
    + destruct (lookup_lt_is_Some_2 l n) as [x Hx]; [lia|].
      pose proof (Hlo _ _ Hx ltac:(lia)) as Hg. rewrite (Hp _ _ Hx) in Hg.
      by rewrite (proj2 (Nat.ltb_ge _ _)) in Hg by lia.
Qed.
End Search.

Definition COMPACT_THRESHOLD : nat := 64.

(** The iteration order of the hash containers: some listing of the contents. *)
Class HashOrder := {
  map_order : gmap bytes bytes → list (bytes * bytes);
  map_order_perm m : map_order m ≡ₚ map_to_list m;
  set_order : gset bytes → list bytes;
  set_order_perm s : set_order s ≡ₚ elements s;
}.

(** A concrete order. *)
Definition canonical_order : HashOrder := {|
  map_order := map_to_list;
  map_order_perm m := reflexivity _;
  set_order := elements;
  set_order_perm s := reflexivity _;
|}.

(** ** Vector operations *)

(** [v.swap(i, j)], for indices in range. *)
Definition vec_swap {A} (v : list A) (i j : nat) : list A :=
  match v !! i, v !! j with
  | Some a, Some b => <[i := b]> (<[j := a]> v)
  | _, _ => v
  end.

(** [v.pop()]: the vector and the element taken off. *)
Definition vec_pop {A} (v : list A) : list A * option A := (take (length v - 1) v, last v).

(** [v.swap_remove(i)]. *)
Definition swap_remove {A} (i : nat) (v : list A) : list A :=
  (vec_pop (vec_swap v i (length v - 1))).1.

(** [v.insert(pos, x)]. *)
Definition vec_insert {A} (pos : nat) (x : A) (v : list A) : list A := take pos v ++ x :: drop pos v.

(** [v.iter().step_by(2)]. *)
Fixpoint step_by2 {A} (v : list A) : list A :=
  match v with
  | [] => []
  | x :: v' => x :: match v' with [] => [] | _ :: v'' => step_by2 v'' end
  end.

(** The (field, value) pairs of a flat vector, and the flat vector of pairs. *)
Fixpoint pairs {A} (v : list A) : list (A * A) :=
  match v with
  | k :: x :: v' => (k, x) :: pairs v'
  | _ => []
  end.
Fixpoint flat {A} (ps : list (A * A)) : list A :=
  match ps with
  | [] => []
  | (k, x) :: ps' => k :: x :: flat ps'
  end.

(** ** Hashes *)

Inductive HashInner :=
| HCompact (v : list bytes)
| HFull (m : gmap bytes bytes).

Definition HashInner_new : HashInner := HCompact [].

(** The scan of the compact encoding: the first even index that holds [field]. *)
Fixpoint compact_find (v : list bytes) (field : bytes) : option nat :=
  match v with
  | [] => None
  | k :: v' =>
      if bool_decide (k = field) then Some 0
      else match v' with [] => None | _ :: v'' => (λ i, i + 2) <$> compact_find v'' field end
  end.

Definition hash_get (h : HashInner) (field : bytes) : option bytes :=
  match h with
  | HCompact v => i ← compact_find v field; v !! (i + 1)
  | HFull m => m !! field
  end.

Definition promote_hash (h : HashInner) : HashInner :=
  match h with
  | HCompact v => HFull (foldl (λ m p, <[p.1 := p.2]> m) ∅ (pairs v))
  | HFull m => HFull m
  end.

Definition demote_hash `{HashOrder} (h : HashInner) : HashInner :=
  match h with
  | HCompact v => HCompact v
  | HFull m => if COMPACT_THRESHOLD / 2 <? size m then HFull m else HCompact (flat (map_order m))
  end.

Definition hash_insert (h : HashInner) (field value : bytes) : HashInner * bool :=
  match h with
  | HCompact v =>
      match compact_find v field with
      | Some i => (HCompact (<[i + 1 := value]> v), false)
      | None =>
          let v' := v ++ [field; value] in
          (if COMPACT_THRESHOLD <? length v' / 2 then promote_hash (HCompact v') else HCompact v', true)
      end
  | HFull m => (HFull (<[field := value]> m), bool_decide (m !! field = None))
  end.

Definition hash_remove `{HashOrder} (h : HashInner) (field : bytes) : HashInner * option bytes :=
  match h with
  | HCompact v =>
      match compact_find v field with
      | Some i =>
          let len := length v in
          let v1 := vec_swap v i (len - 2) in
          let v2 := vec_swap v1 (i + 1) (len - 1) in
          let '(v3, _) := vec_pop v2 in
          let '(v4, out) := vec_pop v3 in
          (HCompact v4, out)
      | None => (HCompact v, None)
      end
  | HFull m =>
      let out := m !! field in
      let m' := delete field m in
      (if size m' <=? COMPACT_THRESHOLD / 2 then demote_hash (HFull m') else HFull m', out)
  end.

Definition hash_len (h : HashInner) : nat :=
  match h with HCompact v => length v / 2 | HFull m => size m end.

Definition hash_contains_key (h : HashInner) (field : bytes) : bool :=
  bool_decide (is_Some (hash_get h field)).

Definition hash_keys `{HashOrder} (h : HashInner) : list bytes :=
  match h with HCompact v => step_by2 v | HFull m => (map_order m).*1 end.

Definition hash_values `{HashOrder} (h : HashInner) : list bytes :=
  match h with HCompact v => step_by2 (drop 1 v) | HFull m => (map_order m).*2 end.

Definition hash_iter `{HashOrder} (h : HashInner) : list (bytes * bytes) :=
  match h with HCompact v => pairs v | HFull m => map_order m end.

(** ** Sets *)

Inductive SetInner :=
| SIntegers (v : list Z)
| SCompact (v : list bytes)
| SFull (s : gset bytes).

Definition SetInner_new : SetInner := SIntegers [].

(** [v.binary_search(&n)] *)
Definition int_search (v : list Z) (n : Z) : nat + nat := binary_search_by (λ x, (x ?= n)%Z) v.

Definition promote_set (s : SetInner) : SetInner :=
  match s with SCompact v => SFull (list_to_set v) | _ => s end.

Definition demote_set `{HashOrder} (s : SetInner) : SetInner :=
  match s with
  | SFull g => if COMPACT_THRESHOLD / 2 <? size g then SFull g else SCompact (set_order g)
  | _ => s
  end.

Definition set_insert (s : SetInner) (member : bytes) : SetInner * bool :=
  match s with
  | SIntegers v =>
      match canonical_i64 member with
      | Some n =>
          match int_search v n with
          | inl _ => (SIntegers v, false)
          | inr pos => (SIntegers (vec_insert pos n v), true)
          end
      | None => (SCompact ((i64_to_string <$> v) ++ [member]), true)
      end
  | SCompact v =>
      if bool_decide (member ∈ v) then (SCompact v, false)
      else
        let v' := v ++ [member] in
        (if COMPACT_THRESHOLD <? length v' then promote_set (SCompact v') else SCompact v', true)
  | SFull g => (SFull ({[ member ]} ∪ g), bool_decide (member ∉ g))
  end.

Definition set_from_strings (values : list bytes) : SetInner :=
  foldl (λ s v, (set_insert s v).1) SetInner_new values.

(** [v.iter().position(|m| m == member)] *)
Fixpoint position (member : bytes) (v : list bytes) : option nat :=
  match v with
  | [] => None
  | x :: v' => if bool_decide (x = member) then Some 0 else S <$> position member v'
  end.

Definition set_remove `{HashOrder} (s : SetInner) (member : bytes) : SetInner * bool :=
  match s with
  | SIntegers v =>
      match canonical_i64 member with
      | Some n =>
          match int_search v n with
          | inl pos => (SIntegers (delete pos v), true)
          | inr _ => (SIntegers v, false)
          end
      | None => (SIntegers v, false)
      end
  | SCompact v =>
      match position member v with
      | Some pos => (SCompact (swap_remove pos v), true)
      | None => (SCompact v, false)
      end
  | SFull g =>
      let removed := bool_decide (member ∈ g) in
      let g' := g ∖ {[ member ]} in
      (if size g' <=? COMPACT_THRESHOLD / 2 then demote_set (SFull g') else SFull g', removed)
  end.

Definition set_contains (s : SetInner) (member : bytes) : bool :=
  match s with
  | SIntegers v =>
      match canonical_i64 member with
      | Some n => match int_search v n with inl _ => true | inr _ => false end
      | None => false
      end
  | SCompact v => existsb (λ m, bool_decide (m = member)) v
  | SFull g => bool_decide (member ∈ g)
  end.

Definition set_len (s : SetInner) : nat :=
  match s with SIntegers v => length v | SCompact v => length v | SFull g => size g end.

Inductive SetMemberRef :=
| MInteger (n : Z)
| MString (s : bytes).

Definition set_iter `{HashOrder} (s : SetInner) : list SetMemberRef :=
  match s with
  | SIntegers v => MInteger <$> v
  | SCompact v => MString <$> v
  | SFull g => MString <$> set_order g
  end.

(** [to_string] and [matches] of a member. *)
Definition member_to_string (m : SetMemberRef) : bytes :=
  match m with MInteger n => i64_to_string n | MString s => s end.

Definition member_matches (m : SetMemberRef) (value : bytes) : bool :=
  match m with
  | MInteger n => bool_decide (canonical_i64 value = Some n)
  | MString s => bool_decide (s = value)
  end.

(** [s.iter().map(|m| m.to_string()).collect()] *)
Definition set_strings `{HashOrder} (s : SetInner) : list bytes := member_to_string <$> set_iter s.

(** ** Lists *)

Inductive ListInner :=
| LCompact (v : list bytes)
| LFull (v : list bytes).

Definition ListInner_new : ListInner := LCompact [].

Definition deque (l : ListInner) : list bytes := match l with LCompact v | LFull v => v end.

(** What the holder of [deque_mut] leaves behind. *)
Definition with_deque (l : ListInner) (v : list bytes) : ListInner :=
  match l with LCompact _ => LCompact v | LFull _ => LFull v end.

Definition promote_list (l : ListInner) : ListInner :=
  match l with LCompact v => LFull v | LFull v => LFull v end.

Definition demote_list (l : ListInner) : ListInner :=
  match l with
  | LCompact v => LCompact v
  | LFull v => if COMPACT_THRESHOLD / 2 <? length v then LFull v else LCompact v
  end.

Definition list_push_front (l : ListInner) (value : bytes) : ListInner :=
  match l with
  | LCompact v =>
      let v' := value :: v in
      if COMPACT_THRESHOLD <? length v' then promote_list (LCompact v') else LCompact v'
  | LFull v => LFull (value :: v)
  end.

Definition list_push_back (l : ListInner) (value : bytes) : ListInner :=
  match l with
  | LCompact v =>
      let v' := v ++ [value] in
      if COMPACT_THRESHOLD <? length v' then promote_list (LCompact v') else LCompact v'
  | LFull v => LFull (v ++ [value])
  end.

Definition list_pop_front (l : ListInner) : ListInner * option bytes :=
  match l with
  | LCompact v => (LCompact (drop 1 v), head v)
  | LFull v =>
      let v' := drop 1 v in
      (if length v' <=? COMPACT_THRESHOLD / 2 then demote_list (LFull v') else LFull v', head v)
  end.

Definition list_pop_back (l : ListInner) : ListInner * option bytes :=
  match l with
  | LCompact v => (LCompact (vec_pop v).1, (vec_pop v).2)
  | LFull v =>
      let '(v', out) := vec_pop v in
      (if length v' <=? COMPACT_THRESHOLD / 2 then demote_list (LFull v') else LFull v', out)
  end.

Definition list_len (l : ListInner) : nat := match l with LCompact v | LFull v => length v end.
