(* ===== verification/CollectionsSpec.v ===== *)
(** The encodings of [HashInner], [SetInner] and [ListInner] refine finite maps,
    finite sets and sequences, through every promotion and demotion. *)

From S2P Require Import Prelude Decimal Collections.

#[local] Arguments Nat.div : simpl never.

Lemma half_threshold : COMPACT_THRESHOLD / 2 = 32.
Proof. reflexivity. Qed.

(** ** Vector operations *)

Lemma vec_pop_snoc {A} (v : list A) x : vec_pop (v ++ [x]) = (v, Some x).
Proof.
  unfold vec_pop. rewrite length_app, last_snoc. simpl.
  by rewrite Nat.add_sub, take_app_length.
Qed.

Lemma vec_swap_last {A} (q : list A) z i x :
  (q ++ [z]) !! i = Some x →
  ∃ r, <[i := z]> (<[length (q ++ [z]) - 1 := x]> (q ++ [z])) = r ++ [x].
Proof.
  intros Hi. rewrite length_app. simpl. rewrite Nat.add_sub.
  rewrite (insert_app_r_alt q), Nat.sub_diag by lia. simpl.
  destruct (decide (i < length q)); [rewrite insert_app_l by lia; by eexists|].
  apply lookup_lt_Some in Hi as Hl. rewrite length_app in Hl. simpl in Hl.
  assert (i = length q) as -> by lia. rewrite lookup_app_r, Nat.sub_diag in Hi by lia. simplify_eq/=.
  rewrite insert_app_r_alt, Nat.sub_diag by lia. by eexists.
Qed.

(** Swapping with the last element and popping: the removed element is the one
    at [i], the rest is kept up to order. *)
Lemma swap_remove_perm {A} i (v : list A) x : v !! i = Some x → x :: swap_remove i v ≡ₚ v.
Proof.
  intros Hi. unfold swap_remove, vec_swap. destruct v as [|z q _] using rev_ind; [by rewrite lookup_nil in Hi|].
  assert (Hl : (q ++ [z]) !! (length (q ++ [z]) - 1) = Some z).
  { rewrite length_app. simpl. by rewrite Nat.add_sub, lookup_app_r, Nat.sub_diag by lia. }
  rewrite Hi, Hl. pose proof (Permutation_insert_swap (q ++ [z]) _ _ _ _ Hl Hi) as Hp.
  destruct (vec_swap_last q z i x Hi) as [r Hr].
  rewrite Hr in *. rewrite vec_pop_snoc. simpl. rewrite <- Hp. by rewrite Permutation_cons_append.
Qed.

(** ** Flat vectors *)

Lemma pairs_flat {A} (ps : list (A * A)) : pairs (flat ps) = ps.
Proof. induction ps as [|[k x] ps IH]; simpl; [done|by rewrite IH]. Qed.

Lemma flat_app {A} (ps qs : list (A * A)) : flat (ps ++ qs) = flat ps ++ flat qs.
Proof. induction ps as [|[k x] ps IH]; simpl; [done|by rewrite IH]. Qed.

Lemma flat_length {A} (ps : list (A * A)) : length (flat ps) = length ps * 2.
Proof. induction ps as [|[k x] ps IH]; simpl; [done|by rewrite IH]. Qed.

Lemma flat_lookup_key {A} (ps : list (A * A)) j : flat ps !! (j * 2) = fst <$> ps !! j.
Proof. revert j; induction ps as [|[k x] ps IH]; intros [|j]; simpl; (done || apply IH). Qed.

Lemma flat_lookup_value {A} (ps : list (A * A)) j : flat ps !! (j * 2 + 1) = snd <$> ps !! j.
Proof. revert j; induction ps as [|[k x] ps IH]; intros [|j]; simpl; (done || apply IH). Qed.

Lemma flat_insert_value {A} (ps : list (A * A)) j k x y :
  ps !! j = Some (k, x) → <[j * 2 + 1 := y]> (flat ps) = flat (<[j := (k, y)]> ps).
Proof.
  revert j; induction ps as [|[k' x'] ps IH]; intros [|j] Hj; simplify_eq/=; [done|].
  by rewrite IH.
Qed.

Lemma flat_insert_key {A} (ps : list (A * A)) j k x y :
  ps !! j = Some (k, x) → <[j * 2 := y]> (flat ps) = flat (<[j := (y, x)]> ps).
Proof.
  revert j; induction ps as [|[k' x'] ps IH]; intros [|j] Hj; simplify_eq/=; [done|].
  by rewrite IH.
Qed.

Lemma step_by2_flat {A} (ps : list (A * A)) : step_by2 (flat ps) = ps.*1.
Proof. induction ps as [|[k x] ps IH]; simpl; [done|by rewrite IH]. Qed.

Lemma step_by2_flat_values {A} (ps : list (A * A)) : step_by2 (drop 1 (flat ps)) = ps.*2.
Proof.
  induction ps as [|[k x] ps IH]; simpl; [done|]. f_equal.
  destruct ps as [|[k' x'] ps]; [done|exact IH].
Qed.

(** Two swaps and two pops on a flat vector remove the pair; what is handed
    back is the field. *)
Lemma flat_swap_remove {A} (ps : list (A * A)) j k x :
  ps !! j = Some (k, x) →
  let len := length (flat ps) in
  let v2 := vec_swap (vec_swap (flat ps) (j * 2) (len - 2)) (j * 2 + 1) (len - 1) in
  vec_pop (vec_pop v2).1 = (flat (swap_remove j ps), Some k).
Proof.
  intros Hj. destruct ps as [|[kz xz] q _] using rev_ind; [by rewrite lookup_nil in Hj|].
  set (n := length q). assert (Hn : length (q ++ [(kz, xz)]) = n + 1) by by rewrite length_app.
  assert (Hlast : (q ++ [(kz, xz)]) !! n = Some (kz, xz)) by (unfold n; by rewrite lookup_app_r, Nat.sub_diag by lia).
  apply lookup_lt_Some in Hj as Hjn. rewrite Hn in Hjn.
  cbv zeta. rewrite flat_length, Hn. replace ((n + 1) * 2 - 2) with (n * 2) by lia.
  replace ((n + 1) * 2 - 1) with (n * 2 + 1) by lia.
  set (ps := q ++ [(kz, xz)]) in *.
  assert (E1 : vec_swap (flat ps) (j * 2) (n * 2) =
    flat (if decide (j = n) then ps else <[j := (kz, x)]> (<[n := (k, xz)]> ps))).
  { unfold vec_swap. rewrite !flat_lookup_key, Hj, Hlast. simpl.
    rewrite (flat_insert_key ps n kz xz) by done. destruct (decide (j = n)) as [->|Hne].
    - rewrite Hlast in Hj. simplify_eq. rewrite (flat_insert_key _ n k x) by
        (rewrite list_lookup_insert_eq by lia; done).
      by rewrite list_insert_insert_eq, list_insert_id.
    - rewrite (flat_insert_key _ j k x) by (by rewrite list_lookup_insert_ne). done. }
  rewrite E1. clear E1.
  assert (E2 : ∀ rs, rs = (if decide (j = n) then ps else <[j := (kz, x)]> (<[n := (k, xz)]> ps)) →
    vec_swap (flat rs) (j * 2 + 1) (n * 2 + 1) = flat (vec_swap ps j n)).
  { intros rs ->. unfold vec_swap at 2. rewrite Hj, Hlast. unfold vec_swap. destruct (decide (j = n)) as [->|Hne].
    - rewrite Hlast in Hj. simplify_eq. rewrite !flat_lookup_value, Hlast. simpl.
      rewrite !(flat_insert_value _ n k x) by (done || by rewrite list_lookup_insert_eq by lia). done.
    - rewrite !flat_lookup_value, list_lookup_insert_eq by (rewrite length_insert; lia).
      rewrite list_lookup_insert_ne, list_lookup_insert_eq by (done || lia). simpl.
      rewrite (flat_insert_value _ n k xz) by
        (rewrite list_lookup_insert_ne, list_lookup_insert_eq by (done || lia); done).
      rewrite (flat_insert_value _ j kz x) by
        (rewrite list_lookup_insert_ne, list_lookup_insert_eq by (done || rewrite length_insert; lia); done).
      f_equal. rewrite (list_insert_insert_ne _ n j) by done.
      by rewrite list_insert_insert_eq, list_insert_insert_eq. }
  rewrite (E2 _ eq_refl). unfold swap_remove. rewrite Hn, Nat.add_sub.
  assert (E3 : ∃ r, vec_swap ps j n = r ++ [(k, x)]).
  { unfold vec_swap. rewrite Hj, Hlast. destruct (vec_swap_last q (kz, xz) j (k, x) Hj) as [r Hr].
    exists r. fold ps in Hr. by rewrite Hn, Nat.add_sub in Hr. }
  destruct E3 as [r ->]. rewrite vec_pop_snoc, flat_app.
  change (flat [(k, x)]) with ([k] ++ [x]). rewrite app_assoc, vec_pop_snoc. apply vec_pop_snoc.
Qed.

(** ** Hashes *)

Section Hashes.
Context `{HashOrder}.
Implicit Types (h : HashInner) (ps : list (bytes * bytes)) (f : bytes).

(** The finite map a hash stands for, and its invariant. *)
Definition hash_abs h : gmap bytes bytes :=
  match h with HCompact v => list_to_map (pairs v) | HFull m => m end.

Definition hash_wf h : Prop :=
  match h with
  | HCompact v => ∃ ps, v = flat ps ∧ NoDup ps.*1
  | HFull _ => True
  end.

(** The thresholds: a vector up to 64 fields, a table above 32. *)
Definition hash_encoded h : Prop :=
  match h with
  | HCompact v => length v / 2 <= COMPACT_THRESHOLD
  | HFull m => COMPACT_THRESHOLD / 2 < size m
  end.

Lemma hash_new_wf : hash_wf HashInner_new.
Proof. exists []. split; [done|apply NoDup_nil_2]. Qed.

Lemma hash_abs_flat ps : hash_abs (HCompact (flat ps)) = list_to_map ps.
Proof. simpl. by rewrite pairs_flat. Qed.

Lemma compact_find_spec ps f :
  match compact_find (flat ps) f with
  | Some i => ∃ j x, i = j * 2 ∧ ps !! j = Some (f, x) ∧ (list_to_map ps : gmap bytes bytes) !! f = Some x
  | None => f ∉ ps.*1
  end.
Proof.
  induction ps as [|[k x] ps IH]; simpl; [apply not_elem_of_nil|].
  destruct (decide (k = f)) as [->|Hne].
  - rewrite bool_decide_eq_true_2 by done. exists 0, x. by rewrite lookup_insert_eq.
  - rewrite bool_decide_eq_false_2 by done.
    destruct (compact_find (flat ps) f) as [i|]; simpl.
    + destruct IH as (j & y & -> & Hj & Hy). exists (S j), y. split; [lia|]. split; [done|].
      by rewrite lookup_insert_ne.
    + rewrite not_elem_of_cons. by split; [congruence|].
Qed.

Lemma hash_get_spec h f : hash_wf h → hash_get h f = hash_abs h !! f.
Proof.
  destruct h as [v|m]; [|done]. intros (ps & -> & Hnd). rewrite hash_abs_flat. simpl.
  pose proof (compact_find_spec ps f) as Hf. destruct (compact_find _ f) as [i|]; simpl.
  - destruct Hf as (j & x & -> & Hj & ->). by rewrite flat_lookup_value, Hj.
  - symmetry. by apply not_elem_of_list_to_map.
Qed.

Lemma insert_fst ps j f x y : ps !! j = Some (f, x) → (<[j := (f, y)]> ps).*1 = ps.*1.
Proof. intros Hj. rewrite list_fmap_insert. simpl. apply list_insert_id. by rewrite list_lookup_fmap, Hj. Qed.

Lemma list_to_map_update ps j f x y :
  NoDup ps.*1 → ps !! j = Some (f, x) →
  (list_to_map (<[j := (f, y)]> ps) : gmap bytes bytes) = <[f := y]> (list_to_map ps).
Proof.
  revert j. induction ps as [|[k z] ps IH]; intros [|j] Hnd Hj; simplify_eq/=.
  - by rewrite insert_insert_eq.
  - apply NoDup_cons in Hnd as [Hk Hnd]. rewrite IH by done. apply insert_insert_ne.
    intros ->. apply Hk, list_elem_of_fmap. exists (f, x). split; [done|by eapply list_elem_of_lookup_2].
Qed.

Lemma foldl_insert_map {A} (ps : list (bytes * A)) (m : gmap bytes A) :
  NoDup ps.*1 → foldl (λ m p, <[p.1 := p.2]> m) m ps = list_to_map ps ∪ m.
Proof.
  revert m. induction ps as [|[k x] ps IH]; intros m Hnd; simpl; [by rewrite (left_id_L ∅ (∪))|].
  apply NoDup_cons in Hnd as [Hk Hnd]. rewrite IH by done.
  rewrite <- insert_union_r by (by apply not_elem_of_list_to_map). by rewrite insert_union_l.
Qed.

Lemma promote_hash_spec ps :
  NoDup ps.*1 → promote_hash (HCompact (flat ps)) = HFull (list_to_map ps).
Proof. intros Hnd. simpl. rewrite pairs_flat, foldl_insert_map by done. by rewrite (right_id_L ∅ (∪)). Qed.

Lemma map_order_NoDup m : NoDup (map_order m).*1.
Proof. rewrite map_order_perm. apply NoDup_fst_map_to_list. Qed.

Lemma map_order_map m : list_to_map (map_order m) = m.
Proof.
  rewrite <- (list_to_map_to_list m) at 2. apply list_to_map_proper; [apply map_order_NoDup|].
  apply map_order_perm.
Qed.

Lemma demote_hash_spec h :
  hash_wf h → hash_wf (demote_hash h) ∧ hash_abs (demote_hash h) = hash_abs h.
Proof.
  destruct h as [v|m]; [done|]. intros _. unfold demote_hash. case_goal; [done|].
  split; [exists (map_order m); split; [done|apply map_order_NoDup]|].
  rewrite hash_abs_flat. apply map_order_map.
Qed.

Lemma hash_insert_spec h f x :
  hash_wf h →
  hash_wf (hash_insert h f x).1 ∧ hash_abs (hash_insert h f x).1 = <[f := x]> (hash_abs h) ∧
  (hash_insert h f x).2 = bool_decide (hash_abs h !! f = None).
Proof.
  destruct h as [v|m]; [|done]. intros (ps & -> & Hnd). unfold hash_insert.
  pose proof (compact_find_spec ps f) as Hf. rewrite hash_abs_flat.
  destruct (compact_find _ f) as [i|].
  - destruct Hf as (j & y & -> & Hj & Hy). rewrite (flat_insert_value ps j f y) by done. simpl.
    rewrite pairs_flat, Hy, (list_to_map_update _ _ _ y) by done. split; [|done].
    exists (<[j := (f, x)]> ps). split; [done|]. by rewrite (insert_fst ps j f y).
  - assert (Hflat : flat ps ++ [f; x] = flat (ps ++ [(f, x)])) by by rewrite flat_app.
    rewrite Hflat.
    assert (Hnd' : NoDup (ps ++ [(f, x)]).*1).
    { rewrite fmap_app. apply NoDup_app. split; [done|]. split; [|apply NoDup_singleton].
      intros k Hk Hk'. apply list_elem_of_singleton in Hk'. simpl in Hk'. congruence. }
    assert (Hmap : (list_to_map (ps ++ [(f, x)]) : gmap bytes bytes) = <[f := x]> (list_to_map ps)).
    { rewrite (list_to_map_proper (ps ++ [(f, x)]) ((f, x) :: ps)); [done|done|].
      by rewrite Permutation_app_comm. }
    cbn [fst snd]. rewrite bool_decide_eq_true_2 by by apply not_elem_of_list_to_map.
    case_goal; [rewrite promote_hash_spec by done; by rewrite <- Hmap|].
    split; [by exists (ps ++ [(f, x)])|]. by rewrite hash_abs_flat, Hmap.
Qed.

Lemma swap_remove_map ps j f x :
  NoDup ps.*1 → ps !! j = Some (f, x) →
  NoDup (swap_remove j ps).*1 ∧
  (list_to_map (swap_remove j ps) : gmap bytes bytes) = delete f (list_to_map ps).
Proof.
  intros Hnd Hj. pose proof (swap_remove_perm j ps (f, x) Hj) as Hp.
  rewrite <- Hp in Hnd. simpl in Hnd. pose proof Hnd as [Hf Hnd']%NoDup_cons.
  split; [done|]. rewrite (list_to_map_proper ps ((f, x) :: swap_remove j ps)); [|by rewrite <- Hp|done].
  simpl. rewrite delete_insert_id; [done|]. by apply not_elem_of_list_to_map.
Qed.

(** What is removed is the field's pair; the compact encoding hands back the
    field where the table hands back the value. *)
Lemma hash_remove_spec h f :
  hash_wf h →
  hash_wf (hash_remove h f).1 ∧ hash_abs (hash_remove h f).1 = delete f (hash_abs h) ∧
  (hash_remove h f).2 =
    match h with
    | HCompact _ => (λ _, f) <$> hash_abs h !! f
    | HFull _ => hash_abs h !! f
    end.
Proof.
  destruct h as [v|m].
  - intros (ps & -> & Hnd). unfold hash_remove. rewrite hash_abs_flat.
    pose proof (compact_find_spec ps f) as Hf. destruct (compact_find _ f) as [i|].
    + destruct Hf as (j & x & -> & Hj & Hx). pose proof (flat_swap_remove ps j f x Hj) as Hr.
      cbv zeta in Hr |- *. rewrite (surjective_pairing (vec_pop (vec_swap _ _ _))), Hr. cbn [fst snd].
      destruct (swap_remove_map ps j f x Hnd Hj) as [Hnd' Hm].
      rewrite hash_abs_flat, Hm, Hx. split; [by exists (swap_remove j ps)|done].
    + cbn [fst snd]. rewrite hash_abs_flat. assert (Hn : (list_to_map ps : gmap bytes bytes) !! f = None) by
        by apply not_elem_of_list_to_map.
      rewrite Hn. split; [by exists ps|]. by rewrite delete_id.
  - intros _. unfold hash_remove. cbn [fst snd]. case_goal; [|done].
    destruct (demote_hash_spec (HFull (delete f m))) as [? Ha]; [done|]. by rewrite Ha.
Qed.

Lemma hash_len_spec h : hash_wf h → hash_len h = size (hash_abs h).
Proof.
  destruct h as [v|m]; [|done]. intros (ps & -> & Hnd). rewrite hash_abs_flat. simpl.
  rewrite flat_length, Nat.div_mul by lia. by rewrite map_size_list_to_map.
Qed.

Lemma hash_iter_spec h : hash_wf h →
  hash_iter h ≡ₚ map_to_list (hash_abs h) ∧ hash_keys h = (hash_iter h).*1 ∧
  hash_values h = (hash_iter h).*2.
Proof.
  destruct h as [v|m]; [|intros _; split; [apply map_order_perm|done]].
  intros (ps & -> & Hnd). rewrite hash_abs_flat. simpl.
  rewrite pairs_flat, step_by2_flat, step_by2_flat_values. split; [|done].
  symmetry. by apply map_to_list_to_map.
Qed.

Lemma hash_insert_encoded h f x : hash_wf h → hash_encoded h → hash_encoded (hash_insert h f x).1.
Proof.
  intros Hw. destruct h as [v|m]; simpl.
  - destruct Hw as (ps & -> & Hnd). intros He.
    destruct (compact_find (flat ps) f) as [i|] eqn:Hf; [by simpl; rewrite length_insert|].
    destruct (_ <? length _ / 2) eqn:E; split_bool; cbn [fst]; [|done].
    pose proof (hash_insert_spec (HCompact (flat ps)) f x) as (_ & Ha & _); [by exists ps|].
    unfold hash_insert in Ha. rewrite Hf, (proj2 (Nat.ltb_lt _ _) E) in Ha. cbn [fst] in Ha.
    pose proof (compact_find_spec ps f) as Hn. rewrite Hf in Hn.
    rewrite hash_abs_flat in Ha. simpl in Ha |- *. rewrite Ha.
    rewrite map_size_insert_None by by apply not_elem_of_list_to_map.
    rewrite map_size_list_to_map by done. revert E. rewrite length_app, flat_length. simpl.
    replace (length ps * 2 + 2) with (S (length ps) * 2) by lia. rewrite Nat.div_mul by lia.
    rewrite half_threshold. unfold COMPACT_THRESHOLD. lia.
  - intros He. rewrite map_size_insert. destruct (m !! f); simpl; lia.
Qed.

Lemma hash_remove_encoded h f : hash_wf h → hash_encoded h → hash_encoded (hash_remove h f).1.
Proof.
  intros Hw He. pose proof (hash_remove_spec h f Hw) as (Hw' & Ha & _).
  destruct h as [v|m].
  - pose proof (hash_len_spec _ Hw) as Hl. pose proof (hash_len_spec _ Hw') as Hl'.
    rewrite Ha, map_size_delete in Hl'. assert (Hle : hash_len (hash_remove (HCompact v) f).1 <= hash_len (HCompact v)).
    { rewrite Hl, Hl'. destruct (_ !! _); simpl; lia. }
    revert Hle. unfold hash_remove. destruct (compact_find v f); [|done].
    cbv zeta. do 2 destruct (vec_pop _) as [? ?]. simpl in *. lia.
  - unfold hash_remove in *. cbn [fst] in *. destruct (size (delete f m) <=? _) eqn:E; split_bool; [|done].
    unfold demote_hash in *. rewrite (proj2 (Nat.ltb_ge _ _) E) in *. simpl.
    rewrite flat_length, Nat.div_mul by lia. rewrite (Permutation_length (map_order_perm _)).
    rewrite length_map_to_list. rewrite half_threshold in E. unfold COMPACT_THRESHOLD. lia.
Qed.
End Hashes.

(** ** Sets *)

Lemma sorted_cut (v : list Z) n : StronglySorted Z.lt v → cut_by (λ x, (x ?= n)%Z) v.
Proof.
  induction 1 as [|x v Hv (a & b & Hab & H1 & H2 & H3) Hx]; [by exists 0, 0|].
  rewrite Forall_lookup in Hx. destruct (Z.compare_spec x n) as [->|Hlt|Hgt].
  - exists 0, 1. split; [lia|]. split; [intros; lia|]. split.
    + intros [|i] y Hi ?; simplify_eq/=; [apply Z.compare_refl|lia].
    + intros [|i] y Hi ?; [lia|]. apply Z.compare_gt_iff. by eapply Hx.
  - exists (S a), (S b). split; [lia|]. split; [|split].
    + intros [|i] y Hi ?; simplify_eq/=; [by apply Z.compare_lt_iff|]. eapply H1; [done|lia].
    + intros [|i] y Hi ?; [lia|]. eapply H2; [done|lia].
    + intros [|i] y Hi ?; [lia|]. eapply H3; [done|lia].
  - exists 0, 0. split; [lia|]. split; [intros; lia|]. split; [intros; lia|].
    intros [|i] y Hi _; simplify_eq/=; apply Z.compare_gt_iff; [done|].
    pose proof (Hx _ _ Hi). lia.
Qed.

Lemma int_search_spec (v : list Z) n :
  StronglySorted Z.lt v →
  match int_search v n with
  | inl i => v !! i = Some n
  | inr i => (n ∉ v) ∧ StronglySorted Z.lt (vec_insert i n v) ∧ vec_insert i n v ≡ₚ n :: v
  end.
Proof.
  intros Hv. pose proof (binary_search_by_spec _ _ (sorted_cut v n Hv)) as Hs.
  unfold int_search. destruct (binary_search_by _ v) as [i|i].
  - destruct Hs as (x & Hx & ->%Z.compare_eq_iff). done.
  - destruct Hs as (Hi & Hlo & Hhi). split; [|split].
    + intros [j Hj]%list_elem_of_lookup. destruct (decide (j < i)).
      * pose proof (Hlo _ _ Hj ltac:(lia)) as E. by rewrite Z.compare_refl in E.
      * pose proof (Hhi _ _ Hj ltac:(lia)) as E. by rewrite Z.compare_refl in E.
    + unfold vec_insert. rewrite <- (take_drop i v) in Hv. apply StronglySorted_app in Hv as (Hall & Ht & Hd).
      assert (Hlt : ∀ x, x ∈ take i v → (x < n)%Z).
      { intros x [j [Hj Hji]%lookup_take_Some]%list_elem_of_lookup. apply Z.compare_lt_iff. by eapply Hlo. }
      assert (Hgt : ∀ x, x ∈ drop i v → (n < x)%Z).
      { intros x [j Hj]%list_elem_of_lookup. rewrite lookup_drop in Hj. apply Z.compare_gt_iff.
        eapply Hhi; [done|lia]. }
      apply StronglySorted_app. split; [|split; [done|constructor; [done|by apply Forall_forall]]].
      intros x y Hx Hy. apply elem_of_cons in Hy as [->|Hy]; [auto|by apply Hall].
    + unfold vec_insert. rewrite <- (take_drop i v) at 3. by rewrite Permutation_middle.
Qed.

Lemma StronglySorted_delete {A} (R : A → A → Prop) i (l : list A) :
  StronglySorted R l → StronglySorted R (delete i l).
Proof.
  intros Hs. revert i. induction Hs as [|x l Hl IH Hx]; intros [|i]; simpl; [constructor..|done|].
  constructor; [apply IH|]. by apply Forall_delete.
Qed.

Section Sets.
Context `{HashOrder}.
Implicit Types (s : SetInner) (k : bytes).

Definition set_abs s : gset bytes :=
  match s with
  | SIntegers v => list_to_set (i64_to_string <$> v)
  | SCompact v => list_to_set v
  | SFull g => g
  end.

Definition set_wf s : Prop :=
  match s with
  | SIntegers v => StronglySorted Z.lt v ∧ Forall (λ n, in_i64 n = true) v
  | SCompact v => NoDup v
  | SFull _ => True
  end.

Lemma StronglySorted_NoDup (v : list Z) : StronglySorted Z.lt v → NoDup v.
Proof.
  induction 1 as [|x v Hv IH Hx]; constructor; [|done].
  intros Hin. rewrite Forall_forall in Hx. pose proof (Hx _ Hin). lia.
Qed.

Lemma int_strings_NoDup v :
  StronglySorted Z.lt v → Forall (λ n, in_i64 n = true) v → NoDup (i64_to_string <$> v).
Proof.
  intros Hs%StronglySorted_NoDup Hf. induction Hs as [|x v Hx Hv IH]; [constructor|].
  apply Forall_cons in Hf as [Hxi Hf]. rewrite fmap_cons. constructor; [|by apply IH].
  intros (y & Heq & Hy)%list_elem_of_fmap. rewrite Forall_forall in Hf.
  apply i64_to_string_inj in Heq as ->; [done|done|by apply Hf].
Qed.

Lemma elem_of_int_strings v n k :
  Forall (λ n, in_i64 n = true) v → canonical_i64 k = Some n → k ∈ i64_to_string <$> v ↔ n ∈ v.
Proof.
  intros Hf (Hn & ->)%canonical_i64_Some. split.
  - intros (y & Heq & Hy)%list_elem_of_fmap. rewrite Forall_forall in Hf.
    by apply i64_to_string_inj in Heq as ->; [|done|apply Hf].
  - intros Hin. by apply list_elem_of_fmap_2.
Qed.

Lemma not_canonical_strings v k :
  Forall (λ n, in_i64 n = true) v → canonical_i64 k = None → k ∉ i64_to_string <$> v.
Proof.
  intros Hf Hn (y & -> & Hy)%list_elem_of_fmap. rewrite Forall_forall in Hf.
  assert (canonical_i64 (i64_to_string y) = Some y) by (apply canonical_i64_Some; auto). congruence.
Qed.

Lemma set_contains_spec s k : set_wf s → set_contains s k = bool_decide (k ∈ set_abs s).
Proof.
  destruct s as [v|v|g]; simpl; [intros [Hs Hf]|intros _|done].
  - destruct (canonical_i64 k) as [n|] eqn:Hk.
    + pose proof (int_search_spec v n Hs) as Hi. symmetry.
      destruct (int_search v n) as [i|i].
      * apply bool_decide_eq_true_2. apply elem_of_list_to_set, (elem_of_int_strings v n k Hf Hk).
        by eapply list_elem_of_lookup_2.
      * apply bool_decide_eq_false_2. rewrite elem_of_list_to_set, (elem_of_int_strings v n k Hf Hk).
        by destruct Hi.
    + symmetry. apply bool_decide_eq_false_2. rewrite elem_of_list_to_set. by apply not_canonical_strings.
  - apply eq_bool_prop_intro. rewrite existb_True, bool_decide_spec, elem_of_list_to_set.
    rewrite Exists_exists. split; [|intros; exists k; split; [done|by apply bool_decide_spec]].
    intros (x & Hx & ->%bool_decide_spec). done.
Qed.

Lemma set_insert_spec s k :
  set_wf s →
  set_wf (set_insert s k).1 ∧ set_abs (set_insert s k).1 = {[ k ]} ∪ set_abs s ∧
  (set_insert s k).2 = bool_decide (k ∉ set_abs s).
Proof.
  destruct s as [v|v|g]; simpl.
  - intros [Hs Hf]. destruct (canonical_i64 k) as [n|] eqn:Hk.
    + pose proof (int_search_spec v n Hs) as Hi. pose proof (elem_of_int_strings v n k Hf Hk) as Hin.
      destruct (proj1 (canonical_i64_Some k n) Hk) as [Hn ->].
      destruct (int_search v n) as [i|i]; simpl.
      * apply list_elem_of_lookup_2 in Hi. split; [done|]. rewrite bool_decide_eq_false_2 by set_solver.
        split; [set_solver|done].
      * destruct Hi as (Hnin & Hsort & Hperm). split; [|split].
        -- split; [done|]. rewrite Hperm. by constructor.
        -- rewrite Hperm. set_solver.
        -- rewrite bool_decide_eq_true_2; [done|]. set_solver.
    + simpl. pose proof (not_canonical_strings v k Hf Hk) as Hnin.
      rewrite bool_decide_eq_true_2 by set_solver. split; [|split; [set_solver|done]].
      apply NoDup_app. split; [by apply int_strings_NoDup|]. split; [set_solver|apply NoDup_singleton].
  - intros Hnd. destruct (decide (k ∈ v)) as [Hin|Hnin].
    + rewrite !(bool_decide_eq_true_2 (k ∈ v)) by done. simpl.
      rewrite bool_decide_eq_false_2 by set_solver. split; [done|]. split; [set_solver|done].
    + rewrite !(bool_decide_eq_false_2 (k ∈ v)) by done. rewrite bool_decide_eq_true_2 by set_solver.
      cbn [fst snd]. case_goal; simpl; [split; [done|split; [set_solver|done]]|].
      split; [|split; [set_solver|done]].
      apply NoDup_app. split; [done|]. split; [set_solver|apply NoDup_singleton].
  - done.
Qed.

Lemma position_spec k v :
  match position k v with Some i => v !! i = Some k | None => k ∉ v end.
Proof.
  induction v as [|x v IH]; simpl; [apply not_elem_of_nil|].
  destruct (decide (x = k)) as [->|Hne]; [by rewrite bool_decide_eq_true_2|].
  rewrite bool_decide_eq_false_2 by done. destruct (position k v); simpl; [done|].
  apply not_elem_of_cons. split; [congruence|done].
Qed.

Lemma demote_set_spec s : set_wf s → set_wf (demote_set s) ∧ set_abs (demote_set s) = set_abs s.
Proof.
  destruct s as [v|v|g]; [done|done|]. intros _. unfold demote_set. case_goal; [done|]. simpl.
  rewrite set_order_perm. split; [apply NoDup_elements|apply list_to_set_elements_L].
Qed.

Lemma set_remove_spec s k :
  set_wf s →
  set_wf (set_remove s k).1 ∧ set_abs (set_remove s k).1 = set_abs s ∖ {[ k ]} ∧
  (set_remove s k).2 = bool_decide (k ∈ set_abs s).
Proof.
  destruct s as [v|v|g]; [simpl|simpl|].
  - intros [Hs Hf]. destruct (canonical_i64 k) as [n|] eqn:Hk.
    + pose proof (int_search_spec v n Hs) as Hi. pose proof (elem_of_int_strings v n k Hf Hk) as Hin.
      destruct (proj1 (canonical_i64_Some k n) Hk) as [Hn ->].
      pose proof (int_strings_NoDup v Hs Hf) as Hnd.
      destruct (int_search v n) as [i|i]; simpl.
      * pose proof (delete_Permutation v i n Hi) as Hp. apply list_elem_of_lookup_2 in Hi.
        rewrite bool_decide_eq_true_2 by set_solver. split; [|split; [|done]].
        -- split; [by apply StronglySorted_delete|]. rewrite Hp in Hf. by apply Forall_cons in Hf as [_ ?].
        -- pose proof (fmap_Permutation i64_to_string _ _ Hp) as Hq. rewrite Hq in Hnd.
           apply (list_to_set_perm_L (C := gset bytes)) in Hq. rewrite Hq. rewrite fmap_cons in Hnd |- *.
           apply NoDup_cons in Hnd as [? _]. set_solver.
      * destruct Hi as (Hnin & _). rewrite bool_decide_eq_false_2 by set_solver. split; [done|]. split; [set_solver|done].
    + simpl. pose proof (not_canonical_strings v k Hf Hk) as Hnin.
      rewrite bool_decide_eq_false_2 by set_solver. split; [done|]. split; [set_solver|done].
  - intros Hnd. pose proof (position_spec k v) as Hp. destruct (position k v) as [i|]; simpl.
    + pose proof (swap_remove_perm i v k Hp) as Hs. rewrite <- Hs in Hnd.
      apply (list_to_set_perm_L (C := gset bytes)) in Hs. rewrite <- Hs.
      apply NoDup_cons in Hnd as [Hk Hnd]. rewrite bool_decide_eq_true_2 by set_solver.
      split; [done|]. split; [set_solver|done].
    + rewrite bool_decide_eq_false_2 by set_solver. split; [done|]. split; [set_solver|done].
  - intros _. destruct (demote_set_spec (SFull (g ∖ {[ k ]})) I) as [? Ha].
    unfold set_remove. cbn [fst snd]. case_goal; [|done]. by rewrite Ha.
Qed.

Lemma set_strings_spec s : set_wf s → set_strings s ≡ₚ elements (set_abs s).
Proof.
  unfold set_strings. destruct s as [v|v|g]; simpl; rewrite <- list_fmap_compose.
  - intros [Hs Hf]. rewrite elements_list_to_set by by apply int_strings_NoDup.
    by apply Permutation_refl'.
  - intros Hnd. rewrite elements_list_to_set by done. by rewrite list_fmap_id.
  - intros _. rewrite set_order_perm. by rewrite list_fmap_id.
Qed.

Lemma set_len_spec s : set_wf s → set_len s = size (set_abs s).
Proof.
  intros Hw. pose proof (set_strings_spec s Hw) as Hp. apply Permutation_length in Hp.
  change (length (elements (set_abs s))) with (size (set_abs s)) in Hp. rewrite <- Hp.
  unfold set_strings. rewrite length_fmap. destruct s; simpl; rewrite length_fmap; try done.
  by rewrite (Permutation_length (set_order_perm _)).
Qed.

Lemma set_from_strings_spec vs :
  set_wf (set_from_strings vs) ∧ set_abs (set_from_strings vs) = list_to_set vs.
Proof.
  assert (Hg : ∀ s, set_wf s → set_wf (foldl (λ s v, (set_insert s v).1) s vs) ∧
    set_abs (foldl (λ s v, (set_insert s v).1) s vs) = list_to_set vs ∪ set_abs s).
  { induction vs as [|v vs IH]; intros s Hs; simpl; [split; [done|set_solver]|].
    destruct (set_insert_spec s v Hs) as (Hw & Ha & _). destruct (IH _ Hw) as [? ->].
    split; [done|]. rewrite Ha. set_solver. }
  destruct (Hg SetInner_new) as [? Ha]; [split; constructor|]. split; [done|].
  unfold set_from_strings. rewrite Ha. simpl. set_solver.
Qed.
End Sets.

(** ** Lists *)

(** Promotion and demotion do not change the sequence. *)
Lemma list_ops_spec (l : ListInner) x :
  deque (list_push_front l x) = x :: deque l ∧
  deque (list_push_back l x) = deque l ++ [x] ∧
  deque (list_pop_front l).1 = drop 1 (deque l) ∧ (list_pop_front l).2 = head (deque l) ∧
  deque (list_pop_back l).1 = take (length (deque l) - 1) (deque l) ∧
  (list_pop_back l).2 = last (deque l) ∧ list_len l = length (deque l).
Proof.
  destruct l as [v|v]; unfold list_push_front, list_push_back, list_pop_front, list_pop_back, demote_list;
    cbn [vec_pop fst snd]; repeat case_goal; repeat split; done.
Qed.

(** ** Runs *)

Section CollectionRuns.
Context `{HashOrder}.

Inductive HashOp :=
| HOpInsert (field value : bytes)
| HOpRemove (field : bytes)
| HOpGet (field : bytes)
| HOpContains (field : bytes)
| HOpLen.

Inductive CollRes :=
| CBool (b : bool)
| CVal (o : option bytes)
| CNat (n : nat).

(** A call on the encoded hash. *)
Definition hash_step (o : HashOp) (h : HashInner) : HashInner * CollRes :=
  match o with
  | HOpInsert f x => let '(h', b) := hash_insert h f x in (h', CBool b)
  | HOpRemove f => let '(h', r) := hash_remove h f in (h', CVal r)
  | HOpGet f => (h, CVal (hash_get h f))
  | HOpContains f => (h, CBool (hash_contains_key h f))
  | HOpLen => (h, CNat (hash_len h))
  end.

(** A finite map that also knows whether it is [small]: it stops being so above
    64 fields, and is so again at 32.  A small one answers a removal with the
    field it removed, a large one with its value. *)
Definition hash_spec_step (o : HashOp) (s : bool * gmap bytes bytes) : (bool * gmap bytes bytes) * CollRes :=
  let '(small, g) := s in
  match o with
  | HOpInsert f x => let g' := <[f := x]> g in ((small && (size g' <=? 64)%nat, g'), CBool (bool_decide (g !! f = None)))
  | HOpRemove f =>
      let g' := delete f g in
      ((small || (size g' <=? 32)%nat, g'), CVal (if small then (λ _, f) <$> g !! f else g !! f))
  | HOpGet f => (s, CVal (g !! f))
  | HOpContains f => (s, CBool (bool_decide (is_Some (g !! f))))
  | HOpLen => (s, CNat (size g))
  end.

Definition is_compact (h : HashInner) : bool := match h with HCompact _ => true | HFull _ => false end.
Definition hash_view (h : HashInner) : bool * gmap bytes bytes := (is_compact h, hash_abs h).

Inductive SetOp :=
| SOpInsert (m : bytes)
| SOpRemove (m : bytes)
| SOpContains (m : bytes)
| SOpLen.

Definition set_step (o : SetOp) (s : SetInner) : SetInner * CollRes :=
  match o with
  | SOpInsert m => let '(s', b) := set_insert s m in (s', CBool b)
  | SOpRemove m => let '(s', b) := set_remove s m in (s', CBool b)
  | SOpContains m => (s, CBool (set_contains s m))
  | SOpLen => (s, CNat (set_len s))
  end.

Definition set_spec_step (o : SetOp) (g : gset bytes) : gset bytes * CollRes :=
  match o with
  | SOpInsert m => ({[ m ]} ∪ g, CBool (bool_decide (m ∉ g)))
  | SOpRemove m => (g ∖ {[ m ]}, CBool (bool_decide (m ∈ g)))
  | SOpContains m => (g, CBool (bool_decide (m ∈ g)))
  | SOpLen => (g, CNat (size g))
  end.

Fixpoint coll_run {O S} (step : O → S → S * CollRes) (ops : list O) (s : S) : S * list CollRes :=
  match ops with
  | [] => (s, [])
  | o :: ops' =>
      let '(s', r) := step o s in
      let '(s'', rs) := coll_run step ops' s' in (s'', r :: rs)
  end.

(** A step that refines a specification step, repeated. *)
Lemma coll_run_refines {O S G} (step : O → S → S * CollRes) (spec : O → G → G * CollRes)
    (wf : S → Prop) (ab : S → G) ops s :
  (∀ o s, wf s → wf (step o s).1 ∧ (ab (step o s).1, (step o s).2) = spec o (ab s)) →
  wf s →
  wf (coll_run step ops s).1 ∧
  (ab (coll_run step ops s).1, (coll_run step ops s).2) = coll_run spec ops (ab s).
Proof.
  intros Hstep. revert s. induction ops as [|o ops IH]; intros s Hs; [done|]. cbn [coll_run].
  destruct (Hstep o s Hs) as [Hw Heq]. destruct (step o s) as [s' r]. simpl in *.
  rewrite <- Heq. destruct (IH s' Hw) as [Hw' Heq']. destruct (coll_run step ops s') as [s'' rs].
  simpl in *. by rewrite <- Heq'.
Qed.

Lemma hash_insert_compact h f x :
  hash_wf h → hash_encoded h →
  is_compact (hash_insert h f x).1 = is_compact h && (size (<[f := x]> (hash_abs h)) <=? 64)%nat.
Proof.
  intros Hw He. pose proof (hash_insert_spec h f x Hw) as (Hw' & Ha & Hb).
  pose proof (hash_len_spec _ Hw) as Hl. pose proof (hash_len_spec _ Hw') as Hl'. rewrite Ha in Hl'. rewrite <- Hl'.
  pose proof (hash_insert_encoded h f x Hw He) as He'. destruct h as [v|m]; [|done].
  destruct (hash_insert (HCompact v) f x).1 as [v'|m'] eqn:E; simpl is_compact.
  - symmetry. apply Nat.leb_le. exact He'.
  - symmetry. apply Nat.leb_gt. rewrite Hl'. unfold hash_insert in E, Hb. destruct (compact_find v f); [done|].
    symmetry in Hb. apply bool_decide_eq_true in Hb.
    destruct (COMPACT_THRESHOLD <? length (v ++ [f; x]) / 2) eqn:Et; [|done]. split_bool.
    injection E as E. change (hash_len (HCompact v) = size (hash_abs (HCompact v))) in Hl.
    rewrite map_size_insert_None, <- Hl by done.
    change (hash_len (HCompact v)) with (length v / 2).
    rewrite length_app in Et. simpl in Et. replace (length v + 2) with (length v + 1 * 2) in Et by lia.
    rewrite Nat.div_add in Et by lia. unfold COMPACT_THRESHOLD in *. lia.
Qed.

Lemma hash_remove_compact h f :
  hash_wf h → hash_encoded h →
  is_compact (hash_remove h f).1 = is_compact h || (size (delete f (hash_abs h)) <=? 32)%nat.
Proof.
  intros Hw He. destruct h as [v|m].
  - unfold hash_remove. destruct (compact_find v f); [|done]. cbv zeta. by do 2 destruct (vec_pop _) as [? ?].
  - unfold hash_remove. cbn [fst is_compact orb]. rewrite half_threshold. change (hash_abs (HFull m)) with m.
    destruct (size (delete f m) <=? 32) eqn:E; [|done]. split_bool.
    unfold demote_hash. rewrite half_threshold. by rewrite (proj2 (Nat.ltb_ge _ _)).
Qed.

Lemma hash_step_refines o h :
  hash_wf h ∧ hash_encoded h →
  (hash_wf (hash_step o h).1 ∧ hash_encoded (hash_step o h).1) ∧
  (hash_view (hash_step o h).1, (hash_step o h).2) = hash_spec_step o (hash_view h).
Proof.
  intros [Hw He]. destruct o as [f x|f|f|f|]; simpl.
  - destruct (hash_insert_spec h f x Hw) as (? & Ha & Hb). pose proof (hash_insert_encoded h f x Hw He).
    pose proof (hash_insert_compact h f x Hw He) as Hc. unfold hash_view.
    destruct (hash_insert h f x). simpl in *. by rewrite Ha, Hb, Hc.
  - destruct (hash_remove_spec h f Hw) as (? & Ha & Hb). pose proof (hash_remove_encoded h f Hw He).
    pose proof (hash_remove_compact h f Hw He) as Hc. unfold hash_view.
    destruct (hash_remove h f) as [h' r]. simpl in *. rewrite Ha, Hb, Hc. split; [done|]. by destruct h.
  - by rewrite hash_get_spec.
  - unfold hash_contains_key. by rewrite hash_get_spec.
  - by rewrite hash_len_spec.
Qed.

Lemma set_step_refines o s :
  set_wf s →
  set_wf (set_step o s).1 ∧ (set_abs (set_step o s).1, (set_step o s).2) = set_spec_step o (set_abs s).
Proof.
  intros Hw. destruct o as [m|m|m|]; simpl.
  - destruct (set_insert_spec s m Hw) as (? & Ha & Hb). destruct (set_insert s m). simpl in *. by rewrite Ha, Hb.
  - destruct (set_remove_spec s m Hw) as (? & Ha & Hb). destruct (set_remove s m). simpl in *. by rewrite Ha, Hb.
  - by rewrite set_contains_spec.
  - by rewrite set_len_spec.
Qed.

(** ** Properties *)

(** C35: A hash is a finite map, through every change of encoding.  Any
    sequence of insertions, removals and reads on a new hash answers as a
    finite map does, whatever the iteration order of the hash table, but for
    what a removal returns: the compact encoding hands back the name of the
    field it removed instead of its value.  The encoding is the one the
    thresholds say (a vector until there are more than 64 fields, again a
    vector once a removal leaves at most 32), and the iteration lists the map. *)
Theorem hash_run_refines (ops : list HashOp) :
  let '(h, rs) := coll_run hash_step ops HashInner_new in
  coll_run hash_spec_step ops (true, ∅) = (hash_view h, rs) ∧
  hash_iter h ≡ₚ map_to_list (hash_abs h) ∧ hash_encoded h.
Proof.
  destruct (coll_run_refines hash_step hash_spec_step (λ h, hash_wf h ∧ hash_encoded h) hash_view ops
    HashInner_new hash_step_refines) as [[Hw He] Heq].
  { split; [apply hash_new_wf|apply Nat.leb_le; reflexivity]. }
  destruct (coll_run hash_step ops HashInner_new) as [h rs]. simpl in *.
  split; [done|]. split; [by apply hash_iter_spec|done].
Qed.

(** C36: A set is a finite set, through its three encodings.  Any sequence of
    insertions, removals and membership tests on a new set answers as a finite
    set does: integers kept as numbers, and their strings, never get confused. *)
Theorem set_run_refines (ops : list SetOp) :
  let '(s, rs) := coll_run set_step ops SetInner_new in
  coll_run set_spec_step ops ∅ = (set_abs s, rs) ∧ set_strings s ≡ₚ elements (set_abs s).
Proof.
  destruct (coll_run_refines set_step set_spec_step set_wf set_abs ops
    SetInner_new set_step_refines) as [Hw Heq]; [by repeat constructor|].
  destruct (coll_run set_step ops SetInner_new) as [s rs]. simpl in *.
  split; [done|]. by apply set_strings_spec.
Qed.

(** Removal from a compact hash hands back the field's name, not its
    value, where the same removal from a table hands back the value. *)
Theorem hash_remove_returns_field (f x : bytes) (m : gmap bytes bytes) :
  (hash_remove (hash_insert HashInner_new f x).1 f).2 = Some f ∧
  (hash_remove (HFull (<[f := x]> m)) f).2 = Some x.
Proof.
  split; [|simpl; by rewrite lookup_insert_eq].
  destruct (hash_insert_spec HashInner_new f x) as (Hw & Ha & _); [apply hash_new_wf|].
  destruct (hash_remove_spec _ f Hw) as (_ & _ & ->). rewrite Ha, lookup_insert_eq. done.
Qed.
End CollectionRuns.
