(* ===== verification/Float.v ===== *)
(** IEEE 754 binary64, as the sorted sets use it: the Standard Library's
    [spec_float] with 53 bits of precision and exponents below 1024.  The
    comparison is total on numbers that are not NaN, which is shown by mapping
    them to triples of integers in lexicographic order.

    Then floats as text: [format_float] of utils/util.rs, which prints 17
    decimals and trims them, and [str::parse::<f64>] of the Rust standard
    library. *)

From Stdlib Require Import Floats.SpecFloat.
From S2P Require Import Prelude Decimal.
Local Open Scope Z_scope.

Definition f64 : Type := spec_float.

Definition f64_lt (a b : f64) : bool := SFltb a b.
Definition f64_le (a b : f64) : bool := SFleb a b.
Definition f64_eq (a b : f64) : bool := SFeqb a b.
Definition f64_add (a b : f64) : f64 := SFadd 53 1024 a b.
Definition f64_sub (a b : f64) : f64 := SFsub 53 1024 a b.
Definition f64_mul (a b : f64) : f64 := SFmul 53 1024 a b.
Definition f64_div (a b : f64) : f64 := SFdiv 53 1024 a b.
Definition f64_abs (a : f64) : f64 := SFabs a.
(** [f64::min] and [f64::max]: a NaN operand gives the other one; which of two
    equal zeros is returned is not specified, here the first. *)
Definition f64_min (a b : f64) : f64 :=
  match a, b with
  | S754_nan, _ => b
  | _, S754_nan => a
  | _, _ => if f64_lt b a then b else a
  end.
Definition f64_max (a b : f64) : f64 :=
  match a, b with
  | S754_nan, _ => b
  | _, S754_nan => a
  | _, _ => if f64_lt a b then b else a
  end.
Definition is_nan (a : f64) : bool := match a with S754_nan => true | _ => false end.

Definition INFINITY : f64 := S754_infinity false.
Definition NEG_INFINITY : f64 := S754_infinity true.
(** [f64::EPSILON], [2^-52]. *)
Definition EPSILON : f64 := S754_finite false 4503599627370496 (-104).

(** The float nearest to an integer. *)
Definition f64_of_Z (n : Z) : f64 := binary_normalize 53 1024 n 0 false.

Example epsilon_is_ulp : f64_sub (f64_add (f64_of_Z 1) EPSILON) (f64_of_Z 1) = EPSILON.
Proof. reflexivity. Qed.

#[global] Instance f64_eq_dec : EqDecision f64.
Proof. solve_decision. Defined.

(** ** The order *)

(** The triple of a number: sign class, exponent, mantissa. *)
Definition f64_key (a : f64) : Z * Z * Z :=
  match a with
  | S754_nan => (3, 0, 0)
  | S754_infinity true => (-2, 0, 0)
  | S754_infinity false => (2, 0, 0)
  | S754_zero _ => (0, 0, 0)
  | S754_finite true m e => (-1, - e, - Zpos m)
  | S754_finite false m e => (1, e, Zpos m)
  end.

Definition key_cmp (a b : Z * Z * Z) : comparison :=
  match a.1.1 ?= b.1.1 with
  | Eq => match a.1.2 ?= b.1.2 with Eq => a.2 ?= b.2 | c => c end
  | c => c
  end.

Lemma key_cmp_eq a b : key_cmp a b = Eq ↔ a = b.
Proof.
  destruct a as [[a1 a2] a3], b as [[b1 b2] b3]. unfold key_cmp. simpl.
  repeat match goal with |- context [?x ?= ?y] => destruct (Z.compare_spec x y) end;
    split; intros E; simplify_eq; try lia; try done.
Qed.

Lemma key_cmp_antisym a b : key_cmp b a = CompOpp (key_cmp a b).
Proof.
  destruct a as [[a1 a2] a3], b as [[b1 b2] b3]. unfold key_cmp. simpl.
  rewrite (Z.compare_antisym a1), (Z.compare_antisym a2), (Z.compare_antisym a3).
  destruct (a1 ?= b1), (a2 ?= b2); done.
Qed.

Lemma key_cmp_lt a b :
  key_cmp a b = Lt ↔ a.1.1 < b.1.1 ∨ (a.1.1 = b.1.1 ∧ (a.1.2 < b.1.2 ∨ (a.1.2 = b.1.2 ∧ a.2 < b.2))).
Proof.
  destruct a as [[a1 a2] a3], b as [[b1 b2] b3]. unfold key_cmp. simpl.
  repeat match goal with |- context [?x ?= ?y] => destruct (Z.compare_spec x y) end;
    split; try done; lia.
Qed.

Lemma key_cmp_trans a b c : key_cmp a b = Lt → key_cmp b c = Lt → key_cmp a c = Lt.
Proof. rewrite !key_cmp_lt. lia. Qed.

Lemma f64_compare_key a b :
  is_nan a = false → is_nan b = false → SFcompare a b = Some (key_cmp (f64_key a) (f64_key b)).
Proof.
  assert (Hpos : ∀ m m' : positive, Pos.compare_cont Eq m m' = (Zpos m ?= Zpos m')) by done.
  destruct a as [[]|[]| |[] m e], b as [[]|[]| |[] m' e']; intros Ha Hb; try done;
    unfold key_cmp; simpl; rewrite ?Hpos.
  - replace (- e ?= - e') with (CompOpp (e ?= e')) by (rewrite <- Z.compare_antisym; symmetry; apply Z.compare_opp).
    by destruct (e ?= e').
Qed.

(** A number, as opposed to NaN. *)
Definition num (a : f64) : Prop := is_nan a = false.

Lemma f64_lt_key a b : num a → num b → f64_lt a b = true ↔ key_cmp (f64_key a) (f64_key b) = Lt.
Proof.
  intros Ha Hb. unfold f64_lt, SFltb. rewrite f64_compare_key by done.
  by destruct (key_cmp _ _).
Qed.

Lemma f64_eq_key a b : num a → num b → f64_eq a b = true ↔ f64_key a = f64_key b.
Proof.
  intros Ha Hb. unfold f64_eq, SFeqb. rewrite f64_compare_key, <- key_cmp_eq by done.
  by destruct (key_cmp _ _).
Qed.

Lemma f64_le_key a b : num a → num b → f64_le a b = negb (f64_lt b a).
Proof.
  intros Ha Hb. unfold f64_le, f64_lt, SFltb, SFleb. rewrite !f64_compare_key by done.
  rewrite key_cmp_antisym. by destruct (key_cmp (f64_key b) _).
Qed.


(** ** Printing *)

(** [n / d] rounded to the nearest integer, ties to even. *)
Definition div_half_even (n d : Z) : Z :=
  let q := n / d in
  let r := n mod d in
  if (2 * r <? d) || ((2 * r =? d) && Z.even q) then q else q + 1.

(** The last [k] decimal digits of a number, with leading zeros. *)
Fixpoint pad_digits (k : nat) (n : Z) : bytes :=
  match k with
  | O => []
  | S k' => pad_digits k' (n / 10) ++ [digit (n mod 10)]
  end.

(** [n * 10^-17] with 17 decimals. *)
Definition fixed17 (n : Z) : bytes :=
  u64_to_string (n / 10 ^ 17) ++ B "." ++ pad_digits 17 (n mod 10 ^ 17).

Definition sign_text (s : bool) : bytes := if s then B "-" else [].

(** [format!("{:.17}", f)]: the exact value rounded to 17 decimals, ties to even. *)
Definition display17 (f : f64) : bytes :=
  match f with
  | S754_nan => B "NaN"
  | S754_infinity s => sign_text s ++ B "inf"
  | S754_zero s => sign_text s ++ fixed17 0
  | S754_finite s m e =>
      let n := if 0 <=? e then Zpos m * 2 ^ e * 10 ^ 17 else div_half_even (Zpos m * 10 ^ 17) (2 ^ (- e)) in
      sign_text s ++ fixed17 n
  end.

(** [s.trim_end_matches(b)] *)
Fixpoint trim_end_rev (b : byte) (r : bytes) : bytes :=
  match r with
  | x :: r' => if bool_decide (x = b) then trim_end_rev b r' else r
  | [] => []
  end.
Definition trim_end_matches (b : byte) (s : bytes) : bytes := rev (trim_end_rev b (rev s)).

Definition format_float (f : f64) : bytes :=
  trim_end_matches (z2b 46) (trim_end_matches (z2b 48) (display17 f)).

(** ** Parsing *)

(** [n * 10^e] as the nearest float, ties to even. *)
Definition f64_of_decimal (s : bool) (n e : Z) : f64 :=
  match n with
  | Zpos p =>
      if 0 <=? e then binary_normalize 53 1024 (if s then Zneg (p * Z.to_pos (10 ^ e)) else Zpos (p * Z.to_pos (10 ^ e))) 0 s
      else
        let '(q, e', l) := SFdiv_core_binary 53 1024 (Zpos p) 0 (10 ^ (- e)) 0 in
        binary_round_aux 53 1024 s q e' l
  | _ => S754_zero s
  end.

(** A run of digits: how many, their value, what follows. *)
Fixpoint take_digits (s : bytes) (n v : Z) : Z * Z * bytes :=
  match s with
  | x :: s' => if is_ascii_digit x then take_digits s' (n + 1) (v * 10 + digit_val x) else (n, v, s)
  | [] => (n, v, [])
  end.

(** The exponent part: [e] or [E], an optional sign and at least one digit. *)
Definition parse_exponent (s : bytes) : option Z :=
  match s with
  | [] => Some 0
  | x :: s' =>
      if bool_decide (x = z2b 101) || bool_decide (x = z2b 69) then
        let '(neg, s'') := match s' with
          | y :: t => if bool_decide (y = z2b 45) then (true, t) else if bool_decide (y = z2b 43) then (false, t) else (false, s')
          | [] => (false, [])
          end in
        let '(n, v, rest) := take_digits s'' 0 0 in
        if (n =? 0) || negb (bool_decide (rest = [])) then None else Some (if neg : bool then - v else v)
      else None
  end.

(** The unsigned number: digits, optionally a point and digits, then the exponent. *)
Definition parse_decimal (neg : bool) (s : bytes) : option f64 :=
  let '(n1, v1, rest) := take_digits s 0 0 in
  let '(n2, v2, rest) := match rest with
    | x :: t => if bool_decide (x = z2b 46) then take_digits t 0 v1 else (0, v1, rest)
    | [] => (0, v1, [])
    end in
  if n1 + n2 =? 0 then None
  else e ← parse_exponent rest; Some (f64_of_decimal neg v2 (e - n2)).

Definition ascii_lower (s : bytes) : list Z :=
  (λ x, if (65 <=? b2z x) && (b2z x <=? 90) then b2z x + 32 else b2z x) <$> s.

(** [s.parse::<f64>()] *)
Definition parse_f64 (s : bytes) : option f64 :=
  let '(neg, t) := match s with
    | x :: t => if bool_decide (x = z2b 45) then (true, t) else if bool_decide (x = z2b 43) then (false, t) else (false, s)
    | [] => (false, [])
    end in
  let lower := ascii_lower t in
  if bool_decide (lower = ascii_lower (B "inf")) || bool_decide (lower = ascii_lower (B "infinity"))
  then Some (S754_infinity neg)
  else if bool_decide (lower = ascii_lower (B "nan")) then Some S754_nan
  else parse_decimal neg t.

Example format_examples :
  format_float (f64_of_Z 42) = B "42" ∧ format_float (f64_of_Z (-100)) = B "-100" ∧
  (format_float <$> parse_f64 (B "0.1")) = Some (B "0.10000000000000001") ∧
  (format_float <$> parse_f64 (B "3.25e2")) = Some (B "325") ∧
  (format_float <$> parse_f64 (B "1e-18")) = Some (B "0") ∧
  (format_float <$> parse_f64 (B "-.5")) = Some (B "-0.5") ∧
  (format_float <$> parse_f64 (B "1e400")) = Some (B "inf") ∧
  parse_f64 (B "1.2.3") = None ∧ parse_f64 (B ".") = None ∧ parse_f64 (B "1e") = None ∧ parse_f64 [] = None.
Proof. vm_compute. done. Qed.
