(* ===== verification/ZSet.v ===== *)
(** Sorted sets: storage/value/zset_data.rs.

    The entries are one vector ordered by score, then member; a two-hash Bloom
    filter over the members lets an insertion skip the scan for an existing
    entry.  A slice [entries[a..b]] with [a > b] is a panic, [None]. *)

From S2P Require Import Prelude Float Collections.
Local Open Scope Z_scope.

Record ZEntry := mkZEntry { score : f64; member : bytes }.

#[global] Instance ZEntry_eq_dec : EqDecision ZEntry.
Proof. solve_decision. Defined.

Record ZSetData := mkZSet { entries : list ZEntry; bloom : list Z }.

(** FNV-1a over the bytes of the member. *)
Definition member_hash (m : bytes) : Z :=
  foldl (λ h b, wrap64 (Z.lxor h (b2z b) * 0x100000001b3)) 0xcbf29ce484222325 m.

Definition ZSetData_new : ZSetData := mkZSet [] [0].

(** The words of a filter for [n] members. *)
Definition bloom_words (n : nat) : Z :=
  Z.max (Z.max (next_power_of_two (saturating_mul (Z.of_nat n) 8)) 64 / 64) 1.

Definition ZSetData_with_capacity (cap : nat) : ZSetData :=
  mkZSet [] (replicate (Z.to_nat (bloom_words cap)) 0).

Definition zset_len (z : ZSetData) : nat := length (entries z).

(** ** The filter *)

(** The two bit positions of a hash: [h & (bits - 1)] and
    [h.rotate_left(31) & (bits - 1)]. *)
Definition bloom_positions (nwords : nat) (h : Z) : Z * Z :=
  let bits := Z.of_nat nwords * 64 in
  (Z.land h (bits - 1), Z.land (rotate_left h 31) (bits - 1)).

(** [(bloom[p / 64] & (1 << (p % 64))) != 0] *)
Definition bit_at (bl : list Z) (p : Z) : bool :=
  match bl !! Z.to_nat (p / 64) with
  | Some w => negb (Z.land w (Z.shiftl 1 (p mod 64)) =? 0)
  | None => false
  end.

(** [bloom[p / 64] |= 1 << (p % 64)] *)
Definition set_bit_at (bl : list Z) (p : Z) : list Z :=
  match bl !! Z.to_nat (p / 64) with
  | Some w => <[Z.to_nat (p / 64) := Z.lor w (Z.shiftl 1 (p mod 64))]> bl
  | None => bl
  end.

Definition bloom_maybe_contains (bl : list Z) (h : Z) : bool :=
  let '(a, b) := bloom_positions (length bl) h in bit_at bl a && bit_at bl b.

Definition bloom_set (bl : list Z) (h : Z) : list Z :=
  let '(a, b) := bloom_positions (length bl) h in set_bit_at (set_bit_at bl a) b.

Definition bloom_rebuild (z : ZSetData) : ZSetData :=
  let words := bloom_words (length (entries z)) in
  mkZSet (entries z)
    (foldl (λ bl e, bloom_set bl (member_hash (member e)))
       (replicate (Z.to_nat words) 0) (entries z)).

Definition bloom_grow_if_needed (z : ZSetData) : ZSetData :=
  if Z.of_nat (length (bloom z)) * 64 <? saturating_mul (Z.of_nat (length (entries z))) 8
  then bloom_rebuild z else z.

(** ** Operations *)

(** [e.score < score || (e.score == score && e.member < member)] *)
Definition before (sc : f64) (m : bytes) (e : ZEntry) : bool :=
  f64_lt (score e) sc || (f64_eq (score e) sc && str_lt (member e) m).

Definition find_insert_pos (es : list ZEntry) (sc : f64) (m : bytes) : nat :=
  partition_point (before sc m) es.

Definition with_entries (z : ZSetData) (es : list ZEntry) : ZSetData := mkZSet es (bloom z).

(** Put an entry at the place of its score and member. *)
Definition place_entry (es : list ZEntry) (sc : f64) (m : bytes) : list ZEntry :=
  vec_insert (find_insert_pos es sc m) (mkZEntry sc m) es.

(** [entries.iter().position(|e| e.member == member)] *)
Fixpoint zposition (m : bytes) (es : list ZEntry) : option nat :=
  match es with
  | [] => None
  | e :: es' => if bool_decide (member e = m) then Some 0%nat else S <$> zposition m es'
  end.

(** [(old - score).abs() > f64::EPSILON] *)
Definition score_moved (old new : f64) : bool := f64_lt EPSILON (f64_abs (f64_sub old new)).

(** [entries.last().is_none_or(..)]: the new entry goes at the end. *)
Definition fits_last (es : list ZEntry) (sc : f64) (m : bytes) : bool :=
  match last es with
  | None => true
  | Some l => f64_lt (score l) sc || (f64_eq (score l) sc && str_le (member l) m)
  end.

(** The last part of [insert], for a member that is not in the set. *)
Definition insert_fresh (z : ZSetData) (sc : f64) (m : bytes) : ZSetData :=
  let es :=
    if fits_last (entries z) sc m then entries z ++ [mkZEntry sc m]
    else place_entry (entries z) sc m in
  bloom_grow_if_needed (mkZSet es (bloom_set (bloom z) (member_hash m))).

Definition zset_insert (z : ZSetData) (sc : f64) (m : bytes) : ZSetData * bool :=
  if bloom_maybe_contains (bloom z) (member_hash m) then
    match last (entries z) with
    | Some l =>
        if bool_decide (member l = m) then
          (if score_moved (score l) sc
           then with_entries z (place_entry (vec_pop (entries z)).1 sc m) else z, false)
        else
          match zposition m (entries z) with
          | Some pos =>
              (match entries z !! pos with
               | Some e =>
                   if score_moved (score e) sc
                   then with_entries z (place_entry (delete pos (entries z)) sc m) else z
               | None => z
               end, false)
          | None => (insert_fresh z sc m, true)
          end
    | None => (insert_fresh z sc m, true)
    end
  else (insert_fresh z sc m, true).

Definition zset_remove (z : ZSetData) (m : bytes) : ZSetData * option f64 :=
  match zposition m (entries z) with
  | Some pos => (with_entries z (delete pos (entries z)), score <$> entries z !! pos)
  | None => (z, None)
  end.

Definition get_score (z : ZSetData) (m : bytes) : option f64 :=
  score <$> List.find (λ e, bool_decide (member e = m)) (entries z).

Definition rank (z : ZSetData) (m : bytes) : option nat := zposition m (entries z).

Definition rev_rank (z : ZSetData) (m : bytes) : option nat :=
  (λ r, length (entries z) - 1 - r)%nat <$> rank z m.

Definition range_by_rank (z : ZSetData) (start stop : nat) : list ZEntry :=
  let stop := Nat.min stop (length (entries z)) in
  if (stop <=? start)%nat then [] else take (stop - start) (drop start (entries z)).

(** [&entries[start..end]]: [None] is the panic of a slice that ends before it
    starts. *)
Definition entry_slice (es : list ZEntry) (a b : nat) : option (list ZEntry) :=
  if (a <=? b)%nat && (b <=? length es)%nat then Some (take (b - a) (drop a es)) else None.

Definition score_start (z : ZSetData) (mn : f64) : nat :=
  partition_point (λ e, f64_lt (score e) mn) (entries z).
Definition score_end (z : ZSetData) (mx : f64) : nat :=
  partition_point (λ e, f64_le (score e) mx) (entries z).

Definition range_by_score (z : ZSetData) (mn mx : f64) : option (list ZEntry) :=
  entry_slice (entries z) (score_start z mn) (score_end z mx).

Definition rev_range_by_score (z : ZSetData) (mn mx : f64) : option (list ZEntry) :=
  reverse <$> entry_slice (entries z) (score_start z mn) (score_end z mx).

(** [end - start] on [usize], with the wrap of a release build. *)
Definition count_in_score_range (z : ZSetData) (mn mx : f64) : Z :=
  wrap64 (Z.of_nat (score_end z mx) - Z.of_nat (score_start z mn)).

Definition pop_min (z : ZSetData) : ZSetData * option ZEntry :=
  match entries z with
  | [] => (z, None)
  | e :: es => (with_entries z es, Some e)
  end.

Definition pop_max (z : ZSetData) : ZSetData * option ZEntry :=
  match vec_pop (entries z) with
  | (es, Some e) => (with_entries z es, Some e)
  | (_, None) => (z, None)
  end.

Definition zset_contains (z : ZSetData) (m : bytes) : bool :=
  existsb (λ e, bool_decide (member e = m)) (entries z).

(** ** Random members *)

(** The seed depends on the number of entries only. *)
Definition random_seed (len : nat) : Z := wrap64 (wrap64 (Z.of_nat len * 6364136223846793005) + 1).

(** One step of the xorshift generator. *)
Definition random_next (rng : Z) : Z :=
  let rng := Z.lxor rng (wrap64 (Z.shiftl rng 13)) in
  let rng := Z.lxor rng (Z.shiftr rng 7) in
  Z.lxor rng (wrap64 (Z.shiftl rng 17)).

(** The index drawn from a state, [rng % entries.len()], and its entry. *)
Definition random_index (es : list ZEntry) (rng : Z) : nat := Z.to_nat (rng mod Z.of_nat (length es)).

(** With repetition: [count] draws. *)
Fixpoint random_dups (es : list ZEntry) (count : nat) (rng : Z) : list ZEntry :=
  match count with
  | O => []
  | S n =>
      let rng := random_next rng in
      option_list (es !! random_index es rng) ++ random_dups es n rng
  end.

(** Without repetition: draw until [count] distinct indices were seen; [None]
    when the fuel runs out first. *)
Fixpoint random_distinct (fuel : nat) (es : list ZEntry) (count : nat) (rng : Z) (seen : list nat)
    (result : list ZEntry) : option (list ZEntry) :=
  if (count <=? length result)%nat then Some result
  else match fuel with
       | O => None
       | S fuel' =>
           let rng := random_next rng in
           let idx := random_index es rng in
           if bool_decide (idx ∈ seen) then random_distinct fuel' es count rng seen result
           else random_distinct fuel' es count rng (idx :: seen) (result ++ option_list (es !! idx))
       end.

Definition random_members (fuel : nat) (z : ZSetData) (count : nat) (allow_dup : bool) : option (list ZEntry) :=
  let es := entries z in
  match es with
  | [] => Some []
  | _ :: _ =>
      let seed := random_seed (length es) in
      if allow_dup then Some (random_dups es count seed)
      else random_distinct fuel es (Nat.min count (length es)) seed [] []
  end.

(** The filter of [lex_range] and [remove_lex_range]. *)
Definition in_lex_range (mn mx : bytes) (min_exclusive max_exclusive : bool) (e : ZEntry) : bool :=
  let above_min := if min_exclusive then str_lt mn (member e) else str_le mn (member e) in
  let below_max :=
    if bool_decide (mx = B "+") then true
    else if max_exclusive then str_lt (member e) mx else str_le (member e) mx in
  above_min && below_max.

Definition lex_range (z : ZSetData) (mn mx : bytes) (mne mxe : bool) : list ZEntry :=
  List.filter (in_lex_range mn mx mne mxe) (entries z).

Definition count_lex_range (z : ZSetData) (mn mx : bytes) (mne mxe : bool) : nat :=
  length (lex_range z mn mx mne mxe).

(** [entries.drain(start..end)] *)
Definition drain (es : list ZEntry) (a b : nat) : list ZEntry := take a es ++ drop b es.

Definition remove_range_by_rank (z : ZSetData) (start stop : nat) : ZSetData * nat :=
  let stop := Nat.min stop (length (entries z)) in
  if (stop <=? start)%nat then (z, 0%nat)
  else (with_entries z (drain (entries z) start stop), (stop - start)%nat).

Definition remove_range_by_score (z : ZSetData) (mn mx : f64) : ZSetData * nat :=
  let start := score_start z mn in
  let stop := score_end z mx in
  if (stop <=? start)%nat then (z, 0%nat)
  else (with_entries z (drain (entries z) start stop), (stop - start)%nat).

Definition remove_lex_range (z : ZSetData) (mn mx : bytes) (mne mxe : bool) : ZSetData * nat :=
  let es := List.filter (λ e, negb (in_lex_range mn mx mne mxe e)) (entries z) in
  (with_entries z es, (length (entries z) - length es)%nat).

(** The entry at [pos] may take the new score without moving. *)
Definition stays (es : list ZEntry) (pos : nat) (sc : f64) (m : bytes) : bool :=
  match pos with
  | O => true
  | S p =>
      match es !! p with
      | Some e => f64_lt (score e) sc || (f64_eq (score e) sc && str_le (member e) m)
      | None => true
      end
  end &&
  match es !! S pos with
  | Some e => f64_lt sc (score e) || (f64_eq (score e) sc && str_le m (member e))
  | None => true
  end.

Definition zset_incr (z : ZSetData) (m : bytes) (increment : f64) : ZSetData * f64 :=
  match zposition m (entries z) with
  | Some pos =>
      match entries z !! pos with
      | Some e =>
          let new_score := f64_add (score e) increment in
          (with_entries z
             (if stays (entries z) pos new_score m
              then <[pos := mkZEntry new_score (member e)]> (entries z)
              else place_entry (delete pos (entries z)) new_score m), new_score)
      | None => (z, increment)
      end
  | None => ((zset_insert z increment m).1, increment)
  end.

(** [shrink_to_fit] rebuilds the filter for the current members. *)
Definition zset_shrink_to_fit (z : ZSetData) : ZSetData := bloom_rebuild z.

(** The set built by a sequence of insertions. *)
Definition zset_of (l : list (Z * bytes)) : ZSetData :=
  foldl (λ z p, (zset_insert z (f64_of_Z p.1) p.2).1) ZSetData_new l.

Example zset_sorted_demo :
  (λ e, member e) <$> entries (zset_of [(3, B "c"); (1, B "b"); (1, B "a"); (5, B "b")]) =
  [B "a"; B "c"; B "b"].
Proof. vm_compute. reflexivity. Qed.
