(* ===== verification/ZSetSpec.v ===== *)
(** Sorted sets keep their invariant and refine a finite map from members to
    scores; range queries by score are filters. *)

From S2P Require Import Prelude Float Collections CollectionsSpec ZSet.
Local Open Scope Z_scope.

(** ** The order of entries *)

Lemma str_lt_cmp a b : str_lt a b = true ↔ str_cmp a b = Lt.
Proof. unfold str_lt. by destruct (str_cmp a b). Qed.

Lemma str_le_lt a b : str_le a b = negb (str_lt b a).
Proof. unfold str_le, str_lt. rewrite (str_cmp_antisym a b). by destruct (str_cmp a b). Qed.

(** [e] comes before [e']: by score, then by member. *)
Definition ze_lt (e e' : ZEntry) : Prop :=
  key_cmp (f64_key (score e)) (f64_key (score e')) = Lt ∨
  (f64_key (score e) = f64_key (score e') ∧ str_cmp (member e) (member e') = Lt).

Definition ze_num (e : ZEntry) : Prop := num (score e).

Lemma ze_lt_irrefl e : ¬ ze_lt e e.
Proof.
  intros [H|[_ H]]; [rewrite (proj2 (key_cmp_eq _ _)) in H by done; done|by rewrite str_cmp_refl in H].
Qed.

Lemma ze_lt_trans a b c : ze_lt a b → ze_lt b c → ze_lt a c.
Proof.
  intros [H1|[E1 H1]] [H2|[E2 H2]]; unfold ze_lt.
  - left. by eapply key_cmp_trans.
  - left. by rewrite <- E2.
  - left. by rewrite E1.
  - right. split; [congruence|by eapply str_cmp_lt_trans].
Qed.

Lemma ze_lt_total a b : member a ≠ member b → ze_lt a b ∨ ze_lt b a.
Proof.
  intros Hne. unfold ze_lt. rewrite (key_cmp_antisym (f64_key (score a))), (str_cmp_antisym (member a)).
  destruct (key_cmp (f64_key (score a)) (f64_key (score b))) eqn:E; [|by auto..].
  apply key_cmp_eq in E. rewrite E. destruct (str_cmp (member a) (member b)) eqn:Em; auto.
  by apply str_cmp_eq in Em.
Qed.

Lemma before_spec sc m e :
  num sc → ze_num e → before sc m e = true ↔ ze_lt e (mkZEntry sc m).
Proof.
  intros Hs He. unfold before, ze_lt. simpl.
  by rewrite orb_true_iff, andb_true_iff, f64_lt_key, f64_eq_key, str_lt_cmp.
Qed.

(** ** Sorted entry lists *)

Definition sorted (es : list ZEntry) : Prop := StronglySorted ze_lt es.

Lemma elem_of_take_inv {A} (x : A) n l : x ∈ take n l → x ∈ l.
Proof. intros (i & Hi & _)%elem_of_take. by eapply list_elem_of_lookup_2. Qed.

Lemma elem_of_drop_inv {A} (x : A) n l : x ∈ drop n l → x ∈ l.
Proof. intros [i Hi]%list_elem_of_lookup. rewrite lookup_drop in Hi. by eapply list_elem_of_lookup_2. Qed.

(** A predicate true exactly on a prefix. *)
Lemma prefix_count {A} (p : A → bool) (l : list A) :
  (∀ i j x y, l !! i = Some x → l !! j = Some y → (i < j)%nat → p y = true → p x = true) →
  ∃ n, (n <= length l)%nat ∧ ∀ i x, l !! i = Some x → p x = (i <? n)%nat.
Proof.
  induction l as [|a l IH]; intros Hp; [exists 0%nat; by split|].
  destruct (p a) eqn:Ha.
  - destruct IH as (n & Hn & Hl); [intros i j x y Hi Hj Hlt; eapply (Hp (S i) (S j)); simpl; auto; lia|].
    exists (S n). split; [simpl; lia|]. intros [|i] x Hi; simplify_eq/=; [done|]. by apply Hl.
  - exists 0%nat. split; [lia|]. intros [|i] x Hi; simplify_eq/=; [done|].
    destruct (p x) eqn:Hx; [|done]. by rewrite (Hp 0%nat (S i) a x) in Ha by (done || lia).
Qed.

(** [partition_point] of such a predicate splits the list by it. *)
Lemma partition_point_split {A} (p : A → bool) (l : list A) :
  (∀ i j x y, l !! i = Some x → l !! j = Some y → (i < j)%nat → p y = true → p x = true) →
  (partition_point p l <= length l)%nat ∧
  Forall (λ x, p x = true) (take (partition_point p l) l) ∧
  Forall (λ x, p x = false) (drop (partition_point p l) l).
Proof.
  intros Hp. destruct (prefix_count p l Hp) as (n & Hn & Hl).
  rewrite (partition_point_spec p l n Hn Hl). split; [done|]. split; apply Forall_lookup.
  - intros i x [Hi Hin]%lookup_take_Some. rewrite (Hl _ _ Hi). by apply Nat.ltb_lt.
  - intros i x Hi. rewrite lookup_drop in Hi. rewrite (Hl _ _ Hi). apply Nat.ltb_ge. lia.
Qed.

Lemma sorted_lookup es i j x y :
  sorted es → es !! i = Some x → es !! j = Some y → (i < j)%nat → ze_lt x y.
Proof.
  intros Hs. revert i j. induction Hs as [|e es Hs IH He]; intros [|i] [|j] Hi Hj Hlt; simplify_eq/=; try lia.
  - rewrite Forall_lookup in He. by eapply He.
  - eapply IH; [done..|lia].
Qed.

(** Placing a fresh member keeps the list sorted. *)
Lemma place_entry_spec es sc m :
  sorted es → Forall ze_num es → num sc → m ∉ member <$> es →
  sorted (place_entry es sc m) ∧ place_entry es sc m ≡ₚ mkZEntry sc m :: es.
Proof.
  intros Hs Hn Hsc Hm. unfold place_entry, find_insert_pos, vec_insert.
  rewrite Forall_lookup in Hn.
  destruct (partition_point_split (before sc m) es) as (Hle & Hlo & Hhi).
  { intros i j x y Hi Hj Hlt Hy. rewrite before_spec in Hy |- * by (done || by eapply Hn).
    eapply ze_lt_trans; [by eapply sorted_lookup|done]. }
  set (n := partition_point _ _) in *. split.
  - pose proof Hs as Hs'. unfold sorted in Hs'. rewrite <- (take_drop n es) in Hs'.
    apply StronglySorted_app in Hs' as (Hall & Ht & Hd). rewrite !Forall_forall in Hlo, Hhi.
    assert (Hnum : ∀ x, x ∈ es → ze_num x) by (intros x [i Hi]%list_elem_of_lookup; by eapply Hn).
    assert (Hlow : ∀ x, x ∈ take n es → ze_lt x (mkZEntry sc m)).
    { intros x Hx. apply before_spec; [done| |by apply Hlo]. apply Hnum. by eapply elem_of_take_inv. }
    assert (Hup : ∀ x, x ∈ drop n es → ze_lt (mkZEntry sc m) x).
    { intros x Hx. pose proof (elem_of_drop_inv _ _ _ Hx) as Hin.
      destruct (ze_lt_total (mkZEntry sc m) x) as [?|Hlt]; [|done|].
      - simpl. intros ->. apply Hm. by apply list_elem_of_fmap_2.
      - apply before_spec in Hlt; [|done|by apply Hnum]. by rewrite (Hhi x Hx) in Hlt. }
    apply StronglySorted_app. split; [|split; [done|constructor; [done|by apply Forall_forall]]].
    intros x y Hx [->|Hy]%elem_of_cons; [by apply Hlow|by apply Hall].
  - rewrite <- (take_drop n es) at 3. by rewrite Permutation_middle.
Qed.

(** ** The filter *)

Lemma land_bit w k : 0 <= k → negb (Z.land w (Z.shiftl 1 k) =? 0) = Z.testbit w k.
Proof.
  intros Hk. destruct (Z.testbit w k) eqn:Hb.
  - apply negb_true_iff, Z.eqb_neq. intros E. apply (f_equal (λ z, Z.testbit z k)) in E.
    rewrite Z.land_spec, Hb, Z.shiftl_spec, Z.sub_diag, Z.bits_0 in E by done. done.
  - apply negb_false_iff, Z.eqb_eq, Z.bits_inj'. intros n Hn.
    rewrite Z.land_spec, Z.shiftl_spec, Z.bits_0 by done. destruct (decide (n = k)) as [->|Hne].
    + by rewrite Hb.
    + destruct (Z.lt_ge_cases n k); [rewrite (Z.testbit_neg_r 1) by lia; by rewrite andb_false_r|].
      rewrite (Z.bits_above_log2 1) by (simpl; lia). by rewrite andb_false_r.
Qed.

Lemma bit_at_testbit bl p :
  bit_at bl p = match bl !! Z.to_nat (p / 64) with Some w => Z.testbit w (p mod 64) | None => false end.
Proof.
  unfold bit_at. destruct (bl !! _); [|done]. apply land_bit. by apply Z.mod_pos_bound.
Qed.

Lemma length_set_bit_at bl p : length (set_bit_at bl p) = length bl.
Proof. unfold set_bit_at. destruct (bl !! _); [apply length_insert|done]. Qed.

Lemma bit_at_mono bl p q : bit_at bl q = true → bit_at (set_bit_at bl p) q = true.
Proof.
  rewrite !bit_at_testbit. unfold set_bit_at. destruct (bl !! Z.to_nat (p / 64)) as [w|] eqn:Hp; [|done].
  destruct (decide (Z.to_nat (q / 64) = Z.to_nat (p / 64))) as [->|Hne].
  - rewrite list_lookup_insert_eq by by eapply lookup_lt_Some. rewrite Hp, Z.lor_spec.
    by intros ->.
  - by rewrite list_lookup_insert_ne by congruence.
Qed.

Lemma bit_at_set bl p : 0 <= p < Z.of_nat (length bl) * 64 → bit_at (set_bit_at bl p) p = true.
Proof.
  intros Hp. rewrite bit_at_testbit. unfold set_bit_at.
  destruct (lookup_lt_is_Some_2 bl (Z.to_nat (p / 64))) as [w Hw].
  { pose proof (Z.div_lt_upper_bound p 64 (Z.of_nat (length bl)) ltac:(lia) ltac:(lia)).
    pose proof (Z.div_pos p 64 ltac:(lia) ltac:(lia)). lia. }
  rewrite Hw, list_lookup_insert_eq by by eapply lookup_lt_Some.
  pose proof (Z.mod_pos_bound p 64 ltac:(lia)).
  rewrite Z.lor_spec, Z.shiftl_spec, Z.sub_diag by lia. apply orb_true_r.
Qed.

Lemma land_below h b : 0 < b → 0 <= Z.land h (b - 1) < b.
Proof.
  intros Hb. split; [apply Z.land_nonneg; lia|].
  assert (Z.ldiff (Z.land h (b - 1)) (b - 1) = 0) as Hd.
  { apply Z.bits_inj'. intros n Hn. rewrite Z.ldiff_spec, Z.land_spec, Z.bits_0.
    destruct (Z.testbit h n), (Z.testbit (b - 1) n); done. }
  apply Z.ldiff_le in Hd; lia.
Qed.

Lemma bloom_positions_range n h :
  (0 < n)%nat → let '(a, b) := bloom_positions n h in
  0 <= a < Z.of_nat n * 64 ∧ 0 <= b < Z.of_nat n * 64.
Proof. intros Hn. split; apply land_below; lia. Qed.

Lemma bloom_set_contains bl h : (0 < length bl)%nat → bloom_maybe_contains (bloom_set bl h) h = true.
Proof.
  intros Hl. pose proof (bloom_positions_range (length bl) h Hl) as Hr.
  unfold bloom_maybe_contains, bloom_set. destruct (bloom_positions (length bl) h) as [a b] eqn:E.
  rewrite !length_set_bit_at, E. destruct Hr. apply andb_true_iff. split.
  - apply bit_at_mono, bit_at_set. done.
  - apply bit_at_set. by rewrite length_set_bit_at.
Qed.

Lemma length_bloom_set bl h : length (bloom_set bl h) = length bl.
Proof. unfold bloom_set. destruct (bloom_positions _ _). by rewrite !length_set_bit_at. Qed.

Lemma bloom_set_mono bl h h' :
  bloom_maybe_contains bl h' = true → bloom_maybe_contains (bloom_set bl h) h' = true.
Proof.
  unfold bloom_maybe_contains. rewrite length_bloom_set. destruct (bloom_positions _ h') as [a b].
  unfold bloom_set. destruct (bloom_positions _ h) as [a' b'].
  intros [Ha Hb]%andb_true_iff. apply andb_true_iff. split; by apply bit_at_mono, bit_at_mono.
Qed.

(** Every member passes the filter. *)
Definition bloom_ok (bl : list Z) (es : list ZEntry) : Prop :=
  (0 < length bl)%nat ∧ ∀ m, m ∈ member <$> es → bloom_maybe_contains bl (member_hash m) = true.

Lemma bloom_fold_ok es bl :
  (0 < length bl)%nat →
  let bl' := foldl (λ bl e, bloom_set bl (member_hash (member e))) bl es in
  bloom_ok bl' es ∧ (∀ h, bloom_maybe_contains bl h = true → bloom_maybe_contains bl' h = true).
Proof.
  revert bl. induction es as [|e es IH]; intros bl Hl; simpl.
  - split; [split; [done|]|done]. intros m Hm. by apply elem_of_nil in Hm.
  - destruct (IH (bloom_set bl (member_hash (member e)))) as [[Hl' Hall] Hmono];
      [by rewrite length_bloom_set|]. split; [split; [done|]|].
    + intros m [->|Hm]%elem_of_cons; [|by apply Hall]. by apply Hmono, bloom_set_contains.
    + intros h Hh. by apply Hmono, bloom_set_mono.
Qed.

Lemma bloom_words_pos n : 1 <= bloom_words n.
Proof. unfold bloom_words. lia. Qed.

Lemma bloom_rebuild_ok z :
  entries (bloom_rebuild z) = entries z ∧ bloom_ok (bloom (bloom_rebuild z)) (entries z).
Proof.
  split; [done|]. apply bloom_fold_ok. rewrite length_replicate.
  pose proof (bloom_words_pos (length (entries z))). lia.
Qed.

Lemma bloom_grow_ok z :
  bloom_ok (bloom z) (entries z) →
  entries (bloom_grow_if_needed z) = entries z ∧ bloom_ok (bloom (bloom_grow_if_needed z)) (entries z).
Proof. intros Hok. unfold bloom_grow_if_needed. case_goal; [apply bloom_rebuild_ok|done]. Qed.

Lemma bloom_ok_perm bl es es' : es ≡ₚ es' → bloom_ok bl es → bloom_ok bl es'.
Proof. intros Hp [Hl Hok]. split; [done|]. intros m Hm. apply Hok. by rewrite Hp. Qed.

Lemma bloom_ok_cons bl e es :
  bloom_ok bl es → bloom_ok (bloom_set bl (member_hash (member e))) (e :: es).
Proof.
  intros [Hl Hok]. split; [by rewrite length_bloom_set|]. intros m [->|Hm]%elem_of_cons.
  - by apply bloom_set_contains.
  - apply bloom_set_mono. by apply Hok.
Qed.

(** ** Invariant and abstraction *)

(** The entry list: sorted, no NaN, one entry per member. *)
Record entries_wf (es : list ZEntry) : Prop := {
  zw_sorted : sorted es;
  zw_num : Forall ze_num es;
  zw_nodup : NoDup (member <$> es);
}.

Record zset_wf (z : ZSetData) : Prop := {
  zw_entries : entries_wf (entries z);
  zw_bloom : bloom_ok (bloom z) (entries z);
}.

Definition score_map (es : list ZEntry) : gmap bytes f64 :=
  list_to_map ((λ e, (member e, score e)) <$> es).
Definition zset_abs (z : ZSetData) : gmap bytes f64 := score_map (entries z).

Lemma pair_members (es : list ZEntry) : ((λ e, (member e, score e)) <$> es).*1 = member <$> es.
Proof. by rewrite <- list_fmap_compose. Qed.

Lemma score_map_cons e es : score_map (e :: es) = <[member e := score e]> (score_map es).
Proof. done. Qed.

Lemma score_map_perm es es' : NoDup (member <$> es) → es ≡ₚ es' → score_map es = score_map es'.
Proof.
  intros Hnd Hp. unfold score_map. apply list_to_map_proper; [by rewrite pair_members|].
  by rewrite Hp.
Qed.

Lemma score_map_None es m : m ∉ member <$> es → score_map es !! m = None.
Proof. intros Hm. apply not_elem_of_list_to_map. by rewrite pair_members. Qed.

Lemma score_map_Some es i e :
  NoDup (member <$> es) → es !! i = Some e → score_map es !! member e = Some (score e).
Proof.
  intros Hnd Hi. apply elem_of_list_to_map; [by rewrite pair_members|].
  apply list_elem_of_fmap. exists e. split; [done|by eapply list_elem_of_lookup_2].
Qed.

Lemma zposition_spec m es :
  match zposition m es with
  | Some i => ∃ e, es !! i = Some e ∧ member e = m
  | None => m ∉ member <$> es
  end.
Proof.
  induction es as [|e es IH]; simpl; [apply not_elem_of_nil|].
  destruct (decide (member e = m)) as [<-|Hne]; [rewrite bool_decide_eq_true_2 by done; by exists e|].
  rewrite bool_decide_eq_false_2 by done. destruct (zposition m es); simpl; [done|].
  rewrite not_elem_of_cons. split; [congruence|done].
Qed.

Lemma entries_wf_perm es es' :
  sorted es' → es' ≡ₚ es → Forall ze_num es → NoDup (member <$> es) → entries_wf es'.
Proof. intros Hs Hp Hn Hnd. split; [done|by rewrite Hp|by rewrite Hp]. Qed.

Lemma entries_wf_delete es i : entries_wf es → entries_wf (delete i es).
Proof.
  intros [Hs Hn Hnd]. split.
  - by apply StronglySorted_delete.
  - by apply Forall_delete.
  - eapply sublist_NoDup; [exact Hnd|]. apply fmap_sublist, sublist_delete.
Qed.

Lemma delete_member es i e :
  NoDup (member <$> es) → es !! i = Some e → member e ∉ member <$> delete i es.
Proof.
  intros Hnd Hi. rewrite (delete_Permutation es i e Hi) in Hnd. by apply NoDup_cons in Hnd as [? _].
Qed.

(** A fresh member placed in a well-formed list. *)
Lemma place_entry_wf es sc m :
  entries_wf es → num sc → m ∉ member <$> es →
  entries_wf (place_entry es sc m) ∧ place_entry es sc m ≡ₚ mkZEntry sc m :: es.
Proof.
  intros [Hs Hn Hnd] Hsc Hm. destruct (place_entry_spec es sc m Hs Hn Hsc Hm) as [Hs' Hp].
  split; [|done]. eapply entries_wf_perm; [done|exact Hp|by constructor|by constructor].
Qed.

(** Taking an entry out and placing it with a new score. *)
Lemma move_entry_wf es i e sc :
  entries_wf es → num sc → es !! i = Some e →
  entries_wf (place_entry (delete i es) sc (member e)) ∧
  (member <$> place_entry (delete i es) sc (member e)) ≡ₚ (member <$> es) ∧
  score_map (place_entry (delete i es) sc (member e)) = <[member e := sc]> (score_map es).
Proof.
  intros Hw Hsc Hi. pose proof (delete_member es i e (zw_nodup _ Hw) Hi) as Hm.
  destruct (place_entry_wf _ sc (member e) (entries_wf_delete es i Hw) Hsc Hm) as [Hw' Hp].
  pose proof (delete_Permutation es i e Hi) as Hd. split; [done|]. split.
  - rewrite Hp. symmetry. exact (fmap_Permutation member _ _ Hd).
  - rewrite (score_map_perm _ _ (zw_nodup _ Hw') Hp), (score_map_perm _ _ (zw_nodup _ Hw) Hd).
    rewrite !score_map_cons. simpl. by rewrite insert_insert_eq.
Qed.

Lemma bloom_ok_members bl es es' :
  (member <$> es') ≡ₚ (member <$> es) → bloom_ok bl es → bloom_ok bl es'.
Proof. intros Hp [Hl Hok]. split; [done|]. intros m Hm. apply Hok. by rewrite <- Hp. Qed.

(** ** Insertion *)

Lemma insert_fresh_wf z sc m :
  zset_wf z → num sc → m ∉ member <$> entries z →
  zset_wf (insert_fresh z sc m) ∧ zset_abs (insert_fresh z sc m) = <[m := sc]> (zset_abs z).
Proof.
  intros [Hw Hb] Hsc Hm. unfold insert_fresh.
  set (es := if fits_last _ _ _ then _ else _).
  assert (He : entries_wf es ∧ es ≡ₚ mkZEntry sc m :: entries z).
  { unfold es, fits_last. destruct (last (entries z)) as [l|] eqn:Hl.
    - destruct (f64_lt _ _ || _) eqn:E; [|by apply place_entry_wf].
      pose proof (last_Some_elem_of _ _ Hl) as Hin. apply last_Some in Hl as [q Hq].
      assert (Hp : entries z ++ [mkZEntry sc m] ≡ₚ mkZEntry sc m :: entries z)
        by (symmetry; apply Permutation_cons_append).
      split; [|done]. destruct Hw as [Hs Hn Hnd].
      eapply entries_wf_perm; [|exact Hp|by constructor|by constructor].
      assert (Hlt : ze_lt l (mkZEntry sc m)).
      { rewrite Forall_forall in Hn. apply before_spec; [done|by apply Hn|].
        unfold before. apply orb_true_iff in E as [E|E]; [by rewrite E|].
        apply andb_true_iff in E as [E1 E2]. rewrite E1, orb_true_iff. right. simpl.
        rewrite str_le_lt, negb_true_iff in E2.
        destruct (str_cmp (member l) m) eqn:Ec; [|by apply str_lt_cmp|].
        - apply str_cmp_eq in Ec. exfalso. apply Hm. rewrite <- Ec. by apply list_elem_of_fmap_2.
        - exfalso. unfold str_lt in E2. rewrite (str_cmp_antisym (member l)), Ec in E2. done. }
      apply StronglySorted_app. split; [|split; [done|by repeat constructor]].
      intros x y Hx ->%list_elem_of_singleton. rewrite Hq in Hx, Hs.
      apply elem_of_app in Hx as [Hx| ->%list_elem_of_singleton]; [|done].
      apply StronglySorted_app in Hs as (Hall & _). eapply ze_lt_trans; [|exact Hlt].
      apply Hall; [done|by apply list_elem_of_singleton].
    - apply last_None in Hl. rewrite Hl. split; [|done]. split; repeat constructor; [done|].
      apply not_elem_of_nil. }
  destruct He as [Hew Hp]. clearbody es.
  destruct (bloom_grow_ok (mkZSet es (bloom_set (bloom z) (member_hash m)))) as [Hee Hbb].
  { eapply bloom_ok_perm; [symmetry; exact Hp|]. exact (bloom_ok_cons _ (mkZEntry sc m) _ Hb). }
  split; [split; [by rewrite Hee|by rewrite Hee]|]. unfold zset_abs. rewrite Hee. simpl.
  by rewrite (score_map_perm _ _ (zw_nodup _ Hew) Hp), score_map_cons.
Qed.

(** The scores after an insertion: a member that is there keeps its score when
    the new one is within [EPSILON] of it. *)
Definition insert_map (g : gmap bytes f64) (sc : f64) (m : bytes) : gmap bytes f64 :=
  match g !! m with
  | Some old => if score_moved old sc then <[m := sc]> g else g
  | None => <[m := sc]> g
  end.

Lemma vec_pop_delete {A} (l : list A) : (vec_pop l).1 = delete (length l - 1)%nat l.
Proof.
  destruct l as [|x q _] using rev_ind; [done|]. rewrite vec_pop_snoc, length_app. simpl.
  rewrite Nat.add_sub. clear. induction q as [|y q IH]; simpl; [done|by rewrite <- IH].
Qed.

Lemma update_entry_wf z i e sc :
  zset_wf z → num sc → entries z !! i = Some e →
  let z' := if score_moved (score e) sc
            then with_entries z (place_entry (delete i (entries z)) sc (member e)) else z in
  zset_wf z' ∧ zset_abs z' = insert_map (zset_abs z) sc (member e) ∧
  is_Some (zset_abs z !! member e).
Proof.
  intros [Hw Hb] Hsc Hi. pose proof (score_map_Some _ i e (zw_nodup _ Hw) Hi) as Hs.
  unfold insert_map, zset_abs. cbv zeta. rewrite Hs. destruct (score_moved _ _); [|done].
  destruct (move_entry_wf _ i e sc Hw Hsc Hi) as (Hw' & Hm & Ha).
  split; [split; [done|by eapply bloom_ok_members]|]. by rewrite <- Ha.
Qed.

(** The two outcomes of an insertion: a fresh member is placed, or the entry of
    a member that is there moves. *)
Lemma zset_insert_cases z sc m (P : ZSetData * bool → Prop) :
  bloom_ok (bloom z) (entries z) →
  (m ∉ member <$> entries z → P (insert_fresh z sc m, true)) →
  (∀ i e, entries z !! i = Some e → member e = m →
    P (if score_moved (score e) sc
       then with_entries z (place_entry (delete i (entries z)) sc m) else z, false)) →
  P (zset_insert z sc m).
Proof.
  intros Hb Hfresh Hold. unfold zset_insert. destruct (bloom_maybe_contains _ _) eqn:Ebl.
  - destruct (last (entries z)) as [l|] eqn:Hl.
    + destruct (decide (member l = m)) as [Hlm|Hlm].
      * rewrite bool_decide_eq_true_2 by done. rewrite vec_pop_delete.
        apply (Hold _ l); [|done]. by rewrite Nat.sub_1_r, <- last_lookup.
      * rewrite bool_decide_eq_false_2 by done. pose proof (zposition_spec m (entries z)) as Hp.
        destruct (zposition m (entries z)) as [i|]; [|by apply Hfresh].
        destruct Hp as (e & Hi & He). rewrite Hi. by apply Hold.
    + apply Hfresh. apply last_None in Hl. rewrite Hl. apply not_elem_of_nil.
  - apply Hfresh. intros Hm. destruct Hb as [_ Hok]. by rewrite Hok in Ebl.
Qed.

Lemma zset_insert_spec z sc m :
  zset_wf z → num sc →
  zset_wf (zset_insert z sc m).1 ∧
  zset_abs (zset_insert z sc m).1 = insert_map (zset_abs z) sc m ∧
  (zset_insert z sc m).2 = bool_decide (zset_abs z !! m = None).
Proof.
  intros Hz Hsc. pose proof Hz as [Hw Hb]. apply zset_insert_cases; [done| |].
  - intros Hm. destruct (insert_fresh_wf z sc m Hz Hsc Hm) as [? ?].
    assert (Hn : zset_abs z !! m = None) by by apply score_map_None.
    unfold insert_map. by rewrite Hn.
  - intros i e Hi <-. destruct (update_entry_wf z i e sc Hz Hsc Hi) as (? & ? & [x Hx]).
    by rewrite bool_decide_eq_false_2 by congruence.
Qed.

(** ** Removal *)

Lemma bloom_ok_sub bl es es' :
  (∀ m, m ∈ member <$> es' → m ∈ member <$> es) → bloom_ok bl es → bloom_ok bl es'.
Proof. intros Hsub [Hl Hok]. split; [done|]. auto. Qed.

Lemma sorted_sublist es es' : es' `sublist_of` es → sorted es → sorted es'.
Proof.
  induction 1 as [|x l k Hsub IH|x l k Hsub IH]; intros Hs; [constructor| |].
  - apply StronglySorted_inv in Hs as [Hs Hx]. constructor; [by apply IH|].
    rewrite Forall_forall in Hx |- *. intros y Hy. apply Hx. by eapply elem_of_sublist.
  - apply StronglySorted_inv in Hs as [Hs _]. by apply IH.
Qed.

Lemma entries_wf_sublist es es' : es' `sublist_of` es → entries_wf es → entries_wf es'.
Proof.
  intros Hsub [Hs Hn Hnd]. split.
  - by eapply sorted_sublist.
  - rewrite Forall_forall in Hn |- *. intros y Hy. apply Hn. by eapply elem_of_sublist.
  - eapply sublist_NoDup; [exact Hnd|]. by apply fmap_sublist.
Qed.

(** Any operation that keeps a sublist of the entries keeps the invariant. *)
Lemma with_entries_sublist z es : es `sublist_of` entries z → zset_wf z → zset_wf (with_entries z es).
Proof.
  intros Hsub [Hw Hb]. split; [by eapply entries_wf_sublist|]. eapply bloom_ok_sub; [|done].
  intros m (e & -> & He)%list_elem_of_fmap. apply list_elem_of_fmap_2. by eapply elem_of_sublist.
Qed.

Lemma score_map_delete es i e :
  NoDup (member <$> es) → es !! i = Some e →
  score_map (delete i es) = delete (member e) (score_map es).
Proof.
  intros Hnd Hi. rewrite (score_map_perm _ _ Hnd (delete_Permutation es i e Hi)), score_map_cons.
  rewrite delete_insert_id; [done|]. by apply score_map_None, delete_member.
Qed.

Lemma zset_remove_spec z m :
  zset_wf z →
  zset_wf (zset_remove z m).1 ∧ zset_abs (zset_remove z m).1 = delete m (zset_abs z) ∧
  (zset_remove z m).2 = zset_abs z !! m.
Proof.
  intros Hz. pose proof (zposition_spec m (entries z)) as Hp. unfold zset_remove.
  destruct (zposition m (entries z)) as [i|].
  - destruct Hp as (e & Hi & <-). simpl. rewrite Hi. split; [|split].
    + apply with_entries_sublist; [apply sublist_delete|done].
    + by apply score_map_delete; [apply zw_nodup, zw_entries|].
    + symmetry. by eapply score_map_Some; [apply zw_nodup, zw_entries|].
  - assert (Hn : zset_abs z !! m = None) by by apply score_map_None. simpl.
    split; [done|]. by rewrite Hn, delete_id.
Qed.

Lemma get_score_spec z m : zset_wf z → get_score z m = zset_abs z !! m.
Proof.
  intros [Hw _]. unfold get_score, zset_abs. apply zw_nodup in Hw.
  induction (entries z) as [|e es IH]; [done|]. rewrite score_map_cons. simpl.
  apply NoDup_cons in Hw as [Hm Hnd]. destruct (decide (member e = m)) as [<-|Hne].
  - by rewrite bool_decide_eq_true_2, lookup_insert_eq by done.
  - rewrite bool_decide_eq_false_2, lookup_insert_ne by done. by apply IH.
Qed.

Lemma pop_min_wf z : zset_wf z → zset_wf (pop_min z).1.
Proof.
  intros Hz. unfold pop_min. destruct (entries z) as [|e es] eqn:E; [done|].
  apply with_entries_sublist; [|done]. rewrite E. by constructor.
Qed.

Lemma pop_max_wf z : zset_wf z → zset_wf (pop_max z).1.
Proof.
  intros Hz. unfold pop_max. destruct (vec_pop (entries z)) as [es [e|]] eqn:E; [|done].
  apply with_entries_sublist; [|done]. unfold vec_pop in E. injection E as <- _. apply sublist_take.
Qed.

Lemma drain_sublist es a b : (a <= b)%nat → drain es a b `sublist_of` es.
Proof.
  intros Hab. unfold drain. rewrite <- (take_drop a es) at 3. apply sublist_app; [done|].
  replace b with (a + (b - a))%nat by lia. rewrite <- drop_drop. apply sublist_drop.
Qed.

Lemma remove_range_by_score_wf z mn mx : zset_wf z → zset_wf (remove_range_by_score z mn mx).1.
Proof.
  intros Hz. unfold remove_range_by_score. case_goal; [done|]. split_bool. simpl.
  apply with_entries_sublist; [|done]. apply drain_sublist. lia.
Qed.

Lemma remove_range_by_rank_wf z a b : zset_wf z → zset_wf (remove_range_by_rank z a b).1.
Proof.
  intros Hz. unfold remove_range_by_rank. case_goal; [done|]. split_bool. simpl.
  apply with_entries_sublist; [|done]. apply drain_sublist. lia.
Qed.

Lemma list_filter_sublist {A} (p : A → bool) l : List.filter p l `sublist_of` l.
Proof. induction l as [|x l IH]; simpl; [constructor|]. by destruct (p x); constructor. Qed.

Lemma remove_lex_range_wf z mn mx a b : zset_wf z → zset_wf (remove_lex_range z mn mx a b).1.
Proof. intros Hz. apply with_entries_sublist; [apply list_filter_sublist|done]. Qed.

(** ** Increments *)

Lemma middle_sorted es i x :
  sorted es → (i < length es)%nat →
  (∀ p y, i = S p → es !! p = Some y → ze_lt y x) →
  (∀ y, es !! S i = Some y → ze_lt x y) →
  sorted (<[i := x]> es).
Proof.
  intros Hs Hi Hlo Hhi. rewrite insert_take_drop by done. unfold sorted in Hs.
  pose proof Hs as Hs'. rewrite <- (take_drop i es) in Hs'. apply StronglySorted_app in Hs' as (Hall & Ht & Hd).
  assert (Hleft : ∀ y, y ∈ take i es → ze_lt y x).
  { intros y (j & Hj & Hji)%elem_of_take. destruct i as [|p]; [lia|].
    destruct (lookup_lt_is_Some_2 es p) as [w Hw]; [lia|]. pose proof (Hlo p w eq_refl Hw) as Hwx.
    destruct (decide (j = p)) as [->|]; [by simplify_eq|].
    eapply ze_lt_trans; [|exact Hwx]. eapply sorted_lookup; [exact Hs|done..|lia]. }
  assert (Hright : ∀ y, y ∈ drop (S i) es → ze_lt x y).
  { intros y [j Hj]%list_elem_of_lookup. rewrite lookup_drop in Hj.
    destruct (lookup_lt_is_Some_2 es (S i)) as [w Hw]; [apply lookup_lt_Some in Hj; lia|].
    pose proof (Hhi w Hw) as Hxw. destruct (decide (j = 0%nat)) as [->|].
    - rewrite Nat.add_0_r in Hj. by simplify_eq.
    - eapply ze_lt_trans; [exact Hxw|]. eapply sorted_lookup; [exact Hs|done..|lia]. }
  apply StronglySorted_app. split; [|split; [done|constructor; [|by apply Forall_forall]]].
  - intros a b Ha [->|Hb]%elem_of_cons; [by apply Hleft|].
    eapply ze_lt_trans; [by apply Hleft|by apply Hright].
  - replace (S i) with (i + 1)%nat by lia. rewrite <- drop_drop.
    by eapply sorted_sublist; [apply sublist_drop|].
Qed.

Lemma str_le_ne a b : a ≠ b → str_le a b = true → str_cmp a b = Lt.
Proof.
  intros Hne. unfold str_le. destruct (str_cmp a b) eqn:E; [|done..]. by apply str_cmp_eq in E.
Qed.

Lemma not_after_lt e sc m :
  num sc → ze_num e → member e ≠ m →
  f64_lt (score e) sc || (f64_eq (score e) sc && str_le (member e) m) = true → ze_lt e (mkZEntry sc m).
Proof.
  intros Hs He Hne [H|[H1 H2]%andb_true_iff]%orb_true_iff; unfold ze_lt; simpl.
  - left. by apply f64_lt_key.
  - right. apply f64_eq_key in H1; [|done..]. split; [done|by apply str_le_ne].
Qed.

Lemma not_before_lt e sc m :
  num sc → ze_num e → member e ≠ m →
  f64_lt sc (score e) || (f64_eq (score e) sc && str_le m (member e)) = true → ze_lt (mkZEntry sc m) e.
Proof.
  intros Hs He Hne [H|[H1 H2]%andb_true_iff]%orb_true_iff; unfold ze_lt; simpl.
  - left. by apply f64_lt_key.
  - right. apply f64_eq_key in H1; [|done..]. split; [done|by apply str_le_ne].
Qed.

Lemma member_unique es i j e e' :
  NoDup (member <$> es) → es !! i = Some e → es !! j = Some e' → i ≠ j → member e ≠ member e'.
Proof.
  intros Hnd Hi Hj Hne Heq. apply Hne. eapply NoDup_lookup; [exact Hnd| |].
  - by rewrite list_lookup_fmap, Hi.
  - by rewrite list_lookup_fmap, Hj, Heq.
Qed.

Lemma delete_insert_same {A} (l : list A) i x : delete i (<[i := x]> l) = delete i l.
Proof. revert i. induction l as [|y l IH]; intros [|i]; simpl; try done. by rewrite IH. Qed.

Lemma stays_wf es i e sc :
  entries_wf es → num sc → es !! i = Some e → stays es i sc (member e) = true →
  entries_wf (<[i := mkZEntry sc (member e)]> es) ∧
  (member <$> <[i := mkZEntry sc (member e)]> es) = (member <$> es) ∧
  score_map (<[i := mkZEntry sc (member e)]> es) = <[member e := sc]> (score_map es).
Proof.
  intros [Hs Hn Hnd] Hsc Hi [Hlo Hhi]%andb_true_iff. pose proof (lookup_lt_Some _ _ _ Hi) as Hlen.
  assert (Hmem : (member <$> <[i := mkZEntry sc (member e)]> es) = (member <$> es)).
  { rewrite list_fmap_insert. apply list_insert_id. by rewrite list_lookup_fmap, Hi. }
  rewrite Forall_lookup in Hn. split; [split|split; [done|]].
  - apply middle_sorted; [done|done| |].
    + intros p y -> Hy. rewrite Hy in Hlo. apply not_after_lt; [done|by eapply Hn| |done].
      by eapply member_unique.
    + intros y Hy. rewrite Hy in Hhi. apply not_before_lt; [done|by eapply Hn| |done].
      eapply member_unique; [exact Hnd|done..|lia].
  - apply Forall_insert; [by apply Forall_lookup|done].
  - by rewrite Hmem.
  - assert (Hi' : <[i := mkZEntry sc (member e)]> es !! i = Some (mkZEntry sc (member e)))
      by by apply list_lookup_insert_eq.
    rewrite (score_map_perm _ _ ltac:(by rewrite Hmem) (delete_Permutation _ i _ Hi')).
    rewrite delete_insert_same, score_map_cons. simpl.
    rewrite (score_map_perm _ _ Hnd (delete_Permutation es i e Hi)), score_map_cons.
    by rewrite insert_insert_eq.
Qed.

Lemma zset_incr_spec z m inc :
  zset_wf z → num inc → (∀ old, zset_abs z !! m = Some old → num (f64_add old inc)) →
  let new := match zset_abs z !! m with Some old => f64_add old inc | None => inc end in
  zset_wf (zset_incr z m inc).1 ∧ zset_abs (zset_incr z m inc).1 = <[m := new]> (zset_abs z) ∧
  (zset_incr z m inc).2 = new.
Proof.
  intros Hz Hinc Hnum. pose proof (zposition_spec m (entries z)) as Hp. unfold zset_incr.
  destruct (zposition m (entries z)) as [i|].
  - destruct Hp as (e & Hi & <-). rewrite Hi. pose proof Hz as [Hw Hb].
    assert (Hg : zset_abs z !! member e = Some (score e)) by by eapply score_map_Some; [apply zw_nodup|].
    rewrite Hg. cbv zeta. cbn [fst snd]. pose proof (Hnum _ Hg) as Hn.
    destruct (stays _ _ _ _) eqn:Es.
    + destruct (stays_wf _ i e _ Hw Hn Hi Es) as (Hw' & Hm & Ha). split; [|split; [exact Ha|done]].
      split; [done|]. eapply bloom_ok_members; [|exact Hb]. simpl. by rewrite Hm.
    + destruct (move_entry_wf _ i e _ Hw Hn Hi) as (Hw' & Hm & Ha). split; [|split; [exact Ha|done]].
      split; [done|]. by eapply bloom_ok_members.
  - assert (Hg : zset_abs z !! m = None) by by apply score_map_None. rewrite Hg. cbn [fst snd].
    destruct (zset_insert_spec z inc m Hz Hinc) as (? & Ha & _). split; [done|]. split; [|done].
    rewrite Ha. unfold insert_map. by rewrite Hg.
Qed.

(** ** Ranges by score *)

Lemma score_mono es i j x y :
  sorted es → es !! i = Some x → es !! j = Some y → (i < j)%nat →
  key_cmp (f64_key (score y)) (f64_key (score x)) ≠ Lt.
Proof.
  intros Hs Hi Hj Hlt Hc. destruct (sorted_lookup es i j x y Hs Hi Hj Hlt) as [H|[H _]].
  - rewrite key_cmp_antisym, H in Hc. done.
  - by rewrite (proj2 (key_cmp_eq _ _)) in Hc by done.
Qed.

(** Where the two searches of a range query end. *)
Lemma score_bounds z mn mx :
  entries_wf (entries z) → num mn → num mx →
  ((score_start z mn <= length (entries z))%nat ∧
   ∀ i e, entries z !! i = Some e → f64_lt (score e) mn = (i <? score_start z mn)%nat) ∧
  ((score_end z mx <= length (entries z))%nat ∧
   ∀ i e, entries z !! i = Some e → f64_le (score e) mx = (i <? score_end z mx)%nat).
Proof.
  intros [Hs Hn _] Hmn Hmx. rewrite Forall_lookup in Hn.
  assert (Hpp : ∀ p : ZEntry → bool,
    (∀ i j x y, entries z !! i = Some x → entries z !! j = Some y → (i < j)%nat → p y = true → p x = true) →
    (partition_point p (entries z) <= length (entries z))%nat ∧
    ∀ i e, entries z !! i = Some e → p e = (i <? partition_point p (entries z))%nat).
  { intros p Hp. destruct (prefix_count p _ Hp) as (n & Hle & Hl).
    by rewrite (partition_point_spec p _ n Hle Hl). }
  split; apply Hpp; intros i j x y Hi Hj Hlt Hy; pose proof (Hn _ _ Hi); pose proof (Hn _ _ Hj);
    pose proof (score_mono _ i j x y Hs Hi Hj Hlt) as Hmono.
  - apply f64_lt_key in Hy; [|done..]. apply f64_lt_key; [done..|].
    destruct (key_cmp (f64_key (score x)) (f64_key mn)) eqn:E; [|done|].
    + apply key_cmp_eq in E. congruence.
    + exfalso. apply Hmono. rewrite key_cmp_antisym in E.
      destruct (key_cmp (f64_key mn) _) eqn:E'; try done. by eapply key_cmp_trans.
  - rewrite f64_le_key in Hy |- * by done. apply negb_true_iff in Hy. apply negb_true_iff.
    destruct (f64_lt mx (score x)) eqn:E; [|done]. apply f64_lt_key in E; [|done..].
    exfalso. assert (f64_lt mx (score y) = true); [|congruence]. apply f64_lt_key; [done..|].
    destruct (key_cmp (f64_key (score x)) (f64_key (score y))) eqn:E'.
    + apply key_cmp_eq in E'. congruence.
    + by eapply key_cmp_trans.
    + exfalso. apply Hmono. by rewrite key_cmp_antisym, E'.
Qed.

Lemma filter_all {A} (p : A → bool) l b :
  Forall (λ x, p x = b) l → List.filter p l = if b then l else [].
Proof. induction 1 as [|x l Hx _ IH]; simpl; [by destruct b|]. rewrite Hx. by destruct b; rewrite IH. Qed.

(** Between two prefix lengths lies what fails the first test and passes the second. *)
Lemma slice_filter {A} (p q : A → bool) (l : list A) n m :
  (n <= m <= length l)%nat →
  (∀ i x, l !! i = Some x → p x = (i <? n)%nat) → (∀ i x, l !! i = Some x → q x = (i <? m)%nat) →
  List.filter (λ x, negb (p x) && q x) l = take (m - n) (drop n l).
Proof.
  intros Hnm Hp Hq. rewrite <- (take_drop n l) at 1.
  rewrite <- (take_drop (m - n) (drop n l)) at 1. rewrite !List.filter_app.
  rewrite (filter_all _ (take n l) false), (filter_all _ (take (m - n) _) true), (filter_all _ _ false).
  - by rewrite app_nil_r.
  - apply Forall_lookup. intros i x. rewrite !lookup_drop. intros Hi. rewrite (Hq _ _ Hi).
    rewrite (proj2 (Nat.ltb_ge _ _)) by lia. apply andb_false_r.
  - apply Forall_lookup. intros i x [Hi Hlt]%lookup_take_Some. rewrite lookup_drop in Hi.
    rewrite (Hp _ _ Hi), (Hq _ _ Hi), (proj2 (Nat.ltb_ge _ _)), (proj2 (Nat.ltb_lt _ _)) by lia. done.
  - apply Forall_lookup. intros i x [Hi Hlt]%lookup_take_Some.
    by rewrite (Hp _ _ Hi), (proj2 (Nat.ltb_lt _ _)) by lia.
Qed.

Definition in_score_range (mn mx : f64) (e : ZEntry) : bool :=
  f64_le mn (score e) && f64_le (score e) mx.

Lemma score_filter z mn mx :
  entries_wf (entries z) → num mn →
  List.filter (in_score_range mn mx) (entries z) =
  List.filter (λ e, negb (f64_lt (score e) mn) && f64_le (score e) mx) (entries z).
Proof.
  intros [_ Hn _] Hmn. apply List.filter_ext_in. intros e He%list_elem_of_In.
  rewrite Forall_forall in Hn. unfold in_score_range. by rewrite (f64_le_key mn) by (done || by apply Hn).
Qed.

Lemma range_by_score_cases z mn mx :
  entries_wf (entries z) → num mn → num mx →
  range_by_score z mn mx =
    if (score_start z mn <=? score_end z mx)%nat
    then Some (List.filter (in_score_range mn mx) (entries z)) else None.
Proof.
  intros Hw Hmn Hmx. destruct (score_bounds z mn mx Hw Hmn Hmx) as [[Hl1 H1] [Hl2 H2]].
  unfold range_by_score, entry_slice. rewrite (proj2 (Nat.leb_le _ _) Hl2), andb_true_r.
  case_goal; [|done]. split_bool. rewrite score_filter by done. f_equal. symmetry.
  by apply slice_filter.
Qed.

(** ** Reachable sets *)

Lemma zset_new_wf : zset_wf ZSetData_new.
Proof.
  split; [split; [constructor|constructor|apply NoDup_nil_2]|]. split; [simpl; lia|].
  intros m Hm. by apply elem_of_nil in Hm.
Qed.

Lemma with_capacity_zwf n : zset_wf (ZSetData_with_capacity n).
Proof.
  split; [split; [constructor|constructor|apply NoDup_nil_2]|]. split.
  - simpl. rewrite length_replicate. pose proof (bloom_words_pos n). lia.
  - intros m Hm. by apply elem_of_nil in Hm.
Qed.

(** The sets a program can build without feeding or producing a NaN. *)
Inductive zreach : ZSetData → Prop :=
| zr_new : zreach ZSetData_new
| zr_with_capacity n : zreach (ZSetData_with_capacity n)
| zr_insert z sc m : zreach z → num sc → zreach (zset_insert z sc m).1
| zr_incr z m inc :
    zreach z → num inc → num (zset_incr z m inc).2 → zreach (zset_incr z m inc).1
| zr_remove z m : zreach z → zreach (zset_remove z m).1
| zr_pop_min z : zreach z → zreach (pop_min z).1
| zr_pop_max z : zreach z → zreach (pop_max z).1
| zr_remove_rank z a b : zreach z → zreach (remove_range_by_rank z a b).1
| zr_remove_score z mn mx : zreach z → zreach (remove_range_by_score z mn mx).1
| zr_remove_lex z mn mx a b : zreach z → zreach (remove_lex_range z mn mx a b).1
| zr_shrink z : zreach z → zreach (zset_shrink_to_fit z).

Lemma zset_incr_score z m inc old :
  zset_wf z → zset_abs z !! m = Some old → (zset_incr z m inc).2 = f64_add old inc.
Proof.
  intros [Hw _] Hold. pose proof (zposition_spec m (entries z)) as Hp. unfold zset_incr, zset_abs in *.
  destruct (zposition m (entries z)) as [i|]; [|by rewrite (score_map_None _ _ Hp) in Hold].
  destruct Hp as (e & Hi & <-). rewrite Hi. simpl.
  rewrite (score_map_Some _ i e (zw_nodup _ Hw) Hi) in Hold. congruence.
Qed.

Lemma zreach_wf z : zreach z → zset_wf z.
Proof.
  induction 1;
    eauto using zset_new_wf, with_capacity_zwf, pop_min_wf, pop_max_wf, remove_range_by_rank_wf,
      remove_range_by_score_wf, remove_lex_range_wf.
  - by apply zset_insert_spec.
  - apply zset_incr_spec; [done|done|]. intros old Hold. by rewrite <- (zset_incr_score z m).
  - by apply zset_remove_spec.
  - destruct IHzreach as [Hw Hb]. split; [done|exact (proj2 (bloom_rebuild_ok z))].
Qed.

(** ** Properties *)

(** C22: A sorted set stays sorted.  In every set built without NaN the entries
    are in strictly increasing order of score and member, there is one entry
    per member, and the filter has no false negative: a member that is in the
    set always passes it. *)
Theorem zset_invariant z :
  zreach z →
  StronglySorted ze_lt (entries z) ∧ NoDup (member <$> entries z) ∧
  (∀ m, m ∈ member <$> entries z → bloom_maybe_contains (bloom z) (member_hash m) = true).
Proof. intros [[Hs _ Hnd] [_ Hb]]%zreach_wf. done. Qed.

(** C13: Insertion, removal and increment refine a finite map from members to
    scores.  An insertion stores the score, except that a member already there
    keeps its score when the two differ by at most [EPSILON]; an increment adds
    to the stored score; a removal returns it. *)
Theorem zset_ops_refine z sc m :
  zreach z → num sc →
  zset_abs (zset_insert z sc m).1 = insert_map (zset_abs z) sc m ∧
  (zset_insert z sc m).2 = bool_decide (zset_abs z !! m = None) ∧
  zset_abs (zset_remove z m).1 = delete m (zset_abs z) ∧
  (zset_remove z m).2 = zset_abs z !! m ∧
  get_score z m = zset_abs z !! m ∧
  (num (zset_incr z m sc).2 →
   zset_abs (zset_incr z m sc).1 = <[m := (zset_incr z m sc).2]> (zset_abs z) ∧
   (zset_incr z m sc).2 = match zset_abs z !! m with Some old => f64_add old sc | None => sc end).
Proof.
  intros Hz%zreach_wf Hsc. destruct (zset_insert_spec z sc m Hz Hsc) as (_ & ? & ?).
  destruct (zset_remove_spec z m Hz) as (_ & ? & ?). pose proof (get_score_spec z m Hz).
  split_and!; try done. intros Hn. destruct (zset_incr_spec z m sc Hz Hsc) as (_ & Ha & Hb).
  - intros old Hold. by rewrite <- (zset_incr_score z m).
  - by rewrite Hb.
Qed.

(** A range query by score is a filter.  On every reachable set and for
    bounds that are not NaN, the binary searches of [range_by_score] return
    exactly the entries with a score between the bounds, in order, and
    [count_in_score_range] counts them; the query panics exactly when some entry
    lies strictly above the maximum and strictly below the minimum. *)
Theorem range_by_score_correct z mn mx :
  zreach z → num mn → num mx →
  match range_by_score z mn mx with
  | Some es => es = List.filter (in_score_range mn mx) (entries z) ∧
      (Z.of_nat (length es) < 2 ^ 64 → count_in_score_range z mn mx = Z.of_nat (length es))
  | None => ∃ e, e ∈ entries z ∧ f64_lt mx (score e) = true ∧ f64_lt (score e) mn = true
  end.
Proof.
  intros [Hw _]%zreach_wf Hmn Hmx.
  destruct (score_bounds z mn mx Hw Hmn Hmx) as [[Hl1 H1] [Hl2 H2]].
  rewrite range_by_score_cases by done. destruct (_ <=? _)%nat eqn:E; split_bool.
  - split; [done|]. rewrite score_filter by done. rewrite (slice_filter _ _ _ _ _ (conj E Hl2) H1 H2).
    rewrite length_take, length_drop. intros Hlen. unfold count_in_score_range, wrap64, u64_mod.
    rewrite Z.mod_small; lia.
  - destruct (lookup_lt_is_Some_2 (entries z) (score_end z mx)) as [e He]; [lia|].
    exists e. split; [by eapply list_elem_of_lookup_2|]. split.
    + pose proof (H2 _ _ He) as Hle. rewrite Nat.ltb_irrefl in Hle.
      pose proof (zw_num _ Hw) as Hn. rewrite Forall_lookup in Hn.
      rewrite f64_le_key in Hle by (done || by eapply Hn). by apply negb_false_iff in Hle.
    + rewrite (H1 _ _ He). by apply Nat.ltb_lt.
Qed.

(** A query whose minimum is above and whose maximum is below the score of
    an entry slices the entries backwards, a panic, and the count of the same
    range wraps around to [2^64 - 1]. *)
Theorem inverted_range_panics :
  let z := zset_of [(7, B "a")] in
  range_by_score z (f64_of_Z 10) (f64_of_Z 5) = None ∧
  rev_range_by_score z (f64_of_Z 10) (f64_of_Z 5) = None ∧
  count_in_score_range z (f64_of_Z 10) (f64_of_Z 5) = 2 ^ 64 - 1.
Proof. vm_compute. done. Qed.

(** ** Witnesses *)

Definition demo_zset : ZSetData := zset_of [(3, B "c"); (1, B "b"); (1, B "a")].

Lemma demo_zreach : zreach demo_zset.
Proof. repeat (apply zr_insert; [|reflexivity]). apply zr_new. Qed.

Lemma zset_invariant_witness :
  zreach demo_zset ∧ length (entries demo_zset) = 3%nat ∧ StronglySorted ze_lt (entries demo_zset).
Proof.
  split; [exact demo_zreach|]. split; [vm_compute; reflexivity|].
  apply (zset_invariant demo_zset demo_zreach).
Defined.

Lemma zset_ops_refine_witness :
  zreach demo_zset ∧ num (f64_of_Z 9) ∧
  zset_abs (zset_insert demo_zset (f64_of_Z 9) (B "a")).1 =
    insert_map (zset_abs demo_zset) (f64_of_Z 9) (B "a").
Proof.
  split; [exact demo_zreach|]. split; [reflexivity|].
  apply (zset_ops_refine demo_zset (f64_of_Z 9) (B "a") demo_zreach eq_refl).
Defined.

Lemma range_by_score_correct_witness :
  zreach demo_zset ∧
  match range_by_score demo_zset (f64_of_Z 1) (f64_of_Z 2) with
  | Some es => es = List.filter (in_score_range (f64_of_Z 1) (f64_of_Z 2)) (entries demo_zset) ∧
      (Z.of_nat (length es) < 2 ^ 64 →
       count_in_score_range demo_zset (f64_of_Z 1) (f64_of_Z 2) = Z.of_nat (length es))
  | None => ∃ e, e ∈ entries demo_zset ∧ f64_lt (f64_of_Z 2) (score e) = true ∧
      f64_lt (score e) (f64_of_Z 1) = true
  end.
Proof.
  split; [exact demo_zreach|].
  exact (range_by_score_correct demo_zset (f64_of_Z 1) (f64_of_Z 2) demo_zreach eq_refl eq_refl).
Defined.


Record zmap_ok (z : ZSetData) : Prop := {
  zm_nodup : NoDup (member <$> entries z);
  zm_bloom : bloom_ok (bloom z) (entries z);
}.

Lemma zset_wf_map z : zset_wf z → zmap_ok z.
Proof. intros [Hw Hb]. split; [by apply zw_nodup|done]. Qed.

Lemma zmap_new : zmap_ok ZSetData_new.
Proof. apply zset_wf_map, zset_new_wf. Qed.

#[export] Hint Resolve zset_wf_map zmap_new zm_nodup zm_bloom : fyro.

Lemma place_entry_perm es sc m : place_entry es sc m ≡ₚ mkZEntry sc m :: es.
Proof. unfold place_entry, vec_insert. by rewrite <- Permutation_middle, take_drop. Qed.

(** Entries that are, up to order, those of a map with one more binding. *)
Lemma zmap_ok_cons e es es' :
  es' ≡ₚ e :: es → NoDup (member <$> es) → member e ∉ member <$> es →
  NoDup (member <$> es') ∧ score_map es' = <[member e := score e]> (score_map es).
Proof.
  intros Hp Hnd Hm. assert (Hnd' : NoDup (member <$> es')) by (rewrite Hp; by constructor).
  split; [done|]. by rewrite (score_map_perm es' _ Hnd' Hp), score_map_cons.
Qed.

Lemma insert_fresh_map z sc m :
  zmap_ok z → m ∉ member <$> entries z →
  zmap_ok (insert_fresh z sc m) ∧ zset_abs (insert_fresh z sc m) = <[m := sc]> (zset_abs z).
Proof.
  intros [Hnd Hb] Hm. unfold insert_fresh. set (es := if fits_last _ _ _ then _ else _).
  assert (Hp : es ≡ₚ mkZEntry sc m :: entries z).
  { unfold es. case_goal; [symmetry; apply Permutation_cons_append|apply place_entry_perm]. }
  clearbody es. destruct (zmap_ok_cons (mkZEntry sc m) (entries z) es Hp Hnd Hm) as [Hnd' Ha].
  destruct (bloom_grow_ok (mkZSet es (bloom_set (bloom z) (member_hash m)))) as [Hee Hbb].
  { eapply bloom_ok_perm; [symmetry; exact Hp|]. exact (bloom_ok_cons _ (mkZEntry sc m) _ Hb). }
  split; [split; by rewrite Hee|]. unfold zset_abs. by rewrite Hee.
Qed.

(** The entry at [i] replaced, wherever it goes, by one with a new score. *)
Lemma rescore_map z i e sc es' :
  zmap_ok z → entries z !! i = Some e → es' ≡ₚ mkZEntry sc (member e) :: delete i (entries z) →
  zmap_ok (with_entries z es') ∧ zset_abs (with_entries z es') = <[member e := sc]> (zset_abs z).
Proof.
  intros [Hnd Hb] Hi Hp. pose proof (delete_member _ i e Hnd Hi) as Hm.
  pose proof (delete_Permutation _ i e Hi) as Hd.
  assert (Hnd' : NoDup (member <$> delete i (entries z))).
  { eapply sublist_NoDup; [exact Hnd|]. apply fmap_sublist, sublist_delete. }
  destruct (zmap_ok_cons _ _ es' Hp Hnd' Hm) as [Hnd2 Ha]. split.
  - split; [done|]. eapply bloom_ok_members; [|exact Hb]. simpl. rewrite Hp. simpl.
    symmetry. exact (fmap_Permutation member _ _ Hd).
  - unfold zset_abs. simpl. rewrite Ha, (score_map_perm _ _ Hnd Hd), score_map_cons. by rewrite insert_insert_eq.
Qed.

Lemma zset_insert_map z sc m :
  zmap_ok z →
  zmap_ok (zset_insert z sc m).1 ∧
  zset_abs (zset_insert z sc m).1 = insert_map (zset_abs z) sc m ∧
  (zset_insert z sc m).2 = bool_decide (zset_abs z !! m = None).
Proof.
  intros Hz. apply zset_insert_cases; [by apply zm_bloom| |].
  - intros Hm. destruct (insert_fresh_map z sc m Hz Hm) as [? ?].
    assert (Hn : zset_abs z !! m = None) by by apply score_map_None.
    unfold insert_map. by rewrite Hn.
  - intros i e Hi <-. pose proof (score_map_Some _ i e (zm_nodup _ Hz) Hi) as Hs.
    unfold insert_map, zset_abs. rewrite Hs. simpl. destruct (score_moved _ _); [|done].
    destruct (rescore_map z i e sc _ Hz Hi (place_entry_perm _ _ _)) as [? Ha]. split; [done|].
    split; [exact Ha|done].
Qed.

Lemma with_entries_map z es : es `sublist_of` entries z → zmap_ok z → zmap_ok (with_entries z es).
Proof.
  intros Hsub [Hnd Hb]. split; [eapply sublist_NoDup; [exact Hnd|by apply fmap_sublist]|].
  eapply bloom_ok_sub; [|done].
  intros m (e & -> & He)%list_elem_of_fmap. apply list_elem_of_fmap_2. by eapply elem_of_sublist.
Qed.

Lemma zset_remove_map z m :
  zmap_ok z →
  zmap_ok (zset_remove z m).1 ∧ zset_abs (zset_remove z m).1 = delete m (zset_abs z) ∧
  (zset_remove z m).2 = zset_abs z !! m.
Proof.
  intros Hz. pose proof (zposition_spec m (entries z)) as Hp. unfold zset_remove.
  destruct (zposition m (entries z)) as [i|].
  - destruct Hp as (e & Hi & <-). simpl. rewrite Hi. split; [|split].
    + apply with_entries_map; [apply sublist_delete|done].
    + by apply score_map_delete; [apply zm_nodup|].
    + symmetry. by eapply score_map_Some; [apply zm_nodup|].
  - assert (Hn : zset_abs z !! m = None) by by apply score_map_None. simpl.
    split; [done|]. by rewrite Hn, delete_id.
Qed.

Lemma get_score_map z m : zmap_ok z → get_score z m = zset_abs z !! m.
Proof.
  intros [Hw _]. unfold get_score, zset_abs.
  induction (entries z) as [|e es IH]; [done|]. rewrite score_map_cons. simpl.
  apply NoDup_cons in Hw as [Hm Hnd]. destruct (decide (member e = m)) as [<-|Hne].
  - by rewrite bool_decide_eq_true_2, lookup_insert_eq by done.
  - rewrite bool_decide_eq_false_2, lookup_insert_ne by done. by apply IH.
Qed.

Lemma zset_incr_map z m inc :
  zmap_ok z →
  zmap_ok (zset_incr z m inc).1 ∧
  zset_abs (zset_incr z m inc).1 = <[m := (zset_incr z m inc).2]> (zset_abs z) ∧
  (zset_incr z m inc).2 = match zset_abs z !! m with Some old => f64_add old inc | None => inc end.
Proof.
  intros Hz. pose proof (zposition_spec m (entries z)) as Hp. unfold zset_incr.
  destruct (zposition m (entries z)) as [i|].
  - destruct Hp as (e & Hi & <-). rewrite Hi. simpl.
    assert (Hs : zset_abs z !! member e = Some (score e)) by (apply (score_map_Some _ i); [by apply zm_nodup|done]).
    rewrite Hs. destruct (rescore_map z i e (f64_add (score e) inc)
      (if stays (entries z) i (f64_add (score e) inc) (member e)
       then <[i := mkZEntry (f64_add (score e) inc) (member e)]> (entries z)
       else place_entry (delete i (entries z)) (f64_add (score e) inc) (member e)) Hz Hi) as [? ?]; [|done].
    case_goal; [|apply place_entry_perm].
    rewrite <- (delete_insert_same (entries z) i (mkZEntry (f64_add (score e) inc) (member e))).
    apply delete_Permutation. apply list_lookup_insert_eq. by eapply lookup_lt_Some.
  - assert (Hn : zset_abs z !! m = None) by by apply score_map_None. rewrite Hn. simpl.
    destruct (zset_insert_map z inc m Hz) as (? & Ha & _). split; [done|]. rewrite Ha.
    unfold insert_map. by rewrite Hn.
Qed.

Lemma pop_min_map z : zmap_ok z → zmap_ok (pop_min z).1.
Proof.
  intros Hz. unfold pop_min. destruct (entries z) as [|e es] eqn:E; [done|].
  apply with_entries_map; [|done]. rewrite E. by constructor.
Qed.

Lemma pop_max_map z : zmap_ok z → zmap_ok (pop_max z).1.
Proof.
  intros Hz. unfold pop_max. destruct (vec_pop (entries z)) as [es [e|]] eqn:E; [|done].
  apply with_entries_map; [|done]. pose proof (vec_pop_delete (entries z)) as Hd. rewrite E in Hd. simpl in Hd.
  rewrite Hd. apply sublist_delete.
Qed.

Lemma zset_contains_map z m : zset_contains z m = bool_decide (is_Some (zset_abs z !! m)).
Proof.
  unfold zset_contains, zset_abs. induction (entries z) as [|e es IH]; [done|].
  rewrite score_map_cons. simpl. rewrite IH. destruct (decide (member e = m)) as [<-|Hne].
  - rewrite lookup_insert_eq, (bool_decide_eq_true_2 (member e = member e)) by done.
    symmetry. by apply bool_decide_eq_true_2.
  - by rewrite lookup_insert_ne, bool_decide_eq_false_2 by done.
Qed.

(** The size is the number of entries. *)
Lemma zset_len_map z : zmap_ok z → zset_len z = size (zset_abs z).
Proof.
  intros [Hnd _]. unfold zset_len, zset_abs. induction (entries z) as [|e es IH]; [done|].
  apply NoDup_cons in Hnd as [Hm Hnd]. rewrite score_map_cons, map_size_insert_None by by apply score_map_None.
  simpl. by rewrite IH.
Qed.
