(* ===== verification/Value.v ===== *)
(** Streams, stored values, their expiry and the clock (storage/stream.rs,
    storage/value/mod.rs).

    The [BTreeMap] of a stream is an association list in increasing key order.

    [SystemTime::now] is outside the model: an operation runs at one instant,
    a [Clock] with the real time in milliseconds and the cached time that
    [tick_clock] last stored ([0] before the first tick). *)

From S2P Require Import Prelude Decimal Collections ZSet.
Local Open Scope Z_scope.

Record StreamId := mkId { ms : Z; seq : Z }.

#[global] Instance StreamId_eq_dec : EqDecision StreamId.
Proof. solve_decision. Defined.

(** The derived order: by [ms], then by [seq]. *)
Definition id_cmp (a b : StreamId) : comparison :=
  match ms a ?= ms b with Eq => seq a ?= seq b | c => c end.
Definition id_le (a b : StreamId) : bool := match id_cmp a b with Gt => false | _ => true end.
Definition id_lt (a b : StreamId) : Prop := id_cmp a b = Lt.

Definition id_min : StreamId := mkId 0 0.
Definition id_max : StreamId := mkId (2 ^ 64 - 1) (2 ^ 64 - 1).

(** [Display]: [{ms}-{seq}]. *)
Definition id_to_string (i : StreamId) : bytes := u64_to_string (ms i) ++ B "-" ++ u64_to_string (seq i).

(** [s.splitn(2, '-')]: the part before the first dash, and the rest if there is one. *)
Fixpoint split_dash (s : bytes) : bytes * option bytes :=
  match s with
  | [] => ([], None)
  | b :: s' =>
      if bool_decide (b = z2b 45) then ([], Some s')
      else let '(a, r) := split_dash s' in (b :: a, r)
  end.

Definition id_parse (s : bytes) : option StreamId :=
  match split_dash s with
  | (m, Some q) => m' ← parse_u64 m; q' ← parse_u64 q; Some (mkId m' q')
  | (m, None) => m' ← parse_u64 m; Some (mkId m' 0)
  end.

(** ** Ordered maps *)

Section BTree.
Context {A : Type}.
Implicit Types l : list (StreamId * A).

Fixpoint bt_insert (k : StreamId) (v : A) l : list (StreamId * A) :=
  match l with
  | [] => [(k, v)]
  | (k', v') :: l' =>
      match id_cmp k k' with
      | Lt => (k, v) :: (k', v') :: l'
      | Eq => (k, v) :: l'
      | Gt => (k', v') :: bt_insert k v l'
      end
  end.

Fixpoint bt_remove (k : StreamId) l : list (StreamId * A) * option A :=
  match l with
  | [] => ([], None)
  | (k', v') :: l' =>
      if bool_decide (k = k') then (l', Some v')
      else let '(l'', r) := bt_remove k l' in ((k', v') :: l'', r)
  end.

(** [range(lo..=hi)]: the [BTreeMap] panics ([None]) when [lo > hi]. *)
Definition bt_range (lo hi : StreamId) l : option (list (StreamId * A)) :=
  if id_le lo hi then Some (List.filter (λ p, id_le lo p.1 && id_le p.1 hi) l) else None.
End BTree.

(** ** Streams *)

Record PelEntry := mkPel { pel_consumer : bytes; delivery_time : Z; delivery_count : Z }.
Record ConsumerGroup := mkGroup {
  last_delivered : StreamId;
  pel : list (StreamId * PelEntry);
  consumers : gmap bytes (list StreamId);
}.

Record StreamData := mkStream {
  s_entries : list (StreamId * list (bytes * bytes));
  last_id : StreamId;
  groups : gmap bytes ConsumerGroup;
}.

Definition StreamData_new : StreamData := mkStream [] (mkId 0 0) ∅.

Definition stream_len (s : StreamData) : nat := length (s_entries s).

(** The id given to a new entry; [now] is the clock and [seq + 1] is a [u64]. *)
Definition actual_id (now : Z) (last : StreamId) (i : StreamId) : StreamId :=
  if (ms i =? 0) && (seq i =? 0) then
    mkId now (if now =? ms last then wrap64 (seq last + 1) else 0)
  else if (seq i =? 0) && (0 <? ms i) then
    (if ms i =? ms last then mkId (ms i) (wrap64 (seq last + 1)) else i)
  else i.

Definition stream_add (now : Z) (i : StreamId) (fields : list (bytes * bytes)) (s : StreamData)
    : StreamData * StreamId :=
  let id := actual_id now (last_id s) i in
  (mkStream (bt_insert id fields (s_entries s)) id (groups s), id).

(** [pop_first] while longer than [maxlen]; the length is enough fuel. *)
Fixpoint trim_loop (fuel maxlen : nat) (l : list (StreamId * list (bytes * bytes))) :=
  match fuel with
  | O => l
  | S fuel' => if (maxlen <? length l)%nat then trim_loop fuel' maxlen (tail l) else l
  end.

Definition trim_maxlen (maxlen : nat) (s : StreamData) : StreamData :=
  mkStream (trim_loop (length (s_entries s)) maxlen (s_entries s)) (last_id s) (groups s).


Inductive FyroDB :=
| VString (s : bytes)
| VHash (h : HashInner)
| VList (l : ListInner)
| VSet (s : SetInner)
| VZSet (z : ZSetData)
| VJson (s : bytes)
| VStream (s : StreamData).

Definition type_name (v : FyroDB) : bytes :=
  match v with
  | VString _ => B "string"
  | VHash _ => B "hash"
  | VList _ => B "list"
  | VSet _ => B "set"
  | VZSet _ => B "zset"
  | VJson _ => B "ReJSON-RL"
  | VStream _ => B "stream"
  end.

Definition as_string (v : FyroDB) : option bytes := match v with VString s => Some s | _ => None end.
Definition as_hash (v : FyroDB) : option HashInner := match v with VHash h => Some h | _ => None end.
(** [as_list] and [as_list_mut] give the deque of the list. *)
Definition as_list (v : FyroDB) : option (list bytes) :=
  match v with VList l => Some (deque l) | _ => None end.
Definition as_set (v : FyroDB) : option SetInner := match v with VSet s => Some s | _ => None end.
Definition as_zset (v : FyroDB) : option ZSetData := match v with VZSet z => Some z | _ => None end.
Definition as_json_str (v : FyroDB) : option bytes := match v with VJson s => Some s | _ => None end.
Definition as_stream (v : FyroDB) : option StreamData := match v with VStream s => Some s | _ => None end.

(** The value after its deque was changed through [as_list_mut]. *)
Definition put_list (v : FyroDB) (l : list bytes) : FyroDB :=
  match v with VList li => VList (with_deque li l) | _ => v end.

(** ** The clock *)

Record Clock := mkClock { now_ms : Z; cached_ms : Z }.

Definition tick_clock (c : Clock) : Clock := mkClock (now_ms c) (now_ms c).

Definition approx_now_ms (c : Clock) : Z := if cached_ms c =? 0 then now_ms c else cached_ms c.

Definition expiry_from_secs (c : Clock) (secs : Z) : option Z :=
  t ← checked_mul_u64 secs 1000; checked_add_u64 (approx_now_ms c) t.
Definition expiry_from_ms (c : Clock) (ms : Z) : option Z := checked_add_u64 (approx_now_ms c) ms.
Definition expiry_from_unix_secs (unix_secs : Z) : option Z := checked_mul_u64 unix_secs 1000.

(** ** Stored values *)

(** [expires_ms = 0] is a value that does not expire. *)
Record StoreValue := mkValue { value : FyroDB; expires_ms : Z }.

Definition StoreValue_string (s : bytes) : StoreValue := mkValue (VString s) 0.
Definition StoreValue_hash (h : gmap bytes bytes) : StoreValue := mkValue (VHash (HFull h)) 0.
Definition StoreValue_list (l : list bytes) : StoreValue := mkValue (VList (LFull l)) 0.
(** The members of the [HashSet] come in some order. *)
Definition StoreValue_set `{HashOrder} (s : gset bytes) : StoreValue :=
  mkValue (VSet (set_from_strings (set_order s))) 0.
Definition StoreValue_zset (z : ZSetData) : StoreValue := mkValue (VZSet z) 0.
Definition StoreValue_stream (s : StreamData) : StoreValue := mkValue (VStream s) 0.

Definition is_expired (c : Clock) (v : StoreValue) : bool :=
  negb (expires_ms v =? 0) && (expires_ms v <=? approx_now_ms c).

Definition is_expired_precise (c : Clock) (v : StoreValue) : bool :=
  negb (expires_ms v =? 0) && (expires_ms v <=? now_ms c).

Definition ttl_ms (c : Clock) (v : StoreValue) : option Z :=
  if expires_ms v =? 0 then None
  else if expires_ms v <=? now_ms c then None
  else Some (expires_ms v - now_ms c).
