(* ===== verification/Store.v ===== *)
(** The store and its key space: storage/store.rs, keys.rs, server.rs and
    string.rs.

    Everything is parametric in the map ([KVMap]); a closure handed to
    [update_with] is a function on the stored value.  Counters are integers
    that do not reach [2^64]. *)

From S2P Require Import Prelude Decimal MapIface Collections Value Glob Resp.
Local Open Scope Z_scope.

Record Store (M : Type) := mkStore {
  data : M;
  connected_clients : Z;
  ttl_count : Z;
  ttl_generation : Z;
}.
Arguments mkStore {M} _ _ _ _.
Arguments data {M} _.
Arguments connected_clients {M} _.
Arguments ttl_count {M} _.
Arguments ttl_generation {M} _.

Section Ttl.
Context {M : Type}.
Implicit Types st : Store M.

Definition with_data st (m : M) : Store M :=
  mkStore m (connected_clients st) (ttl_count st) (ttl_generation st).

Definition client_connected st : Store M :=
  mkStore (data st) (connected_clients st + 1) (ttl_count st) (ttl_generation st).
(** [fetch_sub] wraps. *)
Definition client_disconnected st : Store M :=
  mkStore (data st) (wrap64 (connected_clients st - 1)) (ttl_count st) (ttl_generation st).

Definition add_ttl st : Store M :=
  mkStore (data st) (connected_clients st) (ttl_count st + 1) (ttl_generation st + 1).

(** [checked_sub]: nothing at zero. *)
Definition sub_ttl st : Store M :=
  mkStore (data st) (connected_clients st)
    (if ttl_count st =? 0 then ttl_count st else ttl_count st - 1) (ttl_generation st).

Definition has_ttl_keys st : bool := 0 <? ttl_count st.

Definition reset_ttl_count st : Store M :=
  mkStore (data st) (connected_clients st) 0 (ttl_generation st + 1).

(** With no other thread between the loads, the compare-exchange succeeds. *)
Definition finish_ttl_scan (generation live_ttls : Z) st : Store M :=
  if negb (ttl_generation st =? generation) then st
  else mkStore (data st) (connected_clients st) live_ttls (ttl_generation st).
End Ttl.

Section StoreOps.
Context {M : Type} `{KVMap StoreValue M} (c : Clock).
Implicit Types st : Store M.

(** ** Shapes shared by the commands *)

(** [self.data.update_with(key, f)] *)
Definition update_with {R} (key : bytes) (f : StoreValue → StoreValue * R) st : Store M * option R :=
  let '(m, r) := kv_update_with key f (data st) in (with_data st m, r).

(** [self.data.insert(key, value)] *)
Definition put (key : bytes) (v : StoreValue) st : Store M := with_data st (kv_insert key v (data st)).1.

(** [match update_with(key, f) { Some(r) => r, None => { insert; r0 } }] *)
Definition update_or_insert {R} (key : bytes) (f : StoreValue → StoreValue * R) (fresh : StoreValue)
    (r0 : R) st : Store M * R :=
  let '(st', r) := update_with key f st in
  match r with Some r => (st', r) | None => (put key fresh st', r0) end.

(** [match update_with(key, f) { Some(r) => r, None => r0 }] *)
Definition update_or {R} (key : bytes) (f : StoreValue → StoreValue * R) (r0 : R) st : Store M * R :=
  let '(st', r) := update_with key f st in (st', default r0 r).

(** [match get_ref(key) { None => r0, Some(e) if e.is_expired() => r0, Some(e) => f(e) }] *)
Definition read_live {R} (key : bytes) (r0 : R) (f : FyroDB → R) st : R :=
  match kv_get_ref (data st) key with
  | None => r0
  | Some e => if is_expired c e then r0 else f (value e)
  end.

(** ** string.rs *)

Definition MAX_STRING_BYTES : Z := 512 * 1024 * 1024.

Definition store_set (key : bytes) (v : StoreValue) st : Store M :=
  let st := if negb (expires_ms v =? 0) then add_ttl st else st in
  put key v st.

(** [None] is [Err(Full)]; the TTL counter is bumped before the insertion is tried. *)
Definition try_set_value (key : bytes) (v : StoreValue) st : Store M * option unit :=
  let st := if negb (expires_ms v =? 0) then add_ttl st else st in
  let '(m, r) := kv_try_insert key v (data st) in
  (with_data st m, (λ _, tt) <$> r).

Definition set_string (key v : bytes) (exp : Z) st : Store M :=
  let st := with_data st (kv_set key (mkValue (VString v) exp) (data st)).1 in
  if negb (exp =? 0) then add_ttl st else st.

Definition try_set_string (key v : bytes) (exp : Z) st : Store M * option unit :=
  let '(m, r) := kv_try_set key (mkValue (VString v) exp) (data st) in
  match r with
  | None => (with_data st m, None)
  | Some _ =>
      let st := with_data st m in
      (if negb (exp =? 0) then add_ttl st else st, Some tt)
  end.

(** An expired entry is removed by the reader that finds it. *)
Definition store_get (key : bytes) st : Store M * option bytes :=
  match kv_with_entry (data st) key
          (λ v, if is_expired c v then None else Some (as_string (value v))) with
  | None => (st, None)
  | Some None => (with_data st (kv_remove key (data st)).1, None)
  | Some (Some v) => (st, v)
  end.

Definition get_to_buf (key out : bytes) st : Store M * bytes * bool :=
  match kv_with_entry (data st) key
          (λ v, if is_expired c v then None
                else match as_string (value v) with
                     | Some s => Some (Some (write_bulk out s))
                     | None => Some None
                     end) with
  | Some (Some (Some out')) => (st, out', true)
  | Some None => (with_data st (kv_remove key (data st)).1, out, false)
  | _ => (st, out, false)
  end.

Definition getdel (key : bytes) st : Store M * option bytes :=
  let '(m, r) := kv_remove key (data st) in
  (with_data st m, e ← r; if is_expired c e then None else as_string (value e)).

Definition getset (key new_value : bytes) st : Store M * option bytes :=
  let '(m, r) := kv_try_update key
    (λ v, Some (StoreValue_string new_value,
                if is_expired c v then None else as_string (value v))) (data st) in
  match r with
  | Some old => (with_data st m, old)
  | None => (put key (StoreValue_string new_value) (with_data st m), None)
  end.

Definition getex_ms (key : bytes) (exp : Z) st : Store M * option bytes :=
  let '(st, r) := update_with key (λ v,
    if is_expired c v then (v, (None, 0))
    else match as_string (value v) with
         | None => (v, (None, 0))
         | Some s =>
             let ttl_change :=
               match expires_ms v =? 0, exp =? 0 with
               | true, false => 1
               | false, true => -1
               | _, _ => 0
               end in
             (mkValue (value v) exp, (Some s, ttl_change))
         end) st in
  match r with
  | None => (st, None)
  | Some (result, change) =>
      (if change =? 1 then add_ttl st else if change =? -1 then sub_ttl st else st, result)
  end.

Definition setnx (key v : bytes) st : Store M * bool :=
  let '(m, r) := kv_try_update key
    (λ cur, if is_expired c cur then Some (StoreValue_string v, true) else Some (cur, false))
    (data st) in
  match r with
  | Some replaced => (with_data st m, replaced)
  | None => let '(m', b) := kv_insert_if_absent key (StoreValue_string v) m in (with_data st m', b)
  end.

Definition append (key suffix : bytes) st : Store M * result Z :=
  update_or_insert key (λ v,
    if is_expired c v then (mkValue (VString suffix) 0, Ok (zlen suffix))
    else match value v with
         | VString s => (mkValue (VString (s ++ suffix)) (expires_ms v), Ok (zlen (s ++ suffix)))
         | _ => (v, Err WRONGTYPE)
         end) (StoreValue_string suffix) (Ok (zlen suffix)) st.

Definition strlen (key : bytes) st : result Z :=
  read_live key (Ok 0)
    (λ v, match as_string v with Some s => Ok (zlen s) | None => Err WRONGTYPE end) st.

(** [str::is_char_boundary]: not before a continuation byte. *)
Definition is_char_boundary (s : bytes) (i : nat) : bool :=
  (i =? 0)%nat ||
  match s !! i with
  | None => (i =? length s)%nat
  | Some b => (b2z b <? 128) || (192 <=? b2z b)
  end.

Fixpoint boundary_down (s : bytes) (i : nat) : nat :=
  match i with
  | O => O
  | S i' => if is_char_boundary s i then i else boundary_down s i'
  end.

Fixpoint boundary_up (fuel : nat) (s : bytes) (i : nat) : nat :=
  match fuel with
  | O => i
  | S fuel' =>
      if (i <? length s)%nat && negb (is_char_boundary s i) then boundary_up fuel' s (S i) else i
  end.

(** The index arithmetic of [getrange], [lrange] and [ltrim]. *)
Definition clamp_start (len i : Z) : nat :=
  Z.to_nat (if i <? 0 then Z.max (len + i) 0 else Z.min i len).
Definition clamp_stop (len i : Z) : Z := if i <? 0 then Z.max (len + i) 0 else Z.min i (len - 1).

Definition getrange_bytes (s : bytes) (start stop : Z) : bytes :=
  let len := zlen s in
  if len =? 0 then []
  else
    let a := clamp_start len start in
    let b := Z.to_nat (clamp_stop len stop) in
    if (b <? a)%nat then []
    else
      let a := boundary_down s a in
      let b := boundary_up (length s) s (b + 1) in
      take (b - a) (drop a s).

Definition getrange (key : bytes) (start stop : Z) st : bytes :=
  read_live key []
    (λ v, match as_string v with Some s => getrange_bytes s start stop | None => [] end) st.

(** [String::from_utf8]: the well-formed sequences of the standard. *)
Definition byte_in (lo hi : Z) (b : byte) : bool := (lo <=? b2z b) && (b2z b <=? hi).
Fixpoint utf8_valid (s : bytes) : bool :=
  match s with
  | [] => true
  | b :: s1 =>
      if byte_in 0 0x7F b then utf8_valid s1
      else match s1 with
      | [] => false
      | c1 :: s2 =>
          if byte_in 0xC2 0xDF b then byte_in 0x80 0xBF c1 && utf8_valid s2
          else match s2 with
          | [] => false
          | c2 :: s3 =>
              if byte_in 0xE0 0xEF b then
                byte_in (if b2z b =? 0xE0 then 0xA0 else 0x80) (if b2z b =? 0xED then 0x9F else 0xBF) c1
                && byte_in 0x80 0xBF c2 && utf8_valid s3
              else match s3 with
              | [] => false
              | c3 :: s4 =>
                  byte_in 0xF0 0xF4 b &&
                  byte_in (if b2z b =? 0xF0 then 0x90 else 0x80) (if b2z b =? 0xF4 then 0x8F else 0xBF) c1
                  && byte_in 0x80 0xBF c2 && byte_in 0x80 0xBF c3 && utf8_valid s4
              end
          end
      end
  end.

Definition UTF8_ERR : bytes := B "result would not be valid UTF-8".

(** [bytes.resize(needed, 0)] if shorter, then the copy at [offset]. *)
Definition overwrite_at (s : bytes) (offset : nat) (v : bytes) : bytes :=
  let s := s ++ replicate (offset + length v - length s) (z2b 0) in
  take offset s ++ v ++ drop (offset + length v) s.

(** The retry after a lost [insert_if_absent] is the recursive call; [None] is
    an exhausted fuel. *)
Fixpoint setrange_loop (fuel : nat) (key : bytes) (offset : nat) (v : bytes) st
    : option (Store M * result Z) :=
  match fuel with
  | O => None
  | S fuel' =>
      let '(st, r) := update_with key (λ cur,
        match value cur with
        | VString s =>
            let s' := overwrite_at s offset v in
            (mkValue (VString s') (expires_ms cur),
             if utf8_valid s' then Ok (zlen s') else Err UTF8_ERR)
        | _ => (cur, Err WRONGTYPE)
        end) st in
      match r with
      | Some r => Some (st, r)
      | None =>
          let s' := replicate offset (z2b 0) ++ v in
          if utf8_valid s' then
            let '(m, ok) := kv_insert_if_absent key (StoreValue_string s') (data st) in
            let st := with_data st m in
            if ok then Some (st, Ok (zlen s')) else setrange_loop fuel' key offset v st
          else Some (st, Err UTF8_ERR)
      end
  end.

Definition setrange (key : bytes) (offset : Z) (v : bytes) st : Store M * result Z :=
  if usize_max <? offset + zlen v then (st, Err (B "offset is out of range"))
  else if MAX_STRING_BYTES <? offset + zlen v
  then (st, Err (B "string exceeds maximum allowed size"))
  else default (st, Err []) (setrange_loop 1 key (Z.to_nat offset) v st).

Definition NOT_INT : bytes := B "value is not an integer or out of range".
Definition OVERFLOW : bytes := B "increment or decrement would overflow".

(** The two closures of [int_op]: the second, under the creation lock, reads a
    string that is not a number as zero. *)
Definition int_update (parse : bytes → option Z) (delta : Z) (v : StoreValue)
    : StoreValue * result Z :=
  match as_string (value v) with
  | Some s =>
      match parse s with
      | None => (v, Err NOT_INT)
      | Some n =>
          match checked_add_i64 n delta with
          | None => (v, Err OVERFLOW)
          | Some new => (mkValue (VString (i64_to_string new)) (expires_ms v), Ok new)
          end
      end
  | None => (v, Err WRONGTYPE)
  end.

Definition int_op (key : bytes) (delta : Z) st : Store M * result Z :=
  let '(st, r) := update_with key (int_update parse_i64 delta) st in
  match r with
  | Some r => (st, r)
  | None =>
      update_or_insert key (int_update (λ s, Some (default 0 (parse_i64 s))) delta)
        (StoreValue_string (i64_to_string delta)) (Ok delta) st
  end.

Definition incr (key : bytes) st := int_op key 1 st.
Definition decr (key : bytes) st := int_op key (-1) st.
Definition incrby (key : bytes) (by_ : Z) st := int_op key by_ st.
Definition decrby (key : bytes) (by_ : Z) st : Store M * result Z :=
  match checked_neg_i64 by_ with
  | None => (st, Err OVERFLOW)
  | Some delta => int_op key delta st
  end.

(** ** keys.rs *)

Definition del (key : bytes) st : Store M * bool :=
  let '(m, b) := kv_remove_no_clone key (data st) in (with_data st m, b).

Definition exists_key (key : bytes) st : bool :=
  match kv_get_ref (data st) key with Some e => negb (is_expired_precise c e) | None => false end.

Definition bump_if (ok : bool) st : Store M := if ok then add_ttl st else st.

(** [now_ms() + duration], a wrapping addition in a release build. *)
Definition expire (key : bytes) (duration_ms : Z) st : Store M * bool :=
  let '(st, r) := update_with key (λ v,
    if is_expired c v then (v, false)
    else (mkValue (value v) (wrap64 (now_ms c + duration_ms)), expires_ms v =? 0)) st in
  let ok := default false r in (bump_if ok st, ok).

Definition expire_ms (key : bytes) (abs_ms : Z) st : Store M * bool :=
  let '(st, r) := update_with key (λ v,
    if is_expired c v then (v, false)
    else (mkValue (value v) abs_ms, expires_ms v =? 0)) st in
  let ok := default false r in (bump_if ok st, ok).

Definition persist (key : bytes) st : Store M * bool :=
  let '(st, r) := update_with key (λ v,
    if is_expired c v || (expires_ms v =? 0) then (v, false)
    else (mkValue (value v) 0, true)) st in
  let ok := default false r in (if ok then sub_ttl st else st, ok).

Definition ttl (key : bytes) st : option Z :=
  match kv_get_ref (data st) key with
  | None => None
  | Some e => if is_expired c e then None else ttl_ms c e
  end.

Definition ttl_value_ms (key : bytes) st : Z :=
  match kv_get_ref (data st) key with
  | None => -2
  | Some e =>
      if is_expired c e then -2
      else match ttl_ms c e with None => -1 | Some ms => Z.min ms i64_max end
  end.

Definition rename (old_key new_key : bytes) st : Store M * bool :=
  if bool_decide (old_key = new_key) then (st, exists_key old_key st)
  else
    let '(m, r) := kv_remove old_key (data st) in
    let st := with_data st m in
    match r with
    | Some entry => if negb (is_expired c entry) then (put new_key entry st, true) else (st, false)
    | None => (st, false)
    end.

Definition renamenx (old_key new_key : bytes) st : Store M * bool :=
  if bool_decide (old_key = new_key) then (st, exists_key old_key st)
  else
    let '(m, r) := kv_remove old_key (data st) in
    let st := with_data st m in
    match r with
    | Some entry =>
        if negb (is_expired c entry) then
          let '(m', ok) := kv_insert_if_absent new_key entry (data st) in
          let st := with_data st m' in
          if ok then (st, true) else (put old_key entry st, false)
        else (st, false)
    | None => (st, false)
    end.

Definition copy (src dst : bytes) (replace : bool) st : Store M * bool :=
  match kv_get_ref (data st) src with
  | None => (st, false)
  | Some e =>
      if is_expired c e then (st, false)
      else if replace then (put dst e st, true)
      else let '(m, ok) := kv_insert_if_absent dst e (data st) in (with_data st m, ok)
  end.

Definition keys_matching (pattern : bytes) st : list bytes :=
  kv_for_each (λ key v out,
    if negb (is_expired c v) && glob_match pattern key then out ++ [key] else out) (data st) [].

(** ** server.rs *)

(** The closure of [cleanup_expired], after the clock was ticked. *)
Definition keep_live (key : bytes) (entry : StoreValue) (live_ttls : Z) : Z * bool :=
  if expires_ms entry =? 0 then (live_ttls, true)
  else if now_ms c <? expires_ms entry then (live_ttls + 1, true)
  else (live_ttls, false).

Definition cleanup_expired st : Store M :=
  let generation := ttl_generation st in
  let '(m, live_ttls) := kv_retain keep_live (data st) 0 in
  finish_ttl_scan generation live_ttls (with_data st m).

Definition flush st : Store M := reset_ttl_count (with_data st (kv_clear (data st))).

Definition dbsize st : Z := kv_len (data st).

Definition type_of (key : bytes) st : bytes :=
  match kv_get_ref (data st) key with
  | Some e => if negb (is_expired_precise c e) then type_name (value e) else B "none"
  | None => B "none"
  end.
End StoreOps.
