(* ===== verification/StoreSpec.v ===== *)
(** What the string, key and server commands do to the key space, for any map
    that satisfies [KVMapLaws]. *)

From S2P Require Import Prelude Decimal MapIface Collections Value Store Glob Resp.
Local Open Scope Z_scope.

Section StoreSpec.
Context {M : Type} `{KVMapLaws StoreValue M} (c : Clock).
Implicit Types (st : Store M) (k : bytes) (g : gmap bytes StoreValue).

(** The key space of a store, and its invariant. *)
Definition db st : gmap bytes StoreValue := kv_abs (data st).
Definition store_wf st : Prop := kv_wf (data st).

(** Same counters. *)
Definition same_ttl st st' : Prop :=
  ttl_count st' = ttl_count st ∧ ttl_generation st' = ttl_generation st ∧
  connected_clients st' = connected_clients st.

Lemma same_ttl_refl st : same_ttl st st.
Proof. by repeat split. Qed.

Lemma same_ttl_trans st1 st2 st3 : same_ttl st1 st2 → same_ttl st2 st3 → same_ttl st1 st3.
Proof. intros (? & ? & ?) (? & ? & ?). repeat split; congruence. Qed.

(** [g] with the value of [k] rewritten by [f], if there is one. *)
Definition upd g k {R} (f : StoreValue → StoreValue * R) : gmap bytes StoreValue :=
  match g !! k with Some v => <[k := (f v).1]> g | None => g end.

Lemma update_with_spec {R} k (f : StoreValue → StoreValue * R) st :
  store_wf st →
  store_wf (update_with k f st).1 ∧ db (update_with k f st).1 = upd (db st) k f ∧
  same_ttl st (update_with k f st).1 ∧ (update_with k f st).2 = (λ v, (f v).2) <$> db st !! k.
Proof.
  intros Hw. destruct (kv_update_with_spec (data st) k f Hw) as (? & ? & _ & ?).
  unfold update_with. destruct (kv_update_with k f (data st)) as [m r]. simpl in *. by repeat split.
Qed.

Lemma put_spec k v st :
  store_wf st →
  store_wf (put k v st) ∧ db (put k v st) = <[k := v]> (db st) ∧ same_ttl st (put k v st).
Proof. intros Hw. destruct (kv_insert_spec (data st) k v Hw) as (? & ? & _). by repeat split. Qed.

Lemma update_or_insert_spec {R} k (f : StoreValue → StoreValue * R) fresh (r0 : R) st :
  store_wf st →
  store_wf (update_or_insert k f fresh r0 st).1 ∧
  db (update_or_insert k f fresh r0 st).1 =
    <[k := match db st !! k with Some v => (f v).1 | None => fresh end]> (db st) ∧
  same_ttl st (update_or_insert k f fresh r0 st).1 ∧
  (update_or_insert k f fresh r0 st).2 = match db st !! k with Some v => (f v).2 | None => r0 end.
Proof.
  intros Hw. destruct (update_with_spec k f st Hw) as (Hw' & Hd & Ht & Hr).
  unfold update_or_insert. destruct (update_with k f st) as [st' r]. simpl in *. subst r. unfold upd in Hd.
  destruct (db st !! k) as [v|]; simpl; [done|].
  destruct (put_spec k fresh st' Hw') as (? & Hd' & Ht'). rewrite Hd', Hd.
  split; [done|]. split; [done|]. split; [by eapply same_ttl_trans|done].
Qed.

Lemma update_or_spec {R} k (f : StoreValue → StoreValue * R) (r0 : R) st :
  store_wf st →
  store_wf (update_or k f r0 st).1 ∧ db (update_or k f r0 st).1 = upd (db st) k f ∧
  same_ttl st (update_or k f r0 st).1 ∧
  (update_or k f r0 st).2 = match db st !! k with Some v => (f v).2 | None => r0 end.
Proof.
  intros Hw. destruct (update_with_spec k f st Hw) as (Hw' & Hd & Ht & Hr).
  unfold update_or. destruct (update_with k f st) as [st' r]. simpl in *. subst r.
  split; [done|]. split; [done|]. split; [done|]. by destruct (db st !! k).
Qed.

(** The live value of a key. *)
Definition live k st : option FyroDB :=
  v ← db st !! k; if is_expired c v then None else Some (value v).

Lemma read_live_spec {R} k (r0 : R) f st :
  store_wf st → read_live c k r0 f st = match live k st with Some v => f v | None => r0 end.
Proof.
  intros Hw. unfold read_live, live, db. rewrite kv_get_ref_spec by done.
  destruct (kv_abs (data st) !! k) as [v|]; simpl; [|done]. by destruct (is_expired c v).
Qed.

Lemma upd_lookup_ne g k k' {R} (f : StoreValue → StoreValue * R) : k ≠ k' → upd g k f !! k' = g !! k'.
Proof. intros Hne. unfold upd. destruct (g !! k); [by rewrite lookup_insert_ne|done]. Qed.

Lemma live_Some k st v : live k st = Some v ↔ ∃ e, db st !! k = Some e ∧ is_expired c e = false ∧ value e = v.
Proof.
  unfold live. destruct (db st !! k) as [e|]; simpl; [|split; [done|by intros (? & ? & _)]]. split.
  - destruct (is_expired c e) eqn:He; [done|]. intros [= <-]. by exists e.
  - intros (e' & [= <-] & -> & ->). done.
Qed.

(** The value of a live key is replaced, with its expiry kept. *)
Lemma update_live {R} k (f : StoreValue → StoreValue * R) st e w r :
  store_wf st → db st !! k = Some e → is_expired c e = false → f e = (mkValue w (expires_ms e), r) →
  let '(st', r') := update_with k f st in
  store_wf st' ∧ r' = Some r ∧ live k st' = Some w ∧ ∀ k', k' ≠ k → db st' !! k' = db st !! k'.
Proof.
  intros Hw Hd He Hf. destruct (update_with_spec k f st Hw) as (Hw' & Hdb & _ & Hr).
  destruct (update_with k f st) as [st' r']. simpl in *. rewrite Hd in Hr. simpl in Hr. rewrite Hf in Hr.
  unfold upd in Hdb. rewrite Hd, Hf in Hdb. simpl in Hdb. split_and!; [done|done| |].
  - apply live_Some. exists (mkValue w (expires_ms e)). rewrite Hdb, lookup_insert_eq. by split_and!.
  - intros k' Hne. by rewrite Hdb, lookup_insert_ne.
Qed.

(** ** Strings *)

Lemma set_string_spec k v exp st :
  store_wf st →
  store_wf (set_string k v exp st) ∧ db (set_string k v exp st) = <[k := mkValue (VString v) exp]> (db st) ∧
  ttl_count (set_string k v exp st) = ttl_count st + (if exp =? 0 then 0 else 1).
Proof.
  intros Hw. destruct (kv_set_spec (data st) k (mkValue (VString v) exp) Hw) as (? & ? & _).
  unfold set_string. destruct (exp =? 0); simpl; repeat split; try done; lia.
Qed.

Lemma store_get_spec k st :
  store_wf st →
  store_wf (store_get c k st).1 ∧ same_ttl st (store_get c k st).1 ∧
  (store_get c k st).2 = (live k st ≫= as_string) ∧
  db (store_get c k st).1 =
    match db st !! k with
    | Some v => if is_expired c v then delete k (db st) else db st
    | None => db st
    end.
Proof.
  intros Hw. unfold store_get, live. rewrite kv_with_entry_spec by done. fold (db st).
  destruct (db st !! k) as [v|]; simpl; [|done]. destruct (is_expired c v); simpl; [|done].
  destruct (kv_remove_spec (data st) k Hw) as (? & ? & _). by repeat split.
Qed.

Lemma int_op_spec k delta st :
  store_wf st →
  store_wf (int_op k delta st).1 ∧ same_ttl st (int_op k delta st).1 ∧
  db (int_op k delta st).1 =
    <[k := match db st !! k with
           | Some v => (int_update parse_i64 delta v).1
           | None => StoreValue_string (i64_to_string delta)
           end]> (db st) ∧
  (int_op k delta st).2 =
    match db st !! k with Some v => (int_update parse_i64 delta v).2 | None => Ok delta end.
Proof.
  intros Hw. unfold int_op. destruct (update_with_spec k (int_update parse_i64 delta) st Hw) as (Hw' & Hd & Ht & Hr).
  destruct (update_with k _ st) as [st' r]. simpl in *. subst r. unfold upd in Hd.
  destruct (db st !! k) as [v|] eqn:E; simpl; [done|].
  destruct (update_or_insert_spec k (int_update (λ s, Some (default 0 (parse_i64 s))) delta)
    (StoreValue_string (i64_to_string delta)) (Ok delta) st' Hw') as (? & Hd' & Ht' & Hr').
  rewrite Hd in *. rewrite E in *. split; [done|]. split; [by eapply same_ttl_trans|done].
Qed.

(** ** Keys *)

Lemma del_spec k st :
  store_wf st →
  store_wf (del k st).1 ∧ db (del k st).1 = delete k (db st) ∧ same_ttl st (del k st).1 ∧
  (del k st).2 = bool_decide (is_Some (db st !! k)).
Proof.
  intros Hw. destruct (kv_remove_no_clone_spec (data st) k Hw) as (? & ? & _ & ?).
  unfold del. destruct (kv_remove_no_clone k (data st)). simpl in *. by repeat split.
Qed.

Lemma remove_spec k st :
  store_wf st →
  store_wf (with_data st (kv_remove k (data st)).1) ∧
  db (with_data st (kv_remove k (data st)).1) = delete k (db st) ∧
  same_ttl st (with_data st (kv_remove k (data st)).1) ∧ (kv_remove k (data st)).2 = db st !! k.
Proof. intros Hw. destruct (kv_remove_spec (data st) k Hw) as (? & ? & _ & ?). by repeat split. Qed.

Lemma put_absent_spec k v st :
  store_wf st →
  store_wf (with_data st (kv_insert_if_absent k v (data st)).1) ∧
  db (with_data st (kv_insert_if_absent k v (data st)).1) =
    match db st !! k with Some _ => db st | None => <[k := v]> (db st) end ∧
  same_ttl st (with_data st (kv_insert_if_absent k v (data st)).1) ∧
  (kv_insert_if_absent k v (data st)).2 = bool_decide (db st !! k = None).
Proof. intros Hw. destruct (kv_insert_if_absent_spec (data st) k v Hw) as (? & ? & _ & ?). by repeat split. Qed.

Lemma rename_spec old new st :
  store_wf st → old ≠ new →
  store_wf (rename c old new st).1 ∧ same_ttl st (rename c old new st).1 ∧
  (rename c old new st).2 = bool_decide (is_Some (live old st)) ∧
  db (rename c old new st).1 =
    match db st !! old with
    | Some v => if is_expired c v then delete old (db st) else <[new := v]> (delete old (db st))
    | None => db st
    end.
Proof.
  intros Hw Hne. unfold rename, live. rewrite bool_decide_eq_false_2 by done.
  destruct (remove_spec old st Hw) as (Hw' & Hd & Ht & Hr).
  destruct (kv_remove old (data st)) as [m r]. simpl in *. subst r.
  destruct (db st !! old) as [v|] eqn:E; simpl.
  - destruct (is_expired c v); simpl; [done|].
    destruct (put_spec new v _ Hw') as (? & Hd' & ?). rewrite Hd', Hd.
    split; [done|]. by split; [eapply same_ttl_trans|].
  - rewrite Hd, delete_id by done. done.
Qed.

Lemma renamenx_spec old new st :
  store_wf st → old ≠ new →
  store_wf (renamenx c old new st).1 ∧ same_ttl st (renamenx c old new st).1 ∧
  (renamenx c old new st).2 = bool_decide (is_Some (live old st) ∧ db st !! new = None) ∧
  db (renamenx c old new st).1 =
    match db st !! old with
    | Some v =>
        if is_expired c v then delete old (db st)
        else if bool_decide (db st !! new = None) then <[new := v]> (delete old (db st)) else db st
    | None => db st
    end.
Proof.
  intros Hw Hne. unfold renamenx, live. rewrite (bool_decide_eq_false_2 (old = new)) by done.
  destruct (remove_spec old st Hw) as (Hw' & Hd & Ht & Hr).
  destruct (kv_remove old (data st)) as [m r]. simpl in *. subst r.
  destruct (db st !! old) as [v|] eqn:E; simpl.
  - destruct (is_expired c v); simpl; [done|].
    destruct (put_absent_spec new v (with_data st m) Hw') as (Hw2 & Hd2 & Ht2 & Hr2).
    simpl in *. destruct (kv_insert_if_absent new v m) as [m' ok]. simpl in *. subst ok.
    rewrite Hd, lookup_delete_ne in Hd2 by done. rewrite Hd. rewrite lookup_delete_ne by done.
    destruct (db st !! new) as [w|] eqn:En; simpl.
    + destruct (put_spec old v _ Hw2) as (? & Hd3 & ?). rewrite Hd3, Hd2.
      split; [done|]. split; [by eapply same_ttl_trans; [|eapply same_ttl_trans]|]. split; [done|].
      by rewrite insert_delete_eq, insert_id.
    + split; [done|]. split; [by eapply same_ttl_trans|]. done.
  - by rewrite Hd, delete_id by done.
Qed.

(** ** Counting the keys that expire *)

Definition has_ttl (v : StoreValue) : bool := negb (expires_ms v =? 0).

(** The number of keys with an expiry. *)
Definition ttl_keys g : Z := Z.of_nat (size (filter (λ p, has_ttl p.2 = true) g)).

Lemma ttl_keys_delete g k v : g !! k = Some v → ttl_keys g = ttl_keys (delete k g) + Z.b2z (has_ttl v).
Proof.
  intros Hk. unfold ttl_keys. rewrite <- (insert_delete_id g k v Hk) at 1.
  destruct (has_ttl v) eqn:E.
  - rewrite map_filter_insert_True by done.
    rewrite map_size_insert_None by (rewrite map_lookup_filter_None; left; apply lookup_delete_eq).
    simpl. lia.
  - rewrite map_filter_insert_False by (simpl; congruence). rewrite delete_delete_eq. simpl. lia.
Qed.

Lemma ttl_keys_delete_le g k : ttl_keys (delete k g) <= ttl_keys g.
Proof.
  destruct (g !! k) as [v|] eqn:E; [|by rewrite delete_id].
  rewrite (ttl_keys_delete g k v E). destruct (has_ttl v); simpl; lia.
Qed.

Lemma ttl_keys_insert g k v : ttl_keys (<[k := v]> g) = ttl_keys (delete k g) + Z.b2z (has_ttl v).
Proof. rewrite (ttl_keys_delete (<[k := v]> g) k v) by apply lookup_insert_eq. by rewrite delete_insert_eq. Qed.

(** ** The expiry sweep *)

Definition keeps (now : Z) (v : StoreValue) : bool := (expires_ms v =? 0) || (now <? expires_ms v).

Lemma retain_run_keep_live (l : list (bytes * StoreValue)) n :
  retain_run (keep_live c) l n =
    (n + Z.of_nat (length (filter (λ p, has_ttl p.2 = true) (filter (λ p, keeps (now_ms c) p.2 = true) l))),
     filter (λ p, keeps (now_ms c) p.2 = true) l).
Proof.
  revert n. induction l as [|[k v] l IH]; intros n; [simpl; by rewrite Z.add_0_r|].
  simpl. unfold keep_live at 1.
  destruct (expires_ms v =? 0) eqn:E; [|destruct (now_ms c <? expires_ms v) eqn:E2]; rewrite IH.
  - rewrite filter_cons_True by (unfold keeps; simpl; by rewrite E).
    by rewrite filter_cons_False by (unfold has_ttl; simpl; by rewrite E).
  - rewrite (filter_cons_True (λ p, keeps _ _ = true)) by (unfold keeps; simpl; by rewrite E, E2).
    rewrite filter_cons_True by (unfold has_ttl; simpl; by rewrite E). simpl. f_equal. lia.
  - by rewrite (filter_cons_False (λ p, keeps _ _ = true)) by (unfold keeps; simpl; by rewrite E, E2).
Qed.

Lemma list_to_map_filter (P : bytes * StoreValue → Prop) `{!∀ x, Decision (P x)} l g :
  l ≡ₚ map_to_list g → (list_to_map (filter P l) : gmap bytes StoreValue) = filter P g.
Proof.
  intros Hl. rewrite map_filter_alt. apply list_to_map_proper; [|by rewrite Hl].
  eapply sublist_NoDup; [|apply fmap_sublist, sublist_filter]. rewrite Hl. apply NoDup_fst_map_to_list.
Qed.

Lemma cleanup_expired_spec st :
  store_wf st →
  store_wf (cleanup_expired c st) ∧
  db (cleanup_expired c st) = filter (λ p, keeps (now_ms c) p.2 = true) (db st) ∧
  ttl_count (cleanup_expired c st) = ttl_keys (db (cleanup_expired c st)).
Proof.
  intros Hw. destruct (kv_retain_spec (data st) (keep_live c) 0 Hw) as (l & Hl & Hw' & Ha & _ & Hr).
  unfold cleanup_expired. destruct (kv_retain (keep_live c) (data st) 0) as [m n]. simpl in *.
  rewrite retain_run_keep_live in Ha, Hr. simpl in *. subst n.
  unfold finish_ttl_scan. simpl. rewrite Z.eqb_refl. simpl. unfold store_wf, db in *. simpl.
  pose proof (list_to_map_filter (λ p, keeps (now_ms c) p.2 = true) l (kv_abs (data st)) Hl) as Hf.
  split; [done|]. split; [by rewrite Ha|]. unfold ttl_keys.
  rewrite Ha, Hf, <- (list_to_map_filter _ (filter (λ p, keeps (now_ms c) p.2 = true) l)).
  - rewrite Z.add_0_l. f_equal. symmetry. apply map_size_list_to_map.
    eapply sublist_NoDup; [|apply fmap_sublist, sublist_filter].
    eapply sublist_NoDup; [|apply fmap_sublist, sublist_filter]. rewrite Hl. apply NoDup_fst_map_to_list.
  - rewrite <- Hf. symmetry. apply map_to_list_to_map.
    eapply sublist_NoDup; [|apply fmap_sublist, sublist_filter]. rewrite Hl. apply NoDup_fst_map_to_list.
Qed.

(** ** KEYS *)

Lemma keys_matching_spec pattern st :
  store_wf st →
  keys_matching c pattern st ≡ₚ
    (map_to_list (filter (λ p, negb (is_expired c p.2) && glob_match pattern p.1 = true) (db st))).*1.
Proof.
  intros Hw. unfold keys_matching. set (sel := λ p : bytes * StoreValue, negb (is_expired c p.2) && glob_match pattern p.1).
  destruct (kv_for_each_spec (data st) (λ key v out,
    if negb (is_expired c v) && glob_match pattern key then out ++ [key] else out) [] Hw) as (l & Hl & ->).
  assert (Hfold : ∀ out, foldl (λ a p, if sel p then a ++ [p.1] else a) out l =
    out ++ (filter (λ p, sel p = true) l).*1).
  { clear Hl. induction l as [|p l IH]; intros out; simpl; [by rewrite app_nil_r|]. rewrite filter_cons.
    destruct (sel p); simpl; rewrite IH; [by rewrite <- app_assoc|done]. }
  change (λ a p, if negb (is_expired c p.2) && glob_match pattern p.1 then a ++ [p.1] else a)
    with (λ (a : list bytes) p, if sel p then a ++ [p.1] else a).
  rewrite Hfold. simpl. unfold db. rewrite Hl, map_filter_alt, map_to_list_to_map; [done|].
  eapply sublist_NoDup; [|apply fmap_sublist, sublist_filter]. apply NoDup_fst_map_to_list.
Qed.
End StoreSpec.
