(* ===== verification/Lcs.v ===== *)
(** The longest common subsequence of two strings: [lcs] of storage/string.rs, a
    table of 16-bit lengths filled row by row and read back from its corner. *)

From S2P Require Import Prelude MapIface Value Store.
Local Open Scope Z_scope.

(** [u16] addition of a release build. *)
Definition wrap16 (z : Z) : Z := z mod 2 ^ 16.

(** A row of [dp] from the one above: [diag] is the entry up and to the left,
    [left] the one just written. *)
Fixpoint row_from (x : byte) (b2 : bytes) (diag : Z) (above : list Z) (left : Z) : list Z :=
  match b2, above with
  | y :: b2', up :: above' =>
      let v := if bool_decide (x = y) then wrap16 (diag + 1) else Z.max up left in
      v :: row_from x b2' up above' v
  | _, _ => []
  end.

Definition next_row (x : byte) (b2 : bytes) (row : list Z) : list Z :=
  match row with
  | d :: above => 0 :: row_from x b2 d above 0
  | [] => []
  end.

Fixpoint dp_rows (b1 b2 : bytes) (row : list Z) : list (list Z) :=
  row :: match b1 with [] => [] | x :: b1' => dp_rows b1' b2 (next_row x b2 row) end.

(** [vec![vec![0u16; n + 1]; m + 1]], filled. *)
Definition dp_table (b1 b2 : bytes) : list (list Z) := dp_rows b1 b2 (replicate (S (length b2)) 0).

Definition dp_at (dp : list (list Z)) (i j : nat) : Z := default 0 (dp !! i ≫= λ row, row !! j).

(** The walk from the corner: each step lowers [i + j]. *)
Fixpoint lcs_walk (fuel : nat) (dp : list (list Z)) (b1 b2 : bytes) (i j : nat) (result : bytes) : bytes :=
  match fuel, i, j with
  | S fuel', S i', S j' =>
      match b1 !! i', b2 !! j' with
      | Some x, Some y =>
          if bool_decide (x = y) then lcs_walk fuel' dp b1 b2 i' j' (result ++ [x])
          else if dp_at dp i (S j' - 1) <? dp_at dp i' j then lcs_walk fuel' dp b1 b2 i' j result
          else lcs_walk fuel' dp b1 b2 i j' result
      | _, _ => result
      end
  | _, _, _ => result
  end.

Definition lcs_bytes (b1 b2 : bytes) : bytes :=
  let m := length b1 in
  let n := length b2 in
  if (m =? 0)%nat || (n =? 0)%nat then []
  else reverse (lcs_walk (m + n) (dp_table b1 b2) b1 b2 m n []).

Section Lcs.
Context {M : Type} `{KVMap StoreValue M} (c : Clock).

(** The string of a key; a missing or expired one is empty. *)
Definition lcs_operand (key : bytes) (st : Store M) : result bytes :=
  read_live c key (Ok []) (λ v, match as_string v with Some s => Ok s | None => Err WRONGTYPE end) st.

(** [String::from_utf8(result).unwrap_or_default()] *)
Definition lcs (key1 key2 : bytes) (st : Store M) : result bytes :=
  match lcs_operand key1 st with
  | Err e => Err e
  | Ok s1 =>
      match lcs_operand key2 st with
      | Err e => Err e
      | Ok s2 => let r := lcs_bytes s1 s2 in Ok (if utf8_valid r then r else [])
      end
  end.

Definition lcs_len (key1 key2 : bytes) (st : Store M) : result Z :=
  match lcs key1 key2 st with Ok s => Ok (Z.of_nat (length s)) | Err e => Err e end.
End Lcs.

(** ** Lengths of common subsequences *)

(** [n] is the greatest length of a common subsequence. *)
Definition lcs_spec (a b : bytes) (n : nat) : Prop :=
  (∃ s, s `sublist_of` a ∧ s `sublist_of` b ∧ length s = n) ∧
  ∀ s, s `sublist_of` a → s `sublist_of` b → (length s <= n)%nat.

Lemma sublist_snoc_inv (s a : bytes) x :
  s `sublist_of` a ++ [x] → s `sublist_of` a ∨ ∃ t, s = t ++ [x] ∧ t `sublist_of` a.
Proof.
  intros (l1 & l2 & -> & H1 & H2)%sublist_app_r. apply sublist_cons_r in H2 as [H2|(l & -> & H2)].
  - apply sublist_nil_r in H2 as ->. left. by rewrite app_nil_r.
  - apply sublist_nil_r in H2 as ->. right. by exists l1.
Qed.

Lemma lcs_spec_nil_l b : lcs_spec [] b 0.
Proof.
  split; [exists []; split; [done|]; split; [apply sublist_nil_l|done]|].
  intros s ->%sublist_nil_r _. done.
Qed.

Lemma lcs_spec_nil_r a : lcs_spec a [] 0.
Proof.
  split; [exists []; split; [apply sublist_nil_l|]; by split|]. intros s _ ->%sublist_nil_r. done.
Qed.

Lemma lcs_spec_same a b x n : lcs_spec a b n → lcs_spec (a ++ [x]) (b ++ [x]) (S n).
Proof.
  intros [(s & Ha & Hb & Hl) Hmax]. split.
  - exists (s ++ [x]). split; [by apply sublist_app|]. split; [by apply sublist_app|].
    rewrite length_app. simpl. lia.
  - intros t Hta Htb. destruct (sublist_snoc_inv t a x Hta) as [H1|(u & -> & Hu)].
    + destruct (sublist_snoc_inv t b x Htb) as [H2|(w & -> & Hw)]; [specialize (Hmax t H1 H2); lia|].
      assert (w `sublist_of` a) as Hwa by (etransitivity; [|exact H1]; by apply sublist_inserts_r).
      rewrite length_app. simpl. specialize (Hmax w Hwa Hw). lia.
    + destruct (sublist_snoc_inv (u ++ [x]) b x Htb) as [H2|(w & [-> _]%app_inj_tail & Hw)].
      * rewrite length_app. simpl. assert (u `sublist_of` b) as Hub by (etransitivity; [|exact H2]; by apply sublist_inserts_r).
        specialize (Hmax u Hu Hub). lia.
      * rewrite length_app. simpl. specialize (Hmax w Hu Hw). lia.
Qed.

Lemma lcs_spec_diff a b x y p q :
  x ≠ y → lcs_spec a (b ++ [y]) p → lcs_spec (a ++ [x]) b q → lcs_spec (a ++ [x]) (b ++ [y]) (Nat.max p q).
Proof.
  intros Hne [(s & Ha & Hb & Hl) Hp] [(t & Hta & Htb & Htl) Hq]. split.
  - destruct (Nat.max_spec p q) as [[_ ->]|[_ ->]].
    + exists t. split; [done|]. split; [by apply sublist_inserts_r|done].
    + exists s. split; [by apply sublist_inserts_r|]. by split.
  - intros u Hua Hub. destruct (sublist_snoc_inv u a x Hua) as [H1|(w & -> & Hw)].
    + specialize (Hp u H1 Hub). lia.
    + destruct (sublist_snoc_inv _ b y Hub) as [H2|(w' & [_ E]%app_inj_tail & _)]; [|done].
      specialize (Hq _ Hua H2). lia.
Qed.

Lemma lcs_spec_bound a b n : lcs_spec a b n → (n <= length a)%nat.
Proof. intros [(s & Ha & _ & <-) _]. by apply sublist_length. Qed.

(** ** The table *)

(** A row over [b2] for the prefix [a]: the entry at [j] is the greatest length
    for [a] and the first [j] bytes. *)
Definition row_ok (a b2 : bytes) (row : list Z) : Prop :=
  length row = S (length b2) ∧
  ∀ j v, row !! j = Some v → ∃ n, v = Z.of_nat n ∧ lcs_spec a (take j b2) n.

Lemma row_from_ok x a b2 : ∀ pre diag above left,
  Z.of_nat (length a) < 2 ^ 16 - 1 → length above = length b2 →
  (∃ n, diag = Z.of_nat n ∧ lcs_spec a pre n) → (∃ n, left = Z.of_nat n ∧ lcs_spec (a ++ [x]) pre n) →
  (∀ j v, above !! j = Some v → ∃ n, v = Z.of_nat n ∧ lcs_spec a (pre ++ take (S j) b2) n) →
  length (row_from x b2 diag above left) = length b2 ∧
  ∀ j v, row_from x b2 diag above left !! j = Some v →
    ∃ n, v = Z.of_nat n ∧ lcs_spec (a ++ [x]) (pre ++ take (S j) b2) n.
Proof.
  induction b2 as [|y b2 IH]; intros pre diag above left Ha Hlen (nd & -> & Hd) (nl & -> & Hl) Hab;
    destruct above as [|up above]; try done.
  destruct (Hab 0%nat up eq_refl) as (nu & -> & Hu). simpl in Hu. simpl.
  set (v := if bool_decide (x = y) then _ else _).
  assert (Hv : ∃ n, v = Z.of_nat n ∧ lcs_spec (a ++ [x]) (pre ++ [y]) n).
  { unfold v. destruct (decide (x = y)) as [->|Hne].
    - rewrite bool_decide_eq_true_2 by done. exists (S nd). pose proof (lcs_spec_bound _ _ _ Hd).
      split; [unfold wrap16; rewrite Z.mod_small; lia|by apply lcs_spec_same].
    - rewrite bool_decide_eq_false_2 by done. exists (Nat.max nu nl). split; [lia|by apply lcs_spec_diff]. }
  clearbody v. destruct (IH (pre ++ [y]) (Z.of_nat nu) above v Ha) as [Hlen' Hall]; [simpl in *; lia|by eauto|done| |].
  { intros j w Hj. destruct (Hab (S j) w Hj) as (n & -> & Hn). exists n. split; [done|].
    by rewrite <- app_assoc. }
  split; [simpl; by rewrite Hlen'|]. intros [|j] w Hj; simpl in *.
  - simplify_eq. destruct Hv as (n & -> & Hn). by exists n.
  - destruct (Hall j w Hj) as (n & -> & Hn). exists n. split; [done|]. by rewrite <- app_assoc in Hn.
Qed.

Lemma next_row_ok x a b2 row :
  Z.of_nat (length a) < 2 ^ 16 - 1 → row_ok a b2 row → row_ok (a ++ [x]) b2 (next_row x b2 row).
Proof.
  intros Ha [Hlen Hrow]. destruct row as [|d above]; [done|]. simpl in *.
  destruct (Hrow 0%nat d eq_refl) as (nd & -> & Hd).
  destruct (row_from_ok x a b2 [] (Z.of_nat nd) above 0 Ha) as [Hl Hall]; [lia|by eauto| | |].
  - exists 0%nat. split; [done|apply lcs_spec_nil_r].
  - intros j v Hj. exact (Hrow (S j) v Hj).
  - split; [simpl; by rewrite Hl|]. intros [|j] v Hj; simpl in *; [|exact (Hall j v Hj)].
    simplify_eq. exists 0%nat. split; [done|apply lcs_spec_nil_r].
Qed.

Lemma dp_rows_ok b1 b2 : ∀ a row i r,
  Z.of_nat (length a + length b1) < 2 ^ 16 → row_ok a b2 row → dp_rows b1 b2 row !! i = Some r →
  row_ok (a ++ take i b1) b2 r.
Proof.
  induction b1 as [|x b1 IH]; intros a row [|i] r Ha Hrow Hr; simpl in *; simplify_eq;
    rewrite ?app_nil_r; try done.
  rewrite (cons_middle x a), app_assoc. apply (IH (a ++ [x]) (next_row x b2 row)); [rewrite length_app; simpl; lia| |done].
  apply next_row_ok; [lia|done].
Qed.

Lemma dp_rows_len b1 b2 row : length (dp_rows b1 b2 row) = S (length b1).
Proof. revert row. induction b1 as [|x b1 IH]; intros row; simpl; [done|]. by rewrite IH. Qed.

Lemma dp_at_spec b1 b2 i j :
  Z.of_nat (length b1) < 2 ^ 16 → (i <= length b1)%nat → (j <= length b2)%nat →
  ∃ n, dp_at (dp_table b1 b2) i j = Z.of_nat n ∧ lcs_spec (take i b1) (take j b2) n.
Proof.
  intros Hb Hi Hj. unfold dp_at, dp_table.
  destruct (lookup_lt_is_Some_2 (dp_rows b1 b2 (replicate (S (length b2)) 0)) i) as [r Hr].
  { rewrite dp_rows_len. lia. }
  assert (H0 : row_ok [] b2 (replicate (S (length b2)) 0)).
  { split; [apply length_replicate|]. intros k v [-> _]%lookup_replicate. exists 0%nat. split; [done|apply lcs_spec_nil_l]. }
  destruct (dp_rows_ok b1 b2 [] _ i r Hb H0 Hr) as [Hlen Hrow].
  destruct (lookup_lt_is_Some_2 r j) as [v Hv]; [lia|]. rewrite Hr. simpl. rewrite Hv. simpl. by apply Hrow.
Qed.

(** ** The walk *)

Lemma take_S_lookup (l : bytes) i x : l !! i = Some x → take (S i) l = take i l ++ [x].
Proof. apply take_S_r. Qed.

(** A value of the table is the length: the specification determines it. *)
Lemma lcs_spec_unique a b n m : lcs_spec a b n → lcs_spec a b m → n = m.
Proof.
  intros [(s & ? & ? & <-) Hn] [(t & ? & ? & <-) Hm].
  pose proof (Hn t ltac:(done) ltac:(done)). pose proof (Hm s ltac:(done) ltac:(done)). lia.
Qed.

Lemma lcs_walk_ok b1 b2 fuel : ∀ i j result,
  Z.of_nat (length b1) < 2 ^ 16 → (i <= length b1)%nat → (j <= length b2)%nat → (i + j <= fuel)%nat →
  ∃ s, lcs_walk fuel (dp_table b1 b2) b1 b2 i j result = result ++ reverse s ∧
    s `sublist_of` take i b1 ∧ s `sublist_of` take j b2 ∧ lcs_spec (take i b1) (take j b2) (length s).
Proof.
  induction fuel as [|fuel IH]; intros i j result Hb Hi Hj Hf.
  { assert (i = 0%nat) as -> by lia. exists []. rewrite reverse_nil, app_nil_r. split; [done|].
    split; [apply sublist_nil_l|]. split; [apply sublist_nil_l|apply lcs_spec_nil_l]. }
  destruct i as [|i]; [|destruct j as [|j]].
  1,2: exists []; rewrite reverse_nil, app_nil_r; (split; [done|]); (split; [apply sublist_nil_l|]);
    (split; [apply sublist_nil_l|]); apply lcs_spec_nil_l || apply lcs_spec_nil_r.
  destruct (lookup_lt_is_Some_2 b1 i) as [x Hx]; [lia|]. destruct (lookup_lt_is_Some_2 b2 j) as [y Hy]; [lia|].
  cbn [lcs_walk]. rewrite Hx, Hy, Nat.sub_succ, Nat.sub_0_r, (take_S_lookup b1 i x Hx), (take_S_lookup b2 j y Hy).
  destruct (decide (x = y)) as [->|Hne].
  - rewrite bool_decide_eq_true_2 by done.
    destruct (IH i j (result ++ [y]) Hb ltac:(lia) ltac:(lia) ltac:(lia)) as (s & -> & H1 & H2 & H3).
    exists (s ++ [y]). rewrite reverse_snoc, <- app_assoc, length_app, Nat.add_1_r.
    split; [done|]. split; [by apply sublist_app|]. split; [by apply sublist_app|by apply lcs_spec_same].
  - rewrite bool_decide_eq_false_2 by done.
    destruct (dp_at_spec b1 b2 i (S j) Hb ltac:(lia) Hj) as (p & Ep & Hp).
    destruct (dp_at_spec b1 b2 (S i) j Hb Hi ltac:(lia)) as (q & Eq & Hq).
    rewrite Ep, Eq. rewrite (take_S_lookup b2 j y Hy) in Hp. rewrite (take_S_lookup b1 i x Hx) in Hq.
    pose proof (lcs_spec_diff _ _ x y p q Hne Hp Hq) as Hpq.
    destruct (Z.of_nat q <? Z.of_nat p) eqn:E; split_bool.
    + destruct (IH i (S j) result Hb ltac:(lia) Hj ltac:(lia)) as (s & -> & H1 & H2 & H3).
      rewrite (take_S_lookup b2 j y Hy) in H2, H3. exists s. split; [done|]. split; [by apply sublist_inserts_r|].
      split; [done|]. rewrite (lcs_spec_unique _ _ _ _ H3 Hp). by rewrite Nat.max_l in Hpq by lia.
    + destruct (IH (S i) j result Hb Hi ltac:(lia) ltac:(lia)) as (s & -> & H1 & H2 & H3).
      rewrite (take_S_lookup b1 i x Hx) in H1, H3. exists s. split; [done|]. split; [done|].
      split; [by apply sublist_inserts_r|]. rewrite (lcs_spec_unique _ _ _ _ H3 Hq). by rewrite Nat.max_r in Hpq by lia.
Qed.

(** LCS.  For a first string shorter than [2^16] bytes the result is a
    subsequence of both strings, and no common subsequence is longer. *)
Theorem lcs_correct (b1 b2 : bytes) :
  Z.of_nat (length b1) < 2 ^ 16 →
  lcs_bytes b1 b2 `sublist_of` b1 ∧ lcs_bytes b1 b2 `sublist_of` b2 ∧
  ∀ s, s `sublist_of` b1 → s `sublist_of` b2 → (length s <= length (lcs_bytes b1 b2))%nat.
Proof.
  intros Hb. unfold lcs_bytes. destruct ((length b1 =? 0)%nat || (length b2 =? 0)%nat) eqn:E.
  - split; [apply sublist_nil_l|]. split; [apply sublist_nil_l|]. intros s H1 H2.
    apply sublist_length in H1, H2. apply orb_true_iff in E as [E|E]; split_bool; simpl; lia.
  - destruct (lcs_walk_ok b1 b2 (length b1 + length b2) _ _ [] Hb (le_n _) (le_n _) (le_n _)) as (s & Hs & H1 & H2 & _ & H3).
    rewrite Hs, app_nil_l, reverse_involutive. rewrite firstn_all in H1, H2.
    split; [done|]. split; [done|]. intros t Ht1 Ht2. apply H3; by rewrite firstn_all.
Qed.

Lemma lcs_correct_witness :
  Z.of_nat (length (B "ohmytext")) < 2 ^ 16 ∧ lcs_bytes (B "ohmytext") (B "mynewtext") = B "mytext" ∧
  B "mytext" `sublist_of` B "mynewtext".
Proof.
  assert (Hb : Z.of_nat (length (B "ohmytext")) < 2 ^ 16) by (vm_compute; reflexivity).
  split; [exact Hb|]. split; [vm_compute; reflexivity|].
  exact (proj1 (proj2 (lcs_correct (B "ohmytext") (B "mynewtext") Hb))).
Defined.
