(* ===== verification/ListOps.v ===== *)
(** List commands: storage/list.rs. *)

From S2P Require Import Prelude MapIface Collections Value Store Resp.
Local Open Scope Z_scope.

Definition normalize_index (index : Z) (len : nat) : option nat :=
  let i := if index <? 0 then Z.of_nat len + index else index in
  if i <? 0 then None else if i <? Z.of_nat len then Some (Z.to_nat i) else None.

Section ListOps.
Context {M : Type} `{KVMap StoreValue M} (c : Clock).
Implicit Types st : Store M.

Definition push_all_front (vs l : list bytes) : list bytes := foldl (λ l v, v :: l) l vs.
Definition push_all_back (vs l : list bytes) : list bytes := foldl (λ l v, l ++ [v]) l vs.

Definition llength (l : list bytes) : Z := Z.of_nat (length l).

(** The shape of the commands that change a list: an expired value is replaced
    by [on_expired], a list is changed by [on_list], anything else is an error. *)
Definition list_update {R} (on_expired : StoreValue → StoreValue * result R)
    (on_list : list bytes → list bytes * result R) (v : StoreValue) : StoreValue * result R :=
  if is_expired c v then on_expired v
  else match as_list (value v) with
       | Some l => let '(l', r) := on_list l in (mkValue (put_list (value v) l') (expires_ms v), r)
       | None => (v, Err WRONGTYPE)
       end.

(** On an expired key the values go in reversed, on a missing one in order. *)
Definition lpush (key : bytes) (values : list bytes) st : Store M * result Z :=
  update_or_insert key
    (list_update
       (λ _, let l := push_all_front (reverse values) [] in (mkValue (VList (LCompact l)) 0, Ok (llength l)))
       (λ l, let l' := push_all_front values l in (l', Ok (llength l'))))
    (mkValue (VList (LCompact (push_all_front values []))) 0)
    (Ok (llength (push_all_front values []))) st.

Definition rpush (key : bytes) (values : list bytes) st : Store M * result Z :=
  update_or_insert key
    (list_update
       (λ _, let l := push_all_back values [] in (mkValue (VList (LCompact l)) 0, Ok (llength l)))
       (λ l, let l' := push_all_back values l in (l', Ok (llength l'))))
    (StoreValue_list (push_all_back values []))
    (Ok (llength (push_all_back values []))) st.

(** [n] times [pop_front], respectively [pop_back]. *)
Fixpoint pop_fronts (n : nat) (l out : list bytes) : list bytes * list bytes :=
  match n with
  | O => (l, out)
  | S n' => match l with [] => pop_fronts n' l out | v :: l' => pop_fronts n' l' (out ++ [v]) end
  end.
Fixpoint pop_backs (n : nat) (l out : list bytes) : list bytes * list bytes :=
  match n with
  | O => (l, out)
  | S n' => match vec_pop l with (l', Some v) => pop_backs n' l' (out ++ [v]) | (_, None) => pop_backs n' l out end
  end.

Definition lpop (key : bytes) (count : nat) st : Store M * result (list bytes) :=
  update_or key
    (list_update (λ v, (v, Ok []))
       (λ l, let '(l', out) := pop_fronts (Nat.min count (length l)) l [] in (l', Ok out))) (Ok []) st.

Definition rpop (key : bytes) (count : nat) st : Store M * result (list bytes) :=
  update_or key
    (list_update (λ v, (v, Ok []))
       (λ l, let '(l', out) := pop_backs (Nat.min count (length l)) l [] in (l', Ok out))) (Ok []) st.

Definition llen (key : bytes) st : result Z :=
  read_live c key (Ok 0)
    (λ v, match as_list v with Some l => Ok (llength l) | None => Err WRONGTYPE end) st.

Definition lindex (key : bytes) (index : Z) st : result (option bytes) :=
  read_live c key (Ok None)
    (λ v, match as_list v with
          | Some l => Ok (i ← normalize_index index (length l); l !! i)
          | None => Err WRONGTYPE
          end) st.

Definition lset (key : bytes) (index : Z) (v : bytes) st : Store M * result bool :=
  update_or key
    (list_update (λ cur, (cur, Err (B "no such key")))
       (λ l, match normalize_index index (length l) with
             | Some i => (<[i := v]> l, Ok true)
             | None => (l, Err (B "index out of range"))
             end)) (Err (B "no such key")) st.

(** [l.iter().skip(s).take(e - s + 1)], with the [usize] arithmetic of the
    source: [e] is [-1] as [usize] on an empty list. *)
Definition range_bytes (l : list bytes) (start stop : Z) : list bytes :=
  let len := llength l in
  let s := clamp_start len start in
  let e := wrap64 (clamp_stop len stop) in
  if e <? Z.of_nat s then []
  else
    let n := wrap64 (e - Z.of_nat s + 1) in
    take (Z.to_nat (Z.min n len)) (drop s l).

Definition lrange (key : bytes) (start stop : Z) st : result (list bytes) :=
  default (Ok [])
    (kv_read_consistent (data st) key (λ v,
       if is_expired c v then Ok []
       else match as_list (value v) with
            | Some l => Ok (range_bytes l start stop)
            | None => Err WRONGTYPE
            end)).

Definition trim_bytes (l : list bytes) (start stop : Z) : list bytes :=
  let len := llength l in
  let s := clamp_start len start in
  let e := wrap64 (clamp_stop len stop) in
  if (e <? Z.of_nat s) || (length l <=? s)%nat then []
  else
    let l := drop s l in
    let keep := Z.min (wrap64 (e - Z.of_nat s + 1)) (llength l) in
    take (Z.to_nat keep) l.

Definition ltrim (key : bytes) (start stop : Z) st : Store M * result unit :=
  update_or key
    (list_update (λ v, (v, Ok tt)) (λ l, (trim_bytes l start stop, Ok tt))) (Ok tt) st.

(** The forward loop of [lrem]: it removes up to [limit] occurrences from the
    left; the index after a removal is the next element. *)
Fixpoint lrem_front (limit : nat) (v : bytes) (l : list bytes) : list bytes * nat :=
  match l, limit with
  | _, O => (l, O)
  | [], _ => ([], O)
  | x :: l', S limit' =>
      if bool_decide (x = v) then let '(r, n) := lrem_front limit' v l' in (r, S n)
      else let '(r, n) := lrem_front limit v l' in (x :: r, n)
  end.

(** The backward loop: [i] counts down, [l.remove(i)] leaves the part below. *)
Fixpoint lrem_back (i : nat) (limit removed : nat) (v : bytes) (l : list bytes) : list bytes * nat :=
  match i with
  | O => (l, removed)
  | S i' =>
      if (removed <? limit)%nat then
        if bool_decide (l !! i' = Some v) then lrem_back i' limit (S removed) v (delete i' l)
        else lrem_back i' limit removed v l
      else (l, removed)
  end.

Definition lrem_bytes (count : Z) (v : bytes) (l : list bytes) : list bytes * nat :=
  if 0 <? count then lrem_front (Z.to_nat count) v l
  else if count <? 0 then lrem_back (length l) (Z.to_nat (wrap64 (- count))) 0 v l
  else (List.filter (λ x, negb (bool_decide (x = v))) l,
        (length l - length (List.filter (λ x, negb (bool_decide (x = v))) l))%nat).

Definition lrem (key : bytes) (count : Z) (v : bytes) st : Store M * result Z :=
  update_or key
    (list_update (λ cur, (cur, Ok 0))
       (λ l, let '(l', n) := lrem_bytes count v l in (l', Ok (Z.of_nat n)))) (Ok 0) st.

Definition linsert (key : bytes) (before : bool) (pivot v : bytes) st : Store M * result Z :=
  update_or key
    (list_update (λ cur, (cur, Ok (-1)))
       (λ l, match position pivot l with
             | Some idx =>
                 let at_ := if before then idx else S idx in
                 let l' := vec_insert at_ v l in (l', Ok (llength l'))
             | None => (l, Ok (-1))
             end)) (Ok 0) st.

(** The scan of [lpos] over [(index, value)] pairs: skip [skip] matches, then
    collect until [count] of them, zero meaning all. *)
Fixpoint lpos_scan (v : bytes) (skip found count : nat) (results : list nat)
    (l : list (nat * bytes)) : list nat :=
  match l with
  | [] => results
  | (i, x) :: l' =>
      if bool_decide (x = v) then
        if (skip <=? found)%nat then
          let results := results ++ [i] in
          if (0 <? count)%nat && (count <=? length results)%nat then results
          else lpos_scan v skip (S found) count results l'
        else lpos_scan v skip (S found) count results l'
      else lpos_scan v skip found count results l'
  end.

Definition enumerate (l : list bytes) : list (nat * bytes) := zip (List.seq 0%nat (length l)) l.

Definition lpos_bytes (v : bytes) (rank : Z) (count maxlen : nat) (l : list bytes) : list nat :=
  let mx := if (maxlen =? 0)%nat then length l else Nat.min maxlen (length l) in
  if 0 <=? rank then
    let skip := if rank =? 0 then O else Z.to_nat (rank - 1) in
    lpos_scan v skip 0 count [] (take mx (enumerate l))
  else
    let skip := Z.to_nat (wrap64 (- rank - 1)) in
    let start := if (mx <? length l)%nat then (length l - mx)%nat else O in
    lpos_scan v skip 0 count [] (reverse (drop start (enumerate l))).

Definition lpos (key v : bytes) (rank : Z) (count maxlen : nat) st : result (list nat) :=
  read_live c key (Ok [])
    (λ x, match as_list x with
          | Some l => Ok (lpos_bytes v rank count maxlen l)
          | None => Err WRONGTYPE
          end) st.

Definition list_pop (left_ : bool) (l : list bytes) : list bytes * option bytes :=
  if left_ then (drop 1 l, head l) else vec_pop l.
Definition list_push (left_ : bool) (v : bytes) (l : list bytes) : list bytes :=
  if left_ then v :: l else l ++ [v].

(** Pop from the source, then push to the destination; the destination is
    checked after the pop. *)
Definition lmove (src dst : bytes) (left_src left_dst : bool) st : Store M * result (option bytes) :=
  let '(st, popped) := update_with src
    (list_update (λ v, (v, Ok None))
       (λ l, let '(l', v) := list_pop left_src l in (l', Ok v))) st in
  match popped with
  | None => (st, Ok None)
  | Some (Err e) => (st, Err e)
  | Some (Ok None) => (st, Ok None)
  | Some (Ok (Some v)) =>
      let fresh := mkValue (VList (LCompact [v])) 0 in
      let '(st, r) :=
        if bool_decide (src = dst) then
          update_or_insert dst (λ cur,
            match as_list (value cur) with
            | Some l => (mkValue (put_list (value cur) (list_push left_dst v l)) (expires_ms cur), Ok tt)
            | None => (cur, Err WRONGTYPE)
            end) fresh (Ok tt) st
        else
          update_or_insert dst
            (list_update (λ _, (fresh, Ok tt)) (λ l, (list_push left_dst v l, Ok tt)))
            fresh (Ok tt) st in
      match r with
      | Ok _ => (st, Ok (Some v))
      | Err e => (st, Err e)
      end
  end.
End ListOps.
