(* ===== verification/HashOps.v ===== *)
(** Hash commands: storage/hash.rs, and the two float increments, [hincrbyfloat] of
    storage/hash.rs and [incrbyfloat] of storage/string.rs. *)

From S2P Require Import Prelude MapIface Decimal Collections Float Value Store.
Local Open Scope Z_scope.

Section HashOps.
Context {M : Type} `{KVMap StoreValue M} `{HashOrder} (c : Clock).
Implicit Types st : Store M.

(** The value of a hash command that changes a hash. *)
Definition hash_update {R} (on_expired : StoreValue → StoreValue * result R)
    (on_hash : HashInner → HashInner * result R) (v : StoreValue) : StoreValue * result R :=
  if is_expired c v then on_expired v
  else match as_hash (value v) with
       | Some h => let '(h', r) := on_hash h in (mkValue (VHash h') (expires_ms v), r)
       | None => (v, Err WRONGTYPE)
       end.

(** Fields into an existing hash, counting the new ones. *)
Fixpoint hset_fields (fields : list (bytes * bytes)) (added : Z) (h : HashInner) : HashInner * Z :=
  match fields with
  | [] => (h, added)
  | (f, x) :: fields' =>
      let added := if hash_contains_key h f then added else added + 1 in
      hset_fields fields' added (hash_insert h f x).1
  end.

(** On a missing or expired key the fields become the compact vector as they
    are, and all of them are counted. *)
Definition hset (key : bytes) (fields : list (bytes * bytes)) st : Store M * result Z :=
  let fresh := mkValue (VHash (HCompact (flat fields))) 0 in
  let n := Z.of_nat (length fields) in
  update_or_insert key
    (hash_update (λ _, (fresh, Ok n))
       (λ h, let '(h', added) := hset_fields fields 0 h in (h', Ok added)))
    fresh (Ok n) st.

Definition hsetnx (key field x : bytes) st : Store M * result bool :=
  update_or_insert key
    (hash_update (λ _, (mkValue (VHash (HCompact [field; x])) 0, Ok true))
       (λ h, if hash_contains_key h field then (h, Ok false)
             else ((hash_insert h field x).1, Ok true)))
    (StoreValue_hash {[ field := x ]}) (Ok true) st.

Definition hget (key field : bytes) st : result (option bytes) :=
  read_live c key (Ok None)
    (λ v, match as_hash v with Some h => Ok (hash_get h field) | None => Err WRONGTYPE end) st.

Definition hmget (key : bytes) (fields : list bytes) st : result (list (option bytes)) :=
  read_live c key (Ok (replicate (length fields) None))
    (λ v, match as_hash v with Some h => Ok (hash_get h <$> fields) | None => Err WRONGTYPE end) st.

(** A read under [read_consistent]. *)
Definition hash_read {R} (key : bytes) (f : HashInner → list R) st : result (list R) :=
  default (Ok [])
    (kv_read_consistent (data st) key (λ v,
       if is_expired c v then Ok []
       else match as_hash (value v) with Some h => Ok (f h) | None => Err WRONGTYPE end)).

Definition hgetall (key : bytes) st : result (list (bytes * bytes)) := hash_read key hash_iter st.
Definition hkeys (key : bytes) st : result (list bytes) := hash_read key hash_keys st.
Definition hvals (key : bytes) st : result (list bytes) := hash_read key hash_values st.

Fixpoint hdel_fields (fields : list bytes) (count : Z) (h : HashInner) : HashInner * Z :=
  match fields with
  | [] => (h, count)
  | f :: fields' =>
      let '(h', r) := hash_remove h f in
      hdel_fields fields' (match r with Some _ => count + 1 | None => count end) h'
  end.

Definition hdel (key : bytes) (fields : list bytes) st : Store M * result Z :=
  update_or key
    (hash_update (λ v, (v, Ok 0))
       (λ h, let '(h', n) := hdel_fields fields 0 h in (h', Ok n))) (Ok 0) st.

Definition hexists (key field : bytes) st : result bool :=
  read_live c key (Ok false)
    (λ v, match as_hash v with Some h => Ok (hash_contains_key h field) | None => Err WRONGTYPE end) st.

Definition hlen (key : bytes) st : result Z :=
  read_live c key (Ok 0)
    (λ v, match as_hash v with Some h => Ok (Z.of_nat (hash_len h)) | None => Err WRONGTYPE end) st.

(** The retry after a lost [insert_if_absent] is the recursive call. *)
Fixpoint hincrby_loop (fuel : nat) (key field : bytes) (by_ : Z) st : option (Store M * result Z) :=
  match fuel with
  | O => None
  | S fuel' =>
      let '(st, r) := update_with key
        (hash_update (λ _, (mkValue (VHash (HCompact [field; i64_to_string by_])) 0, Ok by_))
           (λ h,
             match parse_i64 (default (B "0") (hash_get h field)) with
             | Some n =>
                 match checked_add_i64 n by_ with
                 | None => (h, Err OVERFLOW)
                 | Some new => ((hash_insert h field (i64_to_string new)).1, Ok new)
                 end
             | None => (h, Err NOT_INT)
             end)) st in
      match r with
      | Some r => Some (st, r)
      | None =>
          let '(m, ok) := kv_insert_if_absent key
            (StoreValue_hash {[ field := i64_to_string by_ ]}) (data st) in
          if ok then Some (with_data st m, Ok by_)
          else hincrby_loop fuel' key field by_ (with_data st m)
      end
  end.

Definition hincrby (key field : bytes) (by_ : Z) st : Store M * result Z :=
  default (st, Err []) (hincrby_loop 1 key field by_ st).
End HashOps.


Section FloatOps.
Context {M : Type} `{KVMap StoreValue M} `{HashOrder} (c : Clock).
Implicit Types st : Store M.

Definition NOT_FLOAT : bytes := B "value is not a valid float".

(** The expiry of the value is not looked at. *)
Definition incrbyfloat (key : bytes) (by_ : f64) st : Store M * result f64 :=
  update_or_insert key
    (λ v, match as_string (value v) with
          | Some s =>
              match parse_f64 s with
              | Some n => let new := f64_add n by_ in (mkValue (VString (format_float new)) (expires_ms v), Ok new)
              | None => (v, Err NOT_FLOAT)
              end
          | None => (v, Err WRONGTYPE)
          end)
    (StoreValue_string (format_float by_)) (Ok by_) st.

Definition hincrbyfloat (key field : bytes) (by_ : f64) st : Store M * result f64 :=
  update_or_insert key
    (hash_update c (λ _, (mkValue (VHash (HCompact [field; format_float by_])) 0, Ok by_))
       (λ h, match parse_f64 (default (B "0") (hash_get h field)) with
             | Some n => let new := f64_add n by_ in ((hash_insert h field (format_float new)).1, Ok new)
             | None => (h, Err NOT_FLOAT)
             end))
    (StoreValue_hash {[ field := format_float by_ ]}) (Ok by_) st.
End FloatOps.
