(* ===== verification/SetOps.v ===== *)
(** Set commands: storage/set.rs. *)

From S2P Require Import Prelude MapIface Collections Value Store.
Local Open Scope Z_scope.

Section SetOps.
Context {M : Type} `{KVMap StoreValue M} `{HashOrder} (c : Clock).
Implicit Types st : Store M.

Definition set_update {R} (on_expired : StoreValue → StoreValue * result R)
    (on_set : SetInner → SetInner * result R) (v : StoreValue) : StoreValue * result R :=
  if is_expired c v then on_expired v
  else match as_set (value v) with
       | Some s => let '(s', r) := on_set s in (mkValue (VSet s') (expires_ms v), r)
       | None => (v, Err WRONGTYPE)
       end.

(** Apply an insertion or a removal to each member and count the successes. *)
Fixpoint count_members (f : SetInner → bytes → SetInner * bool) (members : list bytes) (n : Z)
    (s : SetInner) : SetInner * Z :=
  match members with
  | [] => (s, n)
  | m :: members' =>
      let '(s', b) := f s m in count_members f members' (if b then n + 1 else n) s'
  end.

Definition sadd (key : bytes) (members : list bytes) st : Store M * result Z :=
  let '(fresh, n) := count_members set_insert members 0 SetInner_new in
  update_or_insert key
    (set_update (λ _, (mkValue (VSet fresh) 0, Ok n))
       (λ s, let '(s', added) := count_members set_insert members 0 s in (s', Ok added)))
    (mkValue (VSet fresh) 0) (Ok n) st.

Definition srem (key : bytes) (members : list bytes) st : Store M * result Z :=
  update_or key
    (set_update (λ v, (v, Ok 0))
       (λ s, let '(s', removed) := count_members set_remove members 0 s in (s', Ok removed)))
    (Ok 0) st.

Definition sismember (key member : bytes) st : result bool :=
  read_live c key (Ok false)
    (λ v, match as_set v with Some s => Ok (set_contains s member) | None => Err WRONGTYPE end) st.

Definition smismember (key : bytes) (members : list bytes) st : result (list bool) :=
  read_live c key (Ok (replicate (length members) false))
    (λ v, match as_set v with Some s => Ok (set_contains s <$> members) | None => Err WRONGTYPE end) st.

Definition smembers (key : bytes) st : result (list bytes) :=
  default (Ok [])
    (kv_read_consistent (data st) key (λ v,
       if is_expired c v then Ok []
       else match as_set (value v) with Some s => Ok (set_strings s) | None => Err WRONGTYPE end)).

Definition scard (key : bytes) st : result Z :=
  read_live c key (Ok 0)
    (λ v, match as_set v with Some s => Ok (Z.of_nat (set_len s)) | None => Err WRONGTYPE end) st.

(** [n] times: take the first member of the iteration and remove it. *)
Fixpoint spop_loop (n : nat) (s : SetInner) (out : list bytes) : SetInner * list bytes :=
  match n with
  | O => (s, out)
  | S n' =>
      match head (set_strings s) with
      | Some m => spop_loop n' (set_remove s m).1 (out ++ [m])
      | None => spop_loop n' s out
      end
  end.

Definition spop (key : bytes) (count : nat) st : Store M * result (list bytes) :=
  update_or key
    (set_update (λ v, (v, Ok []))
       (λ s, let '(s', out) := spop_loop (Nat.min count (set_len s)) s [] in (s', Ok out))) (Ok []) st.

(** The members at [(seed + i) * 0x9e3779b97f4a7c15 mod len], for [i < n]. *)
Definition random_members (members : list bytes) (seed : Z) (n : nat) : list bytes :=
  omap (λ i : nat,
    members !! Z.to_nat (wrap64 (wrap64 (seed + Z.of_nat i) * 0x9e3779b97f4a7c15)
                         mod Z.of_nat (length members))) (List.seq 0%nat n).

(** [None]: [Vec::with_capacity(n)] panics when [24 * n] bytes exceed [isize::MAX]. *)
Definition srandmember (key : bytes) (count : Z) st : option (result (list bytes)) :=
  read_live c key (Some (Ok []))
    (λ v, match as_set v with
          | Some s =>
              if (set_len s =? 0)%nat then Some (Ok [])
              else
                let members := set_strings s in
                if 0 <=? count then Some (Ok (take (Nat.min (Z.to_nat count) (length members)) members))
                else
                  let n := wrap64 (- count) in
                  if i64_max <? 24 * n then None
                  else Some (Ok (random_members members (now_ms c) (Z.to_nat n)))
          | None => Some (Err WRONGTYPE)
          end) st.

(** Remove from the source, then add to the destination; the destination is
    checked after the removal. *)
Definition smove (src dst member : bytes) st : Store M * result bool :=
  let '(st, removed) := update_with src
    (set_update (λ v, (v, Ok false))
       (λ s, let '(s', b) := set_remove s member in (s', Ok b))) st in
  match removed with
  | Some (Ok true) =>
      let '(st, r) := update_or_insert dst
        (set_update (λ _, (mkValue (VSet (set_insert SetInner_new member).1) 0, Ok tt))
           (λ s, ((set_insert s member).1, Ok tt)))
        (StoreValue_set {[ member ]}) (Ok tt) st in
      match r with Ok _ => (st, Ok true) | Err e => (st, Err e) end
  | Some (Ok false) => (st, Ok false)
  | Some (Err e) => (st, Err e)
  | None => (st, Ok false)
  end.

(** ** Set algebra *)

(** What the loops over the keys look at: [None] for a missing or expired key. *)
Definition live_set (key : bytes) st : option (result SetInner) :=
  read_live c key None
    (λ v, Some match as_set v with Some s => Ok s | None => Err WRONGTYPE end) st.

Fixpoint sunion_loop (keys : list bytes) (acc : gset bytes) st : result (gset bytes) :=
  match keys with
  | [] => Ok acc
  | k :: keys' =>
      match live_set k st with
      | None => sunion_loop keys' acc st
      | Some (Ok s) => sunion_loop keys' (list_to_set (set_strings s) ∪ acc) st
      | Some (Err e) => Err e
      end
  end.

Definition collect (r : result (gset bytes)) : result (list bytes) :=
  match r with Ok g => Ok (set_order g) | Err e => Err e end.

Definition sunion (keys : list bytes) st : result (list bytes) := collect (sunion_loop keys ∅ st).

(** The members of [acc] that are (or are not) in [s]. *)
Definition retain_members (acc : gset bytes) (p : bytes → bool) : gset bytes :=
  list_to_set (List.filter p (set_order acc)).

(** The loop stops early once the result is empty. *)
Fixpoint sinter_loop (keys : list bytes) (acc : gset bytes) st : result (gset bytes) :=
  match keys with
  | [] => Ok acc
  | k :: keys' =>
      match live_set k st with
      | None => Ok ∅
      | Some (Ok s) =>
          let acc := retain_members acc (set_contains s) in
          if (size acc =? 0)%nat then Ok acc else sinter_loop keys' acc st
      | Some (Err e) => Err e
      end
  end.

Fixpoint sdiff_loop (keys : list bytes) (acc : gset bytes) st : result (gset bytes) :=
  match keys with
  | [] => Ok acc
  | k :: keys' =>
      match live_set k st with
      | None => sdiff_loop keys' acc st
      | Some (Ok s) => sdiff_loop keys' (retain_members acc (λ m, negb (set_contains s m))) st
      | Some (Err e) => Err e
      end
  end.

(** [sinter] and [sdiff] start from the first key. *)
Definition fold_from_first (loop : list bytes → gset bytes → Store M → result (gset bytes))
    (keys : list bytes) st : result (list bytes) :=
  match keys with
  | [] => Ok []
  | k :: keys' =>
      match live_set k st with
      | None => Ok []
      | Some (Ok s) => collect (loop keys' (list_to_set (set_strings s)) st)
      | Some (Err e) => Err e
      end
  end.

Definition sinter (keys : list bytes) st : result (list bytes) := fold_from_first sinter_loop keys st.
Definition sdiff (keys : list bytes) st : result (list bytes) := fold_from_first sdiff_loop keys st.

(** The [..store] commands: compute, then replace the destination. *)
Definition store_members (dst : bytes) (r : result (list bytes)) st : Store M * result Z :=
  match r with
  | Ok members =>
      (put dst (StoreValue_set (list_to_set members)) st, Ok (Z.of_nat (length members)))
  | Err e => (st, Err e)
  end.

Definition sunionstore (dst : bytes) (keys : list bytes) st := store_members dst (sunion keys st) st.
Definition sinterstore (dst : bytes) (keys : list bytes) st := store_members dst (sinter keys st) st.
Definition sdiffstore (dst : bytes) (keys : list bytes) st := store_members dst (sdiff keys st) st.

Definition sintercard (keys : list bytes) (limit : nat) st : result Z :=
  match sinter keys st with
  | Ok members =>
      Ok (Z.of_nat (if (0 <? limit)%nat then Nat.min (length members) limit else length members))
  | Err e => Err e
  end.
End SetOps.
