(* ===== verification/ZSetOps.v ===== *)
(** Sorted-set commands: storage/zset.rs.  A panic of the container (an
    inverted score range) is [None]. *)

From S2P Require Import Prelude MapIface Float ZSet Value Store.
Local Open Scope Z_scope.

Section ZSetOps.
Context {M : Type} `{KVMap StoreValue M} (c : Clock).
Implicit Types (st : Store M) (z : ZSetData).

Definition zset_update {R} (on_expired : StoreValue → StoreValue * result R)
    (on_zset : ZSetData → ZSetData * result R) (v : StoreValue) : StoreValue * result R :=
  if is_expired c v then on_expired v
  else match as_zset (value v) with
       | Some z => let '(z', r) := on_zset z in (mkValue (VZSet z') (expires_ms v), r)
       | None => (v, Err WRONGTYPE)
       end.

(** Read a live sorted set; [r0] stands for a missing or expired key. *)
Definition zset_read {R} (key : bytes) (r0 : R) (f : ZSetData → R) st : result R :=
  read_live c key (Ok r0)
    (λ v, match as_zset v with Some z => Ok (f z) | None => Err WRONGTYPE end) st.

(** ** ZADD *)

Record ZAddFlags := mkFlags { nx : bool; xx : bool; gt : bool; lt : bool; ch : bool }.

Definition insert_all (members : list (f64 * bytes)) z : ZSetData :=
  foldl (λ z p, (zset_insert z p.1 p.2).1) z members.

(** [if gt && lt { score != old } else if gt { .. } else if lt { .. } else { true }] *)
Definition should_update (fl : ZAddFlags) (score old : f64) : bool :=
  if gt fl && lt fl then negb (f64_eq score old)
  else if gt fl then f64_lt old score
  else if lt fl then f64_lt score old
  else true.

(** One member: the set, the number added and the number changed. *)
Definition zadd_step (fl : ZAddFlags) (acc : ZSetData * Z * Z) (p : f64 * bytes) : ZSetData * Z * Z :=
  let '(z, added, changed) := acc in
  let '(score, member) := p in
  if nx fl || xx fl || gt fl || lt fl then
    match get_score z member with
    | Some old =>
        if nx fl then acc
        else if should_update fl score old then ((zset_insert z score member).1, added, changed + 1)
        else acc
    | None => if xx fl then acc else ((zset_insert z score member).1, added + 1, changed)
    end
  else
    let '(z', fresh) := zset_insert z score member in
    if fresh then (z', added + 1, changed) else (z', added, changed + 1).

Definition zadd (key : bytes) (members : list (f64 * bytes)) (fl : ZAddFlags) st : Store M * result Z :=
  let n := Z.of_nat (length members) in
  let '(st', r) := update_with key
    (zset_update
       (λ _, if xx fl then (mkValue (VZSet ZSetData_new) 0, Ok 0)
             else (mkValue (VZSet (insert_all members ZSetData_new)) 0, Ok n))
       (λ z, let '(z', added, changed) := foldl (zadd_step fl) (z, 0, 0) members in
             (z', Ok (if ch fl then added + changed else added)))) st in
  match r with
  | Some r => (st', r)
  | None =>
      if xx fl then (st', Ok 0)
      else (put key (StoreValue_zset (insert_all members ZSetData_new)) st', Ok n)
  end.

(** ** Single-key operations *)

Fixpoint zrem_all (members : list bytes) (n : Z) z : ZSetData * Z :=
  match members with
  | [] => (z, n)
  | m :: members' =>
      let '(z', r) := zset_remove z m in
      zrem_all members' (match r with Some _ => n + 1 | None => n end) z'
  end.

Definition zrem (key : bytes) (members : list bytes) st : Store M * result Z :=
  update_or key
    (zset_update (λ v, (v, Ok 0)) (λ z, let '(z', n) := zrem_all members 0 z in (z', Ok n))) (Ok 0) st.

Definition zscore (key member : bytes) st : result (option f64) := zset_read key None (λ z, get_score z member) st.
Definition zmscore (key : bytes) (members : list bytes) st : result (list (option f64)) :=
  zset_read key (replicate (length members) None) (λ z, get_score z <$> members) st.
Definition zrank (key member : bytes) st : result (option nat) := zset_read key None (λ z, rank z member) st.
Definition zrevrank (key member : bytes) st : result (option nat) := zset_read key None (λ z, rev_rank z member) st.
Definition zcard (key : bytes) st : result Z := zset_read key 0 (λ z, Z.of_nat (zset_len z)) st.
Definition zcount (key : bytes) (mn mx : f64) st : result Z :=
  zset_read key 0 (λ z, count_in_score_range z mn mx) st.

Definition zincrby (key : bytes) (increment : f64) (member : bytes) st : Store M * result f64 :=
  let fresh := mkValue (VZSet (zset_insert ZSetData_new increment member).1) 0 in
  update_or_insert key
    (zset_update (λ _, (fresh, Ok increment)) (λ z, let '(z', s) := zset_incr z member increment in (z', Ok s)))
    fresh (Ok increment) st.

(** ** Ranges *)

Definition pair_of (e : ZEntry) : bytes * f64 := (member e, score e).

(** The index as a [usize]: [len.saturating_sub(1)] is signed, [-1] for an empty set. *)
Definition normalize_zset_index (index len : Z) : Z :=
  wrap64 (if index <? 0 then Z.max (len + index) 0 else Z.min index (len - 1)).

Definition zrange_entries (start stop : Z) z : list (bytes * f64) :=
  let len := Z.of_nat (zset_len z) in
  let s := normalize_zset_index start len in
  let e := normalize_zset_index stop len in
  if e <? s then [] else pair_of <$> range_by_rank z (Z.to_nat s) (Z.to_nat (wrap64 (e + 1))).

Definition zrange (key : bytes) (start stop : Z) st : result (list (bytes * f64)) :=
  zset_read key [] (zrange_entries start stop) st.

Definition zrevrange_entries (start stop : Z) z : list (bytes * f64) :=
  let len := Z.of_nat (zset_len z) in
  let s := normalize_zset_index start len in
  let e := normalize_zset_index stop len in
  if e <? s then []
  else pair_of <$> take (Z.to_nat (wrap64 (e - s + 1))) (drop (Z.to_nat s) (reverse (entries z))).

Definition zrevrange (key : bytes) (start stop : Z) st : result (list (bytes * f64)) :=
  zset_read key [] (zrevrange_entries start stop) st.

(** [.skip(offset).take(if count == 0 { usize::MAX } else { count })] *)
Definition page {A} (offset count : nat) (l : list A) : list A :=
  let l := drop offset l in if (count =? 0)%nat then l else take count l.

(** A panic in the closure is a panic of the command. *)
Definition zset_read_opt {R} (key : bytes) (r0 : R) (f : ZSetData → option R) st : option (result R) :=
  match zset_read key (Some r0) f st with
  | Ok (Some r) => Some (Ok r)
  | Ok None => None
  | Err e => Some (Err e)
  end.

Definition zrangebyscore (key : bytes) (mn mx : f64) (offset count : nat) st
    : option (result (list (bytes * f64))) :=
  zset_read_opt key [] (λ z, (λ es, pair_of <$> page offset count es) <$> range_by_score z mn mx) st.

Definition zrevrangebyscore (key : bytes) (mx mn : f64) (offset count : nat) st
    : option (result (list (bytes * f64))) :=
  zset_read_opt key [] (λ z, (λ es, pair_of <$> page offset count es) <$> rev_range_by_score z mn mx) st.

(** [n] pops from one end. *)
Fixpoint zpops (pop : ZSetData → ZSetData * option ZEntry) (n : nat) z (out : list (bytes * f64))
    : ZSetData * list (bytes * f64) :=
  match n with
  | O => (z, out)
  | S n' =>
      let '(z', e) := pop z in zpops pop n' z' (match e with Some e => out ++ [pair_of e] | None => out end)
  end.

Definition zpop_with (pop : ZSetData → ZSetData * option ZEntry) (key : bytes) (count : nat) st
    : Store M * result (list (bytes * f64)) :=
  update_or key
    (zset_update (λ v, (v, Ok []))
       (λ z, let '(z', out) := zpops pop (Nat.min count (zset_len z)) z [] in (z', Ok out))) (Ok []) st.

Definition zpopmin := zpop_with pop_min.
Definition zpopmax := zpop_with pop_max.

(** ** ZRANDMEMBER: a negative count allows repetition.

    [None] is an exhausted fuel, or the panic of [collect] when the [8 * n]
    bytes of the draws exceed [isize::MAX]. *)

Definition zrandmember (fuel : nat) (key : bytes) (count : Z) st : option (result (list (bytes * f64))) :=
  zset_read_opt key []
    (λ z, if (zset_len z =? 0)%nat then Some []
          else option_map (map pair_of)
            (if 0 <=? count then random_members fuel z (Z.to_nat count) false
             else if i64_max <? 8 * wrap64 (- count) then None
             else random_members fuel z (Z.to_nat (wrap64 (- count))) true)) st.

(** ** Lexicographic ranges *)

Definition strip_prefix (b : byte) (s : bytes) : option bytes :=
  match s with x :: s' => if bool_decide (x = b) then Some s' else None | [] => None end.

Definition parse_lex_bound (open_ : bytes) (open_as : bytes) (s : bytes) : bytes * bool :=
  if bool_decide (s = open_) then (open_as, false)
  else match strip_prefix (z2b 40) s with
       | Some m => (m, true)
       | None => match strip_prefix (z2b 91) s with Some m => (m, false) | None => (s, false) end
       end.

Definition parse_lex_bound_min := parse_lex_bound (B "-") [].
Definition parse_lex_bound_max := parse_lex_bound (B "+") (B "+").

Definition zlexcount (key mn mx : bytes) st : result Z :=
  let '(mn, mne) := parse_lex_bound_min mn in
  let '(mx, mxe) := parse_lex_bound_max mx in
  zset_read key 0 (λ z, Z.of_nat (count_lex_range z mn mx mne mxe)) st.

Definition zrangebylex (key mn mx : bytes) (offset count : nat) st : result (list bytes) :=
  let '(mn, mne) := parse_lex_bound_min mn in
  let '(mx, mxe) := parse_lex_bound_max mx in
  zset_read key [] (λ z, member <$> page offset count (lex_range z mn mx mne mxe)) st.

(** ** Set operations *)

Inductive ZAggregate := Sum | Min | Max.

Definition apply_aggregate (a : ZAggregate) (x y : f64) : f64 :=
  match a with Sum => f64_add x y | Min => f64_min x y | Max => f64_max x y end.

Definition eq_ignore_ascii_case (a b : bytes) : bool :=
  let lower x := if (65 <=? b2z x) && (b2z x <=? 90) then b2z x + 32 else b2z x in
  bool_decide (lower <$> a = lower <$> b).

Definition parse_aggregate (s : bytes) : option ZAggregate :=
  if eq_ignore_ascii_case s (B "SUM") then Some Sum
  else if eq_ignore_ascii_case s (B "MIN") then Some Min
  else if eq_ignore_ascii_case s (B "MAX") then Some Max
  else None.

(** [weights.get(i).copied().unwrap_or(1.0)] *)
Definition weight_at (weights : list f64) (i : nat) : f64 := default (f64_of_Z 1) (weights !! i).

(** The sorted set of a key: [None] for a missing or expired one. *)
Definition live_zset (key : bytes) st : result (option ZSetData) := zset_read key None Some st.

(** Fold one key's entries into the union. *)
Definition union_entry (a : ZAggregate) (w : f64) (acc : ZSetData) (e : ZEntry) : ZSetData :=
  let weighted := f64_mul (score e) w in
  let new_score := match get_score acc (member e) with
                   | Some existing => apply_aggregate a existing weighted
                   | None => weighted
                   end in
  (zset_insert acc new_score (member e)).1.

Fixpoint zunion_loop (a : ZAggregate) (weights : list f64) (i : nat) (keys : list bytes) (acc : ZSetData) st
    : result ZSetData :=
  match keys with
  | [] => Ok acc
  | k :: keys' =>
      match live_zset k st with
      | Ok None => zunion_loop a weights (S i) keys' acc st
      | Ok (Some z) =>
          zunion_loop a weights (S i) keys' (foldl (union_entry a (weight_at weights i)) acc (entries z)) st
      | Err e => Err e
      end
  end.

Definition zunion (keys : list bytes) (weights : list f64) (a : ZAggregate) st : result (list (bytes * f64)) :=
  match zunion_loop a weights 0 keys ZSetData_new st with
  | Ok z => Ok (pair_of <$> entries z)
  | Err e => Err e
  end.

(** Keep the members that are in the other set, with the combined score. *)
Definition inter_with (a : ZAggregate) (w : f64) (other acc : ZSetData) : ZSetData :=
  foldl (λ next e,
    match get_score other (member e) with
    | Some s => (zset_insert next (apply_aggregate a (score e) (f64_mul s w)) (member e)).1
    | None => next
    end) ZSetData_new (entries acc).

(** [None]: some key is missing or expired. *)
Fixpoint zinter_loop (a : ZAggregate) (weights : list f64) (i : nat) (keys : list bytes) (acc : ZSetData) st
    : result (option ZSetData) :=
  match keys with
  | [] => Ok (Some acc)
  | k :: keys' =>
      match live_zset k st with
      | Ok None => Ok None
      | Ok (Some z) => zinter_loop a weights (S i) keys' (inter_with a (weight_at weights i) z acc) st
      | Err e => Err e
      end
  end.

Definition zinter_all (keys : list bytes) (weights : list f64) (a : ZAggregate) st : result (option ZSetData) :=
  match keys with
  | [] => Ok None
  | k :: keys' =>
      match live_zset k st with
      | Ok None => Ok None
      | Ok (Some z) =>
          let first := foldl (λ acc e, (zset_insert acc (f64_mul (score e) (weight_at weights 0)) (member e)).1)
                         ZSetData_new (entries z) in
          zinter_loop a weights 1 keys' first st
      | Err e => Err e
      end
  end.

Definition zinter (keys : list bytes) (weights : list f64) (a : ZAggregate) st : result (list (bytes * f64)) :=
  match zinter_all keys weights a st with
  | Ok (Some z) => Ok (pair_of <$> entries z)
  | Ok None => Ok []
  | Err e => Err e
  end.

(** Remove from [acc] the members of [z]. *)
Definition diff_with (z acc : ZSetData) : ZSetData :=
  foldl (λ acc m, (zset_remove acc m).1) acc (List.filter (zset_contains z) (member <$> entries acc)).

Fixpoint zdiff_loop (keys : list bytes) (acc : ZSetData) st : result ZSetData :=
  match keys with
  | [] => Ok acc
  | k :: keys' =>
      match live_zset k st with
      | Ok None => zdiff_loop keys' acc st
      | Ok (Some z) => zdiff_loop keys' (diff_with z acc) st
      | Err e => Err e
      end
  end.

Definition zdiff (keys : list bytes) st : result (list (bytes * f64)) :=
  match keys with
  | [] => Ok []
  | k :: keys' =>
      match live_zset k st with
      | Ok None => Ok []
      | Ok (Some z) =>
          match zdiff_loop keys' z st with Ok z => Ok (pair_of <$> entries z) | Err e => Err e end
      | Err e => Err e
      end
  end.

(** Replace the destination and reply with the size. *)
Definition store_zset (dst : bytes) (z : ZSetData) st : Store M * result Z :=
  (put dst (StoreValue_zset z) st, Ok (Z.of_nat (zset_len z))).

Definition zunionstore (dst : bytes) (keys : list bytes) (weights : list f64) (a : ZAggregate) st
    : Store M * result Z :=
  match zunion_loop a weights 0 keys ZSetData_new st with
  | Ok z => store_zset dst z st
  | Err e => (st, Err e)
  end.

(** A missing key stores the empty set. *)
Definition zinterstore (dst : bytes) (keys : list bytes) (weights : list f64) (a : ZAggregate) st
    : Store M * result Z :=
  match zinter_all keys weights a st with
  | Ok z => store_zset dst (default ZSetData_new z) st
  | Err e => (st, Err e)
  end.

Definition zdiffstore (dst : bytes) (keys : list bytes) st : Store M * result Z :=
  match zdiff keys st with
  | Ok items => store_zset dst (foldl (λ z p, (zset_insert z p.2 p.1).1) ZSetData_new items) st
  | Err e => (st, Err e)
  end.
End ZSetOps.
