(* ===== verification/Commands.v ===== *)
(** The write commands as one alphabet, and what they have in common: each
    changes only the keys it names, a failed command changes nothing, and the
    TTL counter never falls below the number of keys that expire. *)

From S2P Require Import Prelude Decimal MapIface Collections Value Store StoreSpec ListOps HashOps SetOps.
From S2P Require Import Float ZSet ZSetOps.
Local Open Scope Z_scope.

Inductive Cmd :=
| CSet (k v : bytes) (exp : Z)
| CGet (k : bytes)
| CGetDel (k : bytes)
| CGetSet (k v : bytes)
| CGetEx (k : bytes) (exp : Z)
| CSetNx (k v : bytes)
| CAppend (k suffix : bytes)
| CIncrBy (k : bytes) (n : Z)
| CDecrBy (k : bytes) (n : Z)
| CDel (k : bytes)
| CExpire (k : bytes) (duration : Z)
| CExpireMs (k : bytes) (abs_ms : Z)
| CPersist (k : bytes)
| CRename (old new : bytes)
| CRenameNx (old new : bytes)
| CLPush (k : bytes) (vs : list bytes)
| CRPush (k : bytes) (vs : list bytes)
| CLPop (k : bytes) (n : nat)
| CRPop (k : bytes) (n : nat)
| CLSet (k : bytes) (i : Z) (v : bytes)
| CLTrim (k : bytes) (start stop : Z)
| CLRem (k : bytes) (n : Z) (v : bytes)
| CLInsert (k : bytes) (before : bool) (pivot v : bytes)
| CHSet (k : bytes) (fields : list (bytes * bytes))
| CHSetNx (k f x : bytes)
| CHDel (k : bytes) (fields : list bytes)
| CHIncrBy (k f : bytes) (n : Z)
| CSAdd (k : bytes) (ms : list bytes)
| CSRem (k : bytes) (ms : list bytes)
| CSPop (k : bytes) (n : nat)
| CSUnionStore (dst : bytes) (ks : list bytes)
| CSInterStore (dst : bytes) (ks : list bytes)
| CSDiffStore (dst : bytes) (ks : list bytes)
| CZAdd (k : bytes) (members : list (f64 * bytes)) (fl : ZAddFlags)
| CZRem (k : bytes) (ms : list bytes)
| CZIncrBy (k : bytes) (increment : f64) (m : bytes)
| CZPopMin (k : bytes) (n : nat)
| CZPopMax (k : bytes) (n : nat)
| CZUnionStore (dst : bytes) (ks : list bytes) (weights : list f64) (a : ZAggregate)
| CZInterStore (dst : bytes) (ks : list bytes) (weights : list f64) (a : ZAggregate)
| CZDiffStore (dst : bytes) (ks : list bytes)
| CCleanup
| CFlush.

(** The keys a command may change; [None] stands for all of them. *)
Definition cmd_keys (o : Cmd) : option (list bytes) :=
  match o with
  | CSet k _ _ | CGet k | CGetDel k | CGetSet k _ | CGetEx k _ | CSetNx k _ | CAppend k _
  | CIncrBy k _ | CDecrBy k _ | CDel k | CExpire k _ | CExpireMs k _ | CPersist k
  | CLPush k _ | CRPush k _ | CLPop k _ | CRPop k _ | CLSet k _ _ | CLTrim k _ _ | CLRem k _ _
  | CLInsert k _ _ _ | CHSet k _ | CHSetNx k _ _ | CHDel k _ | CHIncrBy k _ _ | CSAdd k _
  | CSRem k _ | CSPop k _ | CSUnionStore k _ | CSInterStore k _ | CSDiffStore k _
  | CZAdd k _ _ | CZRem k _ | CZIncrBy k _ _ | CZPopMin k _ | CZPopMax k _ | CZUnionStore k _ _ _
  | CZInterStore k _ _ _ | CZDiffStore k _ => Some [k]
  | CRename a b | CRenameNx a b => Some [a; b]
  | CCleanup | CFlush => None
  end.

Definition err_of {A} (r : result A) : option bytes := match r with Ok _ => None | Err e => Some e end.

Section Commands.
Context {M : Type} `{KVMap StoreValue M} `{HashOrder}.
Implicit Types st : Store M.

Definition no_err {A} (p : Store M * A) : Store M * option bytes := (p.1, None).
Definition with_err {A} (p : Store M * result A) : Store M * option bytes := (p.1, err_of p.2).

(** One command at one instant: the store afterwards and the error reply, if any. *)
Definition exec (c : Clock) (o : Cmd) st : Store M * option bytes :=
  match o with
  | CSet k v exp => (set_string k v exp st, None)
  | CGet k => no_err (store_get c k st)
  | CGetDel k => no_err (getdel c k st)
  | CGetSet k v => no_err (getset c k v st)
  | CGetEx k exp => no_err (getex_ms c k exp st)
  | CSetNx k v => no_err (setnx c k v st)
  | CAppend k s => with_err (append c k s st)
  | CIncrBy k n => with_err (incrby k n st)
  | CDecrBy k n => with_err (decrby k n st)
  | CDel k => no_err (del k st)
  | CExpire k d => no_err (expire c k d st)
  | CExpireMs k t => no_err (expire_ms c k t st)
  | CPersist k => no_err (persist c k st)
  | CRename a b => no_err (rename c a b st)
  | CRenameNx a b => no_err (renamenx c a b st)
  | CLPush k vs => with_err (lpush c k vs st)
  | CRPush k vs => with_err (rpush c k vs st)
  | CLPop k n => with_err (lpop c k n st)
  | CRPop k n => with_err (rpop c k n st)
  | CLSet k i v => with_err (lset c k i v st)
  | CLTrim k a b => with_err (ltrim c k a b st)
  | CLRem k n v => with_err (lrem c k n v st)
  | CLInsert k b p v => with_err (linsert c k b p v st)
  | CHSet k fs => with_err (hset c k fs st)
  | CHSetNx k f x => with_err (hsetnx c k f x st)
  | CHDel k fs => with_err (hdel c k fs st)
  | CHIncrBy k f n => with_err (hincrby c k f n st)
  | CSAdd k ms => with_err (sadd c k ms st)
  | CSRem k ms => with_err (srem c k ms st)
  | CSPop k n => with_err (spop c k n st)
  | CSUnionStore d ks => with_err (sunionstore c d ks st)
  | CSInterStore d ks => with_err (sinterstore c d ks st)
  | CSDiffStore d ks => with_err (sdiffstore c d ks st)
  | CZAdd k ms fl => with_err (zadd c k ms fl st)
  | CZRem k ms => with_err (zrem c k ms st)
  | CZIncrBy k n m => with_err (zincrby c k n m st)
  | CZPopMin k n => with_err (zpopmin c k n st)
  | CZPopMax k n => with_err (zpopmax c k n st)
  | CZUnionStore d ks ws a => with_err (zunionstore c d ks ws a st)
  | CZInterStore d ks ws a => with_err (zinterstore c d ks ws a st)
  | CZDiffStore d ks => with_err (zdiffstore c d ks st)
  | CCleanup => (cleanup_expired c st, None)
  | CFlush => (flush st, None)
  end.

(** A run: each command at its own instant. *)
Definition run_cmds (l : list (Clock * Cmd)) st : Store M :=
  foldl (λ st p, (exec p.1 p.2 st).1) st l.
End Commands.

(** ** Closures *)

Section Closures.
Context (c : Clock).

(** A closure that keeps the expiry of its value or clears it. *)
Definition tame {R} (f : StoreValue → StoreValue * R) : Prop :=
  ∀ v, expires_ms (f v).1 = 0 ∨ expires_ms (f v).1 = expires_ms v.

(** A closure that leaves the value alone when it fails. *)
Definition atomic {R} (f : StoreValue → StoreValue * result R) : Prop :=
  ∀ v e, (f v).2 = Err e → (f v).1 = v.

Lemma put_list_id v l : as_list v = Some l → put_list v l = v.
Proof. destruct v; simpl; try done. intros [= <-]. by destruct l0. Qed.

(** The shape of every container command: an expired value, a value of the right
    type, changed in place with its expiry kept, or WRONGTYPE. *)
Lemma typed_update_ok {T R} (get : FyroDB → option T) (set : FyroDB → T → FyroDB)
    (oe f : StoreValue → StoreValue * result R) (ot : T → T * result R) :
  (∀ v t, get v = Some t → set v t = v) →
  (∀ v, f v = if is_expired c v then oe v
              else match get (value v) with
                   | Some t => let '(t', r) := ot t in (mkValue (set (value v) t') (expires_ms v), r)
                   | None => (v, Err WRONGTYPE)
                   end) →
  (tame oe → tame f) ∧
  (atomic oe → (∀ t e, (ot t).2 = Err e → (ot t).1 = t) → atomic f).
Proof.
  intros Hid Hf. split.
  - intros Ht v. rewrite Hf. destruct (is_expired c v); [apply Ht|]. destruct (get (value v)) as [t|]; [|by right].
    destruct (ot t). by right.
  - intros Ha Hot v e. rewrite Hf. destruct (is_expired c v); [apply Ha|].
    destruct (get (value v)) as [t|] eqn:Et; [|done]. pose proof (Hot t e) as Hl.
    destruct (ot t) as [t' r]. simpl in *. intros Hr. rewrite (Hl Hr), Hid by done. by destruct v.
Qed.

Lemma list_update_ok {R} oe (ol : list bytes → list bytes * result R) :
  (tame oe → tame (list_update c oe ol)) ∧
  (atomic oe → (∀ l e, (ol l).2 = Err e → (ol l).1 = l) → atomic (list_update c oe ol)).
Proof. exact (typed_update_ok as_list put_list _ _ _ put_list_id (λ _, eq_refl)). Qed.

Lemma hash_update_ok {R} oe (oh : HashInner → HashInner * result R) :
  (tame oe → tame (hash_update c oe oh)) ∧
  (atomic oe → (∀ h e, (oh h).2 = Err e → (oh h).1 = h) → atomic (hash_update c oe oh)).
Proof. apply (typed_update_ok as_hash (λ _, VHash)); [|done]. intros []; naive_solver. Qed.

Lemma set_update_ok {R} oe (os : SetInner → SetInner * result R) :
  (tame oe → tame (set_update c oe os)) ∧
  (atomic oe → (∀ s e, (os s).2 = Err e → (os s).1 = s) → atomic (set_update c oe os)).
Proof. apply (typed_update_ok as_set (λ _, VSet)); [|done]. intros []; naive_solver. Qed.

Lemma zset_update_ok {R} oe (oz : ZSetData → ZSetData * result R) :
  (tame oe → tame (zset_update c oe oz)) ∧
  (atomic oe → (∀ z e, (oz z).2 = Err e → (oz z).1 = z) → atomic (zset_update c oe oz)).
Proof. apply (typed_update_ok as_zset (λ _, VZSet)); [|done]. intros []; naive_solver. Qed.

Lemma int_update_ok p d : tame (int_update p d) ∧ atomic (int_update p d).
Proof.
  unfold int_update. split.
  - intros v. repeat case_goal; by right.
  - intros v e. by repeat case_goal.
Qed.
End Closures.

(** ** What every command guarantees *)

Section Guarantees.
Context {M : Type} `{KVMapLaws StoreValue M} `{HashOrder}.
Implicit Types (st : Store M) (k : bytes).

(** No key that carries an expiry is new. *)
Definition no_new_ttl (g g' : gmap bytes StoreValue) : Prop :=
  ∀ k v', g' !! k = Some v' → has_ttl v' = true → ∃ v, g !! k = Some v ∧ has_ttl v = true.

(** RENAME and RENAMENX move an expiry to another key. *)
Definition names_two (ks : option (list bytes)) : bool := match ks with Some (_ :: _ :: _) => true | _ => false end.

Record cmd_ok (ks : option (list bytes)) st (p : Store M * option bytes) : Prop := {
  co_wf : store_wf p.1;
  co_frame : ∀ l k', ks = Some l → k' ∉ l → db p.1 !! k' = db st !! k';
  co_err : ∀ e, p.2 = Some e → db p.1 = db st ∧ same_ttl st p.1;
  co_ttl : ttl_keys (db st) <= ttl_count st → ttl_keys (db p.1) <= ttl_count p.1;
  co_gen : ttl_generation st <= ttl_generation p.1;
  co_new : names_two ks = false → ttl_generation p.1 = ttl_generation st → no_new_ttl (db st) (db p.1);
}.

Lemma no_new_ttl_refl g : no_new_ttl g g.
Proof. intros k v Hk Hv. by exists v. Qed.

Lemma no_new_ttl_sub g g' : g' ⊆ g → no_new_ttl g g'.
Proof. intros Hs k v Hk Hv. exists v. split; [by eapply lookup_weaken|done]. Qed.

(** A change of one key that does not raise the number of expiries adds none. *)
Lemma no_new_ttl_at g g' k :
  (∀ k', k' ≠ k → g' !! k' = g !! k') → ttl_keys g' <= ttl_keys g → no_new_ttl g g'.
Proof.
  intros Hf Ht k' v' Hk' Hv'. destruct (decide (k' = k)) as [->|Hne]; [|rewrite Hf in Hk' by done; by exists v'].
  assert (Hd : delete k g' = delete k g).
  { apply map_eq. intros j. destruct (decide (j = k)) as [->|]; [by rewrite !lookup_delete_eq|].
    rewrite !lookup_delete_ne by done. by apply Hf. }
  rewrite (ttl_keys_delete g' k v' Hk'), Hd, Hv' in Ht. simpl in Ht.
  destruct (g !! k) as [v|] eqn:E; [|rewrite delete_id in Ht by done; lia].
  exists v. split; [done|]. rewrite (ttl_keys_delete g k v E) in Ht. destruct (has_ttl v); [done|simpl in Ht; lia].
Qed.

Lemma ttl_keys_tame g k v v' :
  g !! k = Some v → expires_ms v' = 0 ∨ expires_ms v' = expires_ms v →
  ttl_keys (<[k := v']> g) <= ttl_keys g.
Proof.
  intros Hk Ht. rewrite ttl_keys_insert, (ttl_keys_delete g k v Hk). unfold has_ttl.
  destruct Ht as [-> | ->]; simpl; [|lia]. destruct (negb _); simpl; lia.
Qed.

Lemma ttl_keys_persistent g k v' : expires_ms v' = 0 → ttl_keys (<[k := v']> g) <= ttl_keys g.
Proof.
  intros He. rewrite ttl_keys_insert. unfold has_ttl. rewrite He. simpl.
  pose proof (ttl_keys_delete_le g k). lia.
Qed.

(** A change of the key [k] only, with the counters kept. *)
Lemma local_ok ks k st st' r :
  store_wf st' → same_ttl st st' → k ∈ ks →
  (∀ k', k' ≠ k → db st' !! k' = db st !! k') →
  (∀ e, r = Some e → db st' = db st) → ttl_keys (db st') <= ttl_keys (db st) →
  cmd_ok (Some ks) st (st', r).
Proof.
  intros Hw Hs Hk Hf He Ht. split; simpl; [done| | | | |].
  - intros l k' [= <-] Hk'. apply Hf. by intros ->.
  - intros e Hr. split; [by eapply He|done].
  - destruct Hs as (-> & _). lia.
  - by destruct Hs as (_ & -> & _).
  - intros _ _. by eapply no_new_ttl_at.
Qed.

Lemma upd_tame g k {R} (f : StoreValue → StoreValue * R) : tame f → ttl_keys (upd g k f) <= ttl_keys g.
Proof.
  intros Ht. unfold upd. destruct (g !! k) as [v|] eqn:E; [|done]. eapply ttl_keys_tame; [done|apply Ht].
Qed.

Lemma update_or_ok {R} k (f : StoreValue → StoreValue * result R) r0 st :
  store_wf st → tame f → atomic f → cmd_ok (Some [k]) st (with_err (update_or k f r0 st)).
Proof.
  intros Hw Ht Ha. destruct (update_or_spec k f r0 st Hw) as (Hw' & Hd & Hs & Hr).
  apply (local_ok _ k); [done|done|set_solver| | |].
  - intros k' Hne. rewrite Hd. by apply upd_lookup_ne.
  - intros e. rewrite Hr, Hd. unfold upd. destruct (db st !! k) as [v|] eqn:E; [|done].
    destruct (f v).2 eqn:Ef; [done|]. intros _. rewrite (Ha v _ Ef). by apply insert_id.
  - rewrite Hd. by apply upd_tame.
Qed.

Lemma update_or_insert_ok {R} k (f : StoreValue → StoreValue * result R) fresh x st :
  store_wf st → tame f → atomic f → expires_ms fresh = 0 →
  cmd_ok (Some [k]) st (with_err (update_or_insert k f fresh (Ok x) st)).
Proof.
  intros Hw Ht Ha Hf. destruct (update_or_insert_spec k f fresh (Ok x) st Hw) as (Hw' & Hd & Hs & Hr).
  apply (local_ok _ k); [done|done|set_solver| | |].
  - intros k' Hne. rewrite Hd. by apply lookup_insert_ne.
  - intros e. rewrite Hr, Hd. destruct (db st !! k) as [v|] eqn:E; [|done].
    destruct (f v).2 eqn:Ef; [done|]. intros _. rewrite (Ha v _ Ef). by apply insert_id.
  - rewrite Hd. destruct (db st !! k) as [v|] eqn:E; [|by apply ttl_keys_persistent].
    eapply ttl_keys_tame; [done|apply Ht].
Qed.

(** ** The commands *)

Lemma put_persistent_ok ks k v st r :
  store_wf st → k ∈ ks → expires_ms v = 0 → (r : option bytes) = None → cmd_ok (Some ks) st (put k v st, r).
Proof.
  intros Hw Hk Hv ->. destruct (put_spec k v st Hw) as (Hw' & Hd & Hs).
  apply (local_ok _ k); [done|done|done| |done|].
  - intros k' Hne. rewrite Hd. by apply lookup_insert_ne.
  - rewrite Hd. by apply ttl_keys_persistent.
Qed.

Lemma id_ok ks st r : store_wf st → cmd_ok ks st (st, r).
Proof. intros Hw. split; [done|done|by split|done|simpl; lia|]. intros _ _. apply no_new_ttl_refl. Qed.

Lemma delete_ok k st st' :
  store_wf st' → same_ttl st st' → db st' = delete k (db st) → cmd_ok (Some [k]) st (st', None).
Proof.
  intros Hw Hs Hd. apply (local_ok _ k); [done|done|set_solver| |done|].
  - intros k' Hne. rewrite Hd. by apply lookup_delete_ne.
  - rewrite Hd. apply ttl_keys_delete_le.
Qed.

Lemma set_ok k v exp st : store_wf st → cmd_ok (Some [k]) st (set_string k v exp st, None).
Proof.
  intros Hw. destruct (set_string_spec k v exp st Hw) as (Hw' & Hd & Ht). assert (Hg : ttl_generation (set_string k v exp st) = ttl_generation st + Z.b2z (negb (exp =? 0))).
  { unfold set_string. destruct (exp =? 0); simpl; lia. }
  split; simpl; [done| |done| | |].
  - intros l k' [= <-] Hk'. rewrite Hd. apply lookup_insert_ne. set_solver.
  - rewrite Hd, Ht, ttl_keys_insert. pose proof (ttl_keys_delete_le (db st) k). unfold has_ttl. simpl.
    destruct (exp =? 0); simpl; lia.
  - destruct (exp =? 0); simpl in Hg; lia.
  - intros _ Hsame. rewrite Hd. apply (no_new_ttl_at _ _ k); [intros; by apply lookup_insert_ne|].
    apply ttl_keys_persistent. simpl. destruct (exp =? 0) eqn:E; split_bool; [done|simpl in Hg; lia].
Qed.

Lemma get_ok c k st : store_wf st → cmd_ok (Some [k]) st (no_err (store_get c k st)).
Proof.
  intros Hw. destruct (store_get_spec c k st Hw) as (Hw' & Hs & _ & Hd).
  apply (local_ok _ k); [done|done|set_solver| |done|].
  - intros k' Hne. rewrite Hd. destruct (db st !! k) as [v|]; [|done].
    destruct (is_expired c v); [by apply lookup_delete_ne|done].
  - rewrite Hd. destruct (db st !! k) as [v|]; [|done].
    destruct (is_expired c v); [apply ttl_keys_delete_le|done].
Qed.

Lemma getdel_ok c k st : store_wf st → cmd_ok (Some [k]) st (no_err (getdel c k st)).
Proof.
  intros Hw. destruct (remove_spec k st Hw) as (Hw' & Hd & Hs & _).
  unfold getdel. destruct (kv_remove k (data st)) as [m r]. by apply delete_ok.
Qed.

Lemma del_ok k st : store_wf st → cmd_ok (Some [k]) st (no_err (del k st)).
Proof. intros Hw. destruct (del_spec k st Hw) as (? & ? & ? & _). by apply delete_ok. Qed.

(** A closure through [try_update], then a persistent value if there was none. *)
Lemma try_update_step {R} k (f : StoreValue → option (StoreValue * R)) st :
  store_wf st → (∀ v v' r, f v = Some (v', r) → expires_ms v' = 0 ∨ expires_ms v' = expires_ms v) →
  let st' := with_data st (kv_try_update k f (data st)).1 in
  store_wf st' ∧ same_ttl st st' ∧ (∀ k', k' ≠ k → db st' !! k' = db st !! k') ∧
  ttl_keys (db st') <= ttl_keys (db st).
Proof.
  intros Hw Hf. destruct (kv_try_update_spec (data st) k f Hw) as (Hw' & Hd & _ & _).
  cbv zeta. split; [done|]. split; [done|]. unfold db in *. simpl. rewrite Hd.
  destruct (kv_abs (data st) !! k) as [v|] eqn:E; simpl; [|done].
  destruct (f v) as [[v' r]|] eqn:Ef; [|done]. split.
  - intros k' Hne. by apply lookup_insert_ne.
  - eapply ttl_keys_tame; [done|by eapply Hf].
Qed.

Lemma getset_ok c k v st : store_wf st → cmd_ok (Some [k]) st (no_err (getset c k v st)).
Proof.
  intros Hw. unfold getset. set (f := λ _, _).
  destruct (try_update_step k f st Hw) as (Hw' & Hs & Hf & Ht); [unfold f; intros; simplify_eq; by left|].
  destruct (kv_try_update k f (data st)) as [m r]. simpl in *. destruct r as [old|].
  - apply (local_ok _ k); auto; [set_solver|done].
  - destruct (put_spec k (StoreValue_string v) _ Hw') as (? & Hd & Hs').
    apply (local_ok _ k); [done|by eapply same_ttl_trans|set_solver| |done|].
    + intros k' Hne. simpl. rewrite Hd, lookup_insert_ne by done. by apply Hf.
    + simpl. rewrite Hd. etransitivity; [by apply ttl_keys_persistent|done].
Qed.

Lemma setnx_ok c k v st : store_wf st → cmd_ok (Some [k]) st (no_err (setnx c k v st)).
Proof.
  intros Hw. unfold setnx. set (f := λ cur, _).
  destruct (try_update_step k f st Hw) as (Hw' & Hs & Hf & Ht).
  { unfold f. intros cur v' r. destruct (is_expired c cur); intros; simplify_eq; [by left|by right]. }
  destruct (kv_try_update k f (data st)) as [m r]. simpl in *. destruct r as [b|].
  - apply (local_ok _ k); auto; [set_solver|done].
  - destruct (put_absent_spec k (StoreValue_string v) _ Hw') as (Hw2 & Hd & Hs' & _). simpl in *.
    destruct (kv_insert_if_absent k _ m) as [m' b]. simpl in *.
    change (with_data (with_data st m) m') with (with_data st m') in *.
    apply (local_ok _ k); [done|by eapply same_ttl_trans|set_solver| |done|]; simpl; rewrite Hd.
    + intros k' Hne. rewrite <- Hf by done. case_goal; [done|by apply lookup_insert_ne].
    + case_goal; [done|]. etransitivity; [by apply ttl_keys_persistent|done].
Qed.

(** An update that reports by how much it changed the number of expiring keys. *)
Lemma ttl_update_ok {R} k (f : StoreValue → StoreValue * R) (adjust : R → Store M → Store M) st :
  store_wf st →
  (∀ r s, data (adjust r s) = data s) →
  (∀ v g n, g !! k = Some v → ttl_keys g <= n →
     let s := mkStore (data st) 0 n 0 in
     ttl_keys (<[k := (f v).1]> g) <= ttl_count (adjust (f v).2 s)) →
  (∀ r s s', ttl_count s = ttl_count s' → ttl_count (adjust r s) = ttl_count (adjust r s')) →
  (∀ r s, ttl_generation s <= ttl_generation (adjust r s)) →
  (∀ v s, ttl_generation (adjust (f v).2 s) = ttl_generation s → has_ttl (f v).1 = true → has_ttl v = true) →
  cmd_ok (Some [k]) st
    (let '(st', r) := update_with k f st in match r with Some r => adjust r st' | None => st' end, None).
Proof.
  intros Hw Hdata Hadj Hcong Hgen Hnew. destruct (update_with_spec k f st Hw) as (Hw' & Hd & Hs & Hr).
  destruct (update_with k f st) as [st' r]. simpl in *.
  assert (Hkeep : ∀ s, data s = data st' → db s = db st' ∧ store_wf s).
  { intros s Hs'. unfold db, store_wf. by rewrite Hs'. }
  set (s := match r with Some r => adjust r st' | None => st' end).
  assert (data s = data st') as Hds by (unfold s; destruct r; [apply Hdata|done]).
  destruct (Hkeep s Hds) as [Hdb Hsw]. destruct Hs as (Hc & Hg & _). split; simpl; [done| |done| | |].
  - intros l k' [= <-] Hk'. rewrite Hdb, Hd. apply upd_lookup_ne. set_solver.
  - intros Hle. rewrite Hdb, Hd. unfold s, upd in *. subst r.
    destruct (db st !! k) as [v|] eqn:E; simpl; [|lia].
    rewrite (Hcong _ st' (mkStore (data st) 0 (ttl_count st) 0)) by done. by apply Hadj.
  - unfold s. rewrite <- Hg. by destruct r.
  - intros _ Hsame. rewrite Hdb, Hd. unfold s, upd in *. subst r. destruct (db st !! k) as [v|] eqn:E; [|apply no_new_ttl_refl].
    simpl in Hsame. intros k' v' Hk' Hv'. destruct (decide (k' = k)) as [->|Hne].
    + rewrite lookup_insert_eq in Hk'. simplify_eq. exists v. split; [done|].
      apply (Hnew v st'); [by rewrite Hg|done].
    + rewrite lookup_insert_ne in Hk' by done. by exists v'.
Qed.

Lemma getex_ok c k exp st : store_wf st → cmd_ok (Some [k]) st (no_err (getex_ms c k exp st)).
Proof.
  intros Hw. unfold getex_ms, no_err.
  set (f := λ v, _). set (adjust := λ (r : option bytes * Z) (s : Store M),
    if r.2 =? 1 then add_ttl s else if r.2 =? -1 then sub_ttl s else s).
  pose proof (ttl_update_ok k f adjust st Hw) as Hok.
  assert (E : ∀ p : Store M * option (option bytes * Z),
    (let '(st', r) := p in match r with Some r => adjust r st' | None => st' end) =
    (let '(st', r) := p in
     match r with
     | Some (result, change) =>
        (if change =? 1 then add_ttl st' else if change =? -1 then sub_ttl st' else st', result)
     | None => (st', None)
     end).1) by (intros [? [[]|]]; done).
  rewrite <- E. apply Hok.
  - intros r s. unfold adjust, add_ttl, sub_ttl. by repeat case_goal.
  - intros v g n Hk Hn. unfold f, adjust. cbv zeta.
    destruct (is_expired c v); simpl; [by rewrite insert_id|].
    destruct (as_string (value v)); simpl; [|by rewrite insert_id].
    rewrite ttl_keys_insert. pose proof (ttl_keys_delete g k v Hk) as Hd. unfold has_ttl in *. simpl.
    destruct (expires_ms v =? 0), (exp =? 0); simpl in *; try lia.
    destruct (n =? 0) eqn:En; split_bool; unfold ttl_keys in *; lia.
  - intros r s s' Hc. unfold adjust, add_ttl, sub_ttl. repeat case_goal; simpl; congruence.
  - intros r s. unfold adjust, add_ttl, sub_ttl. repeat case_goal; simpl; lia.
  - intros v s. unfold f, adjust, has_ttl. destruct (is_expired c v); [done|]. destruct (as_string (value v)); [|done]. simpl.
    destruct (expires_ms v =? 0), (exp =? 0); simpl; try done; lia.
Qed.

Lemma bump_default (r : option bool) st :
  match r with Some r => bump_if r st | None => st end = bump_if (default false r) st.
Proof. by destruct r. Qed.

Lemma expire_to_ok c k (t : Z) st :
  store_wf st →
  cmd_ok (Some [k]) st
    (no_err (let '(st, r) := update_with k (λ v,
      if is_expired c v then (v, false) else (mkValue (value v) t, expires_ms v =? 0)) st in
     let ok := default false r in (bump_if ok st, ok))).
Proof.
  intros Hw. unfold no_err. set (f := λ v, _). pose proof (ttl_update_ok k f bump_if st Hw) as Hok.
  destruct (update_with k f st) as [st' r]. simpl in *. rewrite bump_default in Hok. apply Hok.
  - intros r' s. by destruct r'.
  - intros v g n Hk Hn. unfold f. cbv zeta. destruct (is_expired c v); simpl; [by rewrite insert_id|].
    rewrite ttl_keys_insert. pose proof (ttl_keys_delete g k v Hk) as Hd. unfold has_ttl in *. simpl.
    destruct (expires_ms v =? 0), (t =? 0); simpl in *; lia.
  - intros [] s s' Hc; simpl; congruence.
  - intros [] s; simpl; lia.
  - intros v s. unfold f, has_ttl. destruct (is_expired c v); [done|]. simpl.
    destruct (expires_ms v =? 0); simpl; [lia|done].
Qed.

Lemma persist_ok c k st : store_wf st → cmd_ok (Some [k]) st (no_err (persist c k st)).
Proof.
  intros Hw. unfold persist, no_err. set (f := λ v, _).
  set (adjust := λ (r : bool) (s : Store M), if r then sub_ttl s else s).
  pose proof (ttl_update_ok k f adjust st Hw) as Hok.
  destruct (update_with k f st) as [st' r]. simpl in *.
  assert (match r with Some r => adjust r st' | None => st' end =
          if default false r then sub_ttl st' else st') as <- by by destruct r as [[]|].
  apply Hok.
  - intros r' s. by destruct r'.
  - intros v g n Hk Hn. unfold f, adjust. cbv zeta. destruct (is_expired c v); simpl; [by rewrite insert_id|].
    destruct (expires_ms v =? 0) eqn:E; simpl; [by rewrite insert_id|].
    rewrite ttl_keys_insert. pose proof (ttl_keys_delete g k v Hk) as Hd. unfold has_ttl in *. simpl.
    rewrite E in Hd. simpl in Hd. destruct (n =? 0) eqn:En; split_bool; unfold ttl_keys in *; lia.
  - intros [] s s' Hc; simpl; [|done]. by rewrite Hc.
  - intros [] s; simpl; lia.
  - intros v s. unfold f, has_ttl. destruct (is_expired c v), (expires_ms v =? 0) eqn:E; simpl; rewrite ?E; auto.
Qed.

Lemma rename_ok c a b st : store_wf st → cmd_ok (Some [a; b]) st (no_err (rename c a b st)).
Proof.
  intros Hw. destruct (decide (a = b)) as [->|Hne].
  { unfold rename. rewrite bool_decide_eq_true_2 by done. by apply id_ok. }
  destruct (rename_spec c a b st Hw Hne) as (Hw' & (Hs & Hg & _) & _ & Hd). split; simpl; [done| |done| |by rewrite Hg|done].
  - intros l k' [= <-] Hk'. rewrite Hd. destruct (db st !! a) as [v|]; [|done].
    destruct (is_expired c v); [apply lookup_delete_ne; set_solver|].
    rewrite lookup_insert_ne, lookup_delete_ne by set_solver. done.
  - intros Hle. rewrite Hs, Hd. destruct (db st !! a) as [v|] eqn:E; [|done].
    pose proof (ttl_keys_delete (db st) a v E) as Hv. destruct (is_expired c v).
    + destruct (has_ttl v); simpl in *; lia.
    + rewrite ttl_keys_insert. pose proof (ttl_keys_delete_le (delete a (db st)) b). lia.
Qed.

Lemma renamenx_ok c a b st : store_wf st → cmd_ok (Some [a; b]) st (no_err (renamenx c a b st)).
Proof.
  intros Hw. destruct (decide (a = b)) as [->|Hne].
  { unfold renamenx. rewrite bool_decide_eq_true_2 by done. by apply id_ok. }
  destruct (renamenx_spec c a b st Hw Hne) as (Hw' & (Hs & Hg & _) & _ & Hd). split; simpl; [done| |done| |by rewrite Hg|done].
  - intros l k' [= <-] Hk'. rewrite Hd. destruct (db st !! a) as [v|]; [|done].
    destruct (is_expired c v); [apply lookup_delete_ne; set_solver|].
    case_goal; [|done]. rewrite lookup_insert_ne, lookup_delete_ne by set_solver. done.
  - intros Hle. rewrite Hs, Hd. destruct (db st !! a) as [v|] eqn:E; [|done].
    pose proof (ttl_keys_delete (db st) a v E) as Hv. destruct (is_expired c v).
    + destruct (has_ttl v); simpl in *; lia.
    + case_goal; [|done]. rewrite ttl_keys_insert. pose proof (ttl_keys_delete_le (delete a (db st)) b). lia.
Qed.

Lemma hincrby_ok c k f n st : store_wf st → cmd_ok (Some [k]) st (with_err (hincrby c k f n st)).
Proof.
  intros Hw. unfold hincrby. cbn [hincrby_loop].
  set (upd_fun := hash_update c _ _).
  assert (Htame : tame upd_fun ∧ atomic upd_fun).
  { split; apply hash_update_ok; [by left|by intros ? ?|]. intros h e. by repeat case_goal. }
  destruct (update_with_spec k upd_fun st Hw) as (Hw' & Hd & Hs & Hr).
  destruct (update_with k upd_fun st) as [st' r]. simpl in *. destruct r as [r|]; simpl.
  - apply (local_ok _ k); [done|done|set_solver| | |]; simpl; rewrite Hd.
    + intros k' Hne. by apply upd_lookup_ne.
    + intros e. unfold upd. destruct (db st !! k) as [v|] eqn:E; [|done]. simplify_eq/=.
      destruct (upd_fun v).2 eqn:Ef; [done|]. intros _. rewrite (proj2 Htame v _ Ef). by apply insert_id.
    + apply upd_tame, Htame.
  - unfold upd in Hd. destruct (db st !! k) as [v|] eqn:E; [done|].
    destruct (put_absent_spec k (StoreValue_hash {[ f := i64_to_string n ]}) st' Hw') as (Hw2 & Hd2 & Hs2 & Hb).
    destruct (kv_insert_if_absent k _ (data st')) as [m ok]. simpl in *. rewrite Hd, E in *. subst ok. simpl.
    apply (local_ok _ k); [done|by eapply same_ttl_trans|set_solver| |done|]; simpl; rewrite Hd2.
    + intros k' Hne. by apply lookup_insert_ne.
    + by apply ttl_keys_persistent.
Qed.

Lemma store_members_ok dst r st : store_wf st → cmd_ok (Some [dst]) st (with_err (store_members dst r st)).
Proof.
  intros Hw. destruct r as [ms|e]; simpl; [|by apply id_ok].
  unfold with_err. simpl. apply put_persistent_ok; [done|set_solver|done|done].
Qed.

(** Replacing the destination, or failing. *)
Lemma store_zset_ok dst (r : result ZSetData) st :
  store_wf st →
  cmd_ok (Some [dst]) st
    (with_err (match r with Ok z => store_zset dst z st | Err e => (st, Err e) end)).
Proof.
  intros Hw. destruct r as [z|e]; simpl; [|by apply id_ok].
  unfold with_err. simpl. apply put_persistent_ok; [done|set_solver|done|done].
Qed.

Lemma cleanup_ok c st : store_wf st → cmd_ok None st (cleanup_expired c st, None).
Proof.
  intros Hw. destruct (cleanup_expired_spec c st Hw) as (Hw' & Hd & Ht). split; simpl; [done|done|done| | |].
  - intros _. by rewrite Ht.
  - unfold cleanup_expired, finish_ttl_scan. destruct (kv_retain _ _ _). by case_goal.
  - intros _ _. rewrite Hd. apply no_new_ttl_sub, map_filter_subseteq.
Qed.

Lemma flush_ok st : store_wf st → cmd_ok None st (flush st, None).
Proof.
  intros Hw. destruct (kv_clear_spec (data st) Hw) as (Hw' & Hd & _). split; simpl; [done|done|done| |lia|lia].
  intros _. unfold db. simpl. by rewrite Hd.
Qed.

Ltac tame_atomic :=
  first [ apply list_update_ok | apply hash_update_ok | apply set_update_ok | apply zset_update_ok | apply int_update_ok ];
  try (by intros ? ?); try (by left); try (intros v0; by right);
  try (intros ? ?; by repeat case_goal).

Lemma int_op_ok k n st : store_wf st → cmd_ok (Some [k]) st (with_err (int_op k n st)).
Proof.
  intros Hw. destruct (int_op_spec k n st Hw) as (Hw' & Hs & Hd & Hr).
  destruct (int_update_ok parse_i64 n) as [Ht Ha].
  apply (local_ok _ k); [done|done|set_solver| | |].
  - intros k' Hne. rewrite Hd. by apply lookup_insert_ne.
  - intros e. rewrite Hr, Hd. destruct (db st !! k) as [v|] eqn:E; [|done].
    destruct (int_update parse_i64 n v).2 eqn:Ef; [done|]. intros _. rewrite (Ha v _ Ef). by apply insert_id.
  - rewrite Hd. destruct (db st !! k) as [v|] eqn:E; [|by apply ttl_keys_persistent].
    eapply ttl_keys_tame; [done|apply Ht].
Qed.

Lemma append_closure_ok c suffix :
  let f := λ v, if is_expired c v then (mkValue (VString suffix) 0, Ok (Resp.zlen suffix))
    else match value v with
         | VString s => (mkValue (VString (s ++ suffix)) (expires_ms v), Ok (Resp.zlen (s ++ suffix)))
         | _ => (v, Err WRONGTYPE)
         end in
  tame f ∧ atomic f.
Proof.
  split; intros v; simpl; destruct (is_expired c v); simpl; try (by left); try done;
    destruct (value v); simpl; try (by right); done.
Qed.

Lemma zadd_ok c k members fl st : store_wf st → cmd_ok (Some [k]) st (with_err (zadd c k members fl st)).
Proof.
  intros Hw. unfold zadd. set (f := zset_update c _ _).
  assert (Hf : tame f ∧ atomic f).
  { split; apply zset_update_ok; [intros v; left|intros v e|intros z e]; by repeat case_goal. }
  destruct (update_with_spec k f st Hw) as (Hw' & Hd & Hs & Hr).
  destruct (update_with k f st) as [st' r]. simpl in *. unfold upd in Hd.
  assert (Hfr : ∀ k', k' ≠ k → db st' !! k' = db st !! k').
  { intros k' Hne. rewrite Hd. destruct (db st !! k); [by apply lookup_insert_ne|done]. }
  destruct (db st !! k) as [v|] eqn:E; simpl in *; subst r.
  - apply (local_ok _ k); [done|done|set_solver|done| |]; simpl; rewrite Hd.
    + intros e He. destruct (f v).2 eqn:Ef; [done|]. rewrite (proj2 Hf v _ Ef). by apply insert_id.
    + eapply ttl_keys_tame; [done|apply Hf].
  - destruct (xx fl); [apply (local_ok _ k); [done|done|set_solver|done|done|simpl; by rewrite Hd]|].
    destruct (put_spec k (StoreValue_zset (insert_all members ZSetData_new)) st' Hw') as (Hw2 & Hd2 & Hs2).
    apply (local_ok _ k); [done|by eapply same_ttl_trans|set_solver| |done|]; simpl; rewrite Hd2, Hd.
    + intros k' Hne. by apply lookup_insert_ne.
    + by apply ttl_keys_persistent.
Qed.

Lemma zinterstore_eq c d ks ws a st :
  zinterstore c d ks ws a st =
  match (match zinter_all c ks ws a st with Ok z => Ok (default ZSetData_new z) | Err e => Err e end) with
  | Ok z => store_zset d z st
  | Err e => (st, Err e)
  end.
Proof. unfold zinterstore. by destruct (zinter_all c ks ws a st). Qed.

Lemma zdiffstore_eq c d ks st :
  zdiffstore c d ks st =
  match (match zdiff c ks st with
         | Ok items => Ok (foldl (λ z p, (zset_insert z p.2 p.1).1) ZSetData_new items)
         | Err e => Err e end) with
  | Ok z => store_zset d z st
  | Err e => (st, Err e)
  end.
Proof. unfold zdiffstore. by destruct (zdiff c ks st). Qed.

Lemma exec_ok c o st : store_wf st → cmd_ok (cmd_keys o) st (exec c o st).
Proof.
  intros Hw. destruct o; cbn [exec cmd_keys];
    auto using set_ok, get_ok, getdel_ok, getset_ok, getex_ok, setnx_ok, del_ok, persist_ok, rename_ok,
      renamenx_ok, hincrby_ok, store_members_ok, cleanup_ok, flush_ok.
  - apply update_or_insert_ok; [done|apply append_closure_ok|apply append_closure_ok|done].
  - by apply int_op_ok.
  - unfold decrby. destruct (checked_neg_i64 n) as [d|]; [by apply int_op_ok|by apply id_ok].
  - by apply expire_to_ok.
  - by apply expire_to_ok.
  - apply update_or_insert_ok; [done|tame_atomic|tame_atomic|done].
  - apply update_or_insert_ok; [done|tame_atomic|tame_atomic|done].
  - apply update_or_ok; [done|tame_atomic|tame_atomic].
  - apply update_or_ok; [done|tame_atomic|tame_atomic].
  - apply update_or_ok; [done|tame_atomic|tame_atomic].
  - apply update_or_ok; [done|tame_atomic|tame_atomic].
  - apply update_or_ok; [done|tame_atomic|tame_atomic].
  - apply update_or_ok; [done|tame_atomic|tame_atomic].
  - apply update_or_insert_ok; [done|tame_atomic|tame_atomic|done].
  - apply update_or_insert_ok; [done|tame_atomic|tame_atomic|done].
  - apply update_or_ok; [done|tame_atomic|tame_atomic].
  - unfold sadd. destruct (count_members _ _ _ _). apply update_or_insert_ok; [done|tame_atomic|tame_atomic|done].
  - apply update_or_ok; [done|tame_atomic|tame_atomic].
  - apply update_or_ok; [done|tame_atomic|tame_atomic].
  - by apply store_members_ok.
  - by apply store_members_ok.
  - by apply store_members_ok.
  - by apply zadd_ok.
  - apply update_or_ok; [done|tame_atomic|tame_atomic].
  - apply update_or_insert_ok; [done|tame_atomic|tame_atomic|done].
  - apply update_or_ok; [done|tame_atomic|tame_atomic].
  - apply update_or_ok; [done|tame_atomic|tame_atomic].
  - by apply store_zset_ok.
  - rewrite zinterstore_eq. by apply store_zset_ok.
  - rewrite zdiffstore_eq. by apply store_zset_ok.
Qed.

Lemma run_cmds_ok l st :
  store_wf st → ttl_keys (db st) <= ttl_count st →
  store_wf (run_cmds l st) ∧ ttl_keys (db (run_cmds l st)) <= ttl_count (run_cmds l st).
Proof.
  revert st. induction l as [|[c o] l IH]; intros st Hw Ht; [done|].
  destruct (exec_ok c o st Hw) as [Hw' _ _ Ht' _ _]. apply IH; [done|by apply Ht'].
Qed.
End Guarantees.
