(* ===== verification/StoreClaims.v ===== *)
(** The properties of the store, on the sharded map and for every run of
    commands from an empty store: the hasher, the iteration order of hash
    containers, the number of shards and the clock are arbitrary. *)

From S2P Require Import Prelude Decimal MapIface Shard CustomMap CustomMapSpec Collections Value.
From S2P Require Import Store StoreSpec ListOps HashOps SetOps Commands Glob Resp.
Local Open Scope Z_scope.

(** [Store::with_config] *)
Definition with_config (shards max_keys : Z) : Store (CustomMap StoreValue) :=
  mkStore (with_capacity shards max_keys) 0 0 0.

Section Claims.
Context (hash_one : bytes → Z) `{HashOrder}.
#[local] Instance claims_kv : KVMap StoreValue (CustomMap StoreValue) := custom_kv hash_one.
#[local] Instance claims_laws : KVMapLaws StoreValue (CustomMap StoreValue) := custom_kv_laws hash_one.
Implicit Types (k : bytes) (c : Clock).

(** The store reached by a run of commands. *)
Definition after (shards max_keys : Z) (l : list (Clock * Cmd)) : Store (CustomMap StoreValue) :=
  run_cmds l (with_config shards max_keys).

Lemma after_ok shards max_keys l :
  store_wf (after shards max_keys l) ∧
  ttl_keys (db (after shards max_keys l)) <= ttl_count (after shards max_keys l).
Proof.
  destruct (with_capacity_wf (V := StoreValue) hash_one shards max_keys) as [Hw Ha].
  apply run_cmds_ok; [exact Hw|]. unfold db. simpl. by rewrite Ha.
Qed.

Lemma after_wf shards max_keys l : store_wf (after shards max_keys l).
Proof. apply after_ok. Qed.

(** A command changes only the keys it names. *)
Theorem exec_frame shards max_keys l c o ks k :
  let st := after shards max_keys l in
  cmd_keys o = Some ks → k ∉ ks → db (exec c o st).1 !! k = db st !! k.
Proof.
  cbv zeta. intros Hks Hk. destruct (exec_ok c o _ (after_wf shards max_keys l)) as [_ Hf _ _ _ _].
  by eapply Hf.
Qed.

(** INCRBY.  A missing key counts from zero; a stored integer is replaced
    by the decimal of the sum, with its expiry kept, when the sum fits in 64
    bits; a value that is not a string or not an integer, and a sum that does
    not fit, are errors that change nothing. *)
Theorem incrby_correct shards max_keys l k n :
  let st := after shards max_keys l in
  let '(st', r) := incrby k n st in
  match db st !! k with
  | None => r = Ok n ∧ db st' = <[k := StoreValue_string (i64_to_string n)]> (db st)
  | Some v =>
      match as_string (value v) with
      | None => r = Err WRONGTYPE ∧ db st' = db st
      | Some s =>
          match parse_i64 s with
          | None => r = Err NOT_INT ∧ db st' = db st
          | Some i =>
              if in_i64 (i + n)
              then r = Ok (i + n) ∧
                db st' = <[k := mkValue (VString (i64_to_string (i + n))) (expires_ms v)]> (db st)
              else r = Err OVERFLOW ∧ db st' = db st
          end
      end
  end.
Proof.
  cbv zeta. destruct (int_op_spec k n _ (after_wf shards max_keys l)) as (_ & _ & Hd & Hr).
  unfold incrby. destruct (int_op k n _) as [st' r]. cbn [fst snd] in *. rewrite Hr, Hd. clear Hr Hd.
  destruct (db (after shards max_keys l) !! k) as [v|] eqn:E; [|done]. unfold int_update, checked_add_i64.
  repeat case_goal; simpl in *; split; try done; by apply insert_id.
Qed.

(** A sequence of increments. *)
Definition incr_all k (ns : list Z) (st : Store (CustomMap StoreValue)) : Store (CustomMap StoreValue) :=
  foldl (λ st n, (incrby k n st).1) st ns.

Definition zsum (ns : list Z) : Z := foldr Z.add 0 ns.

Lemma incr_all_spec k ns st i :
  store_wf st → db st !! k = Some (StoreValue_string (i64_to_string i)) → in_i64 i = true →
  (∀ j, in_i64 (i + zsum (take j ns)) = true) →
  store_wf (incr_all k ns st) ∧
  db (incr_all k ns st) !! k = Some (StoreValue_string (i64_to_string (i + zsum ns))).
Proof.
  revert st i. induction ns as [|n ns IH]; intros st i Hw Hk Hi Hj; simpl; [by rewrite Z.add_0_r|].
  destruct (int_op_spec k n st Hw) as (Hw' & _ & Hd & _). rewrite Hk in Hd.
  pose proof (Hj 1%nat) as H1. simpl in H1. rewrite Z.add_0_r in H1.
  replace (i + (n + zsum ns)) with (i + n + zsum ns) by lia. apply IH; [done| |done|].
  - unfold incrby. rewrite Hd, lookup_insert_eq. unfold int_update. simpl.
    rewrite parse_i64_to_string by done. unfold checked_add_i64. by rewrite H1.
  - intros j. pose proof (Hj (S j)) as Hs. simpl in Hs. by rewrite Z.add_assoc in Hs.
Qed.

(** A counter adds up.  A key set to an integer and incremented by any
    sequence of amounts reads back as the sum, as long as every partial sum
    fits in 64 bits. *)
Theorem counter_adds_up shards max_keys l c k i ns :
  in_i64 i = true → (∀ j, in_i64 (i + zsum (take j ns)) = true) →
  let st := set_string k (i64_to_string i) 0 (after shards max_keys l) in
  (store_get c k (incr_all k ns st)).2 = Some (i64_to_string (i + zsum ns)).
Proof.
  intros Hi Hj st. destruct (set_string_spec k (i64_to_string i) 0 _ (after_wf shards max_keys l)) as (Hw & Hd & _).
  destruct (incr_all_spec k ns st i) as [Hw' Hk]; [done| |done|done|].
  - unfold st. rewrite Hd. apply lookup_insert_eq.
  - destruct (store_get_spec c k _ Hw') as (_ & _ & -> & _). unfold live. by rewrite Hk.
Qed.

(** SET then GET.  A value set without an expiry, or with one in the
    future, reads back unchanged; one whose expiry has passed reads as missing
    and is removed by the read. *)
Theorem set_get shards max_keys l c k (v : bytes) exp :
  let st := set_string k v exp (after shards max_keys l) in
  let '(st', r) := store_get c k st in
  if negb (exp =? 0) && (exp <=? approx_now_ms c)
  then r = None ∧ db st' = delete k (db (after shards max_keys l))
  else r = Some v ∧ db st' = <[k := mkValue (VString v) exp]> (db (after shards max_keys l)).
Proof.
  cbv zeta. destruct (set_string_spec k v exp _ (after_wf shards max_keys l)) as (Hw & Hd & _).
  destruct (store_get_spec c k _ Hw) as (_ & _ & Hr & Hd'). destruct (store_get c k _) as [st' r].
  cbn [fst snd] in *. unfold live in Hr. rewrite Hd, lookup_insert_eq in Hr, Hd'. simpl in Hr.
  change (is_expired c (mkValue (VString v) exp)) with (negb (exp =? 0) && (exp <=? approx_now_ms c)) in *.
  destruct (negb (exp =? 0) && _); subst r; [|done]. by rewrite Hd', delete_insert_eq.
Qed.

(** The expiry sweep removes exactly the keys whose time has come, keeps
    the others unchanged, and leaves the TTL counter exact. *)
Theorem cleanup_exact shards max_keys l c :
  let st := after shards max_keys l in
  let st' := cleanup_expired c st in
  (∀ k v, db st' !! k = Some v ↔ db st !! k = Some v ∧ (expires_ms v = 0 ∨ now_ms c < expires_ms v)) ∧
  ttl_count st' = ttl_keys (db st').
Proof.
  cbv zeta. destruct (cleanup_expired_spec c _ (after_wf shards max_keys l)) as (_ & Hd & Ht).
  split; [|done]. intros k v. rewrite Hd, map_lookup_filter_Some. simpl.
  unfold keeps. by rewrite orb_true_iff, Z.eqb_eq, Z.ltb_lt.
Qed.

(** RENAME moves.  For two different keys it succeeds exactly when the
    source is live; the destination then holds the source's value with its
    expiry, the source is gone, and nothing else changes.  RENAMENX does so only
    when the destination is free, and otherwise changes nothing. *)
Theorem rename_moves shards max_keys l c a b v :
  let st := after shards max_keys l in
  a ≠ b → db st !! a = Some v → is_expired c v = false →
  (rename c a b st).2 = true ∧ db (rename c a b st).1 = <[b := v]> (delete a (db st)) ∧
  (renamenx c a b st).2 = bool_decide (db st !! b = None) ∧
  db (renamenx c a b st).1 =
    if bool_decide (db st !! b = None) then <[b := v]> (delete a (db st)) else db st.
Proof.
  cbv zeta. intros Hne Ha Hx.
  destruct (rename_spec c a b _ (after_wf shards max_keys l) Hne) as (_ & _ & -> & ->).
  destruct (renamenx_spec c a b _ (after_wf shards max_keys l) Hne) as (_ & _ & -> & ->).
  unfold live. rewrite Ha. simpl. rewrite Hx. split; [done|]. split; [done|]. split; [|done].
  apply bool_decide_ext. split; [by intros [_ ?]|by split].
Qed.

(** KEYS lists exactly the live keys that match the pattern, once each. *)
Theorem keys_exact shards max_keys l c pattern :
  let st := after shards max_keys l in
  NoDup (keys_matching c pattern st) ∧
  ∀ k, k ∈ keys_matching c pattern st ↔ is_Some (live c k st) ∧ glob_match pattern k = true.
Proof.
  cbv zeta. pose proof (keys_matching_spec c pattern _ (after_wf shards max_keys l)) as Hp. split.
  - rewrite Hp. apply NoDup_fst_map_to_list.
  - intros k. rewrite Hp, list_elem_of_fmap. unfold live. split.
    + intros ((k' & v) & -> & Hk%elem_of_map_to_list). apply map_lookup_filter_Some in Hk as [Hk Hm].
      simpl in *. rewrite Hk. simpl. apply andb_true_iff in Hm as [Hx Hg]. apply negb_true_iff in Hx.
      by rewrite Hx.
    + intros [[x Hx] Hg]. destruct (db (after shards max_keys l) !! k) as [v|] eqn:E; simpl in Hx; [|done].
      destruct (is_expired c v) eqn:Ex; [done|]. exists (k, v). split; [done|].
      apply elem_of_map_to_list, map_lookup_filter_Some. split; [done|]. simpl. by rewrite Ex, Hg.
Qed.

(** LMOVE to a key that is not a list loses an element.  The source is
    popped before the destination is looked at, so the command replies with an
    error and the popped element is in no list any more. *)
Theorem lmove_wrongtype_loses shards max_keys l c src dst left_src left_dst sv dv vs :
  let st := after shards max_keys l in
  src ≠ dst →
  db st !! src = Some sv → is_expired c sv = false → as_list (value sv) = Some vs → vs ≠ [] →
  db st !! dst = Some dv → is_expired c dv = false → as_list (value dv) = None →
  (lmove c src dst left_src left_dst st).2 = Err WRONGTYPE ∧
  db (lmove c src dst left_src left_dst st).1 =
    <[src := mkValue (put_list (value sv) (list_pop left_src vs).1) (expires_ms sv)]> (db st).
Proof.
  cbv zeta. intros Hne Hs Hsx Hsl Hvs Hd Hdx Hdl. unfold lmove.
  set (f := list_update c _ _). pose proof (update_with_spec src f _ (after_wf shards max_keys l)) as Hu.
  destruct (update_with src f _) as [st' r]. cbn [fst snd] in Hu. destruct Hu as (Hw' & Hd1 & _ & ->).
  rewrite Hs. simpl. unfold upd in Hd1. rewrite Hs in Hd1.
  unfold f, list_update in *. rewrite Hsx, Hsl in *.
  destruct (list_pop left_src vs) as [vs' [x|]] eqn:Ep; cbn [fst snd] in *.
  2:{ exfalso. unfold list_pop, vec_pop in Ep. destruct left_src; injection Ep as _ Ep.
      - destruct vs; done.
      - apply last_None in Ep. done. }
  rewrite bool_decide_eq_false_2 by done. set (fd := λ v, _).
  pose proof (update_or_insert_spec dst fd (mkValue (VList (LCompact [x])) 0) (Ok ()) st' Hw') as (_ & Hd2 & _ & Hr2).
  destruct (update_or_insert dst fd _ _ st') as [st'' r]. cbn [fst snd] in *.
  pose proof (f_equal (λ g, g !! dst) Hd1) as Hd'. cbn beta in Hd'. rewrite lookup_insert_ne, Hd in Hd' by done.
  rewrite Hd' in Hd2, Hr2. unfold fd in Hd2, Hr2. rewrite Hdx, Hdl in Hd2, Hr2.
  cbn [fst snd] in Hd2, Hr2. subst r. split; [done|]. rewrite insert_id in Hd2 by done. exact (eq_trans Hd2 Hd1).
Qed.

(** Between the cached clock and the real one, an expired key is reported
    as one that never expires: TTL answers [-1] where EXISTS answers no. *)
Theorem ttl_stale_clock shards max_keys l c k v :
  let st := after shards max_keys l in
  db st !! k = Some v → 0 < cached_ms c → cached_ms c < expires_ms v <= now_ms c →
  ttl_value_ms c k st = -1 ∧ exists_key c k st = false ∧ type_of c k st = B "none".
Proof.
  cbv zeta. intros Hk Hc He. unfold ttl_value_ms, exists_key, type_of.
  rewrite kv_get_ref_spec by apply after_wf.
  change (kv_abs (data (after shards max_keys l)) !! k) with (db (after shards max_keys l) !! k).
  rewrite Hk. unfold is_expired, is_expired_precise, ttl_ms, approx_now_ms.
  rewrite (proj2 (Z.eqb_neq (cached_ms c) 0)) by lia. rewrite (proj2 (Z.eqb_neq (expires_ms v) 0)) by lia.
  rewrite (proj2 (Z.leb_gt (expires_ms v) (cached_ms c))) by lia.
  by rewrite (proj2 (Z.leb_le (expires_ms v) (now_ms c))) by lia.
Qed.
End Claims.

(** ** Runs on concrete stores *)

#[local] Instance demo_kv : KVMap StoreValue (CustomMap StoreValue) := claims_kv toy_hash.
#[local] Instance demo_order : HashOrder := canonical_order.

Definition demo_clock : Clock := mkClock 1000 900.

Definition demo_store (l : list Cmd) : Store (CustomMap StoreValue) :=
  after toy_hash 2 16 ((λ o, (demo_clock, o)) <$> l).

(** COPY duplicates the expiry of its source without counting it.  After
    SET with an expiry, COPY and PERSIST of the source, the counter says that no
    key expires while the copy still does. *)
Theorem copy_undercounts :
  let st := demo_store [CSet (B "a") (B "v") 5000] in
  let st := (copy demo_clock (B "a") (B "b") false st).1 in
  let st := (persist demo_clock (B "a") st).1 in
  has_ttl_keys st = false ∧ expires_ms <$> kv_get_ref (data st) (B "b") = Some 5000.
Proof. vm_compute. done. Qed.

(** SETRANGE that would break UTF-8 replies with an error after storing the
    broken string. *)
Theorem setrange_stores_invalid :
  let st := demo_store [CSet (B "k") [z2b 0xC3; z2b 0xA9] 0] in
  let '(st', r) := setrange (B "k") 1 (B "x") st in
  r = Err UTF8_ERR ∧
  value <$> kv_get_ref (data st') (B "k") = Some (VString [z2b 0xC3; z2b 0x78]) ∧
  utf8_valid [z2b 0xC3; z2b 0xA9] = true ∧ utf8_valid [z2b 0xC3; z2b 0x78] = false.
Proof. vm_compute. done. Qed.

(** ** Witnesses *)

Definition demo_run : list (Clock * Cmd) :=
  (λ o, (demo_clock, o)) <$> [CRPush (B "src") [B "x"; B "y"]; CSet (B "dst") (B "v") 0; CSet (B "e") (B "w") 950].

Lemma exec_frame_witness :
  cmd_keys (CDel (B "dst")) = Some [B "dst"] ∧ (B "src" ∉ [B "dst"]) ∧
  db (H0 := claims_laws toy_hash)
    (exec (H := claims_kv toy_hash) demo_clock (CDel (B "dst")) (after toy_hash 2 16 demo_run)).1 !! B "src" =
  db (H0 := claims_laws toy_hash) (after toy_hash 2 16 demo_run) !! B "src".
Proof.
  assert (Hk : B "src" ∉ [B "dst"]) by (apply (bool_decide_unpack _); vm_compute; exact I).
  split; [reflexivity|]. split; [exact Hk|].
  exact (exec_frame toy_hash 2 16 demo_run demo_clock (CDel (B "dst")) [B "dst"] (B "src") eq_refl Hk).
Defined.

Lemma counter_sums_fit j : in_i64 (40 + zsum (take j [1; 5; -4])) = true.
Proof. destruct j as [|[|[|[|j]]]]; reflexivity. Qed.

Lemma counter_adds_up_witness :
  in_i64 40 = true ∧
  (store_get demo_clock (B "n") (incr_all toy_hash (B "n") [1; 5; -4]
    (set_string (B "n") (i64_to_string 40) 0 (after toy_hash 2 16 demo_run)))).2 = Some (B "42").
Proof.
  split; [reflexivity|].
  exact (counter_adds_up toy_hash 2 16 demo_run demo_clock (B "n") 40 [1; 5; -4] eq_refl counter_sums_fit).
Defined.

Lemma rename_moves_witness :
  B "dst" ≠ B "new" ∧ (rename demo_clock (B "dst") (B "new") (after toy_hash 2 16 demo_run)).2 = true.
Proof.
  assert (Hne : B "dst" ≠ B "new") by done. split; [exact Hne|].
  refine (proj1 (rename_moves toy_hash 2 16 demo_run demo_clock (B "dst") (B "new")
    (mkValue (VString (B "v")) 0) Hne _ _)); vm_compute; reflexivity.
Defined.

Lemma lmove_wrongtype_loses_witness :
  B "src" ≠ B "dst" ∧
  (lmove demo_clock (B "src") (B "dst") true true (after toy_hash 2 16 demo_run)).2 = Err WRONGTYPE.
Proof.
  assert (Hne : B "src" ≠ B "dst") by done. split; [exact Hne|].
  refine (proj1 (lmove_wrongtype_loses toy_hash 2 16 demo_run demo_clock (B "src") (B "dst") true true
    (mkValue (VList (LFull [B "x"; B "y"])) 0) (mkValue (VString (B "v")) 0) [B "x"; B "y"]
    Hne _ _ _ _ _ _ _)); try (vm_compute; reflexivity). discriminate.
Defined.

Lemma ttl_stale_clock_witness :
  0 < cached_ms demo_clock ∧
  ttl_value_ms demo_clock (B "e") (after toy_hash 2 16 demo_run) = -1.
Proof.
  split; [reflexivity|].
  refine (proj1 (ttl_stale_clock toy_hash 2 16 demo_run demo_clock (B "e")
    (mkValue (VString (B "w")) 950) _ _ _)); [vm_compute; reflexivity|reflexivity|].
  split; [reflexivity|discriminate].
Defined.
