(* ===== verification/Scan.v ===== *)
(** Cursors over the slots of the map: [scan] of storage/scan.rs, [randomkey] of
    storage/keys.rs, and the incremental expiry sweep, [cleanup_expired_shard] of
    storage/server.rs over [retain_shard_range] of ops.rs.

    A cursor packs a shard number and a slot number; these operations look at
    the shards directly, so they are stated on [CustomMap]. *)

From S2P Require Import Prelude MapIface Shard ShardSpec CustomMap CustomMapSpec Glob Value Store StoreSpec.
From S2P Require Import Collections Commands StoreClaims.
Local Open Scope Z_scope.

(** [self.shards[shard].table().capacity()] for a shard in range. *)
Definition shard_len {V} (m : CustomMap V) (shard : nat) : nat :=
  default 0%nat (Z.to_nat <$> shard_slot_count m shard).

(** ** SCAN *)

Section Scan.
Context (c : Clock) (pattern : option bytes) (count : nat).
Implicit Types m : CustomMap StoreValue.

Definition selects (key : bytes) (v : StoreValue) : bool :=
  negb (is_expired c v) && match pattern with Some p => glob_match p key | None => true end.

(** What one slot adds to the reply. *)
Definition scan_hit m (shard slot : nat) : list bytes :=
  match peek_slot m shard slot with
  | Some (key, v) => if selects key v then [key] else []
  | None => []
  end.

(** The inner loop: the keys so far and, when there are enough, the next slot. *)
Fixpoint scan_slots m (shard : nat) (slots : list nat) (keys : list bytes) : list bytes * option nat :=
  match slots with
  | [] => (keys, None)
  | slot :: slots' =>
      let keys := keys ++ scan_hit m shard slot in
      if (count <=? length keys)%nat then (keys, Some (S slot)) else scan_slots m shard slots' keys
  end.

(** [(shard_idx << 20) | (slot_idx & 0xF_FFFF)] *)
Definition scan_cursor (shard slot : nat) : Z :=
  Z.lor (wrap64 (Z.shiftl (Z.of_nat shard) 20)) (Z.land (Z.of_nat slot) 0xFFFFF).

(** The outer loop, from slot [start] of its first shard. *)
Fixpoint scan_shards m (shards : list nat) (start : nat) (keys : list bytes) : Z * list bytes :=
  match shards with
  | [] => (0, keys)
  | shard :: shards' =>
      let len := shard_len m shard in
      match scan_slots m shard (List.seq start (len - start)) keys with
      | (keys, None) => scan_shards m shards' 0 keys
      | (keys, Some slot) =>
          let '(shard, slot) := if (len <=? slot)%nat then (S shard, 0%nat) else (shard, slot) in
          if (shard_count m <=? shard)%nat then (0, keys) else (scan_cursor shard slot, keys)
      end
  end.

(** [None]: [Vec::with_capacity(count)] panics when [24 * count] bytes exceed [isize::MAX]. *)
Definition scan (cursor : Z) (st : Store (CustomMap StoreValue)) : option (Z * list bytes) :=
  let m := data st in
  if i64_max <? 24 * Z.of_nat count then None
  else if (shard_count m =? 0)%nat then Some (0, [])
  else
    let '(shard, slot) :=
      if cursor =? 0 then (0%nat, 0%nat)
      else (Z.to_nat (Z.land (Z.shiftr cursor 20) 0xFFF), Z.to_nat (Z.land cursor 0xFFFFF)) in
    Some (scan_shards m (List.seq shard (shard_count m - shard)) slot []).

(** A client that follows the cursor until it is 0 again. *)
Fixpoint scan_all (fuel : nat) (cursor : Z) (st : Store (CustomMap StoreValue)) : option (list bytes) :=
  match fuel with
  | O => None
  | S fuel' =>
      match scan cursor st with
      | None => None
      | Some (next, keys) =>
          if next =? 0 then Some keys else (λ rest, keys ++ rest) <$> scan_all fuel' next st
      end
  end.
End Scan.

(** ** RANDOMKEY *)

(** [seed ^= seed << 13; seed ^= seed >> 7; seed ^= seed << 17] *)
Definition xorshift (seed : Z) : Z :=
  let seed := Z.lxor seed (wrap64 (Z.shiftl seed 13)) in
  let seed := Z.lxor seed (Z.shiftr seed 7) in
  Z.lxor seed (wrap64 (Z.shiftl seed 17)).

(** The first live key of a list of slots. *)
Fixpoint first_live (c : Clock) (m : CustomMap StoreValue) (slots : list (nat * nat)) : option bytes :=
  match slots with
  | [] => None
  | (shard, slot) :: slots' =>
      match peek_slot m shard slot with
      | Some (key, v) => if is_expired c v then first_live c m slots' else Some key
      | None => first_live c m slots'
      end
  end.

(** [n] numbers from [start], modulo [n]. *)
Definition rotated (start n : nat) : list nat := (λ i, (start + i) mod n)%nat <$> List.seq 0 n.

(** [stack_entropy] is the address of a local variable. *)
Definition randomkey (c : Clock) (stack_entropy : Z) (st : Store (CustomMap StoreValue)) : option bytes :=
  let m := data st in
  if (shard_count m =? 0)%nat || is_empty m then None
  else
    let seed := xorshift (Z.lxor (Z.lxor (now_ms c) 0x517cc1b727220a95) stack_entropy) in
    let shard_start := Z.to_nat (seed mod Z.of_nat (shard_count m)) in
    let slot_seed := xorshift seed in
    first_live c m
      (shard ← rotated shard_start (shard_count m);
       pair shard <$> rotated (Z.to_nat (slot_seed mod Z.of_nat (shard_len m shard))) (shard_len m shard)).

(** ** The incremental sweep *)

(** [retain_shard_range]: the slots [start..end] of one shard; the result is
    [end] and the capacity. *)
Definition retain_shard_range {V A} (f : bytes → V → A → A * bool) (shard start_slot max_slots : nat)
    (m : CustomMap V) (a : A) : CustomMap V * A * option (nat * nat) :=
  match shards m !! shard with
  | None => (m, a, None)
  | Some s =>
      let t := table s in
      let capacity := Z.to_nat (capacity t) in
      let start := Nat.min start_slot capacity in
      let stop := Nat.min (Z.to_nat (saturating_add (Z.of_nat start) (Z.of_nat max_slots))) capacity in
      let '(a', n, swept) := retain_slots f a (take (stop - start) (drop start (slots t))) in
      let slots' := take start (slots t) ++ swept ++ drop stop (slots t) in
      let s' := mkShard (mkTable slots' (Shard.capacity t) (mask t) (threshold t)) (s_len s) in
      (set_key_count (set_shard m shard s') (key_count m - n), a', Some (stop, capacity))
  end.

(** [cleanup_expired_shard], after the clock was ticked: live TTLs, next slot,
    capacity and removed entries. *)
Definition cleanup_expired_shard (c : Clock) (shard start_slot max_slots : nat) (st : Store (CustomMap StoreValue))
    : Store (CustomMap StoreValue) * (nat * nat * nat * nat) :=
  if negb (has_ttl_keys st) then (st, (0, start_slot, 0, 0)%nat)
  else
    let '(m, (live_ttls, removed), r) :=
      retain_shard_range (λ _ entry (acc : nat * nat),
        let '(live_ttls, removed) := acc in
        if negb (expires_ms entry =? 0) && (expires_ms entry <=? now_ms c) then ((live_ttls, S removed), false)
        else ((if negb (expires_ms entry =? 0) then S live_ttls else live_ttls, removed), true))
        shard start_slot max_slots (data st) (0, 0)%nat in
    let '(next_slot, capacity) := default (start_slot, 0%nat) r in
    (Nat.iter removed sub_ttl (with_data st m), (live_ttls, next_slot, capacity, removed)).

(** ** A full SCAN *)

Section ScanSpec.
Context (c : Clock) (pattern : option bytes) (count : nat).
Implicit Types m : CustomMap StoreValue.

Abbreviation hit := (scan_hit c pattern).

Definition hits m (shard : nat) (slots : list nat) : list bytes := slots ≫= hit m shard.

(** The hits from a position on, and the slots that are left. *)
Definition rest_hits m (shard start : nat) : list bytes :=
  hits m shard (List.seq start (shard_len m shard - start)) ++
  (List.seq (S shard) (shard_count m - S shard) ≫= λ s, hits m s (List.seq 0 (shard_len m s))).

Definition slots_left m (shard start : nat) : nat :=
  (shard_len m shard - start) + sum_list (shard_len m <$> List.seq (S shard) (shard_count m - S shard)).

Lemma hits_app m shard l1 l2 : hits m shard (l1 ++ l2) = hits m shard l1 ++ hits m shard l2.
Proof. apply bind_app. Qed.

Lemma scan_slots_spec m shard a n keys :
  match scan_slots c pattern count m shard (List.seq a n) keys with
  | (keys', None) => keys' = keys ++ hits m shard (List.seq a n)
  | (keys', Some j) => ∃ k, (k < n)%nat ∧ j = (a + S k)%nat ∧ keys' = keys ++ hits m shard (List.seq a (S k))
  end.
Proof.
  revert a keys. induction n as [|n IH]; intros a keys; simpl; [by rewrite app_nil_r|].
  destruct (count <=? _)%nat; [exists 0%nat; simpl; rewrite app_nil_r; split; [lia|]; split; [lia|done]|].
  specialize (IH (S a) (keys ++ hit m shard a)). destruct (scan_slots _ _ _ _ _ _ _) as [keys' [j|]].
  - destruct IH as (k & Hk & -> & ->). exists (S k). split; [lia|]. split; [lia|]. by rewrite <- app_assoc.
  - rewrite IH. by rewrite <- app_assoc.
Qed.

Lemma seq_split a n k : (k <= n)%nat → List.seq a n = List.seq a k ++ List.seq (a + k) (n - k).
Proof. intros Hk. rewrite <- seq_app. f_equal. lia. Qed.

(** Past the end of a shard the position moves to the next one. *)
Lemma rest_hits_next m shard start :
  (S shard < shard_count m)%nat → (shard_len m shard <= start)%nat →
  rest_hits m shard start = rest_hits m (S shard) 0 ∧ slots_left m shard start = slots_left m (S shard) 0.
Proof.
  intros Hs Hl. unfold rest_hits, slots_left. replace (shard_len m shard - start)%nat with 0%nat by lia.
  replace (shard_count m - S shard)%nat with (S (shard_count m - S (S shard))) by lia. simpl.
  by rewrite Nat.sub_0_r.
Qed.

Lemma rest_hits_last m shard start :
  (shard_count m <= S shard)%nat → (shard_len m shard <= start)%nat → rest_hits m shard start = [].
Proof.
  intros Hs Hl. unfold rest_hits. replace (shard_len m shard - start)%nat with 0%nat by lia.
  by replace (shard_count m - S shard)%nat with 0%nat by lia.
Qed.

(** A position the reply of one call points to: the end, or a later one. *)
Definition scan_result m (next : Z) (keys before all : list bytes) (left : nat) : Prop :=
  (next = 0 ∧ keys = before ++ all) ∨
  ∃ shard slot, next = scan_cursor shard slot ∧ (shard < shard_count m)%nat ∧ (slot <= shard_len m shard)%nat ∧
    Z.of_nat slot < 2 ^ 20 ∧ (0 < shard + slot)%nat ∧
    before ++ all = keys ++ rest_hits m shard slot ∧ (slots_left m shard slot < left)%nat.

Lemma scan_shards_spec m n shard start keys :
  (∀ s, Z.of_nat (shard_len m s) <= 2 ^ 20) → (shard + n = shard_count m)%nat → (0 < n)%nat →
  let '(next, keys') := scan_shards c pattern count m (List.seq shard n) start keys in
  scan_result m next keys' keys (rest_hits m shard start) (slots_left m shard start).
Proof.
  intros Hcap. revert shard start keys. induction n as [|n IH]; intros shard start keys Hn Hpos; [lia|]. simpl.
  pose proof (scan_slots_spec m shard start (shard_len m shard - start) keys) as Hs.
  destruct (scan_slots _ _ _ _ _ _ _) as [keys' [j|]].
  - destruct Hs as (k & Hk & -> & ->).
    assert (Hsplit : keys ++ rest_hits m shard start =
      (keys ++ hits m shard (List.seq start (S k))) ++ rest_hits m shard (start + S k)).
    { unfold rest_hits. rewrite (seq_split start _ (S k)) by lia. rewrite hits_app, <- !app_assoc.
      by replace (shard_len m shard - start - S k)%nat with (shard_len m shard - (start + S k))%nat by lia. }
    assert (Hleft : (slots_left m shard (start + S k) < slots_left m shard start)%nat) by (unfold slots_left; lia).
    destruct (shard_len m shard <=? start + S k)%nat eqn:E; split_bool.
    + destruct (shard_count m <=? S shard)%nat eqn:E2; split_bool.
      * left. split; [done|]. rewrite Hsplit, rest_hits_last by lia. by rewrite app_nil_r.
      * right. destruct (rest_hits_next m shard (start + S k)) as [Hr Hl]; [lia|lia|].
        exists (S shard), 0%nat. rewrite Hsplit, Hr. rewrite Hl in Hleft. repeat (split; [done || lia|]). done.
    + rewrite (proj2 (Nat.leb_gt _ _)) by lia. right. exists shard, (start + S k)%nat. pose proof (Hcap shard).
      repeat (split; [done || lia|]). done.
  - subst keys'. assert (Hr : rest_hits m shard start = hits m shard (List.seq start (shard_len m shard - start)) ++
      (if (n =? 0)%nat then [] else rest_hits m (S shard) 0)).
    { unfold rest_hits at 1. f_equal. replace (shard_count m - S shard)%nat with n by lia.
      destruct n as [|n]; [done|]. simpl. unfold rest_hits.
      by replace (shard_count m - S (S shard))%nat with n by lia; rewrite Nat.sub_0_r. }
    destruct n as [|n].
    + left. split; [done|]. by rewrite Hr, app_nil_r.
    + specialize (IH (S shard) 0%nat (keys ++ hits m shard (List.seq start (shard_len m shard - start)))
        ltac:(lia) ltac:(lia)). destruct (scan_shards _ _ _ _ _ _ _) as [next keys'].
      assert (Hle : (slots_left m (S shard) 0 <= slots_left m shard start)%nat).
      { unfold slots_left. replace (shard_count m - S shard)%nat with (S (shard_count m - S (S shard))) by lia.
        change (sum_list (shard_len m <$> List.seq (S shard) (S (shard_count m - S (S shard)))))
          with (shard_len m (S shard) + sum_list (shard_len m <$> List.seq (S (S shard)) (shard_count m - S (S shard))))%nat.
        lia. }
      simpl in Hr. unfold scan_result in *. rewrite Hr, app_assoc. destruct IH as [[-> ->]|(s & i & Hi)]; [by left|].
      right. exists s, i. destruct Hi as (-> & ? & ? & ? & ? & -> & ?). repeat (split; [done|]). lia.
Qed.

(** A cursor decodes to the position it was made from. *)
Lemma scan_cursor_decode shard slot :
  Z.of_nat shard < 2 ^ 12 → Z.of_nat slot < 2 ^ 20 → (0 < shard + slot)%nat →
  scan_cursor shard slot ≠ 0 ∧
  Z.to_nat (Z.land (Z.shiftr (scan_cursor shard slot) 20) 0xFFF) = shard ∧
  Z.to_nat (Z.land (scan_cursor shard slot) 0xFFFFF) = slot.
Proof.
  intros Hs Hl Hpos. unfold scan_cursor.
  change 0xFFFFF with (Z.ones 20). change 0xFFF with (Z.ones 12). rewrite (Z.land_ones (Z.of_nat slot)) by lia.
  rewrite (Z.mod_small (Z.of_nat slot)), Z.shiftl_mul_pow2 by lia.
  unfold wrap64. rewrite (Z.mod_small (Z.of_nat shard * _)) by (unfold u64_mod; lia).
  replace (Z.lor (Z.of_nat shard * 2 ^ 20) (Z.of_nat slot)) with (Z.of_nat shard * 2 ^ 20 + Z.of_nat slot).
  - rewrite Z.shiftr_div_pow2, Z.div_add_l, (Z.div_small (Z.of_nat slot)), Z.add_0_r by lia.
    rewrite !Z.land_ones, (Z.mod_small (Z.of_nat shard)) by lia.
    rewrite Z.add_comm, Z.mod_add, (Z.mod_small (Z.of_nat slot)) by lia. lia.
  - rewrite <- Z.shiftl_mul_pow2 by lia. apply Z.add_nocarry_lor. apply Z.bits_inj'. intros n Hn.
    rewrite Z.land_spec, Z.bits_0, Z.shiftl_spec by done. destruct (Z.lt_ge_cases n 20).
    + by rewrite (Z.testbit_neg_r (Z.of_nat shard)) by lia.
    + rewrite (Z.bits_above_log2 (Z.of_nat slot)); [apply andb_false_r|lia|].
      destruct (decide (Z.of_nat slot = 0)) as [->|]; [simpl; lia|].
      apply Z.log2_lt_pow2; [lia|]. apply (Z.lt_le_trans _ (2 ^ 20)); [done|]. apply Z.pow_le_mono_r; lia.
Qed.

Lemma scan_all_spec fuel st shard slot :
  let m := data st in
  (∀ s, Z.of_nat (shard_len m s) <= 2 ^ 20) → Z.of_nat (shard_count m) <= 2 ^ 12 →
  24 * Z.of_nat count <= i64_max → (shard < shard_count m)%nat → Z.of_nat slot < 2 ^ 20 →
  (slots_left m shard slot < fuel)%nat →
  let cursor := if (shard + slot =? 0)%nat then 0 else scan_cursor shard slot in
  scan_all c pattern count fuel cursor st = Some (rest_hits m shard slot).
Proof.
  intros m Hcap Hsh Hcount. revert shard slot. induction fuel as [|fuel IH]; intros shard slot Hs Hl Hf cursor; [lia|].
  assert (Hscan : scan c pattern count cursor st =
    Some (scan_shards c pattern count m (List.seq shard (shard_count m - shard)) slot [])).
  { unfold scan. fold m. rewrite (proj2 (Z.ltb_ge _ _)) by lia. rewrite (proj2 (Nat.eqb_neq _ _)) by lia.
    unfold cursor. destruct (shard + slot =? 0)%nat eqn:E; split_bool.
    - assert (shard = 0%nat ∧ slot = 0%nat) as [-> ->] by lia. done.
    - destruct (scan_cursor_decode shard slot) as (Hne & E1 & E2); [lia..|].
      rewrite (proj2 (Z.eqb_neq _ _) Hne). cbv zeta. by rewrite E1, E2. }
  pose proof (scan_shards_spec m (shard_count m - shard) shard slot [] Hcap ltac:(lia) ltac:(lia)) as Hr.
  cbn [scan_all]. rewrite Hscan. destruct (scan_shards _ _ _ _ _ _ _) as [next keys].
  destruct Hr as [[-> ->]|(s & i & -> & Hs' & Hi & Hi2 & Hp & Hall & Hleft)]; [done|].
  destruct (scan_cursor_decode s i) as (Hne & _); [lia..|]. rewrite (proj2 (Z.eqb_neq _ _) Hne).
  specialize (IH s i Hs' Hi2 ltac:(lia)). cbv zeta in IH. rewrite (proj2 (Nat.eqb_neq _ _)) in IH by lia.
  rewrite IH. simpl. by rewrite <- Hall.
Qed.
End ScanSpec.

Lemma bind_seq_lookup {A} (g : option A → list bytes) (l : list A) :
  (List.seq 0 (length l) ≫= λ i, g (l !! i)) = l ≫= λ x, g (Some x).
Proof.
  assert (Hgen : ∀ pre, (List.seq (length pre) (length l) ≫= λ i, g ((pre ++ l) !! i)) = l ≫= λ x, g (Some x)).
  { induction l as [|x l IH]; intros pre; simpl; [done|]. rewrite lookup_app_r, Nat.sub_diag by done. simpl.
    f_equal. specialize (IH (pre ++ [x])). rewrite length_app, Nat.add_1_r, <- app_assoc in IH. exact IH. }
  exact (Hgen []).
Qed.

Section ScanClaims.
Context (hash_one : bytes → Z) `{HashOrder} (c : Clock) (pattern : option bytes).
#[local] Instance scan_kv : KVMap StoreValue (CustomMap StoreValue) := claims_kv hash_one.
#[local] Instance scan_laws : KVMapLaws StoreValue (CustomMap StoreValue) := claims_laws hash_one.
Implicit Types m : CustomMap StoreValue.

Definition selected (p : bytes * StoreValue) : Prop := selects c pattern p.1 p.2 = true.

Definition slot_keys (o : option (Entry StoreValue)) : list bytes :=
  match live_pair o with Some (k, v) => if selects c pattern k v then [k] else [] | None => [] end.

Lemma selected_pairs (l : list (option (Entry StoreValue))) : l ≫= slot_keys = (filter selected (live_pairs l)).*1.
Proof.
  induction l as [|o l IH]; [done|]. change ((o :: l) ≫= slot_keys) with (slot_keys o ++ (l ≫= slot_keys)).
  rewrite IH. unfold slot_keys, live_pairs. simpl. destruct (live_pair o) as [[k v]|]; [|done].
  rewrite filter_cons. destruct (decide (selected (k, v))) as [E|E]; unfold selected in E; simpl in E.
  - by rewrite E.
  - by rewrite (not_true_is_false _ E).
Qed.

Lemma bind_ext {A} (f g : A → list bytes) l : (∀ x, x ∈ l → f x = g x) → l ≫= f = l ≫= g.
Proof.
  induction l as [|x l IH]; intros E; [done|]. change (f x ++ (l ≫= f) = g x ++ (l ≫= g)).
  rewrite (E x), IH by set_solver. done.
Qed.

Lemma hits_shard m shard s :
  shards m !! shard = Some s → Z.of_nat (length (slots (table s))) = capacity (table s) →
  hits c pattern m shard (List.seq 0 (shard_len m shard)) = (filter selected (live_pairs (slots (table s)))).*1.
Proof.
  intros Hs Hlen. unfold hits, shard_len, shard_slot_count. rewrite Hs. simpl. rewrite <- Hlen, Nat2Z.id.
  rewrite <- selected_pairs.
  rewrite <- (bind_seq_lookup (λ o, match o with Some o => slot_keys o | None => [] end)).
  apply bind_ext. intros i _. unfold scan_hit, peek_slot, slot_keys. rewrite Hs. simpl.
  by destruct (slots (table s) !! i).
Qed.

Lemma rest_hits_all m :
  struct_wf hash_one m → (0 < shard_count m)%nat → rest_hits c pattern m 0 0 = (filter selected (all_pairs m)).*1.
Proof.
  intros [_ Hw _] Hpos. unfold rest_hits, all_pairs. rewrite Nat.sub_0_r.
  transitivity (List.seq 0 (shard_count m) ≫= λ s, hits c pattern m s (List.seq 0 (shard_len m s))).
  { by destruct (shard_count m); [lia|rewrite Nat.sub_succ, Nat.sub_0_r]. }
  transitivity (shards m ≫= λ s, (filter selected (live_pairs (slots (table s)))).*1).
  - rewrite <- (bind_seq_lookup (λ o, match o with
      | Some s => (filter selected (live_pairs (slots (table s)))).*1 | None => [] end)).
    apply bind_ext. intros i [_ Hi]%elem_of_seq. destruct (lookup_lt_is_Some_2 (shards m) i) as [s Hs]; [exact Hi|].
    rewrite Hs. apply hits_shard; [done|]. apply (tw_len _ (tw_geometry _ _ (sw_table _ _ (Hw i s Hs)))).
  - clear. induction (shards m) as [|s ss IH]; [done|]. simpl. rewrite filter_app, fmap_app. f_equal. exact IH.
Qed.

(** C39: SCAN is complete.  On every reachable store with at most [2^12] shards of
    at most [2^20] slots, for every pattern and every COUNT the reply buffer can
    hold, following the cursor from 0 until it is 0 again ends within one call
    per slot, and the replies together hold every live key that matches, exactly
    once. *)
Theorem scan_complete shards max_keys l (count : nat) :
  let st := after hash_one shards max_keys l in
  let m := data st in
  (∀ i, Z.of_nat (shard_len m i) <= 2 ^ 20) → Z.of_nat (shard_count m) <= 2 ^ 12 → 24 * Z.of_nat count <= i64_max →
  ∃ keys, scan_all c pattern count (S (slots_left m 0 0)) 0 st = Some keys ∧ NoDup keys ∧
    ∀ k, k ∈ keys ↔ is_Some (live c k st) ∧ match pattern with Some p => glob_match p k = true | None => True end.
Proof.
  intros st m Hcap Hsh Hcount.
  assert (Hw : map_wf hash_one m) by exact (after_wf hash_one shards max_keys l). destruct Hw as [Hw _].
  assert (Hpos : (0 < shard_count m)%nat).
  { destruct (cw_count _ _ Hw) as (bits & Hb & Hl & _). unfold shard_count. pose proof (Z.pow_pos_nonneg 2 bits). lia. }
  pose proof (scan_all_spec c pattern count (S (slots_left m 0 0)) st 0 0 Hcap Hsh Hcount Hpos ltac:(lia)
    (Nat.lt_succ_diag_r _)) as Hall.
  exists (filter selected (all_pairs m)).*1. split; [|split].
  - etransitivity; [exact Hall|]. f_equal. by apply rest_hits_all.
  - eapply sublist_NoDup; [apply (all_pairs_NoDup hash_one m Hw)|]. apply fmap_sublist, sublist_filter.
  - intros k. rewrite list_elem_of_fmap. unfold live. change (db st) with (abs m). unfold selected, selects.
    assert (Hin : ∀ v, (k, v) ∈ all_pairs m ↔ abs m !! k = Some v).
    { intros v. rewrite (all_pairs_perm hash_one m Hw). apply elem_of_map_to_list. }
    split.
    + intros ([k' v] & E & [[Hx Hp]%andb_true_iff Hl]%list_elem_of_filter). simpl in *. subst k'. apply Hin in Hl.
      rewrite Hl. simpl. apply negb_true_iff in Hx. rewrite Hx. split; [done|]. by destruct pattern.
    + intros [[x Hx] Hp]. destruct (abs m !! k) as [v|] eqn:E; simpl in Hx; [|done].
      destruct (is_expired c v) eqn:Ex; [done|]. exists (k, v). split; [done|]. apply list_elem_of_filter.
      split; [|by apply Hin]. simpl. rewrite Ex. simpl. by destruct pattern.
Qed.
End ScanClaims.

Lemma scan_complete_witness :
  let st := after toy_hash (H := canonical_order) 2 16 demo_run in
  (∀ i, Z.of_nat (shard_len (data st) i) <= 2 ^ 20) ∧
  ∃ keys, scan_all demo_clock None 1 (S (slots_left (data st) 0 0)) 0 st = Some keys ∧ NoDup keys.
Proof.
  intros st.
  assert (Hcap : ∀ i, Z.of_nat (shard_len (data st) i) <= 2 ^ 20).
  { intros i. do 2 (destruct i as [|i]; [vm_compute; congruence|]). vm_compute. congruence. }
  split; [exact Hcap|].
  destruct (scan_complete toy_hash (H := canonical_order) demo_clock None 2 16 demo_run 1 Hcap) as (keys & Hk & Hn & _).
  - vm_compute. congruence.
  - vm_compute. congruence.
  - exists keys. split; [exact Hk|exact Hn].
Defined.

(** ** The incremental expiry sweep: one step over a range of slots removes the
    expired entries of that range, nothing else, and keeps the counters. *)

Section Sweep.
Context {V : Type} (hash_one : bytes → Z).
Implicit Types (m : CustomMap V) (s : Shard V).

Lemma live_pairs_app (l1 l2 : list (option (Entry V))) : live_pairs (l1 ++ l2) = live_pairs l1 ++ live_pairs l2.
Proof. apply omap_app. Qed.

Lemma retained_refl (l : list (option (Entry V))) : Forall2 retained l l.
Proof. induction l as [|[e|] l IH]; constructor; auto; constructor. Qed.

(** The slots of a shard with a middle part swept. *)
Lemma sweep_slots_spec {A} (f : bytes → V → A → A * bool) s a start n :
  shard_wf (hash_of hash_one) s →
  let l := slots (table s) in
  let mid := take n (drop start l) in
  let '(a', k, swept) := retain_slots f a mid in
  let l' := take start l ++ swept ++ drop (start + n) l in
  shard_wf (hash_of hash_one) (mkShard (mkTable l' (capacity (table s)) (mask (table s)) (threshold (table s))) (s_len s)) ∧
  retain_run f (live_pairs mid) a = (a', live_pairs swept) ∧
  length swept = length mid ∧
  live_pairs l = live_pairs (take start l) ++ live_pairs mid ++ live_pairs (drop (start + n) l) ∧
  k = Z.of_nat (length (live_pairs mid)) - Z.of_nat (length (live_pairs swept)).
Proof.
  intros [Hw Hl Hload] l mid.
  assert (Hsplit : l = take start l ++ mid ++ drop (start + n) l).
  { unfold mid. rewrite <- drop_drop, take_drop, take_drop. done. }
  assert (Hmid : ∀ j e, mid !! j = Some (Some e) → entry_wf (hash_of hash_one) e).
  { intros j e Hj. unfold mid in Hj. apply lookup_take_Some in Hj as [Hj _]. rewrite lookup_drop in Hj.
    by eapply tw_entry. }
  pose proof (retain_slots_spec hash_one f mid a Hmid) as Hr. destruct (retain_slots f a mid) as [[a' k] swept].
  destruct Hr as (Hf & Hrun & Hk).
  assert (Hall : Forall2 retained l (take start l ++ swept ++ drop (start + n) l)).
  { rewrite Hsplit at 1. apply Forall2_app; [apply retained_refl|]. apply Forall2_app; [done|apply retained_refl]. }
  split; [|split; [done|split; [symmetry; by eapply Forall2_length|split; [|done]]]].
  - split; simpl; [by apply (retained_table_wf hash_one)| |done]. by rewrite (retained_nonnull _ _ Hall).
  - rewrite Hsplit at 1. by rewrite !live_pairs_app.
Qed.

Lemma all_pairs_split m i s :
  shards m !! i = Some s →
  ∃ P Q, all_pairs m = P ++ live_pairs (slots (table s)) ++ Q ∧
    ∀ s', all_pairs (set_shard m i s') = P ++ live_pairs (slots (table s')) ++ Q.
Proof.
  intros Hi. unfold all_pairs, set_shard. simpl.
  exists (concat ((λ s, live_pairs (slots (table s))) <$> take i (shards m))),
    (concat ((λ s, live_pairs (slots (table s))) <$> drop (S i) (shards m))). split.
  - rewrite <- (take_drop_middle (shards m) i s Hi) at 1. by rewrite fmap_app, concat_app.
  - intros s'. rewrite insert_take_drop by by eapply lookup_lt_Some. by rewrite fmap_app, concat_app.
Qed.

Lemma retain_range_spec {A} (f : bytes → V → A → A * bool) shard start max m a :
  map_wf hash_one m → Z.of_nat (shard_len m shard) <= usize_max →
  let '(m', a', r) := retain_shard_range f shard start max m a in
  map_wf hash_one m' ∧
  ∃ P mid kept Q, all_pairs m = P ++ mid ++ Q ∧ all_pairs m' = P ++ kept ++ Q ∧ retain_run f mid a = (a', kept).
Proof.
  intros [Hw Hc] Hcap. unfold retain_shard_range. destruct (shards m !! shard) as [s|] eqn:Hs.
  2:{ split; [done|]. exists (all_pairs m), [], [], []. by rewrite !app_nil_r. }
  pose proof (cw_shard _ _ Hw shard s Hs) as Hsw.
  set (lo := Nat.min start _). set (hi := Nat.min _ _). 
  unfold shard_len, shard_slot_count in Hcap. rewrite Hs in Hcap. simpl in Hcap.
  assert (Hle : (lo <= hi)%nat) by (unfold lo, hi, saturating_add; lia).
  pose proof (sweep_slots_spec f s a lo (hi - lo) Hsw) as Hspec. cbv zeta in Hspec.
  replace (lo + (hi - lo))%nat with hi in Hspec by lia.
  destruct (retain_slots f a _) as [[a' n] swept]. destruct Hspec as (Hs' & Hrun & _ & Hpairs & Hn).
  set (s' := mkShard _ _) in *. destruct (all_pairs_split m shard s Hs) as (P & Q & HP & HQ).
  set (mid := take (hi - lo) (drop lo (slots (table s)))) in *.
  set (pre := live_pairs (take lo (slots (table s)))) in *. set (post := live_pairs (drop hi (slots (table s)))) in *.
  assert (Hpairs' : live_pairs (slots (table s')) = pre ++ live_pairs swept ++ post).
  { unfold s'. simpl. by rewrite !live_pairs_app. }
  assert (Hsub : live_pairs (slots (table s')) `sublist_of` live_pairs (slots (table s))).
  { rewrite Hpairs, Hpairs'. apply sublist_app; [done|]. apply sublist_app; [|done].
    pose proof (retain_run_sublist f (live_pairs mid) a) as Hr. by rewrite Hrun in Hr. }
  assert (Hw' : struct_wf hash_one (set_shard m shard s')).
  { eapply set_shard_wf; [done|done|done|]. intros k [v Hk]. eapply cw_home; [done|exact Hs|]. exists v.
    apply (table_map_lookup (hash_of hash_one)); [by apply sw_table|]. apply elem_of_live_pairs.
    eapply elem_of_sublist; [|exact Hsub]. apply elem_of_live_pairs.
    by apply (table_map_lookup (hash_of hash_one)); [apply sw_table|]. }
  assert (Hall : all_pairs m = (P ++ pre) ++ live_pairs mid ++ (post ++ Q)) by (rewrite HP, Hpairs, <- !app_assoc; done).
  assert (Hall' : all_pairs (set_shard m shard s') = (P ++ pre) ++ live_pairs swept ++ (post ++ Q))
    by (rewrite HQ, Hpairs', <- !app_assoc; done).
  split; [|by exists (P ++ pre), (live_pairs mid), (live_pairs swept), (post ++ Q)].
  assert (Hsize : ∀ m0 : CustomMap V, struct_wf hash_one m0 → size (abs m0) = length (all_pairs m0)).
  { intros m0 Hw0. rewrite abs_all_pairs. apply map_size_list_to_map. by apply (all_pairs_NoDup hash_one). }
  apply set_key_count_wf; [done|]. rewrite Hc, Hn, !Hsize, Hall, Hall', !length_app by done. lia.
Qed.
End Sweep.

(** ** The sweep of the store *)

Definition sweep_expired (c : Clock) (v : StoreValue) : bool :=
  negb (expires_ms v =? 0) && (expires_ms v <=? now_ms c).

(** The closure of [cleanup_expired_shard]. *)
Definition sweep_entry (c : Clock) (k : bytes) (v : StoreValue) (acc : nat * nat) : (nat * nat) * bool :=
  let '(live_ttls, removed) := acc in
  if sweep_expired c v then ((live_ttls, S removed), false)
  else ((if negb (expires_ms v =? 0) then S live_ttls else live_ttls, removed), true).

Definition kept (c : Clock) (p : bytes * StoreValue) : Prop := sweep_expired c p.2 = false.

#[export] Instance kept_dec c p : Decision (kept c p).
Proof. unfold kept. apply _. Defined.

Lemma sweep_run c (l : list (bytes * StoreValue)) a b :
  let r := retain_run (sweep_entry c) l (a, b) in
  r.2 = filter (kept c) l ∧ (length l + b = length r.2 + r.1.2)%nat.
Proof.
  revert a b. induction l as [|[k v] l IH]; intros a b; simpl; [done|]. rewrite filter_cons.
  destruct (sweep_expired c v) eqn:E.
  - specialize (IH a (S b)). destruct (retain_run _ l _) as [[x y] z]. simpl in *.
    rewrite decide_False by (unfold kept; simpl; congruence). destruct IH as [-> ?]. split; [done|lia].
  - specialize (IH (if negb (expires_ms v =? 0) then S a else a) b).
    destruct (retain_run _ l _) as [[x y] z]. simpl in *. rewrite decide_True by done. destruct IH as [-> ?].
    split; [done|simpl; lia].
Qed.

Lemma iter_sub_ttl {M} n (st : Store M) :
  data (Nat.iter n sub_ttl st) = data st ∧
  (0 <= ttl_count st → ttl_count (Nat.iter n sub_ttl st) = Z.max 0 (ttl_count st - Z.of_nat n)).
Proof.
  induction n as [|n [IHd IHc]]; [simpl; split; [done|lia]|]. simpl. split; [done|]. intros H0. rewrite (IHc H0).
  case_goal; split_bool; lia.
Qed.

(** Entries with an expiry among a list of pairs. *)
Definition ttl_pairs (l : list (bytes * StoreValue)) : Z := Z.of_nat (length (filter (λ p, has_ttl p.2 = true) l)).

Lemma ttl_keys_pairs (l : list (bytes * StoreValue)) : NoDup l.*1 → ttl_keys (list_to_map l) = ttl_pairs l.
Proof.
  intros Hnd. unfold ttl_keys, ttl_pairs. f_equal. rewrite map_filter_alt, map_size_list_to_map.
  - apply Permutation_length. apply filter_Permutation. by apply map_to_list_to_map.
  - eapply sublist_NoDup; [|apply fmap_sublist, sublist_filter]. apply NoDup_fst_map_to_list.
Qed.

Lemma ttl_pairs_app l1 l2 : ttl_pairs (l1 ++ l2) = ttl_pairs l1 + ttl_pairs l2.
Proof. unfold ttl_pairs. rewrite filter_app, length_app. lia. Qed.

(** Every entry the sweep removes had an expiry. *)
Lemma ttl_pairs_kept c l : ttl_pairs l = ttl_pairs (filter (kept c) l) + Z.of_nat (length l - length (filter (kept c) l)).
Proof.
  induction l as [|[k v] l IH]; [done|]. rewrite !filter_cons.
  assert (Hle : (length (filter (kept c) l) <= length l)%nat) by apply length_filter.
  change ((k, v) :: l) with ([(k, v)] ++ l). rewrite ttl_pairs_app.
  destruct (sweep_expired c v) eqn:E.
  - rewrite decide_False by (unfold kept; simpl; congruence). assert (Ht : ttl_pairs [(k, v)] = 1).
    { unfold ttl_pairs. rewrite filter_cons, decide_True; [done|]. unfold has_ttl, sweep_expired in *. simpl.
      by apply andb_true_iff in E as [-> _]. }
    rewrite Ht, IH, length_app. simpl. lia.
  - rewrite decide_True by done. change ((k, v) :: filter (kept c) l) with ([(k, v)] ++ filter (kept c) l).
    rewrite ttl_pairs_app, IH, length_app. simpl. lia.
Qed.

Section SweepClaims.
Context (hash_one : bytes → Z) `{HashOrder}.
#[local] Instance sweep_kv : KVMap StoreValue (CustomMap StoreValue) := claims_kv hash_one.
#[local] Instance sweep_laws : KVMapLaws StoreValue (CustomMap StoreValue) := claims_laws hash_one.

(** One step on any store that is well formed and counts enough. *)
Lemma sweep_step_ok (c : Clock) (shard start max : nat) st :
  map_wf hash_one (data st) → ttl_keys (db st) <= ttl_count st → Z.of_nat (shard_len (data st) shard) <= usize_max →
  let '(st', (_, _, _, removed)) := cleanup_expired_shard c shard start max st in
  store_wf st' ∧
  (∀ k v, db st' !! k = Some v → db st !! k = Some v) ∧
  (∀ k v, db st !! k = Some v → db st' !! k = None → expires_ms v ≠ 0 ∧ expires_ms v <= now_ms c) ∧
  size (db st) = (size (db st') + removed)%nat ∧
  ttl_keys (db st') <= ttl_count st'.
Proof.
  intros Hw Ht Hcap. unfold cleanup_expired_shard. destruct (negb (has_ttl_keys st)).
  { split; [done|]. split; [done|]. split; [congruence|]. by rewrite Nat.add_0_r. }
  pose proof (retain_range_spec hash_one (sweep_entry c) shard start max (data st) (0, 0)%nat Hw Hcap) as Hr.
  change (λ (_ : bytes) entry (acc : nat * nat), _) with (sweep_entry c).
  destruct (retain_shard_range _ _ _ _ _ _) as [[m' [lt rm]] r]. destruct Hr as (Hw' & P & mid & k' & Q & Hall & Hall' & Hrun).
  destruct (default _ r) as [next cap]. pose proof (sweep_run c mid 0 0) as Hs. cbv zeta in Hs. rewrite Hrun in Hs.
  simpl in Hs. destruct Hs as [-> Hlen]. destruct (iter_sub_ttl rm (with_data st m')) as [Hd Hcnt].
  set (st' := Nat.iter rm sub_ttl (with_data st m')) in *.
  assert (Hdb : db st = list_to_map (P ++ mid ++ Q)) by (rewrite <- Hall; apply abs_all_pairs).
  assert (Hdb' : db st' = list_to_map (P ++ filter (kept c) mid ++ Q)).
  { unfold db. rewrite Hd, <- Hall'. apply abs_all_pairs. }
  pose proof (all_pairs_NoDup hash_one _ (cw_struct _ _ Hw)) as Hnd. rewrite Hall in Hnd.
  pose proof (all_pairs_NoDup hash_one _ (cw_struct _ _ Hw')) as Hnd'. rewrite Hall' in Hnd'.
  assert (Hin : ∀ k v, db st !! k = Some v ↔ (k, v) ∈ P ++ mid ++ Q) by (intros; rewrite Hdb; symmetry; by apply elem_of_list_to_map).
  assert (Hin' : ∀ k v, db st' !! k = Some v ↔ (k, v) ∈ P ++ filter (kept c) mid ++ Q)
    by (intros; rewrite Hdb'; symmetry; by apply elem_of_list_to_map).
  split; [|split; [|split; [|split]]].
  - unfold store_wf. by rewrite Hd.
  - intros k v. rewrite Hin, Hin', !elem_of_app, list_elem_of_filter. tauto.
  - intros k v Hk Hn. destruct (sweep_expired c v) eqn:E.
    + unfold sweep_expired in E. apply andb_true_iff in E as [E1 E2]. split_bool. done.
    + assert (db st' !! k = Some v) as Hk'; [|congruence]. apply Hin'. apply Hin in Hk.
      rewrite !elem_of_app, list_elem_of_filter in *. unfold kept. simpl. tauto.
  - rewrite Hdb, Hdb', !map_size_list_to_map, !length_app by done. lia.
  - rewrite Hdb', ttl_keys_pairs by done. rewrite Hdb, ttl_keys_pairs in Ht by done.
    rewrite Hcnt by (unfold ttl_pairs in Ht; simpl; lia). simpl.
    rewrite !ttl_pairs_app in Ht |- *. rewrite (ttl_pairs_kept c mid) in Ht. lia.
Qed.

(** The incremental sweep.  On every reachable store, one step over a range
    of slots keeps the map well formed, removes only entries that expired, as
    many as it reports, leaves every other entry as it was, and keeps the TTL
    counter at or above the number of keys that expire. *)
Theorem sweep_step_safe shards max_keys l (c : Clock) (shard start max : nat) :
  let st := after hash_one shards max_keys l in
  Z.of_nat (shard_len (data st) shard) <= usize_max →
  let '(st', (_, _, _, removed)) := cleanup_expired_shard c shard start max st in
  store_wf st' ∧
  (∀ k v, db st' !! k = Some v → db st !! k = Some v) ∧
  (∀ k v, db st !! k = Some v → db st' !! k = None → expires_ms v ≠ 0 ∧ expires_ms v <= now_ms c) ∧
  size (db st) = (size (db st') + removed)%nat ∧
  ttl_keys (db st') <= ttl_count st'.
Proof.
  intros st Hcap. apply sweep_step_ok; [exact (after_wf hash_one shards max_keys l)| |done].
  apply (after_ok hash_one shards max_keys l).
Qed.
End SweepClaims.

Lemma sweep_step_safe_witness :
  Z.of_nat (shard_len (data (after toy_hash (H := canonical_order) 1 16 demo_run)) 0) <= usize_max ∧
  let '(st', (_, _, _, removed)) :=
    cleanup_expired_shard (mkClock 5000 900) 0 0 64 (after toy_hash (H := canonical_order) 1 16 demo_run) in
  size (db (H0 := claims_laws toy_hash) (after toy_hash (H := canonical_order) 1 16 demo_run)) =
    (size (db (H0 := claims_laws toy_hash) st') + removed)%nat.
Proof.
  assert (Hc : Z.of_nat (shard_len (data (after toy_hash (H := canonical_order) 1 16 demo_run)) 0) <= usize_max)
    by (vm_compute; congruence).
  split; [exact Hc|].
  pose proof (sweep_step_safe toy_hash (H := canonical_order) 1 16 demo_run (mkClock 5000 900) 0 0 64 Hc) as Hs.
  destruct (cleanup_expired_shard _ _ _ _ _) as [st' [[[? ?] ?] rm]]. exact (proj1 (proj2 (proj2 (proj2 Hs)))).
Defined.
