(* ===== verification/ListSpec.v ===== *)
(** List commands as operations on sequences. *)

From S2P Require Import Prelude MapIface Shard CustomMap CustomMapSpec Collections CollectionsSpec.
From S2P Require Import Value Store StoreSpec ListOps HashOps SetOps Commands StoreClaims.
Local Open Scope Z_scope.

(** ** Pushing and popping *)

Lemma push_all_front_eq vs l : push_all_front vs l = reverse vs ++ l.
Proof.
  unfold push_all_front. revert l. induction vs as [|v vs IH]; intros l; simpl; [done|].
  rewrite IH, reverse_cons, <- app_assoc. done.
Qed.

Lemma push_all_back_eq vs l : push_all_back vs l = l ++ vs.
Proof.
  unfold push_all_back. revert l. induction vs as [|v vs IH]; intros l; simpl; [by rewrite app_nil_r|].
  by rewrite IH, <- app_assoc.
Qed.

Lemma pop_fronts_eq n l out :
  (n <= length l)%nat → pop_fronts n l out = (drop n l, out ++ take n l).
Proof.
  revert l out. induction n as [|n IH]; intros l out Hn; simpl; [by rewrite drop_0, app_nil_r|].
  destruct l as [|v l]; simpl in Hn; [lia|]. rewrite IH by lia. simpl. by rewrite <- app_assoc.
Qed.

Lemma pop_backs_eq n l out :
  (n <= length l)%nat → pop_backs n l out = (take (length l - n) l, out ++ take n (reverse l)).
Proof.
  revert l out. induction n as [|n IH]; intros l out Hn.
  { simpl. by rewrite Nat.sub_0_r, firstn_all, app_nil_r. }
  destruct l as [|v l _] using rev_ind; [simpl in Hn; lia|]. rewrite length_app in Hn. simpl in Hn.
  cbn [pop_backs]. rewrite vec_pop_snoc, IH by lia. rewrite reverse_snoc, length_app. simpl.
  rewrite <- app_assoc. simpl. f_equal. rewrite take_app_le by lia. f_equal. lia.
Qed.

(** ** Removal *)

(** The number of occurrences. *)
Definition occ (v : bytes) (l : list bytes) : nat := length (List.filter (λ x, bool_decide (x = v)) l).

Lemma occ_cons v x l : occ v (x :: l) = if bool_decide (x = v) then S (occ v l) else occ v l.
Proof. unfold occ. simpl. by destruct (bool_decide (x = v)). Qed.

Lemma lrem_front_spec n v l :
  let '(r, k) := lrem_front n v l in
  k = Nat.min n (occ v l) ∧ r `sublist_of` l ∧ occ v r = (occ v l - k)%nat ∧
  List.filter (λ x, negb (bool_decide (x = v))) r = List.filter (λ x, negb (bool_decide (x = v))) l.
Proof.
  revert n. induction l as [|x l IH]; intros [|n]; [done|done|split_and!; [done|done|simpl; lia|done]|].
  cbn [lrem_front]. rewrite occ_cons. destruct (decide (x = v)) as [->|Hne].
  - rewrite bool_decide_eq_true_2 by done. specialize (IH n).
    destruct (lrem_front n v l) as [r k]. destruct IH as (-> & Hs & Ho & Hf). simpl List.filter.
    rewrite bool_decide_eq_true_2 by done. split_and!; [lia|by constructor|lia|done].
  - rewrite bool_decide_eq_false_2 by done. specialize (IH (S n)).
    destruct (lrem_front (S n) v l) as [r k]. destruct IH as (-> & Hs & Ho & Hf). rewrite occ_cons. simpl List.filter.
    rewrite bool_decide_eq_false_2 by done. split_and!; [done|by constructor|done|]. simpl. by rewrite Hf.
Qed.

Lemma reverse_sublist (l k : list bytes) : l `sublist_of` k → reverse l `sublist_of` reverse k.
Proof.
  induction 1 as [|x l k Hs IH|x l k Hs IH]; [constructor| |]; rewrite ?reverse_cons.
  - by apply sublist_app.
  - by apply sublist_inserts_r.
Qed.

(** Counting down from the end is counting up on the reversed list. *)
Lemma lrem_back_spec v a : ∀ n m b,
  lrem_back (length a) n m v (a ++ b) =
    (let '(r, k) := lrem_front (n - m) v (reverse a) in (reverse r ++ b, (m + k)%nat)).
Proof.
  induction a as [|x a IH] using rev_ind; intros n m b.
  - simpl. destruct (n - m)%nat; simpl; by rewrite Nat.add_0_r.
  - rewrite length_app, Nat.add_1_r. cbn [lrem_back]. rewrite reverse_snoc, <- app_assoc.
    change ([x] ++ b) with (x :: b).
    destruct (m <? n)%nat eqn:E; split_bool.
    + destruct (n - m)%nat as [|d] eqn:Ed; [lia|]. cbn [lrem_front].
      rewrite (list_lookup_middle a b x (length a)) by done.
      destruct (decide (x = v)) as [->|Hne].
      * rewrite !bool_decide_eq_true_2 by done. rewrite delete_middle, IH.
        replace (n - S m)%nat with d by lia. destruct (lrem_front d v (reverse a)) as [r k].
        by rewrite Nat.add_succ_r.
      * rewrite !bool_decide_eq_false_2 by congruence. rewrite IH, Ed.
        destruct (lrem_front (S d) v (reverse a)) as [r k]. by rewrite reverse_cons, <- app_assoc.
    + replace (n - m)%nat with 0%nat by lia. simpl. rewrite Nat.add_0_r.
      rewrite reverse_cons, reverse_involutive, <- app_assoc. done.
Qed.

(** ** Properties *)

(** The sequence at a key: a missing key is an empty list, an expired or
    foreign value is none. *)
Definition list_at (c : Clock) (k : bytes) (g : gmap bytes StoreValue) : option (list bytes) :=
  match g !! k with
  | None => Some []
  | Some v => if is_expired c v then None else as_list (value v)
  end.

Section Claims.
Context (hash_one : bytes → Z) `{HashOrder}.
#[local] Instance list_kv : KVMap StoreValue (CustomMap StoreValue) := claims_kv hash_one.
#[local] Instance list_laws : KVMapLaws StoreValue (CustomMap StoreValue) := claims_laws hash_one.

Lemma as_list_put v l l' : as_list v = Some l → as_list (put_list v l') = Some l'.
Proof. destruct v as [| |[]| | | |]; simpl; done. Qed.

Lemma list_at_insert c k g v : list_at c k (<[k := v]> g) = if is_expired c v then None else as_list (value v).
Proof. unfold list_at. by rewrite lookup_insert_eq. Qed.

Lemma list_update_live {R} c oe (ol : list bytes → list bytes * result R) v l :
  is_expired c v = false → as_list (value v) = Some l →
  list_update c oe ol v = (mkValue (put_list (value v) (ol l).1) (expires_ms v), (ol l).2).
Proof. intros Hx Hl. unfold list_update. rewrite Hx, Hl. by destruct (ol l). Qed.

Lemma is_expired_same c v x : is_expired c (mkValue x (expires_ms v)) = is_expired c v.
Proof. done. Qed.

Lemma push_at {R} c k oe (ol : list bytes → list bytes * result R) fresh (r0 : R) st l :
  store_wf st → list_at c k (db st) = Some l → (ol []).2 = Ok r0 →
  is_expired c fresh = false → as_list (value fresh) = Some (ol []).1 →
  let p := update_or_insert k (list_update c oe ol) fresh (Ok r0) st in
  list_at c k (db p.1) = Some (ol l).1 ∧ p.2 = (ol l).2.
Proof.
  intros Hw Hl Hr Hf Ha. destruct (update_or_insert_spec k (list_update c oe ol) fresh (Ok r0) st Hw) as (_ & Hd & _ & Hp).
  cbv zeta. rewrite Hd, Hp, list_at_insert. unfold list_at in Hl. destruct (db st !! k) as [v|].
  - destruct (is_expired c v) eqn:Ex; [done|]. rewrite (list_update_live c oe ol v l Ex Hl). simpl.
    rewrite is_expired_same, Ex. by rewrite (as_list_put _ l).
  - simplify_eq. by rewrite Hf, Ha, Hr.
Qed.

Lemma change_at {R} c k oe (ol : list bytes → list bytes * result R) r0 st l :
  store_wf st → list_at c k (db st) = Some l → (ol []).1 = [] → (ol []).2 = r0 →
  let p := update_or k (list_update c oe ol) r0 st in
  list_at c k (db p.1) = Some (ol l).1 ∧ p.2 = (ol l).2.
Proof.
  intros Hw Hl H1 H2. destruct (update_or_spec k (list_update c oe ol) r0 st Hw) as (_ & Hd & _ & Hp).
  cbv zeta. rewrite Hd, Hp. unfold upd. unfold list_at in Hl |- *. destruct (db st !! k) as [v|] eqn:E.
  - destruct (is_expired c v) eqn:Ex; [done|]. rewrite (list_update_live c oe ol v l Ex Hl). simpl.
    rewrite lookup_insert_eq, is_expired_same, Ex. simpl. by rewrite (as_list_put _ l).
  - simplify_eq. by rewrite E, H1.
Qed.

(** Rewrite a command by the lemma of its shape. *)
Ltac run_push xs Hw Hl :=
  match goal with
  | |- context [update_or_insert ?k (list_update ?c ?oe ?ol) ?fresh (Ok ?r0) ?st] =>
      destruct (push_at c k oe ol fresh r0 st xs Hw Hl eq_refl eq_refl eq_refl) as [-> ->]
  end.
Ltac run_change xs Hw Hl :=
  match goal with
  | |- context [update_or ?k (list_update ?c ?oe ?ol) ?r0 ?st] =>
      destruct (change_at c k oe ol r0 st xs Hw Hl) as [-> ->];
      [simpl; by rewrite Nat.min_0_r|simpl; by rewrite Nat.min_0_r|]
  end.

(** C20: A list is a double-ended queue.  On a key that holds the sequence [l]
    (a missing key holds the empty one), LPUSH and RPUSH add at the two ends,
    LPOP and RPOP take from them, in order, and the replies are the new length
    and the elements taken. *)
Theorem list_deque shards max_keys l c k xs vs n :
  let st := after hash_one shards max_keys l in
  list_at c k (db st) = Some xs →
  (list_at c k (db (lpush c k vs st).1) = Some (reverse vs ++ xs) ∧
   (lpush c k vs st).2 = Ok (Z.of_nat (length vs + length xs))) ∧
  (list_at c k (db (rpush c k vs st).1) = Some (xs ++ vs) ∧
   (rpush c k vs st).2 = Ok (Z.of_nat (length xs + length vs))) ∧
  (list_at c k (db (lpop c k n st).1) = Some (drop n xs) ∧ (lpop c k n st).2 = Ok (take n xs)) ∧
  (list_at c k (db (rpop c k n st).1) = Some (take (length xs - n) xs) ∧
   (rpop c k n st).2 = Ok (take n (reverse xs))).
Proof.
  cbv zeta. intros Hl. pose proof (after_wf hash_one shards max_keys l) as Hw. split; [|split; [|split]].
  - unfold lpush. run_push xs Hw Hl. simpl. rewrite push_all_front_eq. unfold llength. by rewrite length_app, length_reverse.
  - unfold rpush. run_push xs Hw Hl. simpl. rewrite push_all_back_eq. unfold llength. by rewrite length_app.
  - unfold lpop. run_change xs Hw Hl.
    rewrite pop_fronts_eq by lia. simpl. split; f_equal.
    + destruct (Nat.min_spec n (length xs)) as [[? ->]|[? ->]]; [done|]. by rewrite !drop_ge by lia.
    + destruct (Nat.min_spec n (length xs)) as [[? ->]|[? ->]]; [done|]. by rewrite !take_ge by lia.
  - unfold rpop. run_change xs Hw Hl.
    rewrite pop_backs_eq by lia. simpl. split; f_equal.
    + f_equal. lia.
    + destruct (Nat.min_spec n (length xs)) as [[? ->]|[? ->]]; [done|].
      by rewrite !take_ge by (rewrite length_reverse; lia).
Qed.
End Claims.

(** ** Ranges *)

(** The range of a list between two indices, negative ones counting from the end. *)
Definition index_range (l : list bytes) (start stop : Z) : list bytes :=
  let len := llength l in
  let a := if start <? 0 then Z.max (len + start) 0 else start in
  let b := if stop <? 0 then len + stop else Z.min stop (len - 1) in
  if b <? a then [] else take (Z.to_nat (b - a + 1)) (drop (Z.to_nat a) l).

Lemma wrap64_small z : 0 <= z < 2 ^ 64 → wrap64 z = z.
Proof. apply Z.mod_small. Qed.

Lemma range_bytes_nil start stop : range_bytes [] start stop = [].
Proof. unfold range_bytes. case_goal; [done|]. by rewrite drop_nil, take_nil. Qed.

Lemma clamp_bounds l start stop :
  l ≠ [] → llength l < 2 ^ 63 →
  (clamp_start (llength l) start <= length l)%nat ∧ 0 <= clamp_stop (llength l) stop < llength l ∧
  wrap64 (clamp_stop (llength l) stop) = clamp_stop (llength l) stop ∧ 0 < llength l.
Proof.
  intros Hl Hlen. assert (0 < llength l) by (unfold llength; destruct l; [done|simpl; lia]).
  assert (0 <= clamp_stop (llength l) stop < llength l)
    by (unfold clamp_stop; destruct (stop <? 0) eqn:E; split_bool; lia).
  split; [|split; [done|split; [apply wrap64_small; lia|done]]].
  unfold clamp_start, llength in *. destruct (start <? 0) eqn:E; split_bool; lia.
Qed.

Lemma range_bytes_eq l start stop :
  l ≠ [] → llength l < 2 ^ 63 →
  range_bytes l start stop =
    let s := clamp_start (llength l) start in
    let e := clamp_stop (llength l) stop in
    if e <? Z.of_nat s then [] else take (Z.to_nat (e - Z.of_nat s + 1)) (drop s l).
Proof.
  intros Hl Hlen. destruct (clamp_bounds l start stop Hl Hlen) as (Hs & He & Hw & H0).
  unfold range_bytes. rewrite Hw. cbv zeta. case_goal; [done|]. split_bool.
  rewrite wrap64_small by lia. f_equal. lia.
Qed.

(** LRANGE.  For a list shorter than [2^63] and a last index that is not
    before its first element, the reply is the range between the two indices;
    with a last index before the first element it is the first element, where
    the range is empty, if the first index also clamps to the start.  LTRIM
    keeps exactly what LRANGE replies. *)
Theorem lrange_ltrim_correct (l : list bytes) (start stop : Z) :
  llength l < 2 ^ 63 →
  range_bytes l start stop =
    (if stop <? - llength l
     then (if (start =? 0) || (start <=? - llength l) then take 1 l else [])
     else index_range l start stop) ∧
  trim_bytes l start stop = range_bytes l start stop.
Proof.
  intros Hlen. destruct (decide (l = [])) as [->|Hl].
  - rewrite range_bytes_nil. split.
    + unfold index_range. repeat case_goal; try done; by rewrite ?drop_nil, ?take_nil.
    + unfold trim_bytes. by rewrite orb_true_r.
  - rewrite range_bytes_eq by done. destruct (clamp_bounds l start stop Hl Hlen) as (Hs & He & Hw & H0).
    split.
    + unfold index_range, clamp_start, clamp_stop in *. destruct (stop <? - llength l) eqn:E1; split_bool.
      * rewrite (proj2 (Z.ltb_lt stop 0)), Z.max_r in * by lia.
        destruct (start <? 0) eqn:E2, (start =? 0) eqn:E3, (start <=? - llength l) eqn:E4;
          split_bool; try lia; cbv zeta; cbn [orb].
        -- rewrite Z.max_r by lia. done.
        -- rewrite (proj2 (Z.ltb_lt _ _)) by lia. done.
        -- subst start. rewrite Z.min_l by lia. done.
        -- rewrite (proj2 (Z.ltb_lt _ _)) by lia. done.
      * destruct (stop <? 0) eqn:E2, (start <? 0) eqn:E3; split_bool; cbv zeta;
          rewrite ?(Z.max_l (llength l + stop)), ?Z2Nat.id in * by lia; try done.
        -- destruct (Z.min_spec start (llength l)) as [[? ->]|[? ->]].
           ++ rewrite ?Z2Nat.id by lia. done.
           ++ rewrite ?Z2Nat.id by lia. rewrite !(proj2 (Z.ltb_lt _ _)) by lia. done.
        -- destruct (Z.min_spec start (llength l)) as [[? ->]|[? ->]].
           ++ rewrite ?Z2Nat.id by lia. done.
           ++ rewrite ?Z2Nat.id by lia. rewrite !(proj2 (Z.ltb_lt _ _)) by lia. done.
    + unfold trim_bytes. rewrite Hw. cbv zeta. destruct (clamp_stop _ _ <? _) eqn:E; split_bool; [done|].
      simpl. destruct (length l <=? _)%nat eqn:E2; split_bool.
      * unfold llength in *. lia.
      * rewrite wrap64_small by lia.
        assert (Hd : llength (drop (clamp_start (llength l) start) l) =
          llength l - Z.of_nat (clamp_start (llength l) start))
          by (unfold llength at 1; rewrite length_drop; unfold llength in *; lia).
        rewrite Hd. by rewrite Z.min_l by lia.
Qed.

(** LREM.  With a positive count it removes the first [count] occurrences
    of the value, with a negative one the last, with zero all; everything else
    stays, in order, and the reply is the number removed. *)
Theorem lrem_correct (count : Z) (v : bytes) (l : list bytes) :
  in_i64 count = true →
  let '(r, n) := lrem_bytes count v l in
  n = (if count =? 0 then occ v l else Nat.min (Z.to_nat (Z.abs count)) (occ v l)) ∧
  r `sublist_of` l ∧ occ v r = (occ v l - n)%nat ∧
  List.filter (λ x, negb (bool_decide (x = v))) r = List.filter (λ x, negb (bool_decide (x = v))) l ∧
  (count < 0 → (reverse r, n) = lrem_front (Z.to_nat (- count)) v (reverse l)).
Proof.
  intros Hc. unfold in_i64, i64_min, i64_max in Hc. split_bool. unfold lrem_bytes.
  destruct (0 <? count) eqn:E1; split_bool.
  - pose proof (lrem_front_spec (Z.to_nat count) v l) as Hs. destruct (lrem_front _ v l) as [r n].
    rewrite (proj2 (Z.eqb_neq count 0)), Z.abs_eq by lia. destruct Hs as (? & ? & ? & ?).
    split_and!; try done. lia.
  - destruct (count <? 0) eqn:E2; split_bool.
    + rewrite wrap64_small by lia. pose proof (lrem_back_spec v l (Z.to_nat (- count)) 0 []) as Hb.
      rewrite app_nil_r, Nat.sub_0_r in Hb. rewrite Hb.
      pose proof (lrem_front_spec (Z.to_nat (- count)) v (reverse l)) as Hs.
      destruct (lrem_front _ v (reverse l)) as [r n]. destruct Hs as (Hn & Hsub & Ho & Hf).
      assert (Hrev : ∀ p (x : list bytes), List.filter p (reverse x) = reverse (List.filter p x)).
      { intros p x. induction x as [|y x IH]; [done|]. rewrite reverse_cons, List.filter_app, IH. simpl.
        destruct (p y); [by rewrite reverse_cons|by rewrite app_nil_r]. }
      assert (Hocc : ∀ x, occ v (reverse x) = occ v x).
      { intros x. unfold occ. by rewrite Hrev, length_reverse. }
      rewrite Hocc in Hn, Ho. rewrite (proj2 (Z.eqb_neq count 0)), Z.abs_neq by lia. simpl.
      rewrite app_nil_r. split_and!; [done| | | |].
      * rewrite <- (reverse_involutive l). by apply reverse_sublist.
      * by rewrite Hocc.
      * rewrite Hrev, Hf, Hrev. apply reverse_involutive.
      * intros _. by rewrite reverse_involutive.
    + assert (count = 0) as -> by lia. simpl.
      assert (Hl : (length (List.filter (λ x, negb (bool_decide (x = v))) l) + occ v l = length l)%nat).
      { clear. induction l as [|x l IH]; [done|]. rewrite occ_cons. simpl.
        destruct (bool_decide (x = v)); simpl; lia. }
      assert (Hz : occ v (List.filter (λ x, negb (bool_decide (x = v))) l) = 0%nat).
      { clear. induction l as [|x l IH]; [done|]. simpl. destruct (bool_decide (x = v)) eqn:E; simpl; [done|].
        by rewrite occ_cons, E. }
      split_and!; [lia| |lia| |lia].
      * clear. induction l as [|x l IH]; simpl; [constructor|]. by destruct (negb _); constructor.
      * clear. induction l as [|x l IH]; simpl; [done|]. destruct (negb _) eqn:E; simpl; [|done]. by rewrite E, IH.
Qed.

(** ** LPOS *)

(** The indices at which a value occurs among indexed elements. *)
Definition matches (v : bytes) (l : list (nat * bytes)) : list nat :=
  (List.filter (λ p, bool_decide (p.2 = v)) l).*1.

(** [limit] zero means no limit. *)
Definition limit_to (limit : nat) (l : list nat) : list nat :=
  if (limit =? 0)%nat then l else take limit l.

Lemma lpos_scan_spec v skip count l : ∀ found results,
  (count = 0 ∨ length results < count)%nat →
  lpos_scan v skip found count results l =
    results ++ (if (count =? 0)%nat then drop (skip - found) (matches v l)
                else take (count - length results) (drop (skip - found) (matches v l))).
Proof.
  induction l as [|[i x] l IH]; intros found results Hc.
  { unfold matches. simpl. rewrite drop_nil, take_nil. case_goal; by rewrite app_nil_r. }
  cbn [lpos_scan]. unfold matches. simpl. destruct (bool_decide (x = v)); [|by apply IH].
  destruct (skip <=? found)%nat eqn:E; split_bool.
  - replace (skip - found)%nat with 0%nat by lia. rewrite fmap_cons. simpl.
    destruct ((0 <? count)%nat && (count <=? length (results ++ [i]))%nat) eqn:E2.
    + apply andb_true_iff in E2 as [E2 E3]. split_bool. rewrite length_app in E3. simpl in E3.
      rewrite (proj2 (Nat.eqb_neq count 0)) by lia. replace (count - length results)%nat with 1%nat by lia. done.
    + rewrite IH.
      2:{ destruct Hc as [->|Hc]; [by left|]. apply andb_false_iff in E2.
          rewrite Nat.ltb_ge, Nat.leb_gt in E2. lia. }
      replace (skip - S found)%nat with 0%nat by lia. rewrite !drop_0, <- app_assoc. simpl. f_equal.
      destruct (count =? 0)%nat eqn:E3; split_bool; [done|].
      destruct Hc as [->|Hc]; [done|]. rewrite length_app. simpl.
      destruct (count - length results)%nat as [|d] eqn:Ed; [lia|]. simpl. do 2 f_equal. lia.
  - rewrite IH by done. rewrite fmap_cons. by replace (skip - found)%nat with (S (skip - S found)) by lia.
Qed.

(** LPOS.  The reply lists the indices of the value among the first
    [maxlen] elements from the left, or from the right for a negative rank,
    without the first [|rank| - 1] of them, and at most [count]. *)
Theorem lpos_correct (v : bytes) (rank : Z) (count maxlen : nat) (l : list bytes) :
  in_i64 rank = true →
  lpos_bytes v rank count maxlen l =
    limit_to count
      (drop (Z.to_nat (Z.abs rank - 1))
        (matches v
          (let scanned := if (maxlen =? 0)%nat then length l else Nat.min maxlen (length l) in
           if 0 <=? rank then take scanned (enumerate l)
           else reverse (drop (length l - scanned)%nat (enumerate l))))).
Proof.
  intros Hr. unfold in_i64, i64_min, i64_max in Hr. split_bool. unfold lpos_bytes, limit_to.
  set (scanned := if (maxlen =? 0)%nat then _ else _).
  assert (Hs : (scanned <= length l)%nat) by (unfold scanned; case_goal; lia).
  destruct (0 <=? rank) eqn:E; split_bool; cbv zeta.
  - rewrite lpos_scan_spec by (simpl; lia). rewrite Z.abs_eq by lia. simpl. rewrite !Nat.sub_0_r.
    destruct (rank =? 0) eqn:E0; split_bool; [by subst rank|done].
  - rewrite lpos_scan_spec by (simpl; lia). rewrite Z.abs_neq by lia. simpl. rewrite !Nat.sub_0_r.
    rewrite wrap64_small by lia. destruct (scanned <? length l)%nat eqn:E1; split_bool; [done|].
    by replace (length l - scanned)%nat with 0%nat by lia.
Qed.

(** ** Witnesses *)

Lemma list_deque_witness :
  list_at demo_clock (B "src") (db (H0 := claims_laws toy_hash)
    (after toy_hash (H := canonical_order) 2 16 demo_run)) = Some [B "x"; B "y"] ∧
  (rpop (H := claims_kv toy_hash) demo_clock (B "src") 1
    (after toy_hash (H := canonical_order) 2 16 demo_run)).2 = Ok [B "y"].
Proof.
  assert (Hl : list_at demo_clock (B "src") (db (H0 := claims_laws toy_hash)
    (after toy_hash (H := canonical_order) 2 16 demo_run)) = Some [B "x"; B "y"])
    by (vm_compute; reflexivity).
  split; [exact Hl|].
  exact (proj2 (proj2 (proj2 (proj2 (list_deque (H := canonical_order) toy_hash 2 16 demo_run demo_clock (B "src")
    [B "x"; B "y"] [] 1 Hl))))).
Defined.

Lemma lrange_ltrim_correct_witness :
  llength [B "a"; B "b"; B "c"] < 2 ^ 63 ∧
  trim_bytes [B "a"; B "b"; B "c"] 1 (-1) = range_bytes [B "a"; B "b"; B "c"] 1 (-1).
Proof.
  split; [reflexivity|]. apply (lrange_ltrim_correct [B "a"; B "b"; B "c"] 1 (-1)). reflexivity.
Defined.

Lemma lrem_correct_witness :
  in_i64 (-1) = true ∧
  lrem_bytes (-1) (B "a") [B "a"; B "b"; B "a"] = ([B "a"; B "b"], 1%nat) ∧
  [B "a"; B "b"] `sublist_of` [B "a"; B "b"; B "a"].
Proof.
  split; [reflexivity|]. split; [vm_compute; reflexivity|].
  exact (proj1 (proj2 (lrem_correct (-1) (B "a") [B "a"; B "b"; B "a"] eq_refl))).
Defined.

Lemma lpos_correct_witness :
  in_i64 (-1) = true ∧
  lpos_bytes (B "a") (-1) 1 0 [B "a"; B "b"; B "a"] =
    limit_to 1 (drop 0 (matches (B "a") (reverse (drop 0 (enumerate [B "a"; B "b"; B "a"]))))).
Proof.
  split; [reflexivity|]. exact (lpos_correct (B "a") (-1) 1 0 [B "a"; B "b"; B "a"] eq_refl).
Defined.
