(* ===== verification/SetSpec.v ===== *)
(** Set commands as operations on finite sets.  Every set a run of commands
    stores is well formed, so the algebra commands compute unions,
    intersections and differences. *)

From S2P Require Import Prelude Decimal MapIface Shard CustomMap CustomMapSpec Collections CollectionsSpec.
From S2P Require Import Value Store StoreSpec ListOps HashOps SetOps Commands StoreClaims.
From S2P Require Import Float ZSet ZSetSpec ZSetOps.
Local Open Scope Z_scope.

(** ** Stored sets and sorted sets are well formed *)

Definition value_ok (v : FyroDB) : Prop :=
  match v with VSet s => set_wf s | VZSet z => zmap_ok z | _ => True end.
Definition sets_ok (g : gmap bytes StoreValue) : Prop := ∀ k v, g !! k = Some v → value_ok (value v).

(** A closure that keeps sets well formed. *)
Definition keeps_ok {R} (f : StoreValue → StoreValue * R) : Prop :=
  ∀ v, value_ok (value v) → value_ok (value (f v).1).

Lemma sets_ok_insert g k v : sets_ok g → value_ok (value v) → sets_ok (<[k := v]> g).
Proof. intros Hg Hv k' v' [[-> <-]|[_ Hk]]%lookup_insert_Some; [done|by eapply Hg]. Qed.

Lemma sets_ok_delete g k : sets_ok g → sets_ok (delete k g).
Proof. intros Hg k' v' [_ Hk]%lookup_delete_Some. by eapply Hg. Qed.

#[export] Hint Resolve sets_ok_insert sets_ok_delete : fyro.

Lemma sets_ok_upd g k {R} (f : StoreValue → StoreValue * R) : sets_ok g → keeps_ok f → sets_ok (upd g k f).
Proof.
  intros Hg Hf. unfold upd. destruct (g !! k) as [v|] eqn:E; [|done].
  apply sets_ok_insert; [done|]. apply Hf. by eapply Hg.
Qed.

Lemma size_add_new (X : gset bytes) m : m ∉ X → size ({[m]} ∪ X) = S (size X).
Proof. intros Hm. rewrite size_union by set_solver. by rewrite size_singleton. Qed.

Section Closures.
Context `{HashOrder} (c : Clock).

Lemma list_update_keeps {R} oe (ol : list bytes → list bytes * result R) :
  keeps_ok oe → keeps_ok (list_update c oe ol).
Proof.
  intros Ho v Hv. unfold list_update. destruct (is_expired c v); [by apply Ho|].
  destruct (value v) as [| |l| | | |] eqn:E; simpl; rewrite ?E; try done.
  by destruct (ol (deque l)).
Qed.

Lemma hash_update_keeps {R} oe (oh : HashInner → HashInner * result R) :
  keeps_ok oe → keeps_ok (hash_update c oe oh).
Proof.
  intros Ho v Hv. unfold hash_update. destruct (is_expired c v); [by apply Ho|].
  destruct (value v) as [|h| | | | |] eqn:E; simpl; rewrite ?E; try done. by destruct (oh h).
Qed.

Lemma set_update_keeps {R} oe (os : SetInner → SetInner * result R) :
  keeps_ok oe → (∀ s, set_wf s → set_wf (os s).1) → keeps_ok (set_update c oe os).
Proof.
  intros Ho Hs v Hv. unfold set_update. destruct (is_expired c v); [by apply Ho|].
  destruct (value v) as [| | |s| | |] eqn:E; simpl; rewrite ?E; try done.
  specialize (Hs s Hv). by destruct (os s).
Qed.

Lemma zset_update_keeps {R} oe (oz : ZSetData → ZSetData * result R) :
  keeps_ok oe → (∀ z, zmap_ok z → zmap_ok (oz z).1) → keeps_ok (zset_update c oe oz).
Proof.
  intros Ho Hz v Hv. unfold zset_update. destruct (is_expired c v); [by apply Ho|].
  destruct (value v) as [| | | |z| |] eqn:E; simpl; rewrite ?E; try done.
  specialize (Hz z Hv). by destruct (oz z).
Qed.

Lemma int_update_keeps p d : keeps_ok (int_update p d).
Proof. intros v Hv. unfold int_update. by repeat case_goal. Qed.

Lemma set_new_wf : set_wf SetInner_new.
Proof. by repeat constructor. Qed.

(** Inserting, respectively removing, members one by one. *)
Lemma count_insert_spec ms n s :
  set_wf s →
  set_wf (count_members set_insert ms n s).1 ∧
  set_abs (count_members set_insert ms n s).1 = list_to_set ms ∪ set_abs s ∧
  (count_members set_insert ms n s).2 = n + Z.of_nat (size (list_to_set ms ∖ set_abs s : gset bytes)).
Proof.
  revert n s. induction ms as [|m ms IH]; intros n s Hs; simpl.
  { split; [done|]. split; [set_solver|].
    replace (∅ ∖ set_abs s) with (∅ : gset bytes) by set_solver. by rewrite size_empty, Z.add_0_r. }
  destruct (set_insert_spec s m Hs) as (Hw & Ha & Hb). destruct (set_insert s m) as [s' b]. simpl in *.
  destruct (IH (if b then n + 1 else n) s' Hw) as (? & Ha' & Hn). split; [done|]. split; [rewrite Ha', Ha; set_solver|].
  rewrite Hn, Ha. destruct (decide (m ∈ set_abs s)) as [Hin|Hin]; subst b.
  - rewrite bool_decide_eq_false_2 by set_solver.
    replace (list_to_set ms ∖ ({[m]} ∪ set_abs s)) with (({[m]} ∪ list_to_set ms) ∖ set_abs s : gset bytes)
      by set_solver. done.
  - rewrite bool_decide_eq_true_2 by done.
    replace (({[m]} ∪ list_to_set ms) ∖ set_abs s)
      with ({[m]} ∪ (list_to_set ms ∖ ({[m]} ∪ set_abs s)) : gset bytes).
    + rewrite size_add_new by set_solver. lia.
    + apply set_eq. intros x. destruct (decide (x = m)); set_solver.
Qed.

Lemma count_remove_spec ms n s :
  set_wf s →
  set_wf (count_members set_remove ms n s).1 ∧
  set_abs (count_members set_remove ms n s).1 = set_abs s ∖ list_to_set ms ∧
  (count_members set_remove ms n s).2 = n + Z.of_nat (size (list_to_set ms ∩ set_abs s : gset bytes)).
Proof.
  revert n s. induction ms as [|m ms IH]; intros n s Hs; simpl.
  { split; [done|]. split; [set_solver|].
    replace (∅ ∩ set_abs s) with (∅ : gset bytes) by set_solver. by rewrite size_empty, Z.add_0_r. }
  destruct (set_remove_spec s m Hs) as (Hw & Ha & Hb). destruct (set_remove s m) as [s' b]. simpl in *.
  destruct (IH (if b then n + 1 else n) s' Hw) as (? & Ha' & Hn). split; [done|]. split; [rewrite Ha', Ha; set_solver|].
  rewrite Hn, Ha. destruct (decide (m ∈ set_abs s)) as [Hin|Hin]; subst b.
  - rewrite bool_decide_eq_true_2 by done.
    replace (({[m]} ∪ list_to_set ms) ∩ set_abs s)
      with ({[m]} ∪ (list_to_set ms ∩ (set_abs s ∖ {[m]})) : gset bytes).
    + rewrite size_add_new by set_solver. lia.
    + apply set_eq. intros x. destruct (decide (x = m)); set_solver.
  - rewrite bool_decide_eq_false_2 by done.
    replace (list_to_set ms ∩ (set_abs s ∖ {[m]})) with (({[m]} ∪ list_to_set ms) ∩ set_abs s : gset bytes);
      [done|]. apply set_eq. intros x. destruct (decide (x = m)); set_solver.
Qed.

Lemma spop_loop_wf n s out : set_wf s → set_wf (spop_loop n s out).1.
Proof.
  revert s out. induction n as [|n IH]; intros s out Hs; simpl; [done|].
  destruct (head (set_strings s)); apply IH; [|done]. by apply set_remove_spec.
Qed.

Lemma foldl_keeps {A} (f : ZSetData → A → ZSetData) l z :
  (∀ z x, zmap_ok z → zmap_ok (f z x)) → zmap_ok z → zmap_ok (foldl f z l).
Proof. intros Hf. revert z. induction l as [|x l IH]; intros z Hz; simpl; auto. Qed.

Lemma insert_all_keeps ms z : zmap_ok z → zmap_ok (insert_all ms z).
Proof. apply foldl_keeps. intros z' p Hz. by apply zset_insert_map. Qed.

Lemma zadd_step_keeps fl ms z a b : zmap_ok z → zmap_ok (foldl (zadd_step fl) (z, a, b) ms).1.1.
Proof.
  revert z a b. induction ms as [|[sc m] ms IH]; intros z a b Hz; [done|]. cbn [foldl zadd_step].
  destruct (zset_insert_map z sc m Hz) as (Hz' & _). destruct (zset_insert z sc m) as [z' fr].
  simpl in *. repeat case_goal; by apply IH.
Qed.

Lemma zrem_all_keeps ms n z : zmap_ok z → zmap_ok (zrem_all ms n z).1.
Proof.
  revert n z. induction ms as [|m ms IH]; intros n z Hz; simpl; [done|].
  destruct (zset_remove_map z m Hz) as (Hz' & _). destruct (zset_remove z m). by apply IH.
Qed.

Lemma zpops_keeps pop n z out :
  (∀ z, zmap_ok z → zmap_ok (pop z).1) → zmap_ok z → zmap_ok (zpops pop n z out).1.
Proof.
  intros Hp. revert z out. induction n as [|n IH]; intros z out Hz; simpl; [done|].
  pose proof (Hp z Hz). destruct (pop z). by apply IH.
Qed.

Lemma StoreValue_set_ok g : value_ok (value (StoreValue_set g)).
Proof. apply set_from_strings_spec. Qed.
End Closures.

(** ** Every command keeps stored sets well formed *)

Section Runs.
Context {M : Type} `{KVMapLaws StoreValue M} `{HashOrder}.
Implicit Types (st : Store M) (k : bytes).

Lemma update_or_sets {R} k (f : StoreValue → StoreValue * result R) r0 st :
  store_wf st → sets_ok (db st) → keeps_ok f → sets_ok (db (with_err (update_or k f r0 st)).1).
Proof.
  intros Hw Hg Hf. destruct (update_or_spec k f r0 st Hw) as (_ & Hd & _). simpl. rewrite Hd.
  by apply sets_ok_upd.
Qed.

Lemma update_or_insert_sets {R} k (f : StoreValue → StoreValue * result R) fresh r0 st :
  store_wf st → sets_ok (db st) → keeps_ok f → value_ok (value fresh) →
  sets_ok (db (with_err (update_or_insert k f fresh r0 st)).1).
Proof.
  intros Hw Hg Hf Hv. destruct (update_or_insert_spec k f fresh r0 st Hw) as (_ & Hd & _). simpl. rewrite Hd.
  apply sets_ok_insert; [done|]. destruct (db st !! k) as [v|] eqn:E; [|done]. apply Hf. by eapply Hg.
Qed.

Lemma update_with_sets {R} k (f : StoreValue → StoreValue * R) st :
  store_wf st → sets_ok (db st) → keeps_ok f → sets_ok (db (update_with k f st).1).
Proof.
  intros Hw Hg Hf. destruct (update_with_spec k f st Hw) as (_ & -> & _). by apply sets_ok_upd.
Qed.

Lemma int_op_sets k n st : store_wf st → sets_ok (db st) → sets_ok (db (with_err (int_op k n st)).1).
Proof.
  intros Hw Hg. destruct (int_op_spec k n st Hw) as (_ & _ & Hd & _). simpl. rewrite Hd.
  apply sets_ok_insert; [done|]. destruct (db st !! k) as [v|] eqn:E; [|done].
  apply int_update_keeps. by eapply Hg.
Qed.

Lemma try_update_sets {R} k (f : StoreValue → option (StoreValue * R)) st :
  store_wf st → sets_ok (db st) → (∀ v v' r, f v = Some (v', r) → value_ok (value v) → value_ok (value v')) →
  sets_ok (db (with_data st (kv_try_update k f (data st)).1)).
Proof.
  intros Hw Hg Hf. destruct (kv_try_update_spec (data st) k f Hw) as (_ & Hd & _). unfold db in *. simpl.
  rewrite Hd. destruct (kv_abs (data st) !! k) as [v|] eqn:E; simpl; [|done].
  destruct (f v) as [[v' r]|] eqn:Ef; [|done]. apply sets_ok_insert; [done|].
  eapply Hf; [done|]. by eapply Hg.
Qed.

Lemma put_sets k v st : store_wf st → sets_ok (db st) → value_ok (value v) → sets_ok (db (put k v st)).
Proof. intros Hw Hg Hv. destruct (put_spec k v st Hw) as (_ & -> & _). by apply sets_ok_insert. Qed.

Lemma getset_sets c k v st : store_wf st → sets_ok (db st) → sets_ok (db (getset c k v st).1).
Proof.
  intros Hw Hg. unfold getset. set (f := λ _, _).
  destruct (try_update_step k f st Hw) as (Hw' & _); [unfold f; intros; simplify_eq; by left|].
  pose proof (try_update_sets k f st Hw Hg) as Hs. destruct (kv_try_update k f (data st)) as [m r]. simpl in *.
  assert (sets_ok (db (with_data st m))) by (apply Hs; unfold f; intros; by simplify_eq).
  destruct r; [done|]. by apply put_sets.
Qed.

Lemma setnx_sets c k v st : store_wf st → sets_ok (db st) → sets_ok (db (setnx c k v st).1).
Proof.
  intros Hw Hg. unfold setnx. set (f := λ cur, _).
  assert (Hf : ∀ x v' r, f x = Some (v', r) →
    (expires_ms v' = 0 ∨ expires_ms v' = expires_ms x) ∧ (value_ok (value x) → value_ok (value v'))).
  { unfold f. intros x v' r. destruct (is_expired c x); intros; simplify_eq; (split; [by auto|done]). }
  destruct (try_update_step k f st Hw) as (Hw' & _); [by intros; eapply Hf|].
  pose proof (try_update_sets k f st Hw Hg) as Hs. destruct (kv_try_update k f (data st)) as [m r]. simpl in *.
  assert (Hm : sets_ok (db (with_data st m))) by (apply Hs; intros; by eapply Hf).
  destruct r as [b|]; [done|]. destruct (put_absent_spec k (StoreValue_string v) _ Hw') as (_ & Hd & _).
  simpl in Hd. destruct (kv_insert_if_absent k _ m) as [m' b]. simpl in *.
  change (db (with_data (with_data st m) m')) with (db (with_data st m')) in Hd. rewrite Hd.
  case_goal; [done|by apply sets_ok_insert].
Qed.

Lemma hincrby_sets c k f n st : store_wf st → sets_ok (db st) → sets_ok (db (hincrby c k f n st).1).
Proof.
  intros Hw Hg. unfold hincrby. cbn [hincrby_loop]. set (uf := hash_update c _ _).
  assert (Hu : keeps_ok uf) by (apply hash_update_keeps; by intros ?).
  pose proof (update_with_sets k uf st Hw Hg Hu) as Hs.
  destruct (update_with_spec k uf st Hw) as (Hw' & Hd & _ & Hr).
  destruct (update_with k uf st) as [st' r]. simpl in *. destruct r as [r|]; [done|].
  destruct (put_absent_spec k (StoreValue_hash {[ f := i64_to_string n ]}) st' Hw') as (_ & Hd2 & _ & Hb).
  destruct (kv_insert_if_absent k _ (data st')) as [m ok]. simpl in *. unfold upd in Hd.
  destruct (db st !! k) eqn:E; [done|]. rewrite Hd, E in *. subst ok. simpl. rewrite Hd2. by apply sets_ok_insert.
Qed.
Lemma db_ttl (b : bool) (f : Store M → Store M) st : (∀ s, data (f s) = data s) → db (if b then f st else st) = db st.
Proof. intros Hf. unfold db. destruct b; [by rewrite Hf|done]. Qed.

(** A step that only changes expiries, then the counters. *)
Lemma retime_sets {R} k (f : StoreValue → StoreValue * R) (adjust : option R → Store M → Store M) st :
  store_wf st → sets_ok (db st) → (∀ v, value (f v).1 = value v) → (∀ r s, data (adjust r s) = data s) →
  sets_ok (db (let '(st', r) := update_with k f st in adjust r st')).
Proof.
  intros Hw Hg Hf Ha. pose proof (update_with_sets k f st Hw Hg) as Hs.
  destruct (update_with k f st) as [st' r]. simpl in *. unfold db in *. rewrite Ha.
  apply Hs. intros v Hv. by rewrite Hf.
Qed.

Lemma getex_sets c k exp st : store_wf st → sets_ok (db st) → sets_ok (db (getex_ms c k exp st).1).
Proof.
  intros Hw Hg. unfold getex_ms. set (f := λ v, _).
  pose proof (retime_sets k f (λ r s, match r with
    | Some (_, change) => if change =? 1 then add_ttl s else if change =? -1 then sub_ttl s else s
    | None => s end) st Hw Hg) as Hs.
  destruct (update_with k f st) as [st' r]. destruct r as [[? ?]|]; apply Hs; unfold f; intros;
    repeat case_goal; done.
Qed.

Lemma expire_to_sets c k t st :
  store_wf st → sets_ok (db st) →
  sets_ok (db (let '(st, r) := update_with k (λ v,
    if is_expired c v then (v, false) else (mkValue (value v) t, expires_ms v =? 0)) st in
   let ok := default false r in (bump_if ok st, ok)).1).
Proof.
  intros Hw Hg. set (f := λ v, _). pose proof (retime_sets k f (λ r, bump_if (default false r)) st Hw Hg) as Hs.
  destruct (update_with k f st) as [st' r]. apply Hs.
  - intros v. unfold f. by case_goal.
  - intros [[]|] s; done.
Qed.

Lemma persist_sets c k st : store_wf st → sets_ok (db st) → sets_ok (db (persist c k st).1).
Proof.
  intros Hw Hg. unfold persist. set (f := λ v, _).
  pose proof (retime_sets k f (λ r s, if default false r then sub_ttl s else s) st Hw Hg) as Hs.
  destruct (update_with k f st) as [st' r]. apply Hs.
  - intros v. unfold f. by repeat case_goal.
  - intros [[]|] s; done.
Qed.

(** Steps whose effect on the store is a short list of deletions and insertions. *)
Lemma move_sets c (o : Cmd) st :
  match o with CGet _ | CGetDel _ | CDel _ | CRename _ _ | CRenameNx _ _ | CCleanup | CFlush => True | _ => False end →
  store_wf st → sets_ok (db st) → sets_ok (db (exec c o st).1).
Proof.
  intros Ho Hw Hg. destruct o; try done; cbn [exec no_err fst].
  - destruct (store_get_spec c k st Hw) as (_ & _ & _ & ->). repeat case_goal; auto with fyro.
  - destruct (remove_spec k st Hw) as (_ & Hd & _). unfold getdel.
    destruct (kv_remove k (data st)). simpl in *. rewrite Hd. by apply sets_ok_delete.
  - destruct (del_spec k st Hw) as (_ & -> & _). by apply sets_ok_delete.
  - destruct (decide (old = new)) as [->|Hne]; [unfold rename; by rewrite bool_decide_eq_true_2|].
    destruct (rename_spec c old new st Hw Hne) as (_ & _ & _ & ->).
    repeat case_goal; auto with fyro. apply sets_ok_insert; [by apply sets_ok_delete|by eapply Hg].
  - destruct (decide (old = new)) as [->|Hne]; [unfold renamenx; by rewrite bool_decide_eq_true_2|].
    destruct (renamenx_spec c old new st Hw Hne) as (_ & _ & _ & ->).
    repeat case_goal; auto with fyro. apply sets_ok_insert; [by apply sets_ok_delete|by eapply Hg].
  - destruct (cleanup_expired_spec c st Hw) as (_ & -> & _).
    intros k v [Hk _]%map_lookup_filter_Some. by eapply Hg.
  - destruct (kv_clear_spec (data st) Hw) as (_ & Hd & _). unfold db. simpl. rewrite Hd. by intros ? ? ?%lookup_empty_Some.
Qed.

Lemma set_cmd_sets c o st :
  match o with CSAdd _ _ | CSRem _ _ | CSPop _ _ | CSUnionStore _ _ | CSInterStore _ _ | CSDiffStore _ _ => True
  | _ => False end →
  store_wf st → sets_ok (db st) → sets_ok (db (exec c o st).1).
Proof.
  intros Ho Hw Hg. destruct o; try done; cbn [exec].
  - unfold sadd. pose proof (count_insert_spec ms 0 _ set_new_wf) as (Hf & _).
    destruct (count_members set_insert ms 0 SetInner_new) as [fresh n]. apply update_or_insert_sets; [done|done| |done].
    apply set_update_keeps; [by intros ? ?|]. intros s Hs. pose proof (count_insert_spec ms 0 s Hs) as (? & _).
    by destruct (count_members set_insert ms 0 s).
  - apply update_or_sets; [done|done|]. apply set_update_keeps; [by intros ? ?|]. intros s Hs.
    pose proof (count_remove_spec ms 0 s Hs) as (? & _). by destruct (count_members set_remove ms 0 s).
  - apply update_or_sets; [done|done|]. apply set_update_keeps; [by intros ? ?|]. intros s Hs.
    pose proof (spop_loop_wf (Nat.min n (set_len s)) s [] Hs). by destruct (spop_loop _ s []).
  - unfold sunionstore, store_members. destruct (sunion c ks st); [|done]. by apply put_sets, StoreValue_set_ok.
  - unfold sinterstore, store_members. destruct (sinter c ks st); [|done]. by apply put_sets, StoreValue_set_ok.
  - unfold sdiffstore, store_members. destruct (sdiff c ks st); [|done]. by apply put_sets, StoreValue_set_ok.
Qed.

Lemma zadd_sets c k ms fl st : store_wf st → sets_ok (db st) → sets_ok (db (zadd c k ms fl st).1).
Proof.
  intros Hw Hg. unfold zadd. set (f := zset_update c _ _).
  assert (Hf : keeps_ok f).
  { apply zset_update_keeps; [|intros z Hz; pose proof (zadd_step_keeps fl ms z 0 0 Hz); by repeat case_goal].
    intros v _. case_goal; simpl; [apply zmap_new|apply insert_all_keeps, zmap_new]. }
  pose proof (update_with_sets k f st Hw Hg Hf) as Hs. destruct (update_with_spec k f st Hw) as (Hw' & _).
  destruct (update_with k f st) as [st' [r|]]; [done|]. destruct (xx fl); [done|].
  apply put_sets; [done|done|]. apply insert_all_keeps, zmap_new.
Qed.

Lemma union_entry_keeps a w l z : zmap_ok z → zmap_ok (foldl (union_entry a w) z l).
Proof. apply foldl_keeps. intros z' e Hz. by apply zset_insert_map. Qed.

Lemma zunion_loop_keeps c a ws i ks acc st z :
  zmap_ok acc → zunion_loop c a ws i ks acc st = Ok z → zmap_ok z.
Proof.
  revert i acc. induction ks as [|k ks IH]; intros i acc Ha; simpl; [by intros [= <-]|].
  destruct (live_zset c k st) as [[y|]|e]; [apply IH, union_entry_keeps, Ha|by apply IH|done].
Qed.

Lemma inter_with_keeps a w other acc : zmap_ok (inter_with a w other acc).
Proof.
  apply foldl_keeps; [|apply zmap_new]. intros z e Hz. destruct (get_score other (member e)); [|done].
  by apply zset_insert_map.
Qed.

Lemma zinter_loop_keeps c a ws i ks acc st z :
  zmap_ok acc → zinter_loop c a ws i ks acc st = Ok (Some z) → zmap_ok z.
Proof.
  revert i acc. induction ks as [|k ks IH]; intros i acc Ha; simpl; [by intros [= <-]|].
  destruct (live_zset c k st) as [[y|]|e]; [apply IH, inter_with_keeps|done|done].
Qed.

Lemma zinter_all_keeps c ks ws a st z : zinter_all c ks ws a st = Ok (Some z) → zmap_ok z.
Proof.
  unfold zinter_all. destruct ks as [|k ks]; [done|]. destruct (live_zset c k st) as [[y|]|e]; try done.
  apply zinter_loop_keeps. apply foldl_keeps; [|apply zmap_new]. intros z' e Hz. by apply zset_insert_map.
Qed.

Lemma zset_cmd_sets c o st :
  match o with CZAdd _ _ _ | CZRem _ _ | CZIncrBy _ _ _ | CZPopMin _ _ | CZPopMax _ _ | CZUnionStore _ _ _ _
  | CZInterStore _ _ _ _ | CZDiffStore _ _ => True | _ => False end →
  store_wf st → sets_ok (db st) → sets_ok (db (exec c o st).1).
Proof.
  intros Ho Hw Hg. destruct o; try done; cbn [exec].
  - by apply zadd_sets.
  - apply update_or_sets; [done|done|]. apply zset_update_keeps; [by intros ? ?|]. intros z Hz.
    pose proof (zrem_all_keeps ms 0 z Hz). by destruct (zrem_all ms 0 z).
  - apply update_or_insert_sets; [done|done| |apply zset_insert_map, zmap_new].
    apply zset_update_keeps; [intros ? ?; apply zset_insert_map, zmap_new|]. intros z Hz.
    destruct (zset_incr_map z m increment Hz) as (? & _). by destruct (zset_incr z m increment).
  - apply update_or_sets; [done|done|]. apply zset_update_keeps; [by intros ? ?|]. intros z Hz.
    pose proof (zpops_keeps _ (Nat.min n (zset_len z)) z [] pop_min_map Hz). by destruct (zpops _ _ z []).
  - apply update_or_sets; [done|done|]. apply zset_update_keeps; [by intros ? ?|]. intros z Hz.
    pose proof (zpops_keeps _ (Nat.min n (zset_len z)) z [] pop_max_map Hz). by destruct (zpops _ _ z []).
  - unfold zunionstore. destruct (zunion_loop _ _ _ _ _ _ _) as [z|] eqn:E; [|done].
    apply put_sets; [done|done|]. eapply zunion_loop_keeps; [|exact E]. apply zmap_new.
  - unfold zinterstore. destruct (zinter_all _ _ _ _ _) as [[z|]|] eqn:E; [| |done].
    + apply put_sets; [done|done|]. by eapply zinter_all_keeps.
    + apply put_sets; [done|done|]. apply zmap_new.
  - unfold zdiffstore. destruct (zdiff c ks st) as [items|]; [|done]. apply put_sets; [done|done|].
    apply foldl_keeps; [|apply zmap_new]. intros z p Hz. by apply zset_insert_map.
Qed.

Lemma exec_sets c o st : store_wf st → sets_ok (db st) → sets_ok (db (exec c o st).1).
Proof.
  intros Hw Hg. destruct o; try (by apply move_sets); try (by apply set_cmd_sets); try (by apply zset_cmd_sets);
    cbn [exec no_err fst];
    auto using getset_sets, setnx_sets, hincrby_sets, int_op_sets, getex_sets, persist_sets, expire_to_sets;
    try (apply update_or_sets; [done|done|]); try (apply update_or_insert_sets; [done|done| |done]);
    try (apply list_update_keeps; by intros ? ?); try (apply hash_update_keeps; by intros ? ?).
  - destruct (set_string_spec k v exp st Hw) as (_ & -> & _). by apply sets_ok_insert.
  - intros v Hv. destruct (is_expired c v); [done|]. destruct (value v) eqn:E; simpl; by rewrite ?E.
  - unfold decrby. destruct (checked_neg_i64 n); [by apply int_op_sets|done].
  - by apply expire_to_sets.
  - by apply expire_to_sets.
  - by apply hincrby_sets.
Qed.

Lemma run_cmds_sets l st :
  store_wf st → sets_ok (db st) → sets_ok (db (run_cmds l st)).
Proof.
  revert st. induction l as [|[c o] l IH]; intros st Hw Hg; [done|].
  destruct (exec_ok c o st Hw) as [Hw' _ _ _ _ _]. apply IH; [done|by apply exec_sets].
Qed.
End Runs.

(** ** The set a key stands for *)

Definition set_at (c : Clock) (k : bytes) (g : gmap bytes StoreValue) : gset bytes :=
  match g !! k with
  | Some v => if is_expired c v then ∅ else match value v with VSet s => set_abs s | _ => ∅ end
  | None => ∅
  end.

(** The key is missing, expired or a set. *)
Definition set_or_missing (c : Clock) (g : gmap bytes StoreValue) (k : bytes) : bool :=
  match g !! k with
  | Some v => is_expired c v || match value v with VSet _ => true | _ => false end
  | None => true
  end.

Section Algebra.
Context {M : Type} `{KVMapLaws StoreValue M} `{HashOrder} (c : Clock).
Implicit Types (st : Store M) (k : bytes) (acc : gset bytes).

Lemma live_set_spec k st :
  store_wf st → sets_ok (db st) → set_or_missing c (db st) k = true →
  match live_set c k st with
  | None => set_at c k (db st) = ∅
  | Some (Ok s) => set_wf s ∧ set_abs s = set_at c k (db st)
  | Some (Err _) => False
  end.
Proof.
  intros Hw Hg. unfold live_set, set_or_missing, set_at. rewrite read_live_spec by done. unfold live.
  destruct (db st !! k) as [v|] eqn:E; simpl; [|done]. destruct (is_expired c v); simpl; [done|].
  specialize (Hg k v E). destruct (value v); simpl in *; try done.
Qed.

Lemma set_strings_elem s m : set_wf s → m ∈ set_strings s ↔ m ∈ set_abs s.
Proof. intros Hs. rewrite (set_strings_spec s Hs). apply elem_of_elements. Qed.

Lemma set_order_elem acc m : m ∈ set_order acc ↔ m ∈ acc.
Proof. rewrite (set_order_perm acc). apply elem_of_elements. Qed.

Lemma retain_members_elem acc p m : m ∈ retain_members acc p ↔ m ∈ acc ∧ p m = true.
Proof.
  unfold retain_members. rewrite elem_of_list_to_set, list_elem_of_In, filter_In, <- list_elem_of_In.
  by rewrite set_order_elem.
Qed.

Lemma collect_elem acc l :
  collect (Ok acc) = Ok l → NoDup l ∧ ∀ m, m ∈ l ↔ m ∈ acc.
Proof.
  intros [= <-]. split; [rewrite (set_order_perm acc); apply NoDup_elements|]. intros m. apply set_order_elem.
Qed.

Lemma sunion_loop_spec keys acc st :
  store_wf st → sets_ok (db st) → forallb (set_or_missing c (db st)) keys = true →
  ∃ g, sunion_loop c keys acc st = Ok g ∧
    ∀ m, m ∈ g ↔ m ∈ acc ∨ ∃ k, k ∈ keys ∧ m ∈ set_at c k (db st).
Proof.
  intros Hw Hg. revert acc. induction keys as [|k keys IH]; intros acc; simpl.
  { intros _. exists acc. split; [done|]. set_solver. }
  intros [Hk Hks]%andb_true_iff. pose proof (live_set_spec k st Hw Hg Hk) as Hl.
  destruct (live_set c k st) as [[s|e]|]; [|done|].
  - destruct Hl as [Hs Ha]. destruct (IH (list_to_set (set_strings s) ∪ acc) Hks) as (g & -> & Hm). exists g.
    split; [done|]. intros m. rewrite Hm, elem_of_union, elem_of_list_to_set, set_strings_elem, Ha by done.
    set_solver.
  - destruct (IH acc Hks) as (g & -> & Hm). exists g. split; [done|]. intros m. rewrite Hm. set_solver.
Qed.

Lemma sinter_loop_spec keys acc st :
  store_wf st → sets_ok (db st) → forallb (set_or_missing c (db st)) keys = true →
  ∃ g, sinter_loop c keys acc st = Ok g ∧
    ∀ m, m ∈ g ↔ m ∈ acc ∧ ∀ k, k ∈ keys → m ∈ set_at c k (db st).
Proof.
  intros Hw Hg. revert acc. induction keys as [|k keys IH]; intros acc; simpl.
  { intros _. exists acc. split; [done|]. set_solver. }
  intros [Hk Hks]%andb_true_iff. pose proof (live_set_spec k st Hw Hg Hk) as Hl.
  destruct (live_set c k st) as [[s|e]|]; [|done|].
  - destruct Hl as [Hs Ha].
    assert (Hr : ∀ m, m ∈ retain_members acc (set_contains s) ↔ m ∈ acc ∧ m ∈ set_at c k (db st)).
    { intros m. rewrite retain_members_elem, set_contains_spec, bool_decide_eq_true, Ha by done. done. }
    destruct (size _ =? 0)%nat eqn:E; split_bool.
    + apply size_empty_inv in E. exists (retain_members acc (set_contains s)). split; [done|].
      intros m. split; [|intros [? ?]; apply Hr; set_solver]. intros Hin. exfalso. set_solver.
    + destruct (IH (retain_members acc (set_contains s)) Hks) as (g & -> & Hm). exists g. split; [done|].
      intros m. rewrite Hm, Hr. set_solver.
  - exists ∅. split; [done|]. set_solver.
Qed.

Lemma sdiff_loop_spec keys acc st :
  store_wf st → sets_ok (db st) → forallb (set_or_missing c (db st)) keys = true →
  ∃ g, sdiff_loop c keys acc st = Ok g ∧
    ∀ m, m ∈ g ↔ m ∈ acc ∧ ∀ k, k ∈ keys → m ∉ set_at c k (db st).
Proof.
  intros Hw Hg. revert acc. induction keys as [|k keys IH]; intros acc; simpl.
  { intros _. exists acc. split; [done|]. set_solver. }
  intros [Hk Hks]%andb_true_iff. pose proof (live_set_spec k st Hw Hg Hk) as Hl.
  destruct (live_set c k st) as [[s|e]|]; [|done|].
  - destruct Hl as [Hs Ha].
    destruct (IH (retain_members acc (λ m, negb (set_contains s m))) Hks) as (g & -> & Hm). exists g. split; [done|].
    intros m. rewrite Hm, retain_members_elem, set_contains_spec, negb_true_iff, bool_decide_eq_false, Ha by done.
    set_solver.
  - destruct (IH acc Hks) as (g & -> & Hm). exists g. split; [done|]. intros m. rewrite Hm. set_solver.
Qed.
End Algebra.

(** ** SADD, SREM, SISMEMBER and SCARD on one key *)

Section OneKey.
Context {M : Type} `{KVMapLaws StoreValue M} `{HashOrder} (c : Clock).
Implicit Types (st : Store M) (k : bytes).

Lemma set_at_insert k v g :
  set_at c k (<[k := v]> g) = if is_expired c v then ∅ else match value v with VSet s => set_abs s | _ => ∅ end.
Proof. unfold set_at. by rewrite lookup_insert_eq. Qed.

Lemma sadd_spec k ms st :
  store_wf st → sets_ok (db st) → set_or_missing c (db st) k = true →
  set_at c k (db (sadd c k ms st).1) = list_to_set ms ∪ set_at c k (db st) ∧
  (sadd c k ms st).2 = Ok (Z.of_nat (size (list_to_set ms ∖ set_at c k (db st) : gset bytes))).
Proof.
  intros Hw Hg Hk. unfold sadd. pose proof (count_insert_spec ms 0 _ set_new_wf) as (_ & Ha & Hn).
  destruct (count_members set_insert ms 0 SetInner_new) as [fresh n]. cbn [fst snd] in Ha, Hn.
  change (set_abs SetInner_new) with (∅ : gset bytes) in *. rewrite Z.add_0_l in Hn. set (f := set_update c _ _).
  destruct (update_or_insert_spec k f (mkValue (VSet fresh) 0) (Ok n) st Hw) as (_ & -> & _ & ->).
  rewrite set_at_insert. unfold f. clear f.
  unfold set_or_missing in Hk. unfold set_at. destruct (db st !! k) as [v|] eqn:E; [|by rewrite Hn].
  unfold set_update. destruct (is_expired c v) eqn:Ex; [by rewrite Hn|]. specialize (Hg k v E).
  destruct (value v) as [| | |s| | |]; try done. simpl in *.
  destruct (count_insert_spec ms 0 s Hg) as (_ & Ha' & Hn'). destruct (count_members set_insert ms 0 s) as [s' a].
  simpl in *. change (is_expired c (mkValue (VSet s') (expires_ms v))) with (is_expired c v). by rewrite Ex, Hn'.
Qed.

Lemma srem_spec k ms st :
  store_wf st → sets_ok (db st) → set_or_missing c (db st) k = true →
  set_at c k (db (srem c k ms st).1) = set_at c k (db st) ∖ list_to_set ms ∧
  (srem c k ms st).2 = Ok (Z.of_nat (size (list_to_set ms ∩ set_at c k (db st) : gset bytes))).
Proof.
  intros Hw Hg Hk. unfold srem. set (f := set_update c _ _).
  destruct (update_or_spec k f (Ok 0) st Hw) as (_ & -> & _ & ->). unfold set_or_missing in Hk.
  assert (Hz : ∀ X : gset bytes, size (X ∩ ∅) = 0%nat) by (intros X; apply size_empty_iff; set_solver).
  unfold upd. destruct (db st !! k) as [v|] eqn:E.
  2:{ unfold set_at. rewrite E, Hz. split; [set_solver|done]. }
  rewrite set_at_insert. unfold f, set_update, set_at. rewrite E. destruct (is_expired c v) eqn:Ex.
  { simpl. rewrite Ex, Hz. split; [set_solver|done]. }
  specialize (Hg k v E). destruct (value v) as [| | |s| | |]; try done. simpl in *.
  destruct (count_remove_spec ms 0 s Hg) as (_ & Ha' & Hn'). destruct (count_members set_remove ms 0 s) as [s' a].
  simpl in *. change (is_expired c (mkValue (VSet s') (expires_ms v))) with (is_expired c v). by rewrite Ex, Hn'.
Qed.

Lemma sismember_scard_spec k m st :
  store_wf st → sets_ok (db st) → set_or_missing c (db st) k = true →
  sismember c k m st = Ok (bool_decide (m ∈ set_at c k (db st))) ∧
  scard c k st = Ok (Z.of_nat (size (set_at c k (db st)))).
Proof.
  intros Hw Hg Hk. unfold sismember, scard, set_at, set_or_missing in *. rewrite !read_live_spec by done. unfold live.
  destruct (db st !! k) as [v|] eqn:E; simpl; [|done].
  destruct (is_expired c v); simpl in *; [done|].
  specialize (Hg k v E). destruct (value v) as [| | |s| | |]; try done. simpl in *.
  by rewrite set_contains_spec, set_len_spec.
Qed.
End OneKey.

(** ** The properties *)

Section Claims.
Context (hash_one : bytes → Z) `{HashOrder}.
#[local] Instance set_kv : KVMap StoreValue (CustomMap StoreValue) := claims_kv hash_one.
#[local] Instance set_laws : KVMapLaws StoreValue (CustomMap StoreValue) := claims_laws hash_one.

Lemma after_sets shards max_keys l : sets_ok (db (after hash_one shards max_keys l)).
Proof.
  destruct (with_capacity_wf (V := StoreValue) hash_one shards max_keys) as [Hw Ha].
  apply run_cmds_sets; [exact Hw|]. unfold db. simpl. rewrite Ha. by intros ? ? ?%lookup_empty_Some.
Qed.

(** SUNION, SINTER and SDIFF compute the union, the intersection and the
    difference of the sets the keys stand for (a missing or expired key is the
    empty set), without repetitions, in every store a run of commands reaches,
    whether the sets are stored compact or hashed. *)
Theorem set_algebra shards max_keys l (c : Clock) (k : bytes) (keys : list bytes) :
  let st := after hash_one shards max_keys l in
  forallb (set_or_missing c (db st)) (k :: keys) = true →
  ∃ u i d, sunion c (k :: keys) st = Ok u ∧ sinter c (k :: keys) st = Ok i ∧ sdiff c (k :: keys) st = Ok d ∧
  (NoDup u ∧ ∀ m, m ∈ u ↔ ∃ k', k' ∈ k :: keys ∧ m ∈ set_at c k' (db st)) ∧
  (NoDup i ∧ ∀ m, m ∈ i ↔ ∀ k', k' ∈ k :: keys → m ∈ set_at c k' (db st)) ∧
  (NoDup d ∧ ∀ m, m ∈ d ↔ m ∈ set_at c k (db st) ∧ ∀ k', k' ∈ keys → m ∉ set_at c k' (db st)).
Proof.
  cbv zeta. assert (Hw : store_wf (after hash_one shards max_keys l)) by exact (after_wf hash_one shards max_keys l).
  pose proof (after_sets shards max_keys l) as Hg. set (st := after _ _ _ _) in *. intros Hks.
  destruct (sunion_loop_spec c (k :: keys) ∅ st Hw Hg Hks) as (gu & Hu & Hmu).
  unfold sunion. rewrite Hu. pose proof (collect_elem gu _ eq_refl) as [Nu Eu].
  unfold sinter, sdiff, fold_from_first. apply andb_true_iff in Hks as [Hk Hks].
  pose proof (live_set_spec c k st Hw Hg Hk) as Hl. destruct (live_set c k st) as [[s|e]|]; [|done|].
  - destruct Hl as [Hs Ha].
    destruct (sinter_loop_spec c keys (list_to_set (set_strings s)) st Hw Hg Hks) as (gi & -> & Hmi).
    destruct (sdiff_loop_spec c keys (list_to_set (set_strings s)) st Hw Hg Hks) as (gd & -> & Hmd).
    destruct (collect_elem gi _ eq_refl) as [Ni Ei]. destruct (collect_elem gd _ eq_refl) as [Nd Ed].
    exists (set_order gu), (set_order gi), (set_order gd). repeat (split; [done|]).
    split; [|split]; (split; [done|]); intros m.
    + rewrite Eu, Hmu. set_solver.
    + rewrite Ei, Hmi, elem_of_list_to_set, set_strings_elem, Ha by done. set_solver.
    + by rewrite Ed, Hmd, elem_of_list_to_set, set_strings_elem, Ha.
  - exists (set_order gu), [], []. repeat (split; [done|]).
    split; [|split]; (split; [done || apply NoDup_nil_2|]); intros m.
    + rewrite Eu, Hmu. set_solver.
    + split; [set_solver|]. intros Hm. specialize (Hm k). rewrite Hl in Hm. set_solver.
    + rewrite Hl. set_solver.
Qed.

(** SADD, SREM, SISMEMBER and SCARD on a key that is missing, expired or a
    set: SADD stores the union and counts the new members, SREM stores the
    difference and counts the members it removed, SISMEMBER decides membership
    and SCARD counts. *)
Theorem sadd_srem_correct shards max_keys l (c : Clock) (k : bytes) (ms : list bytes) (m : bytes) :
  let st := after hash_one shards max_keys l in
  let s := set_at c k (db st) in
  set_or_missing c (db st) k = true →
  set_at c k (db (sadd c k ms st).1) = list_to_set ms ∪ s ∧
  (sadd c k ms st).2 = Ok (Z.of_nat (size (list_to_set ms ∖ s : gset bytes))) ∧
  set_at c k (db (srem c k ms st).1) = s ∖ list_to_set ms ∧
  (srem c k ms st).2 = Ok (Z.of_nat (size (list_to_set ms ∩ s : gset bytes))) ∧
  sismember c k m st = Ok (bool_decide (m ∈ s)) ∧ scard c k st = Ok (Z.of_nat (size s)).
Proof.
  cbv zeta. assert (Hw : store_wf (after hash_one shards max_keys l)) by exact (after_wf hash_one shards max_keys l).
  pose proof (after_sets shards max_keys l) as Hg. intros Hk.
  destruct (sadd_spec c k ms _ Hw Hg Hk). destruct (srem_spec c k ms _ Hw Hg Hk).
  destruct (sismember_scard_spec c k m _ Hw Hg Hk). done.
Qed.
End Claims.

(** ** Witnesses *)

Definition set_run : list (Clock * Cmd) :=
  (λ o, (demo_clock, o)) <$> [CSAdd (B "p") [B "x"; B "12"]; CSAdd (B "q") [B "12"; B "y"]].

Lemma sadd_srem_correct_witness :
  set_or_missing demo_clock (db (H0 := claims_laws toy_hash)
    (after toy_hash (H := canonical_order) 2 16 set_run)) (B "p") = true ∧
  scard (H := claims_kv toy_hash) demo_clock (B "p") (after toy_hash (H := canonical_order) 2 16 set_run) =
    Ok (Z.of_nat (size (set_at demo_clock (B "p")
      (db (H0 := claims_laws toy_hash) (after toy_hash (H := canonical_order) 2 16 set_run))))).
Proof.
  assert (Hk : set_or_missing demo_clock (db (H0 := claims_laws toy_hash)
    (after toy_hash (H := canonical_order) 2 16 set_run)) (B "p") = true) by (vm_compute; reflexivity).
  split; [exact Hk|].
  exact (proj2 (proj2 (proj2 (proj2 (proj2 (sadd_srem_correct toy_hash (H := canonical_order) 2 16 set_run demo_clock
    (B "p") [] (B "x") Hk)))))).
Defined.

Lemma set_algebra_witness :
  forallb (set_or_missing demo_clock (db (H0 := claims_laws toy_hash)
    (after toy_hash (H := canonical_order) 2 16 set_run))) [B "p"; B "q"] = true ∧
  ∃ i, sinter (H := claims_kv toy_hash) (H0 := canonical_order) demo_clock [B "p"; B "q"]
    (after toy_hash (H := canonical_order) 2 16 set_run) = Ok i ∧ NoDup i.
Proof.
  assert (Hk : forallb (set_or_missing demo_clock (db (H0 := claims_laws toy_hash)
    (after toy_hash (H := canonical_order) 2 16 set_run))) [B "p"; B "q"] = true) by (vm_compute; reflexivity).
  split; [exact Hk|].
  destruct (set_algebra toy_hash (H := canonical_order) 2 16 set_run demo_clock (B "p") [B "q"] Hk)
    as (u & i & d & _ & Hi & _ & _ & [Hn _] & _).
  exists i. split; [exact Hi|exact Hn].
Defined.
