(* ===== verification/ZSetOpsSpec.v ===== *)
(** Sorted-set commands as operations on finite maps from members to scores,
    on every store a run of commands reaches; the ranges by rank as slices of
    the sorted entries. *)

From Stdlib Require Import Floats.SpecFloat.
From S2P Require Import Prelude MapIface Shard CustomMap CustomMapSpec Collections CollectionsSpec.
From S2P Require Import Float ZSet ZSetSpec Value Store StoreSpec ZSetOps Commands StoreClaims SetSpec.
Local Open Scope Z_scope.

(** ** The scores a key stands for *)

Definition zmap_at (c : Clock) (k : bytes) (g : gmap bytes StoreValue) : gmap bytes f64 :=
  match g !! k with
  | Some v => if is_expired c v then ∅ else match value v with VZSet z => zset_abs z | _ => ∅ end
  | None => ∅
  end.

(** The key is missing, expired or a sorted set. *)
Definition zset_or_missing (c : Clock) (g : gmap bytes StoreValue) (k : bytes) : bool :=
  match g !! k with
  | Some v => is_expired c v || match value v with VZSet _ => true | _ => false end
  | None => true
  end.

Lemma zmap_at_insert c k v g :
  zmap_at c k (<[k := v]> g) =
  if is_expired c v then ∅ else match value v with VZSet z => zset_abs z | _ => ∅ end.
Proof. unfold zmap_at. by rewrite lookup_insert_eq. Qed.

(** ** ZADD on a map *)







(** *** What the flags say of one member *)








Section ZAdd.
Context {M : Type} `{KVMapLaws StoreValue M} (c : Clock).
Implicit Types (st : Store M) (k : bytes).

End ZAdd.

(** ** Union, intersection and difference of maps *)

(** A key of a union: a member that is already there gets the aggregate, unless
    that is within [EPSILON] of its score; a new one its weighted score. *)
Definition union_step (a : ZAggregate) (w : f64) (g h : gmap bytes f64) : gmap bytes f64 :=
  merge (λ x y, match x, y with
                | Some x, Some y =>
                    let n := apply_aggregate a x (f64_mul y w) in Some (if score_moved x n then n else x)
                | None, Some y => Some (f64_mul y w)
                | x, None => x
                end) g h.

Definition inter_step (a : ZAggregate) (w : f64) (g h : gmap bytes f64) : gmap bytes f64 :=
  merge (λ x y, match x, y with
                | Some x, Some y => Some (apply_aggregate a x (f64_mul y w))
                | _, _ => None
                end) g h.

(** The maps of the keys folded with their weights, from the [i]th on. *)
Fixpoint fold_weighted (f : f64 → gmap bytes f64 → gmap bytes f64 → gmap bytes f64) (weights : list f64)
    (i : nat) (hs : list (gmap bytes f64)) (g : gmap bytes f64) : gmap bytes f64 :=
  match hs with
  | [] => g
  | h :: hs' => fold_weighted f weights (S i) hs' (f (weight_at weights i) g h)
  end.

Lemma foldl_same {A B} (f g : A → B → A) l x : (∀ a b, f a b = g a b) → foldl f x l = foldl g x l.
Proof. intros Hfg. revert x. induction l as [|b l IH]; intros x; simpl; [done|]. by rewrite Hfg. Qed.

Lemma union_fold_map a w es acc :
  zmap_ok acc → NoDup (member <$> es) →
  zset_abs (foldl (union_entry a w) acc es) = union_step a w (zset_abs acc) (score_map es).
Proof.
  revert acc. induction es as [|e es IH]; intros acc Ha Hnd; simpl.
  { apply map_eq. intros m. unfold union_step. rewrite lookup_merge. unfold score_map. simpl. rewrite lookup_empty.
    by destruct (zset_abs acc !! m). }
  apply NoDup_cons in Hnd as [Hm Hnd]. pose proof (score_map_None es (member e) Hm) as Hn.
  unfold union_entry at 2. rewrite (get_score_map acc _ Ha).
  set (sc := match _ with Some _ => _ | None => _ end).
  destruct (zset_insert_map acc sc (member e) Ha) as (Hz' & Hi & _). rewrite IH, Hi, score_map_cons by done.
  apply map_eq. intros m. unfold union_step. rewrite !lookup_merge. unfold insert_map.
  destruct (decide (m = member e)) as [->|Hne].
  - rewrite lookup_insert_eq, Hn. unfold sc. destruct (zset_abs acc !! member e) as [x|] eqn:Ex; simpl.
    + destruct (score_moved x _); simpl; [by rewrite lookup_insert_eq|by rewrite Ex].
    + by rewrite lookup_insert_eq.
  - rewrite lookup_insert_ne by done. destruct (zset_abs acc !! member e) as [x|]; [|by rewrite lookup_insert_ne].
    destruct (score_moved x _); [by rewrite lookup_insert_ne|done].
Qed.

(** Insertions, into a set that has none of them, of the entries a function keeps. *)
Lemma insert_fold_map (f : ZEntry → option f64) es acc :
  zmap_ok acc → NoDup (member <$> es) → (∀ m, m ∈ member <$> es → zset_abs acc !! m = None) →
  let z := foldl (λ z e, match f e with Some s => (zset_insert z s (member e)).1 | None => z end) acc es in
  zmap_ok z ∧
  (∀ m, m ∉ member <$> es → zset_abs z !! m = zset_abs acc !! m) ∧ (∀ e, e ∈ es → zset_abs z !! member e = f e).
Proof.
  revert acc. induction es as [|e es IH]; intros acc Ha Hnd Hnone; simpl.
  { split; [done|]. split; [done|]. set_solver. }
  apply NoDup_cons in Hnd as [Hm Hnd]. set (acc' := match f e with Some _ => _ | None => _ end).
  assert (Hacc : zmap_ok acc' ∧ zset_abs acc' !! member e = f e ∧
    ∀ m, m ≠ member e → zset_abs acc' !! m = zset_abs acc !! m).
  { unfold acc'. pose proof (Hnone (member e) ltac:(set_solver)) as Hn. destruct (f e) as [s|]; [|done].
    destruct (zset_insert_map acc s (member e) Ha) as (Hz' & Hi & _). split; [done|]. rewrite Hi. unfold insert_map.
    rewrite Hn. split; [by rewrite lookup_insert_eq|]. intros m Hne. by rewrite lookup_insert_ne. }
  destruct Hacc as (Hz' & He & Hrest). clearbody acc'. destruct (IH acc' Hz' Hnd) as (Hz & Ho & Hi).
  { intros m Hin. rewrite Hrest by set_solver. apply Hnone. set_solver. }
  split; [done|]. split.
  - intros m Hni. rewrite Ho, Hrest by set_solver. done.
  - intros e' [->|Hin]%elem_of_cons; [by rewrite Ho|by apply Hi].
Qed.

(** A fold of [f] over the entries of a set builds its image under [f]. *)
Lemma rebuild_map (f : ZEntry → option f64) z (F : f64 → bytes → option f64) :
  zmap_ok z → (∀ e, f e = F (score e) (member e)) →
  let z' := foldl (λ z e, match f e with Some s => (zset_insert z s (member e)).1 | None => z end)
    ZSetData_new (entries z) in
  zmap_ok z' ∧ ∀ m, zset_abs z' !! m = zset_abs z !! m ≫= λ s, F s m.
Proof.
  intros [Hnd _] HF. destruct (insert_fold_map f (entries z) ZSetData_new zmap_new Hnd) as (Hz & Ho & Hi).
  { intros m _. apply lookup_empty. }
  split; [done|]. intros m. destruct (decide (m ∈ member <$> entries z)) as [Hin|Hin].
  - apply list_elem_of_fmap in Hin as (e & -> & He). rewrite Hi, HF by done.
    apply list_elem_of_lookup in He as [i Hl]. unfold zset_abs.
    by rewrite (score_map_Some _ i e Hnd Hl).
  - rewrite Ho by done. unfold zset_abs. by rewrite (score_map_None (entries z) m Hin).
Qed.

Lemma inter_with_map a w other acc :
  zmap_ok other → zmap_ok acc →
  zmap_ok (inter_with a w other acc) ∧
  zset_abs (inter_with a w other acc) = inter_step a w (zset_abs acc) (zset_abs other).
Proof.
  intros Ho Ha. set (F := λ (s : f64) m, (λ y, apply_aggregate a s (f64_mul y w)) <$> zset_abs other !! m).
  set (f := λ e, F (score e) (member e)). destruct (rebuild_map f acc F Ha (λ _, eq_refl)) as [Hz Hl].
  assert (E : inter_with a w other acc =
    foldl (λ z e, match f e with Some s => (zset_insert z s (member e)).1 | None => z end) ZSetData_new (entries acc)).
  { apply foldl_same. intros z e.
    unfold f, F. rewrite (get_score_map other _ Ho). by destruct (zset_abs other !! member e). }
  rewrite E. split; [done|]. apply map_eq. intros m. rewrite Hl. unfold inter_step, F. rewrite lookup_merge.
  destruct (zset_abs acc !! m), (zset_abs other !! m); done.
Qed.

Lemma scale_map w z :
  zmap_ok z →
  let z' := foldl (λ acc e, (zset_insert acc (f64_mul (score e) w) (member e)).1) ZSetData_new (entries z) in
  zmap_ok z' ∧ zset_abs z' = (λ s, f64_mul s w) <$> zset_abs z.
Proof.
  intros Hz. destruct (rebuild_map (λ e, Some (f64_mul (score e) w)) z (λ s _, Some (f64_mul s w)) Hz (λ _, eq_refl))
    as [Hz' Hl].
  split; [done|]. apply map_eq. intros m. rewrite Hl, lookup_fmap. by destruct (zset_abs z !! m).
Qed.

Lemma remove_fold_map l z :
  zmap_ok z →
  let z' := foldl (λ acc m, (zset_remove acc m).1) z l in
  zmap_ok z' ∧ ∀ m, zset_abs z' !! m = if decide (m ∈ l) then None else zset_abs z !! m.
Proof.
  revert z. induction l as [|x l IH]; intros z Hz; [done|]. cbn [foldl].
  destruct (zset_remove_map z x Hz) as (Hz' & Ha & _). destruct (IH _ Hz') as [Hz2 Hl]. split; [done|].
  intros m. rewrite Hl, Ha. destruct (decide (m = x)) as [->|Hne].
  - rewrite (decide_True (P := x ∈ x :: l)) by set_solver. rewrite lookup_delete_eq. by destruct (decide _).
  - rewrite lookup_delete_ne by done. destruct (decide (m ∈ l)); [by rewrite decide_True by set_solver|].
    by rewrite decide_False by set_solver.
Qed.

Lemma diff_with_map z acc :
  zmap_ok acc → zmap_ok (diff_with z acc) ∧ zset_abs (diff_with z acc) = zset_abs acc ∖ zset_abs z.
Proof.
  intros Ha. unfold diff_with. set (l := List.filter _ _). destruct (remove_fold_map l acc Ha) as [Hz Hl].
  split; [done|]. apply map_eq. intros m. rewrite Hl, lookup_difference.
  assert (Hm : m ∈ l ↔ m ∈ member <$> entries acc ∧ is_Some (zset_abs z !! m)).
  { unfold l. rewrite list_elem_of_In, filter_In, <- list_elem_of_In, zset_contains_map. by rewrite bool_decide_eq_true. }
  destruct (zset_abs z !! m) as [y|] eqn:Ey.
  - destruct (decide (m ∈ l)) as [Hin|Hin]; [done|]. apply score_map_None. intros Hin'. apply Hin. apply Hm. by split.
  - rewrite decide_False; [done|]. intros [_ [? ?]]%Hm. done.
Qed.

Section Algebra.
Context {M : Type} `{KVMapLaws StoreValue M} (c : Clock).
Implicit Types (st : Store M) (k : bytes).

Lemma live_zset_spec k st :
  store_wf st → sets_ok (db st) → zset_or_missing c (db st) k = true →
  match live_zset c k st with
  | Ok None => zmap_at c k (db st) = ∅
  | Ok (Some z) => zmap_ok z ∧ zset_abs z = zmap_at c k (db st)
  | Err _ => False
  end.
Proof.
  intros Hw Hg. unfold live_zset, zset_read, zset_or_missing, zmap_at. rewrite read_live_spec by done. unfold live.
  destruct (db st !! k) as [v|] eqn:E; simpl; [|done]. destruct (is_expired c v); simpl; [done|].
  specialize (Hg k v E). destruct (value v); simpl in *; try done.
Qed.

Lemma union_step_empty a w g : union_step a w g ∅ = g.
Proof. apply map_eq. intros m. unfold union_step. rewrite lookup_merge, lookup_empty. by destruct (g !! m). Qed.

Lemma inter_step_empty a w g : inter_step a w g ∅ = ∅ ∧ inter_step a w ∅ g = ∅.
Proof.
  split; apply map_eq; intros m; unfold inter_step; rewrite lookup_merge, !lookup_empty;
    by destruct (g !! m).
Qed.

Lemma fold_inter_empty a ws i hs : fold_weighted (inter_step a) ws i hs ∅ = ∅.
Proof. revert i. induction hs as [|h hs IH]; intros i; simpl; [done|]. by rewrite (proj2 (inter_step_empty _ _ _)). Qed.

Lemma zunion_loop_spec a ws i ks acc st :
  store_wf st → sets_ok (db st) → forallb (zset_or_missing c (db st)) ks = true → zmap_ok acc →
  ∃ z, zunion_loop c a ws i ks acc st = Ok z ∧ zmap_ok z ∧
    zset_abs z = fold_weighted (union_step a) ws i ((λ k, zmap_at c k (db st)) <$> ks) (zset_abs acc).
Proof.
  intros Hw Hg. revert i acc. induction ks as [|k ks IH]; intros i acc; simpl; [by eauto|].
  intros [Hk Hks]%andb_true_iff Ha. pose proof (live_zset_spec k st Hw Hg Hk) as Hl.
  destruct (live_zset c k st) as [[z|]|e]; [| |done].
  - destruct Hl as [Hz <-]. destruct (IH (S i) _ Hks (union_entry_keeps a (weight_at ws i) (entries z) acc Ha))
      as (z' & -> & ? & Hz'). exists z'. split; [done|]. split; [done|]. rewrite Hz'.
    by rewrite (union_fold_map _ _ _ _ Ha (zm_nodup _ Hz)).
  - rewrite Hl, union_step_empty. by apply IH.
Qed.

Lemma zinter_loop_spec a ws i ks acc st :
  store_wf st → sets_ok (db st) → forallb (zset_or_missing c (db st)) ks = true → zmap_ok acc →
  ∃ z, zinter_loop c a ws i ks acc st = Ok z ∧ zmap_ok (default ZSetData_new z) ∧
    zset_abs (default ZSetData_new z) =
      fold_weighted (inter_step a) ws i ((λ k, zmap_at c k (db st)) <$> ks) (zset_abs acc).
Proof.
  intros Hw Hg. revert i acc. induction ks as [|k ks IH]; intros i acc; simpl; [by eauto|].
  intros [Hk Hks]%andb_true_iff Ha. pose proof (live_zset_spec k st Hw Hg Hk) as Hl.
  destruct (live_zset c k st) as [[z|]|e]; [| |done].
  - destruct Hl as [Hz <-]. destruct (inter_with_map a (weight_at ws i) z acc Hz Ha) as [Hi <-]. by apply IH.
  - rewrite Hl, (proj1 (inter_step_empty _ _ _)), fold_inter_empty. exists None.
    split; [done|]. split; [apply zmap_new|done].
Qed.

Lemma zdiff_loop_spec ks acc st :
  store_wf st → sets_ok (db st) → forallb (zset_or_missing c (db st)) ks = true → zmap_ok acc →
  ∃ z, zdiff_loop c ks acc st = Ok z ∧ zmap_ok z ∧
    zset_abs z = foldl difference (zset_abs acc) ((λ k, zmap_at c k (db st)) <$> ks).
Proof.
  intros Hw Hg. revert acc. induction ks as [|k ks IH]; intros acc; simpl; [by eauto|].
  intros [Hk Hks]%andb_true_iff Ha. pose proof (live_zset_spec k st Hw Hg Hk) as Hl.
  destruct (live_zset c k st) as [[z|]|e]; [| |done].
  - destruct Hl as [Hz <-]. destruct (diff_with_map z acc Ha) as [Hd <-]. by apply IH.
  - rewrite Hl, map_difference_empty. by apply IH.
Qed.

Lemma zinter_all_spec a ws k ks st :
  store_wf st → sets_ok (db st) → forallb (zset_or_missing c (db st)) (k :: ks) = true →
  ∃ z, zinter_all c (k :: ks) ws a st = Ok z ∧ zmap_ok (default ZSetData_new z) ∧
    zset_abs (default ZSetData_new z) =
      fold_weighted (inter_step a) ws 1 ((λ k, zmap_at c k (db st)) <$> ks)
        ((λ s, f64_mul s (weight_at ws 0)) <$> zmap_at c k (db st)).
Proof.
  intros Hw Hg [Hk Hks]%andb_true_iff. unfold zinter_all. pose proof (live_zset_spec k st Hw Hg Hk) as Hl.
  destruct (live_zset c k st) as [[z|]|e]; [| |done].
  - destruct Hl as [Hz <-]. destruct (scale_map (weight_at ws 0) z Hz) as [Hs <-]. by apply zinter_loop_spec.
  - rewrite Hl, fmap_empty, fold_inter_empty. exists None. split; [done|]. split; [apply zmap_new|done].
Qed.

(** A destination holds the members of a reply, and the command replied with their number. *)
Definition stored (dst : bytes) (items : list (bytes * f64)) (p : Store M * result Z) : Prop :=
  zmap_at c dst (db p.1) = list_to_map items ∧ p.2 = Ok (Z.of_nat (length items)).

(** Storing a set with the same map as another. *)
Lemma store_zset_copy dst z z' st :
  store_wf st → zmap_ok z → zmap_ok z' → zset_abs z' = zset_abs z →
  stored dst (pair_of <$> entries z) (store_zset dst z' st).
Proof.
  intros Hw Hz Hz' Ha. unfold stored, store_zset. cbn [fst snd].
  destruct (put_spec dst (StoreValue_zset z') st Hw) as (_ & -> & _). rewrite zmap_at_insert, length_fmap.
  rewrite (zset_len_map z' Hz'), Ha, <- (zset_len_map z Hz). done.
Qed.

Lemma store_zset_stored dst z st :
  store_wf st → zmap_ok z → stored dst (pair_of <$> entries z) (store_zset dst z st).
Proof. intros Hw Hz. by apply store_zset_copy. Qed.

(** A set inserted entry by entry into an empty one is the same map. *)
Lemma rebuild_id z :
  zmap_ok z →
  let z' := foldl (λ z e, (zset_insert z (score e) (member e)).1) ZSetData_new (entries z) in
  zmap_ok z' ∧ zset_abs z' = zset_abs z.
Proof.
  intros Hz. destruct (rebuild_map (λ e, Some (score e)) z (λ s _, Some s) Hz (λ _, eq_refl)) as [Hz' Hl].
  split; [done|]. apply map_eq. intros m. rewrite Hl. by destruct (zset_abs z !! m).
Qed.

Lemma foldl_pairs es z :
  foldl (λ z p, (zset_insert z p.2 p.1).1) z (pair_of <$> es) = foldl (λ z e, (zset_insert z (score e) (member e)).1) z es.
Proof. revert z. induction es as [|e es IH]; intros z; simpl; [done|]. apply IH. Qed.

(** The reply of a sorted set: its members once each, with their scores. *)
Lemma pairs_map z :
  zmap_ok z → NoDup (pair_of <$> entries z).*1 ∧ list_to_map (pair_of <$> entries z) = zset_abs z.
Proof. intros Hz. split; [|done]. rewrite <- list_fmap_compose. by apply zm_nodup. Qed.
End Algebra.

(** ** Ranges by rank *)

(** The entries between two ranks, negative ones counting from the end. *)
Definition rank_range (es : list ZEntry) (start stop : Z) : list ZEntry :=
  let len := Z.of_nat (length es) in
  let a := if start <? 0 then Z.max (len + start) 0 else start in
  let b := if stop <? 0 then len + stop else Z.min stop (len - 1) in
  if b <? a then [] else take (Z.to_nat (b - a + 1)) (drop (Z.to_nat a) es).

Lemma wrap64_id n : 0 <= n < 2 ^ 64 → wrap64 n = n.
Proof. apply Z.mod_small. Qed.

Lemma normalize_range i len :
  0 < len < 2 ^ 63 →
  normalize_zset_index i len = (if i <? 0 then Z.max (len + i) 0 else Z.min i (len - 1)) ∧
  0 <= normalize_zset_index i len < len.
Proof.
  intros Hl. unfold normalize_zset_index. set (n := if i <? 0 then _ else _).
  assert (0 <= n < len) by (unfold n; destruct (i <? 0) eqn:E; split_bool; lia).
  rewrite wrap64_id by lia. done.
Qed.

(** Both range commands slice the entries, in their order, between the two
    normalized indices. *)
Lemma zrange_slice z start stop :
  0 < Z.of_nat (zset_len z) < 2 ^ 63 →
  let len := Z.of_nat (zset_len z) in
  let s := normalize_zset_index start len in
  let e := normalize_zset_index stop len in
  let slice es := if e <? s then [] else take (Z.to_nat (e - s + 1)) (drop (Z.to_nat s) es) in
  zrange_entries start stop z = pair_of <$> slice (entries z) ∧
  zrevrange_entries start stop z = pair_of <$> slice (reverse (entries z)).
Proof.
  intros Hl len s e slice. unfold zrange_entries, zrevrange_entries. fold len s e.
  destruct (normalize_range start len Hl) as [_ Hs]. destruct (normalize_range stop len Hl) as [_ He].
  fold s in Hs. fold e in He. unfold slice. destruct (e <? s) eqn:Ec; split_bool; [done|].
  rewrite !wrap64_id by lia. split; [|done]. f_equal. unfold range_by_rank. fold (zset_len z).
  rewrite Nat.min_l by (unfold len in *; lia). rewrite (proj2 (Nat.leb_gt _ _)) by lia.
  f_equal. lia.
Qed.

Lemma zrange_empty z start stop :
  zset_len z = 0%nat → zrange_entries start stop z = [] ∧ zrevrange_entries start stop z = [].
Proof.
  unfold zset_len. intros E%nil_length_inv. unfold zrange_entries, zrevrange_entries, range_by_rank. rewrite E.
  rewrite reverse_nil, !drop_nil, !take_nil. split; by repeat case_goal.
Qed.

Lemma rank_slice (es : list ZEntry) len start stop :
  len = Z.of_nat (length es) → 0 < len < 2 ^ 63 → start < len → - len <= stop →
  let s := normalize_zset_index start len in
  let e := normalize_zset_index stop len in
  (if e <? s then [] else take (Z.to_nat (e - s + 1)) (drop (Z.to_nat s) es)) = rank_range es start stop.
Proof.
  intros -> Hl Hs He. cbv zeta. destruct (normalize_range start _ Hl) as [-> _].
  destruct (normalize_range stop _ Hl) as [-> _]. unfold rank_range.
  assert (E1 : (if start <? 0 then Z.max (Z.of_nat (length es) + start) 0
    else Z.min start (Z.of_nat (length es) - 1)) =
    (if start <? 0 then Z.max (Z.of_nat (length es) + start) 0 else start)) by (case_goal; lia).
  assert (E2 : (if stop <? 0 then Z.max (Z.of_nat (length es) + stop) 0 else Z.min stop (Z.of_nat (length es) - 1)) =
    (if stop <? 0 then Z.of_nat (length es) + stop else Z.min stop (Z.of_nat (length es) - 1)))
    by (case_goal; split_bool; lia).
  by rewrite E1, E2.
Qed.

(** ** The properties *)

Section Claims.
Context (hash_one : bytes → Z) `{HashOrder}.
#[local] Instance zset_kv : KVMap StoreValue (CustomMap StoreValue) := claims_kv hash_one.
#[local] Instance zset_laws : KVMapLaws StoreValue (CustomMap StoreValue) := claims_laws hash_one.


(** ZUNION, ZINTER and ZDIFF.  On every reachable store, and for keys that are
    missing, expired or sorted sets, each reply lists distinct members, and as a
    map it is the weighted union or intersection under the aggregate, or the
    difference, of the maps of the keys, folded from left to right; the
    STORE forms store that map at the destination and reply with its size. *)
Theorem zset_algebra shards max_keys l (c : Clock) (k dst : bytes) (ks : list bytes) (ws : list f64) (a : ZAggregate) :
  let st := after hash_one shards max_keys l in
  let maps := (λ k, zmap_at c k (db st)) <$> ks in
  let g := zmap_at c k (db st) in
  forallb (zset_or_missing c (db st)) (k :: ks) = true →
  ∃ u i d, zunion c (k :: ks) ws a st = Ok u ∧ zinter c (k :: ks) ws a st = Ok i ∧ zdiff c (k :: ks) st = Ok d ∧
    (NoDup u.*1 ∧ list_to_map u = fold_weighted (union_step a) ws 0 (g :: maps) ∅) ∧
    (NoDup i.*1 ∧ list_to_map i = fold_weighted (inter_step a) ws 1 maps ((λ s, f64_mul s (weight_at ws 0)) <$> g)) ∧
    (NoDup d.*1 ∧ list_to_map d = foldl difference g maps) ∧
    stored c dst u (zunionstore c dst (k :: ks) ws a st) ∧
    stored c dst i (zinterstore c dst (k :: ks) ws a st) ∧
    stored c dst d (zdiffstore c dst (k :: ks) st).
Proof.
  cbv zeta. set (st := after hash_one shards max_keys l). intros Hk.
  assert (Hw : store_wf st) by exact (after_wf hash_one shards max_keys l).
  pose proof (after_sets hash_one shards max_keys l : sets_ok (db st)) as Hg.
  destruct (zunion_loop_spec c a ws 0 (k :: ks) ZSetData_new st Hw Hg Hk zmap_new) as (zu & Eu & Hzu & Mu).
  destruct (zinter_all_spec c a ws k ks st Hw Hg Hk) as (zi & Ei & Hzi & Mi).
  assert (Hd : ∃ zd, zdiff c (k :: ks) st = Ok (pair_of <$> entries zd) ∧ zmap_ok zd ∧
    zset_abs zd = foldl difference (zmap_at c k (db st)) ((λ k, zmap_at c k (db st)) <$> ks)).
  { apply andb_true_iff in Hk as [Hk Hks]. unfold zdiff. pose proof (live_zset_spec c k st Hw Hg Hk) as Hl.
    destruct (live_zset c k st) as [[z|]|e]; [| |done].
    - destruct Hl as [Hz <-]. destruct (zdiff_loop_spec c ks z st Hw Hg Hks Hz) as (zd & -> & ? & ?). by exists zd.
    - exists ZSetData_new. split; [done|]. split; [apply zmap_new|]. rewrite Hl. clear.
      induction ks as [|x ks IH]; simpl; [done|]. by rewrite map_empty_difference. }
  destruct Hd as (zd & Ed & Hzd & Md).
  exists (pair_of <$> entries zu), (pair_of <$> entries (default ZSetData_new zi)), (pair_of <$> entries zd).
  destruct (pairs_map zu Hzu) as [? Pu]. destruct (pairs_map _ Hzi) as [? Pi]. destruct (pairs_map zd Hzd) as [? Pd].
  unfold zunion, zinter, zunionstore, zinterstore, zdiffstore. rewrite Eu, Ei, Ed, Pu, Pi, Pd.
  split; [done|]. split; [by destruct zi|]. split; [done|]. split; [done|]. split; [done|]. split; [done|].
  split; [by apply store_zset_stored|]. split; [by apply store_zset_stored|].
  rewrite foldl_pairs. destruct (rebuild_id zd Hzd) as [Hz' Ha]. by apply store_zset_copy.
Qed.
End Claims.

(** ZRANGE and ZREVRANGE.  For a set of fewer than [2^63] members, a first
    rank below the size and a last rank that is not before the first entry, the
    reply is the range of the sorted entries between the two ranks, respectively
    of the reversed ones.  A first rank past the end is clamped to the last
    entry, and a last rank before the first entry to the first, so there the
    reply holds one entry although the range is empty. *)
Theorem zrange_correct (z : ZSetData) (start stop : Z) :
  let len := Z.of_nat (zset_len z) in
  len < 2 ^ 63 →
  (start < len → - len <= stop →
     zrange_entries start stop z = pair_of <$> rank_range (entries z) start stop ∧
     zrevrange_entries start stop z = pair_of <$> rank_range (reverse (entries z)) start stop) ∧
  (len = 0 → zrange_entries start stop z = [] ∧ zrevrange_entries start stop z = []) ∧
  (0 < len <= start → len <= stop →
     rank_range (entries z) start stop = [] ∧
     zrange_entries start stop z = pair_of <$> option_list (last (entries z))) ∧
  (stop < - len → 0 < len → start <= - len ∨ start = 0 →
     rank_range (entries z) start stop = [] ∧
     zrange_entries start stop z = pair_of <$> option_list (head (entries z))).
Proof.
  intros len Hlen. assert (Hcase : len = 0 ∨ 0 < len < 2 ^ 63) by lia. unfold len in *.
  destruct Hcase as [E|Hpos].
  { assert (Ez : zset_len z = 0%nat) by lia. destruct (zrange_empty z start stop Ez) as [H1 H2].
    split; [|split; [done|split; lia]]. intros Hs He. rewrite H1, H2. unfold zset_len in Ez.
    apply nil_length_inv in Ez. rewrite Ez, reverse_nil. unfold rank_range. rewrite drop_nil, take_nil.
    split; by repeat case_goal. }
  destruct (zrange_slice z start stop Hpos) as [H1 H2].
  destruct (normalize_range start _ Hpos) as [Es _], (normalize_range stop _ Hpos) as [Ee _].
  split; [|split; [lia|split]].
  - intros Hs He. rewrite H1, H2. split; f_equal; apply rank_slice; try done. by rewrite length_reverse.
  - intros Hs He. split.
    + unfold rank_range. fold (zset_len z). rewrite (proj2 (Z.ltb_ge start 0)), (proj2 (Z.ltb_ge stop 0)) by lia.
      by rewrite (proj2 (Z.ltb_lt _ _)) by lia.
    + rewrite H1, Es, Ee. rewrite (proj2 (Z.ltb_ge start 0)), (proj2 (Z.ltb_ge stop 0)) by lia.
      rewrite !Z.min_r, Z.ltb_irrefl, Z.sub_diag by lia. f_equal. unfold zset_len in *.
      destruct (entries z) as [|x q _] using rev_ind; [simpl in *; lia|]. rewrite last_snoc, length_app. simpl.
      rewrite drop_app_length' by lia. done.
  - intros He Hl Hs. split.
    + unfold rank_range. fold (zset_len z). rewrite (proj2 (Z.ltb_lt stop 0)) by lia.
      rewrite (proj2 (Z.ltb_lt _ _)); [done|]. destruct (start <? 0) eqn:E; split_bool; lia.
    + rewrite H1, Es, Ee. rewrite (proj2 (Z.ltb_lt stop 0)) by lia.
      replace (if start <? 0 then _ else _) with 0 by (destruct (start <? 0) eqn:E; split_bool; lia).
      rewrite Z.max_r by lia. rewrite Z.ltb_irrefl, Z.sub_diag. f_equal. unfold zset_len in *.
      by destruct (entries z) as [|x q]; [simpl in *; lia|].
Qed.

(** ** Witnesses *)

Definition zset_run : list (Clock * Cmd) :=
  (λ o, (demo_clock, o)) <$>
    [CZAdd (B "p") [(f64_of_Z 3, B "x"); (f64_of_Z 1, B "y")] (mkFlags false false false false false);
     CZAdd (B "q") [(f64_of_Z 2, B "y"); (f64_of_Z 5, B "w")] (mkFlags false false false false false)].

Definition zset_demo : Store (CustomMap StoreValue) := after toy_hash (H := canonical_order) 2 16 zset_run.


Lemma zset_algebra_witness :
  forallb (zset_or_missing demo_clock (db (H0 := claims_laws toy_hash) zset_demo)) [B "p"; B "q"] = true ∧
  ∃ u, zunion (H := claims_kv toy_hash) demo_clock [B "p"; B "q"] [f64_of_Z 2] Sum zset_demo = Ok u ∧ NoDup u.*1.
Proof.
  assert (Hk : forallb (zset_or_missing demo_clock (db (H0 := claims_laws toy_hash) zset_demo)) [B "p"; B "q"] = true)
    by (vm_compute; reflexivity).
  split; [exact Hk|].
  destruct (zset_algebra toy_hash (H := canonical_order) 2 16 zset_run demo_clock (B "p") (B "d") [B "q"] [f64_of_Z 2]
    Sum Hk) as (u & i & d & Hu & _ & _ & [Hn _] & _).
  exists u. split; [exact Hu|exact Hn].
Defined.

Lemma zrange_correct_witness :
  Z.of_nat (zset_len demo_zset) < 2 ^ 63 ∧
  (zrange_entries 1 (-1) demo_zset).*1 = [B "b"; B "c"] ∧
  (zrange_entries 7 9 demo_zset).*1 = [B "c"].
Proof.
  assert (Hl : Z.of_nat (zset_len demo_zset) < 2 ^ 63) by (vm_compute; reflexivity).
  destruct (zrange_correct demo_zset 1 (-1) Hl) as [H1 _].
  destruct (zrange_correct demo_zset 7 9 Hl) as (_ & _ & H2 & _).
  split; [exact Hl|]. split.
  - rewrite (proj1 (H1 ltac:(vm_compute; reflexivity) ltac:(vm_compute; congruence))). vm_compute. reflexivity.
  - rewrite (proj2 (H2 ltac:(vm_compute; split; congruence) ltac:(vm_compute; congruence))). vm_compute. reflexivity.
Defined.
