(* ===== verification/SmallStr.v ===== *)
(** Small strings: storage/value/small_str.rs, and the keys of the map,
    crates/customhash/src/key.rs, which use the same layout.

    Sixteen bytes hold a string of at most fifteen bytes in place, or the
    address and the length of a heap block.  The heap maps the address of each
    live block to its bytes; reading or freeing through an address that is not
    that of a live block is undefined behaviour, [None]. *)

From S2P Require Import Prelude.
Local Open Scope Z_scope.

Abbreviation Heap := (gmap Z bytes).

(** The allocator: an address that no live block has, or failure. *)
Class Allocator := {
  fresh : Heap → option Z;
  fresh_free h a : fresh h = Some a → h !! a = None;
  fresh_range h a : fresh h = Some a → 0 <= a < 2 ^ 64;
}.

Definition SMALL_STR_CAP : nat := 15.

Record SmallStr := mkSmall { sdata : bytes; slen : Z }.

(** [data[8..15]] takes the low seven bytes of the length. *)
Definition store_heap_len (data : bytes) (len : nat) : bytes :=
  take 8 data ++ take 7 (le_bytes 8 (Z.of_nat len)).

Definition read_heap_len (data : bytes) : Z := of_le (take 7 (drop 8 data) ++ [Byte.x00]).

(** [usize::from_ne_bytes(data[..8])] *)
Definition heap_ptr (data : bytes) : Z := of_le (take 8 data).

Section Ops.
Context `{Allocator}.
Implicit Types (sm : SmallStr) (h : Heap) (s : bytes).

(** [SmallStr::new] and [from_string] *)
Definition small_from s h : option (SmallStr * Heap) :=
  if (length s <=? SMALL_STR_CAP)%nat
  then Some (mkSmall (s ++ replicate (SMALL_STR_CAP - length s) Byte.x00) (Z.of_nat (length s)), h)
  else
    a ← fresh h;
    let data := le_bytes 8 a ++ replicate 7 Byte.x00 in
    Some (mkSmall (store_heap_len data (length s)) 0xFF, <[a := s]> h).

Definition as_str sm h : option bytes :=
  if negb (slen sm =? 0xFF) then Some (take (Z.to_nat (slen sm)) (sdata sm))
  else
    block ← h !! heap_ptr (sdata sm);
    if read_heap_len (sdata sm) <=? Z.of_nat (length block)
    then Some (take (Z.to_nat (read_heap_len (sdata sm))) block) else None.

Definition small_len sm : Z := if negb (slen sm =? 0xFF) then slen sm else read_heap_len (sdata sm).

(** [Box::from_raw] of the block: it has to be live and of that length. *)
Definition take_block sm h : option (bytes * Heap) :=
  block ← h !! heap_ptr (sdata sm);
  if Z.of_nat (length block) =? read_heap_len (sdata sm)
  then Some (block, delete (heap_ptr (sdata sm)) h) else None.

Definition into_string sm h : option (bytes * Heap) :=
  if negb (slen sm =? 0xFF) then s ← as_str sm h; Some (s, h) else take_block sm h.

(** [Drop] *)
Definition small_drop sm h : option Heap :=
  if slen sm =? 0xFF then p ← take_block sm h; Some p.2 else Some h.

(** [#[derive(Clone)]] copies the sixteen bytes. *)
Definition small_clone sm : SmallStr := mkSmall (sdata sm) (slen sm).

(** [*self = Self::from_string(owned)] drops the old string. *)
Definition replace_with sm s h : option (SmallStr * Heap) :=
  p ← small_from s h; h' ← small_drop sm p.2; Some (p.1, h').

Definition push_str sm s h : option (SmallStr * Heap) :=
  owned ← as_str sm h; replace_with sm (owned ++ s) h.

Definition ensure_len sm (min_len : nat) h : option (SmallStr * Heap) :=
  if small_len sm <? Z.of_nat min_len
  then owned ← as_str sm h; replace_with sm (owned ++ replicate (min_len - length owned) Byte.x00) h
  else Some (sm, h).

(** [CompactKey] has the same layout: [from_string], [as_str] and [Drop]. *)
Definition key_from_string s h : option (SmallStr * Heap) := small_from s h.
Definition key_as_str sm h : option bytes := as_str sm h.
Definition key_drop sm h : option Heap := small_drop sm h.

(** ** Ownership *)

(** [sm] is a string with the bytes [s], and [h] holds its block, if it has one. *)
Definition owns sm s h : Prop :=
  (slen sm = Z.of_nat (length s) ∧ (length s <= SMALL_STR_CAP)%nat ∧ take (length s) (sdata sm) = s) ∨
  (slen sm = 0xFF ∧ (SMALL_STR_CAP < length s)%nat ∧ h !! heap_ptr (sdata sm) = Some s ∧
   read_heap_len (sdata sm) = Z.of_nat (length s)).

Lemma small_heap_fields a (len : nat) :
  0 <= a < 2 ^ 64 → Z.of_nat len < 2 ^ 56 →
  let data := store_heap_len (le_bytes 8 a ++ replicate 7 Byte.x00) len in
  heap_ptr data = a ∧ read_heap_len data = Z.of_nat len.
Proof.
  intros Ha Hl. unfold store_heap_len, heap_ptr, read_heap_len. cbv zeta.
  assert (Hlen : 8%nat = length (le_bytes 8 a)) by by rewrite length_le_bytes.
  rewrite (take_app_length' (le_bytes 8 a) (replicate 7 Byte.x00)) by done. split.
  - rewrite take_app_length' by done. by apply of_le_small.
  - rewrite drop_app_length', of_le_snoc_zero by done.
    rewrite (take_ge (take 7 _)) by (rewrite length_take, length_le_bytes; lia). rewrite take_le_bytes by lia.
    apply of_le_small. simpl. lia.
Qed.

Lemma small_from_owns s h sm h' :
  Z.of_nat (length s) < 2 ^ 56 → small_from s h = Some (sm, h') →
  owns sm s h' ∧ ((slen sm ≠ 0xFF ∧ h' = h) ∨ (h !! heap_ptr (sdata sm) = None ∧ h' = <[heap_ptr (sdata sm) := s]> h ∧ slen sm = 0xFF)).
Proof.
  intros Hl. unfold small_from, owns. destruct (length s <=? SMALL_STR_CAP)%nat eqn:E; split_bool.
  - intros [= <- <-]. simpl. unfold SMALL_STR_CAP in *. split; [|left; split; [lia|done]].
    left. split; [done|]. split; [done|]. by rewrite take_app_length.
  - destruct (fresh h) as [a|] eqn:Ea; [|done]. cbn [mbind option_bind]. cbv zeta.
    set (data := store_heap_len _ _). intros E2. apply (inj Some), pair_equal_spec in E2 as [<- <-].
    destruct (small_heap_fields a (length s) (fresh_range _ _ Ea) Hl) as [Hp Hr]. fold data in Hp, Hr. cbn [sdata slen].
    rewrite Hp, Hr. split.
    + right. split; [done|]. split; [done|]. split; [apply lookup_insert_eq|done].
    + right. split; [by apply fresh_free|]. done.
Qed.

Lemma owns_as_str sm s h : owns sm s h → as_str sm h = Some s ∧ small_len sm = Z.of_nat (length s).
Proof.
  unfold as_str, small_len, SMALL_STR_CAP. intros [(Hs & Hl & Ht)|(Hs & Hl & Hb & Hr)]; rewrite Hs.
  - destruct (Z.of_nat (length s) =? 0xFF) eqn:E; split_bool; [unfold SMALL_STR_CAP in *; lia|]. simpl.
    by rewrite Nat2Z.id, Ht.
  - simpl. rewrite Hb. simpl. rewrite Hr, Z.leb_refl, Nat2Z.id, take_ge by lia. done.
Qed.

Lemma owns_drop sm s h :
  owns sm s h → small_drop sm h = Some (if slen sm =? 0xFF then delete (heap_ptr (sdata sm)) h else h) ∧
  into_string sm h = Some (s, if slen sm =? 0xFF then delete (heap_ptr (sdata sm)) h else h).
Proof.
  intros Ho. destruct (owns_as_str sm s h Ho) as [Ha _]. unfold small_drop, into_string. rewrite Ha.
  destruct (slen sm =? 0xFF) eqn:E; split_bool; [|done]. unfold take_block.
  destruct Ho as [(Hs & Hl & _)|(_ & _ & Hb & Hr)]; [unfold SMALL_STR_CAP in *; lia|].
  rewrite Hb. simpl. by rewrite Hr, Z.eqb_refl.
Qed.

(** Another string keeps its bytes while its block is not touched. *)
Lemma owns_frame sm s h h' :
  owns sm s h → (slen sm = 0xFF → h' !! heap_ptr (sdata sm) = h !! heap_ptr (sdata sm)) → owns sm s h'.
Proof. intros [?|(Hs & ? & Hb & ?)] Hf; [by left|right]. by rewrite Hf. Qed.

Lemma replace_with_owns sm s0 s h sm' h' :
  owns sm s0 h → Z.of_nat (length s) < 2 ^ 56 → replace_with sm s h = Some (sm', h') → owns sm' s h'.
Proof.
  intros Ho Hl. unfold replace_with. destruct (small_from s h) as [[sm1 h1]|] eqn:Hf; [|done]. simpl.
  destruct (small_from_owns s h sm1 h1 Hl Hf) as [Ho1 Hh].
  assert (Ho0 : owns sm s0 h1).
  { eapply owns_frame; [done|]. intros Hs. destruct Hh as [[_ ->]|(Hn & -> & _)]; [done|].
    apply lookup_insert_ne. intros Heq. destruct Ho as [(Hs' & Hsm & _)|(_ & _ & Hb & _)]; [|congruence].
    unfold SMALL_STR_CAP in *. lia. }
  destruct (owns_drop sm s0 h1 Ho0) as [-> _]. simpl. intros [= <- <-]. eapply owns_frame; [done|]. intros Hs1.
  destruct (slen sm =? 0xFF) eqn:E; [|done]. split_bool. apply lookup_delete_ne. intros Heq.
  assert (Hin : is_Some (h !! heap_ptr (sdata sm))).
  { destruct Ho as [(Hs' & Hsm & _)|(_ & _ & Hb & _)]; [unfold SMALL_STR_CAP in *; lia|by eexists]. }
  rewrite Heq in Hin. destruct Hh as [[? _]|(Hn & _)]; [done|]. rewrite Hn in Hin. by destruct Hin.
Qed.

(** ** Properties *)

(** C37: A small string gives back its bytes.  Whatever the allocator, a string
    of less than [2^56] bytes that was stored reads back unchanged, has its
    length, leaves every other string as it was, and returns its block, and
    only that, when it is dropped or turned back into a [String]; [push_str]
    appends; up to fifteen bytes nothing is allocated. *)
Theorem small_str_roundtrip s h sm h' :
  Z.of_nat (length s) < 2 ^ 56 → small_from s h = Some (sm, h') →
  as_str sm h' = Some s ∧ small_len sm = Z.of_nat (length s) ∧
  into_string sm h' = Some (s, h) ∧ small_drop sm h' = Some h ∧
  ((length s <= SMALL_STR_CAP)%nat → h' = h) ∧
  (∀ sm2 s2, owns sm2 s2 h → as_str sm2 h' = Some s2) ∧
  (∀ x sm3 h3, Z.of_nat (length (s ++ x)) < 2 ^ 56 → push_str sm x h' = Some (sm3, h3) →
     as_str sm3 h3 = Some (s ++ x)).
Proof.
  intros Hl Hf. destruct (small_from_owns s h sm h' Hl Hf) as [Ho Hh].
  destruct (owns_as_str sm s h' Ho) as [Hstr ->]. destruct (owns_drop sm s h' Ho) as [-> ->].
  assert (Hback : (if slen sm =? 0xFF then delete (heap_ptr (sdata sm)) h' else h') = h).
  { destruct Hh as [[Hs ->]|(Hn & -> & ->)]; [|by rewrite delete_insert_id]. by rewrite (proj2 (Z.eqb_neq _ _) Hs). }
  rewrite Hback. repeat split; try done.
  - intros Hsm. unfold small_from in Hf. destruct (length s <=? SMALL_STR_CAP)%nat eqn:E; split_bool; [by simplify_eq|lia].
  - intros sm2 s2 Ho2. apply owns_as_str. eapply owns_frame; [done|]. intros Hs2.
    destruct Hh as [[_ ->]|(Hn & -> & _)]; [done|]. apply lookup_insert_ne. intros Heq.
    destruct Ho2 as [(Hs & Hsm & _)|(_ & _ & Hb & _)]; [unfold SMALL_STR_CAP in *; lia|congruence].
  - intros x sm3 h3 Hx. unfold push_str. rewrite Hstr. simpl. intros Hp.
    apply owns_as_str. by eapply replace_with_owns.
Qed.

(** A cloned long string is freed twice.  [Clone] copies the sixteen bytes,
    address included: once either of the two is dropped, reading or dropping
    the other goes through a freed block. *)
Theorem small_str_clone_dangles s h sm h' h2 :
  Z.of_nat (length s) < 2 ^ 56 → (SMALL_STR_CAP < length s)%nat →
  small_from s h = Some (sm, h') → small_drop sm h' = Some h2 →
  as_str (small_clone sm) h' = Some s ∧ as_str (small_clone sm) h2 = None ∧ small_drop (small_clone sm) h2 = None.
Proof.
  intros Hl Hbig Hf Hd. destruct (small_from_owns s h sm h' Hl Hf) as [Ho _].
  assert (small_clone sm = sm) as -> by by destruct sm.
  destruct (owns_as_str sm s h' Ho) as [-> _]. destruct (owns_drop sm s h' Ho) as [Hd' _].
  rewrite Hd in Hd'. destruct Ho as [(_ & ? & _)|(Hs & _)]; [lia|]. rewrite Hs in Hd'. simplify_eq/=.
  split; [done|]. unfold as_str, small_drop, take_block. rewrite Hs. simpl. by rewrite lookup_delete_eq.
Qed.
End Ops.

(** ** Witnesses *)

(** An allocator with two blocks. *)
Definition two_blocks (h : Heap) : option Z :=
  match h !! 4096, h !! 8192 with
  | None, _ => Some 4096
  | Some _, None => Some 8192
  | Some _, Some _ => None
  end.

#[local] Program Instance demo_allocator : Allocator := {| fresh := two_blocks |}.
Next Obligation. unfold two_blocks. intros h a. repeat case_goal; intros; by simplify_eq. Qed.
Next Obligation. unfold two_blocks. intros h a. repeat case_goal; intros; by simplify_eq. Qed.

Definition long_string : bytes := B "a string of more than fifteen bytes".

Lemma small_str_roundtrip_witness :
  ∃ sm h', small_from long_string ∅ = Some (sm, h') ∧ as_str sm h' = Some long_string.
Proof.
  eexists _, _. split; [vm_compute; reflexivity|].
  refine (proj1 (small_str_roundtrip long_string ∅ _ _ _ _)); vm_compute; reflexivity.
Defined.

Lemma small_str_clone_dangles_witness :
  ∃ sm h' h2, small_from long_string ∅ = Some (sm, h') ∧ small_drop sm h' = Some h2 ∧
    small_drop (small_clone sm) h2 = None.
Proof.
  eexists _, _, _. split; [vm_compute; reflexivity|]. split; [vm_compute; reflexivity|].
  refine (proj2 (proj2 (small_str_clone_dangles long_string ∅ _ _ _ _ _ _ _)));
    first [vm_compute; reflexivity | vm_compute; lia].
Defined.
