(* ===== verification/FloatBits.v ===== *)
(** [f64::to_bits] and [f64::from_bits], and how large the results of float operations
    can be: sums and halves of moderate numbers are finite, and differences of the
    least numbers are exact.  A decimal that is exactly a number is read as it. *)

From Stdlib Require Import Floats.SpecFloat.
From S2P Require Import Prelude Float.
Local Open Scope Z_scope.

(** The sign bit. *)
Definition sign_bit (s : bool) : Z := if s then 2 ^ 63 else 0.

Definition to_bits (x : f64) : Z :=
  match x with
  | S754_zero s => sign_bit s
  | S754_infinity s => sign_bit s + 2047 * 2 ^ 52
  | S754_nan => 2047 * 2 ^ 52 + 2 ^ 51
  | S754_finite s m e =>
      sign_bit s + (if Zpos m <? 2 ^ 52 then Zpos m else (e + 1075) * 2 ^ 52 + (Zpos m - 2 ^ 52))
  end.

Definition from_bits (b : Z) : f64 :=
  let s := 2 ^ 63 <=? b in
  let ex := (b / 2 ^ 52) mod 2 ^ 11 in
  let fr := b mod 2 ^ 52 in
  if ex =? 0 then
    match fr with Zpos m => S754_finite s m (-1074) | _ => S754_zero s end
  else if ex =? 2047 then (if fr =? 0 then S754_infinity s else S754_nan)
  else match fr + 2 ^ 52 with Zpos m => S754_finite s m (ex - 1075) | _ => S754_nan end.

(** A number the format can hold. *)
Definition f64_valid (x : f64) : bool := valid_binary 53 1024 x.

Lemma digits2_bounds m : 2 ^ (Zpos (digits2_pos m) - 1) <= Zpos m < 2 ^ Zpos (digits2_pos m).
Proof.
  induction m as [m IH|m IH|]; simpl digits2_pos; [| |simpl; lia];
    rewrite Pos2Z.inj_succ, Z.pow_succ_r by lia;
    replace (Z.succ (Zpos (digits2_pos m)) - 1) with (Z.succ (Zpos (digits2_pos m) - 1)) by lia;
    rewrite Z.pow_succ_r by lia; lia.
Qed.

(** The two forms of a finite number: subnormal, or with 53 bits. *)
Lemma valid_finite s m e :
  f64_valid (S754_finite s m e) = true →
  (e = -1074 ∧ Zpos m < 2 ^ 52) ∨ (2 ^ 52 <= Zpos m < 2 ^ 53 ∧ -1074 <= e <= 971).
Proof.
  unfold f64_valid, valid_binary, bounded, canonical_mantissa, fexp, emin. intros [Hc He]%andb_true_iff.
  apply Z.eqb_eq in Hc. apply Z.leb_le in He. pose proof (digits2_bounds m) as Hd.
  set (d := Zpos (digits2_pos m)) in *.
  assert (d = 53 ∧ -1074 <= e ∨ d < 53 ∧ e = -1074) as [[Hd53 ?]|[Hdlt ->]] by lia.
  - right. rewrite Hd53 in Hd. simpl Z.sub in Hd. lia.
  - left. split; [done|]. pose proof (Z.pow_le_mono_r 2 d 52 ltac:(lia) ltac:(lia)). lia.
Qed.

Lemma to_bits_range x : f64_valid x = true → 0 <= to_bits x < 2 ^ 64.
Proof.
  destruct x as [[]|[]| |s m e]; try (intros _; simpl; lia). intros Hv%valid_finite.
  unfold to_bits, sign_bit. destruct (Zpos m <? 2 ^ 52) eqn:E; split_bool; destruct s; lia.
Qed.

(** Split a pattern into its three fields. *)
Lemma from_bits_fields s ex fr :
  0 <= ex < 2 ^ 11 → 0 <= fr < 2 ^ 52 →
  from_bits (sign_bit s + (ex * 2 ^ 52 + fr)) =
    if ex =? 0 then match fr with Zpos m => S754_finite s m (-1074) | _ => S754_zero s end
    else if ex =? 2047 then (if fr =? 0 then S754_infinity s else S754_nan)
    else match fr + 2 ^ 52 with Zpos m => S754_finite s m (ex - 1075) | _ => S754_nan end.
Proof.
  intros Hex Hfr. unfold from_bits. set (b := sign_bit s + (ex * 2 ^ 52 + fr)).
  assert (Hs : (2 ^ 63 <=? b) = s).
  { unfold b, sign_bit. destruct s; [apply Z.leb_le|apply Z.leb_gt]; nia. }
  assert (Hq : b / 2 ^ 52 = (if s then 2 ^ 11 else 0) + ex).
  { unfold b, sign_bit. symmetry. apply (Z.div_unique_pos _ _ _ fr); destruct s; lia. }
  assert (Hr : b mod 2 ^ 52 = fr).
  { unfold b, sign_bit. symmetry. apply (Z.mod_unique_pos _ _ ((if s then 2 ^ 11 else 0) + ex)); destruct s; lia. }
  assert (He : (b / 2 ^ 52) mod 2 ^ 11 = ex).
  { rewrite Hq. symmetry. apply (Z.mod_unique_pos _ _ (if s then 1 else 0)); destruct s; lia. }
  by rewrite Hs, He, Hr.
Qed.

Lemma from_to_bits x : f64_valid x = true → from_bits (to_bits x) = x.
Proof.
  destruct x as [s|s| |s m e]; [by destruct s|by destruct s|done|]. intros Hv%valid_finite. unfold to_bits.
  destruct (Zpos m <? 2 ^ 52) eqn:E; split_bool.
  - destruct Hv as [[-> _]|?]; [|lia]. replace (Zpos m) with (0 * 2 ^ 52 + Zpos m) by lia.
    by rewrite from_bits_fields by lia.
  - destruct Hv as [?|[Hm He]]; [lia|]. rewrite from_bits_fields by lia.
    rewrite (proj2 (Z.eqb_neq _ _)), (proj2 (Z.eqb_neq _ _)) by lia.
    replace (Zpos m - 2 ^ 52 + 2 ^ 52) with (Zpos m) by lia. f_equal. lia.
Qed.


(** ** Shifting *)

Lemma shr_1_half mrs : 0 <= shr_m mrs → shr_m (shr_1 mrs) = shr_m mrs / 2.
Proof.
  destruct mrs as [[|[p|p|]|p] r s]; cbn [shr_1 shr_m]; intros Hm; try done; try lia.
  - rewrite Pos2Z.inj_xI. apply (Z.div_unique _ 2 _ 1); lia.
  - rewrite Pos2Z.inj_xO. apply (Z.div_unique _ 2 _ 0); lia.
Qed.

Lemma shr_half p mrs : 0 <= shr_m mrs → shr_m (SpecFloat.iter_pos shr_1 p mrs) = shr_m mrs / 2 ^ Zpos p.
Proof.
  assert (Hdiv : ∀ m a b, 0 <= m → 0 <= a → 0 <= b → m / 2 ^ a / 2 ^ b = m / 2 ^ (a + b)).
  { intros. rewrite Z.pow_add_r, Z.div_div by lia. done. }
  revert mrs. induction p as [p IH|p IH|]; intros mrs Hm; cbn [SpecFloat.iter_pos].
  - assert (H1 : shr_m (shr_1 mrs) = shr_m mrs / 2 ^ 1) by exact (shr_1_half mrs Hm). assert (0 <= shr_m (shr_1 mrs)) by (rewrite H1; apply Z.div_pos; lia).
    assert (0 <= shr_m (SpecFloat.iter_pos shr_1 p (shr_1 mrs))) by (rewrite IH by done; apply Z.div_pos; lia).
    rewrite !IH, H1 by done. rewrite !Hdiv by lia. do 2 f_equal. lia.
  - assert (0 <= shr_m (SpecFloat.iter_pos shr_1 p mrs)) by (rewrite IH by done; apply Z.div_pos; lia).
    rewrite !IH, Hdiv by (done || lia). f_equal. f_equal. lia.
  - by apply shr_1_half.
Qed.

Lemma loc_record_m m l : shr_m (shr_record_of_loc m l) = m.
Proof. by destruct l as [|[]]. Qed.

Lemma shr_fexp_spec m e l :
  0 <= m →
  let e' := Z.max e (fexp 53 1024 (Zdigits2 m + e)) in
  (shr_fexp 53 1024 m e l).2 = e' ∧ shr_m (shr_fexp 53 1024 m e l).1 = m / 2 ^ (e' - e).
Proof.
  intros Hm. unfold shr_fexp, shr. set (x := fexp 53 1024 (Zdigits2 m + e)). cbv zeta.
  destruct (x - e) as [|p|p] eqn:Hd; simpl.
  - rewrite Z.max_l by lia. rewrite Z.sub_diag, Z.div_1_r. split; [done|apply loc_record_m].
  - rewrite Z.max_r by lia. rewrite Hd. split; [lia|]. rewrite shr_half; rewrite loc_record_m; done.
  - rewrite Z.max_l by lia. rewrite Z.sub_diag, Z.div_1_r. split; [done|apply loc_record_m].
Qed.

Lemma round_nearest_bounds m l : m <= round_nearest_even m l <= m + 1.
Proof. destruct l as [|[]]; simpl; try lia. destruct (Z.even m); lia. Qed.

(** ** Digits *)

Lemma digits_le m n : 0 <= n → 0 <= m → Zdigits2 m <= n ↔ m < 2 ^ n.
Proof.
  intros Hn Hm. destruct m as [|p|p]; [|simpl|lia].
  - simpl. pose proof (Z.pow_pos_nonneg 2 n ltac:(lia) Hn). lia.
  - pose proof (digits2_bounds p) as [Hl Hu]. split; intros Hx.
    + pose proof (Z.pow_le_mono_r 2 (Zpos (digits2_pos p)) n ltac:(lia) Hx). lia.
    + destruct (Z.le_gt_cases (Zpos (digits2_pos p)) n) as [|Hgt]; [done|].
      pose proof (Z.pow_le_mono_r 2 n (Zpos (digits2_pos p) - 1) ltac:(lia) ltac:(lia)). lia.
Qed.

Lemma digits_nonneg m : 0 <= Zdigits2 m.
Proof. by destruct m. Qed.

Lemma digits_div m n : 0 <= m → 0 <= n → Zdigits2 (m / 2 ^ n) <= Z.max 0 (Zdigits2 m - n).
Proof.
  intros Hm Hn. pose proof (proj1 (digits_le m (Zdigits2 m) (digits_nonneg m) Hm) ltac:(lia)) as Hb.
  pose proof (digits_nonneg m). apply digits_le; [lia|apply Z.div_pos; lia|].
  apply Z.div_lt_upper_bound; [lia|]. rewrite <- Z.pow_add_r by lia.
  eapply Z.lt_le_trans; [exact Hb|]. apply Z.pow_le_mono_r; lia.
Qed.

Lemma digits_mul m n : 0 <= m → 0 <= n → Zdigits2 (m * 2 ^ n) <= Zdigits2 m + n.
Proof.
  intros Hm Hn. pose proof (digits_nonneg m). pose proof (proj1 (digits_le m (Zdigits2 m) (digits_nonneg m) Hm) ltac:(lia)) as Hb.
  apply digits_le; [lia|nia|]. rewrite Z.pow_add_r by lia. nia.
Qed.

Lemma digits_add a b n : 0 <= n → Zdigits2 a <= n → Zdigits2 b <= n → Zdigits2 (a + b) <= n + 1.
Proof.
  assert (Habs : ∀ x, Zdigits2 x = Zdigits2 (Z.abs x)) by (by intros []).
  intros Hn Ha Hb. rewrite (Habs a) in Ha. rewrite (Habs b) in Hb. rewrite (Habs (a + b)).
  apply digits_le in Ha; [|lia..]. apply digits_le in Hb; [|lia..]. apply digits_le; [lia..|].
  rewrite Z.pow_add_r by lia. lia.
Qed.

(** ** Finite results *)

(** [x] is finite and below [2^k] in magnitude. *)
Definition fin (k : Z) (x : f64) : Prop :=
  match x with
  | S754_zero _ => True
  | S754_finite _ m e => Zdigits2 (Zpos m) + e <= k
  | _ => False
  end.

Lemma fin_mono k k' x : k <= k' → fin k x → fin k' x.
Proof. destruct x; simpl; try done. lia. Qed.

Lemma fin_num k x : fin k x → num x.
Proof. by destruct x. Qed.

Lemma round_aux_fin s m e l k :
  0 <= m → Zdigits2 m + e <= k → e <= k → -1000 <= k <= 900 → fin (k + 1) (binary_round_aux 53 1024 s m e l).
Proof.
  intros Hm Hd He Hk. unfold binary_round_aux. pose proof (shr_fexp_spec m e l Hm) as [He1 Hm1].
  destruct (shr_fexp 53 1024 m e l) as [mrs1 e1]. simpl in He1, Hm1.
  assert (Hm1p : 0 <= shr_m mrs1) by (rewrite Hm1; apply Z.div_pos; lia).
  pose proof (digits_div m (e1 - e) Hm ltac:(lia)) as Hd1. rewrite He1 in Hd1 at 1. rewrite <- Hm1 in Hd1.
  pose proof (round_nearest_bounds (shr_m mrs1) (loc_of_shr_record mrs1)) as Hr.
  set (m2 := round_nearest_even _ _) in *. unfold fexp, emin in *.
  assert (He1k : e1 <= k) by lia.
  assert (Hd2 : Zdigits2 m2 <= k - e1 + 1).
  { apply digits_le; [lia..|]. assert (shr_m mrs1 < 2 ^ (k - e1)) by (apply digits_le; lia). rewrite Z.pow_add_r by lia. lia. }
  pose proof (shr_fexp_spec m2 e1 loc_Exact ltac:(lia)) as [He2 Hm3]. destruct (shr_fexp 53 1024 m2 e1 loc_Exact) as [mrs2 e2].
  simpl in He2, Hm3. unfold fexp, emin in He2.
  pose proof (digits_div m2 (e2 - e1) ltac:(lia) ltac:(lia)) as Hd3. unfold fexp, emin in Hm3. rewrite <- He2 in Hm3. rewrite <- Hm3 in Hd3.
  assert (Hm3p : 0 <= shr_m mrs2) by (rewrite Hm3; apply Z.div_pos; lia).
  destruct (shr_m mrs2) as [|p|p]; [done| |lia]. rewrite (proj2 (Z.leb_le _ _)) by lia. unfold fin.
  assert (0 < Zdigits2 (Zpos p)) by done. lia.
Qed.

Lemma shl_align_spec m e e' :
  let '(m', e2) := shl_align m e e' in e2 = Z.min e e' ∧ Zpos m' = Zpos m * 2 ^ (e - e2).
Proof.
  unfold shl_align. destruct (e' - e) as [|d|d] eqn:Hd.
  - rewrite Z.min_l by lia. split; [done|]. rewrite Z.sub_diag. lia.
  - rewrite Z.min_l by lia. split; [done|]. rewrite Z.sub_diag. lia.
  - rewrite Z.min_r by lia. split; [done|]. replace (e - e') with (Zpos d) by lia. clear.
    induction d as [|d IH] using Pos.peano_ind; [simpl; lia|]. rewrite Pos.iter_succ, Pos2Z.inj_xO, IH, Pos2Z.inj_succ, Z.pow_succ_r by lia. lia.
Qed.

Lemma binary_round_fin s m e k :
  Zdigits2 (Zpos m) + e <= k → -1000 <= k <= 900 → fin (k + 1) (binary_round 53 1024 s m e).
Proof.
  intros Hd Hk. unfold binary_round.
  pose proof (shl_align_spec m e (fexp 53 1024 (Zpos (digits2_pos m) + e))) as Hs.
  destruct (shl_align m e _) as [m' e']. destruct Hs as [He Hm].
  assert (0 < Zdigits2 (Zpos m)) by done.
  apply round_aux_fin; [done| |lia|done]. rewrite Hm. pose proof (digits_mul (Zpos m) (e - e') ltac:(lia) ltac:(lia)). lia.
Qed.

Lemma normalize_fin n e k s :
  Zdigits2 n + e <= k → -1000 <= k <= 900 → fin (k + 1) (binary_normalize 53 1024 n e s).
Proof. destruct n as [|p|p]; [done|..]; intros; by apply binary_round_fin. Qed.

Lemma f64_add_fin k a b : -1000 <= k <= 800 → fin k a → fin k b → fin (k + 2) (f64_add a b).
Proof.
  intros Hk Ha Hb. destruct a as [sa|sa| |sa ma ea], b as [sb|sb| |sb mb eb]; try done.
  - by destruct sa, sb.
  - eapply fin_mono; [|exact Hb]; lia.
  - eapply fin_mono; [|exact Ha]; lia.
  - unfold f64_add, SFadd. unfold fin in Ha, Hb.
    pose proof (shl_align_spec ma ea (Z.min ea eb)) as Hsa. pose proof (shl_align_spec mb eb (Z.min ea eb)) as Hsb.
    destruct (shl_align ma ea _) as [ma' ea'], (shl_align mb eb _) as [mb' eb']. destruct Hsa as [Hea Hma], Hsb as [Heb Hmb].
    cbn [fst]. replace (k + 2) with (k + 1 + 1) by lia. apply normalize_fin; [|lia].
    assert (0 < Zdigits2 (Zpos ma)) by done. assert (0 < Zdigits2 (Zpos mb)) by done.
    pose proof (digits_mul (Zpos ma) (ea - ea') ltac:(lia) ltac:(lia)) as Hda.
    pose proof (digits_mul (Zpos mb) (eb - eb') ltac:(lia) ltac:(lia)) as Hdb.
    rewrite <- Hma in Hda. rewrite <- Hmb in Hdb.
    assert (Hneg : ∀ s x, Zdigits2 (cond_Zopp s x) = Zdigits2 x) by (by intros [] []).
    pose proof (digits_add (cond_Zopp sa (Zpos ma')) (cond_Zopp sb (Zpos mb')) (k - Z.min ea eb)) as Hsum.
    rewrite !Hneg in Hsum. specialize (Hsum ltac:(lia) ltac:(lia) ltac:(lia)). lia.
Qed.

Lemma f64_half_fin k a : -1000 <= k <= 800 → fin k a → fin (k + 1) (f64_div a (f64_of_Z 2)).
Proof.
  intros Hk Ha. change (f64_of_Z 2) with (S754_finite false 4503599627370496 (-51)).
  destruct a as [sa|sa| |sa ma ea]; try done. unfold f64_div, SFdiv, SFdiv_core_binary. unfold fin in Ha.
  set (e' := Z.min _ _). set (m' := match ea - -51 - e' with Z0 => _ | Zpos _ => _ | Zneg _ => _ end).
  assert (Hd2 : Zdigits2 (Zpos 4503599627370496) = 53) by reflexivity.
  assert (He : e' <= ea + 51 ∧ e' <= k) by (unfold e', fexp, emin; rewrite Hd2; lia).
  assert (Hm : m' = Zpos ma * 2 ^ (ea + 51 - e')).
  { unfold m'. replace (ea + 51 - e') with (ea - -51 - e') by lia. destruct (ea - -51 - e') as [|d|d] eqn:Hd; [lia| |lia].
    apply Z.shiftl_mul_pow2. lia. }
  clearbody m' e'. subst m'.
  pose proof (Z_div_mod (Zpos ma * 2 ^ (ea + 51 - e')) 4503599627370496 ltac:(lia)) as Hdiv.
  destruct (Z.div_eucl _ _) as [q r]. destruct Hdiv as [Hq Hr]. pose proof (Z.pow_pos_nonneg 2 (ea + 51 - e') ltac:(lia) ltac:(lia)).
  assert (Hq' : q = (Zpos ma * 2 ^ (ea + 51 - e')) / 2 ^ 52) by (apply Z.div_unique_pos with r; lia).
  assert (Hdq : Zdigits2 q <= Z.max 0 (Zdigits2 (Zpos ma) + (ea + 51 - e') - 52)).
  { rewrite Hq'. pose proof (digits_div (Zpos ma * 2 ^ (ea + 51 - e')) 52 ltac:(nia) ltac:(lia)).
    pose proof (digits_mul (Zpos ma) (ea + 51 - e') ltac:(lia) ltac:(lia)). lia. }
  rewrite xorb_false_r. apply round_aux_fin; [rewrite Hq'; apply Z.div_pos; nia|lia|lia|lia].
Qed.

(** ** Order *)

Lemma f64_le_total a b : num a → num b → f64_le a b = false → f64_le b a = true.
Proof.
  intros Ha Hb Hle. rewrite f64_le_key in Hle by done. rewrite f64_le_key by done. apply negb_false_iff in Hle.
  apply negb_true_iff. apply not_true_iff_false. intros Hlt. rewrite f64_lt_key in Hle, Hlt by done.
  pose proof (key_cmp_trans _ _ _ Hle Hlt) as Ht. assert (key_cmp (f64_key b) (f64_key b) = Eq) by (by apply key_cmp_eq). congruence.
Qed.

(** ** The least numbers *)

Lemma round_least s m : Zpos m < 2 ^ 52 → binary_round 53 1024 s m (-1074) = S754_finite s m (-1074).
Proof.
  intros Hm. assert (Hd : fexp 53 1024 (Zpos (digits2_pos m) + -1074) = -1074).
  { pose proof (proj2 (digits_le (Zpos m) 52 ltac:(lia) ltac:(lia)) Hm) as Hd. unfold Zdigits2 in Hd. unfold fexp, emin. lia. }
  unfold binary_round. rewrite Hd. unfold shl_align. change (-1074 - -1074) with 0. cbv beta iota.
  change (Zpos (digits2_pos m)) with (Zdigits2 (Zpos m)) in Hd. unfold binary_round_aux, shr_fexp. rewrite Hd.
  change (-1074 - -1074) with 0. cbn [shr shr_record_of_loc loc_of_shr_record shr_m round_nearest_even]. rewrite Hd. reflexivity.
Qed.

(** The score with the bits of a number below [2^52]. *)
Lemma from_bits_least a :
  0 <= a < 2 ^ 52 → from_bits a = match a with Zpos m => S754_finite false m (-1074) | _ => S754_zero false end.
Proof.
  intros Ha. pose proof (from_bits_fields false 0 a ltac:(lia) Ha) as Hf. simpl in Hf. rewrite <- Hf. done.
Qed.

(** Two of them differ by far less than [EPSILON]. *)
Lemma least_close a b : 0 <= a < 2 ^ 52 → 0 <= b < 2 ^ 52 → f64_lt EPSILON (f64_abs (f64_sub (from_bits a) (from_bits b))) = false.
Proof.
  intros Ha Hb. rewrite !from_bits_least by done.
  assert (Hn : ∀ n, Z.abs n < 2 ^ 52 → f64_lt EPSILON (f64_abs (binary_normalize 53 1024 n (-1074) false)) = false).
  { intros [|p|p] Hp; [done|..]; unfold binary_normalize; rewrite round_least by lia; done. }
  destruct a as [|p|p], b as [|q|q]; try done; try lia. unfold f64_sub, SFsub, shl_align. simpl Z.sub. cbn [fst cond_Zopp].
  apply Hn. lia.
Qed.

Lemma f64_le_trans a b d : num a → num b → num d → f64_le a b = true → f64_le b d = true → f64_le a d = true.
Proof.
  intros Ha Hb Hd. rewrite !f64_le_key by done. rewrite !negb_true_iff, <- !not_true_iff_false, !f64_lt_key by done.
  intros H1 H2 H3. destruct (key_cmp (f64_key a) (f64_key b)) eqn:E.
  - apply key_cmp_eq in E. rewrite E in H3. done.
  - apply H2. by eapply key_cmp_trans.
  - apply H1. rewrite key_cmp_antisym, E. done.
Qed.

(** ** Exact decimals

    Rounding leaves a number of the format alone, whatever multiple of its unit it
    is given in; so a decimal that is exactly such a number is read as it. *)

Lemma iter_pos_nat {A} (f : A → A) p x : SpecFloat.iter_pos f p x = Nat.iter (Pos.to_nat p) f x.
Proof.
  revert x. induction p as [p IH|p IH|]; intros x; cbn [SpecFloat.iter_pos]; [| |done].
  - rewrite !IH, <- Nat.iter_add, Pos2Nat.inj_xI, <- Nat.iter_succ_r. f_equal. lia.
  - rewrite !IH, <- Nat.iter_add, Pos2Nat.inj_xO. f_equal. lia.
Qed.

(** [m * 2^n] *)
Definition doubled (m : positive) (n : nat) : positive := Nat.iter n xO m.

Lemma doubled_S m n : doubled m (S n) = xO (doubled m n).
Proof. done. Qed.

Lemma doubled_eq m n : Zpos (doubled m n) = Zpos m * 2 ^ Z.of_nat n.
Proof.
  induction n as [|n IH]; [unfold doubled; simpl; lia|].
  rewrite doubled_S, Pos2Z.inj_xO, IH, Nat2Z.inj_succ, Z.pow_succ_r by lia. lia.
Qed.

Lemma doubled_digits m n : Zpos (digits2_pos (doubled m n)) = Zpos (digits2_pos m) + Z.of_nat n.
Proof.
  induction n as [|n IH]; [unfold doubled; simpl; lia|].
  rewrite doubled_S, Nat2Z.inj_succ. cbn [digits2_pos]. rewrite Pos2Z.inj_succ, IH. lia.
Qed.

Lemma shr_doubled m n :
  Nat.iter n shr_1 (Build_shr_record (Zpos (doubled m n)) false false) = Build_shr_record (Zpos m) false false.
Proof. induction n as [|n IH]; [done|]. rewrite Nat.iter_succ_r. exact IH. Qed.

Lemma valid_exponent s m e :
  f64_valid (S754_finite s m e) = true → fexp 53 1024 (Zpos (digits2_pos m) + e) = e ∧ e <= 971.
Proof.
  unfold f64_valid, valid_binary, bounded, canonical_mantissa. intros [Hc He]%andb_true_iff. by split; apply Z.eqb_eq || apply Z.leb_le.
Qed.

Lemma round_exact s m e j :
  f64_valid (S754_finite s m e) = true → 0 <= j →
  binary_round_aux 53 1024 s (Zpos m * 2 ^ j) (e - j) loc_Exact = S754_finite s m e.
Proof.
  intros [Hc He]%valid_exponent Hj. rewrite <- (Z2Nat.id j) by done. generalize (Z.to_nat j). clear Hj. intros n.
  rewrite <- doubled_eq. unfold binary_round_aux, shr_fexp. cbn [shr_record_of_loc Zdigits2]. rewrite doubled_digits.
  replace (Zpos (digits2_pos m) + Z.of_nat n + (e - Z.of_nat n)) with (Zpos (digits2_pos m) + e) by lia. rewrite Hc.
  replace (e - (e - Z.of_nat n)) with (Z.of_nat n) by lia.
  assert (Hs : shr (Build_shr_record (Zpos (doubled m n)) false false) (e - Z.of_nat n) (Z.of_nat n) =
    (Build_shr_record (Zpos m) false false, e)).
  { destruct n as [|n]; [simpl; f_equal; lia|]. change (Z.of_nat (S n)) with (Zpos (Pos.of_succ_nat n)). cbn [shr].
    rewrite iter_pos_nat, SuccNat2Pos.id_succ, shr_doubled.
    f_equal. lia. }
  rewrite Hs. cbn [shr_m loc_of_shr_record round_nearest_even Zdigits2 shr_record_of_loc]. rewrite Hc, Z.sub_diag.
  cbn [shr shr_m]. change (1024 - 53) with 971. by rewrite (proj2 (Z.leb_le e 971)).
Qed.

(** The sign takes no part in rounding. *)
Lemma round_sign s q e l m e' :
  binary_round_aux 53 1024 false q e l = S754_finite false m e' → binary_round_aux 53 1024 s q e l = S754_finite s m e'.
Proof.
  unfold binary_round_aux. destruct (shr_fexp _ _ _ _ _) as [r1 e1]. destruct (shr_fexp _ _ _ _ _) as [r2 e2].
  destruct (shr_m r2); try done. destruct (_ <=? _); [|done]. by intros [= -> ->].
Qed.

Lemma f64_of_decimal_sign s d e m e' :
  f64_of_decimal false d e = S754_finite false m e' → f64_of_decimal s d e = S754_finite s m e'.
Proof.
  unfold f64_of_decimal. destruct d as [|d|d]; try done. destruct (0 <=? e).
  - destruct s; [|done]. unfold binary_normalize, binary_round. destruct (shl_align _ _ _). apply round_sign.
  - destruct (SFdiv_core_binary _ _ _ _ _ _) as [[q e1] l]. apply round_sign.
Qed.

(** A number that is a natural number is read from its digits. *)
Lemma decimal_whole m e :
  f64_valid (S754_finite false m e) = true → 0 <= e → f64_of_decimal false (Zpos m * 2 ^ e) 0 = S754_finite false m e.
Proof.
  intros Hv He. destruct (valid_exponent _ _ _ Hv) as [Hc _]. rewrite <- (Z2Nat.id e) at 1 by done.
  rewrite <- doubled_eq. unfold f64_of_decimal. simpl Z.leb. cbv iota. change (Z.to_pos (10 ^ 0)) with 1%positive.
  rewrite Pos.mul_1_r. unfold binary_normalize, binary_round. rewrite doubled_digits, Z2Nat.id, Z.add_0_r by done. rewrite Hc.
  assert (shl_align (doubled m (Z.to_nat e)) 0 e = (doubled m (Z.to_nat e), 0)) as ->.
  { unfold shl_align. rewrite Z.sub_0_r. by destruct e. }
  rewrite doubled_eq, Z2Nat.id by done. pose proof (round_exact false m e e Hv He) as Hr. by rewrite Z.sub_diag in Hr.
Qed.

(** The binary digits of [m * 5^q] and [10^q] differ by those of [m], less [q]. *)
Lemma digits_of_decimal m q N D :
  0 <= q → Zpos N = Zpos m * 5 ^ q → Zpos D = 10 ^ q →
  Zpos (digits2_pos N) - Zpos (digits2_pos D) <= Zpos (digits2_pos m) - q.
Proof.
  intros Hq HN HD. pose proof (digits2_bounds N) as [HN1 _]. pose proof (digits2_bounds m) as [_ Hm].
  pose proof (digits2_bounds D) as [_ HD2].
  set (n := Zpos (digits2_pos N)) in *. set (d := Zpos (digits2_pos D)) in *. set (k := Zpos (digits2_pos m)) in *.
  assert (Hlt : 2 ^ (n - 1 + q) < 2 ^ (k + d)).
  { rewrite !Z.pow_add_r by lia. assert (E : Zpos N * 2 ^ q = Zpos m * Zpos D).
    { rewrite HN, HD. change 10 with (5 * 2). rewrite Z.pow_mul_l. lia. }
    pose proof (Z.pow_pos_nonneg 2 q ltac:(lia) Hq). nia. }
  apply Z.pow_lt_mono_r_iff in Hlt; lia.
Qed.

Lemma fexp_mono a b : a <= b → fexp 53 1024 a <= fexp 53 1024 b.
Proof. unfold fexp. lia. Qed.

(** A number with a binary fraction is read from its decimal fraction. *)
Lemma decimal_fraction m e :
  f64_valid (S754_finite false m e) = true → e < 0 → f64_of_decimal false (Zpos m * 5 ^ (- e)) e = S754_finite false m e.
Proof.
  intros Hv He. destruct (valid_exponent _ _ _ Hv) as [Hc _]. set (q := - e). assert (Hq : 0 < q) by lia.
  assert (H5 : 0 < 5 ^ q) by (apply Z.pow_pos_nonneg; lia). assert (H10 : 0 < 10 ^ q) by (apply Z.pow_pos_nonneg; lia).
  destruct (Zpos m * 5 ^ q) as [|N|N] eqn:HN; try lia. destruct (10 ^ q) as [|D|D] eqn:HD; try lia.
  unfold f64_of_decimal. rewrite (proj2 (Z.leb_gt 0 e)) by done. fold q. rewrite HD.
  unfold SFdiv_core_binary. cbn [Zdigits2]. rewrite !Z.add_0_r, Z.sub_0_r.
  pose proof (digits_of_decimal m q N D ltac:(lia) (eq_sym HN) (eq_sym HD)) as Hd.
  set (e' := Z.min _ _). assert (He' : e' <= e).
  { unfold e'. pose proof (fexp_mono _ _ Hd) as Hf. replace (Zpos (digits2_pos m) - q) with (Zpos (digits2_pos m) + e) in Hf by lia. lia. }
  rewrite Z.sub_0_l.
  assert (Hm' : match - e' with Z0 => Zpos N | Zpos _ => Z.shiftl (Zpos N) (- e') | Zneg _ => 0 end = Zpos N * 2 ^ (- e')).
  { destruct (- e') as [|p|p] eqn:Ep; [lia| |lia]. by rewrite Z.shiftl_mul_pow2 by lia. }
  rewrite Hm'. assert (Hex : Zpos N * 2 ^ (- e') = Zpos D * (Zpos m * 2 ^ (e - e')) + 0).
  { rewrite <- HN, <- HD. change 10 with (5 * 2). rewrite Z.pow_mul_l. replace (- e') with (q + (e - e')) by lia.
    rewrite Z.pow_add_r by lia. lia. }
  pose proof (Z_div_mod (Zpos N * 2 ^ (- e')) (Zpos D) ltac:(lia)) as Hdm.
  destruct (Z.div_eucl (Zpos N * 2 ^ (- e')) (Zpos D)) as [u r].
  destruct Hdm as [Hdm Hr0]. rewrite Hex in Hdm.
  destruct (Z.div_mod_unique (Zpos D) (Zpos m * 2 ^ (e - e')) u 0 r) as [<- <-]; [lia|lia|exact Hdm|].
  assert (new_location (Zpos D) 0 = loc_Exact) as -> by (unfold new_location; by destruct (Z.even _)).
  pose proof (round_exact false m e (e - e') Hv ltac:(lia)) as Hr. by replace (e - (e - e')) with e' in Hr by lia.
Qed.
