(* ===== verification/Rdb.v ===== *)
(** Snapshots: storage/rdb.rs.

    A file is its bytes.  [save] produces them from the slots of the map in
    order; [load] consumes them with a reader that fails with
    [UnexpectedEof] or with the message of its [InvalidData] error, and keeps
    the keys loaded before a failure.  The files themselves, [fsync]
    and the renaming of the temporary file are the subject of [RdbFile]. *)

From S2P Require Import Prelude MapIface Shard CustomMap Collections Float FloatBits ZSet Value Store.
Local Open Scope Z_scope.

Definition MAGIC : bytes := B "FLDB".
Definition VERSION : Z := 2.
Definition TYPE_STRING : Z := 0.
Definition TYPE_HASH : Z := 1.
Definition TYPE_LIST : Z := 2.
Definition TYPE_SET : Z := 3.
Definition TYPE_ZSET : Z := 4.
Definition TYPE_JSON : Z := 5.
Definition TYPE_STREAM : Z := 6.
Definition TYPE_EOF : Z := 0xFF.
Definition MAX_LOAD_STRING : Z := 512 * 1024 * 1024.

(** ** Writing *)

Definition write_u8 (v : Z) : bytes := le_bytes 1 v.
Definition write_u32 (v : Z) : bytes := le_bytes 4 v.
Definition write_u64 (v : Z) : bytes := le_bytes 8 v.
Definition write_bytes (b : bytes) : bytes := write_u32 (Z.of_nat (length b)) ++ b.
Definition write_count {A} (l : list A) : bytes := write_u32 (Z.of_nat (length l)).

Definition write_pair (p : bytes * bytes) : bytes := write_bytes p.1 ++ write_bytes p.2.
Definition write_zentry (e : ZEntry) : bytes := write_bytes (member e) ++ write_u64 (to_bits (score e)).
Definition write_stream_entry (e : StreamId * list (bytes * bytes)) : bytes :=
  write_u64 (ms e.1) ++ write_u64 (seq e.1) ++ write_count e.2 ++ concat (write_pair <$> e.2).

Definition type_byte (v : FyroDB) : Z :=
  match v with
  | VString _ => TYPE_STRING
  | VHash _ => TYPE_HASH
  | VList _ => TYPE_LIST
  | VSet _ => TYPE_SET
  | VZSet _ => TYPE_ZSET
  | VJson _ => TYPE_JSON
  | VStream _ => TYPE_STREAM
  end.

Section Save.
Context `{HashOrder}.

(** What follows the key, for each type. *)
Definition write_value (v : FyroDB) : bytes :=
  match v with
  | VString s | VJson s => write_bytes s
  | VHash h => write_u32 (Z.of_nat (hash_len h)) ++ concat (write_pair <$> hash_iter h)
  | VList l => write_count (deque l) ++ concat (write_bytes <$> deque l)
  | VSet s => write_u32 (Z.of_nat (set_len s)) ++ concat (write_bytes <$> set_strings s)
  | VZSet z => write_count (entries z) ++ concat (write_zentry <$> entries z)
  | VStream s => write_count (s_entries s) ++ concat (write_stream_entry <$> s_entries s)
  end.

Definition write_entry (p : bytes * StoreValue) : bytes :=
  write_u8 (type_byte (value p.2)) ++ write_u64 (expires_ms p.2) ++ write_bytes p.1 ++ write_value (value p.2).

(** The pairs [save] sees: every slot of every shard. *)
Definition slot_pairs (m : CustomMap StoreValue) : list (bytes * StoreValue) :=
  concat ((λ i, match shard_slot_count m i with
                | Some n => omap (peek_slot m i) (List.seq 0 (Z.to_nat n))
                | None => []
                end) <$> List.seq 0 (shard_count m)).

Definition save (c : Clock) (m : CustomMap StoreValue) : bytes :=
  MAGIC ++ write_u8 VERSION ++
  concat (write_entry <$> List.filter (λ p, negb (is_expired c p.2)) (slot_pairs m)) ++ write_u8 TYPE_EOF.
End Save.

(** ** Reading *)

Inductive RdbErr := UnexpectedEof | InvalidData (msg : bytes).
Inductive ROut (A : Type) := ROk (a : A) (rest : bytes) | RErr (e : RdbErr).
Arguments ROk {A} _ _.
Arguments RErr {A} _.

Definition Reader (A : Type) : Type := bytes → ROut A.

#[export] Instance reader_ret : MRet Reader := λ A a r, ROk a r.
#[export] Instance reader_bind : MBind Reader := λ A B f m r,
  match m r with ROk a r' => f a r' | RErr e => RErr e end.

#[export] Instance reader_fmap : FMap Reader := λ A B f m, a ← m; mret (f a).

Definition fail {A} (msg : String.string) : Reader A := λ _, RErr (InvalidData (B msg)).

(** [read_exact] of [n] bytes. *)
Definition read_exact (n : nat) : Reader bytes := λ r,
  if (n <=? length r)%nat then ROk (take n r) (drop n r) else RErr UnexpectedEof.

Definition read_u8 : Reader Z := b ← read_exact 1; mret (of_le b).
Definition read_u32 : Reader Z := b ← read_exact 4; mret (of_le b).
Definition read_u64 : Reader Z := b ← read_exact 8; mret (of_le b).

Definition read_string_bounded : Reader bytes :=
  len ← read_u32;
  if MAX_LOAD_STRING <? len then fail "string length exceeds maximum in RDB"
  else
    buf ← read_exact (Z.to_nat len);
    if utf8_valid buf then mret buf else fail "invalid utf8".

(** [skip_string] reads the same bytes in chunks. *)
Definition skip_string : Reader unit := len ← read_u32; _ ← read_exact (Z.to_nat len); mret tt.

(** [for _ in 0..n] *)
Fixpoint read_many {A} (n : nat) (r : Reader A) : Reader (list A) :=
  match n with O => mret [] | S n' => x ← r; l ← read_many n' r; mret (x :: l) end.

(** A count, bounded by ten million, and that many items. *)
Definition read_bounded {A} (msg : String.string) (r : Reader A) : Reader (list A) :=
  n ← read_u32;
  if 10000000 <? n then fail msg else read_many (Z.to_nat n) r.

Definition read_pair : Reader (bytes * bytes) :=
  f ← read_string_bounded; v ← read_string_bounded; mret (f, v).
Definition read_zentry : Reader (bytes * f64) :=
  m ← read_string_bounded; bits ← read_u64; mret (m, from_bits bits).
Definition read_stream_entry : Reader (StreamId * list (bytes * bytes)) :=
  ms ← read_u64; seq ← read_u64; n ← read_u32; fields ← read_many (Z.to_nat n) read_pair;
  mret (mkId ms seq, fields).

(** The stream rebuilt entry by entry; its groups are not in the file. *)
Definition load_stream (es : list (StreamId * list (bytes * bytes))) : StreamData :=
  foldl (λ s e, mkStream (bt_insert e.1 e.2 (s_entries s)) e.1 (groups s)) StreamData_new es.

Section Load.
Context {M : Type} `{KVMap StoreValue M} `{HashOrder}.

Definition read_value (ty : Z) : Reader FyroDB :=
  if ty =? TYPE_STRING then VString <$> read_string_bounded
  else if ty =? TYPE_HASH then
    (λ ps, VHash (HFull (foldl (λ m p, <[p.1 := p.2]> m) ∅ ps))) <$> read_bounded "hash field count too large" read_pair
  else if ty =? TYPE_LIST then
    (λ l, VList (LFull l)) <$> read_bounded "list length too large" read_string_bounded
  else if ty =? TYPE_SET then
    (λ l, VSet (set_from_strings (set_order (list_to_set l)))) <$> read_bounded "set size too large" read_string_bounded
  else if ty =? TYPE_ZSET then
    (λ l, VZSet (foldl (λ z p, (zset_insert z p.2 p.1).1) ZSetData_new l)) <$>
      read_bounded "zset size too large" read_zentry
  else if ty =? TYPE_JSON then VJson <$> read_string_bounded
  else if ty =? TYPE_STREAM then (λ l, VStream (load_stream l)) <$> read_bounded "stream too large" read_stream_entry
  else fail "unknown type byte".

(** Step over the value of a key that has expired. *)
Definition skip_value (ty : Z) : Reader unit :=
  let skip_pair := (_ ← skip_string; skip_string) in
  let skip_n r := (n ← read_u32; _ ← read_many (Z.to_nat n) r; mret tt) in
  if (ty =? TYPE_STRING) || (ty =? TYPE_JSON) then skip_string
  else if ty =? TYPE_HASH then skip_n skip_pair
  else if (ty =? TYPE_LIST) || (ty =? TYPE_SET) then skip_n skip_string
  else if ty =? TYPE_ZSET then skip_n (_ ← skip_string; _ ← read_u64; mret tt)
  else if ty =? TYPE_STREAM then
    skip_n (_ ← read_u64; _ ← read_u64; skip_n skip_pair)
  else fail "unknown type byte in RDB".

(** One iteration of the loop of [load] after the type byte: the key and its
    value, or [None] for one that has expired. *)
Definition load_entry (now ty : Z) : Reader (option (bytes * StoreValue)) :=
  ttl ← read_u64;
  key ← read_string_bounded;
  if negb (ttl =? 0) && (ttl <=? now) then _ ← skip_value ty; mret None
  else v ← read_value ty; mret (Some (key, mkValue v ttl)).

Inductive LoadResult := Loaded (count : Z) | LoadErr (e : RdbErr) | LoadStuck.

(** [LoadStuck] is exhausted fuel; each iteration consumes the type byte, so
    the number of bytes, plus one, is enough. *)
Fixpoint load_loop (fuel : nat) (now : Z) (r : bytes) (count : Z) (st : Store M) : Store M * LoadResult :=
  match fuel with
  | O => (st, LoadStuck)
  | S fuel' =>
      match read_u8 r with
      | RErr UnexpectedEof => (st, Loaded count)
      | RErr e => (st, LoadErr e)
      | ROk ty r' =>
          if ty =? TYPE_EOF then (st, Loaded count)
          else
            match load_entry now ty r' with
            | RErr e => (st, LoadErr e)
            | ROk None r'' => load_loop fuel' now r'' count st
            | ROk (Some (k, v)) r'' => load_loop fuel' now r'' (count + 1) (put k v st)
            end
      end
  end.

Definition load (c : Clock) (file : option bytes) (st : Store M) : Store M * LoadResult :=
  match file with
  | None => (st, Loaded 0)
  | Some r =>
      if (length r <? 6)%nat then (st, LoadErr (InvalidData (B "RDB file too short")))
      else
        match read_exact 4 r with
        | RErr e => (st, LoadErr e)
        | ROk magic r1 =>
            if negb (bool_decide (magic = MAGIC)) then (st, LoadErr (InvalidData (B "invalid RDB magic")))
            else
              match read_u8 r1 with
              | RErr e => (st, LoadErr e)
              | ROk version r2 =>
                  if VERSION <? version then (st, LoadErr (InvalidData (B "unsupported RDB version")))
                  else load_loop (S (length r2)) (now_ms c) r2 0 st
              end
        end
  end.
End Load.
