(* ===== verification/RdbSpec.v ===== *)
(** Saving and loading: what was saved is loaded back, up to the encoding of
    the containers and the consumer groups of streams. *)

From S2P Require Import Prelude MapIface Shard ShardSpec CustomMap CustomMapSpec Collections CollectionsSpec.
From S2P Require Import Float FloatBits ZSet ZSetSpec Value Store StoreSpec Commands StoreClaims SetSpec Rdb.
Local Open Scope Z_scope.

(** ** Readers undo writers *)

(** [r] reads back what was written as [w], and nothing more. *)
Definition reads {A} (r : Reader A) (w : bytes) (x : A) : Prop := ∀ rest, r (w ++ rest) = ROk x rest.

Lemma reads_bind {A B} (r : Reader A) (f : A → Reader B) w1 w2 x y :
  reads r w1 x → reads (f x) w2 y → reads (r ≫= f) (w1 ++ w2) y.
Proof. intros H1 H2 rest. unfold mbind, reader_bind. rewrite <- app_assoc, H1. apply H2. Qed.

Lemma reads_ret {A} (x : A) : reads (mret x) [] x.
Proof. by intros rest. Qed.

Lemma reads_bind_ret {A B} (r : Reader A) (f : A → B) w x :
  reads r w x → reads (a ← r; mret (f a)) w (f x).
Proof. intros Hr. rewrite <- (app_nil_r w). eapply reads_bind; [done|apply reads_ret]. Qed.

Lemma reads_bind_last {A B} (r : Reader A) (f : A → Reader B) w x y :
  reads r w x → reads (f x) [] y → reads (r ≫= f) w y.
Proof. intros H1 H2. rewrite <- (app_nil_r w). by eapply reads_bind. Qed.

Lemma reads_fmap {A B} (r : Reader A) (f : A → B) w x : reads r w x → reads (f <$> r) w (f x).
Proof. apply reads_bind_ret. Qed.

Lemma reads_exact n w : length w = n → reads (read_exact n) w w.
Proof.
  intros <- rest. unfold read_exact. rewrite length_app.
  destruct (_ <=? _)%nat eqn:E; split_bool; [|lia]. by rewrite take_app_length, drop_app_length.
Qed.

Lemma reads_le k z :
  0 <= z < 256 ^ Z.of_nat k → reads (b ← read_exact k; mret (of_le b)) (le_bytes k z) z.
Proof.
  intros Hz. rewrite <- (of_le_small k z Hz) at 2. apply reads_bind_ret, reads_exact, length_le_bytes.
Qed.

Lemma reads_u8 z : 0 <= z < 2 ^ 8 → reads read_u8 (write_u8 z) z.
Proof. intros Hz. by apply (reads_le 1). Qed.
Lemma reads_u32 z : 0 <= z < 2 ^ 32 → reads read_u32 (write_u32 z) z.
Proof. intros Hz. by apply (reads_le 4). Qed.
Lemma reads_u64 z : 0 <= z < 2 ^ 64 → reads read_u64 (write_u64 z) z.
Proof. intros Hz. by apply (reads_le 8). Qed.

(** A string that [load] accepts. *)
Definition str_ok (s : bytes) : bool := (Z.of_nat (length s) <=? MAX_LOAD_STRING) && utf8_valid s.

Lemma reads_string s : str_ok s = true → reads read_string_bounded (write_bytes s) s.
Proof.
  unfold str_ok, MAX_LOAD_STRING. intros Hs. split_bool. unfold read_string_bounded, write_bytes.
  eapply reads_bind; [apply reads_u32; lia|]. simpl. unfold MAX_LOAD_STRING.
  destruct (_ <? _) eqn:E; split_bool; [lia|]. rewrite Nat2Z.id.
  eapply reads_bind_last; [by apply reads_exact|]. simpl. rewrite H0. apply reads_ret.
Qed.

Lemma reads_skip s : str_ok s = true → reads skip_string (write_bytes s) tt.
Proof.
  unfold str_ok, MAX_LOAD_STRING. intros Hs. split_bool. unfold skip_string, write_bytes.
  eapply reads_bind; [apply reads_u32; lia|]. simpl. rewrite Nat2Z.id.
  eapply reads_bind_last; [by apply reads_exact|]. apply reads_ret.
Qed.

Lemma reads_many {A B} (r : Reader B) (w : A → bytes) (f : A → B) l :
  Forall (λ x, reads r (w x) (f x)) l → reads (read_many (length l) r) (concat (w <$> l)) (f <$> l).
Proof.
  induction 1 as [|x l Hx _ IH]; simpl; [apply reads_ret|].
  eapply reads_bind; [done|]. by apply reads_bind_ret with (f := cons (f x)).
Qed.

Lemma reads_bounded {A B} (r : Reader B) (w : A → bytes) (f : A → B) l (n : nat) msg :
  length l = n → Z.of_nat n <= 10000000 → Forall (λ x, reads r (w x) (f x)) l →
  reads (read_bounded msg r) (write_u32 (Z.of_nat n) ++ concat (w <$> l)) (f <$> l).
Proof.
  intros <- Hn Hl. unfold read_bounded. eapply reads_bind; [apply reads_u32; lia|]. simpl.
  destruct (_ <? _) eqn:E; split_bool; [lia|]. rewrite Nat2Z.id. by apply reads_many.
Qed.

(** The same without the bound, and dropping what was read. *)
Lemma reads_skip_n {A B} (r : Reader B) (w : A → bytes) (f : A → B) l (n : nat) :
  length l = n → Z.of_nat n < 2 ^ 32 → Forall (λ x, reads r (w x) (f x)) l →
  reads (n ← read_u32; _ ← read_many (Z.to_nat n) r; mret tt) (write_u32 (Z.of_nat n) ++ concat (w <$> l)) tt.
Proof.
  intros <- Hn Hl. eapply reads_bind; [apply reads_u32; lia|]. simpl. rewrite Nat2Z.id.
  eapply reads_bind_last; [by apply reads_many|apply reads_ret].
Qed.

(** ** Values *)

Definition pair_ok (p : bytes * bytes) : bool := str_ok p.1 && str_ok p.2.
Definition zentry_ok (e : ZEntry) : bool := str_ok (member e) && f64_valid (score e).
Definition stream_entry_ok (e : StreamId * list (bytes * bytes)) : bool :=
  in_u64 (ms e.1) && in_u64 (seq e.1) && (Z.of_nat (length e.2) <? 2 ^ 32) && forallb pair_ok e.2.

Definition few_items (n : nat) : bool := Z.of_nat n <=? 10000000.

Section Values.
Context `{HashOrder}.

(** A value the file format can hold: well-formed containers of at most ten
    million items, strings of at most 512 MB. *)
Definition savable (v : FyroDB) : Prop :=
  match v with
  | VString s | VJson s => str_ok s = true
  | VHash h => hash_wf h ∧ few_items (hash_len h) = true ∧ forallb pair_ok (hash_iter h) = true
  | VList l => few_items (length (deque l)) = true ∧ forallb str_ok (deque l) = true
  | VSet s => set_wf s ∧ few_items (set_len s) = true ∧ forallb str_ok (set_strings s) = true
  | VZSet z => zset_wf z ∧ few_items (length (entries z)) = true ∧ forallb zentry_ok (entries z) = true
  | VStream s =>
      StronglySorted id_lt (s_entries s).*1 ∧ few_items (length (s_entries s)) = true ∧
      forallb stream_entry_ok (s_entries s) = true
  end.

(** What [v] comes back as: the same value in some encoding, but for a stream,
    which comes back with its entries, without its groups, and with the
    greatest id that is still an entry, or [0-0], as its last id. *)
Definition reloads_as (v v' : FyroDB) : Prop :=
  match v, v' with
  | VString s, VString s' | VJson s, VJson s' => s = s'
  | VHash h, VHash h' => hash_abs h = hash_abs h' ∧ hash_wf h'
  | VList l, VList l' => deque l = deque l'
  | VSet s, VSet s' => set_abs s = set_abs s' ∧ set_wf s'
  | VZSet z, VZSet z' => zset_abs z = zset_abs z' ∧ zset_wf z'
  | VStream s, VStream s' => s' = mkStream (s_entries s) (default (mkId 0 0) (last (s_entries s).*1)) ∅
  | _, _ => False
  end.

Lemma forallb_Forall' {A} (p : A → bool) l : forallb p l = true → Forall (λ x, p x = true) l.
Proof. intros Hp. apply Forall_forall. intros x Hx. eapply forallb_forall; [done|by apply list_elem_of_In]. Qed.

Lemma reads_pair p : pair_ok p = true → reads read_pair (write_pair p) p.
Proof.
  intros [H1 H2]%andb_true_iff. destruct p as [f x]. unfold read_pair, write_pair.
  eapply reads_bind; [by apply reads_string|]. simpl. apply (reads_bind_ret _ (pair f)). by apply reads_string.
Qed.

Lemma reads_zentry e : zentry_ok e = true → reads read_zentry (write_zentry e) (member e, score e).
Proof.
  intros [H1 H2]%andb_true_iff. unfold read_zentry, write_zentry.
  eapply reads_bind; [by apply reads_string|]. simpl.
  rewrite <- (from_to_bits (score e) H2) at 2. apply (reads_bind_ret _ (λ b, (member e, from_bits b))).
  apply reads_u64. by apply to_bits_range.
Qed.

Lemma reads_stream_entry e : stream_entry_ok e = true → reads read_stream_entry (write_stream_entry e) e.
Proof.
  unfold stream_entry_ok, in_u64, u64_mod. intros Hok. split_bool.
  destruct e as [[i j] fields]. simpl in *. unfold read_stream_entry, write_stream_entry. cbn [fst snd ms seq].
  eapply reads_bind; [apply reads_u64; lia|]. eapply reads_bind; [apply reads_u64; lia|].
  unfold write_count. eapply reads_bind; [apply reads_u32; lia|]. rewrite Nat2Z.id.
  apply (reads_bind_ret _ (pair (mkId i j))). rewrite <- (list_fmap_id fields) at 3. apply reads_many.
  eapply Forall_impl; [by apply forallb_Forall'|]. intros p Hp. by apply reads_pair.
Qed.

(** ** Rebuilding the containers *)

Lemma hash_iter_length h : hash_wf h → length (hash_iter h) = hash_len h.
Proof.
  intros Hw. destruct (hash_iter_spec h Hw) as [Hp _]. rewrite (Permutation_length Hp), hash_len_spec by done.
  apply length_map_to_list.
Qed.

Lemma hash_rebuild h : hash_wf h → foldl (λ m p, <[p.1 := p.2]> m) ∅ (hash_iter h) = hash_abs h.
Proof.
  intros Hw. destruct (hash_iter_spec h Hw) as [Hp _].
  assert (Hn : NoDup (hash_iter h).*1) by (rewrite Hp; apply NoDup_fst_map_to_list).
  rewrite foldl_insert_map, (right_id_L ∅ (∪)) by done. rewrite <- (list_to_map_to_list (hash_abs h)).
  by apply list_to_map_proper.
Qed.

Lemma zset_rebuild l z :
  zset_wf z → Forall (λ p : bytes * f64, num p.2) l → NoDup l.*1 → (∀ m, m ∈ l.*1 → zset_abs z !! m = None) →
  let z' := foldl (λ z p, (zset_insert z p.2 p.1).1) z l in
  zset_wf z' ∧ zset_abs z' = foldl (λ g p, <[p.1 := p.2]> g) (zset_abs z) l.
Proof.
  revert z. induction l as [|[m sc] l IH]; intros z Hz Hnum Hnd Hnew; [done|]. cbn [foldl fst snd].
  apply NoDup_cons in Hnd as [Hm Hnd]. apply Forall_cons in Hnum as [Hsc Hnum].
  destruct (zset_insert_spec z sc m Hz Hsc) as (Hz' & Ha & _). unfold insert_map in Ha.
  rewrite Hnew in Ha by (simpl; set_solver). rewrite <- Ha. apply IH; [done|done|done|].
  intros m' Hm'. rewrite Ha. rewrite lookup_insert_ne; [apply Hnew; simpl; set_solver|]. by intros ->.
Qed.

Lemma bt_insert_last {A} k (v : A) l :
  Forall (λ p, id_lt p.1 k) l → bt_insert k v l = l ++ [(k, v)].
Proof.
  induction 1 as [|[k' v'] l Hk _ IH]; simpl; [done|]. unfold id_lt in Hk. simpl in Hk.
  assert (id_cmp k k' = Gt) as ->; [|by rewrite IH]. revert Hk. unfold id_cmp.
  rewrite (Z.compare_antisym (ms k')), (Z.compare_antisym (seq k')).
  by destruct (ms k' ?= ms k), (seq k' ?= seq k).
Qed.

Lemma load_stream_spec es :
  StronglySorted id_lt es.*1 → load_stream es = mkStream es (default (mkId 0 0) (last es.*1)) ∅.
Proof.
  unfold load_stream. intros Hs. assert (Hgen : ∀ s, StronglySorted id_lt (s_entries s ++ es).*1 →
    foldl (λ s e, mkStream (bt_insert e.1 e.2 (s_entries s)) e.1 (groups s)) s es =
    mkStream (s_entries s ++ es) (default (last_id s) (last es.*1)) (groups s)).
  { clear Hs. induction es as [|[k v] es IH]; intros s Hs; [rewrite app_nil_r; by destruct s|]. simpl.
    assert (Hlt : bt_insert k v (s_entries s) = s_entries s ++ [(k, v)]).
    { apply bt_insert_last. apply Forall_forall. intros p Hp. rewrite fmap_app in Hs.
      eapply StronglySorted_app_1_elem_of; [exact Hs|by apply list_elem_of_fmap_2|simpl; set_solver]. }
    rewrite IH; cbn [s_entries last_id groups]; rewrite Hlt; [|by rewrite <- app_assoc].
    rewrite <- app_assoc. f_equal.
    change (list_fmap _ _ fst es) with es.*1. rewrite last_cons. by destruct (last es.*1). }
  by rewrite Hgen.
Qed.

(** ** A value in the file *)

Ltac forall_ok := eapply Forall_impl; [by apply forallb_Forall'|]; simpl; intros;
  auto using reads_string, reads_skip, reads_pair, reads_zentry, reads_stream_entry.

Lemma reads_value v :
  savable v → ∃ v', reads (read_value (type_byte v)) (write_value v) v' ∧ reloads_as v v'.
Proof.
  destruct v as [s|h|l|s|z|s|s]; cbn [savable type_byte write_value].
  - intros Hs. exists (VString s). split; [by apply (reads_fmap _ VString), reads_string|done].
  - intros (Hw & Hn & Hp). eexists. split.
    + apply (reads_fmap _ (λ ps, VHash (HFull (foldl (λ m p, <[p.1 := p.2]> m) ∅ ps)))).
      apply (reads_bounded _ _ id); [by apply hash_iter_length|by apply Z.leb_le|forall_ok].
    + simpl. rewrite list_fmap_id, hash_rebuild by done. done.
  - intros [Hn Hp]. eexists. split.
    + apply (reads_fmap _ (λ l, VList (LFull l))).
      apply (reads_bounded _ _ id); [done|by apply Z.leb_le|forall_ok].
    + simpl. by rewrite list_fmap_id.
  - intros (Hw & Hn & Hp). eexists. split.
    + apply (reads_fmap _ (λ l, VSet (set_from_strings (set_order (list_to_set l))))).
      apply (reads_bounded _ _ id); [|by apply Z.leb_le|forall_ok].
      rewrite (Permutation_length (set_strings_spec s Hw)). by rewrite set_len_spec.
    + simpl. rewrite list_fmap_id. destruct (set_from_strings_spec (set_order (list_to_set (set_strings s)))) as [? ->].
      split; [|done]. apply set_eq. intros m. rewrite elem_of_list_to_set, set_order_elem, elem_of_list_to_set.
      by rewrite set_strings_elem.
  - intros (Hw & Hn & Hp). eexists. split.
    + apply (reads_fmap _ (λ l, VZSet (foldl (λ z p, (zset_insert z p.2 p.1).1) ZSetData_new l))).
      apply (reads_bounded _ _ (λ e, (member e, score e))); [done|by apply Z.leb_le|forall_ok].
    + simpl. destruct (zset_rebuild ((λ e, (member e, score e)) <$> entries z) ZSetData_new) as [Hz' Ha].
      * apply zset_new_wf.
      * apply Forall_fmap. apply (zw_num _ (zw_entries _ Hw)).
      * rewrite pair_members. apply (zw_nodup _ (zw_entries _ Hw)).
      * done.
      * split; [|done]. rewrite Ha, foldl_insert_map by (rewrite pair_members; apply (zw_nodup _ (zw_entries _ Hw))).
        change (zset_abs ZSetData_new) with (∅ : gmap bytes f64). by rewrite (right_id_L ∅ (∪)).
  - intros Hs. exists (VJson s). split; [by apply (reads_fmap _ VJson), reads_string|done].
  - intros (Hs & Hn & Hp). eexists. split.
    + apply (reads_fmap _ (λ l, VStream (load_stream l))).
      apply (reads_bounded _ _ id); [done|by apply Z.leb_le|forall_ok].
    + simpl. by rewrite list_fmap_id, load_stream_spec.
Qed.

Lemma reads_skip_value v : savable v → reads (skip_value (type_byte v)) (write_value v) tt.
Proof.
  assert (Hpair : ∀ p, pair_ok p = true → reads (_ ← skip_string; skip_string) (write_pair p) tt).
  { intros p [? ?]%andb_true_iff. eapply reads_bind; by apply reads_skip. }
  assert (Hu : ∀ n : nat, few_items n = true → Z.of_nat n < 2 ^ 32) by (intros n Hn%Z.leb_le; lia).
  destruct v as [s|h|l|s|z|s|s]; cbn [savable type_byte write_value].
  - apply reads_skip.
  - intros (Hw & Hn & Hp). apply (reads_skip_n _ _ (λ _, tt)); [by apply hash_iter_length|by apply Hu|forall_ok].
  - intros [Hn Hp]. apply (reads_skip_n _ _ (λ _, tt)); [done|by apply Hu|forall_ok].
  - intros (Hw & Hn & Hp). apply (reads_skip_n _ _ (λ _, tt)); [|by apply Hu|forall_ok].
    rewrite (Permutation_length (set_strings_spec s Hw)). by rewrite set_len_spec.
  - intros (Hw & Hn & Hp). apply (reads_skip_n _ _ (λ _, tt)); [done|by apply Hu|].
    eapply Forall_impl; [by apply forallb_Forall'|]. intros e [? ?]%andb_true_iff.
    eapply reads_bind; [by apply reads_skip|].
    eapply reads_bind_last; [by apply reads_u64, to_bits_range|apply reads_ret].
  - apply reads_skip.
  - intros (Hs & Hn & Hp). apply (reads_skip_n _ _ (λ _, tt)); [done|by apply Hu|].
    eapply Forall_impl; [by apply forallb_Forall'|]. unfold stream_entry_ok, in_u64, u64_mod. intros e He. split_bool.
    eapply reads_bind; [apply reads_u64; lia|]. eapply reads_bind; [apply reads_u64; lia|].
    apply (reads_skip_n _ _ (λ _, tt)); [done|done|forall_ok].
Qed.
End Values.

(** ** The loop of [load] *)

Section Loading.
Context {M : Type} `{KVMapLaws StoreValue M} `{HashOrder} (c : Clock).
Implicit Types (st : Store M) (l : list (bytes * StoreValue)).

Definition entry_ok (p : bytes * StoreValue) : Prop :=
  str_ok p.1 = true ∧ in_u64 (expires_ms p.2) = true ∧ savable (value p.2).

Lemma reads_entry p :
  entry_ok p →
  let w := write_u64 (expires_ms p.2) ++ write_bytes p.1 ++ write_value (value p.2) in
  if is_expired_precise c p.2 then reads (load_entry (now_ms c) (type_byte (value p.2))) w None
  else ∃ v', reloads_as (value p.2) v' ∧
    reads (load_entry (now_ms c) (type_byte (value p.2))) w (Some (p.1, mkValue v' (expires_ms p.2))).
Proof.
  unfold entry_ok, in_u64, u64_mod. intros (Hk & He & Hv). split_bool. cbv zeta.
  destruct (reads_value _ Hv) as (v' & Hr & Hsame). unfold is_expired_precise, load_entry.
  destruct (negb (expires_ms p.2 =? 0) && (expires_ms p.2 <=? now_ms c)) eqn:E.
  - eapply reads_bind; [apply reads_u64; lia|]. eapply reads_bind; [by apply reads_string|]. rewrite E.
    eapply reads_bind_last; [by apply reads_skip_value|apply reads_ret].
  - exists v'. split; [done|]. eapply reads_bind; [apply reads_u64; lia|].
    eapply reads_bind; [by apply reads_string|]. rewrite E.
    by apply (reads_bind_ret _ (λ v, Some (p.1, mkValue v (expires_ms p.2)))).
Qed.

(** What loading [l] leaves of a key, starting from a store without it. *)
Definition loaded_as (g : gmap bytes StoreValue) (p : bytes * StoreValue) : Prop :=
  if is_expired_precise c p.2 then g !! p.1 = None
  else ∃ v', g !! p.1 = Some (mkValue v' (expires_ms p.2)) ∧ reloads_as (value p.2) v'.

(** One iteration. *)
Lemma load_loop_cons fuel k v l count st :
  entry_ok (k, v) →
  let file l := concat (write_entry <$> l) ++ write_u8 TYPE_EOF in
  if is_expired_precise c v
  then load_loop (S fuel) (now_ms c) (file ((k, v) :: l)) count st = load_loop fuel (now_ms c) (file l) count st
  else ∃ v', reloads_as (value v) v' ∧
    load_loop (S fuel) (now_ms c) (file ((k, v) :: l)) count st =
    load_loop fuel (now_ms c) (file l) (count + 1) (put k (mkValue v' (expires_ms v)) st).
Proof.
  intros Hp. cbv beta zeta. set (rest := concat (write_entry <$> l) ++ write_u8 TYPE_EOF).
  assert (concat (write_entry <$> (k, v) :: l) ++ write_u8 TYPE_EOF =
    write_u8 (type_byte (value v)) ++ (write_u64 (expires_ms v) ++ write_bytes k ++ write_value (value v)) ++ rest) as ->.
  { rewrite fmap_cons. cbn [concat]. unfold write_entry at 1. cbn [fst snd]. by rewrite <- !app_assoc. }
  assert (Hty : 0 <= type_byte (value v) < 255) by (destruct (value v); vm_compute; done).
  cbn [load_loop]. rewrite (reads_u8 (type_byte (value v))) by lia.
  assert ((type_byte (value v) =? TYPE_EOF) = false) as -> by (apply Z.eqb_neq; unfold TYPE_EOF; lia).
  pose proof (reads_entry (k, v) Hp) as Hr. cbn [fst snd] in Hr. destruct (is_expired_precise c v).
  - by rewrite (Hr rest).
  - destruct Hr as (v' & Hsame & Hr). exists v'. split; [done|]. by rewrite (Hr rest).
Qed.

Lemma load_loop_spec l fuel count st :
  (length l < fuel)%nat → Forall entry_ok l → NoDup l.*1 → store_wf st →
  (∀ k, k ∈ l.*1 → db st !! k = None) →
  let '(st', r) := load_loop fuel (now_ms c) (concat (write_entry <$> l) ++ write_u8 TYPE_EOF) count st in
  store_wf st' ∧ same_ttl st st' ∧
  r = Loaded (count + Z.of_nat (size (db st')) - Z.of_nat (size (db st))) ∧
  (∀ k, k ∉ l.*1 → db st' !! k = db st !! k) ∧ Forall (loaded_as (db st')) l.
Proof.
  revert fuel count st. induction l as [|[k v] l IH]; intros [|fuel] count st Hfuel Hok Hnd Hw Hnew;
    simpl in Hfuel; try lia.
  - change (concat (write_entry <$> []) ++ write_u8 TYPE_EOF) with (write_u8 TYPE_EOF). cbn [load_loop].
    change (read_u8 (write_u8 TYPE_EOF)) with (ROk TYPE_EOF []). simpl. split; [done|]. split; [done|].
    split; [f_equal; lia|]. by split.
  - apply Forall_cons in Hok as [Hp Hok]. apply NoDup_cons in Hnd as [Hk Hnd].
    assert (Hkn : db st !! k = None) by (apply Hnew; simpl; set_solver).
    pose proof (load_loop_cons fuel k v l count st Hp) as Hstep. cbv beta zeta in Hstep.
    destruct (is_expired_precise c v) eqn:Ex.
    + rewrite Hstep. specialize (IH fuel count st). destruct (load_loop fuel _ _ count st) as [st' r].
      destruct IH as (Hw' & Ht & Hn & Hout & Hin); [lia|done|done|done|set_solver|].
      split; [done|]. split; [done|]. split; [done|]. split; [intros; apply Hout; set_solver|].
      constructor; [|done]. unfold loaded_as. cbn [fst snd]. by rewrite Ex, Hout.
    + destruct Hstep as (v' & Hsame & ->). set (x := mkValue v' (expires_ms v)).
      destruct (put_spec k x st Hw) as (Hwp & Hdp & Htp). specialize (IH fuel (count + 1) (put k x st)).
      destruct (load_loop fuel _ _ _ _) as [st' r].
      destruct IH as (Hw' & Ht & Hn & Hout & Hin); [lia|done|done|done| |].
      { intros k' Hk'. rewrite Hdp, lookup_insert_ne by (by intros ->). apply Hnew. simpl. set_solver. }
      split; [done|]. split; [by eapply same_ttl_trans|]. split.
      { rewrite Hn, Hdp, map_size_insert_None by done. f_equal. lia. }
      split; [intros k' Hk'; simpl in Hk'; rewrite Hout, Hdp, lookup_insert_ne by set_solver; done|].
      constructor; [|done]. unfold loaded_as. cbn [fst snd]. rewrite Ex. exists v'. split; [|done].
      by rewrite Hout, Hdp, lookup_insert_eq.
Qed.

End Loading.

(** ** The map's slots *)

Lemma seq_omap_lookup {A B} (f : A → option B) (g : nat → option B) (l : list A) :
  (∀ j, g j = l !! j ≫= f) → omap g (List.seq 0 (length l)) = omap f l.
Proof.
  intros Hg. assert (Hgen : ∀ l2 l1, l = l1 ++ l2 → omap g (List.seq (length l1) (length l2)) = omap f l2).
  { induction l2 as [|x l2 IH]; intros l1 ->; [done|]. csimpl.
    rewrite Hg, list_lookup_middle by done. csimpl. specialize (IH (l1 ++ [x])).
    rewrite length_app, Nat.add_1_r in IH. rewrite IH by (by rewrite <- app_assoc). done. }
  by apply (Hgen l []).
Qed.

Section Slots.
Context (hash_one : bytes → Z).

Lemma slot_pairs_all (m : CustomMap StoreValue) : struct_wf hash_one m → slot_pairs m = all_pairs m.
Proof.
  intros Hw. unfold slot_pairs, all_pairs, shard_count. f_equal. apply list_eq. intros i.
  rewrite !list_lookup_fmap. destruct (shards m !! i) as [s|] eqn:E.
  - pose proof (lookup_lt_Some _ _ _ E) as Hlt. rewrite lookup_seq_lt by done. simpl.
    unfold shard_slot_count. rewrite E. simpl. f_equal.
    pose proof (tw_len _ (tw_geometry _ _ (sw_table _ _ (cw_shard _ _ Hw _ _ E)))) as Hlen.
    unfold compose. rewrite <- Hlen, Nat2Z.id. unfold live_pairs.
    apply seq_omap_lookup. intros j. unfold peek_slot. by rewrite E.
  - apply lookup_ge_None in E. rewrite lookup_seq_ge by done. done.
Qed.
End Slots.

(** ** Properties *)

Lemma entries_fit `{HashOrder} l : (length l <= length (concat (write_entry <$> l)))%nat.
Proof.
  induction l as [|p l IH]; [done|]. rewrite fmap_cons. cbn [concat length]. rewrite length_app.
  assert (1 <= length (write_entry p))%nat; [|lia].
  unfold write_entry. rewrite length_app. unfold write_u8. rewrite length_le_bytes. lia.
Qed.

Section Claims.
Context (hash_one : bytes → Z) `{HashOrder}.
#[local] Instance rdb_kv : KVMap StoreValue (CustomMap StoreValue) := claims_kv hash_one.
#[local] Instance rdb_laws : KVMapLaws StoreValue (CustomMap StoreValue) := claims_laws hash_one.

Lemma load_header c body st :
  (1 <= length body)%nat →
  load c (Some (MAGIC ++ write_u8 VERSION ++ body)) st = load_loop (S (length body)) (now_ms c) body 0 st.
Proof.
  intros Hb. unfold load. cbn [length MAGIC]. rewrite !length_app. unfold write_u8 at 1. rewrite length_le_bytes.
  change (length MAGIC) with 4%nat. destruct (_ <? 6)%nat eqn:E; split_bool; [lia|].
  rewrite (reads_exact 4 MAGIC) by done. rewrite bool_decide_eq_true_2 by done. simpl negb. cbn iota.
  rewrite (reads_u8 VERSION) by done. done.
Qed.

(** The pairs [save] writes are the keys that have not expired. *)
Lemma saved_pairs c (st : Store (CustomMap StoreValue)) :
  store_wf st →
  let l := List.filter (λ p, negb (is_expired c p.2)) (slot_pairs (data st)) in
  NoDup l.*1 ∧ ∀ k v, (k, v) ∈ l ↔ db st !! k = Some v ∧ is_expired c v = false.
Proof.
  intros Hw. cbv zeta. pose proof (cw_struct _ _ Hw) as Hs. rewrite (slot_pairs_all hash_one _ Hs).
  pose proof (all_pairs_perm hash_one (data st) Hs) as Hperm. change (abs (data st)) with (db st) in Hperm. split.
  - eapply sublist_NoDup; [|apply fmap_sublist, list_filter_sublist]. rewrite Hperm. apply NoDup_fst_map_to_list.
  - intros k v. rewrite list_elem_of_In, filter_In, <- list_elem_of_In, Hperm, negb_true_iff.
    by rewrite elem_of_map_to_list.
Qed.

(** C25: A snapshot loads back.  Take any well-formed store whose live keys the
    format can hold ([entry_ok]): keys, strings, members and fields are UTF-8
    of at most 512 MB (so a bitmap must happen to be UTF-8), a collection has
    at most ten million items, scores are numbers of 64 bits.  Loading the
    saved file into an empty store, with any number of shards, succeeds.  A
    key then holds its value, in some encoding, with its expiry, exactly when
    it had not expired at the save nor at the load, and the reply counts the
    keys.  What is lost: a stream loses its groups, and its last id becomes
    that of its last entry; the expiries loaded are not counted, so the TTL
    counter of the loaded store stays at zero. *)
Theorem rdb_roundtrip shards' max_keys' (st : Store (CustomMap StoreValue)) (c c' : Clock) :
  store_wf st →
  (∀ k v, db st !! k = Some v → is_expired c v = false → entry_ok (k, v)) →
  let '(st', r) := load c' (Some (save c (data st))) (with_config shards' max_keys') in
  r = Loaded (Z.of_nat (size (db st'))) ∧ ttl_count st' = 0 ∧
  ∀ k, match db st !! k with
       | Some v =>
           if is_expired c v || is_expired_precise c' v then db st' !! k = None
           else ∃ v', db st' !! k = Some (mkValue v' (expires_ms v)) ∧ reloads_as (value v) v'
       | None => db st' !! k = None
       end.
Proof.
  intros Hw Hok.
  destruct (with_capacity_wf (V := StoreValue) hash_one shards' max_keys') as [Hw0 Ha0].
  set (st0 := with_config shards' max_keys'). assert (He0 : db st0 = ∅) by exact Ha0.
  destruct (saved_pairs c st Hw) as [Hnd Hin].
  unfold save. set (l' := List.filter _ _) in *. rewrite load_header by (rewrite length_app; simpl; lia).
  pose proof (load_loop_spec c' l' (S (length (concat (write_entry <$> l') ++ write_u8 TYPE_EOF))) 0 st0) as Hl.
  destruct (load_loop _ _ _ 0 st0) as [st' r]. destruct Hl as (_ & (Ht & _) & Hr & Hout & Hall).
  - pose proof (entries_fit l'). rewrite length_app. simpl. lia.
  - apply Forall_forall. intros [k v] [Hk Hx]%Hin. by apply Hok.
  - done.
  - exact Hw0.
  - intros k _. by rewrite He0.
  - rewrite He0, map_size_empty in Hr. split; [rewrite Hr; f_equal; lia|]. split; [done|]. intros k.
    assert (Hno : (∀ v, db st !! k = Some v → is_expired c v = true) → db st' !! k = None).
    { intros Hex. rewrite Hout, He0; [done|]. intros ([k2 v] & -> & [Hk Hx]%Hin)%list_elem_of_fmap.
      simpl in *. rewrite (Hex v Hk) in Hx. done. }
    destruct (db st !! k) as [v|] eqn:E; [|by apply Hno]. destruct (is_expired c v) eqn:Ex; simpl.
    + apply Hno. intros v' [= <-]. done.
    + rewrite Forall_forall in Hall. by apply (Hall (k, v)), Hin.
Qed.
End Claims.

(** ** Witnesses *)

Definition rdb_run : list (Clock * Cmd) :=
  (λ o, (demo_clock, o)) <$> [CSet (B "a") (B "v") 5000; CRPush (B "l") [B "x"; B "y"]].

(** A stream whose last entry was deleted, with a group. *)
Definition rdb_stream : StreamData :=
  mkStream [(mkId 3 1, [(B "f", B "x")])] (mkId 7 0)
    {[ B "g" := mkGroup (mkId 3 1) [] ∅ ]}.

Definition rdb_store : Store (CustomMap StoreValue) :=
  put (H := claims_kv toy_hash) (B "s") (mkValue (VStream rdb_stream) 0)
    (after toy_hash (H := canonical_order) 2 16 rdb_run).

Lemma rdb_store_wf : store_wf (H0 := claims_laws toy_hash) rdb_store.
Proof. apply put_spec, after_wf. Qed.

Lemma rdb_store_ok :
  Forall (entry_ok (H1 := canonical_order)) (map_to_list (db (H0 := claims_laws toy_hash) rdb_store)).
Proof.
  let l := eval vm_compute in (map_to_list (db (H0 := claims_laws toy_hash) rdb_store)) in
  assert (map_to_list (db (H0 := claims_laws toy_hash) rdb_store) = l) as -> by (vm_compute; reflexivity).
  repeat constructor.
Qed.

(** The expiry of [a] is loaded and not counted; the stream has lost its group
    and its last id. *)
Lemma rdb_roundtrip_witness :
  let st' := (load (H := claims_kv toy_hash) (H0 := canonical_order) demo_clock
    (Some (save (H := canonical_order) demo_clock (data rdb_store))) (with_config 4 16)).1 in
  ttl_count st' = 0 ∧ ttl_keys (db (H0 := claims_laws toy_hash) st') = 1 ∧
  db (H0 := claims_laws toy_hash) st' !! B "s" =
    Some (mkValue (VStream (mkStream (s_entries rdb_stream) (mkId 3 1) ∅)) 0).
Proof.
  cbv zeta. split; [|vm_compute; done].
  assert (Hok : ∀ k v, db (H0 := claims_laws toy_hash) rdb_store !! k = Some v →
    is_expired demo_clock v = false → entry_ok (H1 := canonical_order) (k, v)).
  { intros k v Hk _. pose proof rdb_store_ok as Hall. rewrite Forall_forall in Hall.
    apply Hall. by apply elem_of_map_to_list. }
  pose proof (rdb_roundtrip toy_hash (H := canonical_order) 4 16 rdb_store demo_clock demo_clock
    rdb_store_wf Hok) as Hr.
  destruct (load _ _ _) as [st' r]. exact (proj1 (proj2 Hr)).
Defined.
