(* ===== verification/Seqlock.v ===== *)
(** Concurrent access to one map entry (crates/customhash/src/lib.rs and
    shard.rs): the lock bit, the sequence number and the value cell.

    Each thread runs one operation on an entry that its probe has found.  A
    step is one atomic access to the state word or one word of the value: a
    value is several machine words, read and written one at a time, so a torn
    read is expressible.  Steps of different threads interleave arbitrarily and
    take effect in that order (sequential consistency; the memory orderings of
    the source are not distinguished).  [adds] and [log] are ghost: no step
    reads them. *)

From S2P Require Import Prelude Shard.
Local Open Scope Z_scope.

Abbreviation words := (list Z).

(** ** Operations *)

Inductive Op :=
| OUpdate (f : words → words)   (* [update_with] *)
| ORemove                       (* [remove] *)
| OAbsent (v : words)           (* [insert_if_absent] *)
| OSet (v : words)              (* [set] *)
| OLockedGet                    (* [get_locked] *)
| ORead                         (* [read_consistent] *)
| OGet.                         (* [get]: no lock, no sequence check *)

Inductive Res := RVal (v : option words) | RBool (b : bool).

(** What a thread does once it holds the lock.  [set] decides which of its two
    branches to take before it locks. *)
Inductive Act :=
| AUpdate (f : words → words)
| ARemove
| AAbsent (v : words)
| ASetOver (v : words)
| ASetFresh (v : words)
| ALockedGet.

Inductive Pc :=
| Check (o : Op)                                     (* the occupied test before locking *)
| Lock (a : Act)                                     (* in [state_lock] *)
| Recheck (a : Act)                                  (* the occupied test under the lock *)
| Begin (a : Act)                                    (* the first [state_seq_add] *)
| Writing (a : Act) (old : words) (k : nat) (new : words)   (* writes word [k] next *)
| Flag (a : Act) (old : words)                       (* [state_set_occupied] *)
| End (a : Act) (old : words)                        (* the second [state_seq_add] *)
| FinalLoad (fresh : bool)                           (* [set]: [state.load] *)
| FinalStore (fresh : bool) (cur : Z)                (* [set]: [state.store] *)
| LockedRead (acc : words)                           (* the closure of [get_locked] *)
| Unlock (r : Res)                                   (* [state_unlock] *)
| ReadSeq                                            (* [read_consistent]: first load *)
| ReadOcc (seq1 : Z) (g : Z)                         (* its occupied test; [g] is ghost *)
| ReadWords (seq1 : Z) (g : Z) (acc : words)         (* its closure *)
| ReadCheck (seq1 : Z) (g : Z) (acc : words)         (* its second load *)
| GetWords (acc : words)                             (* the clone of [get] *)
| Done (r : Res).

Record Cell := mkCell { word : Z; cell : words; adds : Z }.

Definition start (o : Op) : Pc :=
  match o with
  | OUpdate f => Lock (AUpdate f)
  | OLockedGet => Lock ALockedGet
  | ORead => ReadSeq
  | _ => Check o
  end.

Definition set_word (c : Cell) (w : Z) : Cell := mkCell w (cell c) (adds c).
Definition add_seq (c : Cell) : Cell := mkCell (state_seq_add (word c)) (cell c) (adds c + 1).

(** The result of an operation that ran its write section on the value [old]. *)
Definition act_result (a : Act) (old : words) : Res :=
  match a with AUpdate _ | ARemove | ALockedGet => RVal (Some old) | _ => RBool true end.

(** The result under the lock when the occupied test fails. *)
Definition act_refused (a : Act) : Res :=
  match a with AAbsent _ => RBool false | _ => RVal None end.

(** One step of a thread; [None] is a thread that waits or has returned. *)
Definition step (c : Cell) (pc : Pc) : option (Cell * Pc) :=
  match pc with
  | Check o =>
      let occ := state_occupied (word c) in
      match o with
      | ORemove => Some (c, if occ then Lock ARemove else Done (RVal None))
      | OAbsent v => Some (c, if occ then Done (RBool false) else Lock (AAbsent v))
      | OSet v => Some (c, Lock (if occ then ASetOver v else ASetFresh v))
      | OGet => Some (c, if occ then GetWords [] else Done (RVal None))
      | _ => None
      end
  | Lock a =>
      if state_locked (word c) then None
      else
        Some (set_word c (state_lock (word c)),
              match a with ASetOver _ | ASetFresh _ => Begin a | _ => Recheck a end)
  | Recheck a =>
      let occ := state_occupied (word c) in
      let go := match a with AAbsent _ => negb occ | _ => occ end in
      Some (c, if go then match a with ALockedGet => LockedRead [] | _ => Begin a end
               else Unlock (act_refused a))
  | Begin a =>
      let old := cell c in
      Some (add_seq c,
            match a with
            | AUpdate f => Writing a old 0 (f old)
            | AAbsent v | ASetOver v | ASetFresh v => Writing a old 0 v
            | _ => Flag a old
            end)
  | Writing a old k new =>
      match new !! k with
      | Some x => Some (mkCell (word c) (<[k := x]> (cell c)) (adds c), Writing a old (S k) new)
      | None =>
          Some (c, match a with
                   | AAbsent _ => Flag a old
                   | ASetOver _ => FinalLoad false
                   | ASetFresh _ => FinalLoad true
                   | _ => End a old
                   end)
      end
  | Flag a old =>
      Some (set_word c (state_set_occupied (word c) (match a with AAbsent _ => true | _ => false end)), End a old)
  | End a old => Some (add_seq c, Unlock (act_result a old))
  | FinalLoad fresh => Some (c, FinalStore fresh (word c))
  | FinalStore fresh cur =>
      Some (mkCell (if fresh then set_final_vacant cur else set_final_occupied cur) (cell c) (adds c + 1),
            Done (RBool fresh))
  | LockedRead acc =>
      match cell c !! length acc with
      | Some x => Some (c, LockedRead (acc ++ [x]))
      | None => Some (c, Unlock (RVal (Some acc)))
      end
  | Unlock r => Some (set_word c (state_unlock (word c)), Done r)
  | ReadSeq =>
      let seq1 := state_seq (word c) in
      Some (c, if Z.odd seq1 then ReadSeq else ReadOcc seq1 (adds c))
  | ReadOcc seq1 g =>
      Some (c, if state_occupied (word c) then ReadWords seq1 g [] else Done (RVal None))
  | ReadWords seq1 g acc =>
      match cell c !! length acc with
      | Some x => Some (c, ReadWords seq1 g (acc ++ [x]))
      | None => Some (c, ReadCheck seq1 g acc)
      end
  | ReadCheck seq1 g acc =>
      Some (c, if state_seq (word c) =? seq1 then Done (RVal (Some acc)) else ReadSeq)
  | GetWords acc =>
      match cell c !! length acc with
      | Some x => Some (c, GetWords (acc ++ [x]))
      | None => Some (c, Done (RVal (Some acc)))
      end
  | Done _ => None
  end.

(** ** The system *)

Record Sys := mkSys { shared : Cell; pcs : list Pc }.

(** The result a step makes visible, at the thread's linearization point. *)
Definition commit (c : Cell) (pc : Pc) : option Res :=
  let occ := state_occupied (word c) in
  match pc with
  | Check ORemove => if occ then None else Some (RVal None)
  | Check (OAbsent _) => if occ then Some (RBool false) else None
  | Recheck a =>
      if match a with AAbsent _ => negb occ | _ => occ end then None else Some (act_refused a)
  | Flag a old => Some (act_result a old)
  | End (AUpdate f) old => Some (act_result (AUpdate f) old)
  | LockedRead acc => match cell c !! length acc with Some _ => None | None => Some (RVal (Some acc)) end
  | ReadOcc _ _ => if occ then None else Some (RVal None)
  | ReadCheck seq1 _ acc => if state_seq (word c) =? seq1 then Some (RVal (Some acc)) else None
  | _ => None
  end.

(** Thread [t] takes a step, if it can; the log collects the commits. *)
Definition sys_step (t : nat) (p : Sys * list (nat * Res)) : Sys * list (nat * Res) :=
  let '(s, log) := p in
  match pcs s !! t with
  | None => p
  | Some pc =>
      match step (shared s) pc with
      | None => p
      | Some (c', pc') =>
          (mkSys c' (<[t := pc']> (pcs s)),
           match commit (shared s) pc with Some r => log ++ [(t, r)] | None => log end)
      end
  end.

(** A schedule names the thread of each step. *)
Definition run (sched : list nat) (p : Sys * list (nat * Res)) : Sys * list (nat * Res) :=
  foldl (λ p t, sys_step t p) p sched.

Definition initial (v0 : words) (ops : list Op) : Sys * list (nat * Res) :=
  (mkSys (mkCell STATE_OCCUPIED v0 0) (start <$> ops), []).

(** ** The state word as a sequence number and two flags *)

Definition word_of (s : Z) (occ lck : bool) : Z := 4 * s + 2 * Z.b2z occ + Z.b2z lck.

Section Words.
Implicit Types (s : Z) (occ lck : bool).

Lemma word_of_bit s occ lck i :
  0 <= i → Z.testbit (word_of s occ lck) i = if i =? 0 then lck else if i =? 1 then occ else Z.testbit s (i - 2).
Proof.
  intros Hi. unfold word_of.
  replace (4 * s + 2 * Z.b2z occ + Z.b2z lck) with (2 * (2 * s + Z.b2z occ) + Z.b2z lck) by lia.
  destruct (Z.eqb_spec i 0) as [->|H0]; [by rewrite Z.testbit_0_r|].
  replace i with (Z.succ (i - 1)) at 1 by lia. rewrite Z.testbit_succ_r by lia.
  destruct (Z.eqb_spec i 1) as [->|H1]; [by rewrite Z.testbit_0_r|].
  replace (i - 1) with (Z.succ (i - 2)) by lia. by rewrite Z.testbit_succ_r by lia.
Qed.

Lemma word_occupied s occ lck : state_occupied (word_of s occ lck) = occ.
Proof. by rewrite state_occupied_bit, word_of_bit. Qed.

Lemma word_locked s occ lck : state_locked (word_of s occ lck) = lck.
Proof. by rewrite state_locked_bit, word_of_bit. Qed.

Ltac by_bits :=
  apply Z.bits_inj'; intros i Hi;
  rewrite ?lock_bit, ?unlock_bit, ?set_occupied_bit, ?word_of_bit by done;
  destruct (Z.eqb_spec i 0), (Z.eqb_spec i 1); subst; simpl;
  rewrite ?andb_true_r, ?orb_false_r, ?orb_true_r, ?andb_false_r; try done; try lia.

Lemma word_lock s occ lck : state_lock (word_of s occ lck) = word_of s occ true.
Proof. by_bits. Qed.

Lemma word_unlock s occ lck : state_unlock (word_of s occ lck) = word_of s occ false.
Proof. by_bits. Qed.

Lemma word_flag s occ lck b : state_set_occupied (word_of s occ lck) b = word_of s b lck.
Proof. by_bits. Qed.

Lemma word_seq_add (a : Z) occ lck :
  state_seq_add (word_of (a mod 2 ^ 62) occ lck) = word_of ((a + 1) mod 2 ^ 62) occ lck.
Proof.
  unfold state_seq_add, wrap64, u64_mod, word_of, STATE_SEQ_ONE. change (Z.shiftl 1 2) with 4.
  pose proof (Z.mod_pos_bound a (2 ^ 62) ltac:(lia)) as Ha.
  rewrite <- (Z.add_mod_idemp_l a 1) by lia. set (s := a mod 2 ^ 62) in *.
  assert (0 <= 2 * Z.b2z occ + Z.b2z lck < 4) by (destruct occ, lck; simpl; lia).
  destruct (Z.eq_dec s (2 ^ 62 - 1)) as [E|E].
  - rewrite E. change ((2 ^ 62 - 1 + 1) mod 2 ^ 62) with 0.
    symmetry. apply (Z.mod_unique_pos _ _ 1); lia.
  - rewrite (Z.mod_small (s + 1)) by lia. rewrite Z.mod_small by lia. lia.
Qed.

Lemma word_seq (a : Z) occ lck : state_seq (word_of (a mod 2 ^ 62) occ lck) = a mod 2 ^ 32.
Proof.
  unfold state_seq, word_of. rewrite Z.shiftr_div_pow2 by lia. change (2 ^ 2) with 4.
  assert (0 <= 2 * Z.b2z occ + Z.b2z lck < 4) by (destruct occ, lck; simpl; lia).
  replace (4 * (a mod 2 ^ 62) + 2 * Z.b2z occ + Z.b2z lck)
    with ((2 * Z.b2z occ + Z.b2z lck) + (a mod 2 ^ 62) * 4) by lia.
  rewrite Z.div_add, (Z.div_small (2 * _ + _)), Z.add_0_l by lia.
  apply Z.mod_mod_divide. by exists (2 ^ 30).
Qed.
End Words.

(** ** The structural invariant *)

(** The thread holds the lock. *)
Definition critical (pc : Pc) : bool :=
  match pc with
  | Recheck _ | Begin _ | Writing _ _ _ _ | Flag _ _ | End _ _ | FinalLoad _ | FinalStore _ _
  | LockedRead _ | Unlock _ => true
  | _ => false
  end.

(** The thread is between its two increments of the sequence number. *)
Definition midway (pc : Pc) : bool :=
  match pc with
  | Writing _ _ _ _ | Flag _ _ | End _ _ | FinalLoad _ | FinalStore _ _ => true
  | _ => false
  end.

(** The increments a thread may still make. *)
Definition credits (pc : Pc) : Z :=
  match pc with
  | Check _ | Lock _ | Recheck _ | Begin _ => 2
  | Writing _ _ _ _ | Flag _ _ | End _ _ | FinalLoad _ | FinalStore _ _ => 1
  | _ => 0
  end.

Definition total_credits (l : list Pc) : Z := foldr (λ pc n, credits pc + n) 0 l.

(** The value an action writes keeps the width [n]. *)
Definition act_width (n : nat) (a : Act) : Prop :=
  match a with
  | AUpdate f => ∀ v, length v = n → length (f v) = n
  | AAbsent v | ASetOver v | ASetFresh v => length v = n
  | _ => True
  end.

Definition op_width (n : nat) (o : Op) : Prop :=
  match o with
  | OUpdate f => act_width n (AUpdate f)
  | OAbsent v | OSet v => length v = n
  | _ => True
  end.

(** What a reader knows: if no increment happened since its first load, then it
    has read a prefix of the value, which is there. *)
Definition reader_ok (c : Cell) (seq1 g : Z) (acc : words) (occ : bool) : Prop :=
  seq1 = g mod 2 ^ 32 ∧ Z.even g = true ∧ 0 <= g <= adds c ∧
  (adds c = g → acc `prefix_of` cell c ∧ (occ = true → state_occupied (word c) = true)).

Definition local_ok (n : nat) (c : Cell) (pc : Pc) : Prop :=
  match pc with
  | Check o => op_width n o ∧ start o = Check o
  | Lock a | Recheck a | Begin a => act_width n a
  | Writing a old k new => length new = n ∧ (k <= n)%nat
  | FinalStore _ cur => cur = word c
  | LockedRead acc => acc `prefix_of` cell c
  | ReadOcc seq1 g => reader_ok c seq1 g [] false
  | ReadWords seq1 g acc => reader_ok c seq1 g acc true
  | ReadCheck seq1 g acc => reader_ok c seq1 g acc true ∧ (adds c = g → acc = cell c)
  | _ => True
  end.

Record cell_ok (n : nat) (c : Cell) : Prop := {
  ok_word : ∃ occ lck, word c = word_of (adds c mod 2 ^ 62) occ lck;
  ok_adds : 0 <= adds c;
  ok_len : length (cell c) = n;
}.

Record sys_ok (n : nat) (s : Sys) : Prop := {
  ok_cell : cell_ok n (shared s);
  ok_local : ∀ t pc, pcs s !! t = Some pc → local_ok n (shared s) pc;
  ok_holds : ∀ t pc, pcs s !! t = Some pc → critical pc = true →
    state_locked (word (shared s)) = true ∧ Z.odd (adds (shared s)) = midway pc;
  ok_free : (∀ t pc, pcs s !! t = Some pc → critical pc = false) →
    state_locked (word (shared s)) = false ∧ Z.even (adds (shared s)) = true;
  ok_excl : ∀ t1 t2 pc1 pc2, pcs s !! t1 = Some pc1 → pcs s !! t2 = Some pc2 →
    critical pc1 = true → critical pc2 = true → t1 = t2;
}.

(** ** One step of one thread *)

Section Step.
Context (n : nat).
Implicit Types (c : Cell) (pc : Pc).

(** What the stepping thread may rely on. *)
Record enabled c pc : Prop := {
  en_cell : cell_ok n c;
  en_local : local_ok n c pc;
  en_holds : critical pc = true → state_locked (word c) = true ∧ Z.odd (adds c) = midway pc;
  en_free : state_locked (word c) = false → Z.even (adds c) = true;
}.

Ltac step_cases Hs :=
  unfold step in Hs; repeat (case_hyp Hs; try discriminate Hs); simplify_eq; simpl in *; try done.

Lemma add_seq_ok c : cell_ok n c → cell_ok n (add_seq c) ∧
  state_occupied (word (add_seq c)) = state_occupied (word c) ∧
  state_locked (word (add_seq c)) = state_locked (word c).
Proof.
  intros [(occ & lck & Hw) Ha Hl]. unfold add_seq. simpl. rewrite Hw, word_seq_add.
  rewrite !word_occupied, !word_locked. split; [|done]. split; simpl; [by exists occ, lck|lia|done].
Qed.

Lemma set_word_ok c occ lck : cell_ok n c → cell_ok n (set_word c (word_of (adds c mod 2 ^ 62) occ lck)).
Proof. intros [_ Ha Hl]. split; simpl; [by exists occ, lck|done|done]. Qed.

Lemma step_cell c pc c' pc' : enabled c pc → step c pc = Some (c', pc') → cell_ok n c'.
Proof.
  intros [Hc Hl _ _] Hs. destruct pc; step_cases Hs;
    try (by apply add_seq_ok); destruct (ok_word _ _ Hc) as (occ & lck & Hw);
    try (rewrite Hw, ?word_lock, ?word_unlock, ?word_flag; by apply set_word_ok).
  - destruct Hc. split; simpl; [done|done|]. by rewrite length_insert.
  - subst cur. pose proof (add_seq_ok c Hc) as [[_ Ha Hln] _]. simpl in *. rewrite Hw, set_final_vacant_eq, word_seq_add, word_flag, word_unlock.
    split; simpl; [by eexists _, _|done|done].
  - subst cur. pose proof (add_seq_ok c Hc) as [[_ Ha Hln] _]. simpl in *. rewrite Hw, set_final_occupied_eq, word_seq_add, word_unlock.
    split; simpl; [by eexists _, _|done|done].
Qed.

(** What other threads can see of a step. *)
Lemma step_evolves c pc c' pc' :
  enabled c pc → step c pc = Some (c', pc') →
  adds c <= adds c' ∧
  (adds c' = adds c → Z.even (adds c) = true →
   cell c' = cell c ∧ state_occupied (word c') = state_occupied (word c)).
Proof.
  intros [Hc Hl Hh _] Hs. destruct (ok_word _ _ Hc) as (occ & lck & Hw).
  destruct pc; step_cases Hs; (split; [lia|]); intros He Hev; try lia;
    try (rewrite <- Z.negb_odd in Hev; destruct Hh as [_ Ho]; [done|]; by rewrite Ho in Hev);
    rewrite Hw, ?word_lock, ?word_unlock, !word_occupied; done.
Qed.

Lemma step_noncritical c pc c' pc' :
  enabled c pc → step c pc = Some (c', pc') → critical pc = false →
  (c' = c ∧ critical pc' = false) ∨ (state_locked (word c) = false ∧ critical pc' = true).
Proof. intros _ Hs Hn. destruct pc; step_cases Hs; auto; right; split; try done; by destruct a. Qed.

Lemma step_holds c pc c' pc' :
  enabled c pc → step c pc = Some (c', pc') →
  (critical pc' = true → state_locked (word c') = true ∧ Z.odd (adds c') = midway pc') ∧
  (critical pc = true → critical pc' = false → state_locked (word c') = false ∧ Z.even (adds c') = true).
Proof.
  intros [Hc Hl Hh Hf] Hs. destruct (ok_word _ _ Hc) as (occ & lck & Hw).
  destruct pc; step_cases Hs; (split; intros; try done);
    try (destruct Hh as [Hlk Ho]; [done|]; rewrite Hw, word_locked in Hlk); subst;
    rewrite Hw, ?set_final_vacant_eq, ?set_final_occupied_eq, ?word_seq_add, ?word_lock, ?word_flag, ?word_unlock,
      ?word_locked, ?Z.odd_add, ?Z.even_add, <- ?Z.negb_odd, ?Ho; try done;
    (split; [done|]); rewrite <- Z.negb_even, Hf; done.
Qed.

Lemma prefix_snoc_lookup (acc l : words) x :
  acc `prefix_of` l → l !! length acc = Some x → acc ++ [x] `prefix_of` l.
Proof.
  intros [k ->] Hx. rewrite lookup_app_r, Nat.sub_diag in Hx by lia. destruct k as [|y k]; [done|].
  simplify_eq/=. exists k. by rewrite <- app_assoc.
Qed.

Lemma prefix_all (acc l : words) : acc `prefix_of` l → l !! length acc = None → acc = l.
Proof.
  intros [k ->] Hx. rewrite lookup_app_r, Nat.sub_diag in Hx by lia. destruct k; [by rewrite app_nil_r|done].
Qed.

Lemma odd_mod32 a : Z.odd (a mod 2 ^ 32) = Z.odd a.
Proof. rewrite <- !Z.bit0_odd. by rewrite Z.mod_pow2_bits_low by lia. Qed.

Lemma step_local c pc c' pc' : enabled c pc → step c pc = Some (c', pc') → local_ok n c' pc'.
Proof.
  intros [Hc Hl Hh Hf] Hs. destruct (ok_word _ _ Hc) as (occ & lck & Hw). pose proof (ok_len _ _ Hc) as Hn.
  destruct pc; step_cases Hs; try (by destruct Hl).
  - apply prefix_nil.
  - split; [by apply Hl|lia].
  - split; [done|lia].
  - split; [done|lia].
  - split; [done|lia].
  - destruct Hl as [? ?]. split; [done|]. pose proof (lookup_lt_Some _ _ _ E). lia.
  - by apply prefix_snoc_lookup.
  - rewrite Hw, word_seq in *. pose proof (ok_adds _ _ Hc). repeat split; [|done|done|apply prefix_nil|done].
    rewrite <- Z.negb_odd, <- odd_mod32. by rewrite E.
  - destruct Hl as (? & ? & [? ?] & Hp). repeat split; try done. apply prefix_nil.
  - destruct Hl as (? & ? & ? & Hp). split; [done|]. split; [done|]. split; [done|].
    intros He. destruct (Hp He). split; [|done]. by apply prefix_snoc_lookup.
  - split; [done|]. intros He. destruct Hl as (? & ? & ? & Hp). apply prefix_all; [by apply Hp|done].
Qed.

Lemma step_credits c pc c' pc' :
  step c pc = Some (c', pc') → adds c' + credits pc' <= adds c + credits pc.
Proof. intros Hs. destruct pc; step_cases Hs; try lia; destruct a; simpl; lia. Qed.

(** The assertion of a waiting thread survives the steps of the others. *)
Lemma local_stable c c' pc :
  (critical pc = true → c' = c) →
  adds c <= adds c' →
  (adds c' = adds c → Z.even (adds c) = true →
   cell c' = cell c ∧ state_occupied (word c') = state_occupied (word c)) →
  local_ok n c pc → local_ok n c' pc.
Proof.
  intros Hcrit Hle Hsame.
  assert (Hr : ∀ seq1 g acc occ, reader_ok c seq1 g acc occ → reader_ok c' seq1 g acc occ).
  { intros seq1 g acc occ (? & Hev & ? & Hp). split; [done|]. split; [done|]. split; [lia|].
    intros He. assert (adds c = g) as <- by lia. destruct (Hsame He Hev) as [-> ->]. by apply Hp. }
  destruct pc; simpl; auto; try (by rewrite Hcrit).
  intros [Hro Hall]. split; [by apply Hr|]. intros He. destruct Hro as (_ & Hev & ? & _).
  assert (adds c = g) as <- by lia. destruct (Hsame He Hev) as [-> _]. by apply Hall.
Qed.
End Step.

(** ** The invariant of the system *)

Lemma total_credits_insert l t pc pc' :
  l !! t = Some pc → total_credits (<[t := pc']> l) = total_credits l - credits pc + credits pc'.
Proof.
  revert t. induction l as [|x l IH]; intros [|t] Ht; simplify_eq/=; [lia|]. rewrite (IH t Ht). lia.
Qed.

Section System.
Context (n : nat).
Implicit Types (s : Sys) (log : list (nat * Res)).

Lemma sys_enabled s t pc : sys_ok n s → pcs s !! t = Some pc → enabled n (shared s) pc.
Proof.
  intros [Hc Hl Hh Hf _] Ht. split; [done|by eapply Hl|by eapply Hh|].
  intros Hu. apply Hf. intros t' pc' Ht'. destruct (critical pc') eqn:E; [|done].
  destruct (Hh t' pc' Ht' E). congruence.
Qed.

(** While a thread holds the lock the others change nothing. *)
Lemma others_idle s t pc c' pc' t' pc2 :
  sys_ok n s → pcs s !! t = Some pc → step (shared s) pc = Some (c', pc') →
  pcs s !! t' = Some pc2 → t' ≠ t → critical pc2 = true → c' = shared s ∧ critical pc' = false.
Proof.
  intros Hok Ht Hs Ht' Hne Hcr. pose proof (sys_enabled s t pc Hok Ht) as Hen.
  destruct (critical pc) eqn:E.
  - destruct Hne. by eapply (ok_excl n s Hok).
  - destruct (step_noncritical n _ _ _ _ Hen Hs E) as [?|[Hu _]]; [done|].
    destruct (ok_holds n s Hok _ _ Ht' Hcr). congruence.
Qed.

Lemma sys_step_ok s t pc c' pc' :
  sys_ok n s → pcs s !! t = Some pc → step (shared s) pc = Some (c', pc') →
  sys_ok n (mkSys c' (<[t := pc']> (pcs s))).
Proof.
  intros Hok Ht Hs. pose proof (sys_enabled s t pc Hok Ht) as Hen.
  pose proof (lookup_lt_Some _ _ _ Ht) as Hlt.
  assert (Hother : ∀ t' pc2, t' ≠ t → pcs s !! t' = Some pc2 → critical pc2 = true →
    c' = shared s ∧ critical pc' = false) by (intros t' pc2 ? ? ?; by eapply (others_idle s t pc c' pc' t' pc2)).
  destruct (step_evolves n _ _ _ _ Hen Hs) as [Hle Hsame]. destruct (step_holds n _ _ _ _ Hen Hs) as [Hh Hrel].
  assert (Hlook : ∀ t' pc2, <[t := pc']> (pcs s) !! t' = Some pc2 →
    (t' = t ∧ pc2 = pc') ∨ (t' ≠ t ∧ pcs s !! t' = Some pc2)).
  { intros t' pc2 [(-> & <- & _)|[? ?]]%list_lookup_insert_Some; [by left|right; auto]. }
  split; simpl.
  - by eapply step_cell.
  - intros t' pc2 [[-> ->]|[Hne Ht']]%Hlook; [by eapply step_local|].
    eapply local_stable; [|done|done|by eapply ok_local]. intros Hcr. by eapply Hother.
  - intros t' pc2 [[-> ->]|[Hne Ht']]%Hlook Hcr; [by apply Hh|].
    destruct (Hother t' pc2 Hne Ht' Hcr) as [-> _]. by eapply ok_holds.
  - intros Hnone. assert (Hpc' : critical pc' = false) by (apply (Hnone t); by apply list_lookup_insert_eq).
    destruct (critical pc) eqn:E; [by apply Hrel|].
    destruct (step_noncritical n _ _ _ _ Hen Hs E) as [[-> _]|[_ ?]]; [|congruence].
    apply (ok_free n s Hok). intros t' pc2 Ht'. destruct (decide (t' = t)) as [->|Hne]; [congruence|].
    apply (Hnone t'). by rewrite list_lookup_insert_ne.
  - intros t1 t2 pc1 pc2 [[-> ->]|[Hn1 H1]]%Hlook [[-> ->]|[Hn2 H2]]%Hlook C1 C2; [done| | |].
    + destruct (Hother t2 pc2 Hn2 H2 C2). congruence.
    + destruct (Hother t1 pc1 Hn1 H1 C1). congruence.
    + by eapply (ok_excl n s Hok).
Qed.

Lemma run_ind (P : Sys * list (nat * Res) → Prop) sched p :
  (∀ s log t pc c' pc', P (s, log) → pcs s !! t = Some pc → step (shared s) pc = Some (c', pc') →
     P (mkSys c' (<[t := pc']> (pcs s)), match commit (shared s) pc with Some r => log ++ [(t, r)] | None => log end)) →
  P p → P (run sched p).
Proof.
  intros Hstep. unfold run. revert p. induction sched as [|t sched IH]; intros [s log] Hp; simpl; [done|].
  apply IH. destruct (pcs s !! t) as [pc|] eqn:Ht; [|done].
  destruct (step (shared s) pc) as [[c' pc']|] eqn:Hs; [by apply Hstep|done].
Qed.

Lemma start_local ops t pc c :
  Forall (op_width n) ops → (start <$> ops) !! t = Some pc → local_ok n c pc ∧ critical pc = false.
Proof.
  intros Hw [o [-> Ho]]%list_lookup_fmap_Some. rewrite Forall_lookup in Hw. specialize (Hw t o Ho).
  by destruct o.
Qed.

Lemma initial_ok v0 ops : length v0 = n → Forall (op_width n) ops → sys_ok n (initial v0 ops).1.
Proof.
  intros Hv Hw. split; simpl.
  - split; simpl; [by exists true, false|done|done].
  - intros t pc Ht. by eapply start_local.
  - intros t pc Ht Hc. destruct (start_local ops t pc (mkCell 0 v0 0) Hw Ht). congruence.
  - done.
  - intros t1 t2 pc1 pc2 H1 _ C1 _. destruct (start_local ops t1 pc1 (mkCell 0 v0 0) Hw H1). congruence.
Qed.

Definition few (k : nat) s : Prop := adds (shared s) + total_credits (pcs s) <= 2 * Z.of_nat k.

Lemma total_credits_nonneg l : 0 <= total_credits l.
Proof. induction l as [|pc l IH]; simpl; [done|]. destruct pc; simpl; lia. Qed.

Lemma few_step k s t pc c' pc' :
  few k s → pcs s !! t = Some pc → step (shared s) pc = Some (c', pc') → few k (mkSys c' (<[t := pc']> (pcs s))).
Proof.
  unfold few. intros Hk Ht Hs. simpl. rewrite (total_credits_insert _ _ _ _ Ht).
  pose proof (step_credits _ _ _ _ Hs). lia.
Qed.

Lemma few_start v0 ops : few (length ops) (initial v0 ops).1.
Proof.
  unfold few. cbn [initial fst shared pcs adds]. rewrite Z.add_0_l.
  induction ops as [|o ops IH]; [done|]. rewrite fmap_cons. cbn [length total_credits foldr].
  fold (total_credits (start <$> ops)). rewrite Nat2Z.inj_succ. destruct o; simpl credits; lia.
Qed.

Lemma run_ok v0 ops sched :
  length v0 = n → Forall (op_width n) ops →
  sys_ok n (run sched (initial v0 ops)).1 ∧ few (length ops) (run sched (initial v0 ops)).1.
Proof.
  intros Hv Hw. apply (run_ind (λ p, sys_ok n p.1 ∧ few (length ops) p.1)).
  - intros s log t pc c' pc' [Hok Hf] Ht Hs. split; [by eapply sys_step_ok|by eapply few_step].
  - split; [by apply initial_ok|apply few_start].
Qed.

(** Equal sequence numbers, few enough increments: no increment in between. *)
Lemma seq_unchanged s k seq1 g acc occ :
  cell_ok n (shared s) → few k s → Z.of_nat k < 2 ^ 31 →
  reader_ok (shared s) seq1 g acc occ → state_seq (word (shared s)) = seq1 → adds (shared s) = g.
Proof.
  intros Hc Hf Hk (-> & _ & Hg & _) Hseq. destruct (ok_word _ _ Hc) as (o & l & Hw).
  rewrite Hw, word_seq in Hseq. unfold few in Hf. pose proof (total_credits_nonneg (pcs s)).
  rewrite !Z.mod_small in Hseq by lia. done.
Qed.

Lemma even_none_midway s t pc :
  sys_ok n s → Z.even (adds (shared s)) = true → pcs s !! t = Some pc → midway pc = false.
Proof.
  intros Hok He Ht. destruct (midway pc) eqn:E; [|done].
  destruct (ok_holds n s Hok t pc Ht) as [_ Ho]; [by destruct pc|].
  rewrite E in Ho. rewrite <- Z.negb_odd, Ho in He. done.
Qed.

Lemma read_snapshot s k t seq1 g acc :
  sys_ok n s → few k s → Z.of_nat k < 2 ^ 31 →
  pcs s !! t = Some (ReadCheck seq1 g acc) → state_seq (word (shared s)) = seq1 →
  acc = cell (shared s) ∧ state_occupied (word (shared s)) = true ∧ Z.even (adds (shared s)) = true.
Proof.
  intros Hok Hf Hk Ht Hseq. destruct (ok_local n s Hok t _ Ht) as [Hr Hall].
  assert (adds (shared s) = g) as Hg by (eapply seq_unchanged; [apply Hok|..]; done).
  destruct Hr as (_ & Hev & _ & Hp). destruct (Hp Hg) as [_ Ho]. subst g. auto.
Qed.
End System.
