(* ===== verification/SeqlockSpec.v ===== *)
(** What concurrent access to an entry guarantees: whole values, progress, and
    linearizability of the operations that test the occupied bit under the
    lock; and the interleavings that break [set] and [get]. *)

From S2P Require Import Prelude Shard Seqlock.
Local Open Scope Z_scope.

(** ** The sequential entry *)

Definition spec_op (o : Op) (s : option words) : option words * Res :=
  match o with
  | OUpdate f => (f <$> s, RVal s)
  | ORemove => (None, RVal s)
  | OAbsent v => match s with None => (Some v, RBool true) | Some _ => (s, RBool false) end
  | OSet v => (Some v, RBool (bool_decide (s = None)))
  | OLockedGet | ORead | OGet => (s, RVal s)
  end.

(** [legal ops s0 log s]: the logged operations, run one after the other from
    [s0], give the logged results and end in [s]. *)
Inductive legal (ops : list Op) (s0 : option words) : list (nat * Res) → option words → Prop :=
| legal_nil : legal ops s0 [] s0
| legal_snoc log s t o s' r :
    legal ops s0 log s → ops !! t = Some o → spec_op o s = (s', r) → legal ops s0 (log ++ [(t, r)]) s'.

(** Every operation but [set] and [get]. *)
Definition synchronized (o : Op) : bool := match o with OSet _ | OGet => false | _ => true end.

(** ** Local assertions *)

Definition op_act (o : Op) : option Act :=
  match o with
  | OUpdate f => Some (AUpdate f)
  | ORemove => Some ARemove
  | OAbsent v => Some (AAbsent v)
  | OLockedGet => Some ALockedGet
  | _ => None
  end.

(** The thread at [pc] runs [o]. *)
Definition runs (o : Op) (pc : Pc) : Prop :=
  match pc with
  | Check o' => o' = o ∧ (o = ORemove ∨ ∃ v, o = OAbsent v)
  | Lock a | Recheck a | Begin a | Writing a _ _ _ | Flag a _ | End a _ => op_act o = Some a
  | LockedRead _ => o = OLockedGet
  | ReadSeq | ReadOcc _ _ | ReadWords _ _ _ | ReadCheck _ _ _ => o = ORead
  | Unlock _ | Done _ => True
  | _ => False
  end.

(** The result the thread has committed. *)
Definition committed (pc : Pc) : option Res :=
  match pc with
  | End (AUpdate _) _ => None
  | End a old => Some (act_result a old)
  | Unlock r | Done r => Some r
  | _ => None
  end.

Definition at_rest (c : Cell) (s : option words) : Prop := ∀ v, s = Some v → v = cell c.

(** How the cell of the lock holder relates to the abstract value [s]. *)
Definition holder_ok (c : Cell) (s : option words) (pc : Pc) : Prop :=
  match pc with
  | Begin (AUpdate _) | Begin ARemove => s = Some (cell c)
  | Begin (AAbsent _) => s = None
  | Writing (AUpdate f) old k new =>
      s = Some old ∧ new = f old ∧ length old = length new ∧ cell c = take k new ++ drop k old
  | Writing (AAbsent v) old k new => s = None ∧ new = v ∧ length old = length new ∧ cell c = take k new ++ drop k old
  | Flag ARemove old => s = Some old
  | Flag (AAbsent v) _ => s = None ∧ cell c = v
  | End (AUpdate f) old => s = Some old ∧ cell c = f old
  | LockedRead _ => s = Some (cell c)
  | Begin _ | Writing _ _ _ _ | Flag _ _ => False
  | _ => at_rest c s
  end.

Section Local.
Context (n : nat).

Ltac step_cases Hs :=
  unfold step in Hs; repeat (case_hyp Hs; try discriminate Hs); simplify_eq; simpl in *; try done.

(** A step takes the abstract value from [s] to [s'] and commits a result that
    the sequential operation gives. *)
Record lin_step (c : Cell) (pc : Pc) (c' : Cell) (pc' : Pc) (o : Op) (s s' : option words) : Prop := {
  ls_spec : match commit c pc with Some r => spec_op o s = (s', r) | None => s' = s end;
  ls_runs : runs o pc';
  ls_occ : state_occupied (word c') = bool_decide (is_Some s');
  ls_committed : committed pc' = match commit c pc with Some r => Some r | None => committed pc end;
  ls_holder : critical pc' = true → holder_ok c' s' pc';
  ls_rest : critical pc = true → critical pc' = false → at_rest c' s';
  ls_free : critical pc = false → s' = s;
}.

Lemma write_next (new old : words) k x :
  length old = length new → new !! k = Some x →
  <[k := x]> (take k new ++ drop k old) = take (S k) new ++ drop (S k) old.
Proof.
  intros Hl Hk. pose proof (lookup_lt_Some _ _ _ Hk) as Hlt.
  rewrite (take_S_r _ _ _ Hk). rewrite insert_app_r_alt by (rewrite length_take; lia).
  rewrite length_take, Nat.min_l, Nat.sub_diag, <- app_assoc by lia. f_equal.
  destruct (lookup_lt_is_Some_2 old k) as [y Hy]; [lia|]. by rewrite (drop_S _ _ _ Hy).
Qed.

Lemma write_all (new old : words) k :
  length old = length new → new !! k = None → take k new ++ drop k old = new.
Proof.
  intros Hl Hk%lookup_ge_None. rewrite take_ge, drop_ge by lia. apply app_nil_r.
Qed.

Lemma occ_true (s : option words) : true = bool_decide (is_Some s) → ∃ v, s = Some v.
Proof. intros H%eq_sym%bool_decide_eq_true. done. Qed.

Lemma occ_false (s : option words) : false = bool_decide (is_Some s) → s = None.
Proof. intros H%eq_sym%bool_decide_eq_false. by apply eq_None_not_Some. Qed.

Lemma step_lin_free c pc c' pc' o s :
  enabled n c pc → step c pc = Some (c', pc') → runs o pc → critical pc = false →
  state_occupied (word c) = bool_decide (is_Some s) →
  (Z.even (adds c) = true → at_rest c s) →
  (∀ seq1 g acc, pc = ReadCheck seq1 g acc → state_seq (word c) = seq1 →
     acc = cell c ∧ state_occupied (word c) = true ∧ Z.even (adds c) = true) →
  lin_step c pc c' pc' o s s.
Proof.
  intros Hen Hs Hr Hcr Ho Hrest Hread. destruct (ok_word _ _ (en_cell _ _ _ Hen)) as (occ & lck & Hw).
  destruct pc; try done.
  - simpl in Hr. destruct Hr as [-> [->|[v ->]]]; simpl in Hs; simplify_eq;
      destruct (state_occupied (word c')) eqn:E; split; simpl; rewrite ?E; try done.
    + by rewrite (occ_false s Ho).
    + by destruct (occ_true s Ho) as [? ->].
  - simpl in Hs. destruct (state_locked (word c)) eqn:E; [done|]. simplify_eq.
    assert (at_rest c s) by (apply Hrest; by apply (en_free _ _ _ Hen)).
    assert (state_occupied (state_lock (word c)) = bool_decide (is_Some s))
      by (rewrite <- Ho, Hw, word_lock; by rewrite !word_occupied).
    simpl in Hr. destruct o; simplify_eq/=; by split.
  - simpl in Hs. simplify_eq. by split; simpl; try (by case_goal).
  - simpl in Hs, Hr. simplify_eq. destruct (state_occupied (word c')) eqn:E; split; simpl; rewrite ?E; try done.
    by rewrite (occ_false s Ho).
  - simpl in Hs, Hr. destruct (cell c !! length acc) eqn:E; simplify_eq; by split.
  - simpl in Hs, Hr. destruct (state_seq (word c) =? seq1) eqn:E; simplify_eq; (split; simpl; rewrite ?E; try done).
    split_bool. destruct (Hread seq1 g acc eq_refl E) as (-> & Hocc & Hev). rewrite Hocc in Ho.
    destruct (occ_true s Ho) as [v ->]. by rewrite (Hrest Hev v eq_refl).
Qed.

Lemma step_lin_held c pc c' pc' o s :
  enabled n c pc → step c pc = Some (c', pc') → runs o pc → critical pc = true →
  state_occupied (word c) = bool_decide (is_Some s) → holder_ok c s pc →
  ∃ s', lin_step c pc c' pc' o s s'.
Proof.
  intros Hen Hs Hr Hcr Ho Hh. destruct (ok_word _ _ (en_cell _ _ _ Hen)) as (occ & lck & Hw).
  pose proof (ok_len _ _ (en_cell _ _ _ Hen)) as Hn.
  destruct pc; try done; simpl in Hr.
  - exists s. simpl in Hs, Hh. simplify_eq.
    assert (Hsome : state_occupied (word c') = true → s = Some (cell c')).
    { intros E. rewrite E in Ho. destruct (occ_true s Ho) as [v ->]. by rewrite (Hh v eq_refl). }
    assert (Hnone : state_occupied (word c') = false → s = None).
    { intros E. rewrite E in Ho. by apply occ_false. }
    destruct o; simplify_eq/=; destruct (state_occupied (word c')) eqn:E; split; simpl; rewrite ?E; try done; auto;
      try (by rewrite Hnone); try (by rewrite Hsome).
  - exists s. simpl in Hs. simplify_eq. destruct (add_seq_ok _ c (en_cell _ _ _ Hen)) as (_ & Ho' & _).
    pose proof (en_local _ _ _ Hen) as Hwid.
    destruct o; simplify_eq/=; (split; simpl; rewrite ?Ho'; try done); intros _; repeat split; try done.
    symmetry. by apply Hwid.
  - exists s. simpl in Hs. destruct (new !! k) as [x|] eqn:Ek; simplify_eq.
    + destruct o; simplify_eq/=; (split; simpl; try done); intros _;
        destruct Hh as (-> & -> & Hl & Hc); repeat split; try done; rewrite Hc; by apply write_next.
    + destruct o; simplify_eq/=; (split; simpl; try done); intros _;
        destruct Hh as (-> & -> & Hl & Hc); (split; [done|]); rewrite Hc; by apply write_all.
  - simpl in Hs. simplify_eq. destruct o; simplify_eq/=; try done.
    + exists None. split; simpl; try done. by rewrite Hw, word_flag, word_occupied.
    + destruct Hh as [-> Hc]. exists (Some v). split; simpl; try done.
      * by rewrite Hw, word_flag, word_occupied.
      * intros _ v' [= <-]. done.
  - simpl in Hs. simplify_eq. destruct (add_seq_ok _ c (en_cell _ _ _ Hen)) as (_ & Ho' & _). simpl in Ho'.
    destruct o; simplify_eq/=.
    + destruct Hh as [-> Hc]. exists (Some (f old)). split; simpl; try done; rewrite ?Ho'; try done.
      intros _ v' [= <-]. done.
    + exists s. split; simpl; try done; by rewrite ?Ho'.
    + exists s. split; simpl; try done; by rewrite ?Ho'.
    + exists s. split; simpl; try done; by rewrite ?Ho'.
  - exists s. simpl in Hs. destruct (cell c !! length acc) as [x|] eqn:Ek; simplify_eq; split; simpl; rewrite ?Ek; try done.
    + simpl in Hh. rewrite Hh. repeat f_equal. symmetry. apply prefix_all; [apply (en_local _ _ _ Hen)|done].
    + intros _ v E. simpl in Hh. congruence.
  - exists s. simpl in Hs. simplify_eq. split; simpl; try done.
    rewrite <- Ho, Hw, word_unlock. by rewrite !word_occupied.
Qed.
End Local.

(** ** Linearizability *)

(** Some thread holds the lock, or none does. *)
Lemma critical_cases (l : list Pc) :
  (∃ t pc, l !! t = Some pc ∧ critical pc = true) ∨ (∀ t pc, l !! t = Some pc → critical pc = false).
Proof.
  destruct (decide (Exists (λ pc, critical pc = true) l)) as [(pc & Hin & Hc)%Exists_exists|Hn].
  - left. apply list_elem_of_lookup in Hin as [t Ht]. by exists t, pc.
  - right. intros t pc Ht. apply not_true_is_false. intros Hc. apply Hn, Exists_exists. exists pc.
    split; [by eapply list_elem_of_lookup_2|done].
Qed.

Section Linearizable.
Context (n : nat) (ops : list Op) (v0 : words).
Implicit Types (s : Sys) (log : list (nat * Res)) (a : option words).

(** A thread is in the log, once, with its result, exactly when it has committed. *)
Record log_ok (l : list Pc) log : Prop := {
  lo_done : ∀ t pc r, l !! t = Some pc → committed pc = Some r → (t, r) ∈ log;
  lo_open : ∀ t pc, l !! t = Some pc → committed pc = None → t ∉ log.*1;
  lo_once : NoDup log.*1;
}.

Record lin_ok s log a : Prop := {
  li_legal : legal ops (Some v0) log a;
  li_occ : state_occupied (word (shared s)) = bool_decide (is_Some a);
  li_thread : ∀ t pc, pcs s !! t = Some pc → ∃ o, ops !! t = Some o ∧ runs o pc;
  li_log : log_ok (pcs s) log;
  li_holder : ∀ t pc, pcs s !! t = Some pc → critical pc = true → holder_ok (shared s) a pc;
  li_rest : (∀ t pc, pcs s !! t = Some pc → critical pc = false) → at_rest (shared s) a;
}.

(** Between write sections the cell holds the abstract value. *)
Lemma even_at_rest s log a :
  sys_ok n s → lin_ok s log a → Z.even (adds (shared s)) = true → at_rest (shared s) a.
Proof.
  intros Hok Hl He. destruct (critical_cases (pcs s)) as [(t & pc & Ht & Hcr)|Hnone].
  - pose proof (li_holder s log a Hl t pc Ht Hcr) as Hh. pose proof (even_none_midway n s t pc Hok He Ht) as Hm.
    destruct pc; try done; intros v E; simpl in Hh; [|congruence]. destruct a0; simplify_eq/=; done.
  - by apply (li_rest s log a Hl).
Qed.

Lemma thread_lin_step s log a t pc c' pc' o :
  sys_ok n s → few (length ops) s → Z.of_nat (length ops) < 2 ^ 31 → lin_ok s log a →
  pcs s !! t = Some pc → step (shared s) pc = Some (c', pc') → runs o pc →
  ∃ a', lin_step (shared s) pc c' pc' o a a'.
Proof.
  intros Hok Hf Hk Hl Ht Hs Hr. pose proof (sys_enabled n s t pc Hok Ht) as Hen.
  destruct (critical pc) eqn:E.
  - apply (step_lin_held n); [done|done|done|done|apply Hl|by eapply li_holder].
  - exists a. apply (step_lin_free n); [done|done|done|done|apply Hl|by eapply even_at_rest|].
    intros seq1 g acc -> Hseq. by eapply read_snapshot.
Qed.

Definition extend log t (r : option Res) : list (nat * Res) :=
  match r with Some r => log ++ [(t, r)] | None => log end.

Lemma insert_cases (l : list Pc) t pc' t' pc2 :
  <[t := pc']> l !! t' = Some pc2 → (t' = t ∧ pc2 = pc') ∨ (t' ≠ t ∧ l !! t' = Some pc2).
Proof. intros [(-> & <- & _)|[? ?]]%list_lookup_insert_Some; [by left|right; auto]. Qed.

Lemma log_extend_ok (l : list Pc) log t pc pc' (r : option Res) :
  log_ok l log → l !! t = Some pc → (is_Some r → committed pc = None) →
  committed pc' = match r with Some r => Some r | None => committed pc end →
  log_ok (<[t := pc']> l) (extend log t r).
Proof.
  intros [Hd Ho Hn] Ht Hr Hc.
  assert (Hlog : ∀ x, x ∈ extend log t r ↔ x ∈ log ∨ ∃ r', r = Some r' ∧ x = (t, r')).
  { intros x. unfold extend. destruct r; set_solver. }
  split.
  - intros t' pc2 r2 [[-> ->]|[_ Ht']]%insert_cases Hcm; apply Hlog; [|left; by eapply Hd].
    rewrite Hc in Hcm. destruct r as [r'|]; simplify_eq; [right; by exists r2|left; by eapply Hd].
  - intros t' pc2 Hpc Hcm [[t2 r2] [-> Hin]]%list_elem_of_fmap. apply Hlog in Hin. simpl in *.
    apply insert_cases in Hpc as [[-> ->]|[Hne Ht']].
    + rewrite Hc in Hcm. destruct r as [r'|]; [done|]. destruct Hin as [Hin|(? & ? & _)]; [|done].
      apply (Ho t pc Ht Hcm). by apply (list_elem_of_fmap_2 fst) in Hin.
    + destruct Hin as [Hin|(? & _ & ?)]; [|simplify_eq].
      apply (Ho t2 pc2 Ht' Hcm). by apply (list_elem_of_fmap_2 fst) in Hin.
  - unfold extend. destruct r as [r'|]; [|done]. rewrite fmap_app. simpl.
    apply NoDup_app. split; [done|]. split; [|apply NoDup_singleton]. intros x Hx ->%list_elem_of_singleton.
    by apply (Ho t pc Ht); [apply Hr|].
Qed.

Lemma commit_open c pc : is_Some (commit c pc) → committed pc = None.
Proof. intros [r Hc]. destruct pc as [o| |a|a|a|a|a| | | | | | | | | |]; simpl in *; try done; by destruct a. Qed.

Lemma lin_sys_step s log a t pc c' pc' :
  sys_ok n s → few (length ops) s → Z.of_nat (length ops) < 2 ^ 31 → lin_ok s log a →
  pcs s !! t = Some pc → step (shared s) pc = Some (c', pc') →
  ∃ a', lin_ok (mkSys c' (<[t := pc']> (pcs s))) (extend log t (commit (shared s) pc)) a'.
Proof.
  intros Hok Hf Hk Hl Ht Hs. destruct (li_thread s log a Hl t pc Ht) as (o & Hot & Hr).
  destruct (thread_lin_step s log a t pc c' pc' o Hok Hf Hk Hl Ht Hs Hr) as [a' [H1 H2 H3 H4 H5 H6 H7]].
  pose proof (lookup_lt_Some _ _ _ Ht) as Hlt. exists a'. split; simpl.
  - unfold extend. destruct (commit (shared s) pc); [|subst a'; apply Hl]. econstructor; [apply Hl|done|done].
  - done.
  - intros t' pc2 [[-> ->]|[_ ?]]%insert_cases; [by exists o|by eapply li_thread].
  - eapply log_extend_ok; [apply Hl|done|apply commit_open|done].
  - intros t' pc2 [[-> ->]|[Hne Ht']]%insert_cases Hcr; [by apply H5|].
    destruct (others_idle n s t pc c' pc' t' pc2 Hok Ht Hs Ht' Hne Hcr) as [-> _].
    rewrite H7; [by eapply li_holder|]. destruct (critical pc) eqn:E; [|done].
    destruct Hne. by eapply (ok_excl n s Hok).
  - intros Hnone. assert (Hpc' : critical pc' = false) by (apply (Hnone t); by apply list_lookup_insert_eq).
    destruct (critical pc) eqn:E; [by apply H6|]. rewrite H7 by done.
    destruct (step_noncritical n _ _ _ _ (sys_enabled n s t pc Hok Ht) Hs E) as [[-> _]|[_ ?]]; [|congruence].
    apply (li_rest s log a Hl). intros t' pc2 Ht'. destruct (decide (t' = t)) as [->|Hne]; [congruence|].
    apply (Hnone t'). by rewrite list_lookup_insert_ne.
Qed.

Lemma lin_initial :
  length v0 = n → Forall (λ o, synchronized o = true) ops → lin_ok (initial v0 ops).1 [] (Some v0).
Proof.
  intros Hv Hsync. rewrite Forall_lookup in Hsync. split; simpl.
  - constructor.
  - done.
  - intros t pc [o [-> Ho]]%list_lookup_fmap_Some. exists o. split; [done|]. specialize (Hsync t o Ho).
    destruct o; simpl in *; eauto; done.
  - split; [|set_solver|constructor]. intros t pc r [o [-> Ho]]%list_lookup_fmap_Some. by destruct o.
  - intros t pc [o [-> Ho]]%list_lookup_fmap_Some Hcr. by destruct o.
  - intros _ v [= <-]. done.
Qed.

Lemma run_lin sched :
  length v0 = n → Forall (op_width n) ops → Forall (λ o, synchronized o = true) ops →
  Z.of_nat (length ops) < 2 ^ 31 →
  let p := run sched (initial v0 ops) in ∃ a, lin_ok p.1 p.2 a.
Proof.
  intros Hv Hw Hsync Hk.
  apply (run_ind (λ p, sys_ok n p.1 ∧ few (length ops) p.1 ∧ ∃ a, lin_ok p.1 p.2 a)).
  - intros s log t pc c' pc' (Hok & Hf & a & Hl) Ht Hs. simpl in *.
    split; [by eapply sys_step_ok|]. split; [by eapply few_step|]. by eapply lin_sys_step.
  - split; [by apply initial_ok|]. split; [apply few_start|]. exists (Some v0). by apply lin_initial.
Qed.
End Linearizable.

(** ** Properties *)

(** C26: A consistent read returns a whole, current value.  Whatever operations
    the threads run (fewer than [2^31] of them) and however their steps
    interleave, at most one thread holds the lock, and when [read_consistent]
    accepts what it read, that is exactly the value of the entry at that
    instant, the entry is occupied, and no thread is in its write section. *)
Theorem read_consistent_whole n v0 ops sched t seq1 g acc :
  length v0 = n → Forall (op_width n) ops → Z.of_nat (length ops) < 2 ^ 31 →
  let s := (run sched (initial v0 ops)).1 in
  pcs s !! t = Some (ReadCheck seq1 g acc) →
  step (shared s) (ReadCheck seq1 g acc) = Some (shared s, Done (RVal (Some acc))) →
  acc = cell (shared s) ∧ state_occupied (word (shared s)) = true ∧
  (∀ t' pc, pcs s !! t' = Some pc → midway pc = false) ∧
  (∀ t1 t2 pc1 pc2, pcs s !! t1 = Some pc1 → pcs s !! t2 = Some pc2 →
     critical pc1 = true → critical pc2 = true → t1 = t2).
Proof.
  intros Hv Hw Hk s Ht Hs. destruct (run_ok n v0 ops sched Hv Hw) as [Hok Hf].
  simpl in Hs. destruct (state_seq (word (shared s)) =? seq1) eqn:E; [|done]. split_bool.
  destruct (read_snapshot n s (length ops) t seq1 g acc Hok Hf Hk Ht E) as (-> & Ho & Hev).
  split; [done|]. split; [done|]. split; [|apply (ok_excl n s Hok)].
  intros t' pc Ht'. by eapply even_none_midway.
Qed.

(** C2: The operations that test the occupied bit under the lock, and the
    consistent read, are linearizable.  For every schedule of such operations
    the log, to which each thread adds its result during one of its own steps,
    is a sequential history: run one after the other, the logged operations
    give the logged results.  Every thread that has returned is in the log with
    the result it returned, no thread is in it twice, and when no thread holds
    the lock the entry holds the value the history ends with. *)
Theorem entry_linearizable n v0 ops sched :
  length v0 = n → Forall (op_width n) ops → Forall (λ o, synchronized o = true) ops →
  Z.of_nat (length ops) < 2 ^ 31 →
  let '(s, log) := run sched (initial v0 ops) in
  ∃ a, legal ops (Some v0) log a ∧ NoDup log.*1 ∧
    (∀ t r, pcs s !! t = Some (Done r) → (t, r) ∈ log) ∧
    ((∀ t pc, pcs s !! t = Some pc → critical pc = false) →
     a = if state_occupied (word (shared s)) then Some (cell (shared s)) else None).
Proof.
  intros Hv Hw Hsync Hk. pose proof (run_lin n ops v0 sched Hv Hw Hsync Hk) as Hl.
  destruct (run sched (initial v0 ops)) as [s log]. simpl in Hl. destruct Hl as [a Hl]. exists a.
  split; [apply Hl|]. split; [apply Hl|]. split.
  - intros t r Ht. by eapply (lo_done _ _ (li_log _ _ _ _ _ Hl)).
  - intros Hnone. rewrite (li_occ _ _ _ _ _ Hl). pose proof (li_rest _ _ _ _ _ Hl Hnone) as Hr.
    destruct a as [v|]; simpl; [|done]. by rewrite (Hr v eq_refl).
Qed.

(** No deadlock.  As long as some thread has not returned, some thread can
    take a step: the lock is held only by a thread that can go on. *)
Theorem entry_progress n v0 ops sched t pc :
  length v0 = n → Forall (op_width n) ops →
  let s := (run sched (initial v0 ops)).1 in
  pcs s !! t = Some pc → (∀ r, pc ≠ Done r) →
  ∃ t' pc', pcs s !! t' = Some pc' ∧ is_Some (step (shared s) pc').
Proof.
  intros Hv Hw s Ht Hnd. destruct (run_ok n v0 ops sched Hv Hw) as [Hok _].
  destruct (critical_cases (pcs s)) as [(t' & pc' & Ht' & Hcr)|Hnone].
  - exists t', pc'. split; [done|]. destruct pc'; try done; simpl; try (by eexists); case_goal; by eexists.
  - exists t, pc. split; [done|].
    destruct (ok_free n s Hok Hnone) as [Hu _]. pose proof (ok_local n s Hok t pc Ht) as Hl.
    specialize (Hnone t pc Ht). destruct pc; try done; simpl in *; rewrite ?Hu; try (by eexists).
    + destruct Hl as [_ Hst]. destruct o; try done; by eexists.
    + case_goal; by eexists.
    + case_goal; by eexists.
    + by destruct (Hnd r).
Qed.

(** A history of two operations. *)
Lemma legal_pair ops s0 t1 r1 t2 r2 a :
  legal ops s0 [(t1, r1); (t2, r2)] a →
  ∃ s1 o1 o2, ops !! t1 = Some o1 ∧ ops !! t2 = Some o2 ∧ spec_op o1 s0 = (s1, r1) ∧ spec_op o2 s1 = (a, r2).
Proof.
  assert (Hsnoc : ∀ l x b, legal ops s0 (l ++ [x]) b → ∃ s o, legal ops s0 l s ∧
    ops !! x.1 = Some o ∧ spec_op o s = (b, x.2)).
  { intros l x b Hl. inversion Hl as [E|l' s t o s' r Hl' Ho Hs E]; [by destruct l|].
    apply app_inj_2 in E as [-> [= <-]]; [|done]. by exists s, o. }
  intros (s1 & o2 & (s' & o1 & Hn & H1 & E1)%(Hsnoc []) & H2 & E2)%(Hsnoc [(t1, r1)]).
  exists s1, o1, o2. inversion Hn as [|l]; subst; [done|]. by destruct l.
Qed.

(** Thread 0 sets a key while thread 1 removes it, and while thread 1 reads it. *)
Definition set_remove_ops : list Op := [OSet [2; 2]; ORemove].
Definition set_remove_sched : list nat := [0; 1; 1; 1; 1; 1; 1; 1; 0; 0; 0; 0; 0; 0; 0; 0; 0]%nat.
Definition torn_ops : list Op := [OUpdate (λ _, [2; 2]); OGet].
Definition torn_sched : list nat := [1; 1; 0; 0; 0; 0; 0; 0; 0; 0; 1; 1; 1; 1]%nat.

(** C39: [set] and [get] are not linearizable.  [set] tests the occupied bit
    before it locks and not again: when [remove] runs in between, [set] reports
    that it replaced a value, [remove] reports the value before it, the entry is
    left empty and the new value is lost, which no order of the two explains.
    [get] checks nothing while it copies, and can return half of the old value
    with half of the new one. *)
Theorem set_get_races :
  (let s := (run set_remove_sched (initial [1; 1] set_remove_ops)).1 in
   pcs s = [Done (RBool false); Done (RVal (Some [1; 1]))] ∧
   state_occupied (word (shared s)) = false ∧
   ∀ log a, log ≡ₚ [(0%nat, RBool false); (1%nat, RVal (Some [1; 1]))] →
     ¬ legal set_remove_ops (Some [1; 1]) log a) ∧
  pcs (run torn_sched (initial [1; 1] torn_ops)).1 = [Done (RVal (Some [1; 1])); Done (RVal (Some [1; 2]))].
Proof.
  split; [|vm_compute; done]. split; [vm_compute; done|]. split; [vm_compute; done|].
  intros log a Hp Hl. apply Permutation_sym, Permutation_length_2_inv in Hp as [->| ->];
    apply legal_pair in Hl as (s1 & o1 & o2 & H1 & H2 & E1 & E2); by simplify_eq/=.
Qed.

(** ** Witnesses *)

Definition demo_ops : list Op := [OUpdate (map (Z.add 1)); ORead].

Lemma demo_width : Forall (op_width 2) demo_ops.
Proof. repeat constructor. intros v Hv. by rewrite length_map. Qed.

Lemma read_consistent_whole_witness :
  pcs (run [1; 1; 1; 1; 1]%nat (initial [1; 1] demo_ops)).1 !! 1%nat = Some (ReadCheck 0 0 [1; 1]) ∧
  [1; 1] = cell (shared (run [1; 1; 1; 1; 1]%nat (initial [1; 1] demo_ops)).1).
Proof.
  assert (Ht : pcs (run [1; 1; 1; 1; 1]%nat (initial [1; 1] demo_ops)).1 !! 1%nat = Some (ReadCheck 0 0 [1; 1]))
    by reflexivity.
  split; [exact Ht|].
  refine (proj1 (read_consistent_whole 2 [1; 1] demo_ops [1; 1; 1; 1; 1]%nat 1 0 0 [1; 1]
    eq_refl demo_width _ Ht _)); vm_compute; reflexivity.
Defined.

Lemma entry_linearizable_witness :
  Forall (λ o, synchronized o = true) demo_ops ∧
  ∃ a, legal demo_ops (Some [1; 1]) (run [1; 0; 1; 0; 0; 0; 1; 1; 1]%nat (initial [1; 1] demo_ops)).2 a.
Proof.
  assert (Hs : Forall (λ o, synchronized o = true) demo_ops) by (repeat constructor).
  split; [exact Hs|].
  assert (Hk : Z.of_nat (length demo_ops) < 2 ^ 31) by reflexivity.
  destruct (entry_linearizable 2 [1; 1] demo_ops [1; 0; 1; 0; 0; 0; 1; 1; 1]%nat eq_refl demo_width Hs Hk) as [a [Hl _]].
  exists a. exact Hl.
Defined.

Lemma entry_progress_witness :
  pcs (run [0; 0]%nat (initial [1; 1] demo_ops)).1 !! 1%nat = Some ReadSeq ∧
  ∃ t' pc', pcs (run [0; 0]%nat (initial [1; 1] demo_ops)).1 !! t' = Some pc' ∧
    is_Some (step (shared (run [0; 0]%nat (initial [1; 1] demo_ops)).1) pc').
Proof.
  split; [reflexivity|].
  apply (entry_progress 2 [1; 1] demo_ops [0; 0]%nat 1 ReadSeq eq_refl demo_width eq_refl). discriminate.
Defined.
