(* ===== verification/Reply.v ===== *)
(** Replies as values: the grammar of what the server writes, its encoding, a
    reader for it, and the reply each writer of utils/resp.rs and
    utils/resp3.rs appends.  [write_double] of the latter prints with the
    shortest form of the standard library, which is an argument here. *)

From Stdlib Require Import Strings.Byte.
From S2P Require Import Prelude Decimal Resp RespSpec Float.
Local Open Scope Z_scope.

(** ** The grammar *)

(** The aggregates: an array, and the map and set of RESP3 (a map is the list
    of its keys and values). *)
Inductive Agg := AArray | AMap | ASet.

#[global] Instance Agg_eq_dec : EqDecision Agg.
Proof. solve_decision. Defined.

Inductive Reply :=
| RSimple (s : bytes)
| RError (s : bytes)
| RInteger (n : Z)
| RBulk (s : bytes)
| RNil
| RAgg (k : Agg) (l : list Reply).

Abbreviation RArray := (RAgg AArray).

Definition agg_tag (k : Agg) : byte :=
  match k with AArray => "*" | AMap => "%" | ASet => "~" end%byte.

(** The number of the header, and the number of replies it announces. *)
Definition agg_count (k : Agg) (n : nat) : Z :=
  match k with AMap => Z.of_nat n / 2 | _ => Z.of_nat n end.
Definition agg_items (k : Agg) (n : nat) : nat :=
  match k with AMap => (2 * n)%nat | _ => n end.

Fixpoint encode (r : Reply) : bytes :=
  match r with
  | RSimple s => "+"%byte :: s ++ CRLF
  | RError s => "-"%byte :: s ++ CRLF
  | RInteger n => ":"%byte :: i64_to_string n ++ CRLF
  | RBulk s => "$"%byte :: u64_to_string (zlen s) ++ CRLF ++ s ++ CRLF
  | RNil => NIL
  | RAgg k l =>
      agg_tag k :: u64_to_string (agg_count k (length l)) ++ CRLF ++ concat (encode <$> l)
  end.

Definition encodes (l : list Reply) : bytes := concat (encode <$> l).

(** A line: no line end inside. *)
Definition plain (s : bytes) : Prop := CR ∉ s ∧ LF ∉ s.

Definition plainb (s : bytes) : bool := (bool_decide (CR ∉ s)) && bool_decide (LF ∉ s).

Lemma plainb_plain s : plainb s = true → plain s.
Proof. unfold plainb, plain. intros H. split_bool. done. Qed.

(** Simple strings and errors are lines, maps have as many keys as values. *)
Inductive well_formed : Reply → Prop :=
| wf_simple s : plain s → well_formed (RSimple s)
| wf_error s : plain s → well_formed (RError s)
| wf_integer n : well_formed (RInteger n)
| wf_bulk s : well_formed (RBulk s)
| wf_nil : well_formed RNil
| wf_agg k l : Forall well_formed l → agg_items k (Z.to_nat (agg_count k (length l))) = length l →
    well_formed (RAgg k l).

(** ** A reader *)

(** The line before the first line feed, without its carriage return. *)
Definition read_line (s : bytes) : option (bytes * bytes) :=
  i ← memchr LF s; Some (take (i - 1) s, drop (S i) s).

Definition read_number (s : bytes) : option Z :=
  match s with
  | [] => None
  | b :: s' =>
      if bool_decide (b = "-"%byte)
      then match s' with [] => None | _ => (λ n, - n) <$> parse_digits 0 s' end
      else parse_digits 0 s
  end.

Fixpoint read_many (read : bytes → option (Reply * bytes)) (n : nat) (s : bytes)
    : option (list Reply * bytes) :=
  match n with
  | O => Some ([], s)
  | S n' =>
      '(r, s) ← read s;
      '(rs, s) ← read_many read n' s;
      Some (r :: rs, s)
  end.

Definition tag_agg (t : byte) : option Agg :=
  if bool_decide (t = "*"%byte) then Some AArray
  else if bool_decide (t = "%"%byte) then Some AMap
  else if bool_decide (t = "~"%byte) then Some ASet
  else None.

(** [fuel] bounds the nesting. *)
Fixpoint decode (fuel : nat) (s : bytes) : option (Reply * bytes) :=
  match fuel, s with
  | S fuel', t :: s =>
      '(line, rest) ← read_line s;
      if bool_decide (t = "+"%byte) then Some (RSimple line, rest)
      else if bool_decide (t = "-"%byte) then Some (RError line, rest)
      else if bool_decide (t = ":"%byte) then n ← read_number line; Some (RInteger n, rest)
      else if bool_decide (t = "$"%byte) then
        n ← read_number line;
        if n <? 0 then Some (RNil, rest)
        else let n := Z.to_nat n in
          if bool_decide (take 2 (drop n rest) = CRLF) then Some (RBulk (take n rest), drop (n + 2) rest)
          else None
      else
        k ← tag_agg t;
        n ← read_number line;
        '(l, rest) ← read_many (decode fuel') (agg_items k (Z.to_nat n)) rest;
        Some (RAgg k l, rest)
  | _, _ => None
  end.

Fixpoint depth (r : Reply) : nat :=
  match r with
  | RAgg _ l => S (foldr (λ r d, Nat.max (depth r) d) O l)
  | _ => 1%nat
  end.

(** An induction that reaches the elements of an aggregate. *)
Lemma Reply_nested_ind (P : Reply → Prop) :
  (∀ s, P (RSimple s)) → (∀ s, P (RError s)) → (∀ n, P (RInteger n)) → (∀ s, P (RBulk s)) → P RNil →
  (∀ k l, Forall P l → P (RAgg k l)) → ∀ r, P r.
Proof.
  intros H1 H2 H3 H4 H5 H6. fix IH 1. intros [s|s|n|s| |k l]; [done..|].
  apply H6. induction l as [|r l IHl]; constructor; [apply IH|exact IHl].
Qed.

(** ** Reading back what was written *)

Lemma read_line_crlf l rest : LF ∉ l → read_line (l ++ CRLF ++ rest) = Some (l, rest).
Proof.
  intros Hl. unfold read_line. change (CRLF ++ rest) with ([CR] ++ LF :: rest). rewrite app_assoc.
  rewrite memchr_first.
  2:{ rewrite elem_of_app, list_elem_of_singleton. intros [?|?]; [done|]. done. }
  simpl. rewrite length_app. simpl. rewrite Nat.add_sub. f_equal. f_equal.
  - rewrite <- app_assoc. by rewrite take_app_length.
  - rewrite drop_app_ge; [|rewrite length_app; simpl; lia].
    rewrite length_app. simpl. by replace (S (length l + 1) - (length l + 1))%nat with 1%nat by lia.
Qed.

Lemma digits_plain n : 0 <= n → plain (u64_to_string n).
Proof.
  intros Hn. destruct (u64_to_string_digits n Hn) as (_ & _ & Hf). rewrite Forall_forall in Hf.
  split; intros Hin; by specialize (Hf _ Hin).
Qed.

Lemma read_number_u64 n : 0 <= n → read_number (u64_to_string n) = Some n.
Proof.
  intros Hn. destruct (u64_to_string_digits n Hn) as (Hp & Hne & Hf).
  destruct (u64_to_string n) as [|b s] eqn:E; [done|]. unfold read_number.
  rewrite bool_decide_eq_false_2; [done|]. intros ->. apply Forall_cons in Hf as [Hf _]. done.
Qed.

Lemma i64_to_string_nonneg n : 0 <= n → i64_to_string n = u64_to_string n.
Proof. intros. unfold i64_to_string, write_i64. by rewrite (proj2 (Z.ltb_ge n 0)). Qed.

Lemma dec_u64 n : 0 < n → dec n = u64_to_string n.
Proof. intros. rewrite u64_to_string_eq by lia. by rewrite (proj2 (Z.eqb_neq n 0)) by lia. Qed.

Lemma read_number_i64 n : read_number (i64_to_string n) = Some n ∧ LF ∉ i64_to_string n.
Proof.
  destruct (Z.lt_ge_cases n 0) as [Hn|Hn].
  - rewrite i64_to_string_neg, dec_u64 by lia.
    destruct (u64_to_string_digits (- n) ltac:(lia)) as (Hp & Hne & Hf).
    split.
    + unfold read_number. rewrite bool_decide_eq_true_2 by done.
      destruct (u64_to_string (- n)) eqn:E; [done|]. rewrite Hp. simpl. f_equal. lia.
    + apply not_elem_of_cons. split; [done|]. apply digits_plain. lia.
  - rewrite i64_to_string_nonneg by lia. split; [by apply read_number_u64|apply digits_plain; lia].
Qed.

Lemma tag_agg_tag k : tag_agg (agg_tag k) = Some k.
Proof. by destruct k. Qed.

Lemma agg_count_pos k n : 0 <= agg_count k n.
Proof. destruct k; simpl; [lia|apply Z.div_pos; lia|lia]. Qed.

Lemma depth_le r l : r ∈ l → (depth r <= foldr (λ r d, Nat.max (depth r) d) O l)%nat.
Proof. induction 1; simpl; lia. Qed.

Lemma read_many_encodes fuel l rest :
  (∀ r, r ∈ l → ∀ rest, decode fuel (encode r ++ rest) = Some (r, rest)) →
  read_many (decode fuel) (length l) (encodes l ++ rest) = Some (l, rest).
Proof.
  revert rest. induction l as [|r l IH]; intros rest Hl; simpl; [done|].
  unfold encodes. simpl. rewrite <- app_assoc.
  rewrite Hl by (by constructor). simpl. unfold encodes in IH.
  rewrite IH; [done|]. intros r' Hr'. apply Hl. by constructor.
Qed.

Lemma decode_encode r : well_formed r → ∀ fuel rest, (depth r <= fuel)%nat →
  decode fuel (encode r ++ rest) = Some (r, rest).
Proof.
  induction r as [s|s|n|s| |k l IH] using Reply_nested_ind; intros Hwf [|fuel] rest Hf;
    simpl in Hf; try lia; inversion Hwf; subst; cbn [encode decode app]; rewrite <- ?app_assoc.
  - rewrite read_line_crlf by (unfold plain in *; tauto). done.
  - rewrite read_line_crlf by (unfold plain in *; tauto). done.
  - destruct (read_number_i64 n) as [Hr Hl]. rewrite read_line_crlf by done. simpl. by rewrite Hr.
  - rewrite read_line_crlf by (apply digits_plain; unfold zlen; lia). simpl.
    rewrite read_number_u64 by (unfold zlen; lia). simpl.
    rewrite (proj2 (Z.ltb_ge _ 0)) by (unfold zlen; lia). unfold zlen. rewrite Nat2Z.id.
    rewrite drop_app_length, bool_decide_eq_true_2 by done.
    rewrite take_app_length, <- drop_drop, drop_app_length. done.
  - change (NIL ++ rest) with ("$"%byte :: B "-1" ++ CRLF ++ rest). cbn [decode].
    rewrite read_line_crlf by (intros Hin; by repeat (inversion Hin as [|? ? ? Hin']; subst; clear Hin; rename Hin' into Hin)).
    done.
  - rewrite read_line_crlf by (apply digits_plain, agg_count_pos). simpl.
    rewrite !bool_decide_eq_false_2 by (by destruct k). rewrite tag_agg_tag. simpl.
    rewrite read_number_u64 by apply agg_count_pos. simpl. rewrite H2.
    rewrite Forall_forall in IH, H1.
    rewrite read_many_encodes; [done|]. intros r Hr rest'.
    apply IH; [done|by apply H1|]. pose proof (depth_le r l Hr). lia.
Qed.

Lemma depth_encode r : (depth r <= length (encode r))%nat.
Proof.
  induction r as [s|s|n|s| |k l IH] using Reply_nested_ind; cbn [depth encode length]; [lia..|vm_compute; lia|].
  rewrite !length_app. apply le_n_S. rewrite Nat.add_assoc. trans (length (concat (encode <$> l))); [|apply Nat.le_add_l].
  induction IH as [|r l Hr Hl IHl]; [done|]. rewrite fmap_cons. cbn [foldr concat]. rewrite length_app.
  apply Nat.max_lub; [exact (Nat.le_trans _ _ _ Hr (Nat.le_add_r _ _))|exact (Nat.le_trans _ _ _ IHl (Nat.le_add_l _ _))].
Qed.

Lemma encode_le_encodes r l : r ∈ l → (length (encode r) <= length (encodes l))%nat.
Proof.
  intros (l1 & l2 & ->)%list_elem_of_split. unfold encodes. rewrite fmap_app, concat_app, fmap_cons.
  cbn [concat]. rewrite !length_app, (Nat.add_comm (length (encode r))), Nat.add_assoc. apply Nat.le_add_l.
Qed.

(** A list of replies is read back, whatever follows. *)
Lemma decode_encodes l rest fuel :
  Forall well_formed l → (length (encodes l) <= fuel)%nat →
  read_many (decode fuel) (length l) (encodes l ++ rest) = Some (l, rest).
Proof.
  intros Hl Hf. apply read_many_encodes. intros r Hr rest'. rewrite Forall_forall in Hl.
  apply decode_encode; [by apply Hl|]. pose proof (depth_encode r). trans (length (encode r)); [done|].
  trans (length (encodes l)); [by apply encode_le_encodes|done].
Qed.

(** ** What the writers append *)

(** [out'] is [out] and one reply. *)
Definition replied (out out' : bytes) : Prop := ∃ r, well_formed r ∧ out' = out ++ encode r.

Lemma write_ok_eq out : write_ok out = out ++ encode (RSimple (B "OK")).
Proof. done. Qed.
Lemma write_nil_eq out : write_nil out = out ++ encode RNil.
Proof. done. Qed.
Lemma write_bulk_eq out s : write_bulk out s = out ++ encode (RBulk s).
Proof. unfold write_bulk. by rewrite write_bulk_bytes_eq. Qed.

Lemma write_i64_app out n : write_i64 out n = out ++ i64_to_string n.
Proof.
  unfold i64_to_string, write_i64. destruct (Z.ltb_spec n 0); [by rewrite <- app_assoc|].
  by rewrite !write_usize_app by lia.
Qed.

Lemma write_integer_eq out n : write_integer out n = out ++ encode (RInteger n).
Proof.
  unfold write_integer. destruct ((0 <=? n) && (n <? 10)) eqn:E.
  - split_bool. assert (n = 0 ∨ n = 1 ∨ n = 2 ∨ n = 3 ∨ n = 4 ∨ n = 5 ∨ n = 6 ∨ n = 7 ∨ n = 8 ∨ n = 9)
      as Hn by lia.
    by destruct_or! Hn; subst.
  - rewrite write_i64_app. simpl. by rewrite <- !app_assoc.
Qed.

Lemma write_boolean_eq out b : write_boolean out b = out ++ encode (RInteger (if b then 1 else 0)).
Proof. by destruct b. Qed.

Definition opt_bulk (v : option bytes) : Reply := match v with Some s => RBulk s | None => RNil end.

Lemma write_opt_bulk_eq out v : write_opt_bulk out v = out ++ encode (opt_bulk v).
Proof. destruct v; [apply write_bulk_eq|done]. Qed.

(** A header and then the items: an array. *)
Lemma write_array_header_items out l :
  write_array_header out (Z.of_nat (length l)) ++ encodes l = out ++ encode (RArray l).
Proof. unfold write_array_header. rewrite write_usize_app by lia. simpl. by rewrite <- !app_assoc. Qed.

(** A loop whose body appends the replies [g x]. *)
Lemma foldl_writes {A} (f : bytes → A → bytes) (g : A → list Reply) l out :
  (∀ out x, f out x = out ++ encodes (g x)) → foldl f out l = out ++ encodes (l ≫= g).
Proof.
  intros Hf. revert out. induction l as [|x l IH]; intros out; simpl; [by rewrite app_nil_r|].
  rewrite IH, Hf, <- app_assoc. unfold encodes. by rewrite fmap_app, concat_app.
Qed.

Lemma foldl_write_array {A} (f : bytes → A → bytes) (g : A → list Reply) (n : nat) l out :
  (∀ out x, f out x = out ++ encodes (g x)) → length (l ≫= g) = n →
  foldl f (write_array_header out (Z.of_nat n)) l = out ++ encode (RArray (l ≫= g)).
Proof. intros Hf <-. rewrite (foldl_writes f g) by done. apply write_array_header_items. Qed.

Lemma encodes_cons r l : encodes (r :: l) = encode r ++ encodes l.
Proof. done. Qed.

Lemma encodes_one r : encodes [r] = encode r.
Proof. unfold encodes. simpl. by rewrite app_nil_r. Qed.

Lemma bind_singles {A B} (g : A → B) l : l ≫= (λ x, [g x]) = g <$> l.
Proof. induction l as [|x l IH]; simpl; [done|]. by f_equal. Qed.

Lemma write_array_reply out items : write_array out items = out ++ encode (RArray (RBulk <$> items)).
Proof.
  unfold write_array. rewrite (foldl_write_array _ (λ s, [RBulk s])).
  - by rewrite bind_singles.
  - intros. by rewrite encodes_one, write_bulk_eq.
  - by rewrite bind_singles, length_fmap.
Qed.

Lemma write_opt_array_reply out items : write_opt_array out items = out ++ encode (RArray (opt_bulk <$> items)).
Proof.
  unfold write_opt_array. rewrite (foldl_write_array _ (λ s, [opt_bulk s])).
  - by rewrite bind_singles.
  - intros. by rewrite encodes_one, write_opt_bulk_eq.
  - by rewrite bind_singles, length_fmap.
Qed.

Lemma write_err_eq out e : write_err out e = out ++ encode (RError (B "ERR " ++ e)).
Proof. unfold write_err. simpl. by rewrite <- ?app_assoc. Qed.
Lemma write_wrong_type_eq out :
  write_wrong_type out = out ++ encode (RError (B "WRONGTYPE Operation against a key holding the wrong kind of value")).
Proof. done. Qed.
Lemma write_wrong_args_eq out cmd :
  write_wrong_args out cmd = out ++ encode (RError (B "ERR wrong number of arguments for '" ++ cmd ++ B "' command")).
Proof. unfold write_wrong_args. simpl. by rewrite <- ?app_assoc. Qed.
Lemma write_simple_eq out s : write_simple out s = out ++ encode (RSimple s).
Proof. done. Qed.

Lemma plain_app a b : plain a → plain b → plain (a ++ b).
Proof. intros [] []. split; rewrite elem_of_app; tauto. Qed.

Lemma wf_array l : Forall well_formed l → well_formed (RArray l).
Proof. intros. constructor; [done|]. simpl. lia. Qed.

Lemma replied_intro out r : well_formed r → replied out (out ++ encode r).
Proof. intros. by exists r. Qed.

Lemma replied_ok out : replied out (write_ok out).
Proof. rewrite write_ok_eq. apply replied_intro. constructor. by apply plainb_plain. Qed.
Lemma replied_nil out : replied out (write_nil out).
Proof. apply (replied_intro out RNil). constructor. Qed.
Lemma replied_bulk out s : replied out (write_bulk out s).
Proof. rewrite write_bulk_eq. apply replied_intro. constructor. Qed.
Lemma replied_integer out n : replied out (write_integer out n).
Proof. rewrite write_integer_eq. apply replied_intro. constructor. Qed.
Lemma replied_boolean out b : replied out (write_boolean out b).
Proof. rewrite write_boolean_eq. apply replied_intro. constructor. Qed.
Lemma replied_opt_bulk out v : replied out (write_opt_bulk out v).
Proof. rewrite write_opt_bulk_eq. apply replied_intro. destruct v; constructor. Qed.
Lemma replied_array out l : replied out (write_array out l).
Proof.
  rewrite write_array_reply. apply replied_intro, wf_array. apply Forall_fmap, Forall_true. constructor.
Qed.
Lemma replied_opt_array out l : replied out (write_opt_array out l).
Proof.
  rewrite write_opt_array_reply. apply replied_intro, wf_array. apply Forall_fmap, Forall_true.
  intros []; constructor.
Qed.
Lemma replied_empty_array out : replied out (write_array_header out 0).
Proof.
  exists (RArray []). split; [by apply wf_array|].
  rewrite <- (write_array_header_items out []). by rewrite app_nil_r.
Qed.
Lemma replied_err out e : plain e → replied out (write_err out e).
Proof.
  intros. rewrite write_err_eq. apply replied_intro. constructor. apply plain_app; [by apply plainb_plain|done].
Qed.
Lemma replied_wrong_type out : replied out (write_wrong_type out).
Proof. rewrite write_wrong_type_eq. apply replied_intro. constructor. by apply plainb_plain. Qed.
Lemma replied_store_err out e : plain e → replied out (write_store_err out e).
Proof. intros. unfold write_store_err. case_bool_decide; [apply replied_wrong_type|by apply replied_err]. Qed.
Lemma replied_wrong_args out cmd : plain cmd → replied out (write_wrong_args out cmd).
Proof.
  intros. rewrite write_wrong_args_eq. apply replied_intro. constructor.
  repeat apply plain_app; [by apply plainb_plain|done|by apply plainb_plain].
Qed.
Lemma replied_simple out s : plain s → replied out (write_simple out s).
Proof. intros. rewrite write_simple_eq. apply replied_intro. by constructor. Qed.

(** An array written as its header and a loop. *)
Lemma replied_loop {A} (f : bytes → A → bytes) (g : A → list Reply) (n : nat) l out :
  (∀ out x, f out x = out ++ encodes (g x)) → (∀ x, Forall well_formed (g x)) → length (l ≫= g) = n →
  replied out (foldl f (write_array_header out (Z.of_nat n)) l).
Proof.
  intros Hf Hg Hn. rewrite (foldl_write_array f g) by done. apply replied_intro, wf_array.
  apply Forall_forall. intros r (x & Hr & Hx)%list_elem_of_bind. specialize (Hg x).
  rewrite Forall_forall in Hg. by apply Hg.
Qed.

Lemma bind_pairs_length {A B} (g h : A → B) l : length (l ≫= λ x, [g x; h x]) = (length l * 2)%nat.
Proof. induction l as [|x l IH]; [done|]. rewrite bind_cons, length_app, IH. simpl. lia. Qed.

(** Loops that write one reply, or two bulks, per item. *)
Lemma replied_each {A} (f : bytes → A → bytes) (g : A → Reply) l out :
  (∀ out x, f out x = out ++ encode (g x)) → (∀ x, well_formed (g x)) →
  replied out (foldl f (write_array_header out (Z.of_nat (length l))) l).
Proof.
  intros Hf Hg. apply (replied_loop f (λ x, [g x])); [intros; by rewrite encodes_one|by repeat constructor|].
  by rewrite bind_singles, length_fmap.
Qed.

Lemma replied_integers {A} (n : A → Z) l out :
  replied out (foldl (λ out x, write_integer out (n x)) (write_array_header out (Z.of_nat (length l))) l).
Proof. apply (replied_each _ (λ x, RInteger (n x))); [intros; apply write_integer_eq|constructor]. Qed.

Lemma replied_bulks {A} (b : A → bytes) l out :
  replied out (foldl (λ out x, write_bulk out (b x)) (write_array_header out (Z.of_nat (length l))) l).
Proof. apply (replied_each _ (λ x, RBulk (b x))); [intros; apply write_bulk_eq|constructor]. Qed.

Lemma replied_opt_bulks {A} (b : A → option bytes) l out :
  replied out (foldl (λ out x, write_opt_bulk out (b x)) (write_array_header out (Z.of_nat (length l))) l).
Proof.
  apply (replied_each _ (λ x, opt_bulk (b x))); [intros; apply write_opt_bulk_eq|].
  intros x. destruct (b x); constructor.
Qed.

Lemma replied_pairs {A} (a b : A → bytes) l out :
  replied out (foldl (λ out x, write_bulk (write_bulk out (a x)) (b x))
                 (write_array_header out (Z.of_nat (length l * 2))) l).
Proof.
  apply (replied_loop _ (λ x, [RBulk (a x); RBulk (b x)])).
  - intros. by rewrite !write_bulk_eq, encodes_cons, encodes_one, app_assoc.
  - repeat constructor.
  - apply bind_pairs_length.
Qed.

Create HintDb reply discriminated.
#[export] Hint Constants Opaque : reply.
#[export] Hint Resolve replied_ok replied_nil replied_bulk replied_integer replied_boolean replied_opt_bulk
  replied_array replied_opt_array replied_empty_array replied_err replied_wrong_type replied_store_err
  replied_wrong_args replied_simple replied_integers replied_bulks replied_opt_bulks replied_pairs : reply.
#[export] Hint Extern 1 (plain _) => apply plainb_plain; vm_compute; reflexivity : reply.


Definition RESP3_NULL : bytes := B "_" ++ CRLF.
Definition RESP3_TRUE : bytes := B "#t" ++ CRLF.
Definition RESP3_FALSE : bytes := B "#f" ++ CRLF.

Definition write_null (out : bytes) : bytes := out ++ RESP3_NULL.
Definition write_boolean_r3 (out : bytes) (b : bool) : bytes := out ++ (if b then RESP3_TRUE else RESP3_FALSE).

Definition write_double (display : f64 → bytes) (out : bytes) (f : f64) : bytes :=
  out ++ B "," ++
    (if f64_eq f INFINITY then B "inf" else if f64_eq f NEG_INFINITY then B "-inf" else display f) ++ CRLF.

Definition write_big_number (out n : bytes) : bytes := out ++ B "(" ++ n ++ CRLF.

Definition write_verbatim_string (out encoding data : bytes) : bytes :=
  write_usize (out ++ B "=") (zlen encoding + 1 + zlen data) ++ CRLF ++ encoding ++ B ":" ++ data ++ CRLF.

Definition write_header (tag : byte) (out : bytes) (len : Z) : bytes := write_usize (out ++ [tag]) len ++ CRLF.
Definition write_map_header := write_header "%".
Definition write_set_header := write_header "~".
Definition write_push_header := write_header ">".
Definition write_attribute_header := write_header "|".

Definition write_hello_resp3 (out : bytes) : bytes :=
  let out := write_map_header out 7 in
  let out := write_bulk (write_bulk out (B "server")) (B "fyrodb") in
  let out := write_bulk (write_bulk out (B "version")) (B "0.1.0") in
  let out := write_integer (write_bulk out (B "proto")) 3 in
  let out := write_integer (write_bulk out (B "id")) 1 in
  let out := write_bulk (write_bulk out (B "mode")) (B "standalone") in
  let out := write_bulk (write_bulk out (B "role")) (B "master") in
  let out := write_bulk out (B "modules") in
  write_set_header out 0.

(** The reply to HELLO 3: a map of seven pairs, the last value an empty set. *)
Definition hello3 : Reply :=
  RAgg AMap
    [RBulk (B "server"); RBulk (B "fyrodb"); RBulk (B "version"); RBulk (B "0.1.0");
     RBulk (B "proto"); RInteger 3; RBulk (B "id"); RInteger 1;
     RBulk (B "mode"); RBulk (B "standalone"); RBulk (B "role"); RBulk (B "master");
     RBulk (B "modules"); RAgg ASet []].

Lemma write_hello_resp3_eq out : write_hello_resp3 out = out ++ encode hello3.
Proof.
  unfold write_hello_resp3, write_map_header, write_set_header, write_header.
  rewrite !write_usize_app by lia. rewrite !write_bulk_eq, !write_integer_eq.
  rewrite <- !app_assoc. f_equal.
Qed.

Lemma replied_hello3 out : replied out (write_hello_resp3 out).
Proof.
  rewrite write_hello_resp3_eq. apply replied_intro. unfold hello3. constructor; [|done].
  repeat constructor.
Qed.
