(* ===== verification/Handler.v ===== *)
(** Command handlers: functions [fn(parts: &[&str], store: &Store, out: &mut Vec<u8>)].

    A handler is a computation over the store and the output buffer that
    either goes on with a value, has returned, or has panicked (the release
    profile aborts the process).  The macros of macros/cmd.rs are the
    operations [parse_int], [parse_float], [wt] and [store_ok]: each goes on
    with a value or writes an error and returns. *)

From S2P Require Import Prelude Decimal Resp Float Value Store.
Local Open Scope Z_scope.

Section Handler.
Context {M : Type}.

Inductive Outcome (A : Type) :=
| Panic
| Return (st : Store M) (out : bytes)
| Next (st : Store M) (out : bytes) (a : A).

Definition Handler (A : Type) : Type := Store M → bytes → Outcome A.
End Handler.
Arguments Panic {M A}.
Arguments Return {M A} st out.
Arguments Next {M A} st out a.
Arguments Outcome : clear implicits.
Arguments Handler : clear implicits.

Section Operations.
Context {M : Type}.

#[global] Instance handler_ret : MRet (Handler M) := λ A a st out, Next st out a.
#[global] Instance handler_bind : MBind (Handler M) := λ A B k h st out,
  match h st out with
  | Panic => Panic
  | Return st out => Return st out
  | Next st out a => k a st out
  end.

(** A call of a writer, [return], and [return write(..)]. *)
Definition write (w : bytes → bytes) : Handler M unit := λ st out, Next st (w out) tt.
Definition return_ {A} : Handler M A := λ st out, Return st out.
Definition reply {A} (w : bytes → bytes) : Handler M A := λ st out, Return st (w out).

(** A call of a store operation: one that changes the store, one that reads it. *)
Definition call {R} (f : Store M → Store M * R) : Handler M R :=
  λ st out, let '(st', r) := f st in Next st' out r.
Definition act (f : Store M → Store M) : Handler M unit := λ st out, Next (f st) out tt.
Definition look {R} (f : Store M → R) : Handler M R := λ st out, Next st out (f st).

(** [None] is a panic. *)
Definition unwrap {A} (o : option A) : Handler M A :=
  λ st out, match o with Some a => Next st out a | None => Panic end.

(** ** macros/cmd.rs *)

Definition parse_int_with (parse : bytes → option Z) (s : bytes) : Handler M Z :=
  match parse s with
  | Some n => mret n
  | None => reply (λ out, write_err out (B "value is not an integer"))
  end.

(** [parse_int!(out, s)] and [parse_int!(out, s, u64)] (or [usize]). *)
Definition parse_int := parse_int_with parse_i64.
Definition parse_uint := parse_int_with parse_u64.

Definition parse_float (s : bytes) : Handler M f64 :=
  match parse_f64 s with
  | Some f => mret f
  | None => reply (λ out, write_err out (B "value is not a float"))
  end.

Definition wt {A} (r : result A) : Handler M A :=
  match r with Ok a => mret a | Err _ => reply write_wrong_type end.

Definition store_ok {A} (r : result A) : Handler M A :=
  match r with Ok a => mret a | Err e => reply (λ out, write_err out e) end.

(** [match r { Ok(a) => .., Err(e) => write_store_err(out, e) }] *)
Definition store_err {A} (r : result A) : Handler M A :=
  match r with Ok a => mret a | Err e => reply (λ out, write_store_err out e) end.

(** ** Shorthands of the handlers *)

Definition wrong_args {A} (cmd : bytes) : Handler M A := reply (λ out, write_wrong_args out cmd).
Definition error {A} (msg : bytes) : Handler M A := reply (λ out, write_err out msg).
Definition syntax_error {A} : Handler M A := error (B "syntax error").

Definition put_integer (n : Z) : Handler M unit := write (λ out, write_integer out n).
Definition put_boolean (b : bool) : Handler M unit := write (λ out, write_boolean out b).
Definition put_bulk (s : bytes) : Handler M unit := write (λ out, write_bulk out s).
Definition put_opt_bulk (v : option bytes) : Handler M unit := write (λ out, write_opt_bulk out v).
Definition put_array (l : list bytes) : Handler M unit := write (λ out, write_array out l).
Definition put_header (n : Z) : Handler M unit := write (λ out, write_array_header out n).

(** The state after a handler; [None] is a panic. *)
Definition run {A} (h : Handler M A) (st : Store M) (out : bytes) : option (Store M * bytes) :=
  match h st out with
  | Panic => None
  | Return st out | Next st out _ => Some (st, out)
  end.
End Operations.

(** [n as i64] of an unsigned number. *)
Definition as_i64 (n : Z) : Z :=
  let w := wrap64 n in if w <=? i64_max then w else w - u64_mod.

Definition len_i64 {A} (l : list A) : Z := as_i64 (Z.of_nat (length l)).

(** [a.eq_ignore_ascii_case(b)] *)
Definition to_ascii_uppercase (b : byte) : byte :=
  if (97 <=? b2z b) && (b2z b <=? 122) then z2b (b2z b - 32) else b.
Definition ascii_uppercase (s : bytes) : bytes := to_ascii_uppercase <$> s.
Definition eq_ignore_case (a b : bytes) : bool := bool_decide (ascii_uppercase a = ascii_uppercase b).

(** [items.chunks(2)] of a list of even length. *)
Fixpoint pairs_of {A} (l : list A) : list (A * A) :=
  match l with
  | a :: b :: l' => (a, b) :: pairs_of l'
  | _ => []
  end.

Definition even_len {A} (l : list A) : bool := Nat.even (length l).
Definition is_nil {A} (l : list A) : bool := match l with [] => true | _ => false end.
