(* ===== verification/CmdString.v ===== *)
(** The string commands: commends/string.rs. *)

From S2P Require Import Prelude Decimal MapIface Resp Float Collections Value Store HashOps Lcs Handler.
Local Open Scope Z_scope.

Section CmdString.
Context {M : Type} `{KVMap StoreValue M} `{HashOrder} (c : Clock).
Implicit Types (parts : list bytes) (st : Store M).

(** The options of SET. *)
Record SetOptions := mkSetOptions { set_expires : Z; set_nx : bool; set_xx : bool; set_get : bool }.

(** [EX], [PX] and their likes: a positive number and the instant it ends at. *)
Definition positive_expiry (to_expiry : Z → option Z) (cmd s : bytes) : Handler M Z :=
  n ← parse_uint s;
  if n =? 0 then error (B "invalid expire time in '" ++ cmd ++ B "' command")
  else match to_expiry n with
       | None => error (B "invalid expire time in '" ++ cmd ++ B "' command")
       | Some e => mret e
       end.

(** The loop over the options; a value missing after EX or PX reads as the empty string. *)
Fixpoint set_options (rest : list bytes) (o : SetOptions) : Handler M SetOptions :=
  match rest with
  | [] => mret o
  | opt :: rest' =>
      let timed to_expiry :=
        match rest' with
        | [] => e ← positive_expiry to_expiry (B "set") []; mret (mkSetOptions e (set_nx o) (set_xx o) (set_get o))
        | s :: rest'' =>
            e ← positive_expiry to_expiry (B "set") s;
            set_options rest'' (mkSetOptions e (set_nx o) (set_xx o) (set_get o))
        end in
      if eq_ignore_case opt (B "EX") then timed (expiry_from_secs c)
      else if eq_ignore_case opt (B "PX") then timed (expiry_from_ms c)
      else if eq_ignore_case opt (B "NX") then
        set_options rest' (mkSetOptions (set_expires o) true (set_xx o) (set_get o))
      else if eq_ignore_case opt (B "XX") then
        set_options rest' (mkSetOptions (set_expires o) (set_nx o) true (set_get o))
      else if eq_ignore_case opt (B "GET") then
        set_options rest' (mkSetOptions (set_expires o) (set_nx o) (set_xx o) true)
      else syntax_error
  end.

(** The closure of the conditional SET: whether it sets, and the old string. *)
Definition set_closure (o : SetOptions) (new_sv current : StoreValue)
    : option (StoreValue * (bool * option bytes)) :=
  let key_exists := negb (is_expired c current) in
  let old_val := if key_exists then as_string (value current) else None in
  if set_nx o && key_exists then
    if set_get o then Some (current, (false, old_val)) else Some (current, (false, None))
  else if set_xx o && negb key_exists then Some (current, (false, None))
  else Some (new_sv, (true, old_val)).

Definition try_update {R} (key : bytes) (f : StoreValue → option (StoreValue * R)) st : Store M * option R :=
  let '(m, r) := kv_try_update key f (data st) in (with_data st m, r).

(** [Full] prints as this message. *)
Definition FULL : bytes := B "OOM command not allowed: store is at capacity".

Definition full_or_ok (r : option unit) : Handler M unit :=
  match r with Some _ => write write_ok | None => error FULL end.

Definition set parts : Handler M unit :=
  match parts with
  | _ :: key :: value :: rest =>
      o ← set_options rest (mkSetOptions 0 false false false);
      if set_nx o || set_xx o || set_get o then
        let new_sv := mkValue (VString value) (set_expires o) in
        result ← call (try_update key (set_closure o new_sv));
        match result with
        | Some (did_set, old_val) =>
            if negb did_set && negb (set_get o) then reply write_nil
            else if set_get o then put_opt_bulk old_val
            else write write_ok
        | None =>
            if set_xx o then reply write_nil
            else
              _ ← act (put key new_sv);
              if set_get o then write write_nil else write write_ok
        end
      else
        r ← call (try_set_string key value (set_expires o));
        full_or_ok r
  | _ => wrong_args (B "set")
  end.

Definition setnx parts : Handler M unit :=
  match parts with
  | [_; key; value] => b ← call (Store.setnx c key value); put_boolean b
  | _ => wrong_args (B "setnx")
  end.

Definition setex_with (to_expiry : Z → option Z) (cmd : bytes) parts : Handler M unit :=
  match parts with
  | [_; key; t; value] =>
      e ← positive_expiry to_expiry cmd t;
      r ← call (try_set_value key (mkValue (VString value) e));
      full_or_ok r
  | _ => wrong_args cmd
  end.
Definition setex := setex_with (expiry_from_secs c) (B "setex").
Definition psetex := setex_with (expiry_from_ms c) (B "psetex").

(** [if !store.get_to_buf(key, out) { write_nil(out) }] *)
Definition get_or_nil (key : bytes) : Handler M unit := λ st out,
  let '(st, out, found) := get_to_buf c key out st in
  Next st (if found then out else write_nil out) tt.

Definition get parts : Handler M unit :=
  match parts with
  | [_; key] => get_or_nil key
  | _ => wrong_args (B "get")
  end.

Definition getdel parts : Handler M unit :=
  match parts with
  | [_; key] => v ← call (Store.getdel c key); put_opt_bulk v
  | _ => wrong_args (B "getdel")
  end.

Definition getset parts : Handler M unit :=
  match parts with
  | [_; key; value] => v ← call (Store.getset c key value); put_opt_bulk v
  | _ => wrong_args (B "getset")
  end.

Definition getex parts : Handler M unit :=
  match parts with
  | _ :: key :: rest =>
      if is_nil rest then v ← call (store_get c key); put_opt_bulk v
      else
        e ← match rest with
            | [opt] => if eq_ignore_case opt (B "PERSIST") then mret 0 else syntax_error
            | [opt; t] =>
                if eq_ignore_case opt (B "EX") then positive_expiry (expiry_from_secs c) (B "getex") t
                else if eq_ignore_case opt (B "PX") then positive_expiry (expiry_from_ms c) (B "getex") t
                else syntax_error
            | _ => syntax_error
            end;
        v ← call (getex_ms c key e);
        put_opt_bulk v
  | _ => wrong_args (B "getex")
  end.

Definition mset parts : Handler M unit :=
  match parts with
  | _ :: items =>
      if negb (is_nil items) && even_len items then
        _ ← act (λ st, foldl (λ st p, store_set p.1 (StoreValue_string p.2) st) st (pairs_of items));
        write write_ok
      else wrong_args (B "mset")
  | _ => wrong_args (B "mset")
  end.

(** The insertions of MSETNX: the keys inserted and whether all were. *)
Fixpoint msetnx_insert (items : list (bytes * bytes)) (inserted : list bytes) st : Store M * (list bytes * bool) :=
  match items with
  | [] => (st, (inserted, true))
  | (key, val) :: items' =>
      let '(m, ok) := kv_insert_if_absent key (StoreValue_string val) (data st) in
      let st := with_data st m in
      if ok then msetnx_insert items' (inserted ++ [key]) st else (st, (inserted, false))
  end.

Definition msetnx parts : Handler M unit :=
  match parts with
  | _ :: items =>
      if negb (is_nil items) && even_len items then
        '(inserted, all_ok) ← call (msetnx_insert (pairs_of items) []);
        if negb all_ok then
          _ ← act (λ st, foldl (λ st key, with_data st (kv_remove key (data st)).1) st inserted);
          write (λ out, out ++ ZERO)
        else write (λ out, out ++ ONE)
      else wrong_args (B "msetnx")
  | _ => wrong_args (B "msetnx")
  end.

Fixpoint get_all (keys : list bytes) : Handler M unit :=
  match keys with
  | [] => mret tt
  | k :: keys' => _ ← get_or_nil k; get_all keys'
  end.

Definition mget parts : Handler M unit :=
  match parts with
  | _ :: keys =>
      if negb (is_nil keys) then
        _ ← put_header (Z.of_nat (length keys));
        get_all keys
      else wrong_args (B "mget")
  | _ => wrong_args (B "mget")
  end.

Definition incr parts : Handler M unit :=
  match parts with
  | [_; key] => r ← call (Store.incr key); n ← store_ok r; put_integer n
  | _ => wrong_args (B "incr")
  end.

Definition decr parts : Handler M unit :=
  match parts with
  | [_; key] => r ← call (Store.decr key); n ← store_ok r; put_integer n
  | _ => wrong_args (B "decr")
  end.

Definition incrby parts : Handler M unit :=
  match parts with
  | [_; key; by_] =>
      n ← parse_int by_; r ← call (Store.incrby key n); n ← store_ok r; put_integer n
  | _ => wrong_args (B "incrby")
  end.

Definition decrby parts : Handler M unit :=
  match parts with
  | [_; key; by_] =>
      n ← parse_int by_; r ← call (Store.decrby key n); n ← store_ok r; put_integer n
  | _ => wrong_args (B "decrby")
  end.

Definition incrbyfloat parts : Handler M unit :=
  match parts with
  | [_; key; by_] =>
      n ← parse_float by_; r ← call (HashOps.incrbyfloat key n); f ← store_ok r; put_bulk (format_float f)
  | _ => wrong_args (B "incrbyfloat")
  end.

Definition append parts : Handler M unit :=
  match parts with
  | [_; key; value] => r ← call (Store.append c key value); n ← wt r; put_integer (as_i64 n)
  | _ => wrong_args (B "append")
  end.

Definition strlen parts : Handler M unit :=
  match parts with
  | [_; key] => r ← look (Store.strlen c key); n ← wt r; put_integer (as_i64 n)
  | _ => wrong_args (B "strlen")
  end.

Definition getrange parts : Handler M unit :=
  match parts with
  | [_; key; start; stop] =>
      s ← parse_int start; e ← parse_int stop;
      v ← look (Store.getrange c key s e); put_bulk v
  | _ => wrong_args (B "getrange")
  end.

Definition setrange parts : Handler M unit :=
  match parts with
  | [_; key; offset; value] =>
      o ← parse_int offset;
      if o <? 0 then error (B "offset is out of range")
      else r ← call (Store.setrange key o value); n ← store_err r; put_integer (as_i64 n)
  | _ => wrong_args (B "setrange")
  end.

Definition substr := getrange.

Definition lcs parts : Handler M unit :=
  match parts with
  | _ :: key1 :: key2 :: rest =>
      if existsb (λ r, eq_ignore_case r (B "LEN")) rest then
        r ← look (Lcs.lcs_len c key1 key2); n ← store_err r; put_integer (as_i64 n)
      else
        r ← look (Lcs.lcs c key1 key2); s ← store_err r; put_bulk s
  | _ => wrong_args (B "lcs")
  end.
End CmdString.
