(* ===== verification/CmdKeys.v ===== *)
(** The key commands: commends/keys.rs, except RANDOMKEY (see CmdServer). *)

From S2P Require Import Prelude Decimal MapIface Resp Collections Value Store Handler.
Local Open Scope Z_scope.

Section CmdKeys.
Context {M : Type} `{KVMap StoreValue M} (c : Clock).
Implicit Types (parts : list bytes) (st : Store M).

(** [keys.iter().filter(|k| store.del(k)).count()] *)
Fixpoint del_all (keys : list bytes) (n : Z) st : Store M * Z :=
  match keys with
  | [] => (st, n)
  | k :: keys' => let '(st, b) := Store.del k st in del_all keys' (if b then n + 1 else n) st
  end.

Definition del parts : Handler M unit :=
  match parts with
  | _ :: keys =>
      if negb (is_nil keys) then n ← call (del_all keys 0); put_integer (as_i64 n)
      else wrong_args (B "del")
  | _ => wrong_args (B "del")
  end.

Definition unlink := del.

Definition count_existing (keys : list bytes) st : Z :=
  Z.of_nat (length (List.filter (λ k, exists_key c k st) keys)).

Definition exists_with (cmd : bytes) parts : Handler M unit :=
  match parts with
  | _ :: keys =>
      if negb (is_nil keys) then n ← look (count_existing keys); put_integer (as_i64 n)
      else wrong_args cmd
  | _ => wrong_args cmd
  end.
Definition exists_check := exists_with (B "exists").
Definition touch := exists_with (B "touch").

Definition ttl_check parts : Handler M unit :=
  match parts with
  | [_; key] =>
      ttl_ms ← look (ttl_value_ms c key);
      put_integer (if 0 <=? ttl_ms then ttl_ms / 1000 else ttl_ms)
  | _ => wrong_args (B "ttl")
  end.

Definition pttl_check parts : Handler M unit :=
  match parts with
  | [_; key] => ttl_ms ← look (ttl_value_ms c key); put_integer ttl_ms
  | _ => wrong_args (B "pttl")
  end.

(** EXPIRE, PEXPIRE and EXPIREAT differ in how the argument becomes an instant. *)
Definition expire_with (to_expiry : Z → option Z) (cmd : bytes) parts : Handler M unit :=
  match parts with
  | [_; key; t] =>
      n ← parse_uint t;
      match to_expiry n with
      | None => error (B "invalid expire time in '" ++ cmd ++ B "' command")
      | Some e => b ← call (expire_ms c key e); put_boolean b
      end
  | _ => wrong_args cmd
  end.
Definition expire := expire_with (expiry_from_secs c) (B "expire").
Definition pexpire := expire_with (expiry_from_ms c) (B "pexpire").
Definition expireat := expire_with expiry_from_unix_secs (B "expireat").

Definition persist parts : Handler M unit :=
  match parts with
  | [_; key] => b ← call (Store.persist c key); put_boolean b
  | _ => wrong_args (B "persist")
  end.

Definition rename parts : Handler M unit :=
  match parts with
  | [_; old; new] =>
      b ← call (Store.rename c old new);
      if b : bool then write write_ok else error (B "no such key")
  | _ => wrong_args (B "rename")
  end.

Definition renamenx parts : Handler M unit :=
  match parts with
  | [_; old; new] => b ← call (Store.renamenx c old new); put_boolean b
  | _ => wrong_args (B "renamenx")
  end.

(** REPLACE is looked for in every part, the keys included. *)
Definition copy parts : Handler M unit :=
  let replace := existsb (λ p, eq_ignore_case p (B "REPLACE")) parts in
  match parts with
  | _ :: src :: dst :: _ => b ← call (Store.copy c src dst replace); put_boolean b
  | _ => wrong_args (B "copy")
  end.

Definition keys parts : Handler M unit :=
  match parts with
  | [_; pattern] => all ← look (keys_matching c pattern); put_array all
  | _ => wrong_args (B "keys")
  end.

(** EXPIRETIME and PEXPIRETIME print the instant in seconds or milliseconds. *)
Definition expiretime_with (unit_ : Z → Z) (cmd : bytes) parts : Handler M unit :=
  match parts with
  | [_; key] =>
      e ← look (λ st, kv_get_ref (data st) key);
      match e with
      | None => put_integer (-2)
      | Some e =>
          if is_expired c e then put_integer (-2)
          else if expires_ms e =? 0 then put_integer (-1)
          else put_integer (as_i64 (unit_ (expires_ms e)))
      end
  | _ => wrong_args cmd
  end.
Definition expiretime := expiretime_with (λ ms, ms / 1000) (B "expiretime").
Definition pexpiretime := expiretime_with id (B "pexpiretime").
End CmdKeys.
