(* ===== verification/CmdList.v ===== *)
(** The list commands: commends/list.rs. *)

From S2P Require Import Prelude Decimal MapIface Resp Collections Value Store ListOps Handler.
Local Open Scope Z_scope.

Section CmdList.
Context {M : Type} `{KVMap StoreValue M} (c : Clock).
Implicit Types (parts : list bytes) (st : Store M).

Definition push_with (push : bytes → list bytes → Store M → Store M * result Z) (cmd : bytes) parts
    : Handler M unit :=
  match parts with
  | _ :: key :: values =>
      if negb (is_nil values) then r ← call (push key values); n ← wt r; put_integer (as_i64 n)
      else wrong_args cmd
  | _ => wrong_args cmd
  end.
Definition lpush := push_with (ListOps.lpush c) (B "lpush").
Definition rpush := push_with (ListOps.rpush c) (B "rpush").

(** The first item or nil: the reply of a pop without a count. *)
Definition put_first (items : list bytes) : Handler M unit :=
  match items with [] => write write_nil | v :: _ => put_bulk v end.

Definition pop_with (pop : bytes → nat → Store M → Store M * result (list bytes)) (cmd : bytes) parts
    : Handler M unit :=
  '(key, count) ← match parts with
                  | [_; key] => mret (key, 1)
                  | [_; key; cnt] => n ← parse_uint cnt; mret (key, n)
                  | _ => wrong_args cmd
                  end;
  r ← call (pop key (Z.to_nat count));
  items ← wt r;
  if (count =? 1) && (length parts =? 2)%nat then put_first items
  else if is_nil items && (length parts =? 2)%nat then write write_nil
  else put_array items.
Definition lpop := pop_with (ListOps.lpop c) (B "lpop").
Definition rpop := pop_with (ListOps.rpop c) (B "rpop").

Definition llen parts : Handler M unit :=
  match parts with
  | [_; key] => r ← look (ListOps.llen c key); n ← wt r; put_integer (as_i64 n)
  | _ => wrong_args (B "llen")
  end.

Definition lindex parts : Handler M unit :=
  match parts with
  | [_; key; idx] => i ← parse_int idx; r ← look (ListOps.lindex c key i); v ← wt r; put_opt_bulk v
  | _ => wrong_args (B "lindex")
  end.

Definition lset parts : Handler M unit :=
  match parts with
  | [_; key; idx; value] =>
      i ← parse_int idx; r ← call (ListOps.lset c key i value); _ ← store_err r; write write_ok
  | _ => wrong_args (B "lset")
  end.

Definition lrange parts : Handler M unit :=
  match parts with
  | [_; key; start; stop] =>
      s ← parse_int start; e ← parse_int stop;
      r ← look (ListOps.lrange c key s e); items ← wt r; put_array items
  | _ => wrong_args (B "lrange")
  end.

Definition ltrim parts : Handler M unit :=
  match parts with
  | [_; key; start; stop] =>
      s ← parse_int start; e ← parse_int stop;
      r ← call (ListOps.ltrim c key s e); _ ← wt r; write write_ok
  | _ => wrong_args (B "ltrim")
  end.

Definition lrem parts : Handler M unit :=
  match parts with
  | [_; key; count; value] =>
      n ← parse_int count; r ← call (ListOps.lrem c key n value); n ← wt r; put_integer (as_i64 n)
  | _ => wrong_args (B "lrem")
  end.

Definition linsert parts : Handler M unit :=
  match parts with
  | [_; key; pos; pivot; value] =>
      before ← (if eq_ignore_case pos (B "BEFORE") then mret true
                else if eq_ignore_case pos (B "AFTER") then mret false
                else syntax_error);
      r ← call (ListOps.linsert c key before pivot value); n ← wt r; put_integer n
  | _ => wrong_args (B "linsert")
  end.

Record LposOptions := mkLpos { lp_rank : Z; lp_count : Z; lp_maxlen : Z; lp_count_specified : bool }.

Fixpoint lpos_options (rest : list bytes) (o : LposOptions) : Handler M LposOptions :=
  match rest with
  | [] => mret o
  | opt :: rest' =>
      if eq_ignore_case opt (B "RANK") then
        match rest' with
        | [] => syntax_error
        | s :: rest'' =>
            rank ← parse_int s;
            if rank =? 0 then error (B "RANK can't be zero")
            else lpos_options rest'' (mkLpos rank (lp_count o) (lp_maxlen o) (lp_count_specified o))
        end
      else if eq_ignore_case opt (B "COUNT") then
        match rest' with
        | [] => syntax_error
        | s :: rest'' => n ← parse_uint s; lpos_options rest'' (mkLpos (lp_rank o) n (lp_maxlen o) true)
        end
      else if eq_ignore_case opt (B "MAXLEN") then
        match rest' with
        | [] => syntax_error
        | s :: rest'' =>
            n ← parse_uint s; lpos_options rest'' (mkLpos (lp_rank o) (lp_count o) n (lp_count_specified o))
        end
      else syntax_error
  end.

Definition lpos parts : Handler M unit :=
  match parts with
  | _ :: key :: element :: rest =>
      o ← lpos_options rest (mkLpos 1 1 0 false);
      r ← look (ListOps.lpos c key element (lp_rank o) (Z.to_nat (lp_count o)) (Z.to_nat (lp_maxlen o)));
      results ← wt r;
      if negb (lp_count_specified o) then
        match results with
        | [] => write write_nil
        | i :: _ => put_integer (as_i64 (Z.of_nat i))
        end
      else
        write (λ out, foldl (λ out i, write_integer out (as_i64 (Z.of_nat i)))
                        (write_array_header out (Z.of_nat (length results))) results)
  | _ => wrong_args (B "lpos")
  end.

Definition direction (s : bytes) : Handler M bool :=
  if eq_ignore_case s (B "LEFT") then mret true
  else if eq_ignore_case s (B "RIGHT") then mret false
  else syntax_error.

Definition move (src dst : bytes) (left_src left_dst : bool) : Handler M unit :=
  r ← call (ListOps.lmove c src dst left_src left_dst); v ← store_err r; put_opt_bulk v.

Definition lmove parts : Handler M unit :=
  match parts with
  | [_; src; dst; src_dir; dst_dir] =>
      left_src ← direction src_dir; left_dst ← direction dst_dir; move src dst left_src left_dst
  | _ => wrong_args (B "lmove")
  end.

Definition rpoplpush parts : Handler M unit :=
  match parts with
  | [_; src; dst] => move src dst false true
  | _ => wrong_args (B "rpoplpush")
  end.

(** The keys of BLPOP and its likes: all parts but the first and the last. *)
Definition blocking_keys parts : list bytes := take (length parts - 2) (drop 1 parts).

(** The first key with an item; nothing waits, and an error skips the key. *)
Fixpoint pop_first {I} (pop : bytes → Store M → Store M * result (list I)) (put : bytes → I → bytes → bytes)
    (keys : list bytes) : Handler M unit :=
  match keys with
  | [] => write write_nil
  | k :: keys' =>
      r ← call (pop k);
      match r with
      | Ok (v :: _) => reply (put k v)
      | _ => pop_first pop put keys'
      end
  end.

Definition put_key_item (k v out : bytes) : bytes := write_bulk (write_bulk (write_array_header out 2) k) v.

Definition bpop_with (pop : bytes → nat → Store M → Store M * result (list bytes)) (cmd : bytes) parts
    : Handler M unit :=
  if (length parts <? 3)%nat then wrong_args cmd
  else pop_first (λ k, pop k 1%nat) put_key_item (blocking_keys parts).
Definition blpop := bpop_with (ListOps.lpop c) (B "blpop").
Definition brpop := bpop_with (ListOps.rpop c) (B "brpop").

Definition blmove parts : Handler M unit :=
  match parts with
  | [_; src; dst; src_dir; dst_dir; _] =>
      move src dst (eq_ignore_case src_dir (B "LEFT")) (eq_ignore_case dst_dir (B "LEFT"))
  | _ => wrong_args (B "blmove")
  end.
End CmdList.
