(* ===== verification/CmdHash.v ===== *)
(** The hash commands: commends/hash.rs. *)

From S2P Require Import Prelude Decimal MapIface Resp Glob Float Collections Value Store HashOps Handler.
Local Open Scope Z_scope.

Section CmdHash.
Context {M : Type} `{KVMap StoreValue M} `{HashOrder} (c : Clock).
Implicit Types (parts : list bytes) (st : Store M).

Definition hset parts : Handler M unit :=
  match parts with
  | _ :: key :: pairs =>
      if negb (is_nil pairs) && even_len pairs then
        r ← call (HashOps.hset c key (pairs_of pairs)); n ← wt r; put_integer (as_i64 n)
      else wrong_args (B "hset")
  | _ => wrong_args (B "hset")
  end.

Definition hsetnx parts : Handler M unit :=
  match parts with
  | [_; key; field; value] => r ← call (HashOps.hsetnx c key field value); b ← wt r; put_boolean b
  | _ => wrong_args (B "hsetnx")
  end.

Definition hget parts : Handler M unit :=
  match parts with
  | [_; key; field] => r ← look (HashOps.hget c key field); v ← wt r; put_opt_bulk v
  | _ => wrong_args (B "hget")
  end.

Definition hmget parts : Handler M unit :=
  match parts with
  | _ :: key :: fields =>
      if negb (is_nil fields) then
        r ← look (HashOps.hmget c key fields); l ← wt r; write (λ out, write_opt_array out l)
      else wrong_args (B "hmget")
  | _ => wrong_args (B "hmget")
  end.

Definition hmset parts : Handler M unit :=
  match parts with
  | _ :: key :: pairs =>
      if negb (is_nil pairs) && even_len pairs then
        r ← call (HashOps.hset c key (pairs_of pairs)); _ ← wt r; write write_ok
      else wrong_args (B "hmset")
  | _ => wrong_args (B "hmset")
  end.

(** [for (f, v) in pairs { write_bulk(f); write_bulk(v) }] *)
Definition write_pair (out : bytes) (p : bytes * bytes) : bytes := write_bulk (write_bulk out p.1) p.2.
Definition write_pairs (out : bytes) (pairs : list (bytes * bytes)) : bytes :=
  foldl write_pair (write_array_header out (Z.of_nat (length pairs * 2))) pairs.

Definition hgetall parts : Handler M unit :=
  match parts with
  | [_; key] => r ← look (HashOps.hgetall c key); pairs ← wt r; write (λ out, write_pairs out pairs)
  | _ => wrong_args (B "hgetall")
  end.

Definition hdel parts : Handler M unit :=
  match parts with
  | _ :: key :: fields =>
      if negb (is_nil fields) then r ← call (HashOps.hdel c key fields); n ← wt r; put_integer (as_i64 n)
      else wrong_args (B "hdel")
  | _ => wrong_args (B "hdel")
  end.

Definition hexists parts : Handler M unit :=
  match parts with
  | [_; key; field] => r ← look (HashOps.hexists c key field); b ← wt r; put_boolean b
  | _ => wrong_args (B "hexists")
  end.

Definition hlen parts : Handler M unit :=
  match parts with
  | [_; key] => r ← look (HashOps.hlen c key); n ← wt r; put_integer (as_i64 n)
  | _ => wrong_args (B "hlen")
  end.

Definition hkeys parts : Handler M unit :=
  match parts with
  | [_; key] => r ← look (HashOps.hkeys c key); l ← wt r; put_array l
  | _ => wrong_args (B "hkeys")
  end.

Definition hvals parts : Handler M unit :=
  match parts with
  | [_; key] => r ← look (HashOps.hvals c key); l ← wt r; put_array l
  | _ => wrong_args (B "hvals")
  end.

Definition hincrby parts : Handler M unit :=
  match parts with
  | [_; key; field; by_] =>
      n ← parse_int by_; r ← call (HashOps.hincrby c key field n); n ← store_ok r; put_integer n
  | _ => wrong_args (B "hincrby")
  end.

Definition hincrbyfloat parts : Handler M unit :=
  match parts with
  | [_; key; field; by_] =>
      n ← parse_float by_; r ← call (HashOps.hincrbyfloat c key field n); f ← store_ok r;
      put_bulk (format_float f)
  | _ => wrong_args (B "hincrbyfloat")
  end.

(** The arguments of HRANDFIELD. *)
Definition hrandfield_args parts : Handler M (bytes * Z * bool) :=
  match parts with
  | [_; key] => mret (key, 1, false)
  | [_; key; cnt] => n ← parse_int cnt; mret (key, n, false)
  | [_; key; cnt; wv] =>
      if eq_ignore_case wv (B "WITHVALUES") then n ← parse_int cnt; mret (key, n, true)
      else wrong_args (B "hrandfield")
  | _ => wrong_args (B "hrandfield")
  end.

(** [(seed + i) * 0x9e3779b97f4a7c15 % fields.len()] *)
Definition hrand_index (len : nat) (i : nat) : nat :=
  Z.to_nat (wrap64 (wrap64 (now_ms c + Z.of_nat i) * 0x9e3779b97f4a7c15) mod Z.of_nat len).

Definition hrand_pick (fields : list (bytes * bytes)) (n : nat) : list (bytes * bytes) :=
  omap (λ i, fields !! hrand_index (length fields) i) (List.seq 0 n).

Definition write_fields (out : bytes) (fields : list (bytes * bytes)) : bytes :=
  foldl (λ out p, write_bulk out p.1) (write_array_header out (Z.of_nat (length fields))) fields.

(** [-count] of [i64::MIN] is itself; the [2^63] bulks that follow are more
    than a [Vec] can hold. *)
Definition hrandfield parts : Handler M unit :=
  '(key, count, withvalues) ← hrandfield_args parts;
  let none := if (length parts =? 2)%nat then write write_nil else put_header 0 in
  e ← look (λ st, kv_get_ref (data st) key);
  match e with
  | None => none
  | Some e =>
      if is_expired c e then none
      else match as_hash (value e) with
           | None => write write_wrong_type
           | Some h =>
               match hash_iter h with
               | [] => none
               | (f, _) :: _ as fields =>
                   if (length parts =? 2)%nat then put_bulk f
                   else
                     picked ← (if 0 <=? count then mret (take (Z.to_nat count) fields)
                               else if count =? i64_min then unwrap None
                               else mret (hrand_pick fields (Z.to_nat (- count))));
                     if withvalues : bool then write (λ out, write_pairs out picked)
                     else write (λ out, write_fields out picked)
               end
           end
  end.

(** The options of HSCAN, SSCAN and ZSCAN: a pattern; a count is read and dropped. *)
Fixpoint match_options (rest : list bytes) (pattern : option bytes) : Handler M (option bytes) :=
  match rest with
  | [] => mret pattern
  | opt :: rest' =>
      if eq_ignore_case opt (B "MATCH") then
        match rest' with
        | [] => syntax_error
        | p :: rest'' => match_options rest'' (Some p)
        end
      else if eq_ignore_case opt (B "COUNT") then
        match rest' with
        | [] => syntax_error
        | s :: rest'' => _ ← parse_uint s; match_options rest'' pattern
        end
      else syntax_error
  end.

Definition pattern_ok (pattern : option bytes) (s : bytes) : bool :=
  match pattern with None => true | Some p => glob_match p s end.

(** ["*2\r\n"], the cursor 0 and the items. *)
Definition scan_reply (items : bytes → bytes) (out : bytes) : bytes :=
  items (write_bulk (out ++ B "*2" ++ CRLF) (B "0")).

(** HSCAN, SSCAN and ZSCAN: [items] writes what a live value of the type holds. *)
Definition scan_value {T} (as_type : FyroDB → option T) (items : option bytes → T → bytes → bytes)
    (cmd : bytes) parts : Handler M unit :=
  match parts with
  | _ :: key :: cursor :: rest =>
      _ ← parse_uint cursor;
      pattern ← match_options rest None;
      let none := write (scan_reply (λ out, write_array_header out 0)) in
      e ← look (λ st, kv_get_ref (data st) key);
      match e with
      | None => none
      | Some e =>
          if is_expired c e then none
          else match as_type (value e) with
               | Some v => write (scan_reply (items pattern v))
               | None => write write_wrong_type
               end
      end
  | _ => wrong_args cmd
  end.

Definition hscan parts : Handler M unit :=
  scan_value as_hash
    (λ pattern h out, write_pairs out (List.filter (λ p, pattern_ok pattern p.1) (hash_iter h))) (B "hscan") parts.
End CmdHash.
