(* ===== verification/CmdSet.v ===== *)
(** The set commands: commends/set.rs. *)

From S2P Require Import Prelude Decimal MapIface Resp Collections Value Store SetOps Handler CmdList CmdHash.
Local Open Scope Z_scope.

Section CmdSet.
Context {M : Type} `{KVMap StoreValue M} `{HashOrder} (c : Clock).
Implicit Types (parts : list bytes) (st : Store M).

Definition sadd parts : Handler M unit :=
  match parts with
  | _ :: key :: members =>
      if negb (is_nil members) then r ← call (SetOps.sadd c key members); n ← wt r; put_integer (as_i64 n)
      else wrong_args (B "sadd")
  | _ => wrong_args (B "sadd")
  end.

Definition srem parts : Handler M unit :=
  match parts with
  | _ :: key :: members =>
      if negb (is_nil members) then r ← call (SetOps.srem c key members); n ← wt r; put_integer (as_i64 n)
      else wrong_args (B "srem")
  | _ => wrong_args (B "srem")
  end.

Definition sismember parts : Handler M unit :=
  match parts with
  | [_; key; member] => r ← look (SetOps.sismember c key member); b ← wt r; put_boolean b
  | _ => wrong_args (B "sismember")
  end.

Definition smismember parts : Handler M unit :=
  match parts with
  | _ :: key :: members =>
      if negb (is_nil members) then
        r ← look (SetOps.smismember c key members);
        results ← wt r;
        write (λ out, foldl (λ out (r : bool), write_integer out (if r then 1 else 0))
                        (write_array_header out (Z.of_nat (length results))) results)
      else wrong_args (B "smismember")
  | _ => wrong_args (B "smismember")
  end.

Definition smembers parts : Handler M unit :=
  match parts with
  | [_; key] => r ← look (SetOps.smembers c key); l ← wt r; put_array l
  | _ => wrong_args (B "smembers")
  end.

Definition scard parts : Handler M unit :=
  match parts with
  | [_; key] => r ← look (SetOps.scard c key); n ← wt r; put_integer (as_i64 n)
  | _ => wrong_args (B "scard")
  end.

Definition spop parts : Handler M unit :=
  '(key, count) ← match parts with
                  | [_; key] => mret (key, 1)
                  | [_; key; cnt] => n ← parse_uint cnt; mret (key, n)
                  | _ => wrong_args (B "spop")
                  end;
  r ← call (SetOps.spop c key (Z.to_nat count));
  items ← wt r;
  if (length parts =? 2)%nat then put_first items else put_array items.

Definition srandmember parts : Handler M unit :=
  '(key, count) ← match parts with
                  | [_; key] => mret (key, 1)
                  | [_; key; cnt] => n ← parse_int cnt; mret (key, n)
                  | _ => wrong_args (B "srandmember")
                  end;
  r ← look (SetOps.srandmember c key count);
  r ← unwrap r;
  items ← wt r;
  if (length parts =? 2)%nat then put_first items else put_array items.

Definition smove parts : Handler M unit :=
  match parts with
  | [_; src; dst; member] => r ← call (SetOps.smove c src dst member); b ← wt r; put_boolean b
  | _ => wrong_args (B "smove")
  end.

Definition algebra_with (op : list bytes → Store M → result (list bytes)) (cmd : bytes) parts : Handler M unit :=
  match parts with
  | _ :: keys =>
      if negb (is_nil keys) then r ← look (op keys); l ← wt r; put_array l
      else wrong_args cmd
  | _ => wrong_args cmd
  end.
Definition sunion := algebra_with (SetOps.sunion c) (B "sunion").
Definition sinter := algebra_with (SetOps.sinter c) (B "sinter").
Definition sdiff := algebra_with (SetOps.sdiff c) (B "sdiff").

Definition store_with (op : bytes → list bytes → Store M → Store M * result Z) (cmd : bytes) parts
    : Handler M unit :=
  match parts with
  | _ :: dst :: keys =>
      if negb (is_nil keys) then r ← call (op dst keys); n ← store_ok r; put_integer (as_i64 n)
      else wrong_args cmd
  | _ => wrong_args cmd
  end.
Definition sunionstore := store_with (SetOps.sunionstore c) (B "sunionstore").
Definition sinterstore := store_with (SetOps.sinterstore c) (B "sinterstore").
Definition sdiffstore := store_with (SetOps.sdiffstore c) (B "sdiffstore").

Fixpoint limit_option (rest : list bytes) (limit : Z) : Handler M Z :=
  match rest with
  | [] => mret limit
  | opt :: rest' =>
      if eq_ignore_case opt (B "LIMIT") then
        match rest' with
        | [] => syntax_error
        | s :: rest'' => n ← parse_uint s; limit_option rest'' n
        end
      else syntax_error
  end.

Definition sintercard parts : Handler M unit :=
  match parts with
  | _ :: numkeys_str :: rest =>
      numkeys ← parse_uint numkeys_str;
      if Z.of_nat (length rest) <? numkeys then wrong_args (B "sintercard")
      else
        let keys := take (Z.to_nat numkeys) rest in
        limit ← limit_option (drop (Z.to_nat numkeys) rest) 0;
        r ← look (SetOps.sintercard c keys (Z.to_nat limit)); n ← store_ok r; put_integer (as_i64 n)
  | _ => wrong_args (B "sintercard")
  end.

Definition sscan parts : Handler M unit :=
  scan_value c as_set
    (λ pattern s out, write_array out (List.filter (pattern_ok pattern) (set_strings s))) (B "sscan") parts.
End CmdSet.
