(* ===== verification/CmdZSet.v ===== *)
(** The sorted-set commands: commends/zset.rs. *)

From S2P Require Import Prelude Decimal MapIface Resp Float Collections ZSet Value Store ZSetOps Handler.
From S2P Require Import CmdList CmdHash.
From Stdlib Require Import Strings.Byte.
Local Open Scope Z_scope.

Section CmdZSet.
Context {M : Type} `{KVMap StoreValue M} (c : Clock).
Implicit Types (parts : list bytes) (st : Store M).

(** The flags before the first score; [None] when the arguments end there. *)
Fixpoint zadd_flags (rest : list bytes) (fl : ZAddFlags) : option (ZAddFlags * list bytes) :=
  match rest with
  | [] => None
  | opt :: rest' =>
      if eq_ignore_case opt (B "NX") then zadd_flags rest' (mkFlags true (xx fl) (gt fl) (lt fl) (ch fl))
      else if eq_ignore_case opt (B "XX") then zadd_flags rest' (mkFlags (nx fl) true (gt fl) (lt fl) (ch fl))
      else if eq_ignore_case opt (B "GT") then zadd_flags rest' (mkFlags (nx fl) (xx fl) true (lt fl) (ch fl))
      else if eq_ignore_case opt (B "LT") then zadd_flags rest' (mkFlags (nx fl) (xx fl) (gt fl) true (ch fl))
      else if eq_ignore_case opt (B "CH") then zadd_flags rest' (mkFlags (nx fl) (xx fl) (gt fl) (lt fl) true)
      else Some (fl, rest)
  end.

Fixpoint parse_scores (chunks : list (bytes * bytes)) (members : list (f64 * bytes)) : Handler M (list (f64 * bytes)) :=
  match chunks with
  | [] => mret members
  | (s, member) :: chunks' => score ← parse_float s; parse_scores chunks' (members ++ [(score, member)])
  end.

Definition zadd parts : Handler M unit :=
  match parts with
  | _ :: key :: rest =>
      if is_nil rest then wrong_args (B "zadd")
      else match zadd_flags rest (mkFlags false false false false false) with
      | None => wrong_args (B "zadd")
      | Some (fl, score_members) =>
          if nx fl && xx fl then error (B "XX and NX options at the same time are not compatible")
          else if is_nil score_members || negb (even_len score_members) then wrong_args (B "zadd")
          else
            members ← parse_scores (pairs_of score_members) [];
            r ← call (ZSetOps.zadd c key members fl); n ← store_ok r; put_integer (as_i64 n)
      end
  | _ => wrong_args (B "zadd")
  end.

Definition zrem parts : Handler M unit :=
  match parts with
  | _ :: key :: members =>
      if negb (is_nil members) then r ← call (ZSetOps.zrem c key members); n ← wt r; put_integer (as_i64 n)
      else wrong_args (B "zrem")
  | _ => wrong_args (B "zrem")
  end.

Definition opt_score (v : option f64) : option bytes := format_float <$> v.

Definition zscore parts : Handler M unit :=
  match parts with
  | [_; key; member] => r ← look (ZSetOps.zscore c key member); v ← wt r; put_opt_bulk (opt_score v)
  | _ => wrong_args (B "zscore")
  end.

Definition zmscore parts : Handler M unit :=
  match parts with
  | _ :: key :: members =>
      if negb (is_nil members) then
        r ← look (ZSetOps.zmscore c key members);
        scores ← wt r;
        write (λ out, foldl (λ out v, write_opt_bulk out (opt_score v))
                        (write_array_header out (Z.of_nat (length scores))) scores)
      else wrong_args (B "zmscore")
  | _ => wrong_args (B "zmscore")
  end.

Definition put_rank (r : option nat) : Handler M unit :=
  match r with Some i => put_integer (as_i64 (Z.of_nat i)) | None => write write_nil end.

Definition zrank parts : Handler M unit :=
  match parts with
  | [_; key; member] => r ← look (ZSetOps.zrank c key member); i ← wt r; put_rank i
  | _ => wrong_args (B "zrank")
  end.

Definition zrevrank parts : Handler M unit :=
  match parts with
  | [_; key; member] => r ← look (ZSetOps.zrevrank c key member); i ← wt r; put_rank i
  | _ => wrong_args (B "zrevrank")
  end.

Definition zcard parts : Handler M unit :=
  match parts with
  | [_; key] => r ← look (ZSetOps.zcard c key); n ← wt r; put_integer (as_i64 n)
  | _ => wrong_args (B "zcard")
  end.

(** An exclusive bound is the bound plus [f64::EPSILON]. *)
Definition parse_score_bound (s : bytes) (dflt : f64) : f64 :=
  if bool_decide (s = B "-inf") || bool_decide (s = B "-INF") then NEG_INFINITY
  else if bool_decide (s = B "+inf") || bool_decide (s = B "+INF") || bool_decide (s = B "inf") || bool_decide (s = B "INF")
  then INFINITY
  else match strip_prefix "("%byte s with
       | Some stripped => f64_add (default dflt (parse_f64 stripped)) EPSILON
       | None => default dflt (parse_f64 s)
       end.

Definition zcount parts : Handler M unit :=
  match parts with
  | [_; key; mn; mx] =>
      r ← look (ZSetOps.zcount c key (parse_score_bound mn NEG_INFINITY) (parse_score_bound mx INFINITY));
      n ← wt r; put_integer (as_i64 n)
  | _ => wrong_args (B "zcount")
  end.

Definition zincrby parts : Handler M unit :=
  match parts with
  | [_; key; incr; member] =>
      by_ ← parse_float incr; r ← call (ZSetOps.zincrby c key by_ member); f ← store_ok r;
      put_bulk (format_float f)
  | _ => wrong_args (B "zincrby")
  end.

Definition write_scored (out : bytes) (p : bytes * f64) : bytes := write_bulk (write_bulk out p.1) (format_float p.2).

Definition write_zset_result (items : list (bytes * f64)) (withscores : bool) (out : bytes) : bytes :=
  if withscores then foldl write_scored (write_array_header out (Z.of_nat (length items * 2))) items
  else foldl (λ out p, write_bulk out p.1) (write_array_header out (Z.of_nat (length items))) items.

Definition wants_scores (rest : list bytes) : bool := existsb (λ r, eq_ignore_case r (B "WITHSCORES")) rest.

Definition zrange_with (op : bytes → Z → Z → Store M → result (list (bytes * f64))) (cmd : bytes) parts
    : Handler M unit :=
  match parts with
  | _ :: key :: start :: stop :: rest =>
      s ← parse_int start; e ← parse_int stop;
      r ← look (op key s e); items ← wt r;
      write (write_zset_result items (wants_scores rest))
  | _ => wrong_args cmd
  end.
Definition zrange := zrange_with (ZSetOps.zrange c) (B "zrange").
Definition zrevrange := zrange_with (ZSetOps.zrevrange c) (B "zrevrange").

(** WITHSCORES and LIMIT; every other word is skipped. *)
Fixpoint range_options (rest : list bytes) (o : bool * Z * Z) : Handler M (bool * Z * Z) :=
  let '(withscores, offset, count) := o in
  match rest with
  | [] => mret o
  | opt :: rest' =>
      if eq_ignore_case opt (B "WITHSCORES") then range_options rest' (true, offset, count)
      else if eq_ignore_case opt (B "LIMIT") then
        match rest' with
        | a :: b :: rest'' =>
            offset ← parse_uint a; count ← parse_uint b; range_options rest'' (withscores, offset, count)
        | _ => syntax_error
        end
      else range_options rest' o
  end.

Definition score_range (r : Store M → option (result (list (bytes * f64)))) (withscores : bool) : Handler M unit :=
  r ← look r; r ← unwrap r; items ← wt r; write (write_zset_result items withscores).

Definition zrangebyscore parts : Handler M unit :=
  match parts with
  | _ :: key :: mn :: mx :: rest =>
      '(withscores, offset, count) ← range_options rest (false, 0, 0);
      score_range (ZSetOps.zrangebyscore c key (parse_score_bound mn NEG_INFINITY) (parse_score_bound mx INFINITY)
                     (Z.to_nat offset) (Z.to_nat count)) withscores
  | _ => wrong_args (B "zrangebyscore")
  end.

Definition zrevrangebyscore parts : Handler M unit :=
  match parts with
  | _ :: key :: mx :: mn :: rest =>
      '(withscores, offset, count) ← range_options rest (false, 0, 0);
      score_range (ZSetOps.zrevrangebyscore c key (parse_score_bound mx INFINITY) (parse_score_bound mn NEG_INFINITY)
                     (Z.to_nat offset) (Z.to_nat count)) withscores
  | _ => wrong_args (B "zrevrangebyscore")
  end.

Definition zpop (pop : bytes → nat → Store M → Store M * result (list (bytes * f64))) (cmd : bytes) parts
    : Handler M unit :=
  '(key, count) ← match parts with
                  | [_; key] => mret (key, 1)
                  | [_; key; cnt] => n ← parse_uint cnt; mret (key, n)
                  | _ => wrong_args cmd
                  end;
  r ← call (pop key (Z.to_nat count));
  items ← wt r;
  write (write_zset_result items true).
Definition zpopmin := zpop (ZSetOps.zpopmin c) (B "zpopmin").
Definition zpopmax := zpop (ZSetOps.zpopmax c) (B "zpopmax").

(** The WEIGHTS of [numkeys] keys: the weights and what follows them, or the
    error already written. *)
Fixpoint take_weights (n : nat) (rest : list bytes) (weights : list f64) : list f64 * list bytes + bytes :=
  match n with
  | O => inl (weights, rest)
  | S n' =>
      match rest with
      | [] => inr (B "syntax error")
      | s :: rest' =>
          match parse_f64 s with
          | Some w => take_weights n' rest' (weights ++ [w])
          | None => inr (B "weight is not a float")
          end
      end
  end.

(** The loop over WEIGHTS and AGGREGATE; each round takes at least one word. *)
Fixpoint store_options (fuel : nat) (numkeys : nat) (rest : list bytes) (weights : list f64) (a : ZAggregate)
    : list f64 * ZAggregate + bytes :=
  match fuel, rest with
  | S fuel', opt :: rest' =>
      if eq_ignore_case opt (B "WEIGHTS") then
        match take_weights numkeys rest' weights with
        | inl (weights, rest'') => store_options fuel' numkeys rest'' weights a
        | inr e => inr e
        end
      else if eq_ignore_case opt (B "AGGREGATE") then
        match rest' with
        | [] => inr (B "syntax error")
        | s :: rest'' =>
            match parse_aggregate s with
            | Some a => store_options fuel' numkeys rest'' weights a
            | None => inr (B "syntax error")
            end
        end
      else inr (B "syntax error")
  | _, _ => inl (weights, a)
  end.

(** After an error the keys are empty; no keys at all give the same result
    without an error. *)
Definition parse_store_args (rest : list bytes) (numkeys : Z) : Handler M (list bytes * list f64 * ZAggregate) :=
  if Z.of_nat (length rest) <? numkeys then
    _ ← write (λ out, write_wrong_args out (B "z*store")); mret ([], [], Sum)
  else
    let n := Z.to_nat numkeys in
    match store_options (length rest) n (drop n rest) [] Sum with
    | inl (weights, a) => mret (take n rest, weights, a)
    | inr e => _ ← write (λ out, write_err out e); mret ([], [], Sum)
    end.

(** [let (keys, weights, aggregate) = parse_store_args(..); if keys.is_empty() { return; }] *)
Definition with_store_args (numkeys_str : bytes) (rest : list bytes)
    (k : list bytes → list f64 → ZAggregate → list bytes → Handler M unit) : Handler M unit :=
  numkeys ← parse_uint numkeys_str;
  '(keys, weights, a) ← parse_store_args rest numkeys;
  if is_nil keys then return_ else k keys weights a (drop (Z.to_nat numkeys) rest).

Definition zstore_with (op : bytes → list bytes → list f64 → ZAggregate → Store M → Store M * result Z)
    (cmd : bytes) parts : Handler M unit :=
  match parts with
  | _ :: dst :: numkeys_str :: rest =>
      with_store_args numkeys_str rest (λ keys weights a _,
        r ← call (op dst keys weights a); n ← store_ok r; put_integer (as_i64 n))
  | _ => wrong_args cmd
  end.
Definition zunionstore := zstore_with (ZSetOps.zunionstore c) (B "zunionstore").
Definition zinterstore := zstore_with (ZSetOps.zinterstore c) (B "zinterstore").

Definition zcombine_with (op : list bytes → list f64 → ZAggregate → Store M → result (list (bytes * f64)))
    (cmd : bytes) parts : Handler M unit :=
  match parts with
  | _ :: numkeys_str :: rest =>
      with_store_args numkeys_str rest (λ keys weights a remaining,
        r ← look (op keys weights a); items ← wt r;
        write (write_zset_result items (wants_scores remaining)))
  | _ => wrong_args cmd
  end.
Definition zunion := zcombine_with (ZSetOps.zunion c) (B "zunion").
Definition zinter := zcombine_with (ZSetOps.zinter c) (B "zinter").

(** [fuel] bounds the draws of ZRANDMEMBER. *)
Definition zrandmember (fuel : nat) parts : Handler M unit :=
  '(key, count, withscores) ← match parts with
    | [_; key] => mret (key, 1, false)
    | [_; key; cnt] => n ← parse_int cnt; mret (key, n, false)
    | [_; key; cnt; ws] =>
        if eq_ignore_case ws (B "WITHSCORES") then n ← parse_int cnt; mret (key, n, true)
        else wrong_args (B "zrandmember")
    | _ => wrong_args (B "zrandmember")
    end;
  r ← look (ZSetOps.zrandmember c fuel key count);
  r ← unwrap r;
  items ← wt r;
  if (length parts =? 2)%nat then put_first (items.*1)
  else write (write_zset_result items withscores).

Definition zlexcount parts : Handler M unit :=
  match parts with
  | [_; key; mn; mx] => r ← look (ZSetOps.zlexcount c key mn mx); n ← wt r; put_integer (as_i64 n)
  | _ => wrong_args (B "zlexcount")
  end.

Fixpoint limit_options (rest : list bytes) (o : Z * Z) : Handler M (Z * Z) :=
  match rest with
  | [] => mret o
  | opt :: rest' =>
      if eq_ignore_case opt (B "LIMIT") then
        match rest' with
        | a :: b :: rest'' => offset ← parse_uint a; count ← parse_uint b; limit_options rest'' (offset, count)
        | _ => syntax_error
        end
      else syntax_error
  end.

Definition zrangebylex parts : Handler M unit :=
  match parts with
  | _ :: key :: mn :: mx :: rest =>
      '(offset, count) ← limit_options rest (0, 0);
      r ← look (ZSetOps.zrangebylex c key mn mx (Z.to_nat offset) (Z.to_nat count));
      items ← wt r; put_array items
  | _ => wrong_args (B "zrangebylex")
  end.

Definition zdiff parts : Handler M unit :=
  match parts with
  | _ :: numkeys_str :: rest =>
      numkeys ← parse_uint numkeys_str;
      if Z.of_nat (length rest) <? numkeys then wrong_args (B "zdiff")
      else
        r ← look (ZSetOps.zdiff c (take (Z.to_nat numkeys) rest));
        items ← wt r;
        write (write_zset_result items (wants_scores (drop (Z.to_nat numkeys) rest)))
  | _ => wrong_args (B "zdiff")
  end.

Definition zdiffstore parts : Handler M unit :=
  match parts with
  | _ :: dst :: numkeys_str :: rest =>
      numkeys ← parse_uint numkeys_str;
      if Z.of_nat (length rest) <? numkeys then wrong_args (B "zdiffstore")
      else
        r ← call (ZSetOps.zdiffstore c dst (take (Z.to_nat numkeys) rest));
        n ← store_ok r; put_integer (as_i64 n)
  | _ => wrong_args (B "zdiffstore")
  end.

Definition zscan parts : Handler M unit :=
  scan_value c as_zset
    (λ pattern z out,
       let pairs := List.filter (λ p : bytes * f64, pattern_ok pattern p.1) (pair_of <$> entries z) in
       foldl write_scored (write_array_header out (Z.of_nat (length pairs * 2))) pairs) (B "zscan") parts.

Definition zrangestore parts : Handler M unit :=
  match parts with
  | _ :: dst :: src :: mn :: mx :: _ =>
      s ← parse_int mn; e ← parse_int mx;
      r ← look (ZSetOps.zrange c src s e);
      items ← wt r;
      let z := insert_all ((λ p, (p.2, p.1)) <$> items) ZSetData_new in
      _ ← act (put dst (StoreValue_zset z));
      put_integer (as_i64 (Z.of_nat (zset_len z)))
  | _ => wrong_args (B "zrangestore")
  end.

Definition put_key_scored (k : bytes) (p : bytes * f64) (out : bytes) : bytes :=
  write_scored (write_bulk (write_array_header out 3) k) p.

Definition bzpop_with (pop : bytes → nat → Store M → Store M * result (list (bytes * f64))) (cmd : bytes) parts
    : Handler M unit :=
  if (length parts <? 3)%nat then wrong_args cmd
  else pop_first (λ k, pop k 1%nat) put_key_scored (blocking_keys parts).
Definition bzpopmin := bzpop_with (ZSetOps.zpopmin c) (B "bzpopmin").
Definition bzpopmax := bzpop_with (ZSetOps.zpopmax c) (B "bzpopmax").
End CmdZSet.
