(* ===== verification/Hll.v ===== *)
(** HyperLogLog: storage/hll.rs.

    A sketch is 16384 registers, kept in a string behind a header of four bytes.
    The natural logarithm, whose last digit Rust leaves to the platform, is an
    argument. *)

From Stdlib Require Import Strings.Byte Floats.SpecFloat.
From S2P Require Import Prelude MapIface Resp Float Value Store.
Local Open Scope Z_scope.

Definition HLL_REGISTERS : nat := Z.to_nat 16384.

Record HllData := mkHll { registers : bytes }.

#[global] Instance HllData_eq_dec : EqDecision HllData.
Proof. solve_decision. Defined.

Definition HllData_new : HllData := mkHll (replicate HLL_REGISTERS x00).

(** [h ^= h >> 33] *)
Definition xor_shift (h : Z) : Z := Z.lxor h (Z.shiftr h 33).

(** FNV-1a and the finaliser of MurmurHash3. *)
Definition hll_hash (data : bytes) : Z :=
  let h := foldl (λ h b, wrap64 (Z.lxor h (b2z b) * 0x100000001b3)) 0xcbf29ce484222325 data in
  xor_shift (wrap64 (xor_shift (wrap64 (xor_shift h * 0xff51afd7ed558ccd)) * 0xc4ceb9fe1a85ec53)).

(** The loop of [leading_zeros_after]: the zeros at the low end, 50 at most. *)
Fixpoint low_zeros (fuel : nat) (w : Z) : Z :=
  match fuel with
  | O => 0
  | S fuel => if Z.land w 1 =? 0 then 1 + low_zeros fuel (Z.shiftr w 1) else 0
  end.
Definition leading_zeros_after (w : Z) : Z := if w =? 0 then 50 else low_zeros 50 w.

(** The register of an element and the value it asks for. *)
Definition register_of (element : bytes) : nat := Z.to_nat (Z.land (hll_hash element) 0x3FFF).
Definition rho_of (element : bytes) : Z := leading_zeros_after (Z.shiftr (hll_hash element) 14) + 1.

(** [registers[i]] *)
Definition reg (h : HllData) (i : nat) : Z := default 0 (b2z <$> registers h !! i).

Definition hll_add (element : bytes) (h : HllData) : HllData * bool :=
  let idx := register_of element in
  let rho := rho_of element in
  if reg h idx <? rho then (mkHll (<[idx := z2b rho]> (registers h)), true) else (h, false).

(** The elements in turn, and whether a register has changed. *)
Fixpoint add_all (elements : list bytes) (h : HllData) : HllData * bool :=
  match elements with
  | [] => (h, false)
  | e :: elements =>
      let '(h, changed) := hll_add e h in
      let '(h, changed') := add_all elements h in (h, changed || changed')
  end.

Definition hll_merge (h other : HllData) : HllData :=
  mkHll (zip_with (λ a b, if b2z a <? b2z b then b else a) (registers h) (registers other)).

(** [x.round() as u64]: half away from zero, saturating; NaN is 0. *)
Definition round_u64 (x : f64) : Z :=
  match x with
  | S754_finite false m e =>
      Z.min (u64_mod - 1) (if 0 <=? e then Zpos m * 2 ^ e else (Zpos m + 2 ^ (- e - 1)) / 2 ^ (- e))
  | S754_infinity false => (u64_mod - 1)
  | _ => 0
  end.

Section Count.
Context (ln : f64 → f64).

Definition hll_count (h : HllData) : Z :=
  let sum := foldl (λ s r, f64_add s (f64_div (f64_of_Z 1) (f64_of_Z (2 ^ (b2z r mod 64))))) (S754_zero false) (registers h) in
  let zeros := Z.of_nat (length (filter (λ r, r = x00) (registers h))) in
  let m := f64_of_Z 16384 in
  let alpha := f64_div (f64_of_decimal false 7213 (-4))
                 (f64_add (f64_of_Z 1) (f64_div (f64_of_decimal false 1079 (-3)) m)) in
  let raw := f64_div (f64_mul (f64_mul alpha m) m) sum in
  let estimate :=
    if f64_le raw (f64_mul (f64_of_decimal false 25 (-1)) m) && (0 <? zeros)
    then f64_mul m (ln (f64_div m (f64_of_Z zeros))) else raw in
  round_u64 estimate.
End Count.

Definition HEADER : bytes := [x48; x4c; x4c; x01].
Definition encode_hll (h : HllData) : bytes := HEADER ++ registers h.

(** Anything without the header and all the registers is an empty sketch. *)
Definition decode_hll (s : bytes) : HllData :=
  if (4 + HLL_REGISTERS <=? length s)%nat && bool_decide (take 4 s = HEADER)
  then mkHll (take HLL_REGISTERS (drop 4 s)) else HllData_new.

Section HllOps.
Context {M : Type} `{KVMap StoreValue M} (c : Clock) (ln : f64 → f64).
Implicit Types (st : Store M) (key : bytes) (keys : list bytes).

Definition pfadd key (elements : list bytes) st : Store M * result bool :=
  let '(fresh, changed) := add_all elements HllData_new in
  update_or_insert key (λ val,
    if is_expired c val then (mkValue (VString (encode_hll fresh)) 0, Ok changed)
    else
      match as_string (value val) with
      | Some s =>
          let '(h, changed) := add_all elements (decode_hll s) in
          (if changed then mkValue (VString (encode_hll h)) (expires_ms val) else val, Ok changed)
      | None => (val, Err WRONGTYPE)
      end) (StoreValue_string (encode_hll fresh)) (Ok changed) st.

(** The sketches of the keys merged into [merged]. *)
Fixpoint merge_keys keys (merged : HllData) st : result HllData :=
  match keys with
  | [] => Ok merged
  | k :: keys =>
      match read_live c k (Ok merged)
              (λ v, match as_string v with Some s => Ok (hll_merge merged (decode_hll s)) | None => Err WRONGTYPE end) st with
      | Ok merged => merge_keys keys merged st
      | Err e => Err e
      end
  end.

Definition pfcount keys st : result Z :=
  match keys with
  | [key] =>
      read_live c key (Ok 0)
        (λ v, match as_string v with Some s => Ok (hll_count ln (decode_hll s)) | None => Err WRONGTYPE end) st
  | _ => match merge_keys keys HllData_new st with Ok h => Ok (hll_count ln h) | Err e => Err e end
  end.

Definition pfmerge (dest : bytes) (sources : list bytes) st : Store M * result unit :=
  match merge_keys sources HllData_new st with
  | Ok h => (put dest (StoreValue_string (encode_hll h)) st, Ok tt)
  | Err e => (st, Err e)
  end.
End HllOps.

(** Five elements, counted with a logarithm that is right to one unit in the last place
    at the one argument used. *)
Example count_five :
  hll_count (λ _, default S754_nan (parse_f64 (B "0.00030522238016")))
    (add_all [B "a"; B "b"; B "c"; B "d"; B "e"; B "a"] HllData_new).1 = 5.
Proof. vm_compute. reflexivity. Qed.
