(* ===== verification/Geo.v ===== *)
(** Geographic sets: storage/geo.rs.

    A position is a sorted-set score whose bits are 26 bits of longitude and 26 of
    latitude, interleaved.  The trigonometric functions, whose last digit Rust leaves
    to the platform, are a [Libm]; so is what [sort_by] makes of distances that are
    not numbers. *)

From Stdlib Require Import Strings.Byte Floats.SpecFloat.
From S2P Require Import Prelude MapIface Resp Float FloatBits Collections ZSet Value Store ZSetOps Hll.
Local Open Scope Z_scope.

Inductive GeoUnit := Meters | Kilometers | Feet | Miles.
Inductive GeoCenter := LonLat (lon lat : f64) | Member (m : bytes).
Inductive GeoShape := Radius (r : f64) (unit : GeoUnit) | Box (w h : f64) (unit : GeoUnit).

Record GeoResult := mkGeo { g_member : bytes; dist : f64; lon : f64; lat : f64; hash : Z }.

Record Libm := mkLibm {
  sin : f64 → f64;
  cos : f64 → f64;
  asin : f64 → f64;
  (** [sort_by], ascending or not, on keys of which one is NaN: an order of the indices,
      or a panic. *)
  sort_nan : bool → list f64 → option (list nat);
}.

(** ** Numbers *)

Definition dec_f64 (n e : Z) : f64 := f64_of_decimal false n e.
Definition f64_neg (x : f64) : f64 := SFopp x.
Definition f64_sqrt (x : f64) : f64 := SFsqrt 53 1024 x.
(** [x.powi(2)] *)
Definition square (x : f64) : f64 := f64_mul x x.
Definition PI : f64 := from_bits 0x400921FB54442D18.
Definition MAX_LAT : f64 := dec_f64 8505112878 (-8).
Definition MAX_LON : f64 := f64_of_Z 180.

Definition to_meters (u : GeoUnit) (v : f64) : f64 :=
  match u with
  | Meters => v
  | Kilometers => f64_mul v (f64_of_Z 1000)
  | Feet => f64_mul v (dec_f64 3048 (-4))
  | Miles => f64_mul v (dec_f64 1609344 (-3))
  end.

Definition from_meters (u : GeoUnit) (m : f64) : f64 :=
  match u with
  | Meters => m
  | Kilometers => f64_div m (f64_of_Z 1000)
  | Feet => f64_div m (dec_f64 3048 (-4))
  | Miles => f64_div m (dec_f64 1609344 (-3))
  end.

(** ** The codec *)

(** The cell of a position: the ranges of longitude and latitude. *)
Definition Cell : Type := (f64 * f64) * (f64 * f64).
Definition WORLD : Cell := ((f64_neg MAX_LON, MAX_LON), (f64_neg MAX_LAT, MAX_LAT)).

Definition mid (r : f64 * f64) : f64 := f64_div (f64_add r.1 r.2) (f64_of_Z 2).
(** The upper half of a range, or the lower. *)
Definition half (r : f64 * f64) (upper : bool) : f64 * f64 := if upper then (mid r, r.2) else (r.1, mid r).
(** Step [i] halves the longitude when it is even. *)
Definition halve (i : Z) (cell : Cell) (upper : bool) : Cell :=
  if i mod 2 =? 0 then (half cell.1 upper, cell.2) else (cell.1, half cell.2 upper).

Definition encode_step (lo la : f64) (acc : Cell * Z) (i : Z) : Cell * Z :=
  let '(cell, bits) := acc in
  let upper := if i mod 2 =? 0 then f64_le (mid cell.1) lo else f64_le (mid cell.2) la in
  (halve i cell upper, if upper then Z.lor bits (Z.shiftl 1 (51 - i)) else bits).

Definition geohash_encode (lo la : f64) : Z := (foldl (encode_step lo la) (WORLD, 0) (seqZ 0 52)).2.

Definition decode_step (bits : Z) (cell : Cell) (i : Z) : Cell :=
  halve i cell (Z.land (Z.shiftr bits (51 - i)) 1 =? 1).

Definition decode_cell (bits : Z) : Cell := foldl (decode_step bits) WORLD (seqZ 0 52).
Definition geohash_decode (bits : Z) : f64 * f64 := let cell := decode_cell bits in (mid cell.1, mid cell.2).

Definition ALPHABET : bytes := B "0123456789bcdefghjkmnpqrstuvwxyz".

Fixpoint geohash_chars (n : nat) (h : Z) : bytes :=
  match n with
  | O => []
  | S n => default x00 (ALPHABET !! Z.to_nat (Z.land (Z.shiftr h 47) 0x1F)) :: geohash_chars n (wrap64 (Z.shiftl h 5))
  end.
Definition encode_geohash_string (bits : Z) : bytes := geohash_chars 11 bits.

Section Geo.
Context (libm : Libm).

Definition radians (x : f64) : f64 := f64_div (f64_mul x PI) (f64_of_Z 180).

Definition haversine (lat1 lon1 lat2 lon2 : f64) : f64 :=
  let lat1_r := radians lat1 in
  let lat2_r := radians lat2 in
  let dlat := radians (f64_sub lat2 lat1) in
  let dlon := radians (f64_sub lon2 lon1) in
  let two := f64_of_Z 2 in
  let a := f64_add (square (sin libm (f64_div dlat two)))
             (f64_mul (f64_mul (cos libm lat1_r) (cos libm lat2_r)) (square (sin libm (f64_div dlon two)))) in
  f64_mul (dec_f64 6372797560856 (-6)) (f64_mul two (asin libm (f64_sqrt a))).

(** The result of an entry of the set. *)
Definition geo_result (center : f64 * f64) (e : ZEntry) : GeoResult :=
  let '(lo, la) := geohash_decode (to_bits (score e)) in
  mkGeo (member e) (haversine center.2 center.1 la lo) lo la (to_bits (score e)).

Definition in_range (center : f64 * f64) (shape : GeoShape) (r : GeoResult) : bool :=
  match shape with
  | Radius x u => f64_le (dist r) (to_meters u x)
  | Box w h u =>
      f64_le (haversine center.2 center.1 center.2 (lon r)) (f64_div (to_meters u w) (f64_of_Z 2)) &&
      f64_le (haversine center.2 center.1 (lat r) center.1) (f64_div (to_meters u h) (f64_of_Z 2))
  end.

Fixpoint insert_result (le : f64 → f64 → bool) (x : GeoResult) (l : list GeoResult) : list GeoResult :=
  match l with
  | [] => [x]
  | y :: l' => if le (dist x) (dist y) then x :: l else y :: insert_result le x l'
  end.

(** [results.sort_by(..)], a stable sort; [None] is a panic. *)
Definition sort_results (asc : bool) (l : list GeoResult) : option (list GeoResult) :=
  if existsb (λ r, is_nan (dist r)) l
  then (λ order : list nat, omap (λ i, l !! i) order) <$> sort_nan libm asc (dist <$> l)
  else Some (foldr (insert_result (λ a b, if asc then f64_le a b else f64_le b a)) [] l).

Section Operations.
Context {M : Type} `{KVMap StoreValue M} (c : Clock).
Implicit Types (st : Store M) (key : bytes).

Definition no_flags (nx xx ch : bool) : ZAddFlags := mkFlags nx xx false false ch.

Definition geoadd key (items : list (f64 * f64 * bytes)) (nx xx ch : bool) st : Store M * result Z :=
  zadd c key ((λ '(lo, la, m), (from_bits (geohash_encode lo la), m)) <$> items) (no_flags nx xx ch) st.

(** The scores of members. *)
Definition positions {A} key (members : list bytes) (f : f64 → A) st : result (list (option A)) :=
  zset_read c key (replicate (length members) None) (λ z, (λ m, f <$> get_score z m) <$> members) st.

Definition geopos key members st : result (list (option (f64 * f64))) :=
  positions key members (λ s, geohash_decode (to_bits s)) st.

Definition geohash key members st : result (list (option bytes)) :=
  positions key members (λ s, encode_geohash_string (to_bits s)) st.

Definition geodist key (m1 m2 : bytes) (u : GeoUnit) st : result (option f64) :=
  zset_read c key None (λ z,
    s1 ← get_score z m1; s2 ← get_score z m2;
    let '(lon1, lat1) := geohash_decode (to_bits s1) in
    let '(lon2, lat2) := geohash_decode (to_bits s2) in
    Some (from_meters u (haversine lat1 lon1 lat2 lon2))) st.

(** The position of the centre; [None] when the member is not there. *)
Definition center_of key (center : GeoCenter) st : result (option (f64 * f64)) :=
  match center with
  | LonLat lo la => Ok (Some (lo, la))
  | Member m => match geopos key [m] st with Ok l => Ok (mjoin (head l)) | Err e => Err e end
  end.

Definition geosearch key center shape (asc : bool) (count : Z) st : option (result (list GeoResult)) :=
  match center_of key center st with
  | Err e => Some (Err e)
  | Ok None => Some (Ok [])
  | Ok (Some pos) =>
      match zset_read c key [] (λ z, filter (λ r, in_range pos shape r = true) (geo_result pos <$> entries z)) st with
      | Err e => Some (Err e)
      | Ok results =>
          results ← sort_results asc results;
          Some (Ok (if (0 <? count) && (count <? Z.of_nat (length results)) then take (Z.to_nat count) results else results))
      end
  end.

Definition geosearchstore (dst src : bytes) center shape (asc : bool) (count : Z) (storedist : bool) st
    : Store M * option (result Z) :=
  match geosearch src center shape asc count st with
  | None => (st, None)
  | Some (Err e) => (st, Some (Err e))
  | Some (Ok results) =>
      let z := foldl (λ z r, (zset_insert z (if storedist then dist r else from_bits (hash r)) (g_member r)).1) ZSetData_new results in
      (put dst (StoreValue_zset z) st, Some (Ok (Z.of_nat (zset_len z))))
  end.
End Operations.
End Geo.

Example geohash_examples :
  encode_geohash_string (geohash_encode (dec_f64 13361389 (-6)) (dec_f64 38115556 (-6))) = B "sr1t2n3rnbh" ∧
  geohash_encode (f64_neg MAX_LON) (f64_neg MAX_LAT) = 0 ∧ geohash_encode MAX_LON MAX_LAT = 2 ^ 52 - 1.
Proof. vm_compute. split_and!; reflexivity. Qed.
