(* ===== verification/CmdServer.v ===== *)
(** The connection, server, cursor and transaction commands:
    commends/connection.rs, scan.rs, transaction.rs and RANDOMKEY of keys.rs.

    What the operating system supplies is an [Env]: the time in microseconds,
    an address on the stack, the text of INFO, the outcome of writing a
    snapshot, whether a background save is running, and the mathematical functions
    of the platform.  The thread of BGSAVE
    is not modelled. *)

From S2P Require Import Prelude Decimal MapIface Resp Float CustomMap Collections ZSet Value Store Scan Geo Handler Reply.
Local Open Scope Z_scope.

Record Env := mkEnv {
  unix_micros : Z;
  stack_entropy : Z;
  info_text : bytes;
  save_failure : option bytes;
  bgsave_in_progress : bool;
  (** [sort_by] with an order that is not total: some order, or a panic. *)
  partial_sort : list bytes → option (list bytes);
  (** draws allowed to ZRANDMEMBER *)
  draw_fuel : nat;
  (** the mathematical functions of the platform *)
  libm_ln : f64 → f64;
  libm : Libm;
}.

Section CmdServer.
Context {M : Type} `{KVMap StoreValue M} `{HashOrder} (c : Clock) (env : Env).
Implicit Types (parts : list bytes) (st : Store M).

Definition ping parts : Handler M unit :=
  match parts with
  | [_] => write (λ out, out ++ PONG)
  | [_; msg] => put_bulk msg
  | _ => wrong_args (B "ping")
  end.

Definition echo parts : Handler M unit :=
  match parts with
  | [_; msg] => put_bulk msg
  | _ => wrong_args (B "echo")
  end.

Definition info : Handler M unit := put_bulk (info_text env).

Definition flush : Handler M unit := _ ← act Store.flush; write write_ok.
Definition flushall := flush.
Definition flushdb := flush.

Definition dbsize : Handler M unit := n ← look Store.dbsize; put_integer (as_i64 n).

Definition type_of parts : Handler M unit :=
  match parts with
  | [_; key] => t ← look (Store.type_of c key); write (λ out, write_simple out t)
  | _ => wrong_args (B "type")
  end.

Definition bgsave : Handler M unit :=
  if bgsave_in_progress env then error (B "Background save already in progress")
  else write (λ out, write_simple out (B "Background saving started")).

Definition save : Handler M unit :=
  match save_failure env with
  | None => write write_ok
  | Some e => write (λ out, write_err out (B "save failed: " ++ e))
  end.

Definition time : Handler M unit :=
  let secs := u64_to_string (unix_micros env / 1000000) in
  let micros := u64_to_string (unix_micros env mod 1000000) in
  write (λ out, write_bulk (write_bulk (write_array_header out 2) secs) micros).

Definition lastsave : Handler M unit := put_integer (as_i64 (unix_micros env / 1000000)).

Definition command_cmd parts : Handler M unit :=
  match parts with
  | [_] => put_header 0
  | [_; sub] => if eq_ignore_case sub (B "COUNT") then put_integer 120 else put_header 0
  | _ => put_header 0
  end.

Definition quit : Handler M unit := write write_ok.

(** [p.parse::<u32>()] *)
Definition parse_u32 (s : bytes) : option Z := n ← parse_u64 s; if n <? 2 ^ 32 then Some n else None.

Definition hello_resp2 (out : bytes) : bytes :=
  let out := write_array_header out 14 in
  let out := write_bulk (write_bulk out (B "server")) (B "fyrodb") in
  let out := write_bulk (write_bulk out (B "version")) (B "0.1.0") in
  let out := write_integer (write_bulk out (B "proto")) 2 in
  let out := write_integer (write_bulk out (B "id")) 1 in
  let out := write_bulk (write_bulk out (B "mode")) (B "standalone") in
  let out := write_bulk (write_bulk out (B "role")) (B "master") in
  let out := write_bulk out (B "modules") in
  write_array_header out 0.

Definition hello parts : Handler M unit :=
  let proto := default 2 (parts !! 1%nat ≫= parse_u32) in
  if proto =? 3 then write write_hello_resp3 else write hello_resp2.

Definition select parts : Handler M unit :=
  match parts with
  | [_; idx] =>
      match parse_u32 idx with
      | Some n => if n =? 0 then write write_ok else error (B "FyroDB only supports DB 0")
      | None => error (B "value is not an integer or out of range")
      end
  | _ => wrong_args (B "select")
  end.

Definition auth : Handler M unit := write write_ok.
Definition reset : Handler M unit := write (λ out, write_simple out (B "RESET")).

Definition client_line : bytes := B "id=1 fd=0 name= db=0 cmd=client" ++ CRLF.

Definition client_cmd parts : Handler M unit :=
  match parts with
  | [_; sub] =>
      if eq_ignore_case sub (B "ID") then put_integer 1
      else if eq_ignore_case sub (B "GETNAME") then write write_nil
      else if eq_ignore_case sub (B "SETNAME") then write write_ok
      else if eq_ignore_case sub (B "LIST") then put_bulk client_line
      else if eq_ignore_case sub (B "INFO") then put_bulk client_line
      else write write_ok
  | _ => write write_ok
  end.

Definition config_cmd parts : Handler M unit :=
  match parts with
  | _ :: sub :: _ => if eq_ignore_case sub (B "GET") then put_header 0 else write write_ok
  | _ => write write_ok
  end.

Definition slowlog_cmd parts : Handler M unit :=
  match parts with
  | [_; sub] =>
      if eq_ignore_case sub (B "LEN") then put_integer 0
      else if eq_ignore_case sub (B "RESET") then write write_ok
      else if eq_ignore_case sub (B "GET") then put_header 0
      else write write_ok
  | _ :: sub :: _ => if eq_ignore_case sub (B "GET") then put_header 0 else write write_ok
  | _ => write write_ok
  end.

Definition acl_cmd parts : Handler M unit :=
  match parts with
  | [_; sub] =>
      if eq_ignore_case sub (B "WHOAMI") then put_bulk (B "default")
      else if eq_ignore_case sub (B "LIST") then
        write (λ out, write_bulk (write_array_header out 1) (B "user default on ~* &* +@all"))
      else write write_ok
  | _ => write write_ok
  end.

Definition encoding (v : FyroDB) : bytes :=
  match v with
  | VString s => match parse_i64 s with Some _ => B "int" | None => B "embstr" end
  | VHash h => if (hash_len h <=? 128)%nat then B "listpack" else B "hashtable"
  | VList l => if (list_len l <=? 128)%nat then B "listpack" else B "quicklist"
  | VSet s => if (set_len s <=? 128)%nat then B "listpack" else B "hashtable"
  | VZSet z => if (zset_len z <=? 128)%nat then B "listpack" else B "skiplist"
  | VJson _ => B "raw"
  | VStream _ => B "stream"
  end.

Definition object_cmd parts : Handler M unit :=
  match parts with
  | [_; sub; key] =>
      if eq_ignore_case sub (B "ENCODING") then
        e ← look (λ st, kv_get_ref (data st) key);
        match e with
        | None => write (λ out, write_err out (B "no such key"))
        | Some e =>
            if is_expired c e then write (λ out, write_err out (B "no such key"))
            else put_bulk (encoding (value e))
        end
      else if eq_ignore_case sub (B "REFCOUNT") then put_integer 1
      else if eq_ignore_case sub (B "IDLETIME") then put_integer 0
      else if eq_ignore_case sub (B "FREQ") then put_integer 0
      else wrong_args (B "object")
  | [_; sub] => if eq_ignore_case sub (B "HELP") then put_header 0 else wrong_args (B "object")
  | _ => wrong_args (B "object")
  end.

(** ** SORT *)

Record SortOptions := mkSort {
  sort_alpha : bool; sort_desc : bool; sort_offset : Z; sort_count : Z; sort_dst : option bytes }.

Definition set_alpha (o : SortOptions) := mkSort true (sort_desc o) (sort_offset o) (sort_count o) (sort_dst o).
Definition set_desc (d : bool) (o : SortOptions) := mkSort (sort_alpha o) d (sort_offset o) (sort_count o) (sort_dst o).
Definition set_limit (a n : Z) (o : SortOptions) := mkSort (sort_alpha o) (sort_desc o) a n (sort_dst o).
Definition set_dst (d : bytes) (o : SortOptions) := mkSort (sort_alpha o) (sort_desc o) (sort_offset o) (sort_count o) (Some d).

(** BY and GET take a word and are ignored, like any unknown word. *)
Fixpoint sort_options (rest : list bytes) (o : SortOptions) : Handler M SortOptions :=
  match rest with
  | [] => mret o
  | opt :: rest' =>
      if eq_ignore_case opt (B "ALPHA") then sort_options rest' (set_alpha o)
      else if eq_ignore_case opt (B "DESC") then sort_options rest' (set_desc true o)
      else if eq_ignore_case opt (B "ASC") then sort_options rest' (set_desc false o)
      else if eq_ignore_case opt (B "LIMIT") then
        match rest' with
        | a :: b :: rest'' => a ← parse_uint a; n ← parse_uint b; sort_options rest'' (set_limit a n o)
        | _ => syntax_error
        end
      else if eq_ignore_case opt (B "STORE") then
        match rest' with
        | [] => syntax_error
        | d :: rest'' => sort_options rest'' (set_dst d o)
        end
      else if eq_ignore_case opt (B "BY") || eq_ignore_case opt (B "GET") then
        match rest' with
        | [] => mret o
        | _ :: rest'' => sort_options rest'' o
        end
      else sort_options rest' o
  end.

(** A stable sort by a total preorder. *)
Fixpoint insert_by (le : bytes → bytes → bool) (x : bytes) (l : list bytes) : list bytes :=
  match l with
  | [] => [x]
  | y :: l' => if le x y then x :: l else y :: insert_by le x l'
  end.
Definition stable_sort (le : bytes → bytes → bool) (l : list bytes) : list bytes := foldr (insert_by le) [] l.

Definition sort_key (s : bytes) : f64 := default (f64_of_Z 0) (parse_f64 s).

(** [None] is a panic of [sort_by]; without a NaN among the keys the order is total. *)
Definition sort_items (alpha : bool) (items : list bytes) : option (list bytes) :=
  if alpha then Some (stable_sort str_le items)
  else if existsb (λ s, is_nan (sort_key s)) items then partial_sort env items
  else Some (stable_sort (λ a b, f64_le (sort_key a) (sort_key b)) items).

(** The items of a list, a set or a sorted set; [None] for another type. *)
Definition sort_source (v : FyroDB) : option (list bytes) :=
  match v with
  | VList l => Some (deque l)
  | VSet s => Some (set_strings s)
  | VZSet z => Some (member <$> entries z)
  | _ => None
  end.

Definition sort_cmd parts : Handler M unit :=
  match parts with
  | _ :: key :: rest =>
      o ← sort_options rest (mkSort false false 0 0 None);
      items ← look (read_live c key (Some []) sort_source);
      match items with
      | None => error (B "WRONGTYPE")
      | Some items =>
          items ← unwrap (sort_items (sort_alpha o) items);
          let items := if sort_desc o then rev items else items in
          let items := if 0 <? sort_count o
            then take (Z.to_nat (sort_count o)) (drop (Z.to_nat (sort_offset o)) items) else items in
          match sort_dst o with
          | Some dst => _ ← act (put dst (StoreValue_list items)); put_integer (len_i64 items)
          | None => put_array items
          end
      end
  | _ => wrong_args (B "sort")
  end.

(** ** transaction.rs *)

Definition multi : Handler M unit := write write_ok.
Definition discard : Handler M unit := write write_ok.
Definition exec_empty : Handler M unit := put_header 0.
Definition watch : Handler M unit := write write_ok.
Definition unwatch : Handler M unit := write write_ok.

(** [exec] with [execute] as an argument: the replies of the queue, in order. *)
Definition exec (execute : list bytes → Handler M unit) (queue : list (list bytes)) : Handler M unit :=
  _ ← put_header (Z.of_nat (length queue));
  foldr (λ parts k, _ ← execute parts; k) (mret tt) queue.
End CmdServer.

(** ** Commands that read the slots of the map *)

Section CmdScan.
Context (c : Clock) (env : Env).
Implicit Types parts : list bytes.

Definition randomkey : Handler (CustomMap StoreValue) unit :=
  k ← look (Scan.randomkey c (stack_entropy env)); put_opt_bulk k.

Definition OUT_OF_RANGE : bytes := B "value is not an integer or out of range".

Fixpoint scan_options (rest : list bytes) (pattern : option bytes) (count : Z)
    : Handler (CustomMap StoreValue) (option bytes * Z) :=
  match rest with
  | [] => mret (pattern, count)
  | opt :: rest' =>
      if eq_ignore_case opt (B "MATCH") then
        match rest' with
        | [] => syntax_error
        | p :: rest'' => scan_options rest'' (Some p) count
        end
      else if eq_ignore_case opt (B "COUNT") then
        match rest' with
        | [] => syntax_error
        | s :: rest'' =>
            match parse_u64 s with
            | Some n => if 0 <? n then scan_options rest'' pattern n else error OUT_OF_RANGE
            | None => error OUT_OF_RANGE
            end
        end
      else syntax_error
  end.

Definition scan parts : Handler (CustomMap StoreValue) unit :=
  match parts with
  | _ :: cursor_str :: rest =>
      match parse_u64 cursor_str with
      | None => error OUT_OF_RANGE
      | Some cursor =>
          '(pattern, count) ← scan_options rest None 10;
          r ← look (Scan.scan c pattern (Z.to_nat count) cursor);
          '(next_cursor, keys) ← unwrap r;
          write (λ out, write_array (write_bulk (out ++ B "*2" ++ CRLF) (u64_to_string next_cursor)) keys)
      end
  | _ => wrong_args (B "scan")
  end.
End CmdScan.
