(* ===== verification/HandlerSpec.v ===== *)
(** A small program logic for the handlers.

    [answers] says that a handler appends exactly one well-formed reply to the
    output, whatever the store; [asks] that a step either goes on without
    writing, or answers and returns.  Both say whether the handler may panic,
    and [answers] whether it may end without a reply. *)

From S2P Require Import Prelude MapIface CustomMap CustomMapSpec Decimal Resp Collections Float ZSet.
From S2P Require Import Value Store Lcs ListOps HashOps SetOps ZSetOps Reply Handler.
Local Open Scope Z_scope.

Section Logic.
Context {M : Type}.

Definition answered (silent : bool) (out out' : bytes) : Prop :=
  replied out out' ∨ (silent = true ∧ out' = out).

Definition answers {A} (panics silent : bool) (h : Handler M A) : Prop :=
  ∀ st out, match h st out with
            | Panic => panics = true
            | Return _ out' | Next _ out' _ => answered silent out out'
            end.

Definition asks {A} (panics : bool) (h : Handler M A) (Q : A → Prop) : Prop :=
  ∀ st out, match h st out with
            | Panic => panics = true
            | Return _ out' => replied out out'
            | Next _ out' a => out' = out ∧ Q a
            end.

(** ** Rules *)

Lemma answers_bind {A B} p s (h : Handler M A) (k : A → Handler M B) Q :
  asks p h Q → (∀ a, Q a → answers p s (k a)) → answers p s (h ≫= k).
Proof.
  intros Hh Hk st out. specialize (Hh st out). unfold mbind, handler_bind.
  destruct (h st out) as [|st' out'|st' out' a]; [done|by left|].
  destruct Hh as [-> Ha]. exact (Hk a Ha st' out).
Qed.

Lemma asks_bind {A B} p (h : Handler M A) (k : A → Handler M B) Q R :
  asks p h Q → (∀ a, Q a → asks p (k a) R) → asks p (h ≫= k) R.
Proof.
  intros Hh Hk st out. specialize (Hh st out). unfold mbind, handler_bind.
  destruct (h st out) as [|st' out'|st' out' a]; [done|done|].
  destruct Hh as [-> Ha]. exact (Hk a Ha st' out).
Qed.

Lemma answers_write p s w : (∀ out, replied out (w out)) → answers p s (write w).
Proof. intros Hw st out. left. apply Hw. Qed.
Lemma answers_reply {A} p s w : (∀ out, replied out (w out)) → answers p s (reply w : Handler M A).
Proof. intros Hw st out. left. apply Hw. Qed.
Lemma asks_reply {A} p w Q : (∀ out, replied out (w out)) → asks p (reply w : Handler M A) Q.
Proof. intros Hw st out. apply Hw. Qed.
Lemma asks_ret {A} p (a : A) (Q : A → Prop) : Q a → asks p (mret a : Handler M A) Q.
Proof. by intros Hq st out. Qed.
Lemma asks_look {R} p (f : Store M → R) (Q : R → Prop) : (∀ st, Q (f st)) → asks p (look f) Q.
Proof. intros Hq st out. by split. Qed.
Lemma asks_call {R} p (f : Store M → Store M * R) (Q : R → Prop) : (∀ st, Q (f st).2) → asks p (call f) Q.
Proof. intros Hq st out. unfold call. specialize (Hq st). by destruct (f st). Qed.
Lemma asks_act p (f : Store M → Store M) : asks p (act f) (λ _, True).
Proof. by intros st out. Qed.
Lemma asks_unwrap {A} (o : option A) : asks true (unwrap o : Handler M A) (λ _, True).
Proof. intros st out. by destruct o. Qed.

(** ** The macros *)

Lemma asks_parse_int_with p parse s : asks p (parse_int_with parse s : Handler M Z) (λ _, True).
Proof. unfold parse_int_with. case_match; [by apply asks_ret|]. apply asks_reply. auto with reply. Qed.
Lemma asks_parse_float p s : asks p (parse_float s : Handler M f64) (λ _, True).
Proof. unfold parse_float. case_match; [by apply asks_ret|]. apply asks_reply. auto with reply. Qed.
Lemma asks_wt {A} p (r : result A) : asks p (wt r : Handler M A) (λ _, True).
Proof. destruct r; [by apply asks_ret|]. apply asks_reply. auto with reply. Qed.

(** An error that is a line. *)
Definition plain_err {A} (r : result A) : Prop := match r with Ok _ => True | Err e => plain e end.

Lemma asks_store_ok {A} p (r : result A) : plain_err r → asks p (store_ok r : Handler M A) (λ _, True).
Proof. destruct r; intros He; [by apply asks_ret|]. apply asks_reply. auto with reply. Qed.
Lemma asks_store_err {A} p (r : result A) : plain_err r → asks p (store_err r : Handler M A) (λ _, True).
Proof. destruct r; intros He; [by apply asks_ret|]. apply asks_reply. auto with reply. Qed.

Lemma answers_wrong_args {A} p s cmd : plain cmd → answers p s (wrong_args cmd : Handler M A).
Proof. intros. apply answers_reply. auto with reply. Qed.
Lemma asks_wrong_args {A} p cmd Q : plain cmd → asks p (wrong_args cmd : Handler M A) Q.
Proof. intros. apply asks_reply. auto with reply. Qed.
Lemma answers_error {A} p s e : plain e → answers p s (error e : Handler M A).
Proof. intros. apply answers_reply. auto with reply. Qed.
Lemma asks_error {A} p e Q : plain e → asks p (error e : Handler M A) Q.
Proof. intros. apply asks_reply. auto with reply. Qed.

Lemma answers_weaken {A} p p' s s' (h : Handler M A) :
  answers p s h → (p = true → p' = true) → (s = true → s' = true) → answers p' s' h.
Proof.
  intros Hh Hp Hs st out. specialize (Hh st out). unfold answered in *.
  destruct (h st out); naive_solver.
Qed.
End Logic.

Create HintDb handler.
(** The operations whose errors are lines. *)
Create HintDb plain_err.
#[export] Hint Resolve asks_ret asks_act asks_unwrap asks_parse_int_with asks_parse_float asks_wt
  asks_store_ok asks_store_err asks_wrong_args asks_error answers_wrong_args answers_error : handler.
#[export] Hint Extern 1 (plain _) => apply plainb_plain; vm_compute; reflexivity : handler.

(** A sequence: an operation whose errors are lines hands that on. *)
Ltac bind_any := first [apply (answers_bind _ _ _ _ (λ _, True)) | apply (asks_bind _ _ _ (λ _, True))].
Ltac bind_plain := first [apply (answers_bind _ _ _ _ plain_err) | apply (asks_bind _ _ _ plain_err)].
Ltac bind_step h :=
  lazymatch h with
  | look _ =>
      first [bind_plain; [apply asks_look; intro; solve [eauto with plain_err]|]
            |bind_any; [by apply asks_look|]]
  | call _ =>
      first [bind_plain; [apply asks_call; intro; solve [eauto with plain_err]|]
            |bind_any; [by apply asks_call|]]
  | _ => bind_any
  end.

(** One step: a rule for the head of the goal, or a case split on its match. *)
Ltac answer_step :=
  lazymatch goal with
  | |- True → _ => intros _
  | |- ∀ _, _ => intro
  | |- answers _ _ (mbind _ ?h) => bind_step h
  | |- asks _ (mbind _ ?h) _ => bind_step h
  | |- answers _ _ (match ?x with _ => _ end) => destruct x
  | |- asks _ (match ?x with _ => _ end) _ => destruct x
  | |- answers _ _ (write _) => apply answers_write; intro
  | |- answers _ _ (reply _) => apply answers_reply; intro
  | |- answers _ _ (put_integer _) => apply answers_write; intro
  | |- answers _ _ (put_boolean _) => apply answers_write; intro
  | |- answers _ _ (put_bulk _) => apply answers_write; intro
  | |- answers _ _ (put_opt_bulk _) => apply answers_write; intro
  | |- answers _ _ (put_array _) => apply answers_write; intro
  | |- answers _ _ (put_header 0) => apply answers_write; intro
  | |- answers _ _ syntax_error => apply answers_error
  | |- asks _ syntax_error _ => apply asks_error
  | |- asks _ (parse_int _) _ => apply asks_parse_int_with
  | |- asks _ (parse_uint _) _ => apply asks_parse_int_with
  | |- asks _ (mret _) _ => by apply asks_ret
  | |- replied _ _ => solve [eauto with reply]
  | |- True => exact I
  | _ => solve [eauto with handler]
  end.
Ltac answer := repeat answer_step.


(** What a closure of the map returns comes from a value, in any state of the map. *)
Class KVReturns (V M : Type) `{KVMap V M} := {
  kv_update_with_returns R k (f : V → V * R) m r : (kv_update_with k f m).2 = Some r → ∃ v, r = (f v).2;
  kv_with_entry_returns R k (f : V → R) m r : kv_with_entry m k f = Some r → ∃ v, r = f v;
}.

#[export] Instance custom_returns {V} (hash_one : bytes → Z) : KVReturns V (CustomMap V) (H := custom_kv hash_one).
Proof.
  split; intros R k f m r; simpl.
  - unfold CustomMap.update_with. intros Hr. repeat (case_match; simplify_eq/=); try done.
    eexists. by erewrite H2.
  - unfold with_entry. intros ([[[? ?] ?] e] & _ & Hr)%bind_Some. case_match; [|done].
    apply fmap_Some in Hr as (v & _ & ->). eauto.
Qed.

Ltac plain_msg := first [exact I | apply plainb_plain; vm_compute; reflexivity].

Section Lines.
Context {M : Type} `{KVReturns StoreValue M} `{HashOrder} (c : Clock).
Implicit Types (st : Store M).

Lemma update_with_plain {R} key (f : StoreValue → StoreValue * result R) st :
  (∀ v, plain_err (f v).2) → ∀ r, (update_with key f st).2 = Some r → plain_err r.
Proof.
  unfold update_with. intros Hf r. destruct (kv_update_with key f (data st)) as [m o] eqn:Eu. simpl. intros ->.
  destruct (kv_update_with_returns _ key f (data st) r) as [v ->]; [by rewrite Eu|done].
Qed.

Lemma update_or_plain {R} key (f : StoreValue → StoreValue * result R) r0 st :
  (∀ v, plain_err (f v).2) → plain_err r0 → plain_err (update_or key f r0 st).2.
Proof.
  intros Hf Hr0. unfold update_or. pose proof (update_with_plain key f st Hf) as Hr.
  destruct (update_with key f st) as [st' [r|]]; simpl; [by apply Hr|done].
Qed.

Lemma update_or_insert_plain {R} key (f : StoreValue → StoreValue * result R) fresh r0 st :
  (∀ v, plain_err (f v).2) → plain_err r0 → plain_err (update_or_insert key f fresh r0 st).2.
Proof.
  intros Hf Hr0. unfold update_or_insert. pose proof (update_with_plain key f st Hf) as Hr.
  destruct (update_with key f st) as [st' [r|]]; simpl; [by apply Hr|done].
Qed.

Lemma read_live_plain {R} key r0 (f : FyroDB → result R) st :
  plain_err r0 → (∀ v, plain_err (f v)) → plain_err (read_live c key r0 f st).
Proof. intros. unfold read_live. by repeat case_match. Qed.

(** Split a closure into its branches: each error is a literal. *)
Ltac branches := intros; repeat (case_goal; simpl); plain_msg.

Lemma int_op_plain key delta st : plain_err (int_op key delta st).2.
Proof.
  unfold int_op. pose proof (update_with_plain key (int_update parse_i64 delta) st) as Hr.
  destruct (update_with key _ st) as [st' [r|]].
  - apply Hr; [|done]. unfold int_update. branches.
  - apply update_or_insert_plain; [unfold int_update; branches|done].
Qed.

Lemma decrby_plain key n st : plain_err (decrby key n st).2.
Proof. unfold decrby. case_match; [apply int_op_plain|plain_msg]. Qed.

Lemma incrbyfloat_plain key f st : plain_err (incrbyfloat key f st).2.
Proof. apply update_or_insert_plain; [branches|done]. Qed.

Lemma hincrbyfloat_plain key field f st : plain_err (hincrbyfloat c key field f st).2.
Proof. apply update_or_insert_plain; [unfold hash_update; branches|done]. Qed.

Lemma setrange_plain key offset v st : plain_err (setrange key offset v st).2.
Proof.
  unfold setrange, setrange_loop. case_goal; [plain_msg|]. case_goal; [plain_msg|].
  match goal with |- context [update_with key ?f st] => pose proof (update_with_plain key f st) as Hr end.
  destruct (update_with key _ st) as [st' [r|]]; simpl in *.
  - apply Hr; [branches|done].
  - branches.
Qed.

Lemma lcs_plain key1 key2 st : plain_err (lcs c key1 key2 st).
Proof.
  unfold lcs. assert (Hop : ∀ key, plain_err (lcs_operand c key st)).
  { intros. apply read_live_plain; [done|]. branches. }
  pose proof (Hop key1) as H1'. pose proof (Hop key2) as H2'.
  destruct (lcs_operand c key1 st); [|done]. by destruct (lcs_operand c key2 st).
Qed.

Lemma lcs_len_plain key1 key2 st : plain_err (lcs_len c key1 key2 st).
Proof. unfold lcs_len. pose proof (lcs_plain key1 key2 st). by destruct (lcs c key1 key2 st). Qed.

Lemma lset_plain key i v st : plain_err (lset c key i v st).2.
Proof. apply update_or_plain; [unfold list_update; branches|plain_msg]. Qed.

Lemma lmove_plain src dst l r st : plain_err (lmove c src dst l r st).2.
Proof.
  unfold lmove.
  match goal with |- context [update_with src ?f st] => pose proof (update_with_plain src f st) as Hr end.
  destruct (update_with src _ st) as [st' [[[v|]|e]|]]; simpl in *; [|done| |done].
  - case_bool_decide;
      match goal with |- context [update_or_insert dst ?f ?a ?b st'] =>
        pose proof (update_or_insert_plain dst f a b st') as Hd;
        destruct (update_or_insert dst f a b st') as [st'' [?|e]] end; [done| |done|];
      apply Hd; try done; unfold list_update; branches.
  - apply (Hr ltac:(unfold list_update; branches) (Err e)). done.
Qed.

Lemma hincrby_plain key field n st : plain_err (hincrby c key field n st).2.
Proof.
  unfold hincrby, hincrby_loop.
  match goal with |- context [update_with key ?f st] => pose proof (update_with_plain key f st) as Hr end.
  destruct (update_with key _ st) as [st' [r|]]; simpl in *.
  - apply Hr; [unfold hash_update; branches|done].
  - branches.
Qed.

(** ** Sets *)

Lemma live_set_plain key st r : live_set c key st = Some r → plain_err r.
Proof. unfold live_set, read_live. intros E. repeat (case_match; simplify_eq/=); plain_msg. Qed.

Lemma sunion_plain keys st : plain_err (sunion c keys st).
Proof.
  unfold sunion. assert (Hl : ∀ acc, plain_err (sunion_loop c keys acc st)).
  { induction keys as [|k keys IH]; intros acc; simpl; [done|].
    destruct (live_set c k st) as [[s|e]|] eqn:E; [done| |done].
    apply (live_set_plain _ _ _ E). }
  specialize (Hl ∅). by destruct (sunion_loop c keys ∅ st).
Qed.

Lemma fold_from_first_plain loop keys st :
  (∀ keys acc, plain_err (loop keys acc st)) → plain_err (fold_from_first c loop keys st).
Proof.
  intros Hl. unfold fold_from_first. destruct keys as [|k keys]; [done|].
  destruct (live_set c k st) as [[s|e]|] eqn:E; [|by apply (live_set_plain _ _ _ E)|done].
  pose proof (Hl keys (list_to_set (set_strings s))) as Hp. by destruct (loop keys _ st).
Qed.

Lemma sinter_plain keys st : plain_err (sinter c keys st).
Proof.
  apply fold_from_first_plain. clear keys. intros keys. induction keys as [|k keys IH]; intros acc; simpl; [done|].
  destruct (live_set c k st) as [[s|e]|] eqn:E; [by case_match|by apply (live_set_plain _ _ _ E)|done].
Qed.

Lemma sdiff_plain keys st : plain_err (sdiff c keys st).
Proof.
  apply fold_from_first_plain. clear keys. intros keys. induction keys as [|k keys IH]; intros acc; simpl; [done|].
  destruct (live_set c k st) as [[s|e]|] eqn:E; [done|by apply (live_set_plain _ _ _ E)|done].
Qed.

Lemma store_members_plain dst r st : plain_err r → plain_err (store_members dst r st).2.
Proof. by destruct r. Qed.

Lemma sintercard_plain keys limit st : plain_err (sintercard c keys limit st).
Proof. unfold sintercard. pose proof (sinter_plain keys st). by destruct (sinter c keys st). Qed.

(** ** Sorted sets *)

Lemma zadd_plain key members fl st : plain_err (zadd c key members fl st).2.
Proof.
  unfold zadd.
  match goal with |- context [update_with key ?f st] => pose proof (update_with_plain key f st) as Hr end.
  destruct (update_with key _ st) as [st' [r|]]; simpl in *; [|by case_match].
  apply Hr; [unfold zset_update; branches|done].
Qed.

Lemma zincrby_plain key f m st : plain_err (zincrby c key f m st).2.
Proof. apply update_or_insert_plain; [unfold zset_update; branches|done]. Qed.

Lemma live_zset_plain key st : plain_err (live_zset c key st).
Proof. apply read_live_plain; [done|]. branches. Qed.

Lemma zunion_loop_plain a weights keys st : ∀ i acc, plain_err (zunion_loop c a weights i keys acc st).
Proof.
  induction keys as [|k keys IH]; intros i acc; simpl; [done|].
  pose proof (live_zset_plain k st). by destruct (live_zset c k st) as [[z|]|e].
Qed.

Lemma zunionstore_plain dst keys weights a st : plain_err (zunionstore c dst keys weights a st).2.
Proof.
  unfold zunionstore. pose proof (zunion_loop_plain a weights keys st 0 ZSetData_new).
  by destruct (zunion_loop c a weights 0 keys ZSetData_new st).
Qed.

Lemma zinter_loop_plain a weights keys st : ∀ i acc, plain_err (zinter_loop c a weights i keys acc st).
Proof.
  induction keys as [|k keys IH]; intros i acc; simpl; [done|].
  pose proof (live_zset_plain k st). by destruct (live_zset c k st) as [[z|]|e].
Qed.

Lemma zinterstore_plain dst keys weights a st : plain_err (zinterstore c dst keys weights a st).2.
Proof.
  unfold zinterstore. assert (Hz : plain_err (zinter_all c keys weights a st)).
  { destruct keys as [|k keys]; [done|]. simpl. pose proof (live_zset_plain k st).
    destruct (live_zset c k st) as [[z|]|e]; [apply zinter_loop_plain|done|done]. }
  by destruct (zinter_all c keys weights a st).
Qed.

Lemma zdiffstore_plain dst keys st : plain_err (zdiffstore c dst keys st).2.
Proof.
  unfold zdiffstore. assert (Hl : ∀ keys acc, plain_err (zdiff_loop c keys acc st)).
  { clear keys. induction keys as [|k keys IH]; intros acc; simpl; [done|].
    pose proof (live_zset_plain k st). by destruct (live_zset c k st) as [[z|]|e]. }
  unfold zdiff. destruct keys as [|k keys]; [done|]. pose proof (live_zset_plain k st).
  destruct (live_zset c k st) as [[z|]|e]; [|done|done].
  pose proof (Hl keys z). by destruct (zdiff_loop c keys z st).
Qed.
End Lines.

#[export] Hint Resolve int_op_plain decrby_plain incrbyfloat_plain hincrbyfloat_plain setrange_plain lcs_plain
  lcs_len_plain lset_plain lmove_plain hincrby_plain sunion_plain sinter_plain sdiff_plain store_members_plain
  sintercard_plain zadd_plain zincrby_plain zunionstore_plain zinterstore_plain zdiffstore_plain : plain_err.
