(* ===== verification/CmdSpec.v ===== *)
(** Every command appends exactly one well-formed reply. *)

From S2P Require Import Prelude Decimal MapIface CustomMap CustomMapSpec Resp RespSpec Float Collections ZSet Value Store.
From S2P Require Import ListOps HashOps SetOps ZSetOps Lcs Scan Reply Handler HandlerSpec.
From S2P Require Import CmdString CmdKeys CmdList CmdHash CmdSet CmdZSet CmdServer.
Local Open Scope Z_scope.

(** Unfold a handler and go through its branches. *)
Tactic Notation "handler" reference(h) := unfold h; answer.
Tactic Notation "handler" reference(h) reference(g) := unfold h, g; answer.

(** ** String commands *)

Section StringAnswers.
Context {M : Type} `{KVReturns StoreValue M} `{HashOrder} (c : Clock) (p s : bool).
Implicit Types (parts : list bytes).

Lemma positive_expiry_asks f cmd t : plain cmd → asks p (positive_expiry f cmd t : Handler M Z) (λ _, True).
Proof.
  intros Hc. assert (Hp : plain (B "invalid expire time in '" ++ cmd ++ B "' command")).
  { repeat apply plain_app; [by apply plainb_plain|done|by apply plainb_plain]. }
  handler positive_expiry.
Qed.
Hint Resolve positive_expiry_asks : handler.

Lemma set_options_asks rest : ∀ o, asks p (set_options c rest o : Handler M SetOptions) (λ _, True).
Proof.
  induction rest as [rest IH] using (induction_ltof1 _ (@length bytes)); unfold ltof in IH. intros o.
  destruct rest as [|opt rest]; [by apply asks_ret|]. cbn [set_options].
  destruct rest as [|s1 rest]; answer; apply IH; simpl; lia.
Qed.
Hint Resolve set_options_asks : handler.

Lemma full_or_ok_answers r : answers p s (full_or_ok r : Handler M unit).
Proof. handler full_or_ok. Qed.
Hint Resolve full_or_ok_answers : handler.

(** GET of one key: a bulk or nil. *)
Lemma get_or_nil_appends key st out :
  ∃ st' r, (get_or_nil c key : Handler M unit) st out = Next st' (out ++ encode r) tt ∧ well_formed r.
Proof.
  unfold get_or_nil, get_to_buf. destruct (kv_with_entry _ _ _) as [[[out'|]|]|] eqn:E; simpl.
  - apply kv_with_entry_returns in E as [v E]. destruct (is_expired c v); [done|].
    destruct (as_string (value v)) as [str|]; simplify_eq. eexists _, (RBulk str).
    rewrite write_bulk_eq. split; [done|constructor].
  - eexists _, RNil. split; [done|constructor].
  - eexists _, RNil. split; [done|constructor].
  - eexists _, RNil. split; [done|constructor].
Qed.

Lemma get_or_nil_answers key : answers p s (get_or_nil c key : Handler M unit).
Proof.
  intros st out. destruct (get_or_nil_appends key st out) as (st' & r & -> & Hr). left. by exists r.
Qed.
Hint Resolve get_or_nil_answers : handler.

Lemma get_all_appends keys : ∀ st out,
  ∃ st' l, (get_all c keys : Handler M unit) st out = Next st' (out ++ encodes l) tt ∧
           Forall well_formed l ∧ length l = length keys.
Proof.
  induction keys as [|k keys IH]; intros st out; cbn [get_all].
  - exists st, []. unfold encodes. simpl. by rewrite app_nil_r.
  - unfold mbind, handler_bind. destruct (get_or_nil_appends k st out) as (st1 & r & -> & Hr).
    destruct (IH st1 (out ++ encode r)) as (st2 & l & -> & Hl & Hlen).
    exists st2, (r :: l). rewrite <- app_assoc. split; [done|]. split; [by constructor|simpl; lia].
Qed.

Lemma set_answers parts : answers p s (CmdString.set c parts : Handler M unit).
Proof. handler CmdString.set. Qed.
Lemma setnx_answers parts : answers p s (CmdString.setnx c parts : Handler M unit).
Proof. handler CmdString.setnx. Qed.
Lemma setex_answers parts : answers p s (CmdString.setex c parts : Handler M unit).
Proof. handler CmdString.setex CmdString.setex_with. Qed.
Lemma psetex_answers parts : answers p s (CmdString.psetex c parts : Handler M unit).
Proof. handler CmdString.psetex CmdString.setex_with. Qed.
Lemma get_answers parts : answers p s (CmdString.get c parts : Handler M unit).
Proof. handler CmdString.get. Qed.
Lemma getdel_answers parts : answers p s (CmdString.getdel c parts : Handler M unit).
Proof. handler CmdString.getdel. Qed.
Lemma getset_answers parts : answers p s (CmdString.getset c parts : Handler M unit).
Proof. handler CmdString.getset. Qed.
Lemma getex_answers parts : answers p s (CmdString.getex c parts : Handler M unit).
Proof. handler CmdString.getex. Qed.
Lemma mset_answers parts : answers p s (CmdString.mset parts : Handler M unit).
Proof. handler CmdString.mset. Qed.
Lemma msetnx_answers parts : answers p s (CmdString.msetnx parts : Handler M unit).
Proof. handler CmdString.msetnx; [by exists (RInteger 0); repeat constructor|by exists (RInteger 1); repeat constructor]. Qed.

Lemma mget_answers parts : answers p s (CmdString.mget c parts : Handler M unit).
Proof.
  unfold CmdString.mget. destruct parts as [|cmd keys]; [answer|]. case_match; [|answer].
  intros st out. unfold mbind, handler_bind, put_header, write.
  edestruct (get_all_appends keys) as (st' & l & -> & Hl & Hlen). left. exists (RArray l).
  split; [by apply wf_array|]. by rewrite <- Hlen, write_array_header_items.
Qed.

Lemma incr_answers parts : answers p s (CmdString.incr parts : Handler M unit).
Proof. handler CmdString.incr. Qed.
Lemma decr_answers parts : answers p s (CmdString.decr parts : Handler M unit).
Proof. handler CmdString.decr. Qed.
Lemma incrby_answers parts : answers p s (CmdString.incrby parts : Handler M unit).
Proof. handler CmdString.incrby. Qed.
Lemma decrby_answers parts : answers p s (CmdString.decrby parts : Handler M unit).
Proof. handler CmdString.decrby. Qed.
Lemma incrbyfloat_answers parts : answers p s (CmdString.incrbyfloat parts : Handler M unit).
Proof. handler CmdString.incrbyfloat. Qed.
Lemma append_answers parts : answers p s (CmdString.append c parts : Handler M unit).
Proof. handler CmdString.append. Qed.
Lemma strlen_answers parts : answers p s (CmdString.strlen c parts : Handler M unit).
Proof. handler CmdString.strlen. Qed.
Lemma getrange_answers parts : answers p s (CmdString.getrange c parts : Handler M unit).
Proof. handler CmdString.getrange. Qed.
Lemma setrange_answers parts : answers p s (CmdString.setrange parts : Handler M unit).
Proof. handler CmdString.setrange. Qed.
Lemma lcs_answers parts : answers p s (CmdString.lcs c parts : Handler M unit).
Proof. handler CmdString.lcs. Qed.
End StringAnswers.

(** ** Key commands *)

Section KeyAnswers.
Context {M : Type} `{KVReturns StoreValue M} (c : Clock) (p s : bool).
Implicit Types (parts : list bytes).

Lemma del_answers parts : answers p s (CmdKeys.del parts : Handler M unit).
Proof. handler CmdKeys.del. Qed.
Lemma exists_check_answers parts : answers p s (CmdKeys.exists_check c parts : Handler M unit).
Proof. handler CmdKeys.exists_check CmdKeys.exists_with. Qed.
Lemma touch_answers parts : answers p s (CmdKeys.touch c parts : Handler M unit).
Proof. handler CmdKeys.touch CmdKeys.exists_with. Qed.
Lemma ttl_check_answers parts : answers p s (CmdKeys.ttl_check c parts : Handler M unit).
Proof. handler CmdKeys.ttl_check. Qed.
Lemma pttl_check_answers parts : answers p s (CmdKeys.pttl_check c parts : Handler M unit).
Proof. handler CmdKeys.pttl_check. Qed.
Lemma persist_answers parts : answers p s (CmdKeys.persist c parts : Handler M unit).
Proof. handler CmdKeys.persist. Qed.
Lemma rename_answers parts : answers p s (CmdKeys.rename c parts : Handler M unit).
Proof. handler CmdKeys.rename. Qed.
Lemma renamenx_answers parts : answers p s (CmdKeys.renamenx c parts : Handler M unit).
Proof. handler CmdKeys.renamenx. Qed.
Lemma copy_answers parts : answers p s (CmdKeys.copy c parts : Handler M unit).
Proof. handler CmdKeys.copy. Qed.
Lemma keys_answers parts : answers p s (CmdKeys.keys c parts : Handler M unit).
Proof. handler CmdKeys.keys. Qed.
Lemma expire_answers parts : answers p s (CmdKeys.expire c parts : Handler M unit).
Proof. handler CmdKeys.expire CmdKeys.expire_with. Qed.
Lemma pexpire_answers parts : answers p s (CmdKeys.pexpire c parts : Handler M unit).
Proof. handler CmdKeys.pexpire CmdKeys.expire_with. Qed.
Lemma expireat_answers parts : answers p s (CmdKeys.expireat c parts : Handler M unit).
Proof. handler CmdKeys.expireat CmdKeys.expire_with. Qed.
Lemma expiretime_answers parts : answers p s (CmdKeys.expiretime c parts : Handler M unit).
Proof. handler CmdKeys.expiretime CmdKeys.expiretime_with. Qed.
Lemma pexpiretime_answers parts : answers p s (CmdKeys.pexpiretime c parts : Handler M unit).
Proof. handler CmdKeys.pexpiretime CmdKeys.expiretime_with. Qed.
End KeyAnswers.

(** ** List commands *)

Section ListAnswers.
Context {M : Type} `{KVReturns StoreValue M} (c : Clock) (p s : bool).
Implicit Types (parts : list bytes).

Lemma put_first_answers l : answers p s (put_first l : Handler M unit).
Proof. handler put_first. Qed.
Hint Resolve put_first_answers : handler.

Lemma lpos_options_asks rest : ∀ o, asks p (lpos_options rest o : Handler M LposOptions) (λ _, True).
Proof.
  induction rest as [rest IH] using (induction_ltof1 _ (@length bytes)); unfold ltof in IH. intros o.
  destruct rest as [|opt [|x rest]]; cbn [lpos_options]; answer; apply IH; simpl; lia.
Qed.
Hint Resolve lpos_options_asks : handler.

Lemma direction_asks d : asks p (direction d : Handler M bool) (λ _, True).
Proof. handler direction. Qed.
Lemma move_answers src dst l r : answers p s (move c src dst l r : Handler M unit).
Proof. handler move. Qed.
Hint Resolve direction_asks move_answers : handler.

(** A loop over keys that stops at the first item. *)
Lemma pop_first_answers {I} (pop : bytes → Store M → Store M * result (list I)) put keys :
  (∀ k v out, replied out (put k v out)) → answers p s (pop_first pop put keys : Handler M unit).
Proof. intros Hp. induction keys as [|k keys IH]; cbn [pop_first]; answer; done. Qed.

Lemma put_key_item_replies k v out : replied out (put_key_item k v out).
Proof.
  unfold put_key_item. rewrite !write_bulk_eq. exists (RArray [RBulk k; RBulk v]).
  split; [apply wf_array; repeat constructor|].
  by rewrite <- write_array_header_items, encodes_cons, encodes_one, app_assoc.
Qed.
Hint Resolve put_key_item_replies : reply.

Lemma lpush_answers parts : answers p s (CmdList.lpush c parts : Handler M unit).
Proof. handler CmdList.lpush CmdList.push_with. Qed.
Lemma rpush_answers parts : answers p s (CmdList.rpush c parts : Handler M unit).
Proof. handler CmdList.rpush CmdList.push_with. Qed.
Lemma lpop_answers parts : answers p s (CmdList.lpop c parts : Handler M unit).
Proof. handler CmdList.lpop CmdList.pop_with. Qed.
Lemma rpop_answers parts : answers p s (CmdList.rpop c parts : Handler M unit).
Proof. handler CmdList.rpop CmdList.pop_with. Qed.
Lemma llen_answers parts : answers p s (CmdList.llen c parts : Handler M unit).
Proof. handler CmdList.llen. Qed.
Lemma lindex_answers parts : answers p s (CmdList.lindex c parts : Handler M unit).
Proof. handler CmdList.lindex. Qed.
Lemma lset_answers parts : answers p s (CmdList.lset c parts : Handler M unit).
Proof. handler CmdList.lset. Qed.
Lemma lrange_answers parts : answers p s (CmdList.lrange c parts : Handler M unit).
Proof. handler CmdList.lrange. Qed.
Lemma ltrim_answers parts : answers p s (CmdList.ltrim c parts : Handler M unit).
Proof. handler CmdList.ltrim. Qed.
Lemma lrem_answers parts : answers p s (CmdList.lrem c parts : Handler M unit).
Proof. handler CmdList.lrem. Qed.
Lemma linsert_answers parts : answers p s (CmdList.linsert c parts : Handler M unit).
Proof. handler CmdList.linsert. Qed.
Lemma lmove_answers parts : answers p s (CmdList.lmove c parts : Handler M unit).
Proof. handler CmdList.lmove. Qed.
Lemma rpoplpush_answers parts : answers p s (CmdList.rpoplpush c parts : Handler M unit).
Proof. handler CmdList.rpoplpush. Qed.
Lemma blmove_answers parts : answers p s (CmdList.blmove c parts : Handler M unit).
Proof. handler CmdList.blmove. Qed.
Lemma blpop_answers parts : answers p s (CmdList.blpop c parts : Handler M unit).
Proof. handler CmdList.blpop CmdList.bpop_with. apply pop_first_answers. eauto with reply. Qed.
Lemma brpop_answers parts : answers p s (CmdList.brpop c parts : Handler M unit).
Proof. handler CmdList.brpop CmdList.bpop_with. apply pop_first_answers. eauto with reply. Qed.
Lemma lpos_answers parts : answers p s (CmdList.lpos c parts : Handler M unit).
Proof. handler CmdList.lpos. Qed.
End ListAnswers.

(** ** Hash commands *)

(** The list of options of HSCAN and its likes. *)
Lemma match_options_asks {M} p rest : ∀ pat, asks p (match_options rest pat : Handler M (option bytes)) (λ _, True).
Proof.
  induction rest as [rest IH] using (induction_ltof1 _ (@length bytes)); unfold ltof in IH. intros pat.
  destruct rest as [|opt [|x rest]]; cbn [match_options]; answer; apply IH; simpl; lia.
Qed.
#[local] Hint Resolve match_options_asks : handler.

Lemma replied_scan items out : (∀ out, replied out (items out)) → replied out (scan_reply items out).
Proof.
  intros Hi. unfold scan_reply. destruct (Hi (write_bulk (out ++ B "*2" ++ CRLF) (B "0"))) as (r & Hr & ->).
  exists (RArray [RBulk (B "0"); r]). split; [apply wf_array; repeat constructor; done|].
  rewrite <- write_array_header_items, encodes_cons, encodes_one, write_bulk_eq, <- !app_assoc.
  unfold write_array_header. rewrite write_usize_app by lia. by rewrite <- !app_assoc.
Qed.

Lemma scan_value_answers {M T} `{KVMap StoreValue M} c p s (as_type : FyroDB → option T) items cmd parts :
  plain cmd → (∀ pat v out, replied out (items pat v out)) →
  answers p s (scan_value c as_type items cmd parts : Handler M unit).
Proof.
  intros Hc Hi. handler scan_value; apply replied_scan; [eauto with reply..| |]; intros; first [apply Hi|eauto with reply].
Qed.

Lemma replied_write_pairs out l : replied out (write_pairs out l).
Proof. apply (replied_pairs fst snd). Qed.
Lemma replied_write_fields out l : replied out (write_fields out l).
Proof. apply (replied_bulks fst). Qed.
#[local] Hint Resolve replied_write_pairs replied_write_fields : reply.

Section HashAnswers.
Context {M : Type} `{KVReturns StoreValue M} `{HashOrder} (c : Clock) (p s : bool).
Implicit Types (parts : list bytes).

Lemma hset_answers parts : answers p s (CmdHash.hset c parts : Handler M unit).
Proof. handler CmdHash.hset. Qed.
Lemma hsetnx_answers parts : answers p s (CmdHash.hsetnx c parts : Handler M unit).
Proof. handler CmdHash.hsetnx. Qed.
Lemma hget_answers parts : answers p s (CmdHash.hget c parts : Handler M unit).
Proof. handler CmdHash.hget. Qed.
Lemma hmget_answers parts : answers p s (CmdHash.hmget c parts : Handler M unit).
Proof. handler CmdHash.hmget. Qed.
Lemma hmset_answers parts : answers p s (CmdHash.hmset c parts : Handler M unit).
Proof. handler CmdHash.hmset. Qed.
Lemma hgetall_answers parts : answers p s (CmdHash.hgetall c parts : Handler M unit).
Proof. handler CmdHash.hgetall. Qed.
Lemma hdel_answers parts : answers p s (CmdHash.hdel c parts : Handler M unit).
Proof. handler CmdHash.hdel. Qed.
Lemma hexists_answers parts : answers p s (CmdHash.hexists c parts : Handler M unit).
Proof. handler CmdHash.hexists. Qed.
Lemma hlen_answers parts : answers p s (CmdHash.hlen c parts : Handler M unit).
Proof. handler CmdHash.hlen. Qed.
Lemma hkeys_answers parts : answers p s (CmdHash.hkeys c parts : Handler M unit).
Proof. handler CmdHash.hkeys. Qed.
Lemma hvals_answers parts : answers p s (CmdHash.hvals c parts : Handler M unit).
Proof. handler CmdHash.hvals. Qed.
Lemma hincrby_answers parts : answers p s (CmdHash.hincrby c parts : Handler M unit).
Proof. handler CmdHash.hincrby. Qed.
Lemma hincrbyfloat_answers parts : answers p s (CmdHash.hincrbyfloat c parts : Handler M unit).
Proof. handler CmdHash.hincrbyfloat. Qed.

Lemma hrandfield_args_asks q parts : asks q (hrandfield_args parts : Handler M (bytes * Z * bool)) (λ _, True).
Proof. handler hrandfield_args. Qed.
Hint Resolve hrandfield_args_asks : handler.

Lemma hrandfield_answers parts : answers true s (CmdHash.hrandfield c parts : Handler M unit).
Proof. unfold CmdHash.hrandfield. answer. Qed.
Lemma hscan_answers parts : answers p s (CmdHash.hscan c parts : Handler M unit).
Proof. apply scan_value_answers; [by apply plainb_plain|]. intros. eauto with reply. Qed.
End HashAnswers.

(** ** Set commands *)

Section SetAnswers.
Context {M : Type} `{KVReturns StoreValue M} `{HashOrder} (c : Clock) (p s : bool).
Implicit Types (parts : list bytes).
Hint Resolve put_first_answers : handler.

Lemma limit_option_asks rest : ∀ n, asks p (limit_option rest n : Handler M Z) (λ _, True).
Proof.
  induction rest as [rest IH] using (induction_ltof1 _ (@length bytes)); unfold ltof in IH. intros n.
  destruct rest as [|opt [|x rest]]; cbn [limit_option]; answer; apply IH; simpl; lia.
Qed.
Hint Resolve limit_option_asks : handler.

Lemma sadd_answers parts : answers p s (CmdSet.sadd c parts : Handler M unit).
Proof. handler CmdSet.sadd. Qed.
Lemma srem_answers parts : answers p s (CmdSet.srem c parts : Handler M unit).
Proof. handler CmdSet.srem. Qed.
Lemma sismember_answers parts : answers p s (CmdSet.sismember c parts : Handler M unit).
Proof. handler CmdSet.sismember. Qed.
Lemma smismember_answers parts : answers p s (CmdSet.smismember c parts : Handler M unit).
Proof. handler CmdSet.smismember. Qed.
Lemma smembers_answers parts : answers p s (CmdSet.smembers c parts : Handler M unit).
Proof. handler CmdSet.smembers. Qed.
Lemma scard_answers parts : answers p s (CmdSet.scard c parts : Handler M unit).
Proof. handler CmdSet.scard. Qed.
Lemma spop_answers parts : answers p s (CmdSet.spop c parts : Handler M unit).
Proof. handler CmdSet.spop. Qed.
Lemma smove_answers parts : answers p s (CmdSet.smove c parts : Handler M unit).
Proof. handler CmdSet.smove. Qed.
Lemma sintercard_answers parts : answers p s (CmdSet.sintercard c parts : Handler M unit).
Proof. handler CmdSet.sintercard. Qed.
Lemma srandmember_answers parts : answers true s (CmdSet.srandmember c parts : Handler M unit).
Proof. handler CmdSet.srandmember. Qed.
Lemma sunion_answers parts : answers p s (CmdSet.sunion c parts : Handler M unit).
Proof. handler CmdSet.sunion CmdSet.algebra_with. Qed.
Lemma sinter_answers parts : answers p s (CmdSet.sinter c parts : Handler M unit).
Proof. handler CmdSet.sinter CmdSet.algebra_with. Qed.
Lemma sdiff_answers parts : answers p s (CmdSet.sdiff c parts : Handler M unit).
Proof. handler CmdSet.sdiff CmdSet.algebra_with. Qed.
Lemma sunionstore_answers parts : answers p s (CmdSet.sunionstore c parts : Handler M unit).
Proof. handler CmdSet.sunionstore CmdSet.store_with. Qed.
Lemma sinterstore_answers parts : answers p s (CmdSet.sinterstore c parts : Handler M unit).
Proof. handler CmdSet.sinterstore CmdSet.store_with. Qed.
Lemma sdiffstore_answers parts : answers p s (CmdSet.sdiffstore c parts : Handler M unit).
Proof. handler CmdSet.sdiffstore CmdSet.store_with. Qed.
Lemma sscan_answers parts : answers p s (CmdSet.sscan c parts : Handler M unit).
Proof. apply scan_value_answers; [by apply plainb_plain|]. intros. eauto with reply. Qed.
End SetAnswers.

(** ** Sorted-set commands *)

Lemma replied_zset_result items ws out : replied out (write_zset_result items ws out).
Proof.
  unfold write_zset_result. destruct ws; [|apply (replied_bulks fst)].
  apply (replied_pairs fst (λ p, format_float p.2)).
Qed.

Lemma put_key_scored_replies k v out : replied out (put_key_scored k v out).
Proof.
  unfold put_key_scored, write_scored. rewrite !write_bulk_eq.
  exists (RArray [RBulk k; RBulk v.1; RBulk (format_float v.2)]).
  split; [apply wf_array; repeat constructor|].
  by rewrite <- write_array_header_items, !encodes_cons, !app_assoc, app_nil_r.
Qed.
#[local] Hint Resolve replied_zset_result put_key_scored_replies : reply.

Section ZSetAnswers.
Context {M : Type} `{KVReturns StoreValue M} (c : Clock) (p s : bool).
Implicit Types (parts : list bytes).
Hint Resolve put_first_answers : handler.

Lemma parse_scores_asks chunks : ∀ l, asks p (parse_scores chunks l : Handler M (list (f64 * bytes))) (λ _, True).
Proof. induction chunks as [|[x y] chunks IH]; intros acc; cbn [parse_scores]; answer. Qed.
Lemma range_options_asks q rest : ∀ o, asks q (range_options rest o : Handler M (bool * Z * Z)) (λ _, True).
Proof.
  induction rest as [rest IH] using (induction_ltof1 _ (@length bytes)); unfold ltof in IH. intros [[ws off] cnt].
  destruct rest as [|opt [|x [|y rest]]]; cbn [range_options]; answer; apply IH; simpl; lia.
Qed.
Lemma limit_options_asks rest : ∀ o, asks p (limit_options rest o : Handler M (Z * Z)) (λ _, True).
Proof.
  induction rest as [rest IH] using (induction_ltof1 _ (@length bytes)); unfold ltof in IH. intros o.
  destruct rest as [|opt [|x [|y rest]]]; cbn [limit_options]; answer; apply IH; simpl; lia.
Qed.
Lemma put_rank_answers r : answers p s (put_rank r : Handler M unit).
Proof. handler put_rank. Qed.
Lemma score_range_answers r ws : answers true s (score_range r ws : Handler M unit).
Proof. handler score_range. Qed.
Hint Resolve parse_scores_asks range_options_asks limit_options_asks put_rank_answers score_range_answers : handler.

Lemma zadd_answers parts : answers p s (CmdZSet.zadd c parts : Handler M unit).
Proof. handler CmdZSet.zadd. Qed.
Lemma zrem_answers parts : answers p s (CmdZSet.zrem c parts : Handler M unit).
Proof. handler CmdZSet.zrem. Qed.
Lemma zscore_answers parts : answers p s (CmdZSet.zscore c parts : Handler M unit).
Proof. handler CmdZSet.zscore. Qed.
Lemma zmscore_answers parts : answers p s (CmdZSet.zmscore c parts : Handler M unit).
Proof. handler CmdZSet.zmscore. Qed.
Lemma zrank_answers parts : answers p s (CmdZSet.zrank c parts : Handler M unit).
Proof. handler CmdZSet.zrank. Qed.
Lemma zrevrank_answers parts : answers p s (CmdZSet.zrevrank c parts : Handler M unit).
Proof. handler CmdZSet.zrevrank. Qed.
Lemma zcard_answers parts : answers p s (CmdZSet.zcard c parts : Handler M unit).
Proof. handler CmdZSet.zcard. Qed.
Lemma zcount_answers parts : answers p s (CmdZSet.zcount c parts : Handler M unit).
Proof. handler CmdZSet.zcount. Qed.
Lemma zincrby_answers parts : answers p s (CmdZSet.zincrby c parts : Handler M unit).
Proof. handler CmdZSet.zincrby. Qed.
Lemma zlexcount_answers parts : answers p s (CmdZSet.zlexcount c parts : Handler M unit).
Proof. handler CmdZSet.zlexcount. Qed.
Lemma zrangebylex_answers parts : answers p s (CmdZSet.zrangebylex c parts : Handler M unit).
Proof. handler CmdZSet.zrangebylex. Qed.
Lemma zdiff_answers parts : answers p s (CmdZSet.zdiff c parts : Handler M unit).
Proof. handler CmdZSet.zdiff. Qed.
Lemma zdiffstore_answers parts : answers p s (CmdZSet.zdiffstore c parts : Handler M unit).
Proof. handler CmdZSet.zdiffstore. Qed.
Lemma zrangestore_answers parts : answers p s (CmdZSet.zrangestore c parts : Handler M unit).
Proof. handler CmdZSet.zrangestore. Qed.
Lemma zrangebyscore_answers parts : answers true s (CmdZSet.zrangebyscore c parts : Handler M unit).
Proof. handler CmdZSet.zrangebyscore. Qed.
Lemma zrevrangebyscore_answers parts : answers true s (CmdZSet.zrevrangebyscore c parts : Handler M unit).
Proof. handler CmdZSet.zrevrangebyscore. Qed.
Lemma zrandmember_answers fuel parts : answers true s (CmdZSet.zrandmember c fuel parts : Handler M unit).
Proof. handler CmdZSet.zrandmember. Qed.
Lemma zrange_answers parts : answers p s (CmdZSet.zrange c parts : Handler M unit).
Proof. handler CmdZSet.zrange CmdZSet.zrange_with. Qed.
Lemma zrevrange_answers parts : answers p s (CmdZSet.zrevrange c parts : Handler M unit).
Proof. handler CmdZSet.zrevrange CmdZSet.zrange_with. Qed.
Lemma zpopmin_answers parts : answers p s (CmdZSet.zpopmin c parts : Handler M unit).
Proof. handler CmdZSet.zpopmin CmdZSet.zpop. Qed.
Lemma zpopmax_answers parts : answers p s (CmdZSet.zpopmax c parts : Handler M unit).
Proof. handler CmdZSet.zpopmax CmdZSet.zpop. Qed.
Lemma bzpopmin_answers parts : answers p s (CmdZSet.bzpopmin c parts : Handler M unit).
Proof. handler CmdZSet.bzpopmin CmdZSet.bzpop_with. apply pop_first_answers. eauto with reply. Qed.
Lemma bzpopmax_answers parts : answers p s (CmdZSet.bzpopmax c parts : Handler M unit).
Proof. handler CmdZSet.bzpopmax CmdZSet.bzpop_with. apply pop_first_answers. eauto with reply. Qed.
Lemma zscan_answers parts : answers p s (CmdZSet.zscan c parts : Handler M unit).
Proof. apply scan_value_answers; [by apply plainb_plain|]. intros. apply (replied_pairs fst (λ p, format_float p.2)). Qed.

(** The errors of the WEIGHTS and AGGREGATE options are lines. *)
Lemma take_weights_plain n rest : ∀ ws e, take_weights n rest ws = inr e → plain e.
Proof.
  revert rest. induction n as [|n IH]; intros rest ws e; cbn [take_weights]; [done|].
  destruct rest as [|x rest]; [intros [= <-]; by apply plainb_plain|].
  destruct (parse_f64 x); [apply IH|]. intros [= <-]. by apply plainb_plain.
Qed.

Lemma store_options_plain fuel n : ∀ rest ws a e, store_options fuel n rest ws a = inr e → plain e.
Proof.
  induction fuel as [|fuel IH]; intros rest ws a e; cbn [store_options]; [done|].
  destruct rest as [|opt rest]; [done|]. intros E. repeat case_hyp E; simplify_eq; eauto using take_weights_plain;
    by apply plainb_plain.
Qed.

(** Whether the number of keys is zero: then these four commands write nothing. *)
Definition no_keys (numkeys_str : bytes) : bool := bool_decide (parse_u64 numkeys_str = Some 0).

Lemma with_store_args_answers t rest k :
  (∀ keys ws a rem, answers p (no_keys t) (k keys ws a rem)) →
  answers p (no_keys t) (with_store_args t rest k : Handler M unit).
Proof.
  intros Hk st out. unfold with_store_args, mbind, handler_bind, parse_uint, parse_int_with.
  destruct (parse_u64 t) as [n|] eqn:Et; [|left; simpl; eauto with reply]. cbn [mret handler_ret].
  unfold parse_store_args. destruct (Z.ltb_spec (Z.of_nat (length rest)) n) as [Hn|Hn].
  { left. simpl. eauto with reply. }
  destruct (store_options _ _ _ _ _) as [[ws a]|e] eqn:Eo.
  2:{ left. simpl. apply replied_err. by eapply store_options_plain. }
  simpl. destruct (is_nil (take (Z.to_nat n) rest)) eqn:En; [|apply Hk].
  right. split; [|done]. apply bool_decide_eq_true. rewrite Et. f_equal. apply parse_u64_range in Et.
  destruct (take (Z.to_nat n) rest) eqn:Ek; [|done]. apply (f_equal length) in Ek.
  rewrite length_take in Ek. simpl in Ek. lia.
Qed.

Lemma zunionstore_answers parts :
  answers p (no_keys (nth 2 parts [])) (CmdZSet.zunionstore c parts : Handler M unit).
Proof.
  unfold CmdZSet.zunionstore, CmdZSet.zstore_with. destruct parts as [|? [|? [|? rest]]]; answer;
    apply with_store_args_answers; answer.
Qed.
Lemma zinterstore_answers parts :
  answers p (no_keys (nth 2 parts [])) (CmdZSet.zinterstore c parts : Handler M unit).
Proof.
  unfold CmdZSet.zinterstore, CmdZSet.zstore_with. destruct parts as [|? [|? [|? rest]]]; answer;
    apply with_store_args_answers; answer.
Qed.
Lemma zunion_answers parts :
  answers p (no_keys (nth 1 parts [])) (CmdZSet.zunion c parts : Handler M unit).
Proof.
  unfold CmdZSet.zunion, CmdZSet.zcombine_with. destruct parts as [|? [|? [|? rest]]]; answer;
    apply with_store_args_answers; answer.
Qed.
Lemma zinter_answers parts :
  answers p (no_keys (nth 1 parts [])) (CmdZSet.zinter c parts : Handler M unit).
Proof.
  unfold CmdZSet.zinter, CmdZSet.zcombine_with. destruct parts as [|? [|? [|? rest]]]; answer;
    apply with_store_args_answers; answer.
Qed.
End ZSetAnswers.

(** ** Connection, server and transaction commands *)

Lemma type_name_plain v : plain (type_name v).
Proof. apply plainb_plain. by destruct v. Qed.

Lemma replied_two a b out : replied out (write_bulk (write_bulk (write_array_header out 2) a) b).
Proof. apply put_key_item_replies. Qed.

Lemma replied_one a out : replied out (write_bulk (write_array_header out 1) a).
Proof. apply (replied_bulks id [a] out). Qed.

(** HELLO without a version, or with one other than 3. *)
Lemma replied_hello2 out : replied out (hello_resp2 out).
Proof.
  exists (RArray [RBulk (B "server"); RBulk (B "fyrodb"); RBulk (B "version"); RBulk (B "0.1.0");
     RBulk (B "proto"); RInteger 2; RBulk (B "id"); RInteger 1;
     RBulk (B "mode"); RBulk (B "standalone"); RBulk (B "role"); RBulk (B "master");
     RBulk (B "modules"); RArray []]).
  split; [apply wf_array; repeat constructor|].
  unfold hello_resp2, write_array_header. rewrite !write_usize_app by lia.
  rewrite !write_bulk_eq, !write_integer_eq. rewrite <- !app_assoc. f_equal.
Qed.

(** The text of a failed save, as the operating system words it, is a line. *)
Definition env_plain (env : Env) : Prop := match save_failure env with Some e => plain e | None => True end.

#[local] Hint Resolve type_name_plain replied_two replied_one replied_hello2 replied_hello3 : reply.

Section ServerAnswers.
Context {M : Type} `{KVReturns StoreValue M} `{HashOrder} (c : Clock) (env : Env) (p s : bool).
Implicit Types (parts : list bytes).

Lemma sort_options_asks q rest : ∀ o, asks q (sort_options rest o : Handler M SortOptions) (λ _, True).
Proof.
  induction rest as [rest IH] using (induction_ltof1 _ (@length bytes)); unfold ltof in IH. intros o.
  destruct rest as [|opt [|x [|y rest]]]; cbn [sort_options]; answer; apply IH; simpl; lia.
Qed.
Hint Resolve sort_options_asks : handler.

Lemma type_of_answers parts : answers p s (CmdServer.type_of c parts : Handler M unit).
Proof.
  unfold CmdServer.type_of. destruct parts as [|cmd [|key [|? ?]]]; [answer|answer| |answer].
  apply (answers_bind _ _ _ _ plain).
  - apply asks_look. intros st. unfold Store.type_of. repeat case_match; try apply type_name_plain; by apply plainb_plain.
  - intros t Ht. answer.
Qed.

Lemma ping_answers parts : answers p s (CmdServer.ping parts : Handler M unit).
Proof. handler CmdServer.ping. exists (RSimple (B "PONG")). split; [constructor; by apply plainb_plain|done]. Qed.
Lemma echo_answers parts : answers p s (CmdServer.echo parts : Handler M unit).
Proof. handler CmdServer.echo. Qed.
Lemma info_answers : answers p s (CmdServer.info env : Handler M unit).
Proof. handler CmdServer.info. Qed.
Lemma flush_answers : answers p s (CmdServer.flush : Handler M unit).
Proof. handler CmdServer.flush. Qed.
Lemma dbsize_answers : answers p s (CmdServer.dbsize : Handler M unit).
Proof. handler CmdServer.dbsize. Qed.
Lemma bgsave_answers : answers p s (CmdServer.bgsave env : Handler M unit).
Proof. handler CmdServer.bgsave. Qed.
Lemma save_answers : env_plain env → answers p s (CmdServer.save env : Handler M unit).
Proof.
  unfold env_plain, CmdServer.save. intros He. destruct (save_failure env); answer. apply replied_err.
  apply plain_app; [by apply plainb_plain|done].
Qed.
Lemma time_answers : answers p s (CmdServer.time env : Handler M unit).
Proof. handler CmdServer.time. Qed.
Lemma lastsave_answers : answers p s (CmdServer.lastsave env : Handler M unit).
Proof. handler CmdServer.lastsave. Qed.
Lemma command_cmd_answers parts : answers p s (CmdServer.command_cmd parts : Handler M unit).
Proof. handler CmdServer.command_cmd. Qed.
Lemma quit_answers : answers p s (CmdServer.quit : Handler M unit).
Proof. handler CmdServer.quit. Qed.
Lemma hello_answers parts : answers p s (CmdServer.hello parts : Handler M unit).
Proof. handler CmdServer.hello. Qed.
Lemma select_answers parts : answers p s (CmdServer.select parts : Handler M unit).
Proof. handler CmdServer.select. Qed.
Lemma auth_answers : answers p s (CmdServer.auth : Handler M unit).
Proof. handler CmdServer.auth. Qed.
Lemma reset_answers : answers p s (CmdServer.reset : Handler M unit).
Proof. handler CmdServer.reset. Qed.
Lemma client_cmd_answers parts : answers p s (CmdServer.client_cmd parts : Handler M unit).
Proof. handler CmdServer.client_cmd. Qed.
Lemma config_cmd_answers parts : answers p s (CmdServer.config_cmd parts : Handler M unit).
Proof. handler CmdServer.config_cmd. Qed.
Lemma slowlog_cmd_answers parts : answers p s (CmdServer.slowlog_cmd parts : Handler M unit).
Proof. handler CmdServer.slowlog_cmd. Qed.
Lemma acl_cmd_answers parts : answers p s (CmdServer.acl_cmd parts : Handler M unit).
Proof. handler CmdServer.acl_cmd. Qed.
Lemma object_cmd_answers parts : answers p s (CmdServer.object_cmd c parts : Handler M unit).
Proof. handler CmdServer.object_cmd. Qed.
Lemma sort_cmd_answers parts : answers true s (CmdServer.sort_cmd c env parts : Handler M unit).
Proof. unfold CmdServer.sort_cmd. answer. Qed.
Lemma multi_answers : answers p s (CmdServer.multi : Handler M unit).
Proof. handler CmdServer.multi. Qed.
Lemma discard_answers : answers p s (CmdServer.discard : Handler M unit).
Proof. handler CmdServer.discard. Qed.
Lemma exec_empty_answers : answers p s (CmdServer.exec_empty : Handler M unit).
Proof. handler CmdServer.exec_empty. Qed.
Lemma watch_answers : answers p s (CmdServer.watch : Handler M unit).
Proof. handler CmdServer.watch. Qed.
Lemma unwatch_answers : answers p s (CmdServer.unwatch : Handler M unit).
Proof. handler CmdServer.unwatch. Qed.
End ServerAnswers.

Section ScanAnswers.
Context (c : Clock) (env : Env) (p s : bool).

Lemma scan_options_asks q rest : ∀ pat n,
  asks q (scan_options rest pat n : Handler (CustomMap StoreValue) (option bytes * Z)) (λ _, True).
Proof.
  induction rest as [rest IH] using (induction_ltof1 _ (@length bytes)); unfold ltof in IH. intros pat n.
  destruct rest as [|opt [|x rest]]; cbn [scan_options]; answer; apply IH; simpl; lia.
Qed.
Hint Resolve scan_options_asks : handler.

Lemma replied_cursor cur keys out :
  replied out (write_array (write_bulk (out ++ B "*2" ++ CRLF) cur) keys).
Proof.
  exists (RArray [RBulk cur; RArray (RBulk <$> keys)]).
  split. { apply wf_array. repeat constructor; [apply Forall_fmap, Forall_true; constructor|simpl; lia]. }
  rewrite <- write_array_header_items, encodes_cons, encodes_one, write_array_reply, write_bulk_eq, <- !app_assoc.
  unfold write_array_header. rewrite write_usize_app by lia. by rewrite <- !app_assoc.
Qed.
Hint Resolve replied_cursor : reply.

Lemma randomkey_answers : answers p s (CmdServer.randomkey c env).
Proof. handler CmdServer.randomkey. Qed.
Lemma scan_answers parts : answers true s (CmdServer.scan c parts).
Proof. handler CmdServer.scan. Qed.
End ScanAnswers.
