(* ===== verification/Bitmap.v ===== *)
(** Bitmaps: storage/bitmap.rs.

    A bitmap is a string; bit [n] of it is bit [7 - n mod 8] of its byte
    [n / 8].  An offset is a [u64], so a string of up to [2^61] bytes may be
    asked for; that its allocation succeeds is assumed. *)

From S2P Require Import Prelude MapIface Resp Value Store.
Local Open Scope Z_scope.

Inductive BitOp := BitAnd | BitOr | BitXor | BitNot.

Definition byte_idx (offset : Z) : nat := Z.to_nat (offset / 8).
Definition bit_idx (offset : Z) : Z := 7 - offset mod 8.

(** [(byte >> i) & 1], [byte |= 1 << i] and [byte &= !(1 << i)]. *)
Definition bit_at (b : byte) (i : Z) : Z := Z.land (Z.shiftr (b2z b) i) 1.
Definition bit_set (i : Z) (b : byte) : byte := z2b (Z.lor (b2z b) (Z.shiftl 1 i)).
Definition bit_clear (i : Z) (b : byte) : byte := z2b (Z.land (b2z b) (Z.lnot (Z.shiftl 1 i))).

Definition zeros (n : nat) : bytes := replicate n Byte.x00.
Definition ensure_len (s : bytes) (min_len : nat) : bytes :=
  if (length s <? min_len)%nat then s ++ zeros (min_len - length s) else s.

(** The string of a key that SETBIT creates. *)
Definition fresh_bits (offset : Z) (v : bool) : bytes :=
  let bytes := zeros (byte_idx offset + 1) in
  if v then alter (bit_set (bit_idx offset)) (byte_idx offset) bytes else bytes.

(** [byte_idx < bytes.len() && (bytes[byte_idx] >> bit_idx) & 1], 0 outside. *)
Definition read_bit (s : bytes) (i : Z) : Z :=
  match s !! byte_idx i with Some b => bit_at b (bit_idx i) | None => 0 end.

Definition normalize_bit_index (idx : Z) (bit_len : Z) : Z :=
  if idx <? 0 then Z.max (bit_len + idx) 0 else Z.min idx (Z.max (bit_len - 1) 0).

Definition count_ones (b : byte) : Z := foldl Z.add 0 (bit_at b <$> seqZ 0 8).

(** [start] and [end] of a range of bytes. *)
Definition byte_start (start len : Z) : Z := if start <? 0 then Z.max (len + start) 0 else Z.min start len.
Definition byte_end (end_ len : Z) : Z := if end_ <? 0 then Z.max (len + end_) 0 else Z.min end_ (len - 1).

(** The closures on the string of [bitcount] and [bitpos]. *)
Definition count_bits (start end_ : Z) (use_bit : bool) (s : bytes) : Z :=
  if bool_decide (s = []) then 0
  else if use_bit then
    let bit_len := zlen s * 8 in
    let s_idx := normalize_bit_index start bit_len in
    let e_idx := normalize_bit_index end_ bit_len in
    if e_idx <? s_idx then 0
    else foldl (λ count i, if read_bit s i =? 1 then count + 1 else count) 0 (seqZ s_idx (e_idx + 1 - s_idx))
  else
    let s_idx := byte_start start (zlen s) in
    let e_idx := byte_end end_ (zlen s) in
    if e_idx <? s_idx then 0
    else foldl Z.add 0 (count_ones <$> take (Z.to_nat (e_idx + 1 - s_idx)) (drop (Z.to_nat s_idx) s)).

(** The first of [l] where [p] holds. *)
Fixpoint first_with (p : Z → bool) (l : list Z) : option Z :=
  match l with
  | [] => None
  | i :: l' => if p i then Some i else first_with p l'
  end.

Definition find_bit (bit start end_ : Z) (has_end use_bit : bool) (s : bytes) : Z :=
  if bool_decide (s = []) then (if bit =? 0 then 0 else -1)
  else if use_bit then
    let bit_len := zlen s * 8 in
    let s_idx := normalize_bit_index start bit_len in
    let e_idx := normalize_bit_index end_ bit_len in
    if e_idx <? s_idx then -1
    else default (-1) (first_with (λ i, read_bit s i =? bit) (seqZ s_idx (e_idx + 1 - s_idx)))
  else
    let s_idx := byte_start start (zlen s) in
    let e_idx := if end_ <? 0 then Z.max (zlen s + end_) 0
                 else if has_end then Z.min end_ (zlen s - 1) else zlen s - 1 in
    if e_idx <? s_idx then -1
    else
      match first_with (λ i, read_bit s i =? bit)
              (seqZ s_idx (Z.min (e_idx + 1) (zlen s) - s_idx) ≫= λ j, (λ k, j * 8 + (7 - k)) <$> reverse (seqZ 0 8)) with
      | Some pos => pos
      | None => if (bit =? 0) && negb has_end then zlen s * 8 else -1
      end.

Section Bitmap.
Context {M : Type} `{KVMap StoreValue M} (c : Clock).
Implicit Types (st : Store M).

Definition setbit (key : bytes) (offset : Z) (v : bool) st : Store M * result Z :=
  update_or_insert key (λ val,
    if is_expired c val then (mkValue (VString (fresh_bits offset v)) 0, Ok 0)
    else
      match as_string (value val) with
      | Some s =>
          let bytes := ensure_len s (byte_idx offset + 1) in
          let old := read_bit bytes offset in
          (mkValue (VString (alter (if v then bit_set (bit_idx offset) else bit_clear (bit_idx offset)) (byte_idx offset) bytes))
             (expires_ms val), Ok old)
      | None => (val, Err WRONGTYPE)
      end) (StoreValue_string (fresh_bits offset v)) (Ok 0) st.

Definition getbit (key : bytes) (offset : Z) st : result Z :=
  read_live c key (Ok 0)
    (λ v, match as_string v with Some s => Ok (read_bit s offset) | None => Err WRONGTYPE end) st.

Definition bitcount (key : bytes) (start end_ : Z) (use_bit : bool) st : result Z :=
  read_live c key (Ok 0)
    (λ v, match as_string v with Some s => Ok (count_bits start end_ use_bit s) | None => Err WRONGTYPE end) st.

Definition bitpos (key : bytes) (bit start end_ : Z) (has_end use_bit : bool) st : result Z :=
  read_live c key (Ok (if bit =? 0 then 0 else -1))
    (λ v, match as_string v with Some s => Ok (find_bit bit start end_ has_end use_bit s) | None => Err WRONGTYPE end) st.

(** The strings of the keys, read in order. *)
Fixpoint read_sources (keys : list bytes) st : result (list bytes) :=
  match keys with
  | [] => Ok []
  | k :: keys' =>
      match read_live c k (Ok []) (λ v, match as_string v with Some s => Ok s | None => Err WRONGTYPE end) st with
      | Err e => Err e
      | Ok b => match read_sources keys' st with Err e => Err e | Ok bs => Ok (b :: bs) end
      end
  end.

(** [result[i] = f(result[i], buf[i])] for every [i] below [buf.len()]. *)
Definition combine (f : Z → Z → Z) (acc buf : bytes) : bytes :=
  imap (λ i r, match buf !! i with Some b => z2b (f (b2z r) (b2z b)) | None => r end) acc.

Definition bitop_bytes (op : BitOp) (buffers : list bytes) : result bytes :=
  let max_len := foldl Nat.max O (length <$> buffers) in
  match op with
  | BitAnd => Ok (foldl (λ acc buf, combine Z.land acc (ensure_len buf max_len)) (replicate max_len Byte.xff) buffers)
  | BitOr => Ok (foldl (combine Z.lor) (zeros max_len) buffers)
  | BitXor => Ok (foldl (combine Z.lxor) (zeros max_len) buffers)
  | BitNot =>
      match buffers with
      | [b] => Ok ((λ x, z2b (255 - b2z x)) <$> b)
      | _ => Err (B "BITOP NOT requires one source key")
      end
  end.

Definition bitop (op : BitOp) (dest : bytes) (keys : list bytes) st : Store M * result Z :=
  match read_sources keys st with
  | Err e => (st, Err e)
  | Ok [] => (put dest (StoreValue_string []) st, Ok 0)
  | Ok buffers =>
      match bitop_bytes op buffers with
      | Err e => (st, Err e)
      | Ok result => (put dest (StoreValue_string result) st, Ok (zlen result))
      end
  end.
End Bitmap.
