(* ===== verification/CmdBitmap.v ===== *)
(** The bitmap commands: commends/bitmap.rs.

    The arithmetic of BITFIELD is on [i64] and [u64]: sums, products and the
    limits of a field wrap as in the release build. *)

From Stdlib Require Import Strings.Byte.
From S2P Require Import Prelude Decimal MapIface Resp Value Store Bitmap Handler.
Local Open Scope Z_scope.

(** An integer as an [i64]. *)
Definition i64_of (n : Z) : Z := as_i64 n.
Definition saturating_add_i64 (a b : Z) : Z := Z.max i64_min (Z.min i64_max (a + b)).

Inductive Overflow := Wrap | Sat | Fail.

Definition parse_u32_0 (s : bytes) : Z :=
  default 0 (n ← parse_u64 s; if n <? 2 ^ 32 then Some n else None).

(** [s[1..]] panics when the first character takes several bytes; the arguments
    are UTF-8. *)
Definition parse_bitfield_type (s : bytes) : option (bool * Z) :=
  match s with
  | [] => Some (false, 0)
  | b :: s' =>
      if is_char_boundary s 1
      then Some (bool_decide (b = "i"%byte) || bool_decide (b = "I"%byte), parse_u32_0 s')
      else None
  end.

Definition parse_bitfield_offset (s : bytes) (bits : Z) : Z :=
  match s with
  | "#"%byte :: stripped => wrap64 (default 0 (parse_u64 stripped) * bits)
  | _ => default 0 (parse_u64 s)
  end.

Definition clamp_signed (v bits : Z) : Z :=
  if 64 <=? bits then v
  else
    let mask := i64_of (Z.shiftl 1 bits - 1) in
    let v := Z.land v mask in
    if Z.land (Z.shiftr v (bits - 1)) 1 =? 1 then Z.lor v (Z.lnot mask) else v.

Definition clamp_unsigned (v bits : Z) : Z :=
  if 64 <=? bits then v else Z.land v (i64_of (Z.shiftl 1 bits - 1)).

Definition signed_min (bits : Z) : Z := i64_of (- i64_of (Z.shiftl 1 (bits - 1))).
Definition signed_max (bits : Z) : Z := i64_of (i64_of (Z.shiftl 1 (bits - 1)) - 1).
Definition unsigned_max (bits : Z) : Z := if 64 <=? bits then i64_max else i64_of (Z.shiftl 1 bits - 1).

Definition saturate_signed (old incr bits : Z) : Z :=
  Z.min (Z.max (saturating_add_i64 old incr) (signed_min bits)) (signed_max bits).
Definition saturate_unsigned (old incr bits : Z) : Z :=
  Z.min (Z.max (saturating_add_i64 old incr) 0) (unsigned_max bits).

(** What INCRBY stores: [None] when OVERFLOW FAIL refuses. *)
Definition incrby_value (overflow : Overflow) (signed : bool) (bits old increment : Z) : option Z :=
  let new_val := i64_of (old + increment) in
  match overflow with
  | Wrap => Some (if signed then clamp_signed new_val bits else clamp_unsigned new_val bits)
  | Sat => Some (if signed then saturate_signed old increment bits else saturate_unsigned old increment bits)
  | Fail =>
      let check := if signed then (signed_min bits <=? new_val) && (new_val <=? signed_max bits)
                   else (0 <=? new_val) && (new_val <=? unsigned_max bits) in
      if check then Some new_val else None
  end.

Section CmdBitmap.
Context {M : Type} `{KVMap StoreValue M} (c : Clock).
Implicit Types (parts : list bytes) (st : Store M).

Definition parse_u8 := parse_int_with (M := M) (λ s, n ← parse_u64 s; if n <? 256 then Some n else None).

Definition bf_get st (key : bytes) (offset bits : Z) (signed : bool) : Z :=
  let val := foldl (λ val i,
      let bit := match Bitmap.getbit c key (wrap64 (offset + i)) st with Ok b => b | Err _ => 0 end in
      Z.lor val (Z.shiftl bit (bits - 1 - i))) 0 (seqZ 0 bits) in
  if signed && (bits <? 64) && (Z.land (Z.shiftr val (bits - 1)) 1 =? 1)
  then i64_of (Z.lor val (wrap64 (Z.shiftl (u64_mod - 1) bits)))
  else i64_of val.

Definition bf_set (key : bytes) (offset bits v : Z) st : Store M :=
  foldl (λ st i, (Bitmap.setbit c key (wrap64 (offset + i)) (Z.land (Z.shiftr (wrap64 v) (bits - 1 - i)) 1 =? 1) st).1)
    st (seqZ 0 bits).

Definition setbit parts : Handler M unit :=
  match parts with
  | [_; key; offset; value] =>
      off ← parse_uint offset;
      v ← parse_u8 value;
      if 1 <? v then error (B "bit is not an integer or out of range")
      else r ← call (Bitmap.setbit c key off (v =? 1)); n ← store_ok r; put_integer n
  | _ => wrong_args (B "setbit")
  end.

Definition getbit parts : Handler M unit :=
  match parts with
  | [_; key; offset] => off ← parse_uint offset; r ← look (Bitmap.getbit c key off); n ← wt r; put_integer n
  | _ => wrong_args (B "getbit")
  end.

Definition bitcount parts : Handler M unit :=
  '(key, start, end_, use_bit) ←
    match parts with
    | [_; key] => mret (key, 0, -1, false)
    | [_; key; start; end_] => s ← parse_int start; e ← parse_int end_; mret (key, s, e, false)
    | [_; key; start; end_; mode] =>
        s ← parse_int start; e ← parse_int end_; mret (key, s, e, eq_ignore_case mode (B "BIT"))
    | _ => wrong_args (B "bitcount")
    end;
  r ← look (Bitmap.bitcount c key start end_ use_bit); n ← wt r; put_integer (as_i64 n).

Definition bitpos parts : Handler M unit :=
  match parts with
  | _ :: key :: bit_str :: rest =>
      bit ← parse_u8 bit_str;
      if 1 <? bit then error (B "bit is not an integer or out of range")
      else
        '(start, end_, has_end, use_bit) ←
          match rest with
          | [] => mret (0, -1, false, false)
          | [s] => s ← parse_int s; mret (s, -1, false, false)
          | [s; e] => s ← parse_int s; e ← parse_int e; mret (s, e, true, false)
          | [s; e; mode] => s ← parse_int s; e ← parse_int e; mret (s, e, true, eq_ignore_case mode (B "BIT"))
          | _ => wrong_args (B "bitpos")
          end;
        r ← look (Bitmap.bitpos c key bit start end_ has_end use_bit); n ← store_ok r; put_integer n
  | _ => wrong_args (B "bitpos")
  end.

Definition bitop_name (s : bytes) : option BitOp :=
  if eq_ignore_case s (B "AND") then Some BitAnd
  else if eq_ignore_case s (B "OR") then Some BitOr
  else if eq_ignore_case s (B "XOR") then Some BitXor
  else if eq_ignore_case s (B "NOT") then Some BitNot
  else None.

Definition bitop parts : Handler M unit :=
  match parts with
  | _ :: op_str :: dest :: keys =>
      if is_nil keys then wrong_args (B "bitop")
      else
        match bitop_name op_str with
        | None => syntax_error
        | Some op => r ← call (Bitmap.bitop c op dest keys); n ← store_ok r; put_integer (as_i64 n)
        end
  | _ => wrong_args (B "bitop")
  end.

(** [parse_bitfield_type] and [parse_bitfield_offset] of two arguments. *)
Definition field (ty off : bytes) : Handler M (bool * Z * Z) :=
  '(signed, bits) ← unwrap (parse_bitfield_type ty);
  mret (signed, bits, parse_bitfield_offset off bits).

Definition checked_bits (bits : Z) : Handler M unit :=
  if (bits =? 0) || (64 <? bits) then error (B "invalid bitfield type") else mret tt.

Definition i64_arg (s : bytes) : Handler M Z :=
  match parse_i64 s with Some v => mret v | None => error (B "value is not an integer") end.

(** The loop over the subcommands, with the results so far. *)
Fixpoint bitfield_loop (fuel : nat) (key : bytes) (rest : list bytes) (overflow : Overflow) (results : list (option Z))
    : Handler M (list (option Z)) :=
  match fuel, rest with
  | _, [] => mret results
  | O, _ => syntax_error
  | S fuel, op :: rest =>
      if eq_ignore_case op (B "OVERFLOW") then
        match rest with
        | [] => syntax_error
        | how :: rest =>
            if eq_ignore_case how (B "WRAP") then bitfield_loop fuel key rest Wrap results
            else if eq_ignore_case how (B "SAT") then bitfield_loop fuel key rest Sat results
            else if eq_ignore_case how (B "FAIL") then bitfield_loop fuel key rest Fail results
            else syntax_error
        end
      else if eq_ignore_case op (B "GET") then
        match rest with
        | ty :: off :: rest =>
            '(signed, bits, offset) ← field ty off;
            _ ← checked_bits bits;
            v ← look (λ st, bf_get st key offset bits signed);
            bitfield_loop fuel key rest overflow (results ++ [Some v])
        | _ => syntax_error
        end
      else if eq_ignore_case op (B "SET") then
        match rest with
        | ty :: off :: arg :: rest =>
            '(signed, bits, offset) ← field ty off;
            v ← i64_arg arg;
            _ ← checked_bits bits;
            old ← look (λ st, bf_get st key offset bits signed);
            _ ← act (bf_set key offset bits v);
            bitfield_loop fuel key rest overflow (results ++ [Some old])
        | _ => syntax_error
        end
      else if eq_ignore_case op (B "INCRBY") then
        match rest with
        | ty :: off :: arg :: rest =>
            '(signed, bits, offset) ← field ty off;
            increment ← i64_arg arg;
            _ ← checked_bits bits;
            old ← look (λ st, bf_get st key offset bits signed);
            match incrby_value overflow signed bits old increment with
            | Some v => _ ← act (bf_set key offset bits v); bitfield_loop fuel key rest overflow (results ++ [Some v])
            | None => bitfield_loop fuel key rest overflow (results ++ [None])
            end
        | _ => syntax_error
        end
      else syntax_error
  end.

Definition write_result (out : bytes) (r : option Z) : bytes :=
  match r with Some v => write_integer out v | None => write_nil out end.

Definition bitfield parts : Handler M unit :=
  match parts with
  | _ :: key :: rest =>
      if is_nil rest then put_header 0
      else
        results ← bitfield_loop (length rest) key rest Wrap [];
        write (λ out, foldl write_result (write_array_header out (Z.of_nat (length results))) results)
  | _ => wrong_args (B "bitfield")
  end.
End CmdBitmap.
