(* ===== verification/BitmapSpec.v ===== *)
(** Bitmaps: what SETBIT, GETBIT, BITCOUNT, BITOP and BITFIELD do to the bits. *)

From S2P Require Import Prelude Decimal MapIface Resp Value Store StoreSpec Handler CmdBitmap Bitmap.
Local Open Scope Z_scope.

(** ** Bits of bytes *)

Lemma land_1 x : Z.land x 1 = Z.b2z (Z.odd x).
Proof. change 1 with (Z.ones 1) at 1. rewrite Z.land_ones by lia. change (2 ^ 1) with 2. rewrite Zmod_odd. by destruct (Z.odd x). Qed.

Lemma bitmap_at_testbit b i : bit_at b i = Z.b2z (Z.testbit (b2z b) i).
Proof. unfold bit_at. by rewrite land_1, Z.testbit_odd. Qed.

Lemma z2b_testbit n j : 0 <= j < 8 → Z.testbit (b2z (z2b n)) j = Z.testbit n j.
Proof. intros Hj. rewrite b2z_z2b. change 256 with (2 ^ 8). apply Z.mod_pow2_bits_low. lia. Qed.

Lemma bit_set_testbit b i j : 0 <= i → 0 <= j < 8 → Z.testbit (b2z (bit_set i b)) j = (i =? j) || Z.testbit (b2z b) j.
Proof.
  intros Hi Hj. unfold bit_set. rewrite z2b_testbit, Z.lor_spec, Z.shiftl_1_l, Z.pow2_bits_eqb by lia. apply orb_comm.
Qed.

Lemma bit_clear_testbit b i j : 0 <= i → 0 <= j < 8 → Z.testbit (b2z (bit_clear i b)) j = negb (i =? j) && Z.testbit (b2z b) j.
Proof.
  intros Hi Hj. unfold bit_clear. rewrite z2b_testbit, Z.land_spec, Z.lnot_spec, Z.shiftl_1_l, Z.pow2_bits_eqb by lia.
  apply andb_comm.
Qed.

Lemma bit_idx_range i : 0 <= bit_idx i < 8.
Proof. unfold bit_idx. pose proof (Z.mod_pos_bound i 8). lia. Qed.

Lemma position_inj i j : 0 <= i → 0 <= j → byte_idx i = byte_idx j → bit_idx i = bit_idx j → i = j.
Proof.
  unfold byte_idx, bit_idx. intros Hi Hj H1 H2.
  apply Z2Nat.inj in H1; [|apply Z.div_pos; lia..]. rewrite (Z_div_mod_eq_full i 8), (Z_div_mod_eq_full j 8). lia.
Qed.

(** ** Bits of strings *)

Definition write_bit (v : bool) (i : Z) (s : bytes) : bytes :=
  alter (if v then bit_set (bit_idx i) else bit_clear (bit_idx i)) (byte_idx i) s.

Lemma read_write_bit v i j s :
  0 <= i → 0 <= j → (byte_idx i < length s)%nat →
  read_bit (write_bit v i s) j = if i =? j then Z.b2z v else read_bit s j.
Proof.
  intros Hi Hj Hl. unfold read_bit, write_bit. pose proof (bit_idx_range i) as Hbi. pose proof (bit_idx_range j) as Hbj.
  destruct (decide (byte_idx i = byte_idx j)) as [E|E].
  - rewrite <- E, list_lookup_alter. destruct (lookup_lt_is_Some_2 s (byte_idx i) Hl) as [b Hb].
    rewrite decide_True by done. rewrite Hb. simpl. rewrite !bitmap_at_testbit.
    destruct (Z.eqb_spec i j) as [->|Hne].
    + destruct v; [rewrite bit_set_testbit by lia|rewrite bit_clear_testbit by lia]; by rewrite Z.eqb_refl.
    + assert (bit_idx i ≠ bit_idx j) as Hd by (intros ?; by apply Hne, position_inj).
      destruct v; [rewrite bit_set_testbit by lia|rewrite bit_clear_testbit by lia];
        rewrite (proj2 (Z.eqb_neq _ _)) by done; done.
  - rewrite list_lookup_alter_ne by done. destruct (Z.eqb_spec i j) as [->|]; [done|]. done.
Qed.

Lemma read_bit_outside s i : (length s <= byte_idx i)%nat → read_bit s i = 0.
Proof. intros H. unfold read_bit. by rewrite lookup_ge_None_2. Qed.

Lemma read_bit_zeros n i : read_bit (zeros n) i = 0.
Proof.
  unfold read_bit, zeros. destruct (replicate n Byte.x00 !! byte_idx i) as [b|] eqn:E; [|done].
  apply lookup_replicate in E as [-> _]. rewrite bitmap_at_testbit. change (b2z Byte.x00) with 0. by rewrite Z.bits_0.
Qed.

Lemma ensure_len_length s n : length (ensure_len s n) = Nat.max (length s) n.
Proof. unfold ensure_len, zeros. destruct (Nat.ltb_spec (length s) n); [rewrite length_app, length_replicate|]; lia. Qed.

Lemma read_bit_ensure_len s n i : read_bit (ensure_len s n) i = read_bit s i.
Proof.
  unfold ensure_len. destruct (length s <? n)%nat; [|done]. unfold read_bit at 1.
  destruct (decide (byte_idx i < length s)%nat) as [Hlt|Hge].
  - rewrite lookup_app_l by done. done.
  - rewrite lookup_app_r by lia. rewrite (read_bit_outside s) by lia.
    destruct (zeros (n - length s) !! (byte_idx i - length s)%nat) as [b|] eqn:E; [|done].
    apply lookup_replicate in E as [-> _]. rewrite bitmap_at_testbit. change (b2z Byte.x00) with 0. by rewrite Z.bits_0.
Qed.

Lemma fresh_bits_write i v : fresh_bits i v = if v then write_bit true i (zeros (byte_idx i + 1)) else zeros (byte_idx i + 1).
Proof. by destruct v. Qed.

Lemma read_fresh_bits i j v : 0 <= i → 0 <= j → read_bit (fresh_bits i v) j = if i =? j then Z.b2z v else 0.
Proof.
  intros Hi Hj. rewrite fresh_bits_write. destruct v.
  - rewrite read_write_bit by (try done; unfold zeros; rewrite length_replicate; lia). by rewrite read_bit_zeros.
  - rewrite read_bit_zeros. by destruct (i =? j).
Qed.

(** ** SETBIT and GETBIT *)

Section Spec.
Context {M : Type} `{KVMapLaws StoreValue M} (c : Clock).
Implicit Types (st : Store M) (k : bytes).

(** The bits of a key: of its string, all clear if it has no live value. *)
Definition bits_of k st : result (Z → Z) :=
  match live c k st with
  | None => Ok (λ _, 0)
  | Some v => match as_string v with Some s => Ok (read_bit s) | None => Err WRONGTYPE end
  end.

Lemma getbit_bits k i st : store_wf st → getbit c k i st = match bits_of k st with Ok f => Ok (f i) | Err e => Err e end.
Proof.
  intros Hw. unfold getbit, bits_of. rewrite read_live_spec by done. destruct (live c k st) as [v|]; [|done].
  by destruct (as_string v).
Qed.

Lemma setbit_spec k i v st :
  store_wf st → 0 <= i →
  let '(st', r) := setbit c k i v st in
  store_wf st' ∧ r = getbit c k i st ∧ (∀ k', k' ≠ k → db st' !! k' = db st !! k') ∧
  match bits_of k st with
  | Err _ => db st' = db st
  | Ok f => ∃ f', bits_of k st' = Ok f' ∧ ∀ j, 0 <= j → f' j = if i =? j then Z.b2z v else f j
  end.
Proof.
  intros Hw Hi. rewrite getbit_bits by done. unfold setbit. match goal with |- context [update_or_insert k ?f ?fr ?r0 st] =>
    destruct (update_or_insert_spec k f fr r0 st Hw) as (Hw' & Hd & _ & Hr); destruct (update_or_insert k f fr r0 st) as [st' r] end.
  simpl in Hw', Hd, Hr. split; [done|]. unfold bits_of, live in *. rewrite Hd, lookup_insert_eq.
  assert (Hfresh : ∃ f', match as_string (VString (fresh_bits i v)) with Some s => Ok (read_bit s) | None => Err WRONGTYPE end = Ok f' ∧
      ∀ j, 0 <= j → f' j = if i =? j then Z.b2z v else 0)
    by (eexists; split; [done|]; intros j Hj; by apply read_fresh_bits).
  destruct (db st !! k) as [e|] eqn:E; simpl in *.
  - destruct (is_expired c e) eqn:Ex; simpl in *.
    + split; [done|]. split; [intros k' Hk; by rewrite lookup_insert_ne|]. exact Hfresh.
    + destruct (as_string (value e)) as [s|] eqn:Es; simpl in *.
      * split; [by rewrite Hr, read_bit_ensure_len|]. split; [intros k' Hk; by rewrite lookup_insert_ne|].
        replace (is_expired c _) with false by (symmetry; exact Ex). eexists. split; [done|]. intros j Hj.
        fold (write_bit v i (ensure_len s (byte_idx i + 1))).
        rewrite read_write_bit, read_bit_ensure_len by (try done; rewrite ensure_len_length; lia). done.
      * split; [done|]. split; [intros k' Hk; by rewrite lookup_insert_ne|]. by rewrite insert_id.
  - split; [done|]. split; [intros k' Hk; by rewrite lookup_insert_ne|]. exact Hfresh.
Qed.

(** ** Fields *)

Lemma testbit_shift_bit (b : bool) n j : 0 <= n → 0 <= j → Z.testbit (Z.shiftl (Z.b2z b) n) j = (j =? n) && b.
Proof.
  intros Hn Hj. destruct b; simpl Z.b2z; [rewrite Z.shiftl_1_l, Z.pow2_bits_eqb by lia; by rewrite Z.eqb_sym, andb_true_r|].
  by rewrite Z.shiftl_0_l, Z.bits_0, andb_false_r.
Qed.

Lemma lor_fold_testbit (g : Z → bool) bits l acc j :
  0 <= j → (∀ i, i ∈ l → i < bits) →
  Z.testbit (foldl (λ val i, Z.lor val (Z.shiftl (Z.b2z (g i)) (bits - 1 - i))) acc l) j =
    Z.testbit acc j || (bool_decide (bits - 1 - j ∈ l) && g (bits - 1 - j)).
Proof.
  intros Hj. revert acc. induction l as [|i l IH]; intros acc Hl; cbn [foldl]; [by rewrite orb_false_r|].
  rewrite IH by (intros; apply Hl; by right). assert (i < bits) by (apply Hl; by left).
  rewrite Z.lor_spec, testbit_shift_bit by lia. rewrite <- orb_assoc. f_equal.
  destruct (Z.eqb_spec j (bits - 1 - i)) as [->|Hne]; simpl.
  - replace (bits - 1 - (bits - 1 - i)) with i by lia. rewrite (bool_decide_true (i ∈ i :: l)) by (by left).
    destruct (g i); simpl; [done|by rewrite andb_false_r].
  - f_equal. apply bool_decide_ext. rewrite elem_of_cons. split; [by right|]. intros [?|?]; [lia|done].
Qed.

(** The bits of a field, the most significant first, as a number. *)
Lemma fold_bits_value (g : Z → bool) bits v :
  0 <= bits → (∀ i, 0 <= i < bits → g i = Z.testbit v (bits - 1 - i)) →
  foldl (λ val i, Z.lor val (Z.shiftl (Z.b2z (g i)) (bits - 1 - i))) 0 (seqZ 0 bits) = v mod 2 ^ bits.
Proof.
  intros Hb Hg. apply Z.bits_inj'. intros j Hj.
  rewrite lor_fold_testbit by (try done; intros i Hi; apply elem_of_seqZ in Hi; lia). rewrite Z.bits_0. simpl.
  destruct (Z.ltb_spec j bits) as [Hlt|Hge].
  - rewrite bool_decide_true by (apply elem_of_seqZ; lia). rewrite Z.mod_pow2_bits_low, Hg by lia.
    by replace (bits - 1 - (bits - 1 - j)) with j by lia.
  - rewrite bool_decide_false by (rewrite elem_of_seqZ; lia). by rewrite Z.mod_pow2_bits_high by lia.
Qed.

(** What a field of [bits] bits that holds [v] reads as. *)
Definition field_value (signed : bool) (bits v : Z) : Z :=
  let u := v mod 2 ^ bits in
  if (signed || (bits =? 64)) && (2 ^ (bits - 1) <=? u) then u - 2 ^ bits else u.

Definition to_field (signed : bool) (bits val : Z) : Z :=
  if signed && (bits <? 64) && (Z.land (Z.shiftr val (bits - 1)) 1 =? 1)
  then i64_of (Z.lor val (wrap64 (Z.shiftl (u64_mod - 1) bits))) else i64_of val.

Lemma top_bit bits u : 0 < bits → 0 <= u < 2 ^ bits → Z.testbit u (bits - 1) = (2 ^ (bits - 1) <=? u).
Proof.
  intros Hb Hu. assert (Hp : 2 ^ bits = 2 * 2 ^ (bits - 1)) by (rewrite <- Z.pow_succ_r by lia; f_equal; lia).
  rewrite Z.testbit_odd, Z.shiftr_div_pow2 by lia. destruct (Z.leb_spec (2 ^ (bits - 1)) u) as [Hle|Hlt].
  - assert (u / 2 ^ (bits - 1) = 1) as -> by (symmetry; apply Z.div_unique with (u - 2 ^ (bits - 1)); lia). done.
  - by rewrite Z.div_small by lia.
Qed.

Lemma lor_shift_add u x n : 0 <= n → 0 <= u < 2 ^ n → Z.lor u (Z.shiftl x n) = u + x * 2 ^ n.
Proof.
  intros Hn Hu. rewrite <- Z.shiftl_mul_pow2 by done. assert (Hz : Z.land u (Z.shiftl x n) = 0).
  { apply Z.bits_inj'. intros j Hj. rewrite Z.land_spec, Z.bits_0. destruct (Z.ltb_spec j n).
    - rewrite Z.shiftl_spec_low by done. apply andb_false_r.
    - rewrite <- (Z.mod_small u (2 ^ n)) by done. by rewrite Z.mod_pow2_bits_high by lia. }
  rewrite Z.add_nocarry_lxor by done. by rewrite Z.lxor_lor.
Qed.

Lemma to_field_value signed bits v : 0 < bits <= 64 → to_field signed bits (v mod 2 ^ bits) = field_value signed bits v.
Proof.
  intros Hb. unfold to_field, field_value. set (u := v mod 2 ^ bits).
  assert (Hu : 0 <= u < 2 ^ bits) by (apply Z.mod_pos_bound, Z.pow_pos_nonneg; lia).
  assert (Hle : 2 ^ bits <= u64_mod) by (change u64_mod with (2 ^ 64); apply Z.pow_le_mono_r; lia).
  rewrite land_1, <- Z.testbit_odd, top_bit by lia.
  assert (Hi : ∀ n, 0 <= n < u64_mod → i64_of n = if 2 ^ 63 <=? n then n - 2 ^ 64 else n).
  { intros n Hn. unfold i64_of, as_i64, wrap64. rewrite Z.mod_small by done. change i64_max with (2 ^ 63 - 1). change u64_mod with (2 ^ 64).
    destruct (Z.leb_spec n (2 ^ 63 - 1)), (Z.leb_spec (2 ^ 63) n); lia. }
  destruct (Z.eqb_spec bits 64) as [->|Hne].
  - rewrite orb_true_r. change (64 <? 64) with false. rewrite andb_false_r. simpl. rewrite Hi by lia. done.
  - rewrite orb_false_r. rewrite (proj2 (Z.ltb_lt bits 64)) by lia. rewrite andb_true_r.
    assert (Hp : 2 ^ bits <= 2 ^ 63) by (apply Z.pow_le_mono_r; lia).
    assert (Hlow : i64_of u = u) by (rewrite Hi by lia; by rewrite (proj2 (Z.leb_gt _ _)) by lia).
    destruct signed; simpl; [|done]. destruct (2 ^ (bits - 1) <=? u) eqn:Et; simpl; [|done].
    assert (Hones : wrap64 (Z.shiftl (u64_mod - 1) bits) = Z.shiftl (Z.ones (64 - bits)) bits).
    { rewrite !Z.shiftl_mul_pow2, Z.ones_equiv by lia. unfold wrap64. change u64_mod with (2 ^ 64).
      assert (2 ^ 64 = 2 ^ (64 - bits) * 2 ^ bits) as Hsp by (rewrite <- Z.pow_add_r by lia; f_equal; lia).
      pose proof (Z.pow_pos_nonneg 2 bits). symmetry. apply Z.mod_unique with (2 ^ bits - 1); lia. }
    rewrite Hones. assert (Hl : Z.lor u (Z.shiftl (Z.ones (64 - bits)) bits) = u + (2 ^ 64 - 2 ^ bits)).
    { rewrite lor_shift_add, Z.ones_equiv by lia. assert (2 ^ 64 = 2 ^ (64 - bits) * 2 ^ bits) by (rewrite <- Z.pow_add_r by lia; f_equal; lia).
      lia. }
    rewrite Hl. change u64_mod with (2 ^ 64) in Hi. rewrite Hi by lia. rewrite (proj2 (Z.leb_le _ _)) by lia. lia.
Qed.
(** The bits of a key are bits. *)
Lemma bits_of_bits k st f j : bits_of k st = Ok f → f j = Z.b2z (f j =? 1).
Proof.
  unfold bits_of. destruct (live c k st) as [v|]; [|intros [= <-]; done]. destruct (as_string v); [|done]. intros [= <-].
  unfold read_bit. destruct (_ !! _) as [b|]; [|done]. rewrite bitmap_at_testbit. by destruct (Z.testbit _ _).
Qed.

Lemma foldl_ext_in {A B} (f g : A → B → A) l a : (∀ a b, b ∈ l → f a b = g a b) → foldl f a l = foldl g a l.
Proof.
  revert a. induction l as [|b l IH]; intros a Hfg; [done|]. simpl. rewrite Hfg by (by left).
  apply IH. intros; apply Hfg; by right.
Qed.

Lemma bf_get_value k st f off bits signed v :
  store_wf st → bits_of k st = Ok f → 0 < bits <= 64 → 0 <= off → off + bits <= u64_mod →
  (∀ i, 0 <= i < bits → f (off + i) = Z.b2z (Z.testbit v (bits - 1 - i))) →
  bf_get c st k off bits signed = field_value signed bits v.
Proof.
  intros Hw Hf Hb Ho Hr Hv. rewrite <- to_field_value by done.
  rewrite <- (fold_bits_value (λ i, f (off + i) =? 1)); [|lia|].
  - unfold bf_get, to_field. cbv zeta. erewrite foldl_ext_in; [done|]. intros a i Hi. apply elem_of_seqZ in Hi. simpl.
    rewrite getbit_bits, Hf by done. unfold wrap64. rewrite Z.mod_small by lia. by rewrite <- (bits_of_bits _ _ _ _ Hf).
  - intros i Hi. rewrite Hv by done. by destruct (Z.testbit _ _).
Qed.

Lemma set_bits_fold k off bits v l st :
  store_wf st → 0 <= off → bits <= 64 → (∀ i, i ∈ l → 0 <= i < bits ∧ off + i < u64_mod) →
  let st' := foldl (λ st i, (setbit c k (wrap64 (off + i)) (Z.land (Z.shiftr (wrap64 v) (bits - 1 - i)) 1 =? 1) st).1) st l in
  store_wf st' ∧ (∀ k', k' ≠ k → db st' !! k' = db st !! k') ∧
  match bits_of k st with
  | Err _ => db st' = db st
  | Ok f => ∃ f', bits_of k st' = Ok f' ∧
      ∀ j, 0 <= j → f' j = if bool_decide (j - off ∈ l) then Z.b2z (Z.testbit v (bits - 1 - (j - off))) else f j
  end.
Proof.
  intros Hw Ho Hb. revert st Hw. induction l as [|i l IH]; intros st Hw Hl; simpl.
  - split; [done|]. split; [done|]. destruct (bits_of k st) as [f|e]; [|done]. by exists f.
  - destruct (Hl i) as [Hi Hoi]; [by left|].
    set (b := Z.land _ 1 =? 1). assert (Hbit : b = Z.testbit v (bits - 1 - i)).
    { subst b. rewrite land_1, <- Z.testbit_odd. unfold wrap64. change u64_mod with (2 ^ 64). rewrite Z.mod_pow2_bits_low by lia.
      by destruct (Z.testbit _ _). }
    rewrite Hbit. clearbody b. subst b. assert (Hwr : wrap64 (off + i) = off + i) by (unfold wrap64; apply Z.mod_small; lia). rewrite Hwr.
    pose proof (setbit_spec k (off + i) (Z.testbit v (bits - 1 - i)) st Hw ltac:(lia)) as Hs.
    destruct (setbit c k (off + i) _ st) as [st1 r]. destruct Hs as (Hw1 & _ & Hk1 & Hb1).
    destruct (IH st1 Hw1) as (Hw2 & Hk2 & Hb2); [intros; apply Hl; by right|].
    split; [done|]. split; [intros k' Hk; by rewrite Hk2, Hk1|].
    destruct (bits_of k st) as [f|e] eqn:Ef.
    + destruct Hb1 as (f1 & Hf1 & Hj1). rewrite Hf1 in Hb2. destruct Hb2 as (f2 & Hf2 & Hj2). exists f2. split; [done|].
      intros j Hj. rewrite Hj2, Hj1 by done. destruct (Z.eqb_spec (off + i) j) as [<-|Hne].
      * replace (off + i - off) with i by lia. rewrite (bool_decide_true (i ∈ i :: l)) by (by left). by destruct (bool_decide _).
      * erewrite (bool_decide_ext (j - off ∈ i :: l)); [done|]. rewrite elem_of_cons. split; [|by right]. intros [?|?]; [lia|done].
    + assert (bits_of k st1 = Err e) as Ef1 by (unfold bits_of, live in *; by rewrite Hb1). rewrite Ef1 in Hb2. etrans; [exact Hb2|exact Hb1].
Qed.
End Spec.

(** ** The arithmetic of INCRBY *)

Lemma i64_of_wrap n : i64_of n = (n + 2 ^ 63) mod 2 ^ 64 - 2 ^ 63.
Proof.
  unfold i64_of, as_i64, wrap64. change u64_mod with (2 ^ 64). change i64_max with (2 ^ 63 - 1).
  pose proof (Z_div_mod_eq_full n (2 ^ 64)) as Hd. pose proof (Z.mod_pos_bound n (2 ^ 64) ltac:(lia)) as Hr.
  destruct (Z.leb_spec (n mod 2 ^ 64) (2 ^ 63 - 1)).
  - rewrite <- (Z.mod_unique (n + 2 ^ 63) (2 ^ 64) (n / 2 ^ 64) (n mod 2 ^ 64 + 2 ^ 63)); lia.
  - rewrite <- (Z.mod_unique (n + 2 ^ 63) (2 ^ 64) (n / 2 ^ 64 + 1) (n mod 2 ^ 64 - 2 ^ 63)); lia.
Qed.

Lemma i64_of_id n : - 2 ^ 63 <= n < 2 ^ 63 → i64_of n = n.
Proof. intros Hn. rewrite i64_of_wrap, Z.mod_small by lia. lia. Qed.

Lemma i64_of_mod n bits : 0 <= bits <= 63 → i64_of n mod 2 ^ bits = n mod 2 ^ bits.
Proof.
  intros Hb. rewrite i64_of_wrap. pose proof (Z_div_mod_eq_full (n + 2 ^ 63) (2 ^ 64)) as Hd.
  assert (H64 : 2 ^ 64 = 2 ^ (64 - bits) * 2 ^ bits) by (rewrite <- Z.pow_add_r by lia; f_equal; lia).
  set (q := (n + 2 ^ 63) / 2 ^ 64) in *. assert (Hn : (n + 2 ^ 63) mod 2 ^ 64 - 2 ^ 63 = n + (- q) * 2 ^ 64) by lia.
  rewrite Hn, H64, Z.mul_assoc. apply Z_mod_plus_full.
Qed.

Lemma field_mask bits : 0 < bits < 64 → i64_of (Z.shiftl 1 bits - 1) = Z.ones bits.
Proof.
  intros Hb. rewrite Z.shiftl_1_l, Z.ones_equiv, i64_of_id; [lia|].
  pose proof (Z.pow_le_mono_r 2 bits 63). pose proof (Z.pow_pos_nonneg 2 bits). lia.
Qed.

Lemma clamp_value (signed : bool) bits n :
  0 < bits < 64 → (if signed then clamp_signed (i64_of n) bits else clamp_unsigned (i64_of n) bits) = field_value signed bits n.
Proof.
  intros Hb. unfold field_value, clamp_signed, clamp_unsigned. rewrite (proj2 (Z.leb_gt 64 bits)) by lia.
  rewrite (proj2 (Z.eqb_neq bits 64)) by lia. rewrite orb_false_r, field_mask, Z.land_ones, i64_of_mod by lia.
  destruct signed; simpl; [|done]. set (u := n mod 2 ^ bits).
  assert (Hu : 0 <= u < 2 ^ bits) by (apply Z.mod_pos_bound, Z.pow_pos_nonneg; lia).
  rewrite land_1, <- Z.testbit_odd, top_bit by lia.
  assert (Hlor : Z.lor u (Z.lnot (Z.ones bits)) = u - 2 ^ bits).
  { assert (Z.lnot (Z.ones bits) = Z.shiftl (-1) bits) as ->
      by (rewrite Z.shiftl_mul_pow2, Z.ones_equiv by lia; unfold Z.lnot; lia).
    rewrite lor_shift_add by lia. lia. }
  rewrite Hlor. by destruct (2 ^ (bits - 1) <=? u).
Qed.

Definition in_field (signed : bool) (bits n : Z) : Prop :=
  if signed then - 2 ^ (bits - 1) <= n < 2 ^ (bits - 1) else 0 <= n < 2 ^ bits.
#[global] Instance in_field_dec signed bits n : Decision (in_field signed bits n).
Proof. unfold in_field. destruct signed; apply _. Defined.

Definition field_min (signed : bool) (bits : Z) : Z := if signed then - 2 ^ (bits - 1) else 0.
Definition field_max (signed : bool) (bits : Z) : Z := (if signed then 2 ^ (bits - 1) else 2 ^ bits) - 1.

Lemma code_limits bits :
  0 < bits < 64 → signed_min bits = field_min true bits ∧ signed_max bits = field_max true bits ∧ unsigned_max bits = field_max false bits.
Proof.
  intros Hb. unfold signed_min, signed_max, unsigned_max, field_min, field_max. rewrite (proj2 (Z.leb_gt 64 bits)) by lia.
  rewrite field_mask, Z.ones_equiv, Z.shiftl_1_l by lia.
  pose proof (Z.pow_le_mono_r 2 (bits - 1) 62 ltac:(lia) ltac:(lia)). pose proof (Z.pow_pos_nonneg 2 (bits - 1) ltac:(lia) ltac:(lia)).
  rewrite !(i64_of_id (2 ^ (bits - 1))) by lia. rewrite !i64_of_id by lia. lia.
Qed.

(** ** Counting *)

Definition sumZ (l : list Z) : Z := foldl Z.add 0 l.

Lemma foldl_add_acc l a : foldl Z.add a l = a + sumZ l.
Proof.
  unfold sumZ. revert a. induction l as [|x l IH]; intros a; cbn [foldl]; [lia|]. rewrite (IH (a + x)), (IH (0 + x)). lia.
Qed.

Lemma sumZ_app l1 l2 : sumZ (l1 ++ l2) = sumZ l1 + sumZ l2.
Proof. unfold sumZ at 1. by rewrite foldl_app, foldl_add_acc. Qed.

(** The number of set bits among the [n] from [lo]: bits are 0 or 1. *)
Definition ones (s : bytes) (lo n : Z) : Z := sumZ (read_bit s <$> seqZ lo n).

Lemma read_bit_01 s i : read_bit s i = 0 ∨ read_bit s i = 1.
Proof. unfold read_bit. destruct (_ !! _); [|by left]. rewrite bitmap_at_testbit. destruct (Z.testbit _ _); auto. Qed.

Lemma count_fold s l a : foldl (λ count i, if read_bit s i =? 1 then count + 1 else count) a l = a + sumZ (read_bit s <$> l).
Proof.
  revert a. induction l as [|i l IH]; intros a; cbn [foldl fmap list_fmap]; [unfold sumZ; simpl; lia|].
  rewrite IH. change (read_bit s i :: (read_bit s <$> l)) with ([read_bit s i] ++ (read_bit s <$> l)). rewrite sumZ_app.
  unfold sumZ at 2. simpl. destruct (read_bit_01 s i) as [-> | ->]; simpl; lia.
Qed.

Lemma read_bit_byte s m b k : s !! m = Some b → 0 <= k < 8 → read_bit s (8 * Z.of_nat m + k) = bit_at b (7 - k).
Proof.
  intros Hb Hk. unfold read_bit, byte_idx, bit_idx.
  rewrite <- (Z.div_unique (8 * Z.of_nat m + k) 8 (Z.of_nat m) k) by lia.
  rewrite <- (Z.mod_unique (8 * Z.of_nat m + k) 8 (Z.of_nat m) k) by lia. by rewrite Nat2Z.id, Hb.
Qed.

Lemma ones_byte s m b : s !! m = Some b → ones s (8 * Z.of_nat m) 8 = count_ones b.
Proof.
  intros Hb. unfold ones, count_ones. pose proof (λ k, read_bit_byte s m b k Hb) as Hr.
  assert (seqZ (8 * Z.of_nat m) 8 = (λ k, 8 * Z.of_nat m + k) <$> seqZ 0 8) as ->.
  { unfold seqZ. rewrite <- list_fmap_compose. apply list_fmap_ext. intros i x _. simpl. lia. }
  change (seqZ 0 8) with [0; 1; 2; 3; 4; 5; 6; 7]. cbn [fmap list_fmap]. rewrite !Hr by lia. unfold sumZ. cbn [foldl].
  repeat match goal with |- context [7 - ?k] => let v := eval compute in (7 - k) in change (7 - k) with v end. lia.
Qed.

Lemma ones_bytes s m n :
  (m + n <= length s)%nat → ones s (8 * Z.of_nat m) (8 * Z.of_nat n) = foldl Z.add 0 (count_ones <$> take n (drop m s)).
Proof.
  revert m. induction n as [|n IH]; intros m Hl; [done|].
  destruct (lookup_lt_is_Some_2 s m) as [b Hb]; [lia|]. rewrite (drop_S _ _ _ Hb). cbn [take fmap list_fmap].
  change (foldl Z.add 0 ?l) with (sumZ l). change (count_ones b :: ?l) with ([count_ones b] ++ l). rewrite sumZ_app.
  unfold sumZ at 2. rewrite <- IH by lia. rewrite <- (ones_byte s m b Hb). unfold ones, sumZ at 2. simpl foldl.
  replace (8 * Z.of_nat (S n)) with (8 + 8 * Z.of_nat n) by lia. rewrite seqZ_app by lia. rewrite fmap_app, sumZ_app.
  unfold sumZ at 1 3. simpl. do 4 f_equal. lia.
Qed.

(** ** BITOP *)

Definition bit (s : bytes) (i : Z) : bool := read_bit s i =? 1.

Lemma read_bit_bit s i : read_bit s i = Z.b2z (bit s i).
Proof. unfold bit. by destruct (read_bit_01 s i) as [-> | ->]. Qed.

Lemma bit_testbit s i : bit s i = match s !! byte_idx i with Some b => Z.testbit (b2z b) (bit_idx i) | None => false end.
Proof. unfold bit, read_bit. destruct (_ !! _); [|done]. rewrite bitmap_at_testbit. by destruct (Z.testbit _ _). Qed.

Lemma combine_length f acc buf : length (combine f acc buf) = length acc.
Proof. apply length_imap. Qed.

Lemma combine_bit f g acc buf i :
  (∀ a b k, 0 <= k → Z.testbit (f a b) k = g (Z.testbit a k) (Z.testbit b k)) →
  (byte_idx i < length acc)%nat → ((byte_idx i < length buf)%nat ∨ ∀ x, g x false = x) →
  bit (combine f acc buf) i = g (bit acc i) (bit buf i).
Proof.
  intros Hf Ha Hb. rewrite !bit_testbit. unfold combine. rewrite list_lookup_imap.
  destruct (lookup_lt_is_Some_2 acc _ Ha) as [a Hla]. rewrite Hla. simpl. pose proof (bit_idx_range i) as Hi.
  destruct (buf !! byte_idx i) as [b|] eqn:Hlb.
  - by rewrite z2b_testbit, Hf by lia.
  - destruct Hb as [Hb|Hg]; [apply lookup_lt_is_Some_2 in Hb as [? ?]; congruence|by rewrite Hg].
Qed.

Lemma combine_fold_length f bufs acc : length (foldl (combine f) acc bufs) = length acc.
Proof. revert acc. induction bufs as [|b bufs IH]; intros acc; simpl; [done|]. by rewrite IH, combine_length. Qed.

Lemma combine_fold f g bufs acc i :
  (∀ a b k, 0 <= k → Z.testbit (f a b) k = g (Z.testbit a k) (Z.testbit b k)) →
  (byte_idx i < length acc)%nat → (∀ x, g x false = x) ∨ Forall (λ b, (byte_idx i < length b)%nat) bufs →
  bit (foldl (combine f) acc bufs) i = foldl g (bit acc i) ((λ b, bit b i) <$> bufs).
Proof.
  intros Hf. revert acc. induction bufs as [|b bufs IH]; intros acc Ha Hb; cbn [foldl fmap list_fmap]; [done|].
  rewrite IH; [|by rewrite combine_length|destruct Hb as [Hb|Hb]; [by left|right; by apply Forall_cons in Hb as [_ ?]]].
  rewrite (combine_bit f g); [done|done|done|]. destruct Hb as [Hb|Hb]; [by right|left; by apply Forall_cons in Hb as [? _]].
Qed.

Definition max_len (buffers : list bytes) : nat := foldl Nat.max O (length <$> buffers).

(** What BITOP promises of a bit, given the bits of the sources there. *)
Definition op_bit (op : BitOp) (l : list bool) : bool :=
  match op with
  | BitAnd => foldl andb true l
  | BitOr => foldl orb false l
  | BitXor => foldl xorb false l
  | BitNot => negb (foldl orb false l)
  end.

Lemma byte_idx_lt i n : 0 <= i < 8 * Z.of_nat n → (byte_idx i < n)%nat.
Proof. intros Hi. unfold byte_idx. assert (i / 8 < Z.of_nat n) by (apply Z.div_lt_upper_bound; lia). pose proof (Z.div_pos i 8). lia. Qed.

Lemma bit_replicate_ff n i : (byte_idx i < n)%nat → bit (replicate n Byte.xff) i = true.
Proof.
  intros Hi. rewrite bit_testbit, lookup_replicate_2 by done. change (b2z Byte.xff) with (Z.ones 8).
  pose proof (bit_idx_range i). by rewrite Z.ones_spec_low by lia.
Qed.

Lemma bit_not_byte b k : 0 <= k < 8 → Z.testbit (b2z (z2b (255 - b2z b))) k = negb (Z.testbit (b2z b) k).
Proof.
  intros Hk. rewrite z2b_testbit by done. replace (255 - b2z b) with (Z.lnot (b2z b) + 1 * 2 ^ 8) by (unfold Z.lnot; lia).
  rewrite <- (Z.mod_pow2_bits_low _ 8) by lia. rewrite Z_mod_plus_full, Z.mod_pow2_bits_low, Z.lnot_spec by lia. done.
Qed.

Lemma max_len_ge bufs b : b ∈ bufs → (length b <= max_len bufs)%nat.
Proof.
  unfold max_len. assert (Hmono : ∀ l n, (n <= foldl Nat.max n l)%nat).
  { induction l as [|x l IH]; intros n; simpl; [done|]. etrans; [|apply IH]. lia. }
  generalize O. induction bufs as [|x bufs IH]; intros n Hin; [by apply elem_of_nil in Hin|]. simpl.
  apply elem_of_cons in Hin as [->|Hin]; [|by apply IH]. etrans; [|apply Hmono]. lia.
Qed.

Lemma bit_zeros n i : bit (zeros n) i = false.
Proof. unfold bit. by rewrite read_bit_zeros. Qed.

Lemma bitop_bytes_spec op bufs :
  (op = BitNot → length bufs = 1%nat) →
  ∃ r, bitop_bytes op bufs = Ok r ∧ length r = max_len bufs ∧
    ∀ i, 0 <= i < 8 * zlen r → bit r i = op_bit op ((λ b, bit b i) <$> bufs).
Proof.
  intros Hnot. unfold bitop_bytes. fold (max_len bufs). unfold zlen. destruct op.
  - eexists. split; [done|]. set (l := (λ b, ensure_len b (max_len bufs)) <$> bufs).
    set (r := foldl _ _ _). assert (Heq : r = foldl (combine Z.land) (replicate (max_len bufs) Byte.xff) l)
      by (symmetry; apply foldl_fmap). rewrite Heq, combine_fold_length, length_replicate. split; [done|].
    intros i Hi%byte_idx_lt. rewrite (combine_fold Z.land andb); [|intros; apply Z.land_spec|by rewrite length_replicate|right].
    + rewrite bit_replicate_ff by done. simpl. f_equal. subst l. rewrite <- list_fmap_compose. apply list_fmap_ext.
      intros j b _. simpl. unfold bit. by rewrite read_bit_ensure_len.
    + subst l. apply Forall_fmap, Forall_forall. intros b Hb. simpl. rewrite ensure_len_length. lia.
  - eexists. split; [done|]. rewrite combine_fold_length. unfold zeros at 1 2. rewrite length_replicate. split; [done|].
    intros i Hi%byte_idx_lt. rewrite (combine_fold Z.lor orb); [|intros; apply Z.lor_spec|unfold zeros; by rewrite length_replicate|left; apply orb_false_r].
    by rewrite bit_zeros.
  - eexists. split; [done|]. rewrite combine_fold_length. unfold zeros at 1 2. rewrite length_replicate. split; [done|].
    intros i Hi%byte_idx_lt. rewrite (combine_fold Z.lxor xorb); [|intros; apply Z.lxor_spec|unfold zeros; by rewrite length_replicate|left; apply xorb_false_r].
    by rewrite bit_zeros.
  - destruct bufs as [|b [|b' bufs]]; [by specialize (Hnot eq_refl)| |by specialize (Hnot eq_refl)].
    eexists. split; [done|]. rewrite length_fmap. split; [done|]. intros i Hi%byte_idx_lt. simpl.
    rewrite !bit_testbit, list_lookup_fmap. destruct (lookup_lt_is_Some_2 b _ Hi) as [x Hx]. rewrite Hx. simpl.
    apply bit_not_byte, bit_idx_range.
Qed.

(** For fields below 64 bits INCRBY computes with the exact sum: WRAP stores it
    modulo the width, SAT stores the nearest value of the field, FAIL refuses
    exactly what the field cannot hold. *)
Theorem bitfield_incr_correct signed bits old incr :
  0 < bits < 64 → in_field signed bits old → - 2 ^ 63 <= incr < 2 ^ 63 →
  incrby_value Wrap signed bits old incr = Some (field_value signed bits (old + incr)) ∧
  incrby_value Sat signed bits old incr = Some (Z.min (Z.max (old + incr) (field_min signed bits)) (field_max signed bits)) ∧
  incrby_value Fail signed bits old incr = (if decide (in_field signed bits (old + incr)) then Some (old + incr) else None).
Proof.
  intros Hb Hold Hi. destruct (code_limits bits Hb) as (Hmin & Hmax & Humax). unfold incrby_value.
  rewrite clamp_value by done. split; [done|].
  assert (Hp : 2 ^ bits = 2 * 2 ^ (bits - 1)) by (rewrite <- Z.pow_succ_r by lia; f_equal; lia).
  pose proof (Z.pow_le_mono_r 2 (bits - 1) 62 ltac:(lia) ltac:(lia)) as Hle. pose proof (Z.pow_pos_nonneg 2 (bits - 1) ltac:(lia) ltac:(lia)) as Hpos.
  unfold saturate_signed, saturate_unsigned, saturating_add_i64. rewrite Hmin, Hmax, Humax.
  change i64_min with (- 2 ^ 63). change i64_max with (2 ^ 63 - 1). unfold field_min, field_max, in_field in *. split.
  - destruct signed; f_equal; lia.
  - rewrite i64_of_wrap. assert (Hs : - 2 ^ 64 < old + incr < 2 ^ 64) by (destruct signed; lia).
    assert (Hw : (old + incr + 2 ^ 63) mod 2 ^ 64 - 2 ^ 63 =
      if 2 ^ 63 <=? old + incr then old + incr - 2 ^ 64 else if old + incr <? - 2 ^ 63 then old + incr + 2 ^ 64 else old + incr).
    { destruct (Z.leb_spec (2 ^ 63) (old + incr)); [|destruct (Z.ltb_spec (old + incr) (- 2 ^ 63))].
      - symmetry. rewrite <- (Z.mod_unique (old + incr + 2 ^ 63) (2 ^ 64) 1 (old + incr - 2 ^ 63)); lia.
      - symmetry. rewrite <- (Z.mod_unique (old + incr + 2 ^ 63) (2 ^ 64) (-1) (old + incr + 2 ^ 63 + 2 ^ 64)); lia.
      - rewrite Z.mod_small by lia. lia. }
    rewrite Hw. destruct signed; case_decide; repeat case_match; simplify_eq; rewrite ?andb_true_iff, ?andb_false_iff in *; try done; f_equal; lia.
Qed.

(** ** Properties *)

Section Claims.
Context {M : Type} `{KVMapLaws StoreValue M} (c : Clock).
Implicit Types (st : Store M) (k : bytes).

(** The string of a key, empty if it has no live value. *)
Definition string_of k st : result bytes :=
  match live c k st with None => Ok [] | Some v => match as_string v with Some s => Ok s | None => Err WRONGTYPE end end.

Lemma bits_of_string k st :
  bits_of c k st = match string_of k st with Ok s => Ok (read_bit s) | Err e => Err e end ∨
  (string_of k st = Ok [] ∧ bits_of c k st = Ok (λ _, 0)).
Proof.
  unfold bits_of, string_of. destruct (live c k st) as [v|]; [left|by right]. by destruct (as_string v).
Qed.

Lemma read_sources_ok keys bufs st :
  store_wf st → Forall2 (λ k b, string_of k st = Ok b) keys bufs → read_sources c keys st = Ok bufs.
Proof.
  intros Hw Hall. induction Hall as [|k b keys bufs Hk _ IH]; [done|]. simpl.
  rewrite read_live_spec by done. unfold string_of in Hk. rewrite IH. destruct (live c k st) as [v|]; [|by injection Hk as <-].
  by rewrite Hk.
Qed.

Lemma read_sources_wrong keys k e st :
  store_wf st → k ∈ keys → string_of k st = Err e → read_sources c keys st = Err WRONGTYPE.
Proof.
  intros Hw Hin Hk. induction keys as [|k' keys IH]; [by apply elem_of_nil in Hin|]. simpl. rewrite read_live_spec by done.
  apply elem_of_cons in Hin as [<-|Hin].
  - unfold string_of in Hk. destruct (live c k st) as [v|]; [|done]. by destruct (as_string v).
  - rewrite IH by done. destruct (live c k' st) as [v|]; [|done]. by destruct (as_string v).
Qed.

(** SETBIT answers the old bit, sets that bit, and changes no other bit of the
    key and no other key; a key of another type stays as it is and is answered
    with the error.  GETBIT reads the bits, which are clear past the end and for a
    missing or expired key. *)
Theorem setbit_getbit k i v st :
  store_wf st → 0 <= i →
  let '(st', r) := setbit c k i v st in
  store_wf st' ∧ r = getbit c k i st ∧ (∀ k', k' ≠ k → db st' !! k' = db st !! k') ∧
  match getbit c k i st with
  | Err _ => db st' = db st
  | Ok _ => ∀ j, 0 <= j → getbit c k j st' = if i =? j then Ok (Z.b2z v) else getbit c k j st
  end.
Proof.
  intros Hw Hi. pose proof (setbit_spec c k i v st Hw Hi) as Hs. destruct (setbit c k i v st) as [st' r].
  destruct Hs as (Hw' & Hr & Hk & Hb). split; [done|]. split; [done|]. split; [done|].
  rewrite getbit_bits by done. destruct (bits_of c k st) as [f|e] eqn:Ef; [|done].
  destruct Hb as (f' & Hf' & Hj). intros j Hj0. rewrite !getbit_bits, Hf', Ef, Hj by done. by destruct (i =? j).
Qed.

(** C33: A field that BITFIELD SET has written is read back by GET, modulo its width
    and with its sign, and every bit outside the field is as before. *)
Theorem bitfield_roundtrip k off bits v signed st x :
  store_wf st → 0 < bits <= 64 → 0 <= off → off + bits <= u64_mod → getbit c k 0 st = Ok x →
  let st' := bf_set c k off bits v st in
  bf_get c st' k off bits signed = field_value signed bits v ∧
  (∀ j, 0 <= j → ¬ off <= j < off + bits → getbit c k j st' = getbit c k j st) ∧
  (∀ k', k' ≠ k → db st' !! k' = db st !! k').
Proof.
  intros Hw Hb Ho Hr Hx st'. rewrite getbit_bits in Hx by done. destruct (bits_of c k st) as [f|e] eqn:Ef; [|done]. clear Hx.
  pose proof (set_bits_fold c k off bits v (seqZ 0 bits) st Hw Ho ltac:(lia)
    ltac:(intros i Hi; apply elem_of_seqZ in Hi; lia)) as (Hw' & Hk & Hs).
  rewrite Ef in Hs. destruct Hs as (f' & Hf' & Hj). change (foldl _ st (seqZ 0 bits)) with st' in Hw', Hk, Hf'.
  split; [|split; [|done]].
  - eapply bf_get_value; try done. intros i Hi. rewrite Hj by lia. rewrite bool_decide_true by (apply elem_of_seqZ; lia).
    by replace (off + i - off) with i by lia.
  - intros j Hj0 Hout. rewrite !getbit_bits, Hf', Ef, Hj by done. by rewrite bool_decide_false by (rewrite elem_of_seqZ; lia).
Qed.

(** BITCOUNT of a string counts its set bits in the range; in bytes a range past
    the end is empty. *)
Theorem bitcount_correct k s start end_ st :
  store_wf st → string_of k st = Ok s → s ≠ [] →
  let byte lo hi := ones s (8 * lo) (8 * (hi + 1 - lo)) in
  let lo := byte_start start (zlen s) in let hi := byte_end end_ (zlen s) in
  bitcount c k start end_ false st = Ok (if hi <? lo then 0 else byte lo hi) ∧
  (let lo := normalize_bit_index start (zlen s * 8) in let hi := normalize_bit_index end_ (zlen s * 8) in
   bitcount c k start end_ true st = Ok (if hi <? lo then 0 else ones s lo (hi + 1 - lo))) ∧
  bitcount c k 0 (-1) false st = Ok (ones s 0 (8 * zlen s)).
Proof.
  intros Hw Hs Hne. assert (Hcount : ∀ a b u, bitcount c k a b u st = Ok (count_bits a b u s)).
  { intros a b u. unfold bitcount. rewrite read_live_spec by done. unfold string_of in Hs.
    destruct (live c k st) as [v|]; [|by injection Hs as <-]. destruct (as_string v); [|done]. by injection Hs as <-. }
  assert (Hlen : 0 < zlen s) by (unfold zlen; destruct s; [done|simpl; lia]).
  assert (Hbyte : ∀ a b, count_bits a b false s =
    if byte_end b (zlen s) <? byte_start a (zlen s) then 0
    else ones s (8 * byte_start a (zlen s)) (8 * (byte_end b (zlen s) + 1 - byte_start a (zlen s)))).
  { intros a b. unfold count_bits. rewrite bool_decide_false by done.
    destruct (Z.ltb_spec (byte_end b (zlen s)) (byte_start a (zlen s))) as [|Hle]; [done|].
    assert (0 <= byte_start a (zlen s)) by (unfold byte_start; case_match; lia).
    assert (byte_end b (zlen s) < zlen s) by (unfold byte_end; case_match; lia).
    rewrite <- ones_bytes by (unfold zlen in *; lia). f_equal; lia. }
  intros byte lo hi. rewrite !Hcount. split; [by rewrite Hbyte|]. split.
  - unfold count_bits. rewrite bool_decide_false by done. simpl. case_match; [done|]. by rewrite count_fold, Z.add_0_l.
  - rewrite Hbyte. unfold byte_start, byte_end. simpl. rewrite Z.min_l by lia.
    rewrite (proj2 (Z.ltb_ge _ _)) by lia. f_equal. f_equal. lia.
Qed.

(** BITOP stores the bitwise combination of its sources, the shorter ones
    padded with zeros, answers its length, and changes no other key. *)
Theorem bitop_correct op dest keys bufs st :
  store_wf st → keys ≠ [] → (op = BitNot → length keys = 1%nat) → Forall2 (λ k b, string_of k st = Ok b) keys bufs →
  let '(st', r) := bitop c op dest keys st in
  ∃ s, r = Ok (zlen s) ∧ string_of dest st' = Ok s ∧ length s = max_len bufs ∧
    (∀ i, 0 <= i < 8 * zlen s → bit s i = op_bit op ((λ b, bit b i) <$> bufs)) ∧
    (∀ k', k' ≠ dest → db st' !! k' = db st !! k').
Proof.
  intros Hw Hne Hnot Hall. pose proof (Forall2_length _ _ _ Hall) as Hlen. unfold bitop.
  rewrite (read_sources_ok keys bufs st Hw Hall). destruct bufs as [|b bufs]; [destruct keys; done|].
  destruct (bitop_bytes_spec op (b :: bufs)) as (s & -> & Hl & Hbits); [by rewrite <- Hlen|].
  exists s. split; [done|]. destruct (put_spec dest (StoreValue_string s) st Hw) as (_ & Hd & _).
  split; [unfold string_of, live; by rewrite Hd, lookup_insert_eq|]. split; [done|]. split; [done|].
  intros k' Hk. by rewrite Hd, lookup_insert_ne.
Qed.

(** A source of another type makes BITOP an error that changes nothing. *)
Lemma bitop_wrong_type op dest keys k e st :
  store_wf st → k ∈ keys → string_of k st = Err e → bitop c op dest keys st = (st, Err WRONGTYPE).
Proof. intros Hw Hin Hk. unfold bitop. by erewrite read_sources_wrong. Qed.
End Claims.

(** For fields of 64 bits OVERFLOW FAIL never fails: the sum has wrapped before
    it is compared with the limits, and the wrapped value is stored. *)
Theorem incrby_fail64_wraps old incr : incrby_value Fail true 64 old incr = Some (i64_of (old + incr)).
Proof.
  unfold incrby_value. rewrite i64_of_wrap. pose proof (Z.mod_pos_bound (old + incr + 2 ^ 63) (2 ^ 64) ltac:(lia)).
  change (signed_min 64) with (- 2 ^ 63). change (signed_max 64) with (2 ^ 63 - 1).
  by rewrite !(proj2 (Z.leb_le _ _)) by lia.
Qed.

(** In bits, a BITCOUNT range wholly past the end of the string still counts its
    last bit; in bytes it is empty. *)
Theorem bitcount_past_end s start end_ :
  s ≠ [] → zlen s * 8 <= start → start <= end_ →
  count_bits start end_ true s = ones s (zlen s * 8 - 1) 1 ∧ count_bits start end_ false s = 0.
Proof.
  intros Hne Hs He. assert (Hlen : 0 < zlen s) by (unfold zlen; destruct s; [done|simpl; lia]).
  unfold count_bits, normalize_bit_index, byte_start, byte_end. rewrite !bool_decide_false by done.
  rewrite !(proj2 (Z.ltb_ge _ 0)) by lia. rewrite !Z.min_r by lia. split.
  - rewrite (proj2 (Z.ltb_ge _ _)) by lia. rewrite count_fold, Z.add_0_l. unfold ones. do 3 f_equal; lia.
  - by rewrite (proj2 (Z.ltb_lt _ _)) by lia.
Qed.

(** ** At concrete inputs *)

Definition demo_clock0 : Clock := mkClock 1000 0.
Definition demo_bits : Store (LimitMap StoreValue) :=
  mkStore (mkLimitMap {[ B "a" := StoreValue_string (B "foobar"); B "b" := StoreValue_string (B "ab") ]} 100) 0 0 0.

Lemma demo_bits_wf : store_wf demo_bits.
Proof. exact I. Defined.

Lemma setbit_getbit_witness :
  let '(st', r) := setbit demo_clock0 (B "a") 7 true demo_bits in
  r = Ok 0 ∧ getbit demo_clock0 (B "a") 7 st' = Ok 1 ∧ getbit demo_clock0 (B "a") 6 st' = Ok 1.
Proof.
  pose proof (setbit_getbit demo_clock0 (B "a") 7 true demo_bits demo_bits_wf ltac:(lia)) as Hs.
  assert (E : getbit demo_clock0 (B "a") 7 demo_bits = Ok 0) by (vm_compute; reflexivity).
  assert (E6 : getbit demo_clock0 (B "a") 6 demo_bits = Ok 1) by (vm_compute; reflexivity).
  destruct (setbit _ _ _ _ _) as [st' r]. destruct Hs as (_ & Hr & _ & Hj). rewrite E in Hr, Hj.
  split; [exact Hr|]. split; [rewrite (Hj 7 ltac:(lia)); reflexivity|]. rewrite (Hj 6 ltac:(lia)). simpl. exact E6.
Defined.

Lemma bitfield_roundtrip_witness :
  bf_get demo_clock0 (bf_set demo_clock0 (B "a") 3 5 (-7) demo_bits) (B "a") 3 5 true = -7.
Proof.
  pose proof (bitfield_roundtrip demo_clock0 (B "a") 3 5 (-7) true demo_bits 0 demo_bits_wf ltac:(lia) ltac:(lia)
    ltac:(vm_compute; discriminate) ltac:(vm_compute; reflexivity)) as [H _]. rewrite H. reflexivity.
Defined.

Lemma bitcount_correct_witness : bitcount demo_clock0 (B "a") 0 (-1) false demo_bits = Ok 26.
Proof.
  destruct (bitcount_correct demo_clock0 (B "a") (B "foobar") 0 0 demo_bits demo_bits_wf ltac:(vm_compute; reflexivity) ltac:(discriminate))
    as (_ & _ & H). rewrite H. vm_compute. reflexivity.
Defined.

Lemma bitop_correct_witness :
  let '(st', r) := bitop demo_clock0 BitAnd (B "c") [B "a"; B "b"] demo_bits in
  r = Ok 6 ∧ ∃ s, string_of demo_clock0 (B "c") st' = Ok s ∧ length s = 6%nat.
Proof.
  pose proof (bitop_correct demo_clock0 BitAnd (B "c") [B "a"; B "b"] [B "foobar"; B "ab"] demo_bits demo_bits_wf
    ltac:(discriminate) ltac:(discriminate) ltac:(repeat constructor)) as Hb.
  destruct (bitop _ _ _ _ _) as [st' r]. destruct Hb as (s & Hr & Hs & Hl & _).
  assert (Hl6 : length s = 6%nat) by (rewrite Hl; reflexivity).
  split; [rewrite Hr; unfold zlen; rewrite Hl6; reflexivity|]. exists s. split; assumption.
Defined.

Lemma incrby_correct_witness : incrby_value Sat true 8 100 100 = Some 127 ∧ incrby_value Fail true 8 100 100 = None.
Proof.
  destruct (bitfield_incr_correct true 8 100 100 ltac:(lia) ltac:(unfold in_field; lia) ltac:(lia)) as (_ & Hs & Hf).
  split; [rewrite Hs; reflexivity|]. rewrite Hf. reflexivity.
Defined.

Lemma bitcount_past_end_witness : count_bits 100 200 true (B "a") = 1 ∧ count_bits 100 200 false (B "a") = 0.
Proof.
  destruct (bitcount_past_end (B "a") 100 200 ltac:(discriminate) ltac:(vm_compute; discriminate) ltac:(lia)) as [H1 H2].
  split; [rewrite H1; reflexivity|exact H2].
Defined.
