(* ===== verification/StreamOps.v ===== *)
(** Stream commands on the store: the [impl Store] of storage/stream.rs. *)

From S2P Require Import Prelude Decimal MapIface Collections Value Store.
Local Open Scope Z_scope.

Abbreviation StreamEntry := (bytes * list (bytes * bytes))%type.

Definition XADD_ID : bytes := B "Invalid stream ID specified as stream command argument".
Definition NO_STREAM : bytes := B "ERR The XGROUP subcommand requires the key to exist".

(** The bounds of a range: what does not parse is the far end. *)
Definition start_id (start : bytes) : StreamId :=
  if bool_decide (start = B "-") then id_min else default id_min (id_parse start).
Definition end_id (end_ : bytes) : StreamId :=
  if bool_decide (end_ = B "+") then id_max else default id_max (id_parse end_).

(** [.take(limit)], and the entries as strings. *)
Definition limited {A} (count : Z) (l : list A) : list A := if count =? 0 then l else take (Z.to_nat count) l.
Definition to_entries (l : list (StreamId * list (bytes * bytes))) : list StreamEntry :=
  (λ p, (id_to_string p.1, p.2)) <$> l.

Definition new_group (last : StreamId) : ConsumerGroup := mkGroup last [] ∅.
Definition insert_group (group : bytes) (last : StreamId) (s : StreamData) : StreamData :=
  mkStream (s_entries s) (last_id s) (<[group := new_group last]> (groups s)).

(** The loop of [xdel], and of [xack]. *)
Definition remove_ids {A} (ids : list bytes) (l : list (StreamId * A)) : list (StreamId * A) * Z :=
  foldl (λ '(l, removed) id_str,
    match id_parse id_str with
    | Some id => let '(l', r) := bt_remove id l in (l', match r with Some _ => removed + 1 | None => removed end)
    | None => (l, removed)
    end) (l, 0) ids.

Section StreamOps.
Context {M : Type} `{KVMap StoreValue M} (c : Clock).
Implicit Types (st : Store M) (key group : bytes).

(** [stream.add] and the trimming to MAXLEN. *)
Definition add_and_trim (id : StreamId) (fields : list (bytes * bytes)) (maxlen : option Z) (s : StreamData)
    : StreamData * bytes :=
  let '(s, actual) := stream_add (now_ms c) id fields s in
  (match maxlen with Some ml => trim_maxlen (Z.to_nat ml) s | None => s end, id_to_string actual).

Definition xadd key (id_str : bytes) (fields : list (bytes * bytes)) (maxlen : option Z) (nomkstream : bool) st
    : Store M * result (option bytes) :=
  match (if bool_decide (id_str = B "*") then Some (mkId 0 0) else id_parse id_str) with
  | None => (st, Err XADD_ID)
  | Some id =>
      let '(fresh, fresh_id) := add_and_trim id fields maxlen StreamData_new in
      let '(st', r) := update_with key (λ val,
        if is_expired c val then
          if nomkstream then (val, Ok None) else (mkValue (VStream fresh) 0, Ok (Some fresh_id))
        else
          match as_stream (value val) with
          | Some s => let '(s', i) := add_and_trim id fields maxlen s in (mkValue (VStream s') (expires_ms val), Ok (Some i))
          | None => (val, Err WRONGTYPE)
          end) st in
      match r with
      | Some r => (st', r)
      | None => if nomkstream then (st', Ok None) else (put key (StoreValue_stream fresh) st', Ok (Some fresh_id))
      end
  end.

Definition xlen key st : result Z :=
  read_live c key (Ok 0)
    (λ v, match as_stream v with Some s => Ok (Z.of_nat (stream_len s)) | None => Err WRONGTYPE end) st.

(** [None] is the panic of an inverted range. *)
Definition range_with (f : list (StreamId * list (bytes * bytes)) → list (StreamId * list (bytes * bytes)))
    key (start end_ : bytes) (count : Z) st : option (result (list StreamEntry)) :=
  read_live c key (Some (Ok []))
    (λ v, match as_stream v with
          | Some s =>
              l ← bt_range (start_id start) (end_id end_) (s_entries s);
              Some (Ok (to_entries (limited count (f l))))
          | None => Some (Err WRONGTYPE)
          end) st.

Definition xrange key (start end_ : bytes) (count : Z) st := range_with id key start end_ count st.
Definition xrevrange key (end_ start : bytes) (count : Z) st := range_with reverse key start end_ count st.

(** A closure on a live stream: nothing is done to an expired one. *)
Definition stream_update {R} (r0 : R) (f : StreamData → StreamData * R) (val : StoreValue) : StoreValue * result R :=
  if is_expired c val then (val, Ok r0)
  else match as_stream (value val) with
       | Some s => let '(s', r) := f s in (mkValue (VStream s') (expires_ms val), Ok r)
       | None => (val, Err WRONGTYPE)
       end.

Definition xtrim key (maxlen : Z) st : Store M * result Z :=
  update_or key (stream_update 0 (λ s,
    let s' := trim_maxlen (Z.to_nat maxlen) s in (s', Z.of_nat (stream_len s) - Z.of_nat (stream_len s')))) (Ok 0) st.

Definition xdel key (ids : list bytes) st : Store M * result Z :=
  update_or key (stream_update 0 (λ s,
    let '(l, removed) := remove_ids ids (s_entries s) in (mkStream l (last_id s) (groups s), removed))) (Ok 0) st.

Definition xgroup_create key group (id : bytes) (mkstream : bool) st : Store M * result bool :=
  let start := if bool_decide (id = B "$") then None else Some (default id_min (id_parse id)) in
  let fresh := insert_group group (default (last_id StreamData_new) start) StreamData_new in
  let '(st', r) := update_with key (λ val,
    if is_expired c val then
      if negb mkstream then (val, Err NO_STREAM) else (mkValue (VStream fresh) 0, Ok true)
    else
      match as_stream (value val) with
      | Some s => (mkValue (VStream (insert_group group (default (last_id s) start) s)) (expires_ms val), Ok true)
      | None => (val, Err WRONGTYPE)
      end) st in
  match r with
  | Some r => (st', r)
  | None => if negb mkstream then (st', Err NO_STREAM) else (put key (StoreValue_stream fresh) st', Ok true)
  end.

Definition xgroup_destroy key group st : Store M * result bool :=
  update_or key (stream_update false (λ s,
    (mkStream (s_entries s) (last_id s) (delete group (groups s)), bool_decide (is_Some (groups s !! group))))) (Ok false) st.

Definition xack key group (ids : list bytes) st : Store M * result Z :=
  update_or key (stream_update 0 (λ s,
    match groups s !! group with
    | None => (s, 0)
    | Some g =>
        let '(pel, acked) := remove_ids ids (pel g) in
        (mkStream (s_entries s) (last_id s) (<[group := mkGroup (last_delivered g) pel (consumers g)]> (groups s)), acked)
    end)) (Ok 0) st.
End StreamOps.
