(* ===== verification/CmdStream.v ===== *)
(** The stream commands: commends/stream.rs. *)

From S2P Require Import Prelude Decimal MapIface Resp Value Store StreamOps Handler.
Local Open Scope Z_scope.

Section CmdStream.
Context {M : Type} `{KVMap StoreValue M} (c : Clock).
Implicit Types (parts : list bytes).

Definition write_entry (out : bytes) (e : StreamEntry) : bytes :=
  let '(id, fields) := e in
  foldl (λ out p, write_bulk (write_bulk out p.1) p.2)
    (write_array_header (write_bulk (write_array_header out 2) id) (Z.of_nat (length fields * 2))) fields.

Definition write_stream_entries (out : bytes) (items : list StreamEntry) : bytes :=
  foldl write_entry (write_array_header out (Z.of_nat (length items))) items.

Definition is_approx (s : bytes) : bool := bool_decide (s = B "~") || bool_decide (s = B "=").

(** The options before the id: whether to make the stream, the length to trim to, what follows. *)
Fixpoint xadd_options (fuel : nat) (rest : list bytes) (nomkstream : bool) (maxlen : option Z)
    : Handler M (bool * option Z * list bytes) :=
  match fuel, rest with
  | _, [] | O, _ => wrong_args (B "xadd")
  | S fuel, opt :: rest' =>
      let skip l := match l with a :: l' => if is_approx a then l' else l | [] => [] end in
      if eq_ignore_case opt (B "NOMKSTREAM") then xadd_options fuel rest' true maxlen
      else if eq_ignore_case opt (B "MAXLEN") then
        match rest' with
        | [] => syntax_error
        | _ =>
            match skip rest' with
            | [] => syntax_error
            | n :: rest'' => n ← parse_uint n; xadd_options fuel rest'' nomkstream (Some n)
            end
        end
      else if eq_ignore_case opt (B "MINID") then
        match skip rest' with
        | [] => syntax_error
        | _ :: rest'' => xadd_options fuel rest'' nomkstream maxlen
        end
      else mret (nomkstream, maxlen, rest)
  end.

Definition xadd parts : Handler M unit :=
  match parts with
  | _ :: key :: rest =>
      if is_nil rest then wrong_args (B "xadd")
      else
        '(nomkstream, maxlen, rest) ← xadd_options (length rest) rest false None;
        match rest with
        | [] => wrong_args (B "xadd")
        | id_str :: field_parts =>
            if is_nil field_parts || negb (even_len field_parts) then wrong_args (B "xadd")
            else
              r ← call (StreamOps.xadd c key id_str (pairs_of field_parts) maxlen nomkstream);
              match r with
              | Ok (Some id) => put_bulk id
              | Ok None => write write_nil
              | Err e => write (λ out, write_store_err out e)
              end
        end
  | _ => wrong_args (B "xadd")
  end.

Definition xlen parts : Handler M unit :=
  match parts with
  | [_; key] => r ← look (StreamOps.xlen c key); n ← wt r; put_integer (as_i64 n)
  | _ => wrong_args (B "xlen")
  end.

(** The options of XRANGE: anything but COUNT is skipped. *)
Fixpoint count_option (rest : list bytes) (count : Z) : Handler M Z :=
  match rest with
  | [] => mret count
  | opt :: rest' =>
      if eq_ignore_case opt (B "COUNT") then
        match rest' with
        | [] => syntax_error
        | n :: rest'' => n ← parse_uint n; count_option rest'' n
        end
      else count_option rest' count
  end.

Definition xrange parts : Handler M unit :=
  match parts with
  | _ :: key :: start :: end_ :: rest =>
      count ← count_option rest 0;
      r ← look (StreamOps.xrange c key start end_ count);
      r ← unwrap r;
      items ← wt r;
      write (λ out, write_stream_entries out items)
  | _ => wrong_args (B "xrange")
  end.

Definition xrevrange parts : Handler M unit :=
  match parts with
  | _ :: key :: end_ :: start :: rest =>
      count ← count_option rest 0;
      r ← look (StreamOps.xrevrange c key end_ start count);
      r ← unwrap r;
      items ← wt r;
      write (λ out, write_stream_entries out items)
  | _ => wrong_args (B "xrevrange")
  end.

(** The last MAXLEN of the options, 0 without one. *)
Fixpoint trim_option (fuel : nat) (rest : list bytes) (maxlen : Z) : Handler M Z :=
  match fuel, rest with
  | _, [] | O, _ => mret maxlen
  | S fuel, opt :: rest' =>
      if eq_ignore_case opt (B "MAXLEN") then
        match (match rest' with a :: l => if is_approx a then l else rest' | [] => [] end) with
        | [] => syntax_error
        | n :: rest'' => n ← parse_uint n; trim_option fuel rest'' n
        end
      else trim_option fuel rest' maxlen
  end.

Definition xtrim parts : Handler M unit :=
  match parts with
  | _ :: key :: rest =>
      maxlen ← trim_option (length rest) rest 0;
      r ← call (StreamOps.xtrim c key maxlen); n ← store_ok r; put_integer (as_i64 n)
  | _ => wrong_args (B "xtrim")
  end.

Definition xdel parts : Handler M unit :=
  match parts with
  | _ :: key :: ids =>
      if negb (is_nil ids) then r ← call (StreamOps.xdel c key ids); n ← store_ok r; put_integer (as_i64 n)
      else wrong_args (B "xdel")
  | _ => wrong_args (B "xdel")
  end.

Definition xgroup parts : Handler M unit :=
  match parts with
  | _ :: sub :: rest =>
      if eq_ignore_case sub (B "CREATE") then
        match rest with
        | key :: group :: id :: opts =>
            let mkstream := existsb (λ o, eq_ignore_case o (B "MKSTREAM")) opts in
            r ← call (StreamOps.xgroup_create c key group id mkstream);
            match r with Ok _ => write write_ok | Err e => write (λ out, write_store_err out e) end
        | _ => wrong_args (B "xgroup create")
        end
      else if eq_ignore_case sub (B "DESTROY") then
        match rest with
        | [key; group] => r ← call (StreamOps.xgroup_destroy c key group); b ← store_ok r; put_boolean b
        | _ => wrong_args (B "xgroup destroy")
        end
      else if eq_ignore_case sub (B "DELCONSUMER") then put_integer 0
      else if eq_ignore_case sub (B "SETID") then write write_ok
      else error (B "unknown XGROUP subcommand")
  | _ => wrong_args (B "xgroup")
  end.

Definition xack parts : Handler M unit :=
  match parts with
  | _ :: key :: group :: ids =>
      if is_nil ids then wrong_args (B "xack")
      else r ← call (StreamOps.xack c key group ids); n ← store_ok r; put_integer (as_i64 n)
  | _ => wrong_args (B "xack")
  end.

Definition xinfo parts : Handler M unit :=
  match parts with
  | _ :: sub :: rest =>
      if eq_ignore_case sub (B "STREAM") then
        match rest with
        | key :: _ =>
            r ← look (StreamOps.xlen c key);
            match r with
            | Ok len => write (λ out,
                write_integer (write_bulk (write_integer (write_bulk (write_array_header out 4) (B "length")) (as_i64 len))
                  (B "groups")) 0)
            | Err e => write (λ out, write_store_err out e)
            end
        | _ => wrong_args (B "xinfo stream")
        end
      else if eq_ignore_case sub (B "GROUPS") || eq_ignore_case sub (B "CONSUMERS") then put_header 0
      else error (B "unknown XINFO subcommand")
  | _ => wrong_args (B "xinfo")
  end.

(** The options of XREAD: the count and what follows STREAMS. *)
Fixpoint xread_options (fuel : nat) (l : list bytes) (count : Z) : Handler M (Z * list bytes) :=
  match fuel, l with
  | _, [] | O, _ => mret (count, [])
  | S fuel, opt :: l' =>
      if eq_ignore_case opt (B "COUNT") then
        match l' with
        | [] => syntax_error
        | n :: l'' => n ← parse_uint n; xread_options fuel l'' n
        end
      else if eq_ignore_case opt (B "BLOCK") then xread_options fuel (tail l') count
      else if eq_ignore_case opt (B "STREAMS") then mret (count, l')
      else xread_options fuel l' count
  end.

(** The entries of each key; an error reads as none. *)
Fixpoint xread_entries (count : Z) (l : list (bytes * bytes)) : Handler M (list (bytes * list StreamEntry)) :=
  match l with
  | [] => mret []
  | (key, i) :: l' =>
      let start := if bool_decide (i = B "$") then B "+" else i in
      r ← look (StreamOps.xrange c key start (B "+") count);
      r ← unwrap r;
      rs ← xread_entries count l';
      mret ((key, match r with Ok l => l | Err _ => [] end) :: rs)
  end.

Definition write_keyed (out : bytes) (r : bytes * list StreamEntry) : bytes :=
  write_stream_entries (write_bulk (write_array_header out 2) r.1) r.2.

Definition xread parts : Handler M unit :=
  '(count, stream_args) ← xread_options (length parts) (tail parts) 0;
  if is_nil stream_args then wrong_args (B "xread")
  else if negb (even_len stream_args) then wrong_args (B "xread")
  else
    let half := (length stream_args / 2)%nat in
    results ← xread_entries count (zip (take half stream_args) (drop half stream_args));
    if forallb (λ r, is_nil r.2) results then write write_nil
    else write (λ out, foldl write_keyed (write_array_header out (Z.of_nat (length results))) results).
End CmdStream.
