(* ===== verification/StreamSpec.v ===== *)
(** Streams: their ids are kept in order; XADD, XRANGE, XTRIM and XDEL against
    the finite map from ids to entries. *)

From stdpp Require Import sorting.
From S2P Require Import Prelude Decimal MapIface Collections Value Store StoreSpec StreamOps.
Local Open Scope Z_scope.

(** ** The order of ids *)

#[global] Instance StreamId_countable : Countable StreamId :=
  inj_countable' (λ i, (ms i, seq i)) (λ p, mkId p.1 p.2) ltac:(by intros []).

Lemma id_lt_lex a b : id_lt a b ↔ ms a < ms b ∨ (ms a = ms b ∧ seq a < seq b).
Proof.
  unfold id_lt, id_cmp. destruct (Z.compare_spec (ms a) (ms b)) as [E|E|E].
  - rewrite Z.compare_lt_iff. lia.
  - split; [by left|done].
  - split; [done|lia].
Qed.

Lemma id_cmp_spec a b : CompareSpec (a = b) (id_lt a b) (id_lt b a) (id_cmp a b).
Proof.
  pose proof (id_lt_lex b a) as Hba. pose proof (id_lt_lex a b) as Hab. unfold id_cmp.
  destruct (Z.compare_spec (ms a) (ms b)); [destruct (Z.compare_spec (seq a) (seq b))|..];
    constructor; try (by apply Hab; lia); try (by apply Hba; lia). destruct a, b. simpl in *. congruence.
Qed.

#[global] Instance id_lt_trans : Transitive id_lt.
Proof. intros a b d. rewrite !id_lt_lex. lia. Qed.
Lemma id_lt_irr a : ¬ id_lt a a.
Proof. rewrite id_lt_lex. lia. Qed.

Lemma id_le_spec a b : id_le a b = true ↔ a = b ∨ id_lt a b.
Proof.
  unfold id_le. destruct (id_cmp_spec a b) as [->|H|H].
  - split; auto.
  - split; auto.
  - split; [done|]. intros [->|H']; [by apply id_lt_irr in H|]. rewrite id_lt_lex in *. lia.
Qed.

(** ** Ordered lists as maps *)

Section Btree.
Context {A : Type}.
Implicit Types l : list (StreamId * A).

Abbreviation sorted_ids l := (StronglySorted id_lt (fst <$> l)).
Definition bt_map l : gmap StreamId A := list_to_map l.

Lemma sorted_nodup l : sorted_ids l → NoDup (fst <$> l).
Proof.
  induction l as [|[k v] l IH]; [constructor|]. rewrite fmap_cons, StronglySorted_cons. intros [Hk Hs]. constructor; [|auto].
  intros Hin. rewrite Forall_forall in Hk. by apply Hk, id_lt_irr in Hin.
Qed.

Lemma bt_map_lookup l k v : sorted_ids l → bt_map l !! k = Some v ↔ (k, v) ∈ l.
Proof. intros Hs. unfold bt_map. symmetry. apply elem_of_list_to_map. by apply sorted_nodup. Qed.

Lemma bt_insert_elem k v l p : p ∈ bt_insert k v l → p = (k, v) ∨ p ∈ l.
Proof.
  induction l as [|[k' v'] l IH]; simpl; [intros ->%list_elem_of_singleton; by left|].
  destruct (id_cmp k k'); rewrite !elem_of_cons; naive_solver.
Qed.

Lemma bt_insert_sorted k v l : sorted_ids l → sorted_ids (bt_insert k v l).
Proof.
  induction l as [|[k' v'] l IH]; simpl; [repeat constructor|]. rewrite StronglySorted_cons. intros [Hk Hs].
  destruct (id_cmp_spec k k') as [->|H|H]; simpl; rewrite !StronglySorted_cons.
  - done.
  - split; [|done]. constructor; [done|]. eapply Forall_impl; [exact Hk|]. intros x Hx. by etrans.
  - split; [|by apply IH]. apply Forall_forall. intros x (p & -> & Hp)%list_elem_of_fmap. apply bt_insert_elem in Hp as [->|Hp]; [done|].
    rewrite Forall_forall in Hk. apply Hk. by apply list_elem_of_fmap_2.
Qed.

Lemma bt_map_size l : sorted_ids l → size (bt_map l) = length l.
Proof.
  intros Hs. unfold bt_map. rewrite <- length_map_to_list. apply Permutation_length.
  apply map_to_list_to_map. by apply sorted_nodup.
Qed.

Lemma bt_insert_map k v l : bt_map (bt_insert k v l) = <[k := v]> (bt_map l).
Proof.
  unfold bt_map. induction l as [|[k' v'] l IH]; simpl; [done|].
  destruct (id_cmp_spec k k') as [->|H|H]; simpl; [by rewrite insert_insert_eq|done|].
  rewrite IH. apply insert_insert_ne. intros ->. by apply id_lt_irr in H.
Qed.

Lemma bt_remove_spec k l :
  sorted_ids l →
  (bt_remove k l).2 = bt_map l !! k ∧ bt_map (bt_remove k l).1 = delete k (bt_map l) ∧ sorted_ids (bt_remove k l).1.
Proof.
  unfold bt_map. intros Hs. induction l as [|[k' v'] l IH]; simpl; [by rewrite lookup_empty, delete_empty|].
  pose proof (sorted_nodup _ Hs) as Hnd. rewrite fmap_cons in Hs, Hnd. apply StronglySorted_cons in Hs as [Hk Hs]. simpl in Hk.
  apply NoDup_cons in Hnd as [Hn _]. simpl in Hn. case_bool_decide as E; simpl.
  - subst k'. rewrite lookup_insert_eq, delete_insert_id by (by apply not_elem_of_list_to_map). done.
  - destruct (IH Hs) as (H1 & H2 & H3). destruct (bt_remove k l) as [l'' r]. simpl in *.
    rewrite lookup_insert_ne, delete_insert_ne, H2 by done. split; [done|]. split; [done|]. apply StronglySorted_cons. split; [|done].
    apply Forall_forall. intros x (p & -> & Hp)%list_elem_of_fmap.
    assert (Hp' : bt_map l'' !! p.1 = Some p.2) by (apply bt_map_lookup; [done|by destruct p]). unfold bt_map in Hp'.
    rewrite H2 in Hp'. apply lookup_delete_Some in Hp' as [_ Hp']. apply elem_of_list_to_map_2 in Hp'.
    rewrite Forall_forall in Hk. apply Hk. change (p.1) with (fst (p.1, p.2)). by apply list_elem_of_fmap_2.
Qed.

Lemma bt_insert_above k v l : Forall (λ i, id_lt i k) (fst <$> l) → bt_insert k v l = l ++ [(k, v)].
Proof.
  induction l as [|[k' v'] l IH]; simpl; [done|]. intros [Hk Hl]%Forall_cons. simpl in Hk.
  destruct (id_cmp_spec k k') as [->|H|H]; [by apply id_lt_irr in Hk| |by rewrite IH].
  rewrite id_lt_lex in *. lia.
Qed.

End Btree.

Abbreviation sorted_ids l := (StronglySorted id_lt (fst <$> l)).
Abbreviation Entries := (list (StreamId * list (bytes * bytes))).

Lemma trim_loop_drop fuel maxlen (l : Entries) :
  (length l <= fuel)%nat → trim_loop fuel maxlen l = drop (length l - maxlen) l.
Proof.
  revert l. induction fuel as [|fuel IH]; intros l Hl; simpl; [destruct l; [done|simpl in Hl; lia]|].
  destruct (Nat.ltb_spec maxlen (length l)) as [Hlt|Hge].
  - destruct l as [|e l]; [simpl in Hlt; lia|]. cbn [length tail] in *. rewrite IH by lia.
    by replace (S (length l) - maxlen)%nat with (S (length l - maxlen)) by lia.
  - by replace (length l - maxlen)%nat with O by lia.
Qed.

Lemma trim_maxlen_entries maxlen s : s_entries (trim_maxlen maxlen s) = drop (stream_len s - maxlen) (s_entries s).
Proof. unfold trim_maxlen. simpl. by apply trim_loop_drop. Qed.

Lemma sorted_drop n (l : Entries) : sorted_ids l → sorted_ids (drop n l).
Proof. rewrite <- (take_drop n l) at 1. rewrite fmap_app. intros Hs. by apply StronglySorted_app in Hs as (_ & _ & ?). Qed.

Lemma remove_ids_spec {A} ids (l : list (StreamId * A)) n :
  StronglySorted id_lt (fst <$> l) →
  let '(l', removed) := foldl (λ '(l, removed) id_str,
    match id_parse id_str with
    | Some id => let '(l', r) := bt_remove id l in (l', match r with Some _ => removed + 1 | None => removed end)
    | None => (l, removed)
    end) (l, n) ids in
  StronglySorted id_lt (fst <$> l') ∧ bt_map l' = foldr delete (bt_map l) (reverse (omap id_parse ids)) ∧
  removed - n = Z.of_nat (size (bt_map l)) - Z.of_nat (size (bt_map l')).
Proof.
  revert l n. induction ids as [|id_str ids IH]; intros l n Hs; simpl; [split; [done|]; split; [done|lia]|].
  destruct (id_parse id_str) as [id|].
  - destruct (bt_remove_spec id l Hs) as (Hr & Hm & Hs'). destruct (bt_remove id l) as [l1 r]. simpl in *.
    specialize (IH l1 (match r with Some _ => n + 1 | None => n end) Hs'). simpl in IH.
    destruct (foldl _ _ ids) as [l' removed]. destruct IH as (Hs2 & Hm2 & Hn). split; [done|]. split.
    + by rewrite Hm2, Hm, reverse_cons, foldr_app.
    + subst r. rewrite Hm in Hn. destruct (bt_map l !! id) as [v|] eqn:E.
      * rewrite map_size_delete_Some in Hn by done. assert (size (bt_map l) ≠ O) by (intros H0; apply map_size_empty_iff in H0; by rewrite H0 in E). lia.
      * rewrite map_size_delete_None in Hn by done. lia.
  - by apply IH.
Qed.

(** ** Ids as text *)

Lemma dec_no_dash n : 0 < n → Forall (λ b, b ≠ z2b 45) (dec n).
Proof.
  revert n. apply dec_induction; intros n Hn; [|intros IH]; rewrite dec_step by lia.
  - rewrite (proj2 (Z.ltb_lt n 10)) by lia. simpl. repeat constructor. apply digit_not_sign, Z.mod_pos_bound. lia.
  - apply Forall_app. split; [by destruct (n <? 10)|]. repeat constructor. apply digit_not_sign, Z.mod_pos_bound. lia.
Qed.

Lemma u64_no_dash n : 0 <= n → Forall (λ b, b ≠ z2b 45) (u64_to_string n).
Proof.
  intros Hn. rewrite u64_to_string_eq by done. destruct (Z.eqb_spec n 0); [by repeat constructor|]. apply dec_no_dash. lia.
Qed.

Lemma split_dash_app a b : Forall (λ x, x ≠ z2b 45) a → split_dash (a ++ z2b 45 :: b) = (a, Some b).
Proof.
  induction 1 as [|x a Hx Ha IH]; cbn [split_dash app]; [by rewrite bool_decide_true|]. by rewrite bool_decide_false, IH.
Qed.

Lemma id_parse_to_string i : 0 <= ms i < u64_mod → 0 <= seq i < u64_mod → id_parse (id_to_string i) = Some i.
Proof.
  intros Hm Hq. unfold id_parse, id_to_string. change (B "-") with [z2b 45]. simpl.
  rewrite split_dash_app by (apply u64_no_dash; lia). rewrite !parse_u64_to_string by done. by destruct i.
Qed.

(** ** The stream of a key *)

Section Spec.
Context {M : Type} `{KVMapLaws StoreValue M} (c : Clock).
Implicit Types (st : Store M) (k : bytes) (s : StreamData).

(** The stream of a key: a new one if it has no live value. *)
Definition stream_of k st : result StreamData :=
  match live c k st with
  | None => Ok StreamData_new
  | Some v => match as_stream v with Some s => Ok s | None => Err WRONGTYPE end
  end.

Lemma add_and_trim_spec id fields maxlen s :
  sorted_ids (s_entries s) →
  let a := actual_id (now_ms c) (last_id s) id in
  let '(s', i) := add_and_trim c id fields maxlen s in
  i = id_to_string a ∧ last_id s' = a ∧ groups s' = groups s ∧ sorted_ids (s_entries s') ∧
  s_entries s' = match maxlen with
                 | Some ml => let l := bt_insert a fields (s_entries s) in drop (length l - Z.to_nat ml) l
                 | None => bt_insert a fields (s_entries s)
                 end.
Proof.
  intros Hs a. unfold add_and_trim, stream_add. fold a. destruct maxlen as [ml|].
  - split; [done|]. split; [done|]. split; [done|]. rewrite trim_maxlen_entries. unfold stream_len. simpl.
    split; [|done]. apply sorted_drop. by apply bt_insert_sorted.
  - split; [done|]. split; [done|]. split; [done|]. split; [|done]. by apply bt_insert_sorted.
Qed.

Lemma stream_of_insert k st st' s e :
  db st' = <[k := mkValue (VStream s) e]> (db st) → is_expired c (mkValue (VStream s) e) = false → live c k st' = Some (VStream s).
Proof. intros Hd He. unfold live. rewrite Hd, lookup_insert_eq. simpl. by rewrite He. Qed.

#[local] Opaque add_and_trim.

Lemma xadd_stream k id_str id fields maxlen nomk st s :
  store_wf st → stream_of k st = Ok s → (nomk = false ∨ is_Some (live c k st)) →
  (if bool_decide (id_str = B "*") then Some (mkId 0 0) else id_parse id_str) = Some id →
  let '(st', r) := xadd c k id_str fields maxlen nomk st in
  let '(s', i) := add_and_trim c id fields maxlen s in
  store_wf st' ∧ r = Ok (Some i) ∧ live c k st' = Some (VStream s') ∧ ∀ k', k' ≠ k → db st' !! k' = db st !! k'.
Proof.
  intros Hw Hs Hnomk Hid. unfold xadd. rewrite Hid. destruct (add_and_trim c id fields maxlen StreamData_new) as [fresh fid] eqn:Ef.
  match goal with |- context [update_with k ?f st] =>
    destruct (update_with_spec k f st Hw) as (Hw' & Hd & _ & Hr); destruct (update_with k f st) as [st1 r] end.
  simpl in *. subst r. unfold upd in Hd. unfold stream_of, live in Hs, Hnomk.
  destruct (db st !! k) as [e|] eqn:E; simpl in *.
  - destruct (is_expired c e) eqn:Ex; simpl in *.
    + injection Hs as <-. rewrite Ef. destruct Hnomk as [->|[? ?]]; [|done]. split; [done|]. split; [done|].
      split; [by eapply stream_of_insert|]. intros k' Hk. by rewrite Hd, lookup_insert_ne.
    + destruct (as_stream (value e)) as [s0|]; [|done]. injection Hs as ->.
      destruct (add_and_trim c id fields maxlen s) as [s' i]. simpl in *. split; [done|]. split; [done|].
      split; [by eapply stream_of_insert|]. intros k' Hk. by rewrite Hd, lookup_insert_ne.
  - injection Hs as <-. rewrite Ef. destruct Hnomk as [->|[? ?]]; [|done].
    destruct (put_spec k (StoreValue_stream fresh) st1 Hw') as (Hw2 & Hd2 & _). split; [done|]. split; [done|].
    rewrite Hd in Hd2. split; [by eapply stream_of_insert|]. intros k' Hk. by rewrite Hd2, lookup_insert_ne.
Qed.

Lemma update_stream {R} k (r0 : R) f st s :
  store_wf st → live c k st = Some (VStream s) →
  let '(st', r) := update_or k (stream_update c r0 f) (Ok r0) st in
  store_wf st' ∧ r = Ok (f s).2 ∧ live c k st' = Some (VStream (f s).1) ∧ ∀ k', k' ≠ k → db st' !! k' = db st !! k'.
Proof.
  intros Hw Hl. destruct (update_or_spec k (stream_update c r0 f) (Ok r0) st Hw) as (Hw' & Hd & _ & Hr).
  destruct (update_or k _ _ st) as [st' r]. simpl in *. unfold live in Hl. unfold upd in Hd.
  destruct (db st !! k) as [e|] eqn:E; [|done]. simpl in *. destruct (is_expired c e) eqn:Ex; [done|]. injection Hl as Hv.
  unfold stream_update in *. rewrite Ex, Hv in *. simpl in *. destruct (f s) as [s' r']. simpl in *.
  split; [done|]. split; [done|]. split; [by eapply stream_of_insert|]. intros k' Hk. by rewrite Hd, lookup_insert_ne.
Qed.
End Spec.
Arguments stream_of {M H H0} c k st : rename.

(** ** Properties *)

Section Claims.
Context {M : Type} `{KVMapLaws StoreValue M} (c : Clock).
Implicit Types (st : Store M) (k : bytes) (s : StreamData).

(** The id [a] of a new entry, asked for as [i]: all zero stands for the clock, a
    zero sequence number for the next one of that millisecond, anything else for
    itself. *)
Definition id_given (now : Z) (last i a : StreamId) : Prop :=
  let next m := mkId m (if m =? ms last then (seq last + 1) mod 2 ^ 64 else 0) in
  (ms i = 0 → seq i = 0 → a = next now) ∧ (0 < ms i → seq i = 0 → a = next (ms i)) ∧ (seq i ≠ 0 → a = i).

Lemma actual_id_given now last i : id_given now last i (actual_id now last i).
Proof.
  unfold id_given, actual_id, wrap64, u64_mod. split; [|split].
  - intros -> ->. done.
  - intros Hm Hs. rewrite Hs. rewrite (proj2 (Z.eqb_neq (ms i) 0)), (proj2 (Z.ltb_lt 0 (ms i))) by lia. simpl.
    destruct (ms i =? ms last); [done|]. destruct i. simpl in *. by subst.
  - intros Hs. rewrite (proj2 (Z.eqb_neq (seq i) 0)), andb_false_r by done. done.
Qed.

(** C31: XADD stores the fields under the id it answers, remembers it as the last,
    keeps the entries in the order of their ids, the groups and the other keys as they
    were; without MAXLEN it drops no entry, with MAXLEN it drops the entries of the least
    ids, as many as there are above that number and no more. *)
Theorem xadd_correct k id_str id fields maxlen nomk st s :
  store_wf st → stream_of c k st = Ok s → sorted_ids (s_entries s) → (nomk = false ∨ is_Some (live c k st)) →
  (if bool_decide (id_str = B "*") then Some (mkId 0 0) else id_parse id_str) = Some id →
  let '(st', r) := xadd c k id_str fields maxlen nomk st in
  ∃ a, id_given (now_ms c) (last_id s) id a ∧ r = Ok (Some (id_to_string a)) ∧
  (∃ s' dropped, live c k st' = Some (VStream s') ∧ last_id s' = a ∧ groups s' = groups s ∧
    sorted_ids (dropped ++ s_entries s') ∧ bt_map (dropped ++ s_entries s') = <[a := fields]> (bt_map (s_entries s)) ∧
    length dropped = match maxlen with
                     | None => 0%nat
                     | Some ml => (size (<[a := fields]> (bt_map (s_entries s))) - Z.to_nat ml)%nat
                     end) ∧
  (∀ k', k' ≠ k → db st' !! k' = db st !! k').
Proof.
  intros Hw Hs Hso Hn Hid. pose proof (xadd_stream c k id_str id fields maxlen nomk st s Hw Hs Hn Hid) as Hx.
  pose proof (add_and_trim_spec c id fields maxlen s Hso) as Ha. set (a := actual_id (now_ms c) (last_id s) id) in *.
  destruct (xadd c k id_str fields maxlen nomk st) as [st' r]. destruct (add_and_trim c id fields maxlen s) as [s' i].
  destruct Hx as (_ & -> & Hl & Hoth). destruct Ha as (-> & Hlast & Hg & _ & He). exists a.
  split; [apply actual_id_given|]. split; [done|]. split; [|exact Hoth].
  set (l := bt_insert a fields (s_entries s)) in *. exists s', (match maxlen with Some ml => take (length l - Z.to_nat ml) l | None => [] end).
  split; [done|]. split; [done|]. split; [done|].
  assert (Happ : (match maxlen with Some ml => take (length l - Z.to_nat ml) l | None => [] end) ++ s_entries s' = l).
  { rewrite He. destruct maxlen; [apply take_drop|done]. }
  assert (Hsl : sorted_ids l) by (by apply bt_insert_sorted).
  assert (Hml : bt_map l = <[a := fields]> (bt_map (s_entries s))) by apply bt_insert_map.
  rewrite Happ. split; [done|]. split; [done|]. destruct maxlen as [ml|]; [|done].
  rewrite <- Hml, (bt_map_size l Hsl), length_take. lia.
Qed.

(** While the clock is not behind the last id, XADD with an id of its own choice
    appends: the new id is above every id of the stream. *)
Theorem xadd_auto_appends now fields s :
  Forall (λ i, i = last_id s ∨ id_lt i (last_id s)) (fst <$> s_entries s) → ms (last_id s) <= now →
  0 <= seq (last_id s) → seq (last_id s) + 1 < u64_mod →
  let '(s', a) := stream_add now (mkId 0 0) fields s in
  s_entries s' = s_entries s ++ [(a, fields)] ∧ id_lt (last_id s) a ∧
  Forall (λ i, i = last_id s' ∨ id_lt i (last_id s')) (fst <$> s_entries s').
Proof.
  intros Hall Hnow Hpos Hseq. unfold stream_add, actual_id. simpl. set (a := mkId now _).
  assert (Ha : id_lt (last_id s) a).
  { apply id_lt_lex. subst a. simpl. unfold wrap64. destruct (Z.eqb_spec now (ms (last_id s))); [rewrite Z.mod_small by lia|]; lia. }
  assert (Hlt : Forall (λ i, id_lt i a) (fst <$> s_entries s)).
  { eapply Forall_impl; [exact Hall|]. intros i [->|Hi]; [done|by etrans]. }
  rewrite bt_insert_above by done. split; [done|]. split; [done|]. rewrite fmap_app. apply Forall_app.
  split; [|repeat constructor]. eapply Forall_impl; [exact Hlt|]. auto.
Qed.

(** XADD does not refuse an id that is not above the last: one that is in the
    stream replaces the entry, silently, and the stream does not grow. *)
Theorem xadd_overwrites now i fields old s :
  sorted_ids (s_entries s) → seq i ≠ 0 → bt_map (s_entries s) !! i = Some old →
  let '(s', a) := stream_add now i fields s in
  a = i ∧ bt_map (s_entries s') !! i = Some fields ∧ dom (bt_map (s_entries s')) = dom (bt_map (s_entries s)).
Proof.
  intros Hs Hi Hold. unfold stream_add, actual_id. rewrite (proj2 (Z.eqb_neq (seq i) 0)) by done. rewrite andb_false_r. simpl.
  rewrite bt_insert_map, lookup_insert_eq. split; [done|]. split; [done|]. rewrite dom_insert_L.
  apply elem_of_dom_2 in Hold. set_solver.
Qed.

(** XRANGE answers the entries whose ids are in the range, in order, the first
    COUNT of them; XREVRANGE the last, backwards. *)
Theorem xrange_correct k start end_ count st s :
  store_wf st → live c k st = Some (VStream s) → sorted_ids (s_entries s) → id_le (start_id start) (end_id end_) = true →
  ∃ l, StronglySorted id_lt (fst <$> l) ∧
    (∀ i fields, (i, fields) ∈ l ↔ bt_map (s_entries s) !! i = Some fields ∧ id_le (start_id start) i = true ∧ id_le i (end_id end_) = true) ∧
    xrange c k start end_ count st = Some (Ok (to_entries (limited count l))) ∧
    xrevrange c k end_ start count st = Some (Ok (to_entries (limited count (reverse l)))).
Proof.
  intros Hw Hl Hs Hle. set (p := λ x : StreamId * list (bytes * bytes), id_le (start_id start) x.1 && id_le x.1 (end_id end_)).
  assert (Hin : ∀ x, x ∈ List.filter p (s_entries s) ↔ x ∈ s_entries s ∧ p x = true).
  { intros x. rewrite !list_elem_of_In. apply filter_In. }
  exists (List.filter p (s_entries s)). split; [|split; [|split]].
  - clear Hin Hl. induction (s_entries s) as [|[i f] l IH]; [constructor|]. rewrite fmap_cons in Hs. apply StronglySorted_cons in Hs as [Hi Hs].
    simpl. destruct (p (i, f)); [|by apply IH]. rewrite fmap_cons. apply StronglySorted_cons. split; [|by apply IH].
    apply Forall_forall. intros x (y & -> & Hy)%list_elem_of_fmap. rewrite Forall_forall in Hi. apply Hi. apply list_elem_of_fmap_2.
    rewrite !list_elem_of_In in *. by apply filter_In in Hy as [? _].
  - intros i fields. rewrite Hin, bt_map_lookup by done. subst p. simpl. rewrite andb_true_iff. done.
  - unfold xrange, range_with. rewrite read_live_spec, Hl by done. simpl. unfold bt_range. by rewrite Hle.
  - unfold xrevrange, range_with. rewrite read_live_spec, Hl by done. simpl. unfold bt_range. by rewrite Hle.
Qed.

(** XDEL removes the entries of the ids it is given, once each, and answers how
    many there were; ids that do not parse are passed over. *)
Theorem xdel_correct k ids st s :
  store_wf st → live c k st = Some (VStream s) → sorted_ids (s_entries s) →
  let '(st', r) := xdel c k ids st in
  ∃ s', live c k st' = Some (VStream s') ∧ sorted_ids (s_entries s') ∧ last_id s' = last_id s ∧
    bt_map (s_entries s') = foldr delete (bt_map (s_entries s)) (reverse (omap id_parse ids)) ∧
    r = Ok (Z.of_nat (size (bt_map (s_entries s))) - Z.of_nat (size (bt_map (s_entries s')))).
Proof.
  intros Hw Hl Hs. unfold xdel. match goal with |- context [update_or k (stream_update c ?r0 ?f) _ st] =>
    pose proof (update_stream c k r0 f st s Hw Hl) as Hu end.
  destruct (update_or k _ _ st) as [st' r]. destruct Hu as (_ & -> & Hl' & _). simpl in *.
  pose proof (remove_ids_spec ids (s_entries s) 0 Hs) as Hr. unfold remove_ids in *.
  destruct (foldl _ _ ids) as [l' removed]. simpl in *. destruct Hr as (Hs' & Hm & Hn).
  eexists. split; [exact Hl'|]. simpl. split; [done|]. split; [done|]. split; [done|]. f_equal. lia.
Qed.
End Claims.

(** An id reads back as it is printed. *)
Theorem id_roundtrip i : 0 <= ms i < u64_mod → 0 <= seq i < u64_mod → id_parse (id_to_string i) = Some i.
Proof. apply id_parse_to_string. Qed.

(** ** At concrete inputs *)

Definition demo_time : Clock := mkClock 5000 0.
Definition demo_log : StreamData := mkStream [(mkId 1 1, [(B "a", B "1")]); (mkId 5 2, [(B "b", B "2")])] (mkId 5 2) ∅.
Definition demo_streams : Store (LimitMap StoreValue) :=
  mkStore (mkLimitMap {[ B "s" := StoreValue_stream demo_log ]} 100) 0 0 0.

Lemma demo_log_sorted : StronglySorted id_lt (s_entries demo_log).*1.
Proof. repeat constructor. Defined.

Lemma demo_streams_wf : store_wf demo_streams.
Proof. exact I. Defined.

Lemma xadd_correct_witness :
  let '(st', r) := xadd demo_time (B "s") (B "7-1") [(B "c", B "3")] (Some 2) false demo_streams in
  r = Ok (Some (B "7-1")) ∧ ∃ s', live demo_time (B "s") st' = Some (VStream s') ∧ last_id s' = mkId 7 1.
Proof.
  pose proof (xadd_correct demo_time (B "s") (B "7-1") (mkId 7 1) [(B "c", B "3")] (Some 2) false demo_streams demo_log
    demo_streams_wf eq_refl demo_log_sorted (or_introl eq_refl) eq_refl) as Hx.
  destruct (xadd _ _ _ _ _ _ _) as [st' r]. destruct Hx as (a & (_ & _ & Ha) & Hr & (s' & dropped & Hl & Hlast & _) & _).
  rewrite (Ha ltac:(discriminate)) in Hr, Hlast.
  split; [rewrite Hr; reflexivity|]. exists s'. split; [exact Hl|exact Hlast].
Defined.

Lemma xadd_auto_appends_witness :
  let '(s', a) := stream_add 5 (mkId 0 0) [(B "c", B "3")] demo_log in
  s_entries s' = s_entries demo_log ++ [(a, [(B "c", B "3")])].
Proof.
  pose proof (xadd_auto_appends 5 [(B "c", B "3")] demo_log
    ltac:(constructor; [right; reflexivity|constructor; [left; reflexivity|constructor]]) ltac:(simpl; lia) ltac:(simpl; lia)
    ltac:(vm_compute; reflexivity)) as Ha.
  destruct (stream_add _ _ _ _) as [s' a]. exact (proj1 Ha).
Defined.

Lemma xadd_overwrites_witness :
  let '(s', a) := stream_add 9 (mkId 1 1) [(B "z", B "0")] demo_log in
  a = mkId 1 1 ∧ bt_map (s_entries s') !! mkId 1 1 = Some [(B "z", B "0")].
Proof.
  pose proof (xadd_overwrites 9 (mkId 1 1) [(B "z", B "0")] [(B "a", B "1")] demo_log demo_log_sorted ltac:(discriminate)
    ltac:(vm_compute; reflexivity)) as Ha.
  destruct (stream_add _ _ _ _) as [s' a]. destruct Ha as (Ha & Hm & _). split; [exact Ha|exact Hm].
Defined.

Lemma xrange_correct_witness : ∃ l,
  xrange demo_time (B "s") (B "1") (B "4") 0 demo_streams = Some (Ok (to_entries (limited 0 l))) ∧
  (mkId 1 1, [(B "a", B "1")]) ∈ l.
Proof.
  destruct (xrange_correct demo_time (B "s") (B "1") (B "4") 0 demo_streams demo_log demo_streams_wf eq_refl demo_log_sorted eq_refl)
    as (l & _ & Hin & Hr & _).
  exists l. split; [exact Hr|]. apply Hin. vm_compute. repeat split; reflexivity.
Defined.

Lemma xdel_correct_witness :
  let '(st', r) := xdel demo_time (B "s") [B "1-1"; B "x"; B "9"] demo_streams in
  ∃ s', live demo_time (B "s") st' = Some (VStream s') ∧ bt_map (s_entries s') !! mkId 1 1 = None.
Proof.
  pose proof (xdel_correct demo_time (B "s") [B "1-1"; B "x"; B "9"] demo_streams demo_log demo_streams_wf eq_refl demo_log_sorted) as Hx.
  destruct (xdel _ _ _ _) as [st' r]. destruct Hx as (s' & Hl & _ & _ & Hm & _).
  exists s'. split; [exact Hl|]. rewrite Hm. vm_compute. reflexivity.
Defined.

Lemma id_roundtrip_witness : id_parse (id_to_string (mkId 5 2)) = Some (mkId 5 2).
Proof. apply (id_roundtrip (mkId 5 2)); simpl; unfold u64_mod; lia. Defined.
