(* ===== verification/Json.v ===== *)
(** JSON documents: storage/value/json_value.rs.

    A document is kept as text; every command on a part of it parses the text,
    walks the path, and prints the whole document again.  Text is UTF-8 bytes;
    the stack the recursion may take is not bounded. *)

From Stdlib Require Import Strings.Byte Floats.SpecFloat.
From S2P Require Import Prelude Decimal Float.
Local Open Scope Z_scope.

Inductive JsonValue :=
| JNull
| JBool (b : bool)
| JNumber (n : f64)
| JString (s : bytes)
| JArray (l : list JsonValue)
| JObject (l : list (bytes * JsonValue)).

(** ** Numbers as text *)

(** [n as i64]: towards zero, saturating; NaN is 0. *)
Definition f64_to_i64 (x : f64) : Z :=
  match x with
  | S754_finite s m e =>
      let t := if 0 <=? e then Zpos m * 2 ^ e else Zpos m / 2 ^ (- e) in
      Z.max i64_min (Z.min i64_max (if s then - t else t))
  | S754_infinity s => if s then i64_min else i64_max
  | _ => 0
  end.

(** The least [j], counted from [j], with [num * 10^j >= den]. *)
Fixpoint lead_zeros (fuel : nat) (num den j : Z) : Z :=
  match fuel with
  | O => j
  | S fuel => if den <=? num * 10 ^ j then j else lead_zeros fuel num den (j + 1)
  end.

(** The [E] with [10^(E-1) <= num/den < 10^E]. *)
Definition decimal_exponent (num den : Z) : Z :=
  if den <=? num then Z.of_nat (length (u64_to_string (num / den)))
  else 1 - lead_zeros 400 num den 0.

(** [d * 10^-p] without an exponent. *)
Definition plain_decimal (d p : Z) : bytes :=
  if p <=? 0 then u64_to_string (d * 10 ^ (- p))
  else u64_to_string (d / 10 ^ p) ++ B "." ++ pad_digits (Z.to_nat p) (d mod 10 ^ p).

(** [num / den * 10^p] as a fraction of natural numbers. *)
Definition scaled (num den p : Z) : Z * Z :=
  if 0 <=? p then (num * 10 ^ p, den) else (num, den * 10 ^ (- p)).

Definition decimal_reads (x : f64) (dp : Z * Z) : bool := bool_decide (f64_of_decimal false dp.1 (- dp.2) = x).

(** [k] digits, [k + 1], ..: the first that read back; of two, the nearer, the
    upper one on a tie. *)
Fixpoint shortest_digits (fuel : nat) (num den E k : Z) (x : f64) : Z * Z :=
  let p := k - E in
  let '(n, m) := scaled num den p in
  let d := n / m in
  match fuel with
  | O => (d, p)
  | S fuel =>
      let up := if d + 1 =? 10 ^ k then (10 ^ (k - 1), p - 1) else (d + 1, p) in
      match decimal_reads x (d, p), decimal_reads x up with
      | true, true => if m <=? 2 * (n - d * m) then up else (d, p)
      | true, false => (d, p)
      | false, true => up
      | false, false => shortest_digits fuel num den E (k + 1) x
      end
  end.

(** The number as a fraction. *)
Definition fraction (m : positive) (e : Z) : Z * Z := if 0 <=? e then (Zpos m * 2 ^ e, 1) else (Zpos m, 2 ^ (- e)).

(** Enough digits for the exact value; seventeen are as many as are ever needed. *)
Definition exact_digits (E e : Z) : nat := Z.to_nat (E + Z.max 0 (- e)).

(** [format!("{}", x)]: the shortest decimal that reads back as [x]. *)
Definition display_f64 (x : f64) : bytes :=
  match x with
  | S754_nan => B "NaN"
  | S754_infinity s => sign_text s ++ B "inf"
  | S754_zero s => sign_text s ++ B "0"
  | S754_finite s m e =>
      let '(num, den) := fraction m e in
      let E := decimal_exponent num den in
      let '(d, p) := shortest_digits (exact_digits E e) num den E 1 (S754_finite false m e) in
      sign_text s ++ plain_decimal d p
  end.

Definition write_number (n : f64) : bytes :=
  if f64_eq n (f64_of_Z (f64_to_i64 n)) then i64_to_string (f64_to_i64 n) else display_f64 n.

(** ** Printing *)

Definition write_json_string (s : bytes) : bytes :=
  x22 :: (s ≫= λ b, if bool_decide (b = x5c) || bool_decide (b = x22) then [x5c; b] else [b]) ++ [x22].

(** The items with commas in between. *)
Fixpoint commas (l : list bytes) : bytes :=
  match l with
  | [] => []
  | [x] => x
  | x :: l' => x ++ x2c :: commas l'
  end.

Fixpoint write_json (v : JsonValue) : bytes :=
  match v with
  | JNull => B "null"
  | JBool b => if b then B "true" else B "false"
  | JNumber n => write_number n
  | JString s => write_json_string s
  | JArray l => x5b :: commas (List.map write_json l) ++ [x5d]
  | JObject l => x7b :: commas (List.map (λ '(k, w), write_json_string k ++ x3a :: write_json w) l) ++ [x7d]
  end.

Definition to_resp_string : JsonValue → bytes := write_json.

Definition type_name (v : JsonValue) : bytes :=
  match v with
  | JNull => B "null"
  | JBool _ => B "boolean"
  | JNumber _ => B "number"
  | JString _ => B "string"
  | JArray _ => B "array"
  | JObject _ => B "object"
  end.

(** ** Parsing *)

Definition is_ascii_whitespace (b : byte) : bool :=
  match b with x20 | x09 | x0a | x0c | x0d => true | _ => false end.

Fixpoint skip_ws (s : bytes) : bytes :=
  match s with
  | b :: s' => if is_ascii_whitespace b then skip_ws s' else s
  | [] => []
  end.

Definition starts_with (p s : bytes) : bool := bool_decide (take (length p) s = p).

(** The characters [char::is_whitespace] holds of, as UTF-8. *)
Definition WHITESPACE : list bytes :=
  [[x09]; [x0a]; [x0b]; [x0c]; [x0d]; [x20]; [xc2; x85]; [xc2; xa0]; [xe1; x9a; x80];
   [xe2; x80; x80]; [xe2; x80; x81]; [xe2; x80; x82]; [xe2; x80; x83]; [xe2; x80; x84]; [xe2; x80; x85]; [xe2; x80; x86];
   [xe2; x80; x87]; [xe2; x80; x88]; [xe2; x80; x89]; [xe2; x80; x8a]; [xe2; x80; xa8]; [xe2; x80; xa9]; [xe2; x80; xaf];
   [xe2; x81; x9f]; [xe3; x80; x80]].

(** Whitespace characters off the front, each one of [ws]. *)
Fixpoint trim_front (fuel : nat) (ws : list bytes) (s : bytes) : bytes :=
  match fuel with
  | O => s
  | S fuel =>
      match List.find (λ w, starts_with w s) ws with
      | Some w => trim_front fuel ws (drop (length w) s)
      | None => s
      end
  end.

(** [input.trim()] *)
Definition trim (s : bytes) : bytes :=
  let s := trim_front (length s) WHITESPACE s in
  rev (trim_front (length s) (@rev byte <$> WHITESPACE) (rev s)).

(** [String::push] of the character of a code point below [0x10000]. *)
Definition utf8_of (cp : Z) : bytes :=
  if cp <? 0x80 then [z2b cp]
  else if cp <? 0x800 then [z2b (0xC0 + cp / 64); z2b (0x80 + cp mod 64)]
  else [z2b (0xE0 + cp / 4096); z2b (0x80 + (cp / 64) mod 64); z2b (0x80 + cp mod 64)].

Definition hex_val (b : byte) : option Z :=
  let n := b2z b in
  if (48 <=? n) && (n <=? 57) then Some (n - 48)
  else if (65 <=? n) && (n <=? 70) then Some (n - 55)
  else if (97 <=? n) && (n <=? 102) then Some (n - 87)
  else None.

Fixpoint hex_digits (s : bytes) (v : Z) : option Z :=
  match s with
  | [] => Some v
  | b :: s' => match hex_val b with Some d => hex_digits s' (v * 16 + d) | None => None end
  end.

(** [u32::from_str_radix(hex, 16)] of four bytes: a plus sign is allowed. *)
Definition parse_hex4 (s : bytes) : option Z :=
  match s with x2b :: s' => hex_digits s' 0 | _ => hex_digits s 0 end.

(** [char::from_u32(cp).unwrap_or('\u{FFFD}')] *)
Definition char_of (cp : Z) : Z := if (0xD800 <=? cp) && (cp <=? 0xDFFF) then 0xFFFD else cp.

(** The first loop: the text up to a quote, as long as there is no backslash.
    [Some None] says that there is one. *)
Fixpoint raw_string (s : bytes) : option (option (bytes * bytes)) :=
  match s with
  | [] => None
  | x22 :: s' => Some (Some ([], s'))
  | x5c :: _ => Some None
  | b :: s' =>
      match raw_string s' with
      | Some (Some (t, rest)) => Some (Some (b :: t, rest))
      | r => r
      end
  end.

(** The second loop; a byte that is not part of an escape is pushed as a character. *)
Fixpoint unescape (s : bytes) : option (bytes * bytes) :=
  let push t r := match r with Some (t', rest) => Some (t ++ t', rest) | None => None end in
  match s with
  | [] => None
  | x22 :: s' => Some ([], s')
  | x5c :: s' =>
      match s' with
      | x22 :: s'' => push [x22] (unescape s'')
      | x5c :: s'' => push [x5c] (unescape s'')
      | x2f :: s'' => push [x2f] (unescape s'')
      | x6e :: s'' => push [x0a] (unescape s'')
      | x72 :: s'' => push [x0d] (unescape s'')
      | x74 :: s'' => push [x09] (unescape s'')
      | x62 :: s'' => push [x08] (unescape s'')
      | x66 :: s'' => push [x0c] (unescape s'')
      | x75 :: a :: b :: c :: d :: s'' =>
          match parse_hex4 [a; b; c; d] with
          | Some cp => push (utf8_of (char_of cp)) (unescape s'')
          | None => None
          end
      | _ => None
      end
  | b :: s' => push (utf8_of (b2z b)) (unescape s')
  end.

(** The text and what follows the closing quote. *)
Definition parse_json_string (s : bytes) : option (bytes * bytes) :=
  match s with
  | x22 :: s' =>
      match raw_string s' with
      | Some (Some r) => Some r
      | Some None => unescape s'
      | None => None
      end
  | _ => None
  end.

(** A run of digits. *)
Fixpoint span_digits (s : bytes) : bytes * bytes :=
  match s with
  | b :: s' => if is_ascii_digit b then let '(a, r) := span_digits s' in (b :: a, r) else ([], s)
  | [] => ([], [])
  end.

(** The longest prefix of the shape of a number. *)
Definition span_number (s : bytes) : bytes * bytes :=
  let '(sign, s) := match s with x2d :: s' => ([x2d], s') | _ => ([], s) end in
  let '(int, s) := span_digits s in
  let '(frac, s) := match s with x2e :: s' => let '(d, r) := span_digits s' in (x2e :: d, r) | _ => ([], s) end in
  let '(exp, s) :=
    match s with
    | b :: s' =>
        if bool_decide (b = x65) || bool_decide (b = x45) then
          let '(sg, s') := match s' with
                           | c :: s'' => if bool_decide (c = x2b) || bool_decide (c = x2d) then ([c], s'') else ([], s')
                           | [] => ([], [])
                           end in
          let '(d, r) := span_digits s' in (b :: sg ++ d, r)
        else ([], s)
    | [] => ([], [])
    end in
  (sign ++ int ++ frac ++ exp, s).

Definition parse_json_number (s : bytes) : option (JsonValue * bytes) :=
  let '(t, rest) := span_number s in
  match t with
  | [] => None
  | _ => match parse_f64 t with Some n => Some (JNumber n, rest) | None => None end
  end.

(** Values, the members of an object and the elements of an array.  Each call uses
    one unit of fuel; [None] is a failure of the parser. *)
Fixpoint parse_json_value (fuel : nat) (input : bytes) {struct fuel} : option (JsonValue * bytes) :=
  match fuel with
  | O => None
  | S fuel =>
      let input := skip_ws input in
      match input with
      | [] => None
      | x22 :: _ => match parse_json_string input with Some (s, r) => Some (JString s, r) | None => None end
      | x7b :: s =>
          match skip_ws s with
          | x7d :: r => Some (JObject [], r)
          | r => match parse_members fuel r with Some (l, r) => Some (JObject l, r) | None => None end
          end
      | x5b :: s =>
          match skip_ws s with
          | x5d :: r => Some (JArray [], r)
          | r => match parse_elements fuel r with Some (l, r) => Some (JArray l, r) | None => None end
          end
      | _ =>
          if starts_with (B "true") input then Some (JBool true, drop 4 input)
          else if starts_with (B "false") input then Some (JBool false, drop 5 input)
          else if starts_with (B "null") input then Some (JNull, drop 4 input)
          else parse_json_number input
      end
  end
with parse_elements (fuel : nat) (rest : bytes) {struct fuel} : option (list JsonValue * bytes) :=
  match fuel with
  | O => None
  | S fuel =>
      match parse_json_value fuel (skip_ws rest) with
      | None => None
      | Some (v, r) =>
          match skip_ws r with
          | x2c :: r => match parse_elements fuel r with Some (l, r) => Some (v :: l, r) | None => None end
          | x5d :: r => Some ([v], r)
          | _ => None
          end
      end
  end
with parse_members (fuel : nat) (rest : bytes) {struct fuel} : option (list (bytes * JsonValue) * bytes) :=
  match fuel with
  | O => None
  | S fuel =>
      match parse_json_string (skip_ws rest) with
      | None => None
      | Some (k, r) =>
          match skip_ws r with
          | x3a :: r =>
              match parse_json_value fuel (skip_ws r) with
              | None => None
              | Some (v, r) =>
                  match skip_ws r with
                  | x2c :: r => match parse_members fuel r with Some (l, r) => Some ((k, v) :: l, r) | None => None end
                  | x7d :: r => Some ([(k, v)], r)
                  | _ => None
                  end
              end
          | _ => None
          end
      end
  end.

(** Fuel for a text: a call consumes a byte or is the first of its kind. *)
Definition json_fuel (s : bytes) : nat := (2 * length s + 2)%nat.

(** [JsonValue::parse] *)
Definition parse_json (input : bytes) : option JsonValue :=
  let input := trim input in
  match input with
  | [] => None
  | _ =>
      match parse_json_value (json_fuel input) input with
      | Some (v, rest) => if forallb is_ascii_whitespace rest then Some v else None
      | None => None
      end
  end.

Example display_examples :
  (write_number <$> parse_f64 (B "0.1")) = Some (B "0.1") ∧ (write_number <$> parse_f64 (B "1e-7")) = Some (B "0.0000001") ∧
  (write_number <$> parse_f64 (B "123456.789")) = Some (B "123456.789") ∧ (write_number <$> parse_f64 (B "-2.50")) = Some (B "-2.5") ∧
  (write_number <$> parse_f64 (B "1e21")) = Some (B "1000000000000000000000") ∧ (write_number <$> parse_f64 (B "5e-1")) = Some (B "0.5") ∧
  (write_number <$> parse_f64 (B "0.3")) = Some (B "0.3") ∧ (write_number <$> parse_f64 (B "9007199254740993")) = Some (B "9007199254740992") ∧
  (write_number <$> parse_f64 (B "1e400")) = Some (B "inf").
Proof. vm_compute. done. Qed.


(** ** Paths *)

Definition is_root (path : bytes) : bool :=
  bool_decide (path = B ".") || bool_decide (path = B "$") || bool_decide (path = []).

(** [path.split(b)] *)
Fixpoint split_byte (b : byte) (s : bytes) : list bytes :=
  match s with
  | [] => [[]]
  | x :: s' =>
      if bool_decide (x = b) then [] :: split_byte b s'
      else match split_byte b s' with p :: ps => (x :: p) :: ps | [] => [[x]] end
  end.

(** The parts of a path that is not the root; [None] when it has neither prefix. *)
Definition path_parts (path : bytes) : option (list bytes) :=
  match path with
  | "$"%byte :: x2e :: s => Some (split_byte x2e s)
  | x2e :: s => Some (split_byte x2e s)
  | _ => None
  end.

(** A part is a name, or a number in brackets; [Some None] is anything else in brackets. *)
Definition bracket (part : bytes) : option (option Z) :=
  match part with
  | x5b :: s => match rev s with x5d :: r => Some (parse_u64 (rev r)) | _ => None end
  | _ => None
  end.

(** [obj.iter().find(|(k, _)| k == part)] *)
Definition member_at (k : bytes) (l : list (bytes * JsonValue)) : option nat :=
  fst <$> list_find (λ p, p.1 = k) l.

(** Where a part leads: the child, and how to put another in its place. *)
Definition child (part : bytes) (v : JsonValue) : option (JsonValue * (JsonValue → JsonValue)) :=
  match bracket part with
  | Some None => None
  | Some (Some idx) =>
      match v with
      | JArray l => w ← l !! Z.to_nat idx; Some (w, λ w, JArray (<[Z.to_nat idx := w]> l))
      | _ => None
      end
  | None =>
      match v with
      | JObject l =>
          i ← member_at part l; w ← l !! i; Some (w.2, λ x, JObject (<[i := (w.1, x)]> l))
      | _ => None
      end
  end.

Fixpoint walk (parts : list bytes) (v : JsonValue) : option (JsonValue * (JsonValue → JsonValue)) :=
  match parts with
  | [] => Some (v, λ w, w)
  | part :: parts =>
      '(w, put) ← child part v;
      '(x, put') ← walk parts w;
      Some (x, λ y, put (put' y))
  end.

(** [get_path_mut]: the value of the path, and the document with another there. *)
Definition get_path_mut (path : bytes) (v : JsonValue) : option (JsonValue * (JsonValue → JsonValue)) :=
  if is_root path then Some (v, λ w, w) else parts ← path_parts path; walk parts v.

Definition get_path (path : bytes) (v : JsonValue) : option JsonValue := fst <$> get_path_mut path v.

(** The last part of a path: an element that is there, or a member, added at the end
    if need be. *)
Definition set_last (last : bytes) (new v : JsonValue) : option JsonValue :=
  match bracket last with
  | Some None => None
  | Some (Some idx) =>
      match v with
      | JArray l => if idx <? Z.of_nat (length l) then Some (JArray (<[Z.to_nat idx := new]> l)) else None
      | _ => None
      end
  | None =>
      match v with
      | JObject l =>
          match member_at last l with
          | Some i => Some (JObject (alter (λ p, (p.1, new)) i l))
          | None => Some (JObject (l ++ [(last, new)]))
          end
      | _ => None
      end
  end.

(** [None] is [false], with the document as it was. *)
Definition set_path (path : bytes) (new v : JsonValue) : option JsonValue :=
  if is_root path then Some new
  else
    parts ← path_parts path;
    last_part ← last parts;
    '(parent, put) ← walk (removelast parts) v;
    w ← set_last last_part new parent;
    Some (put w).

(** [del_path] takes names only on the way, and an index without brackets at the end. *)
Fixpoint walk_names (parts : list bytes) (v : JsonValue) : option (JsonValue * (JsonValue → JsonValue)) :=
  match parts with
  | [] => Some (v, λ w, w)
  | part :: parts =>
      match v with
      | JObject l =>
          i ← member_at part l; w ← l !! i;
          '(x, put) ← walk_names parts w.2;
          Some (x, λ y, JObject (<[i := (w.1, put y)]> l))
      | _ => None
      end
  end.

Definition del_last (last : bytes) (v : JsonValue) : option JsonValue :=
  match v with
  | JObject l =>
      let l' := filter (λ p, p.1 ≠ last) l in
      if (length l' <? length l)%nat then Some (JObject l') else None
  | JArray l =>
      match parse_u64 last with
      | Some idx => if idx <? Z.of_nat (length l) then Some (JArray (delete (Z.to_nat idx) l)) else None
      | None => None
      end
  | _ => None
  end.

Definition del_path (path : bytes) (v : JsonValue) : option JsonValue :=
  if is_root path then None
  else
    parts ← path_parts path;
    last_part ← last parts;
    '(parent, put) ← walk_names (removelast parts) v;
    w ← del_last last_part parent;
    Some (put w).
