(* ===== verification/JsonOps.v ===== *)
(** JSON commands on the store: storage/json.rs.

    [None] is a panic: every command but JSON.GET unwraps the result of parsing
    the stored text. *)

From S2P Require Import Prelude Decimal MapIface Resp Float Value Store Json.
Local Open Scope Z_scope.

Definition NO_KEY : bytes := B "ERR no such key".
Definition NO_PATH : bytes := B "ERR path does not exist".
Definition BAD_JSON : bytes := B "ERR invalid JSON".
Definition not_a (kind : bytes) : bytes := B "ERR path value is not " ++ kind.

(** [json_values_equal] *)
Definition json_values_equal (a b : JsonValue) : bool :=
  match a, b with
  | JNull, JNull => true
  | JBool a, JBool b => Bool.eqb a b
  | JNumber a, JNumber b => f64_lt (f64_abs (f64_sub a b)) EPSILON
  | JString a, JString b => bool_decide (a = b)
  | _, _ => false
  end.

(** The first index of [l], counted from [i], that equals [v]. *)
Fixpoint index_of (v : JsonValue) (l : list JsonValue) (i : Z) : option Z :=
  match l with
  | [] => None
  | w :: l' => if json_values_equal w v then Some i else index_of v l' (i + 1)
  end.

(** The values of the arguments, or the error of the first that does not parse. *)
Fixpoint parse_all (values : list bytes) : result (list JsonValue) :=
  match values with
  | [] => Ok []
  | v :: values =>
      match parse_json v with
      | None => Err BAD_JSON
      | Some j => match parse_all values with Ok l => Ok (j :: l) | Err e => Err e end
      end
  end.

(** An index into an array of [len]: negative ones from the end, not below 0, and at
    most [top]. *)
Definition clamp_index (index len top : Z) : Z :=
  if index <? 0 then (if len + index <? 0 then 0 else len + index) else Z.min index top.

Section JsonOps.
Context {M : Type} `{KVMap StoreValue M} (c : Clock).
Implicit Types (st : Store M) (key path : bytes).

Definition StoreValue_json (j : JsonValue) : StoreValue := mkValue (VJson (to_resp_string j)) 0.
Definition StoreValue_json_raw (s : bytes) : StoreValue := mkValue (VJson s) 0.

Definition live_key key st : bool :=
  match kv_get_ref (data st) key with Some e => negb (is_expired c e) | None => false end.

(** [update_with] of a document: [f] gives the new one, if there is one, and the answer. *)
Definition json_update {R} key (absent : result R) (f : JsonValue → option JsonValue * result R) st
    : Store M * option (result R) :=
  let '(st', r) := update_with key (λ val,
    if is_expired c val then (val, Some absent)
    else
      match as_json_str (value val) with
      | None => (val, Some (Err WRONGTYPE))
      | Some raw =>
          match parse_json raw with
          | None => (val, None)
          | Some json =>
              let '(new, r) := f json in
              (match new with Some j => mkValue (VJson (to_resp_string j)) (expires_ms val) | None => val end, Some r)
          end
      end) st in
  (st', match r with Some r => r | None => Some absent end).

(** The value of a path is replaced; an answer comes with the new value. *)
Definition at_path {R} path (missing : result R) (f : JsonValue → option JsonValue * result R) (json : JsonValue)
    : option JsonValue * result R :=
  match get_path_mut path json with
  | None => (None, missing)
  | Some (target, put) => let '(new, r) := f target in (put <$> new, r)
  end.

(** The value of a path is read. *)
Definition json_read {R} key path (absent : R) (f : JsonValue → result R) st : option (result R) :=
  read_live c key (Some (Ok absent))
    (λ v, match as_json_str v with
          | None => Some (Err WRONGTYPE)
          | Some raw =>
              match parse_json raw with
              | None => None
              | Some json =>
                  match get_path path json with
                  | None => Some (Ok absent)
                  | Some target => Some (f target)
                  end
              end
          end) st.

Definition json_set key path (v : bytes) (nx xx : bool) st : Store M * option (result bool) :=
  if is_root path then
    if nx && live_key key st then (st, Some (Ok false))
    else if xx && negb (live_key key st) then (st, Some (Ok false))
    else (put key (StoreValue_json_raw v) st, Some (Ok true))
  else
    match parse_json v with
    | None => (st, Some (Err BAD_JSON))
    | Some parsed =>
        let fresh := set_path path parsed (JObject []) in
        let '(st', r) := update_with key (λ val,
          if is_expired c val then
            if xx then (val, Some (Ok false))
            else match fresh with
                 | Some root => (StoreValue_json root, Some (Ok true))
                 | None => (val, Some (Err NO_PATH))
                 end
          else
            match as_json_str (value val) with
            | None => (val, Some (Err WRONGTYPE))
            | Some raw =>
                match parse_json raw with
                | None => (val, None)
                | Some json =>
                    let there := bool_decide (is_Some (get_path path json)) in
                    if nx && there then (val, Some (Ok false))
                    else if xx && negb there then (val, Some (Ok false))
                    else match set_path path parsed json with
                         | Some json => (mkValue (VJson (to_resp_string json)) (expires_ms val), Some (Ok true))
                         | None => (val, Some (Err NO_PATH))
                         end
                end
            end) st in
        match r with
        | Some r => (st', r)
        | None =>
            if xx then (st', Some (Ok false))
            else match fresh with
                 | Some root => (put key (StoreValue_json root) st', Some (Ok true))
                 | None => (st', Some (Err NO_PATH))
                 end
        end
    end.

(** One path of several: its text unquoted, and the value or null. *)
Definition write_path (json : JsonValue) (p : bytes) : bytes :=
  Byte.x22 :: p ++ Byte.x22 :: B ":" ++ match get_path p json with Some v => to_resp_string v | None => B "null" end.

Definition json_get key (paths : list bytes) st : result (option bytes) :=
  read_live c key (Ok None)
    (λ v, match as_json_str v with
          | None => Err WRONGTYPE
          | Some raw =>
              let whole := match paths with [] => true | [p] => is_root p | _ => false end in
              if whole then Ok (Some raw)
              else
                match parse_json raw with
                | None => Ok None
                | Some json =>
                    match paths with
                    | [p] => Ok (to_resp_string <$> get_path p json)
                    | _ => Ok (Some (B "{" ++ commas (write_path json <$> paths) ++ B "}"))
                    end
                end
          end) st.

Definition json_del key path st : Store M * option (result Z) :=
  if is_root path then
    let '(m, r) := kv_remove key (data st) in (with_data st m, Some (Ok (match r with Some _ => 1 | None => 0 end)))
  else
    json_update key (Ok 0) (λ json, match del_path path json with Some j => (Some j, Ok 1) | None => (None, Ok 0) end) st.

Definition json_type key path st : option (result (option bytes)) :=
  json_read key path None (λ v, Ok (Some (type_name v))) st.

Definition json_num key path (f : f64 → f64) st : Store M * option (result (option f64)) :=
  json_update key (Err NO_KEY) (at_path path (Err NO_PATH) (λ v,
    match v with
    | JNumber n => (Some (JNumber (f n)), Ok (Some (f n)))
    | _ => (None, Err (not_a (B "a number")))
    end)) st.
Definition json_numincrby key path (by_ : f64) := json_num key path (λ n, f64_add n by_).
Definition json_nummultby key path (by_ : f64) := json_num key path (λ n, f64_mul n by_).

Definition json_strappend key path (suffix : bytes) st : Store M * option (result (option Z)) :=
  json_update key (Err NO_KEY) (at_path path (Err NO_PATH) (λ v,
    match v with
    | JString s => (Some (JString (s ++ suffix)), Ok (Some (zlen (s ++ suffix))))
    | _ => (None, Err (not_a (B "a string")))
    end)) st.

Definition json_strlen key path st : option (result (option Z)) :=
  json_read key path None (λ v, match v with JString s => Ok (Some (zlen s)) | _ => Err (not_a (B "a string")) end) st.

(** A command that changes an array. *)
Definition json_array key path (f : list JsonValue → list JsonValue) st : Store M * option (result (option Z)) :=
  json_update key (Err NO_KEY) (at_path path (Err NO_PATH) (λ v,
    match v with
    | JArray l => (Some (JArray (f l)), Ok (Some (Z.of_nat (length (f l)))))
    | _ => (None, Err (not_a (B "an array")))
    end)) st.

Definition json_arrappend key path (values : list bytes) st : Store M * option (result (option Z)) :=
  match parse_all values with
  | Err e => (st, Some (Err e))
  | Ok parsed => json_array key path (λ l, l ++ parsed) st
  end.

Definition json_arrlen key path st : option (result (option Z)) :=
  json_read key path None
    (λ v, match v with JArray l => Ok (Some (Z.of_nat (length l))) | _ => Err (not_a (B "an array")) end) st.

Definition json_arrpop key path (index : Z) st : Store M * option (result (option bytes)) :=
  json_update key (Ok None) (at_path path (Err NO_PATH) (λ v,
    match v with
    | JArray l =>
        let idx := Z.to_nat (clamp_index index (Z.of_nat (length l)) (Z.of_nat (length l) - 1)) in
        match l !! idx with
        | None => (None, Ok None)
        | Some removed => (Some (JArray (delete idx l)), Ok (Some (to_resp_string removed)))
        end
    | _ => (None, Err (not_a (B "an array")))
    end)) st.

Definition json_objkeys key path st : option (result (option (list bytes))) :=
  json_read key path None (λ v, match v with JObject l => Ok (Some (fst <$> l)) | _ => Err (not_a (B "an object")) end) st.

Definition json_objlen key path st : option (result (option Z)) :=
  json_read key path None
    (λ v, match v with JObject l => Ok (Some (Z.of_nat (length l))) | _ => Err (not_a (B "an object")) end) st.

Definition json_toggle key path st : Store M * option (result (option bool)) :=
  json_update key (Err NO_KEY) (at_path path (Err NO_PATH) (λ v,
    match v with
    | JBool b => (Some (JBool (negb b)), Ok (Some (negb b)))
    | _ => (None, Err (not_a (B "a boolean")))
    end)) st.

Definition json_clear key path st : Store M * option (result Z) :=
  json_update key (Ok 0) (at_path path (Ok 0) (λ v,
    match v with
    | JArray _ => (Some (JArray []), Ok 1)
    | JObject _ => (Some (JObject []), Ok 1)
    | JNumber _ => (Some (JNumber (f64_of_Z 0)), Ok 1)
    | _ => (None, Ok 0)
    end)) st.

Definition json_arrindex key path (v : bytes) (start stop : Z) st : option (result Z) :=
  match parse_json v with
  | None => Some (Err BAD_JSON)
  | Some search =>
      json_read key path (-1) (λ v,
        match v with
        | JArray l =>
            let len := Z.of_nat (length l) in
            let s := if start <? 0 then Z.max (len + start) 0 else start in
            let e := if stop =? 0 then len else if stop <? 0 then Z.max (len + stop) 0 else Z.min stop len in
            Ok (default (-1) (index_of search (take (Z.to_nat (e - s)) (drop (Z.to_nat s) l)) s))
        | _ => Err (not_a (B "an array"))
        end) st
  end.

Definition json_arrinsert key path (index : Z) (values : list bytes) st : Store M * option (result (option Z)) :=
  match parse_all values with
  | Err e => (st, Some (Err e))
  | Ok parsed =>
      json_array key path (λ l,
        let idx := Z.to_nat (clamp_index index (Z.of_nat (length l)) (Z.of_nat (length l))) in
        take idx l ++ parsed ++ drop idx l) st
  end.

Definition json_arrtrim key path (start stop : Z) st : Store M * option (result (option Z)) :=
  json_array key path (λ l,
    let len := Z.of_nat (length l) in
    let s := if start <? 0 then Z.max (len + start) 0 else Z.min start len in
    let e := if stop <? 0 then Z.max (len + stop) 0 else wrap64 (Z.min stop (len - 1)) in
    if (e <? s) || (len <=? s) then []
    else take (Z.to_nat (Z.min e (len - 1) + 1 - s)) (drop (Z.to_nat s) l)) st.
End JsonOps.
