(* ===== verification/CmdJson.v ===== *)
(** The JSON commands: commends/json.rs. *)

From S2P Require Import Prelude Decimal MapIface Resp Float Value Store Json JsonOps Handler.
Local Open Scope Z_scope.

Section CmdJson.
Context {M : Type} `{KVMap StoreValue M} (c : Clock).
Implicit Types (parts : list bytes).

Definition store_error (e : bytes) : Handler M unit := write (λ out, write_store_err out e).

(** [match r { Ok(Some(a)) => .., Ok(None) => nil, Err(e) => .. }] *)
Definition answer_opt {A} (w : A → Handler M unit) (r : option (result (option A))) : Handler M unit :=
  r ← unwrap r;
  match r with Ok (Some a) => w a | Ok None => write write_nil | Err e => store_error e end.

Definition answer_int (r : option (result Z)) : Handler M unit :=
  r ← unwrap r;
  match r with Ok n => put_integer (as_i64 n) | Err e => store_error e end.

Definition put_int (n : Z) : Handler M unit := put_integer (as_i64 n).

(** [key] or [key path]. *)
Definition key_path (cmd : bytes) parts : Handler M (bytes * bytes) :=
  match parts with
  | [_; key] => mret (key, B ".")
  | [_; key; path] => mret (key, path)
  | _ => wrong_args cmd
  end.

Fixpoint json_set_options (rest : list bytes) (nx xx : bool) : Handler M (bool * bool) :=
  match rest with
  | [] => mret (nx, xx)
  | opt :: rest =>
      if eq_ignore_case opt (B "NX") then json_set_options rest true xx
      else if eq_ignore_case opt (B "XX") then json_set_options rest nx true
      else syntax_error
  end.

Definition json_set parts : Handler M unit :=
  match parts with
  | _ :: key :: path :: value :: rest =>
      '(nx, xx) ← json_set_options rest false false;
      r ← call (JsonOps.json_set c key path value nx xx);
      r ← unwrap r;
      match r with Ok true => write write_ok | Ok false => write write_nil | Err e => store_error e end
  | _ => wrong_args (B "json.set")
  end.

Definition json_get parts : Handler M unit :=
  match parts with
  | _ :: key :: paths =>
      r ← look (JsonOps.json_get c key paths);
      match r with Ok (Some s) => put_bulk s | Ok None => write write_nil | Err e => store_error e end
  | _ => wrong_args (B "json.get")
  end.

Definition json_del parts : Handler M unit :=
  '(key, path) ← key_path (B "json.del") parts;
  r ← call (JsonOps.json_del c key path); answer_int r.

Definition json_forget parts : Handler M unit := json_del parts.

Definition json_type parts : Handler M unit :=
  '(key, path) ← key_path (B "json.type") parts;
  r ← look (JsonOps.json_type c key path); answer_opt put_bulk r.

Definition json_numincrby parts : Handler M unit :=
  match parts with
  | [_; key; path; value] =>
      by_ ← parse_float value;
      r ← call (JsonOps.json_numincrby c key path by_); answer_opt (λ n, put_bulk (format_float n)) r
  | _ => wrong_args (B "json.numincrby")
  end.

Definition json_nummultby parts : Handler M unit :=
  match parts with
  | [_; key; path; value] =>
      by_ ← parse_float value;
      r ← call (JsonOps.json_nummultby c key path by_); answer_opt (λ n, put_bulk (format_float n)) r
  | _ => wrong_args (B "json.nummultby")
  end.

(** A pair of quotes around the value is taken off. *)
Definition unquote (v : bytes) : bytes :=
  match v with
  | Byte.x22 :: s => match rev s with Byte.x22 :: r => rev r | _ => v end
  | _ => v
  end.

Definition json_strappend parts : Handler M unit :=
  '(key, path, value) ← match parts with
                        | [_; key; value] => mret (key, B ".", value)
                        | [_; key; path; value] => mret (key, path, value)
                        | _ => wrong_args (B "json.strappend")
                        end;
  r ← call (JsonOps.json_strappend c key path (unquote value)); answer_opt put_int r.

Definition json_strlen parts : Handler M unit :=
  '(key, path) ← key_path (B "json.strlen") parts;
  r ← look (JsonOps.json_strlen c key path); answer_opt put_int r.

Definition json_arrappend parts : Handler M unit :=
  match parts with
  | _ :: key :: path :: values =>
      if is_nil values then wrong_args (B "json.arrappend")
      else r ← call (JsonOps.json_arrappend c key path values); answer_opt put_int r
  | _ => wrong_args (B "json.arrappend")
  end.

Definition json_arrindex parts : Handler M unit :=
  match parts with
  | _ :: key :: path :: value :: rest =>
      start ← match rest with a :: _ => parse_int a | _ => mret 0 end;
      stop ← match rest with _ :: b :: _ => parse_int b | _ => mret 0 end;
      r ← look (JsonOps.json_arrindex c key path value start stop);
      r ← unwrap r;
      match r with Ok n => put_integer n | Err e => store_error e end
  | _ => wrong_args (B "json.arrindex")
  end.

Definition json_arrinsert parts : Handler M unit :=
  match parts with
  | _ :: key :: path :: index_str :: values =>
      if is_nil values then wrong_args (B "json.arrinsert")
      else
        index ← parse_int index_str;
        r ← call (JsonOps.json_arrinsert c key path index values); answer_opt put_int r
  | _ => wrong_args (B "json.arrinsert")
  end.

Definition json_arrlen parts : Handler M unit :=
  '(key, path) ← key_path (B "json.arrlen") parts;
  r ← look (JsonOps.json_arrlen c key path); answer_opt put_int r.

Definition json_arrpop parts : Handler M unit :=
  '(key, path, index) ← match parts with
                        | [_; key] => mret (key, B ".", -1)
                        | [_; key; path] => mret (key, path, -1)
                        | [_; key; path; idx] => i ← parse_int idx; mret (key, path, i)
                        | _ => wrong_args (B "json.arrpop")
                        end;
  r ← call (JsonOps.json_arrpop c key path index); answer_opt put_bulk r.

Definition json_arrtrim parts : Handler M unit :=
  match parts with
  | [_; key; path; start; stop] =>
      s ← parse_int start;
      e ← parse_int stop;
      r ← call (JsonOps.json_arrtrim c key path s e); answer_opt put_int r
  | _ => wrong_args (B "json.arrtrim")
  end.

Definition json_objkeys parts : Handler M unit :=
  '(key, path) ← key_path (B "json.objkeys") parts;
  r ← look (JsonOps.json_objkeys c key path); answer_opt put_array r.

Definition json_objlen parts : Handler M unit :=
  '(key, path) ← key_path (B "json.objlen") parts;
  r ← look (JsonOps.json_objlen c key path); answer_opt put_int r.

Definition json_toggle parts : Handler M unit :=
  match parts with
  | [_; key; path] =>
      r ← call (JsonOps.json_toggle c key path);
      answer_opt (λ b : bool, put_bulk (if b then B "true" else B "false")) r
  | _ => wrong_args (B "json.toggle")
  end.

Definition json_clear parts : Handler M unit :=
  '(key, path) ← key_path (B "json.clear") parts;
  r ← call (JsonOps.json_clear c key path); answer_int r.

Definition json_mget parts : Handler M unit :=
  if (length parts <? 3)%nat then wrong_args (B "json.mget")
  else
    let path := default [] (last parts) in
    let keys := removelast (tail parts) in
    results ← look (λ st, (λ k, match JsonOps.json_get c k [path] st with Ok (Some s) => Some s | _ => None end) <$> keys);
    write (λ out, foldl write_opt_bulk (write_array_header out (Z.of_nat (length results))) results).

Definition json_resp parts : Handler M unit :=
  '(key, path) ← key_path (B "json.resp") parts;
  r ← look (JsonOps.json_get c key [path]);
  match r with Ok (Some s) => put_bulk s | Ok None => write write_nil | Err e => store_error e end.
End CmdJson.
