(* ===== verification/CmdGeo.v ===== *)
(** The HyperLogLog and the geographic commands: commends/hll.rs, commends/geo.rs. *)

From S2P Require Import Prelude MapIface Decimal Resp Float Value Store ZSetOps Handler Hll Geo.
Local Open Scope Z_scope.

(** [GeoUnit::parse_str] of storage/geo.rs *)
Definition parse_str (s : bytes) : option GeoUnit :=
  if eq_ignore_case s (B "m") then Some Meters
  else if eq_ignore_case s (B "km") then Some Kilometers
  else if eq_ignore_case s (B "ft") then Some Feet
  else if eq_ignore_case s (B "mi") then Some Miles
  else None.

(** The options of GEOSEARCH and GEOSEARCHSTORE. *)
Record GeoOptions := mkOptions {
  o_center : option GeoCenter;
  o_shape : option GeoShape;
  o_asc : bool;
  o_count : Z;
  withcoord : bool;
  withdist : bool;
  storedist : bool;
}.

Definition set_center x o := mkOptions (Some x) (o_shape o) (o_asc o) (o_count o) (withcoord o) (withdist o) (storedist o).
Definition set_shape x o := mkOptions (o_center o) (Some x) (o_asc o) (o_count o) (withcoord o) (withdist o) (storedist o).
Definition set_asc x o := mkOptions (o_center o) (o_shape o) x (o_count o) (withcoord o) (withdist o) (storedist o).
Definition set_count x o := mkOptions (o_center o) (o_shape o) (o_asc o) x (withcoord o) (withdist o) (storedist o).
Definition set_withcoord o := mkOptions (o_center o) (o_shape o) (o_asc o) (o_count o) true (withdist o) (storedist o).
Definition set_withdist o := mkOptions (o_center o) (o_shape o) (o_asc o) (o_count o) (withcoord o) true (storedist o).
Definition set_storedist o := mkOptions (o_center o) (o_shape o) (o_asc o) (o_count o) (withcoord o) (withdist o) true.
Definition no_options : GeoOptions := mkOptions None None true 0 false false false.

Section CmdGeo.
Context {M : Type} `{KVMap StoreValue M} (c : Clock) (libm : Libm).
Implicit Types (parts rest : list bytes).

Definition unit_arg (s : bytes) : Handler M GeoUnit :=
  match parse_str s with Some u => mret u | None => error (B "unsupported unit") end.

(** The flags of GEOADD, up to the first argument that is none; running out of
    arguments is [wrong_args]. *)
Fixpoint geoadd_flags rest (nx xx ch : bool) : Handler M (bool * bool * bool * list bytes) :=
  match rest with
  | [] => wrong_args (B "geoadd")
  | a :: rest' =>
      if eq_ignore_case a (B "NX") then geoadd_flags rest' true xx ch
      else if eq_ignore_case a (B "XX") then geoadd_flags rest' nx true ch
      else if eq_ignore_case a (B "CH") then geoadd_flags rest' nx xx true
      else mret (nx, xx, ch, rest)
  end.

(** [(-x..=x).contains(&v)] *)
Definition within (x v : f64) : bool := f64_le (f64_neg x) v && f64_le v x.

Fixpoint geo_items (coords : list bytes) : Handler M (list (f64 * f64 * bytes)) :=
  match coords with
  | a :: b :: m :: coords =>
      lo ← parse_float a;
      la ← parse_float b;
      if within MAX_LON lo && within MAX_LAT la
      then items ← geo_items coords; mret ((lo, la, m) :: items)
      else error (B "invalid longitude,latitude pair")
  | _ => mret []
  end.

Definition geoadd parts : Handler M unit :=
  match parts with
  | _ :: key :: rest =>
      '(nx, xx, ch, coords) ← geoadd_flags rest false false false;
      if negb (length coords mod 3 =? 0)%nat then wrong_args (B "geoadd")
      else
        items ← geo_items coords;
        r ← call (Geo.geoadd c key items nx xx ch); n ← store_ok r; put_integer (as_i64 n)
  | _ => wrong_args (B "geoadd")
  end.

Definition write_position (out : bytes) (p : f64 * f64) : bytes :=
  write_bulk (write_bulk (write_array_header out 2) (format_float p.1)) (format_float p.2).

(** GEOPOS and GEOHASH: an answer for each member. *)
Definition members_with {A} (cmd : bytes) (f : bytes → list bytes → Store M → result (list (option A)))
    (w : bytes → A → bytes) parts : Handler M unit :=
  match parts with
  | _ :: key :: members =>
      if is_nil members then wrong_args cmd
      else
        r ← look (f key members); l ← wt r;
        write (λ out, foldl (λ out x, match x with Some a => w out a | None => write_nil out end)
                        (write_array_header out (Z.of_nat (length l))) l)
  | _ => wrong_args cmd
  end.

Definition geopos parts : Handler M unit := members_with (B "geopos") (Geo.geopos c) write_position parts.
Definition geohash parts : Handler M unit := members_with (B "geohash") (Geo.geohash c) write_bulk parts.

Definition geodist parts : Handler M unit :=
  '(key, m1, m2, u) ← match parts with
                      | [_; key; m1; m2] => mret (key, m1, m2, Meters)
                      | [_; key; m1; m2; u] => u ← unit_arg u; mret (key, m1, m2, u)
                      | _ => wrong_args (B "geodist")
                      end;
  r ← look (Geo.geodist libm c key m1 m2 u);
  match r with
  | Ok (Some d) => put_bulk (format_float d)
  | Ok None => write write_nil
  | Err e => write (λ out, write_store_err out e)
  end.

(** The loop over the options; what it does not know it skips.  Options that come
    with a value need it; [store] tells GEOSEARCHSTORE from GEOSEARCH. *)
Fixpoint geo_options (store : bool) rest (o : GeoOptions) : Handler M GeoOptions :=
  match rest with
  | [] => mret o
  | a :: rest =>
      if eq_ignore_case a (B "FROMMEMBER") then
        match rest with m :: rest => geo_options store rest (set_center (Member m) o) | _ => syntax_error end
      else if eq_ignore_case a (B "FROMLONLAT") then
        match rest with
        | x :: y :: rest => lo ← parse_float x; la ← parse_float y; geo_options store rest (set_center (LonLat lo la) o)
        | _ => syntax_error
        end
      else if eq_ignore_case a (B "BYRADIUS") then
        match rest with
        | x :: u :: rest => r ← parse_float x; u ← unit_arg u; geo_options store rest (set_shape (Radius r u) o)
        | _ => syntax_error
        end
      else if eq_ignore_case a (B "BYBOX") then
        match rest with
        | x :: y :: u :: rest =>
            w ← parse_float x; h ← parse_float y; u ← unit_arg u; geo_options store rest (set_shape (Box w h u) o)
        | _ => syntax_error
        end
      else if eq_ignore_case a (B "ASC") then geo_options store rest (set_asc true o)
      else if eq_ignore_case a (B "DESC") then geo_options store rest (set_asc false o)
      else if eq_ignore_case a (B "COUNT") then
        match rest with
        | n :: rest =>
            n ← parse_uint n;
            match rest with
            | any :: rest' =>
                if eq_ignore_case any (B "ANY") then geo_options store rest' (set_count n o)
                else geo_options store rest (set_count n o)
            | [] => mret (set_count n o)
            end
        | [] => syntax_error
        end
      else if store then geo_options store rest (if eq_ignore_case a (B "STOREDIST") then set_storedist o else o)
      else if eq_ignore_case a (B "WITHCOORD") then geo_options store rest (set_withcoord o)
      else if eq_ignore_case a (B "WITHDIST") then geo_options store rest (set_withdist o)
      else geo_options store rest o
  end.

(** The options, which must give a centre and a shape. *)
Definition search_options (store : bool) rest : Handler M (GeoOptions * GeoCenter * GeoShape) :=
  o ← geo_options store rest no_options;
  match o_center o, o_shape o with
  | Some ce, Some sh => mret (o, ce, sh)
  | _, _ => syntax_error
  end.

Definition write_result (o : GeoOptions) (out : bytes) (r : GeoResult) : bytes :=
  if withcoord o || withdist o then
    let out := write_array_header out (1 + Z.b2z (withdist o) + Z.b2z (withcoord o)) in
    let out := write_bulk out (g_member r) in
    let out := if withdist o then write_bulk out (format_float (dist r)) else out in
    if withcoord o then write_position out (lon r, lat r) else out
  else write_bulk out (g_member r).

Definition geosearch parts : Handler M unit :=
  match parts with
  | _ :: key :: rest =>
      '(o, ce, sh) ← search_options false rest;
      r ← look (Geo.geosearch libm c key ce sh (o_asc o) (o_count o));
      r ← unwrap r;
      results ← store_ok r;
      write (λ out, foldl (write_result o) (write_array_header out (Z.of_nat (length results))) results)
  | _ => wrong_args (B "geosearch")
  end.

Definition geosearchstore parts : Handler M unit :=
  match parts with
  | _ :: dst :: src :: rest =>
      '(o, ce, sh) ← search_options true rest;
      r ← call (Geo.geosearchstore libm c dst src ce sh (o_asc o) (o_count o) (storedist o));
      r ← unwrap r;
      n ← store_ok r;
      put_integer (as_i64 n)
  | _ => wrong_args (B "geosearchstore")
  end.
End CmdGeo.


Section CmdHll.
Context {M : Type} `{KVMap StoreValue M} (c : Clock) (ln : f64 → f64).
Implicit Types (parts : list bytes).

Definition pfadd parts : Handler M unit :=
  match parts with
  | _ :: key :: elements => r ← call (Hll.pfadd c key elements); changed ← store_ok r; put_boolean changed
  | _ => wrong_args (B "pfadd")
  end.

Definition pfcount parts : Handler M unit :=
  match parts with
  | _ :: keys =>
      if is_nil keys then wrong_args (B "pfcount")
      else r ← look (Hll.pfcount c ln keys); n ← store_ok r; put_integer (as_i64 n)
  | _ => wrong_args (B "pfcount")
  end.

Definition pfmerge parts : Handler M unit :=
  match parts with
  | _ :: dest :: sources => r ← call (Hll.pfmerge c dest sources); _ ← store_ok r; write write_ok
  | _ => wrong_args (B "pfmerge")
  end.
End CmdHll.
