(* ===== verification/CmdMoreSpec.v ===== *)
(** Every command on bitmaps, streams, JSON documents, sketches and positions appends
    exactly one well-formed reply, but for the panics: a range of a stream with
    inverted bounds, a document that was stored unparsed, and a search whose
    distances are not numbers. *)

From S2P Require Import Prelude MapIface CustomMap CustomMapSpec Decimal Resp RespSpec Float ZSet Value.
From S2P Require Import Store StoreSpec ZSetOps Reply Handler Hll Geo HandlerSpec CmdSpec Bitmap CmdBitmap.
From S2P Require Import StreamOps CmdStream StreamSpec Json JsonOps CmdJson CmdGeo.
Local Open Scope Z_scope.

(** ** Bitmaps *)

Section BitmapLines.
Context {M : Type} `{KVReturns StoreValue M} (c : Clock).
Implicit Types (st : Store M).

Lemma setbit_plain key off v st : plain_err (Bitmap.setbit c key off v st).2.
Proof. apply update_or_insert_plain; [|done]. intros e. case_match; [done|]. case_match; [done|]. plain_msg. Qed.

Lemma bitpos_plain key bit start end_ has_end use_bit st : plain_err (Bitmap.bitpos c key bit start end_ has_end use_bit st).
Proof. apply read_live_plain; [done|]. intros v. case_match; [done|]. plain_msg. Qed.

Lemma read_sources_plain keys st : plain_err (read_sources c keys st).
Proof.
  induction keys as [|k keys IH]; [done|]. cbn [read_sources]. unfold read_live.
  destruct (read_sources c keys st); repeat case_match; simplify_eq; try done; plain_msg.
Qed.

Lemma bitop_plain op dest keys st : plain_err (Bitmap.bitop c op dest keys st).2.
Proof.
  unfold Bitmap.bitop. pose proof (read_sources_plain keys st) as Hs. destruct (read_sources c keys st) as [[|b bufs]|e]; [done| |done].
  destruct op; [done..|]. unfold bitop_bytes. destruct bufs; [done|]. plain_msg.
Qed.
End BitmapLines.
#[export] Hint Resolve setbit_plain bitpos_plain bitop_plain : plain_err.

Section BitmapAnswers.
Context {M : Type} `{KVReturns StoreValue M} (c : Clock) (p s : bool).
Implicit Types (parts : list bytes).

Lemma parse_u8_asks b : asks p (parse_u8 b : Handler M Z) (λ _, True).
Proof. apply asks_parse_int_with. Qed.
Hint Resolve parse_u8_asks : handler.

Lemma setbit_answers parts : answers p s (CmdBitmap.setbit c parts : Handler M unit).
Proof. handler CmdBitmap.setbit. Qed.
Lemma getbit_answers parts : answers p s (CmdBitmap.getbit c parts : Handler M unit).
Proof. handler CmdBitmap.getbit. Qed.
Lemma bitcount_answers parts : answers p s (CmdBitmap.bitcount c parts : Handler M unit).
Proof. handler CmdBitmap.bitcount. Qed.
Lemma bitpos_answers parts : answers p s (CmdBitmap.bitpos c parts : Handler M unit).
Proof. handler CmdBitmap.bitpos. Qed.
Lemma bitop_answers parts : answers p s (CmdBitmap.bitop c parts : Handler M unit).
Proof. handler CmdBitmap.bitop. Qed.

Lemma field_asks ty off : asks true (field ty off : Handler M (bool * Z * Z)) (λ _, True).
Proof. handler field. Qed.
Hint Resolve field_asks : handler.
Lemma checked_bits_asks bits : asks p (checked_bits bits : Handler M unit) (λ _, True).
Proof. handler checked_bits. Qed.
Hint Resolve checked_bits_asks : handler.
Lemma i64_arg_asks b : asks p (i64_arg b : Handler M Z) (λ _, True).
Proof. handler i64_arg. Qed.
Hint Resolve i64_arg_asks : handler.
End BitmapAnswers.
#[export] Hint Resolve parse_u8_asks field_asks checked_bits_asks i64_arg_asks : handler.

Section BitfieldAnswers.
Context {M : Type} `{KVReturns StoreValue M} (c : Clock) (s : bool).

Lemma bitfield_loop_asks fuel : ∀ key rest overflow results,
  asks true (bitfield_loop c fuel key rest overflow results : Handler M _) (λ _, True).
Proof. induction fuel as [|fuel IH]; intros key rest overflow results; cbn [bitfield_loop]; answer. Qed.
Hint Resolve bitfield_loop_asks : handler.

Lemma results_replied results out :
  replied out (foldl CmdBitmap.write_result (write_array_header out (Z.of_nat (length results))) results).
Proof.
  apply (replied_each CmdBitmap.write_result (λ r, match r with Some v => RInteger v | None => RNil end)).
  - intros out' [v|]; [apply write_integer_eq|apply write_nil_eq].
  - intros [v|]; constructor.
Qed.
Hint Resolve results_replied : reply.

Lemma bitfield_answers parts : answers true s (CmdBitmap.bitfield c parts : Handler M unit).
Proof. handler CmdBitmap.bitfield. Qed.
End BitfieldAnswers.

(** ** Streams *)

Section StreamLines.
Context {M : Type} `{KVReturns StoreValue M} (c : Clock).
Implicit Types (st : Store M).

Lemma stream_update_plain {R} key (r0 : R) f st : plain_err (update_or key (stream_update c r0 f) (Ok r0) st).2.
Proof.
  apply update_or_plain; [|done]. intros v. unfold stream_update. case_match; [done|]. case_match; [|plain_msg].
  by destruct (f _).
Qed.

Lemma xadd_plain key i fields maxlen nomk st : plain_err (StreamOps.xadd c key i fields maxlen nomk st).2.
Proof.
  unfold StreamOps.xadd. case_match; [|plain_msg]. destruct (add_and_trim c _ fields maxlen StreamData_new) as [fresh fid].
  match goal with |- context [update_with key ?f st] => pose proof (update_with_plain key f st) as Hr; destruct (update_with key f st) as [st' [r|]] end.
  - apply Hr; [|done]. intros v. repeat case_goal; plain_msg.
  - by destruct nomk.
Qed.

Lemma xgroup_create_plain key group i mk st : plain_err (StreamOps.xgroup_create c key group i mk st).2.
Proof.
  unfold StreamOps.xgroup_create.
  match goal with |- context [update_with key ?f st] => pose proof (update_with_plain key f st) as Hr; destruct (update_with key f st) as [st' [r|]] end.
  - apply Hr; [|done]. intros v. repeat case_goal; plain_msg.
  - destruct mk; plain_msg.
Qed.

Lemma xlen_plain key st : plain_err (StreamOps.xlen c key st).
Proof. apply read_live_plain; [done|]. intros v. case_match; plain_msg. Qed.
End StreamLines.
#[export] Hint Resolve stream_update_plain xadd_plain xgroup_create_plain xlen_plain : plain_err.
#[export] Hint Extern 1 (plain_err (StreamOps.xtrim _ _ _ _).2) => apply stream_update_plain : plain_err.
#[export] Hint Extern 1 (plain_err (StreamOps.xdel _ _ _ _).2) => apply stream_update_plain : plain_err.
#[export] Hint Extern 1 (plain_err (StreamOps.xgroup_destroy _ _ _ _).2) => apply stream_update_plain : plain_err.
#[export] Hint Extern 1 (plain_err (StreamOps.xack _ _ _ _ _).2) => apply stream_update_plain : plain_err.

(** The entries of a stream as a reply. *)
Definition entry_reply (e : StreamEntry) : Reply := RArray [RBulk e.1; RArray (e.2 ≫= λ p, [RBulk p.1; RBulk p.2])].
Definition entries_reply (items : list StreamEntry) : Reply := RArray (entry_reply <$> items).

Lemma write_entry_eq out e : write_entry out e = out ++ encode (entry_reply e).
Proof.
  destruct e as [i fields]. unfold write_entry, entry_reply. cbn [fst snd].
  rewrite (foldl_write_array _ (λ p, [RBulk p.1; RBulk p.2])).
  - rewrite <- (write_array_header_items out [RBulk i; _]), write_bulk_eq, encodes_cons, encodes_one. by rewrite <- !app_assoc.
  - intros out' p. by rewrite !write_bulk_eq, encodes_cons, encodes_one, app_assoc.
  - apply bind_pairs_length.
Qed.

Lemma wf_entries items : well_formed (entries_reply items).
Proof.
  apply wf_array, Forall_fmap, Forall_forall. intros [i fields] _. apply wf_array.
  constructor; [constructor|]. constructor; [|constructor]. apply wf_array, Forall_forall. intros r (p & Hr & _)%list_elem_of_bind.
  rewrite !elem_of_cons in Hr. destruct Hr as [->|[->|[]%elem_of_nil]]; constructor.
Qed.

Lemma write_stream_entries_eq out items : write_stream_entries out items = out ++ encode (entries_reply items).
Proof.
  unfold write_stream_entries, entries_reply. rewrite <- bind_singles. apply (foldl_write_array _ (λ e, [entry_reply e])).
  - intros. by rewrite encodes_one, write_entry_eq.
  - by rewrite bind_singles, length_fmap.
Qed.

Lemma stream_entries_replied out items : replied out (write_stream_entries out items).
Proof. rewrite write_stream_entries_eq. apply replied_intro, wf_entries. Qed.
#[export] Hint Resolve stream_entries_replied : reply.

Lemma keyed_replied out results : replied out (foldl write_keyed (write_array_header out (Z.of_nat (length results))) results).
Proof.
  apply (replied_each write_keyed (λ r, RArray [RBulk r.1; entries_reply r.2])).
  - intros out' r. unfold write_keyed. rewrite <- (write_array_header_items out' [RBulk r.1; _]), write_stream_entries_eq, write_bulk_eq,
      encodes_cons, encodes_one. by rewrite <- !app_assoc.
  - intros r. apply wf_array. constructor; [constructor|]. constructor; [apply wf_entries|constructor].
Qed.
#[export] Hint Resolve keyed_replied : reply.

Lemma xinfo_replied out len :
  replied out (write_integer (write_bulk (write_integer (write_bulk (write_array_header out 4) (B "length")) len) (B "groups")) 0).
Proof.
  exists (RArray [RBulk (B "length"); RInteger len; RBulk (B "groups"); RInteger 0]). split; [apply wf_array; repeat constructor|].
  rewrite <- (write_array_header_items out [_; _; _; _]), !encodes_cons, !write_integer_eq, !write_bulk_eq.
  change (encodes []) with (@nil byte). by rewrite app_nil_r, <- !app_assoc.
Qed.
#[export] Hint Resolve xinfo_replied : reply.

Section StreamAnswers.
Context {M : Type} `{KVReturns StoreValue M} (c : Clock) (p s : bool).
Implicit Types (parts : list bytes).

Lemma xadd_options_asks fuel : ∀ rest nomk ml, asks p (xadd_options fuel rest nomk ml : Handler M _) (λ _, True).
Proof. induction fuel as [|fuel IH]; intros [|opt rest] nomk ml; cbn [xadd_options]; answer. Qed.
Lemma count_option_asks rest : ∀ n, asks p (count_option rest n : Handler M Z) (λ _, True).
Proof.
  induction rest as [rest IH] using (induction_ltof1 _ (@length bytes)); unfold ltof in IH. intros n.
  destruct rest as [|opt [|x rest]]; cbn [count_option]; answer; try (apply IH; simpl; lia).
Qed.
Lemma trim_option_asks fuel : ∀ rest n, asks p (trim_option fuel rest n : Handler M Z) (λ _, True).
Proof. induction fuel as [|fuel IH]; intros [|opt rest] n; cbn [trim_option]; answer. Qed.
Lemma xread_options_asks fuel : ∀ l n, asks p (xread_options fuel l n : Handler M _) (λ _, True).
Proof. induction fuel as [|fuel IH]; intros [|opt rest] n; cbn [xread_options]; answer. Qed.
Hint Resolve xadd_options_asks count_option_asks trim_option_asks xread_options_asks : handler.

Lemma xadd_answers parts : answers p s (CmdStream.xadd c parts : Handler M unit).
Proof. handler CmdStream.xadd. Qed.
Lemma xlen_answers parts : answers p s (CmdStream.xlen c parts : Handler M unit).
Proof. handler CmdStream.xlen. Qed.
Lemma xtrim_answers parts : answers p s (CmdStream.xtrim c parts : Handler M unit).
Proof. handler CmdStream.xtrim. Qed.
Lemma xdel_answers parts : answers p s (CmdStream.xdel c parts : Handler M unit).
Proof. handler CmdStream.xdel. Qed.
Lemma xgroup_answers parts : answers p s (CmdStream.xgroup c parts : Handler M unit).
Proof. handler CmdStream.xgroup. Qed.
Lemma xack_answers parts : answers p s (CmdStream.xack c parts : Handler M unit).
Proof. handler CmdStream.xack. Qed.
Lemma xinfo_answers parts : answers p s (CmdStream.xinfo c parts : Handler M unit).
Proof. handler CmdStream.xinfo. Qed.
End StreamAnswers.
#[export] Hint Resolve count_option_asks xread_options_asks : handler.

(** A range up to the greatest id is never inverted. *)
Lemma id_parse_max t i : id_parse t = Some i → id_le i id_max = true.
Proof.
  unfold id_parse. assert (Hu : ∀ x n, parse_u64 x = Some n → n <= 2 ^ 64 - 1) by (intros x n Hn; apply parse_u64_range in Hn; lia).
  intros Hi. assert (ms i <= 2 ^ 64 - 1 ∧ seq i <= 2 ^ 64 - 1) as [Hm Hq].
  { destruct (split_dash t) as [m [q|]]; apply bind_Some in Hi as (m' & Hm & Hi).
    - apply bind_Some in Hi as (q' & Hq & Hi). injection Hi as <-. simpl. eauto.
    - injection Hi as <-. simpl. split; [eauto|lia]. }
  unfold id_le, id_cmp, id_max. simpl ms. simpl seq.
  destruct (Z.compare_spec (ms i) (2 ^ 64 - 1)) as [|?|?]; [|done|lia]. destruct (Z.compare_spec (seq i) (2 ^ 64 - 1)); done || lia.
Qed.

Lemma start_id_max t : id_le (start_id t) id_max = true.
Proof. unfold start_id. case_bool_decide; [done|]. destruct (id_parse t) as [i|] eqn:E; [by eapply id_parse_max|done]. Qed.

Section StreamReads.
Context {M : Type} `{KVReturns StoreValue M} (c : Clock) (s : bool).
Implicit Types (parts : list bytes) (st : Store M).

Lemma xrange_answers parts : answers true s (CmdStream.xrange c parts : Handler M unit).
Proof. handler CmdStream.xrange. Qed.
Lemma xrevrange_answers parts : answers true s (CmdStream.xrevrange c parts : Handler M unit).
Proof. handler CmdStream.xrevrange. Qed.

Lemma xrange_to_end key start count st : is_Some (StreamOps.xrange c key start (B "+") count st).
Proof.
  unfold StreamOps.xrange, range_with, read_live. case_match; [|by eexists]. case_match; [by eexists|].
  destruct (as_stream _); [|by eexists]. unfold bt_range. change (end_id (B "+")) with id_max. rewrite start_id_max. by eexists.
Qed.

Lemma xread_entries_asks p count l : asks p (xread_entries c count l : Handler M _) (λ _, True).
Proof.
  induction l as [|[key i] l IH]; cbn [xread_entries]; [by apply asks_ret|].
  apply (asks_bind _ _ _ is_Some); [apply asks_look; intro; apply xrange_to_end|]. intros r [r' ->].
  apply (asks_bind _ _ _ (λ _, True)); [by intros st out|]. intros r0 _. apply (asks_bind _ _ _ (λ _, True)); [done|].
  intros rs _. by apply asks_ret.
Qed.
Hint Resolve xread_entries_asks : handler.

Lemma xread_answers p parts : answers p s (CmdStream.xread c parts : Handler M unit).
Proof. handler CmdStream.xread. Qed.
End StreamReads.

(** ** What can go wrong *)

(** A BITFIELD whose type starts with a character of several bytes aborts the
    server: the type is sliced after its first byte. *)
Theorem bitfield_aborts {M} `{KVMap StoreValue M} (c : Clock) cmd key ty off rest (st : Store M) out :
  ty ≠ [] → is_char_boundary ty 1 = false →
  run (CmdBitmap.bitfield c (cmd :: key :: B "GET" :: ty :: off :: rest)) st out = None.
Proof.
  intros Hne Hb. unfold CmdBitmap.bitfield. cbn [is_nil length bitfield_loop]. unfold field, parse_bitfield_type.
  destruct ty; [done|]. by rewrite Hb.
Qed.

Lemma bitfield_aborts_witness :
  utf8_valid (Byte.xc3 :: Byte.xa9 :: B "8") = true ∧
  run (M := LimitMap StoreValue) (CmdBitmap.bitfield (mkClock 1000 0)
    [B "BITFIELD"; B "k"; B "GET"; Byte.xc3 :: Byte.xa9 :: B "8"; B "0"]) (mkStore (mkLimitMap ∅ 10) 0 0 0) [] = None.
Proof.
  split; [reflexivity|].
  apply (bitfield_aborts (mkClock 1000 0) (B "BITFIELD") (B "k") (Byte.xc3 :: Byte.xa9 :: B "8") (B "0") []); [discriminate|reflexivity].
Defined.

Section StreamClaims.
Context {M : Type} `{KVMapLaws StoreValue M} (c : Clock).
Implicit Types (st : Store M).

(** XRANGE of a stream with a start above its end aborts the server: the range
    of the ordered map panics. *)
Theorem xrange_inverted_aborts cmd key start end_ st s out :
  store_wf st → live c key st = Some (VStream s) → id_le (start_id start) (end_id end_) = false →
  run (CmdStream.xrange c [cmd; key; start; end_]) st out = None ∧ run (CmdStream.xrevrange c [cmd; key; end_; start]) st out = None.
Proof.
  intros Hw Hl Hlt. assert (Hr : ∀ f, range_with c f key start end_ 0 st = None).
  { intros f. unfold range_with. rewrite read_live_spec, Hl by done. simpl. unfold bt_range. by rewrite Hlt. }
  unfold run, CmdStream.xrange, CmdStream.xrevrange. cbn [count_option mbind handler_bind mret handler_ret].
  unfold mbind, handler_bind, mret, handler_ret, look, StreamOps.xrange, StreamOps.xrevrange. by rewrite !Hr.
Qed.

(** XTRIM with anything but MAXLEN removes every entry of the stream. *)
Theorem xtrim_without_maxlen_empties cmd key opt arg st s out :
  store_wf st → live c key st = Some (VStream s) →
  eq_ignore_case opt (B "MAXLEN") = false → eq_ignore_case arg (B "MAXLEN") = false →
  ∃ st' s', run (CmdStream.xtrim c [cmd; key; opt; arg]) st out = Some (st', write_integer out (as_i64 (Z.of_nat (stream_len s)))) ∧
    live c key st' = Some (VStream s') ∧ s_entries s' = [].
Proof.
  intros Hw Hl Ho Ha. unfold run, CmdStream.xtrim. cbn [length trim_option]. rewrite Ho, Ha.
  unfold mbind, handler_bind, mret, handler_ret, call. unfold StreamOps.xtrim.
  match goal with |- context [update_or key (stream_update c ?r0 ?f) _ st] =>
    pose proof (update_stream c key r0 f st s Hw Hl) as Hu end.
  destruct (update_or key _ _ st) as [st' r]. destruct Hu as (_ & -> & Hl' & _). cbn [fst snd] in *.
  assert (He : s_entries (trim_maxlen (Z.to_nat 0) s) = []) by (rewrite trim_maxlen_entries; simpl; rewrite Nat.sub_0_r; apply drop_all).
  exists st', (trim_maxlen (Z.to_nat 0) s). split; [|by split]. unfold stream_len at 2. rewrite He.
  cbn [length]. rewrite Z.sub_0_r. done.
Qed.
End StreamClaims.

(** XREAD with the id [$], which asks for what comes after the last entry, reads
    the stream from its beginning. *)
Theorem xread_dollar_reads_all {M} `{KVMap StoreValue M} (c : Clock) cmd key :
  CmdStream.xread c [cmd; B "STREAMS"; key; B "$"] = (CmdStream.xread c [cmd; B "STREAMS"; key; B "-"] : Handler M unit).
Proof. reflexivity. Qed.

Lemma xrange_inverted_aborts_witness :
  run (CmdStream.xrange demo_time [B "XRANGE"; B "s"; B "5"; B "3"]) demo_streams [] = None.
Proof.
  apply (xrange_inverted_aborts demo_time (B "XRANGE") (B "s") (B "5") (B "3") demo_streams demo_log [] demo_streams_wf); reflexivity.
Defined.

Lemma xtrim_without_maxlen_empties_witness : ∃ st' s',
  run (CmdStream.xtrim demo_time [B "XTRIM"; B "s"; B "MINID"; B "4"]) demo_streams [] = Some (st', B ":2" ++ CRLF) ∧
  live demo_time (B "s") st' = Some (VStream s') ∧ s_entries s' = [].
Proof.
  exact (xtrim_without_maxlen_empties demo_time (B "XTRIM") (B "s") (B "MINID") (B "4") demo_streams demo_log [] demo_streams_wf
    eq_refl eq_refl eq_refl).
Defined.


(** Errors that are lines, in a result that may be a panic. *)
Definition plain_opt {A} (o : option (result A)) : Prop := match o with Some r => plain_err r | None => True end.

Section JsonLines.
Context {M : Type} `{KVReturns StoreValue M} (c : Clock).
Implicit Types (st : Store M).

Lemma update_with_returns {R} key (f : StoreValue → StoreValue * R) st r :
  (update_with key f st).2 = Some r → ∃ v, r = (f v).2.
Proof.
  unfold update_with. destruct (kv_update_with key f (data st)) as [m o] eqn:Eu. simpl. intros ->.
  by apply (kv_update_with_returns _ key f (data st) r); rewrite Eu.
Qed.

Lemma json_update_plain {R} key (absent : result R) f st :
  plain_err absent → (∀ json, plain_err (f json).2) → plain_opt (json_update c key absent f st).2.
Proof.
  intros Ha Hf. unfold json_update. match goal with |- context [update_with key ?g st] =>
    pose proof (update_with_returns key g st) as Hr; destruct (update_with key g st) as [st' r] end.
  simpl in *. destruct r as [r|]; [|done]. destruct (Hr r eq_refl) as [v ->]. clear Hr.
  destruct (is_expired c v); [done|]. destruct (as_json_str (value v)) as [raw|]; [|plain_msg].
  destruct (parse_json raw) as [json|]; [|done]. specialize (Hf json). destruct (f json) as [new r]. simpl. exact Hf.
Qed.

Lemma at_path_plain {R} path (missing : result R) f json :
  plain_err missing → (∀ v, plain_err (f v).2) → plain_err (at_path path missing f json).2.
Proof.
  intros Hm Hf. unfold at_path. destruct (get_path_mut path json) as [[target put]|]; [|done].
  specialize (Hf target). by destruct (f target).
Qed.

Lemma json_read_plain {R} key path (absent : R) f st : (∀ v, plain_err (f v)) → plain_opt (json_read c key path absent f st).
Proof.
  intros Hf. unfold json_read, read_live. destruct (kv_get_ref _ _) as [e|]; [|done]. destruct (is_expired c e); [done|].
  destruct (as_json_str (value e)); [|plain_msg]. destruct (parse_json _); [|done]. destruct (get_path _ _); [apply Hf|done].
Qed.

Lemma json_set_plain key path v nx xx st : plain_opt (JsonOps.json_set c key path v nx xx st).2.
Proof.
  unfold JsonOps.json_set. destruct (is_root path).
  { destruct (nx && live_key c key st); [done|]. by destruct (xx && negb (live_key c key st)). }
  destruct (parse_json v) as [parsed|]; [|plain_msg].
  match goal with |- context [update_with key ?g st] =>
    pose proof (update_with_returns key g st) as Hr; destruct (update_with key g st) as [st' r] end.
  simpl in *. destruct r as [r|]; [destruct (Hr r eq_refl) as [w ->]|].
  - destruct (is_expired c w); [destruct xx; [done|]; destruct (set_path _ _ _); plain_msg|].
    destruct (as_json_str (value w)); [|plain_msg]. destruct (parse_json _) as [json|]; [|done].
    destruct (nx && _); [done|]. destruct (xx && _); [done|]. destruct (set_path _ _ json); plain_msg.
  - destruct xx; [done|]. destruct (set_path _ _ _); plain_msg.
Qed.

Lemma json_get_plain key paths st : plain_err (JsonOps.json_get c key paths st).
Proof.
  apply read_live_plain; [done|]. intros v. destruct (as_json_str v); [|plain_msg].
  destruct (match paths with [] => true | [p] => is_root p | _ => false end); [done|].
  destruct (parse_json _); [|done]. by destruct paths as [|p [|q ps]].
Qed.

Lemma json_del_plain key path st : plain_opt (JsonOps.json_del c key path st).2.
Proof.
  unfold JsonOps.json_del. destruct (is_root path); [by destruct (kv_remove key (data st))|].
  apply json_update_plain; [done|]. intros json. by destruct (del_path path json).
Qed.

Lemma json_num_plain key path f st : plain_opt (json_num c key path f st).2.
Proof. apply json_update_plain; [plain_msg|]. intros. apply at_path_plain; [plain_msg|]. intros []; plain_msg. Qed.
Lemma json_strappend_plain key path v st : plain_opt (JsonOps.json_strappend c key path v st).2.
Proof. apply json_update_plain; [plain_msg|]. intros. apply at_path_plain; [plain_msg|]. intros []; plain_msg. Qed.
Lemma json_array_plain key path f st : plain_opt (json_array c key path f st).2.
Proof. apply json_update_plain; [plain_msg|]. intros. apply at_path_plain; [plain_msg|]. intros []; plain_msg. Qed.
Lemma json_arrpop_plain key path i st : plain_opt (JsonOps.json_arrpop c key path i st).2.
Proof.
  apply json_update_plain; [plain_msg|]. intros. apply at_path_plain; [plain_msg|]. intros []; try plain_msg.
  simpl. by destruct (_ !! _).
Qed.
Lemma json_toggle_plain key path st : plain_opt (JsonOps.json_toggle c key path st).2.
Proof. apply json_update_plain; [plain_msg|]. intros. apply at_path_plain; [plain_msg|]. intros []; plain_msg. Qed.
Lemma json_clear_plain key path st : plain_opt (JsonOps.json_clear c key path st).2.
Proof. apply json_update_plain; [plain_msg|]. intros. apply at_path_plain; [plain_msg|]. intros []; plain_msg. Qed.

Lemma parse_all_plain values : plain_err (parse_all values).
Proof.
  induction values as [|v values IH]; simpl; [done|]. destruct (parse_json v); [|plain_msg]. by destruct (parse_all values).
Qed.
Lemma json_arrappend_plain key path values st : plain_opt (JsonOps.json_arrappend c key path values st).2.
Proof.
  unfold JsonOps.json_arrappend. pose proof (parse_all_plain values). destruct (parse_all values); [apply json_array_plain|done].
Qed.
Lemma json_arrinsert_plain key path i values st : plain_opt (JsonOps.json_arrinsert c key path i values st).2.
Proof.
  unfold JsonOps.json_arrinsert. pose proof (parse_all_plain values). destruct (parse_all values); [apply json_array_plain|done].
Qed.

Lemma json_type_plain key path st : plain_opt (JsonOps.json_type c key path st).
Proof. by apply json_read_plain. Qed.
Lemma json_strlen_plain key path st : plain_opt (JsonOps.json_strlen c key path st).
Proof. apply json_read_plain. intros []; plain_msg. Qed.
Lemma json_arrlen_plain key path st : plain_opt (JsonOps.json_arrlen c key path st).
Proof. apply json_read_plain. intros []; plain_msg. Qed.
Lemma json_objkeys_plain key path st : plain_opt (JsonOps.json_objkeys c key path st).
Proof. apply json_read_plain. intros []; plain_msg. Qed.
Lemma json_objlen_plain key path st : plain_opt (JsonOps.json_objlen c key path st).
Proof. apply json_read_plain. intros []; plain_msg. Qed.
Lemma json_arrindex_plain key path v a b st : plain_opt (JsonOps.json_arrindex c key path v a b st).
Proof. unfold JsonOps.json_arrindex. destruct (parse_json v); [|plain_msg]. apply json_read_plain. intros []; plain_msg. Qed.
End JsonLines.

Create HintDb plain_opt.
#[export] Hint Resolve json_set_plain json_del_plain json_num_plain json_strappend_plain json_array_plain json_arrpop_plain
  json_toggle_plain json_clear_plain json_arrappend_plain json_arrinsert_plain json_type_plain json_strlen_plain json_arrlen_plain
  json_objkeys_plain json_objlen_plain json_arrindex_plain : plain_opt.
#[export] Hint Resolve json_get_plain : plain_err.

Section JsonAnswers.
Context {M : Type} `{KVReturns StoreValue M} (c : Clock) (s : bool).
Implicit Types (parts : list bytes).

Lemma answer_opt_answers {A} (w : A → Handler M unit) r :
  plain_opt r → (∀ a, answers true s (w a)) → answers true s (answer_opt w r).
Proof.
  intros Hr Hw. unfold answer_opt. destruct r as [r|]; [|by intros st out].
  destruct r as [[a|]|e]; [apply Hw| |]; intros st out; left; simpl; [exact (replied_nil out)|exact (replied_store_err out e Hr)].
Qed.

Lemma answer_int_answers r : plain_opt r → answers true s (answer_int r : Handler M unit).
Proof.
  intros Hr. unfold answer_int. destruct r as [[n|e]|]; [| |by intros st out]; intros st out; left; simpl;
    [exact (replied_integer out _)|exact (replied_store_err out e Hr)].
Qed.

Lemma call_opt {A} f (w : A → Handler M unit) :
  (∀ st, plain_opt (f st).2) → (∀ a, answers true s (w a)) → answers true s (r ← call f; answer_opt w r).
Proof.
  intros Hf Hw. apply (answers_bind _ _ _ _ plain_opt); [by apply asks_call|]. intros r Hr. by apply answer_opt_answers.
Qed.
Lemma look_opt {A} f (w : A → Handler M unit) :
  (∀ st, plain_opt (f st)) → (∀ a, answers true s (w a)) → answers true s (r ← look f; answer_opt w r).
Proof.
  intros Hf Hw. apply (answers_bind _ _ _ _ plain_opt); [by apply asks_look|]. intros r Hr. by apply answer_opt_answers.
Qed.
Lemma call_int f : (∀ st, plain_opt (f st).2) → answers true s (r ← call f; answer_int r : Handler M unit).
Proof.
  intros Hf. apply (answers_bind _ _ _ _ plain_opt); [by apply asks_call|]. intros r Hr. by apply answer_int_answers.
Qed.

Lemma key_path_asks p cmd parts : plain cmd → asks p (key_path cmd parts : Handler M (bytes * bytes)) (λ _, True).
Proof. intros Hc. unfold key_path. answer. Qed.
Hint Resolve key_path_asks : handler.
Lemma json_set_options_asks p rest : ∀ nx xx, asks p (json_set_options rest nx xx : Handler M _) (λ _, True).
Proof. induction rest as [|opt rest IH]; intros nx xx; cbn [json_set_options]; answer. Qed.
Hint Resolve json_set_options_asks : handler.

Lemma put_int_answers n : answers true s (put_int n : Handler M unit).
Proof. unfold put_int. answer. Qed.
Hint Resolve put_int_answers : handler.

(** The tail of a handler: a call of a JSON operation and its answer. *)
Ltac json_tail :=
  lazymatch goal with
  | |- answers _ _ (mbind (λ r, answer_opt _ r) (call _)) => apply call_opt; [intro; solve [eauto with plain_opt]|intro; answer]
  | |- answers _ _ (mbind (λ r, answer_opt _ r) (look _)) => apply look_opt; [intro; solve [eauto with plain_opt]|intro; answer]
  | |- answers _ _ (mbind (λ r, answer_int r) (call _)) => apply call_int; intro; solve [eauto with plain_opt]
  end.
Ltac json_handler := repeat first [json_tail | answer_step].

Lemma json_set_answers parts : answers true s (CmdJson.json_set c parts : Handler M unit).
Proof.
  unfold CmdJson.json_set. destruct parts as [|x [|key [|path [|v rest]]]]; try solve [answer].
  apply (answers_bind _ _ _ _ (λ _, True)); [apply json_set_options_asks|]. intros [nx xx] _.
  apply (answers_bind _ _ _ _ plain_opt); [apply asks_call; intro; apply json_set_plain|]. intros [r|] Hr; [|by intros st out].
  intros st out. destruct r as [[]|e]; left; simpl; [exact (replied_ok out)|exact (replied_nil out)|exact (replied_store_err out e Hr)].
Qed.
Lemma json_get_answers parts p : answers p s (CmdJson.json_get c parts : Handler M unit).
Proof. unfold CmdJson.json_get, store_error. answer. Qed.
Lemma json_del_answers parts : answers true s (CmdJson.json_del c parts : Handler M unit).
Proof. unfold CmdJson.json_del. json_handler. Qed.
Lemma json_type_answers parts : answers true s (CmdJson.json_type c parts : Handler M unit).
Proof. unfold CmdJson.json_type. json_handler. Qed.
Lemma json_numincrby_answers parts : answers true s (CmdJson.json_numincrby c parts : Handler M unit).
Proof. unfold CmdJson.json_numincrby, JsonOps.json_numincrby. json_handler. Qed.
Lemma json_nummultby_answers parts : answers true s (CmdJson.json_nummultby c parts : Handler M unit).
Proof. unfold CmdJson.json_nummultby, JsonOps.json_nummultby. json_handler. Qed.
Lemma json_strappend_answers parts : answers true s (CmdJson.json_strappend c parts : Handler M unit).
Proof. unfold CmdJson.json_strappend. json_handler. Qed.
Lemma json_strlen_answers parts : answers true s (CmdJson.json_strlen c parts : Handler M unit).
Proof. unfold CmdJson.json_strlen. json_handler. Qed.
Lemma json_arrappend_answers parts : answers true s (CmdJson.json_arrappend c parts : Handler M unit).
Proof. unfold CmdJson.json_arrappend. json_handler. Qed.
Lemma json_arrindex_answers parts : answers true s (CmdJson.json_arrindex c parts : Handler M unit).
Proof.
  unfold CmdJson.json_arrindex. destruct parts as [|x [|key [|path [|v rest]]]]; try solve [answer].
  apply (answers_bind _ _ _ _ (λ _, True)); [destruct rest; answer|]. intros start _.
  apply (answers_bind _ _ _ _ (λ _, True)); [destruct rest as [|? []]; answer|]. intros stop _.
  apply (answers_bind _ _ _ _ plain_opt); [apply asks_look; intro; apply json_arrindex_plain|]. intros [r|] Hr; [|by intros st out].
  intros st out. destruct r as [n|e]; left; simpl; [exact (replied_integer out _)|exact (replied_store_err out e Hr)].
Qed.
Lemma json_arrinsert_answers parts : answers true s (CmdJson.json_arrinsert c parts : Handler M unit).
Proof. unfold CmdJson.json_arrinsert. json_handler. Qed.
Lemma json_arrlen_answers parts : answers true s (CmdJson.json_arrlen c parts : Handler M unit).
Proof. unfold CmdJson.json_arrlen. json_handler. Qed.
Lemma json_arrpop_answers parts : answers true s (CmdJson.json_arrpop c parts : Handler M unit).
Proof. unfold CmdJson.json_arrpop. json_handler. Qed.
Lemma json_arrtrim_answers parts : answers true s (CmdJson.json_arrtrim c parts : Handler M unit).
Proof. unfold CmdJson.json_arrtrim, JsonOps.json_arrtrim. json_handler. Qed.
Lemma json_objkeys_answers parts : answers true s (CmdJson.json_objkeys c parts : Handler M unit).
Proof. unfold CmdJson.json_objkeys. json_handler. Qed.
Lemma json_objlen_answers parts : answers true s (CmdJson.json_objlen c parts : Handler M unit).
Proof. unfold CmdJson.json_objlen. json_handler. Qed.
Lemma json_toggle_answers parts : answers true s (CmdJson.json_toggle c parts : Handler M unit).
Proof. unfold CmdJson.json_toggle. json_handler. Qed.
Lemma json_clear_answers parts : answers true s (CmdJson.json_clear c parts : Handler M unit).
Proof. unfold CmdJson.json_clear. json_handler. Qed.
Lemma json_resp_answers parts p : answers p s (CmdJson.json_resp c parts : Handler M unit).
Proof. unfold CmdJson.json_resp, store_error. answer. Qed.
Lemma json_mget_answers parts p : answers p s (CmdJson.json_mget c parts : Handler M unit).
Proof.
  unfold CmdJson.json_mget. destruct (_ <? _)%nat; [answer|]. answer.
Qed.
End JsonAnswers.


Section Lines.
Context {M : Type} `{KVReturns StoreValue M} (c : Clock) (ln : f64 → f64) (libm : Libm).
Implicit Types (st : Store M).

Lemma pfadd_plain key elements st : plain_err (Hll.pfadd c key elements st).2.
Proof.
  unfold Hll.pfadd. destruct (add_all elements HllData_new) as [fresh changed]. apply update_or_insert_plain; [|done].
  intros e. case_match; [done|]. destruct (as_string (value e)) as [s|]; [|plain_msg]. by destruct (add_all elements (decode_hll s)).
Qed.

Lemma merge_keys_plain keys st : ∀ h, plain_err (merge_keys c keys h st).
Proof.
  induction keys as [|k keys IH]; intros h; cbn [merge_keys]; [done|]. unfold read_live.
  destruct (kv_get_ref _ _) as [e|]; [|apply IH]. destruct (is_expired c e); [apply IH|].
  destruct (as_string (value e)); [apply IH|plain_msg].
Qed.

Lemma pfcount_plain keys st : plain_err (Hll.pfcount c ln keys st).
Proof.
  assert (Hm : plain_err (match merge_keys c keys HllData_new st with Ok h => Ok (hll_count ln h) | Err e => Err e end)).
  { pose proof (merge_keys_plain keys st HllData_new). by destruct (merge_keys c keys HllData_new st). }
  destruct keys as [|k [|k' keys]]; try exact Hm. apply read_live_plain; [done|]. intros v.
  destruct (as_string v); [done|plain_msg].
Qed.

Lemma pfmerge_plain dest sources st : plain_err (Hll.pfmerge c dest sources st).2.
Proof. unfold Hll.pfmerge. pose proof (merge_keys_plain sources st HllData_new). by destruct (merge_keys c sources HllData_new st). Qed.

Lemma geoadd_plain key items a b d st : plain_err (Geo.geoadd c key items a b d st).2.
Proof. unfold Geo.geoadd. auto with plain_err. Qed.

Lemma zset_read_plain {R} key (r0 : R) f st : plain_err (zset_read c key r0 f st).
Proof. apply read_live_plain; [done|]. intros v. case_match; [done|plain_msg]. Qed.

Lemma geodist_plain key m1 m2 u st : plain_err (Geo.geodist libm c key m1 m2 u st).
Proof. apply zset_read_plain. Qed.

Lemma geosearch_plain key ce sh asc n st : plain_opt (Geo.geosearch libm c key ce sh asc n st).
Proof.
  unfold Geo.geosearch. assert (Hc : plain_err (center_of c key ce st)).
  { unfold center_of. destruct ce; [done|]. pose proof (zset_read_plain key (replicate 1 None) (λ z, (λ m, (λ s, geohash_decode (FloatBits.to_bits s)) <$> get_score z m) <$> [m]) st) as Hp.
    unfold Geo.geopos, positions. simpl length. by destruct (zset_read _ _ _ _ _). }
  destruct (center_of c key ce st) as [[pos|]|e]; [|done|done].
  match goal with |- context [zset_read c key ?r ?f st] => pose proof (zset_read_plain key r f st) as Hz; destruct (zset_read c key r f st) as [l|e'] end; [|done].
  by destruct (sort_results libm asc l).
Qed.

Lemma geosearchstore_plain dst src ce sh asc n sd st : plain_opt (Geo.geosearchstore libm c dst src ce sh asc n sd st).2.
Proof.
  unfold Geo.geosearchstore. pose proof (geosearch_plain src ce sh asc n st) as Hp.
  by destruct (Geo.geosearch libm c src ce sh asc n st) as [[l|e]|].
Qed.
End Lines.
#[export] Hint Resolve pfadd_plain pfcount_plain pfmerge_plain geoadd_plain geodist_plain : plain_err.

(** Replies of positions and of results. *)
Definition position_reply (p : f64 * f64) : Reply := RArray [RBulk (format_float p.1); RBulk (format_float p.2)].

Lemma write_position_eq out p : write_position out p = out ++ encode (position_reply p).
Proof.
  unfold write_position, position_reply. rewrite !write_bulk_eq.
  rewrite <- (write_array_header_items out [RBulk _; RBulk _]), encodes_cons, encodes_one. by rewrite <- !app_assoc.
Qed.

Definition result_reply (o : GeoOptions) (r : GeoResult) : Reply :=
  if withcoord o || withdist o then
    RArray (RBulk (g_member r) ::
      (if withdist o then [RBulk (format_float (dist r))] else []) ++
      (if withcoord o then [position_reply (lon r, lat r)] else []))
  else RBulk (g_member r).

Lemma write_result_eq o out r : write_result o out r = out ++ encode (result_reply o r).
Proof.
  unfold write_result, result_reply. destruct (withcoord o), (withdist o); cbn [orb]; try apply write_bulk_eq;
    rewrite ?write_position_eq, !write_bulk_eq; rewrite <- write_array_header_items; rewrite <- !app_assoc; f_equal;
    unfold encodes; simpl; by rewrite ?app_nil_r.
Qed.

Lemma wf_position p : well_formed (position_reply p).
Proof. apply wf_array. repeat constructor. Qed.

Lemma wf_result o r : well_formed (result_reply o r).
Proof.
  unfold result_reply. destruct (withcoord o), (withdist o); simpl;
    [| | |constructor]; apply wf_array; repeat apply List.Forall_cons; try apply List.Forall_nil; first [apply wf_position|constructor].
Qed.

Section Answers.
Context {M : Type} `{KVReturns StoreValue M} (c : Clock) (ln : f64 → f64) (libm : Libm) (p s : bool).
Implicit Types (parts : list bytes).

Lemma pfadd_answers parts : answers p s (CmdGeo.pfadd c parts : Handler M unit).
Proof. handler CmdGeo.pfadd. Qed.
Lemma pfcount_answers parts : answers p s (CmdGeo.pfcount c ln parts : Handler M unit).
Proof. handler CmdGeo.pfcount. Qed.
Lemma pfmerge_answers parts : answers p s (CmdGeo.pfmerge c parts : Handler M unit).
Proof. handler CmdGeo.pfmerge. Qed.

Lemma unit_arg_asks p' u : asks p' (unit_arg u : Handler M GeoUnit) (λ _, True).
Proof. handler unit_arg. Qed.
Hint Resolve unit_arg_asks : handler.

Lemma geoadd_flags_asks rest : ∀ a b d, asks p (geoadd_flags rest a b d : Handler M _) (λ _, True).
Proof. induction rest as [|x rest IH]; intros a b d; cbn [geoadd_flags]; answer. Qed.
Hint Resolve geoadd_flags_asks : handler.

Lemma geo_items_asks n : ∀ coords, (length coords <= n)%nat → asks p (geo_items coords : Handler M _) (λ _, True).
Proof.
  induction n as [|n IH]; intros coords Hl.
  - destruct coords; [|simpl in Hl; lia]. answer.
  - destruct coords as [|a [|b [|m coords]]]; try solve [cbn [geo_items]; answer]. simpl in Hl. cbn [geo_items].
    apply (asks_bind _ _ _ (λ _, True)); [answer|]. intros lo _.
    apply (asks_bind _ _ _ (λ _, True)); [answer|]. intros la _.
    destruct (within MAX_LON lo && within MAX_LAT la); [|answer].
    apply (asks_bind _ _ _ (λ _, True)); [apply IH; lia|]. intros items _. answer.
Qed.

Lemma geoadd_answers parts : answers p s (CmdGeo.geoadd c parts : Handler M unit).
Proof.
  unfold CmdGeo.geoadd. destruct parts as [|x [|key rest]]; try solve [answer].
  apply (answers_bind _ _ _ _ (λ _, True)); [apply geoadd_flags_asks|]. intros [[[a b] d] coords] _.
  destruct (negb _); [answer|]. apply (answers_bind _ _ _ _ (λ _, True)); [by apply (geo_items_asks (length coords))|].
  intros items _. answer.
Qed.

Lemma members_with_answers {A} cmd f (w : bytes → A → bytes) g parts :
  plain cmd → (∀ out a, w out a = out ++ encode (g a)) → (∀ a, well_formed (g a)) →
  answers p s (members_with cmd f w parts : Handler M unit).
Proof.
  intros Hc Hw Hwf. unfold members_with. destruct parts as [|x [|key members]]; try solve [answer].
  destruct (is_nil members); [answer|]. apply (answers_bind _ _ _ _ (λ _, True)); [by apply asks_look|]. intros r _.
  apply (answers_bind _ _ _ _ (λ _, True)); [apply asks_wt|]. intros l _. apply answers_write. intros out.
  apply (replied_each _ (λ x, match x with Some a => g a | None => RNil end)).
  - intros out' [a|]; [apply Hw|apply write_nil_eq].
  - intros [a|]; [apply Hwf|constructor].
Qed.

Lemma geopos_answers parts : answers p s (CmdGeo.geopos c parts : Handler M unit).
Proof.
  apply (members_with_answers _ _ _ position_reply); [plain_msg|apply write_position_eq|apply wf_position].
Qed.
Lemma geohash_answers parts : answers p s (CmdGeo.geohash c parts : Handler M unit).
Proof.
  apply (members_with_answers _ _ _ RBulk); [plain_msg|apply write_bulk_eq|intros; constructor].
Qed.
Lemma geodist_answers parts : answers p s (CmdGeo.geodist c libm parts : Handler M unit).
Proof. handler CmdGeo.geodist. Qed.
End Answers.

Section SearchAnswers.
Context {M : Type} `{KVReturns StoreValue M} (c : Clock) (libm : Libm) (s : bool).

Lemma geo_options_asks store n : ∀ rest o, (length rest <= n)%nat → asks true (geo_options store rest o : Handler M _) (λ _, True).
Proof.
  induction n as [|n IH]; intros rest o Hl; (destruct rest as [|a rest]; [cbn [geo_options]; answer|]); simpl in Hl; [lia|].
  cbn [geo_options].
  repeat lazymatch goal with
  | |- asks _ (geo_options _ _ _) _ => apply IH; simpl in *; lia
  | |- asks _ (if ?b then _ else _) _ => destruct b
  | |- asks _ (match ?l with [] => _ | _ :: _ => _ end) _ => destruct l
  | |- asks _ (mbind _ _) _ => apply (asks_bind _ _ _ (λ _, True)); [first [apply unit_arg_asks|answer]|intros ? _]
  | |- asks _ _ _ => solve [answer]
  end.
Qed.

Lemma search_options_asks store rest : asks true (search_options store rest : Handler M _) (λ _, True).
Proof.
  unfold search_options. apply (asks_bind _ _ _ (λ _, True)); [by apply (geo_options_asks store (length rest))|]. intros o _.
  answer.
Qed.

Lemma geosearch_answers parts : answers true s (CmdGeo.geosearch c libm parts : Handler M unit).
Proof.
  unfold CmdGeo.geosearch. destruct parts as [|x [|key rest]]; try solve [answer].
  apply (answers_bind _ _ _ _ (λ _, True)); [apply search_options_asks|]. intros [[o ce] sh] _.
  apply (answers_bind _ _ _ _ plain_opt); [apply asks_look; intro; apply geosearch_plain|]. intros [r|] Hr; [|by intros st out].
  apply (answers_bind _ _ _ _ plain_err); [by apply asks_ret|]. intros r' Hr'.
  apply (answers_bind _ _ _ _ (λ _, True)); [by apply asks_store_ok|]. intros l _. apply answers_write. intros out.
  apply (replied_each _ (result_reply o)); [intros; apply write_result_eq|intros; apply wf_result].
Qed.

Lemma geosearchstore_answers parts : answers true s (CmdGeo.geosearchstore c libm parts : Handler M unit).
Proof.
  unfold CmdGeo.geosearchstore. destruct parts as [|x [|dst [|src rest]]]; try solve [answer].
  apply (answers_bind _ _ _ _ (λ _, True)); [apply search_options_asks|]. intros [[o ce] sh] _.
  apply (answers_bind _ _ _ _ plain_opt); [apply asks_call; intro; apply geosearchstore_plain|]. intros [r|] Hr; [|by intros st out].
  apply (answers_bind _ _ _ _ plain_err); [by apply asks_ret|]. intros r' Hr'.
  apply (answers_bind _ _ _ _ (λ _, True)); [by apply asks_store_ok|]. intros n _. answer.
Qed.
End SearchAnswers.
