(* ===== verification/JsonSpec.v ===== *)
(** JSON as text: what is printed reads back, but for strings with an escape that are
    not ASCII and the sign of minus zero, for every document of finite numbers; and the
    parser ends. *)

From Stdlib Require Import Strings.Byte Floats.SpecFloat.
From S2P Require Import Prelude Decimal Float FloatBits Json.
Local Open Scope Z_scope.

(** ** Induction on documents *)

Section Induction.
Context (P : JsonValue → Prop).
Context (Hnull : P JNull) (Hbool : ∀ b, P (JBool b)) (Hnum : ∀ n, P (JNumber n)) (Hstr : ∀ s, P (JString s)).
Context (Harr : ∀ l, Forall P l → P (JArray l)) (Hobj : ∀ l, Forall (λ p, P p.2) l → P (JObject l)).

Fixpoint json_induction (v : JsonValue) : P v :=
  match v with
  | JNull => Hnull
  | JBool b => Hbool b
  | JNumber n => Hnum n
  | JString s => Hstr s
  | JArray l => Harr l ((fix go (l : list JsonValue) : Forall P l :=
      match l return Forall P l with
      | [] => @List.Forall_nil _ P
      | w :: l' => @List.Forall_cons _ P w l' (json_induction w) (go l')
      end) l)
  | JObject l => Hobj l ((fix go (l : list (bytes * JsonValue)) : Forall (λ p, P p.2) l :=
      match l return Forall (λ p, P p.2) l with
      | [] => @List.Forall_nil _ _
      | p :: l' => @List.Forall_cons _ (λ p, P p.2) p l' (json_induction p.2) (go l')
      end) l)
  end.
End Induction.

(** ** The branches of the parser *)

Lemma value_step fuel input :
  parse_json_value (S fuel) input =
  match skip_ws input with
  | [] => None
  | b :: s =>
      if bool_decide (b = x22) then match parse_json_string (b :: s) with Some (t, r) => Some (JString t, r) | None => None end
      else if bool_decide (b = x7b) then
        if bool_decide (head (skip_ws s) = Some x7d) then Some (JObject [], tail (skip_ws s))
        else match parse_members fuel (skip_ws s) with Some (l, r) => Some (JObject l, r) | None => None end
      else if bool_decide (b = x5b) then
        if bool_decide (head (skip_ws s) = Some x5d) then Some (JArray [], tail (skip_ws s))
        else match parse_elements fuel (skip_ws s) with Some (l, r) => Some (JArray l, r) | None => None end
      else if starts_with (B "true") (b :: s) then Some (JBool true, drop 4 (b :: s))
      else if starts_with (B "false") (b :: s) then Some (JBool false, drop 5 (b :: s))
      else if starts_with (B "null") (b :: s) then Some (JNull, drop 4 (b :: s))
      else parse_json_number (b :: s)
  end.
Proof.
  cbn [parse_json_value]. destruct (skip_ws input) as [|b s]; [done|].
  assert (Hobj : match skip_ws s with
          | x7d :: r => Some (JObject [], r)
          | r => match parse_members fuel r with Some (l, r) => Some (JObject l, r) | None => None end
          end = if bool_decide (head (skip_ws s) = Some x7d) then Some (JObject [], tail (skip_ws s))
        else match parse_members fuel (skip_ws s) with Some (l, r) => Some (JObject l, r) | None => None end)
    by (destruct (skip_ws s) as [|[] r]; done).
  assert (Harr : match skip_ws s with
          | x5d :: r => Some (JArray [], r)
          | r => match parse_elements fuel r with Some (l, r) => Some (JArray l, r) | None => None end
          end = if bool_decide (head (skip_ws s) = Some x5d) then Some (JArray [], tail (skip_ws s))
        else match parse_elements fuel (skip_ws s) with Some (l, r) => Some (JArray l, r) | None => None end)
    by (destruct (skip_ws s) as [|[] r]; done).
  rewrite <- Hobj, <- Harr. clear Hobj Harr. destruct b; reflexivity.
Qed.

Lemma elements_step fuel rest :
  parse_elements (S fuel) rest =
  match parse_json_value fuel (skip_ws rest) with
  | None => None
  | Some (v, r) =>
      match skip_ws r with
      | [] => None
      | b :: r =>
          if bool_decide (b = x2c) then match parse_elements fuel r with Some (l, r) => Some (v :: l, r) | None => None end
          else if bool_decide (b = x5d) then Some ([v], r) else None
      end
  end.
Proof.
  cbn [parse_elements]. destruct (parse_json_value fuel (skip_ws rest)) as [[v r]|]; [|done].
  destruct (skip_ws r) as [|[] r']; reflexivity.
Qed.

Lemma members_step fuel rest :
  parse_members (S fuel) rest =
  match parse_json_string (skip_ws rest) with
  | None => None
  | Some (k, r) =>
      match skip_ws r with
      | [] => None
      | b :: r =>
          if bool_decide (b = x3a) then
            match parse_json_value fuel (skip_ws r) with
            | None => None
            | Some (v, r) =>
                match skip_ws r with
                | [] => None
                | b :: r =>
                    if bool_decide (b = x2c) then match parse_members fuel r with Some (l, r) => Some ((k, v) :: l, r) | None => None end
                    else if bool_decide (b = x7d) then Some ([(k, v)], r) else None
                end
            end
          else None
      end
  end.
Proof.
  cbn [parse_members]. destruct (parse_json_string (skip_ws rest)) as [[k r]|]; [|done].
  assert (Hv : ∀ r : bytes, match parse_json_value fuel (skip_ws r) with
              | None => None
              | Some (v, r) =>
                  match skip_ws r with
                  | x2c :: r => match parse_members fuel r with Some (l, r) => Some ((k, v) :: l, r) | None => None end
                  | x7d :: r => Some ([(k, v)], r)
                  | _ => None
                  end
              end = match parse_json_value fuel (skip_ws r) with
            | None => None
            | Some (v, r) =>
                match skip_ws r with
                | [] => None
                | b :: r =>
                    if bool_decide (b = x2c) then match parse_members fuel r with Some (l, r) => Some ((k, v) :: l, r) | None => None end
                    else if bool_decide (b = x7d) then Some ([(k, v)], r) else None
                end
            end).
  { intros r0. destruct (parse_json_value fuel (skip_ws r0)) as [[v r']|]; [|done]. destruct (skip_ws r') as [|[] r'']; reflexivity. }
  destruct (skip_ws r) as [|b r']; [done|]. rewrite <- Hv. clear Hv. destruct b; reflexivity.
Qed.

Lemma raw_string_step b s :
  raw_string (b :: s) =
  if bool_decide (b = x22) then Some (Some ([], s))
  else if bool_decide (b = x5c) then Some None
  else match raw_string s with Some (Some (t, rest)) => Some (Some (b :: t, rest)) | r => r end.
Proof. destruct b; reflexivity. Qed.

(** ** Strings *)

(** The bytes that are written with a backslash. *)
Definition special (b : byte) : bool := bool_decide (b = x5c) || bool_decide (b = x22).
Definition escape (s : bytes) : bytes := s ≫= λ b, if special b then [x5c; b] else [b].

(** What a string with an escape is read back as: its bytes are taken for characters. *)
Definition reread (s : bytes) : bytes :=
  if forallb (λ b, negb (special b)) s then s else s ≫= λ b, if special b then [b] else utf8_of (b2z b).

Lemma raw_string_plain s rest :
  forallb (λ b, negb (special b)) s = true → raw_string (s ++ x22 :: rest) = Some (Some (s, rest)).
Proof.
  induction s as [|b s IH]; intros Hs; [done|]. simpl in Hs. apply andb_true_iff in Hs as [Hb Hs].
  change ((b :: s) ++ x22 :: rest) with (b :: (s ++ x22 :: rest)). rewrite raw_string_step. unfold special in Hb.
  repeat case_bool_decide; try done. by rewrite IH.
Qed.

Lemma escape_plain s : forallb (λ b, negb (special b)) s = true → escape s = s.
Proof.
  induction s as [|b s IH]; intros Hs; [done|]. simpl in Hs. apply andb_true_iff in Hs as [Hb Hs].
  unfold escape in *. rewrite bind_cons, IH by done. apply negb_true_iff in Hb. by rewrite Hb.
Qed.

Lemma raw_string_special s rest :
  forallb (λ b, negb (special b)) s = false → raw_string (escape s ++ rest) = Some None.
Proof.
  induction s as [|b s IH]; intros Hs; [done|]. unfold escape in *. rewrite bind_cons, <- app_assoc. simpl in Hs.
  destruct (special b) eqn:Hb; simpl in Hs.
  - change ([x5c; b] ++ ?x) with (x5c :: b :: x). by rewrite raw_string_step.
  - change ([b] ++ ?x) with (b :: x). rewrite raw_string_step. unfold special in Hb. repeat case_bool_decide; try done.
    by rewrite IH.
Qed.

(** One character put before what is read. *)
Definition pushed (t : bytes) (r : option (bytes * bytes)) : option (bytes * bytes) :=
  match r with Some (t', rest) => Some (t ++ t', rest) | None => None end.

Lemma unescape_special b s : special b = true → unescape (x5c :: b :: s) = pushed [b] (unescape s).
Proof. unfold special. intros Hb. repeat case_bool_decide; try done; by subst. Qed.

Lemma unescape_char b s : special b = false → unescape (b :: s) = pushed (utf8_of (b2z b)) (unescape s).
Proof. destruct b; try reflexivity; done. Qed.

Lemma unescape_escape s rest :
  unescape (escape s ++ x22 :: rest) = Some (s ≫= λ b, if special b then [b] else utf8_of (b2z b), rest).
Proof.
  induction s as [|b s IH]; [done|]. unfold escape in *. rewrite !bind_cons, <- app_assoc. destruct (special b) eqn:Hb.
  - change ([x5c; b] ++ ?x) with (x5c :: b :: x). by rewrite unescape_special, IH.
  - change ([b] ++ ?x) with (b :: x). by rewrite unescape_char, IH.
Qed.

Lemma read_string s rest : parse_json_string (write_json_string s ++ rest) = Some (reread s, rest).
Proof.
  change (write_json_string s ++ rest) with (x22 :: (escape s ++ [x22]) ++ rest). rewrite <- app_assoc.
  change ([x22] ++ rest) with (x22 :: rest). unfold parse_json_string, reread.
  destruct (forallb _ s) eqn:Hs; [rewrite escape_plain, raw_string_plain by done|rewrite raw_string_special, unescape_escape by done]; done.
Qed.

Lemma reread_ascii s : forallb (λ b, b2z b <? 0x80) s = true → reread s = s.
Proof.
  intros Hs. unfold reread. destruct (forallb (λ b, negb (special b)) s); [done|]. induction s as [|b s IH]; [done|].
  simpl in Hs. apply andb_true_iff in Hs as [Hb Hs]. rewrite bind_cons, IH by done.
  destruct (special b); [done|]. unfold utf8_of. rewrite Hb. by rewrite z2b_b2z.
Qed.

(** ** Numbers *)

(** What may follow a value in a document that was printed. *)
Definition delimited (rest : bytes) : bool :=
  match rest with [] => true | b :: _ => bool_decide (b = x2c) || bool_decide (b = x5d) || bool_decide (b = x7d) end.

(** A function that takes a prefix off does not look past the end of [t]. *)
Definition stops (f : bytes → bytes * bytes) (rest : bytes) : Prop :=
  ∀ t, f (t ++ rest) = ((f t).1, (f t).2 ++ rest).

Definition span_sign (s : bytes) : bytes * bytes := match s with x2d :: s' => ([x2d], s') | _ => ([], s) end.
Definition span_frac (s : bytes) : bytes * bytes :=
  match s with x2e :: s' => let '(d, r) := span_digits s' in (x2e :: d, r) | _ => ([], s) end.
Definition span_exp_sign (s : bytes) : bytes * bytes :=
  match s with c :: s'' => if bool_decide (c = x2b) || bool_decide (c = x2d) then ([c], s'') else ([], s) | [] => ([], []) end.
Definition span_exp (s : bytes) : bytes * bytes :=
  match s with
  | b :: s' =>
      if bool_decide (b = x65) || bool_decide (b = x45) then
        let '(sg, s') := span_exp_sign s' in let '(d, r) := span_digits s' in (b :: sg ++ d, r)
      else ([], s)
  | [] => ([], [])
  end.

Lemma span_number_eq s :
  span_number s =
  (let '(sign, s) := span_sign s in let '(int, s) := span_digits s in let '(frac, s) := span_frac s in
   let '(exp, s) := span_exp s in (sign ++ int ++ frac ++ exp, s)).
Proof. reflexivity. Qed.

Lemma span_sign_step b s : span_sign (b :: s) = if bool_decide (b = x2d) then ([x2d], s) else ([], b :: s).
Proof. destruct b; reflexivity. Qed.
Lemma span_frac_step b s :
  span_frac (b :: s) = if bool_decide (b = x2e) then let '(d, r) := span_digits s in (x2e :: d, r) else ([], b :: s).
Proof. destruct b; reflexivity. Qed.

Section Stops.
Context (rest : bytes) (Hrest : delimited rest = true).

(** At the end of [t] the delimiter is none of the characters looked for. *)
Lemma delimited_end : rest = [] ∨ ∃ s, rest = x2c :: s ∨ rest = x5d :: s ∨ rest = x7d :: s.
Proof.
  unfold delimited in Hrest. destruct rest as [|b s]; [by left|right; exists s].
  repeat case_bool_decide; try done; subst; auto.
Qed.

Lemma digits_stop : stops span_digits rest.
Proof.
  intros t. induction t as [|b t IH].
  - by destruct delimited_end as [->|[s [->|[->| ->]]]].
  - simpl. destruct (is_ascii_digit b); [|done]. rewrite IH. by destruct (span_digits t).
Qed.

Lemma sign_stops : stops span_sign rest.
Proof.
  intros [|b t]; [by destruct delimited_end as [->|[s [->|[->| ->]]]]|].
  change ((b :: t) ++ rest) with (b :: (t ++ rest)). rewrite !span_sign_step. by case_bool_decide.
Qed.

Lemma frac_stops : stops span_frac rest.
Proof.
  intros [|b t]; [by destruct delimited_end as [->|[s [->|[->| ->]]]]|].
  change ((b :: t) ++ rest) with (b :: (t ++ rest)). rewrite !span_frac_step. case_bool_decide; [|done].
  rewrite digits_stop. by destruct (span_digits t).
Qed.

Lemma exp_sign_stops : stops span_exp_sign rest.
Proof.
  intros [|b t]; [by destruct delimited_end as [->|[s [->|[->| ->]]]]|]. simpl. by destruct (_ || _).
Qed.

Lemma exp_stops : stops span_exp rest.
Proof.
  intros [|b t]; [by destruct delimited_end as [->|[s [->|[->| ->]]]]|]. simpl. destruct (_ || _); [|done].
  rewrite exp_sign_stops. destruct (span_exp_sign t) as [sg s]. simpl. rewrite digits_stop. by destruct (span_digits s).
Qed.

Lemma number_stops : stops span_number rest.
Proof.
  intros t. rewrite !span_number_eq, sign_stops. destruct (span_sign t) as [a s]. simpl. rewrite digits_stop.
  destruct (span_digits s) as [b s']. simpl. rewrite frac_stops. destruct (span_frac s') as [f s'']. simpl.
  rewrite exp_stops. by destruct (span_exp s'').
Qed.
End Stops.

Definition number_char (b : byte) : bool := is_ascii_digit b || bool_decide (b = x2d) || bool_decide (b = x2e).

(** What a number is read back as: a negative zero loses its sign. *)
Definition number_back (n : f64) : f64 := match n with S754_zero _ => S754_zero false | _ => n end.

(** A number that reads back: what is printed has the shape of a number, and is the
    number. *)
Definition number_ok (n : f64) : bool :=
  let t := write_number n in
  forallb number_char t && negb (bool_decide (t = [])) && bool_decide (span_number t = (t, [])) && bool_decide (parse_f64 t = Some (number_back n)).

Lemma read_number n rest :
  number_ok n = true → delimited rest = true → parse_json_number (write_number n ++ rest) = Some (JNumber (number_back n), rest).
Proof.
  unfold number_ok, parse_json_number. intros Hn Hr. repeat (apply andb_true_iff in Hn as [Hn ?]).
  repeat case_bool_decide; try done. rewrite number_stops by done.
  match goal with H : span_number _ = _ |- _ => rewrite H end. simpl.
  match goal with H : parse_f64 _ = _ |- _ => rewrite H end. by destruct (write_number n).
Qed.

(** ** The integers read back *)

Lemma dec_digits n : 0 < n → forallb is_ascii_digit (dec n) = true.
Proof.
  revert n. apply dec_induction; intros n Hn.
  - rewrite dec_step by lia. rewrite (proj2 (Z.ltb_lt n 10)) by lia. rewrite Z.mod_small by lia. simpl.
    by rewrite (proj1 (digit_ok n ltac:(lia))).
  - intros IH. rewrite dec_step by lia. rewrite (proj2 (Z.ltb_ge n 10)) by lia. rewrite forallb_app, IH. simpl.
    pose proof (Z.mod_pos_bound n 10 ltac:(lia)). by rewrite (proj1 (digit_ok (n mod 10) ltac:(lia))).
Qed.

Lemma span_digits_all s : forallb is_ascii_digit s = true → span_digits s = (s, []).
Proof.
  induction s as [|b s IH]; intros Hs; [done|]. simpl in *. destruct (is_ascii_digit b); [|done]. by rewrite IH.
Qed.

Lemma take_digits_all s n acc v : parse_digits acc s = Some v → take_digits s n acc = (n + Z.of_nat (length s), v, []).
Proof.
  revert n acc. induction s as [|b s IH]; intros n acc Hs; simpl in *.
  - injection Hs as <-. by rewrite Z.add_0_r.
  - destruct (is_ascii_digit b); [|done]. rewrite (IH _ _ Hs). do 2 f_equal. lia.
Qed.

Lemma f64_of_decimal_integer s n : 0 < n → f64_of_decimal s n 0 = f64_of_Z (if s then - n else n).
Proof. intros Hn. destruct n as [|p|p]; try lia. unfold f64_of_decimal, f64_of_Z. simpl. rewrite Pos.mul_1_r. by destruct s. Qed.

Lemma digit_is_digit b : is_ascii_digit b = true → b ≠ x2d ∧ b ≠ x2b ∧ 48 <= b2z b <= 57.
Proof.
  unfold is_ascii_digit. intros Hb%andb_true_iff. split_and!; try lia; intros ->; vm_compute in Hb; intuition done.
Qed.

Lemma lower_digit b s c t : is_ascii_digit b = true → 57 < c → ascii_lower (b :: s) ≠ c :: t.
Proof.
  intros (_ & _ & Hb)%digit_is_digit Hc. unfold ascii_lower. cbn. rewrite (proj2 (Z.leb_gt 65 (b2z b))) by lia.
  intros [= <- _]. lia.
Qed.

Lemma parse_decimal_dec s n : 0 < n → parse_decimal s (dec n) = Some (f64_of_Z (if s then - n else n)).
Proof.
  intros Hn. unfold parse_decimal. rewrite (take_digits_all _ 0 0 n) by (by apply parse_dec). cbv beta iota zeta.
  destruct (dec_head n Hn) as (d & t & Heq & _). rewrite Heq, length_cons. rewrite (proj2 (Z.eqb_neq _ 0)) by lia. simpl. f_equal. by apply f64_of_decimal_integer.
Qed.

(** A text that begins with a digit is neither an infinity nor NaN. *)
Lemma parse_f64_digit s d t : is_ascii_digit d = true → parse_f64 (sign_text s ++ d :: t) = parse_decimal s (d :: t).
Proof.
  intros Hdig. destruct (digit_is_digit _ Hdig) as (Hm & Hpl & _).
  assert (Hl : ∀ c l, 57 < c → bool_decide (ascii_lower (d :: t) = c :: l) = false)
    by (intros; apply bool_decide_eq_false_2; by apply lower_digit).
  assert (Hw : ∀ x, (let lower := ascii_lower (d :: t) in
      if bool_decide (lower = ascii_lower (B "inf")) || bool_decide (lower = ascii_lower (B "infinity")) then Some (S754_infinity s)
      else if bool_decide (lower = ascii_lower (B "nan")) then Some S754_nan else x) = x).
  { intros x. cbv zeta. change (ascii_lower (B "inf")) with [105; 110; 102].
    change (ascii_lower (B "infinity")) with [105; 110; 102; 105; 110; 105; 116; 121].
    change (ascii_lower (B "nan")) with [110; 97; 110]. by rewrite !Hl. }
  unfold parse_f64. destruct s; simpl sign_text.
  - change (B "-" ++ ?x) with (z2b 45 :: x). cbv beta iota. rewrite bool_decide_true by done. cbv beta iota. by rewrite Hw.
  - change ([] ++ ?x) with x. cbv beta iota. change (z2b 45) with x2d. change (z2b 43) with x2b.
    rewrite !bool_decide_eq_false_2 by done. cbv beta iota. by rewrite Hw.
Qed.

Lemma parse_f64_dec s n : 0 < n → parse_f64 (sign_text s ++ dec n) = Some (f64_of_Z (if s then - n else n)).
Proof.
  intros Hn. rewrite <- parse_decimal_dec by done. destruct (dec_head n Hn) as (d & t & -> & Hd).
  apply parse_f64_digit, digit_ok, Hd.
Qed.

Lemma integer_text z : z ≠ 0 → in_i64 z = true → i64_to_string z = sign_text (z <? 0) ++ dec (Z.abs z).
Proof.
  intros Hz _. destruct (Z.ltb_spec z 0).
  - rewrite i64_to_string_neg by lia. by rewrite Z.abs_neq by lia.
  - unfold i64_to_string, write_i64. rewrite (proj2 (Z.ltb_ge z 0)) by lia. change (write_usize [] z) with (u64_to_string z).
    rewrite u64_to_string_eq by lia. rewrite (proj2 (Z.eqb_neq z 0)) by lia. by rewrite Z.abs_eq by lia.
Qed.

(** Every number that is an integer of 64 bits is printed as that integer and reads back. *)
Lemma whole_number_ok n :
  n = f64_of_Z (f64_to_i64 n) → f64_eq n n = true → number_back n = n → number_ok n = true.
Proof.
  intros Hn Heq Hbk. unfold number_ok, write_number. rewrite Hbk, <- Hn, Heq. set (z := f64_to_i64 n) in *.
  assert (Hz : in_i64 z = true).
  { unfold z, f64_to_i64. clear. destruct n as [s|s| |s m e]; try done; try by destruct s. unfold in_i64.
    apply andb_true_iff. unfold i64_min, i64_max. lia. }
  destruct (Z.eq_dec z 0) as [H0|H0]; [rewrite Hn, H0; by vm_compute|].
  pose proof (dec_digits (Z.abs z) ltac:(lia)) as Hdig.
  assert (Hchar : forallb number_char (dec (Z.abs z)) = true).
  { apply forallb_forall. intros b Hb. rewrite forallb_forall in Hdig. unfold number_char. by rewrite (Hdig b Hb). }
  assert (Hspan : span_number (i64_to_string z) = (i64_to_string z, [])).
  { rewrite integer_text by done. rewrite span_number_eq. destruct (dec_head (Z.abs z) ltac:(lia)) as (d & t & Heq' & Hd).
    pose proof (proj1 (digit_is_digit _ (proj1 (digit_ok d Hd)))) as Hm.
    destruct (z <? 0); simpl sign_text.
    - change (B "-" ++ ?x) with (x2d :: x). rewrite span_sign_step, bool_decide_true by done. cbv beta iota.
      rewrite span_digits_all by done. simpl. by rewrite !app_nil_r.
    - change ([] ++ ?x) with x. rewrite Heq' at 1. rewrite span_sign_step, bool_decide_eq_false_2 by done. cbv beta iota.
      rewrite <- Heq', span_digits_all by done. simpl. by rewrite !app_nil_r. }
  rewrite Hspan, (bool_decide_eq_true_2 _ eq_refl).
  assert (parse_f64 (i64_to_string z) = Some n) as ->.
  { rewrite integer_text by done. rewrite parse_f64_dec by lia. rewrite Hn. do 2 f_equal. destruct (Z.ltb_spec z 0); lia. }
  rewrite (bool_decide_eq_true_2 _ eq_refl). rewrite integer_text by done.
  destruct (dec_head (Z.abs z) ltac:(lia)) as (d & t & Heq' & Hd).
  rewrite forallb_app, Hchar, bool_decide_eq_false_2; [by destruct (z <? 0)|]. rewrite Heq'. by destruct (z <? 0).
Qed.

(** ** Every finite number reads back *)

Lemma parse_digits_value s acc v : parse_digits acc s = Some v → forallb is_ascii_digit s = true.
Proof.
  revert acc. induction s as [|b s IH]; intros acc; simpl; [done|]. destruct (is_ascii_digit b); [|done]. apply IH.
Qed.

(** A run of digits ends at a point. *)
Lemma take_digits_point u rest n acc v :
  parse_digits acc u = Some v → take_digits (u ++ x2e :: rest) n acc = (n + Z.of_nat (length u), v, x2e :: rest).
Proof.
  revert n acc. induction u as [|b u IH]; intros n acc Hu; simpl in *.
  - injection Hu as <-. by rewrite Z.add_0_r.
  - destruct (is_ascii_digit b); [|done]. rewrite (IH _ _ Hu). do 2 f_equal. lia.
Qed.

Lemma span_digits_point u rest : forallb is_ascii_digit u = true → span_digits (u ++ x2e :: rest) = (u, x2e :: rest).
Proof.
  induction u as [|b u IH]; intros Hu; [done|]. simpl in *. destruct (is_ascii_digit b); [|done]. by rewrite IH.
Qed.

Lemma pad_digits_length k n : length (pad_digits k n) = k.
Proof. revert n. induction k as [|k IH]; intros n; [done|]. simpl. rewrite length_app, IH. simpl. lia. Qed.

Lemma parse_pad_digits k n acc : 0 <= n < 10 ^ Z.of_nat k → parse_digits acc (pad_digits k n) = Some (acc * 10 ^ Z.of_nat k + n).
Proof.
  revert n. induction k as [|k IH]; intros n Hn; [simpl in *; f_equal; lia|].
  rewrite Nat2Z.inj_succ, Z.pow_succ_r in * by lia. cbn [pad_digits].
  pose proof (Z.div_mod n 10 ltac:(lia)) as Hdm. pose proof (Z.mod_pos_bound n 10 ltac:(lia)) as Hm.
  rewrite parse_digits_app, IH by (split; [apply Z.div_pos; lia|apply Z.div_lt_upper_bound; lia]). simpl.
  destruct (digit_ok (n mod 10) Hm) as [-> ->]. f_equal. lia.
Qed.

(** The digits of a natural number. *)
Lemma natural_text n :
  0 <= n → ∃ d t, u64_to_string n = d :: t ∧ is_ascii_digit d = true ∧ parse_digits 0 (d :: t) = Some n.
Proof.
  intros Hn. rewrite u64_to_string_eq by done. destruct (Z.eqb_spec n 0) as [->|].
  - by exists (digit 0), [].
  - destruct (dec_head n ltac:(lia)) as (d & t & Heq & Hd). exists (digit d), t. rewrite <- Heq.
    split; [done|]. split; [apply digit_ok, Hd|apply parse_dec; lia].
Qed.

(** A text of digits, a sign before it, and perhaps a point and more digits. *)
Definition decimal_text (t : bytes) : Prop :=
  forallb number_char t = true ∧ t ≠ [] ∧ span_number t = (t, []).

Lemma digits_chars u : forallb is_ascii_digit u = true → forallb number_char u = true.
Proof. rewrite !forallb_forall. intros Hu b Hb. unfold number_char. by rewrite (Hu b Hb). Qed.

Lemma decimal_text_ok s d u frac :
  is_ascii_digit d = true → forallb is_ascii_digit u = true →
  (frac = [] ∨ ∃ f, frac = x2e :: f ∧ forallb is_ascii_digit f = true) →
  decimal_text (sign_text s ++ (d :: u) ++ frac).
Proof.
  intros Hd Hu Hf. assert (Hdu : forallb is_ascii_digit (d :: u) = true) by (simpl; by rewrite Hd).
  assert (Hc : forallb number_char ((d :: u) ++ frac) = true).
  { rewrite forallb_app, digits_chars by done. destruct Hf as [->|(f & -> & Hf)]; [done|]. simpl. by apply digits_chars. }
  assert (Hspan : span_digits ((d :: u) ++ frac) = (d :: u, frac) ∧ span_frac frac = (frac, [])).
  { destruct Hf as [->|(f & -> & Hf)].
    - rewrite app_nil_r. by rewrite span_digits_all.
    - rewrite span_digits_point by done. rewrite span_frac_step, bool_decide_true by done. by rewrite span_digits_all. }
  destruct Hspan as [Hsd Hsf]. destruct (digit_is_digit _ Hd) as (Hm & _ & _). split; [|split].
  - rewrite forallb_app, Hc. by destruct s.
  - by destruct s.
  - assert (Hsg : span_sign (sign_text s ++ (d :: u) ++ frac) = (sign_text s, (d :: u) ++ frac)).
    { destruct s; simpl sign_text; [reflexivity|]. change ((d :: u) ++ frac) with (d :: (u ++ frac)).
      change ([] ++ ?x) with x. by rewrite span_sign_step, bool_decide_eq_false_2. }
    rewrite span_number_eq, Hsg, Hsd, Hsf. simpl. by rewrite app_nil_r.
Qed.

Lemma decimal_shift s d p : 0 < d → p <= 0 → f64_of_decimal s (d * 10 ^ (- p)) 0 = f64_of_decimal s d (- p).
Proof.
  intros Hd Hp. pose proof (Z.pow_pos_nonneg 10 (- p) ltac:(lia) ltac:(lia)) as H10.
  destruct d as [|d|d]; try lia. destruct (10 ^ (- p)) as [|q|q] eqn:E; try lia. simpl (Zpos d * Zpos q).
  unfold f64_of_decimal. rewrite (proj2 (Z.leb_le 0 (- p))) by lia. rewrite E. simpl. by rewrite Pos.mul_1_r.
Qed.

(** What [plain_decimal] prints is a number, and reads back as that decimal. *)
Lemma plain_decimal_reads s d p :
  0 < d → decimal_text (sign_text s ++ plain_decimal d p) ∧
  parse_f64 (sign_text s ++ plain_decimal d p) = Some (f64_of_decimal s d (- p)).
Proof.
  intros Hd. unfold plain_decimal. destruct (Z.leb_spec p 0) as [Hp|Hp].
  - pose proof (Z.pow_pos_nonneg 10 (- p) ltac:(lia) ltac:(lia)) as H10.
    destruct (natural_text (d * 10 ^ (- p)) ltac:(nia)) as (x & t & -> & Hx & Hval).
    pose proof (parse_digits_value _ _ _ Hval) as Hdig. simpl in Hdig. rewrite Hx in Hdig. split.
    + rewrite <- (app_nil_r (x :: t)). apply decimal_text_ok; [done|done|by left].
    + rewrite parse_f64_digit by done. unfold parse_decimal. rewrite (take_digits_all _ 0 0 _ Hval). cbv beta iota zeta.
      rewrite length_cons, (proj2 (Z.eqb_neq _ 0)) by lia. cbn [parse_exponent mbind option_bind]. f_equal.
      rewrite Z.sub_0_r. by apply decimal_shift.
  - pose proof (Z.pow_pos_nonneg 10 p ltac:(lia) ltac:(lia)) as H10. pose proof (Z.mod_pos_bound d (10 ^ p) H10) as Hmod.
    destruct (natural_text (d / 10 ^ p)) as (x & t & -> & Hx & Hval); [apply Z.div_pos; lia|].
    pose proof (parse_pad_digits (Z.to_nat p) (d mod 10 ^ p) (d / 10 ^ p)) as Hpad. rewrite Z2Nat.id in Hpad by lia.
    specialize (Hpad Hmod). replace (d / 10 ^ p * 10 ^ p + d mod 10 ^ p) with d in Hpad
      by (rewrite (Z.div_mod d (10 ^ p)) at 1 by lia; lia).
    pose proof (parse_digits_value _ _ _ Hval) as Hdig. simpl in Hdig. rewrite Hx in Hdig.
    change (B "." ++ ?f) with (x2e :: f). split.
    + apply decimal_text_ok; [done|done|]. right. eexists. split; [done|]. by eapply parse_digits_value.
    + change ((x :: t) ++ ?f) with (x :: (t ++ f)). rewrite parse_f64_digit by done.
      change (x :: (t ++ ?f)) with ((x :: t) ++ f). unfold parse_decimal.
      rewrite (take_digits_point _ _ 0 0 _ Hval). cbv beta iota zeta. rewrite bool_decide_true by done.
      rewrite (take_digits_all _ 0 _ _ Hpad), pad_digits_length, Z2Nat.id by lia. cbv beta iota zeta.
      rewrite length_cons, (proj2 (Z.eqb_neq _ 0)) by lia. simpl. by rewrite Z.add_0_l.
Qed.

Lemma decimal_reads_pos m e dp : decimal_reads (S754_finite false m e) dp = true → 0 < dp.1.
Proof. unfold decimal_reads. intros Hr%bool_decide_eq_true_1. by destruct dp as [[|d|d] p]. Qed.

(** The search finds a decimal that reads back if one of its lower candidates does. *)
Lemma shortest_reads fuel num den E k x :
  (∃ j, 0 <= j < Z.of_nat fuel ∧
     let '(n, m) := scaled num den (k + j - E) in decimal_reads x (n / m, k + j - E) = true) →
  decimal_reads x (shortest_digits fuel num den E k x) = true.
Proof.
  revert k. induction fuel as [|fuel IH]; intros k (j & Hj & Hr); [lia|]. cbn [shortest_digits].
  destruct (scaled num den (k - E)) as [n m] eqn:Es.
  set (up := if n / m + 1 =? 10 ^ k then (10 ^ (k - 1), k - E - 1) else (n / m + 1, k - E)). destruct (decimal_reads x (n / m, k - E)) eqn:E1, (decimal_reads x up) eqn:E2.
  - by destruct (_ <=? _).
  - done.
  - done.
  - apply IH. destruct (Z.eq_dec j 0) as [->|]; [rewrite Z.add_0_r, Es in Hr; congruence|].
    exists (j - 1). split; [lia|]. by replace (k + 1 + (j - 1) - E) with (k + j - E) by lia.
Qed.

Lemma lead_zeros_le fuel num den j q : den <= num * 10 ^ q → j <= q → lead_zeros fuel num den j <= q.
Proof.
  intros Hq. revert j. induction fuel as [|fuel IH]; intros j Hj; simpl; [done|].
  destruct (Z.leb_spec den (num * 10 ^ j)) as [|Hlt]; [done|]. apply IH. destruct (Z.eq_dec j q) as [->|]; lia.
Qed.

(** The first digit of a number is not behind its last one. *)
Lemma exponent_reached num den q : 0 < den → 0 <= q → den <= num * 10 ^ q → 1 <= decimal_exponent num den + q.
Proof.
  intros Hden Hq Hle. unfold decimal_exponent. destruct (Z.leb_spec den num) as [Hd|Hd].
  - destruct (natural_text (num / den)) as (x & t & -> & _); [apply Z.div_pos; lia|]. rewrite length_cons. lia.
  - pose proof (lead_zeros_le 400 num den 0 q Hle Hq). lia.
Qed.

Lemma display_reads s m e :
  f64_valid (S754_finite false m e) = true →
  ∃ d p, display_f64 (S754_finite s m e) = sign_text s ++ plain_decimal d p ∧ 0 < d ∧
    f64_of_decimal false d (- p) = S754_finite false m e.
Proof.
  intros Hv. unfold display_f64. destruct (fraction m e) as [num den] eqn:Ef. set (E := decimal_exponent num den).
  set (x := S754_finite false m e) in *.
  assert (Hr : decimal_reads x (shortest_digits (exact_digits E e) num den E 1 x) = true).
  { apply shortest_reads. unfold fraction in Ef. destruct (Z.leb_spec 0 e) as [He|He]; injection Ef as <- <-.
    - assert (H2 : 0 < 2 ^ e) by (apply Z.pow_pos_nonneg; lia).
      pose proof (exponent_reached (Zpos m * 2 ^ e) 1 0 ltac:(done) ltac:(done) ltac:(lia)) as HE. fold E in HE.
      exists (E - 1). unfold exact_digits. split; [lia|]. replace (1 + (E - 1) - E) with 0 by lia.
      assert (scaled (Zpos m * 2 ^ e) 1 0 = (Zpos m * 2 ^ e, 1)) as -> by (unfold scaled; cbn [Z.leb]; f_equal; lia).
      cbv beta iota. rewrite Z.div_1_r. unfold decimal_reads. cbn [fst snd]. apply bool_decide_eq_true_2.
      by apply decimal_whole.
    - set (q := - e) in *. assert (Hq : 0 < q) by lia. assert (H2 : 0 < 2 ^ q) by (apply Z.pow_pos_nonneg; lia).
      assert (H5 : 0 < 5 ^ q) by (apply Z.pow_pos_nonneg; lia).
      assert (H10 : 10 ^ q = 5 ^ q * 2 ^ q) by (change 10 with (5 * 2); apply Z.pow_mul_l).
      pose proof (exponent_reached (Zpos m) (2 ^ q) q H2 ltac:(lia) ltac:(nia)) as HE. fold E in HE.
      exists (E + q - 1). unfold exact_digits. split; [lia|]. replace (1 + (E + q - 1) - E) with q by lia.
      unfold scaled. rewrite (proj2 (Z.leb_le 0 q)) by lia. rewrite H10, Z.mul_assoc, Z.div_mul by lia.
      unfold decimal_reads. cbn [fst snd]. apply bool_decide_eq_true_2. unfold q. rewrite Z.opp_involutive. by apply decimal_fraction. }
  destruct (shortest_digits _ _ _ _ _ _) as [d p]. exists d, p. split; [done|].
  split; [by apply (decimal_reads_pos _ _ _ Hr)|]. by apply bool_decide_eq_true_1 in Hr.
Qed.

(** A number of the format that is neither infinite nor NaN. *)
Definition finite (n : f64) : bool :=
  f64_valid n && match n with S754_zero _ | S754_finite _ _ _ => true | _ => false end.

Lemma whole_equal s m e z : f64_eq (S754_finite s m e) (f64_of_Z z) = true → S754_finite s m e = f64_of_Z z.
Proof.
  intros He. assert (Hn : num (f64_of_Z z)) by (unfold num; by destruct (f64_of_Z z)).
  apply f64_eq_key in He; [|done|done]. destruct (f64_of_Z z) as [[]|[]| |[] m' e'], s; simpl in He; try done;
    injection He as ? ?; f_equal; lia.
Qed.

Lemma finite_number_ok n : finite n = true → number_ok n = true.
Proof.
  unfold finite. intros [Hv Hf]%andb_true_iff. destruct n as [s|s| |s m e]; [by destruct s|done|done|].
  - destruct (f64_eq (S754_finite s m e) (f64_of_Z (f64_to_i64 (S754_finite s m e)))) eqn:Heq.
    { pose proof (whole_equal _ _ _ _ Heq) as Hw. apply whole_number_ok; [done| |done]. rewrite <- Hw in Heq. done. }
    unfold number_ok, write_number. rewrite Heq.
    destruct (display_reads s m e Hv) as (d & p & -> & Hd & Hx).
    destruct (plain_decimal_reads s d p Hd) as [(Hc & Hne & Hs) Hp].
    rewrite Hc, Hs, Hp, (f64_of_decimal_sign s d (- p) m e Hx), bool_decide_eq_false_2 by done.
    by rewrite !bool_decide_eq_true_2.
Qed.

(** Every number of the document is finite. *)
Fixpoint finite_numbers (v : JsonValue) : bool :=
  match v with
  | JNumber n => finite n
  | JArray l => forallb finite_numbers l
  | JObject l => forallb (λ p, finite_numbers p.2) l
  | _ => true
  end.

(** ** Documents *)

Fixpoint numbers_ok (v : JsonValue) : bool :=
  match v with
  | JNumber n => number_ok n
  | JArray l => forallb numbers_ok l
  | JObject l => forallb (λ p, numbers_ok p.2) l
  | _ => true
  end.

Lemma finite_numbers_ok v : finite_numbers v = true → numbers_ok v = true.
Proof.
  induction v as [|b|n|s|l IH|l IH] using json_induction; intros Hv; try done; simpl in *.
  - by apply finite_number_ok.
  - induction IH as [|v l Hw _ IH]; [done|]. simpl in *. apply andb_true_iff in Hv as [Hv Hl]. by rewrite Hw, IH.
  - induction IH as [|p l Hw _ IH]; [done|]. simpl in *. apply andb_true_iff in Hv as [Hv Hl]. by rewrite Hw, IH.
Qed.

(** The document as it is read: its strings and names are those of [reread], its
    numbers those of [number_back]. *)
Fixpoint reread_json (v : JsonValue) : JsonValue :=
  match v with
  | JNumber n => JNumber (number_back n)
  | JString s => JString (reread s)
  | JArray l => JArray (List.map reread_json l)
  | JObject l => JObject (List.map (λ '(k, w), (reread k, reread_json w)) l)
  | _ => v
  end.

Definition starts_value (b : byte) : bool :=
  negb (is_ascii_whitespace b) && negb (bool_decide (b = x5d)) && negb (bool_decide (b = x7d)).

Lemma number_head b :
  number_char b = true →
  starts_value b = true ∧ b ≠ x22 ∧ b ≠ x7b ∧ b ≠ x5b ∧ b ≠ "t"%byte ∧ b ≠ "f"%byte ∧ b ≠ "n"%byte.
Proof. destruct b; done. Qed.

Lemma number_ok_chars n :
  number_ok n = true → ∃ b s, write_number n = b :: s ∧ number_char b = true ∧ forallb number_char (write_number n) = true.
Proof.
  unfold number_ok. intros Hn. repeat (apply andb_true_iff in Hn as [Hn ?]). destruct (write_number n) as [|b s]; [done|].
  exists b, s. split_and!; [done| |done]. simpl in Hn. by apply andb_true_iff in Hn as [? _].
Qed.

Lemma value_head v : numbers_ok v = true → ∃ b s, write_json v = b :: s ∧ starts_value b = true.
Proof.
  destruct v as [|[]|n|s|l|l]; simpl; intros Hv; try (eexists _, _; done).
  destruct (number_ok_chars n Hv) as (b & s & -> & Hb & _). exists b, s. split; [done|]. by apply number_head.
Qed.

Lemma skip_value v rest : numbers_ok v = true → skip_ws (write_json v ++ rest) = write_json v ++ rest.
Proof.
  intros Hv. destruct (value_head v Hv) as (b & s & -> & Hb). unfold starts_value in Hb. simpl.
  by destruct (is_ascii_whitespace b).
Qed.

Lemma skip_string s rest : skip_ws (write_json_string s ++ rest) = write_json_string s ++ rest.
Proof. reflexivity. Qed.

(** The property of the round trip, for every continuation and enough fuel. *)
Definition reads_back (v : JsonValue) : Prop :=
  numbers_ok v = true → ∀ fuel rest, delimited rest = true → (length (write_json v) <= fuel)%nat →
  parse_json_value fuel (write_json v ++ rest) = Some (reread_json v, rest).

Lemma number_reads_back n : reads_back (JNumber n).
Proof.
  intros Hn fuel rest Hr Hf. change (write_json (JNumber n)) with (write_number n) in *. simpl in Hn.
  pose proof (read_number n rest Hn Hr) as Hread. destruct (number_ok_chars n Hn) as (b & s & Heq & Hb0 & _).
  rewrite Heq in *. destruct fuel as [|fuel]; [simpl in Hf; lia|]. destruct (number_head b Hb0) as (Hb & ? & ? & ? & ? & ? & ?).
  rewrite value_step. change ((b :: s) ++ rest) with (b :: (s ++ rest)) in *. cbn [skip_ws].
  assert (is_ascii_whitespace b = false) as -> by (unfold starts_value in Hb; by destruct (is_ascii_whitespace b)).
  rewrite !bool_decide_eq_false_2 by done.
  assert (Hno : ∀ c p, b ≠ c → starts_with (c :: p) (b :: s ++ rest) = false).
  { intros c p Hc. unfold starts_with. apply bool_decide_eq_false_2. simpl. congruence. }
  change (B "true") with ("t"%byte :: B "rue"). change (B "false") with ("f"%byte :: B "alse").
  change (B "null") with ("n"%byte :: B "ull"). by rewrite !Hno.
Qed.

Lemma elements_read_back l rest : ∀ fuel,
  l ≠ [] → Forall reads_back l → forallb numbers_ok l = true → (S (length (commas (List.map write_json l))) <= fuel)%nat →
  parse_elements fuel (commas (List.map write_json l) ++ x5d :: rest) = Some (List.map reread_json l, rest).
Proof.
  induction l as [|v l IH]; intros fuel Hne HP Hn Hf; [done|]. inversion HP as [|? ? Hv Hl]; subst.
  simpl in Hn. apply andb_true_iff in Hn as [Hnv Hnl]. destruct fuel as [|fuel]; [simpl in Hf; lia|].
  rewrite elements_step. destruct l as [|w l].
  - change (commas (List.map write_json [v])) with (write_json v) in *. rewrite skip_value, (Hv Hnv) by (done || lia). done.
  - change (commas (List.map write_json (v :: w :: l)))
      with (write_json v ++ x2c :: commas (List.map write_json (w :: l))) in *.
    rewrite length_app, length_cons in Hf. rewrite <- app_assoc. rewrite skip_value, (Hv Hnv) by (done || lia).
    cbn [skip_ws is_ascii_whitespace app]. rewrite bool_decide_true by done. rewrite IH by (done || lia). done.
Qed.

Definition write_member (p : bytes * JsonValue) : bytes := let '(k, w) := p in write_json_string k ++ x3a :: write_json w.
Definition reread_member (p : bytes * JsonValue) : bytes * JsonValue := let '(k, w) := p in (reread k, reread_json w).

Lemma members_read_back l rest : ∀ fuel,
  l ≠ [] → Forall (λ p, reads_back p.2) l → forallb (λ p, numbers_ok p.2) l = true →
  (S (length (commas (List.map write_member l))) <= fuel)%nat →
  parse_members fuel (commas (List.map write_member l) ++ x7d :: rest) = Some (List.map reread_member l, rest).
Proof.
  assert (Hone : ∀ k v rest', numbers_ok v = true → skip_ws (write_member (k, v) ++ rest') = write_json_string k ++ x3a :: write_json v ++ rest').
  { intros. unfold write_member. rewrite <- app_assoc. apply skip_string. }
  induction l as [|[k v] l IH]; intros fuel Hne HP Hn Hf; [done|]. inversion HP as [|? ? Hv Hl]; subst.
  simpl in Hn, Hv. apply andb_true_iff in Hn as [Hnv Hnl]. destruct fuel as [|fuel]; [simpl in Hf; lia|].
  assert (Hlen : (length (write_member (k, v)) = length (write_json_string k) + S (length (write_json v)))%nat)
    by (unfold write_member; by rewrite length_app).
  rewrite members_step. destruct l as [|w l].
  - change (commas (List.map write_member [(k, v)])) with (write_member (k, v)) in *. rewrite Hone, read_string by done.
    cbn [skip_ws is_ascii_whitespace]. rewrite bool_decide_true by done.
    rewrite skip_value, (Hv Hnv) by (done || lia). done.
  - change (commas (List.map write_member ((k, v) :: w :: l)))
      with (write_member (k, v) ++ x2c :: commas (List.map write_member (w :: l))) in *.
    rewrite length_app, length_cons in Hf. rewrite <- app_assoc. rewrite Hone, read_string by done.
    cbn [skip_ws is_ascii_whitespace]. rewrite bool_decide_true by done.
    rewrite skip_value, (Hv Hnv) by (done || lia).
    cbn [skip_ws is_ascii_whitespace app]. rewrite bool_decide_true by done. rewrite IH by (done || lia). done.
Qed.

Lemma map_eq {A B} (f g : A → B) l : (∀ x, f x = g x) → List.map f l = List.map g l.
Proof. intros Hfg. by apply List.map_ext. Qed.

Lemma commas_head {A} (f : A → bytes) x l : ∃ r, commas (List.map f (x :: l)) = f x ++ r.
Proof. destruct l as [|y l]; [exists []; by rewrite app_nil_r|by eexists]. Qed.

Lemma all_read_back v : reads_back v.
Proof.
  induction v as [|[]|n|s|l IH|l IH] using json_induction; try (intros Hv fuel rest Hr Hf; destruct fuel as [|fuel]; [simpl in Hf; lia|]).
  - done.
  - done.
  - done.
  - apply number_reads_back.
  - rewrite value_step. change (write_json (JString s)) with (write_json_string s). rewrite skip_string.
    pose proof (read_string s rest) as Hread.
    change (write_json_string s ++ rest) with (x22 :: ((escape s ++ [x22]) ++ rest)) in *. cbv beta iota.
    rewrite bool_decide_true by done. by rewrite Hread.
  - change (write_json (JArray l)) with (x5b :: commas (List.map write_json l) ++ [x5d]) in *.
    change ((x5b :: ?a) ++ rest) with (x5b :: (a ++ rest)). rewrite <- app_assoc. rewrite value_step.
    cbn [skip_ws is_ascii_whitespace]. rewrite !bool_decide_eq_false_2, bool_decide_true by done.
    destruct l as [|v l]; [done|]. simpl in Hv. pose proof Hv as Hvl. apply andb_true_iff in Hv as [Hv _].
    assert (Hskip : ∀ r, skip_ws (commas (List.map write_json (v :: l)) ++ r) = commas (List.map write_json (v :: l)) ++ r
        ∧ head (commas (List.map write_json (v :: l)) ++ r) ≠ Some x5d).
    { intros r. destruct (commas_head write_json v l) as [r' ->]. rewrite <- app_assoc. split; [by apply skip_value|].
      destruct (value_head v Hv) as (b & s & -> & Hb). simpl. unfold starts_value in Hb. intros [= ->]. done. }
    destruct (Hskip ([x5d] ++ rest)) as [-> Hh]. rewrite bool_decide_eq_false_2 by done.
    change ([x5d] ++ rest) with (x5d :: rest). rewrite elements_read_back; [done|done|done|done|].
    rewrite length_cons, length_app in Hf. change (length [_]) with 1%nat in Hf. lia.
  - change (write_json (JObject l)) with (x7b :: commas (List.map write_member l) ++ [x7d]) in *.
    change ((x7b :: ?a) ++ rest) with (x7b :: (a ++ rest)). rewrite <- app_assoc. rewrite value_step.
    cbn [skip_ws is_ascii_whitespace]. rewrite bool_decide_eq_false_2, bool_decide_true by done.
    destruct l as [|[k v] l]; [done|].
    assert (Hskip : ∀ r, skip_ws (commas (List.map write_member ((k, v) :: l)) ++ r) = commas (List.map write_member ((k, v) :: l)) ++ r
        ∧ head (commas (List.map write_member ((k, v) :: l)) ++ r) ≠ Some x7d).
    { intros r. by destruct (commas_head write_member (k, v) l) as [r' ->]. }
    destruct (Hskip ([x7d] ++ rest)) as [-> Hh]. rewrite bool_decide_eq_false_2 by done.
    change ([x7d] ++ rest) with (x7d :: rest). rewrite members_read_back; [done|done|done|done|].
    rewrite length_cons, length_app in Hf. change (length [_]) with 1%nat in Hf. lia.
Qed.

(** *** The trimming of a text that was printed *)

(** A character that is not, and does not end, whitespace. *)
Definition edge (b : byte) : bool :=
  forallb (λ w, negb (bool_decide (head w = Some b)) && negb (bool_decide (head (rev w) = Some b))) WHITESPACE.

Lemma trim_front_stays fuel ws b s :
  forallb (λ w, negb (bool_decide (head w = Some b)) && negb (bool_decide (w = []))) ws = true →
  trim_front fuel ws (b :: s) = b :: s.
Proof.
  intros Hws. destruct fuel as [|fuel]; [done|]. simpl.
  replace (List.find (λ w, starts_with w (b :: s)) ws) with (@None bytes); [done|].
  induction ws as [|w ws IH]; [done|]. simpl in Hws. apply andb_true_iff in Hws as [Hw Hws]. simpl.
  unfold starts_with at 1. rewrite bool_decide_eq_false_2; [by apply IH|].
  destruct w as [|x w]; [done|]. simpl. intros [= -> _]. simpl in Hw. by rewrite bool_decide_true in Hw.
Qed.

Lemma trim_edges a s t b : edge a = true → edge b = true → s = a :: t → last s = Some b → trim s = s.
Proof.
  intros Ha Hb Hs Hlast. unfold trim.
  assert (Ht : trim_front (length s) WHITESPACE s = s).
  { rewrite Hs. apply trim_front_stays. apply forallb_forall. intros w Hw. unfold edge in Ha.
    rewrite forallb_forall in Ha. specialize (Ha w Hw). apply andb_true_iff in Ha as [-> _]. simpl.
    unfold WHITESPACE in Hw. simpl in Hw. repeat (destruct Hw as [<-|Hw]; [done|]). done. }
  rewrite Ht. apply last_Some in Hlast as [s' Hs'].
  assert (Hr : rev s = b :: rev s') by (rewrite Hs', rev_app_distr; done).
  rewrite Hr, trim_front_stays.
  - rewrite <- Hr. apply rev_involutive.
  - apply forallb_forall. intros w (w' & <- & Hw)%List.in_map_iff. unfold edge in Hb. rewrite forallb_forall in Hb.
    specialize (Hb w' Hw). apply andb_true_iff in Hb as [_ ->]. simpl.
    unfold WHITESPACE in Hw. simpl in Hw. repeat (destruct Hw as [<-|Hw]; [done|]). done.
Qed.

Lemma starts_value_edge b : number_char b = true → edge b = true.
Proof. destruct b; done. Qed.

Lemma last_forallb {A} (f : A → bool) l x : forallb f l = true → last l = Some x → f x = true.
Proof. intros Hf (l' & ->)%last_Some. rewrite forallb_app in Hf. apply andb_true_iff in Hf as [_ Hf]. simpl in Hf. by destruct (f x). Qed.

Lemma trim_written v : numbers_ok v = true → trim (write_json v) = write_json v.
Proof.
  intros Hv.
  assert (∃ a t b, write_json v = a :: t ∧ last (write_json v) = Some b ∧ edge a = true ∧ edge b = true) as (a & t & b & Hs & Hl & ? & ?).
  { destruct v as [|[]|n|s|l|l].
    - by exists "n"%byte, (B "ull"), "l"%byte.
    - by exists "t"%byte, (B "rue"), "e"%byte.
    - by exists "f"%byte, (B "alse"), "e"%byte.
    - change (write_json (JNumber n)) with (write_number n). destruct (number_ok_chars n Hv) as (b & s & Heq & Hb & Hall).
      destruct (last (write_number n)) as [z|] eqn:Hz; [|rewrite Heq in Hz; by apply last_None in Hz].
      exists b, s, z. split_and!; [done|done|by apply starts_value_edge|]. apply starts_value_edge. by eapply last_forallb.
    - exists x22, (escape s ++ [x22]), x22. split_and!; try done.
      change (write_json (JString s)) with ((x22 :: escape s) ++ [x22]). apply last_snoc.
    - exists x5b, (commas (List.map write_json l) ++ [x5d]), x5d. split_and!; try done.
      change (write_json (JArray l)) with ((x5b :: commas (List.map write_json l)) ++ [x5d]). apply last_snoc.
    - exists x7b, (commas (List.map write_member l) ++ [x7d]), x7d. split_and!; try done.
      change (write_json (JObject l)) with ((x7b :: commas (List.map write_member l)) ++ [x7d]). apply last_snoc. }
  exact (trim_edges a _ t b ltac:(assumption) ltac:(assumption) Hs Hl).
Qed.

(** The strings and names of a document are ASCII, and no number is a negative zero. *)
Fixpoint json_plain (v : JsonValue) : bool :=
  let ascii s := forallb (λ b, b2z b <? 0x80) s in
  match v with
  | JNumber n => bool_decide (number_back n = n)
  | JString s => ascii s
  | JArray l => forallb json_plain l
  | JObject l => forallb (λ p, ascii p.1 && json_plain p.2) l
  | _ => true
  end.

Lemma reread_json_plain v : json_plain v = true → reread_json v = v.
Proof.
  induction v as [|b|n|s|l IH|l IH] using json_induction; intros Hv; try done; simpl in *.
  - f_equal. by apply bool_decide_eq_true_1 in Hv.
  - by rewrite reread_ascii.
  - f_equal. induction IH as [|v l Hw _ IH]; [done|]. simpl in *. apply andb_true_iff in Hv as [Hv Hl].
    by rewrite Hw, IH.
  - f_equal. induction IH as [|[k v] l Hw _ IH]; [done|]. simpl in *. apply andb_true_iff in Hv as [Hv Hl].
    apply andb_true_iff in Hv as [Hk Hv]. by rewrite Hw, reread_ascii, IH.
Qed.

Lemma parse_written v : numbers_ok v = true → parse_json (write_json v) = Some (reread_json v).
Proof.
  intros Hv. unfold parse_json. rewrite trim_written by done. destruct (value_head v Hv) as (b & s & Heq & _).
  rewrite Heq at 1. pose proof (all_read_back v Hv (json_fuel (write_json v)) []) as Hread.
  rewrite app_nil_r in Hread. rewrite Hread; [done|done|]. unfold json_fuel. lia.
Qed.

(** C9: A document that is printed parses back.  For every document whose numbers are
    finite, the text parses to the document again but for two changes
    ([reread_json]): a string or a name with both a quote or a backslash and bytes
    past ASCII comes back with each such byte turned into a character of its own,
    and a negative zero comes back without its sign.  A document with neither is
    the same.  A number that is infinite or NaN is printed as a text that does not
    parse ([infinite_unreadable]). *)
Theorem json_roundtrip v :
  finite_numbers v = true →
  parse_json (write_json v) = Some (reread_json v) ∧ (json_plain v = true → reread_json v = v).
Proof. intros Hv. split; [by apply parse_written, finite_numbers_ok|apply reread_json_plain]. Qed.

(** Among its numbers are a third, the least number there is, the greatest, and minus
    zero. *)
Definition demo_doc : JsonValue :=
  JObject [(B "a", JArray [JNumber (f64_of_Z 42); JNumber (f64_of_Z (-7)); JBool true; JNull]);
           (B "n", JArray [JNumber (f64_div (f64_of_Z 1) (f64_of_Z 3)); JNumber (S754_finite true 1 (-1074));
                           JNumber (S754_finite false 9007199254740991 971); JNumber (S754_zero true)]);
           (B "say ", JString [x22; x5c; x0a]); (B "é", JObject [(B "x", JArray []); (B "y", JObject [])])].

Lemma json_roundtrip_witness :
  finite_numbers demo_doc = true ∧
  parse_json (write_json demo_doc) = Some (reread_json demo_doc) ∧ (json_plain demo_doc = true → reread_json demo_doc = demo_doc).
Proof. split; [by vm_compute|]. apply (json_roundtrip demo_doc). by vm_compute. Defined.

(** An e-acute and a quote: the two bytes of the character come back as two characters. *)
Example escaped_string_mangled :
  parse_json (write_json (JString [xc3; xa9; x22])) = Some (JString [xc3; x83; xc2; xa9; x22]).
Proof. vm_compute. done. Qed.

(** ** The parser ends *)

Lemma skip_ws_length s : (length (skip_ws s) <= length s)%nat.
Proof. induction s as [|b s IH]; [done|]. simpl. destruct (is_ascii_whitespace b); simpl; lia. Qed.

Lemma raw_string_shrinks s t r : raw_string s = Some (Some (t, r)) → (length r < length s)%nat.
Proof.
  revert t. induction s as [|b s IH]; intros t; [done|]. rewrite raw_string_step. simpl. repeat case_bool_decide; try done.
  - intros [= _ ->]. lia.
  - destruct (raw_string s) as [[[t' r']|]|]; try done. intros [= _ ->]. specialize (IH _ eq_refl). lia.
Qed.

Lemma pushed_Some u o t r : pushed u o = Some (t, r) → ∃ t', o = Some (t', r).
Proof. destruct o as [[t' r']|]; [|done]. intros [= _ ->]. by eexists. Qed.

Lemma unescape_shrinks s : ∀ t r, unescape s = Some (t, r) → (length r < length s)%nat.
Proof.
  induction s as [s IH] using (induction_ltof1 _ (@length byte)). unfold ltof in IH. intros t r Hs.
  assert (Hgo : ∀ u s', (length s' < length s)%nat → pushed u (unescape s') = Some (t, r) → (length r < length s)%nat).
  { intros u s' Hl (t' & Ht)%pushed_Some. specialize (IH s' Hl _ _ Ht). lia. }
  destruct s as [|b s]; [done|]. destruct (special b) eqn:Hb.
  - assert (b = x5c ∨ b = x22) as [-> | ->] by (unfold special in Hb; repeat case_bool_decide; auto; done);
      [|cbn in Hs; injection Hs as _ ->; simpl; lia].
    destruct s as [|e s]; [done|]. destruct e; try done; try (eapply (Hgo _ s); [simpl; lia|exact Hs]).
    destruct s as [|a [|b [|c [|d s]]]]; try done.
    change (match parse_hex4 [a; b; c; d] with Some cp => pushed (utf8_of (char_of cp)) (unescape s) | None => None end = Some (t, r)) in Hs.
    destruct (parse_hex4 _) as [cp|]; [|done]. eapply (Hgo _ s); [simpl; lia|exact Hs].
  - rewrite unescape_char in Hs by done. eapply (Hgo _ s); [simpl; lia|exact Hs].
Qed.

Lemma parse_string_shrinks s t r : parse_json_string s = Some (t, r) → (length r < length s)%nat.
Proof.
  destruct s as [|[] s]; try done. simpl. destruct (raw_string s) as [[[t' r']|]|] eqn:E; try done.
  - intros [= _ ->]. apply raw_string_shrinks in E. lia.
  - intros Hu%unescape_shrinks. lia.
Qed.

(** What a function that takes a prefix off gives has the length of its argument. *)
Definition splits (f : bytes → bytes * bytes) : Prop := ∀ s, (length (f s).1 + length (f s).2 = length s)%nat.

Lemma span_digits_splits : splits span_digits.
Proof.
  intros s. induction s as [|b s IH]; [done|]. simpl. destruct (is_ascii_digit b); [|done].
  destruct (span_digits s). simpl in *. lia.
Qed.

Lemma span_number_splits : splits span_number.
Proof.
  intros s. rewrite span_number_eq.
  assert (H1 : splits span_sign). { intros [|b t]; [done|]. rewrite span_sign_step. by case_bool_decide. }
  assert (H2 : splits span_frac).
  { intros [|b t]; [done|]. rewrite span_frac_step. case_bool_decide; [|done]. pose proof (span_digits_splits t).
    destruct (span_digits t). simpl in *. lia. }
  assert (H3 : splits span_exp_sign). { intros [|b t]; [done|]. simpl. by destruct (_ || _). }
  assert (H4 : splits span_exp).
  { intros [|b t]; [done|]. simpl. destruct (_ || _); [|done]. pose proof (H3 t) as Ht. destruct (span_exp_sign t) as [g u].
    pose proof (span_digits_splits u). destruct (span_digits u). simpl in *. rewrite length_app. lia. }
  pose proof (H1 s) as E1. destruct (span_sign s) as [a s1]. pose proof (span_digits_splits s1) as E2.
  destruct (span_digits s1) as [b s2]. pose proof (H2 s2) as E3. destruct (span_frac s2) as [d s3].
  pose proof (H4 s3) as E4. destruct (span_exp s3) as [e s4]. simpl in *. rewrite !length_app. lia.
Qed.

Lemma parse_number_shrinks s v r : parse_json_number s = Some (v, r) → (length r < length s)%nat.
Proof.
  unfold parse_json_number. pose proof (span_number_splits s) as Hs. destruct (span_number s) as [[|b t] rest]; [done|].
  destruct (parse_f64 _); [|done]. intros [= _ ->]. simpl in Hs. lia.
Qed.

(** Every parser leaves less than it was given. *)
Lemma parsers_shrink fuel :
  (∀ s v r, parse_json_value fuel s = Some (v, r) → (length r < length s)%nat) ∧
  (∀ s l r, parse_elements fuel s = Some (l, r) → (length r < length s)%nat) ∧
  (∀ s l r, parse_members fuel s = Some (l, r) → (length r < length s)%nat).
Proof.
  induction fuel as [|fuel (IHv & IHe & IHm)]; [split_and!; done|]. split_and!; intros s v r.
  - rewrite value_step. pose proof (skip_ws_length s) as Hs. destruct (skip_ws s) as [|b t]; [done|].
    pose proof (skip_ws_length t) as Ht. simpl in Hs. repeat case_bool_decide.
    + destruct (parse_json_string _) as [[u q]|] eqn:E; [|done]. intros [= _ ->]. apply parse_string_shrinks in E. simpl in E. lia.
    + intros [= _ <-]. destruct (skip_ws t); simpl in *; lia.
    + destruct (parse_members _ _) as [[l q]|] eqn:E; [|done]. intros [= _ ->]. apply IHm in E. lia.
    + intros [= _ <-]. destruct (skip_ws t); simpl in *; lia.
    + destruct (parse_elements _ _) as [[l q]|] eqn:E; [|done]. intros [= _ ->]. apply IHe in E. lia.
    + repeat (destruct (starts_with _ _); [intros [= _ <-]; rewrite length_drop; simpl; lia|]).
      intros E%parse_number_shrinks. simpl in E. lia.
  - rewrite elements_step. pose proof (skip_ws_length s). destruct (parse_json_value _ _) as [[w q]|] eqn:E; [|done].
    apply IHv in E. pose proof (skip_ws_length q). destruct (skip_ws q) as [|b q']; [done|]. simpl in *.
    repeat case_bool_decide; try done.
    + destruct (parse_elements fuel q') as [[l u]|] eqn:E'; [|done]. intros [= _ ->]. apply IHe in E'. lia.
    + intros [= _ ->]. lia.
  - rewrite members_step. pose proof (skip_ws_length s). destruct (parse_json_string _) as [[k q]|] eqn:E; [|done].
    apply parse_string_shrinks in E. pose proof (skip_ws_length q). destruct (skip_ws q) as [|b q']; [done|]. simpl in *.
    case_bool_decide; [|done]. pose proof (skip_ws_length q'). destruct (parse_json_value _ _) as [[w u]|] eqn:Ev; [|done].
    apply IHv in Ev. pose proof (skip_ws_length u). destruct (skip_ws u) as [|b' u']; [done|]. simpl in *.
    repeat case_bool_decide; try done.
    + destruct (parse_members fuel u') as [[l x]|] eqn:E'; [|done]. intros [= _ ->]. apply IHm in E'. lia.
    + intros [= _ ->]. lia.
Qed.

(** One more unit of fuel than the text needs changes nothing. *)
Lemma fuel_step fuel :
  (∀ s, (2 * length s + 1 <= fuel)%nat → parse_json_value (S fuel) s = parse_json_value fuel s) ∧
  (∀ s, (2 * length s + 2 <= fuel)%nat → parse_elements (S fuel) s = parse_elements fuel s) ∧
  (∀ s, (2 * length s + 2 <= fuel)%nat → parse_members (S fuel) s = parse_members fuel s).
Proof.
  induction fuel as [|fuel (IHv & IHe & IHm)]; [split_and!; intros; lia|].
  destruct (parsers_shrink fuel) as (Sv & _ & _). split_and!; intros s Hf.
  - rewrite (value_step (S fuel)), (value_step fuel). pose proof (skip_ws_length s) as Hs. destruct (skip_ws s) as [|b t]; [done|].
    pose proof (skip_ws_length t) as Ht. simpl in Hs. by rewrite IHe, IHm by lia.
  - rewrite (elements_step (S fuel)), (elements_step fuel). pose proof (skip_ws_length s). rewrite IHv by lia.
    destruct (parse_json_value fuel (skip_ws s)) as [[w q]|] eqn:E; [|done].
    apply Sv in E. pose proof (skip_ws_length q). destruct (skip_ws q) as [|b q']; [done|]. simpl in *.
    by rewrite IHe by lia.
  - rewrite (members_step (S fuel)), (members_step fuel). pose proof (skip_ws_length s).
    destruct (parse_json_string _) as [[k q]|] eqn:E; [|done].
    apply parse_string_shrinks in E. pose proof (skip_ws_length q). destruct (skip_ws q) as [|b q']; [done|]. simpl in *.
    case_bool_decide; [|done]. pose proof (skip_ws_length q'). rewrite IHv by lia.
    destruct (parse_json_value fuel (skip_ws q')) as [[w u]|] eqn:Ev; [|done].
    apply Sv in Ev. pose proof (skip_ws_length u). destruct (skip_ws u) as [|b' u']; [done|]. simpl in *. by rewrite IHm by lia.
Qed.

(** The recursion of the parser ends: no more calls are nested than twice the length
    of the text, so more fuel gives the same answer, and a value that is parsed takes at
    least one byte off the text. *)
Theorem json_parser_ends fuel s :
  (json_fuel s <= fuel)%nat →
  parse_json_value fuel s = parse_json_value (json_fuel s) s ∧
  (∀ v r, parse_json_value fuel s = Some (v, r) → (length r < length s)%nat).
Proof.
  intros Hf. split; [|intros v r; apply (proj1 (parsers_shrink fuel))]. unfold json_fuel in *.
  induction Hf as [|fuel Hf IH]; [done|]. rewrite <- IH. apply (proj1 (fuel_step fuel)). lia.
Qed.

Lemma json_parser_ends_witness :
  (json_fuel (B "[[1],2] x") <= 100)%nat ∧
  parse_json_value 100 (B "[[1],2] x") = parse_json_value (json_fuel (B "[[1],2] x")) (B "[[1],2] x") ∧
  (∀ v r, parse_json_value 100 (B "[[1],2] x") = Some (v, r) → (length r < length (B "[[1],2] x"))%nat).
Proof. split; [apply Nat.leb_le; reflexivity|apply (json_parser_ends 100 (B "[[1],2] x")); apply Nat.leb_le; reflexivity]. Defined.
