(* ===== verification/JsonPathSpec.v ===== *)
(** JSON documents in the store: a value stored at a path is found there and nowhere
    else, and the ways a stored document stops being one. *)

From Stdlib Require Import Strings.Byte Floats.SpecFloat.
From S2P Require Import Prelude Decimal MapIface Resp Float Value Store StoreSpec Handler Json JsonSpec JsonOps CmdJson.
Local Open Scope Z_scope.

(** ** Paths *)

Lemma member_at_ext k (l l' : list (bytes * JsonValue)) : l.*1 = l'.*1 → member_at k l = member_at k l'.
Proof.
  unfold member_at. revert l'. induction l as [|p l IH]; intros [|p' l'] Hl; try done. cbn in Hl. injection Hl as Hp Hl.
  specialize (IH _ Hl). simpl. destruct (decide (p.1 = k)), (decide (p'.1 = k)); try congruence; [done|].
  destruct (list_find _ l) as [[i q]|], (list_find _ l') as [[i' q']|]; simpl in *; congruence.
Qed.

Lemma member_at_insert k l i (p : bytes * JsonValue) w :
  l !! i = Some w → p.1 = w.1 → member_at k (<[i := p]> l) = member_at k l.
Proof.
  intros Hi Hp. apply member_at_ext. rewrite list_fmap_insert. apply list_insert_id. by rewrite list_lookup_fmap, Hi, Hp.
Qed.

Lemma member_at_Some k l i : member_at k l = Some i → ∃ w, l !! i = Some (k, w).
Proof.
  unfold member_at. intros Hm. apply fmap_Some in Hm as ([j [k' w]] & Hf & ->).
  apply list_find_Some in Hf as (Hi & Hk & _). simpl in Hk. subst k'. by exists w.
Qed.

Lemma bracket_nonneg part idx : bracket part = Some (Some idx) → 0 <= idx.
Proof.
  unfold bracket. destruct part as [|b s]; [done|]. destruct b; try done. destruct (rev s) as [|b r]; [done|].
  destruct b; try done. intros [= Hp%parse_u64_range]. lia.
Qed.

(** Two components that never lead to the same child: a name and anything else, or an
    index and anything but that index. *)
Definition apart (p q : bytes) : Prop :=
  match bracket p with
  | None => q ≠ p
  | Some (Some i) => bracket q ≠ Some (Some i)
  | Some None => False
  end.

(** Two paths that part company at some component. *)
Inductive diverge : list bytes → list bytes → Prop :=
| diverge_here p ps q qs : apart p q → diverge (p :: ps) (q :: qs)
| diverge_later p ps qs : diverge ps qs → diverge (p :: ps) (p :: qs).

Lemma diverge_snoc l x qs : diverge (l ++ [x]) qs → diverge l qs ∨ ∃ q qs', qs = l ++ q :: qs' ∧ apart x q.
Proof.
  revert qs. induction l as [|p l IH]; intros qs Hd; simpl in Hd.
  - inversion Hd as [? ? q qs' Ha|? ? ? Hd']; subst; [right; by exists q, qs'|inversion Hd'].
  - inversion Hd as [? ? q qs' Ha|? ? qs' Hd']; subst; [left; by constructor|].
    destruct (IH _ Hd') as [?|(q & qs'' & -> & ?)]; [left; by constructor|right; by exists q, qs''].
Qed.

(** Another index of an array that is changed in one place. *)
Lemma child_insert idx x l other :
  0 <= idx → bracket other ≠ Some (Some idx) →
  fst <$> child other (JArray (<[Z.to_nat idx := x]> l)) = fst <$> child other (JArray l).
Proof.
  intros Hi Hne. unfold child. destruct (bracket other) as [[k|]|] eqn:Hb; [|done|done]. pose proof (bracket_nonneg _ _ Hb).
  rewrite list_lookup_insert_ne by (intros E%Z2Nat.inj; [congruence|lia|lia]). by destruct (l !! Z.to_nat k).
Qed.

(** What is put in the place of a child is found there, and another component leads where
    it did. *)
Lemma child_put part v w put x :
  child part v = Some (w, put) →
  (∃ put', child part (put x) = Some (x, put')) ∧
  ∀ other, apart part other → fst <$> child other (put x) = fst <$> child other v.
Proof.
  unfold child at 1, apart. destruct (bracket part) as [[idx|]|] eqn:Hb; [|done|].
  - pose proof (bracket_nonneg _ _ Hb) as Hnn. destruct v; try done. destruct (l !! Z.to_nat idx) as [u|] eqn:Hi; [|done]. simpl.
    intros [= <- <-]. split; [|intros other Hne; by apply child_insert].
    unfold child. rewrite Hb, list_lookup_insert_eq by (by eapply lookup_lt_Some). by eexists.
  - destruct v; try done. destruct (member_at part l) as [i|] eqn:Hm; [|done]. simpl.
    destruct (member_at_Some _ _ _ Hm) as [u Hi]. rewrite Hi. simpl. intros [= <- <-].
    assert (Hins : ∀ k, member_at k (<[i := (part, x)]> l) = member_at k l) by (intros k; by eapply member_at_insert).
    unfold child. split.
    + rewrite Hb, Hins, Hm. simpl. rewrite list_lookup_insert_eq by (by eapply lookup_lt_Some). by eexists.
    + intros other Hne. destruct (bracket other) as [[idx|]|]; [done|done|]. rewrite Hins.
      destruct (member_at other l) as [j|] eqn:Hj; [|done]. simpl. destruct (member_at_Some _ _ _ Hj) as [u' Hu'].
      assert (i ≠ j) by (intros ->; congruence). simpl. rewrite list_lookup_insert_ne by done. by rewrite Hu'.
Qed.

Lemma walk_app ps qs v :
  walk (ps ++ qs) v =
  match walk ps v with
  | Some (w, put) => match walk qs w with Some (x, put') => Some (x, λ y, put (put' y)) | None => None end
  | None => None
  end.
Proof.
  revert v. induction ps as [|p ps IH]; intros v; simpl.
  - by destruct (walk qs v) as [[x put]|].
  - destruct (child p v) as [[w put]|]; [|done]. simpl. rewrite IH. destruct (walk ps w) as [[x put']|]; [|done]. simpl.
    by destruct (walk qs x) as [[y put'']|].
Qed.

Lemma walk_put ps v w put x :
  walk ps v = Some (w, put) →
  (∃ put', walk ps (put x) = Some (x, put')) ∧
  ∀ qs, diverge ps qs → fst <$> walk qs (put x) = fst <$> walk qs v.
Proof.
  revert v w put x. induction ps as [|p ps IH]; intros v w put x; simpl.
  - intros [= -> <-]. split; [by eexists|]. intros qs Hd. inversion Hd.
  - destruct (child p v) as [[u put1]|] eqn:Hc; [|done]. simpl. destruct (walk ps u) as [[w' put2]|] eqn:Hw; [|done].
    simpl. intros [= -> <-]. destruct (IH _ _ _ x Hw) as [(put3 & Hput3) Hqs].
    destruct (child_put _ _ _ _ (put2 x) Hc) as [(put4 & Hc4) Hother]. split.
    + rewrite Hc4. simpl. rewrite Hput3. simpl. by eexists.
    + intros qs Hd. inversion Hd as [? ? q qs' Ha|? ? qs' Hd']; subst; simpl.
      * specialize (Hother q Ha).
        destruct (child q (put1 (put2 x))) as [[a puta]|], (child q v) as [[b putb]|]; try done. simpl in *.
        injection Hother as ->. by destruct (walk qs' b) as [[y puty]|].
      * rewrite Hc4, Hc. simpl. specialize (Hqs qs' Hd').
        destruct (walk qs' (put2 x)) as [[y puty]|], (walk qs' u) as [[z putz]|]; done.
Qed.

Lemma alter_is_insert {A} (f : A → A) (l : list A) (i : nat) x : l !! i = Some x → alter f i l = <[i := f x]> l.
Proof.
  intros Hi. apply list_eq. intros j. destruct (decide (i = j)) as [<-|].
  - by rewrite list_lookup_alter_eq, list_lookup_insert_eq, Hi by (by eapply lookup_lt_Some).
  - by rewrite list_lookup_alter_ne, list_lookup_insert_ne.
Qed.

Lemma set_last_spec last new v v' :
  set_last last new v = Some v' →
  (∃ put, child last v' = Some (new, put)) ∧
  ∀ other, apart last other → fst <$> child other v' = fst <$> child other v.
Proof.
  unfold set_last, apart. destruct (bracket last) as [[idx|]|] eqn:Hb; [|done|].
  - assert (0 <= idx) by (eapply bracket_nonneg; exact Hb). destruct v; try done. case (Z.ltb_spec idx (Z.of_nat (length l))) as [Hlt|]; [|done]. intros [= <-]. split; [|intros other Hne; by apply child_insert].
    unfold child. rewrite Hb, list_lookup_insert_eq by lia. by eexists.
  - unfold child. rewrite Hb. destruct v; try done. destruct (member_at last l) as [i|] eqn:Hm.
    + destruct (member_at_Some _ _ _ Hm) as [u Hi]. intros [= <-].
      rewrite (alter_is_insert (λ p, (p.1, new)) l i (last, u) Hi). simpl.
      assert (Hins : ∀ k, member_at k (<[i := (last, new)]> l) = member_at k l) by (intros k; by eapply member_at_insert).
      split.
      * rewrite Hins, Hm. simpl. rewrite list_lookup_insert_eq by (by eapply lookup_lt_Some). by eexists.
      * intros other Hne. destruct (bracket other) as [[idx|]|]; [done|done|]. rewrite Hins.
        destruct (member_at other l) as [j|] eqn:Hj; [|done]. simpl. destruct (member_at_Some _ _ _ Hj) as [u' Hu'].
        assert (i ≠ j) by (intros ->; congruence). simpl. rewrite list_lookup_insert_ne by done. by rewrite Hu'.
    + intros [= <-]. unfold member_at in *. apply fmap_None in Hm. split.
      * rewrite list_find_app_r by done. simpl. rewrite decide_True by done. simpl.
        rewrite list_lookup_middle by done. by eexists.
      * intros other Hne. destruct (bracket other) as [[idx|]|]; [done|done|].
        destruct (list_find (λ p, p.1 = other) l) as [[j p]|] eqn:Hj.
        { rewrite (list_find_app_l _ _ _ _ _ Hj). simpl. apply list_find_Some in Hj as (Hj & _).
          rewrite lookup_app_l by (by eapply lookup_lt_Some). by rewrite Hj. }
        rewrite list_find_app_r by done. simpl. by rewrite decide_False.
Qed.

Lemma last_parts (parts : list bytes) x : last parts = Some x → parts = removelast parts ++ [x].
Proof.
  intros Hl. apply last_Some in Hl as [l ->]. by rewrite removelast_last.
Qed.

(** A value that [set_path] puts at a path is what [get_path] finds there; and a path
    that diverges from it leads where it led before. *)
Lemma set_path_get path new v v' :
  set_path path new v = Some v' →
  get_path path v' = Some new ∧
  ∀ other ps qs, is_root path = false → is_root other = false → path_parts path = Some ps → path_parts other = Some qs →
    diverge ps qs → get_path other v' = get_path other v.
Proof.
  unfold set_path, get_path, get_path_mut. destruct (is_root path) eqn:Hroot; [intros [= ->]; by split|].
  destruct (path_parts path) as [parts|] eqn:Hparts; [|done]. simpl. destruct (last parts) as [x|] eqn:Hl; [|done]. simpl.
  destruct (walk (removelast parts) v) as [[parent put]|] eqn:Hw; [|done]. simpl.
  destruct (set_last x new parent) as [w|] eqn:Hs; [|done]. simpl. intros [= <-].
  destruct (set_last_spec _ _ _ _ Hs) as [(put1 & Hc) Hoth]. destruct (walk_put _ _ _ _ w Hw) as [(put2 & Hw2) Hoth2].
  pose proof (last_parts _ _ Hl) as Hp. split.
  - rewrite Hp, walk_app, Hw2. simpl. by rewrite Hc.
  - intros other ps qs _ -> [= <-] -> Hd. simpl. rewrite Hp in Hd.
    destruct (diverge_snoc _ _ _ Hd) as [Hd'|(q & qs' & -> & Ha)]; [by apply Hoth2|].
    rewrite !walk_app, Hw2, Hw. simpl. specialize (Hoth q Ha).
    destruct (child q w) as [[a puta]|], (child q parent) as [[b putb]|]; try done. simpl in *. injection Hoth as ->.
    by destruct (walk qs' b) as [[y puty]|].
Qed.

(** ** Documents in the store *)

#[local] Opaque parse_json set_path.

Section JsonStore.
Context {M : Type} `{KVMapLaws StoreValue M} (c : Clock).
Implicit Types (st : Store M) (key path : bytes).

Lemma json_get_one key path st raw doc :
  store_wf st → is_root path = false → live c key st = Some (VJson raw) → parse_json raw = Some doc →
  JsonOps.json_get c key [path] st = Ok (to_resp_string <$> get_path path doc).
Proof.
  intros Hw Hroot Hl Hp. unfold JsonOps.json_get. rewrite read_live_spec, Hl by done. simpl. by rewrite Hroot, Hp.
Qed.

(** The document under a key: an absent or expired key counts as an empty object. *)
Definition document key st (doc : JsonValue) : Prop :=
  match live c key st with
  | Some (VJson raw) => parse_json raw = Some doc
  | Some _ => False
  | None => doc = JObject []
  end.

(** What JSON.GET of one path below the root answers. *)
Lemma json_get_path key path st doc :
  store_wf st → is_root path = false → document key st doc → live c key st ≠ None →
  JsonOps.json_get c key [path] st = Ok (to_resp_string <$> get_path path doc).
Proof.
  unfold document. intros Hw Hroot Hd Hl. destruct (live c key st) as [[]|] eqn:E; try done. by eapply json_get_one.
Qed.

(** The update of JSON.SET below the root: in place, or a new document. *)
Lemma json_set_stores key path text st doc new doc' :
  store_wf st → is_root path = false → document key st doc → parse_json text = Some new → set_path path new doc = Some doc' →
  let '(st', r) := JsonOps.json_set c key path text false false st in
  store_wf st' ∧ r = Some (Ok true) ∧ live c key st' = Some (VJson (write_json doc')) ∧
  (∀ k', k' ≠ key → db st' !! k' = db st !! k').
Proof.
  intros Hw Hroot Hdoc Htext Hset. unfold JsonOps.json_set. rewrite Hroot, Htext. cbv zeta.
  match goal with |- context [update_with key ?g st] => set (f := g) end.
  destruct (update_with_spec key f st Hw) as (Hw' & Hd & _ & Hr). destruct (update_with key f st) as [st' r]. simpl in Hw', Hd, Hr.
  unfold upd in Hd. unfold document, live in Hdoc.
  assert (Hlive : ∀ s v, db s !! key = Some (mkValue (VJson (write_json doc')) v) → v = 0 ∨ is_expired c (mkValue (VJson (write_json doc')) v) = false →
    live c key s = Some (VJson (write_json doc'))).
  { intros s v Hs Hv. apply live_Some. eexists. split; [exact Hs|]. split; [|done]. destruct Hv as [->|Hv]; [done|exact Hv]. }
  destruct (db st !! key) as [e|] eqn:E; simpl in Hr, Hdoc; subst r.
  - unfold f in Hd |- *. destruct (is_expired c e) eqn:Ex.
    + subst doc. rewrite Hset in *. cbn [fst snd] in *. split_and!; [done|done| |].
      * apply (Hlive st' 0); [by rewrite Hd, lookup_insert_eq|by left].
      * intros k' Hne. rewrite Hd. by apply lookup_insert_ne.
    + destruct (value e) as [| | | | |raw|] eqn:Ev; try done. simpl in Hd |- *. rewrite Hdoc in *. simpl in Hd |- *. rewrite Hset in *.
      cbn [fst snd] in *. split_and!; [done|done| |].
      * apply (Hlive st' (expires_ms e)); [by rewrite Hd, lookup_insert_eq|by right].
      * intros k' Hne. rewrite Hd. by apply lookup_insert_ne.
  - subst doc. rewrite Hset. destruct (put_spec key (StoreValue_json doc') st' Hw') as (Hw2 & Hd2 & _).
    split_and!; [done|done| |].
    + apply (Hlive _ 0); [by rewrite Hd2, lookup_insert_eq|by left].
    + intros k' Hne. rewrite Hd2, lookup_insert_ne by done. by rewrite Hd.
Qed.

(** C30: JSON.SET below the root.  Take a key that holds a document, or none (absent or
    expired), a text that parses to [new], and a path at which the document can be
    set, giving [doc'], whose numbers are finite.  The command answers true; the
    key holds the text of [doc']; no other key is touched; and JSON.GET of any path
    answers what [doc'] has there as it reads back ([reread_json]: strings with an
    escape that are not ASCII are mangled, wherever in the document they are, and
    minus zero loses its sign).  When [doc'] has neither, JSON.GET of the path
    answers [new], and JSON.GET of every path that diverges from it, at whatever
    depth, answers what it did before. *)
Theorem json_set_get key path text st doc new doc' :
  store_wf st → is_root path = false → document key st doc →
  parse_json text = Some new → set_path path new doc = Some doc' → finite_numbers doc' = true →
  let '(st', r) := JsonOps.json_set c key path text false false st in
  r = Some (Ok true) ∧ live c key st' = Some (VJson (write_json doc')) ∧
  (∀ k', k' ≠ key → db st' !! k' = db st !! k') ∧
  (∀ p, is_root p = false → JsonOps.json_get c key [p] st' = Ok (to_resp_string <$> get_path p (reread_json doc'))) ∧
  (json_plain doc' = true →
   JsonOps.json_get c key [path] st' = Ok (Some (to_resp_string new)) ∧
   ∀ other ps qs, is_root other = false → path_parts path = Some ps → path_parts other = Some qs → diverge ps qs →
     JsonOps.json_get c key [other] st' = Ok (to_resp_string <$> get_path other doc) ∧
     (live c key st ≠ None → JsonOps.json_get c key [other] st' = JsonOps.json_get c key [other] st)).
Proof.
  intros Hw Hroot Hdoc Htext Hset Hn. pose proof (json_set_stores key path text st doc new doc' Hw Hroot Hdoc Htext Hset) as Hs.
  destruct (JsonOps.json_set c key path text false false st) as [st' r]. destruct Hs as (Hw' & -> & Hl & Hk).
  destruct (set_path_get _ _ _ _ Hset) as [Hget Hother].
  assert (Hall : ∀ p, is_root p = false → JsonOps.json_get c key [p] st' = Ok (to_resp_string <$> get_path p (reread_json doc'))).
  { intros p Hp. eapply json_get_one; [done|done|exact Hl|]. by apply parse_written, finite_numbers_ok. }
  split_and!; [done|done|done|exact Hall|]. intros Ha. rewrite reread_json_plain in Hall by done.
  split; [by rewrite Hall, Hget|]. intros other ps qs Ho Hpp Hpo Hd.
  rewrite Hall, (Hother other ps qs) by done. split; [done|]. intros Hne. by rewrite (json_get_path key other st doc).
Qed.

(** A command that reads a part of a document whose text does not parse aborts. *)
Lemma json_read_aborts {R} key path (absent : R) f st raw :
  store_wf st → live c key st = Some (VJson raw) → parse_json raw = None → json_read c key path absent f st = None.
Proof. intros Hw Hl Hp. unfold json_read. rewrite read_live_spec, Hl by done. simpl. by rewrite Hp. Qed.

Lemma json_update_aborts {R} key (absent : result R) f st raw :
  store_wf st → live c key st = Some (VJson raw) → parse_json raw = None → (json_update c key absent f st).2 = None.
Proof.
  intros Hw (e & Hd & He & Hv)%live_Some Hp. unfold json_update.
  match goal with |- context [update_with key ?g st] =>
    destruct (update_with_spec key g st Hw) as (_ & _ & _ & Hr); destruct (update_with key g st) as [st' r] end.
  simpl in *. subst r. rewrite Hd. simpl. rewrite He, Hv. simpl. by rewrite Hp.
Qed.

(** JSON.SET at the root stores any bytes as a document, without parsing them, and
    answers OK; JSON.GET answers those bytes; and the next command that looks into the
    document, JSON.TYPE or JSON.SET of a member for example, aborts the server. *)
Theorem json_set_unchecked_aborts cmd key path text st out :
  store_wf st → is_root path = true → parse_json text = None →
  ∃ st', run (CmdJson.json_set c [cmd; key; path; text]) st out = Some (st', write_ok out) ∧
    live c key st' = Some (VJson text) ∧ JsonOps.json_get c key [] st' = Ok (Some text) ∧
    run (CmdJson.json_type c [cmd; key]) st' out = None ∧
    run (CmdJson.json_clear c [cmd; key]) st' out = None ∧
    ∀ member v, is_root member = false → is_Some (parse_json v) → run (CmdJson.json_set c [cmd; key; member; v]) st' out = None.
Proof.
  intros Hw Hroot Hp. destruct (put_spec key (StoreValue_json_raw text) st Hw) as (Hw' & Hdb & _).
  assert (Hl : live c key (put key (StoreValue_json_raw text) st) = Some (VJson text)).
  { apply live_Some. exists (StoreValue_json_raw text). by rewrite Hdb, lookup_insert_eq. }
  exists (put key (StoreValue_json_raw text) st). unfold run, CmdJson.json_set, CmdJson.json_type, CmdJson.json_clear.
  cbn [json_set_options key_path]. unfold mbind, handler_bind, mret, handler_ret, look, call. split_and!.
  - unfold JsonOps.json_set. by rewrite Hroot.
  - done.
  - unfold JsonOps.json_get. by rewrite read_live_spec, Hl.
  - unfold JsonOps.json_type. by rewrite (json_read_aborts key _ _ _ _ text).
  - unfold JsonOps.json_clear. match goal with |- context [json_update c key ?a ?f ?s] =>
      pose proof (json_update_aborts key a f s text Hw' Hl Hp) as Hu; destruct (json_update c key a f s) as [st' r] end.
    simpl in Hu. by subst r.
  - intros member v Hm [new Hnew]. unfold JsonOps.json_set. rewrite Hm, Hnew. apply live_Some in Hl as (e & Hd & He & Hv).
    match goal with |- context [update_with key ?g ?s] =>
      destruct (update_with_spec key g s Hw') as (_ & _ & _ & Hr); destruct (update_with key g s) as [st' r] end.
    simpl in Hr. subst r. rewrite Hd. simpl. rewrite He, Hv. simpl. by rewrite Hp.
Qed.
End JsonStore.

(** A number that is not finite is printed as a text that does not parse: after
    JSON.NUMMULTBY has overflowed, the commands above abort too. *)
Lemma infinite_unreadable s : parse_json (write_json (JNumber (S754_infinity s))) = None.
Proof. by destruct s; vm_compute. Qed.

(** ** A document *)

#[local] Transparent parse_json set_path.

Definition demo_now : Clock := mkClock 5000 0.
Definition demo_json : JsonValue :=
  JObject [(B "a", JNumber (f64_of_Z 1)); (B "b", JArray [JBool true; JObject [(B "c", JString (B "x"))]])].
Definition demo_json' : JsonValue :=
  JObject [(B "a", JNumber (f64_of_Z 1)); (B "b", JArray [JBool true; JObject [(B "c", JString (B "x")); (B "d", JNull)]])].
Definition demo_documents : Store (LimitMap StoreValue) :=
  mkStore (mkLimitMap {[B "doc" := mkValue (VJson (write_json demo_json)) 0]} 100) 0 0 0.
Lemma demo_documents_wf : store_wf demo_documents.
Proof. exact I. Qed.

(** The path set and one that shares its first component. *)
Lemma json_set_get_witness :
  let '(st', r) := JsonOps.json_set demo_now (B "doc") (B "$.b.[1].d") (B "null") false false demo_documents in
  r = Some (Ok true) ∧ live demo_now (B "doc") st' = Some (VJson (write_json demo_json')) ∧
  JsonOps.json_get demo_now (B "doc") [B "$.b.[1].d"] st' = Ok (Some (B "null")) ∧
  JsonOps.json_get demo_now (B "doc") [B ".b.[0]"] st' = Ok (Some (B "true")).
Proof.
  pose proof (json_set_get demo_now (B "doc") (B "$.b.[1].d") (B "null") demo_documents demo_json JNull demo_json'
    demo_documents_wf eq_refl ltac:(vm_compute; reflexivity) ltac:(vm_compute; reflexivity)
    ltac:(vm_compute; reflexivity) ltac:(vm_compute; reflexivity)) as Hs.
  destruct (JsonOps.json_set _ _ _ _ _ _ _) as [st' r]. destruct Hs as (Hr & Hl & _ & _ & Hplain).
  split; [exact Hr|]. split; [exact Hl|]. destruct Hplain as [Hg Hf]; [vm_compute; reflexivity|]. split; [exact Hg|].
  destruct (Hf (B ".b.[0]") [B "b"; B "[1]"; B "d"] [B "b"; B "[0]"] eq_refl eq_refl eq_refl) as [Ho _].
  - apply diverge_later, diverge_here. vm_compute. discriminate.
  - rewrite Ho. vm_compute. reflexivity.
Defined.

Lemma json_set_unchecked_aborts_witness : ∃ st',
  run (CmdJson.json_set demo_now [B "JSON.SET"; B "k"; B "$"; B "{oops"]) demo_documents [] = Some (st', write_ok []) ∧
  run (CmdJson.json_type demo_now [B "JSON.SET"; B "k"]) st' [] = None.
Proof.
  destruct (json_set_unchecked_aborts demo_now (B "JSON.SET") (B "k") (B "$") (B "{oops") demo_documents [] demo_documents_wf eq_refl
    ltac:(vm_compute; reflexivity)) as (st' & Hs & _ & _ & Ht & _). exists st'. split; [exact Hs|exact Ht].
Defined.
