(* ===== verification/CmdTable.v ===== *)
(** The command table: [ComdType] and [execute] of commends/mod.rs, with
    [from_bytes] of macros/string_enum.rs. *)

From S2P Require Import Prelude Decimal MapIface CustomMap CustomMapSpec Resp Collections Value Store Handler.
From S2P Require Import CmdString CmdKeys CmdList CmdHash CmdSet CmdZSet CmdServer CmdBitmap CmdStream CmdJson CmdGeo.
Local Open Scope Z_scope.

Inductive ComdType :=
  | Exec | PING | ECHO | INFO | FLUSH | DBSIZE | TYPE | BGSAVE | SAVE | LASTSAVE | TIME | COMMAND | QUIT
  | HELLO | SELECT | FLUSHALL | FLUSHDB | AUTH | RESET | CLIENT | CONFIG | SLOWLOG | ACL | OBJECT | SORT
  | GET | SET | SETNX | SETEX | PSETEX | GETDEL | GETSET | GETEX | MSET | MSETNX | MGET | INCR | DECR
  | INCRBY | DECRBY | INCRBYFLOAT | APPEND | STRLEN | GETRANGE | SETRANGE | SUBSTR | LCS | DEL | UNLINK
  | EXISTS | TTL | PTTL | EXPIRE | PEXPIRE | EXPIREAT | EXPIRETIME | PEXPIRETIME | PERSIST | RENAME
  | RENAMENX | COPY | RANDOMKEY | KEYS | SCAN | TOUCH | HSET | HSETNX | HGET | HMGET | HMSET | HGETALL | HDEL
  | HEXISTS | HLEN | HKEYS | HVALS | HINCRBY | HINCRBYFLOAT | HRANDFIELD | HSCAN | LPUSH | RPUSH | LPOP
  | RPOP | LLEN | LINDEX | LSET | LRANGE | LTRIM | LREM | LINSERT | LPOS | LMOVE | RPOPLPUSH | BLPOP | BRPOP
  | BLMOVE | SADD | SREM | SISMEMBER | SMISMEMBER | SMEMBERS | SCARD | SPOP | SRANDMEMBER | SMOVE | SUNION
  | SINTER | SDIFF | SUNIONSTORE | SINTERSTORE | SDIFFSTORE | SINTERCARD | SSCAN | ZADD | ZREM | ZSCORE
  | ZMSCORE | ZRANK | ZREVRANK | ZCARD | ZCOUNT | ZLEXCOUNT | ZINCRBY | ZRANGE | ZREVRANGE | ZRANGEBYSCORE
  | ZREVRANGEBYSCORE | ZRANGEBYLEX | ZRANGESTORE | ZPOPMIN | ZPOPMAX | BZPOPMIN | BZPOPMAX | ZUNION | ZINTER
  | ZDIFF | ZUNIONSTORE | ZINTERSTORE | ZDIFFSTORE | ZRANDMEMBER | ZSCAN | SETBIT | GETBIT | BITCOUNT
  | BITPOS | BITOP | BITFIELD | PFADD | PFCOUNT | PFMERGE | JSONSET | JSONGET | JSONDEL | JSONFORGET
  | JSONTYPE | JSONNUMINCRBY | JSONNUMMULTBY | JSONSTRAPPEND | JSONSTRLEN | JSONARRAPPEND | JSONARRINDEX
  | JSONARRINSERT | JSONARRLEN | JSONARRPOP | JSONARRTRIM | JSONOBJKEYS | JSONOBJLEN | JSONTOGGLE | JSONCLEAR
  | JSONMGET | JSONRESP | GEOADD | GEOPOS | GEODIST | GEOHASH | GEOSEARCH | GEOSEARCHSTORE | XADD | XLEN
  | XRANGE | XREVRANGE | XREAD | XTRIM | XDEL | XGROUP | XACK | XINFO | MULTI | DISCARD | WATCH | UNWATCH.

#[global] Instance ComdType_eq_dec : EqDecision ComdType.
Proof. solve_decision. Defined.

Definition as_str (c : ComdType) : bytes :=
  match c with
  | Exec => B "EXEC"
  | PING => B "PING"
  | ECHO => B "ECHO"
  | INFO => B "INFO"
  | FLUSH => B "FLUSH"
  | DBSIZE => B "DBSIZE"
  | TYPE => B "TYPE"
  | BGSAVE => B "BGSAVE"
  | SAVE => B "SAVE"
  | LASTSAVE => B "LASTSAVE"
  | TIME => B "TIME"
  | COMMAND => B "COMMAND"
  | QUIT => B "QUIT"
  | HELLO => B "HELLO"
  | SELECT => B "SELECT"
  | FLUSHALL => B "FLUSHALL"
  | FLUSHDB => B "FLUSHDB"
  | AUTH => B "AUTH"
  | RESET => B "RESET"
  | CLIENT => B "CLIENT"
  | CONFIG => B "CONFIG"
  | SLOWLOG => B "SLOWLOG"
  | ACL => B "ACL"
  | OBJECT => B "OBJECT"
  | SORT => B "SORT"
  | GET => B "GET"
  | SET => B "SET"
  | SETNX => B "SETNX"
  | SETEX => B "SETEX"
  | PSETEX => B "PSETEX"
  | GETDEL => B "GETDEL"
  | GETSET => B "GETSET"
  | GETEX => B "GETEX"
  | MSET => B "MSET"
  | MSETNX => B "MSETNX"
  | MGET => B "MGET"
  | INCR => B "INCR"
  | DECR => B "DECR"
  | INCRBY => B "INCRBY"
  | DECRBY => B "DECRBY"
  | INCRBYFLOAT => B "INCRBYFLOAT"
  | APPEND => B "APPEND"
  | STRLEN => B "STRLEN"
  | GETRANGE => B "GETRANGE"
  | SETRANGE => B "SETRANGE"
  | SUBSTR => B "SUBSTR"
  | LCS => B "LCS"
  | DEL => B "DEL"
  | UNLINK => B "UNLINK"
  | EXISTS => B "EXISTS"
  | TTL => B "TTL"
  | PTTL => B "PTTL"
  | EXPIRE => B "EXPIRE"
  | PEXPIRE => B "PEXPIRE"
  | EXPIREAT => B "EXPIREAT"
  | EXPIRETIME => B "EXPIRETIME"
  | PEXPIRETIME => B "PEXPIRETIME"
  | PERSIST => B "PERSIST"
  | RENAME => B "RENAME"
  | RENAMENX => B "RENAMENX"
  | COPY => B "COPY"
  | RANDOMKEY => B "RANDOMKEY"
  | KEYS => B "KEYS"
  | SCAN => B "SCAN"
  | TOUCH => B "TOUCH"
  | HSET => B "HSET"
  | HSETNX => B "HSETNX"
  | HGET => B "HGET"
  | HMGET => B "HMGET"
  | HMSET => B "HMSET"
  | HGETALL => B "HGETALL"
  | HDEL => B "HDEL"
  | HEXISTS => B "HEXISTS"
  | HLEN => B "HLEN"
  | HKEYS => B "HKEYS"
  | HVALS => B "HVALS"
  | HINCRBY => B "HINCRBY"
  | HINCRBYFLOAT => B "HINCRBYFLOAT"
  | HRANDFIELD => B "HRANDFIELD"
  | HSCAN => B "HSCAN"
  | LPUSH => B "LPUSH"
  | RPUSH => B "RPUSH"
  | LPOP => B "LPOP"
  | RPOP => B "RPOP"
  | LLEN => B "LLEN"
  | LINDEX => B "LINDEX"
  | LSET => B "LSET"
  | LRANGE => B "LRANGE"
  | LTRIM => B "LTRIM"
  | LREM => B "LREM"
  | LINSERT => B "LINSERT"
  | LPOS => B "LPOS"
  | LMOVE => B "LMOVE"
  | RPOPLPUSH => B "RPOPLPUSH"
  | BLPOP => B "BLPOP"
  | BRPOP => B "BRPOP"
  | BLMOVE => B "BLMOVE"
  | SADD => B "SADD"
  | SREM => B "SREM"
  | SISMEMBER => B "SISMEMBER"
  | SMISMEMBER => B "SMISMEMBER"
  | SMEMBERS => B "SMEMBERS"
  | SCARD => B "SCARD"
  | SPOP => B "SPOP"
  | SRANDMEMBER => B "SRANDMEMBER"
  | SMOVE => B "SMOVE"
  | SUNION => B "SUNION"
  | SINTER => B "SINTER"
  | SDIFF => B "SDIFF"
  | SUNIONSTORE => B "SUNIONSTORE"
  | SINTERSTORE => B "SINTERSTORE"
  | SDIFFSTORE => B "SDIFFSTORE"
  | SINTERCARD => B "SINTERCARD"
  | SSCAN => B "SSCAN"
  | ZADD => B "ZADD"
  | ZREM => B "ZREM"
  | ZSCORE => B "ZSCORE"
  | ZMSCORE => B "ZMSCORE"
  | ZRANK => B "ZRANK"
  | ZREVRANK => B "ZREVRANK"
  | ZCARD => B "ZCARD"
  | ZCOUNT => B "ZCOUNT"
  | ZLEXCOUNT => B "ZLEXCOUNT"
  | ZINCRBY => B "ZINCRBY"
  | ZRANGE => B "ZRANGE"
  | ZREVRANGE => B "ZREVRANGE"
  | ZRANGEBYSCORE => B "ZRANGEBYSCORE"
  | ZREVRANGEBYSCORE => B "ZREVRANGEBYSCORE"
  | ZRANGEBYLEX => B "ZRANGEBYLEX"
  | ZRANGESTORE => B "ZRANGESTORE"
  | ZPOPMIN => B "ZPOPMIN"
  | ZPOPMAX => B "ZPOPMAX"
  | BZPOPMIN => B "BZPOPMIN"
  | BZPOPMAX => B "BZPOPMAX"
  | ZUNION => B "ZUNION"
  | ZINTER => B "ZINTER"
  | ZDIFF => B "ZDIFF"
  | ZUNIONSTORE => B "ZUNIONSTORE"
  | ZINTERSTORE => B "ZINTERSTORE"
  | ZDIFFSTORE => B "ZDIFFSTORE"
  | ZRANDMEMBER => B "ZRANDMEMBER"
  | ZSCAN => B "ZSCAN"
  | SETBIT => B "SETBIT"
  | GETBIT => B "GETBIT"
  | BITCOUNT => B "BITCOUNT"
  | BITPOS => B "BITPOS"
  | BITOP => B "BITOP"
  | BITFIELD => B "BITFIELD"
  | PFADD => B "PFADD"
  | PFCOUNT => B "PFCOUNT"
  | PFMERGE => B "PFMERGE"
  | JSONSET => B "JSON.SET"
  | JSONGET => B "JSON.GET"
  | JSONDEL => B "JSON.DEL"
  | JSONFORGET => B "JSON.FORGET"
  | JSONTYPE => B "JSON.TYPE"
  | JSONNUMINCRBY => B "JSON.NUMINCRBY"
  | JSONNUMMULTBY => B "JSON.NUMMULTBY"
  | JSONSTRAPPEND => B "JSON.STRAPPEND"
  | JSONSTRLEN => B "JSON.STRLEN"
  | JSONARRAPPEND => B "JSON.ARRAPPEND"
  | JSONARRINDEX => B "JSON.ARRINDEX"
  | JSONARRINSERT => B "JSON.ARRINSERT"
  | JSONARRLEN => B "JSON.ARRLEN"
  | JSONARRPOP => B "JSON.ARRPOP"
  | JSONARRTRIM => B "JSON.ARRTRIM"
  | JSONOBJKEYS => B "JSON.OBJKEYS"
  | JSONOBJLEN => B "JSON.OBJLEN"
  | JSONTOGGLE => B "JSON.TOGGLE"
  | JSONCLEAR => B "JSON.CLEAR"
  | JSONMGET => B "JSON.MGET"
  | JSONRESP => B "JSON.RESP"
  | GEOADD => B "GEOADD"
  | GEOPOS => B "GEOPOS"
  | GEODIST => B "GEODIST"
  | GEOHASH => B "GEOHASH"
  | GEOSEARCH => B "GEOSEARCH"
  | GEOSEARCHSTORE => B "GEOSEARCHSTORE"
  | XADD => B "XADD"
  | XLEN => B "XLEN"
  | XRANGE => B "XRANGE"
  | XREVRANGE => B "XREVRANGE"
  | XREAD => B "XREAD"
  | XTRIM => B "XTRIM"
  | XDEL => B "XDEL"
  | XGROUP => B "XGROUP"
  | XACK => B "XACK"
  | XINFO => B "XINFO"
  | MULTI => B "MULTI"
  | DISCARD => B "DISCARD"
  | WATCH => B "WATCH"
  | UNWATCH => B "UNWATCH"
  end.

(** The entries of the hash map, in the order of the enumeration. *)
Definition commands : list ComdType :=
  [Exec; PING; ECHO; INFO; FLUSH; DBSIZE; TYPE; BGSAVE; SAVE; LASTSAVE; TIME; COMMAND; QUIT; HELLO; SELECT;
   FLUSHALL; FLUSHDB; AUTH; RESET; CLIENT; CONFIG; SLOWLOG; ACL; OBJECT; SORT; GET; SET; SETNX; SETEX;
   PSETEX; GETDEL; GETSET; GETEX; MSET; MSETNX; MGET; INCR; DECR; INCRBY; DECRBY; INCRBYFLOAT; APPEND;
   STRLEN; GETRANGE; SETRANGE; SUBSTR; LCS; DEL; UNLINK; EXISTS; TTL; PTTL; EXPIRE; PEXPIRE; EXPIREAT;
   EXPIRETIME; PEXPIRETIME; PERSIST; RENAME; RENAMENX; COPY; RANDOMKEY; KEYS; SCAN; TOUCH; HSET; HSETNX;
   HGET; HMGET; HMSET; HGETALL; HDEL; HEXISTS; HLEN; HKEYS; HVALS; HINCRBY; HINCRBYFLOAT; HRANDFIELD;
   HSCAN; LPUSH; RPUSH; LPOP; RPOP; LLEN; LINDEX; LSET; LRANGE; LTRIM; LREM; LINSERT; LPOS; LMOVE;
   RPOPLPUSH; BLPOP; BRPOP; BLMOVE; SADD; SREM; SISMEMBER; SMISMEMBER; SMEMBERS; SCARD; SPOP; SRANDMEMBER;
   SMOVE; SUNION; SINTER; SDIFF; SUNIONSTORE; SINTERSTORE; SDIFFSTORE; SINTERCARD; SSCAN; ZADD; ZREM;
   ZSCORE; ZMSCORE; ZRANK; ZREVRANK; ZCARD; ZCOUNT; ZLEXCOUNT; ZINCRBY; ZRANGE; ZREVRANGE; ZRANGEBYSCORE;
   ZREVRANGEBYSCORE; ZRANGEBYLEX; ZRANGESTORE; ZPOPMIN; ZPOPMAX; BZPOPMIN; BZPOPMAX; ZUNION; ZINTER; ZDIFF;
   ZUNIONSTORE; ZINTERSTORE; ZDIFFSTORE; ZRANDMEMBER; ZSCAN; SETBIT; GETBIT; BITCOUNT; BITPOS; BITOP;
   BITFIELD; PFADD; PFCOUNT; PFMERGE; JSONSET; JSONGET; JSONDEL; JSONFORGET; JSONTYPE; JSONNUMINCRBY;
   JSONNUMMULTBY; JSONSTRAPPEND; JSONSTRLEN; JSONARRAPPEND; JSONARRINDEX; JSONARRINSERT; JSONARRLEN;
   JSONARRPOP; JSONARRTRIM; JSONOBJKEYS; JSONOBJLEN; JSONTOGGLE; JSONCLEAR; JSONMGET; JSONRESP; GEOADD;
   GEOPOS; GEODIST; GEOHASH; GEOSEARCH; GEOSEARCHSTORE; XADD; XLEN; XRANGE; XREVRANGE; XREAD; XTRIM; XDEL;
   XGROUP; XACK; XINFO; MULTI; DISCARD; WATCH; UNWATCH].

(** Names of more than 32 bytes, and names the map does not hold, are the default. *)
Definition from_bytes (value : bytes) : ComdType :=
  if (32 <? length value)%nat then Exec
  else
    let upper := ascii_uppercase value in
    default Exec (List.find (λ c, bool_decide (as_str c = upper)) commands).

Section Execute.
Context (hash_one : bytes → Z) `{HashOrder} (c : Clock) (env : Env).
#[local] Instance table_kv : KVMap StoreValue (CustomMap StoreValue) := custom_kv hash_one.

(** [execute] of a command by its parts. *)
Definition handler_of (cmd : ComdType) (parts : list bytes) : Handler (CustomMap StoreValue) unit :=
  match cmd with
  | PING => CmdServer.ping parts
  | ECHO => CmdServer.echo parts
  | INFO => CmdServer.info env
  | FLUSH => CmdServer.flush
  | DBSIZE => CmdServer.dbsize
  | TYPE => CmdServer.type_of c parts
  | BGSAVE => CmdServer.bgsave env
  | SAVE => CmdServer.save env
  | LASTSAVE => CmdServer.lastsave env
  | TIME => CmdServer.time env
  | COMMAND => CmdServer.command_cmd parts
  | QUIT => CmdServer.quit
  | HELLO => CmdServer.hello parts
  | SELECT => CmdServer.select parts
  | FLUSHALL => CmdServer.flushall
  | FLUSHDB => CmdServer.flushdb
  | AUTH => CmdServer.auth
  | RESET => CmdServer.reset
  | CLIENT => CmdServer.client_cmd parts
  | CONFIG => CmdServer.config_cmd parts
  | SLOWLOG => CmdServer.slowlog_cmd parts
  | ACL => CmdServer.acl_cmd parts
  | OBJECT => CmdServer.object_cmd c parts
  | SORT => CmdServer.sort_cmd c env parts
  | GET => CmdString.get c parts
  | SET => CmdString.set c parts
  | SETNX => CmdString.setnx c parts
  | SETEX => CmdString.setex c parts
  | PSETEX => CmdString.psetex c parts
  | GETDEL => CmdString.getdel c parts
  | GETSET => CmdString.getset c parts
  | GETEX => CmdString.getex c parts
  | MSET => CmdString.mset parts
  | MSETNX => CmdString.msetnx parts
  | MGET => CmdString.mget c parts
  | INCR => CmdString.incr parts
  | DECR => CmdString.decr parts
  | INCRBY => CmdString.incrby parts
  | DECRBY => CmdString.decrby parts
  | INCRBYFLOAT => CmdString.incrbyfloat parts
  | APPEND => CmdString.append c parts
  | STRLEN => CmdString.strlen c parts
  | GETRANGE => CmdString.getrange c parts
  | SETRANGE => CmdString.setrange parts
  | SUBSTR => CmdString.substr c parts
  | LCS => CmdString.lcs c parts
  | DEL => CmdKeys.del parts
  | UNLINK => CmdKeys.unlink parts
  | EXISTS => CmdKeys.exists_check c parts
  | TTL => CmdKeys.ttl_check c parts
  | PTTL => CmdKeys.pttl_check c parts
  | EXPIRE => CmdKeys.expire c parts
  | PEXPIRE => CmdKeys.pexpire c parts
  | EXPIREAT => CmdKeys.expireat c parts
  | EXPIRETIME => CmdKeys.expiretime c parts
  | PEXPIRETIME => CmdKeys.pexpiretime c parts
  | PERSIST => CmdKeys.persist c parts
  | RENAME => CmdKeys.rename c parts
  | RENAMENX => CmdKeys.renamenx c parts
  | COPY => CmdKeys.copy c parts
  | RANDOMKEY => CmdServer.randomkey c env
  | KEYS => CmdKeys.keys c parts
  | SCAN => CmdServer.scan c parts
  | TOUCH => CmdKeys.touch c parts
  | HSET => CmdHash.hset c parts
  | HSETNX => CmdHash.hsetnx c parts
  | HGET => CmdHash.hget c parts
  | HMGET => CmdHash.hmget c parts
  | HMSET => CmdHash.hmset c parts
  | HGETALL => CmdHash.hgetall c parts
  | HDEL => CmdHash.hdel c parts
  | HEXISTS => CmdHash.hexists c parts
  | HLEN => CmdHash.hlen c parts
  | HKEYS => CmdHash.hkeys c parts
  | HVALS => CmdHash.hvals c parts
  | HINCRBY => CmdHash.hincrby c parts
  | HINCRBYFLOAT => CmdHash.hincrbyfloat c parts
  | HRANDFIELD => CmdHash.hrandfield c parts
  | HSCAN => CmdHash.hscan c parts
  | LPUSH => CmdList.lpush c parts
  | RPUSH => CmdList.rpush c parts
  | LPOP => CmdList.lpop c parts
  | RPOP => CmdList.rpop c parts
  | LLEN => CmdList.llen c parts
  | LINDEX => CmdList.lindex c parts
  | LSET => CmdList.lset c parts
  | LRANGE => CmdList.lrange c parts
  | LTRIM => CmdList.ltrim c parts
  | LREM => CmdList.lrem c parts
  | LINSERT => CmdList.linsert c parts
  | LPOS => CmdList.lpos c parts
  | LMOVE => CmdList.lmove c parts
  | RPOPLPUSH => CmdList.rpoplpush c parts
  | BLPOP => CmdList.blpop c parts
  | BRPOP => CmdList.brpop c parts
  | BLMOVE => CmdList.blmove c parts
  | SADD => CmdSet.sadd c parts
  | SREM => CmdSet.srem c parts
  | SISMEMBER => CmdSet.sismember c parts
  | SMISMEMBER => CmdSet.smismember c parts
  | SMEMBERS => CmdSet.smembers c parts
  | SCARD => CmdSet.scard c parts
  | SPOP => CmdSet.spop c parts
  | SRANDMEMBER => CmdSet.srandmember c parts
  | SMOVE => CmdSet.smove c parts
  | SUNION => CmdSet.sunion c parts
  | SINTER => CmdSet.sinter c parts
  | SDIFF => CmdSet.sdiff c parts
  | SUNIONSTORE => CmdSet.sunionstore c parts
  | SINTERSTORE => CmdSet.sinterstore c parts
  | SDIFFSTORE => CmdSet.sdiffstore c parts
  | SINTERCARD => CmdSet.sintercard c parts
  | SSCAN => CmdSet.sscan c parts
  | ZADD => CmdZSet.zadd c parts
  | ZREM => CmdZSet.zrem c parts
  | ZSCORE => CmdZSet.zscore c parts
  | ZMSCORE => CmdZSet.zmscore c parts
  | ZRANK => CmdZSet.zrank c parts
  | ZREVRANK => CmdZSet.zrevrank c parts
  | ZCARD => CmdZSet.zcard c parts
  | ZCOUNT => CmdZSet.zcount c parts
  | ZLEXCOUNT => CmdZSet.zlexcount c parts
  | ZINCRBY => CmdZSet.zincrby c parts
  | ZRANGE => CmdZSet.zrange c parts
  | ZREVRANGE => CmdZSet.zrevrange c parts
  | ZRANGEBYSCORE => CmdZSet.zrangebyscore c parts
  | ZREVRANGEBYSCORE => CmdZSet.zrevrangebyscore c parts
  | ZRANGEBYLEX => CmdZSet.zrangebylex c parts
  | ZRANGESTORE => CmdZSet.zrangestore c parts
  | ZPOPMIN => CmdZSet.zpopmin c parts
  | ZPOPMAX => CmdZSet.zpopmax c parts
  | BZPOPMIN => CmdZSet.bzpopmin c parts
  | BZPOPMAX => CmdZSet.bzpopmax c parts
  | ZUNION => CmdZSet.zunion c parts
  | ZINTER => CmdZSet.zinter c parts
  | ZDIFF => CmdZSet.zdiff c parts
  | ZUNIONSTORE => CmdZSet.zunionstore c parts
  | ZINTERSTORE => CmdZSet.zinterstore c parts
  | ZDIFFSTORE => CmdZSet.zdiffstore c parts
  | ZRANDMEMBER => CmdZSet.zrandmember c (draw_fuel env) parts
  | ZSCAN => CmdZSet.zscan c parts
  | MULTI => CmdServer.multi
  | DISCARD => CmdServer.discard
  | WATCH => CmdServer.watch
  | UNWATCH => CmdServer.unwatch
  | SETBIT => CmdBitmap.setbit c parts
  | GETBIT => CmdBitmap.getbit c parts
  | BITCOUNT => CmdBitmap.bitcount c parts
  | BITPOS => CmdBitmap.bitpos c parts
  | BITOP => CmdBitmap.bitop c parts
  | BITFIELD => CmdBitmap.bitfield c parts
  | PFADD => CmdGeo.pfadd c parts
  | PFCOUNT => CmdGeo.pfcount c (libm_ln env) parts
  | PFMERGE => CmdGeo.pfmerge c parts
  | JSONSET => CmdJson.json_set c parts
  | JSONGET => CmdJson.json_get c parts
  | JSONDEL => CmdJson.json_del c parts
  | JSONFORGET => CmdJson.json_forget c parts
  | JSONTYPE => CmdJson.json_type c parts
  | JSONNUMINCRBY => CmdJson.json_numincrby c parts
  | JSONNUMMULTBY => CmdJson.json_nummultby c parts
  | JSONSTRAPPEND => CmdJson.json_strappend c parts
  | JSONSTRLEN => CmdJson.json_strlen c parts
  | JSONARRAPPEND => CmdJson.json_arrappend c parts
  | JSONARRINDEX => CmdJson.json_arrindex c parts
  | JSONARRINSERT => CmdJson.json_arrinsert c parts
  | JSONARRLEN => CmdJson.json_arrlen c parts
  | JSONARRPOP => CmdJson.json_arrpop c parts
  | JSONARRTRIM => CmdJson.json_arrtrim c parts
  | JSONOBJKEYS => CmdJson.json_objkeys c parts
  | JSONOBJLEN => CmdJson.json_objlen c parts
  | JSONTOGGLE => CmdJson.json_toggle c parts
  | JSONCLEAR => CmdJson.json_clear c parts
  | JSONMGET => CmdJson.json_mget c parts
  | JSONRESP => CmdJson.json_resp c parts
  | GEOADD => CmdGeo.geoadd c parts
  | GEOPOS => CmdGeo.geopos c parts
  | GEODIST => CmdGeo.geodist c (libm env) parts
  | GEOHASH => CmdGeo.geohash c parts
  | GEOSEARCH => CmdGeo.geosearch c (libm env) parts
  | GEOSEARCHSTORE => CmdGeo.geosearchstore c (libm env) parts
  | XADD => CmdStream.xadd c parts
  | XLEN => CmdStream.xlen c parts
  | XRANGE => CmdStream.xrange c parts
  | XREVRANGE => CmdStream.xrevrange c parts
  | XREAD => CmdStream.xread c parts
  | XTRIM => CmdStream.xtrim c parts
  | XDEL => CmdStream.xdel c parts
  | XGROUP => CmdStream.xgroup c parts
  | XACK => CmdStream.xack c parts
  | XINFO => CmdStream.xinfo c parts
  | Exec => write (λ out, out ++ B "-ERR unknown command" ++ CRLF)
  end.

Definition execute (parts : list bytes) : Handler (CustomMap StoreValue) unit :=
  match parts with
  | [] => write (λ out, out ++ B "-ERR invalid command" ++ CRLF)
  | name :: _ => handler_of (from_bytes name) parts
  end.
End Execute.
