(* ===== verification/CmdTableSpec.v ===== *)
(** The command table: names are recognised in any letter case, every command
    of the table answers with one reply, and a pipeline of commands with as
    many replies as commands, which a client reads back in order. *)

From S2P Require Import Prelude Decimal MapIface CustomMap CustomMapSpec Resp RespSpec Collections Value Store StoreClaims.
From S2P Require Import Reply Handler HandlerSpec Float Geo CmdString CmdServer CmdSpec CmdMoreSpec CmdTable.
Local Open Scope Z_scope.

(** ** Names *)

Lemma commands_complete cmd : cmd ∈ commands.
Proof. apply list_elem_of_In. destruct cmd; vm_compute; tauto. Qed.

Lemma as_str_short cmd : (length (as_str cmd) <= 32)%nat.
Proof. apply Nat.leb_le. by destruct cmd. Qed.

(** No two commands share a name. *)
Lemma as_str_inj a b : as_str a = as_str b → a = b.
Proof.
  assert (Hnd : NoDup (as_str <$> commands)) by (apply (bool_decide_unpack _); vm_compute; exact I).
  intros E. destruct (list_elem_of_lookup_1 _ _ (commands_complete a)) as [i Hi].
  destruct (list_elem_of_lookup_1 _ _ (commands_complete b)) as [j Hj].
  assert (i = j) as ->.
  { eapply (NoDup_lookup _ _ _ (as_str a)); [exact Hnd| |]; rewrite list_lookup_fmap; [by rewrite Hi|by rewrite Hj, E]. }
  congruence.
Qed.

Lemma uppercase_length s : length (ascii_uppercase s) = length s.
Proof. apply length_fmap. Qed.

Lemma find_command s cmd :
  ascii_uppercase s = as_str cmd → List.find (λ c, bool_decide (as_str c = ascii_uppercase s)) commands = Some cmd.
Proof.
  intros E. destruct (List.find _ commands) as [c|] eqn:Ef.
  - apply find_some in Ef as [_ Ef]. apply bool_decide_eq_true in Ef. f_equal. apply as_str_inj. congruence.
  - pose proof (find_none _ _ Ef cmd (proj1 (list_elem_of_In _ _) (commands_complete cmd))) as Hn.
    simpl in Hn. by rewrite bool_decide_eq_true_2 in Hn.
Qed.

(** A string that spells a command is recognised. *)
Lemma from_bytes_of s cmd : ascii_uppercase s = as_str cmd → from_bytes s = cmd.
Proof.
  intros E. unfold from_bytes. pose proof (as_str_short cmd). rewrite <- E, uppercase_length in *.
  rewrite (proj2 (Nat.ltb_ge _ _)) by lia. by rewrite (find_command s cmd).
Qed.

(** The name of a command is recognised exactly when it is the command's
    name up to the case of its letters: [from_bytes] gives a command other than
    the default for the strings that spell its name, and for no others (longer
    strings included), and every command has a name that gives it back. *)
Theorem from_bytes_spec s cmd :
  from_bytes (as_str cmd) = cmd ∧
  (cmd ≠ Exec → from_bytes s = cmd ↔ ascii_uppercase s = as_str cmd).
Proof.
  split; [apply from_bytes_of; by destruct cmd|]. intros Hne. split; [|apply from_bytes_of].
  unfold from_bytes. case_match; [by intros <-|].
  destruct (List.find _ commands) as [c|] eqn:Ef; simpl; [|by intros <-].
  intros ->. apply find_some in Ef as [_ Ef]. by apply bool_decide_eq_true in Ef.
Qed.

Lemma from_bytes_spec_witness :
  from_bytes (as_str GETRANGE) = GETRANGE ∧
  (GETRANGE ≠ Exec → from_bytes (B "getRange") = GETRANGE ↔ ascii_uppercase (B "getRange") = as_str GETRANGE).
Proof. exact (from_bytes_spec (B "getRange") GETRANGE). Defined.

(** ** One reply per command *)

Create HintDb answers.
#[local] Hint Resolve
  set_answers setnx_answers setex_answers psetex_answers get_answers getdel_answers getset_answers
  getex_answers mset_answers msetnx_answers mget_answers incr_answers decr_answers incrby_answers
  decrby_answers incrbyfloat_answers append_answers strlen_answers getrange_answers setrange_answers
  lcs_answers del_answers exists_check_answers touch_answers ttl_check_answers pttl_check_answers
  persist_answers rename_answers renamenx_answers copy_answers keys_answers expire_answers pexpire_answers
  expireat_answers expiretime_answers pexpiretime_answers lpush_answers rpush_answers lpop_answers
  rpop_answers llen_answers lindex_answers lset_answers lrange_answers ltrim_answers lrem_answers
  linsert_answers lmove_answers rpoplpush_answers blmove_answers blpop_answers brpop_answers lpos_answers
  hset_answers hsetnx_answers hget_answers hmget_answers hmset_answers hgetall_answers hdel_answers
  hexists_answers hlen_answers hkeys_answers hvals_answers hincrby_answers hincrbyfloat_answers
  hrandfield_answers hscan_answers sadd_answers srem_answers sismember_answers smismember_answers
  smembers_answers scard_answers spop_answers smove_answers sintercard_answers srandmember_answers
  sunion_answers sinter_answers sdiff_answers sunionstore_answers sinterstore_answers sdiffstore_answers
  sscan_answers zadd_answers zrem_answers zscore_answers zmscore_answers zrank_answers zrevrank_answers
  zcard_answers zcount_answers zincrby_answers zlexcount_answers zrangebylex_answers zdiff_answers
  zdiffstore_answers zrangestore_answers zrangebyscore_answers zrevrangebyscore_answers zrandmember_answers
  zrange_answers zrevrange_answers zpopmin_answers zpopmax_answers bzpopmin_answers bzpopmax_answers
  zscan_answers zunionstore_answers zinterstore_answers zunion_answers zinter_answers type_of_answers
  ping_answers echo_answers info_answers flush_answers dbsize_answers bgsave_answers save_answers
  time_answers lastsave_answers command_cmd_answers quit_answers hello_answers select_answers auth_answers
  reset_answers client_cmd_answers config_cmd_answers slowlog_cmd_answers acl_cmd_answers object_cmd_answers
  sort_cmd_answers multi_answers discard_answers exec_empty_answers watch_answers unwatch_answers
  randomkey_answers scan_answers
  setbit_answers getbit_answers bitcount_answers bitpos_answers bitop_answers bitfield_answers pfadd_answers
  pfcount_answers pfmerge_answers json_set_answers json_get_answers json_del_answers json_type_answers
  json_numincrby_answers json_nummultby_answers json_strappend_answers json_strlen_answers
  json_arrappend_answers json_arrindex_answers json_arrinsert_answers json_arrlen_answers
  json_arrpop_answers json_arrtrim_answers json_objkeys_answers json_objlen_answers json_toggle_answers
  json_clear_answers json_mget_answers json_resp_answers geoadd_answers geopos_answers geodist_answers
  geohash_answers geosearch_answers geosearchstore_answers xadd_answers xlen_answers xrange_answers
  xrevrange_answers xread_answers xtrim_answers xdel_answers xgroup_answers xack_answers xinfo_answers : answers.

(** The commands that can panic: a draw, a range or a count too large for the
    memory, an inverted range of scores or of stream ids, a sort of numbers with a
    NaN, a field type of BITFIELD that is no ASCII, a JSON document that does not
    parse. *)
Definition may_panic (cmd : ComdType) : bool :=
  match cmd with
  | HRANDFIELD | SRANDMEMBER | ZRANDMEMBER | ZRANGEBYSCORE | ZREVRANGEBYSCORE | SORT | SCAN | BITFIELD | XRANGE | XREVRANGE
  | GEOSEARCH | GEOSEARCHSTORE | JSONSET | JSONDEL | JSONFORGET | JSONTYPE | JSONNUMINCRBY | JSONNUMMULTBY | JSONSTRAPPEND | JSONSTRLEN
  | JSONARRAPPEND | JSONARRINDEX | JSONARRINSERT | JSONARRLEN | JSONARRPOP | JSONARRTRIM | JSONOBJKEYS | JSONOBJLEN | JSONTOGGLE | JSONCLEAR => true
  | _ => false
  end.

(** The commands that answer nothing: a combination of no sorted sets. *)
Definition silent (cmd : ComdType) (parts : list bytes) : bool :=
  match cmd with
  | ZUNIONSTORE | ZINTERSTORE => no_keys (nth 2 parts [])
  | ZUNION | ZINTER => no_keys (nth 1 parts [])
  | _ => false
  end.

Section TableClaims.
Context (hash_one : bytes → Z) `{HashOrder} (c : Clock) (env : Env).
Implicit Types (st : Store (CustomMap StoreValue)).

Lemma write_line_answers {M} p s (w : bytes → bytes) e :
  plain e → (∀ out, w out = out ++ encode (RError e)) → answers p s (write w : Handler M unit).
Proof. intros He Hw. apply answers_write. intros out. exists (RError e). split; [by constructor|apply Hw]. Qed.

Lemma handler_answers cmd parts :
  env_plain env → answers (may_panic cmd) (silent cmd parts) (handler_of hash_one c env cmd parts).
Proof.
  intros He. pose proof (custom_returns (V := StoreValue) hash_one) as Hr.
  destruct cmd; cbn [handler_of may_panic silent]; try solve [eauto with answers].
  by apply (write_line_answers _ _ _ (B "ERR unknown command")); [apply plainb_plain|].
Qed.

Lemma execute_answers parts st out :
  env_plain env →
  match run (execute hash_one c env parts) st out with
  | None => may_panic (from_bytes (nth 0 parts [])) = true
  | Some (_, out') =>
      replied out out' ∨ (silent (from_bytes (nth 0 parts [])) parts = true ∧ out' = out)
  end.
Proof.
  intros He. unfold run, execute. destruct parts as [|name args].
  - left. exists (RError (B "ERR invalid command")).
    split; [constructor; by apply plainb_plain|done].
  - pose proof (handler_answers (from_bytes name) (name :: args) He st out) as Ha. simpl nth.
    by destruct (handler_of _ _ _ _ _ st out).
Qed.
(** C6: Every command of the table, called with any arguments in any state,
    appends exactly one well-formed reply to the output (no line end inside a
    status or an error, as many items as the header says) and leaves what was
    there.  The only other outcomes are the panics of the commands of
    [may_panic] and the four sorted-set commands called with zero keys, which
    write nothing at all. *)
Theorem execute_replies parts st out :
  env_plain env →
  match run (execute hash_one c env parts) st out with
  | None => may_panic (from_bytes (nth 0 parts [])) = true
  | Some (_, out') =>
      replied out out' ∨ (silent (from_bytes (nth 0 parts [])) parts = true ∧ out' = out)
  end.
Proof. apply execute_answers. Qed.
End TableClaims.

Definition demo_libm : Libm := mkLibm (λ x, x) (λ x, x) (λ x, x) (λ _ _, None).
Definition demo_env : Env := mkEnv 1700000000000000 0 [] None false (λ _, None) 100 (λ x, x) demo_libm.

Definition demo_parts : list bytes := [B "getrange"; B "key"; B "0"; B "x"].

Lemma execute_replies_witness :
  match run (execute toy_hash (H := canonical_order) demo_clock demo_env demo_parts) (demo_store []) (B "+OK" ++ CRLF) with
  | None => may_panic (from_bytes (nth 0 demo_parts [])) = true
  | Some (_, out') => replied (B "+OK" ++ CRLF) out' ∨
      (silent (from_bytes (nth 0 demo_parts [])) demo_parts = true ∧ out' = B "+OK" ++ CRLF)
  end.
Proof. apply (execute_replies toy_hash (H := canonical_order) demo_clock demo_env demo_parts). exact I. Defined.

(** ** Pipelines *)

Section Pipeline.
Context (hash_one : bytes → Z) `{HashOrder}.
Implicit Types (st : Store (CustomMap StoreValue)).

(** A request: its arguments, and the instant and environment it runs in. *)
Definition Request : Type := Clock * Env * list bytes.

Fixpoint run_pipeline (requests : list Request) st (out : bytes) : option (Store (CustomMap StoreValue) * bytes) :=
  match requests with
  | [] => Some (st, out)
  | (c, env, parts) :: requests' =>
      '(st, out) ← run (execute hash_one c env parts) st out;
      run_pipeline requests' st out
  end.

(** A command that neither panics nor stays silent. *)
Definition answerable (r : Request) : Prop :=
  let '(c, env, parts) := r in
  env_plain env ∧ may_panic (from_bytes (nth 0 parts [])) = false ∧ silent (from_bytes (nth 0 parts [])) parts = false.

Lemma run_pipeline_encodes requests st out :
  Forall answerable requests →
  ∃ st' rs, run_pipeline requests st out = Some (st', out ++ encodes rs) ∧
    length rs = length requests ∧ Forall well_formed rs.
Proof.
  intros Hr. revert st out. induction Hr as [|[[c env] parts] requests (He & Hp & Hs) Hr IH]; intros st out.
  - exists st, []. unfold encodes. simpl. by rewrite app_nil_r.
  - cbn [run_pipeline].
    pose proof (execute_answers hash_one c env parts st out He) as Ha. rewrite Hp, Hs in Ha.
    destruct (run (execute hash_one c env parts) st out) as [[st1 out1]|]; [|done].
    destruct Ha as [(r & Hwf & ->)|[? ?]]; [|done]. cbn [mbind option_bind].
    destruct (IH st1 (out ++ encode r)) as (st' & rs & -> & Hlen & Hall).
    exists st', (r :: rs). rewrite encodes_cons, app_assoc. split; [done|]. split; [simpl; lia|by constructor].
Qed.
End Pipeline.

(** A pipeline of commands that are neither silent nor of the panicking
    kinds is served to its end, and a client that reads the output finds
    exactly one reply per command, in order, and nothing after the last: the
    replies are self-delimiting whatever the keys, values and errors in them. *)
Theorem pipeline_replies (hash_one : bytes → Z) `{HashOrder} (requests : list Request)
    (st : Store (CustomMap StoreValue)) :
  Forall answerable requests →
  ∃ st' out rs, run_pipeline hash_one requests st [] = Some (st', out) ∧ length rs = length requests ∧
    read_many (decode (length out)) (length requests) out = Some (rs, []).
Proof.
  intros Hr. destruct (run_pipeline_encodes hash_one requests st [] Hr) as (st' & rs & Hrun & Hlen & Hwf).
  exists st', (encodes rs), rs. split; [exact Hrun|]. split; [done|]. rewrite <- Hlen.
  pose proof (decode_encodes rs [] (length (encodes rs)) Hwf (Nat.le_refl _)) as Hd.
  rewrite app_nil_r in Hd. exact Hd.
Qed.

Definition demo_requests : list Request :=
  (λ parts, (demo_clock, demo_env, parts)) <$>
    [[B "SET"; B "k"; B "10"]; [B "INCRBY"; B "k"; B "5"]; [B "lpush"; B "k"; B "x"]; [B "MGET"; B "k"; B "none"];
     [B "HELLO"; B "3"]; [B "nosuch"]].

Lemma pipeline_replies_witness : ∃ st' out rs,
  run_pipeline toy_hash (H := canonical_order) demo_requests (demo_store []) [] = Some (st', out) ∧
  length rs = length demo_requests ∧
  read_many (decode (length out)) (length demo_requests) out = Some (rs, []).
Proof.
  apply (pipeline_replies toy_hash (H := canonical_order) demo_requests (demo_store [])).
  repeat constructor.
Defined.

(** The replies of that run, as a client reads them. *)
Example demo_pipeline :
  ('(_, out) ← run_pipeline toy_hash (H := canonical_order) demo_requests (demo_store []) [];
   fst <$> read_many (decode 1000) 6 out) =
  Some [RSimple (B "OK"); RInteger 15;
        RError (B "WRONGTYPE Operation against a key holding the wrong kind of value");
        RArray [RBulk (B "15"); RNil]; hello3; RError (B "ERR unknown command")].
Proof. vm_compute. reflexivity. Qed.
