(* ===== verification/PubSub.v ===== *)
(** Publish/subscribe: pubsub/registry.rs and pubsub/slot.rs.

    A slot ([Arc<SubSlot>]) is known by its address, a number; its queue and
    flags are in the shared memory [World], and so are the notifiers of the
    workers.  The operations are sequential: a snapshot is replaced as a whole;
    [Notify] interleaves them. *)

From S2P Require Import Prelude Resp Glob.
From Stdlib Require Import Strings.Byte.
Local Open Scope Z_scope.

Definition SlotId : Type := nat.

(** ** slot.rs *)

Record WorkerNotifier := mkNotifier {
  pending : list Z;
  wake_pending : bool;
  (** calls of [waker.wake()] *)
  wakes : nat;
}.

Record SubSlot := mkSlot {
  token : Z;
  queue : list bytes;
  notify_pending : bool;
  slot_notifier : nat;
  slot_len : Z;
}.

(** The slots and notifiers in memory. *)
Record World := mkWorld { slots : gmap SlotId SubSlot; notifiers : gmap nat WorkerNotifier }.

Definition WorkerNotifier_new : WorkerNotifier := mkNotifier [] false 0.

Definition notify (tok : Z) (n : WorkerNotifier) : WorkerNotifier :=
  mkNotifier (pending n ++ [tok]) true (if wake_pending n then wakes n else S (wakes n)).

(** [drain_pending_into], with nobody pushing meanwhile: the second look at the
    queue finds it empty. *)
Definition drain_pending_into (n : WorkerNotifier) (out : list Z) : WorkerNotifier * list Z :=
  (mkNotifier [] false (wakes n), out ++ pending n).

Definition SubSlot_new (tok : Z) (notifier : nat) : SubSlot := mkSlot tok [] false notifier 0.

Definition wake (n : nat) (tok : Z) (w : World) : World :=
  mkWorld (slots w) (alter (notify tok) n (notifiers w)).

Definition push (id : SlotId) (msg : bytes) (w : World) : World :=
  match slots w !! id with
  | None => w
  | Some s =>
      let s' := mkSlot (token s) (queue s ++ [msg]) true (slot_notifier s) (slot_len s + 1) in
      let w := mkWorld (<[id := s']> (slots w)) (notifiers w) in
      if notify_pending s then w else wake (slot_notifier s) (token s) w
  end.

(** The messages taken: pop until the output holds [max_bytes]. *)
Fixpoint drain_queue (q : list bytes) (max_bytes : Z) (out : bytes) (drained : Z) : list bytes * bytes * Z :=
  match q with
  | [] => ([], out, drained)
  | msg :: q' =>
      let out := out ++ msg in
      if max_bytes <=? zlen out then (q', out, drained + 1) else drain_queue q' max_bytes out (drained + 1)
  end.

Definition drain_into_limit (id : SlotId) (out : bytes) (max_bytes : Z) (w : World) : World * bytes :=
  match slots w !! id with
  | None => (w, out)
  | Some s =>
      let '(q, out, drained) := drain_queue (queue s) max_bytes out 0 in
      let again := negb (bool_decide (q = [])) in
      let s' := mkSlot (token s) q again (slot_notifier s) (slot_len s - drained) in
      let w := mkWorld (<[id := s']> (slots w)) (notifiers w) in
      (if again then wake (slot_notifier s) (token s) w else w, out)
  end.

Definition drain_into (id : SlotId) (out : bytes) (w : World) : World * bytes :=
  drain_into_limit id out usize_max w.

Definition has_pending (id : SlotId) (w : World) : bool :=
  match slots w !! id with Some s => negb (bool_decide (queue s = [])) | None => false end.

Definition queue_len (id : SlotId) (w : World) : Z :=
  match slots w !! id with Some s => slot_len s | None => 0 end.

(** ** registry.rs *)

Definition CHANNEL_SHARDS : nat := 64.

Record ChannelData := mkChannel { name : bytes; ch_slots : list SlotId }.

(** A [Snapshot]. *)
Abbreviation ChannelShard := (list ChannelData).

Record PatternEntry := mkPattern { pattern : bytes; pat_slot : SlotId }.

Record PatternIndex := mkIndex {
  buckets : list (list PatternEntry);
  wildcard : list PatternEntry;
  total : Z;
}.

Record PubSub := mkPubSub { shards : list ChannelShard; patterns : PatternIndex }.

Definition ChannelShard_new : ChannelShard := [].
Definition PatternIndex_new : PatternIndex := mkIndex (replicate 256 []) [] 0.
Definition PubSub_new : PubSub := mkPubSub (replicate CHANNEL_SHARDS ChannelShard_new) PatternIndex_new.

(** The first channel of a snapshot with a name: its slots. *)
Fixpoint shard_slots (snap : ChannelShard) (channel : bytes) : list SlotId :=
  match snap with
  | [] => []
  | ch :: snap' => if bool_decide (name ch = channel) then ch_slots ch else shard_slots snap' channel
  end.

Definition shard_publish (snap : ChannelShard) (channel frame : bytes) (w : World) : World * Z :=
  let l := shard_slots snap channel in (foldl (λ w s, push s frame w) w l, Z.of_nat (length l)).

Definition shard_subscribe (snap : ChannelShard) (channel : bytes) (slot : SlotId) : ChannelShard :=
  let new_vec := (λ ch, if bool_decide (name ch = channel) then mkChannel (name ch) (ch_slots ch ++ [slot]) else ch) <$> snap in
  if existsb (λ ch, bool_decide (name ch = channel)) snap then new_vec else new_vec ++ [mkChannel channel [slot]].

(** [slots.iter().filter(|s| !Arc::ptr_eq(s, slot))] *)
Definition other_slots (slot : SlotId) (l : list SlotId) : list SlotId := List.filter (λ s, negb (s =? slot)%nat) l.

Definition shard_unsubscribe (snap : ChannelShard) (channel : bytes) (slot : SlotId) : ChannelShard :=
  omap (λ ch,
    if bool_decide (name ch = channel) then
      match other_slots slot (ch_slots ch) with
      | [] => None
      | new_slots => Some (mkChannel (name ch) new_slots)
      end
    else Some ch) snap.

Definition count_for (snap : ChannelShard) (channel : bytes) : Z := Z.of_nat (length (shard_slots snap channel)).

Definition shard_active_channels (pat : option bytes) (snap : ChannelShard) : list bytes :=
  name <$> List.filter (λ ch,
    negb (bool_decide (ch_slots ch = [])) &&
    match pat with Some p => glob_match_bytes p (name ch) | None => true end) snap.

(** The bucket of a pattern: [None] is the wildcard list. *)
Definition bucket_of (p : bytes) : option nat :=
  match p with
  | [] => None
  | b :: _ =>
      if bool_decide (b = "*"%byte) || bool_decide (b = "?"%byte) || bool_decide (b = "["%byte) then None
      else Some (Z.to_nat (b2z b))
  end.

Definition index_add (idx : PatternIndex) (p : bytes) (slot : SlotId) : PatternIndex :=
  let entry := mkPattern p slot in
  match bucket_of p with
  | None => mkIndex (buckets idx) (wildcard idx ++ [entry]) (total idx + 1)
  | Some b => mkIndex (alter (λ l, l ++ [entry]) b (buckets idx)) (wildcard idx) (total idx + 1)
  end.

Definition retain_others (p : bytes) (slot : SlotId) (l : list PatternEntry) : list PatternEntry :=
  List.filter (λ e, negb (bool_decide (pattern e = p) && (pat_slot e =? slot)%nat)) l.

(** How many entries [retain] removes. *)
Definition removed_from (p : bytes) (slot : SlotId) (l : list PatternEntry) : Z :=
  Z.of_nat (length l) - Z.of_nat (length (retain_others p slot l)).

Definition index_remove (idx : PatternIndex) (p : bytes) (slot : SlotId) : PatternIndex :=
  match bucket_of p with
  | None =>
      mkIndex (buckets idx) (retain_others p slot (wildcard idx)) (total idx - removed_from p slot (wildcard idx))
  | Some b =>
      mkIndex (alter (retain_others p slot) b (buckets idx)) (wildcard idx)
        (total idx - removed_from p slot (default [] (buckets idx !! b)))
  end.

(** Send one pattern frame per matching entry. *)
Fixpoint publish_patterns (l : list PatternEntry) (channel message : bytes) (w : World) (count : Z) : World * Z :=
  match l with
  | [] => (w, count)
  | e :: l' =>
      if glob_match_bytes (pattern e) channel
      then publish_patterns l' channel message (push (pat_slot e) (encode_pmessage (pattern e) channel message) w) (count + 1)
      else publish_patterns l' channel message w count
  end.

Section PubSub.
Context (hash_one : bytes → Z).
Implicit Types (ps : PubSub) (w : World).

Definition shard_index (channel : bytes) : nat := Z.to_nat (wrap64 (hash_one channel) mod Z.of_nat CHANNEL_SHARDS).
Definition shard_for ps (channel : bytes) : ChannelShard := default [] (shards ps !! shard_index channel).
Definition with_shard ps (channel : bytes) (f : ChannelShard → ChannelShard) : PubSub :=
  mkPubSub (alter f (shard_index channel) (shards ps)) (patterns ps).

Definition subscribe (channel : bytes) (slot : SlotId) ps : PubSub :=
  with_shard ps channel (λ snap, shard_subscribe snap channel slot).
Definition unsubscribe (channel : bytes) (slot : SlotId) ps : PubSub :=
  with_shard ps channel (λ snap, shard_unsubscribe snap channel slot).
Definition psubscribe (p : bytes) (slot : SlotId) ps : PubSub := mkPubSub (shards ps) (index_add (patterns ps) p slot).
Definition punsubscribe (p : bytes) (slot : SlotId) ps : PubSub := mkPubSub (shards ps) (index_remove (patterns ps) p slot).

Definition publish (channel message : bytes) ps w : World * Z :=
  let '(w, count) := shard_publish (shard_for ps channel) channel (encode_message channel message) w in
  let idx := patterns ps in
  if total idx =? 0 then (w, count)
  else
    let '(w, count) := publish_patterns (wildcard idx) channel message w count in
    match channel with
    | [] => (w, count)
    | b :: _ => publish_patterns (default [] (buckets idx !! Z.to_nat (b2z b))) channel message w count
    end.

Definition active_channels (pat : option bytes) ps : list bytes := shards ps ≫= shard_active_channels pat.

Definition numsub (channels : list bytes) ps : list (bytes * Z) :=
  (λ ch, (ch, count_for (shard_for ps ch) ch)) <$> channels.

Definition numpat ps : Z := total (patterns ps).
End PubSub.
