(* ===== verification/PubSubSpec.v ===== *)
(** The registry keeps the subscriptions: a published message reaches the
    subscribers of its channel and of every pattern that matches, through the
    sharded snapshots and the index of patterns by first byte. *)

From S2P Require Import Prelude Resp Glob PubSub.
From Stdlib Require Import Strings.Byte.
Local Open Scope Z_scope.

(** ** The contract *)

(** The subscriptions, in the order they were made. *)
Record Subs := mkSubs { chans : list (bytes * SlotId); pats : list PatternEntry }.

Inductive PSOp :=
| OSubscribe (channel : bytes) (slot : SlotId)
| OUnsubscribe (channel : bytes) (slot : SlotId)
| OPSubscribe (p : bytes) (slot : SlotId)
| OPUnsubscribe (p : bytes) (slot : SlotId).

#[global] Instance PatternEntry_eq_dec : EqDecision PatternEntry.
Proof. solve_decision. Defined.

Definition spec_step (a : Subs) (o : PSOp) : Subs :=
  match o with
  | OSubscribe ch s => mkSubs (chans a ++ [(ch, s)]) (pats a)
  | OUnsubscribe ch s => mkSubs (filter (λ p, p ≠ (ch, s)) (chans a)) (pats a)
  | OPSubscribe p s => mkSubs (chans a) (pats a ++ [mkPattern p s])
  | OPUnsubscribe p s => mkSubs (chans a) (filter (λ e, e ≠ mkPattern p s) (pats a))
  end.

(** The subscribers of a channel. *)
Definition subs_of (a : Subs) (ch : bytes) : list SlotId := (filter (λ p, p.1 = ch) (chans a)).*2.

(** Push a list of frames to their slots. *)
Definition deliver (w : World) (l : list (SlotId * bytes)) : World := foldl (λ w p, push p.1 p.2 w) w l.

Lemma deliver_app w l1 l2 : deliver w (l1 ++ l2) = deliver (deliver w l1) l2.
Proof. apply foldl_app. Qed.

(** What a delivery adds to one slot, and that it leaves it notified. *)
Lemma push_slot id0 msg w id s :
  slots w !! id = Some s →
  ∃ s', slots (push id0 msg w) !! id = Some s' ∧ token s' = token s ∧
    queue s' = queue s ++ (if bool_decide (id0 = id) then [msg] else []) ∧
    notify_pending s' = (notify_pending s || bool_decide (id0 = id)).
Proof.
  intros Hs. unfold push. destruct (decide (id0 = id)) as [->|Hne].
  - rewrite Hs, bool_decide_eq_true_2 by done. destruct (notify_pending s); simpl; rewrite lookup_insert_eq; eauto.
  - rewrite bool_decide_eq_false_2 by done. exists s. rewrite app_nil_r, orb_false_r. split; [|done].
    destruct (slots w !! id0) as [s0|]; [|done].
    destruct (notify_pending s0); simpl; by rewrite lookup_insert_ne by done.
Qed.

Lemma deliver_slot l w id s :
  slots w !! id = Some s →
  ∃ s', slots (deliver w l) !! id = Some s' ∧ token s' = token s ∧
    queue s' = queue s ++ (filter (λ p, p.1 = id) l).*2 ∧
    notify_pending s' = (notify_pending s || negb (bool_decide (filter (λ p, p.1 = id) l = []))).
Proof.
  revert w s. induction l as [|[id0 msg] l IH]; intros w s Hs.
  { exists s. simpl. by rewrite app_nil_r, orb_false_r. }
  destruct (push_slot id0 msg w id s Hs) as (s1 & Hs1 & Ht1 & Hq1 & Hn1).
  destruct (IH _ _ Hs1) as (s2 & Hs2 & Ht2 & Hq2 & Hn2). exists s2. split; [exact Hs2|].
  rewrite Hq2, Hn2, Hq1, Hn1, Ht2, filter_cons. simpl. split; [done|].
  destruct (decide (id0 = id)) as [->|Hne].
  - rewrite bool_decide_eq_true_2 by done. rewrite <- app_assoc. simpl. split; [done|]. by rewrite !orb_true_r.
  - rewrite bool_decide_eq_false_2 by done. by rewrite app_nil_r, orb_false_r.
Qed.

(** ** Channels *)

Lemma omap_cons {A B} (f : A → option B) x l :
  omap f (x :: l) = match f x with Some y => y :: omap f l | None => omap f l end.
Proof. done. Qed.

Lemma shard_slots_subscribe snap ch s ch' :
  shard_slots (shard_subscribe snap ch s) ch' =
    if bool_decide (ch = ch') then shard_slots snap ch' ++ [s] else shard_slots snap ch'.
Proof.
  unfold shard_subscribe. induction snap as [|cd snap IH]; simpl.
  - repeat case_bool_decide; congruence.
  - destruct (bool_decide_reflect (name cd = ch)) as [E|E]; simpl.
    + destruct (bool_decide_reflect (ch = ch')) as [E2|E2]; [by rewrite bool_decide_eq_true_2 by congruence|].
      rewrite !bool_decide_eq_false_2 by congruence. clear IH. induction snap as [|cd' snap IH]; simpl; [done|].
      destruct (bool_decide_reflect (name cd' = ch)); simpl; repeat case_bool_decide; congruence.
    + destruct (existsb _ snap); simpl; (destruct (bool_decide_reflect (name cd = ch')); [|exact IH]);
        rewrite bool_decide_eq_false_2 by congruence; done.
Qed.

Lemma shard_slots_absent snap ch : ch ∉ name <$> snap → shard_slots snap ch = [].
Proof.
  induction snap as [|cd snap IH]; simpl; [done|]. rewrite not_elem_of_cons. intros [? ?].
  rewrite bool_decide_eq_false_2 by congruence. by apply IH.
Qed.

Lemma unsubscribe_names snap ch s : name <$> shard_unsubscribe snap ch s `sublist_of` name <$> snap.
Proof.
  unfold shard_unsubscribe. induction snap as [|cd snap IH]; [done|]. rewrite omap_cons.
  case_bool_decide; [destruct (other_slots _ _)|]; simpl; by constructor.
Qed.

Lemma shard_slots_unsubscribe snap ch s ch' :
  NoDup (name <$> snap) →
  shard_slots (shard_unsubscribe snap ch s) ch' =
    if bool_decide (ch = ch') then other_slots s (shard_slots snap ch') else shard_slots snap ch'.
Proof.
  intros Hnd. induction snap as [|cd snap IH]; [by case_bool_decide|].
  apply NoDup_cons in Hnd as [Hcd Hnd]. specialize (IH Hnd).
  unfold shard_unsubscribe. rewrite omap_cons. fold (shard_unsubscribe snap ch s). cbn [shard_slots].
  destruct (bool_decide_reflect (name cd = ch)) as [E|E].
  - destruct (other_slots s (ch_slots cd)) as [|x l] eqn:Ef.
    + rewrite IH. destruct (bool_decide_reflect (ch = ch')) as [E2|E2].
      * rewrite bool_decide_eq_true_2 by congruence. rewrite Ef. rewrite shard_slots_absent; [done|]. by rewrite <- E2, <- E.
      * by rewrite bool_decide_eq_false_2 by congruence.
    + cbn [shard_slots name ch_slots]. destruct (decide (ch = ch')) as [E2|E2].
      * by rewrite !bool_decide_eq_true_2 by congruence.
      * rewrite IH. by rewrite !bool_decide_eq_false_2 by congruence.
  - cbn [shard_slots]. destruct (decide (name cd = ch')) as [E1|E1].
    + rewrite !(bool_decide_eq_true_2 (name cd = ch')) by done. by rewrite bool_decide_eq_false_2 by congruence.
    + rewrite !(bool_decide_eq_false_2 (name cd = ch')) by done. exact IH.
Qed.

(** ** The patterns *)

(** Where a pattern is kept. *)
Definition index_ok (idx : PatternIndex) : Prop :=
  length (buckets idx) = 256%nat ∧ Forall (λ e, bucket_of (pattern e) = None) (wildcard idx) ∧
  (∀ b l, buckets idx !! b = Some l → Forall (λ e, bucket_of (pattern e) = Some b) l) ∧
  total idx = Z.of_nat (length (wildcard idx ++ concat (buckets idx))).

Definition all_patterns (idx : PatternIndex) : list PatternEntry := wildcard idx ++ concat (buckets idx).

Lemma bucket_bound p b : bucket_of p = Some b → (b < 256)%nat.
Proof.
  unfold bucket_of. destruct p as [|x p]; [done|]. case_match; [done|]. intros [= <-].
  pose proof (b2z_range x). lia.
Qed.

(** A change of one bucket, with what the other buckets hold. *)
Lemma concat_alter (f : list PatternEntry → list PatternEntry) (ll : list (list PatternEntry)) b l :
  ll !! b = Some l → ∃ rest, concat ll ≡ₚ l ++ rest ∧ concat (alter f b ll) ≡ₚ f l ++ rest ∧
    (∀ e, e ∈ rest → ∃ j lj, j ≠ b ∧ ll !! j = Some lj ∧ e ∈ lj).
Proof.
  revert b. induction ll as [|x ll IH]; intros [|b] Hb; simplify_eq/=.
  - exists (concat ll). do 2 (split; [done|]). intros e (lj & Hj & He)%list_elem_of_In%in_concat. apply list_elem_of_In, list_elem_of_lookup in Hj as [j Hj]. apply list_elem_of_In in He.
    by exists (S j), lj.
  - destruct (IH b Hb) as (rest & H1 & H2 & H3). exists (x ++ rest). rewrite H1, H2.
    split; [by rewrite Permutation_app_swap_app|]. split; [by rewrite Permutation_app_swap_app|].
    intros e [He|He]%elem_of_app; [by exists 0%nat, x|].
    destruct (H3 e He) as (j & lj & ? & ? & ?). exists (S j), lj. split; [lia|done].
Qed.

Lemma retain_others_filter p s l : retain_others p s l = filter (λ e, e ≠ mkPattern p s) l.
Proof.
  unfold retain_others. induction l as [|[q t] l IH]; [done|]. rewrite filter_cons. simpl. rewrite IH.
  destruct (bool_decide_reflect (q = p)), (Nat.eqb_spec t s); simpl; case_decide; congruence.
Qed.

Lemma index_add_ok idx p s :
  index_ok idx → index_ok (index_add idx p s) ∧ all_patterns (index_add idx p s) ≡ₚ all_patterns idx ++ [mkPattern p s].
Proof.
  intros (Hlen & Hw & Hb & Ht). unfold index_add, all_patterns, index_ok in *.
  destruct (bucket_of p) as [b|] eqn:Eb; simpl.
  - destruct (lookup_lt_is_Some_2 (buckets idx) b) as [l Hl]; [rewrite Hlen; by eapply bucket_bound|].
    destruct (concat_alter (λ l, l ++ [mkPattern p s]) _ _ _ Hl) as (rest & H1 & H2 & _).
    assert (Hp : wildcard idx ++ concat (alter (λ l, l ++ [mkPattern p s]) b (buckets idx)) ≡ₚ
                 (wildcard idx ++ concat (buckets idx)) ++ [mkPattern p s]).
    { rewrite H1, H2, <- !app_assoc. do 2 f_equiv. by rewrite Permutation_app_comm. }
    split; [|done]. rewrite Hp, length_app, length_alter. simpl. split; [done|]. split; [done|]. split; [|lia].
    intros b' l' Hl'. destruct (decide (b' = b)) as [->|].
    + rewrite list_lookup_alter_eq, Hl in Hl'. simplify_eq/=. apply Forall_app. split; [by apply Hb|by repeat constructor].
    + rewrite list_lookup_alter_ne in Hl' by done. by apply Hb.
  - split; [|by rewrite <- !app_assoc, (Permutation_app_comm _ [_])].
    split; [done|]. split; [apply Forall_app; split; [done|by repeat constructor]|]. split; [done|].
    rewrite Ht, !length_app. simpl. lia.
Qed.

Lemma filter_keep_all {A} (P : A → Prop) `{∀ x, Decision (P x)} (l : list A) : (∀ x, x ∈ l → P x) → filter P l = l.
Proof.
  induction l as [|x l IH]; intros Hl; [done|]. rewrite filter_cons_True by (apply Hl; constructor).
  f_equal. apply IH. intros y Hy. apply Hl. by constructor.
Qed.

Lemma filter_none {A} (P : A → Prop) `{∀ x, Decision (P x)} (l : list A) : (∀ x, x ∈ l → ¬ P x) → filter P l = [].
Proof.
  induction l as [|x l IH]; intros Hl; [done|]. rewrite filter_cons_False by (apply Hl; constructor).
  apply IH. intros y Hy. apply Hl. by constructor.
Qed.

Lemma Forall_filter {A} (Q P : A → Prop) `{∀ x, Decision (P x)} (l : list A) : Forall Q l → Forall Q (filter P l).
Proof. rewrite !Forall_forall. intros Hl x [_ Hx]%list_elem_of_filter. by apply Hl. Qed.

Lemma index_remove_ok idx p s :
  index_ok idx → index_ok (index_remove idx p s) ∧
  all_patterns (index_remove idx p s) ≡ₚ filter (λ e, e ≠ mkPattern p s) (all_patterns idx).
Proof.
  intros (Hlen & Hw & Hb & Ht). unfold index_remove, all_patterns, index_ok in *. rewrite filter_app.
  rewrite Forall_forall in Hw.
  destruct (bucket_of p) as [b|] eqn:Eb; simpl.
  - destruct (lookup_lt_is_Some_2 (buckets idx) b) as [l Hl]; [rewrite Hlen; by eapply bucket_bound|].
    destruct (concat_alter (retain_others p s) _ _ _ Hl) as (rest & H1 & H2 & H3).
    rewrite Hl. simpl. unfold removed_from. rewrite retain_others_filter in *.
    assert (Hrest : filter (λ e, e ≠ mkPattern p s) rest = rest).
    { apply filter_keep_all. intros e He ->. destruct (H3 _ He) as (j & lj & Hj & Hlj & Hin).
      specialize (Hb j lj Hlj). rewrite Forall_forall in Hb. specialize (Hb _ Hin). simpl in Hb. congruence. }
    rewrite (filter_keep_all _ (wildcard idx)) by (intros e He ->; specialize (Hw _ He); simpl in Hw; congruence).
    rewrite H2, H1, filter_app, Hrest. split; [|done]. rewrite length_alter. split; [done|].
    split; [by apply Forall_forall|]. split.
    + intros b' l' Hl'. destruct (decide (b' = b)) as [->|].
      * rewrite list_lookup_alter_eq, Hl in Hl'. simplify_eq/=. rewrite retain_others_filter.
        apply Forall_filter. by apply Hb.
      * rewrite list_lookup_alter_ne in Hl' by done. by apply Hb.
    + rewrite Ht, H1, !length_app. lia.
  - unfold removed_from. rewrite retain_others_filter.
    assert (Hrest : filter (λ e, e ≠ mkPattern p s) (concat (buckets idx)) = concat (buckets idx)).
    { apply filter_keep_all. intros e He ->. apply list_elem_of_In, in_concat in He as (lj & Hj & Hin).
      apply list_elem_of_In, list_elem_of_lookup in Hj as [j Hj]. apply list_elem_of_In in Hin.
      specialize (Hb j lj Hj). rewrite Forall_forall in Hb. specialize (Hb _ Hin). simpl in Hb. congruence. }
    rewrite Hrest. split; [|done]. split; [done|]. split; [apply Forall_filter; by apply Forall_forall|].
    split; [done|]. rewrite Ht, !length_app. lia.
Qed.

(** The entries PUBLISH looks at. *)
Definition visited (idx : PatternIndex) (ch : bytes) : list PatternEntry :=
  wildcard idx ++ match ch with [] => [] | b :: _ => default [] (buckets idx !! Z.to_nat (b2z b)) end.

Definition matches (ch : bytes) (e : PatternEntry) : Prop := glob_match_bytes (pattern e) ch = true.
#[global] Instance matches_dec ch e : Decision (matches ch e).
Proof. unfold matches. apply _. Defined.

(** A pattern in a bucket starts with a byte that the channel must start with. *)
Lemma bucket_matches p ch b :
  bucket_of p = Some b → glob_match_bytes p ch = true → ∃ x ch', ch = x :: ch' ∧ b = Z.to_nat (b2z x).
Proof.
  unfold bucket_of. destruct p as [|x p]; [done|]. case_match eqn:E; [done|]. intros [= <-] Hm.
  assert (Hg : glob (x :: p) ch).
  { destruct (glob_loop_ends (x :: p) ch) as (r & Hr & Hs). unfold glob_match_bytes in Hm. rewrite Hr in Hm.
    destruct r; [|done]. eauto. }
  split_bool. destruct ch as [|y ch]; [by apply glob_cons_nil in Hg|].
  apply glob_cons_inv in Hg as [[->| ->] _]; [done|by eexists _, _|done].
Qed.

Lemma visited_complete idx ch :
  index_ok idx → filter (matches ch) (visited idx ch) ≡ₚ filter (matches ch) (all_patterns idx).
Proof.
  intros (Hlen & Hw & Hb & _). unfold visited, all_patterns. rewrite !filter_app. apply Permutation_app_head.
  assert (Hout : ∀ j lj e, buckets idx !! j = Some lj → e ∈ lj → matches ch e →
            ∃ x ch', ch = x :: ch' ∧ j = Z.to_nat (b2z x)).
  { intros j lj e Hj He Hm. specialize (Hb j lj Hj). rewrite Forall_forall in Hb. eapply bucket_matches; [by apply Hb|done]. }
  destruct ch as [|x ch].
  - rewrite (filter_none _ (concat (buckets idx))); [done|]. intros e He Hm.
    apply list_elem_of_In, in_concat in He as (lj & Hj & Hin).
    apply list_elem_of_In, list_elem_of_lookup in Hj as [j Hj]. apply list_elem_of_In in Hin.
    destruct (Hout j lj e Hj Hin Hm) as (? & ? & ? & _). done.
  - pose proof (b2z_range x) as Hx.
    destruct (lookup_lt_is_Some_2 (buckets idx) (Z.to_nat (b2z x))) as [l Hl]; [lia|].
    destruct (concat_alter id _ _ _ Hl) as (rest & H1 & _ & H3). rewrite Hl, H1, filter_app. simpl.
    rewrite (filter_none _ rest); [by rewrite app_nil_r|]. intros e He Hm.
    destruct (H3 e He) as (j & lj & Hne & Hj & Hin). destruct (Hout j lj e Hj Hin Hm) as (? & ? & ? & ?). simplify_eq.
Qed.

(** ** Refinement *)

Section Refine.
Context (hash_one : bytes → Z).
Implicit Types (ps : PubSub) (a : Subs).

Definition impl_step ps (o : PSOp) : PubSub :=
  match o with
  | OSubscribe ch s => subscribe hash_one ch s ps
  | OUnsubscribe ch s => unsubscribe hash_one ch s ps
  | OPSubscribe p s => psubscribe p s ps
  | OPUnsubscribe p s => punsubscribe p s ps
  end.

(** A snapshot: one entry per channel, none empty, all of its shard. *)
Definition snap_ok (i : nat) (snap : ChannelShard) : Prop :=
  NoDup (name <$> snap) ∧ Forall (λ cd, ch_slots cd ≠ [] ∧ shard_index hash_one (name cd) = i) snap.

Definition ps_ok ps a : Prop :=
  length (shards ps) = CHANNEL_SHARDS ∧
  (∀ i snap, shards ps !! i = Some snap → snap_ok i snap) ∧
  (∀ ch, shard_slots (shard_for hash_one ps ch) ch = subs_of a ch) ∧
  index_ok (patterns ps) ∧ all_patterns (patterns ps) ≡ₚ pats a.

Lemma chan_shard_lt ch : (shard_index hash_one ch < CHANNEL_SHARDS)%nat.
Proof.
  unfold shard_index. pose proof (Z.mod_pos_bound (wrap64 (hash_one ch)) (Z.of_nat CHANNEL_SHARDS) ltac:(done)). lia.
Qed.

Lemma subs_of_app l p pl ch :
  subs_of (mkSubs (l ++ [p]) pl) ch = subs_of (mkSubs l pl) ch ++ (if bool_decide (p.1 = ch) then [p.2] else []).
Proof.
  unfold subs_of. simpl. rewrite filter_app, fmap_app. f_equal. case_bool_decide.
  - by rewrite filter_cons_True.
  - by rewrite filter_cons_False.
Qed.

Lemma subs_of_remove l ch s pl ch' :
  subs_of (mkSubs (filter (λ p, p ≠ (ch, s)) l) pl) ch' =
    if bool_decide (ch = ch') then other_slots s (subs_of (mkSubs l pl) ch') else subs_of (mkSubs l pl) ch'.
Proof.
  unfold subs_of, other_slots. simpl. induction l as [|[k t] l IH]; [by case_bool_decide|].
  rewrite (filter_cons _ (k, t) l). destruct (decide ((k, t) ≠ (ch, s))) as [Hd|Hd].
  - rewrite !filter_cons. simpl. destruct (decide (k = ch')) as [->|Hk]; [|exact IH].
    simpl. case_bool_decide as Hc; simpl; [|by f_equal]. subst.
    destruct (Nat.eqb_spec t s) as [->|]; [done|]. simpl. by f_equal.
  - apply dec_stable in Hd. simplify_eq. rewrite IH, filter_cons. case_bool_decide as Hc; simpl.
    + rewrite decide_True by done. simpl. by rewrite Nat.eqb_refl.
    + by rewrite decide_False by done.
Qed.

(** A change of the shard of one channel that keeps the others' subscribers. *)
Lemma with_shard_ok ps a a' ch f :
  ps_ok ps a → (∀ snap, snap_ok (shard_index hash_one ch) snap → snap_ok (shard_index hash_one ch) (f snap)) →
  (∀ snap ch', snap_ok (shard_index hash_one ch) snap → shard_slots snap ch' = subs_of a ch' →
    shard_slots (f snap) ch' = subs_of a' ch') →
  (∀ ch', shard_index hash_one ch' ≠ shard_index hash_one ch → subs_of a' ch' = subs_of a ch') →
  pats a' = pats a → ps_ok (with_shard hash_one ps ch f) a'.
Proof.
  intros (Hlen & Hsn & Hsub & Hidx & Hp) Hf Hs Ho Hpats. unfold ps_ok, with_shard. simpl.
  rewrite length_alter, Hpats. split; [done|]. split; [|split; [|done]].
  - intros i snap Hi. destruct (decide (i = shard_index hash_one ch)) as [->|].
    + rewrite list_lookup_alter_eq in Hi. apply fmap_Some in Hi as (snap0 & H0 & ->). by apply Hf, Hsn.
    + rewrite list_lookup_alter_ne in Hi by done. by apply Hsn.
  - intros ch'. specialize (Hsub ch'). unfold shard_for in *. simpl.
    destruct (decide (shard_index hash_one ch' = shard_index hash_one ch)) as [E|E].
    + rewrite E in Hsub. rewrite E, list_lookup_alter_eq.
      destruct (lookup_lt_is_Some_2 (shards ps) (shard_index hash_one ch)) as [snap Hl].
      { rewrite Hlen. apply chan_shard_lt. }
      rewrite Hl in Hsub. rewrite Hl. simpl in *. apply Hs; [by apply Hsn|done].
    + rewrite list_lookup_alter_ne by done. by rewrite Ho.
Qed.

Lemma subscribe_snap_ok ch s snap :
  snap_ok (shard_index hash_one ch) snap → snap_ok (shard_index hash_one ch) (shard_subscribe snap ch s).
Proof.
  intros [Hnd Hall]. unfold shard_subscribe.
  set (f := λ c0, if bool_decide (name c0 = ch) then mkChannel (name c0) (ch_slots c0 ++ [s]) else c0).
  assert (Hn : name <$> (f <$> snap) = name <$> snap).
  { rewrite <- list_fmap_compose. apply list_fmap_ext. intros ? cd _. unfold f. simpl. by case_bool_decide. }
  assert (Hf : Forall (λ cd, ch_slots cd ≠ [] ∧ shard_index hash_one (name cd) = shard_index hash_one ch) (f <$> snap)).
  { apply Forall_fmap. eapply Forall_impl; [exact Hall|]. intros cd [? ?]. unfold f. simpl.
    case_bool_decide; simpl; [|done]. split; [by destruct (ch_slots cd)|done]. }
  destruct (existsb _ snap) eqn:Ex; split; try done; [by rewrite Hn| |].
  - rewrite fmap_app, Hn. apply NoDup_app. split; [done|]. split; [|by apply NoDup_singleton].
    intros x Hx ->%list_elem_of_singleton. apply list_elem_of_fmap in Hx as (cd & Hcd & Hin).
    apply not_true_iff_false in Ex. apply Ex, existsb_exists. exists cd. split; [by apply list_elem_of_In|].
    by apply bool_decide_eq_true_2.
  - apply Forall_app. split; [done|]. by repeat constructor.
Qed.

Lemma unsubscribe_snap_ok ch s snap :
  snap_ok (shard_index hash_one ch) snap → snap_ok (shard_index hash_one ch) (shard_unsubscribe snap ch s).
Proof.
  intros [Hnd Hall]. split; [eapply sublist_NoDup; [exact Hnd|apply unsubscribe_names]|].
  unfold shard_unsubscribe. clear Hnd. induction Hall as [|cd snap Hcd Hall IH]; [constructor|]. rewrite omap_cons.
  case_bool_decide; [|by constructor]. destruct (other_slots s (ch_slots cd)); [done|]. constructor; [|done].
  by destruct Hcd.
Qed.

Lemma step_refines ps a o : ps_ok ps a → ps_ok (impl_step ps o) (spec_step a o).
Proof.
  intros Hok. destruct o as [ch s|ch s|p s|p s]; simpl.
  - apply (with_shard_ok _ a); [done|apply subscribe_snap_ok| | |done].
    + intros snap ch' _ Hs. rewrite shard_slots_subscribe, subs_of_app, Hs. simpl.
      case_bool_decide; [done|by rewrite app_nil_r].
    + intros ch' Hne. rewrite subs_of_app. simpl. rewrite bool_decide_eq_false_2 by congruence. by rewrite app_nil_r.
  - apply (with_shard_ok _ a); [done|apply unsubscribe_snap_ok| | |done].
    + intros snap ch' [Hnd _] Hs. rewrite shard_slots_unsubscribe, subs_of_remove by done. by rewrite Hs.
    + intros ch' Hne. rewrite subs_of_remove. by rewrite bool_decide_eq_false_2 by congruence.
  - destruct Hok as (Hlen & Hsn & Hsub & Hidx & Hp). destruct (index_add_ok _ p s Hidx) as [Hi Ha].
    split; [done|]. split; [done|]. split; [done|]. split; [done|]. simpl. by rewrite Ha, Hp.
  - destruct Hok as (Hlen & Hsn & Hsub & Hidx & Hp). destruct (index_remove_ok _ p s Hidx) as [Hi Ha].
    split; [done|]. split; [done|]. split; [done|]. split; [done|]. simpl. rewrite Ha. by apply filter_Permutation.
Qed.

Lemma new_ok : ps_ok PubSub_new (mkSubs [] []).
Proof.
  split; [done|]. split.
  { intros i snap Hi. apply lookup_replicate in Hi as [-> _]. split; constructor. }
  split.
  { intros ch. unfold shard_for, PubSub_new. cbn [shards]. by rewrite lookup_replicate_2 by apply chan_shard_lt. }
  assert (Hc : concat (replicate 256 []) = ([] : list PatternEntry)) by reflexivity.
  split; [|unfold all_patterns; cbn [PubSub_new patterns PatternIndex_new wildcard buckets]; by rewrite Hc].
  split; [apply length_replicate|]. split; [constructor|].
  split; [|cbn [PubSub_new patterns PatternIndex_new wildcard buckets total]; by rewrite Hc].
  intros b l Hl. apply lookup_replicate in Hl as [-> _]. constructor.
Qed.

Lemma subs_run_ok ops : ps_ok (foldl impl_step PubSub_new ops) (foldl spec_step (mkSubs [] []) ops).
Proof.
  induction ops as [|o ops IH] using rev_ind; [apply new_ok|]. rewrite !foldl_app. by apply step_refines.
Qed.

(** ** Publishing *)

Definition pattern_frame (ch msg : bytes) (e : PatternEntry) : SlotId * bytes :=
  (pat_slot e, encode_pmessage (pattern e) ch msg).

Lemma publish_patterns_eq l ch msg w n :
  publish_patterns l ch msg w n =
    (deliver w (pattern_frame ch msg <$> filter (matches ch) l), n + Z.of_nat (length (filter (matches ch) l))).
Proof.
  revert w n. induction l as [|e l IH]; intros w n; simpl; [by rewrite Z.add_0_r|]. rewrite filter_cons.
  destruct (decide (matches ch e)) as [Hm|Hm]; unfold matches in Hm.
  - rewrite Hm, IH, length_cons. f_equal. lia.
  - destruct (glob_match_bytes (pattern e) ch); [done|]. by rewrite IH.
Qed.

Lemma publish_eq ch msg ps a w :
  ps_ok ps a →
  let pl := filter (matches ch) (visited (patterns ps) ch) in
  let frames := ((λ s, (s, encode_message ch msg)) <$> subs_of a ch) ++ (pattern_frame ch msg <$> pl) in
  pl ≡ₚ filter (matches ch) (pats a) ∧
  publish hash_one ch msg ps w = (deliver w frames, Z.of_nat (length frames)).
Proof.
  intros (Hlen & Hsn & Hsub & Hidx & Hp) pl frames. split; [unfold pl; by rewrite visited_complete, Hp|].
  unfold publish, shard_publish. rewrite Hsub.
  assert (Hd : foldl (λ w s, push s (encode_message ch msg) w) w (subs_of a ch) =
               deliver w ((λ s, (s, encode_message ch msg)) <$> subs_of a ch)).
  { unfold deliver. by rewrite foldl_fmap. }
  rewrite Hd. unfold frames. rewrite deliver_app.
  rewrite length_app, !length_fmap.
  destruct (Z.eqb_spec (total (patterns ps)) 0) as [Et|Et].
  - pose proof Hidx as (_ & _ & _ & Ht). rewrite Ht in Et.
    assert (all_patterns (patterns ps) = []) as Hall by (apply nil_length_inv; unfold all_patterns; lia).
    assert (pl = []) as ->; [|simpl; f_equal; lia].
    apply Permutation_nil_r. unfold pl. rewrite visited_complete by done. by rewrite Hall.
  - rewrite publish_patterns_eq. unfold pl, visited. destruct ch as [|x ch].
    + rewrite app_nil_r. f_equal. lia.
    + rewrite publish_patterns_eq, filter_app, fmap_app, length_app, deliver_app. f_equal. lia.
Qed.

Lemma filter_same_slot (id : SlotId) (frame : bytes) l :
  (filter (λ p, p.1 = id) ((λ s, (s, frame)) <$> l)).*2 = replicate (length (filter (λ s, s = id) l)) frame.
Proof.
  induction l as [|s l IH]; [done|]. rewrite fmap_cons, !filter_cons. simpl. case_decide; simpl; [|done]. by f_equal.
Qed.

Lemma filter_pattern_slot (id : SlotId) ch msg l :
  (filter (λ p, p.1 = id) (pattern_frame ch msg <$> l)).*2 =
  (λ e, encode_pmessage (pattern e) ch msg) <$> filter (λ e, pat_slot e = id) l.
Proof.
  induction l as [|e l IH]; [done|]. rewrite fmap_cons, !filter_cons. simpl. case_decide; simpl; [|done]. by f_equal.
Qed.

(** C11: After any sequence of subscriptions and cancellations, PUBLISH reaches
    exactly the subscriptions in force: it replies with the number of
    subscribers of the channel plus the number of patterns that match it, and
    each slot's queue grows by one message frame per subscription of its own to
    the channel, then one pattern frame per matching pattern of its own, and is
    left notified when it grew.  The hashing of channels to shards and the
    index of patterns by first byte lose and invent nothing. *)
Theorem publish_delivers (ops : list PSOp) ch msg w :
  let ps := foldl impl_step PubSub_new ops in
  let a := foldl spec_step (mkSubs [] []) ops in
  ∃ pl, pl ≡ₚ filter (matches ch) (pats a) ∧
  (publish hash_one ch msg ps w).2 = Z.of_nat (length (subs_of a ch) + length pl) ∧
  ∀ id s, slots w !! id = Some s →
    ∃ s' frames, slots (publish hash_one ch msg ps w).1 !! id = Some s' ∧ queue s' = queue s ++ frames ∧
      frames = replicate (length (filter (λ s, s = id) (subs_of a ch))) (encode_message ch msg) ++
               ((λ e, encode_pmessage (pattern e) ch msg) <$> filter (λ e, pat_slot e = id) pl) ∧
      (frames ≠ [] → notify_pending s' = true).
Proof.
  intros ps a. destruct (publish_eq ch msg ps a w (subs_run_ok ops)) as [Hp ->]. eexists. split; [exact Hp|].
  simpl. split; [rewrite length_app, !length_fmap; lia|]. intros id s Hs.
  destruct (deliver_slot (((λ s, (s, encode_message ch msg)) <$> subs_of a ch) ++
    (pattern_frame ch msg <$> filter (matches ch) (visited (patterns ps) ch))) w id s Hs) as (s' & Hs' & _ & Hq & Hn).
  exists s'. eexists. split; [exact Hs'|]. split; [exact Hq|].
  rewrite filter_app, fmap_app, filter_same_slot, filter_pattern_slot. split; [done|].
  intros Hne. rewrite Hn, bool_decide_eq_false_2; [apply orb_true_r|]. intros E. apply Hne.
  rewrite <- filter_same_slot, <- filter_pattern_slot, <- fmap_app, <- filter_app, E. done.
Qed.

(** The channels of a snapshot are all active. *)
Lemma active_names i snap : snap_ok i snap → shard_active_channels None snap = name <$> snap.
Proof.
  intros [_ Hall]. unfold shard_active_channels. f_equal. induction Hall as [|cd snap [Hne _] Hall IH]; [done|].
  simpl. rewrite bool_decide_eq_false_2 by done. simpl. by f_equal.
Qed.

Lemma active_nodup (l : list ChannelShard) k :
  (∀ i snap, l !! i = Some snap → snap_ok (k + i) snap) →
  NoDup (l ≫= shard_active_channels None) ∧
  ∀ x, x ∈ l ≫= shard_active_channels None → (k <= shard_index hash_one x)%nat.
Proof.
  revert k. induction l as [|snap l IH]; intros k Hl; [split; [constructor|by intros x ?%not_elem_of_nil]|].
  destruct (IH (S k)) as [Hnd Hge].
  { intros i s Hi. replace (S k + i)%nat with (k + S i)%nat by lia. by apply Hl. }
  pose proof (Hl 0%nat snap eq_refl) as Hs. rewrite Nat.add_0_r in Hs. destruct Hs as [Hn Hall] eqn:E. clear E.
  rewrite bind_cons, (active_names k) by done. rewrite Forall_forall in Hall.
  assert (Hk : ∀ x, x ∈ name <$> snap → shard_index hash_one x = k).
  { intros x (cd & -> & Hcd)%list_elem_of_fmap. by apply Hall. }
  split.
  - apply NoDup_app. split; [done|]. split; [|done]. intros x Hx Hx'. specialize (Hk x Hx). specialize (Hge x Hx'). lia.
  - intros x [Hx|Hx]%elem_of_app; [rewrite (Hk x Hx); lia|specialize (Hge x Hx); lia].
Qed.

Lemma shard_slots_present snap ch :
  Forall (λ cd, ch_slots cd ≠ []) snap → shard_slots snap ch ≠ [] ↔ ch ∈ name <$> snap.
Proof.
  induction 1 as [|cd snap Hne Hall IH]; simpl; [by rewrite elem_of_nil|]. rewrite elem_of_cons.
  case_bool_decide; [split; [by left|done]|]. rewrite IH. split; [by right|intros [?|?]; [congruence|done]].
Qed.

Lemma active_elem ps a ch : ps_ok ps a → ch ∈ active_channels None ps ↔ subs_of a ch ≠ [].
Proof.
  intros (Hlen & Hsn & Hsub & _). rewrite <- Hsub. unfold active_channels, shard_for.
  destruct (lookup_lt_is_Some_2 (shards ps) (shard_index hash_one ch)) as [snap Hl]; [rewrite Hlen; apply chan_shard_lt|].
  rewrite Hl. simpl. pose proof (Hsn _ _ Hl) as [Hnd Hall].
  rewrite shard_slots_present by (eapply Forall_impl; [exact Hall|by intros ? []]).
  rewrite list_elem_of_bind. split.
  - intros (snap' & Hin & Hs'). apply list_elem_of_lookup in Hs' as [j Hj]. pose proof (Hsn _ _ Hj) as Hok.
    rewrite (active_names j) in Hin by done. destruct Hok as [_ Hall']. rewrite Forall_forall in Hall'.
    apply list_elem_of_fmap in Hin as (cd & -> & Hcd). destruct (Hall' _ Hcd) as [_ Hj']. subst j. simplify_eq.
    by apply list_elem_of_fmap_2.
  - intros Hin. exists snap. split; [|by eapply list_elem_of_lookup_2].
    by rewrite (active_names (shard_index hash_one ch)).
Qed.

(** The introspection commands report the subscriptions in force: NUMSUB
    and NUMPAT count them, and CHANNELS lists every channel that has a
    subscriber exactly once. *)
Theorem pubsub_introspection (ops : list PSOp) ch :
  let ps := foldl impl_step PubSub_new ops in
  let a := foldl spec_step (mkSubs [] []) ops in
  numsub hash_one [ch] ps = [(ch, Z.of_nat (length (subs_of a ch)))] ∧
  numpat ps = Z.of_nat (length (pats a)) ∧
  NoDup (active_channels None ps) ∧ (ch ∈ active_channels None ps ↔ subs_of a ch ≠ []).
Proof.
  intros ps a. pose proof (subs_run_ok ops) as (Hlen & Hsn & Hsub & Hidx & Hp). fold ps a in Hlen, Hsn, Hsub, Hidx, Hp.
  split; [unfold numsub, count_for; simpl; by rewrite Hsub|].
  split; [destruct Hidx as (_ & _ & _ & Ht); unfold numpat; rewrite Ht; fold (all_patterns (patterns ps)); by rewrite Hp|].
  split; [|exact (active_elem ps a ch (subs_run_ok ops))].
  apply (active_nodup (shards ps) 0). exact Hsn.
Qed.
End Refine.
