(* ===== verification/Conn.v ===== *)
(** A connection: handler/dispatch.rs, subscription.rs, pubsub_cmds.rs, the
    request path of conn.rs, and macros/sub.rs.

    [Sys] is what the connections share; a new [Arc<SubSlot>] takes the next
    free address.  A step of a connection ends in a panic or in a new state.  Sockets are not modelled:
    a request is the list of its parts, as bytes that need not be UTF-8. *)

From S2P Require Import Prelude Decimal MapIface CustomMap CustomMapSpec Resp Collections Value Store ListOps SetOps.
From S2P Require Import Handler CmdString CmdKeys CmdList CmdHash CmdSet CmdZSet CmdJson CmdServer CmdTable PubSub.
From Stdlib Require Import Strings.Byte.
Local Open Scope Z_scope.

Inductive ConnMode :=
| Normal
| Subscribed (slot : SlotId) (channels patterns : gset bytes).

Record Sys := mkSys {
  store : Store (CustomMap StoreValue);
  pubsub : PubSub;
  world : World;
  next_slot : SlotId;
}.

Record Conn := mkConn {
  wbuf : bytes;
  mode : ConnMode;
  conn_token : Z;
  conn_notifier : nat;
  auth_required : option bytes;
  authenticated : bool;
}.

Inductive Served :=
| SPanic
| SDone (s : Sys) (conn : Conn).

Definition with_wbuf (f : bytes → bytes) (c : Conn) : Conn :=
  mkConn (f (wbuf c)) (mode c) (conn_token c) (conn_notifier c) (auth_required c) (authenticated c).
Definition with_mode (m : ConnMode) (c : Conn) : Conn :=
  mkConn (wbuf c) m (conn_token c) (conn_notifier c) (auth_required c) (authenticated c).
Definition authenticate (c : Conn) : Conn :=
  mkConn (wbuf c) (mode c) (conn_token c) (conn_notifier c) (auth_required c) true.
Definition with_store (st : Store (CustomMap StoreValue)) (s : Sys) : Sys :=
  mkSys st (pubsub s) (world s) (next_slot s).
Definition with_pubsub (ps : PubSub) (s : Sys) : Sys := mkSys (store s) ps (world s) (next_slot s).

(** Write to the connection and stop there. *)
Definition say (f : bytes → bytes) (s : Sys) (c : Conn) : Served := SDone s (with_wbuf f c).

(** ** macros/sub.rs *)

(** The subtraction of the macro wraps. *)
Fixpoint write_sub_replies (kind : bytes) (items : list bytes) (i len total : Z) (out : bytes) : bytes :=
  match items with
  | [] => out
  | item :: items' =>
      let count := wrap64 (total - len + i + 1) in
      write_sub_replies kind items' (i + 1) len total (out ++ encode_sub_reply kind item count)
  end.

Fixpoint unsub_loop (kind : bytes) (targets : list bytes) (removed : gset bytes) (remaining : Z) (out : bytes)
    : bytes * Z :=
  match targets with
  | [] => (out, remaining)
  | item :: targets' =>
      if bool_decide (item ∈ removed) then
        let remaining := wrap64 (remaining - 1) in
        unsub_loop kind targets' removed remaining (out ++ encode_sub_reply kind item remaining)
      else unsub_loop kind targets' removed remaining out
  end.

Definition write_unsub_replies (kind : bytes) (targets : list bytes) (removed : gset bytes) (remaining : Z)
    (out : bytes) : bytes :=
  let '(out, remaining) := unsub_loop kind targets removed remaining out in
  if is_nil targets && (remaining =? 0) then out ++ encode_sub_reply kind [] 0 else out.

Section Conn.
Context (chan_hash hash_one : bytes → Z) `{HashOrder} (clock : Clock) (env : Env).
#[local] Instance conn_kv : KVMap StoreValue (CustomMap StoreValue) := custom_kv hash_one.
Implicit Types (s : Sys) (c : Conn) (parts : list bytes).

(** ** subscription.rs *)

(** A slot of the connection's own, made on first use. *)
Definition ensure_slot s c : Sys * Conn * SlotId :=
  match mode c with
  | Subscribed slot _ _ => (s, c, slot)
  | Normal =>
      let slot := next_slot s in
      let w := world s in
      (mkSys (store s) (pubsub s)
         (mkWorld (<[slot := SubSlot_new (conn_token c) (conn_notifier c)]> (slots w)) (notifiers w)) (S slot),
       with_mode (Subscribed slot ∅ ∅) c, slot)
  end.

(** The items not yet in the set, in order, and the set with them. *)
Fixpoint insert_new (items : list bytes) (set : gset bytes) : list bytes * gset bytes :=
  match items with
  | [] => ([], set)
  | x :: items' =>
      if bool_decide (x ∈ set) then insert_new items' set
      else let '(l, set') := insert_new items' ({[x]} ∪ set) in (x :: l, set')
  end.

Definition sub_total c : Z :=
  match mode c with
  | Subscribed _ channels patterns => Z.of_nat (size channels + size patterns)
  | Normal => 0
  end.

(** SUBSCRIBE ([pats = false]) and PSUBSCRIBE. *)
Definition handle_sub_with (pats : bool) (kind : bytes) s c parts : Served :=
  if (length parts <? 2)%nat then say (λ out, write_wrong_args out kind) s c
  else
    let new_items := drop 1 parts in
    let '(s, c, slot) := ensure_slot s c in
    match mode c with
    | Normal => SPanic
    | Subscribed slot' channels patterns =>
        let '(to_register, set) := insert_new new_items (if pats then patterns else channels) in
        let register := if pats then psubscribe else subscribe chan_hash in
        let s := with_pubsub (foldl (λ ps x, register x slot ps) (pubsub s) to_register) s in
        let c := with_mode (if pats then Subscribed slot' channels set else Subscribed slot' set patterns) c in
        say (write_sub_replies kind new_items 0 (Z.of_nat (length new_items)) (sub_total c)) s c
    end.
Definition handle_subscribe := handle_sub_with false (B "subscribe").
Definition handle_psubscribe := handle_sub_with true (B "psubscribe").

(** Remove the targets that are in the set: the set left, the ones removed and the registry. *)
Fixpoint remove_targets (cancel : bytes → PubSub → PubSub) (targets : list bytes) (set removed : gset bytes)
    (ps : PubSub) : gset bytes * gset bytes * PubSub :=
  match targets with
  | [] => (set, removed, ps)
  | x :: targets' =>
      if bool_decide (x ∈ set)
      then remove_targets cancel targets' (set ∖ {[x]}) ({[x]} ∪ removed) (cancel x ps)
      else remove_targets cancel targets' set removed ps
  end.

(** UNSUBSCRIBE ([pats = false]) and PUNSUBSCRIBE. *)
Definition handle_unsub_with (pats : bool) (kind : bytes) s c parts : Served :=
  match mode c with
  | Normal => say (λ out, out ++ encode_sub_reply kind [] 0) s c
  | Subscribed slot channels patterns =>
      let set := if pats then patterns else channels in
      let targets := if (length parts <=? 1)%nat then set_order set else drop 1 parts in
      let cancel x := if pats then punsubscribe x slot else unsubscribe chan_hash x slot in
      let '(set, removed, ps) := remove_targets cancel targets set ∅ (pubsub s) in
      let s := with_pubsub ps s in
      let '(channels, patterns) := if pats then (channels, set) else (set, patterns) in
      let remaining := Z.of_nat (size channels + size patterns) in
      let c := with_wbuf (write_unsub_replies kind targets removed (remaining + Z.of_nat (size removed))) c in
      let none := bool_decide (channels = ∅) && bool_decide (patterns = ∅) in
      SDone s (with_mode (if none then Normal else Subscribed slot channels patterns) c)
  end.
Definition handle_unsubscribe := handle_unsub_with false (B "unsubscribe").
Definition handle_punsubscribe := handle_unsub_with true (B "punsubscribe").

Definition do_full_unsubscribe s c : Sys * Conn :=
  match mode c with
  | Normal => (s, c)
  | Subscribed slot channels patterns =>
      let ps := foldl (λ ps ch, unsubscribe chan_hash ch slot ps) (pubsub s) (set_order channels) in
      let ps := foldl (λ ps p, punsubscribe p slot ps) ps (set_order patterns) in
      (with_pubsub ps s, with_mode Normal c)
  end.

(** ** pubsub_cmds.rs *)

Definition pubsub_info parts (ps : PubSub) (out : bytes) : bytes :=
  match parts !! 1%nat with
  | None => write_err out (B "wrong number of arguments for 'pubsub' command")
  | Some sub =>
      let sub := ascii_uppercase sub in
      if bool_decide (sub = B "CHANNELS") then
        write_array out (stable_sort str_le (active_channels (parts !! 2%nat) ps))
      else if bool_decide (sub = B "NUMSUB") then
        let pairs := numsub chan_hash (drop 2 parts) ps in
        foldl (λ out p, write_integer (write_bulk out p.1) (as_i64 p.2))
          (write_array_header out (Z.of_nat (length pairs * 2))) pairs
      else if bool_decide (sub = B "NUMPAT") then write_integer out (as_i64 (numpat ps))
      else write_err out (B "unknown pubsub subcommand")
  end.

(** ** dispatch.rs *)

(** Equal up to the case of the left string. *)
Definition cmd_eq (a upper : bytes) : bool :=
  (length a =? length upper)%nat &&
  forallb (λ p : byte * byte, bool_decide (to_ascii_uppercase p.1 = p.2)) (zip a upper).

(** A handler on the connection's store and output. *)
Definition serve (h : Handler (CustomMap StoreValue) unit) s c : Served :=
  match run h (store s) (wbuf c) with
  | None => SPanic
  | Some (st, out) => SDone (with_store st s) (with_wbuf (λ _, out) c)
  end.

(** The commands dispatched by their first letter. *)
Definition fast_path (cmd : bytes) parts : option (Handler (CustomMap StoreValue) unit) :=
  match to_ascii_uppercase <$> head cmd with
  | Some "S"%byte =>
      if cmd_eq cmd (B "SET") then Some (CmdString.set clock parts)
      else if cmd_eq cmd (B "SADD") then Some (CmdSet.sadd clock parts) else None
  | Some "G"%byte => if cmd_eq cmd (B "GET") then Some (CmdString.get clock parts) else None
  | Some "D"%byte => if cmd_eq cmd (B "DEL") then Some (CmdKeys.del parts) else None
  | Some "I"%byte => if cmd_eq cmd (B "INCR") then Some (CmdString.incr parts) else None
  | Some "H"%byte =>
      if cmd_eq cmd (B "HSET") then Some (CmdHash.hset clock parts)
      else if cmd_eq cmd (B "HGET") then Some (CmdHash.hget clock parts) else None
  | Some "L"%byte =>
      if cmd_eq cmd (B "LPUSH") then Some (CmdList.lpush clock parts)
      else if cmd_eq cmd (B "LPOP") then Some (CmdList.lpop clock parts)
      else if cmd_eq cmd (B "LRANGE") then Some (CmdList.lrange clock parts) else None
  | Some "R"%byte =>
      if cmd_eq cmd (B "RPUSH") then Some (CmdList.rpush clock parts)
      else if cmd_eq cmd (B "RPOP") then Some (CmdList.rpop clock parts) else None
  | Some "E"%byte => if cmd_eq cmd (B "EXPIRE") then Some (CmdKeys.expire clock parts) else None
  | Some "Z"%byte => if cmd_eq cmd (B "ZADD") then Some (CmdZSet.zadd clock parts) else None
  | Some "J"%byte =>
      if (length cmd =? 8)%nat && cmd_eq cmd (B "JSON.SET") then Some (CmdJson.json_set clock parts)
      else if (length cmd =? 8)%nat && cmd_eq cmd (B "JSON.GET") then Some (CmdJson.json_get clock parts) else None
  | _ => None
  end.

Definition dispatch_normal (cmd : bytes) parts s c : Served :=
  match fast_path cmd parts with
  | Some h => serve h s c
  | None =>
      if cmd_eq cmd (B "SUBSCRIBE") then handle_subscribe s c parts
      else if cmd_eq cmd (B "PSUBSCRIBE") then handle_psubscribe s c parts
      else if cmd_eq cmd (B "UNSUBSCRIBE") || cmd_eq cmd (B "PUNSUBSCRIBE") then
        say (λ out, out ++ encode_sub_reply (B "unsubscribe") [] 0) s c
      else if cmd_eq cmd (B "PUBLISH") then
        match parts with
        | [_; channel; message] =>
            let '(w, n) := publish chan_hash channel message (pubsub s) (world s) in
            say (λ out, write_integer out (as_i64 n)) (mkSys (store s) (pubsub s) w (next_slot s)) c
        | _ => say (λ out, write_wrong_args out (B "publish")) s c
        end
      else if cmd_eq cmd (B "PUBSUB") then say (pubsub_info parts (pubsub s)) s c
      else serve (execute hash_one clock env parts) s c
  end.

Definition dispatch_subscribed (cmd : bytes) parts s c : Served :=
  if cmd_eq cmd (B "SUBSCRIBE") then handle_subscribe s c parts
  else if cmd_eq cmd (B "UNSUBSCRIBE") then handle_unsubscribe s c parts
  else if cmd_eq cmd (B "PSUBSCRIBE") then handle_psubscribe s c parts
  else if cmd_eq cmd (B "PUNSUBSCRIBE") then handle_punsubscribe s c parts
  else if cmd_eq cmd (B "PING") then
    let msg := default [] (parts !! 1%nat) in
    let head := B "*2" ++ CRLF ++ B "$4" ++ CRLF ++ B "pong" ++ CRLF in
    say (λ out, match msg with
                | [] => out ++ head ++ B "$0" ++ CRLF ++ CRLF
                | _ => write_bulk (out ++ head) msg
                end) s c
  else if cmd_eq cmd (B "RESET") || cmd_eq cmd (B "QUIT") then
    let '(s, c) := do_full_unsubscribe s c in say (λ out, write_simple out (B "OK")) s c
  else say (λ out, out ++ B "-ERR Command not allowed in subscribed state" ++ CRLF) s c.

Definition dispatch parts s c : Served :=
  match parts with
  | [] => say (λ out, out ++ B "-ERR empty command" ++ CRLF) s c
  | cmd :: _ =>
      match mode c with
      | Normal => dispatch_normal cmd parts s c
      | Subscribed _ _ _ => dispatch_subscribed cmd parts s c
      end
  end.

(** ** conn.rs *)

(** [part_str] of the given parts in order: go on when all are UTF-8. *)
Definition with_strs (l : list bytes) (k : Served) s c : Served :=
  if forallb utf8_valid l then k else say (λ out, write_err out (B "invalid UTF-8 in request")) s c.

(** The loop of [constant_time_eq] over bytes of the same length. *)
Definition constant_time_eq (a b : bytes) : bool :=
  (length a =? length b)%nat &&
  (foldl (λ diff p, Z.lor diff (Z.lxor (b2z p.1) (b2z p.2))) 0 (zip a b) =? 0).

Definition handle_unauth (raw : list bytes) s c : Served :=
  let cmd := default [] (head raw) in
  if eq_ignore_case cmd (B "AUTH") then
    match raw !! 1%nat with
    | Some pass =>
        with_strs [pass]
          (match auth_required c with
           | Some expected =>
               if constant_time_eq pass expected
               then say (λ out, out ++ B "+OK" ++ CRLF) s (authenticate c)
               else say (λ out, out ++ B "-WRONGPASS invalid username-password pair" ++ CRLF) s c
           | None => say (λ out, out ++ B "+OK" ++ CRLF) s (authenticate c)
           end) s c
    | None => say (λ out, write_wrong_args out (B "auth")) s c
    end
  else if eq_ignore_case cmd (B "PING") then say (λ out, out ++ B "+PONG" ++ CRLF) s c
  else if eq_ignore_case cmd (B "QUIT") then say (λ out, out ++ B "+OK" ++ CRLF) s c
  else say (λ out, out ++ B "-NOAUTH Authentication required." ++ CRLF) s c.

(** The requests answered before any dispatch, in any mode.  (A longer SET or
    SADD has its first strings checked here and then again with the others.) *)
Definition raw_path (raw : list bytes) s c : option Served :=
  let named name := eq_ignore_case (default [] (head raw)) name in
  match raw with
  | [_; key] =>
      if named (B "GET") then
        Some (with_strs [key]
          (let '(st, out, found) := get_to_buf clock key (wbuf c) (store s) in
           SDone (with_store st s) (with_wbuf (λ _, if found then out else out ++ B "$-1" ++ CRLF) c)) s c)
      else if named (B "DEL") then
        Some (with_strs [key]
          (let '(st, b) := Store.del key (store s) in
           say (λ out, out ++ (if b : bool then B ":1" else B ":0") ++ CRLF) (with_store st s) c) s c)
      else if named (B "INCR") then
        Some (with_strs [key]
          (let '(st, r) := Store.incr key (store s) in
           say (λ out, match r with Ok n => write_integer out n | Err e => write_err out e end) (with_store st s) c) s c)
      else if named (B "RPOP") then
        Some (with_strs [key]
          (let '(st, r) := ListOps.rpop clock key 1 (store s) in
           say (λ out, match r with Ok (v :: _) => write_bulk out v | _ => out ++ B "$-1" ++ CRLF end)
             (with_store st s) c) s c)
      else None
  | [_; key; value] =>
      if named (B "SET") then
        Some (with_strs [key; value]
          (say (λ out, out ++ B "+OK" ++ CRLF) (with_store (set_string key value 0 (store s)) s) c) s c)
      else if named (B "SADD") then
        Some (with_strs [key; value]
          (let '(st, r) := SetOps.sadd clock key [value] (store s) in
           say (λ out, match r with Ok n => write_integer out (as_i64 n) | Err _ => write_wrong_type out end)
             (with_store st s) c) s c)
      else if named (B "LPUSH") then
        Some (with_strs [key; value]
          (let '(st, r) := ListOps.lpush clock key [value] (store s) in
           say (λ out, match r with Ok n => write_integer out (as_i64 n) | Err _ => write_wrong_type out end)
             (with_store st s) c) s c)
      else None
  | _ => None
  end.

Definition dispatch_raw (raw : list bytes) s c : Served :=
  match raw with
  | [] => SDone s c
  | _ =>
      if negb (authenticated c) then handle_unauth raw s c
      else match raw_path raw s c with
           | Some r => r
           | None => with_strs raw (dispatch raw s c) s c
           end
  end.
End Conn.
