(* ===== verification/ConnSpec.v ===== *)
(** The request path: authentication, and the agreement of the shortcuts with
    the command table. *)

From S2P Require Import Prelude Decimal MapIface CustomMap CustomMapSpec Resp Collections Value Store Commands StoreClaims ListOps SetOps.
From S2P Require Import Reply Handler HandlerSpec CmdString CmdKeys CmdList CmdHash CmdSet CmdZSet CmdServer.
From S2P Require Import CmdSpec CmdTable CmdTableSpec PubSub Conn.
From Stdlib Require Import Strings.Byte.
Local Open Scope Z_scope.

(** ** Comparisons *)

Lemma cmd_eq_spec a upper : cmd_eq a upper = true ↔ ascii_uppercase a = upper.
Proof.
  unfold cmd_eq. rewrite andb_true_iff, Nat.eqb_eq. revert upper.
  induction a as [|x a IH]; intros [|y upper]; simpl; [done|by split; [intros []|]|by split; [intros []|]|].
  rewrite andb_true_iff, bool_decide_eq_true. specialize (IH upper). unfold ascii_uppercase in *. split.
  - intros (Hl & -> & Hf). f_equal. apply IH. split; [lia|done].
  - intros [= -> E]. apply IH in E as [-> ?]. done.
Qed.

(** The loop finds a difference exactly where there is one. *)
Lemma xor_fold l d :
  0 <= d → foldl (λ diff (p : byte * byte), Z.lor diff (Z.lxor (b2z p.1) (b2z p.2))) d l = 0 ↔
  d = 0 ∧ Forall (λ p, p.1 = p.2) l.
Proof.
  revert d. induction l as [|[x y] l IH]; intros d Hd; simpl.
  - split; [intros ->; split; [done|constructor]|by intros [-> _]].
  - pose proof (b2z_range x). pose proof (b2z_range y).
    assert (Hx : 0 <= Z.lxor (b2z x) (b2z y)) by (apply Z.lxor_nonneg; lia).
    rewrite IH by (apply Z.lor_nonneg; lia). rewrite Z.lor_eq_0_iff, Forall_cons. simpl.
    rewrite Z.lxor_eq_0_iff. split; [intros [[? E] ?]|intros [? [-> ?]]]; split_and!; try done. by apply b2z_inj.
Qed.

Lemma constant_time_eq_spec a b : constant_time_eq a b = true ↔ a = b.
Proof.
  unfold constant_time_eq. rewrite andb_true_iff, Nat.eqb_eq, Z.eqb_eq, xor_fold by done. split.
  - intros (Hl & _ & Hf). revert b Hl Hf. induction a as [|x a IH]; intros [|y b] Hl Hf; simplify_eq/=; [done|].
    apply Forall_cons in Hf as [? ?]. simpl in *. subst. f_equal. by apply IH.
  - intros ->. split; [done|]. split; [done|]. induction b; simpl; by constructor.
Qed.

Section ConnClaims.
Context (chan_hash hash_one : bytes → Z) `{HashOrder} (clock : Clock) (env : Env).
#[local] Instance spec_kv : KVMap StoreValue (CustomMap StoreValue) := custom_kv hash_one.
Implicit Types (s : Sys) (c : Conn) (parts : list bytes).

(** ** Authentication *)

(** AUTH with the password of the server, or with any when none is set. *)
Definition grants c (raw : list bytes) : Prop :=
  eq_ignore_case (default [] (head raw)) (B "AUTH") = true ∧
  ∃ pass, raw !! 1%nat = Some pass ∧ utf8_valid pass = true ∧
    (auth_required c = None ∨ auth_required c = Some pass).

Lemma replied_line e out : plain e → replied out (out ++ B "-" ++ e ++ CRLF).
Proof. intros. exists (RError e). split; [by constructor|done]. Qed.
Lemma replied_status e out : plain e → replied out (out ++ B "+" ++ e ++ CRLF).
Proof. intros. exists (RSimple e). split; [by constructor|done]. Qed.

(** C10: The authentication gate.  Whatever a client sends before it has
    authenticated, the store, the registry and the slots are untouched, the
    connection stays in its mode, exactly one reply is written, and the
    connection becomes authenticated exactly when the request is AUTH with the
    required password (compared byte for byte). *)
Theorem unauth_gate raw s c :
  authenticated c = false → raw ≠ [] →
  ∃ c', dispatch_raw chan_hash hash_one clock env raw s c = SDone s c' ∧ mode c' = mode c ∧
    replied (wbuf c) (wbuf c') ∧ (authenticated c' = true ↔ grants c raw).
Proof.
  intros Ha Hr. unfold dispatch_raw. destruct raw as [|cmd args]; [done|]. rewrite Ha. cbn [negb].
  unfold handle_unauth, grants. change (default [] (head (cmd :: args))) with cmd.
  destruct (eq_ignore_case cmd (B "AUTH")).
  2:{ assert (Hno : authenticated c = true ↔ false = true ∧ ∃ pass, (cmd :: args) !! 1%nat = Some pass ∧
        utf8_valid pass = true ∧ (auth_required c = None ∨ auth_required c = Some pass)) by (rewrite Ha; naive_solver).
      destruct (eq_ignore_case cmd (B "PING")); [|destruct (eq_ignore_case cmd (B "QUIT"))]; eexists;
        (split; [reflexivity|]); split; try done; (split; [|exact Hno]); simpl.
      - apply (replied_status (B "PONG")). by apply plainb_plain.
      - apply (replied_status (B "OK")). by apply plainb_plain.
      - apply (replied_line (B "NOAUTH Authentication required.")). by apply plainb_plain. }
  destruct args as [|pass args]; cbn [lookup list_lookup].
  { eexists. split; [reflexivity|]. split; [done|]. split; [simpl; eauto with reply|]. simpl. rewrite Ha. naive_solver. }
  unfold with_strs. cbn [forallb]. destruct (utf8_valid pass) eqn:Eu; cbn [andb].
  2:{ eexists. split; [reflexivity|]. split; [done|]. split; [simpl; eauto with reply|]. simpl. rewrite Ha. naive_solver. }
  destruct (auth_required c) as [expected|] eqn:Er.
  - destruct (constant_time_eq pass expected) eqn:Ec; eexists; (split; [reflexivity|]); (split; [done|]).
    + apply constant_time_eq_spec in Ec as ->. split; [apply (replied_status (B "OK")); by apply plainb_plain|].
      simpl. naive_solver.
    + split; [apply (replied_line (B "WRONGPASS invalid username-password pair")); by apply plainb_plain|].
      simpl. rewrite Ha. split; [done|]. intros (_ & p & [= <-] & _ & [?|[= ->]]); [done|].
      rewrite (proj2 (constant_time_eq_spec pass pass) eq_refl) in Ec. done.
  - eexists. split; [reflexivity|]. split; [done|]. split; [apply (replied_status (B "OK")); by apply plainb_plain|].
    simpl. naive_solver.
Qed.

(** ** The shortcuts of [dispatch] *)

Lemma cmd_eq_command cmd name x : cmd_eq cmd name = true → name = as_str x → from_bytes cmd = x.
Proof. intros E ->. apply cmd_eq_spec in E. by apply from_bytes_of. Qed.

(** Close the goal with [H] at the first of the given commands that fits. *)
Ltac solve_with H l :=
  match l with
  | cons ?x ?l' => first [solve [apply (H x _ _ ltac:(eassumption) eq_refl eq_refl)] | solve_with H l']
  end.

Lemma fast_path_execute cmd args h :
  fast_path hash_one clock cmd (cmd :: args) = Some h → execute hash_one clock env (cmd :: args) = h.
Proof.
  unfold fast_path, execute. intros Hf. destruct (to_ascii_uppercase <$> head cmd) as [b|]; [|done].
  assert (Hc : ∀ x name (h' : Handler (CustomMap StoreValue) unit), cmd_eq cmd name = true → name = as_str x →
    handler_of hash_one clock env x (cmd :: args) = h' →
    handler_of hash_one clock env (from_bytes cmd) (cmd :: args) = h').
  { intros x name h' He Hn Hx. by rewrite (cmd_eq_command cmd name x He Hn). }
  destruct b; try discriminate Hf;
    repeat match type of Hf with
    | (if ?e then _ else _) = _ => destruct e eqn:?
    | None = _ => discriminate Hf
    end; injection Hf as <-;
    repeat match goal with He : _ && _ = true |- _ => apply andb_true_iff in He as [_ He] end;
    solve_with Hc [JSONSET; JSONGET; SET; SADD; GET; DEL; INCR; HSET; HGET; LPUSH; LPOP; LRANGE; RPUSH; RPOP; EXPIRE; ZADD].
Qed.

(** The commands that [dispatch] routes to the registry. *)
Definition pubsub_names : list bytes :=
  [B "SUBSCRIBE"; B "PSUBSCRIBE"; B "UNSUBSCRIBE"; B "PUNSUBSCRIBE"; B "PUBLISH"; B "PUBSUB"].

Lemma dispatch_normal_execute cmd args s c :
  ascii_uppercase cmd ∉ pubsub_names →
  dispatch_normal chan_hash hash_one clock env cmd (cmd :: args) s c =
    serve (execute hash_one clock env (cmd :: args)) s c.
Proof.
  intros Hn. unfold dispatch_normal. destruct (fast_path hash_one clock cmd (cmd :: args)) as [h|] eqn:Ef.
  { by rewrite (fast_path_execute _ _ _ Ef). }
  assert (Hne : ∀ name, name ∈ pubsub_names → cmd_eq cmd name = false).
  { intros name Hin. apply not_true_iff_false. intros E. apply cmd_eq_spec in E. by subst. }
  rewrite !Hne; [done|..]; unfold pubsub_names; set_solver.
Qed.

(** ** The shortcuts on the raw parts *)

(** Where a shortcut of [dispatch_raw] answers differently from the command it
    stands for: SET of a new key in a full map, RPOP of a key that holds no list. *)
Definition shortcut_differs (raw : list bytes) s : Prop :=
  match raw with
  | [cmd; key; value] =>
      eq_ignore_case cmd (B "SET") = true ∧ (kv_try_set key (mkValue (VString value) 0) (data (store s))).2 = None
  | [cmd; key] => eq_ignore_case cmd (B "RPOP") = true ∧ ∃ e, (ListOps.rpop clock key 1 (store s)).2 = Err e
  | _ => False
  end.

Lemma ignore_case_from cmd x : eq_ignore_case cmd (as_str x) = true → from_bytes cmd = x.
Proof.
  unfold eq_ignore_case. rewrite bool_decide_eq_true. intros E. apply from_bytes_of. rewrite E. by destruct x.
Qed.

(** The strings a shortcut checks are among the parts. *)
Lemma with_strs_ok l (k : Served) s c : forallb utf8_valid l = true → with_strs l k s c = k.
Proof. unfold with_strs. by intros ->. Qed.

(** [execute] with the handler of a command of a known name. *)
Lemma execute_named x cmd args h :
  eq_ignore_case cmd (as_str x) = true → handler_of hash_one clock env x (cmd :: args) = h →
  execute hash_one clock env (cmd :: args) = h.
Proof. intros E Hx. unfold execute. by rewrite (ignore_case_from _ _ E). Qed.

Lemma try_set_set key (v : StoreValue) (m : CustomMap StoreValue) :
  (kv_try_set key v m).2 ≠ None → kv_try_set key v m = ((kv_set key v m).1, Some (kv_set key v m).2).
Proof.
  unfold kv_try_set, kv_set, spec_kv, custom_kv, try_set.
  destruct (_ && negb _); [done|]. by destruct (CustomMap.set hash_one key v m).
Qed.

Lemma raw_set cmd key value s c :
  (kv_try_set key (mkValue (VString value) 0) (data (store s))).2 ≠ None →
  say (λ out, out ++ B "+OK" ++ CRLF) (with_store (set_string key value 0 (store s)) s) c =
  serve (CmdString.set clock [cmd; key; value]) s c.
Proof.
  intros Hfull. unfold serve, run, CmdString.set, set_options, mbind, handler_bind, mret, handler_ret, call.
  cbn [set_nx set_xx set_get set_expires orb andb negb]. unfold try_set_string. by rewrite try_set_set.
Qed.

Lemma raw_get cmd key s c :
  (let '(st, out, found) := get_to_buf clock key (wbuf c) (store s) in
   SDone (with_store st s) (with_wbuf (λ _, if found then out else out ++ B "$-1" ++ CRLF) c)) =
  serve (CmdString.get clock [cmd; key]) s c.
Proof. unfold serve, run, CmdString.get, get_or_nil. by destruct (get_to_buf _ _ _ _) as [[? ?] []]. Qed.

Lemma raw_del cmd key s c :
  (let '(st, b) := Store.del key (store s) in
   say (λ out, out ++ (if b : bool then B ":1" else B ":0") ++ CRLF) (with_store st s) c) =
  serve (CmdKeys.del [cmd; key]) s c.
Proof.
  unfold serve, run, CmdKeys.del, mbind, handler_bind, call. simpl. by destruct (Store.del key (store s)) as [? []].
Qed.

Lemma raw_incr cmd key s c :
  (let '(st, r) := Store.incr key (store s) in
   say (λ out, match r with Ok n => write_integer out n | Err e => write_err out e end) (with_store st s) c) =
  serve (CmdString.incr [cmd; key]) s c.
Proof.
  unfold serve, run, CmdString.incr, mbind, handler_bind, call. by destruct (Store.incr key (store s)) as [? [?|?]].
Qed.

Lemma raw_rpop cmd key s c :
  (∀ e, (ListOps.rpop clock key 1 (store s)).2 ≠ Err e) →
  (let '(st, r) := ListOps.rpop clock key 1 (store s) in
   say (λ out, match r with Ok (v :: _) => write_bulk out v | _ => out ++ B "$-1" ++ CRLF end)
     (with_store st s) c) = serve (CmdList.rpop clock [cmd; key]) s c.
Proof.
  intros Hok. unfold serve, run, CmdList.rpop, pop_with, mbind, handler_bind, mret, handler_ret, call.
  change (Z.to_nat 1) with 1%nat. destruct (ListOps.rpop clock key 1 (store s)) as [? [[|??]|e]]; [done..|].
  by destruct (Hok e).
Qed.

Lemma raw_push {A} (push : A → Store (CustomMap StoreValue) → Store (CustomMap StoreValue) * result Z) (x : A) s c :
  (let '(st, r) := push x (store s) in
   say (λ out, match r with Ok n => write_integer out (as_i64 n) | Err _ => write_wrong_type out end)
     (with_store st s) c) =
  serve (r ← call (push x); n ← wt r; put_integer (as_i64 n)) s c.
Proof. unfold serve, run, mbind, handler_bind, call. by destruct (push x (store s)) as [? [?|?]]. Qed.

Lemma raw_path_execute raw s c r :
  forallb utf8_valid raw = true → ¬ shortcut_differs raw s → raw_path hash_one clock raw s c = Some r →
  r = serve (execute hash_one clock env raw) s c.
Proof.
  intros Hu Hd. unfold raw_path. destruct raw as [|cmd [|key [|value [|]]]]; try done; cbn [head from_option id] in *;
    (cbn [forallb] in Hu; repeat (apply andb_true_iff in Hu as [? Hu])).
  - destruct (eq_ignore_case cmd (B "GET")) eqn:E1; [|destruct (eq_ignore_case cmd (B "DEL")) eqn:E2;
      [|destruct (eq_ignore_case cmd (B "INCR")) eqn:E3; [|destruct (eq_ignore_case cmd (B "RPOP")) eqn:E4; [|done]]]];
      intros [= <-]; rewrite with_strs_ok by (simpl; by rewrite andb_true_r).
    + rewrite (execute_named GET _ _ _ E1 eq_refl). apply raw_get.
    + rewrite (execute_named DEL _ _ _ E2 eq_refl). apply raw_del.
    + rewrite (execute_named INCR _ _ _ E3 eq_refl). apply raw_incr.
    + rewrite (execute_named RPOP _ _ _ E4 eq_refl). apply raw_rpop. intros e He. apply Hd. by split; [|exists e].
  - destruct (eq_ignore_case cmd (B "SET")) eqn:E1; [|destruct (eq_ignore_case cmd (B "SADD")) eqn:E2;
      [|destruct (eq_ignore_case cmd (B "LPUSH")) eqn:E3; [|done]]];
      intros [= <-]; rewrite with_strs_ok by (simpl; rewrite andb_true_r; by apply andb_true_iff).
    + rewrite (execute_named SET _ _ _ E1 eq_refl). apply raw_set. intros He. by apply Hd.
    + rewrite (execute_named SADD _ _ _ E2 eq_refl). apply (raw_push (SetOps.sadd clock key)).
    + rewrite (execute_named LPUSH _ _ _ E3 eq_refl). apply (raw_push (ListOps.lpush clock key)).
Qed.

#[global] Instance shortcut_differs_dec raw s : Decision (shortcut_differs raw s).
Proof.
  unfold shortcut_differs. destruct raw as [|cmd [|key [|value [|]]]]; try apply _.
  destruct (ListOps.rpop clock key 1 (store s)).2 as [x|e].
  - right. by intros [_ [? ?]].
  - apply and_dec; [apply _|]. left. by exists e.
Defined.

(** Where a shortcut differs, it still answers once. *)
Lemma raw_path_replies raw s c r :
  forallb utf8_valid raw = true → raw_path hash_one clock raw s c = Some r →
  r = serve (execute hash_one clock env raw) s c ∨ ∃ s' f, r = say f s' c ∧ ∀ out, replied out (f out).
Proof.
  intros Hu Hr. destruct (decide (shortcut_differs raw s)) as [Hd|Hd]; [|left; by apply raw_path_execute].
  right. unfold shortcut_differs in Hd. destruct raw as [|cmd [|key [|value [|]]]]; try done; destruct Hd as [Hn Hd].
  - assert (He : ∀ name, ascii_uppercase name ≠ ascii_uppercase (B "RPOP") → eq_ignore_case cmd name = false).
    { unfold eq_ignore_case in *. rewrite bool_decide_eq_true in Hn. intros name Hne. apply bool_decide_eq_false_2. congruence. }
    unfold raw_path in Hr. cbn [head from_option id] in Hr. rewrite !He, Hn in Hr by done.
    injection Hr as <-. rewrite with_strs_ok by (cbn [forallb] in *; repeat (apply andb_true_iff in Hu as [? Hu]); by rewrite andb_true_r).
    destruct Hd as [e He']. destruct (ListOps.rpop _ _ _ _) as [st res]. simpl in He'. subst res.
    eexists _, _. split; [reflexivity|]. intros out. exact (replied_nil out).
  - unfold raw_path in Hr. cbn [head from_option id] in Hr. rewrite Hn in Hr. injection Hr as <-.
    rewrite with_strs_ok by (cbn [forallb] in *; repeat (apply andb_true_iff in Hu as [? Hu]); rewrite andb_true_r; by apply andb_true_iff).
    eexists _, _. split; [reflexivity|]. intros out. apply (replied_status (B "OK")). by apply plainb_plain.
Qed.

(** A request that is not for the registry: one answer, or what the table says. *)
Lemma dispatch_raw_answers cmd args s c :
  authenticated c = true → mode c = Normal → forallb utf8_valid (cmd :: args) = true →
  ascii_uppercase cmd ∉ pubsub_names → env_plain env →
  may_panic (from_bytes cmd) = false → silent (from_bytes cmd) (cmd :: args) = false →
  ∃ s' out, dispatch_raw chan_hash hash_one clock env (cmd :: args) s c = SDone s' (with_wbuf (λ _, out) c) ∧
    replied (wbuf c) out.
Proof.
  intros Ha Hm Hu Hn Hp Hmp Hs.
  assert (Hserve : ∃ s' out, serve (execute hash_one clock env (cmd :: args)) s c = SDone s' (with_wbuf (λ _, out) c) ∧
    replied (wbuf c) out).
  { pose proof (execute_answers hash_one clock env (cmd :: args) (store s) (wbuf c) Hp) as Hans. cbn [nth] in Hans.
    rewrite Hmp, Hs in Hans. unfold serve. destruct (run (execute hash_one clock env (cmd :: args)) (store s) (wbuf c)) as [[st out]|]; [|done].
    destruct Hans as [Hans|[? _]]; [|done]. by eexists _, _. }
  unfold dispatch_raw. rewrite Ha. cbn [negb].
  destruct (raw_path hash_one clock (cmd :: args) s c) as [r|] eqn:Er.
  - apply raw_path_replies in Er as [->|(s' & f & -> & Hf)]; [done| |done]. by exists s', (f (wbuf c)).
  - rewrite with_strs_ok by done. unfold dispatch. rewrite Hm. by rewrite dispatch_normal_execute.
Qed.

(** C8: The shortcuts agree with the command table.  On an authenticated
    connection in normal mode, a request of valid strings that is not a
    publish/subscribe command is served exactly as the table says, whichever
    shortcut it takes (on the raw parts or on the first letter) and in whatever
    letter case it is spelled, but for the two shortcuts of [shortcut_differs]. *)
Theorem request_path_agrees cmd args s c :
  authenticated c = true → mode c = Normal → forallb utf8_valid (cmd :: args) = true →
  ascii_uppercase cmd ∉ pubsub_names → ¬ shortcut_differs (cmd :: args) s →
  dispatch_raw chan_hash hash_one clock env (cmd :: args) s c = serve (execute hash_one clock env (cmd :: args)) s c.
Proof.
  intros Ha Hm Hu Hn Hd. unfold dispatch_raw. rewrite Ha. cbn [negb].
  destruct (raw_path hash_one clock (cmd :: args) s c) as [r|] eqn:Er.
  { by apply raw_path_execute in Er. }
  rewrite with_strs_ok by done. unfold dispatch. rewrite Hm. by apply dispatch_normal_execute.
Qed.
End ConnClaims.

(** ** Runs *)

Definition demo_conn (auth : option bytes) : Conn := mkConn [] Normal 7 0 auth (bool_decide (auth = None)).
Definition demo_sys (max : Z) : Sys :=
  mkSys (after toy_hash (H := canonical_order) 2 max [(demo_clock, CSet (B "k") (B "v") 0)]) PubSub_new
    (mkWorld ∅ {[0%nat := WorkerNotifier_new]}) 0%nat.

Lemma unauth_gate_witness : ∃ c',
  dispatch_raw toy_hash toy_hash (H := canonical_order) demo_clock demo_env [B "auth"; B "pass"] (demo_sys 16)
    (demo_conn (Some (B "pass"))) = SDone (demo_sys 16) c' ∧ mode c' = Normal ∧ replied [] (wbuf c') ∧
  (authenticated c' = true ↔ grants (demo_conn (Some (B "pass"))) [B "auth"; B "pass"]).
Proof.
  exact (unauth_gate toy_hash toy_hash (H := canonical_order) demo_clock demo_env [B "auth"; B "pass"] (demo_sys 16)
    (demo_conn (Some (B "pass"))) eq_refl ltac:(discriminate)).
Defined.

Lemma request_path_agrees_witness :
  dispatch_raw toy_hash toy_hash (H := canonical_order) demo_clock demo_env [B "sEt"; B "k"; B "w"] (demo_sys 1)
    (demo_conn None) =
  serve (execute toy_hash (H := canonical_order) demo_clock demo_env [B "sEt"; B "k"; B "w"]) (demo_sys 1) (demo_conn None).
Proof.
  apply (request_path_agrees toy_hash toy_hash (H := canonical_order) demo_clock demo_env (B "sEt") [B "k"; B "w"]
    (demo_sys 1) (demo_conn None)); try reflexivity; [by vm_compute; set_solver|].
  intros [_ Hd]. revert Hd. vm_compute. discriminate.
Defined.

(** The SET shortcut ignores the key limit.  With one key stored and room
    for one, SET of another key through the shortcut is acknowledged and
    stores it, while the same request through the command table is refused
    and stores nothing. *)
Theorem set_shortcut_ignores_limit :
  let s := demo_sys 1 in
  let raw := [B "SET"; B "other"; B "v"] in
  let keys r := match r with SDone s c => Some (wbuf c, CustomMap.len (data (store s))) | _ => None end in
  keys (dispatch_raw toy_hash toy_hash (H := canonical_order) demo_clock demo_env raw s (demo_conn None)) =
    Some (B "+OK" ++ CRLF, 2) ∧
  keys (serve (execute toy_hash (H := canonical_order) demo_clock demo_env raw) s (demo_conn None)) =
    Some (B "-ERR OOM command not allowed: store is at capacity" ++ CRLF, 1).
Proof. split; vm_compute; reflexivity. Qed.
