(* ===== verification/Server.v ===== *)
(** The event loop: reading and writing of a connection (handler/conn.rs) and
    the worker (worker.rs).

    The sockets are the environment: a readable socket gives the chunks its
    reads return and whether it then blocks or ends, and a write takes as many
    bytes as the socket accepts.  The arms of the loop of [run_worker] are the
    functions [accept], [on_wake], [on_readable], [flush_dirty] and
    [flush_subscribers]; each read has a clock and an environment of its own. *)

From S2P Require Import Prelude Decimal MapIface CustomMap Resp Collections Value Store CmdServer PubSub Conn.
From stdpp Require Import sorting.
From Stdlib Require Import Strings.Byte.
Local Open Scope Z_scope.

Definition SUB_WRITE_BATCH_BYTES : Z := 256 * 1024.
Definition SLOW_SUB_MSG_CAP : Z := 262144.

(** A connection with the parser it reads through. *)
Record Client := mkClient { parser : RespParser; conn : Conn }.

Definition with_conn (k : Client) (c : Conn) : Client := mkClient (parser k) c.

(** How a run of reads ends: with [WouldBlock], or with the end or an error. *)
Inductive ReadEnd := WouldBlock | Ended.

(** What a socket does with a write: accept so many bytes and block, or fail. *)
Inductive WriteEnd := Accepts (n : nat) | Breaks.

(** A run of the loop of the worker: stuck is a panic or a read outside the
    parser's buffer; looping is out of fuel. *)
Inductive Step A :=
| Stuck
| Looping
| Next (a : A).
Arguments Stuck {A}.
Arguments Looping {A}.
Arguments Next {A} a.

Definition step_bind {A B} (m : Step A) (f : A → Step B) : Step B :=
  match m with Stuck => Stuck | Looping => Looping | Next a => f a end.

Definition served (r : Served) : Step (Sys * Conn) :=
  match r with SPanic => Stuck | SDone s c => Next (s, c) end.

Section Server.
Context (chan_hash hash_one : bytes → Z) `{HashOrder}.
Implicit Types (s : Sys) (k : Client).

(** ** conn.rs *)

Definition Conn_new (tok : Z) (notifier : nat) (auth : option bytes) s : Sys * Client :=
  (with_store (client_connected (store s)) s,
   mkClient RespParser_new (mkConn [] Normal tok notifier auth (bool_decide (auth = None)))).

(** A read into the buffer. *)
Definition fill (p : RespParser) (chunk : bytes) : RespParser := did_fill (read_buf p) chunk.

(** Serve the complete requests in the buffer; whether the connection stays open. *)
Fixpoint parse_loop (fuel : nat) (clock : Clock) (env : Env) s k : Step (Sys * Client * bool) :=
  match fuel with
  | O => Looping
  | S fuel' =>
      match parse_one (parser k) with
      | None => Stuck
      | Some (Incomplete, p) => Next (s, mkClient p (conn k), true)
      | Some (ParseError, p) => Next (s, mkClient p (conn k), false)
      | Some (Complete, p) =>
          match part_list p with
          | None => Stuck
          | Some raw =>
              step_bind (served (dispatch_raw chan_hash hash_one clock env raw s (conn k)))
                (λ '(s, c), parse_loop fuel' clock env s (mkClient p c))
          end
      end
  end.

(** Every request takes at least one byte. *)
Definition parse_fuel (p : RespParser) : nat := S (filled p - pos p).

Definition do_read (chunks : list bytes) (e : ReadEnd) (clock : Clock) (env : Env) s k : Step (Sys * Client * bool) :=
  let k := mkClient (foldl fill (parser k) chunks) (conn k) in
  match e with
  | Ended => Next (s, k, false)
  | WouldBlock => parse_loop (parse_fuel (parser k)) clock env s k
  end.

(** The unsent output is at offset 0 between calls. *)
Definition do_write (w : WriteEnd) s c : Sys * Conn * bool :=
  let '(s, c) :=
    match mode c with
    | Subscribed slot _ _ =>
        if zlen (wbuf c) <? SUB_WRITE_BATCH_BYTES then
          let '(wd, out) := drain_into_limit slot (wbuf c) SUB_WRITE_BATCH_BYTES (world s) in
          (mkSys (store s) (pubsub s) wd (next_slot s), with_wbuf (λ _, out) c)
        else (s, c)
    | Normal => (s, c)
    end in
  match wbuf c with
  | [] => (s, c, true)
  | _ => match w with Accepts n => (s, with_wbuf (drop n) c, true) | Breaks => (s, c, false) end
  end.

Definition has_pending_write s c : bool :=
  negb (bool_decide (wbuf c = [])) ||
  match mode c with Subscribed slot _ _ => has_pending slot (world s) | Normal => false end.

(** [drop] of a connection. *)
Definition drop_conn s c : Sys :=
  let s := (do_full_unsubscribe chan_hash s c).1 in
  with_store (client_disconnected (store s)) s.

(** ** worker.rs *)

Record Worker := mkWorker {
  conns : list (option Client);
  next_token : nat;
  free : list nat;
  sub_dirty : list nat;
  w_notifier : nat;
}.

Definition Worker_new (notifier : nat) : Worker := mkWorker [] 1 [] [] notifier.

Definition with_conns (l : list (option Client)) (w : Worker) : Worker :=
  mkWorker l (next_token w) (free w) (sub_dirty w) (w_notifier w).
Definition with_sub_dirty (l : list nat) (w : Worker) : Worker :=
  mkWorker (conns w) (next_token w) (free w) l (w_notifier w).

(** A token not in use, with its place in [conns]. *)
Definition alloc_slot (w : Worker) : nat * Worker :=
  match free w with
  | id :: l => (id, mkWorker (conns w) (next_token w) l (sub_dirty w) (w_notifier w))
  | [] =>
      let id := next_token w in
      let l := if (length (conns w) <=? id)%nat
               then conns w ++ replicate (id + 1 - length (conns w)) None else conns w in
      (id, mkWorker l (id + 1) [] (sub_dirty w) (w_notifier w))
  end.

Definition client_at (w : Worker) (id : nat) : option Client := o ← conns w !! id; o.

Definition close_conn (id : nat) s (w : Worker) : Sys * Worker :=
  match client_at w id with
  | None => (s, w)
  | Some k =>
      (drop_conn s (conn k),
       mkWorker (<[id := None]> (conns w)) (next_token w) (id :: free w) (sub_dirty w) (w_notifier w))
  end.

(** One connection from the listener: over the limit it is answered and dropped. *)
Definition accept (max_clients : Z) (auth : option bytes) s (w : Worker) : Sys * Worker * bytes :=
  if max_clients <=? connected_clients (store s)
  then (s, w, B "-ERR max number of clients reached" ++ CRLF)
  else
    let '(id, w) := alloc_slot w in
    let '(s, k) := Conn_new (Z.of_nat id) (w_notifier w) auth s in
    (s, with_conns (<[id := Some k]> (conns w)) w, []).

(** [dedup]: drop each element equal to the one before it. *)
Fixpoint dedup_from (x : nat) (l : list nat) : list nat :=
  match l with
  | [] => []
  | y :: l' => if (x =? y)%nat then dedup_from x l' else y :: dedup_from y l'
  end.
Definition dedup (l : list nat) : list nat := match l with [] => [] | x :: l' => x :: dedup_from x l' end.

(** The waker: collect the tokens notified. *)
Definition on_wake s (w : Worker) : Sys * Worker :=
  match notifiers (world s) !! w_notifier w with
  | None => (s, w)
  | Some n =>
      let '(n, toks) := drain_pending_into n (Z.of_nat <$> sub_dirty w) in
      (mkSys (store s) (pubsub s) (mkWorld (slots (world s)) (<[w_notifier w := n]> (notifiers (world s)))) (next_slot s),
       with_sub_dirty (dedup (merge_sort Nat.le (Z.to_nat <$> toks))) w)
  end.

(** A readable connection: serve it and close it, or leave it for a write. *)
Definition on_readable (id : nat) (chunks : list bytes) (e : ReadEnd) (clock : Clock) (env : Env) s (w : Worker)
    : Step (Sys * Worker * bool) :=
  match client_at w id with
  | None => Next (s, w, true)
  | Some k =>
      step_bind (do_read chunks e clock env s k)
        (λ '(s, k, alive),
           let w := with_conns (<[id := Some k]> (conns w)) w in
           if alive then Next (s, w, true) else let '(s, w) := close_conn id s w in Next (s, w, false))
  end.

(** Write what a connection has to send; whether it stays. *)
Definition write_conn (we : WriteEnd) (id : nat) (k : Client) s (w : Worker) : Sys * Worker * bool :=
  let '(s, c, alive) := do_write we s (conn k) in
  let w := with_conns (<[id := Some (with_conn k c)]> (conns w)) w in
  if alive then (s, w, true) else let '(s, w) := close_conn id s w in (s, w, false).

(** The loop over [dirty]; [sock] answers the writes in turn. *)
Fixpoint flush_dirty (sock : nat → WriteEnd) (dirty : list nat) s (w : Worker) : Sys * Worker :=
  match dirty with
  | [] => (s, w)
  | id :: dirty' =>
      match client_at w id with
      | None => flush_dirty (λ n, sock (S n)) dirty' s w
      | Some k => let '(s, w, _) := write_conn (sock O) id k s w in flush_dirty (λ n, sock (S n)) dirty' s w
      end
  end.

Definition is_slow_subscriber s c : bool :=
  match mode c with
  | Subscribed slot _ _ => SLOW_SUB_MSG_CAP <? queue_len slot (world s)
  | Normal => false
  end.

(** [v.swap_remove(i)] *)
Definition swap_remove (i : nat) (l : list nat) : list nat :=
  match last l with
  | None => l
  | Some x => if (S i =? length l)%nat then removelast l else <[i := x]> (removelast l)
  end.

(** The loop over [sub_dirty] from index [i]: one element less, or one step on. *)
Fixpoint flush_subscribers (fuel : nat) (sock : nat → WriteEnd) (i : nat) s (w : Worker) : Sys * Worker :=
  match fuel with
  | O => (s, w)
  | S fuel' =>
      match sub_dirty w !! i with
      | None => (s, w)
      | Some id =>
          let removed w := with_sub_dirty (swap_remove i (sub_dirty w)) w in
          match client_at w id with
          | None => flush_subscribers fuel' (λ n, sock (S n)) i s (removed w)
          | Some k =>
              if is_slow_subscriber s (conn k) then
                let '(s, w) := close_conn id s w in flush_subscribers fuel' (λ n, sock (S n)) i s (removed w)
              else
                let '(s, w, alive) := write_conn (sock O) id k s w in
                if negb alive then flush_subscribers fuel' (λ n, sock (S n)) i s (removed w)
                else match client_at w id with
                     | Some k =>
                         if has_pending_write s (conn k) then flush_subscribers fuel' (λ n, sock (S n)) (S i) s w
                         else flush_subscribers fuel' (λ n, sock (S n)) i s (removed w)
                     | None => flush_subscribers fuel' (λ n, sock (S n)) i s (removed w)
                     end
          end
      end
  end.

(** An event of [poll], with what the sockets and the clock say. *)
Inductive Event :=
| EAccept
| EWake
| EReadable (token : nat) (chunks : list bytes) (e : ReadEnd) (clock : Clock) (env : Env).

(** The events in order; the tokens to write to afterwards. *)
Fixpoint on_events (max_clients : Z) (auth : option bytes) (l : list Event) (dirty : list nat) s (w : Worker)
    : Step (Sys * Worker * list nat) :=
  match l with
  | [] => Next (s, w, dirty)
  | EAccept :: l' => let '(s, w, _) := accept max_clients auth s w in on_events max_clients auth l' dirty s w
  | EWake :: l' => let '(s, w) := on_wake s w in on_events max_clients auth l' dirty s w
  | EReadable id chunks e clock env :: l' =>
      step_bind (on_readable id chunks e clock env s w)
        (λ '(s, w, alive), on_events max_clients auth l' (if alive : bool then dirty ++ [id] else dirty) s w)
  end.

(** One turn of the loop. *)
Definition turn (max_clients : Z) (auth : option bytes) (events : list Event) (sock : nat → WriteEnd) s (w : Worker)
    : Step (Sys * Worker) :=
  step_bind (on_events max_clients auth events [] s w)
    (λ '(s, w, dirty),
       let '(s, w) := flush_dirty sock dirty s w in
       Next (flush_subscribers (length (sub_dirty w)) (λ n, sock (length dirty + n)%nat) 0 s w)).
End Server.

(** ** The process *)

(** The workers take turns; each has a notifier of its own. *)
Record Cluster := mkCluster { sys : Sys; workers : list Worker }.

Definition Cluster_new (st : Store (CustomMap StoreValue)) (n : nat) : Cluster :=
  mkCluster
    (mkSys st PubSub_new (mkWorld ∅ (list_to_map ((λ i, (i, WorkerNotifier_new)) <$> seq 0 n))) 0%nat)
    (Worker_new <$> seq 0 n).

Section Cluster.
Context (chan_hash hash_one : bytes → Z) `{HashOrder} (max_clients : Z) (auth : option bytes).

Inductive cluster_step : Cluster → Cluster → Prop :=
| worker_turn i events sock s w s' w' ws :
    ws !! i = Some w →
    turn chan_hash hash_one max_clients auth events sock s w = Next (s', w') →
    cluster_step (mkCluster s ws) (mkCluster s' (<[i := w']> ws)).
End Cluster.
