(* ===== verification/ServerSpec.v ===== *)
(** The server as a whole: the registry of subscriptions agrees with what the
    connections hold, whatever they do and however they end; requests sent as
    bytes come back as replies. *)

From S2P Require Import Prelude Decimal Glob MapIface CustomMap CustomMapSpec Resp RespSpec Collections Value Store.
From S2P Require Import Commands StoreClaims Reply Handler CmdServer CmdTable CmdTableSpec PubSub PubSubSpec Conn ConnSpec Server.
From Stdlib Require Import Strings.Byte.
Local Open Scope Z_scope.

(** ** What the connections hold *)

Definition slot_of (c : Conn) : option SlotId := match mode c with Subscribed slot _ _ => Some slot | Normal => None end.

Definition subscribed (slot : SlotId) (ch : bytes) (c : Conn) : Prop :=
  match mode c with Subscribed slot' channels _ => slot' = slot ∧ ch ∈ channels | Normal => False end.
Definition psubscribed (slot : SlotId) (p : bytes) (c : Conn) : Prop :=
  match mode c with Subscribed slot' _ patterns => slot' = slot ∧ p ∈ patterns | Normal => False end.

Section Agree.
Context (chan_hash hash_one : bytes → Z) `{HashOrder}.
Implicit Types (s : Sys) (c : Conn) (l : list Conn) (a : Subs).

(** The registry refines a list of subscriptions without repetitions, which are
    those the connections hold; no two connections share a slot. *)
Definition agrees_with s l a : Prop :=
  ps_ok chan_hash (pubsub s) a ∧ NoDup (chans a) ∧ NoDup (pats a) ∧
  (∀ ch sl, (ch, sl) ∈ chans a ↔ Exists (subscribed sl ch) l) ∧
  (∀ p sl, mkPattern p sl ∈ pats a ↔ Exists (psubscribed sl p) l).

Definition agrees s l : Prop :=
  NoDup (omap slot_of l) ∧ Forall (λ sl, (sl < next_slot s)%nat) (omap slot_of l) ∧ ∃ a, agrees_with s l a.

Lemma agrees_perm s l l' : l ≡ₚ l' → agrees s l → agrees s l'.
Proof.
  intros Hp (Hn & Hb & a & Hok & Hc & Hpt & H1 & H2). unfold agrees, agrees_with.
  rewrite <- Hp. split; [done|]. split; [done|]. exists a. split; [done|]. split; [done|]. split; [done|].
  split; intros; rewrite ?H1, ?H2; rewrite !Exists_exists; by setoid_rewrite Hp.
Qed.

(** Only the registry and the next slot count, and only the modes. *)
Lemma agrees_same s s' c c' l :
  pubsub s' = pubsub s → next_slot s' = next_slot s → mode c' = mode c → agrees s (c :: l) → agrees s' (c' :: l).
Proof.
  intros Hps Hns Hm. unfold agrees, agrees_with. rewrite Hps, Hns. simpl.
  assert (slot_of c' = slot_of c) as -> by (unfold slot_of; by rewrite Hm).
  intros (Hn & Hb & a & Hok & Hc & Hpt & H1 & H2). split; [done|]. split; [done|]. exists a.
  split; [done|]. split; [done|]. split; [done|]. split; intros; rewrite ?H1, ?H2, !Exists_cons.
  - unfold subscribed at 3. by rewrite Hm.
  - unfold psubscribed at 3. by rewrite Hm.
Qed.

Lemma slot_unique c l sl :
  NoDup (omap slot_of (c :: l)) → slot_of c = Some sl →
  (∀ ch, ¬ Exists (subscribed sl ch) l) ∧ (∀ p, ¬ Exists (psubscribed sl p) l).
Proof.
  intros Hn Hs. rewrite omap_cons, Hs in Hn. apply NoDup_cons in Hn as [Hni _].
  split; intros x Hx; apply Hni, list_elem_of_omap; apply Exists_exists in Hx as (c' & Hin & Hx);
    exists c'; (split; [done|]); unfold subscribed, psubscribed, slot_of in *;
    destruct (mode c'); naive_solver.
Qed.

(** One change of one connection's subscriptions. *)
Lemma agrees_step s c c' l sl o a :
  agrees s (c :: l) → agrees_with s (c :: l) a → slot_of c = Some sl → slot_of c' = Some sl →
  NoDup (chans (spec_step a o)) → NoDup (pats (spec_step a o)) →
  (∀ ch sl', (ch, sl') ∈ chans (spec_step a o) ↔
    (sl' = sl ∧ subscribed sl ch c') ∨ (sl' ≠ sl ∧ (ch, sl') ∈ chans a)) →
  (∀ p sl', mkPattern p sl' ∈ pats (spec_step a o) ↔
    (sl' = sl ∧ psubscribed sl p c') ∨ (sl' ≠ sl ∧ mkPattern p sl' ∈ pats a)) →
  agrees (with_pubsub (impl_step chan_hash (pubsub s) o) s) (c' :: l).
Proof.
  intros (Hn & Hb & _) (Hok & _ & _ & H1 & H2) Hs Hs' Hc Hp Hcs Hps.
  destruct (slot_unique c l sl Hn Hs) as [U1 U2].
  assert (Hother : ∀ k x sl', slot_of k = Some sl → sl' ≠ sl → ¬ subscribed sl' x k ∧ ¬ psubscribed sl' x k).
  { intros k x sl' Hk Hne. unfold slot_of, subscribed, psubscribed in *. destruct (mode k); naive_solver. }
  unfold agrees. rewrite omap_cons, Hs'. rewrite omap_cons, Hs in Hn, Hb.
  split; [done|]. split; [exact Hb|]. exists (spec_step a o).
  split; [by apply step_refines|]. split; [done|]. split; [done|].
  assert (He : sl = sl) by done. split; intros x sl'; [rewrite Hcs, H1|rewrite Hps, H2]; rewrite !Exists_cons;
    pose proof (U1 x); pose proof (U2 x); destruct (decide (sl' = sl)) as [->|Hne]; try tauto;
    destruct (Hother c x sl' Hs Hne), (Hother c' x sl' Hs' Hne); tauto.
Qed.

Lemma NoDup_snoc {A} (l : list A) x : NoDup l → x ∉ l → NoDup (l ++ [x]).
Proof. intros Hl Hx. apply NoDup_app. split; [done|]. split; [set_solver|]. apply NoDup_singleton. Qed.

(** The entries of a connection's slot. *)
Lemma agrees_own s c l sl chs pts :
  mode c = Subscribed sl chs pts → agrees s (c :: l) →
  ∃ a, agrees_with s (c :: l) a ∧ (∀ x, (x, sl) ∈ chans a ↔ x ∈ chs) ∧ (∀ p, mkPattern p sl ∈ pats a ↔ p ∈ pts).
Proof.
  intros Hm (Hn & _ & a & Hw). exists a. split; [done|]. destruct Hw as (_ & _ & _ & H1 & H2).
  assert (Hs : slot_of c = Some sl) by (unfold slot_of; by rewrite Hm).
  destruct (slot_unique c l sl Hn Hs) as [U1 U2]. split; intros x.
  - rewrite H1, Exists_cons. pose proof (U1 x). unfold subscribed at 1. rewrite Hm. tauto.
  - rewrite H2, Exists_cons. pose proof (U2 x). unfold psubscribed at 1. rewrite Hm. tauto.
Qed.

(** The four changes, one channel or pattern at a time. *)
Ltac change_one sl Hm Hag o :=
  let a := fresh "a" in let Hw := fresh "Hw" in let Hc := fresh "Hc" in let Hp := fresh "Hp" in
  let x := fresh "x" in let sl' := fresh "sl" in let Ho := fresh "Ho" in let Ho' := fresh "Ho'" in
  destruct (agrees_own _ _ _ _ _ _ Hm Hag) as (a & Hw & Ho & Ho'); pose proof Hw as (_ & Hc & Hp & _);
  refine (agrees_step _ _ _ _ _ o a Hag Hw _ _ _ _ _ _); simpl;
    [unfold slot_of; by rewrite Hm|reflexivity| | |
     intros x sl'; unfold subscribed; simpl; destruct (decide (sl' = sl)) as [->|]
     |intros x sl'; unfold psubscribed; simpl; destruct (decide (sl' = sl)) as [->|]].

Lemma agrees_subscribe s c l sl chs pts ch :
  mode c = Subscribed sl chs pts → ch ∉ chs → agrees s (c :: l) →
  agrees (with_pubsub (subscribe chan_hash ch sl (pubsub s)) s)
    (with_mode (Subscribed sl ({[ch]} ∪ chs) pts) c :: l).
Proof.
  intros Hm Hch Hag. change_one sl Hm Hag (OSubscribe ch sl); try done.
  - apply NoDup_snoc; [done|]. by rewrite Ho.
  - rewrite elem_of_app, list_elem_of_singleton, Ho. set_solver.
  - rewrite elem_of_app, list_elem_of_singleton. set_solver.
  - rewrite Ho'. naive_solver.
  - naive_solver.
Qed.

Lemma agrees_unsubscribe s c l sl chs pts ch :
  mode c = Subscribed sl chs pts → agrees s (c :: l) →
  agrees (with_pubsub (unsubscribe chan_hash ch sl (pubsub s)) s)
    (with_mode (Subscribed sl (chs ∖ {[ch]}) pts) c :: l).
Proof.
  intros Hm Hag. change_one sl Hm Hag (OUnsubscribe ch sl); try done.
  - by apply NoDup_filter.
  - rewrite list_elem_of_filter, Ho. set_solver.
  - rewrite list_elem_of_filter. set_solver.
  - rewrite Ho'. naive_solver.
  - naive_solver.
Qed.

Lemma agrees_psubscribe s c l sl chs pts p :
  mode c = Subscribed sl chs pts → p ∉ pts → agrees s (c :: l) →
  agrees (with_pubsub (psubscribe p sl (pubsub s)) s) (with_mode (Subscribed sl chs ({[p]} ∪ pts)) c :: l).
Proof.
  intros Hm Hch Hag. change_one sl Hm Hag (OPSubscribe p sl); try done.
  - apply NoDup_snoc; [done|]. by rewrite Ho'.
  - rewrite Ho. naive_solver.
  - naive_solver.
  - rewrite elem_of_app, list_elem_of_singleton, Ho'. set_solver.
  - rewrite elem_of_app, list_elem_of_singleton. set_solver.
Qed.

Lemma agrees_punsubscribe s c l sl chs pts p :
  mode c = Subscribed sl chs pts → agrees s (c :: l) →
  agrees (with_pubsub (punsubscribe p sl (pubsub s)) s) (with_mode (Subscribed sl chs (pts ∖ {[p]})) c :: l).
Proof.
  intros Hm Hag. change_one sl Hm Hag (OPUnsubscribe p sl); try done.
  - by apply NoDup_filter.
  - rewrite Ho. naive_solver.
  - naive_solver.
  - rewrite list_elem_of_filter, Ho'. set_solver.
  - rewrite list_elem_of_filter. set_solver.
Qed.

(** Runs of changes, to the channels or to the patterns ([mk] is the mode with a set). *)
Lemma agrees_insert_new l (mk : gset bytes → ConnMode) (register : bytes → PubSub → PubSub) :
  (∀ s c set x, mode c = mk set → x ∉ set → agrees s (c :: l) →
    agrees (with_pubsub (register x (pubsub s)) s) (with_mode (mk ({[x]} ∪ set)) c :: l)) →
  ∀ items s c set reg set', mode c = mk set → insert_new items set = (reg, set') → agrees s (c :: l) →
  agrees (with_pubsub (foldl (λ ps x, register x ps) (pubsub s) reg) s) (with_mode (mk set') c :: l).
Proof.
  intros Hone items. induction items as [|x items IH]; intros s c set reg set' Hm Hi Hag; simpl in Hi; simplify_eq.
  - by apply (agrees_same s _ c).
  - case_bool_decide as Hx; [by eapply IH|]. destruct (insert_new items ({[x]} ∪ set)) as [reg' set''] eqn:Er. simplify_eq.
    exact (IH (with_pubsub (register x (pubsub s)) s) (with_mode (mk ({[x]} ∪ set)) c) _ _ _ eq_refl Er
      (Hone _ _ _ _ Hm Hx Hag)).
Qed.

Lemma agrees_remove_targets l (mk : gset bytes → ConnMode) (cancel : bytes → PubSub → PubSub) :
  (∀ s c set x, mode c = mk set → agrees s (c :: l) →
    agrees (with_pubsub (cancel x (pubsub s)) s) (with_mode (mk (set ∖ {[x]})) c :: l)) →
  ∀ targets s c set removed set' removed' ps, mode c = mk set →
  remove_targets cancel targets set removed (pubsub s) = (set', removed', ps) → agrees s (c :: l) →
  agrees (with_pubsub ps s) (with_mode (mk set') c :: l).
Proof.
  intros Hone targets. induction targets as [|x targets IH];
    intros s c set removed set' removed' ps Hm Hi Hag; simpl in Hi; simplify_eq.
  - by apply (agrees_same s _ c).
  - case_bool_decide as Hx; [|by eapply IH].
    exact (IH (with_pubsub (cancel x (pubsub s)) s) (with_mode (mk (set ∖ {[x]})) c) _ _ _ _ _ eq_refl Hi
      (Hone _ _ _ x Hm Hag)).
Qed.

(** All of a set is removed, in whatever order. *)
Lemma agrees_remove_all l (mk : gset bytes → ConnMode) (cancel : bytes → PubSub → PubSub) :
  (∀ s c set x, mode c = mk set → agrees s (c :: l) →
    agrees (with_pubsub (cancel x (pubsub s)) s) (with_mode (mk (set ∖ {[x]})) c :: l)) →
  ∀ targets s c set, mode c = mk set → agrees s (c :: l) →
  agrees (with_pubsub (foldl (λ ps x, cancel x ps) (pubsub s) targets) s)
    (with_mode (mk (set ∖ list_to_set targets)) c :: l).
Proof.
  intros Hone targets. induction targets as [|x targets IH]; intros s c set Hm Hag.
  - simpl. rewrite difference_empty_L. by apply (agrees_same s _ c).
  - assert (set ∖ list_to_set (x :: targets) = set ∖ {[x]} ∖ list_to_set targets) as -> by set_solver.
    exact (IH (with_pubsub (cancel x (pubsub s)) s) (with_mode (mk (set ∖ {[x]})) c) _ eq_refl (Hone _ _ _ x Hm Hag)).
Qed.

(** Taking a slot, and giving up an empty one. *)
Definition holds_nothing c : Prop := ∀ x sl, ¬ subscribed sl x c ∧ ¬ psubscribed sl x c.

Lemma holds_nothing_normal c : mode c = Normal → holds_nothing c.
Proof. intros Hm x sl. unfold subscribed, psubscribed. rewrite Hm. tauto. Qed.
Lemma holds_nothing_empty c sl : mode c = Subscribed sl ∅ ∅ → holds_nothing c.
Proof. intros Hm x sl'. unfold subscribed, psubscribed. rewrite Hm. set_solver. Qed.

Lemma agrees_swap_empty s s' c c' l a :
  pubsub s' = pubsub s → holds_nothing c → holds_nothing c' → agrees_with s (c :: l) a → agrees_with s' (c' :: l) a.
Proof.
  intros Hps Hc Hc' (Hok & Hn & Hn' & H1 & H2). unfold agrees_with. rewrite Hps.
  split; [done|]. split; [done|]. split; [done|].
  split; intros x sl; rewrite ?H1, ?H2, !Exists_cons; destruct (Hc x sl), (Hc' x sl); tauto.
Qed.

Lemma agrees_enter s c l w :
  mode c = Normal → agrees s (c :: l) →
  agrees (mkSys (store s) (pubsub s) w (S (next_slot s))) (with_mode (Subscribed (next_slot s) ∅ ∅) c :: l).
Proof.
  intros Hm (Hn & Hb & a & Hw). unfold agrees. rewrite omap_cons in Hn, Hb. rewrite omap_cons.
  assert (Hs : slot_of c = None) by (unfold slot_of; by rewrite Hm). rewrite Hs in Hn, Hb. simpl.
  split; [constructor; [|done]; intros Hin; rewrite Forall_forall in Hb; specialize (Hb _ Hin); lia|].
  split; [constructor; [lia|]; eapply Forall_impl; [exact Hb|simpl; lia]|].
  exists a. eapply agrees_swap_empty; [| | |exact Hw]; [done|by apply holds_nothing_normal|by eapply holds_nothing_empty].
Qed.

Lemma agrees_leave s c l sl :
  mode c = Subscribed sl ∅ ∅ → agrees s (c :: l) → agrees s (with_mode Normal c :: l).
Proof.
  intros Hm (Hn & Hb & a & Hw). unfold agrees. rewrite omap_cons in Hn, Hb. rewrite omap_cons.
  assert (Hs : slot_of c = Some sl) by (unfold slot_of; by rewrite Hm). rewrite Hs in Hn, Hb. simpl. split; [by apply NoDup_cons in Hn as []|]. split; [by apply Forall_cons in Hb as []|].
  exists a. eapply agrees_swap_empty; [| | |exact Hw]; [done|by eapply holds_nothing_empty|by apply holds_nothing_normal].
Qed.

Lemma agrees_skip s c l : mode c = Normal → agrees s (c :: l) ↔ agrees s l.
Proof.
  intros Hm. unfold agrees, agrees_with. rewrite omap_cons.
  assert (Hs : slot_of c = None) by (unfold slot_of; by rewrite Hm). rewrite Hs.
  assert (Hx : ∀ a, (∀ ch sl, (ch, sl) ∈ chans a ↔ Exists (subscribed sl ch) (c :: l)) ↔
                    (∀ ch sl, (ch, sl) ∈ chans a ↔ Exists (subscribed sl ch) l)).
  { intros a. split; intros Ha ch sl; rewrite Ha, Exists_cons;
      destruct (holds_nothing_normal c Hm ch sl); tauto. }
  assert (Hy : ∀ a, (∀ p sl, mkPattern p sl ∈ pats a ↔ Exists (psubscribed sl p) (c :: l)) ↔
                    (∀ p sl, mkPattern p sl ∈ pats a ↔ Exists (psubscribed sl p) l)).
  { intros a. split; intros Ha p sl; rewrite Ha, Exists_cons;
      destruct (holds_nothing_normal c Hm p sl); tauto. }
  by setoid_rewrite Hx; setoid_rewrite Hy.
Qed.

(** ** The requests *)

Lemma full_unsubscribe_agrees s c l :
  agrees s (c :: l) →
  agrees (do_full_unsubscribe chan_hash s c).1 ((do_full_unsubscribe chan_hash s c).2 :: l) ∧
  mode (do_full_unsubscribe chan_hash s c).2 = Normal.
Proof.
  intros Hag. unfold do_full_unsubscribe. destruct (mode c) as [|sl chs pts] eqn:Hm; [done|]. split; [|done]. simpl.
  pose proof (agrees_remove_all l (λ set, Subscribed sl set pts) (λ x, unsubscribe chan_hash x sl)
    (λ s c set x, agrees_unsubscribe s c l sl set pts x) (set_order chs) s c chs Hm Hag) as Hag1.
  pose proof (agrees_remove_all l (λ set, Subscribed sl (chs ∖ list_to_set (set_order chs)) set)
    (λ x, punsubscribe x sl) (λ s c set x, agrees_punsubscribe s c l sl _ set x) (set_order pts) _
    (with_mode (Subscribed sl (chs ∖ list_to_set (set_order chs)) pts) c) pts eq_refl Hag1) as Hag2.
  assert (Hall : ∀ g : gset bytes, g ∖ list_to_set (set_order g) = ∅).
  { intros g. apply set_eq. intros x. rewrite elem_of_difference, elem_of_list_to_set, (set_order_perm g), elem_of_elements.
    set_solver. }
  rewrite !Hall in Hag2. exact (agrees_leave _ (with_mode (Subscribed sl ∅ ∅) c) _ sl eq_refl Hag2).
Qed.

(** A connection handled a request: the invariant goes on. *)
Definition keeps l (r : Served) : Prop := match r with SDone s c => agrees s (c :: l) | _ => True end.

Lemma keeps_serve s c l h : agrees s (c :: l) → keeps l (serve h s c).
Proof.
  intros Hag. unfold serve. destruct (run h (store s) (wbuf c)) as [[st out]|]; [|done].
  by apply (agrees_same s _ c).
Qed.

Lemma keeps_say f s c l : agrees s (c :: l) → keeps l (say f s c).
Proof. intros Hag. by apply (agrees_same s _ c). Qed.

Lemma keeps_with_strs strs r s c l : agrees s (c :: l) → keeps l r → keeps l (with_strs strs r s c).
Proof. intros. unfold with_strs. destruct (forallb _ _); [done|by apply keeps_say]. Qed.

Lemma ensure_slot_agrees s c l :
  agrees s (c :: l) →
  let '(s', c', sl) := ensure_slot s c in
  agrees s' (c' :: l) ∧ ∃ chs pts, mode c' = Subscribed sl chs pts.
Proof.
  intros Hag. unfold ensure_slot. destruct (mode c) as [|sl chs pts] eqn:Hm; [|eauto].
  split; [by apply agrees_enter|simpl; eauto].
Qed.

Lemma keeps_sub pts kind s c l parts : agrees s (c :: l) → keeps l (handle_sub_with chan_hash pts kind s c parts).
Proof.
  intros Hag. unfold handle_sub_with. destruct (_ <? _)%nat; [by apply keeps_say|].
  pose proof (ensure_slot_agrees s c l Hag) as He. destruct (ensure_slot s c) as [[s' c'] sl].
  destruct He as (Hag' & chs & ps & Hm). rewrite Hm.
  destruct (insert_new _ _) as [reg set] eqn:Ei. apply keeps_say. destruct pts.
  - exact (agrees_insert_new l (λ set, Subscribed sl chs set) (λ x, psubscribe x sl)
      (λ s c set x, agrees_psubscribe s c l sl chs set x) _ _ _ _ _ _ Hm Ei Hag').
  - exact (agrees_insert_new l (λ set, Subscribed sl set ps) (λ x, subscribe chan_hash x sl)
      (λ s c set x, agrees_subscribe s c l sl set ps x) _ _ _ _ _ _ Hm Ei Hag').
Qed.

Lemma keeps_unsub pts kind s c l parts : agrees s (c :: l) → keeps l (handle_unsub_with chan_hash pts kind s c parts).
Proof.
  intros Hag. unfold handle_unsub_with. destruct (mode c) as [|sl chs ps] eqn:Hm; [by apply keeps_say|].
  destruct (remove_targets _ _ _ _ _) as [[set removed] reg] eqn:Er.
  assert (Hag' : agrees (with_pubsub reg s)
    (with_mode (if pts then Subscribed sl chs set else Subscribed sl set ps) c :: l)).
  { destruct pts.
    - exact (agrees_remove_targets l (λ set, Subscribed sl chs set) (λ x, punsubscribe x sl)
        (λ s c set x, agrees_punsubscribe s c l sl chs set x) _ _ _ _ _ _ _ _ Hm Er Hag).
    - exact (agrees_remove_targets l (λ set, Subscribed sl set ps) (λ x, unsubscribe chan_hash x sl)
        (λ s c set x, agrees_unsubscribe s c l sl set ps x) _ _ _ _ _ _ _ _ Hm Er Hag). }
  assert (Hdone : ∀ s' c' m, agrees s' (with_mode m c' :: l) → ∀ c'', mode c'' = m → agrees s' (c'' :: l)).
  { intros s' c' m Ha c'' Hm'. by eapply agrees_same; [| | |exact Ha]. }
  destruct pts; unfold keeps; (destruct (_ && _) eqn:En; [|by eapply Hdone]);
    apply andb_true_iff in En as [->%bool_decide_eq_true ->%bool_decide_eq_true];
    eapply (agrees_leave _ _ _ sl) in Hag'; try done; by eapply Hdone.
Qed.

Lemma keeps_dispatch clock env s c l parts : agrees s (c :: l) → keeps l (dispatch chan_hash hash_one clock env parts s c).
Proof.
  intros Hag. unfold dispatch. destruct parts as [|cmd args]; [by apply keeps_say|]. destruct (mode c) eqn:Hm.
  - unfold dispatch_normal. destruct (fast_path _ _ _ _) as [h|]; [by apply keeps_serve|].
    repeat match goal with
    | |- keeps _ (if ?b then _ else _) => destruct b
    | |- keeps _ (handle_subscribe _ _ _ _) => by apply keeps_sub
    | |- keeps _ (handle_psubscribe _ _ _ _) => by apply keeps_sub
    | |- keeps _ (serve _ _ _) => by apply keeps_serve
    | |- keeps _ (say _ s c) => by apply keeps_say
    end.
    destruct args as [|channel [|message [|]]]; try by apply keeps_say.
    destruct (publish _ _ _ _ _) as [w n]. apply keeps_say. by apply (agrees_same s _ c).
  - unfold dispatch_subscribed.
    repeat match goal with
    | |- keeps _ (if ?b then _ else _) => destruct b
    | |- keeps _ (handle_subscribe _ _ _ _) => by apply keeps_sub
    | |- keeps _ (handle_psubscribe _ _ _ _) => by apply keeps_sub
    | |- keeps _ (handle_unsubscribe _ _ _ _) => by apply keeps_unsub
    | |- keeps _ (handle_punsubscribe _ _ _ _) => by apply keeps_unsub
    | |- keeps _ (say _ s c) => by apply keeps_say
    end.
    destruct (full_unsubscribe_agrees s c l Hag) as [Hag' _].
    destruct (do_full_unsubscribe chan_hash s c). by apply keeps_say.
Qed.

Lemma keeps_raw clock env s c l raw : agrees s (c :: l) → keeps l (dispatch_raw chan_hash hash_one clock env raw s c).
Proof.
  intros Hag. assert (Hsay : ∀ f s' , pubsub s' = pubsub s → next_slot s' = next_slot s → keeps l (say f s' c)).
  { intros f s' Hp Hn. apply keeps_say. by apply (agrees_same s _ c). }
  unfold dispatch_raw. destruct raw as [|cmd args]; [done|]. destruct (authenticated c); cbn [negb].
  - destruct (raw_path _ _ _ _ _) as [r|] eqn:Er; [|apply keeps_with_strs, keeps_dispatch; done].
    revert Er. unfold raw_path. repeat case_match; intros [= <-]; apply keeps_with_strs; try done;
      repeat case_match; try (by apply Hsay); by apply (agrees_same s _ c).
  - unfold handle_unauth. repeat case_match; try (by apply keeps_say); apply keeps_with_strs; try done;
      repeat case_match; try (by apply keeps_say); by apply (agrees_same s _ c).
Qed.

(** ** The worker *)

(** The connections of a worker. *)
Definition clients (w : Worker) : list Client := omap (λ o, o) (conns w).
Definition live (w : Worker) : list Conn := conn <$> clients w.

(** Free tokens are free, once each. *)
Record worker_wf (w : Worker) : Prop := {
  wf_len : (length (conns w) <= next_token w)%nat;
  wf_free : NoDup (free w);
  wf_empty : ∀ id, id ∈ free w → conns w !! id = Some None;
}.

(** One place of [conns] and the others. *)
Lemma live_place w id o :
  conns w !! id = Some o →
  ∃ rest, live w ≡ₚ (conn <$> omap (λ o, o) [o]) ++ rest ∧
    ∀ o' w', conns w' = <[id := o']> (conns w) → live w' ≡ₚ (conn <$> omap (λ o, o) [o']) ++ rest.
Proof.
  intros Hl. exists (conn <$> omap (λ o, o) (take id (conns w) ++ drop (S id) (conns w))).
  assert (Hmid : ∀ A B o', conn <$> omap (λ o, o) (A ++ o' :: B) ≡ₚ
    (conn <$> omap (λ o, o) [o']) ++ (conn <$> omap (λ o, o) (A ++ B))).
  { intros A B o'. rewrite <- fmap_app, <- omap_app. apply fmap_Permutation, omap_Permutation. simpl. solve_Permutation. }
  unfold live, clients. split.
  - rewrite <- (take_drop_middle _ _ _ Hl) at 1. apply Hmid.
  - intros o' w' ->. rewrite insert_take_drop by (by eapply lookup_lt_Some). apply Hmid.
Qed.

Lemma live_at w id k :
  client_at w id = Some k →
  ∃ rest, live w ≡ₚ conn k :: rest ∧
    (∀ k' w', conns w' = <[id := Some k']> (conns w) → live w' ≡ₚ conn k' :: rest) ∧
    (∀ w', conns w' = <[id := None]> (conns w) → live w' ≡ₚ rest).
Proof.
  unfold client_at. intros Hc. destruct (conns w !! id) as [[k'|]|] eqn:El; simplify_eq/=.
  destruct (live_place w id _ El) as (rest & H1 & H2). exists rest. split; [exact H1|]. split.
  - intros k' w' Hw. exact (H2 (Some k') w' Hw).
  - intros w' Hw. exact (H2 None w' Hw).
Qed.

Lemma client_at_free w id k : worker_wf w → client_at w id = Some k → id ∉ free w.
Proof.
  intros Hw Hc Hin. apply (wf_empty _ Hw) in Hin. unfold client_at in Hc. by rewrite Hin in Hc.
Qed.

(** A place in use may change. *)
Lemma wf_replace w id k k' : worker_wf w → client_at w id = Some k → worker_wf (with_conns (<[id := Some k']> (conns w)) w).
Proof.
  intros Hw Hc. pose proof (client_at_free w id k Hw Hc). destruct Hw as [Hl Hf He]. split; simpl; [|done|].
  - by rewrite length_insert.
  - intros id' Hin. rewrite list_lookup_insert_ne; [by apply He|congruence].
Qed.

Lemma client_at_replace w id k k' :
  client_at w id = Some k → client_at (with_conns (<[id := Some k']> (conns w)) w) id = Some k'.
Proof.
  unfold client_at. destruct (conns w !! id) as [o|] eqn:El; [|done]. intros _. simpl.
  by rewrite list_lookup_insert_eq by (by eapply lookup_lt_Some).
Qed.

(** The state of a worker beside the other connections [l]. *)
Definition worker_ok l s (w : Worker) : Prop := worker_wf w ∧ agrees s (live w ++ l).

Lemma drop_agrees s c l : agrees s (c :: l) → agrees (drop_conn chan_hash s c) l.
Proof.
  intros Hag. destruct (full_unsubscribe_agrees s c l Hag) as [Ha Hm]. unfold drop_conn.
  exact (proj1 (agrees_skip _ _ _ Hm) Ha).
Qed.

Lemma close_ok l s w id : worker_ok l s w → let '(s', w') := close_conn chan_hash id s w in worker_ok l s' w'.
Proof.
  intros [Hw Hag]. unfold close_conn. destruct (client_at w id) as [k|] eqn:Ec; [|done].
  destruct (live_at w id k Ec) as (rest & H1 & _ & H3). split.
  - pose proof (client_at_free w id k Hw Ec) as Hni. destruct Hw as [Hl Hf He]. split; simpl.
    + by rewrite length_insert.
    + by constructor.
    + unfold client_at in Ec. destruct (conns w !! id) as [o|] eqn:El; [|done].
      intros id' [->|Hin]%elem_of_cons; [apply list_lookup_insert_eq; by eapply lookup_lt_Some|].
      rewrite list_lookup_insert_ne; [by apply He|congruence].
  - apply (agrees_perm _ (rest ++ l)); [symmetry; by apply Permutation_app_tail, H3|]. apply drop_agrees.
    by apply (agrees_perm _ (live w ++ l)); [by rewrite H1|].
Qed.

(** A connection changed in place, and the shared state with it. *)
Lemma replace_ok l s s' w id k k' :
  worker_ok l s w → client_at w id = Some k → (∀ rest, agrees s (conn k :: rest) → agrees s' (conn k' :: rest)) →
  worker_ok l s' (with_conns (<[id := Some k']> (conns w)) w).
Proof.
  intros [Hw Hag] Hc Hk. split; [by eapply wf_replace|]. destruct (live_at w id k Hc) as (rest & H1 & H2 & _).
  apply (agrees_perm _ (conn k' :: rest ++ l)); [symmetry; by apply (Permutation_app_tail l (l' := conn k' :: rest)), H2|]. apply Hk.
  by apply (agrees_perm _ (live w ++ l)); [by rewrite H1|].
Qed.

Lemma parse_loop_agrees fuel clock env s k l :
  agrees s (conn k :: l) →
  match parse_loop chan_hash hash_one fuel clock env s k with
  | Next (s', k', _) => agrees s' (conn k' :: l)
  | _ => True
  end.
Proof.
  revert s k. induction fuel as [|fuel IH]; intros s k Hag; simpl; [done|].
  destruct (parse_one (parser k)) as [[[] p]|]; try done. destruct (part_list p) as [raw|]; [|done].
  pose proof (keeps_raw clock env s (conn k) l raw Hag) as Hk.
  destruct (dispatch_raw _ _ _ _ _ _ _) as [|s' c']; simpl; [done|]. by apply IH.
Qed.

Lemma do_write_agrees we s c l :
  agrees s (c :: l) → agrees (do_write we s c).1.1 ((do_write we s c).1.2 :: l).
Proof.
  intros Hag. unfold do_write.
  assert (Hs : ∀ wd f, agrees (mkSys (store s) (pubsub s) wd (next_slot s)) (with_wbuf f c :: l))
    by (intros; by apply (agrees_same s _ c)).
  assert (Hd : ∀ s' c', agrees s' (c' :: l) →
    let r := match wbuf c' with [] => (s', c', true)
             | _ => match we with Accepts n => (s', with_wbuf (drop n) c', true) | Breaks => (s', c', false) end end in
    agrees r.1.1 (r.1.2 :: l)).
  { intros s' c' Ha. destruct (wbuf c'), we; simpl; try done; by apply (agrees_same s' _ c'). }
  destruct (mode c); [by apply Hd|]. destruct (_ <? _); [|by apply Hd].
  destruct (drain_into_limit _ _ _ _). apply Hd, Hs.
Qed.

Lemma write_ok l s w id k we :
  worker_ok l s w → client_at w id = Some k →
  let '(s', w', _) := write_conn chan_hash we id k s w in worker_ok l s' w'.
Proof.
  intros Hok Hc. unfold write_conn.
  assert (Hw : ∀ rest, agrees s (conn k :: rest) →
    agrees (do_write we s (conn k)).1.1 ((do_write we s (conn k)).1.2 :: rest)).
  { intros rest. apply do_write_agrees. }
  destruct (do_write we s (conn k)) as [[s' c'] alive]. simpl in Hw.
  pose proof (replace_ok l s s' w id k (with_conn k c') Hok Hc Hw) as Hok'.
  destruct alive; [done|]. pose proof (close_ok _ _ _ id Hok') as Hcl. by destruct (close_conn _ _ _ _).
Qed.

Lemma readable_ok l s w id chunks e clock env :
  worker_ok l s w →
  match on_readable chan_hash hash_one id chunks e clock env s w with Next (s', w', _) => worker_ok l s' w' | _ => True end.
Proof.
  intros Hok. unfold on_readable. destruct (client_at w id) as [k|] eqn:Hc; [|done].
  assert (Hr : ∀ rest, agrees s (conn k :: rest) →
    match do_read chan_hash hash_one chunks e clock env s k with Next (s', k', _) => agrees s' (conn k' :: rest) | _ => True end).
  { intros rest Hag. unfold do_read. destruct e; [|done]. by apply parse_loop_agrees. }
  destruct (do_read _ _ _ _ _ _ _ _) as [| |[[s' k'] alive]]; simpl; [done..|].
  pose proof (replace_ok l s s' w id k k' Hok Hc Hr) as Hok'.
  destruct alive; [done|]. pose proof (close_ok _ _ _ id Hok') as Hcl. by destruct (close_conn _ _ _ _).
Qed.

(** The token allocated has an empty place. *)
Lemma alloc_ok w :
  worker_wf w → let '(id, w') := alloc_slot w in
  worker_wf w' ∧ live w' = live w ∧ (conns w' !! id = Some None) ∧ (id ∉ free w') ∧ (id < next_token w')%nat.
Proof.
  intros Hw. pose proof Hw as [Hl Hf He]. unfold alloc_slot. destruct (free w) as [|id fr] eqn:Efr; simpl.
  - destruct (Nat.leb_spec (length (conns w)) (next_token w)); [|lia].
    split; [split; simpl; [rewrite length_app, length_replicate; lia|constructor|set_solver]|].
    split; [|split; [|split; [set_solver|lia]]].
    + unfold live, clients. simpl. rewrite omap_app. f_equal.
      replace (omap _ (replicate _ None)) with (@nil Client); [by rewrite app_nil_r|].
      generalize (next_token w + 1 - length (conns w))%nat. intros n. by induction n.
    + rewrite lookup_app_r by lia. apply lookup_replicate. split; [done|lia].
  - apply NoDup_cons in Hf as [Hni Hf]. pose proof (He id ltac:(set_solver)) as Hid.
    split; [split; simpl; [done..|intros; apply He; set_solver]|]. split; [done|]. split; [done|]. split; [done|].
    apply lookup_lt_Some in Hid. lia.
Qed.

Lemma accept_ok l s w max auth :
  worker_ok l s w → let '(s', w', _) := accept max auth s w in worker_ok l s' w'.
Proof.
  intros [Hw Hag]. unfold accept. destruct (_ <=? _); [done|]. pose proof (alloc_ok w Hw) as Ha.
  destruct (alloc_slot w) as [id w']. destruct Ha as (Hw' & Hl & Hid & Hni & _). simpl.
  destruct (live_place w' id None Hid) as (rest & H1 & H2). split.
  - destruct Hw' as [Hlen Hf He]. split; simpl; [by rewrite length_insert|done|].
    intros id' Hin. rewrite list_lookup_insert_ne; [by apply He|congruence].
  - eapply agrees_perm; [symmetry; by apply Permutation_app_tail, H2|]. simpl.
    apply agrees_skip; [done|]. simpl in H1. rewrite Hl in H1.
    by apply (agrees_perm _ (live w ++ l)); [rewrite H1|].
Qed.

Lemma wake_ok l s w : worker_ok l s w → let '(s', w') := on_wake s w in worker_ok l s' w'.
Proof.
  intros [Hw Hag]. unfold on_wake. destruct (notifiers (world s) !! w_notifier w) as [n|]; [|done]. simpl.
  split; [|exact Hag]. by destruct Hw.
Qed.

Lemma removed_ok l s w d : worker_ok l s w → worker_ok l s (with_sub_dirty d w).
Proof. intros [[] Hag]. by split. Qed.

Lemma flush_dirty_ok l sock dirty s w :
  worker_ok l s w → let '(s', w') := flush_dirty chan_hash sock dirty s w in worker_ok l s' w'.
Proof.
  revert sock s w. induction dirty as [|id dirty IH]; intros sock s w Hok; simpl; [done|].
  destruct (client_at w id) as [k|] eqn:Hc; [|by apply IH].
  pose proof (write_ok l s w id k (sock O) Hok Hc) as Hw. destruct (write_conn _ _ _ _ _ _) as [[s' w'] a]. by apply IH.
Qed.

Lemma flush_subscribers_ok l fuel sock i s w :
  worker_ok l s w → let '(s', w') := flush_subscribers chan_hash fuel sock i s w in worker_ok l s' w'.
Proof.
  revert sock i s w. induction fuel as [|fuel IH]; intros sock i s w Hok; simpl; [done|].
  destruct (sub_dirty w !! i) as [id|]; [|done].
  destruct (client_at w id) as [k|] eqn:Hc; [|by apply IH, removed_ok]. destruct (is_slow_subscriber _ _).
  - pose proof (close_ok _ _ _ id Hok) as Hcl. destruct (close_conn _ _ _ _) as [s' w']. by apply IH, removed_ok.
  - pose proof (write_ok l s w id k (sock O) Hok Hc) as Hw. destruct (write_conn _ _ _ _ _ _) as [[s' w'] a].
    destruct a; simpl; [|by apply IH, removed_ok]. destruct (client_at w' id) as [k'|]; [|by apply IH, removed_ok].
    destruct (has_pending_write _ _); [by apply IH|by apply IH, removed_ok].
Qed.

Lemma on_events_ok l max auth events dirty s w :
  worker_ok l s w →
  match on_events chan_hash hash_one max auth events dirty s w with Next (s', w', _) => worker_ok l s' w' | _ => True end.
Proof.
  revert dirty s w. induction events as [|[| |id chunks e clock env] events IH]; intros dirty s w Hok; simpl; [done| | |].
  - pose proof (accept_ok l s w max auth Hok) as Ha. destruct (accept _ _ _ _) as [[s' w'] o]. by apply IH.
  - pose proof (wake_ok l s w Hok) as Ha. destruct (on_wake _ _) as [s' w']. by apply IH.
  - pose proof (readable_ok l s w id chunks e clock env Hok) as Hr.
    destruct (on_readable _ _ _ _ _ _ _ _ _) as [| |[[s' w'] a]]; simpl; [done..|]. by apply IH.
Qed.

Lemma turn_ok l max auth events sock s w :
  worker_ok l s w →
  match turn chan_hash hash_one max auth events sock s w with Next (s', w') => worker_ok l s' w' | _ => True end.
Proof.
  intros Hok. unfold turn. pose proof (on_events_ok l max auth events [] s w Hok) as He.
  destruct (on_events _ _ _ _ _ _ _ _) as [| |[[s' w'] dirty]]; simpl; [done..|].
  pose proof (flush_dirty_ok l sock dirty s' w' He) as Hf. destruct (flush_dirty _ _ _ _ _) as [s2 w2].
  pose proof (flush_subscribers_ok l (length (sub_dirty w2)) (λ n, sock (length dirty + n)%nat) 0 s2 w2 Hf) as Hs.
  by destruct (flush_subscribers _ _ _ _ _ _).
Qed.
End Agree.

Section ClusterClaims.
Context (chan_hash hash_one : bytes → Z) `{HashOrder}.
Implicit Types (cl : Cluster) (st : Store (CustomMap StoreValue)).

Definition connections cl : list Conn := workers cl ≫= live.

Definition cluster_ok cl : Prop :=
  Forall worker_wf (workers cl) ∧ agrees chan_hash (sys cl) (connections cl).

Lemma cluster_new_ok st n : cluster_ok (Cluster_new st n).
Proof.
  split.
  - apply Forall_fmap, Forall_true. intros i. split; [simpl; lia|constructor|set_solver].
  - assert (connections (Cluster_new st n) = []) as ->.
    { unfold connections. simpl. by induction (List.seq 0 n). }
    split; [constructor|]. split; [constructor|]. exists (mkSubs [] []). split; [apply new_ok|].
    split; [constructor|]. split; [constructor|]. simpl. split; intros x sl; rewrite Exists_nil; set_solver.
Qed.

Lemma cluster_step_ok max auth cl cl' :
  cluster_step chan_hash hash_one max auth cl cl' → cluster_ok cl → cluster_ok cl'.
Proof.
  intros [i events sock s w s' w' ws Hi Ht] [Hwf Hag]. simpl in *. unfold cluster_ok, connections in *. simpl in *.
  pose proof (take_drop_middle _ _ _ Hi) as Hws. set (A := take i ws) in *. set (D := drop (S i) ws) in *.
  pose proof (turn_ok chan_hash hash_one ((A ++ D) ≫= live) max auth events sock s w) as Hturn. rewrite Ht in Hturn.
  destruct Hturn as [Hw' Hag'].
  - split; [by eapply Forall_lookup_1 in Hi|]. eapply agrees_perm; [|exact Hag].
    rewrite <- Hws, !bind_app. simpl. solve_Permutation.
  - rewrite insert_take_drop by (by eapply lookup_lt_Some). fold A D. split.
    + rewrite <- Hws in Hwf. rewrite !Forall_app, !Forall_cons in *. naive_solver.
    + eapply agrees_perm; [|exact Hag']. rewrite !bind_app. simpl. solve_Permutation.
Qed.

(** C7: The registry agrees with the connections.  In every state the server
    reaches, after any requests, subscriptions and disconnections (closed, slow
    or broken ones) on any workers, a channel's subscribers in the registry are,
    once each, the slots of the open connections that hold it; no two
    connections share a slot; and PUBLISH counts exactly those and the pattern
    subscriptions held by open connections that match.  Nothing of a closed
    connection stays behind. *)
Theorem subscriptions_agree max auth st n cl ch msg (wd : World) :
  rtc (cluster_step chan_hash hash_one max auth) (Cluster_new st n) cl →
  let subs := shard_slots (shard_for chan_hash (pubsub (sys cl)) ch) ch in
  NoDup subs ∧ (∀ sl, sl ∈ subs ↔ Exists (subscribed sl ch) (connections cl)) ∧
  NoDup (omap slot_of (connections cl)) ∧
  ∃ pl, NoDup pl ∧
    (∀ p sl, mkPattern p sl ∈ pl ↔ Exists (psubscribed sl p) (connections cl) ∧ glob_match_bytes p ch = true) ∧
    (publish chan_hash ch msg (pubsub (sys cl)) wd).2 = Z.of_nat (length subs + length pl).
Proof.
  intros Hr. assert (Hok : cluster_ok cl).
  { assert (Hall : ∀ a b, rtc (cluster_step chan_hash hash_one max auth) a b → cluster_ok a → cluster_ok b).
    { induction 1; [done|]. eauto using cluster_step_ok. }
    by eapply Hall, cluster_new_ok. }
  destruct Hok as (_ & Hn & _ & a & Hps & Hc & Hp & H1 & H2).
  destruct (publish_eq chan_hash ch msg _ a wd Hps) as [Hpl Hpub].
  pose proof Hps as (_ & _ & Hsub & _). intros subs.
  assert (Hs : subs = subs_of a ch) by apply Hsub. rewrite Hs. unfold subs_of.
  split; [|split; [|split; [done|]]].
  - apply NoDup_fmap_2_strong; [|by apply NoDup_filter]. intros [c1 s1] [c2 s2] [E1 _]%list_elem_of_filter [E2 _]%list_elem_of_filter.
    simpl in *. congruence.
  - intros sl. rewrite <- H1. rewrite list_elem_of_fmap. setoid_rewrite list_elem_of_filter. split.
    + intros ([c' s'] & -> & E & Hin). simpl in *. by subst.
    + intros Hin. by exists (ch, sl).
  - exists (filter (matches ch) (pats a)). split; [by apply NoDup_filter|]. split.
    + intros p sl. rewrite list_elem_of_filter, H2. unfold matches. simpl. tauto.
    + rewrite Hpub. simpl. rewrite length_app, !length_fmap. rewrite Hpl. unfold subs_of. by rewrite length_fmap.
Qed.
End ClusterClaims.

(** ** Reading *)

(** What reading leaves of the parser: a well-formed buffer with fewer bytes to read. *)
Definition advanced (p p' : RespParser) : Prop :=
  parser_wf p' ∧ (filled p' - pos p' < filled p - pos p)%nat.

Lemma memchr_lt b l i : memchr b l = Some i → (i < length l)%nat.
Proof.
  revert i. induction l as [|x l IH]; intros i; simpl; [done|]. case_bool_decide; [intros [= <-]; lia|].
  intros (j & Hj & ->)%fmap_Some. apply IH in Hj. lia.
Qed.

Lemma scan_line_advanced p a b p' : parser_wf p → scan_line p = Some (a, b, p') → advanced p p'.
Proof.
  intros Hw. unfold scan_line. destruct (memchr LF (unread p)) as [rel|] eqn:Em; [|done].
  apply memchr_lt in Em. rewrite unread_length in Em by done. intros [= _ _ <-].
  destruct Hw. split; [split|]; simpl; lia.
Qed.

Lemma advanced_trans p q r : advanced p q → advanced q r → advanced p r.
Proof. intros [_ ?] [? ?]. split; [done|lia]. Qed.

Lemma parse_usize_nonneg l n : parse_usize l MAX_BULK_BYTES = Some n → 0 <= n.
Proof.
  rewrite parse_usize_spec by done. destruct l; [done|]. intros (m & Hm & Hn)%bind_Some.
  apply parse_digits_ge in Hm; [|done]. case_match; by simplify_eq.
Qed.

Lemma parse_parts_wf n start p p' :
  parser_wf p → parse_parts n start p = Some (Complete, p') →
  parser_wf p' ∧ (filled p' - pos p' <= filled p - pos p)%nat.
Proof.
  revert p. induction n as [|n IH]; intros p Hw; simpl; [intros [= <-]; by split|].
  destruct (scan_line p) as [[[bs be] p1]|] eqn:Es; [|done]. apply scan_line_advanced in Es as [Hw1 H1]; [|done].
  destruct (negb _); [done|]. intros (line & _ & Hr)%bind_Some. destruct (parse_usize _ _) as [len|] eqn:Eu; [|done].
  apply parse_usize_nonneg in Eu. destruct (Z.ltb_spec (Z.of_nat (filled p1 - pos p1)) (len + 2)); [done|].
  apply IH in Hr as [? ?]; [|destruct Hw1; split; simpl in *; lia]. split; [done|]. simpl in *. lia.
Qed.

Lemma shrink_wf p : parser_wf p → parser_wf (shrink_drained p) ∧
  (filled (shrink_drained p) - pos (shrink_drained p) <= filled p - pos p)%nat.
Proof. intros Hw. unfold shrink_drained. destruct (_ && _); [|by split]. split; [split|]; simpl; lia. Qed.

Lemma parse_one_advanced p p' : parser_wf p → parse_one p = Some (Complete, p') → advanced p p'.
Proof.
  intros Hw. unfold parse_one. destruct (scan_line _) as [[[a b] p1]|] eqn:Es; [|done].
  apply scan_line_advanced in Es as [Hw1 H1]; [|by apply parser_wf_parts].
  destruct (negb _); [done|]. intros (line & _ & Hr)%bind_Some. destruct (parse_usize _ _) as [n|]; [|done].
  apply bind_Some in Hr as ([[] p2] & Hp & [= <-]). apply parse_parts_wf in Hp as [Hw2 H2]; [|done].
  destruct (shrink_wf p2 Hw2). split; [done|]. simpl in *. lia.
Qed.

(** A read fits the room that [read_buf] makes. *)
Fixpoint reads_fit (p : RespParser) (chunks : list bytes) : Prop :=
  match chunks with
  | [] => True
  | chunk :: chunks' =>
      (length chunk <= length (rbuf (read_buf p)) - filled (read_buf p))%nat ∧ reads_fit (fill p chunk) chunks'
  end.

Lemma read_buf_wf p : parser_wf p → parser_wf (read_buf p).
Proof.
  intros [Hp Hf]. unfold read_buf. destruct (_ <? _)%nat; [|by split].
  set (p1 := if (0 <? pos p)%nat then _ else _).
  assert (Hw : parser_wf p1).
  { unfold p1. destruct (0 <? pos p)%nat; [|by split]. split; simpl; [lia|].
    repeat rewrite ?length_app, ?length_take, ?length_drop. lia. }
  clearbody p1. destruct (_ <? _)%nat; [|exact Hw]. destruct Hw. split; simpl; [done|]. rewrite length_app. lia.
Qed.

Lemma fill_wf p chunks : parser_wf p → reads_fit p chunks → parser_wf (foldl fill p chunks).
Proof.
  revert p. induction chunks as [|chunk chunks IH]; intros p Hw; simpl; [done|]. intros [Hl Hr]. apply IH; [|done].
  destruct (read_buf_wf p Hw). unfold fill. split; simpl; [lia|].
  rewrite !length_app, length_take, length_drop. lia.
Qed.

Lemma read_buf_unread p : parser_wf p → unread (read_buf p) = unread p.
Proof.
  intros Hw. pose proof (unread_length p Hw) as Hl. destruct Hw as [Hp Hf]. unfold read_buf. destruct (_ <? _)%nat; [|done].
  set (p1 := if (0 <? pos p)%nat then _ else _).
  assert (Hu : unread p1 = unread p ∧ parser_wf p1).
  { unfold p1. destruct (0 <? pos p)%nat; [|done]. change (take (filled p - pos p) (drop (pos p) (rbuf p))) with (unread p).
    split; [|split; simpl; rewrite ?length_app, ?length_drop; lia].
    unfold unread at 1. simpl. rewrite Nat.sub_0_r. by apply take_app_length'. }
  clearbody p1. destruct Hu as [Hu [Hp1 Hf1]]. destruct (_ <? _)%nat; [|exact Hu]. rewrite <- Hu. unfold unread. simpl.
  rewrite drop_app_le, take_app_le by (rewrite ?length_drop; lia). done.
Qed.

Lemma did_fill_unread p chunk : parser_wf p → unread (did_fill p chunk) = unread p ++ chunk.
Proof.
  intros [Hp Hf]. unfold unread, did_fill. simpl. rewrite drop_app_le by (rewrite length_take; lia).
  replace (filled p) with (pos p + (filled p - pos p))%nat at 2 by lia. rewrite <- take_drop_commute.
  change (take (filled p - pos p) (drop (pos p) (rbuf p))) with (unread p).
  pose proof (unread_length p (Build_parser_wf p Hp Hf)) as Hl. rewrite app_assoc.
  apply take_app_length'. rewrite length_app. lia.
Qed.

Lemma unread_fill p chunks : parser_wf p → reads_fit p chunks → unread (foldl fill p chunks) = unread p ++ concat chunks.
Proof.
  revert p. induction chunks as [|chunk chunks IH]; intros p Hw; simpl; [by rewrite app_nil_r|]. intros [Hl Hr].
  assert (Hw' : parser_wf (fill p chunk)) by (apply (fill_wf p [chunk]); [done|by split]).
  rewrite IH by done. unfold fill. rewrite did_fill_unread by by apply read_buf_wf.
  rewrite read_buf_unread by done. by rewrite app_assoc.
Qed.

Section ReadClaims.
Context (chan_hash hash_one : bytes → Z) `{HashOrder}.
Implicit Types (s : Sys) (k : Client).

Lemma parse_loop_ends fuel clock env s k :
  parser_wf (parser k) → (filled (parser k) - pos (parser k) < fuel)%nat →
  parse_loop chan_hash hash_one fuel clock env s k ≠ Looping.
Proof.
  revert s k. induction fuel as [|fuel IH]; intros s k Hw Hf; [lia|]. simpl.
  destruct (parse_one (parser k)) as [[[] p]|] eqn:Ep; try done. destruct (part_list p); [|done].
  apply parse_one_advanced in Ep as [Hw' Hlt]; [|done].
  destruct (dispatch_raw _ _ _ _ _ _ _); simpl; try done. apply IH; simpl; [done|lia].
Qed.

(** Serving a readable socket ends.  Whatever bytes arrive, cut into
    whatever reads, the loop over the requests in the buffer stops within the
    number of bytes it holds. *)
Theorem do_read_ends chunks e clock env s k :
  parser_wf (parser k) → reads_fit (parser k) chunks →
  do_read chan_hash hash_one chunks e clock env s k ≠ Looping.
Proof.
  intros Hw Hr. unfold do_read. destruct e; [|done]. apply parse_loop_ends; simpl; [by apply fill_wf|].
  unfold parse_fuel. lia.
Qed.

(** A request within the limits of the parser. *)
Definition sendable (args : list bytes) : Prop := Z.of_nat (length args) <= MAX_ARRAY_ELEMENTS ∧ small_args args.

(** The requests served one after the other, without a wire. *)
Fixpoint serve_all (clock : Clock) (env : Env) (requests : list (list bytes)) s (c : Conn) : Served :=
  match requests with
  | [] => SDone s c
  | args :: requests' =>
      match dispatch_raw chan_hash hash_one clock env args s c with
      | SPanic => SPanic
      | SDone s c => serve_all clock env requests' s c
      end
  end.

(** A request in normal mode that has one answer: valid UTF-8, none of the pub/sub
    commands, none of the commands that can panic and none of those that stay
    silent. *)
Definition plain_request (clock : Clock) (env : Env) (args : list bytes) : Prop :=
  args ≠ [] ∧ forallb utf8_valid args = true ∧
  (ascii_uppercase (nth 0 args []) ∉ pubsub_names) ∧ answerable (clock, env, args).

(** A connection that has authenticated and subscribes to nothing. *)
Definition ready (c : Conn) : Prop := authenticated c = true ∧ mode c = Normal.

(** Request by request: each reply is what the dispatcher appends for that request in
    the state the requests before it left. *)
Inductive answered (clock : Clock) (env : Env) : list (list bytes) → Sys → Conn → list Reply → Sys → Conn → Prop :=
| answered_nil s c : answered clock env [] s c [] s c
| answered_cons args requests s c s1 r rs s2 c2 :
    dispatch_raw chan_hash hash_one clock env args s c = SDone s1 (with_wbuf (λ out, out ++ encode r) c) →
    answered clock env requests s1 (with_wbuf (λ out, out ++ encode r) c) rs s2 c2 →
    answered clock env (args :: requests) s c (r :: rs) s2 c2.

Lemma plain_answered clock env requests s c :
  Forall (plain_request clock env) requests → ready c →
  ∃ s' rs, answered clock env requests s c rs s' (with_wbuf (λ out, out ++ encodes rs) c) ∧
    serve_all clock env requests s c = SDone s' (with_wbuf (λ out, out ++ encodes rs) c) ∧
    length rs = length requests ∧ Forall well_formed rs.
Proof.
  intros Hr. revert s c. induction Hr as [|args requests Hreq Hr IH]; intros s c Hc.
  - assert (E : with_wbuf (λ out, out ++ encodes []) c = c)
      by (unfold with_wbuf, encodes; simpl; rewrite app_nil_r; by destruct c).
    exists s, []. rewrite E. split; [constructor|]. by split.
  - destruct Hreq as (Hne & Hutf & Hps & Hpl & Hmp & Hsi). destruct Hc as [Ha Hm]. destruct args as [|cmd args]; [done|].
    destruct (dispatch_raw_answers chan_hash hash_one clock env cmd args s c Ha Hm Hutf Hps Hpl Hmp Hsi)
      as (s1 & out & Hd & (r & Hwf & ->)).
    destruct (IH s1 (with_wbuf (λ out, out ++ encode r) c)) as (s' & rs & Han & Hsv & Hlen & Hall); [done|].
    assert (E : with_wbuf (λ out, out ++ encodes rs) (with_wbuf (λ out, out ++ encode r) c) =
      with_wbuf (λ out, out ++ encodes (r :: rs)) c) by (unfold with_wbuf; simpl; by rewrite encodes_cons, app_assoc).
    rewrite E in Han, Hsv. exists s', (r :: rs). split; [by econstructor|]. cbn [serve_all]. rewrite Hd.
    split; [exact Hsv|]. split; [simpl; lia|by constructor].
Qed.

Lemma parse_loop_serves clock env requests s k fuel :
  Forall sendable requests → parser_wf (parser k) → zlen (rbuf (parser k)) <= 16 * 1024 →
  unread (parser k) = concat (encode_command <$> requests) →
  (filled (parser k) - pos (parser k) < fuel)%nat →
  match serve_all clock env requests s (conn k) with
  | SPanic => parse_loop chan_hash hash_one fuel clock env s k = Stuck
  | SDone s' c' => ∃ p, parse_loop chan_hash hash_one fuel clock env s k = Next (s', mkClient p c', true) ∧ unread p = []
  end.
Proof.
  intros Hr. revert s k fuel. induction Hr as [|args requests [Hn Hsm] Hr IH]; intros s k fuel Hw Hb Hu Hf.
  - destruct fuel as [|fuel]; [lia|]. simpl in Hu. cbn [parse_loop serve_all].
    assert (Hi : parse_one (parser k) = Some (Incomplete, set_pos (set_parts (parser k) []) (pos (parser k)))).
    { unfold parse_one. rewrite scan_line_absent; [done|]. change (unread (set_parts (parser k) [])) with (unread (parser k)).
      rewrite Hu. set_solver. }
    rewrite Hi. by exists (set_pos (set_parts (parser k) []) (pos (parser k))).
  - destruct fuel as [|fuel]; [lia|]. rewrite fmap_cons in Hu. cbn [concat] in Hu. cbn [parse_loop serve_all].
    destruct (parse_one_complete args (parser k) _ Hw Hn Hsm Hu) as (parts & Hp & Hparts). cbn zeta in *.
    rewrite shrink_drained_id in Hp by (by right).
    set (q := mkParser _ _ _ parts) in *. rewrite Hp.
    assert (Hpl' : part_list q = Some args) by (by apply Forall2_mapM_slice). rewrite Hpl'.
    pose proof (parse_one_advanced _ _ Hw Hp) as [Hwq Hlt].
    destruct (set_pos_unread _ _ _ Hw Hu) as [_ Huq].
    destruct (dispatch_raw _ _ _ _ _ _ _) as [|s1 c1]; cbn [served step_bind]; [done|].
    apply (IH s1 (mkClient q c1) fuel); simpl; [done|done|exact Huq|lia].
Qed.

(** C5: From bytes to bytes.  Requests in the wire format may arrive cut into any
    reads and behind the start of a request already in the buffer, as long as
    the buffer stays within the 16 KiB above which it is given back.  (1) The
    server then does to its state, its connection and its output exactly what
    the dispatcher does to the requests one after the other, whatever they are
    and whatever the mode of the connection, panics included, and has consumed
    the input.  (2) If the connection is authenticated and subscribes to
    nothing, and no request is a pub/sub command, is not UTF-8, can panic or
    stays silent ([plain_request]), the output grows by exactly one reply per
    request, in order, each the reply the dispatcher gives to that request in
    the state the earlier ones left, and a client reads back exactly these. *)
Theorem server_pipeline clock env requests chunks s k :
  Forall sendable requests → parser_wf (parser k) → reads_fit (parser k) chunks →
  zlen (rbuf (foldl fill (parser k) chunks)) <= 16 * 1024 →
  unread (parser k) ++ concat chunks = concat (encode_command <$> requests) →
  let served := do_read chan_hash hash_one chunks WouldBlock clock env s k in
  match serve_all clock env requests s (conn k) with
  | SPanic => served = Stuck
  | SDone s' c' => ∃ p, served = Next (s', mkClient p c', true) ∧ unread p = []
  end ∧
  (Forall (plain_request clock env) requests → ready (conn k) →
   ∃ s' p rs, served = Next (s', mkClient p (with_wbuf (λ out, out ++ encodes rs) (conn k)), true) ∧
     length rs = length requests ∧
     answered clock env requests s (conn k) rs s' (with_wbuf (λ out, out ++ encodes rs) (conn k)) ∧
     read_many (decode (length (encodes rs))) (length requests) (encodes rs) = Some (rs, [])).
Proof.
  intros Hs Hw Hfit Hb Hu served. pose proof (fill_wf _ _ Hw Hfit) as Hwf.
  pose proof (parse_loop_serves clock env requests s (mkClient (foldl fill (parser k) chunks) (conn k))
    (parse_fuel (foldl fill (parser k) chunks)) Hs Hwf Hb) as Hserve. cbn [parser conn] in Hserve.
  rewrite unread_fill in Hserve by done. specialize (Hserve Hu ltac:(unfold parse_fuel; lia)).
  split; [exact Hserve|]. intros Hr Hc.
  destruct (plain_answered clock env requests s (conn k) Hr Hc) as (s' & rs & Han & Hsv & Hlen & Hall).
  rewrite Hsv in Hserve. destruct Hserve as (p & Hp & _). exists s', p, rs. split; [exact Hp|]. split; [done|].
  split; [done|]. rewrite <- Hlen. pose proof (decode_encodes rs [] (length (encodes rs)) Hall (Nat.le_refl _)) as Hd.
  by rewrite app_nil_r in Hd.
Qed.
End ReadClaims.

(** ** A run *)

Definition demo_store0 : Store (CustomMap StoreValue) := after toy_hash (H := canonical_order) 2 16 [].

(** A client connects and subscribes to a channel and a pattern. *)
Definition demo_events : list Event :=
  [EAccept;
   EReadable 1 [encode_command [B "SUBSCRIBE"; B "news"]; encode_command [B "psubscribe"; B "n*"]] WouldBlock
     demo_clock demo_env].

Definition demo_turn : Step (Sys * Worker) :=
  turn toy_hash toy_hash (H := canonical_order) 10 None demo_events (λ _, Accepts 1000) (sys (Cluster_new demo_store0 1))
    (Worker_new 0).

Definition demo_cluster : Cluster :=
  match demo_turn with Next (s, w) => mkCluster s [w] | _ => Cluster_new demo_store0 1 end.

Lemma subscriptions_agree_witness :
  let subs := shard_slots (shard_for toy_hash (pubsub (sys demo_cluster)) (B "news")) (B "news") in
  NoDup subs ∧ (∀ sl, sl ∈ subs ↔ Exists (subscribed sl (B "news")) (connections demo_cluster)) ∧
  NoDup (omap slot_of (connections demo_cluster)) ∧
  ∃ pl, NoDup pl ∧
    (∀ p sl, mkPattern p sl ∈ pl ↔
      Exists (psubscribed sl p) (connections demo_cluster) ∧ glob_match_bytes p (B "news") = true) ∧
    (publish toy_hash (B "news") (B "m") (pubsub (sys demo_cluster)) (mkWorld ∅ ∅)).2 =
      Z.of_nat (length subs + length pl).
Proof.
  apply (subscriptions_agree toy_hash toy_hash (H := canonical_order) 10 None demo_store0 1 demo_cluster (B "news")
    (B "m") (mkWorld ∅ ∅)).
  apply rtc_once. unfold demo_cluster. destruct demo_turn as [| |[s w]] eqn:Et; [vm_compute in Et; discriminate..|].
  apply (worker_turn toy_hash toy_hash (H := canonical_order) 10 None 0 demo_events (λ _, Accepts 1000) _ (Worker_new 0)
    s w [Worker_new 0] eq_refl Et).
Defined.

Example demo_subscribed :
  (match demo_turn with
   | Next (s, w) => Some ((publish toy_hash (B "news") (B "m") (pubsub s) (world s)).2, omap slot_of (live w))
   | _ => None
   end) = Some (2, [0%nat]).
Proof. vm_compute. reflexivity. Qed.

Definition demo_pipeline_requests : list (list bytes) :=
  [[B "set"; B "k"; B "10"]; [B "INCR"; B "k"]; [B "lpush"; B "k"; B "x"]; [B "MGET"; B "k"; B "none"]; [B "GET"; B "k"]].

Definition demo_sys0 : Sys := sys (Cluster_new demo_store0 1).

Lemma demo_requests_plain : Forall (plain_request demo_clock demo_env) demo_pipeline_requests.
Proof.
  repeat apply Forall_cons_2; [..|apply Forall_nil_2];
    (split; [discriminate|]; split; [vm_compute; reflexivity|]; split; [apply (bool_decide_unpack _); vm_compute; exact I|];
     split; [exact I|]; split; reflexivity).
Qed.

(** The first request arrives in two pieces, the second of them with the rest. *)
Definition demo_chunks : list bytes :=
  let wire := concat (encode_command <$> demo_pipeline_requests) in [take 12 wire; drop 12 wire].

Lemma server_pipeline_witness : ∃ s' p rs,
  do_read toy_hash toy_hash (H := canonical_order) demo_chunks WouldBlock
    demo_clock demo_env demo_sys0 (mkClient RespParser_new (demo_conn None)) =
    Next (s', mkClient p (with_wbuf (λ out, out ++ encodes rs) (demo_conn None)), true) ∧
  length rs = length demo_pipeline_requests.
Proof.
  destruct (server_pipeline toy_hash toy_hash (H := canonical_order) demo_clock demo_env demo_pipeline_requests demo_chunks
    demo_sys0 (mkClient RespParser_new (demo_conn None))) as [_ Hplain].
  - repeat apply Forall_cons_2; [..|apply Forall_nil_2]; (split; [vm_compute; discriminate|repeat constructor; vm_compute; discriminate]).
  - split; vm_compute; lia.
  - repeat split; vm_compute; lia.
  - vm_compute. discriminate.
  - vm_compute. reflexivity.
  - destruct (Hplain demo_requests_plain) as (s' & p & rs & Hs & Hl & _); [by split|]. exists s', p, rs. split; [exact Hs|exact Hl].
Defined.

Lemma do_read_ends_witness :
  do_read toy_hash toy_hash (H := canonical_order) [B "*1" ++ CRLF; B "$4" ++ CRLF ++ B "PI"; B "NG" ++ CRLF] WouldBlock
    demo_clock demo_env demo_sys0 (mkClient RespParser_new (demo_conn None)) ≠ Looping.
Proof.
  apply do_read_ends; [split; vm_compute; lia|]. repeat split; vm_compute; lia.
Defined.

(** A turn without events, with nobody to write to, does nothing. *)
Lemma idle_turn chan_hash hash_one `{HashOrder} max auth sock s w :
  sub_dirty w = [] → turn chan_hash hash_one max auth [] sock s w = Next (s, w).
Proof. intros Hd. unfold turn. simpl. by rewrite Hd. Qed.

(** What the first connection has to write, and whom the worker will write to. *)
Definition unsent (r : Step (Sys * Worker)) : option bytes * list nat :=
  match r with Next (_, w) => (wbuf ∘ conn <$> client_at w 1, sub_dirty w) | _ => (None, []) end.

(** Output that does not fit the socket waits for the client.  A client
    sends ECHO, and its socket takes three bytes of the reply and blocks.  The
    rest stays in the output buffer, the connection is in no list of the
    worker, and however often the loop turns while the client only waits for
    its answer, nothing more is written, even if the socket takes everything. *)
Theorem blocked_output_stalls : ∃ s w,
  turn toy_hash toy_hash (H := canonical_order) 10 None
    [EAccept; EReadable 1 [encode_command [B "ECHO"; B "hello"]] WouldBlock demo_clock demo_env]
    (λ _, Accepts 3) demo_sys0 (Worker_new 0) = Next (s, w) ∧
  wbuf ∘ conn <$> client_at w 1 = Some (LF :: B "hello" ++ CRLF) ∧
  ∀ sock, turn toy_hash toy_hash (H := canonical_order) 10 None [] sock s w = Next (s, w).
Proof.
  match goal with |- ∃ s w, ?t = _ ∧ _ => set (r := t); assert (Hv : unsent r = (Some (LF :: B "hello" ++ CRLF), [])) end.
  { unfold r. vm_compute. reflexivity. }
  clearbody r. destruct r as [| |[s w]]; try discriminate Hv. injection Hv as Hc Hd.
  exists s, w. split; [done|]. split; [done|]. intros sock. by apply idle_turn.
Qed.
