(* ===== verification/Ebr.v ===== *)
(** Epoch-based reclamation: crates/customhash/src/ebr.rs.

    Threads pin themselves, retire objects and collect; their steps, one access
    to shared memory each, interleave arbitrarily.  The clients of the scheme
    are here too: the objects still linked into a structure, the pointers a
    pinned thread has read from it, and the objects already freed.  With
    [tso = false] a store to a participant's epoch is visible at once
    (sequential consistency); with [tso = true] it waits in the store buffer of
    its thread, as the release store of the source may do on x86, and reaches
    memory at a later [flush].  The list [ORPHANS] is never filled by the code
    and is left out; epochs are integers that do not reach [2^64]. *)

From S2P Require Import Prelude Collections.
Local Open Scope Z_scope.

Definition INACTIVE : Z := 0.
Definition COLLECT_INTERVAL : Z := 512.

Abbreviation Tid := nat.
Abbreviation Obj := nat.

Record Garbage := mkGarbage { g_ptr : Obj; g_epoch : Z }.

(** Where [collect] returns to, and how many more calls of it follow. *)
Inductive After :=
| InUnpin (more : nat)
| InRetire
| InForce (more : nat).

(** The next access of a thread. *)
Inductive Pc :=
| Idle
| PinLoad                                (* [pin]: load the global epoch *)
| PinStore (e : Z)                       (* publish it *)
| PinCheck (e : Z)                       (* load it again *)
| PinReset                               (* it moved: publish [INACTIVE] *)
| UnpinStore                             (* [unpin]: publish [INACTIVE] *)
| RetireLoad (p : Obj)                   (* [retire_raw]: load the global epoch *)
| CollectLoad (k : After)                (* [collect]: load the global epoch *)
| CollectHead (g : Z) (k : After)        (* load [PARTICIPANTS] *)
| CollectScan (g : Z) (rest : list Tid) (k : After)   (* load the epoch of the first of [rest] *)
| CollectCas (g : Z) (k : After)
| CollectFree (k : After).               (* load the global epoch again and free *)

(** A thread: its [Local], its participant's word with the stores still in the
    buffer, its program counter, and the pointers it holds. *)
Record Thread := mkThread {
  depth : nat;
  garbage : list Garbage;
  retires : Z;
  collect_on_unpin : bool;
  initialized : bool;
  word : Z;
  buffer : list Z;
  pc : Pc;
  held : gset Obj;
}.

Record State := mkState {
  epoch : Z;
  participants : list Tid;
  threads : list Thread;
  linked : gset Obj;
  freed : list Obj;
}.

Definition Thread_uninit : Thread := mkThread 0 [] 0 false false INACTIVE [] Idle ∅.
Definition start (n : nat) (objs : gset Obj) : State := mkState 1 [] (replicate n Thread_uninit) objs [].

(** ** Updates *)

Definition goto (c : Pc) (t : Thread) : Thread :=
  mkThread (depth t) (garbage t) (retires t) (collect_on_unpin t) (initialized t) (word t) (buffer t) c (held t).
Definition with_depth (d : nat) (t : Thread) : Thread :=
  mkThread d (garbage t) (retires t) (collect_on_unpin t) (initialized t) (word t) (buffer t) (pc t) (held t).
Definition with_garbage (l : list Garbage) (t : Thread) : Thread :=
  mkThread (depth t) l (retires t) (collect_on_unpin t) (initialized t) (word t) (buffer t) (pc t) (held t).
Definition with_flag (b : bool) (t : Thread) : Thread :=
  mkThread (depth t) (garbage t) (retires t) b (initialized t) (word t) (buffer t) (pc t) (held t).
Definition with_held (h : gset Obj) (t : Thread) : Thread :=
  mkThread (depth t) (garbage t) (retires t) (collect_on_unpin t) (initialized t) (word t) (buffer t) (pc t) h.
Definition count_retire (t : Thread) : Thread :=
  mkThread (depth t) (garbage t) (retires t + 1) (collect_on_unpin t) (initialized t) (word t) (buffer t) (pc t) (held t).
Definition with_word (w : Z) (b : list Z) (t : Thread) : Thread :=
  mkThread (depth t) (garbage t) (retires t) (collect_on_unpin t) (initialized t) w b (pc t) (held t).

Definition set_thread (i : Tid) (t : Thread) (s : State) : State :=
  mkState (epoch s) (participants s) (<[i := t]> (threads s)) (linked s) (freed s).

(** [participant.local.store(w)] *)
Definition publish (tso : bool) (w : Z) (t : Thread) : Thread :=
  if tso then with_word (word t) (buffer t ++ [w]) t else with_word w (buffer t) t.

(** [ensure_init]: the participant is pushed with one successful exchange. *)
Definition ensure_init (i : Tid) (t : Thread) (s : State) : Thread * State :=
  if initialized t then (t, s)
  else
    (mkThread (depth t) [] (retires t) (collect_on_unpin t) true INACTIVE [] (pc t) (held t),
     mkState (epoch s) (i :: participants s) (threads s) (linked s) (freed s)).

(** The end of a call of [collect]. *)
Definition collected (k : After) (t : Thread) : Thread :=
  match k with
  | InUnpin (S n) => goto (CollectLoad (InUnpin n)) t
  | InUnpin O => goto Idle (with_flag (negb (bool_decide (length (garbage t) = 0%nat))) t)
  | InRetire => goto Idle (with_flag true t)
  | InForce (S n) => goto (CollectLoad (InForce n)) t
  | InForce O => goto Idle t
  end.

(** ** Steps inside the calls *)

Definition step_thread (tso : bool) (i : Tid) (t : Thread) (s : State) : option State :=
  let next t := Some (set_thread i t s) in
  match pc t with
  | Idle => None
  | PinLoad => next (goto (PinStore (epoch s)) t)
  | PinStore e => next (goto (PinCheck e) (publish tso e t))
  | PinCheck e => next (goto (if epoch s =? e then Idle else PinReset) t)
  | PinReset => next (goto PinLoad (publish tso INACTIVE t))
  | UnpinStore =>
      let t := publish tso INACTIVE t in
      next (goto (if collect_on_unpin t then CollectLoad (InUnpin 1) else Idle) t)
  | RetireLoad p =>
      let t := count_retire (with_garbage (garbage t ++ [mkGarbage p (epoch s)]) t) in
      next (if retires t mod COLLECT_INTERVAL =? 0 then goto (CollectLoad InRetire) t
            else goto Idle (with_flag true t))
  | CollectLoad k => next (goto (CollectHead (epoch s) k) t)
  | CollectHead g k => next (goto (CollectScan g (participants s) k) t)
  | CollectScan g [] k => next (goto (CollectCas g k) t)
  | CollectScan g (u :: rest) k =>
      e ← word <$> threads s !! u;
      next (goto (if negb (e =? INACTIVE) && (e <? g) then CollectFree k else CollectScan g rest k) t)
  | CollectCas g k =>
      (* an exchange drains the store buffer first *)
      match buffer t with
      | [] =>
          Some (set_thread i (goto (CollectFree k) t)
            (mkState (if epoch s =? g then g + 1 else epoch s) (participants s) (threads s) (linked s) (freed s)))
      | _ => None
      end
  | CollectFree k =>
      let reclaimable := partition_point (λ g, g_epoch g + 2 <=? epoch s) (garbage t) in
      let t' := with_garbage (drop reclaimable (garbage t)) t in
      Some (set_thread i (collected k t')
        (mkState (epoch s) (participants s) (threads s) (linked s)
           (freed s ++ (g_ptr <$> take reclaimable (garbage t)))))
  end.

(** ** The calls *)

Definition call_pin (i : Tid) (t : Thread) (s : State) : State :=
  let '(t, s) := ensure_init i t s in
  let t := with_depth (S (depth t)) t in
  set_thread i (if (depth t =? 1)%nat then goto PinLoad t else t) s.

(** Leaving the outermost pin, a thread gives up its pointers. *)
Definition call_unpin (i : Tid) (t : Thread) (s : State) : State :=
  let t := with_depth (depth t - 1) t in
  set_thread i (if (depth t =? 0)%nat then goto UnpinStore (with_held ∅ t) else t) s.

Definition call_retire (i : Tid) (p : Obj) (t : Thread) (s : State) : State :=
  let '(t, s) := ensure_init i t s in set_thread i (goto (RetireLoad p) t) s.

Definition force_collect (i : Tid) (t : Thread) (s : State) : State :=
  if initialized t then set_thread i (goto (CollectLoad (InForce 2)) t) s else s.

(** A step of the system.  Between calls a pinned thread may read a linked
    pointer, and any thread may unlink an object (an exchange) and retire it. *)
Inductive step (tso : bool) (s : State) : State → Prop :=
| inside i t s' : threads s !! i = Some t → step_thread tso i t s = Some s' → step tso s s'
| pin i t : threads s !! i = Some t → pc t = Idle → step tso s (call_pin i t s)
| unpin i t : threads s !! i = Some t → pc t = Idle → (0 < depth t)%nat → step tso s (call_unpin i t s)
| acquire i t p :
    threads s !! i = Some t → pc t = Idle → (0 < depth t)%nat → p ∈ linked s →
    step tso s (set_thread i (with_held ({[p]} ∪ held t) t) s)
| retire i t p :
    threads s !! i = Some t → pc t = Idle → buffer t = [] → p ∈ linked s →
    step tso s (call_retire i p t (mkState (epoch s) (participants s) (threads s) (linked s ∖ {[p]}) (freed s)))
| force i t : threads s !! i = Some t → pc t = Idle → step tso s (force_collect i t s)
| flush i t w b :
    threads s !! i = Some t → buffer t = w :: b → step tso s (set_thread i (with_word w b t) s).
