(* ===== verification/EbrSpec.v ===== *)
(** Epoch-based reclamation is safe under sequential consistency, and is not
    with store buffers; without readers, collecting frees everything retired. *)

From S2P Require Import Prelude Collections Ebr.
From stdpp Require Import sorting.
Local Open Scope Z_scope.

(** ** The invariant *)

(** The epoch a thread is pinned at, once its [pin] has returned. *)
Definition pin_word (t : Thread) : option Z :=
  match depth t, pc t with
  | O, _ | _, PinLoad | _, PinStore _ | _, PinCheck _ | _, PinReset | _, UnpinStore => None
  | _, _ => Some (word t)
  end.

(** What a thread knows by itself when the global epoch is [ep]. *)
Definition pc_ok (ep : Z) (t : Thread) : Prop :=
  match pc t with
  | PinStore e => 1 <= e <= ep
  | PinCheck e => 1 <= e <= ep ∧ word t = e
  | CollectHead g _ | CollectScan g _ _ | CollectCas g _ => 1 <= g <= ep
  | UnpinStore => depth t = O
  | _ => True
  end.

Record local_ok (ep : Z) (t : Thread) : Prop := {
  lo_buffer : buffer t = [];
  lo_init : (pc t ≠ Idle ∨ (0 < depth t)%nat) → initialized t = true;
  lo_pin w : pin_word t = Some w → 1 <= w <= ep;
  lo_held : held t ≠ ∅ → is_Some (pin_word t);
  lo_sorted : StronglySorted Z.le (g_epoch <$> garbage t);
  lo_garbage : Forall (λ g, g_epoch g <= ep) (garbage t);
  lo_pc : pc_ok ep t;
  lo_uninit : initialized t = false → garbage t = [];
}.

(** Every pinned thread is in [rest] or pinned at [g] at least. *)
Definition scan_ok (g : Z) (rest : list Tid) (s : State) : Prop :=
  ∀ u t w, threads s !! u = Some t → pin_word t = Some w → u ∈ rest ∨ g <= w.

Definition scan_of (s : State) (t : Thread) : Prop :=
  match pc t with
  | CollectScan g rest _ => scan_ok g rest s
  | CollectCas g _ => scan_ok g [] s
  | _ => True
  end.

(** The objects a thread will free: the one it is retiring and its garbage. *)
Definition owned (t : Thread) : list Obj :=
  (match pc t with RetireLoad p => [p] | _ => [] end) ++ (g_ptr <$> garbage t).

(** Every object is in one place. *)
Definition objects (s : State) : list Obj := elements (linked s) ++ (threads s ≫= owned) ++ freed s.

(** A pointer read at epoch [w] is linked, being retired, or garbage of [w] at least. *)
Definition covered (s : State) (w : Z) (p : Obj) : Prop :=
  p ∈ linked s ∨
  ∃ u t, threads s !! u = Some t ∧ (pc t = RetireLoad p ∨ ∃ g, g ∈ garbage t ∧ g_ptr g = p ∧ w <= g_epoch g).

Record inv (s : State) : Prop := {
  iv_epoch : 1 <= epoch s;
  iv_local i t : threads s !! i = Some t → local_ok (epoch s) t;
  iv_parts i t : threads s !! i = Some t → initialized t = true → i ∈ participants s;
  iv_pins i t w : threads s !! i = Some t → pin_word t = Some w → epoch s <= w + 1;
  iv_scan i t : threads s !! i = Some t → scan_of s t;
  iv_objects : NoDup (objects s);
  iv_held i t p : threads s !! i = Some t → p ∈ held t → covered s (word t) p;
}.

(** ** Framing *)

Lemma local_ok_mono ep ep' t : ep <= ep' → local_ok ep t → local_ok ep' t.
Proof.
  intros He [Hb Hi Hp Hh Hs Hg Hc Hu]. split; [done|done| |done|done| | |done].
  - intros w Hw. specialize (Hp w Hw). lia.
  - eapply Forall_impl; [exact Hg|]. simpl. lia.
  - unfold pc_ok in *. destruct (pc t); try done; lia.
Qed.

Lemma owned_insert (l : list Thread) i t t' :
  l !! i = Some t → ∃ rest, l ≫= owned ≡ₚ owned t ++ rest ∧ <[i := t']> l ≫= owned ≡ₚ owned t' ++ rest.
Proof.
  intros Hl. exists ((take i l ≫= owned) ++ (drop (S i) l ≫= owned)).
  rewrite insert_take_drop by (by eapply lookup_lt_Some).
  rewrite <- (take_drop_middle _ _ _ Hl) at 1. rewrite !bind_app, !bind_cons. split; solve_Permutation.
Qed.

(** A step of one thread. *)
Lemma inv_update s s' i t t' :
  inv s → threads s !! i = Some t → threads s' = <[i := t']> (threads s) →
  participants s ⊆ participants s' → epoch s <= epoch s' → local_ok (epoch s') t' →
  (initialized t' = true → i ∈ participants s') →
  (∀ j tj w, threads s' !! j = Some tj → pin_word tj = Some w → epoch s' <= w + 1) →
  (∀ w, pin_word t' = Some w → pin_word t = Some w ∨ epoch s <= w) →
  scan_of s' t' → NoDup (objects s') →
  (∀ j tj p, threads s' !! j = Some tj → p ∈ held tj → covered s' (word tj) p) → inv s'.
Proof.
  intros Hi Ht Hts Hps Hep Hlo Hin Hpin Hnew Hscan Hobj Hheld. destruct Hi as [He Hl Hp Hpi Hs Ho Hh].
  assert (Hcase : ∀ j tj, threads s' !! j = Some tj → (j = i ∧ tj = t') ∨ (j ≠ i ∧ threads s !! j = Some tj)).
  { intros j tj. rewrite Hts. intros [(<- & <- & _)|[? ?]]%list_lookup_insert_Some; naive_solver. }
  split; [lia| | |done| |done|done].
  - intros j tj [[-> ->]|[_ Hj]]%Hcase; [done|]. eapply local_ok_mono; [exact Hep|by eapply Hl].
  - intros j tj [[-> ->]|[_ Hj]]%Hcase; [done|]. intros Hini. apply Hps. by eapply Hp.
  - assert (Hmono : ∀ g rest, g <= epoch s → scan_ok g rest s → scan_ok g rest s').
    { intros g rest Hg Hsc u tu w [[-> ->]|[_ Hu]]%Hcase Hw; [|by eapply Hsc].
      destruct (Hnew w Hw) as [Hold|]; [by eapply Hsc|right; lia]. }
    intros j tj [[-> ->]|[_ Hj]]%Hcase; [done|]. specialize (Hs j tj Hj).
    pose proof (lo_pc _ _ (Hl j tj Hj)) as Hpc. unfold scan_of, pc_ok in *.
    destruct (pc tj); try done; apply Hmono; try done; lia.
Qed.

(** A step that only moves the program counter and the counters of a thread, its
    epoch in memory, or its pin. *)
Lemma inv_local s i t t' :
  inv s → threads s !! i = Some t → local_ok (epoch s) t' → (initialized t' = true → initialized t = true) →
  (∀ w, pin_word t' = Some w → pin_word t = Some w ∨ w = epoch s) →
  scan_of (set_thread i t' s) t' → owned t' = owned t → (∀ p, pc t ≠ RetireLoad p) →
  garbage t' = garbage t → held t' ⊆ held t → (held t' ≠ ∅ → word t' = word t) → inv (set_thread i t' s).
Proof.
  intros Hi Ht Hlo Hini Hpin Hscan Hown Hpc Hg Hh Hw.
  assert (Hcase : ∀ j tj, threads (set_thread i t' s) !! j = Some tj → (j = i ∧ tj = t') ∨ (j ≠ i ∧ threads s !! j = Some tj)).
  { intros j tj. simpl. intros [(<- & <- & _)|[? ?]]%list_lookup_insert_Some; naive_solver. }
  eapply (inv_update s _ i t t'); try done.
  - intros Hi'. eapply (iv_parts _ Hi); [exact Ht|by apply Hini].
  - intros j tj w [[-> ->]|[_ Hj]]%Hcase Hw'; [|by eapply (iv_pins _ Hi)].
    destruct (Hpin w Hw') as [Hold| ->]; [by eapply (iv_pins _ Hi)|simpl; lia].
  - intros w Hw'. destruct (Hpin w Hw') as [?| ->]; [by left|right; lia].
  - pose proof (iv_objects _ Hi) as Ho. unfold objects in *. simpl.
    destruct (owned_insert (threads s) i t t' Ht) as (rest & H1 & H2). rewrite H2, Hown, <- H1. exact Ho.
  - assert (Hcov : ∀ w p, covered s w p → covered (set_thread i t' s) w p).
    { intros w p [?|(u & tu & Hu & Hor)]; [by left|]. right. destruct (decide (u = i)) as [->|Hne].
      - exists i, t'. simplify_eq. split; [simpl; by rewrite list_lookup_insert_eq by (by eapply lookup_lt_Some)|].
        destruct Hor as [Hor|Hor]; [by destruct (Hpc p)|]. right. by rewrite Hg.
      - exists u, tu. split; [|done]. simpl. by rewrite list_lookup_insert_ne. }
    intros j tj p [[-> ->]|[_ Hj]]%Hcase Hp; apply Hcov; [|by eapply (iv_held _ Hi)].
    rewrite Hw by set_solver. eapply (iv_held _ Hi); [exact Ht|by apply Hh].
Qed.

(** What [collect] frees is the garbage of old epochs, and all of it. *)
Lemma reclaimable_split (ep : Z) (l : list Garbage) :
  StronglySorted Z.le (g_epoch <$> l) →
  let n := partition_point (λ g, g_epoch g + 2 <=? ep) l in
  Forall (λ g, g_epoch g + 2 <= ep) (take n l) ∧ Forall (λ g, ep < g_epoch g + 2) (drop n l).
Proof.
  intros Hs n.
  assert (Hex : ∃ k, (k <= length l)%nat ∧ ∀ i x, l !! i = Some x → (g_epoch x + 2 <=? ep) = (i <? k)%nat).
  { clear n. induction l as [|g l IH]; [exists O; split; [lia|done]|].
    rewrite fmap_cons, StronglySorted_cons in Hs. destruct Hs as [Hg Hs].
    destruct (Z.leb_spec (g_epoch g + 2) ep).
    - destruct (IH Hs) as (k & Hk & Hp). exists (S k). split; [simpl; lia|].
      intros [|i] x; simpl; [intros [= <-]; by apply Z.leb_le|]. intros Hx. by rewrite (Hp _ _ Hx).
    - exists O. split; [lia|]. intros i x Hx. apply Z.leb_gt. destruct i as [|i]; simpl in Hx; [by injection Hx as <-|].
      rewrite Forall_fmap, Forall_forall in Hg. apply list_elem_of_lookup_2 in Hx. specialize (Hg _ Hx). simpl in Hg. lia. }
  destruct Hex as (k & Hk & Hp). assert (n = k) as -> by (by apply partition_point_spec).
  split; apply Forall_lookup; intros i x Hx.
  - apply lookup_take_Some in Hx as [Hx Hlt]. specialize (Hp _ _ Hx).
    rewrite (proj2 (Nat.ltb_lt _ _)) in Hp by done. lia.
  - rewrite lookup_drop in Hx. specialize (Hp _ _ Hx). rewrite (proj2 (Nat.ltb_ge _ _)) in Hp by lia. lia.
Qed.

(** ** The steps *)

Lemma local_goto ep t c :
  local_ok ep t → pc t ≠ Idle → (∀ w, pin_word (goto c t) = Some w → 1 <= w <= ep) →
  (held t ≠ ∅ → is_Some (pin_word (goto c t))) → pc_ok ep (goto c t) → local_ok ep (goto c t).
Proof. intros [Hb Hi Hp Hh Hs Hg Hc Hu] Hne H1 H2 H3. split; simpl; auto. Qed.

(** Inside [collect] the pin stays as it is. *)
Lemma pin_word_goto c c' t :
  pc t = c →
  (match c with Idle | RetireLoad _ | CollectLoad _ | CollectHead _ _ | CollectScan _ _ _ | CollectCas _ _ | CollectFree _ => True | _ => False end) →
  (match c' with Idle | RetireLoad _ | CollectLoad _ | CollectHead _ _ | CollectScan _ _ _ | CollectCas _ _ | CollectFree _ => True | _ => False end) →
  pin_word (goto c' t) = pin_word t.
Proof. intros Hc H1 H2. unfold pin_word. simpl. rewrite Hc. destruct (depth t), c, c'; done. Qed.

Lemma held_empty ep t : local_ok ep t → pin_word t = None → held t = ∅.
Proof.
  intros Hl Hp. destruct (decide (held t = ∅)) as [|Hne]; [done|].
  apply (lo_held _ _ Hl) in Hne. rewrite Hp in Hne. by destruct Hne.
Qed.

(** A move of the program counter within [collect]. *)
Lemma inv_goto s i t c' :
  inv s → threads s !! i = Some t → pc t ≠ Idle → (∀ p, pc t ≠ RetireLoad p) →
  pin_word (goto c' t) = pin_word t → pc_ok (epoch s) (goto c' t) → (∀ p, c' ≠ RetireLoad p) →
  (match c' with CollectScan g rest _ => scan_ok g rest s | CollectCas g _ => scan_ok g [] s | _ => True end) →
  inv (set_thread i (goto c' t) s).
Proof.
  intros Hi Ht Hne Hnr Hpw Hpc Hnr' Hscan. pose proof (iv_local _ Hi _ _ Ht) as Hl.
  eapply (inv_local s i t); try done.
  - apply local_goto; [done|done|rewrite Hpw; apply (lo_pin _ _ Hl)|rewrite Hpw; apply (lo_held _ _ Hl)|done].
  - intros w. rewrite Hpw. by left.
  - assert (Hsame : ∀ g rest, scan_ok g rest s → scan_ok g rest (set_thread i (goto c' t) s)).
    { intros g rest Hs u tu w. simpl. intros [(<- & <- & _)|[? ?]]%list_lookup_insert_Some Hw; [|by eapply Hs].
      rewrite Hpw in Hw. by eapply Hs. }
    unfold scan_of. simpl. destruct c'; try done; by apply Hsame.
  - unfold owned. simpl. destruct c', (pc t) eqn:E; try done; try (by destruct (Hnr' p)); by destruct (Hnr p).
Qed.

(** A thread that is not pinned may change its epoch in memory. *)
Lemma inv_unpinned s i t t' :
  inv s → threads s !! i = Some t → pin_word t = None → (∀ p, pc t ≠ RetireLoad p) → pc t ≠ Idle →
  (∀ w, pin_word t' = Some w → w = epoch s ∧ 1 <= epoch s) →
  depth t' = depth t → garbage t' = garbage t → initialized t' = initialized t → buffer t' = buffer t →
  held t' = held t → owned t' = owned t → pc_ok (epoch s) t' → scan_of (set_thread i t' s) t' →
  inv (set_thread i t' s).
Proof.
  intros Hi Ht Hpw Hnr Hne Hpw' Hd Hg Hin Hb Hh Ho Hpc Hsc. pose proof (iv_local _ Hi _ _ Ht) as Hl.
  pose proof (held_empty _ _ Hl Hpw) as Hemp. destruct Hl as [Lb Li Lp Lh Ls Lg Lc Lu].
  eapply (inv_local s i t); try done.
  - split.
    + by rewrite Hb.
    + intros _. rewrite Hin. by apply Li; left.
    + intros w Hw. destruct (Hpw' w Hw). lia.
    + by rewrite Hh, Hemp.
    + by rewrite Hg.
    + by rewrite Hg.
    + done.
    + by rewrite Hin, Hg.
  - by rewrite Hin.
  - intros w Hw. right. by destruct (Hpw' w Hw).
  - by rewrite Hh.
  - by rewrite Hh, Hemp.
Qed.

Lemma inv_pin_steps s i t s' :
  inv s → threads s !! i = Some t → step_thread false i t s = Some s' →
  (match pc t with PinLoad | PinStore _ | PinCheck _ | PinReset | UnpinStore => True | _ => False end) → inv s'.
Proof.
  intros Hi Ht Hs Hpc. pose proof (iv_local _ Hi _ _ Ht) as Hl. pose proof (iv_epoch _ Hi) as He.
  pose proof (lo_pc _ _ Hl) as Hok. unfold step_thread, pc_ok in *.
  assert (Hun : pin_word t = None) by (unfold pin_word; destruct (depth t), (pc t); done).
  destruct (pc t) eqn:Epc; try done; injection Hs as <-;
    (eapply (inv_unpinned s i t); try done; try (by rewrite Epc);
      unfold pin_word, owned, pc_ok, scan_of; simpl; rewrite ?Epc, ?Hok;
      try (destruct (collect_on_unpin t)); try (destruct (Z.eqb_spec (epoch s) e));
      try done; try lia; intros w; destruct (depth t); try done; intros [= <-]; lia).
Qed.

(** What a scan that ends, or a call that begins, tells about the pinned threads. *)
Lemma scan_participants s g : inv s → scan_ok g (participants s) s.
Proof.
  intros Hi u t w Hu Hw. left. eapply (iv_parts _ Hi); [done|]. apply (lo_init _ _ (iv_local _ Hi _ _ Hu)).
  right. unfold pin_word in Hw. destruct (depth t); [done|lia].
Qed.

Lemma scan_next s g u rest t :
  inv s → threads s !! u = Some t → (word t = INACTIVE ∨ g <= word t) → scan_ok g (u :: rest) s → scan_ok g rest s.
Proof.
  intros Hi Hu Hw Hs v tv w Hv Hpw. destruct (Hs v tv w Hv Hpw) as [[->|Hin]%elem_of_cons|]; [|by left|by right].
  right. simplify_eq. pose proof (lo_pin _ _ (iv_local _ Hi _ _ Hu) w Hpw) as Hb.
  assert (word t = w) as <- by (unfold pin_word in Hpw; destruct (depth t), (pc t); congruence).
  destruct Hw as [Hw|]; [rewrite Hw in Hb; unfold INACTIVE in Hb; lia|done].
Qed.

Lemma inv_scan_steps s i t s' :
  inv s → threads s !! i = Some t → step_thread false i t s = Some s' →
  (match pc t with CollectLoad _ | CollectHead _ _ | CollectScan _ _ _ => True | _ => False end) → inv s'.
Proof.
  intros Hi Ht Hs Hpc. pose proof (iv_local _ Hi _ _ Ht) as Hl. pose proof (iv_epoch _ Hi) as He.
  pose proof (lo_pc _ _ Hl) as Hok. pose proof (iv_scan _ Hi _ _ Ht) as Hsc. unfold step_thread, pc_ok, scan_of in *.
  destruct (pc t) as [ | | | | | | |k|g k|g [|u rest] k| | ] eqn:Epc; try done.
  - injection Hs as <-. eapply inv_goto; try done; rewrite ?Epc; try done.
    by eapply pin_word_goto.
  - injection Hs as <-. eapply inv_goto; try done; rewrite ?Epc; try done.
    + by eapply pin_word_goto.
    + by apply scan_participants.
  - injection Hs as <-. eapply inv_goto; try done; rewrite ?Epc; try done. by eapply pin_word_goto.
  - destruct (threads s !! u) as [tu|] eqn:Hu; [|done]. simpl in Hs. injection Hs as <-.
    destruct (negb (word tu =? INACTIVE) && (word tu <? g)) eqn:Et.
    + eapply inv_goto; try done; rewrite ?Epc; try done. by eapply pin_word_goto.
    + eapply inv_goto; try done; rewrite ?Epc; try done; [by eapply pin_word_goto|].
      eapply scan_next; try done. destruct (Z.eqb_spec (word tu) INACTIVE); [by left|right]. simpl in Et. lia.
Qed.

Lemma covered_insert s s' i t t' w p :
  threads s !! i = Some t → threads s' = <[i := t']> (threads s) → linked s ⊆ linked s' →
  (∀ q, pc t = RetireLoad q → ∃ g, g ∈ garbage t' ∧ g_ptr g = q ∧ w <= g_epoch g) →
  (∀ g, g ∈ garbage t → w <= g_epoch g → g ∈ garbage t') →
  covered s w p → covered s' w p.
Proof.
  intros Ht Hts Hli Hr Hg [?|(u & tu & Hu & Hor)]; [left; set_solver|]. right.
  destruct (decide (u = i)) as [->|Hne].
  - exists i, t'. simplify_eq. rewrite Hts, list_lookup_insert_eq by (by eapply lookup_lt_Some). split; [done|].
    destruct Hor as [Hor|(g & Hin & Hp & Hw)]; [right; by apply Hr|right]. exists g. auto.
  - exists u, tu. rewrite Hts, list_lookup_insert_ne by done. done.
Qed.

Lemma threads_insert (s : State) i t t' j tj :
  threads s !! i = Some t → <[i := t']> (threads s) !! j = Some tj →
  (j = i ∧ tj = t') ∨ (j ≠ i ∧ threads s !! j = Some tj).
Proof. intros Ht. intros [(<- & <- & _)|[? ?]]%list_lookup_insert_Some; naive_solver. Qed.

Lemma inv_cas s i t s' g k :
  inv s → threads s !! i = Some t → pc t = CollectCas g k → step_thread false i t s = Some s' → inv s'.
Proof.
  intros Hi Ht Epc Hs. pose proof (iv_local _ Hi _ _ Ht) as Hl. pose proof (lo_pc _ _ Hl) as Hok.
  pose proof (iv_scan _ Hi _ _ Ht) as Hsc. unfold step_thread, pc_ok, scan_of in *. rewrite Epc in *.
  rewrite (lo_buffer _ _ Hl) in Hs. injection Hs as <-.
  assert (Hpw : pin_word (goto (CollectFree k) t) = pin_word t) by (by eapply pin_word_goto).
  assert (Hep : epoch s <= (if epoch s =? g then g + 1 else epoch s)) by (destruct (Z.eqb_spec (epoch s) g); lia).
  eapply (inv_update s _ i t (goto (CollectFree k) t)); try done; cbn [epoch set_thread threads participants linked freed].
  - eapply local_ok_mono; [exact Hep|].
    apply local_goto; rewrite ?Hpw; [done|by rewrite Epc|apply (lo_pin _ _ Hl)|apply (lo_held _ _ Hl)|done].
  - intros Hini. by eapply (iv_parts _ Hi).
  - assert (Hold : ∀ j tj w, threads s !! j = Some tj → pin_word tj = Some w →
      (if epoch s =? g then g + 1 else epoch s) <= w + 1).
    { intros j tj w Hj Hw. destruct (Z.eqb_spec (epoch s) g); [|by eapply (iv_pins _ Hi)].
      destruct (Hsc j tj w Hj Hw) as [[]%elem_of_nil|]. lia. }
    intros j tj w [[-> ->]|[_ Hj]]%(threads_insert _ _ _ _ _ _ Ht) Hw; [|by eapply Hold].
    rewrite Hpw in Hw. by eapply Hold.
  - intros w. rewrite Hpw. by left.
  - pose proof (iv_objects _ Hi) as Ho. unfold objects in *. simpl.
    destruct (owned_insert (threads s) i t (goto (CollectFree k) t) Ht) as (rest & H1 & H2). rewrite H2.
    replace (owned (goto (CollectFree k) t)) with (owned t) by (unfold owned; simpl; by rewrite Epc).
    by rewrite <- H1.
  - intros j tj p Hj Hp. eapply (covered_insert s); try done; simpl; try done; [by rewrite Epc|].
    apply (threads_insert _ _ _ _ _ _ Ht) in Hj as [[-> ->]|[_ Hj]];
      [exact (iv_held _ Hi i t p Ht Hp)|exact (iv_held _ Hi j tj p Hj Hp)].
Qed.

(** [retire] loads the epoch after the object is unlinked, so every reader of it
    is pinned at that epoch or before. *)
Lemma inv_retire_load s i t s' p :
  inv s → threads s !! i = Some t → pc t = RetireLoad p → step_thread false i t s = Some s' → inv s'.
Proof.
  intros Hi Ht Epc Hs. pose proof (iv_local _ Hi _ _ Ht) as Hl. unfold step_thread in Hs. rewrite Epc in Hs.
  set (t1 := count_retire (with_garbage (garbage t ++ [mkGarbage p (epoch s)]) t)) in Hs.
  set (t2 := if retires t1 mod COLLECT_INTERVAL =? 0 then goto (CollectLoad InRetire) t1 else goto Idle (with_flag true t1)) in Hs.
  injection Hs as <-.
  assert (Hf : pin_word t2 = pin_word t ∧ word t2 = word t ∧ held t2 = held t ∧ buffer t2 = buffer t ∧
    initialized t2 = initialized t ∧ garbage t2 = garbage t ++ [mkGarbage p (epoch s)] ∧
    (pc t2 = Idle ∨ pc t2 = CollectLoad InRetire)).
  { subst t2. unfold pin_word. rewrite Epc. destruct (_ =? 0); simpl; repeat split; auto. }
  clearbody t2. destruct Hf as (Hpw & Hw & Hh & Hb & Hin & Hg & Hpc).
  assert (Hinit : initialized t = true) by (apply (lo_init _ _ Hl); left; by rewrite Epc).
  eapply (inv_update s _ i t t2); try done; cbn [epoch set_thread threads participants linked freed].
  - split; rewrite ?Hpw, ?Hb, ?Hin, ?Hh, ?Hg, ?fmap_app; [apply Hl|done|apply Hl|apply Hl| | | |congruence].
    + apply StronglySorted_app_2; [|apply Hl|repeat constructor].
      intros x y (g & -> & Hin')%list_elem_of_fmap ->%list_elem_of_singleton. simpl.
      pose proof (lo_garbage _ _ Hl) as Hfa. rewrite Forall_forall in Hfa. by apply Hfa.
    + apply Forall_app; split; [apply Hl|]. repeat constructor. simpl. lia.
    + unfold pc_ok. by destruct Hpc as [-> | ->].
  - intros _. by eapply (iv_parts _ Hi).
  - intros j tj w [[-> ->]|[_ Hj]]%(threads_insert _ _ _ _ _ _ Ht) Hw'; [|by eapply (iv_pins _ Hi)].
    rewrite Hpw in Hw'. by eapply (iv_pins _ Hi).
  - intros w. rewrite Hpw. by left.
  - unfold scan_of. by destruct Hpc as [-> | ->].
  - pose proof (iv_objects _ Hi) as Ho. unfold objects in *. cbn [epoch set_thread threads participants linked freed].
    destruct (owned_insert (threads s) i t t2 Ht) as (rest & H1 & H2). rewrite H2.
    assert (owned t2 ≡ₚ owned t) as ->.
    { unfold owned. rewrite Epc, Hg, fmap_app. destruct Hpc as [-> | ->]; simpl; solve_Permutation. }
    by rewrite <- H1.
  - intros j tj q Hj Hq.
    assert (Hpin : ∃ t0, threads s !! j = Some t0 ∧ held t0 = held tj ∧ word t0 = word tj).
    { apply (threads_insert _ _ _ _ _ _ Ht) in Hj as [[-> ->]|[_ Hj]]; eauto. }
    destruct Hpin as (t0 & H0 & Hh0 & Hw0).
    assert (Hle : word tj <= epoch s).
    { pose proof (iv_local _ Hi _ _ H0) as Hl0. rewrite <- Hw0.
      destruct (lo_held _ _ Hl0) as [w Hpw0]; [rewrite Hh0; set_solver|].
      pose proof (lo_pin _ _ Hl0 w Hpw0). unfold pin_word in Hpw0. destruct (depth t0), (pc t0); simplify_eq; lia. }
    apply (covered_insert s _ i t t2); try done.
    + intros q'. rewrite Epc. intros [= <-]. exists (mkGarbage p (epoch s)). rewrite Hg. split; [|done].
      apply elem_of_app. right. by apply list_elem_of_singleton.
    + intros g Hin' _. rewrite Hg. apply elem_of_app. by left.
    + rewrite <- Hw0. eapply (iv_held _ Hi); [done|by rewrite Hh0].
Qed.

Lemma collected_frame k t :
  word (collected k t) = word t ∧ held (collected k t) = held t ∧ buffer (collected k t) = buffer t ∧
  initialized (collected k t) = initialized t ∧ garbage (collected k t) = garbage t ∧ depth (collected k t) = depth t ∧
  (pc (collected k t) = Idle ∨ ∃ k', pc (collected k t) = CollectLoad k').
Proof. destruct k as [[|n]| |[|n]]; simpl; eauto 10. Qed.

Lemma pinned_word ep t w : local_ok ep t → pin_word t = Some w → word t = w.
Proof. intros _. unfold pin_word. destruct (depth t), (pc t); congruence. Qed.

Lemma inv_free s i t s' k :
  inv s → threads s !! i = Some t → pc t = CollectFree k → step_thread false i t s = Some s' → inv s'.
Proof.
  intros Hi Ht Epc Hs. pose proof (iv_local _ Hi _ _ Ht) as Hl. unfold step_thread in Hs. rewrite Epc in Hs.
  destruct (reclaimable_split (epoch s) _ (lo_sorted _ _ Hl)) as [Htake Hdrop].
  set (n := partition_point _ (garbage t)) in *. injection Hs as <-.
  destruct (collected_frame k (with_garbage (drop n (garbage t)) t)) as (Hw & Hh & Hb & Hin & Hg & Hd & Hpc).
  set (t2 := collected k _) in *. clearbody t2. simpl in Hw, Hh, Hb, Hin, Hg, Hd.
  assert (Hpw : pin_word t2 = pin_word t).
  { unfold pin_word. rewrite Hd, Hw, Epc. destruct (depth t); [done|]. by destruct Hpc as [-> |[? ->]]. }
  eapply (inv_update s _ i t t2); try done; cbn [epoch set_thread threads participants linked freed].
  - split; rewrite ?Hpw, ?Hb, ?Hin, ?Hh, ?Hg; [apply Hl| |apply Hl|apply Hl| | | |].
    + intros _. apply Hl. left. by rewrite Epc.
    + pose proof (lo_sorted _ _ Hl) as Hso. rewrite <- (take_drop n (garbage t)), fmap_app in Hso.
      by apply StronglySorted_app in Hso as (_ & _ & ?).
    + apply Forall_drop, Hl.
    + unfold pc_ok. by destruct Hpc as [-> |[? ->]].
    + intros Hu. by rewrite (lo_uninit _ _ Hl Hu), drop_nil.
  - rewrite Hin. by eapply (iv_parts _ Hi).
  - intros j tj w [[-> ->]|[_ Hj]]%(threads_insert _ _ _ _ _ _ Ht) Hw'; [|by eapply (iv_pins _ Hi)].
    rewrite Hpw in Hw'. by eapply (iv_pins _ Hi).
  - intros w. rewrite Hpw. by left.
  - unfold scan_of. by destruct Hpc as [-> |[? ->]].
  - pose proof (iv_objects _ Hi) as Ho. unfold objects in *. cbn [epoch set_thread threads participants linked freed].
    destruct (owned_insert (threads s) i t t2 Ht) as (rest & H1 & H2). rewrite H2. rewrite H1 in Ho.
    unfold owned in *. rewrite Epc in Ho. rewrite Hg.
    rewrite <- (take_drop n (garbage t)), fmap_app in Ho at 1. destruct Hpc as [-> |[? ->]]; simpl in *;
    (eapply NoDup_Permutation_proper; [|exact Ho]; solve_Permutation).
  - intros j tj q Hj Hq.
    assert (Hpin : ∃ t0, threads s !! j = Some t0 ∧ held t0 = held tj ∧ word t0 = word tj).
    { apply (threads_insert _ _ _ _ _ _ Ht) in Hj as [[-> ->]|[_ Hj]]; eauto. }
    destruct Hpin as (t0 & H0 & Hh0 & Hw0). pose proof (iv_local _ Hi _ _ H0) as Hl0.
    destruct (lo_held _ _ Hl0) as [w Hpw0]; [rewrite Hh0; set_solver|].
    pose proof (iv_pins _ Hi _ _ _ H0 Hpw0) as Hlow. pose proof (pinned_word _ _ _ Hl0 Hpw0) as Hwd.
    apply (covered_insert s _ i t t2); try done.
    + by rewrite Epc.
    + intros g Hin' Hge. rewrite Hg. rewrite <- (take_drop n (garbage t)) in Hin'. apply elem_of_app in Hin' as [Hin'|]; [|done].
      rewrite Forall_forall in Htake. specialize (Htake _ Hin'). simpl in Htake. lia.
    + rewrite <- Hw0. eapply (iv_held _ Hi); [done|by rewrite Hh0].
Qed.

Lemma inv_inside s i t s' : inv s → threads s !! i = Some t → step_thread false i t s = Some s' → inv s'.
Proof.
  intros Hi Ht Hs. destruct (pc t) eqn:Epc.
  - unfold step_thread in Hs. by rewrite Epc in Hs.
  - eapply inv_pin_steps; try done; by rewrite Epc.
  - eapply inv_pin_steps; try done; by rewrite Epc.
  - eapply inv_pin_steps; try done; by rewrite Epc.
  - eapply inv_pin_steps; try done; by rewrite Epc.
  - eapply inv_pin_steps; try done; by rewrite Epc.
  - by eapply inv_retire_load.
  - eapply inv_scan_steps; try done; by rewrite Epc.
  - eapply inv_scan_steps; try done; by rewrite Epc.
  - eapply inv_scan_steps; try done; by rewrite Epc.
  - by eapply inv_cas.
  - by eapply inv_free.
Qed.

(** ** The calls *)

Lemma idle_pin_word t : pc t = Idle → pin_word t = match depth t with O => None | _ => Some (word t) end.
Proof. intros Hp. unfold pin_word. rewrite Hp. by destruct (depth t). Qed.

Lemma ensure_init_ok s i t :
  inv s → threads s !! i = Some t → pc t = Idle →
  let '(t1, s1) := ensure_init i t s in
  inv (set_thread i t1 s1) ∧ threads s1 = threads s ∧ initialized t1 = true ∧ pc t1 = Idle ∧ depth t1 = depth t ∧
  linked s1 = linked s ∧ freed s1 = freed s ∧ epoch s1 = epoch s ∧ buffer t1 = [].
Proof.
  intros Hi Ht Hpc. pose proof (iv_local _ Hi _ _ Ht) as Hl. unfold ensure_init. destruct (initialized t) eqn:Hin.
  - split; [|by rewrite (lo_buffer _ _ Hl)]. assert (set_thread i t s = s) as ->; [|done].
    destruct s. unfold set_thread. simpl in *. by rewrite list_insert_id.
  - assert (Hd : depth t = O).
    { destruct (depth t) eqn:E; [done|]. rewrite (lo_init _ _ Hl) in Hin; [done|right; lia]. }
    assert (Hpw : pin_word t = None) by (by rewrite idle_pin_word, Hd).
    pose proof (held_empty _ _ Hl Hpw) as Hh. pose proof (lo_uninit _ _ Hl Hin) as Hg.
    split; [|done]. rewrite Hpc, Hd, Hh.
    set (t2 := mkThread _ _ _ _ _ _ _ _ _). eapply (inv_update s _ i t t2); try done; cbn [epoch set_thread threads participants linked freed].
    + set_solver.
    + split; simpl; try done; constructor.
    + intros _. by left.
    + intros j tj w [[-> ->]|[_ Hj]]%(threads_insert _ _ _ _ _ _ Ht) Hw'; [done|by eapply (iv_pins _ Hi)].
    + pose proof (iv_objects _ Hi) as Ho. unfold objects in *. cbn [epoch set_thread threads participants linked freed].
      destruct (owned_insert (threads s) i t t2 Ht) as (rest & H1 & H2). rewrite H2.
      replace (owned t2) with (owned t) by (unfold owned; by rewrite Hpc, Hg). by rewrite <- H1.
    + intros j tj q [[-> ->]|[_ Hj]]%(threads_insert _ _ _ _ _ _ Ht) Hq; [by apply elem_of_empty in Hq|].
      apply (covered_insert s _ i t t2); try done; [by rewrite Hpc|by rewrite Hg|by eapply (iv_held _ Hi)].
Qed.

Lemma set_thread_twice i t1 t2 s : set_thread i t2 (set_thread i t1 s) = set_thread i t2 s.
Proof. unfold set_thread. simpl. by rewrite list_insert_insert_eq. Qed.

Lemma lookup_set_thread i t t0 s : threads s !! i = Some t0 → threads (set_thread i t s) !! i = Some t.
Proof. intros H. simpl. apply list_lookup_insert_eq. by eapply lookup_lt_Some. Qed.

(** A call of an initialized thread that does not touch its garbage. *)
Lemma inv_call s i t t' :
  inv s → threads s !! i = Some t → pc t = Idle → initialized t = true →
  initialized t' = true → buffer t' = buffer t → word t' = word t → garbage t' = garbage t → owned t' = owned t →
  held t' ⊆ held t → (held t' ≠ ∅ → is_Some (pin_word t')) → (∀ w, pin_word t' = Some w → pin_word t = Some w) →
  pc_ok (epoch s) t' → (∀ g r k, pc t' ≠ CollectScan g r k) → (∀ g k, pc t' ≠ CollectCas g k) →
  inv (set_thread i t' s).
Proof.
  intros Hi Ht Hpc Hin Hin' Hb Hw Hg Ho Hh Hpin Hpw Hok Hns Hnc. pose proof (iv_local _ Hi _ _ Ht) as Hl.
  apply (inv_local s i t t'); try done.
  - split; rewrite ?Hb, ?Hg; try apply Hl; try done; [|congruence].
    intros w Hw'. by apply Hl, Hpw.
  - intros w Hw'. left. by apply Hpw.
  - unfold scan_of. destruct (pc t') eqn:E; try done; [by destruct (Hns g rest k)|by destruct (Hnc g k)].
  - by rewrite Hpc.
Qed.

Lemma inv_call_pin s i t : inv s → threads s !! i = Some t → pc t = Idle → inv (call_pin i t s).
Proof.
  intros Hi Ht Hpc. pose proof (ensure_init_ok s i t Hi Ht Hpc) as He. unfold call_pin.
  destruct (ensure_init i t s) as [t1 s1]. destruct He as (H1 & Hts & Hin & Hpc1 & _ & _ & _ & _ & _).
  rewrite <- (set_thread_twice i t1). rewrite <- Hts in Ht. apply lookup_set_thread with (t := t1) in Ht.
  pose proof (iv_local _ H1 _ _ Ht) as Hl. pose proof (idle_pin_word _ Hpc1) as Hpw.
  eapply inv_call; try done; destruct (Nat.eqb_spec (depth (with_depth (S (depth t1)) t1)) 1) as [E|E]; try done.
  - unfold owned. simpl. by rewrite Hpc1.
  - simpl in *. assert (depth t1 = O) as Hd by lia. rewrite Hd in Hpw. simpl. by rewrite (held_empty _ _ Hl Hpw).
  - intros _. rewrite idle_pin_word by done. simpl. by eexists.
  - rewrite idle_pin_word by done. simpl in *. intros w [= <-]. rewrite Hpw. by destruct (depth t1).
  - unfold pc_ok. simpl. by rewrite Hpc1.
  - simpl. by rewrite Hpc1.
  - simpl. by rewrite Hpc1.
Qed.

Lemma inv_call_unpin s i t :
  inv s → threads s !! i = Some t → pc t = Idle → (0 < depth t)%nat → inv (call_unpin i t s).
Proof.
  intros Hi Ht Hpc Hd. pose proof (iv_local _ Hi _ _ Ht) as Hl. pose proof (idle_pin_word _ Hpc) as Hpw.
  assert (Hin : initialized t = true) by (apply Hl; by right). unfold call_unpin.
  eapply inv_call; try done; destruct (Nat.eqb_spec (depth (with_depth (depth t - 1) t)) 0) as [E|E]; try done.
  - unfold owned. simpl. by rewrite Hpc.
  - intros _. rewrite idle_pin_word by done. simpl in *. destruct (depth t - 1)%nat; [done|by eexists].
  - intros w. unfold pin_word. by destruct (depth (goto _ _)).
  - intros w. rewrite idle_pin_word by done. rewrite Hpw. simpl in *. destruct (depth t - 1)%nat; [done|].
    by destruct (depth t); [lia|].
  - unfold pc_ok. simpl. by rewrite Hpc.
  - simpl. by rewrite Hpc.
  - simpl. by rewrite Hpc.
Qed.

Lemma inv_force s i t : inv s → threads s !! i = Some t → pc t = Idle → inv (force_collect i t s).
Proof.
  intros Hi Ht Hpc. unfold force_collect. destruct (initialized t) eqn:Hin; [|done].
  pose proof (iv_local _ Hi _ _ Ht) as Hl. pose proof (pin_word_goto Idle (CollectLoad (InForce 2)) t Hpc I I) as Hpw.
  eapply inv_call; try done; rewrite ?Hpw; try done; [|apply Hl]. unfold owned. simpl. by rewrite Hpc.
Qed.

Lemma inv_acquire s i t p :
  inv s → threads s !! i = Some t → pc t = Idle → (0 < depth t)%nat → p ∈ linked s →
  inv (set_thread i (with_held ({[p]} ∪ held t) t) s).
Proof.
  intros Hi Ht Hpc Hd Hp. pose proof (iv_local _ Hi _ _ Ht) as Hl. set (t2 := with_held _ t).
  assert (Hpw : pin_word t2 = Some (word t)) by (rewrite idle_pin_word by done; simpl; by destruct (depth t); [lia|]).
  assert (Hpt : pin_word t = Some (word t)) by (rewrite idle_pin_word by done; by destruct (depth t); [lia|]).
  eapply (inv_update s _ i t t2); try done; cbn [epoch set_thread threads participants linked freed].
  - destruct Hl as [Lb Li Lp Lh Ls Lg Lc Lu]. split; try done.
  - intros Hin. by eapply (iv_parts _ Hi).
  - intros j tj w [[-> ->]|[_ Hj]]%(threads_insert _ _ _ _ _ _ Ht) Hw'; [|by eapply (iv_pins _ Hi)].
    rewrite Hpw, <- Hpt in Hw'. by eapply (iv_pins _ Hi).
  - intros w. rewrite Hpw, Hpt. by left.
  - unfold scan_of. simpl. by rewrite Hpc.
  - pose proof (iv_objects _ Hi) as Ho. unfold objects in *. cbn [epoch set_thread threads participants linked freed].
    destruct (owned_insert (threads s) i t t2 Ht) as (rest & H1 & H2). rewrite H2.
    replace (owned t2) with (owned t) by done. by rewrite <- H1.
  - intros j tj q Hj Hq. apply (covered_insert s _ i t t2); try done; [by rewrite Hpc|].
    apply (threads_insert _ _ _ _ _ _ Ht) in Hj as [[-> ->]|[_ Hj]]; [|exact (iv_held _ Hi j tj q Hj Hq)].
    simpl in Hq. apply elem_of_union in Hq as [->%elem_of_singleton|Hq]; [by left|exact (iv_held _ Hi i t q Ht Hq)].
Qed.

Lemma inv_retire_call s i t p :
  inv s → threads s !! i = Some t → pc t = Idle → initialized t = true → p ∈ linked s →
  inv (set_thread i (goto (RetireLoad p) t) (mkState (epoch s) (participants s) (threads s) (linked s ∖ {[p]}) (freed s))).
Proof.
  intros Hi Ht Hpc Hin Hp. pose proof (iv_local _ Hi _ _ Ht) as Hl. set (t2 := goto (RetireLoad p) t).
  assert (Hpw : pin_word t2 = pin_word t) by (by apply (pin_word_goto Idle)).
  eapply (inv_update s _ i t t2); try done; cbn [epoch set_thread threads participants linked freed].
  - destruct Hl as [Lb Li Lp Lh Ls Lg Lc Lu]. split; rewrite ?Hpw; done.
  - intros _. by eapply (iv_parts _ Hi).
  - intros j tj w [[-> ->]|[_ Hj]]%(threads_insert _ _ _ _ _ _ Ht) Hw'; [|by eapply (iv_pins _ Hi)].
    rewrite Hpw in Hw'. by eapply (iv_pins _ Hi).
  - intros w. rewrite Hpw. by left.
  - pose proof (iv_objects _ Hi) as Ho. unfold objects in *. cbn [epoch set_thread threads participants linked freed].
    destruct (owned_insert (threads s) i t t2 Ht) as (rest & H1 & H2). rewrite H2. rewrite H1 in Ho.
    unfold owned in *. rewrite Hpc in Ho. simpl in *.
    assert (elements (linked s) ≡ₚ p :: elements (linked s ∖ {[p]})) as Hel.
    { rewrite <- (elements_union_singleton (linked s ∖ {[p]}) p) by set_solver. by rewrite <- union_difference_singleton_L. }
    rewrite Hel in Ho. eapply NoDup_Permutation_proper; [|exact Ho]. solve_Permutation.
  - intros j tj q Hj Hq.
    assert (Hc : covered s (word tj) q).
    { apply (threads_insert _ _ _ _ _ _ Ht) in Hj as [[-> ->]|[_ Hj]];
        [exact (iv_held _ Hi i t q Ht Hq)|exact (iv_held _ Hi j tj q Hj Hq)]. }
    destruct Hc as [Hl'|(u & tu & Hu & Hor)].
    + destruct (decide (q = p)) as [->|]; [right|left; set_solver].
      exists i, t2. split; [|by left]. apply list_lookup_insert_eq. by eapply lookup_lt_Some.
    + right. destruct (decide (u = i)) as [->|Hne].
      * exists i, t2. simplify_eq. split; [apply list_lookup_insert_eq; by eapply lookup_lt_Some|].
        destruct Hor as [Hor|Hor]; [by rewrite Hpc in Hor|by right].
      * exists u, tu. simpl. by rewrite list_lookup_insert_ne.
Qed.

Lemma inv_call_retire s i t p :
  inv s → threads s !! i = Some t → pc t = Idle → p ∈ linked s →
  inv (call_retire i p t (mkState (epoch s) (participants s) (threads s) (linked s ∖ {[p]}) (freed s))).
Proof.
  intros Hi Ht Hpc Hp. pose proof (ensure_init_ok s i t Hi Ht Hpc) as He. unfold call_retire.
  destruct (ensure_init i t s) as [t1 s1] eqn:Ee. destruct He as (H1 & Hts & Hin & Hpc1 & _ & Hli & _).
  pose proof (lookup_set_thread i t1 t s1) as Hlk. rewrite Hts in Hlk. specialize (Hlk Ht).
  assert (p ∈ linked (set_thread i t1 s1)) as Hp' by (simpl; by rewrite Hli).
  pose proof (inv_retire_call _ _ _ _ H1 Hlk Hpc1 Hin Hp') as Hgoal. revert Hgoal.
  unfold ensure_init in *. destruct (initialized t); injection Ee as <- <-; unfold set_thread; simpl;
    by rewrite list_insert_insert_eq.
Qed.

(** ** Every reachable state *)

Lemma inv_start n objs : inv (start n objs).
Proof.
  assert (Hc : ∀ i t, threads (start n objs) !! i = Some t → t = Thread_uninit)
    by (intros i t [-> _]%lookup_replicate; done).
  split.
  - simpl. lia.
  - intros i t ->%Hc. split; simpl; try done; try (by constructor). intros [?|?]; [done|lia].
  - by intros i t ->%Hc.
  - by intros i t w ->%Hc.
  - by intros i t ->%Hc.
  - unfold objects. simpl. rewrite app_nil_r.
    assert (replicate n Thread_uninit ≫= owned = []) as -> by (clear Hc; by induction n).
    rewrite app_nil_r. apply NoDup_elements.
  - intros i t p ->%Hc. set_solver.
Qed.

Lemma inv_step s s' : inv s → step false s s' → inv s'.
Proof.
  intros Hi Hs. destruct Hs.
  - by eapply inv_inside.
  - by apply inv_call_pin.
  - by apply inv_call_unpin.
  - by apply inv_acquire.
  - by apply inv_call_retire.
  - by apply inv_force.
  - pose proof (lo_buffer _ _ (iv_local _ Hi _ _ ltac:(eassumption))). congruence.
Qed.

Lemma inv_reachable n objs s : rtc (step false) (start n objs) s → inv s.
Proof. revert s. apply (rtc_ind_r inv); [apply inv_start|]. intros y z _ Hs Hy. by eapply inv_step. Qed.

(** An executable schedule. *)
Inductive Move := MInside (i : Tid) | MPin (i : Tid) | MUnpin (i : Tid) | MAcquire (i : Tid) (p : Obj) | MRetire (i : Tid) (p : Obj)
  | MFlush (i : Tid).

Definition idle_thread (i : Tid) (s : State) : option Thread :=
  t ← threads s !! i; match pc t with Idle => Some t | _ => None end.

Definition move (tso : bool) (s : State) (m : Move) : option State :=
  match m with
  | MInside i => t ← threads s !! i; step_thread tso i t s
  | MPin i => t ← idle_thread i s; Some (call_pin i t s)
  | MUnpin i => t ← idle_thread i s; if (0 <? depth t)%nat then Some (call_unpin i t s) else None
  | MAcquire i p =>
      t ← idle_thread i s;
      if (0 <? depth t)%nat && bool_decide (p ∈ linked s) then Some (set_thread i (with_held ({[p]} ∪ held t) t) s) else None
  | MRetire i p =>
      t ← idle_thread i s;
      if bool_decide (buffer t = []) && bool_decide (p ∈ linked s)
      then Some (call_retire i p t (mkState (epoch s) (participants s) (threads s) (linked s ∖ {[p]}) (freed s))) else None
  | MFlush i => t ← threads s !! i; match buffer t with w :: b => Some (set_thread i (with_word w b t) s) | [] => None end
  end.

Fixpoint run (tso : bool) (ms : list Move) (s : State) : option State :=
  match ms with [] => Some s | m :: ms => s' ← move tso s m; run tso ms s' end.

Lemma idle_thread_Some i s t : idle_thread i s = Some t → threads s !! i = Some t ∧ pc t = Idle.
Proof. unfold idle_thread. destruct (threads s !! i) as [t'|]; simpl; [|done]. destruct (pc t') eqn:E; try done. by intros [= ->]. Qed.

Lemma move_step tso s m s' : move tso s m = Some s' → step tso s s'.
Proof.
  destruct m; simpl; intros Hm; apply bind_Some in Hm as (t & Ht & Hm).
  - by eapply inside.
  - apply idle_thread_Some in Ht as [Ht Hp]. injection Hm as <-. by apply pin.
  - apply idle_thread_Some in Ht as [Ht Hp]. destruct (Nat.ltb_spec 0 (depth t)); [|done]. injection Hm as <-. by apply unpin.
  - apply idle_thread_Some in Ht as [Ht Hp]. destruct (Nat.ltb_spec 0 (depth t)); [|done]. simpl in Hm.
    case_bool_decide; [|done]. injection Hm as <-. by apply acquire.
  - apply idle_thread_Some in Ht as [Ht Hp]. do 2 (case_bool_decide; [|done]). injection Hm as <-. by apply retire.
  - destruct (buffer t) as [|w b] eqn:E; [done|]. injection Hm as <-. by eapply flush.
Qed.

Lemma run_steps tso ms s s' : run tso ms s = Some s' → rtc (step tso) s s'.
Proof.
  revert s. induction ms as [|m ms IH]; intros s; simpl; [by intros [= ->]|].
  intros (s1 & Hm & Hr)%bind_Some. eapply rtc_l; [by eapply move_step|by apply IH].
Qed.

(** A reader pins and reads a pointer; a writer retires the object and leaves. *)
Definition use_after_free (n : nat) : list Move :=
  [MPin 0; MInside 0; MInside 0; MInside 0; MAcquire 0 7; MPin 1; MInside 1; MInside 1; MInside 1; MFlush 1; MRetire 1 7; MInside 1;
   MUnpin 1; MInside 1; MFlush 1] ++ replicate n (MInside 1).


(** ** A thread that runs alone *)

Definition solo (i : Tid) (s s' : State) : Prop := ∃ t, threads s !! i = Some t ∧ step_thread false i t s = Some s'.

(** Every participant is a thread. *)
Definition parts_dom (s : State) : Prop := ∀ u, u ∈ participants s → (u < length (threads s))%nat.

Lemma step_thread_frame tso i t s s' :
  step_thread tso i t s = Some s' → participants s' = participants s ∧ length (threads s') = length (threads s).
Proof.
  intros Hs. unfold step_thread in Hs. destruct (pc t) as [| | | | | | | | |g [|u rest] k| |].
  all: try (injection Hs as <-; simpl; by rewrite length_insert).
  - done.
  - apply bind_Some in Hs as (e & _ & Hs). injection Hs as <-. simpl. by rewrite length_insert.
  - destruct (buffer t); [|done]. injection Hs as <-. simpl. by rewrite length_insert.
Qed.

Lemma parts_dom_init s i t t1 s1 t0 t' :
  parts_dom s → threads s !! i = Some t0 → ensure_init i t s = (t1, s1) → parts_dom (set_thread i t' s1).
Proof.
  intros Hd Ht He u. apply lookup_lt_Some in Ht. unfold ensure_init in He.
  destruct (initialized t); injection He as <- <-; simpl; rewrite length_insert; [apply Hd|].
  intros [->|Hu]%elem_of_cons; [done|by apply Hd].
Qed.

Lemma parts_dom_step s s' : parts_dom s → step false s s' → parts_dom s'.
Proof.
  intros Hd Hs. destruct Hs as [i t s' Ht Hs|i t Ht Hp|i t Ht Hp Hz|i t p Ht|i t p Ht Hp Hb Hl|i t Ht Hp|i t w b Ht Hb].
  - apply step_thread_frame in Hs as [Hp Hl]. unfold parts_dom. by rewrite Hp, Hl.
  - unfold call_pin. destruct (ensure_init i t s) as [t1 s1] eqn:E. by eapply parts_dom_init.
  - unfold call_unpin, parts_dom. simpl. by rewrite length_insert.
  - unfold parts_dom. simpl. by rewrite length_insert.
  - unfold call_retire. destruct (ensure_init i t _) as [t1 s1] eqn:E. refine (parts_dom_init _ i t t1 s1 t _ _ _ E); done.
  - unfold force_collect. destruct (initialized t); [|done]. unfold parts_dom. simpl. by rewrite length_insert.
  - unfold parts_dom. simpl. by rewrite length_insert.
Qed.

Lemma parts_dom_reachable n objs s : rtc (step false) (start n objs) s → parts_dom s.
Proof. revert s. apply (rtc_ind_r parts_dom); [intros u []%elem_of_nil|]. intros y z _ Hs Hy. by eapply parts_dom_step. Qed.

Lemma solo_scan i g k rest s t :
  threads s !! i = Some t → pc t = CollectScan g rest k →
  (∀ u, u ∈ rest → ∃ tu, threads s !! u = Some tu ∧ word tu = INACTIVE) → word t = INACTIVE →
  rtc (solo i) s (set_thread i (goto (CollectCas g k) t) s).
Proof.
  revert s t. induction rest as [|u rest IH]; intros s t Ht Hpc Hall Hw.
  - apply rtc_once. exists t. split; [done|]. unfold step_thread. by rewrite Hpc.
  - destruct (Hall u) as (tu & Hu & Hwu); [by left|].
    eapply (rtc_l _ _ (set_thread i (goto (CollectScan g rest k) t) s)).
    + exists t. split; [done|]. unfold step_thread. rewrite Hpc, Hu. simpl. by rewrite Hwu.
    + rewrite <- (set_thread_twice i (goto (CollectScan g rest k) t) (goto (CollectCas g k) t)).
      change (goto (CollectCas g k) t) with (goto (CollectCas g k) (goto (CollectScan g rest k) t)).
      apply IH; [by eapply lookup_set_thread|done| |done].
      intros v Hv. destruct (decide (v = i)) as [->|Hne].
      * exists (goto (CollectScan g rest k) t). split; [by eapply lookup_set_thread|done].
      * simpl. rewrite list_lookup_insert_ne by done. apply Hall. by right.
Qed.

(** One call of [collect]: the epoch advances and the garbage of two epochs ago is freed. *)
Lemma solo_collect i k s t :
  threads s !! i = Some t → pc t = CollectLoad k → buffer t = [] →
  (∀ u, u ∈ participants s → ∃ tu, threads s !! u = Some tu ∧ word tu = INACTIVE) → word t = INACTIVE →
  let n := partition_point (λ g, g_epoch g + 2 <=? epoch s + 1) (garbage t) in
  rtc (solo i) s (set_thread i (collected k (with_garbage (drop n (garbage t)) t))
    (mkState (epoch s + 1) (participants s) (threads s) (linked s) (freed s ++ (g_ptr <$> take n (garbage t))))).
Proof.
  intros Ht Hpc Hb Hall Hw n.
  set (s1 := set_thread i (goto (CollectHead (epoch s) k) t) s).
  set (s2 := set_thread i (goto (CollectScan (epoch s) (participants s) k) t) s).
  set (s3 := set_thread i (goto (CollectCas (epoch s) k) t) s).
  set (s4 := set_thread i (goto (CollectFree k) t) (mkState (epoch s + 1) (participants s) (threads s) (linked s) (freed s))).
  eapply (rtc_l _ _ s1); [exists t; split; [done|]; unfold step_thread; by rewrite Hpc|].
  eapply (rtc_l _ _ s2).
  { exists (goto (CollectHead (epoch s) k) t). split; [by eapply lookup_set_thread|]. unfold step_thread, s1, s2, set_thread. simpl. by rewrite list_insert_insert_eq. }
  eapply (rtc_trans _ s3).
  { subst s2 s3. rewrite <- (set_thread_twice i (goto (CollectScan (epoch s) (participants s) k) t) (goto (CollectCas _ _) t)).
    apply (solo_scan i (epoch s) k (participants s) _ (goto (CollectScan (epoch s) (participants s) k) t));
      [by eapply lookup_set_thread|done| |done].
    intros u Hu. destruct (decide (u = i)) as [->|Hne].
    - eexists. split; [by eapply lookup_set_thread|done].
    - simpl. rewrite list_lookup_insert_ne by done. by apply Hall. }
  eapply (rtc_l _ _ s4).
  { exists (goto (CollectCas (epoch s) k) t). split; [by eapply lookup_set_thread|]. unfold step_thread. simpl. rewrite Hb.
    rewrite Z.eqb_refl. unfold s3, s4, set_thread. simpl. by rewrite list_insert_insert_eq. }
  apply rtc_once. exists (goto (CollectFree k) t). split; [by eapply lookup_set_thread|]. unfold step_thread. simpl. fold n.
  unfold s4, set_thread. simpl. rewrite list_insert_insert_eq. repeat f_equal.
Qed.

Lemma solo_force i n s t :
  threads s !! i = Some t → pc t = CollectLoad (InForce n) → buffer t = [] → StronglySorted Z.le (g_epoch <$> garbage t) →
  (∀ u, u ∈ participants s → ∃ tu, threads s !! u = Some tu ∧ word tu = INACTIVE) → word t = INACTIVE →
  ∃ s' l f, rtc (solo i) s s' ∧ threads s' !! i = Some (goto Idle (with_garbage l t)) ∧ garbage t = f ++ l ∧
    freed s' = freed s ++ (g_ptr <$> f) ∧ Forall (λ g, epoch s + Z.of_nat (S n) < g_epoch g + 2) l.
Proof.
  revert s t. induction n as [|n IH]; intros s t Ht Hpc Hb Hso Hall Hw;
    pose proof (solo_collect i _ s t Ht Hpc Hb Hall Hw) as Hrun;
    destruct (reclaimable_split (epoch s + 1) _ Hso) as [_ Hdrop]; simpl in Hrun;
    set (m := partition_point _ (garbage t)) in *.
  - eexists _, (drop m (garbage t)), (take m (garbage t)). split; [exact Hrun|].
    split; [by eapply lookup_set_thread|]. split; [by rewrite take_drop|]. split; [done|exact Hdrop].
  - match type of Hrun with rtc _ _ ?x => set (s1 := x) in * end.
    destruct (IH s1 (goto (CollectLoad (InForce n)) (with_garbage (drop m (garbage t)) t))) as (s' & l & f & Hr & Hl & Hg & Hf & Hfa);
      [by eapply lookup_set_thread|done|done| | |done|].
    + simpl. rewrite <- (take_drop m (garbage t)), fmap_app in Hso. by apply StronglySorted_app in Hso as (_ & _ & ?).
    + intros u Hu. destruct (decide (u = i)) as [->|Hne]; [eexists; split; [by eapply lookup_set_thread|done]|].
      simpl. rewrite list_lookup_insert_ne by done. by apply Hall.
    + exists s', l, (take m (garbage t) ++ f). split; [by eapply rtc_trans|]. split; [done|].
      split; [simpl in Hg; by rewrite <- (app_assoc _ f l), <- Hg, take_drop|].
      split; [rewrite Hf; simpl; by rewrite fmap_app, app_assoc|].
      eapply Forall_impl; [exact Hfa|]. intros g. simpl. lia.
Qed.

(** ** Properties *)


(** With store buffers it is not: the reader's store of its epoch is still
    buffered when it has checked the global epoch, the writer's two collections
    do not see it, and the object is freed while the reader holds it. *)
Theorem ebr_tso_unsafe :
  ∃ s t, rtc (step true) (start 2 {[7%nat]}) s ∧ threads s !! 0%nat = Some t ∧ (0 < depth t)%nat ∧ pc t = Idle ∧
    7%nat ∈ held t ∧ 7%nat ∈ freed s.
Proof.
  destruct (run true (use_after_free 14) (start 2 {[7%nat]})) as [s|] eqn:Hr; [|by vm_compute in Hr].
  destruct (threads s !! 0%nat) as [t|] eqn:Ht; [|by vm_compute in Hr; injection Hr as <-].
  exists s, t. split; [by eapply run_steps|]. split; [done|]. vm_compute in Hr. injection Hr as <-. vm_compute in Ht. injection Ht as <-.
  split; [simpl; lia|]. split; [done|]. split; apply (bool_decide_unpack _); by vm_compute.
Qed.



(** With no reader pinned, [force_collect] frees everything its thread has
    retired, in order, and returns, whatever the garbage's epochs. *)
Theorem force_collect_frees n objs s i t :
  rtc (step false) (start n objs) s → threads s !! i = Some t → pc t = Idle → initialized t = true →
  (∀ u tu, threads s !! u = Some tu → word tu = INACTIVE) →
  ∃ s' t', rtc (solo i) (force_collect i t s) s' ∧ threads s' !! i = Some t' ∧ pc t' = Idle ∧ garbage t' = [] ∧
    freed s' = freed s ++ (g_ptr <$> garbage t).
Proof.
  intros Hr Ht Hpc Hin Hall. pose proof (inv_reachable _ _ _ Hr) as Hi. pose proof (iv_local _ Hi _ _ Ht) as Hl.
  pose proof (parts_dom_reachable _ _ _ Hr) as Hd. unfold force_collect. rewrite Hin.
  set (s0 := set_thread i (goto (CollectLoad (InForce 2)) t) s).
  destruct (solo_force i 2 s0 (goto (CollectLoad (InForce 2)) t)) as (s' & l & f & Hrun & Hlk & Hg & Hf & Hfa);
    [by eapply lookup_set_thread|done|apply Hl|apply Hl| |exact (Hall i t Ht)|].
  - intros u Hu. destruct (decide (u = i)) as [->|Hne].
    + eexists. split; [by eapply lookup_set_thread|]. exact (Hall i t Ht).
    + destruct (lookup_lt_is_Some_2 (threads s) u) as [tu Htu]; [by apply Hd|]. exists tu.
      split; [simpl; by rewrite list_lookup_insert_ne|by eapply Hall].
  - assert (l = []) as ->.
    { destruct l as [|g l]; [done|]. apply Forall_cons in Hfa as [Hg0 _]. pose proof (lo_garbage _ _ Hl) as Hfa.
      simpl in Hg, Hg0. rewrite Hg in Hfa. apply Forall_app in Hfa as [_ Hfa]. apply Forall_cons in Hfa as [Hfa _]. lia. }
    exists s', (goto Idle (with_garbage [] (goto (CollectLoad (InForce 2)) t))). split; [done|]. split; [done|]. split; [done|].
    split; [done|]. simpl in Hg. rewrite app_nil_r in Hg. by rewrite Hf, <- Hg.
Qed.

(** The writer of the schedule alone, its epoch left, with its object not yet free. *)
Definition demo_garbage : State :=
  default (start 0 ∅) (run false [MRetire 0 7; MInside 0] (start 2 {[7%nat]})).

Lemma force_collect_frees_witness :
  ∃ t s', threads demo_garbage !! 0%nat = Some t ∧ rtc (solo 0) (force_collect 0 t demo_garbage) s' ∧ freed s' = [7%nat].
Proof.
  destruct (threads demo_garbage !! 0%nat) as [t|] eqn:Ht; [|by vm_compute in Ht].
  assert (Hr : run false [MRetire 0 7; MInside 0] (start 2 {[7%nat]}) = Some demo_garbage) by (by vm_compute).
  assert (Hall : ∀ u tu, threads demo_garbage !! u = Some tu → word tu = INACTIVE).
  { intros [|[|u]] tu H; vm_compute in H; [injection H as <-|injection H as <-|]; done. }
  pose proof Ht as Ht'. vm_compute in Ht'. injection Ht' as <-.
  destruct (force_collect_frees 2 {[7%nat]} demo_garbage 0 _ (run_steps _ _ _ _ Hr) Ht eq_refl eq_refl Hall)
    as (s' & t' & Hrun & _ & _ & _ & Hf).
  eexists _, s'. split; [reflexivity|]. split; [exact Hrun|]. rewrite Hf. by vm_compute.
Defined.
