(* ===== verification/GeoSpec.v ===== *)
(** HyperLogLog: a sketch is the greatest value each register was asked for, so it
    depends on the set of the elements alone, and merging is union.  Geographic
    sets: a position lies in the cell its score stands for; a member never moves;
    a search answers the members in range, by distance. *)

From Stdlib Require Import Strings.Byte Floats.SpecFloat Sorting.Sorted.
From S2P Require Import Prelude MapIface Resp Float Value Store StoreSpec Hll FloatBits Collections ZSet ZSetSpec.
From S2P Require Import ZSetOps Geo.
Local Open Scope Z_scope.

#[local] Opaque HLL_REGISTERS.

(** ** Registers *)

Definition hll_wf (h : HllData) : Prop := length (registers h) = HLL_REGISTERS.

Lemma reg_range h i : 0 <= reg h i < 256.
Proof. unfold reg. destruct (registers h !! i) as [b|]; simpl; [apply b2z_range|lia]. Qed.

Lemma reg_ext a b : hll_wf a → hll_wf b → (∀ i, reg a i = reg b i) → a = b.
Proof.
  destruct a as [ra], b as [rb]. unfold hll_wf, reg. simpl. intros Ha Hb Hab. f_equal. apply list_eq. intros i.
  specialize (Hab i). destruct (ra !! i) as [x|] eqn:Hx, (rb !! i) as [y|] eqn:Hy; simpl in *; [| | |done].
  - f_equal. by apply b2z_inj.
  - apply lookup_lt_Some in Hx. apply lookup_ge_None in Hy. lia.
  - apply lookup_lt_Some in Hy. apply lookup_ge_None in Hx. lia.
Qed.

Lemma new_wf : hll_wf HllData_new.
Proof. apply length_replicate. Qed.

Lemma reg_new i : reg HllData_new i = 0.
Proof.
  unfold reg, HllData_new. simpl. destruct (replicate HLL_REGISTERS x00 !! i) as [b|] eqn:E; [|done].
  apply lookup_replicate in E as [-> _]. done.
Qed.

Lemma low_zeros_range fuel w : 0 <= low_zeros fuel w <= Z.of_nat fuel.
Proof.
  revert w. induction fuel as [|fuel IH]; intros w; simpl; [lia|]. destruct (_ =? _); [|lia]. specialize (IH (Z.shiftr w 1)). lia.
Qed.

(** A register never exceeds 51, so an encoded sketch is ASCII. *)
Lemma rho_range e : 1 <= rho_of e <= 51.
Proof.
  unfold rho_of, leading_zeros_after. destruct (_ =? _); [lia|]. pose proof (low_zeros_range 50 (Z.shiftr (hll_hash e) 14)). lia.
Qed.

Lemma register_range e : (register_of e < HLL_REGISTERS)%nat.
Proof.
  unfold register_of. change 0x3FFF with (Z.ones 14). rewrite Z.land_ones by lia.
  pose proof (Z.mod_pos_bound (hll_hash e) (2 ^ 14) ltac:(lia)). Transparent HLL_REGISTERS. unfold HLL_REGISTERS. lia.
Qed.
#[local] Opaque HLL_REGISTERS.

(** ** Adding and merging *)

Lemma hll_add_spec e h :
  hll_wf h →
  hll_wf (hll_add e h).1 ∧
  (∀ i, reg (hll_add e h).1 i = if decide (register_of e = i) then Z.max (reg h i) (rho_of e) else reg h i) ∧
  (hll_add e h).2 = (reg h (register_of e) <? rho_of e).
Proof.
  intros Hw. unfold hll_add. pose proof (rho_range e). pose proof (register_range e) as Hr.
  destruct (Z.ltb_spec (reg h (register_of e)) (rho_of e)); simpl.
  - split_and!; [|intros i|done]; unfold hll_wf in *; simpl; [by rewrite length_insert|].
    unfold reg at 1. simpl. case_decide as Hd.
    + subst i. rewrite list_lookup_insert_eq by lia. simpl. rewrite b2z_z2b_small by lia. lia.
    + by rewrite list_lookup_insert_ne.
  - split_and!; [done| |done]. intros i. case_decide; [subst; lia|done].
Qed.

(** The greatest value asked for of register [i]. *)
Fixpoint top (es : list bytes) (i : nat) : Z :=
  match es with
  | [] => 0
  | e :: es => if decide (register_of e = i) then Z.max (rho_of e) (top es i) else top es i
  end.

Lemma top_nonneg es i : 0 <= top es i.
Proof. induction es as [|e es IH]; simpl; [done|]. case_decide; lia. Qed.

Lemma top_ge es e : e ∈ es → rho_of e <= top es (register_of e).
Proof.
  induction es as [|x es IH]; [by intros ?%elem_of_nil|]. intros [->|He]%elem_of_cons; simpl.
  - rewrite decide_True by done. lia.
  - specialize (IH He). case_decide; lia.
Qed.

Lemma top_mono es fs i : (∀ e, e ∈ es → e ∈ fs) → top es i <= top fs i.
Proof.
  induction es as [|e es IH]; intros Hsub; simpl; [apply top_nonneg|].
  assert (top es i <= top fs i) by (apply IH; intros x Hx; apply Hsub; by right). case_decide as Hd; [|done].
  pose proof (top_ge fs e (Hsub e ltac:(by left))). subst i. lia.
Qed.

Lemma top_app es fs i : top (es ++ fs) i = Z.max (top es i) (top fs i).
Proof.
  induction es as [|e es IH]; simpl; [pose proof (top_nonneg fs i); lia|]. rewrite IH. case_decide; lia.
Qed.

Lemma add_all_spec es : ∀ h,
  hll_wf h →
  hll_wf (add_all es h).1 ∧ (∀ i, reg (add_all es h).1 i = Z.max (reg h i) (top es i)) ∧
  ((add_all es h).2 = true ↔ (add_all es h).1 ≠ h).
Proof.
  induction es as [|e es IH]; intros h Hw; simpl.
  - split_and!; [done| |done]. intros i. pose proof (reg_range h i). lia.
  - destruct (hll_add_spec e h Hw) as (Hw' & Hr & Hc). destruct (hll_add e h) as [h' changed] eqn:Ea. simpl in *.
    destruct (IH h' Hw') as (Hw'' & Hr' & Hc'). destruct (add_all es h') as [h'' changed']. simpl in *.
    split_and!; [done| |].
    + intros i. rewrite Hr', Hr. case_decide; lia.
    + unfold hll_add in Ea. destruct (Z.ltb_spec (reg h (register_of e)) (rho_of e)) as [Hlt|Hge].
      * subst changed. simpl. split; [|done]. intros _ ->. specialize (Hr' (register_of e)). specialize (Hr (register_of e)).
        rewrite decide_True in Hr by done. lia.
      * injection Ea as -> <-. done.
Qed.

Lemma merge_spec a b :
  hll_wf a → hll_wf b → hll_wf (hll_merge a b) ∧ ∀ i, reg (hll_merge a b) i = Z.max (reg a i) (reg b i).
Proof.
  unfold hll_wf. intros Ha Hb. split; [unfold hll_merge; simpl; rewrite length_zip_with; lia|].
  intros i. unfold reg, hll_merge. simpl. rewrite lookup_zip_with.
  destruct (registers a !! i) as [x|] eqn:Hx, (registers b !! i) as [y|] eqn:Hy; simpl; [|exfalso..|done].
  - destruct (Z.ltb_spec (b2z x) (b2z y)); lia.
  - apply lookup_lt_Some in Hx. apply lookup_ge_None in Hy. lia.
  - apply lookup_lt_Some in Hy. apply lookup_ge_None in Hx. lia.
Qed.

Definition sketch (es : list bytes) : HllData := (add_all es HllData_new).1.

Lemma sketch_spec es : hll_wf (sketch es) ∧ ∀ i, reg (sketch es) i = top es i.
Proof.
  destruct (add_all_spec es HllData_new new_wf) as (Hw & Hr & _). split; [done|]. intros i. unfold sketch.
  rewrite Hr, reg_new. pose proof (top_nonneg es i). lia.
Qed.

Lemma sketch_app es fs : (add_all fs (sketch es)).1 = sketch (es ++ fs).
Proof.
  destruct (sketch_spec es) as [Hw Hr], (sketch_spec (es ++ fs)) as [Hw' Hr'].
  destruct (add_all_spec fs (sketch es) Hw) as (Hw'' & Hr'' & _). apply reg_ext; [done|done|].
  intros i. by rewrite Hr'', Hr, Hr', top_app.
Qed.

Lemma sketch_merge es fs : hll_merge (sketch es) (sketch fs) = sketch (es ++ fs).
Proof.
  destruct (sketch_spec es) as [Hw Hr], (sketch_spec fs) as [Hw' Hr'], (sketch_spec (es ++ fs)) as [Hw'' Hr''].
  destruct (merge_spec (sketch es) (sketch fs) Hw Hw') as [Hwm Hrm]. apply reg_ext; [done|done|].
  intros i. by rewrite Hrm, Hr, Hr', Hr'', top_app.
Qed.

Lemma sketch_set es fs : (∀ e, e ∈ es ↔ e ∈ fs) → sketch es = sketch fs.
Proof.
  intros Hs. destruct (sketch_spec es) as [Hw Hr], (sketch_spec fs) as [Hw' Hr']. apply reg_ext; [done|done|].
  intros i. rewrite Hr, Hr'. apply Z.le_antisymm; apply top_mono; intros e; apply Hs.
Qed.

Lemma hll_decode_encode h : hll_wf h → decode_hll (encode_hll h) = h.
Proof.
  destruct h as [r]. unfold hll_wf, decode_hll, encode_hll. simpl registers. intros Hl.
  rewrite length_app, Hl. change (length HEADER) with 4%nat. rewrite (proj2 (Nat.leb_le _ _)) by done.
  rewrite bool_decide_true by done. simpl. change (drop 4 (HEADER ++ r)) with r. f_equal. rewrite <- Hl. apply take_ge. lia.
Qed.

Lemma decode_wf s : hll_wf (decode_hll s).
Proof.
  unfold decode_hll. destruct ((4 + HLL_REGISTERS <=? length s)%nat && bool_decide (take 4 s = HEADER)) eqn:E; [|apply new_wf].
  apply andb_true_iff in E as [E%Nat.leb_le _]. unfold hll_wf. simpl. rewrite length_take, length_drop. lia.
Qed.

(** A sketch depends on the set of the elements it was given, not on their order or
    number; adding to a sketch, and merging two, give the sketch of the union; a sketch is
    read back from the string that holds it, and its registers are at most 51. *)
Theorem hll_sketch es fs :
  ((∀ e, e ∈ es ↔ e ∈ fs) → sketch es = sketch fs) ∧
  (add_all fs (sketch es)).1 = sketch (es ++ fs) ∧ hll_merge (sketch es) (sketch fs) = sketch (es ++ fs) ∧
  decode_hll (encode_hll (sketch es)) = sketch es ∧ ∀ i, 0 <= reg (sketch es) i <= 51.
Proof.
  split; [apply sketch_set|]. split; [apply sketch_app|]. split; [apply sketch_merge|].
  destruct (sketch_spec es) as [Hw Hr]. split; [by apply hll_decode_encode|]. intros i. rewrite Hr.
  split; [apply top_nonneg|]. induction es as [|e es IH]; simpl; [lia|]. pose proof (rho_range e).
  destruct (sketch_spec es) as [Hw' Hr']. specialize (IH Hw' Hr'). case_decide; lia.
Qed.

(** ** The commands *)

Section HllStore.
Context {M : Type} `{KVMapLaws StoreValue M} (c : Clock) (ln : f64 → f64).
Implicit Types (st : Store M) (k : bytes).

(** The sketch of a key. *)
Definition sketch_of k st : result HllData :=
  match live c k st with
  | None => Ok HllData_new
  | Some v => match as_string v with Some s => Ok (decode_hll s) | None => Err WRONGTYPE end
  end.

Lemma sketch_of_wf k st h : sketch_of k st = Ok h → hll_wf h.
Proof.
  unfold sketch_of. destruct (live c k st) as [v|]; [|intros [= <-]; apply new_wf].
  destruct (as_string v); [|done]. intros [= <-]. apply decode_wf.
Qed.

Lemma sketch_of_db k st h e : db st !! k = Some (mkValue (VString (encode_hll h)) e) →
  hll_wf h → is_expired c (mkValue (VString (encode_hll h)) e) = false → sketch_of k st = Ok h.
Proof. intros Hd Hh He. unfold sketch_of, live. rewrite Hd. simpl. rewrite He. simpl. by rewrite hll_decode_encode. Qed.

Lemma no_expiry v : is_expired c (mkValue v 0) = false.
Proof. reflexivity. Qed.

Lemma is_expired_value v w e : is_expired c (mkValue v e) = is_expired c (mkValue w e).
Proof. reflexivity. Qed.

Lemma pfadd_spec k es st :
  store_wf st →
  let '(st', r) := pfadd c k es st in
  store_wf st' ∧ (∀ k', k' ≠ k → db st' !! k' = db st !! k') ∧
  match sketch_of k st with
  | Err e => r = Err e ∧ db st' = db st
  | Ok h => r = Ok (add_all es h).2 ∧ sketch_of k st' = Ok (add_all es h).1
  end.
Proof.
  intros Hw. unfold pfadd, sketch_of at 1, live. destruct (add_all es HllData_new) as [fresh changed] eqn:Ef.
  pose proof (add_all_spec es HllData_new new_wf) as (Hfw & _ & _). rewrite Ef in Hfw. simpl in Hfw.
  match goal with |- context [update_or_insert k ?f ?fr ?r st] =>
    destruct (update_or_insert_spec k f fr r st Hw) as (Hw' & Hd & _ & Hr); destruct (update_or_insert k f fr r st) as [st' r'] end.
  simpl in *. subst r'. split; [done|]. split; [intros k' Hne; by rewrite Hd, lookup_insert_ne|].
  assert (Hfresh : db st' !! k = Some (mkValue (VString (encode_hll fresh)) 0) → sketch_of k st' = Ok fresh)
    by (intros Hk; by eapply sketch_of_db).
  destruct (db st !! k) as [v|] eqn:Hk; cbn [mbind option_bind].
  - destruct (is_expired c v) eqn:He.
    { rewrite Ef. split; [done|]. apply Hfresh. by rewrite Hd, lookup_insert_eq. }
    destruct (as_string (value v)) as [s|] eqn:Hs; [|split; [done|]; rewrite Hd; by apply insert_id].
    destruct (add_all_spec es (decode_hll s) (decode_wf s)) as (Hw2 & _ & Hc).
    destruct (add_all es (decode_hll s)) as [h ch] eqn:Ea. simpl in *. split; [done|].
    destruct ch.
    + apply (sketch_of_db k st' h (expires_ms v)); [by rewrite Hd, lookup_insert_eq|done|]. by destruct v.
    + unfold sketch_of, live. rewrite Hd, lookup_insert_eq. simpl. rewrite He. simpl. rewrite Hs. f_equal.
      destruct (decide (h = decode_hll s)) as [->|Hne]; [done|]. by apply Hc in Hne.
  - rewrite Ef. split; [done|]. apply Hfresh. by rewrite Hd, lookup_insert_eq.
Qed.

Lemma merge_keys_sketches keys ess st :
  store_wf st → Forall2 (λ k es, sketch_of k st = Ok (sketch es)) keys ess →
  ∀ es0, merge_keys c keys (sketch es0) st = Ok (sketch (es0 ++ concat ess)).
Proof.
  intros Hw Hk. induction Hk as [|k es keys ess Hs _ IH]; intros es0; cbn [merge_keys concat]; [by rewrite app_nil_r|].
  rewrite read_live_spec by done. unfold sketch_of in Hs. destruct (live c k st) as [v|].
  - destruct (as_string v) as [s|]; [|done]. injection Hs as ->. rewrite sketch_merge, IH. by rewrite app_assoc.
  - injection Hs as Hs. replace (sketch es0) with (sketch (es0 ++ es)); [rewrite IH; by rewrite app_assoc|].
    rewrite <- sketch_merge, <- Hs. destruct (sketch_spec es0) as [Hw0 _].
    destruct (merge_spec (sketch es0) HllData_new Hw0 new_wf) as [Hwm Hrm]. apply reg_ext; [done|done|].
    intros i. rewrite Hrm, reg_new. pose proof (reg_range (sketch es0) i). lia.
Qed.

Lemma count_new : ln (f64_of_Z 1) = S754_zero false → hll_count ln HllData_new = 0.
Proof.
  intros Hln. assert (Hc : hll_count ln HllData_new = round_u64 (f64_mul (f64_of_Z 16384) (ln (f64_of_Z 1)))) by (vm_compute; reflexivity).
  rewrite Hc, Hln. reflexivity.
Qed.

(** C29: For keys that hold the sketches of some lists of elements (a missing key holds that
    of none): PFADD leaves the sketch of the elements with the new ones and answers
    whether it differs; PFCOUNT of several keys answers the estimate of the union of
    their elements; and PFMERGE stores the sketch of the union of its sources, whatever
    the destination held.  No other key changes. *)
Theorem pf_correct keys ess dest st :
  ln (f64_of_Z 1) = S754_zero false →
  store_wf st → Forall2 (λ k es, sketch_of k st = Ok (sketch es)) keys ess →
  pfcount c ln keys st = Ok (hll_count ln (sketch (concat ess))) ∧
  (let '(st', r) := pfmerge c dest keys st in
   r = Ok tt ∧ sketch_of dest st' = Ok (sketch (concat ess)) ∧ ∀ k', k' ≠ dest → db st' !! k' = db st !! k') ∧
  ∀ k es fs, sketch_of k st = Ok (sketch es) →
    let '(st', r) := pfadd c k fs st in
    sketch_of k st' = Ok (sketch (es ++ fs)) ∧ (∀ k', k' ≠ k → db st' !! k' = db st !! k') ∧
    ∃ changed, r = Ok changed ∧ (changed = true ↔ sketch (es ++ fs) ≠ sketch es).
Proof.
  intros Hln Hw Hk. pose proof (merge_keys_sketches keys ess st Hw Hk []) as Hm. change (sketch []) with HllData_new in Hm. simpl app in Hm.
  split_and!.
  - unfold pfcount. rewrite Hm. destruct Hk as [|k es keys ess Hs Hk]; [done|]. destruct Hk; [|done].
    rewrite read_live_spec by done. unfold sketch_of in Hs. simpl concat. rewrite app_nil_r. destruct (live c k st) as [v|].
    + destruct (as_string v) as [s|]; [|done]. by injection Hs as ->.
    + injection Hs as <-. by rewrite count_new.
  - unfold pfmerge. rewrite Hm. destruct (put_spec dest (StoreValue_string (encode_hll (sketch (concat ess)))) st Hw) as (_ & Hd & _).
    split; [done|]. split; [|intros k' Hne; by rewrite Hd, lookup_insert_ne].
    eapply sketch_of_db; [by rewrite Hd, lookup_insert_eq|apply sketch_spec|done].
  - intros k es fs Hs. pose proof (pfadd_spec k fs st Hw) as Ha. destruct (pfadd c k fs st) as [st' r].
    destruct Ha as (_ & Hframe & Ha). rewrite Hs in Ha. destruct Ha as [-> Ha]. rewrite sketch_app in Ha.
    split; [done|]. split; [done|]. eexists. split; [done|].
    destruct (sketch_spec es) as [Hwe _]. destruct (add_all_spec fs (sketch es) Hwe) as (_ & _ & Hc). by rewrite sketch_app in Hc.
Qed.

#[local] Opaque add_all.

(** PFADD of an element to a key that holds a string of any other kind replaces the
    string by the sketch of the element and answers 1: the value is lost, with no
    error. *)
Theorem pfadd_overwrites_string k s e es st :
  store_wf st → live c k st = Some (VString s) → Z.of_nat (length s) < 16388 ∨ take 4 s ≠ HEADER →
  let '(st', r) := pfadd c k (e :: es) st in
  r = Ok true ∧ live c k st' = Some (VString (encode_hll (sketch (e :: es)))).
Proof.
  intros Hw Hl Hs.
  assert (Hdec : decode_hll s = HllData_new).
  { unfold decode_hll. Transparent HLL_REGISTERS. unfold HLL_REGISTERS at 1. destruct Hs as [Hs|Hs].
    - rewrite (proj2 (Nat.leb_gt _ _)) by lia. done.
    - rewrite (bool_decide_eq_false_2 _ Hs). by rewrite andb_false_r. }
  assert (Hch : (add_all (e :: es) HllData_new).2 = true).
  { apply add_all_spec; [apply new_wf|]. intros Heq. pose proof (proj2 (sketch_spec (e :: es)) (register_of e)) as Hr.
    unfold sketch in Hr. rewrite Heq, reg_new in Hr. pose proof (top_ge (e :: es) e ltac:(by left)). pose proof (rho_range e). lia. }
  unfold pfadd. change (add_all (e :: es) HllData_new).1 with (sketch (e :: es)).
  destruct (add_all (e :: es) HllData_new) as [fresh ch] eqn:Ea. simpl in Hch. subst ch.
  unfold sketch. rewrite Ea. simpl fst.
  unfold live in Hl. destruct (db st !! k) as [v|] eqn:Hk; [|done]. simpl in Hl. destruct (is_expired c v) eqn:He; [done|].
  injection Hl as Hv.
  match goal with |- context [update_or_insert k ?f ?fr ?r st] =>
    destruct (update_or_insert_spec k f fr r st Hw) as (_ & Hd & _ & Hr); destruct (update_or_insert k f fr r st) as [st' r'] end.
  simpl in Hr. rewrite Hk, He, Hv in Hd, Hr. simpl in Hd, Hr. rewrite Hdec, Ea in Hd, Hr. split; [done|].
  unfold live. rewrite Hd, lookup_insert_eq. simpl. by rewrite (is_expired_value _ (value v) (expires_ms v)); destruct v; simpl in *; rewrite He.
Qed.
End HllStore.

(** ** At concrete inputs *)

Definition pf_now : Clock := mkClock 5000 0.
Definition pf_empty : Store (LimitMap StoreValue) := mkStore (mkLimitMap {[ B "s" := StoreValue_string (B "text") ]} 100) 0 0 0.
Lemma pf_empty_wf : store_wf pf_empty.
Proof. exact I. Defined.

(** One key with two elements, another with two of which one is the same. *)
Definition pf_store1 : Store (LimitMap StoreValue) := (pfadd pf_now (B "x") [B "a"; B "b"] pf_empty).1.
Definition pf_store2 : Store (LimitMap StoreValue) := (pfadd pf_now (B "y") [B "b"; B "c"] pf_store1).1.

Lemma pf_store2_sketches :
  store_wf pf_store2 ∧ sketch_of pf_now (B "x") pf_store2 = Ok (sketch [B "a"; B "b"]) ∧
  sketch_of pf_now (B "y") pf_store2 = Ok (sketch [B "b"; B "c"]).
Proof.
  pose proof (pfadd_spec pf_now (B "x") [B "a"; B "b"] pf_empty pf_empty_wf) as H1. fold pf_store1 in H1.
  unfold pf_store2, pf_store1. destruct (pfadd pf_now (B "x") [B "a"; B "b"] pf_empty) as [st1 r1]. simpl.
  destruct H1 as (Hw1 & Hf1 & H1). destruct H1 as [_ H1].
  pose proof (pfadd_spec pf_now (B "y") [B "b"; B "c"] st1 Hw1) as H2.
  destruct (pfadd pf_now (B "y") [B "b"; B "c"] st1) as [st2 r2]. simpl. destruct H2 as (Hw2 & Hf2 & H2).
  split; [done|]. split.
  - unfold sketch_of, live in *. rewrite (Hf2 (B "x")) by done. exact H1.
  - assert (Hy : sketch_of pf_now (B "y") st1 = Ok HllData_new) by (unfold sketch_of, live; rewrite (Hf1 (B "y")) by done; done).
    rewrite Hy in H2. destruct H2 as [_ H2]. exact H2.
Qed.

Definition demo_ln (x : f64) : f64 := if f64_eq x (f64_of_Z 1) then S754_zero false else x.

Lemma hll_sketch_witness :
  sketch [B "a"; B "b"; B "a"] = sketch [B "b"; B "a"] ∧ hll_merge (sketch [B "a"]) (sketch [B "b"]) = sketch [B "a"; B "b"].
Proof.
  split; [|exact (proj1 (proj2 (proj2 (hll_sketch [B "a"] [B "b"]))))].
  apply (proj1 (hll_sketch [B "a"; B "b"; B "a"] [B "b"; B "a"])). intros e. rewrite !elem_of_cons. tauto.
Defined.

Lemma pf_correct_witness :
  pfcount pf_now demo_ln [B "x"; B "y"; B "z"] pf_store2 =
    Ok (hll_count demo_ln (sketch [B "a"; B "b"; B "b"; B "c"])).
Proof.
  destruct pf_store2_sketches as (Hw & Hx & Hy).
  refine (proj1 (pf_correct pf_now demo_ln [B "x"; B "y"; B "z"] [[B "a"; B "b"]; [B "b"; B "c"]; []] (B "d") pf_store2 eq_refl Hw _)).
  constructor; [exact Hx|]. constructor; [exact Hy|]. constructor; [|constructor].
  unfold sketch_of, live, pf_store2, pf_store1. reflexivity.
Defined.

Lemma pfadd_overwrites_string_witness :
  let '(st', r) := pfadd pf_now (B "s") [B "a"] pf_empty in
  r = Ok true ∧ live pf_now (B "s") st' = Some (VString (encode_hll (sketch [B "a"]))).
Proof.
  exact (pfadd_overwrites_string pf_now (B "s") (B "text") (B "a") [] pf_empty pf_empty_wf eq_refl (or_introl (eq_refl Lt))).
Defined.


(** ** The codec *)

Definition in_interval (x : f64) (r : f64 * f64) : Prop := f64_le r.1 x = true ∧ f64_le x r.2 = true.
Definition in_cell (lo la : f64) (cell : Cell) : Prop := in_interval lo cell.1 ∧ in_interval la cell.2.

Definition fin_interval (k : Z) (r : f64 * f64) : Prop := fin k r.1 ∧ fin k r.2.
Definition fin_cell (k : Z) (cell : Cell) : Prop := fin_interval k cell.1 ∧ fin_interval k cell.2.

Lemma in_interval_num x r : in_interval x r → num x.
Proof. intros [Hx _]. destruct x; try done. by destruct (r.1). Qed.

Lemma mid_fin k r : -1000 <= k <= 700 → fin_interval k r → fin (k + 3) (mid r).
Proof.
  intros Hk [Ha Hb]. unfold mid. replace (k + 3) with (k + 2 + 1) by lia. apply f64_half_fin; [lia|]. apply f64_add_fin; [lia|done..].
Qed.

(** Halving towards [x]. *)
Lemma half_keeps k x r :
  -1000 <= k <= 700 → fin_interval k r → in_interval x r →
  fin_interval (k + 3) (half r (f64_le (mid r) x)) ∧ in_interval x (half r (f64_le (mid r) x)).
Proof.
  intros Hk Hf Hx. pose proof (mid_fin k r Hk Hf) as Hm. destruct Hf as [Ha Hb].
  assert (fin (k + 3) r.1 ∧ fin (k + 3) r.2) as [Ha' Hb'] by (split; (eapply fin_mono; [|done]); lia).
  pose proof (in_interval_num x r Hx) as Hnum. destruct Hx as [Hlo Hhi].
  destruct (f64_le (mid r) x) eqn:E; unfold half, fin_interval, in_interval; simpl; split; try done. split; [done|].
  apply f64_le_total; [by eapply fin_num|done|done].
Qed.

Lemma halve_keeps k i cell lo la :
  -1000 <= k <= 700 → fin_cell k cell → in_cell lo la cell →
  let upper := if i mod 2 =? 0 then f64_le (mid cell.1) lo else f64_le (mid cell.2) la in
  fin_cell (k + 3) (halve i cell upper) ∧ in_cell lo la (halve i cell upper).
Proof.
  intros Hk [Hf1 Hf2] [Hi1 Hi2] upper. unfold halve, upper.
  assert (Hm : ∀ r, fin_interval k r → fin_interval (k + 3) r) by (intros r [? ?]; split; (eapply fin_mono; [|done]); lia).
  destruct (i mod 2 =? 0); unfold fin_cell, in_cell; simpl.
  - destruct (half_keeps k lo cell.1 Hk Hf1 Hi1). auto.
  - destruct (half_keeps k la cell.2 Hk Hf2 Hi2). auto.
Qed.

Lemma low_bit x i : 0 <= i → (Z.land (Z.shiftr x i) 1 =? 1) = Z.testbit x i.
Proof.
  intros Hi. change 1 with (Z.ones 1) at 1. rewrite Z.land_ones by lia. change (2 ^ 1) with 2. rewrite <- Z.bit0_mod, Z.shiftr_spec by lia.
  rewrite Z.add_0_l. by destruct (Z.testbit x i).
Qed.

(** After [n] steps: the bits that are set, the cell that a decoder of these bits is in,
    and that the position is in it. *)
Lemma encode_steps lo la n :
  (n <= 52)%nat → in_cell lo la WORLD →
  let '(cell, bits) := foldl (encode_step lo la) (WORLD, 0) (seqZ 0 (Z.of_nat n)) in
  0 <= bits ∧ (∀ j, Z.testbit bits j = true → 52 - Z.of_nat n <= j <= 51) ∧
  (∀ b, (∀ j, 52 - Z.of_nat n <= j <= 51 → Z.testbit b j = Z.testbit bits j) →
    foldl (decode_step b) WORLD (seqZ 0 (Z.of_nat n)) = cell) ∧
  fin_cell (8 + 3 * Z.of_nat n) cell ∧ in_cell lo la cell.
Proof.
  intros Hn Hin. induction n as [|n IH].
  - simpl. split; [done|]. split; [intros j; by rewrite Z.testbit_0_l|]. split; [done|]. split; [|done].
    unfold fin_cell, fin_interval. vm_compute. done.
  - specialize (IH ltac:(lia)). rewrite Nat2Z.inj_succ, <- Z.add_1_r, seqZ_app by lia. rewrite Z.add_0_l.
    assert (H1 : seqZ (Z.of_nat n) 1 = [Z.of_nat n]) by (rewrite seqZ_cons by lia; done). rewrite H1, foldl_app.
    destruct (foldl (encode_step lo la) (WORLD, 0) (seqZ 0 (Z.of_nat n))) as [cell bits]. destruct IH as (Hb & Hbits & Hdec & Hf & Hi).
    cbn [foldl encode_step]. set (i := Z.of_nat n) in *.
    pose proof (halve_keeps (8 + 3 * i) i cell lo la ltac:(lia) Hf Hi) as Hk. cbv zeta in Hk.
    set (upper := if i mod 2 =? 0 then _ else _) in *. destruct Hk as [Hf' Hi'].
    assert (Hbit : ∀ j, Z.testbit (if upper then Z.lor bits (Z.shiftl 1 (51 - i)) else bits) j = Z.testbit bits j || (upper && (j =? 51 - i))).
    { intros j. destruct upper; [|by rewrite orb_false_r]. rewrite Z.lor_spec. f_equal. simpl.
      destruct (Z.ltb_spec j 0) as [Hj|Hj].
      - rewrite Z.testbit_neg_r by done. symmetry. apply Z.eqb_neq. lia.
      - rewrite Z.shiftl_spec by lia. destruct (Z.eqb_spec j (51 - i)) as [->|Hne]; [by rewrite Z.sub_diag|].
        destruct (Z.ltb_spec (j - (51 - i)) 0); [by rewrite Z.testbit_neg_r|].
        apply Z.bits_above_log2; simpl; lia. }
    split; [|split; [|split; [|split]]].
    + destruct upper; [|done]. apply Z.lor_nonneg. split; [done|]. by apply Z.shiftl_nonneg.
    + intros j. rewrite Hbit. intros [Hj|Hj]%orb_true_iff; [specialize (Hbits j Hj); lia|].
      apply andb_true_iff in Hj as [_ Hj%Z.eqb_eq]. lia.
    + intros b Hagree. rewrite foldl_app. rewrite (Hdec b).
      * simpl. unfold decode_step. rewrite low_bit by lia. rewrite Hagree by lia. rewrite Hbit, Z.eqb_refl, andb_true_r.
        assert (Z.testbit bits (51 - i) = false) as -> by (apply not_true_iff_false; intros Ht; specialize (Hbits _ Ht); lia).
        done.
      * intros j Hj. rewrite Hagree by lia. rewrite Hbit. assert ((j =? 51 - i) = false) as -> by lia. by rewrite andb_false_r, orb_false_r.
    + replace (8 + 3 * (i + 1)) with (8 + 3 * i + 3) by lia. done.
    + done.
Qed.

Lemma geo_position_bits lo la :
  in_cell lo la WORLD →
  0 <= geohash_encode lo la < 2 ^ 52 ∧ in_cell lo la (decode_cell (geohash_encode lo la)).
Proof.
  intros Hin. pose proof (encode_steps lo la 52 ltac:(lia) Hin) as Hs. unfold geohash_encode.
  change (Z.of_nat 52) with 52 in Hs. destruct (foldl (encode_step lo la) (WORLD, 0) (seqZ 0 52)) as [cell b].
  destruct Hs as (Hb & Hbits & Hdec & _ & Hi). cbn [snd]. split; [|unfold decode_cell; by rewrite (Hdec b)].
  split; [done|]. destruct (Z.eq_dec b 0) as [->|Hne]; [done|]. apply Z.log2_lt_pow2; [lia|].
  pose proof (Hbits _ (Z.bit_log2 b ltac:(lia))). lia.
Qed.

Lemma to_from_least b : 0 <= b < 2 ^ 52 → to_bits (from_bits b) = b.
Proof.
  intros Hb. rewrite from_bits_least by lia. destruct b as [|p|p]; [done| |lia]. unfold to_bits, sign_bit.
  rewrite (proj2 (Z.ltb_lt _ _)) by apply Hb. lia.
Qed.

(** C27: GEOADD's score of a position within the limits has 52 bits, comes back from the
    sorted set bit for bit, and stands for a cell of the globe that contains the position;
    GEOPOS answers the middle of that cell. *)
Theorem geo_position lo la :
  in_cell lo la WORLD →
  let bits := geohash_encode lo la in
  0 <= bits < 2 ^ 52 ∧ to_bits (from_bits bits) = bits ∧ in_cell lo la (decode_cell bits) ∧
  geohash_decode bits = (mid (decode_cell bits).1, mid (decode_cell bits).2).
Proof.
  intros Hin bits. destruct (geo_position_bits lo la Hin) as [Hb Hc]. split; [done|]. split; [by apply to_from_least|done].
Qed.

Lemma geo_position_witness :
  in_cell (dec_f64 13361389 (-6)) (dec_f64 38115556 (-6)) WORLD ∧
  in_cell (dec_f64 13361389 (-6)) (dec_f64 38115556 (-6)) (decode_cell 3479099956230698).
Proof.
  assert (Hin : in_cell (dec_f64 13361389 (-6)) (dec_f64 38115556 (-6)) WORLD) by (vm_compute; repeat split; reflexivity).
  split; [exact Hin|].
  pose proof (proj1 (proj2 (proj2 (geo_position _ _ Hin)))) as Hp.
  replace 3479099956230698 with (geohash_encode (dec_f64 13361389 (-6)) (dec_f64 38115556 (-6))) by (vm_compute; reflexivity). exact Hp.
Defined.

(** ** Members and searches *)

Section GeoStore.
Context {M : Type} `{KVMapLaws StoreValue M} (c : Clock) (libm : Libm).
Implicit Types (st : Store M) (key : bytes).

Lemma insert_same z m h new :
  zmap_ok z → get_score z m = Some (from_bits h) → 0 <= h < 2 ^ 52 → 0 <= new < 2 ^ 52 →
  zset_insert z (from_bits new) m = (z, false).
Proof.
  intros Hz Hs Hh Hn. rewrite (get_score_map z m Hz) in Hs. destruct Hz as [Hnd Hb].
  apply zset_insert_cases; [done| |].
  - intros Hm. exfalso. apply score_map_None in Hm. unfold zset_abs in Hs. congruence.
  - intros i e Hi <-. pose proof (score_map_Some _ i e Hnd Hi) as Hs'. unfold zset_abs in Hs. rewrite Hs in Hs'.
    injection Hs' as <-. unfold score_moved. by rewrite least_close.
Qed.

(** GEOADD never moves a member: once a member has the score of a position, adding it
    with any other position leaves the set as it was, while CH counts it as changed; any
    two such scores differ by less than the tolerance with which sorted sets compare them. *)
Theorem geoadd_never_moves key m lo la lo' la' count_changed z st :
  store_wf st → live c key st = Some (VZSet z) → zmap_ok z → in_cell lo la WORLD → in_cell lo' la' WORLD →
  get_score z m = Some (from_bits (geohash_encode lo la)) →
  let '(st', r) := geoadd c key [(lo', la', m)] false false count_changed st in
  live c key st' = Some (VZSet z) ∧ r = Ok (if count_changed then 1 else 0).
Proof.
  intros Hw Hl Hz Hin Hin' Hs. destruct (geo_position_bits lo la Hin) as [Hb _]. destruct (geo_position_bits lo' la' Hin') as [Hb' _].
  apply live_Some in Hl as (e & Hd & He & Hv). unfold geoadd, zadd. cbn [fmap list_fmap xx no_flags].
  match goal with |- context [update_with key ?f st] =>
    pose proof (update_live c key f st e (VZSet z) (Ok (if count_changed then 1 else 0)) Hw Hd He) as Hu;
    destruct (update_with key f st) as [st' r] end.
  destruct Hu as (_ & -> & Hl' & _); [|done].
  unfold zset_update. rewrite He, Hv. cbn [as_zset foldl zadd_step nx xx gt lt ch no_flags orb].
  rewrite (insert_same z m _ _ Hz Hs Hb Hb'). by destruct count_changed.
Qed.

(** *** Sorting by distance *)

Definition by_dist (asc : bool) (a b : GeoResult) : Prop :=
  f64_le (dist (if asc then a else b)) (dist (if asc then b else a)) = true.

Lemma insert_result_spec (asc : bool) x l :
  let le (a b : f64) := if asc then f64_le a b else f64_le b a in
  Forall (λ r, num (dist r)) (x :: l) → StronglySorted (by_dist asc) l →
  insert_result le x l ≡ₚ x :: l ∧ StronglySorted (by_dist asc) (insert_result le x l).
Proof.
  intros le. induction l as [|y l IH]; intros Hn Hs; cbn [insert_result]; [split; [done|by repeat constructor]|].
  inversion Hn as [|? ? Hx Hn']; subst. inversion Hn' as [|? ? Hy Hl]; subst. inversion Hs as [|? ? Hs' Hall]; subst.
  destruct (le (dist x) (dist y)) eqn:E.
  - split; [done|]. constructor; [done|]. constructor; [unfold by_dist; unfold le in E; by destruct asc|].
    rewrite Forall_forall in Hall, Hl |- *. intros r Hr. specialize (Hall r Hr). specialize (Hl r Hr).
    unfold by_dist, le in *. destruct asc; eapply f64_le_trans; [| | |exact E|exact Hall| | | |exact Hall|exact E]; done.
  - destruct IH as [Hp Hs2]; [by constructor|done|]. split; [rewrite Hp; apply Permutation_swap|].
    constructor; [done|]. rewrite Hp. constructor; [|done]. unfold by_dist, le in *. destruct asc; by apply f64_le_total.
Qed.

Lemma sort_results_spec asc l :
  Forall (λ r, num (dist r)) l → ∃ l', sort_results libm asc l = Some l' ∧ l' ≡ₚ l ∧ StronglySorted (by_dist asc) l'.
Proof.
  intros Hn. unfold sort_results.
  assert (existsb (λ r, is_nan (dist r)) l = false) as ->.
  { induction Hn as [|x l Hx _ IH]; [done|]. simpl. by rewrite Hx, IH. }
  eexists. split; [done|]. induction l as [|x l IH]; [split; [done|constructor]|]. inversion Hn as [|? ? Hx Hl]; subst.
  destruct (IH Hl) as [Hp Hs]. cbn [foldr].
  destruct (insert_result_spec asc x (foldr (insert_result (λ a b : f64, if asc then f64_le a b else f64_le b a)) [] l)) as [Hp' Hs'].
  { constructor; [done|]. by rewrite Hp. }
  { done. }
  split; [by rewrite Hp', Hp|done].
Qed.

(** *** The shapes *)

(** A length in metres, by the factor of its unit as it is written. *)
Definition metres (u : GeoUnit) (x : f64) : f64 :=
  let times s := f64_mul x (default S754_nan (parse_f64 s)) in
  match u with
  | Meters => x
  | Kilometers => times (B "1000")
  | Feet => times (B "0.3048")
  | Miles => times (B "1609.344")
  end.

(** The distance of two positions, pairs of a longitude and a latitude in degrees, on
    a sphere of the radius 6372797.560856 m: [2 R asin (sqrt h)] for the haversine [h]
    of their angle, every operation rounded to binary64. *)
Definition apart (p q : f64 * f64) : f64 :=
  let lit s := default S754_nan (parse_f64 s) in
  let rad x := f64_div (f64_mul x (lit (B "3.14159265358979323846"))) (lit (B "180")) in
  let hav x := let s := sin libm (f64_div x (lit (B "2"))) in f64_mul s s in
  let h := f64_add (hav (rad (f64_sub q.2 p.2)))
             (f64_mul (f64_mul (cos libm (rad p.2)) (cos libm (rad q.2))) (hav (rad (f64_sub q.1 p.1)))) in
  f64_mul (lit (B "6372797.560856")) (f64_mul (lit (B "2")) (asin libm (SFsqrt 53 1024 h))).

Lemma apart_ok p q : haversine libm p.2 p.1 q.2 q.1 = apart p q.
Proof. done. Qed.

(** Whether [q] is in the shape around [p]: in the circle of that radius, or in
    the rectangle of that width and height, measured along the parallel and the
    meridian of [p]. *)
Definition inside (p : f64 * f64) (sh : GeoShape) (q : f64 * f64) : bool :=
  match sh with
  | Radius r u => SFleb (apart p q) (metres u r)
  | Box w h u =>
      SFleb (apart p (q.1, p.2)) (f64_div (metres u w) (f64_of_Z 2)) &&
      SFleb (apart p (p.1, q.2)) (f64_div (metres u h) (f64_of_Z 2))
  end.

Definition position_of (e : ZEntry) : f64 * f64 := geohash_decode (to_bits (score e)).
Definition answer_for (p : f64 * f64) (e : ZEntry) : GeoResult :=
  mkGeo (member e) (apart p (position_of e)) (position_of e).1 (position_of e).2 (to_bits (score e)).

Lemma metres_ok u x : to_meters u x = metres u x.
Proof. by destruct u. Qed.

Lemma answer_ok p e : geo_result libm p e = answer_for p e.
Proof.
  unfold geo_result, answer_for, position_of. destruct (geohash_decode _) as [lo la]. by rewrite <- (apart_ok p (lo, la)).
Qed.

#[local] Opaque apart metres haversine.

Lemma inside_ok p sh e : in_range libm p sh (answer_for p e) = inside p sh (position_of e).
Proof.
  unfold in_range, inside, answer_for, f64_le. cbn [dist lon lat].
  destruct sh as [r u|w h u]; rewrite !metres_ok; [reflexivity|].
  rewrite <- (apart_ok p ((position_of e).1, p.2)), <- (apart_ok p (p.1, (position_of e).2)). reflexivity.
Qed.

Lemma hits_ok p sh (es : list ZEntry) :
  filter (λ r, in_range libm p sh r = true) (geo_result libm p <$> es) =
  answer_for p <$> filter (λ e, inside p sh (position_of e) = true) es.
Proof.
  induction es as [|e es IH]; [done|]. rewrite fmap_cons, !filter_cons, answer_ok, inside_ok, IH.
  by case_decide.
Qed.

(** C28: GEOSEARCH around a position: it answers exactly the members of the set whose
    decoded position is in the shape ([inside]: a radius, or a width and a height, in the
    unit given), each with its position and its distance, in the order of the distances,
    the first COUNT of them if there is one.  A circle never holds a distance that is not
    a number; for a rectangle, where the distance of two opposite points may not be one,
    that is assumed. *)
Theorem geosearch_correct key ce sh asc count z pos st :
  store_wf st → live c key st = Some (VZSet z) → center_of c key ce st = Ok (Some pos) → 0 <= count →
  let hits := filter (λ e, inside pos sh (position_of e) = true) (entries z) in
  (if sh is Box _ _ _ then Forall (λ e, num (apart pos (position_of e))) hits else True) →
  ∃ l, geosearch libm c key ce sh asc count st = Some (Ok (if count =? 0 then l else take (Z.to_nat count) l)) ∧
    l ≡ₚ answer_for pos <$> hits ∧ StronglySorted (by_dist asc) l.
Proof.
  intros Hw Hl Hc Hcount hits Hn.
  assert (Hnum : Forall (λ r, num (dist r)) (answer_for pos <$> hits)).
  { apply Forall_fmap. destruct sh as [x u|]; [|done]. apply Forall_forall. intros e [He _]%list_elem_of_filter.
    unfold inside in He. unfold compose. simpl. destruct (apart _ _); try done. }
  destruct (sort_results_spec asc _ Hnum) as (l & Hsort & Hp & Hs). exists l. split; [|done].
  unfold geosearch. rewrite Hc. unfold zset_read. rewrite read_live_spec, Hl by done. cbn [as_zset].
  rewrite hits_ok. fold hits. rewrite Hsort. simpl. f_equal. f_equal.
  destruct (Z.eqb_spec count 0) as [->|Hne]; [done|]. rewrite (proj2 (Z.ltb_lt 0 count)) by lia. simpl.
  case (Z.ltb_spec count (Z.of_nat (length l))) as [|Hge]; [done|]. by rewrite take_ge by lia.
Qed.
End GeoStore.

(** ** At concrete inputs: Palermo and Catania, with trigonometry for a flat earth *)

Definition flat : Libm := mkLibm (λ x, x) (λ _, f64_of_Z 1) (λ x, x) (λ _ _, None).
Definition geo_now : Clock := mkClock 5000 0.
Definition palermo : f64 * f64 := (dec_f64 13361389 (-6), dec_f64 38115556 (-6)).
Definition catania : f64 * f64 := (dec_f64 15087269 (-6), dec_f64 37502669 (-6)).
Definition sicily : ZSetData :=
  (zset_insert (zset_insert ZSetData_new (from_bits (geohash_encode palermo.1 palermo.2)) (B "Palermo")).1
     (from_bits (geohash_encode catania.1 catania.2)) (B "Catania")).1.
Definition geo_store : Store (LimitMap StoreValue) :=
  mkStore (mkLimitMap {[ B "Sicily" := StoreValue_zset sicily ]} 100) 0 0 0.
Lemma geo_store_wf : store_wf geo_store.
Proof. exact I. Defined.
Lemma sicily_ok : zmap_ok sicily.
Proof. apply zset_insert_map, zset_insert_map, zmap_new. Qed.

Lemma geoadd_never_moves_witness :
  let '(st', r) := geoadd geo_now (B "Sicily") [(catania.1, catania.2, B "Palermo")] false false true geo_store in
  live geo_now (B "Sicily") st' = Some (VZSet sicily) ∧ r = Ok 1.
Proof.
  apply (geoadd_never_moves geo_now (B "Sicily") (B "Palermo") palermo.1 palermo.2 catania.1 catania.2 true sicily geo_store
    geo_store_wf eq_refl sicily_ok); vm_compute; repeat split; reflexivity.
Defined.

Lemma geosearch_correct_witness : ∃ l,
  geosearch flat geo_now (B "Sicily") (Member (B "Palermo")) (Radius (f64_of_Z 300) Kilometers) true 0 geo_store = Some (Ok l) ∧
  g_member <$> l = [B "Palermo"; B "Catania"].
Proof.
  destruct (geosearch_correct geo_now flat (B "Sicily") (Member (B "Palermo")) (Radius (f64_of_Z 300) Kilometers) true 0 sicily
    (geohash_decode (geohash_encode palermo.1 palermo.2)) geo_store geo_store_wf eq_refl ltac:(vm_compute; reflexivity)
    ltac:(discriminate) I) as (l & Hl & _).
  exists l. split; [exact Hl|].
  assert (Hc : (option_map (λ r, match r with Ok l => g_member <$> l | Err _ => [] end)
    (geosearch flat geo_now (B "Sicily") (Member (B "Palermo")) (Radius (f64_of_Z 300) Kilometers) true 0 geo_store)) =
    Some [B "Palermo"; B "Catania"]) by (vm_compute; reflexivity).
  rewrite Hl in Hc. injection Hc as Hc. exact Hc.
Defined.
