(* ===== verification/Gate.v ===== *)
(** The insertion gate and the growth of a shard under contention
    (crates/customhash/src/shard.rs, and [compact_shard] of ops.rs).

    Threads run one operation each on one shard: the probe of [find], insertion
    by [insert_hashed] and [insert_new], removal, and compaction.  A step is one
    atomic access to a slot, to a counter, to the gate, to the grow lock, or one
    section under the lock of an entry ([Seqlock] opens those up).  Steps of
    different threads interleave arbitrarily and take effect in that order.

    An entry is a cell of [heap] and a pointer its index; a table is a list of
    pointers, and the tables that growth replaced stay, since a pinned reader
    may still walk them ([Ebr]).  The entry that [insert_new] allocates is
    private until its pointer is stored, so it enters the heap then.  A value is
    only written and dropped here, and a number stands for it. *)

From S2P Require Import Prelude Shard.
Local Open Scope Z_scope.

(** The bit of the gate that keeps insertions out. *)
Definition GROWING : Z := 2 ^ 63.

Abbreviation Slots := (list (option nat)).

Record Cell := mkCell { c_hash : Z; c_key : bytes; c_occ : bool; c_val : Z }.

Record Mem := mkMem {
  heap : list Cell;
  tables : list Slots;
  cur : nat;
  len : Z;
  gate : Z;
  grow_lock : bool;
  key_count : Z;
}.

Definition set_heap x m := mkMem x (tables m) (cur m) (len m) (gate m) (grow_lock m) (key_count m).
Definition set_tables x c m := mkMem (heap m) x c (len m) (gate m) (grow_lock m) (key_count m).
Definition set_len x m := mkMem (heap m) (tables m) (cur m) x (gate m) (grow_lock m) (key_count m).
Definition set_gate x m := mkMem (heap m) (tables m) (cur m) (len m) x (grow_lock m) (key_count m).
Definition set_lock x m := mkMem (heap m) (tables m) (cur m) (len m) (gate m) x (key_count m).
Definition add_count x m := mkMem (heap m) (tables m) (cur m) (len m) (gate m) (grow_lock m) (key_count m + x).

(** ** Tables *)

Definition cap (sl : Slots) : Z := Z.of_nat (length sl).
Definition threshold_of (sl : Slots) : Z := cap sl * LOAD_NUM / LOAD_DEN.
Definition home (sl : Slots) (hash : Z) : Z := Z.land hash (cap sl - 1).
Definition next (sl : Slots) (i : Z) : Z := Z.land (i + 1) (cap sl - 1).

(** [SlotTable::new] *)
Definition new_slots (c : Z) : Slots := replicate (Z.to_nat (Z.max (next_power_of_two c) 8)) None.

(** The placement loop of [grow_locked] and [compact_shard], on a table that is
    still private; it does not end on a full one. *)
Fixpoint null_from (fuel : nat) (sl : Slots) (i : Z) : option nat :=
  match fuel with
  | O => None
  | S fuel' =>
      match sl !! Z.to_nat i with
      | Some None => Some (Z.to_nat i)
      | Some (Some _) => null_from fuel' sl (next sl i)
      | None => None
      end
  end.

Definition place_ptr (sl : Slots) (hash : Z) (p : nat) : option Slots :=
  j ← null_from (length sl) sl (home sl hash); Some (<[j := Some p]> sl).

(** The live pairs of the current table, in slot order ([for_each]). *)
Definition contents (m : Mem) : list (bytes * Z) :=
  match tables m !! cur m with
  | Some sl => omap (λ o, p ← o; c ← heap m !! p; if c_occ c then Some (c_key c, c_val c) else None) sl
  | None => []
  end.

(** ** Threads *)

Inductive Op :=
| OInsert (k : bytes) (v : Z)   (* [insert_hashed] *)
| OFind (k : bytes)             (* [find], by a reader *)
| ORemove (k : bytes)           (* [remove_no_clone] *)
| OCompact.                     (* [compact_shard] *)

Inductive Res := RBool (b : bool) | RFound (p : option nat) | RUnit.

Inductive FindPc :=
| FLoad                         (* loads the table pointer *)
| FProbe (tb : nat) (i : Z).    (* loads slot [i] of that table *)

(** The entry a probe found. *)
Inductive EntryPc :=
| EOccupied (p : nat)           (* the occupied test before the lock *)
| EOverwrite (p : nat)          (* the locked section of an occupied entry *)
| ERevive (p : nat)             (* the locked section of a vacant entry *)
| EClear (p : nat).             (* the locked section of [remove_no_clone] *)

(** [insert_new], from [enter_insert] to the drop of the guard. *)
Inductive InsertPc :=
| IEnter                        (* loads the gate *)
| IEnterCas (state : Z)
| ILen                          (* loads the table and [len] *)
| ISlot (i : Z) (reserved : bool)
| IReserve (i : Z)              (* loads [len] *)
| IReserveCas (i c : Z)
| ICas (i : Z)                  (* stores its pointer in the null slot *)
| IUnreserve (p : nat)
| IWas (p : nat)                (* [was_occupied] *)
| IUpdate (p : nat) (was : bool)
| ILeave (r : bool)
| ICount.                       (* the caller adds to [key_count] *)

(** [grow] and [compact_shard]. *)
Inductive GrowPc :=
| GLeave                        (* drops the guard before growing *)
| GLock                         (* the mutex *)
| GCas                          (* waits for the gate to be free *)
| GCheck                        (* [grow_locked]: is there still no room? *)
| GLive (j : nat) (n : Z)       (* [compact_shard]: counts the live entries *)
| GCopy (j : nat) (new : Slots) (n : Z)
| GLen (new : Slots) (n : Z)
| GTable (new : Slots)
| GGate
| GUnlock.

Inductive Pc :=
| Finding (f : FindPc)
| Entered (e : EntryPc)
| Inserting (i : InsertPc)
| Growing (g : GrowPc)
| Done (r : Res).

Definition op_key (o : Op) : bytes :=
  match o with OInsert k _ | OFind k | ORemove k => k | OCompact => [] end.
Definition op_val (o : Op) : Z := match o with OInsert _ v => v | _ => 0 end.

Section Steps.
Context (hash_of : bytes → Z).
Implicit Types (m : Mem) (o : Op).

Definition is_key (k : bytes) (c : Cell) : bool := (c_hash c =? hash_of k) && bool_decide (c_key c = k).

(** [Shard::find], and what its callers do with the outcome. *)
Definition find_step m o (f : FindPc) : option (Mem * Pc) :=
  match f with
  | FLoad => sl ← tables m !! cur m; Some (m, Finding (FProbe (cur m) (home sl (hash_of (op_key o)))))
  | FProbe tb i =>
      sl ← tables m !! tb;
      s ← sl !! Z.to_nat i;
      match s with
      | None =>
          Some (m, match o with
                   | OInsert _ _ => Inserting IEnter
                   | OFind _ => Done (RFound None)
                   | _ => Done (RBool false)
                   end)
      | Some p =>
          c ← heap m !! p;
          Some (m, if is_key (op_key o) c
                   then match o with OFind _ => Done (RFound (Some p)) | _ => Entered (EOccupied p) end
                   else Finding (FProbe tb (next sl i)))
      end
  end.

Definition set_cell (p : nat) (occ : bool) (v : Z) m : Mem :=
  set_heap (alter (λ c, mkCell (c_hash c) (c_key c) occ v) p (heap m)) m.

(** The rest of [insert_hashed] (with the [fetch_add] of [insert]) and of
    [remove_no_clone] on the entry that was found. *)
Definition entry_step m o (e : EntryPc) : option (Mem * Pc) :=
  match e with
  | EOccupied p =>
      c ← heap m !! p;
      Some (m, match o with
               | OInsert _ _ => Entered (if c_occ c then EOverwrite p else ERevive p)
               | _ => if c_occ c then Entered (EClear p) else Done (RBool false)
               end)
  | EOverwrite p => c ← heap m !! p; Some (set_cell p (c_occ c) (op_val o) m, Done (RBool false))
  | ERevive p => Some (set_cell p true (op_val o) m, Inserting ICount)
  | EClear p =>
      c ← heap m !! p;
      if c_occ c then Some (add_count (-1) (set_cell p false (c_val c) m), Done (RBool true))
      else Some (m, Done (RBool false))
  end.

(** [Shard::insert_new] and the [fetch_add] of [CustomMap::insert].  A weak
    compare-exchange may fail for no reason ([weak]). *)
Definition insert_step (weak : bool) m o (i : InsertPc) : option (Mem * Pc) :=
  match i with
  | IEnter => if Z.land (gate m) GROWING =? 0 then Some (m, Inserting (IEnterCas (gate m))) else None
  | IEnterCas state =>
      if weak || negb (gate m =? state) then Some (m, Inserting IEnter)
      else Some (set_gate (state + 1) m, Inserting ILen)
  | ILen =>
      sl ← tables m !! cur m;
      Some (m, if threshold_of sl <=? len m then Growing GLeave
               else Inserting (ISlot (home sl (hash_of (op_key o))) false))
  | ISlot i reserved =>
      sl ← tables m !! cur m;
      s ← sl !! Z.to_nat i;
      match s with
      | None => Some (m, Inserting (if reserved then ICas i else IReserve i))
      | Some p =>
          c ← heap m !! p;
          Some (m, Inserting (if is_key (op_key o) c then (if reserved then IUnreserve p else IWas p)
                              else ISlot (next sl i) reserved))
      end
  | IReserve i =>
      sl ← tables m !! cur m;
      Some (m, if threshold_of sl <=? len m then Growing GLeave else Inserting (IReserveCas i (len m)))
  | IReserveCas i c =>
      if weak || negb (len m =? c) then Some (m, Inserting (ISlot i false))
      else Some (set_len (c + 1) m, Inserting (ICas i))
  | ICas i =>
      sl ← tables m !! cur m;
      s ← sl !! Z.to_nat i;
      match s with
      | None =>
          let p := length (heap m) in
          Some (set_tables (<[cur m := <[Z.to_nat i := Some p]> sl]> (tables m)) (cur m)
                  (set_heap (heap m ++ [mkCell (hash_of (op_key o)) (op_key o) true (op_val o)]) m),
                Inserting (ILeave true))
      | Some _ => Some (m, Inserting (ISlot i true))
      end
  | IUnreserve p => Some (set_len (len m - 1) m, Inserting (IWas p))
  | IWas p => c ← heap m !! p; Some (m, Inserting (IUpdate p (c_occ c)))
  | IUpdate p was => Some (set_cell p true (op_val o) m, Inserting (ILeave (negb was)))
  | ILeave r => Some (set_gate (gate m - 1) m, if r then Inserting ICount else Done (RBool false))
  | ICount => Some (add_count 1 m, Done (RBool true))
  end.

(** [Shard::grow], [Shard::grow_locked] and [CustomMap::compact_shard].  With
    no null slot left the placement loop spins for ever, and there is no step. *)
Definition grow_step (weak : bool) m o (g : GrowPc) : option (Mem * Pc) :=
  match g with
  | GLeave => Some (set_gate (gate m - 1) m, Growing GLock)
  | GLock => if grow_lock m then None else Some (set_lock true m, Growing GCas)
  | GCas =>
      if weak || negb (gate m =? 0) then None
      else Some (set_gate GROWING m, Growing (match o with OCompact => GLive 0 0 | _ => GCheck end))
  | GCheck =>
      sl ← tables m !! cur m;
      Some (m, Growing (if len m <? threshold_of sl then GGate
                        else GCopy 0 (new_slots (next_power_of_two (cap sl * 2))) 0))
  | GLive j n =>
      sl ← tables m !! cur m;
      match sl !! j with
      | Some (Some p) => c ← heap m !! p; Some (m, Growing (GLive (S j) (if c_occ c then n + 1 else n)))
      | Some None => Some (m, Growing (GLive (S j) n))
      | None =>
          let new_cap := Z.max (next_power_of_two (n * LOAD_DEN / LOAD_NUM + 1)) 8 in
          Some (m, Growing (if cap sl <=? new_cap then GGate else GCopy 0 (new_slots new_cap) n))
      end
  | GCopy j new n =>
      sl ← tables m !! cur m;
      match sl !! j with
      | Some (Some p) =>
          c ← heap m !! p;
          if c_occ c then
            new' ← place_ptr new (c_hash c) p;
            Some (m, Growing (GCopy (S j) new' (match o with OCompact => n | _ => n + 1 end)))
          else Some (m, Growing (GCopy (S j) new n))
      | Some None => Some (m, Growing (GCopy (S j) new n))
      | None => Some (m, Growing (GLen new n))
      end
  | GLen new n => Some (set_len n m, Growing (GTable new))
  | GTable new => Some (set_tables (tables m ++ [new]) (length (tables m)) m, Growing GGate)
  | GGate => Some (set_gate 0 m, Growing GUnlock)
  | GUnlock => Some (set_lock false m, match o with OCompact => Done RUnit | _ => Inserting IEnter end)
  end.

(** One step of a thread; [None] is a thread that waits or has returned. *)
Definition step (weak : bool) m o (pc : Pc) : option (Mem * Pc) :=
  match pc with
  | Finding f => find_step m o f
  | Entered e => entry_step m o e
  | Inserting i => insert_step weak m o i
  | Growing g => grow_step weak m o g
  | Done _ => None
  end.

(** ** The system *)

Record Sys := mkSys { mem : Mem; threads : list (Op * Pc) }.

Definition sys_step (s : Sys) (tw : nat * bool) : Sys :=
  match threads s !! tw.1 with
  | None => s
  | Some (o, pc) =>
      match step tw.2 (mem s) o pc with
      | None => s
      | Some (m', pc') => mkSys m' (<[tw.1 := (o, pc')]> (threads s))
      end
  end.

(** A schedule names the thread of each step, and whether a weak
    compare-exchange fails in it. *)
Definition run (sched : list (nat * bool)) (s : Sys) : Sys := foldl sys_step s sched.

Definition start (o : Op) : Op * Pc :=
  (o, match o with OCompact => Growing GLock | _ => Finding FLoad end).

(** [Shard::new] *)
Definition shard_new (c : Z) : Mem := mkMem [] [new_slots c] 0 0 0 false 0.

Definition initial (c : Z) (ops : list Op) : Sys := mkSys (shard_new c) (start <$> ops).
End Steps.

(** ** Small runs *)

(** [n] steps of one thread; a thread that waits or has returned stays as it is. *)
Definition steps (n t : nat) : list (nat * bool) := replicate n (t, false).

(** Every thread of a list, one after the other. *)
Definition one_by_one (n : nat) (ts : list nat) : list (nat * bool) := ts ≫= steps n.

Definition toy_key (n : nat) : bytes := [z2b (Z.of_nat n)].
Definition toy_hash (k : bytes) : Z := match k with b :: _ => b2z b | [] => 0 end.
