(* ===== verification/GateSpec.v ===== *)
(** A shard under contention: the gate keeps insertions and growth apart, no
    insertion is lost while tables grow, a key is new to one of its inserters
    only, and a reader without locks finds what was there when it started.
    Compaction and the revival of a removed entry break this. *)

From S2P Require Import Prelude Shard ShardSpec Gate.
Local Open Scope Z_scope.

(** ** Tables of pointers as tables of entries *)

Section Shapes.
Context (hash_of : bytes → Z).
Implicit Types (hp : list Cell) (sl : Slots) (c : Cell) (k : bytes).

(** The parts of an entry that never change. *)
Definition name c : Entry unit := mkEntry (c_hash c) (c_key c) STATE_OCCUPIED (Some tt).
Definition follow hp (o : option nat) : option (Entry unit) := p ← o; name <$> hp !! p.
Definition shape hp sl : SlotTable unit := mkTable (follow hp <$> sl) (cap sl) (cap sl - 1) (threshold_of sl).

Definition filled sl : nat := length (filter (λ o, is_Some o) sl).

Definition heap_ok hp : Prop := ∀ p c, hp !! p = Some c → c_hash c = hash_of (c_key c).

Record tbl_ok hp sl : Prop := {
  tk_wf : table_wf hash_of (shape hp sl);
  tk_valid : ∀ j p, sl !! j = Some (Some p) → is_Some (hp !! p);
}.

(** Entries keep their names while the heap grows. *)
Definition names_ext hp hp' : Prop :=
  ∀ p c, hp !! p = Some c → ∃ c', hp' !! p = Some c' ∧ c_hash c' = c_hash c ∧ c_key c' = c_key c.

Lemma names_ext_refl hp : names_ext hp hp.
Proof. intros p c Hp. by exists c. Qed.

Lemma names_ext_app hp c : names_ext hp (hp ++ [c]).
Proof. intros p c' Hp. exists c'. split; [by apply lookup_app_l_Some|done]. Qed.

Lemma names_ext_alter hp p occ v : names_ext hp (alter (λ c, mkCell (c_hash c) (c_key c) occ v) p hp).
Proof.
  intros q c Hq. destruct (decide (q = p)) as [->|Hne].
  - rewrite list_lookup_alter_eq, Hq. by eexists.
  - rewrite list_lookup_alter_ne by done. by exists c.
Qed.

Lemma shape_lookup hp sl j : slots (shape hp sl) !! j = follow hp <$> sl !! j.
Proof. simpl. by rewrite list_lookup_fmap. Qed.

Lemma shape_entry hp sl j e :
  slots (shape hp sl) !! j = Some (Some e) → ∃ p c, sl !! j = Some (Some p) ∧ hp !! p = Some c ∧ e = name c.
Proof.
  rewrite shape_lookup. intros ([p|] & Hj & He)%fmap_Some; [|done]. simpl in He.
  destruct (hp !! p) as [c|] eqn:Hc; simplify_eq/=. by exists p, c.
Qed.

Lemma shape_some hp sl j p c :
  sl !! j = Some (Some p) → hp !! p = Some c → slots (shape hp sl) !! j = Some (Some (name c)).
Proof. intros Hj Hc. rewrite shape_lookup, Hj. simpl. by rewrite Hc. Qed.

Lemma shape_none hp sl j : sl !! j = Some None → slots (shape hp sl) !! j = Some None.
Proof. intros Hj. by rewrite shape_lookup, Hj. Qed.

Lemma shape_ext hp hp' sl :
  (∀ j p, sl !! j = Some (Some p) → is_Some (hp !! p)) → names_ext hp hp' → shape hp' sl = shape hp sl.
Proof.
  intros Hv Hn. unfold shape. f_equal. apply list_eq. intros j. rewrite !list_lookup_fmap.
  destruct (sl !! j) as [[p|]|] eqn:Hj; [|done..]. simpl. f_equal.
  destruct (Hv j p Hj) as [c Hc]. destruct (Hn p c Hc) as (c' & Hc' & Hh & Hk).
  rewrite Hc, Hc'. unfold name. simpl. by rewrite Hh, Hk.
Qed.

Lemma tbl_ok_ext hp hp' sl : names_ext hp hp' → tbl_ok hp sl → tbl_ok hp' sl.
Proof.
  intros Hn [Hw Hv]. split; [by rewrite (shape_ext hp)|].
  intros j p Hj. destruct (Hv j p Hj) as [c Hc]. destruct (Hn p c Hc) as (c' & ? & _). eauto.
Qed.

Lemma filled_shape hp sl :
  (∀ j p, sl !! j = Some (Some p) → is_Some (hp !! p)) → nonnull (slots (shape hp sl)) = filled sl.
Proof.
  unfold nonnull, filled. cbn [shape slots]. induction sl as [|[p|] sl IH]; intros Hv; [done| |].
  - destruct (Hv O p eq_refl) as [c Hc]. cbn [fmap list_fmap]. unfold follow at 1. cbn [mbind option_bind]. rewrite Hc.
    rewrite !filter_cons_True by eauto. simpl. f_equal. apply IH. intros j. exact (Hv (S j)).
  - cbn [fmap list_fmap]. unfold follow at 1. cbn [mbind option_bind].
    rewrite !filter_cons_False by (by intros [? ?]). apply IH. intros j. exact (Hv (S j)).
Qed.

Lemma tbl_geometry hp sl : tbl_ok hp sl → geometry (shape hp sl).
Proof. intros [Hw _]. exact (tw_geometry _ _ Hw). Qed.

Lemma new_slots_ok hp n : tbl_ok hp (new_slots n).
Proof.
  assert (Hs : shape hp (new_slots n) = SlotTable_new n).
  { unfold shape, SlotTable_new, new_slots, threshold_of, cap. rewrite length_replicate, fmap_replicate.
    rewrite Z2Nat.id by lia. done. }
  split; [rewrite Hs; apply SlotTable_new_wf|]. intros j p Hj. unfold new_slots in Hj. by apply lookup_replicate_1 in Hj as [? _].
Qed.

Lemma filled_new n : filled (new_slots n) = O.
Proof.
  rewrite <- (filled_shape []).
  - assert (Hs : slots (shape [] (new_slots n)) = replicate (Z.to_nat (Z.max (next_power_of_two n) 8)) None).
    { simpl. unfold new_slots. by rewrite fmap_replicate. }
    rewrite Hs. apply nonnull_replicate.
  - intros j p Hj. unfold new_slots in Hj. by apply lookup_replicate_1 in Hj as [? _].
Qed.

Lemma filled_insert sl j p : sl !! j = Some None → filled (<[j := Some p]> sl) = S (filled sl).
Proof.
  unfold filled. revert j. induction sl as [|o sl IH]; intros [|j] Hj; simplify_eq/=; [done|].
  rewrite !filter_cons. case_decide; simpl; by rewrite IH.
Qed.

Lemma cap_insert sl j o : cap (<[j := o]> sl) = cap sl.
Proof. unfold cap. by rewrite length_insert. Qed.

(** The key of an entry of the table. *)
Definition in_table hp sl k : Prop :=
  ∃ j p c, sl !! j = Some (Some p) ∧ hp !! p = Some c ∧ c_key c = k.

(** A probe for [k] that is at slot [i], [d] slots from its home, has passed
    entries of other keys only. *)
Record probing hp sl k (i : Z) (d : nat) : Prop := {
  pb_index : i = (hash_of k + Z.of_nat d) mod cap sl;
  pb_bound : Z.of_nat d < cap sl;
  pb_passed : ∀ d', (d' < d)%nat → ∃ p c,
    sl !! slot_at (cap sl) (hash_of k) d' = Some (Some p) ∧ hp !! p = Some c ∧ c_key c ≠ k;
}.

(** A table that other threads have added to. *)
Definition slots_ext sl sl' : Prop :=
  length sl' = length sl ∧ ∀ j p, sl !! j = Some (Some p) → sl' !! j = Some (Some p).

Lemma slots_ext_refl sl : slots_ext sl sl.
Proof. by split. Qed.

Lemma slots_ext_insert sl j p : sl !! j = Some None → slots_ext sl (<[j := Some p]> sl).
Proof.
  intros Hj. split; [apply length_insert|]. intros j' p' Hj'.
  rewrite list_lookup_insert_ne; [done|]. intros ->. congruence.
Qed.

Lemma in_table_ext hp hp' sl sl' k :
  names_ext hp hp' → slots_ext sl sl' → in_table hp sl k → in_table hp' sl' k.
Proof.
  intros Hn [_ Hs] (j & p & c & Hj & Hc & <-). destruct (Hn p c Hc) as (c' & Hc' & _ & Hk).
  exists j, p, c'. auto.
Qed.

Lemma probing_ext hp hp' sl sl' k i d :
  names_ext hp hp' → slots_ext sl sl' → probing hp sl k i d → probing hp' sl' k i d.
Proof.
  intros Hn [Hl Hs] [Hi Hd Hp]. assert (Hcap : cap sl' = cap sl) by (unfold cap; by rewrite Hl).
  split; rewrite ?Hcap; [done..|]. intros d' Hd'. destruct (Hp d' Hd') as (p & c & Hj & Hc & Hk).
  destruct (Hn p c Hc) as (c' & Hc' & _ & Hk'). exists p, c'. rewrite Hk'. auto.
Qed.

Lemma probing_index hp sl k i d : probing hp sl k i d → Z.to_nat i = slot_at (cap sl) (hash_of k) d.
Proof. by intros [-> _ _]. Qed.

Lemma probing_start hp sl k : tbl_ok hp sl → probing hp sl k (home sl (hash_of k)) 0.
Proof.
  intros Ht. pose proof (tbl_geometry _ _ Ht) as Hg. pose proof (geometry_cap _ Hg) as Hc. simpl in Hc.
  pose proof (land_mask _ (hash_of k) Hg) as Hm. simpl in Hm.
  split; [unfold home; rewrite Hm; f_equal; lia|simpl; lia|lia].
Qed.

Lemma probing_slot hp sl k i d : tbl_ok hp sl → probing hp sl k i d → is_Some (sl !! Z.to_nat i).
Proof.
  intros Ht Hp. rewrite (probing_index _ _ _ _ _ Hp).
  pose proof (slot_at_lookup _ (hash_of k) d (tbl_geometry _ _ Ht)) as Hs. rewrite shape_lookup in Hs.
  simpl in Hs. by apply fmap_is_Some in Hs.
Qed.

(** A table with a null slot: the probe comes to it before it has gone round. *)
Lemma null_ahead hp sl k : tbl_ok hp sl → (filled sl < length sl)%nat →
  ∃ dn, Z.of_nat dn < cap sl ∧ sl !! slot_at (cap sl) (hash_of k) dn = Some None.
Proof.
  intros Ht Hf. pose proof (tbl_geometry _ _ Ht) as Hg.
  assert (Hn : (nonnull (slots (shape hp sl)) < length (slots (shape hp sl)))%nat).
  { rewrite (filled_shape _ _ (tk_valid _ _ Ht)). simpl. by rewrite length_fmap. }
  destruct (nonnull_lt_null _ Hn) as [j Hj].
  destruct (slot_at_cover _ (hash_of k) j Hg) as (dn & Hdn & ->); [by eapply lookup_lt_Some|].
  exists dn. split; [done|]. rewrite shape_lookup in Hj. apply fmap_Some in Hj as ([p|] & Hs & Hx); [|done].
  destruct (tk_valid _ _ Ht _ _ Hs) as [c Hc]. simpl in Hx. by rewrite Hc in Hx.
Qed.

Lemma probing_next hp sl k i d p c :
  tbl_ok hp sl → (filled sl < length sl)%nat → probing hp sl k i d →
  sl !! Z.to_nat i = Some (Some p) → hp !! p = Some c → c_key c ≠ k →
  probing hp sl k (next sl i) (S d).
Proof.
  intros Ht Hf Hp Hj Hc Hk. pose proof (tbl_geometry _ _ Ht) as Hg.
  rewrite (probing_index _ _ _ _ _ Hp) in Hj. destruct Hp as [-> Hd Hpass].
  destruct (null_ahead hp sl k Ht Hf) as (dn & Hdn & Hnull).
  assert (Hlt : (d < dn)%nat).
  { destruct (Nat.lt_trichotomy d dn) as [?|[->|Hgt]]; [done|congruence|].
    destruct (Hpass dn Hgt) as (? & ? & ? & _). congruence. }
  split.
  - exact (probe_step_index (shape hp sl) (hash_of k) d Hg).
  - lia.
  - intros d' Hd'. destruct (decide (d' = d)) as [->|Hne]; [by exists p, c|]. apply Hpass. lia.
Qed.

(** What the table has is ahead of the probe. *)
Lemma probing_ahead hp sl k i d : tbl_ok hp sl → probing hp sl k i d → in_table hp sl k →
  ∃ dk p c, (d <= dk)%nat ∧ Z.of_nat dk < cap sl ∧
    sl !! slot_at (cap sl) (hash_of k) dk = Some (Some p) ∧ hp !! p = Some c ∧ c_key c = k ∧
    ∀ d', (d' < dk)%nat → ∃ q, sl !! slot_at (cap sl) (hash_of k) d' = Some (Some q).
Proof.
  intros Ht Hp (j & p & c & Hj & Hc & Hk). pose proof (shape_some _ _ _ _ _ Hj Hc) as He.
  pose proof (tw_entry _ _ (tk_wf _ _ Ht) _ _ He) as Hw. pose proof (ew_hash _ _ Hw) as Hh. simpl in Hh.
  destruct (tw_reach _ _ (tk_wf _ _ Ht) _ _ He) as (dk & Hdk & -> & Hpath).
  simpl in Hdk, Hpath, Hj. rewrite Hh, Hk in *. exists dk, p, c. split; [|split; [done|split; [done|split; [done|split; [done|]]]]].
  - destruct (Nat.le_gt_cases d dk) as [?|Hgt]; [done|].
    destruct (pb_passed _ _ _ _ _ Hp dk Hgt) as (q & cq & Hq & Hcq & Hkq). congruence.
  - intros d' Hd'. destruct (Hpath d' Hd') as [e Hed]. apply shape_entry in Hed as (q & ? & Hq & _). by exists q.
Qed.

Lemma probing_absent hp sl k i d :
  tbl_ok hp sl → probing hp sl k i d → sl !! Z.to_nat i = Some None → ¬ in_table hp sl k.
Proof.
  intros Ht Hp Hnull Hin. destruct (probing_ahead _ _ _ _ _ Ht Hp Hin) as (dk & p & c & Hle & _ & Hs & _ & _ & Hpath).
  rewrite (probing_index _ _ _ _ _ Hp) in Hnull.
  destruct (decide (d = dk)) as [->|Hne]; [congruence|].
  destruct (Hpath d ltac:(lia)) as [q Hq]. congruence.
Qed.

Lemma is_key_spec k c : c_hash c = hash_of (c_key c) → is_key hash_of k c = bool_decide (c_key c = k).
Proof.
  intros Hh. unfold is_key. rewrite Hh. destruct (decide (c_key c = k)) as [<-|Hne].
  - by rewrite Z.eqb_refl.
  - rewrite bool_decide_eq_false_2 by done. by rewrite andb_false_r.
Qed.

(** Storing a pointer at a null slot that the probe of its key leads to. *)
Lemma tbl_ok_store hp sl j p c :
  tbl_ok hp sl → sl !! j = Some None → hp !! p = Some c → c_hash c = hash_of (c_key c) →
  ¬ in_table hp sl (c_key c) → reach (shape hp sl) (name c) j →
  tbl_ok hp (<[j := Some p]> sl).
Proof.
  intros [Hw Hv] Hj Hc Hh Hno Hr.
  assert (Hs : shape hp (<[j := Some p]> sl) = set_slot (shape hp sl) j (Some (name c))).
  { unfold shape, set_slot. simpl. unfold threshold_of. rewrite !cap_insert, list_fmap_insert. simpl. by rewrite Hc. }
  split.
  - rewrite Hs. apply table_wf_set; [done| |by split|done|].
    + simpl. rewrite length_fmap. by eapply lookup_lt_Some.
    + intros j' e _ He Hk. apply shape_entry in He as (q & cq & Hq & Hcq & ->). apply Hno. by exists j', q, cq.
  - intros j' q. intros [(-> & [= ->] & _)|(_ & Hq)]%list_lookup_insert_Some; [by eexists|eauto].
Qed.

Lemma probing_store hp sl k i d occ v :
  tbl_ok hp sl → probing hp sl k i d → sl !! Z.to_nat i = Some None →
  tbl_ok (hp ++ [mkCell (hash_of k) k occ v]) (<[Z.to_nat i := Some (length hp)]> sl).
Proof.
  intros Ht Hp Hj. pose proof (probing_absent _ _ _ _ _ Ht Hp Hj) as Hno.
  set (c := mkCell (hash_of k) k occ v). pose proof (names_ext_app hp c) as Hn.
  pose proof (tbl_ok_ext _ _ _ Hn Ht) as Ht'. pose proof (probing_ext _ _ _ _ _ _ _ Hn (slots_ext_refl sl) Hp) as Hp'.
  eapply tbl_ok_store; [done|done|by apply list_lookup_middle|done|by eapply probing_absent|].
  exists d. split; [by apply (pb_bound _ _ _ _ _ Hp)|]. split; [by apply probing_index in Hp|].
  intros d' Hd'. destruct (pb_passed _ _ _ _ _ Hp' d' Hd') as (q & cq & Hq & Hcq & _).
  exists (name cq). exact (shape_some _ _ _ _ _ Hq Hcq).
Qed.

(** ** The placement loop *)

Lemma null_from_probe hp sl fuel i :
  (∀ j p, sl !! j = Some (Some p) → is_Some (hp !! p)) →
  null_from fuel sl i = match probe_loop fuel (slots (shape hp sl)) (cap sl - 1) (λ _, false) i with Miss j => Some j | _ => None end.
Proof.
  intros Hv. revert i. induction fuel as [|fuel IH]; intros i; [done|]. cbn [null_from probe_loop].
  rewrite shape_lookup. destruct (sl !! Z.to_nat i) as [[p|]|] eqn:Hj; [|done..]. simpl.
  destruct (Hv _ _ Hj) as [c Hc]. rewrite Hc. simpl. apply IH.
Qed.

Lemma place_ptr_spec hp sl p c :
  tbl_ok hp sl → (filled sl < length sl)%nat → hp !! p = Some c → c_hash c = hash_of (c_key c) →
  ¬ in_table hp sl (c_key c) →
  ∃ j, sl !! j = Some None ∧ place_ptr sl (c_hash c) p = Some (<[j := Some p]> sl) ∧ tbl_ok hp (<[j := Some p]> sl).
Proof.
  intros Ht Hf Hc Hh Hno. pose proof (tbl_geometry _ _ Ht) as Hg.
  assert (Hn : (nonnull (slots (shape hp sl)) < length (slots (shape hp sl)))%nat).
  { rewrite (filled_shape _ _ (tk_valid _ _ Ht)). simpl. by rewrite length_fmap. }
  pose proof (probe_ends (shape hp sl) (λ _, false) (c_hash c) Hg Hn) as Hp. unfold probe in Hp.
  unfold place_ptr. rewrite (null_from_probe hp) by exact (tk_valid _ _ Ht). unfold home.
  simpl in Hp |- *. rewrite length_fmap in Hp. destruct (probe_loop _ _ _ _ _) as [? ?|j|]; [by destruct Hp| |done].
  destruct Hp as (Hj & d & Hd & Hjd & Hpath). simpl.
  assert (Hj' : sl !! j = Some None).
  { change (follow hp <$> sl) with (slots (shape hp sl)) in Hj. rewrite shape_lookup in Hj.
    apply fmap_Some in Hj as ([q|] & Hs & Hx); [|done].
    destruct (tk_valid _ _ Ht _ _ Hs) as [cq Hcq]. simpl in Hx. by rewrite Hcq in Hx. }
  exists j. split; [done|]. split; [done|]. eapply tbl_ok_store; [done..|].
  exists d. split; [done|]. split; [done|]. intros d' Hd'. destruct (Hpath d' Hd') as (e & He & _). by exists e.
Qed.
End Shapes.

(** ** The invariant *)

(** What a thread counts as: inside the gate, holding a reserved place of [len],
    holding the grow lock, growing (the gate is shut), about to store the new
    table, and having been told that its key is new. *)
Definition inside (x : Op * Pc) : Z :=
  match x.2 with
  | Inserting (IEnter | IEnterCas _ | ICount) => 0
  | Inserting _ | Growing GLeave => 1
  | _ => 0
  end.
Definition reserved_by (x : Op * Pc) : Z :=
  match x.2 with Inserting (ISlot _ true | ICas _ | IUnreserve _) => 1 | _ => 0 end.
Definition holder (x : Op * Pc) : Z :=
  match x.2 with Growing (GLeave | GLock) => 0 | Growing _ => 1 | _ => 0 end.
Definition growing (x : Op * Pc) : Z :=
  match x.2 with Growing (GLeave | GLock | GCas | GUnlock) => 0 | Growing _ => 1 | _ => 0 end.
Definition storing (x : Op * Pc) : Z := match x.2 with Growing (GTable _) => 1 | _ => 0 end.
Definition told_new (k : bytes) (x : Op * Pc) : Z :=
  match x with
  | (OInsert k' _, Inserting (ILeave true | ICount)) | (OInsert k' _, Done (RBool true)) => if decide (k' = k) then 1 else 0
  | _ => 0
  end.

#[local] Arguments inside : simpl never.
#[local] Arguments reserved_by : simpl never.
#[local] Arguments holder : simpl never.
#[local] Arguments growing : simpl never.
#[local] Arguments storing : simpl never.

(** The current table has an entry of [k]. *)
Definition linked (m : Mem) (k : bytes) : Prop :=
  ∃ sl, tables m !! cur m = Some sl ∧ in_table (heap m) sl k.

Section Invariant.
Context (hash_of : bytes → Z) (kept : bytes → Prop).
Implicit Types (m : Mem) (o : Op) (pc : Pc) (s : Sys).

(** The keys that are [kept] are not removed, and nothing is compacted. *)
Definition op_ok o : Prop := match o with ORemove k => ¬ kept k | OCompact => False | _ => True end.

Definition entry_of m (p : nat) (k : bytes) : Prop := ∃ c, heap m !! p = Some c ∧ c_key c = k.

(** A probe of the current table. *)
Definition at_slot m (k : bytes) (i : Z) : Prop :=
  ∃ sl d, tables m !! cur m = Some sl ∧ probing hash_of (heap m) sl k i d.

Definition has_room m (c : Z) : Prop := ∃ sl, tables m !! cur m = Some sl ∧ c < threshold_of sl.

(** The table that is being filled, complete up to slot [j] of the old one. *)
Record copied m (j : nat) (new : Slots) (n : Z) (sl : Slots) : Prop := {
  cp_ok : tbl_ok hash_of (heap m) new;
  cp_count : n = Z.of_nat (filled new);
  cp_few : (filled new <= filled (take j sl))%nat;
  cp_room : cap sl <= cap new;
  cp_from : ∀ k, in_table (heap m) new k → in_table (heap m) (take j sl) k;
  cp_kept : ∀ k, kept k → in_table (heap m) (take j sl) k → in_table (heap m) new k;
}.

Record complete m (new : Slots) (n : Z) : Prop := {
  cl_ok : tbl_ok hash_of (heap m) new;
  cl_count : n = Z.of_nat (filled new);
  cl_room : n <= threshold_of new;
  cl_kept : ∀ k, kept k → in_table (heap m) new k ↔ linked m k;
}.

Definition insert_ok m (k : bytes) (i : InsertPc) : Prop :=
  match i with
  | IEnter | ILen => True
  | IEnterCas state => Z.land state GROWING = 0
  | ISlot i _ | IReserve i | ICas i => at_slot m k i
  | IReserveCas i c => at_slot m k i ∧ has_room m c
  | IUnreserve p | IWas p => linked m k ∧ entry_of m p k
  | IUpdate p was => linked m k ∧ entry_of m p k ∧ (kept k → was = true)
  | ILeave _ | ICount => kept k → linked m k
  end.

Definition grow_ok m (g : GrowPc) : Prop :=
  match g with
  | GLive _ _ => False
  | GCopy j new n => ∃ sl, tables m !! cur m = Some sl ∧ copied m j new n sl
  | GLen new n => complete m new n
  | GTable new => complete m new (len m)
  | _ => True
  end.

Definition pc_ok m o pc : Prop :=
  match pc with
  | Finding FLoad => True
  | Finding (FProbe tb i) => ∃ sl d, tables m !! tb = Some sl ∧ probing hash_of (heap m) sl (op_key o) i d
  | Entered (EOccupied p) =>
      entry_of m p (op_key o) ∧ (kept (op_key o) → linked m (op_key o)) ∧ (∀ k, o ≠ OFind k)
  | Entered (EOverwrite p) => entry_of m p (op_key o) ∧ (kept (op_key o) → linked m (op_key o)) ∧ ∃ k v, o = OInsert k v
  | Entered (ERevive p) => entry_of m p (op_key o) ∧ ¬ kept (op_key o) ∧ ∃ k v, o = OInsert k v
  | Entered (EClear p) => entry_of m p (op_key o) ∧ ¬ kept (op_key o) ∧ ∃ k, o = ORemove k
  | Inserting i => insert_ok m (op_key o) i ∧ ∃ k v, o = OInsert k v
  | Growing g => grow_ok m g ∧ ∃ k v, o = OInsert k v
  | Done _ => match o with OInsert k _ => kept k → linked m k | _ => True end
  end.

Record inv s : Prop := {
  v_ops : ∀ t o pc, threads s !! t = Some (o, pc) → op_ok o;
  v_small : Z.of_nat (length (threads s)) < GROWING;
  v_heap : heap_ok hash_of (heap (mem s));
  v_live : ∀ p c, heap (mem s) !! p = Some c → kept (c_key c) → c_occ c = true;
  v_cur : is_Some (tables (mem s) !! cur (mem s));
  v_tables : ∀ tb sl, tables (mem s) !! tb = Some sl →
    tbl_ok hash_of (heap (mem s)) sl ∧ Z.of_nat (filled sl) <= threshold_of sl;
  v_linked : ∀ tb sl k, tables (mem s) !! tb = Some sl → in_table (heap (mem s)) sl k → kept k → linked (mem s) k;
  v_lock : tally holder (threads s) = Z.b2z (grow_lock (mem s));
  v_gate : gate (mem s) = tally inside (threads s) + GROWING * tally growing (threads s);
  v_excl : 0 < tally growing (threads s) → tally inside (threads s) = 0;
  v_len : tally storing (threads s) = 0 → ∀ sl, tables (mem s) !! cur (mem s) = Some sl →
    len (mem s) = Z.of_nat (filled sl) + tally reserved_by (threads s) ∧ len (mem s) <= threshold_of sl;
  v_new : ∀ k, kept k → tally (told_new k) (threads s) <= 1 ∧ (0 < tally (told_new k) (threads s) ↔ linked (mem s) k);
  v_pc : ∀ t o pc, threads s !! t = Some (o, pc) → pc_ok (mem s) o pc;
}.

(** ** What other threads leave true *)

Record mem_ext m m' : Prop := {
  me_heap : names_ext (heap m) (heap m');
  me_tables : ∀ tb sl, tables m !! tb = Some sl → ∃ sl', tables m' !! tb = Some sl' ∧ slots_ext sl sl';
  me_kept : ∀ k, kept k → linked m k → linked m' k;
}.

Lemma entry_of_ext m m' p k : names_ext (heap m) (heap m') → entry_of m p k → entry_of m' p k.
Proof. intros Hn (c & Hc & <-). destruct (Hn p c Hc) as (c' & Hc' & _ & Hk). by exists c'. Qed.

Lemma at_slot_ext m m' k i : mem_ext m m' → cur m' = cur m → at_slot m k i → at_slot m' k i.
Proof.
  intros [Hn Ht _] Hcur (sl & d & Hsl & Hp). destruct (Ht _ _ Hsl) as (sl' & Hsl' & Hs).
  exists sl', d. rewrite Hcur. split; [done|]. by eapply probing_ext.
Qed.

Lemma has_room_ext m m' c : mem_ext m m' → cur m' = cur m → has_room m c → has_room m' c.
Proof.
  intros [Hn Ht _] Hcur (sl & Hsl & Hp). destruct (Ht _ _ Hsl) as (sl' & Hsl' & Hs & _).
  exists sl'. rewrite Hcur. split; [done|]. unfold threshold_of, cap in *. by rewrite Hs.
Qed.

Lemma linked_ext m m' k : mem_ext m m' → cur m' = cur m → linked m k → linked m' k.
Proof.
  intros [Hn Ht _] Hcur (sl & Hsl & Hp). destruct (Ht _ _ Hsl) as (sl' & Hsl' & Hs).
  exists sl'. rewrite Hcur. split; [done|]. by eapply in_table_ext.
Qed.

(** Names stay, so a table of valid pointers says the same of the longer heap. *)
Lemma in_table_back hp hp' sl k :
  names_ext hp hp' → (∀ j p, sl !! j = Some (Some p) → is_Some (hp !! p)) → in_table hp' sl k → in_table hp sl k.
Proof.
  intros Hn Hv (j & p & c & Hj & Hc & Hk). destruct (Hv j p Hj) as [c0 Hc0]. destruct (Hn p c0 Hc0) as (c' & Hc' & _ & Hk').
  exists j, p, c0. split; [done|]. split; [done|]. congruence.
Qed.

Lemma in_table_names hp hp' sl k :
  names_ext hp hp' → (∀ j p, sl !! j = Some (Some p) → is_Some (hp !! p)) → in_table hp' sl k ↔ in_table hp sl k.
Proof.
  intros Hn Hv. split; [by apply in_table_back|]. intros Hi. eapply in_table_ext; [done|apply slots_ext_refl|done].
Qed.

Lemma valid_take (hp : list Cell) (sl : Slots) j :
  (∀ j p, sl !! j = Some (Some p) → is_Some (hp !! p)) → ∀ j' p, take j sl !! j' = Some (Some p) → is_Some (hp !! p).
Proof. intros Hv j' p [Hj _]%lookup_take_Some. eauto. Qed.

Lemma linked_names m m' k :
  tables m' = tables m → cur m' = cur m → names_ext (heap m) (heap m') →
  (∀ tb sl, tables m !! tb = Some sl → tbl_ok hash_of (heap m) sl) → linked m' k ↔ linked m k.
Proof.
  intros Ht Hc Hn Hok. unfold linked. rewrite Ht, Hc. split; intros (sl & Hsl & Hi); exists sl; (split; [done|]).
  - apply (in_table_back _ _ _ _ Hn (tk_valid _ _ _ (Hok _ _ Hsl)) Hi).
  - by apply (in_table_names _ _ _ _ Hn (tk_valid _ _ _ (Hok _ _ Hsl))).
Qed.

Lemma grow_ok_names m m' g :
  tables m' = tables m → cur m' = cur m → len m' = len m ∨ (∀ new, g ≠ GTable new) → names_ext (heap m) (heap m') →
  (∀ tb sl, tables m !! tb = Some sl → tbl_ok hash_of (heap m) sl) → grow_ok m g → grow_ok m' g.
Proof.
  intros Ht Hc Hlen Hn Hok. assert (Hcomplete : ∀ new n, complete m new n → complete m' new n).
  { intros new n [Hk Hcn Hr Hl]. split; [by eapply tbl_ok_ext|done..|]. intros k Hkept.
    rewrite (in_table_names _ _ _ _ Hn (tk_valid _ _ _ Hk)), (linked_names m m' k Ht Hc Hn Hok). by apply Hl. }
  destruct g; simpl; try done.
  - intros (sl & Hsl & [Hk Hcn Hf Hr Hfrom Hkept]). rewrite Ht, Hc. exists sl. split; [done|].
    pose proof (valid_take _ _ j (tk_valid _ _ _ (Hok _ _ Hsl))) as Hv.
    split; [by eapply tbl_ok_ext|done..| |]; intros k;
      rewrite (in_table_names _ _ _ _ Hn (tk_valid _ _ _ Hk)), (in_table_names _ _ _ _ Hn Hv); eauto.
  - apply Hcomplete.
  - destruct Hlen as [->|Hg]; [apply Hcomplete|by destruct (Hg new)].
Qed.

Lemma pc_ok_stable m m' o pc :
  mem_ext m m' → (∀ tb sl, tables m !! tb = Some sl → tbl_ok hash_of (heap m) sl) →
  (0 < inside (o, pc) → cur m' = cur m) →
  (0 < growing (o, pc) → tables m' = tables m ∧ cur m' = cur m ∧ (len m' = len m ∨ storing (o, pc) = 0)) →
  pc_ok m o pc → pc_ok m' o pc.
Proof.
  intros He Hok Hi Hg. pose proof He as [Hn Ht Hk]. destruct pc as [[|tb i]|e|i|g|r]; simpl; [done|..].
  - intros (sl & d & Hsl & Hp). destruct (Ht _ _ Hsl) as (sl' & Hsl' & Hs). exists sl', d.
    split; [done|]. by eapply probing_ext.
  - pose proof (λ p, entry_of_ext m m' p (op_key o) Hn) as Hent. destruct e; naive_solver.
  - intros [Hpc Hop]. split; [|done]. pose proof (λ p, entry_of_ext m m' p (op_key o) Hn) as Hent.
    pose proof (at_slot_ext m m' (op_key o)) as Hat. pose proof (linked_ext m m' (op_key o) He) as Hl.
    pose proof (λ c, has_room_ext m m' c He) as Hr.
    destruct i; simpl in *; first [exact Hpc | (by intros ?; apply Hk, Hpc) | specialize (Hi eq_refl); naive_solver].
  - intros [Hpc Hop]. split; [|done]. destruct g; try exact Hpc; destruct (Hg eq_refl) as (? & ? & Hlen);
      (eapply grow_ok_names; [done|done| |done|done|exact Hpc]); (destruct Hlen as [?|Hx]; [by left|right; intros ? [= ->]; by simpl in Hx]).
  - destruct o; naive_solver.
Qed.

(** ** Weights *)

(** The weights of given program counters are numbers. *)
Ltac weight f :=
  repeat match goal with |- context [f (?o, ?p)] => let v := eval cbv [f snd fst] in (f (o, p)) in change (f (o, p)) with v end.
Ltac weights := weight inside; weight reserved_by; weight holder; weight growing; weight storing.

Ltac weigh := unfold inside, reserved_by, holder, growing, storing; repeat case_match; simplify_eq/=; lia.

Lemma inside_range x : 0 <= inside x <= 1.
Proof. weigh. Qed.
Lemma reserved_range x : 0 <= reserved_by x <= 1.
Proof. weigh. Qed.
Lemma holder_range x : 0 <= holder x <= 1.
Proof. weigh. Qed.
Lemma growing_holder x : 0 <= growing x <= holder x.
Proof. weigh. Qed.
Lemma storing_growing x : 0 <= storing x <= growing x.
Proof. weigh. Qed.
Lemma reserved_inside x : reserved_by x <= inside x.
Proof. weigh. Qed.
Lemma told_nonneg k x : 0 <= told_new k x.
Proof. unfold told_new. repeat case_match; lia. Qed.

Lemma one_grower s t t' x y :
  inv s → t ≠ t' → threads s !! t = Some x → threads s !! t' = Some y → 0 < growing x → 0 < growing y → False.
Proof.
  intros Hv Hne Hx Hy Hgx Hgy.
  pose proof (tally_two holder _ t t' x y (λ z, proj1 (holder_range z)) Hne Hx Hy) as Htwo.
  pose proof (growing_holder x). pose proof (growing_holder y). rewrite (v_lock _ Hv) in Htwo.
  destruct (grow_lock (mem s)); simpl in Htwo; lia.
Qed.

Lemma growing_tally s t x : threads s !! t = Some x → growing x <= tally growing (threads s).
Proof. apply tally_elem. intros z. apply growing_holder. Qed.

Lemma inside_tally s t x : threads s !! t = Some x → inside x <= tally inside (threads s).
Proof. apply tally_elem. intros z. apply inside_range. Qed.

Lemma growing_le_one s : inv s → 0 <= tally growing (threads s) <= 1.
Proof.
  intros Hv. split; [apply tally_nonneg; intros x; apply growing_holder|].
  pose proof (tally_le growing holder (threads s) (λ x, proj2 (growing_holder x))) as Hle.
  rewrite (v_lock _ Hv) in Hle. destruct (grow_lock (mem s)); simpl in Hle; lia.
Qed.

Lemma storing_le_growing s : 0 <= tally storing (threads s) <= tally growing (threads s).
Proof.
  split; [apply tally_nonneg; intros x; apply storing_growing|apply tally_le; intros x; apply storing_growing].
Qed.

(** Nobody grows while a thread is inside. *)
Lemma inside_no_grower s t x : inv s → threads s !! t = Some x → 0 < inside x →
  tally growing (threads s) = 0 ∧ tally storing (threads s) = 0.
Proof.
  intros Hv Hx Hi. pose proof (inside_tally s t x Hx). pose proof (growing_le_one s Hv). pose proof (storing_le_growing s).
  destruct (Z.eq_dec (tally growing (threads s)) 0) as [Hz|Hz]; [lia|]. pose proof (v_excl _ Hv ltac:(lia)). lia.
Qed.

(** ** Steps that leave the tables *)

Lemma inv_ops_set s t o pc m' pc' :
  inv s → threads s !! t = Some (o, pc) →
  (∀ t' o' pc'', threads (mkSys m' (<[t := (o, pc')]> (threads s))) !! t' = Some (o', pc'') → op_ok o') ∧
  Z.of_nat (length (<[t := (o, pc')]> (threads s))) < GROWING.
Proof.
  intros Hv Ht. split; [|rewrite length_insert; by apply v_small].
  intros t' o' pc''. simpl. intros [(-> & [= <- <-] & _)|(_ & Ht')]%list_lookup_insert_Some;
    [by eapply (v_ops _ Hv)|by eapply (v_ops _ Hv)].
Qed.

Lemma inv_quiet s t o pc m' pc' :
  inv s → threads s !! t = Some (o, pc) →
  tables m' = tables (mem s) → cur m' = cur (mem s) →
  names_ext (heap (mem s)) (heap m') → heap_ok hash_of (heap m') →
  (∀ p c, heap m' !! p = Some c → kept (c_key c) → c_occ c = true) →
  (len m' = len (mem s) ∨ tally storing (threads s) = 0 ∨ 0 < growing (o, pc)) →
  (tally storing (threads s) - storing (o, pc) + storing (o, pc') = 0 →
   ∀ sl, tables (mem s) !! cur (mem s) = Some sl →
    len m' = Z.of_nat (filled sl) + (tally reserved_by (threads s) - reserved_by (o, pc) + reserved_by (o, pc')) ∧
    len m' <= threshold_of sl) →
  Z.b2z (grow_lock m') = Z.b2z (grow_lock (mem s)) - holder (o, pc) + holder (o, pc') →
  gate m' = gate (mem s) - inside (o, pc) + inside (o, pc') + GROWING * (growing (o, pc') - growing (o, pc)) →
  (0 < tally growing (threads s) - growing (o, pc) + growing (o, pc') →
   tally inside (threads s) - inside (o, pc) + inside (o, pc') = 0) →
  (∀ k, kept k → told_new k (o, pc') = told_new k (o, pc)) →
  pc_ok m' o pc' →
  inv (mkSys m' (<[t := (o, pc')]> (threads s))).
Proof.
  intros Hv Ht Htab Hcur Hn Hheap Hlive Hlen Hlen' Hlock Hgate Hex Hnew Hpc.
  pose proof (λ tb sl H, proj1 (v_tables _ Hv tb sl H)) as Hok.
  pose proof (λ k, linked_names (mem s) m' k Htab Hcur Hn Hok) as Hl.
  assert (Hext : mem_ext (mem s) m').
  { split; [done| |intros k _; apply Hl]. intros tb sl Hsl. exists sl. rewrite Htab. split; [done|apply slots_ext_refl]. }
  destruct (inv_ops_set s t o pc m' pc' Hv Ht) as [Hops Hsmall].
  split; simpl; try done.
  - rewrite Htab, Hcur. by apply v_cur.
  - rewrite Htab. intros tb sl Hsl. split; [|by eapply v_tables]. eapply tbl_ok_ext; [done|by eapply Hok].
  - rewrite Htab. intros tb sl k Hsl Hin Hk. apply Hl. eapply (v_linked _ Hv); [done| |done].
    by apply (in_table_back _ _ _ _ Hn (tk_valid _ _ _ (Hok _ _ Hsl))).
  - rewrite (tally_insert _ _ _ _ _ Ht). rewrite (v_lock _ Hv). lia.
  - rewrite !(tally_insert _ _ _ _ _ Ht). rewrite Hgate, (v_gate _ Hv). lia.
  - rewrite !(tally_insert _ _ _ _ _ Ht). done.
  - rewrite !(tally_insert _ _ _ _ _ Ht), Htab, Hcur. done.
  - intros k Hk. rewrite (tally_insert _ _ _ _ _ Ht), (Hnew k Hk), Hl. pose proof (v_new _ Hv k Hk). split; [lia|].
    replace (tally (told_new k) (threads s) - told_new k (o, pc) + told_new k (o, pc))
      with (tally (told_new k) (threads s)) by lia. tauto.
  - intros t' o' pc'' [(-> & [= <- <-] & _)|(Hne & Ht')]%list_lookup_insert_Some; [done|].
    eapply (pc_ok_stable (mem s)); [done|done|done| |by eapply (v_pc _ Hv)].
    intros Hg. split; [done|]. split; [done|]. destruct Hlen as [?|[Hs|Hs]]; [by left|right..].
    + by eapply (tally_zero storing); [intros x; apply storing_growing| |].
    + exfalso. by eapply (one_grower s t t').
Qed.

(** ** The two steps that change the tables *)

Lemma reserved_zero s : tally inside (threads s) = 0 → tally reserved_by (threads s) = 0.
Proof.
  intros Hi. pose proof (tally_le reserved_by inside (threads s) reserved_inside).
  pose proof (tally_nonneg reserved_by (threads s) (λ x, proj1 (reserved_range x))). lia.
Qed.

Definition stored m (k : bytes) (v i : Z) (sl : Slots) : Mem :=
  set_tables (<[cur m := <[Z.to_nat i := Some (length (heap m))]> sl]> (tables m)) (cur m)
    (set_heap (heap m ++ [mkCell (hash_of k) k true v]) m).

Lemma stored_cur m k v i sl : tables m !! cur m = Some sl →
  tables (stored m k v i sl) !! cur m = Some (<[Z.to_nat i := Some (length (heap m))]> sl).
Proof. intros Hsl. simpl. apply list_lookup_insert_eq. by eapply lookup_lt_Some. Qed.

Lemma stored_in_table m k v i sl : tables m !! cur m = Some sl → sl !! Z.to_nat i = Some None →
  in_table (heap m ++ [mkCell (hash_of k) k true v]) (<[Z.to_nat i := Some (length (heap m))]> sl) k.
Proof.
  intros Hsl Hj. exists (Z.to_nat i), (length (heap m)), (mkCell (hash_of k) k true v).
  split; [apply list_lookup_insert_eq; by eapply lookup_lt_Some|]. split; [by apply list_lookup_middle|done].
Qed.

Lemma stored_linked m k v i sl k' :
  tables m !! cur m = Some sl → sl !! Z.to_nat i = Some None → tbl_ok hash_of (heap m) sl →
  linked (stored m k v i sl) k' ↔ linked m k' ∨ k' = k.
Proof.
  intros Hsl Hj Hok. pose proof (names_ext_app (heap m) (mkCell (hash_of k) k true v)) as Hn. unfold linked.
  change (cur (stored m k v i sl)) with (cur m). rewrite (stored_cur m k v i sl Hsl). split.
  - intros (? & [= <-] & j & p & c & Hp & Hc & <-).
    apply list_lookup_insert_Some in Hp as [(<- & [= <-] & _)|(Hne & Hp)].
    + right. simpl in Hc. rewrite list_lookup_middle in Hc by done. by simplify_eq.
    + left. exists sl. split; [done|]. apply (in_table_back _ _ _ _ Hn (tk_valid _ _ _ Hok)). by exists j, p, c.
  - intros [(? & ? & Hin)| ->]; simplify_eq; eexists; (split; [done|]).
    + eapply in_table_ext; [done|by apply slots_ext_insert|done].
    + by apply stored_in_table.
Qed.

Lemma stored_ext m k v i sl :
  tables m !! cur m = Some sl → sl !! Z.to_nat i = Some None → tbl_ok hash_of (heap m) sl → mem_ext m (stored m k v i sl).
Proof.
  intros Hsl Hj Hok. split; [apply names_ext_app| |intros k' _ Hl; apply stored_linked; auto].
  intros tb sl0 Hsl0. simpl. destruct (decide (tb = cur m)) as [->|Hne].
  - simplify_eq. rewrite list_lookup_insert_eq by (by eapply lookup_lt_Some). eexists.
    split; [done|by apply slots_ext_insert].
  - rewrite list_lookup_insert_ne by done. exists sl0. split; [done|apply slots_ext_refl].
Qed.

Lemma inv_store s t k v i sl d :
  inv s → threads s !! t = Some (OInsert k v, Inserting (ICas i)) →
  tables (mem s) !! cur (mem s) = Some sl → probing hash_of (heap (mem s)) sl k i d → sl !! Z.to_nat i = Some None →
  inv (mkSys (stored (mem s) k v i sl) (<[t := (OInsert k v, Inserting (ILeave true))]> (threads s))).
Proof.
  intros Hv Ht Hsl Hp Hj. destruct (inside_no_grower s t _ Hv Ht ltac:(done)) as [Hg0 Hs0].
  destruct (v_tables _ Hv _ _ Hsl) as [Hok _]. pose proof (λ k', stored_linked _ k v i sl k' Hsl Hj Hok) as Hl.
  pose proof (stored_ext (mem s) k v i sl Hsl Hj Hok) as Hext.
  destruct (v_len _ Hv Hs0 sl Hsl) as [Hlen Hthr].
  assert (Hr : 1 <= tally reserved_by (threads s)) by exact (tally_elem reserved_by _ t _ (λ x, proj1 (reserved_range x)) Ht).
  destruct (inv_ops_set s t (OInsert k v) _ (stored (mem s) k v i sl) (Inserting (ILeave true)) Hv Ht) as [Hops Hsmall].
  assert (Htabs : ∀ tb sl', tables (stored (mem s) k v i sl) !! tb = Some sl' →
    (tb = cur (mem s) ∧ sl' = <[Z.to_nat i := Some (length (heap (mem s)))]> sl) ∨ tables (mem s) !! tb = Some sl').
  { intros tb sl'. simpl. intros [(<- & <- & _)|(_ & ?)]%list_lookup_insert_Some; auto. }
  pose proof (λ tb sl' H, proj1 (v_tables _ Hv tb sl' H)) as Hoks.
  split; simpl; try done.
  - intros p c [[_ Hc]|[_ <-]]%lookup_snoc_Some; [by eapply (v_heap _ Hv)|done].
  - intros p c [[_ Hc]|[_ <-]]%lookup_snoc_Some; [by eapply (v_live _ Hv)|done].
  - pose proof (stored_cur _ k v i sl Hsl) as Hc. simpl in Hc. by rewrite Hc.
  - intros tb sl' [[-> ->]|Hsl']%Htabs.
    + split; [by eapply probing_store|]. rewrite (filled_insert _ _ _ Hj). unfold threshold_of in *. rewrite cap_insert. lia.
    + destruct (v_tables _ Hv _ _ Hsl') as [Hok' Hf']. split; [|done]. eapply tbl_ok_ext; [apply names_ext_app|done].
  - intros tb sl' k' [[-> ->]|Hsl']%Htabs Hin Hk.
    + exists (<[Z.to_nat i := Some (length (heap (mem s)))]> sl). split; [exact (stored_cur (mem s) k v i sl Hsl)|done].
    + apply Hl. left. eapply (v_linked _ Hv); [done| |done].
      exact (in_table_back _ _ _ _ (me_heap _ _ Hext) (tk_valid _ _ _ (Hoks _ _ Hsl')) Hin).
  - rewrite (tally_insert _ _ _ _ _ Ht), (v_lock _ Hv). weights. simpl. lia.
  - rewrite !(tally_insert _ _ _ _ _ Ht), (v_gate _ Hv). weights. simpl. lia.
  - rewrite !(tally_insert _ _ _ _ _ Ht). weights. lia.
  - intros _ sl' Hsl'. pose proof (stored_cur _ k v i sl Hsl) as Hc. simpl in Hc. rewrite Hc in Hsl'. simplify_eq.
    rewrite (filled_insert _ _ _ Hj), (tally_insert _ _ _ _ _ Ht). unfold threshold_of in *. rewrite cap_insert. weights. lia.
  - intros k' Hk. rewrite (tally_insert _ _ _ _ _ Ht), Hl. pose proof (v_new _ Hv k' Hk) as Hnew. simpl.
    destruct (decide (k = k')) as [->|Hne]; [|split; [lia|]].
    + assert (¬ linked (mem s) k') by (intros (? & ? & Hin); simplify_eq; by eapply probing_absent).
      pose proof (tally_nonneg (told_new k') (threads s) (told_nonneg k')).
      assert (tally (told_new k') (threads s) = 0) by (destruct (Z.eq_dec (tally (told_new k') (threads s)) 0); [done|]; destruct H; apply Hnew; lia).
      split; [lia|]. split; [auto|lia].
    + replace (tally (told_new k') (threads s) - 0 + 0) with (tally (told_new k') (threads s)) by lia. naive_solver.
  - intros t' o' pc'' [(<- & [= <- <-] & _)|(Hne & Ht')]%list_lookup_insert_Some.
    + simpl. split; [|by eauto]. intros _. apply Hl. by right.
    + eapply (pc_ok_stable (mem s)); [done|done|done| |by eapply (v_pc _ Hv)].
      intros Hg. pose proof (growing_tally s t' _ Ht'). lia.
Qed.

Lemma inv_table s t o new :
  inv s → threads s !! t = Some (o, Growing (GTable new)) →
  inv (mkSys (set_tables (tables (mem s) ++ [new]) (length (tables (mem s))) (mem s)) (<[t := (o, Growing GGate)]> (threads s))).
Proof.
  intros Hv Ht. set (m' := set_tables _ _ _). pose proof (v_pc _ Hv _ _ _ Ht) as [[Hok Hcount Hroom Hkept] Hop].
  assert (Hcur : tables m' !! cur m' = Some new) by (by apply list_lookup_middle).
  assert (Hl : ∀ k, linked m' k ↔ in_table (heap (mem s)) new k).
  { intros k. unfold linked. rewrite Hcur. split; [intros (? & [= <-] & ?); done|by exists new]. }
  pose proof (growing_tally s t _ Ht) as Hgt. change (1 <= tally growing (threads s)) in Hgt. pose proof (v_excl _ Hv ltac:(lia)) as Hin0.
  pose proof (reserved_zero s Hin0) as Hres0.
  destruct (inv_ops_set s t o _ m' (Growing GGate) Hv Ht) as [Hops Hsmall].
  assert (Htabs : ∀ tb sl, tables m' !! tb = Some sl → tables (mem s) !! tb = Some sl ∨ sl = new).
  { intros tb sl [[_ ?]|[_ ?]]%lookup_snoc_Some; auto. }
  split; try done.
  - exact (v_heap _ Hv).
  - exact (v_live _ Hv).
  - intros tb sl [Hsl| ->]%Htabs; [by apply (v_tables _ Hv tb)|]. split; [done|]. simpl in *. lia.
  - intros tb sl k [Hsl| ->]%Htabs Hin Hk; simpl mem; apply Hl; [|done]. apply Hkept; [done|]. by eapply (v_linked _ Hv).
  - simpl. rewrite (tally_insert _ _ _ _ _ Ht), (v_lock _ Hv). weights. simpl. lia.
  - simpl. rewrite !(tally_insert _ _ _ _ _ Ht), (v_gate _ Hv). weights. simpl. lia.
  - simpl. rewrite !(tally_insert _ _ _ _ _ Ht). weights. lia.
  - simpl mem. rewrite Hcur. intros _ sl [= <-]. simpl. rewrite (tally_insert _ _ _ _ _ Ht). weights. lia.
  - intros k Hk. simpl. rewrite (tally_insert _ _ _ _ _ Ht). fold m'. rewrite Hl, (Hkept k Hk).
    destruct Hop as (k' & v' & ->). simpl. replace (tally (told_new k) (threads s) - 0 + 0) with (tally (told_new k) (threads s)) by lia. by apply v_new.
  - intros t' o' pc'' [(<- & [= <- <-] & _)|(Hne & Ht')]%list_lookup_insert_Some; [done|]. simpl.
    pose proof (inside_tally s t' _ Ht') as Hi'.
    eapply (pc_ok_stable (mem s)); [|by intros tb sl; apply (v_tables _ Hv tb)|lia| |by eapply (v_pc _ Hv)].
    + split; [apply names_ext_refl| |intros k Hk Hlk; apply Hl, Hkept; auto]. intros tb sl Hsl. exists sl.
      split; [simpl; by apply lookup_app_l_Some|apply slots_ext_refl].
    + intros Hg. exfalso. by eapply (one_grower s t t').
Qed.

(** ** Every step keeps the invariant *)

Definition same_weights (x y : Op * Pc) : Prop :=
  inside y = inside x ∧ reserved_by y = reserved_by x ∧ holder y = holder x ∧ growing y = growing x ∧ storing y = storing x.

Lemma inv_same s t o pc m' pc' :
  inv s → threads s !! t = Some (o, pc) →
  tables m' = tables (mem s) → cur m' = cur (mem s) → len m' = len (mem s) →
  gate m' = gate (mem s) → grow_lock m' = grow_lock (mem s) →
  names_ext (heap (mem s)) (heap m') → heap_ok hash_of (heap m') →
  (∀ p c, heap m' !! p = Some c → kept (c_key c) → c_occ c = true) →
  same_weights (o, pc) (o, pc') → (∀ k, kept k → told_new k (o, pc') = told_new k (o, pc)) → pc_ok m' o pc' →
  inv (mkSys m' (<[t := (o, pc')]> (threads s))).
Proof.
  intros Hv Ht Htab Hcur Hlen Hgate Hlock Hn Hh Hlive (Hi & Hr & Hho & Hg & Hs) Htold Hpc.
  apply (inv_quiet s t o pc); try done.
  - by left.
  - rewrite Hs, Hr, Hlen. intros Hs0 sl Hsl. destruct (v_len _ Hv ltac:(lia) sl Hsl). lia.
  - rewrite Hlock. lia.
  - rewrite Hgate. lia.
  - rewrite Hg, Hi. intros Hpos. pose proof (v_excl _ Hv ltac:(lia)). lia.
Qed.

Lemma inv_stay s t o pc pc' :
  inv s → threads s !! t = Some (o, pc) → same_weights (o, pc) (o, pc') →
  (∀ k, kept k → told_new k (o, pc') = told_new k (o, pc)) → pc_ok (mem s) o pc' →
  inv (mkSys (mem s) (<[t := (o, pc')]> (threads s))).
Proof.
  intros Hv Ht Hw Htold Hpc. apply (inv_same s t o pc); try done; [apply names_ext_refl|exact (v_heap _ Hv)|exact (v_live _ Hv)].
Qed.

(** The write of a cell: a kept entry stays occupied. *)
Lemma inv_cell s t o pc m' pc' p occ v :
  inv s → threads s !! t = Some (o, pc) →
  (m' = set_cell p occ v (mem s) ∨ ∃ d, m' = add_count d (set_cell p occ v (mem s))) →
  (∀ c, heap (mem s) !! p = Some c → kept (c_key c) → occ = true) →
  same_weights (o, pc) (o, pc') → (∀ k, kept k → told_new k (o, pc') = told_new k (o, pc)) →
  pc_ok m' o pc' →
  inv (mkSys m' (<[t := (o, pc')]> (threads s))).
Proof.
  intros Hv Ht Hm Hocc Hw Htold Hpc.
  assert (Hh : heap m' = alter (λ c, mkCell (c_hash c) (c_key c) occ v) p (heap (mem s))) by (by destruct Hm as [->|[d ->]]).
  apply (inv_same s t o pc); try done; try (by destruct Hm as [->|[d ->]]); rewrite Hh; [apply names_ext_alter|..]; intros q c.
  - rewrite list_lookup_alter. case_decide as E; [subst q; intros (c0 & Hc & ->)%fmap_Some|intros Hc]; exact (v_heap _ Hv _ _ Hc).
  - rewrite list_lookup_alter.
    case_decide as E; [subst q; intros (c0 & Hc & ->)%fmap_Some|intros Hc]; [simpl; by apply Hocc|exact (v_live _ Hv _ _ Hc)].
Qed.

Lemma linked_cell s m' p occ v k :
  inv s → (m' = set_cell p occ v (mem s) ∨ ∃ d, m' = add_count d (set_cell p occ v (mem s))) → linked (mem s) k → linked m' k.
Proof.
  intros Hv Hm. apply (linked_names (mem s) m' k); [by destruct Hm as [->|[d ->]]..| |].
  - assert (heap m' = alter (λ c, mkCell (c_hash c) (c_key c) occ v) p (heap (mem s))) as -> by (by destruct Hm as [->|[d ->]]).
    apply names_ext_alter.
  - intros tb sl Hsl. by apply (v_tables _ Hv tb).
Qed.

(** Steps on the gate. *)
Lemma inv_gate s t o pc x pc' :
  inv s → threads s !! t = Some (o, pc) →
  x = gate (mem s) - inside (o, pc) + inside (o, pc') + GROWING * (growing (o, pc') - growing (o, pc)) →
  (0 < tally growing (threads s) - growing (o, pc) + growing (o, pc') →
   tally inside (threads s) - inside (o, pc) + inside (o, pc') = 0) →
  reserved_by (o, pc') = reserved_by (o, pc) ∧ holder (o, pc') = holder (o, pc) ∧ storing (o, pc') = storing (o, pc) →
  (∀ k, kept k → told_new k (o, pc') = told_new k (o, pc)) → pc_ok (set_gate x (mem s)) o pc' →
  inv (mkSys (set_gate x (mem s)) (<[t := (o, pc')]> (threads s))).
Proof.
  intros Hv Ht Hx Hex (Hr & Hho & Hs) Htold Hpc.
  apply (inv_quiet s t o pc); try done; [apply names_ext_refl|exact (v_heap _ Hv)|exact (v_live _ Hv)|by left| |simpl; lia].
  rewrite Hs, Hr. intros Hs0 sl Hsl. simpl. destruct (v_len _ Hv ltac:(lia) sl Hsl). lia.
Qed.

Lemma inv_lock s t o pc x pc' :
  inv s → threads s !! t = Some (o, pc) →
  Z.b2z x = Z.b2z (grow_lock (mem s)) - holder (o, pc) + holder (o, pc') →
  inside (o, pc') = inside (o, pc) ∧ reserved_by (o, pc') = reserved_by (o, pc) ∧
  growing (o, pc') = growing (o, pc) ∧ storing (o, pc') = storing (o, pc) →
  (∀ k, kept k → told_new k (o, pc') = told_new k (o, pc)) → pc_ok (set_lock x (mem s)) o pc' →
  inv (mkSys (set_lock x (mem s)) (<[t := (o, pc')]> (threads s))).
Proof.
  intros Hv Ht Hx (Hi & Hr & Hg & Hs) Htold Hpc.
  apply (inv_quiet s t o pc); try done; [apply names_ext_refl|exact (v_heap _ Hv)|exact (v_live _ Hv)|by left| |simpl; lia|].
  - rewrite Hs, Hr. intros Hs0 sl Hsl. simpl. destruct (v_len _ Hv ltac:(lia) sl Hsl). lia.
  - rewrite Hg, Hi. intros Hpos. pose proof (v_excl _ Hv ltac:(lia)). lia.
Qed.

(** Reservations, made and given back inside the gate. *)
Lemma inv_reserve s t o pc x pc' :
  inv s → threads s !! t = Some (o, pc) → inside (o, pc) = 1 → inside (o, pc') = 1 →
  x = len (mem s) - reserved_by (o, pc) + reserved_by (o, pc') →
  (∀ sl, tables (mem s) !! cur (mem s) = Some sl → x <= threshold_of sl) →
  (∀ k, kept k → told_new k (o, pc') = told_new k (o, pc)) → pc_ok (set_len x (mem s)) o pc' →
  inv (mkSys (set_len x (mem s)) (<[t := (o, pc')]> (threads s))).
Proof.
  intros Hv Ht Hi Hi' Hx Hthr Htold Hpc.
  destruct (inside_no_grower s t _ Hv Ht ltac:(lia)) as [Hg0 Hs0].
  assert (Hw : ∀ y, inside y = 1 → growing y = 0 ∧ storing y = 0 ∧ holder y = 0) by (intros y; weigh || (unfold inside, growing, storing, holder; repeat case_match; done)).
  destruct (Hw _ Hi) as (? & ? & ?), (Hw _ Hi') as (? & ? & ?).
  apply (inv_quiet s t o pc); try done; [apply names_ext_refl|exact (v_heap _ Hv)|exact (v_live _ Hv)|by right; left| |simpl; lia..].
  intros _ sl Hsl. simpl. destruct (v_len _ Hv Hs0 sl Hsl). specialize (Hthr sl Hsl). lia.
Qed.

Lemma inv_glen s t o new n :
  inv s → threads s !! t = Some (o, Growing (GLen new n)) →
  inv (mkSys (set_len n (mem s)) (<[t := (o, Growing (GTable new))]> (threads s))).
Proof.
  intros Hv Ht. pose proof (storing_le_growing s) as Hs. pose proof (v_pc _ Hv _ _ _ Ht) as [[Hok Hc Hr Hk] Hop].
  assert (Htold : ∀ k, kept k → told_new k (o, Growing (GTable new)) = told_new k (o, Growing (GLen new n))).
  { by destruct o. }
  apply (inv_quiet s t o (Growing (GLen new n))); try done;
    [apply names_ext_refl|exact (v_heap _ Hv)|exact (v_live _ Hv)|by right; right|..]; weights; simpl; try lia.
  intros Hpos. rewrite (v_excl _ Hv); lia.
Qed.

(** ** Steps of a probe *)

Lemma table_room s tb sl : inv s → tables (mem s) !! tb = Some sl → (filled sl < length sl)%nat.
Proof.
  intros Hv Hsl. destruct (v_tables _ Hv _ _ Hsl) as [Hok Hf].
  pose proof (geometry_threshold _ (tbl_geometry _ _ _ Hok)) as Ht. simpl in Ht. unfold cap in Ht. lia.
Qed.

Lemma probe_inv s t o f m' pc' :
  inv s → threads s !! t = Some (o, Finding f) → find_step hash_of (mem s) o f = Some (m', pc') →
  inv (mkSys m' (<[t := (o, pc')]> (threads s))).
Proof.
  intros Hv Ht Hs. pose proof (v_ops _ Hv _ _ _ Ht) as Hop. pose proof (v_pc _ Hv _ _ _ Ht) as Hpc.
  destruct f as [|tb i]; simpl in Hs.
  - apply bind_Some in Hs as (sl & Hsl & [= <- <-]). eapply inv_stay; [done..|].
    exists sl, O. split; [done|]. apply probing_start. by eapply v_tables.
  - apply bind_Some in Hs as (sl & Hsl & Hs). apply bind_Some in Hs as ([p|] & Hi & Hs).
    + apply bind_Some in Hs as (c & Hc & [= <- <-]). destruct Hpc as (sl' & d & Hsl' & Hp). simplify_eq.
      destruct (v_tables _ Hv _ _ Hsl) as [Hok _]. rewrite (is_key_spec hash_of) by (by eapply v_heap).
      case_bool_decide as Hk.
      * destruct o as [k v|k|k|]; [|by eapply inv_stay| |done]; (eapply inv_stay; [done..|]);
          (split; [by exists c|]; split; [|done]; intros Hkk; apply (v_linked _ Hv tb sl); [done| |done]; by exists (Z.to_nat i), p, c).
      * eapply inv_stay; [done..|]. exists sl, (S d). split; [done|].
        eapply probing_next; [done|by eapply table_room|done..].
    + injection Hs as <- <-. destruct o; (eapply inv_stay; [done..|]); simpl; eauto.
Qed.

Lemma entry_inv s t o e m' pc' :
  inv s → threads s !! t = Some (o, Entered e) → entry_step (mem s) o e = Some (m', pc') →
  inv (mkSys m' (<[t := (o, pc')]> (threads s))).
Proof.
  intros Hv Ht Hs. pose proof (v_ops _ Hv _ _ _ Ht) as Hop. pose proof (v_pc _ Hv _ _ _ Ht) as Hpc.
  destruct e as [p|p|p|p]; simpl in Hs.
  - apply bind_Some in Hs as (c & Hc & [= <- <-]). destruct Hpc as ((c' & Hc' & Hk) & Hl & Hnf). simplify_eq.
    destruct o as [k v|k|k|]; [|by destruct (Hnf k)| |done]; destruct (c_occ c) eqn:Ho; (eapply inv_stay; [done..|]); simpl; simpl in Hk.
    + split; [by exists c|eauto].
    + split; [by exists c|]. split; [|by eauto]. intros Hkk. rewrite (v_live _ Hv _ _ Hc) in Ho; [done|by rewrite Hk].
    + split; [by exists c|eauto].
    + done.
  - apply bind_Some in Hs as (c & Hc & [= <- <-]). destruct Hpc as (_ & Hl & k & v & ->).
    eapply inv_cell; [done|done|by left|..].
    + intros c' Hc' Hk. simplify_eq. by eapply (v_live _ Hv).
    + done.
    + done.
    + simpl. intros Hk. eapply linked_cell; eauto.
  - injection Hs as <- <-. destruct Hpc as (_ & Hnk & k & v & ->). eapply inv_cell; [done|done|by left|done|done| |].
    + intros k' Hk'. simpl. case_decide; [|done]. by subst.
    + simpl. split; [done|eauto].
  - apply bind_Some in Hs as (c & Hc & Hs). destruct Hpc as ((c' & Hc' & Hk) & Hnk & k & ->). simplify_eq.
    destruct (c_occ c); injection Hs as <- <-.
    + eapply inv_cell; [done|done|by eauto| |done..]. intros c' Hc' Hkk. simplify_eq. by rewrite Hk in Hkk.
    + by eapply inv_stay.
Qed.

Lemma gate_open s : inv s → Z.land (gate (mem s)) GROWING = 0 → tally growing (threads s) = 0.
Proof.
  intros Hv Hg. pose proof (growing_le_one s Hv). destruct (Z.eq_dec (tally growing (threads s)) 0) as [?|Hne]; [done|].
  pose proof (v_excl _ Hv ltac:(lia)) as Hi. pose proof (v_gate _ Hv) as Hgate.
  replace (tally growing (threads s)) with 1 in Hgate by lia. rewrite Hi in Hgate. rewrite Hgate in Hg. done.
Qed.

Lemma insert_inv s t o i weak m' pc' :
  inv s → threads s !! t = Some (o, Inserting i) → insert_step hash_of weak (mem s) o i = Some (m', pc') →
  inv (mkSys m' (<[t := (o, pc')]> (threads s))).
Proof.
  intros Hv Ht Hs. pose proof (v_pc _ Hv _ _ _ Ht) as [Hpc (k & v & ->)].
  assert (Hop : ∃ k0 v0, OInsert k v = OInsert k0 v0) by eauto.
  destruct i as [|state| |i r|i|i c|i|p|p|p was|r|]; simpl in Hs, Hpc.
  - destruct (Z.land (gate (mem s)) GROWING =? 0) eqn:Hg; [|done]. injection Hs as <- <-. split_bool. by eapply inv_stay.
  - destruct (weak || negb (gate (mem s) =? state)) eqn:Hg; injection Hs as <- <-; [by eapply inv_stay|].
    apply orb_false_iff in Hg as [_ Hg%negb_false_iff]. split_bool. subst state. pose proof (gate_open s Hv Hpc) as Hg0.
    eapply inv_gate; [done..| | | | |]; weights; try done; lia.
  - apply bind_Some in Hs as (sl & Hsl & [= <- <-]). case_match; (eapply inv_stay; [done..|]); [done|].
    split; [|done]. exists sl, O. split; [done|]. apply probing_start. by eapply v_tables.
  - apply bind_Some in Hs as (sl & Hsl & Hs). apply bind_Some in Hs as ([p|] & Hi & Hs).
    + apply bind_Some in Hs as (c & Hc & [= <- <-]). destruct Hpc as (sl' & d & Hsl' & Hp). assert (sl' = sl) as -> by congruence.
      destruct (v_tables _ Hv _ _ Hsl) as [Hok _]. rewrite (is_key_spec hash_of) by (by eapply v_heap). simpl.
      case_bool_decide as Hk.
      * assert (Hl : linked (mem s) k) by (exists sl; split; [done|]; by exists (Z.to_nat i), p, c).
        assert (He : entry_of (mem s) p k) by (by exists c). destruct r; by eapply inv_stay.
      * assert (Hat : at_slot (mem s) k (next sl i)).
        { exists sl, (S d). split; [done|]. eapply probing_next; [done|by eapply table_room|done..]. }
        destruct r; by eapply inv_stay.
    + injection Hs as <- <-. destruct r; by eapply inv_stay.
  - apply bind_Some in Hs as (sl & Hsl & [= <- <-]). case_match; (eapply inv_stay; [done..|]); [done|]. split_bool.
    split; [|done]. split; [done|]. by exists sl.
  - destruct Hpc as (Hat & sl & Hsl & Hroom).
    destruct (weak || negb (len (mem s) =? c)) eqn:Hg; injection Hs as <- <-; [by eapply inv_stay|].
    apply orb_false_iff in Hg as [_ Hg%negb_false_iff]. split_bool. subst c.
    eapply inv_reserve; [done..| | | |]; weights; [lia| |done|done]. intros sl' Hsl'. assert (sl' = sl) as -> by congruence. lia.
  - apply bind_Some in Hs as (sl & Hsl & Hs). apply bind_Some in Hs as ([p|] & Hi & Hs); injection Hs as <- <-.
    + by eapply inv_stay.
    + destruct Hpc as (sl' & d & Hsl' & Hp). assert (sl' = sl) as -> by congruence. by eapply inv_store.
  - injection Hs as <- <-. eapply inv_reserve; [done..| | | |]; weights; [lia| |done|done]. intros sl Hsl.
    destruct (inside_no_grower s t _ Hv Ht ltac:(done)) as [_ Hs0]. destruct (v_len _ Hv Hs0 sl Hsl). lia.
  - apply bind_Some in Hs as (c & Hc & [= <- <-]). destruct Hpc as [Hl (c' & Hc' & Hk)]. assert (c' = c) as -> by congruence.
    eapply inv_stay; [done..|]. split; [|done]. split; [done|]. split; [by exists c|]. intros Hkk. apply (v_live _ Hv p); [done|by rewrite Hk].
  - injection Hs as <- <-. destruct Hpc as (Hl & He & Hw). eapply inv_cell; [done|done|by left|done|done| |].
    + intros k' Hk'. destruct was; [done|]. simpl. case_decide; [|done]. subst. by specialize (Hw Hk').
    + simpl. split; [|done]. intros _. eapply linked_cell; eauto.
  - destruct (inside_no_grower s t _ Hv Ht ltac:(done)) as [Hg0 _].
    destruct r; injection Hs as <- <-; (eapply inv_gate; [done..| | | | |]; weights; simpl; try done; lia).
  - injection Hs as <- <-. apply (inv_same s t (OInsert k v) (Inserting ICount)); try done;
      [apply names_ext_refl|exact (v_heap _ Hv)|exact (v_live _ Hv)].
Qed.

(** ** Copying *)

Lemma in_table_snoc hp (sl : Slots) (x : option nat) k :
  in_table hp (sl ++ [x]) k ↔ in_table hp sl k ∨ ∃ p c, x = Some p ∧ hp !! p = Some c ∧ c_key c = k.
Proof.
  split.
  - intros (j & p & c & [[_ Hj]|[_ ->]]%lookup_snoc_Some & Hc & Hk); [left; by exists j, p, c|right; by exists p, c].
  - intros [(j & p & c & Hj & Hc & Hk)|(p & c & -> & Hc & Hk)].
    + exists j, p, c. split; [by apply lookup_app_l_Some|done].
    + exists (length sl), p, c. split; [by apply list_lookup_middle|done].
Qed.

Lemma filled_snoc (sl : Slots) (x : option nat) : filled (sl ++ [x]) = (filled sl + (if x is Some _ then 1 else 0))%nat.
Proof. unfold filled. rewrite filter_app, length_app. by destruct x. Qed.

Lemma filled_take j (sl : Slots) : (filled (take j sl) <= filled sl)%nat.
Proof. rewrite <- (take_drop j sl) at 2. unfold filled. rewrite filter_app, length_app. lia. Qed.

Lemma threshold_mono sl sl' : cap sl <= cap sl' → threshold_of sl <= threshold_of sl'.
Proof. intros Hc. unfold threshold_of, LOAD_NUM, LOAD_DEN. apply Z.div_le_mono; lia. Qed.

Lemma copied_skip m j new n sl (x : option nat) :
  copied m j new n sl → sl !! j = Some x → (∀ p c, x = Some p → heap m !! p = Some c → ¬ kept (c_key c)) →
  copied m (S j) new n sl.
Proof.
  intros [Hok Hc Hf Hr Hfrom Hk] Hj Hskip. split; [done|done| |done|..]; rewrite (take_S_r _ _ _ Hj).
  - rewrite filled_snoc. lia.
  - intros k Hin. apply in_table_snoc. auto.
  - intros k Hkk [Hin|(p & c & -> & Hp & <-)]%in_table_snoc; [auto|]. by destruct (Hskip p c eq_refl Hp).
Qed.

Lemma copied_place m j new n sl p c :
  tbl_ok hash_of (heap m) sl → (filled sl < length sl)%nat → c_hash c = hash_of (c_key c) →
  copied m j new n sl → sl !! j = Some (Some p) → heap m !! p = Some c →
  ∃ new', place_ptr new (c_hash c) p = Some new' ∧ copied m (S j) new' (n + 1) sl.
Proof.
  intros Hsl Hroom Hh [Hok Hcount Hf Hr Hfrom Hk] Hj Hc. pose proof (filled_take j sl) as Hft.
  assert (Hno : ¬ in_table (heap m) new (c_key c)).
  { intros (j' & q & c' & [Hj' Hlt]%lookup_take_Some & Hq & Hkq)%Hfrom.
    assert (j' = j) by (eapply (tw_keys _ _ (tk_wf _ _ _ Hsl)); [by eapply shape_some|by eapply shape_some|done]). lia. }
  destruct (place_ptr_spec hash_of (heap m) new p c) as (i & Hi & Hpl & Hok'); [done| |done..|].
  { unfold cap in Hr. lia. }
  exists (<[i := Some p]> new). split; [done|].
  assert (Hin : ∀ k, in_table (heap m) (<[i := Some p]> new) k ↔ in_table (heap m) new k ∨ c_key c = k).
  { intros k. split.
    - intros (i' & q & cq & [(-> & [= ->] & _)|(_ & Hq)]%list_lookup_insert_Some & Hcq & Hkq); [right; congruence|left; by exists i', q, cq].
    - intros [?|Hkc]; [eapply in_table_ext; [apply names_ext_refl|by apply slots_ext_insert|done]|].
      exists i, p, c. split; [apply list_lookup_insert_eq; by eapply lookup_lt_Some|done]. }
  split; rewrite ?(take_S_r _ _ _ Hj), ?cap_insert; [done| | |done|..].
  - rewrite (filled_insert _ _ _ Hi). lia.
  - rewrite (filled_insert _ _ _ Hi), filled_snoc. lia.
  - intros k. rewrite Hin, in_table_snoc. intros [?|?]; [auto|right; by exists p, c].
  - intros k Hkk. rewrite Hin, in_table_snoc. intros [?|(q & cq & [= <-] & Hcq & Hkq)]; [auto|right; congruence].
Qed.

Lemma copied_all m j new n sl :
  tables m !! cur m = Some sl → tbl_ok hash_of (heap m) sl → Z.of_nat (filled sl) <= threshold_of sl →
  copied m j new n sl → sl !! j = None → complete m new n.
Proof.
  intros Hsl Hok Hthr [Hn Hcount Hf Hr Hfrom Hk] Hj%lookup_ge_None. rewrite take_ge in * by done.
  split; [done|done| |]. { pose proof (threshold_mono sl new Hr). lia. }
  intros k Hkk. split; [intros Hin; exists sl; auto|]. intros (? & ? & Hin). simplify_eq. auto.
Qed.

Lemma copy_inv s t o j new n weak m' pc' :
  inv s → threads s !! t = Some (o, Growing (GCopy j new n)) → o ≠ OCompact →
  grow_step weak (mem s) o (GCopy j new n) = Some (m', pc') →
  inv (mkSys m' (<[t := (o, pc')]> (threads s))).
Proof.
  intros Hv Ht Hno Hs. pose proof (v_pc _ Hv _ _ _ Ht) as [(sl & Hsl & Hcp) Hop]. simpl in Hs. rewrite Hsl in Hs. simpl in Hs.
  destruct (v_tables _ Hv _ _ Hsl) as [Hok Hthr].
  assert (Htold : ∀ g k, told_new k (o, Growing g) = 0) by (intros g k; by destruct o).
  destruct (sl !! j) as [[p|]|] eqn:Hj.
  - apply bind_Some in Hs as (c & Hc & Hs). destruct (c_occ c) eqn:Ho.
    + destruct (copied_place (mem s) j new n sl p c Hok) as (new' & Hpl & Hcp'); [by eapply table_room|by eapply v_heap|done..|].
      rewrite Hpl in Hs. simpl in Hs. injection Hs as <- <-.
      eapply inv_stay; [done|done|done|intros k _; by rewrite !Htold|]. split; [|done]. exists sl. split; [done|]. by destruct o.
    + injection Hs as <- <-. eapply inv_stay; [done|done|done|intros k _; by rewrite !Htold|]. split; [|done].
      exists sl. split; [done|]. eapply copied_skip; [done|done|]. intros q cq [= <-] Hcq Hk. simplify_eq.
      by rewrite (v_live _ Hv _ _ Hc Hk) in Ho.
  - injection Hs as <- <-. eapply inv_stay; [done|done|done|intros k _; by rewrite !Htold|]. split; [|done].
    exists sl. split; [done|]. by eapply copied_skip.
  - injection Hs as <- <-. eapply inv_stay; [done|done|done|intros k _; by rewrite !Htold|]. split; [|done].
    by eapply copied_all.
Qed.

Lemma grow_inv s t o g weak m' pc' :
  inv s → threads s !! t = Some (o, Growing g) → grow_step weak (mem s) o g = Some (m', pc') →
  inv (mkSys m' (<[t := (o, pc')]> (threads s))).
Proof.
  intros Hv Ht Hs. pose proof (v_pc _ Hv _ _ _ Ht) as [Hpc (k & v & ->)].
  assert (Hop : ∃ k0 v0, OInsert k v = OInsert k0 v0) by eauto.
  assert (Hg1 : growing (OInsert k v, Growing g) <= tally growing (threads s)) by exact (growing_tally s t _ Ht).
  destruct g as [| | | |j n|j new n|new n|new| |]; simpl in Hs, Hpc.
  - injection Hs as <- <-. destruct (inside_no_grower s t _ Hv Ht ltac:(done)) as [Hg0 _].
    eapply inv_gate; [done..| | | | |]; weights; try change GROWING with 9223372036854775808; try done; lia.
  - destruct (grow_lock (mem s)) eqn:Hlock; [done|]. injection Hs as <- <-. eapply inv_lock; [done|done|rewrite Hlock; done|done..].
  - destruct (weak || negb (gate (mem s) =? 0)) eqn:Hg; [done|]. injection Hs as <- <-.
    apply orb_false_iff in Hg as [_ Hg%negb_false_iff]. split_bool. pose proof (v_gate _ Hv) as Hgate.
    pose proof (growing_le_one s Hv). pose proof (tally_nonneg inside (threads s) (λ x, proj1 (inside_range x))).
    change GROWING with 9223372036854775808 in *.
    assert (tally inside (threads s) = 0) by lia. assert (tally growing (threads s) = 0) by lia.
    eapply inv_gate; [done..| | | | |]; weights; try change GROWING with 9223372036854775808; try done; lia.
  - apply bind_Some in Hs as (sl & Hsl & [= <- <-]). case_match; (eapply inv_stay; [done..|]); [done|]. split; [|done].
    exists sl. split; [done|]. set (c := next_power_of_two (cap sl * 2)).
    split; [apply new_slots_ok|by rewrite filled_new|rewrite filled_new; lia| |..].
    + unfold cap at 2, new_slots. rewrite length_replicate. pose proof (next_power_of_two_ge c).
      pose proof (next_power_of_two_ge (cap sl * 2)). unfold c, cap in *. lia.
    + intros k' (j & p & c' & Hj & _). unfold new_slots in Hj. by apply lookup_replicate_1 in Hj as [? _].
    + intros k' _ (j & p & c' & Hj & _). done.
  - done.
  - by apply (copy_inv s t _ j new n weak).
  - injection Hs as <- <-. by apply inv_glen.
  - injection Hs as <- <-. by apply inv_table.
  - injection Hs as <- <-. change (1 <= tally growing (threads s)) in Hg1. pose proof (growing_le_one s Hv).
    pose proof (v_gate _ Hv) as Hgate. pose proof (v_excl _ Hv ltac:(lia)) as Hi.
    change GROWING with 9223372036854775808 in *. eapply inv_gate; [done..| | | | |]; weights; try change GROWING with 9223372036854775808; try done; lia.
  - injection Hs as <- <-. eapply inv_lock; [done|done| |done..].
    pose proof (tally_elem holder _ t _ (λ x, proj1 (holder_range x)) Ht) as Hh. rewrite (v_lock _ Hv) in Hh.
    revert Hh. weights. destruct (grow_lock (mem s)); simpl; lia.
Qed.

Lemma step_inv s tw : inv s → inv (sys_step hash_of s tw).
Proof.
  intros Hv. destruct tw as [t weak]. unfold sys_step. simpl. destruct (threads s !! t) as [[o pc]|] eqn:Ht; [|done].
  destruct (step hash_of weak (mem s) o pc) as [[m' pc']|] eqn:Hs; [|done].
  destruct pc as [f|e|i|g|r]; simpl in Hs;
    [by eapply probe_inv|by eapply entry_inv|by eapply insert_inv|by eapply grow_inv|done].
Qed.

Lemma run_inv sched s : inv s → inv (run hash_of sched s).
Proof. revert s. induction sched as [|tw sched IH]; intros s Hv; [done|]. simpl. by apply IH, step_inv. Qed.

Lemma initial_inv c ops : Forall op_ok ops → Z.of_nat (length ops) < GROWING → inv (initial c ops).
Proof.
  intros Hops Hsmall.
  assert (Hth : ∀ t o pc, (start <$> ops) !! t = Some (o, pc) → o ∈ ops ∧ start o = (o, pc)).
  { intros t o pc. rewrite list_lookup_fmap. intros (o' & Ho' & Hs)%fmap_Some.
    unfold start in Hs. simplify_eq. split; [by eapply list_elem_of_lookup_2|done]. }
  assert (Hpc : ∀ t o pc, (start <$> ops) !! t = Some (o, pc) → pc = Finding FLoad).
  { intros t o pc [Hin Hs]%Hth. rewrite Forall_forall in Hops. specialize (Hops o Hin). unfold start in Hs. injection Hs as <-. by destruct o. }
  assert (Hzero : ∀ f : Op * Pc → Z, (∀ o, f (o, Finding FLoad) = 0) → tally f (start <$> ops) = 0).
  { intros f Hf. apply tally_all_zero. intros [o pc] (t & Ht)%list_elem_of_lookup_1. by rewrite (Hpc t o pc Ht). }
  assert (Hno : ∀ k, ¬ linked (shard_new c) k).
  { intros k (sl & [= <-] & j & p & c' & Hj & _). unfold new_slots in Hj. by apply lookup_replicate_1 in Hj as [? _]. }
  assert (Hroom : 0 <= threshold_of (new_slots c)).
  { unfold threshold_of, LOAD_NUM, LOAD_DEN, cap. apply Z.div_pos; lia. }
  split; simpl.
  - intros t o pc [Hin _]%Hth. by rewrite Forall_forall in Hops; apply Hops.
  - by rewrite length_fmap.
  - done.
  - done.
  - by eexists.
  - intros [|tb] sl Hsl; simplify_eq/=. split; [apply new_slots_ok|]. by rewrite filled_new.
  - intros [|tb] sl k Hsl Hin; simplify_eq/=. destruct Hin as (j & p & c' & _ & Hp & _). done.
  - by apply Hzero.
  - rewrite !Hzero; [done|by intros..].
  - intros _. by apply Hzero.
  - intros _ sl [= <-]. rewrite filled_new, Hzero by done. simpl. lia.
  - intros k _. rewrite Hzero by (by intros []). split; [lia|]. split; [lia|]. intros Hl. by destruct (Hno k Hl).
  - intros t o pc Ht. by rewrite (Hpc t o pc Ht).
Qed.
End Invariant.

(** ** What is in the table *)

Lemma elem_of_contents m k v :
  (k, v) ∈ contents m ↔ ∃ sl j p c, tables m !! cur m = Some sl ∧ sl !! j = Some (Some p) ∧ heap m !! p = Some c ∧
    c_occ c = true ∧ c_key c = k ∧ c_val c = v.
Proof.
  unfold contents. destruct (tables m !! cur m) as [sl|]; [|split; [by intros ?%elem_of_nil|by intros (? & ? & ? & ? & ? & _)]].
  rewrite list_elem_of_omap. split.
  - intros ([p|] & (j & Hj)%list_elem_of_lookup_1 & Hx); simpl in Hx; [|done].
    destruct (heap m !! p) as [c|] eqn:Hc; simpl in Hx; [|done]. destruct (c_occ c) eqn:Ho; simplify_eq. eauto 12.
  - intros (? & j & p & c & [= <-] & Hj & Hc & Ho & <- & <-). exists (Some p). split; [by eapply list_elem_of_lookup_2|].
    simpl. rewrite Hc. simpl. by rewrite Ho.
Qed.

Section Outcome.
Context (hash_of : bytes → Z) (kept : bytes → Prop).

Lemma contents_NoDup s : inv hash_of kept s → NoDup (contents (mem s)).*1.
Proof.
  intros Hv. unfold contents. destruct (v_cur _ _ _ Hv) as [sl Hsl]. rewrite Hsl.
  destruct (v_tables _ _ _ Hv _ _ Hsl) as [[Hw _] _]. pose proof (tw_keys _ _ Hw) as Hd. clear Hw Hsl.
  assert (Hk : ∀ i j p q c c', sl !! i = Some (Some p) → sl !! j = Some (Some q) →
    heap (mem s) !! p = Some c → heap (mem s) !! q = Some c' → c_key c = c_key c' → i = j).
  { intros i j p q c c' Hi Hj Hp Hq He. eapply Hd; [by eapply shape_some|by eapply shape_some|done]. }
  clear Hd. induction sl as [|o sl IH]; [constructor|]. simpl.
  assert (Htail : NoDup (omap (λ o, p ← o; c ← heap (mem s) !! p; if c_occ c then Some (c_key c, c_val c) else None) sl).*1).
  { apply IH. intros i j p q c c' Hi Hj Hp Hq He. specialize (Hk (S i) (S j) p q c c' Hi Hj Hp Hq He). lia. }
  destruct o as [p|]; simpl; [|done]. destruct (heap (mem s) !! p) as [c|] eqn:Hc; simpl; [|done].
  destruct (c_occ c); [|done]. simpl. constructor; [|done].
  intros ([k v] & Hkey & ([q|] & (j & Hj)%list_elem_of_lookup_1 & Hx)%list_elem_of_omap)%list_elem_of_fmap; simpl in *; [|done].
  destruct (heap (mem s) !! q) as [c'|] eqn:Hq; simpl in Hx; [|done]. destruct (c_occ c'); [|done].
  injection Hx as <- <-. specialize (Hk O (S j) p q c c' eq_refl Hj Hc Hq Hkey). lia.
Qed.

Lemma kept_present s k : inv hash_of kept s → kept k → linked (mem s) k ↔ ∃ v, (k, v) ∈ contents (mem s).
Proof.
  intros Hv Hk. split.
  - intros (sl & Hsl & j & p & c & Hj & Hc & <-). exists (c_val c). apply elem_of_contents.
    exists sl, j, p, c. split; [done|]. split; [done|]. split; [done|]. split; [by eapply (v_live _ _ _ Hv)|done].
  - intros (v & (sl & j & p & c & Hsl & Hj & Hc & _ & Hkey & _)%elem_of_contents). exists sl. split; [done|]. by exists j, p, c.
Qed.

Lemma told_new_unique s k t t' v v' : inv hash_of kept s → kept k →
  threads s !! t = Some (OInsert k v, Done (RBool true)) → threads s !! t' = Some (OInsert k v', Done (RBool true)) → t = t'.
Proof.
  intros Hv Hk Ht Ht'. destruct (decide (t = t')) as [?|Hne]; [done|].
  pose proof (tally_two (told_new k) _ t t' _ _ (told_nonneg k) Hne Ht Ht') as Htwo. simpl in Htwo.
  rewrite decide_True in Htwo by done. destruct (v_new _ _ _ Hv k Hk). lia.
Qed.

Lemma told_new_exists s k t v : inv hash_of kept s → kept k →
  (∀ t' v' pc, threads s !! t' = Some (OInsert k v', pc) → ∃ r, pc = Done r) →
  threads s !! t = Some (OInsert k v, Done (RBool true)) ∨ linked (mem s) k →
  ∃ t' v', threads s !! t' = Some (OInsert k v', Done (RBool true)).
Proof.
  intros Hv Hk Hdone [Ht|Hl]; [eauto|]. apply (v_new _ _ _ Hv k Hk) in Hl.
  destruct (tally_pos _ _ (told_nonneg k) Hl) as (t' & [o pc] & Ht' & Hpos). unfold told_new in Hpos.
  destruct o as [k' v'|?|?|]; [|lia..]. assert (k' = k) as -> by (repeat case_match; congruence || lia).
  destruct (Hdone _ _ _ Ht') as [r ->]. exists t', v'. destruct r as [[]|?|]; [done|lia..].
Qed.

(** ** Values *)

Definition written s : Prop :=
  ∀ p c, heap (mem s) !! p = Some c → OInsert (c_key c) (c_val c) ∈ (threads s).*1.

Lemma threads_ops s t o pc pc' : threads s !! t = Some (o, pc) → (<[t := (o, pc')]> (threads s)).*1 = (threads s).*1.
Proof. intros Ht. rewrite list_fmap_insert. simpl. apply list_insert_id. by rewrite list_lookup_fmap, Ht. Qed.

Lemma written_cell s p occ v : written s →
  (∀ c, heap (mem s) !! p = Some c → OInsert (c_key c) v ∈ (threads s).*1) →
  ∀ q c, heap (set_cell p occ v (mem s)) !! q = Some c → OInsert (c_key c) (c_val c) ∈ (threads s).*1.
Proof.
  intros Hw Hp q c. simpl. rewrite list_lookup_alter. case_decide as E; [subst q|by apply Hw].
  intros (c0 & Hc0 & ->)%fmap_Some. simpl. by apply Hp.
Qed.

Lemma grow_heap weak m o g m' pc' : grow_step weak m o g = Some (m', pc') → heap m' = heap m.
Proof.
  destruct g; simpl; intros Hs; repeat (match goal with
    | H : mbind _ _ = Some _ |- _ => apply bind_Some in H as (? & ? & H)
    | H : match ?x with _ => _ end = Some _ |- _ => destruct x
    end); by simplify_eq.
Qed.

Lemma written_step s tw : inv hash_of kept s → written s → written (sys_step hash_of s tw).
Proof.
  intros Hv Hw. destruct tw as [t weak]. unfold sys_step. simpl. destruct (threads s !! t) as [[o pc]|] eqn:Ht; [|done].
  destruct (step hash_of weak (mem s) o pc) as [[m' pc']|] eqn:Hs; [|done].
  pose proof (v_pc _ _ _ Hv _ _ _ Ht) as Hpc. unfold written. simpl. rewrite (threads_ops _ _ _ _ _ Ht).
  assert (Hin : o ∈ (threads s).*1) by (apply list_elem_of_fmap; exists (o, pc); split; [done|by eapply list_elem_of_lookup_2]).
  destruct pc as [f|e|i|g|r]; simpl in Hs; [| | | |done].
  - assert (m' = mem s) as -> by (destruct f; simpl in Hs; simplify_option_eq; repeat case_match; simplify_option_eq; done). exact Hw.
  - destruct e as [p|p|p|p]; simpl in Hs, Hpc; [by simplify_option_eq| | |].
    + apply bind_Some in Hs as (c & Hc & [= <- <-]). destruct Hpc as ((c' & Hc' & Hk) & _ & k & v & ->).
      apply written_cell; [done|]. intros c0 Hc0. simplify_eq/=. done.
    + injection Hs as <- <-. destruct Hpc as ((c' & Hc' & Hk) & _ & k & v & ->).
      apply written_cell; [done|]. intros c0 Hc0. simplify_eq/=. done.
    + apply bind_Some in Hs as (c & Hc & Hs). destruct (c_occ c); injection Hs as <- <-; [|exact Hw].
      apply (written_cell s p false (c_val c) Hw). intros c0 Hc0. simplify_eq. by apply (Hw p).
  - destruct Hpc as [Hpc (k & v & ->)].
    destruct i; simpl in Hs; try (assert (heap m' = heap (mem s)) as -> by (repeat case_match; simplify_option_eq; repeat case_match; simplify_option_eq; done); exact Hw).
    + apply bind_Some in Hs as (sl & Hsl & Hs). apply bind_Some in Hs as ([p|] & Hi & Hs); injection Hs as <- <-; [exact Hw|].
      intros p c. simpl. intros [[_ Hc]|[_ <-]]%lookup_snoc_Some; [by apply (Hw p)|done].
    + injection Hs as <- <-. destruct Hpc as (_ & (c' & Hc' & Hk) & _). apply written_cell; [done|].
      intros c0 Hc0. simplify_eq/=. done.
  - assert (heap m' = heap (mem s)) as ->; [|exact Hw]. by eapply grow_heap.
Qed.

Lemma written_run sched s : inv hash_of kept s → written s → written (run hash_of sched s).
Proof.
  revert s. induction sched as [|tw sched IH]; intros s Hv Hw; [done|]. simpl. apply IH; [by apply step_inv|by apply written_step].
Qed.
End Outcome.

Lemma run_ops hash_of sched s : (threads (run hash_of sched s)).*1 = (threads s).*1.
Proof.
  revert s. induction sched as [|[t w] sched IH]; intros s; [done|]. simpl. rewrite IH. unfold sys_step. simpl.
  destruct (threads s !! t) as [[o pc]|] eqn:Ht; [|done]. destruct (step hash_of w (mem s) o pc) as [[m' pc']|]; [|done].
  simpl. by eapply threads_ops.
Qed.

Lemma initial_ops c ops : (threads (initial c ops)).*1 = ops.
Proof. simpl. rewrite <- list_fmap_compose. by apply list_fmap_id. Qed.

(** Keys that are not removed are kept, in a run without compaction. *)
Lemma reachable_inv hash_of c ops sched :
  Z.of_nat (length ops) < GROWING → OCompact ∉ ops →
  inv hash_of (λ k, ORemove k ∉ ops) (run hash_of sched (initial c ops)).
Proof.
  intros Hsmall Hno. apply run_inv, initial_inv; [|done]. apply Forall_forall. intros o Hin.
  destruct o; simpl; [done..|set_solver|done].
Qed.

(** ** Claims *)

(** C4: In any interleaving of insertions, lookups and removals on a shard that grows
    under them: each key has at most one live entry, whose value some insertion of the
    key gave; the table has a null slot, so probes end; nobody is inside the gate while
    a thread grows; and for a key that nobody removes, every insertion that has
    returned finds it in the table, no two insertions are told that it was new, and one
    is when all have returned. *)
Theorem insert_contended hash_of c ops sched :
  Z.of_nat (length ops) < GROWING → OCompact ∉ ops →
  let s := run hash_of sched (initial c ops) in
  NoDup (contents (mem s)).*1 ∧
  (∀ k v, (k, v) ∈ contents (mem s) → OInsert k v ∈ ops) ∧
  (∃ sl, tables (mem s) !! cur (mem s) = Some sl ∧ (filled sl < length sl)%nat) ∧
  (∀ t t' x y, threads s !! t = Some x → threads s !! t' = Some y → growing x = 1 → inside y = 0) ∧
  ∀ k, ORemove k ∉ ops →
    (∀ t v r, threads s !! t = Some (OInsert k v, Done r) → ∃ v', (k, v') ∈ contents (mem s)) ∧
    (∀ t t' v v', threads s !! t = Some (OInsert k v, Done (RBool true)) →
       threads s !! t' = Some (OInsert k v', Done (RBool true)) → t = t') ∧
    ((∀ t v pc, threads s !! t = Some (OInsert k v, pc) → ∃ r, pc = Done r) → ∀ t v r,
       threads s !! t = Some (OInsert k v, Done r) → ∃ t' v', threads s !! t' = Some (OInsert k v', Done (RBool true))).
Proof.
  intros Hsmall Hno s. pose proof (reachable_inv hash_of c ops sched Hsmall Hno) as Hv. fold s in Hv.
  split; [by eapply contents_NoDup|]. split; [|split; [|split]].
  - intros k v (sl & j & p & cl & _ & _ & Hp & _ & <- & <-)%elem_of_contents.
    rewrite <- (initial_ops c ops), <- (run_ops hash_of sched). eapply (written_run hash_of); [|by intros ? ?|exact Hp].
    exact (reachable_inv hash_of c ops [] Hsmall Hno).
  - destruct (v_cur _ _ _ Hv) as [sl Hsl]. exists sl. split; [done|]. by eapply table_room.
  - intros t t' x y Hx Hy Hg. pose proof (growing_tally s t x Hx). pose proof (inside_tally s t' y Hy).
    pose proof (inside_range y). pose proof (v_excl _ _ _ Hv ltac:(lia)). lia.
  - intros k Hk. assert (Hl : ∀ t v r, threads s !! t = Some (OInsert k v, Done r) → linked (mem s) k).
    { intros t v r Ht. pose proof (v_pc _ _ _ Hv _ _ _ Ht) as Hpc. by apply Hpc. }
    split; [|split].
    + intros t v r Ht. apply (kept_present hash_of _ s k Hv Hk). by eapply Hl.
    + intros t t' v v'. by eapply told_new_unique.
    + intros Hdone t v r Ht. eapply (told_new_exists hash_of _ s k t v Hv Hk Hdone). right. by eapply Hl.
Qed.
