(* ===== verification/GateClaims.v ===== *)
(** Readers without locks, progress, and the two races of a growing shard. *)

From S2P Require Import Prelude Shard ShardSpec Gate GateSpec.
Local Open Scope Z_scope.

(** ** Readers *)

(** Memory only grows: names stay, and a table keeps its entries. *)
Definition mem_grows (m m' : Mem) : Prop :=
  names_ext (heap m) (heap m') ∧
  ∀ tb sl, tables m !! tb = Some sl → ∃ sl', tables m' !! tb = Some sl' ∧ slots_ext sl sl'.

Lemma same_tables_grow m m' : names_ext (heap m) (heap m') → tables m' = tables m → mem_grows m m'.
Proof. intros Hn Ht. split; [done|]. intros tb sl Hsl. exists sl. rewrite Ht. split; [done|apply slots_ext_refl]. Qed.

Lemma grow_step_grows weak m o g m' pc' : grow_step weak m o g = Some (m', pc') → mem_grows m m'.
Proof.
  intros Hs. pose proof (grow_heap _ _ _ _ _ _ Hs) as Hh. split; [rewrite Hh; apply names_ext_refl|].
  intros tb sl Hsl. assert (Ht : tables m' = tables m ∨ ∃ new, tables m' = tables m ++ [new]).
  { destruct g; simpl in Hs; repeat (match goal with
    | H : mbind _ _ = Some _ |- _ => apply bind_Some in H as (? & ? & H)
    | H : match ?x with _ => _ end = Some _ |- _ => destruct x
    end); simplify_eq; eauto. }
  exists sl. split; [|apply slots_ext_refl]. destruct Ht as [->|[new ->]]; [done|by apply lookup_app_l_Some].
Qed.

Lemma step_grows hash_of weak m o pc m' pc' : step hash_of weak m o pc = Some (m', pc') → mem_grows m m'.
Proof.
  destruct pc as [f|e|i|g|r]; simpl; intros Hs; [| | |by eapply grow_step_grows|done].
  - assert (m' = m) as ->; [|apply same_tables_grow; [apply names_ext_refl|done]].
    destruct f; simpl in Hs; repeat (apply bind_Some in Hs as (? & ? & Hs)); [by simplify_eq|].
    case_match; [apply bind_Some in Hs as (? & ? & Hs)|]; by simplify_eq.
  - destruct e; simpl in Hs; [apply bind_Some in Hs as (c & _ & [= <- <-]); apply same_tables_grow; [apply names_ext_refl|done]|..].
    + apply bind_Some in Hs as (c & _ & [= <- <-]). apply same_tables_grow; [apply names_ext_alter|done].
    + injection Hs as <- <-. apply same_tables_grow; [apply names_ext_alter|done].
    + apply bind_Some in Hs as (c & _ & Hs). destruct (c_occ c); injection Hs as <- <-;
        (apply same_tables_grow; [|done]); [apply names_ext_alter|apply names_ext_refl].
  - assert (Hsame : ∀ m', heap m' = heap m → tables m' = tables m → mem_grows m m').
    { intros m1 Hh Ht. apply same_tables_grow; [rewrite Hh; apply names_ext_refl|done]. }
    destruct i as [|state| |i r|i|i c|i|p|p|p was|r|]; simpl in Hs; try (apply bind_Some in Hs as (sl & Hsl & Hs)).
    all: try (repeat (first [apply bind_Some in Hs as (? & ? & Hs)|case_match]); simplify_eq; by apply Hsame).
    2: { injection Hs as <- <-. apply same_tables_grow; [apply names_ext_alter|done]. }
    apply bind_Some in Hs as ([p|] & Hi & Hs); injection Hs as <- <-.
    + apply same_tables_grow; [apply names_ext_refl|done].
    + split; [apply names_ext_app|]. intros tb sl0 Hsl0. simpl. destruct (decide (tb = cur m)) as [->|Hne].
      * simplify_eq. rewrite list_lookup_insert_eq by (by eapply lookup_lt_Some). eexists. split; [done|by apply slots_ext_insert].
      * rewrite list_lookup_insert_ne by done. exists sl0. split; [done|apply slots_ext_refl].
Qed.

Section Readers.
Context (hash_of : bytes → Z) (kept : bytes → Prop).

(** Thread [t] looks for [k] and has at most [n] slots to go, or has its answer,
    which is an entry of [k] or none; when [must] holds the entry is among the
    slots to go, or is the answer. *)
Definition on_the_way (must : Prop) (t : nat) (k : bytes) (s : Sys) (n : nat) : Prop :=
  (∃ tb i sl d, threads s !! t = Some (OFind k, Finding (FProbe tb i)) ∧ tables (mem s) !! tb = Some sl ∧
     probing hash_of (heap (mem s)) sl k i d ∧ (must → in_table (heap (mem s)) sl k) ∧
     cap sl - Z.of_nat d <= Z.of_nat n) ∨
  (∃ r, threads s !! t = Some (OFind k, Done (RFound r)) ∧ (must → is_Some r) ∧
     ∀ p, r = Some p → entry_of (mem s) p k).

Lemma on_the_way_other must t k s s' n :
  threads s' !! t = threads s !! t → mem_grows (mem s) (mem s') →
  on_the_way must t k s n → on_the_way must t k s' n.
Proof.
  intros Ht [Hn Hsl] [(tb & i & sl & d & Hpc & Htb & Hp & Hin & Hle)|(r & Hpc & Hm & He)].
  - left. destruct (Hsl _ _ Htb) as (sl' & Htb' & Hs). exists tb, i, sl', d. rewrite Ht. split; [done|]. split; [done|].
    split; [by eapply probing_ext|]. split; [intros; eapply in_table_ext; eauto|]. destruct Hs as [Hl _]. unfold cap in *. by rewrite Hl.
  - right. exists r. rewrite Ht. split; [done|]. split; [done|]. intros p Hr. eapply entry_of_ext; eauto.
Qed.

Lemma on_the_way_self must t k s n w :
  inv hash_of kept s → on_the_way must t k s (S n) → on_the_way must t k (sys_step hash_of s (t, w)) n.
Proof.
  intros Hv [(tb & i & sl & d & Hpc & Htb & Hp & Hin & Hle)|(r & Hpc & He)]; unfold sys_step; simpl; rewrite Hpc.
  - assert (Hlt : (t < length (threads s))%nat) by (by eapply lookup_lt_Some).
    destruct (v_tables _ _ _ Hv _ _ Htb) as [Hok _]. simpl. rewrite Htb. simpl.
    destruct (probing_slot hash_of _ _ _ _ _ Hok Hp) as [[p|] Hi]; rewrite Hi; simpl.
    2: { right. exists None. simpl. rewrite list_lookup_insert_eq by done. split; [done|]. split; [|done].
         intros Hm. by destruct (probing_absent hash_of _ _ _ _ _ Hok Hp Hi (Hin Hm)). }
    destruct (tk_valid _ _ _ Hok _ _ Hi) as [c Hc]. rewrite Hc. simpl.
    rewrite (is_key_spec hash_of) by (by eapply v_heap).
    case_bool_decide as Hk; [right|left].
    + exists (Some p). simpl. rewrite list_lookup_insert_eq by done. split; [done|]. split; [by eexists|].
      intros p' [= <-]. by exists c.
    + exists tb, (next sl i), sl, (S d). simpl. rewrite list_lookup_insert_eq by done. split; [done|]. split; [done|].
      split; [|split; [done|lia]]. eapply probing_next; [done|by eapply table_room|done..].
  - simpl. right. by exists r.
Qed.

Lemma on_the_way_run must t k sched s n :
  inv hash_of kept s → on_the_way must t k s n → (n <= length (filter (λ tw, tw.1 = t) sched))%nat →
  ∃ r, threads (run hash_of sched s) !! t = Some (OFind k, Done (RFound r)) ∧ (must → is_Some r) ∧
    ∀ p, r = Some p → entry_of (mem (run hash_of sched s)) p k.
Proof.
  revert s n. induction sched as [|[t' w] sched IH]; intros s n Hv Hw Hn; simpl.
  - destruct Hw as [(tb & i & sl & d & _ & _ & Hp & _ & Hle)|Hw]; [|done]. pose proof (pb_bound _ _ _ _ _ _ Hp). simpl in Hn. lia.
  - pose proof (step_inv hash_of kept s (t', w) Hv) as Hv'. rewrite filter_cons in Hn. simpl in Hn. case_decide as Ht.
    + subst t'. destruct n as [|n].
      * apply (IH _ O); [done| |lia]. apply on_the_way_self; [done|].
        destruct Hw as [(tb & i & sl & d & _ & _ & Hp & _ & Hle)|Hw]; [|by right].
        pose proof (pb_bound _ _ _ _ _ _ Hp). lia.
      * apply (IH _ n); [done|by apply on_the_way_self|simpl in Hn; lia].
    + apply (IH _ n); [done| |done]. eapply on_the_way_other; [..|exact Hw].
      * unfold sys_step. simpl. repeat case_match; simpl; [by rewrite list_lookup_insert_ne|done..].
      * unfold sys_step. simpl. destruct (threads s !! t') as [[o pc]|]; [|apply same_tables_grow; [apply names_ext_refl|done]].
        destruct (step hash_of w (mem s) o pc) as [[m' pc']|] eqn:Hs; [by eapply step_grows|apply same_tables_grow; [apply names_ext_refl|done]].
Qed.
End Readers.

(** C15: A lookup takes no lock and is never held up.  In any interleaving of
    insertions, growth, removals and lookups without compactions: once it has
    loaded the table, at most as many steps of its own as the table has slots end
    it, whatever the other threads do and whether or not the key is there; an
    entry it answers is one of the key; and it finds a key that was there when it
    started and that nobody removes, though the table may be replaced under it.
    With compactions this fails: a compaction can shrink a shard below the
    insertions it has admitted and leave a table without a null slot. *)
Theorem find_never_misses hash_of c ops sched sched' t w k sl :
  Z.of_nat (length ops) < GROWING → OCompact ∉ ops →
  let s := run hash_of sched (initial c ops) in
  let s' := run hash_of ((t, w) :: sched') s in
  threads s !! t = Some (OFind k, Finding FLoad) → tables (mem s) !! cur (mem s) = Some sl →
  (length sl <= length (filter (λ tw, tw.1 = t) sched'))%nat →
  ∃ r, threads s' !! t = Some (OFind k, Done (RFound r)) ∧
    (∀ p, r = Some p → ∃ cl, heap (mem s') !! p = Some cl ∧ c_key cl = k) ∧
    (∀ v, (k, v) ∈ contents (mem s) → ORemove k ∉ ops →
       ∃ p cl, r = Some p ∧ heap (mem s') !! p = Some cl ∧ c_key cl = k ∧ c_occ cl = true).
Proof.
  intros Hsmall Hno s s' Ht Hsl Hn.
  pose proof (reachable_inv hash_of c ops sched Hsmall Hno) as Hv. fold s in Hv.
  pose proof (step_inv hash_of _ s (t, w) Hv) as Hv'.
  destruct (on_the_way_run hash_of _ (∃ v, (k, v) ∈ contents (mem s)) t k sched'
    (sys_step hash_of s (t, w)) (length sl) Hv') as (r & Hd & Hm & He); [|done|].
  - left. exists (cur (mem s)), (home sl (hash_of k)), sl, O. unfold sys_step. simpl. rewrite Ht. simpl. rewrite Hsl. simpl.
    destruct (v_tables _ _ _ Hv _ _ Hsl) as [Hok _].
    split; [apply list_lookup_insert_eq; by eapply lookup_lt_Some|]. split; [done|].
    split; [by apply probing_start|]. split; [|unfold cap; lia].
    intros [v (sl' & j & q & cq & Hsl' & Hj & Hq & _ & Hkq & _)%elem_of_contents]. simplify_eq. by exists j, q, cq.
  - exists r. split; [exact Hd|]. split; [exact He|]. intros v Hin Hk. destruct Hm as [p ->]; [by exists v|].
    destruct (He p eq_refl) as (cl & Hcl & Hkey). exists p, cl. split; [done|]. split; [exact Hcl|]. split; [done|].
    apply (v_live _ _ _ (run_inv hash_of _ sched' _ Hv') _ _ Hcl). by rewrite Hkey.
Qed.

(** ** Progress *)

Section Progress.
Context (hash_of : bytes → Z) (kept : bytes → Prop).

Lemma slot_of_probe s tb sl k i d : inv hash_of kept s → tables (mem s) !! tb = Some sl →
  probing hash_of (heap (mem s)) sl k i d →
  ∃ x, sl !! Z.to_nat i = Some x ∧ ∀ p, x = Some p → is_Some (heap (mem s) !! p).
Proof.
  intros Hv Hsl Hp. destruct (v_tables _ _ _ Hv _ _ Hsl) as [Hok _].
  destruct (probing_slot hash_of _ _ _ _ _ Hok Hp) as [x Hx]. exists x. split; [done|].
  intros p ->. by eapply (tk_valid _ _ _ Hok).
Qed.

(** A thread waits at the gate, at the lock and for the gate to be free only. *)
Lemma enabled s t o pc : inv hash_of kept s → threads s !! t = Some (o, pc) →
  (∀ r, pc ≠ Done r) → pc ≠ Inserting IEnter → pc ≠ Growing GLock → pc ≠ Growing GCas →
  is_Some (step hash_of false (mem s) o pc).
Proof.
  intros Hv Ht Hd He Hl Hc. pose proof (v_pc _ _ _ Hv _ _ _ Ht) as Hpc. destruct (v_cur _ _ _ Hv) as [sl Hsl].
  destruct pc as [[|tb i]|e|i|g|r]; simpl in Hpc |- *.
  - by rewrite Hsl.
  - destruct Hpc as (sl' & d & Htb & Hp). destruct (slot_of_probe s tb sl' _ i d Hv Htb Hp) as (x & Hx & Hptr).
    rewrite Htb. simpl. rewrite Hx. simpl. destruct x as [p|]; [|done]. destruct (Hptr p eq_refl) as [c ->]. done.
  - destruct e; simpl in Hpc |- *; [| |done|]; destruct Hpc as ((c & -> & _) & _); simpl; [done..|]. by destruct (c_occ c).
  - destruct Hpc as [Hpc _]. destruct i as [|state| |i r|i|i c|i|p|p|p was|r|]; simpl in Hpc |- *; try (by rewrite Hsl); try done.
    + by destruct (negb _).
    + destruct Hpc as (sl' & d & Htb & Hp). destruct (slot_of_probe s _ sl' _ i d Hv Htb Hp) as (x & Hx & Hptr).
      rewrite Htb. simpl. rewrite Hx. simpl. destruct x as [p|]; [|done]. destruct (Hptr p eq_refl) as [c ->]. done.
    + by destruct (negb _).
    + destruct Hpc as (sl' & d & Htb & Hp). destruct (slot_of_probe s _ sl' _ i d Hv Htb Hp) as (x & Hx & _).
      rewrite Htb. simpl. rewrite Hx. simpl. by destruct x.
    + destruct Hpc as (_ & c & -> & _). done.
  - destruct Hpc as [Hpc _]. destruct g as [| | | |j n|j new n|new n|new| |]; simpl in Hpc |- *; try done; [by rewrite Hsl|].
    destruct Hpc as (sl' & Hsl' & Hcp). rewrite Hsl'. simpl. destruct (v_tables _ _ _ Hv _ _ Hsl') as [Hok _].
    destruct (sl' !! j) as [[p|]|] eqn:Hj; [|done..]. destruct (tk_valid _ _ _ Hok _ _ Hj) as [c Hc0]. rewrite Hc0. simpl.
    destruct (c_occ c); [|done].
    destruct (copied_place hash_of kept (mem s) j new n sl' p c Hok) as (new' & -> & _); [by eapply table_room|by eapply v_heap|done..].
  - by destruct (Hd r).
Qed.

Lemma tally_member f (s : Sys) : (∀ x, 0 <= f x) → 0 < tally f (threads s) → ∃ t o pc, threads s !! t = Some (o, pc) ∧ 0 < f (o, pc).
Proof. intros Hf (t & [o pc] & Ht & Hx)%tally_pos; [|done]. by exists t, o, pc. Qed.

Lemma some_enabled s t o pc : inv hash_of kept s → threads s !! t = Some (o, pc) → (∀ r, pc ≠ Done r) →
  ∃ t' o' pc', threads s !! t' = Some (o', pc') ∧ is_Some (step hash_of false (mem s) o' pc').
Proof.
  intros Hv Ht Hd. pose proof (growing_le_one hash_of kept s Hv) as Hg.
  pose proof (tally_nonneg inside (threads s) (λ x, proj1 (inside_range x))) as Hi.
  destruct (Z.eq_dec (tally growing (threads s)) 0) as [Hg0|Hg0].
  2:{ destruct (tally_member growing s (λ x, proj1 (growing_holder x)) ltac:(lia)) as (t' & o' & pc' & Ht' & Hw).
      exists t', o', pc'. split; [done|]. apply (enabled s t' o' pc' Hv Ht'); [intros r|..]; intros ->; unfold growing in Hw; simpl in Hw; lia. }
  destruct (Z.eq_dec (tally inside (threads s)) 0) as [Hi0|Hi0].
  2:{ destruct (tally_member inside s (λ x, proj1 (inside_range x)) ltac:(lia)) as (t' & o' & pc' & Ht' & Hw).
      exists t', o', pc'. split; [done|]. apply (enabled s t' o' pc' Hv Ht'); [intros r|..]; intros ->; unfold inside in Hw; simpl in Hw; lia. }
  assert (Hgate : gate (mem s) = 0) by (rewrite (v_gate _ _ _ Hv); lia).
  destruct (grow_lock (mem s)) eqn:Hlock.
  - destruct (tally_member holder s (λ x, proj1 (holder_range x))) as (t' & o' & pc' & Ht' & Hw); [rewrite (v_lock _ _ _ Hv), Hlock; done|].
    exists t', o', pc'. split; [done|]. destruct pc' as [| | |g|]; try (unfold holder in Hw; simpl in Hw; lia).
    destruct g; try (unfold holder in Hw; simpl in Hw; lia); try (apply (enabled s t' o' _ Hv Ht'); done).
    simpl. rewrite Hgate. done.
  - exists t, o, pc. split; [done|]. destruct pc as [f|e|i|g|r]; try (apply (enabled s t o _ Hv Ht); done).
    + destruct i; try (apply (enabled s t o _ Hv Ht); done). simpl. rewrite Hgate. done.
    + destruct g; try (apply (enabled s t o _ Hv Ht); done); simpl; [by rewrite Hlock|by rewrite Hgate].
Qed.
End Progress.

(** C40: Insertions, lookups and removals do not deadlock, growth included: while a
    thread has not returned, some thread can take a step. *)
Theorem shard_never_stuck hash_of c ops sched t o pc :
  Z.of_nat (length ops) < GROWING → OCompact ∉ ops →
  let s := run hash_of sched (initial c ops) in
  threads s !! t = Some (o, pc) → (∀ r, pc ≠ Done r) →
  ∃ t' o' pc', threads s !! t' = Some (o', pc') ∧ is_Some (step hash_of false (mem s) o' pc').
Proof.
  intros Hsmall Hno s Ht Hd. by apply (some_enabled hash_of _ s t o pc (reachable_inv hash_of c ops sched Hsmall Hno)).
Qed.

(** ** The races *)

(** A key that was removed and is set again while the table grows: the thread finds
    the vacant entry, growth drops it, and the thread writes into what was dropped. *)
Definition race_ops : list Op :=
  [OInsert (toy_key 0) 1; ORemove (toy_key 0); OInsert (toy_key 0) 2] ++ ((λ n, OInsert (toy_key n) 0) <$> seq 1 7).
Definition race_start : list (nat * bool) := one_by_one 40 [0; 1]%nat.
Definition race_rest : list (nat * bool) := steps 3 2 ++ one_by_one 200 (seq 3 7) ++ steps 20 2.

(** Nine keys are set again between the two passes of a compaction, which had
    counted none and made a table of eight slots. *)
Definition hang_ops : list Op :=
  ((λ n, OInsert (toy_key n) 0) <$> seq 0 9) ++ ((λ n, ORemove (toy_key n)) <$> seq 0 9) ++
  ((λ n, OInsert (toy_key n) 1) <$> seq 0 9) ++ [OCompact; OInsert (toy_key 20) 0].
Definition hang_sched : list (nat * bool) :=
  one_by_one 60 (seq 0 18) ++ steps 18 27 ++ one_by_one 60 (seq 18 9) ++ steps 100 27 ++ steps 100 28.

Definition is_done (x : Op * Pc) : bool := match x.2 with Done _ => true | _ => false end.
Definition waits (hash_of : bytes → Z) (m : Mem) (x : Op * Pc) : bool :=
  match step hash_of false m x.1 x.2, step hash_of true m x.1 x.2 with None, None => true | _, _ => false end.

Lemma all_done s : forallb is_done (threads s) = true → ∀ t o pc, threads s !! t = Some (o, pc) → ∃ r, pc = Done r.
Proof.
  intros Hd t o pc Ht. rewrite forallb_forall in Hd. specialize (Hd (o, pc)). unfold is_done in Hd. simpl in Hd.
  destruct pc; try (discriminate Hd; apply list_elem_of_In; by eapply list_elem_of_lookup_2). eauto.
Qed.

(** When every thread waits, nothing happens any more. *)
Lemma all_wait hash_of s sched : forallb (waits hash_of (mem s)) (threads s) = true → run hash_of sched s = s.
Proof.
  intros Hw. induction sched as [|[t w] sched IH]; [done|]. simpl. replace (sys_step hash_of s (t, w)) with s; [done|].
  unfold sys_step. simpl. destruct (threads s !! t) as [[o pc]|] eqn:Ht; [|done].
  rewrite forallb_forall in Hw. assert (Hx : waits hash_of (mem s) (o, pc) = true).
  { apply Hw, list_elem_of_In. by eapply list_elem_of_lookup_2. }
  unfold waits in Hx. simpl in Hx. by destruct w, (step hash_of false (mem s) o pc), (step hash_of true (mem s) o pc).
Qed.

(** Setting a removed key while its shard grows can lose the key: the thread is told
    that the key is new, all threads return, no removal came after it, and yet the key
    is not in the table, and the key counter is one too high for good. *)
Theorem growth_loses_insert :
  ∃ ops sched sched' k v, OCompact ∉ ops ∧
    let s := run toy_hash sched (initial 8 ops) in
    let s' := run toy_hash sched' s in
    threads s !! 1%nat = Some (ORemove k, Done (RBool true)) ∧ threads s !! 2%nat = Some (OInsert k v, Finding FLoad) ∧
    (∀ t o pc, threads s' !! t = Some (o, pc) → ∃ r, pc = Done r) ∧
    threads s' !! 2%nat = Some (OInsert k v, Done (RBool true)) ∧
    (∀ v', (k, v') ∉ contents (mem s')) ∧ key_count (mem s') = Z.of_nat (length (contents (mem s'))) + 1.
Proof.
  exists race_ops, race_start, race_rest, (toy_key 0), 2. split; [unfold race_ops; set_solver|].
  split; [by vm_compute|]. split; [by vm_compute|]. split; [apply all_done; by vm_compute|]. split; [by vm_compute|].
  split; [|by vm_compute]. intros v' Hin. apply (list_elem_of_fmap_2 fst) in Hin. revert Hin.
  match goal with |- _ ∈ ?l → _ => let l' := eval vm_compute in l in change l with l' end. unfold toy_key. simpl. set_solver.
Qed.

(** A compaction of a shard whose removed keys are set again between its two passes
    hangs: the placement loop finds no null slot, the gate stays shut, an insertion of
    another key waits for ever, and no schedule changes anything any more. *)
Theorem compaction_hangs :
  ∃ ops sched, let s := run toy_hash sched (initial 16 ops) in
    (∃ t j new n, threads s !! t = Some (OCompact, Growing (GCopy j new n))) ∧
    (∃ t k v, threads s !! t = Some (OInsert k v, Inserting IEnter)) ∧ gate (mem s) = GROWING ∧
    ∀ sched', run toy_hash sched' s = s.
Proof.
  exists hang_ops, hang_sched. split; [exists 27%nat; do 3 eexists; by vm_compute|].
  split; [exists 28%nat; do 2 eexists; by vm_compute|]. split; [by vm_compute|].
  intros sched'. apply all_wait. by vm_compute.
Qed.

(** ** Concrete runs *)

Definition calm_ops : list Op := ((λ n, OInsert (toy_key n) (Z.of_nat n)) <$> seq 0 9) ++ [OFind (toy_key 3); ORemove (toy_key 1)].
Definition calm_sched : list (nat * bool) := one_by_one 60 (seq 0 7) ++ steps 60 10.

Lemma calm_ops_ok : Z.of_nat (length calm_ops) < GROWING ∧ OCompact ∉ calm_ops ∧ ORemove (toy_key 3) ∉ calm_ops.
Proof. split; [done|]. split; (intros Hin; apply list_elem_of_In in Hin; vm_compute in Hin; naive_solver). Qed.

Example insert_contended_witness :
  NoDup (contents (mem (run toy_hash calm_sched (initial 8 calm_ops)))).*1.
Proof.
  exact (proj1 (insert_contended toy_hash 8 calm_ops calm_sched (proj1 calm_ops_ok) (proj1 (proj2 calm_ops_ok)))).
Defined.

(** The lookup starts, and the shard grows before it has looked at a slot. *)
Definition grow_meanwhile : list (nat * bool) := one_by_one 200 [7; 8]%nat ++ steps 8 9.

Example find_never_misses_witness :
  ∃ p cl, let s' := run toy_hash ((9%nat, false) :: grow_meanwhile) (run toy_hash calm_sched (initial 8 calm_ops)) in
    threads s' !! 9%nat = Some (OFind (toy_key 3), Done (RFound (Some p))) ∧ heap (mem s') !! p = Some cl ∧
    c_key cl = toy_key 3 ∧ c_occ cl = true.
Proof.
  edestruct (find_never_misses toy_hash 8 calm_ops calm_sched grow_meanwhile 9 false (toy_key 3)
    (default [] (tables (mem (run toy_hash calm_sched (initial 8 calm_ops))) !! 0%nat))
    (proj1 calm_ops_ok) (proj1 (proj2 calm_ops_ok))) as (r & Hd & _ & Hfound).
  - by vm_compute.
  - by vm_compute.
  - vm_compute. lia.
  - destruct (Hfound 3) as (p & cl & -> & Hcl); [|exact (proj2 (proj2 calm_ops_ok))|].
    + apply list_elem_of_In. vm_compute. tauto.
    + exists p, cl. exact (conj Hd Hcl).
Defined.

Example shard_never_stuck_witness :
  let s := run toy_hash (steps 4 0) (initial 8 calm_ops) in
  ∃ t' o' pc', threads s !! t' = Some (o', pc') ∧ is_Some (step toy_hash false (mem s) o' pc').
Proof.
  apply (shard_never_stuck toy_hash 8 calm_ops (steps 4 0) 1 (OInsert (toy_key 1) 1) (Finding FLoad)
    (proj1 calm_ops_ok) (proj1 (proj2 calm_ops_ok))); [by vm_compute|done].
Defined.
