(* ===== verification/RdbFile.v ===== *)
(** The files of a snapshot: how [save] of storage/rdb.rs writes the temporary
    file, syncs it and renames it, and what a crash leaves.

    A file is an inode: its contents, and whether they have reached the disk
    ([clean]).  A directory maps names to inodes; its changes reach the disk
    later, and what a crash keeps of them is any of the pending ones, in their
    order.  A file that was not synced holds anything after a crash.  The bytes
    of a snapshot ([Rdb]) reach the file in chunks, one per flush of the
    [BufWriter], each written at the offset of the descriptor.  Every system
    call can fail; a write that fails may have written some of its bytes. *)

From S2P Require Import Prelude Decimal MapIface Shard CustomMap CustomMapSpec Collections Value Store Rdb.
Local Open Scope Z_scope.

Record Inode := mkInode { contents : bytes; clean : bool }.

Inductive DirOp := Link (name : bytes) (ino : nat) | Rename (src dst : bytes) (ino : nat).

Record Fs := mkFs {
  inodes : list Inode;
  dir : gmap bytes nat;
  on_disk : gmap bytes nat;
  pending : list DirOp;
}.

Definition apply_op (d : gmap bytes nat) (op : DirOp) : gmap bytes nat :=
  match op with
  | Link name i => <[name := i]> d
  | Rename src dst i => <[dst := i]> (delete src d)
  end.

Definition dir_change (op : DirOp) (fs : Fs) : Fs :=
  mkFs (inodes fs) (apply_op (dir fs) op) (on_disk fs) (pending fs ++ [op]).
Definition set_inode (i : nat) (x : Inode) (fs : Fs) : Fs :=
  mkFs (<[i := x]> (inodes fs)) (dir fs) (on_disk fs) (pending fs).

(** ** System calls *)

(** [File::create]: opens the file and truncates it, or makes it. *)
Definition create (name : bytes) (fs : Fs) : Fs * nat :=
  match dir fs !! name with
  | Some i => (set_inode i (mkInode [] false) fs, i)
  | None =>
      let i := length (inodes fs) in
      (dir_change (Link name i) (mkFs (inodes fs ++ [mkInode [] false]) (dir fs) (on_disk fs) (pending fs)), i)
  end.

(** [write] at an offset; a gap before it reads as zeros. *)
Definition splice (off : nat) (b c : bytes) : bytes :=
  take off (c ++ replicate (off - length c) Byte.x00) ++ b ++ drop (off + length b) c.
Definition write_at (i off : nat) (b : bytes) (fs : Fs) : Fs :=
  match inodes fs !! i with
  | Some x => set_inode i (mkInode (splice off b (contents x)) false) fs
  | None => fs
  end.

(** [fsync_file] on a file, and on the directory. *)
Definition fsync (i : nat) (fs : Fs) : Fs :=
  match inodes fs !! i with Some x => set_inode i (mkInode (contents x) true) fs | None => fs end.
Definition fsync_dir (fs : Fs) : Fs := mkFs (inodes fs) (dir fs) (dir fs) [].

(** [fs::rename]; [None] is [ENOENT]. *)
Definition rename (src dst : bytes) (fs : Fs) : option Fs :=
  i ← dir fs !! src; Some (dir_change (Rename src dst i) fs).

Definition file_at (fs : Fs) (name : bytes) : option bytes := i ← dir fs !! name; contents <$> inodes fs !! i.

(** [Path::parent] with its slash: it cannot be opened when it is empty. *)
Fixpoint has_slash (path : bytes) : bool :=
  match path with [] => false | b :: p => bool_decide (b = Byte.x2f) || has_slash p end.

(** ** [save] *)

Inductive SavePc :=
| Create
| Write (i off : nat) (rest : list bytes)
| Fsync (i : nat)
| RenameTmp
| SyncDir
| Finished (ok : bool).

Definition tmp_of (path : bytes) : bytes := path ++ B ".tmp".

(** One system call of [save], for a snapshot whose bytes come in [chunks].
    [fault] is a failure; for a write, after that many bytes. *)
Definition save_step (path : bytes) (chunks : list bytes) (fault : option nat) (fs : Fs) (pc : SavePc) : Fs * SavePc :=
  match pc, fault with
  | Create, Some _ => (fs, Finished false)
  | Create, None => let '(fs', i) := create (tmp_of path) fs in (fs', Write i 0 chunks)
  | Write i off [], _ => (fs, Fsync i)
  | Write i off (b :: rest), Some n => (write_at i off (take n b) fs, Finished false)
  | Write i off (b :: rest), None => (write_at i off b fs, Write i (off + length b) rest)
  | Fsync i, Some _ => (fs, Finished false)
  | Fsync i, None => (fsync i fs, RenameTmp)
  | RenameTmp, Some _ => (fs, Finished false)
  | RenameTmp, None =>
      match rename (tmp_of path) path fs with
      | Some fs' => (fs', SyncDir)
      | None => (fs, Finished false)
      end
  | SyncDir, Some _ => (fs, Finished true)
  | SyncDir, None => (if has_slash path then fsync_dir fs else fs, Finished true)
  | Finished ok, _ => (fs, Finished ok)
  end.

Fixpoint save_run (path : bytes) (chunks : list bytes) (n : nat) (fs : Fs) (pc : SavePc) : Fs * SavePc :=
  match n with
  | O => (fs, pc)
  | S n' => let '(fs', pc') := save_step path chunks None fs pc in save_run path chunks n' fs' pc'
  end.

(** All of [save], no system call failing. *)
Definition save (path : bytes) (chunks : list bytes) (fs : Fs) : Fs * SavePc :=
  save_run path chunks (length chunks + 5) fs Create.

(** ** Crashes *)

Definition after_crash (x y : Inode) : Prop := clean y = true ∧ (clean x = true → contents y = contents x).

Definition versions (fs : Fs) (d : gmap bytes nat) : Prop :=
  ∃ ops, ops `sublist_of` pending fs ∧ d = foldl apply_op (on_disk fs) ops.

Definition crash (fs fs' : Fs) : Prop :=
  versions fs (dir fs') ∧ on_disk fs' = dir fs' ∧ pending fs' = [] ∧ Forall2 after_crash (inodes fs) (inodes fs').

(** ** The process: one save after the other ([start_background_save]), and
    restarts.  [started] collects the snapshots that were begun. *)

Record Proc := mkProc { fs_of : Fs; chunks_of : list bytes; at_pc : SavePc; started : list bytes }.

Inductive proc_step (path : bytes) : Proc → Proc → Prop :=
| p_start fs cs ok st chunks :
    proc_step path (mkProc fs cs (Finished ok) st) (mkProc fs chunks Create (concat chunks :: st))
| p_call fs cs pc st fault fs' pc' :
    save_step path cs fault fs pc = (fs', pc') → proc_step path (mkProc fs cs pc st) (mkProc fs' cs pc' st)
| p_crash fs cs pc st fs' :
    crash fs fs' → proc_step path (mkProc fs cs pc st) (mkProc fs' [] (Finished false) st).

(** ** Several savers at once: [SAVE], [BGSAVE], the background saver and the
    shutdown thread all call [save] with the same path. *)

Record Savers := mkSavers { shared_fs : Fs; savers : list (list bytes * SavePc) }.

Definition savers_step (path : bytes) (s : Savers) (tf : nat * option nat) : Savers :=
  match savers s !! tf.1 with
  | Some (cs, pc) =>
      let '(fs', pc') := save_step path cs tf.2 (shared_fs s) pc in
      mkSavers fs' (<[tf.1 := (cs, pc')]> (savers s))
  | None => s
  end.

Definition savers_run (path : bytes) (sched : list (nat * option nat)) (s : Savers) : Savers := foldl (savers_step path) s sched.

(** A directory on disk that holds one complete snapshot. *)
Definition settled (path file : bytes) : Fs := mkFs [mkInode file true] {[path := O]} {[path := O]} [].

(** ** What a crash can leave *)

Lemma versions_dir_change op fs d :
  versions (dir_change op fs) d → versions fs d ∨ ∃ d0, versions fs d0 ∧ d = apply_op d0 op.
Proof.
  intros (ops & Hs & ->). simpl in Hs. apply sublist_app_r in Hs as (o1 & o2 & -> & H1 & H2).
  simpl. rewrite foldl_app. apply sublist_cons_r in H2 as [H2|(o3 & -> & H3)].
  - apply sublist_nil_r in H2 as ->. left. by exists o1.
  - apply sublist_nil_r in H3 as ->. right. exists (foldl apply_op (on_disk fs) o1). split; [by exists o1|done].
Qed.

Lemma versions_settled fs d : pending fs = [] → versions fs d → d = on_disk fs.
Proof. intros Hp (ops & Hs & ->). rewrite Hp in Hs. by apply sublist_nil_r in Hs as ->. Qed.

Section Safety.
Context (path : bytes).
Implicit Types (fs : Fs) (d : gmap bytes nat) (G : bytes → Prop).

Lemma tmp_ne : tmp_of path ≠ path.
Proof. intros He. apply (f_equal length) in He. unfold tmp_of in He. rewrite length_app in He. simpl in He. lia. Qed.

(** Whatever a crash keeps of the directory, the snapshot is a complete file
    that is on the disk, and the file being written is not it. *)
Record fs_ok G fs : Prop := {
  fk_now : versions fs (dir fs);
  fk_file : ∀ d, versions fs d → ∃ i x, d !! path = Some i ∧ inodes fs !! i = Some x ∧ clean x = true ∧ G (contents x);
  fk_apart : ∀ d i, versions fs d → d !! tmp_of path = Some i → d !! path ≠ Some i;
  fk_open : ∀ d i, versions fs d → dir fs !! tmp_of path = Some i → d !! path ≠ Some i;
  fk_bound : ∀ d name i, versions fs d → d !! name = Some i → (i < length (inodes fs))%nat;
}.

Lemma fs_ok_weaken G G' fs : (∀ b, G b → G' b) → fs_ok G fs → fs_ok G' fs.
Proof.
  intros HG [Hn Hf Ha Ho Hb]. split; try done. intros d Hd. destruct (Hf d Hd) as (i & x & ? & ? & ? & ?). eauto 10.
Qed.

(** Changing the file that is being written. *)
Lemma fs_ok_set G fs i x : fs_ok G fs → dir fs !! tmp_of path = Some i → fs_ok G (set_inode i x fs).
Proof.
  intros [Hn Hf Ha Ho Hb] Hi. split; simpl; try done.
  - intros d Hd. destruct (Hf d Hd) as (j & y & Hj & Hy & ? & ?). exists j, y. split; [done|]. split; [|done].
    rewrite list_lookup_insert_ne; [done|]. intros ->. by eapply Ho.
  - intros d name j Hd Hj. rewrite length_insert. by eapply Hb.
Qed.

Lemma create_ok G fs :
  fs_ok G fs → let '(fs', i) := create (tmp_of path) fs in
  fs_ok G fs' ∧ dir fs' !! tmp_of path = Some i ∧ inodes fs' !! i = Some (mkInode [] false).
Proof.
  intros Hok. pose proof tmp_ne as Hne. unfold create. destruct (dir fs !! tmp_of path) as [i|] eqn:Hi.
  - split; [by apply fs_ok_set|]. split; [done|]. simpl. apply list_lookup_insert_eq.
    eapply (fk_bound _ _ Hok); [exact (fk_now _ _ Hok)|done].
  - set (i := length (inodes fs)). destruct Hok as [Hn Hf Ha Ho Hb]. set (fs1 := mkFs _ _ _ _).
    assert (Hv : ∀ d, versions fs1 d ↔ versions fs d) by (intros d; done).
    assert (Hlt : ∀ d j, versions fs d → d !! path = Some j → j ≠ i) by (intros d j Hd Hj; specialize (Hb d path j Hd Hj); lia).
    split; [|split; [simpl; by rewrite lookup_insert_eq|by apply list_lookup_middle]]. split; simpl.
    + destruct Hn as (ops & Hs & He). exists (ops ++ [Link (tmp_of path) i]). split; [by apply sublist_app|].
      simpl. by rewrite foldl_app, <- He.
    + intros d [Hd|(d0 & Hd & ->)]%versions_dir_change; destruct (Hf _ Hd) as (j & y & Hj & Hy & ? & ?);
        exists j, y; (split; [|split; [by apply lookup_app_l_Some|done]]); [done|]. simpl. by rewrite lookup_insert_ne.
    + intros d j [Hd|(d0 & Hd & ->)]%versions_dir_change; [by apply Ha|]. simpl.
      rewrite lookup_insert_eq, lookup_insert_ne by done. intros [= <-] Hj. by eapply Hlt.
    + intros d j [Hd|(d0 & Hd & ->)]%versions_dir_change; simpl; rewrite lookup_insert_eq; intros [= <-] Hj; [by eapply Hlt|].
      rewrite lookup_insert_ne in Hj by done. by eapply Hlt.
    + intros d name j Hd Hj. rewrite length_app. simpl. apply versions_dir_change in Hd as [Hd|(d0 & Hd & ->)].
      * specialize (Hb d name j Hd Hj). lia.
      * simpl in Hj. apply lookup_insert_Some in Hj as [[_ <-]|[_ Hj]]; [unfold i; lia|]. specialize (Hb d0 name j Hd Hj). lia.
Qed.

Lemma rename_tmp_ok G fs i x :
  fs_ok G fs → dir fs !! tmp_of path = Some i → inodes fs !! i = Some x → clean x = true → G (contents x) →
  rename (tmp_of path) path fs = Some (dir_change (Rename (tmp_of path) path i) fs) ∧
  fs_ok G (dir_change (Rename (tmp_of path) path i) fs) ∧
  file_at (dir_change (Rename (tmp_of path) path i) fs) path = Some (contents x).
Proof.
  intros [Hn Hf Ha Ho Hb] Hi Hx Hc HG. pose proof tmp_ne as Hne. unfold rename. rewrite Hi. split; [done|]. split.
  2:{ unfold file_at. simpl. rewrite lookup_insert_eq. simpl. by rewrite Hx. }
  split; simpl.
  - destruct Hn as (ops & Hs & He). exists (ops ++ [Rename (tmp_of path) path i]). split; [by apply sublist_app|].
    simpl. by rewrite foldl_app, <- He.
  - intros d [Hd|(d0 & Hd & ->)]%versions_dir_change; [by apply Hf|]. exists i, x. simpl. by rewrite lookup_insert_eq.
  - intros d j [Hd|(d0 & Hd & ->)]%versions_dir_change; [by apply Ha|]. simpl.
    by rewrite lookup_insert_ne, lookup_delete_eq by done.
  - intros d j _. by rewrite lookup_insert_ne, lookup_delete_eq by done.
  - intros d name j [Hd|(d0 & Hd & ->)]%versions_dir_change Hj; [by eapply Hb|]. simpl in Hj.
    apply lookup_insert_Some in Hj as [[_ <-]|[_ Hj]]; [by eapply lookup_lt_Some|].
    apply lookup_delete_Some in Hj as [_ Hj]. by eapply Hb.
Qed.

Lemma fsync_dir_ok G fs : fs_ok G fs → fs_ok G (fsync_dir fs).
Proof.
  intros [Hn Hf Ha Ho Hb]. assert (Hv : ∀ d, versions (fsync_dir fs) d → d = dir fs) by (intros d; by apply versions_settled).
  split; simpl; [by exists []|..].
  - intros d ->%Hv. by apply Hf.
  - intros d i ->%Hv. by apply Ha.
  - intros d i ->%Hv. by apply Ha.
  - intros d name i ->%Hv. by apply Hb.
Qed.

Lemma crash_ok G fs fs' : fs_ok G fs → crash fs fs' → fs_ok G fs'.
Proof.
  intros [Hn Hf Ha Ho Hb] (Hd & Hdisk & Hp & Hin).
  assert (Hv : ∀ d, versions fs' d → d = dir fs') by (intros d Hx; rewrite <- Hdisk; by apply versions_settled).
  split.
  - exists []. rewrite Hdisk. split; [apply sublist_nil_l|done].
  - intros d ->%Hv. destruct (Hf _ Hd) as (i & x & Hi & Hx & Hc & HG).
    destruct (Forall2_lookup_l _ _ _ _ _ Hin Hx) as (y & Hy & Hcy & Hk). exists i, y. rewrite (Hk Hc). auto.
  - intros d i ->%Hv. by apply Ha.
  - intros d i ->%Hv. by apply Ha.
  - intros d name i ->%Hv Hi. rewrite <- (Forall2_length _ _ _ Hin). by eapply Hb.
Qed.

(** ** One save at a time *)

Lemma splice_end b c : splice (length c) b c = c ++ b.
Proof.
  unfold splice. rewrite Nat.sub_diag. simpl. rewrite app_nil_r, take_ge by lia.
  rewrite drop_ge by lia. by rewrite app_nil_r.
Qed.

Definition saving (cs : list bytes) fs (pc : SavePc) : Prop :=
  match pc with
  | Write i off rest => dir fs !! tmp_of path = Some i ∧
      ∃ x, inodes fs !! i = Some x ∧ off = length (contents x) ∧ contents x ++ concat rest = concat cs
  | Fsync i => dir fs !! tmp_of path = Some i ∧ ∃ x, inodes fs !! i = Some x ∧ contents x = concat cs
  | RenameTmp => ∃ i x, dir fs !! tmp_of path = Some i ∧ inodes fs !! i = Some x ∧ clean x = true ∧ contents x = concat cs
  | SyncDir => file_at fs path = Some (concat cs)
  | Create | Finished _ => True
  end.

Lemma save_step_ok G cs fault fs pc fs' pc' :
  ((∀ ok, pc ≠ Finished ok) → G (concat cs)) → fs_ok G fs → saving cs fs pc → save_step path cs fault fs pc = (fs', pc') →
  fs_ok G fs' ∧ saving cs fs' pc' ∧ ((∀ ok, pc' ≠ Finished ok) → G (concat cs)).
Proof.
  intros HG Hok Hs Hst. destruct pc as [|i off rest|i| | |ok]; simpl in Hs.
  - specialize (HG ltac:(done)). destruct fault; simpl in Hst; [by simplify_eq|].
    pose proof (create_ok G fs Hok) as Hc. destruct (create _ fs) as [fs1 i]. simplify_eq.
    destruct Hc as (Hok' & Hd & Hi). split; [done|]. split; [|done]. split; [done|]. by exists (mkInode [] false).
  - specialize (HG ltac:(done)). destruct Hs as (Hd & x & Hx & -> & Hcat). destruct rest as [|b rest]; simpl in Hst.
    + simplify_eq. split; [done|]. split; [|done]. split; [done|]. exists x. split; [done|]. simpl in Hcat. by rewrite app_nil_r in Hcat.
    + unfold write_at in Hst. rewrite Hx, splice_end in Hst. destruct fault as [n|]; simplify_eq.
      * split; [|done]. by apply fs_ok_set.
      * split; [by apply fs_ok_set|]. split; [|done]. split; [done|]. eexists. split; [simpl; apply list_lookup_insert_eq; by eapply lookup_lt_Some|].
        simpl. rewrite length_app, <- app_assoc. done.
  - specialize (HG ltac:(done)). destruct Hs as (Hd & x & Hx & Hcat). destruct fault; simpl in Hst; [by simplify_eq|].
    unfold fsync in Hst. rewrite Hx in Hst. simplify_eq. split; [by apply fs_ok_set|]. split; [|done].
    exists i. eexists. split; [done|]. split; [simpl; apply list_lookup_insert_eq; by eapply lookup_lt_Some|done].
  - specialize (HG ltac:(done)). destruct Hs as (i & x & Hd & Hx & Hc & Hcat). destruct fault; simpl in Hst; [by simplify_eq|].
    destruct (rename_tmp_ok G fs i x) as (Hr & Hok' & Hfile); [done..|by rewrite Hcat|]. rewrite Hr in Hst. simplify_eq.
    rewrite Hcat in Hfile. done.
  - specialize (HG ltac:(done)). destruct fault; simpl in Hst; simplify_eq; [done|]. split; [|done]. destruct (has_slash path); [by apply fsync_dir_ok|done].
  - destruct fault; simpl in Hst; by simplify_eq.
Qed.

Definition complete_of (file : bytes) (st : list bytes) (b : bytes) : Prop := b = file ∨ b ∈ st.

Definition proc_ok (file : bytes) (p : Proc) : Prop :=
  fs_ok (complete_of file (started p)) (fs_of p) ∧ saving (chunks_of p) (fs_of p) (at_pc p) ∧
  ((∀ ok, at_pc p ≠ Finished ok) → complete_of file (started p) (concat (chunks_of p))).

Lemma proc_step_ok file p p' : proc_ok file p → proc_step path p p' → proc_ok file p'.
Proof.
  intros (Hok & Hs & HG) Hst. destruct Hst as [fs cs ok st chunks|fs cs pc st fault fs' pc' Hst|fs cs pc st fs' Hc]; simpl in *.
  - split; [|split; [done|]]; simpl.
    + eapply fs_ok_weaken; [|done]. intros b [->|Hb]; [by left|right; set_solver].
    + intros _. right. set_solver.
  - by destruct (save_step_ok _ cs fault fs pc fs' pc' HG Hok Hs Hst) as (? & ? & ?).
  - split; [by eapply crash_ok|]. split; [done|]. intros Hf. by destruct (Hf false).
Qed.

Lemma settled_ok file : proc_ok file (mkProc (settled path file) [] (Finished true) []).
Proof.
  pose proof tmp_ne as Hne.
  assert (Hv : ∀ d, versions (settled path file) d → d = {[path := O]}) by (intros d; by apply versions_settled).
  split; [|split; [done|intros Hf; by destruct (Hf true)]]. split; simpl.
  - by exists [].
  - intros d ->%Hv. exists O, (mkInode file true). rewrite lookup_singleton_eq. split; [done|]. split; [done|]. split; [done|by left].
  - intros d i ->%Hv. by rewrite lookup_singleton_ne by done.
  - intros d i ->%Hv. by rewrite lookup_singleton_ne by done.
  - intros d name i ->%Hv. intros [_ <-]%lookup_singleton_Some. simpl. lia.
Qed.

Lemma reachable_ok file p : rtc (proc_step path) (mkProc (settled path file) [] (Finished true) []) p → proc_ok file p.
Proof.
  intros Hr. pose proof (settled_ok file) as Hok. induction Hr as [|p1 p2 p3 Hst _ IH]; [done|]. by eapply IH, proc_step_ok.
Qed.

Lemma fs_ok_file G fs : fs_ok G fs → ∃ b, file_at fs path = Some b ∧ G b.
Proof.
  intros Hok. destruct (fk_file _ _ Hok _ (fk_now _ _ Hok)) as (i & x & Hi & Hx & _ & HG).
  exists (contents x). unfold file_at. rewrite Hi. simpl. by rewrite Hx.
Qed.

Lemma saves_write G cs rest n fs i off :
  G (concat cs) → fs_ok G fs → saving cs fs (Write i off rest) →
  ∃ fs' off', save_run path cs (length rest + n) fs (Write i off rest) = save_run path cs n fs' (Write i off' []) ∧
    fs_ok G fs' ∧ saving cs fs' (Write i off' []).
Proof.
  intros HG. revert fs off. induction rest as [|b rest IH]; intros fs off Hok Hs; [by exists fs, off|].
  destruct (save_step path cs None fs (Write i off (b :: rest))) as [fs' pc'] eqn:Hst.
  destruct (save_step_ok G cs None fs _ fs' pc' (λ _, HG) Hok Hs Hst) as (Hok' & Hs' & _).
  assert (pc' = Write i (off + length b) rest) as -> by (simpl in Hst; congruence).
  cbn [length Nat.add save_run]. rewrite Hst. by apply IH.
Qed.

Lemma save_run_S cs n fs pc :
  save_run path cs (S n) fs pc = let '(fs', pc') := save_step path cs None fs pc in save_run path cs n fs' pc'.
Proof. done. Qed.

Lemma save_done G cs fs : G (concat cs) → fs_ok G fs →
  ∃ fs' x, save path cs fs = (if has_slash path then fsync_dir fs' else fs', Finished true) ∧ fs_ok G fs' ∧
    file_at fs' path = Some x ∧ x = concat cs.
Proof.
  intros HG Hok. unfold save. replace (length cs + 5)%nat with (S (length cs + 4)) by lia. rewrite save_run_S.
  pose proof (create_ok G fs Hok) as Hc. cbn [save_step]. destruct (create (tmp_of path) fs) as [fs1 i].
  destruct Hc as (Hok1 & Hd1 & Hi1). assert (Hs1 : saving cs fs1 (Write i 0 cs)) by (split; [done|by exists (mkInode [] false)]).
  destruct (saves_write G cs cs 4 fs1 i 0 HG Hok1 Hs1) as (fs2 & off & -> & Hok2 & Hd2 & x & Hx & _ & Hcat).
  simpl in Hcat. rewrite app_nil_r in Hcat. cbn [save_run save_step]. unfold fsync. rewrite Hx. cbn [save_run save_step].
  set (fs3 := set_inode _ _ _). assert (Hok3 : fs_ok G fs3) by (by apply fs_ok_set).
  destruct (rename_tmp_ok G fs3 i (mkInode (contents x) true)) as (-> & Hok4 & Hfile); [done|done| |done| |].
  - simpl. apply list_lookup_insert_eq. by eapply lookup_lt_Some.
  - simpl. by rewrite Hcat.
  - eexists _, (contents x). split; [done|]. split; [done|]. split; [exact Hfile|done].
Qed.
End Safety.

(** ** Claims *)

(** C14: Saving is crash-safe as long as one save runs at a time.  Whatever sequence of
    saves, failing system calls, crashes and restarts came before, and wherever in a
    save the machine stops, the snapshot file is then a complete one: the one there was
    at first, or one of those begun since. *)
Theorem snapshot_crash_safe path file p fs' :
  rtc (proc_step path) (mkProc (settled path file) [] (Finished true) []) p → crash (fs_of p) fs' →
  (∃ b, file_at (fs_of p) path = Some b ∧ (b = file ∨ b ∈ started p)) ∧
  (∃ b, file_at fs' path = Some b ∧ (b = file ∨ b ∈ started p)).
Proof.
  intros Hr Hc. destruct (reachable_ok path file p Hr) as (Hok & _). split; [by eapply fs_ok_file|].
  eapply fs_ok_file, crash_ok; [exact Hok|done].
Qed.

(** C24: A save whose system calls succeed returns, the file is the new snapshot, and if
    the path names its directory the snapshot survives every crash. *)
Theorem snapshot_durable path file p chunks :
  rtc (proc_step path) (mkProc (settled path file) [] (Finished true) []) p →
  let '(fs, pc) := save path chunks (fs_of p) in
  pc = Finished true ∧ file_at fs path = Some (concat chunks) ∧
  (has_slash path = true → ∀ fs', crash fs fs' → file_at fs' path = Some (concat chunks)).
Proof.
  intros Hr. destruct (reachable_ok path file p Hr) as (Hok & _).
  set (G := complete_of file (concat chunks :: started p)). assert (HG : fs_ok path G (fs_of p)).
  { eapply fs_ok_weaken; [|exact Hok]. intros b [->|Hb]; [by left|right; set_solver]. }
  destruct (save_done path G chunks (fs_of p)) as (fs1 & x & -> & Hok1 & Hfile & ->); [right; set_solver|done|].
  split; [done|]. destruct (has_slash path); [|done]. split; [exact Hfile|].
  intros _ fs' (Hd & _ & _ & Hin). assert (Hd' : dir fs' = dir fs1) by (by apply (versions_settled (fsync_dir fs1))).
  destruct (fk_file _ _ _ Hok1 _ (fk_now _ _ _ Hok1)) as (i & y & Hi & Hy & Hcl & _).
  destruct (Forall2_lookup_l _ _ _ _ _ Hin Hy) as (z & Hz & _ & Hk).
  unfold file_at in *. rewrite Hd', Hi in *. simpl in *. rewrite Hz. rewrite Hy in Hfile. simpl in *. by rewrite (Hk Hcl).
Qed.

(** Without a directory in the path nothing of the directory is synced. *)
Lemma save_step_disk path cs fault fs pc fs' pc' :
  has_slash path = false → save_step path cs fault fs pc = (fs', pc') → on_disk fs' = on_disk fs.
Proof.
  intros Hs Hst. destruct pc as [|i off [|b rest]|i| | |ok], fault as [n|]; simpl in Hst; simplify_eq; try done.
  - unfold create in Hst. destruct (dir fs !! _); by simplify_eq.
  - unfold write_at. by destruct (inodes fs !! i).
  - unfold write_at. by destruct (inodes fs !! i).
  - unfold fsync. by destruct (inodes fs !! i).
  - unfold rename in Hst. destruct (dir fs !! _); simpl in Hst; by simplify_eq.
  - by rewrite Hs.
Qed.

Lemma save_run_disk path cs n fs pc : has_slash path = false → on_disk (save_run path cs n fs pc).1 = on_disk fs.
Proof.
  intros Hs. revert fs pc. induction n as [|n IH]; intros fs pc; [done|]. rewrite save_run_S.
  destruct (save_step path cs None fs pc) as [fs' pc'] eqn:Hst. rewrite IH. by eapply save_step_disk.
Qed.

(** The default path has no directory, and then the directory is never synced: a save
    that returned can be lost to a crash, which brings the old snapshot back. *)
Theorem bare_path_not_durable :
  let path := B "fyrodb.rdb" in
  ∃ file new, file ≠ new ∧ let '(fs, pc) := save path [new] (settled path file) in
    pc = Finished true ∧ file_at fs path = Some new ∧ ∃ fs', crash fs fs' ∧ file_at fs' path = Some file.
Proof.
  cbv zeta. exists (B "old"), (B "new"). split; [done|].
  pose proof (save_run_disk (B "fyrodb.rdb") [B "new"] 6 (settled (B "fyrodb.rdb") (B "old")) Create eq_refl) as Hd.
  assert (Hr : (save (B "fyrodb.rdb") [B "new"] (settled (B "fyrodb.rdb") (B "old"))).2 = Finished true ∧
    file_at (save (B "fyrodb.rdb") [B "new"] (settled (B "fyrodb.rdb") (B "old"))).1 (B "fyrodb.rdb") = Some (B "new") ∧
    inodes (save (B "fyrodb.rdb") [B "new"] (settled (B "fyrodb.rdb") (B "old"))).1 = [mkInode (B "old") true; mkInode (B "new") true])
    by (split_and!; vm_compute; reflexivity).
  unfold save in *. cbn [length Nat.add] in *. destruct (save_run _ _ _ _ _) as [fs pc]. cbn [fst snd] in *.
  destruct Hr as (-> & Hfile & Hi). split; [done|]. split; [done|].
  exists (mkFs (inodes fs) {[B "fyrodb.rdb" := O]} {[B "fyrodb.rdb" := O]} []). split.
  - split; [exists []; split; [apply sublist_nil_l|by rewrite Hd]|]. split; [done|]. split; [done|].
    simpl. rewrite Hi. repeat constructor.
  - unfold file_at. simpl. rewrite lookup_singleton_eq. simpl. by rewrite Hi.
Qed.

(** A snapshot of an empty store, in two chunks. *)
Definition two_chunks : list bytes := [MAGIC; [Byte.x02; Byte.xff]].

(** Two saves at once ruin the snapshot.  They write the same temporary file: the
    second truncates it under the first, whose next chunk lands behind a gap of zeros,
    and the rename puts that in the place of the snapshot.  The first save has
    returned without an error, and what it left does not load. *)
Theorem concurrent_saves_corrupt :
  let path := B "fyrodb.rdb" in
  let order := canonical_order in
  let st := mkStore (with_capacity 1 16) 0 0 0 : Store (CustomMap StoreValue) in
  let file := concat two_chunks in
  let _ := custom_kv (λ k, Z.of_nat (length k)) in
  file = Rdb.save (mkClock 5 5) (data st) ∧ (Rdb.load (mkClock 5 5) (Some file) st).2 = Loaded 0 ∧
  ∃ sched, let s := savers_run path sched (mkSavers (settled path file) [(two_chunks, Create); (two_chunks, Create)]) in
    savers s !! 0%nat = Some (two_chunks, Finished true) ∧
    ∃ b, file_at (shared_fs s) path = Some b ∧
      Rdb.load (mkClock 5 5) (Some b) st = (st, LoadErr (InvalidData (B "invalid RDB magic"))).
Proof.
  cbv zeta. split; [by vm_compute|]. split; [by vm_compute|].
  exists [(0, None); (0, None); (1, None); (0, None); (0, None); (0, None); (0, None); (0, None)]%nat.
  split; [by vm_compute|]. eexists. split; [by vm_compute|]. by vm_compute.
Qed.

(** ** Concrete runs *)

Example snapshot_crash_safe_witness :
  ∃ b, file_at (settled (B "fyrodb.rdb") (B "old")) (B "fyrodb.rdb") = Some b ∧ (b = B "old" ∨ b ∈ [B "new"]).
Proof.
  set (path := B "fyrodb.rdb"). set (p := mkProc (settled path (B "old")) [B "new"] Create [B "new"]).
  refine (proj2 (snapshot_crash_safe path (B "old") p (settled path (B "old")) _ _)).
  - eapply rtc_l; [|apply rtc_refl]. exact (p_start path (settled path (B "old")) [] true [] [B "new"]).
  - split; [exists []; split; [apply sublist_nil_l|done]|]. split; [done|]. split; [done|]. repeat constructor.
Defined.

Example snapshot_durable_witness :
  file_at (save (B "/var/dump") [B "ne"; B "w"] (settled (B "/var/dump") (B "old"))).1 (B "/var/dump") = Some (B "new").
Proof.
  pose proof (snapshot_durable (B "/var/dump") (B "old") (mkProc (settled (B "/var/dump") (B "old")) [] (Finished true) [])
    [B "ne"; B "w"] (rtc_refl _ _)) as Hs.
  simpl fs_of in Hs. destruct (save _ _ _) as [fs pc]. exact (proj1 (proj2 Hs)).
Defined.
