(* ===== verification/Writes.v ===== *)
(** Every write operation of the store as one alphabet: the commands of
    [Commands], the other operations of src/storage/, and the changes the
    handlers of src/commands/ make to the map themselves.  Each changes only the
    keys it names.  Four operations can fail after a change (SETRANGE, LMOVE,
    SMOVE and SETEX with a full map), two do not count an expiry they create
    (COPY, and SET with a condition and an expiry), and two move one (RENAME,
    RENAMENX); the exceptions are predicates on the alphabet. *)

From S2P Require Import Prelude Decimal MapIface Shard CustomMap CustomMapSpec Collections Value Store StoreSpec.
From S2P Require Import Float ListOps HashOps SetOps ZSet ZSetOps Commands StoreClaims.
From S2P Require Import Reply Handler CmdString Hll Geo Bitmap StreamOps Json JsonOps.
Local Open Scope Z_scope.

Inductive Write :=
| WBasic (o : Cmd)
| WGetToBuf (k : bytes)
| WPut (k : bytes) (v : FyroDB)
| WTrySet (k v : bytes) (exp : Z)
| WTrySetValue (k : bytes) (v : StoreValue)
| WStoreSet (k : bytes) (v : StoreValue)
| WSetIf (k v : bytes) (o : SetOptions)
| WMSetNx (items : list (bytes * bytes))
| WCopy (src dst : bytes) (replace : bool)
| WSetRange (k : bytes) (offset : Z) (v : bytes)
| WIncrByFloat (k : bytes) (n : f64)
| WHIncrByFloat (k f : bytes) (n : f64)
| WLMove (src dst : bytes) (left_src left_dst : bool)
| WSMove (src dst m : bytes)
| WSetBit (k : bytes) (offset : Z) (b : bool)
| WBitOp (op : BitOp) (dst : bytes) (ks : list bytes)
| WPfAdd (k : bytes) (elements : list bytes)
| WPfMerge (dst : bytes) (ks : list bytes)
| WGeoAdd (k : bytes) (items : list (f64 * f64 * bytes)) (nx xx ch : bool)
| WGeoSearchStore (libm : Libm) (dst src : bytes) (center : GeoCenter) (shape : GeoShape) (asc : bool) (count : Z) (storedist : bool)
| WXAdd (k id : bytes) (fields : list (bytes * bytes)) (maxlen : option Z) (nomkstream : bool)
| WXTrim (k : bytes) (maxlen : Z)
| WXDel (k : bytes) (ids : list bytes)
| WXGroupCreate (k group id : bytes) (mkstream : bool)
| WXGroupDestroy (k group : bytes)
| WXAck (k group : bytes) (ids : list bytes)
| WJsonSet (k path v : bytes) (nx xx : bool)
| WJsonDel (k path : bytes)
| WJsonNum (k path : bytes) (f : f64 → f64)
| WJsonStrAppend (k path suffix : bytes)
| WJsonArrAppend (k path : bytes) (values : list bytes)
| WJsonArrPop (k path : bytes) (index : Z)
| WJsonArrInsert (k path : bytes) (index : Z) (values : list bytes)
| WJsonArrTrim (k path : bytes) (start stop : Z)
| WJsonToggle (k path : bytes)
| WJsonClear (k path : bytes).

(** The keys a write may change; [None] stands for all of them. *)
Definition write_keys (w : Write) : option (list bytes) :=
  match w with
  | WBasic o => cmd_keys o
  | WMSetNx items => Some items.*1
  | WLMove a b _ _ | WSMove a b _ => Some [a; b]
  | WCopy _ k _ | WGetToBuf k | WPut k _ | WTrySet k _ _ | WTrySetValue k _ | WStoreSet k _ | WSetIf k _ _
  | WSetRange k _ _ | WIncrByFloat k _ | WHIncrByFloat k _ _ | WSetBit k _ _ | WBitOp _ k _
  | WPfAdd k _ | WPfMerge k _ | WGeoAdd k _ _ _ _ | WGeoSearchStore _ k _ _ _ _ _ _
  | WXAdd k _ _ _ _ | WXTrim k _ | WXDel k _ | WXGroupCreate k _ _ _ | WXGroupDestroy k _ | WXAck k _ _
  | WJsonSet k _ _ _ _ | WJsonDel k _ | WJsonNum k _ _ | WJsonStrAppend k _ _ | WJsonArrAppend k _ _
  | WJsonArrPop k _ _ | WJsonArrInsert k _ _ _ | WJsonArrTrim k _ _ _ | WJsonToggle k _ | WJsonClear k _ => Some [k]
  end.

(** A failure changes nothing. *)
Definition all_or_nothing (w : Write) : bool :=
  match w with
  | WSetRange _ _ _ | WLMove _ _ _ _ | WSMove _ _ _ => false
  | WTrySetValue _ v => expires_ms v =? 0
  | _ => true
  end.

(** An expiry that the write creates is counted. *)
Definition counts_ttl (w : Write) : bool :=
  match w with
  | WCopy _ _ _ => false
  | WSetIf _ _ o => set_expires o =? 0
  | _ => true
  end.

(** The write gives a key the expiry of another. *)
Definition moves_ttl (w : Write) : bool :=
  match w with
  | WBasic o => names_two (cmd_keys o)
  | WCopy _ _ _ => true
  | _ => false
  end.

Definition opt_err {A} (r : option (result A)) : option bytes := match r with Some (Err e) => Some e | _ => None end.

Section Writes.
Context {M : Type} `{KVMap StoreValue M} `{HashOrder} (c : Clock).
Implicit Types st : Store M.

Definition full_err {A} (p : Store M * option A) : Store M * option bytes :=
  (p.1, match p.2 with Some _ => None | None => Some FULL end).
Definition json_err {A} (p : Store M * option (result A)) : Store M * option bytes := (p.1, opt_err p.2).

(** SET with NX, XX or GET. *)
Definition set_if (k v : bytes) (o : SetOptions) st : Store M :=
  let '(st', r) := try_update k (set_closure c o (mkValue (VString v) (set_expires o))) st in
  match r with
  | Some _ => st'
  | None => if set_xx o then st' else put k (mkValue (VString v) (set_expires o)) st'
  end.

(** MSETNX: what was inserted is taken back when a key was there. *)
Definition msetnx_store (items : list (bytes * bytes)) st : Store M :=
  let '(st, (inserted, all_ok)) := msetnx_insert items [] st in
  if all_ok then st else foldl (λ st key, with_data st (kv_remove key (data st)).1) st inserted.

(** One write at one instant: the store afterwards and the error reply, if any. *)
Definition write (w : Write) st : Store M * option bytes :=
  match w with
  | WBasic o => exec c o st
  | WGetToBuf k => ((get_to_buf c k [] st).1.1, None)
  | WPut k v => (put k (mkValue v 0) st, None)
  | WTrySet k v exp => full_err (try_set_string k v exp st)
  | WTrySetValue k v => full_err (try_set_value k v st)
  | WStoreSet k v => (store_set k v st, None)
  | WSetIf k v o => (set_if k v o st, None)
  | WMSetNx items => (msetnx_store items st, None)
  | WCopy src dst replace => no_err (copy c src dst replace st)
  | WSetRange k offset v => with_err (Store.setrange k offset v st)
  | WIncrByFloat k n => with_err (HashOps.incrbyfloat k n st)
  | WHIncrByFloat k f n => with_err (HashOps.hincrbyfloat c k f n st)
  | WLMove src dst a b => with_err (lmove c src dst a b st)
  | WSMove src dst m => with_err (smove c src dst m st)
  | WSetBit k offset b => with_err (setbit c k offset b st)
  | WBitOp op dst ks => with_err (bitop c op dst ks st)
  | WPfAdd k es => with_err (pfadd c k es st)
  | WPfMerge dst ks => with_err (pfmerge c dst ks st)
  | WGeoAdd k items nx xx ch => with_err (geoadd c k items nx xx ch st)
  | WGeoSearchStore libm dst src center shape asc count storedist =>
      json_err (geosearchstore libm c dst src center shape asc count storedist st)
  | WXAdd k id fields maxlen nomk => with_err (xadd c k id fields maxlen nomk st)
  | WXTrim k maxlen => with_err (xtrim c k maxlen st)
  | WXDel k ids => with_err (xdel c k ids st)
  | WXGroupCreate k g id mk => with_err (xgroup_create c k g id mk st)
  | WXGroupDestroy k g => with_err (xgroup_destroy c k g st)
  | WXAck k g ids => with_err (xack c k g ids st)
  | WJsonSet k p v nx xx => json_err (json_set c k p v nx xx st)
  | WJsonDel k p => json_err (json_del c k p st)
  | WJsonNum k p f => json_err (json_num c k p f st)
  | WJsonStrAppend k p s => json_err (json_strappend c k p s st)
  | WJsonArrAppend k p vs => json_err (json_arrappend c k p vs st)
  | WJsonArrPop k p i => json_err (json_arrpop c k p i st)
  | WJsonArrInsert k p i vs => json_err (json_arrinsert c k p i vs st)
  | WJsonArrTrim k p a b => json_err (json_arrtrim c k p a b st)
  | WJsonToggle k p => json_err (json_toggle c k p st)
  | WJsonClear k p => json_err (json_clear c k p st)
  end.
End Writes.

(** A run: each write at its own instant. *)
Definition run_writes {M} `{KVMap StoreValue M} `{HashOrder} (l : list (Clock * Write)) (st : Store M) : Store M :=
  foldl (λ st p, (write p.1 p.2 st).1) st l.

(** ** What every write guarantees *)

Section Guarantees.
Context {M : Type} `{KVMapLaws StoreValue M} `{HashOrder}.
Implicit Types (st : Store M) (k : bytes).

(** A change of the keys [ks] that gives no key an expiry. *)
Record gentle (ks : list bytes) st st' : Prop := {
  ge_wf : store_wf st';
  ge_ttl : same_ttl st st';
  ge_frame : ∀ k, k ∉ ks → db st' !! k = db st !! k;
  ge_new : no_new_ttl (db st) (db st');
  ge_count : ttl_keys (db st') <= ttl_keys (db st);
}.

Lemma gentle_refl ks st : store_wf st → gentle ks st st.
Proof. intros Hw. split; [done|apply same_ttl_refl|done|apply no_new_ttl_refl|done]. Qed.

Lemma gentle_trans ks st1 st2 st3 : gentle ks st1 st2 → gentle ks st2 st3 → gentle ks st1 st3.
Proof.
  intros [? ? Hf Hn ?] [? ? Hf' Hn' ?]. split; [done|by eapply same_ttl_trans| | |lia].
  - intros k Hk. by rewrite Hf', Hf.
  - intros k v Hk Hv. destruct (Hn' k v Hk Hv) as (v' & Hk' & Hv'). by apply (Hn k v').
Qed.

Lemma gentle_at ks k st st' :
  store_wf st' → same_ttl st st' → k ∈ ks → (∀ k', k' ≠ k → db st' !! k' = db st !! k') →
  ttl_keys (db st') <= ttl_keys (db st) → gentle ks st st'.
Proof.
  intros Hw Hs Hk Hf Ht. split; [done|done| |by eapply no_new_ttl_at|done].
  intros k' Hk'. apply Hf. by intros ->.
Qed.

Lemma gentle_put ks k v st : store_wf st → k ∈ ks → expires_ms v = 0 → gentle ks st (put k v st).
Proof.
  intros Hw Hk Hv. destruct (put_spec k v st Hw) as (Hw' & Hd & Hs). apply (gentle_at _ k); [done..| |].
  - intros k' Hne. rewrite Hd. by apply lookup_insert_ne.
  - rewrite Hd. by apply ttl_keys_persistent.
Qed.

Lemma gentle_put_absent ks k v st :
  store_wf st → k ∈ ks → expires_ms v = 0 → gentle ks st (with_data st (kv_insert_if_absent k v (data st)).1).
Proof.
  intros Hw Hk Hv. destruct (put_absent_spec k v st Hw) as (Hw' & Hd & Hs & _).
  destruct (kv_insert_if_absent k v (data st)) as [m b]. simpl in *. apply (gentle_at _ k); [done..| |]; rewrite Hd.
  - intros k' Hne. case_goal; [done|by apply lookup_insert_ne].
  - case_goal; [done|by apply ttl_keys_persistent].
Qed.

Lemma gentle_remove ks k st : store_wf st → k ∈ ks → gentle ks st (with_data st (kv_remove k (data st)).1).
Proof.
  intros Hw Hk. destruct (remove_spec k st Hw) as (Hw' & Hd & Hs & _). destruct (kv_remove k (data st)) as [m r].
  simpl in *. apply (gentle_at _ k); [done..| |]; rewrite Hd.
  - intros k' Hne. by apply lookup_delete_ne.
  - apply ttl_keys_delete_le.
Qed.

Lemma gentle_update {R} ks k (f : StoreValue → StoreValue * R) st :
  store_wf st → k ∈ ks → tame f → gentle ks st (update_with k f st).1.
Proof.
  intros Hw Hk Ht. destruct (update_with_spec k f st Hw) as (Hw' & Hd & Hs & _). apply (gentle_at _ k); [done..| |].
  - intros k' Hne. rewrite Hd. by apply upd_lookup_ne.
  - rewrite Hd. by apply upd_tame.
Qed.

Lemma gentle_update_or_insert {R} ks k (f : StoreValue → StoreValue * R) fresh r0 st :
  store_wf st → k ∈ ks → tame f → expires_ms fresh = 0 → gentle ks st (update_or_insert k f fresh r0 st).1.
Proof.
  intros Hw Hk Ht Hf. unfold update_or_insert. pose proof (gentle_update ks k f st Hw Hk Ht) as Hg.
  destruct (update_with k f st) as [st' [r|]]; simpl in *; [done|].
  eapply gentle_trans; [done|]. apply gentle_put; [apply Hg|done..].
Qed.

(** Nothing was changed by an update that failed. *)
Lemma update_err {R} k (f : StoreValue → StoreValue * R) st :
  store_wf st → (∀ v, db st !! k = Some v → (f v).1 = v) → db (update_with k f st).1 = db st.
Proof.
  intros Hw Hf. destruct (update_with_spec k f st Hw) as (_ & Hd & _). rewrite Hd. unfold upd.
  destruct (db st !! k) as [v|] eqn:E; [|done]. rewrite (Hf v eq_refl). by apply insert_id.
Qed.

Record write_ok_on (w : Write) st (p : Store M * option bytes) : Prop := {
  wo_wf : store_wf p.1;
  wo_frame : ∀ l k', write_keys w = Some l → k' ∉ l → db p.1 !! k' = db st !! k';
  wo_err : all_or_nothing w = true → ∀ e, p.2 = Some e → db p.1 = db st ∧ same_ttl st p.1;
  wo_ttl : counts_ttl w = true → ttl_keys (db st) <= ttl_count st → ttl_keys (db p.1) <= ttl_count p.1;
  wo_gen : ttl_generation st <= ttl_generation p.1;
  wo_new : counts_ttl w = true → moves_ttl w = false → ttl_generation p.1 = ttl_generation st → no_new_ttl (db st) (db p.1);
}.

Lemma cmd_write_ok w st p : cmd_ok (write_keys w) st p → names_two (write_keys w) = moves_ttl w → write_ok_on w st p.
Proof. intros [? ? ? ? ? Hn] Hm. split; auto. intros _ Hw. apply Hn. congruence. Qed.

Lemma gentle_write_ok w ks st p :
  write_keys w = Some ks → gentle ks st p.1 →
  (all_or_nothing w = true → ∀ e, p.2 = Some e → db p.1 = db st) → write_ok_on w st p.
Proof.
  intros Hk [Hw Hs Hf Hn Hc] He. split; [done| | | | |done].
  - intros l k'. rewrite Hk. intros [= <-]. apply Hf.
  - intros Ha e Hr. split; [by eapply He|done].
  - intros _. destruct Hs as (-> & _). lia.
  - by destruct Hs as (_ & -> & _).
Qed.

(** ** The operations of the store *)

Lemma get_to_buf_gentle c k st : store_wf st → gentle [k] st (get_to_buf c k [] st).1.1.
Proof.
  intros Hw. unfold get_to_buf.
  repeat case_match; simpl; try (by apply gentle_refl); apply gentle_remove; (done || set_solver).
Qed.

Lemma try_set_string_eq k v exp st :
  store_wf st →
  try_set_string k v exp st = (st, None) ∨ try_set_string k v exp st = (set_string k v exp st, Some tt).
Proof.
  intros Hw. unfold try_set_string, set_string. rewrite kv_try_set_spec by done.
  destruct (_ && _); [left; by destruct st|right]. by destruct (kv_set k _ (data st)).
Qed.

Lemma try_set_value_eq k v st :
  store_wf st →
  try_set_value k v st = (if negb (expires_ms v =? 0) then add_ttl st else st, None) ∨
  try_set_value k v st = (store_set k v st, Some tt).
Proof.
  intros Hw. unfold try_set_value, store_set, put. cbv zeta.
  set (s := if negb (expires_ms v =? 0) then add_ttl st else st).
  assert (Hs : data s = data st) by (unfold s; by case_goal). rewrite Hs, kv_try_insert_spec by done.
  destruct (_ && _); [left; rewrite <- Hs; by destruct s|right]. by destruct (kv_insert k v (data st)).
Qed.

(** An expiry counted with or before the change. *)
Lemma bumped_ok w k st st' r :
  write_keys w = Some [k] → (r ≠ None → all_or_nothing w = false) →
  store_wf st' → ttl_count st' = ttl_count st + 1 → ttl_generation st' = ttl_generation st + 1 →
  (db st' = db st ∨ ∃ v, db st' = <[k := v]> (db st)) → write_ok_on w st (st', r).
Proof.
  intros Hk Hr Hw Hc Hg Hd. split; simpl; [done| | | |lia|lia].
  - intros l k'. rewrite Hk. intros [= <-] Hk'. destruct Hd as [->|[v ->]]; [done|]. apply lookup_insert_ne. set_solver.
  - intros Ha e ->. rewrite Hr in Ha by done. done.
  - intros _ Ht. rewrite Hc. destruct Hd as [->|[v ->]]; [lia|]. rewrite ttl_keys_insert.
    pose proof (ttl_keys_delete_le (db st) k). destruct (has_ttl v); simpl; lia.
Qed.

Lemma store_set_ok w k v st r :
  write_keys w = Some [k] → r = None → store_wf st → write_ok_on w st (store_set k v st, r).
Proof.
  intros Hk -> Hw. unfold store_set. destruct (expires_ms v =? 0) eqn:E; split_bool; simpl.
  - apply (gentle_write_ok _ [k]); [done| |done]. apply gentle_put; [done|set_solver|done].
  - destruct (put_spec k v (add_ttl st) Hw) as (Hw' & Hd & Hs & Hg & _).
    apply (bumped_ok _ k); [done|done|done|by rewrite Hs|by rewrite Hg|]. right. by exists v.
Qed.

Lemma set_closure_value c o nv cur v r : set_closure c o nv cur = Some (v, r) → v = cur ∨ v = nv.
Proof. unfold set_closure. cbv zeta. repeat case_match; naive_solver. Qed.

Lemma set_if_spec c k v o st :
  store_wf st →
  store_wf (set_if c k v o st) ∧ same_ttl st (set_if c k v o st) ∧
  (db (set_if c k v o st) = db st ∨ db (set_if c k v o st) = <[k := mkValue (VString v) (set_expires o)]> (db st)).
Proof.
  intros Hw. unfold set_if, try_update. set (nv := mkValue _ _). set (f := set_closure c o nv).
  destruct (kv_try_update_spec (data st) k f Hw) as (Hw1 & Hd1 & _ & Hr1).
  destruct (kv_try_update k f (data st)) as [m r]. simpl in *. destruct r as [r|].
  - split; [exact Hw1|]. split; [by repeat split|]. unfold db. simpl. rewrite Hd1.
    destruct (kv_abs (data st) !! k) as [cur|] eqn:E; simpl in *; [|done]. destruct (f cur) as [[v' r']|] eqn:Ef; [|done].
    destruct (set_closure_value c o nv cur v' r' Ef) as [->| ->]; [left; by apply insert_id|by right].
  - assert (Hd : db (with_data st m) = db st).
    { unfold db. simpl. rewrite Hd1. destruct (kv_abs (data st) !! k ≫= f) as [[? ?]|]; done. }
    destruct (set_xx o); [split; [exact Hw1|]; split; [by repeat split|by left]|].
    destruct (put_spec k nv (with_data st m) Hw1) as (? & Hd2 & Hs). split; [done|]. split; [done|]. right.
    by rewrite Hd2, Hd.
Qed.

Lemma set_if_ok c k v o st : store_wf st → write_ok_on (WSetIf k v o) st (set_if c k v o st, None).
Proof.
  intros Hw. destruct (set_if_spec c k v o st Hw) as (Hw' & Hs & Hd).
  assert (Hf : ∀ k', k' ≠ k → db (set_if c k v o st) !! k' = db st !! k').
  { intros k' Hne. destruct Hd as [->| ->]; [done|by apply lookup_insert_ne]. }
  destruct (set_expires o =? 0) eqn:E.
  - split_bool. apply (gentle_write_ok _ [k]); [done| |done]. apply (gentle_at _ k); [done|done|set_solver|done|]. simpl.
    destruct Hd as [->| ->]; [done|by apply ttl_keys_persistent].
  - split; simpl; rewrite ?E; try done.
    + intros l k' [= <-] Hk'. apply Hf. set_solver.
    + by destruct Hs as (_ & -> & _).
Qed.

Lemma copy_ok c src dst rp st : store_wf st → write_ok_on (WCopy src dst rp) st (no_err (copy c src dst rp st)).
Proof.
  intros Hw. assert (Hc : ∃ st', (copy c src dst rp st).1 = st' ∧ store_wf st' ∧ same_ttl st st' ∧
    ∀ k', k' ≠ dst → db st' !! k' = db st !! k').
  { unfold copy. assert (Hid : store_wf st ∧ same_ttl st st ∧ ∀ k', k' ≠ dst → db st !! k' = db st !! k')
      by (split; [done|]; split; [apply same_ttl_refl|done]).
    destruct (kv_get_ref (data st) src) as [e|]; [|by exists st]. destruct (is_expired c e); [by exists st|].
    destruct rp; simpl.
    - eexists. split; [done|]. destruct (put_spec dst e st Hw) as (? & Hd & ?). split; [done|]. split; [done|].
      intros k' Hne. rewrite Hd. by apply lookup_insert_ne.
    - destruct (put_absent_spec dst e st Hw) as (? & Hd & ? & _).
      destruct (kv_insert_if_absent dst e (data st)) as [m ok]. simpl in *. eexists. split; [done|]. split; [done|].
      split; [done|]. intros k' Hne. rewrite Hd. case_goal; [done|by apply lookup_insert_ne]. }
  destruct Hc as (st' & Heq & Hw' & Hs & Hf). unfold no_err. rewrite Heq. split; simpl; try done.
  - intros l k' [= <-] Hk'. apply Hf. set_solver.
  - by destruct Hs as (_ & -> & _).
Qed.

Lemma msetnx_insert_gentle ks items ins st :
  store_wf st → items.*1 ⊆ ks → ins ⊆ ks →
  gentle ks st (msetnx_insert items ins st).1 ∧ (msetnx_insert items ins st).2.1 ⊆ ks.
Proof.
  revert ins st. induction items as [|[k v] items IH]; intros ins st Hw Hks Hins; simpl; [by split; [apply gentle_refl|]|].
  assert (Hg : gentle ks st (with_data st (kv_insert_if_absent k (StoreValue_string v) (data st)).1)).
  { apply gentle_put_absent; [done|apply Hks; simpl; set_solver|done]. }
  destruct (kv_insert_if_absent k _ (data st)) as [m []]; simpl in *; [|done].
  destruct (IH (ins ++ [k]) (with_data st m)) as [Hg' Hi'].
  - apply Hg.
  - intros x Hx. apply Hks. simpl. set_solver.
  - intros x Hx. apply elem_of_app in Hx as [Hx|Hx]; [by apply Hins|]. apply Hks. simpl. set_solver.
  - split; [by eapply gentle_trans|done].
Qed.

Lemma msetnx_gentle items st : store_wf st → gentle items.*1 st (msetnx_store items st).
Proof.
  intros Hw. unfold msetnx_store. destruct (msetnx_insert_gentle items.*1 items [] st Hw) as [Hg Hi]; [done|set_solver|].
  destruct (msetnx_insert items [] st) as [st' [ins ok]]. simpl in *. destruct ok; [done|].
  eapply gentle_trans; [exact Hg|]. apply ge_wf in Hg. revert st' Hg. induction ins as [|k ins IH]; intros st' Hw'; simpl; [by apply gentle_refl|].
  assert (Hr : gentle items.*1 st' (with_data st' (kv_remove k (data st')).1)) by (apply gentle_remove; [done|set_solver]).
  eapply gentle_trans; [exact Hr|]. apply IH; [set_solver|apply Hr].
Qed.

Lemma setrange_gentle k off v st : store_wf st → gentle [k] st (Store.setrange k off v st).1.
Proof.
  intros Hw. unfold Store.setrange. repeat case_goal; try (by apply gentle_refl). cbn [setrange_loop].
  set (f := λ cur, _). assert (Hg : gentle [k] st (update_with k f st).1).
  { apply gentle_update; [done|set_solver|]. intros cur. unfold f. case_match; by right. }
  destruct (update_with k f st) as [st' [r|]]; simpl in *; [done|]. case_goal; simpl; [|done].
  pose proof (gentle_put_absent [k] k (StoreValue_string (replicate (Z.to_nat off) (z2b 0) ++ v)) st' (ge_wf _ _ _ Hg)) as Ha.
  destruct (kv_insert_if_absent k _ (data st')) as [m []]; simpl in *; [|by apply gentle_refl].
  eapply gentle_trans; [exact Hg|]. apply Ha; [set_solver|done].
Qed.

Ltac tame_atomic :=
  first [ apply list_update_ok | apply hash_update_ok | apply set_update_ok | apply zset_update_ok | apply int_update_ok ];
  try (by intros ? ?); try (by left); try (intros v0; by right);
  try (intros ? ?; by repeat case_goal).

Lemma lmove_gentle c src dst a b st : store_wf st → gentle [src; dst] st (lmove c src dst a b st).1.
Proof.
  intros Hw. unfold lmove. set (f := list_update c _ _).
  assert (Hg : gentle [src; dst] st (update_with src f st).1).
  { apply gentle_update; [done|set_solver|]. tame_atomic. }
  destruct (update_with src f st) as [st' [[[v|]|e]|]]; simpl in *; try done.
  set (p := if bool_decide _ then _ else _). assert (Hp : gentle [src; dst] st' p.1).
  { unfold p. case_goal; (apply gentle_update_or_insert; [apply Hg|set_solver| |done]).
    - intros cur. case_match; by right.
    - tame_atomic. }
  destruct p as [st'' [?|?]]; simpl in *; (eapply gentle_trans; [exact Hg|exact Hp]).
Qed.

Lemma smove_gentle c src dst m st : store_wf st → gentle [src; dst] st (smove c src dst m st).1.
Proof.
  intros Hw. unfold smove. set (f := set_update c _ _).
  assert (Hg : gentle [src; dst] st (update_with src f st).1).
  { apply gentle_update; [done|set_solver|]. tame_atomic. }
  destruct (update_with src f st) as [st' [[[]|e]|]]; simpl in *; try done.
  set (p := update_or_insert dst _ _ _ _). assert (Hp : gentle [src; dst] st' p.1).
  { apply gentle_update_or_insert; [apply Hg|set_solver|tame_atomic|done]. }
  destruct p as [st'' [?|?]]; simpl in *; (eapply gentle_trans; [exact Hg|exact Hp]).
Qed.

(** An update of one key, and a new value for a key that was absent: the shape of
    the operations of streams and documents.  It fails with the closure, which
    then leaves the value alone, or for an absent key without storing. *)
Lemma update_then_put {R} w k (f : StoreValue → StoreValue * R) (err : R → option bytes) (absent : option StoreValue) (r0 : R) st :
  write_keys w = Some [k] → store_wf st → tame f → (∀ v e, err (f v).2 = Some e → (f v).1 = v) →
  (∀ v, absent = Some v → expires_ms v = 0 ∧ err r0 = None) →
  write_ok_on w st
    (let '(st', r) := update_with k f st in
     match r with
     | Some r => (st', err r)
     | None => (match absent with Some v => put k v st' | None => st' end, err r0)
     end).
Proof.
  intros Hk Hw Ht Ha Hab. pose proof (gentle_update [k] k f st Hw ltac:(set_solver) Ht) as Hg.
  destruct (update_with_spec k f st Hw) as (_ & Hd & _ & Hr). destruct (update_with k f st) as [st' r]. simpl in *.
  unfold upd in Hd. destruct (db st !! k) as [v|] eqn:E; simpl in Hr; subst r.
  - apply (gentle_write_ok _ [k]); [done|done|]. intros _ e He. simpl in *. rewrite Hd, (Ha v e He). by apply insert_id.
  - destruct absent as [v|].
    + destruct (Hab v eq_refl) as [Hv He]. apply (gentle_write_ok _ [k]); [done| |].
      * simpl. eapply gentle_trans; [exact Hg|]. apply gentle_put; [apply Hg|set_solver|done].
      * simpl. rewrite He. done.
    + apply (gentle_write_ok _ [k]); [done|done|]. by intros _ e _.
Qed.

Lemma unchanged_ok w st r : names_two (write_keys w) = moves_ttl w → store_wf st → write_ok_on w st (st, r).
Proof. intros Hm Hw. apply cmd_write_ok; [apply id_ok; done|exact Hm]. Qed.

Ltac closure_cases := intros ?; try intros ?; repeat case_goal; simpl; naive_solver.

Lemma xadd_ok c k id fields maxlen nomk st :
  store_wf st → write_ok_on (WXAdd k id fields maxlen nomk) st (with_err (xadd c k id fields maxlen nomk st)).
Proof.
  intros Hw. unfold xadd. destruct (if bool_decide _ then _ else _) as [i|]; [|by apply unchanged_ok].
  destruct (add_and_trim c i fields maxlen StreamData_new) as [fresh fid]. set (f := λ val, _).
  pose proof (update_then_put (WXAdd k id fields maxlen nomk) k f err_of
    (if nomk then None else Some (StoreValue_stream fresh)) (Ok (if nomk then None else Some fid)) st eq_refl Hw) as Hok.
  unfold with_err. destruct (update_with k f st) as [st' [r|]]; [|destruct nomk];
    (apply Hok; clear Hok; unfold f; closure_cases).
Qed.

Lemma xgroup_create_ok c k g id mk st :
  store_wf st → write_ok_on (WXGroupCreate k g id mk) st (with_err (xgroup_create c k g id mk st)).
Proof.
  intros Hw. unfold xgroup_create. set (start := if bool_decide _ then _ else _).
  set (fresh := insert_group _ _ StreamData_new). set (f := λ val, _).
  pose proof (update_then_put (WXGroupCreate k g id mk) k f err_of
    (if negb mk then None else Some (StoreValue_stream fresh)) (if negb mk then Err NO_STREAM else Ok true) st eq_refl Hw) as Hok.
  unfold with_err. destruct (update_with k f st) as [st' [r|]]; [|destruct mk];
    (apply Hok; clear Hok; unfold f; closure_cases).
Qed.

Lemma stream_update_ok {R} w c k (r0 : R) (g : StreamData → StreamData * R) st :
  write_keys w = Some [k] → moves_ttl w = false → store_wf st →
  write_ok_on w st (with_err (update_or k (stream_update c r0 g) (Ok r0) st)).
Proof.
  intros Hk Hm Hw. apply cmd_write_ok; rewrite Hk; [|done]. unfold stream_update.
  apply update_or_ok; [done|closure_cases..].
Qed.

(** The closures of the documents only fail before the document is printed back. *)
Definition fails_early {R} (f : JsonValue → option JsonValue * result R) : Prop :=
  ∀ j e, (f j).2 = Err e → (f j).1 = None.

Lemma at_path_early {R} p (missing : result R) f : fails_early f → fails_early (at_path p missing f).
Proof.
  intros Hf j e. unfold at_path. destruct (get_path_mut p j) as [[t put]|]; [|done].
  pose proof (Hf t e) as Ht. destruct (f t) as [new r]. simpl in *. intros He. by rewrite (Ht He).
Qed.

Lemma json_update_ok {R} w c k (absent : result R) f st :
  write_keys w = Some [k] → moves_ttl w = false → store_wf st → fails_early f →
  write_ok_on w st (json_err (json_update c k absent f st)).
Proof.
  intros Hk Hm Hw Hf. unfold json_update, json_err. set (g := λ val, _).
  pose proof (update_then_put w k g opt_err None (Some absent) st Hk Hw) as Hok.
  destruct (update_with k g st) as [st' [r|]]; apply Hok; clear Hok; try done.
  all: unfold g; intros v; try intros e; repeat case_goal; simpl; try naive_solver.
  all: match goal with Ef : ?h ?j = _, He : fails_early ?h |- _ => specialize (He j); rewrite Ef in He; simpl in He end.
  all: intros Hr; repeat case_match; simplify_eq/=; naive_solver.
Qed.

Lemma json_del_ok c k p st : store_wf st → write_ok_on (WJsonDel k p) st (json_err (json_del c k p st)).
Proof.
  intros Hw. unfold json_del. case_goal.
  - pose proof (gentle_remove [k] k st Hw ltac:(set_solver)) as Hg. destruct (kv_remove k (data st)) as [m r].
    by apply (gentle_write_ok _ [k]).
  - apply json_update_ok; [done..|]. intros j e'. by case_match.
Qed.

(** JSON.SET at a path: in place, or a new document for an absent key. *)
Lemma json_set_ok c k p v nx xx st : store_wf st → write_ok_on (WJsonSet k p v nx xx) st (json_err (json_set c k p v nx xx st)).
Proof.
  intros Hw. unfold json_set. case_goal.
  - repeat case_goal; try (by apply unchanged_ok). apply (gentle_write_ok _ [k]); [done| |done].
    apply gentle_put; [done|set_solver|done].
  - destruct (parse_json v) as [parsed|]; [|by apply unchanged_ok]. set (fresh := set_path p parsed (JObject [])). set (f := λ val, _).
    pose proof (update_then_put (WJsonSet k p v nx xx) k f opt_err
      (if xx then None else StoreValue_json <$> fresh)
      (if xx then Some (Ok false) else match fresh with Some _ => Some (Ok true) | None => Some (Err NO_PATH) end)
      st eq_refl Hw) as Hok.
    unfold json_err. destruct (update_with k f st) as [st' [r|]]; [|destruct xx; [|destruct fresh as [root|]]];
      (apply Hok; clear Hok; unfold f; closure_cases).
Qed.

Lemma pfadd_closure_ok c (es : list bytes) fresh changed :
  let f := λ val, if is_expired c val then (mkValue (VString (encode_hll fresh)) 0, Ok changed)
    else match as_string (value val) with
         | Some s =>
             let '(h, changed) := add_all es (decode_hll s) in
             (if changed : bool then mkValue (VString (encode_hll h)) (expires_ms val) else val, Ok changed)
         | None => (val, Err WRONGTYPE)
         end in
  tame f ∧ atomic f.
Proof. split; closure_cases. Qed.

Lemma json_array_ok w c k p f st :
  write_keys w = Some [k] → moves_ttl w = false → store_wf st →
  write_ok_on w st (json_err (json_array c k p f st)).
Proof. intros. apply json_update_ok; [done..|]. apply at_path_early. intros j e. by destruct j. Qed.

Lemma write_ok_spec c w st : store_wf st → write_ok_on w st (write c w st).
Proof.
  intros Hw. destruct w; cbn [write].
  - apply cmd_write_ok; [by apply exec_ok|done].
  - apply (gentle_write_ok _ [k]); [done|by apply get_to_buf_gentle|done].
  - apply (gentle_write_ok _ [k]); [done|apply gentle_put; [done|set_solver|done]|done].
  - unfold full_err. destruct (try_set_string_eq k v exp st Hw) as [-> | ->]; [by apply unchanged_ok|].
    apply cmd_write_ok; [by apply set_ok|done].
  - unfold full_err. destruct (try_set_value_eq k v st Hw) as [-> | ->]; [|by apply store_set_ok].
    destruct (expires_ms v =? 0) eqn:E; [by apply unchanged_ok|].
    apply (bumped_ok _ k); [done|by simpl|done|done|done|by left].
  - by apply store_set_ok.
  - by apply set_if_ok.
  - apply (gentle_write_ok _ items.*1); [done|by apply msetnx_gentle|done].
  - by apply copy_ok.
  - apply (gentle_write_ok _ [k]); [done|by apply setrange_gentle|done].
  - apply cmd_write_ok; [|done]. apply update_or_insert_ok; [done|closure_cases..|done].
  - apply cmd_write_ok; [|done]. apply update_or_insert_ok; [done|tame_atomic|tame_atomic|done].
  - apply (gentle_write_ok _ [src; dst]); [done|by apply lmove_gentle|done].
  - apply (gentle_write_ok _ [src; dst]); [done|by apply smove_gentle|done].
  - apply cmd_write_ok; [|done]. apply update_or_insert_ok; [done|closure_cases..|done].
  - unfold bitop. repeat case_goal; try (by apply unchanged_ok);
      (apply (gentle_write_ok _ [dst]); [done|apply gentle_put; [done|set_solver|done]|done]).
  - unfold pfadd. destruct (add_all elements HllData_new) as [fresh changed]. apply cmd_write_ok; [|done].
    apply update_or_insert_ok; [done|apply pfadd_closure_ok..|done].
  - unfold pfmerge. case_goal; [|by apply unchanged_ok].
    apply (gentle_write_ok _ [dst]); [done|apply gentle_put; [done|set_solver|done]|done].
  - apply cmd_write_ok; [by apply zadd_ok|done].
  - unfold geosearchstore. destruct (geosearch _ _ _ _ _ _ _ _) as [[a|e]|]; try (by apply unchanged_ok).
    apply (gentle_write_ok _ [dst]); [done|apply gentle_put; [done|set_solver|done]|done].
  - by apply xadd_ok.
  - by apply stream_update_ok.
  - by apply stream_update_ok.
  - by apply xgroup_create_ok.
  - by apply stream_update_ok.
  - by apply stream_update_ok.
  - by apply json_set_ok.
  - by apply json_del_ok.
  - apply json_update_ok; [done..|]. apply at_path_early. intros j e. by destruct j.
  - apply json_update_ok; [done..|]. apply at_path_early. intros j e. by destruct j.
  - unfold json_arrappend. case_goal; [|by apply unchanged_ok]. by apply json_array_ok.
  - apply json_update_ok; [done..|]. apply at_path_early. intros j e. destruct j; try done. simpl. by case_goal.
  - unfold json_arrinsert. case_goal; [|by apply unchanged_ok]. by apply json_array_ok.
  - by apply json_array_ok.
  - apply json_update_ok; [done..|]. apply at_path_early. intros j e. by destruct j.
  - apply json_update_ok; [done..|]. apply at_path_early. intros j e. by destruct j.
Qed.

Lemma run_writes_wf l st : store_wf st → store_wf (run_writes l st).
Proof. revert st. induction l as [|[c w] l IH]; intros st Hw; [done|]. apply IH, write_ok_spec, Hw. Qed.

Lemma run_writes_ok l st :
  (∀ p, p ∈ l → counts_ttl p.2 = true) → store_wf st → ttl_keys (db st) <= ttl_count st →
  store_wf (run_writes l st) ∧ ttl_keys (db (run_writes l st)) <= ttl_count (run_writes l st).
Proof.
  revert st. induction l as [|[c w] l IH]; intros st Hl Hw Ht; [done|].
  destruct (write_ok_spec c w st Hw) as [Hw' _ _ Ht' _ _].
  apply IH; [intros; apply Hl; set_solver|done|]. apply Ht'; [|done]. apply (Hl (c, w)). set_solver.
Qed.
End Guarantees.

(** ** Properties *)

Section Claims.
Context (hash_one : bytes → Z) `{HashOrder}.
#[local] Instance writes_kv : KVMap StoreValue (CustomMap StoreValue) := claims_kv hash_one.
#[local] Instance writes_laws : KVMapLaws StoreValue (CustomMap StoreValue) := claims_laws hash_one.

(** The store reached by a run of writes from an empty one. *)
Definition after_writes (shards max_keys : Z) (l : list (Clock * Write)) : Store (CustomMap StoreValue) :=
  run_writes l (with_config shards max_keys).

Lemma with_config_ok shards max_keys :
  store_wf (with_config shards max_keys) ∧ db (with_config shards max_keys) = ∅.
Proof. exact (with_capacity_wf (V := StoreValue) hash_one shards max_keys). Qed.

(** C19: The TTL counter never undercounts.  After any run of writes from an empty
    store in which there is no COPY and no conditional SET with an expiry
    ([counts_ttl]), it is at least the number of keys that carry an expiry, so
    when [has_ttl_keys] is false, and the expiry sweep is skipped, no key has
    one.  The two exceptions, and a snapshot loaded at the start, do undercount:
    [copy_undercounts], [set_if_undercounts]. *)
Theorem ttl_never_undercounts shards max_keys l :
  (∀ p, p ∈ l → counts_ttl p.2 = true) →
  let st := after_writes shards max_keys l in
  ttl_keys (db st) <= ttl_count st ∧
  (has_ttl_keys st = false → ∀ k v, db st !! k = Some v → expires_ms v = 0).
Proof.
  intros Hl. cbv zeta. destruct (with_config_ok shards max_keys) as [Hw Ha].
  destruct (run_writes_ok l (with_config shards max_keys) Hl Hw) as [_ Ht]; [by rewrite Ha|].
  change (run_writes l _) with (after_writes shards max_keys l) in Ht. split; [done|].
  unfold has_ttl_keys. intros Hz k v Hk. split_bool.
  pose proof (ttl_keys_delete (db (after_writes shards max_keys l)) k v Hk) as Hd. unfold has_ttl in Hd.
  destruct (expires_ms v =? 0) eqn:E; split_bool; [done|]. change (Z.b2z (negb false)) with 1 in Hd.
  unfold ttl_keys in *. lia.
Qed.


(** A write changes only the keys it names. *)
Theorem write_frame shards max_keys l c w ks k :
  let st := after_writes shards max_keys l in
  write_keys w = Some ks → k ∉ ks → db (write c w st).1 !! k = db st !! k.
Proof.
  cbv zeta. intros Hks Hk.
  assert (Hw : store_wf (after_writes shards max_keys l)) by (apply run_writes_wf, with_config_ok).
  destruct (write_ok_spec c w _ Hw) as [_ Hf _ _ _ _]. by eapply Hf.
Qed.
End Claims.

(** ** Runs on concrete stores *)

Definition demo_writes (l : list Write) : Store (CustomMap StoreValue) :=
  after_writes toy_hash (H := canonical_order) 2 16 ((λ w, (demo_clock, w)) <$> l).

(** The exceptions are real.  SET with NX and EX does not count the expiry. *)
Theorem set_if_undercounts :
  let st := demo_writes [WSetIf (B "a") (B "v") (mkSetOptions 5000 true false false)] in
  has_ttl_keys st = false ∧
  expires_ms <$> kv_get_ref (KVMap := claims_kv toy_hash) (data st) (B "a") = Some 5000.
Proof. vm_compute. done. Qed.

(** SMOVE to a key that is not a set loses the member. *)
Theorem smove_wrongtype_loses :
  let st := demo_writes [WBasic (CSAdd (B "s") [B "x"; B "y"]); WBasic (CSet (B "d") (B "v") 0)] in
  let '(st', r) := write (H := claims_kv toy_hash) (H0 := canonical_order) demo_clock
    (WSMove (B "s") (B "d") (B "x")) st in
  r = Some WRONGTYPE ∧
  smembers (H := claims_kv toy_hash) (H0 := canonical_order) demo_clock (B "s") st' = Ok [B "y"].
Proof. vm_compute. done. Qed.

(** SETEX on a full map is refused with its expiry counted. *)
Theorem setex_full_counts :
  let st := after_writes toy_hash (H := canonical_order) 1 1 [(demo_clock, WPut (B "a") (VString (B "v")))] in
  let '(st', r) := write (H := claims_kv toy_hash) (H0 := canonical_order) demo_clock
    (WTrySetValue (B "b") (mkValue (VString (B "w")) 5000)) st in
  r = Some FULL ∧ ttl_count st = 0 ∧ ttl_count st' = 1.
Proof. vm_compute. done. Qed.

(** ** Witnesses *)

Definition demo_expiring : list (Clock * Write) :=
  (λ w, (demo_clock, w)) <$>
    [WBasic (CSet (B "a") (B "v") 5000); WTrySet (B "b") (B "w") 6000; WSMove (B "x") (B "y") (B "m");
     WBasic (CPersist (B "a"))].

Lemma ttl_never_undercounts_witness :
  (∀ p, p ∈ demo_expiring → counts_ttl p.2 = true) ∧
  let st := after_writes toy_hash (H := canonical_order) 2 16 demo_expiring in
  ttl_keys (db (H0 := claims_laws toy_hash) st) <= ttl_count st.
Proof.
  assert (Hl : ∀ p, p ∈ demo_expiring → counts_ttl p.2 = true).
  { apply Forall_forall. repeat constructor. }
  split; [exact Hl|]. exact (proj1 (ttl_never_undercounts toy_hash (H := canonical_order) 2 16 demo_expiring Hl)).
Defined.


