(* ===== verification/Main.v ===== *)
(** The process (main.rs): its configuration from the environment, the store
    it starts with, and the expiry thread, which sweeps expired keys, repairs
    the TTL counter and shrinks the tables; with the maintenance operations of
    storage/store.rs that it calls.

    One turn of the thread's loop is [tick].  Reclaiming memory
    ([force_collect], [purge]) does not change the store and is left out; what
    the allocator and the kernel report is an argument ([Readings]). *)

From S2P Require Import Prelude Decimal MapIface Shard ShardSpec CustomMap CustomMapSpec Collections Value Store StoreSpec.
From S2P Require Import Commands StoreClaims Scan Rdb Writes.
Local Open Scope Z_scope.

(** ** Configuration *)

(** [env::var]: [None] for a variable that is not set, or is not text. *)
Definition Environ : Type := bytes → option bytes.

Definition parse_u16 (s : bytes) : option Z := n ← parse_u64 s; if n <? 2 ^ 16 then Some n else None.

Definition env_u16 (env : Environ) (key : bytes) (default_ : Z) : Z := default default_ (env key ≫= parse_u16).
Definition env_usize (env : Environ) (key : bytes) (default_ : Z) : Z := default default_ (env key ≫= parse_u64).
Definition env_u64 (env : Environ) (key : bytes) (default_ : Z) : Z := default default_ (env key ≫= parse_u64).

(** [next_power_of_two] in a release build: zero when it does not fit. *)
Definition npot (n : Z) : Z := wrap64 (next_power_of_two n).

Record Config := mkConfig {
  cf_port : Z;
  cf_workers : Z;
  cf_shards : Z;
  cf_max_keys : Z;
  cf_max_clients : Z;
  cf_rdb_path : bytes;
  cf_rdb_interval : Z;   (* seconds *)
  cf_auth : option bytes;
  cf_bind : bytes;
}.

(** [num_cpus] is what the package of that name answers. *)
Definition from_env (num_cpus : Z) (env : Environ) : Config :=
  let workers := env_usize env (B "FYRODB_WORKERS") 0 in
  let workers := if workers =? 0 then num_cpus else workers in
  let shards := env_usize env (B "FYRODB_SHARDS") 0 in
  let shards := if shards =? 0 then npot (wrap64 (workers * 4)) else npot shards in
  mkConfig (env_u16 env (B "FYRODB_PORT") 8000) workers shards
    (env_usize env (B "FYRODB_MAX_KEYS") 1000) (env_usize env (B "FYRODB_MAX_CLIENTS") 10000)
    (default (B "fyrodb.rdb") (env (B "FYRODB_RDB_PATH"))) (env_u64 env (B "FYRODB_RDB_INTERVAL") 300)
    (s ← env (B "FYRODB_AUTH"); match s with [] => None | _ => Some s end)
    (default (B "0.0.0.0") (env (B "FYRODB_BIND"))).

(** With no variable set, on four cores. *)
Example default_config :
  from_env 4 (λ _, None) = mkConfig 8000 4 16 1000 10000 (B "fyrodb.rdb") 300 None (B "0.0.0.0").
Proof. vm_compute. reflexivity. Qed.

(** A variable that does not parse, or does not fit, counts as not set. *)
Example bad_port : from_env 4 (λ k, if bool_decide (k = B "FYRODB_PORT") then Some (B "65536") else None) = from_env 4 (λ _, None).
Proof. vm_compute. reflexivity. Qed.

(** ** What the kernel reports (store.rs) *)

(** [str::lines] and [split_whitespace], of a text of ASCII characters. *)
Fixpoint lines_from (line : bytes) (s : bytes) : list bytes :=
  match s with
  | [] => match line with [] => [] | _ => [line] end
  | b :: s' =>
      if bool_decide (b = Byte.x0a)
      then (match last line with Some Byte.x0d => take (length line - 1) line | _ => line end) :: lines_from [] s'
      else lines_from (line ++ [b]) s'
  end.
Definition lines (s : bytes) : list bytes := lines_from [] s.

Definition is_space (b : byte) : bool := (b2z b =? 32) || ((9 <=? b2z b) && (b2z b <=? 13)).
Fixpoint skip_spaces (s : bytes) : bytes :=
  match s with b :: s' => if is_space b then skip_spaces s' else s | [] => [] end.
Fixpoint word (s : bytes) : bytes :=
  match s with b :: s' => if is_space b then [] else b :: word s' | [] => [] end.
(** [split_whitespace().next()] *)
Definition first_word (s : bytes) : option bytes :=
  match word (skip_spaces s) with [] => None | w => Some w end.
Definition trim (s : bytes) : bytes := reverse (skip_spaces (reverse (skip_spaces s))).

Definition strip_prefix (p s : bytes) : option bytes :=
  if bool_decide (take (length p) s = p) then Some (drop (length p) s) else None.

Fixpoint find_map {A R} (f : A → option R) (l : list A) : option R :=
  match l with [] => None | x :: l' => match f x with Some r => Some r | None => find_map f l' end end.

(** [status] is the text of /proc/self/status, if it could be read. *)
Definition proc_status_kb (status : option bytes) (name : bytes) : Z :=
  default 0 (text ← status; find_map (λ line, v ← strip_prefix name line; w ← first_word v; parse_u64 w) (lines text)).

Definition rss_bytes (status : option bytes) : Z := saturating_mul (proc_status_kb status (B "VmRSS:")) 1024.
Definition peak_rss_bytes (status : option bytes) : Z := saturating_mul (proc_status_kb status (B "VmHWM:")) 1024.

(** The texts of the two files of the control group. *)
Definition cgroup_memory_bytes (files : list (option bytes)) : Z :=
  default 0 (find_map (λ file, text ← file; parse_u64 (trim text)) files).

Example rss_of_status :
  rss_bytes (Some (B "Name:" ++ [Byte.x09] ++ B "fyro_db" ++ [Byte.x0a] ++ B "VmRSS:" ++ [Byte.x09] ++ B "    5120 kB" ++ [Byte.x0a]))
  = 5242880 ∧ rss_bytes None = 0.
Proof. vm_compute. done. Qed.

(** The condition of [purge_allocator_if_fragmented]. *)
Definition fragmented (used rss : Z) : bool :=
  (saturating_add used (used / 5) <? rss) && (10 * 1024 * 1024 <=? Z.max 0 (rss - used)).

Lemma npot_power n : npot n = 0 ∨ ∃ k, 0 <= k < 64 ∧ npot n = 2 ^ k.
Proof.
  unfold npot, wrap64. destruct (next_power_of_two_pow n) as (k & Hk & ->).
  destruct (Z.lt_ge_cases k 64) as [Hlt|Hge].
  - right. exists k. split; [lia|]. apply Z.mod_small. split; [apply Z.pow_nonneg; lia|]. by apply Z.pow_lt_mono_r.
  - left. replace k with (64 + (k - 64)) by lia. rewrite Z.pow_add_r by lia. unfold u64_mod.
    rewrite Z.mul_comm. apply Z.mod_mul. lia.
Qed.

Lemma env_u64_range env key d : 0 <= d < 2 ^ 64 → 0 <= env_u64 env key d < 2 ^ 64.
Proof.
  intros Hd. unfold env_u64. destruct (env key) as [s|]; [|done]. simpl. destruct (parse_u64 s) as [n|] eqn:E; [|done].
  by apply (parse_u64_range s).
Qed.

(** The environment decides the configuration within the widths of its fields,
    and the number of shards is a power of two, unless it does not fit. *)
Theorem config_bounds num_cpus env :
  0 < num_cpus < 2 ^ 64 →
  let cfg := from_env num_cpus env in
  0 <= cf_port cfg < 2 ^ 16 ∧ 0 < cf_workers cfg < 2 ^ 64 ∧ 0 <= cf_max_keys cfg < 2 ^ 64 ∧
  (cf_shards cfg = 0 ∨ ∃ k, 0 <= k < 64 ∧ cf_shards cfg = 2 ^ k) ∧ cf_auth cfg ≠ Some [].
Proof.
  intros Hn. cbv zeta. unfold from_env. cbn [cf_port cf_workers cf_max_keys cf_shards cf_auth].
  pose proof (env_u64_range env (B "FYRODB_WORKERS") 0 ltac:(done)) as Hw.
  pose proof (env_u64_range env (B "FYRODB_MAX_KEYS") 1000 ltac:(done)) as Hk.
  change (env_u64 ?e) with (env_usize e) in *. split; [|split; [|split; [exact Hk|split]]].
  - unfold env_u16, parse_u16. destruct (env _) as [s|]; [|done]. simpl. destruct (parse_u64 s) as [n|] eqn:E; [|done]. simpl.
    destruct (n <? 2 ^ 16) eqn:En; [|done]. split_bool. apply parse_u64_range in E. simpl. lia.
  - case_goal; split_bool; lia.
  - case_goal; apply npot_power.
  - destruct (env (B "FYRODB_AUTH")) as [[|b s]|]; done.
Qed.

(** ** Maintenance (store.rs) *)

(** Shrinks the capacities of the containers, which are not represented. *)
Definition compact_allocations (v : StoreValue) : StoreValue := v.

Record Readings := mkReadings { used_memory : Z; status : option bytes }.

Section Maintenance.
Context (hash_one : bytes → Z).
Implicit Types st : Store (CustomMap StoreValue).

Definition store_compact_shard (shard : nat) st : Store (CustomMap StoreValue) :=
  with_data st (CustomMap.compact_shard shard (data st)).

(** [for s in 0..n { compact_shard(s) }] *)
Definition compact_shards (n : nat) st : Store (CustomMap StoreValue) :=
  foldl (λ st s, store_compact_shard s st) st (List.seq 0 n).

Definition compact_underutilized st : Store (CustomMap StoreValue) := compact_shards (shard_count (data st)) st.

Definition store_defragment_values (budget : nat) st : Store (CustomMap StoreValue) * nat :=
  let '(m, rebuilt) := CustomMap.defragment_values hash_one budget compact_allocations (data st) in
  (with_data st m, rebuilt).

(** ** The expiry thread *)

Definition SCAN_SLOTS_PER_TICK : nat := Z.to_nat 262144.

(** The local variables of the thread. *)
Record Sweeper := mkSweeper {
  sw_shard : nat;
  sw_slot : nat;
  live_ttls : nat;
  shard_removed : nat;
  generation : Z;
  capacities : list nat;
  collect_tick : Z;
  purge_tick : Z;
  compact_tick : Z;
  last_key_count : Z;
}.

Definition sweeper_start st : Sweeper :=
  mkSweeper 0 0 0 0 (ttl_generation st) (replicate (shard_count (data st)) 0%nat) 0 0 0 (CustomMap.len (data st)).

(** The counters of the three slower cadences. *)
Definition count_ticks (e : Sweeper) : Sweeper * bool * bool :=
  let collect := collect_tick e + 1 in
  let purge := Z.min (purge_tick e + 1) 255 in
  let compact := Z.min (compact_tick e + 1) 65535 in
  let purge_due := 60 <=? purge in
  let compact_due := 120 <=? compact in
  (mkSweeper (sw_shard e) (sw_slot e) (live_ttls e) (shard_removed e) (generation e) (capacities e)
     (if 10 <=? collect then 0 else collect) (if purge_due then 0 else purge) (if compact_due then 0 else compact)
     (last_key_count e), purge_due, compact_due).

(** A position of the scan, with the count of this pass and the removals of this shard. *)
Definition sw_goto (shard slot live removed : nat) (gen : Z) (caps : list nat) (last : Z) (e : Sweeper) : Sweeper :=
  mkSweeper shard slot live removed gen caps (collect_tick e) (purge_tick e) (compact_tick e) last.

(** Every table is compacted when keys have gone since the last look. *)
Definition after_loss (shards : nat) (last : Z) st : Store (CustomMap StoreValue) * Z :=
  let cur_keys := CustomMap.len (data st) in
  (if cur_keys <? last then compact_shards shards st else st, cur_keys).

(** The branch of a store with expiries.  [None] is an index out of bounds. *)
Definition sweep_some (c : Clock) (e : Sweeper) st : option (Sweeper * Store (CustomMap StoreValue)) :=
  let shards := length (capacities e) in
  let '(st, (chunk, next_slot, capacity, removed)) :=
    cleanup_expired_shard c (sw_shard e) (sw_slot e) SCAN_SLOTS_PER_TICK st in
  let removed := (shard_removed e + removed)%nat in
  known ← capacities e !! sw_shard e;
  let caps := if (sw_slot e =? 0)%nat then <[sw_shard e := capacity]> (capacities e) else capacities e in
  if negb (sw_slot e =? 0)%nat && negb (known =? capacity)%nat then
    Some (sw_goto 0 0 0 removed (ttl_generation st) caps (last_key_count e) e, st)
  else
    let live := (live_ttls e + chunk)%nat in
    if (next_slot <? capacity)%nat then
      Some (sw_goto (sw_shard e) next_slot live removed (generation e) caps (last_key_count e) e, st)
    else
      let st := if (removed =? 0)%nat then st else store_compact_shard (sw_shard e) st in
      let shard := S (sw_shard e) in
      if (shard <? shards)%nat then Some (sw_goto shard 0 live 0 (generation e) caps (last_key_count e) e, st)
      else
        let st := finish_ttl_scan (generation e) (Z.of_nat live) st in
        let '(st, cur_keys) := after_loss shards (last_key_count e) st in
        Some (sw_goto 0 0 0 0 (ttl_generation st) caps cur_keys e, st).

Definition sweep_none (e : Sweeper) st : Sweeper * Store (CustomMap StoreValue) :=
  let gen := ttl_generation st in
  let '(st, cur_keys) := after_loss (length (capacities e)) (last_key_count e) st in
  (sw_goto 0 0 0 (shard_removed e) gen (capacities e) cur_keys e, st).

(** One turn of the loop, a second after the last one. *)
Definition tick (c : Clock) (r : Readings) (e : Sweeper) st : option (Sweeper * Store (CustomMap StoreValue)) :=
  let '(e, purge_due, compact_due) := count_ticks e in
  let st := if purge_due && fragmented (used_memory r) (rss_bytes (status r))
            then (store_defragment_values 512 st).1 else st in
  let st := if compact_due then compact_underutilized st else st in
  if has_ttl_keys st then sweep_some c e st else Some (sweep_none e st).

Fixpoint ticks (l : list (Clock * Readings)) (e : Sweeper) st : option (Sweeper * Store (CustomMap StoreValue)) :=
  match l with
  | [] => Some (e, st)
  | (c, r) :: l' => match tick c r e st with Some (e', st') => ticks l' e' st' | None => None end
  end.
End Maintenance.

(** ** The pairs of one shard *)

Section Pairs.
Context (hash_one : bytes → Z).
Implicit Types (m : CustomMap StoreValue) (i : nat).

Definition shard_pairs m i : list (bytes * StoreValue) :=
  match shards m !! i with Some s => live_pairs (slots (table s)) | None => [] end.

Definition home m (k : bytes) : nat := CustomMap.shard_index hash_one m k.

Lemma elem_of_shard_pairs m i k v :
  struct_wf hash_one m → (k, v) ∈ shard_pairs m i ↔ abs m !! k = Some v ∧ home m k = i.
Proof.
  intros Hw. unfold shard_pairs, home. rewrite (abs_lookup hash_one m k Hw).
  assert (Hin : ∀ j s, shards m !! j = Some s → (k, v) ∈ live_pairs (slots (table s)) ↔ shard_map s !! k = Some v).
  { intros j s Hs. rewrite elem_of_live_pairs. symmetry. apply (table_map_lookup (hash_of hash_one)).
    by apply sw_table, (cw_shard _ _ Hw j). }
  split.
  - destruct (shards m !! i) as [s|] eqn:Hs; [|by intros ?%not_elem_of_nil]. intros Hk. apply (Hin i s Hs) in Hk.
    assert (Hi : CustomMap.shard_index hash_one m k = i) by (eapply (cw_home _ _ Hw); [exact Hs|by exists v]).
    by rewrite Hi, Hs.
  - intros [Hk <-]. destruct (shards m !! _) as [s|] eqn:Hs; [|done]. by apply (Hin _ s Hs).
Qed.

Lemma shard_pairs_NoDup m i : struct_wf hash_one m → NoDup (shard_pairs m i).*1.
Proof.
  intros Hw. unfold shard_pairs. destruct (shards m !! i) as [s|] eqn:Hs; [|constructor].
  pose proof (sw_table _ _ (cw_shard _ _ Hw _ _ Hs)) as Ht.
  apply (live_pairs_NoDup (hash_of hash_one)); [exact (tw_keys _ _ Ht)|exact (tw_entry _ _ Ht)].
Qed.

(** Expiries in the shards before [i]. *)
Definition scanned m i : list (bytes * StoreValue) := filter (λ p, (home m p.1 < i)%nat) (map_to_list (abs m)).
Definition scanned_ttls m i : Z := ttl_pairs (scanned m i).

Lemma scanned_ttls_0 m : scanned_ttls m 0 = 0.
Proof.
  unfold scanned_ttls, scanned. replace (filter _ _) with (@nil (bytes * StoreValue)); [done|].
  induction (map_to_list (abs m)) as [|p l IH]; [done|]. rewrite filter_cons_False by lia. done.
Qed.

Lemma ttl_pairs_perm l l' : l ≡ₚ l' → ttl_pairs l = ttl_pairs l'.
Proof. intros Hl. unfold ttl_pairs. by rewrite Hl. Qed.

Lemma scanned_ttls_S m i :
  struct_wf hash_one m → scanned_ttls m (S i) = scanned_ttls m i + ttl_pairs (shard_pairs m i).
Proof.
  intros Hw. assert (Hp : shard_pairs m i ≡ₚ filter (λ p, home m p.1 = i) (map_to_list (abs m))).
  { apply NoDup_Permutation.
    - eapply NoDup_fmap_1. by apply shard_pairs_NoDup.
    - apply NoDup_filter, NoDup_map_to_list.
    - intros [k v]. rewrite elem_of_shard_pairs, list_elem_of_filter, elem_of_map_to_list by done. simpl. tauto. }
  unfold scanned_ttls, scanned. rewrite (ttl_pairs_perm _ _ Hp). clear Hp.
  induction (map_to_list (abs m)) as [|p l IH]; [done|]. rewrite !filter_cons.
  change (p :: filter ?P l) with ([p] ++ filter P l).
  destruct (decide (home m p.1 < S i)%nat), (decide (home m p.1 < i)%nat), (decide (home m p.1 = i)); try lia;
    change (p :: ?x) with ([p] ++ x); rewrite ?ttl_pairs_app; lia.
Qed.

Lemma scanned_ttls_all m : struct_wf hash_one m → scanned_ttls m (length (shards m)) = ttl_keys (abs m).
Proof.
  intros Hw. unfold scanned_ttls, scanned. rewrite <- (list_to_map_to_list (abs m)) at 2.
  rewrite ttl_keys_pairs by apply NoDup_fst_map_to_list. f_equal.
  induction (map_to_list (abs m)) as [|p l IH]; [done|]. rewrite filter_cons_True; [by rewrite IH|].
  by apply shard_index_lt.
Qed.

(** Fewer expiries, fewer scanned expiries. *)
Lemma scanned_ttls_mono m m' i :
  constants m' = constants m → no_new_ttl (abs m) (abs m') → scanned_ttls m' i <= scanned_ttls m i.
Proof.
  intros Hc Hn. unfold scanned_ttls, scanned, ttl_pairs. apply inj_le. set (P := λ p : bytes * StoreValue, has_ttl p.2 = true).
  rewrite <- (length_fmap fst), <- (length_fmap fst (filter P (filter _ (map_to_list (abs m))))).
  apply submseteq_length, NoDup_submseteq.
  { eapply sublist_NoDup; [apply (NoDup_fst_map_to_list (abs m'))|]. apply fmap_sublist. etrans; apply sublist_filter. }
  intros k ((k', v') & -> & Hk)%list_elem_of_fmap. rewrite !list_elem_of_filter, elem_of_map_to_list in Hk.
  destruct Hk as (Hv & Hi & Hk). simpl in *. destruct (Hn _ _ Hk Hv) as (v & Hkv & Hvt). apply list_elem_of_fmap.
  exists (k', v). split; [done|]. rewrite !list_elem_of_filter, elem_of_map_to_list. split; [done|]. split; [|done].
  simpl. unfold home in *. by rewrite <- (constants_index hash_one m m').
Qed.
End Pairs.

(** ** What compaction and defragmentation leave alone *)

Section Quiet.
Context (hash_one : bytes → Z).
Implicit Types (m : CustomMap StoreValue) (st : Store (CustomMap StoreValue)) (i : nat).

Record quiet_map m m' : Prop := {
  qm_wf : map_wf hash_one m → map_wf hash_one m';
  qm_abs : map_wf hash_one m → abs m' = abs m;
  qm_constants : constants m' = constants m;
  qm_len : ∀ i, (shard_len m' i <= shard_len m i)%nat;
}.

Lemma quiet_refl m : quiet_map m m.
Proof. by split. Qed.

Lemma quiet_trans m1 m2 m3 : quiet_map m1 m2 → quiet_map m2 m3 → quiet_map m1 m3.
Proof.
  intros [Hw1 Ha1 Hc1 Hl1] [Hw2 Ha2 Hc2 Hl2]. split; [by auto| |congruence|].
  - intros Hw. by rewrite Ha2, Ha1 by auto.
  - intros i. specialize (Hl1 i). specialize (Hl2 i). lia.
Qed.

Lemma shard_len_set m j s i :
  shard_len (set_shard m j s) i =
  if decide (i = j ∧ (j < length (shards m))%nat) then Z.to_nat (capacity (table s)) else shard_len m i.
Proof.
  unfold shard_len, shard_slot_count. simpl. case_decide as Hd.
  - destruct Hd as [-> Hj]. by rewrite list_lookup_insert_eq.
  - destruct (decide (i = j)) as [->|Hne]; [|by rewrite list_lookup_insert_ne].
    rewrite list_insert_ge by lia. done.
Qed.

Lemma place_capacity (t : SlotTable StoreValue) e : capacity (place t e) = capacity t.
Proof. unfold place. by destruct (probe _ _ _). Qed.

Lemma rehash_capacity l (t : SlotTable StoreValue) : capacity (rehash l t).1 = capacity t.
Proof.
  unfold rehash. generalize 0 as n. revert t. induction l as [|[e|] l IH]; intros t n; [done| |apply IH].
  cbn [foldl rehash_step]. destruct (negb (entry_occupied e)); [apply IH|]. cbn [fst snd]. by rewrite IH, place_capacity.
Qed.

Lemma next_power_of_two_id k : 0 <= k → next_power_of_two (2 ^ k) = 2 ^ k.
Proof.
  intros Hk. unfold next_power_of_two. destruct (2 ^ k <=? 1) eqn:E; split_bool; [pose proof (Z.pow_pos_nonneg 2 k); lia|].
  assert (0 < k) by (destruct (Z.eq_dec k 0) as [->|]; [done|lia]).
  replace (2 ^ k - 1) with (Z.pred (2 ^ k)) by lia.
  rewrite Z.log2_pred_pow2 by done. f_equal. lia.
Qed.

Lemma compact_quiet i m : quiet_map m (CustomMap.compact_shard i m).
Proof.
  split; [intros Hw; by apply compact_shard_spec|intros Hw; by apply (compact_shard_spec hash_one)|apply compact_shard_constants|].
  intros j. unfold CustomMap.compact_shard. destruct (shards m !! i) as [s|] eqn:Hs; [|done].
  rewrite shard_len_set. case_decide as Hd; [|done]. destruct Hd as [-> _].
  unfold shard_len, shard_slot_count. rewrite Hs. simpl. unfold shard_compact.
  set (cap := Z.max _ 8). destruct (capacity (table s) <=? cap) eqn:E; [done|]. split_bool.
  pose proof (rehash_capacity (slots (table s)) (SlotTable_new cap)) as Hr. destruct (rehash _ _) as [t' n]. simpl in *.
  rewrite Hr. assert (next_power_of_two cap = cap) as ->; [|lia].
  unfold cap. destruct (next_power_of_two_pow (Z.of_nat (length (filter (λ o, slot_occupied o = true) (slots (table s)))) * LOAD_DEN / LOAD_NUM + 1)) as (k & Hk & ->).
  destruct (Z.max_spec (2 ^ k) 8) as [[_ ->]|[_ ->]]; [by apply (next_power_of_two_id 3)|by apply next_power_of_two_id].
Qed.

Lemma write_entry_len m idx s i e j : shards m !! idx = Some s → shard_len (CustomMap.write_entry m idx s i e) j = shard_len m j.
Proof.
  intros Hs. unfold CustomMap.write_entry. rewrite shard_len_set. case_decide as Hd; [|done]. destruct Hd as [-> _].
  unfold shard_len, shard_slot_count. by rewrite Hs.
Qed.

Lemma update_with_len {R} k (f : StoreValue → StoreValue * R) m j :
  shard_len (CustomMap.update_with hash_one k f m).1 j = shard_len m j.
Proof.
  unfold CustomMap.update_with, find_entry. destruct (locate hash_one m k) as [h idx].
  destruct (shards m !! idx) as [s|] eqn:Hs; [|done]. simpl. destruct (find s k h) as [[i e]|]; [|done]. simpl.
  destruct (e_value e) as [v|]; [destruct (entry_occupied e); [destruct (f v)|]|]; by apply write_entry_len.
Qed.

Lemma defragment_quiet budget m : quiet_map m (CustomMap.defragment_values hash_one budget compact_allocations m).1.
Proof.
  unfold CustomMap.defragment_values. generalize 0%nat as n. generalize (take budget (keys m)) as l.
  intros l. revert m. induction l as [|k l IH]; intros m n; [apply quiet_refl|]. cbn [foldl].
  set (g := λ v, (compact_allocations v, tt)). pose proof (update_with_len k g m) as Hl.
  pose proof (try_update_constants hash_one k (λ v, Some (g v)) m) as Hc. rewrite <- update_with_eq in Hc.
  pose proof (kv_update_with_spec (KVMapLaws := custom_kv_laws hash_one) m k g) as Hs. simpl in Hs.
  destruct (CustomMap.update_with hash_one k g m) as [m' r]. simpl in *.
  eapply quiet_trans; [|apply IH]. split; [naive_solver| |done|intros i; by rewrite Hl].
  intros Hw. destruct (Hs Hw) as (_ & -> & _). destruct (abs m !! k) as [v|] eqn:E; [by apply insert_id|done].
Qed.

(** The same for stores. *)
Record quiet st st' : Prop := {
  q_map : quiet_map (data st) (data st');
  q_count : ttl_count st' = ttl_count st;
  q_gen : ttl_generation st' = ttl_generation st;
}.

Lemma quiet_with_data m st : quiet_map (data st) m → quiet st (with_data st m).
Proof. by split. Qed.

Lemma quiet_same st : quiet st st.
Proof. split; [apply quiet_refl|done..]. Qed.

Lemma quiet_seq st1 st2 st3 : quiet st1 st2 → quiet st2 st3 → quiet st1 st3.
Proof. intros [Hm1 ? ?] [Hm2 ? ?]. split; [by eapply quiet_trans|congruence..]. Qed.

Lemma compact_shards_quiet n st : quiet st (compact_shards n st).
Proof.
  unfold compact_shards. generalize (List.seq 0 n) as l. intros l. revert st.
  induction l as [|s l IH]; intros st; [apply quiet_same|]. cbn [foldl].
  eapply quiet_seq; [|apply IH]. apply quiet_with_data, compact_quiet.
Qed.

Lemma maintained_quiet (d u : bool) st :
  quiet st (let st := if d then (store_defragment_values hash_one 512 st).1 else st in if u then compact_underutilized st else st).
Proof.
  cbv zeta. eapply quiet_seq; [|destruct u; [apply compact_shards_quiet|apply quiet_same]].
  destruct d; [|apply quiet_same]. unfold store_defragment_values.
  pose proof (defragment_quiet 512 (data st)) as Hq. destruct (CustomMap.defragment_values _ _ _ _) as [m r].
  by apply quiet_with_data.
Qed.

Lemma after_loss_quiet n last st : quiet st (after_loss n last st).1.
Proof. unfold after_loss. simpl. case_goal; [apply compact_shards_quiet|apply quiet_same]. Qed.
End Quiet.

#[export] Hint Resolve quiet_same : fyro.

(** ** One shard in one step *)

Lemma sweep_run_live c (l : list (bytes * StoreValue)) a b :
  Z.of_nat (retain_run (sweep_entry c) l (a, b)).1.1 = Z.of_nat a + ttl_pairs (filter (kept c) l).
Proof.
  revert a b. induction l as [|[k v] l IH]; intros a b; simpl; [unfold ttl_pairs; simpl; lia|]. rewrite filter_cons.
  destruct (sweep_expired c v) eqn:E.
  - specialize (IH a (S b)). destruct (retain_run _ l _) as [[x y] z]. simpl in *.
    by rewrite decide_False by (unfold kept; simpl; congruence).
  - rewrite decide_True by done. change ((k, v) :: ?x) with ([(k, v)] ++ x). rewrite ttl_pairs_app.
    assert (Hv : ttl_pairs [(k, v)] = Z.b2z (has_ttl v)).
    { unfold ttl_pairs, has_ttl. rewrite filter_cons. simpl. destruct (negb _); by simpl. }
    rewrite Hv. unfold has_ttl. specialize (IH (if negb (expires_ms v =? 0) then S a else a) b).
    destruct (retain_run _ l _) as [[x y] z]. simpl in *. destruct (negb _); simpl; lia.
Qed.

Section Whole.
Context (hash_one : bytes → Z).
Implicit Types (m : CustomMap StoreValue) (st : Store (CustomMap StoreValue)) (i : nat).

Lemma retain_whole {A} (f : bytes → StoreValue → A → A * bool) i s m a (n_slots : nat) :
  struct_wf hash_one m → shards m !! i = Some s → (shard_len m i <= n_slots)%nat → Z.of_nat n_slots <= usize_max →
  let '(a', n, swept) := retain_slots f a (slots (table s)) in
  retain_shard_range f i 0 n_slots m a =
    (set_key_count (set_shard m i (mkShard (mkTable swept (capacity (table s)) (mask (table s)) (threshold (table s))) (s_len s)))
       (key_count m - n), a', Some (shard_len m i, shard_len m i)).
Proof.
  intros Hw Hs Hle Hmax. unfold retain_shard_range. rewrite Hs.
  pose proof (tw_len _ (tw_geometry _ _ (sw_table _ _ (cw_shard _ _ Hw _ _ Hs)))) as Hlen.
  unfold shard_len, shard_slot_count in *. rewrite Hs in *. simpl in Hle |- *.
  set (cp := Z.to_nat (capacity (table s))) in *.
  assert (Hc : cp = length (slots (table s))) by (unfold cp; lia).
  replace (Nat.min _ cp) with cp by (unfold saturating_add; lia).
  replace (cp - 0)%nat with cp by lia. rewrite (drop_0 (slots (table s))), (take_ge (slots (table s)) cp), (drop_ge (slots (table s)) cp) by lia.
  destruct (retain_slots f a (slots (table s))) as [[a' n] swept]. simpl. by rewrite app_nil_r.
Qed.

Lemma sweep_whole c i st (n_slots : nat) :
  struct_wf hash_one (data st) → has_ttl_keys st = true → (i < length (shards (data st)))%nat →
  (shard_len (data st) i <= n_slots)%nat → Z.of_nat n_slots <= usize_max →
  let '(st', (chunk, next, cap, removed)) := cleanup_expired_shard c i 0 n_slots st in
  shard_pairs (data st') i = filter (kept c) (shard_pairs (data st) i) ∧
  (∀ j, j ≠ i → shard_pairs (data st') j = shard_pairs (data st) j) ∧
  constants (data st') = constants (data st) ∧ (∀ j, shard_len (data st') j = shard_len (data st) j) ∧
  ttl_generation st' = ttl_generation st ∧ next = cap ∧ Z.of_nat chunk = ttl_pairs (shard_pairs (data st') i).
Proof.
  intros Hw Ht Hi Hle Hmax. unfold cleanup_expired_shard. rewrite Ht. simpl negb. cbv iota.
  destruct (lookup_lt_is_Some_2 _ _ Hi) as [s Hs]. change (λ (_ : bytes) entry (acc : nat * nat), _) with (sweep_entry c).
  pose proof (retain_whole (sweep_entry c) i s (data st) (0, 0)%nat n_slots Hw Hs Hle Hmax) as Hr.
  pose proof (retain_slots_spec hash_one (sweep_entry c) (slots (table s)) (0, 0)%nat
    (tw_entry _ _ (sw_table _ _ (cw_shard _ _ Hw _ _ Hs)))) as Hspec.
  pose proof (sweep_run c (live_pairs (slots (table s))) 0 0) as Hrun.
  pose proof (sweep_run_live c (live_pairs (slots (table s))) 0 0) as Hlive.
  destruct (retain_slots _ _ _) as [[[lt rm] n] swept]. rewrite Hr. destruct Hspec as (_ & Heq & _). rewrite Heq in Hrun, Hlive.
  cbv zeta in Hrun. simpl in Hrun, Hlive. destruct Hrun as [Hkept _]. simpl default. cbv iota.
  set (m' := set_key_count _ _). destruct (iter_sub_ttl rm (with_data st m')) as [Hd _].
  assert (Hg : ttl_generation (Nat.iter rm sub_ttl (with_data st m')) = ttl_generation st).
  { clear. induction rm as [|rm IH]; [done|]. simpl. exact IH. }
  rewrite Hd. simpl data. assert (Hpairs : shard_pairs m' i = live_pairs swept).
  { unfold shard_pairs, m'. simpl. by rewrite list_lookup_insert_eq. }
  assert (Hold : shard_pairs (data st) i = live_pairs (slots (table s))) by (unfold shard_pairs; by rewrite Hs).
  rewrite Hpairs, Hold. split; [by rewrite Hkept|]. split; [|split; [|split; [|split; [done|split; [done|]]]]].
  - intros j Hne. unfold shard_pairs, m'. simpl. by rewrite list_lookup_insert_ne.
  - unfold m'. rewrite set_key_count_constants. apply set_shard_constants.
  - intros j. unfold m'. change (shard_len (set_key_count ?x _) j) with (shard_len x j). rewrite shard_len_set.
    case_decide as Hj; [|done]. destruct Hj as [-> _]. simpl. unfold shard_len, shard_slot_count. by rewrite Hs.
  - rewrite Hlive, Hkept. done.
Qed.
End Whole.

(** ** The pass *)

Section Pass.
Context (hash_one : bytes → Z).
Implicit Types (m : CustomMap StoreValue) (st : Store (CustomMap StoreValue)) (e : Sweeper) (i : nat).

Lemma scan_slots : Z.of_nat SCAN_SLOTS_PER_TICK = 262144.
Proof. unfold SCAN_SLOTS_PER_TICK. by rewrite Z2Nat.id. Qed.


(** Every shard fits in one turn. *)
Definition small st : Prop := ∀ i, (shard_len (data st) i <= SCAN_SLOTS_PER_TICK)%nat.

Record store_ok st : Prop := {
  sk_wf : map_wf hash_one (data st);
  sk_ttl : ttl_keys (abs (data st)) <= ttl_count st;
}.

(** Between two turns the pass has counted enough of the shards behind it,
    unless an expiry was set meanwhile. *)
Record pass_ok e st : Prop := {
  pk_store : store_ok st;
  pk_caps : length (capacities e) = length (shards (data st));
  pk_shard : (sw_shard e < length (shards (data st)))%nat;
  pk_slot : sw_slot e = 0%nat;
  pk_gen : generation e <= ttl_generation st;
  pk_live : generation e = ttl_generation st →
    scanned_ttls hash_one (data st) (sw_shard e) <= Z.of_nat (live_ttls e);
}.

Definition swept_by c i st st' : Prop :=
  ∀ k v, abs (data st') !! k = Some v ↔
    abs (data st) !! k = Some v ∧ (home hash_one (data st) k = i → sweep_expired c v = false).

Lemma quiet_abs st st' : quiet hash_one st st' → store_ok st → abs (data st') = abs (data st).
Proof. intros [Hm _ _] [Hw _]. by apply (qm_abs _ _ _ Hm). Qed.

Lemma store_ok_quiet st st' : quiet hash_one st st' → store_ok st → store_ok st'.
Proof.
  intros Hq Hok. pose proof (quiet_abs _ _ Hq Hok) as Ha. destruct Hq as [Hm Hc _], Hok as [Hw Ht].
  split; [by apply (qm_wf _ _ _ Hm)|]. by rewrite Ha, Hc.
Qed.

Lemma small_quiet st st' : quiet hash_one st st' → small st → small st'.
Proof. intros [Hm _ _] Hs i. specialize (Hs i). pose proof (qm_len _ _ _ Hm i). lia. Qed.

Lemma constants_shards m m' : constants m' = constants m → length (shards m') = length (shards m).
Proof. by intros [= -> _ _ _]. Qed.

Lemma scanned_quiet st st' i :
  quiet hash_one st st' → store_ok st → scanned_ttls hash_one (data st') i = scanned_ttls hash_one (data st) i.
Proof.
  intros Hq Hok. pose proof (quiet_abs _ _ Hq Hok) as Ha. destruct Hq as [Hm _ _].
  assert (Hle : ∀ m m', constants m' = constants m → abs m' = abs m → scanned_ttls hash_one m' i <= scanned_ttls hash_one m i).
  { intros m m' Hc He. apply scanned_ttls_mono; [done|]. rewrite He. apply no_new_ttl_refl. }
  pose proof (qm_constants _ _ _ Hm) as Hc. apply Z.le_antisymm; by apply Hle.
Qed.

Lemma pass_ok_quiet e st st' : quiet hash_one st st' → pass_ok e st → pass_ok e st'.
Proof.
  intros Hq [Hok Hc Hs Hl Hg Hlive]. pose proof (scanned_quiet _ _ (sw_shard e) Hq Hok) as Hsc.
  pose proof (store_ok_quiet _ _ Hq Hok) as Hok'. destruct Hq as [Hm _ Hgen].
  pose proof (constants_shards _ _ (qm_constants _ _ _ Hm)) as Hlen.
  split; [done|by rewrite Hlen|by rewrite Hlen|done|lia|]. rewrite Hsc, Hgen. done.
Qed.

Lemma swept_quiet c i st st1 st2 :
  store_ok st1 → swept_by c i st st1 → quiet hash_one st1 st2 → swept_by c i st st2.
Proof. intros Hok Hs Hq k v. rewrite (quiet_abs _ _ Hq Hok). apply Hs. Qed.

Lemma map_shards_pos m : struct_wf hash_one m → (0 < length (shards m))%nat.
Proof.
  intros Hw. destruct (cw_count _ _ Hw) as (bits & Hb & Hl & _). pose proof (Z.pow_pos_nonneg 2 bits). lia.
Qed.

(** A fresh pass. *)
Lemma pass_ok_fresh e st removed caps last :
  store_ok st → length caps = length (shards (data st)) →
  pass_ok (sw_goto 0 0 0 removed (ttl_generation st) caps last e) st.
Proof.
  intros Hok Hc. pose proof (map_shards_pos _ (cw_struct _ _ (sk_wf _ Hok))).
  split; simpl; try done. intros _. by rewrite scanned_ttls_0.
Qed.

(** The sweep of one shard, and its place in the pass. *)
Lemma sweep_shard_ok c e st :
  pass_ok e st → small st → has_ttl_keys st = true →
  let '(st', (chunk, next, cap, removed)) := cleanup_expired_shard c (sw_shard e) 0 SCAN_SLOTS_PER_TICK st in
  store_ok st' ∧ constants (data st') = constants (data st) ∧ small st' ∧ ttl_generation st' = ttl_generation st ∧
  next = cap ∧ swept_by c (sw_shard e) st st' ∧
  (generation e = ttl_generation st' →
    scanned_ttls hash_one (data st') (S (sw_shard e)) <= Z.of_nat (live_ttls e + chunk)).
Proof.
  intros [[Hw Htt] Hc Hs _ Hg Hlive] Hsmall Ht. pose proof (Hsmall (sw_shard e)) as Hle. pose proof scan_slots as Hscan.
  assert (Hmax : Z.of_nat SCAN_SLOTS_PER_TICK <= usize_max) by (rewrite Hscan; done).
  pose proof (sweep_whole hash_one c (sw_shard e) st SCAN_SLOTS_PER_TICK (cw_struct _ _ Hw) Ht Hs Hle Hmax) as Hone.
  pose proof (sweep_step_ok hash_one c (sw_shard e) 0 SCAN_SLOTS_PER_TICK st Hw Htt) as Hstep.
  destruct (cleanup_expired_shard _ _ _ _ _) as [st' [[[chunk next] cap] removed]].
  destruct Hone as (Hp & Hother & Hcon & Hlen & Hgen & Hnext & Hchunk).
  destruct Hstep as (Hw' & Hsub & _ & _ & Htt'); [lia|]. change (map_wf hash_one (data st')) in Hw'.
  split; [split; [exact Hw'|exact Htt']|]. split; [done|]. split; [intros i; rewrite Hlen; apply Hsmall|].
  split; [done|]. split; [done|]. split.
  - intros k v. pose proof (elem_of_shard_pairs hash_one (data st') (home hash_one (data st') k) k v (cw_struct _ _ Hw')) as H1.
    pose proof (elem_of_shard_pairs hash_one (data st) (home hash_one (data st') k) k v (cw_struct _ _ Hw)) as H2.
    assert (Hh : home hash_one (data st') k = home hash_one (data st) k) by (by apply constants_index).
    rewrite Hh in *. destruct (decide (home hash_one (data st) k = sw_shard e)) as [He|Hne].
    + rewrite He, Hp in H1. rewrite He in H2. rewrite list_elem_of_filter in H1. unfold kept in H1. simpl in H1. tauto.
    + rewrite Hother in H1 by done. tauto.
  - intros Hge. rewrite scanned_ttls_S by by apply cw_struct. rewrite <- Hchunk.
    assert (scanned_ttls hash_one (data st') (sw_shard e) <= scanned_ttls hash_one (data st) (sw_shard e)).
    { apply scanned_ttls_mono; [done|]. apply no_new_ttl_sub, map_subseteq_spec. exact Hsub. }
    specialize (Hlive ltac:(congruence)). lia.
Qed.

(** What one turn does: it sweeps the shard of the scan, or there is nothing to sweep. *)
Record tick_ok c e st e' st' : Prop := {
  tk_pass : pass_ok e' st';
  tk_constants : constants (data st') = constants (data st);
  tk_small : small st';
  tk_result : (ttl_keys (abs (data st)) = 0 ∧ abs (data st') = abs (data st)) ∨
    (swept_by c (sw_shard e) st st' ∧
     sw_shard e' = if (S (sw_shard e) <? length (shards (data st)))%nat then S (sw_shard e) else 0%nat);
}.

Lemma sweep_some_ok c e st :
  pass_ok e st → small st → has_ttl_keys st = true → ∃ e' st', sweep_some c e st = Some (e', st') ∧ tick_ok c e st e' st'.
Proof.
  intros Hp Hsmall Ht. pose proof (sweep_shard_ok c e st Hp Hsmall Ht) as Hsw.
  destruct Hp as [_ Hc Hs Hslot Hg _]. unfold sweep_some. rewrite Hslot. cbv zeta.
  destruct (cleanup_expired_shard _ _ _ _ _) as [st1 [[[chunk next] cap] removed]].
  destruct Hsw as (Hok1 & Hcon1 & Hsmall1 & Hgen1 & -> & Hswept & Hlive).
  destruct (lookup_lt_is_Some_2 (capacities e) (sw_shard e)) as [known Hk]; [by rewrite Hc|]. rewrite Hk.
  cbn [mbind option_bind Nat.eqb negb andb].
  rewrite (proj2 (Nat.ltb_ge cap cap)) by lia. rewrite Hc.
  set (rm := (shard_removed e + removed)%nat). set (caps := <[_ := _]> _).
  assert (Hcaps : length caps = length (shards (data st))) by (unfold caps; by rewrite length_insert).
  set (st2 := if (rm =? 0)%nat then st1 else store_compact_shard (sw_shard e) st1).
  assert (Hq : quiet hash_one st1 st2).
  { unfold st2. case_goal; [apply quiet_same|apply quiet_with_data, compact_quiet]. }
  pose proof (store_ok_quiet _ _ Hq Hok1) as Hok2. pose proof (scanned_quiet _ _ (S (sw_shard e)) Hq Hok1) as Hsc2.
  pose proof (swept_quiet c _ st _ _ Hok1 Hswept Hq) as Hswept2. pose proof (small_quiet _ _ Hq Hsmall1) as Hsmall2.
  assert (Hcon2 : constants (data st2) = constants (data st)) by (rewrite <- Hcon1; apply Hq).
  pose proof (constants_shards _ _ Hcon2) as Hlen2. pose proof (q_gen _ _ _ Hq) as Hgen2.
  destruct (S (sw_shard e) <? length (shards (data st)))%nat eqn:E; split_bool.
  - eexists _, _. split; [done|]. split; [|done|done|right; split; [done|]; simpl; by rewrite (proj2 (Nat.ltb_lt _ _) E)].
    split; simpl; [done|congruence|lia|done|lia|]. rewrite Hsc2, Hgen2, Hgen1. intros He. apply Hlive. congruence.
  - set (st3 := finish_ttl_scan (generation e) (Z.of_nat (live_ttls e + chunk)) st2).
    assert (Hd3 : data st3 = data st2) by (unfold st3, finish_ttl_scan; by case_goal).
    assert (Hok3 : store_ok st3).
    { destruct Hok2 as [Hw2 Htt2]. split; rewrite Hd3; [done|]. unfold st3, finish_ttl_scan.
      destruct (ttl_generation st2 =? generation e) eqn:Ege; simpl; [|done]. split_bool.
      rewrite <- (scanned_ttls_all hash_one) by by apply cw_struct. replace (length (shards (data st2))) with (S (sw_shard e)) by lia.
      rewrite Hsc2. apply Hlive. congruence. }
    pose proof (after_loss_quiet hash_one (length (shards (data st))) (last_key_count e) st3) as Hq3.
    destruct (after_loss _ _ _) as [st4 cur]. simpl in Hq3. eexists _, _. split; [done|].
    pose proof (store_ok_quiet _ _ Hq3 Hok3) as Hok4.
    assert (Hcon4 : constants (data st4) = constants (data st)) by (rewrite <- Hcon2, <- Hd3; apply Hq3).
    split; [|done| |].
    + apply pass_ok_fresh; [done|]. by rewrite (constants_shards _ _ Hcon4).
    + eapply small_quiet; [exact Hq3|]. intros i. rewrite Hd3. apply Hsmall2.
    + right. split; [|simpl; by rewrite (proj2 (Nat.ltb_ge _ _) E)].
      eapply swept_quiet; [exact Hok3| |exact Hq3]. intros k v. rewrite Hd3. apply Hswept2.
Qed.

Lemma sweep_none_ok c e st :
  pass_ok e st → small st → has_ttl_keys st = false → let '(e', st') := sweep_none e st in tick_ok c e st e' st'.
Proof.
  intros Hp Hsmall Ht. unfold sweep_none.
  pose proof (after_loss_quiet hash_one (length (capacities e)) (last_key_count e) st) as Hq.
  destruct (after_loss _ _ _) as [st' cur]. simpl in Hq. destruct Hp as [Hok Hc _ _ _ _].
  pose proof (store_ok_quiet _ _ Hq Hok) as Hok'. assert (Hcon : constants (data st') = constants (data st)) by apply Hq.
  split; [|done|by eapply small_quiet|left].
  - rewrite <- (q_gen _ _ _ Hq). apply pass_ok_fresh; [done|]. by rewrite (constants_shards _ _ Hcon).
  - split; [|by apply quiet_abs]. destruct Hok as [_ Htt]. unfold has_ttl_keys in Ht. split_bool. unfold ttl_keys in *. lia.
Qed.

Lemma tick_step_ok c r e st :
  pass_ok e st → small st → ∃ e' st', tick hash_one c r e st = Some (e', st') ∧ tick_ok c e st e' st'.
Proof.
  intros Hp Hsmall. unfold tick. unfold count_ticks. cbv zeta. set (e1 := mkSweeper _ _ _ _ _ _ _ _ _ _).
  set (due := _ && fragmented _ _). set (cdue := 120 <=? _).
  pose proof (maintained_quiet hash_one due cdue st) as Hq. cbv zeta in Hq.
  set (st1 := if cdue then _ else _) in *.
  assert (Hp1 : pass_ok e1 st1) by (apply (pass_ok_quiet e1 st); [done|]; destruct Hp; by split).
  pose proof (small_quiet _ _ Hq Hsmall) as Hsmall1. pose proof (quiet_abs _ _ Hq (pk_store _ _ Hp)) as Ha.
  assert (Hcon : constants (data st1) = constants (data st)) by apply Hq.
  assert (Hres : ∀ e' st', tick_ok c e1 st1 e' st' → tick_ok c e st e' st').
  { intros e' st' [Hp' Hc' Hs' Hr']. split; [done|congruence|done|].
    rewrite Ha, (constants_shards _ _ Hcon) in Hr'. destruct Hr' as [Hr'|[Hr' Hn]]; [by left|right].
    split; [|done]. intros k v. rewrite (Hr' k v), Ha. unfold home. by rewrite (constants_index hash_one _ _ _ Hcon). }
  destruct (has_ttl_keys st1) eqn:Ht.
  - destruct (sweep_some_ok c e1 st1 Hp1 Hsmall1 Ht) as (e' & st' & Heq & Hok). exists e', st'. auto.
  - pose proof (sweep_none_ok c e1 st1 Hp1 Hsmall1 Ht) as Hok. destruct (sweep_none e1 st1) as [e' st'].
    exists e', st'. auto.
Qed.

Lemma no_ttl_keys (g : gmap bytes StoreValue) : ttl_keys g = 0 → ∀ k v, g !! k = Some v → expires_ms v = 0.
Proof.
  intros Hz k v Hk. rewrite (ttl_keys_delete g k v Hk) in Hz. unfold has_ttl, ttl_keys in Hz.
  destruct (expires_ms v =? 0) eqn:E; split_bool; [done|]. simpl in Hz. lia.
Qed.

Lemma not_expired_after T c v : T <= now_ms c → sweep_expired c v = false → expires_ms v = 0 ∨ T < expires_ms v.
Proof. unfold sweep_expired. intros HT Hv. destruct (expires_ms v =? 0) eqn:E; split_bool; [by left|right]. simpl in Hv. split_bool. lia. Qed.

(** Turns without commands in between. *)
Lemma ticks_ok T l e st :
  pass_ok e st → small st → Forall (λ x : Clock * Readings, T <= now_ms x.1) l →
  let n := length (shards (data st)) in
  ∃ e' st', ticks hash_one l e st = Some (e', st') ∧ pass_ok e' st' ∧
    (∀ k v, abs (data st') !! k = Some v → abs (data st) !! k = Some v) ∧
    (∀ k v, abs (data st) !! k = Some v → Forall (λ x : Clock * Readings, sweep_expired x.1 v = false) l →
       abs (data st') !! k = Some v) ∧
    (∀ k v d, (d < length l)%nat → home hash_one (data st) k = ((sw_shard e + d) mod n)%nat →
       abs (data st') !! k = Some v → expires_ms v = 0 ∨ T < expires_ms v).
Proof.
  cbv zeta. revert e st. induction l as [|[c r] l IH]; intros e st Hp Hsmall HT.
  { exists e, st. simpl. split; [done|]. split; [done|]. split; [done|]. split; [done|lia]. }
  apply Forall_cons in HT as [HTc HT]. simpl in HTc.
  destruct (tick_step_ok c r e st Hp Hsmall) as (e1 & st1 & Htick & [Hp1 Hcon1 Hsmall1 Hres]).
  destruct (IH e1 st1 Hp1 Hsmall1 HT) as (e' & st' & Hticks & Hp' & Hsub & Hkeep & Hdone).
  exists e', st'. cbn [ticks]. rewrite Htick. split; [done|]. split; [done|].
  pose proof (constants_shards _ _ Hcon1) as Hlen1. pose proof (pk_shard _ _ Hp) as Hsh. destruct Hres as [[Hz Ha]|[Hsw Hnext]].
  - rewrite Ha in Hsub, Hkeep. split; [done|]. split; [intros k v Hk [_ Hf]%Forall_cons; by apply Hkeep|].
    intros k v d _ _ Hk. left. eapply no_ttl_keys; [exact Hz|by apply Hsub].
  - split; [intros k v Hk; by apply Hsw, Hsub|]. split.
    { intros k v Hk [Hc Hf]%Forall_cons. apply Hkeep; [|done]. by apply Hsw. }
    intros k v d Hd Hh Hk. destruct d as [|d].
    + rewrite Nat.add_0_r, Nat.mod_small in Hh by exact Hsh. apply Hsub, Hsw in Hk as [_ Hk].
      by apply (not_expired_after T c v HTc), Hk.
    + apply (Hdone k v d); [simpl in Hd; lia| |done]. unfold home in *. rewrite (constants_index hash_one _ _ _ Hcon1), Hh, Hlen1, Hnext.
      set (n := length (shards (data st))) in *. replace (sw_shard e + S d)%nat with (S (sw_shard e) + d)%nat by lia.
      destruct (S (sw_shard e) <? n)%nat eqn:E; split_bool; [done|].
      replace (S (sw_shard e)) with n by lia. replace (n + d)%nat with (d + 1 * n)%nat by lia. by rewrite Nat.Div0.mod_add.
Qed.

(** As many turns as there are shards visit each of them. *)
Lemma visited (n s h : nat) : (s < n)%nat → (h < n)%nat → ∃ d, (d < n)%nat ∧ h = ((s + d) mod n)%nat.
Proof.
  intros Hs Hh. destruct (decide (s <= h)%nat) as [Hle|Hgt].
  - exists (h - s)%nat. split; [lia|]. rewrite Nat.mod_small; lia.
  - exists (n + h - s)%nat. split; [lia|]. replace (s + (n + h - s))%nat with (h + 1 * n)%nat by lia.
    rewrite Nat.Div0.mod_add, Nat.mod_small; lia.
Qed.
End Pass.

(** ** The thread among the commands *)

Section Thread.
Context (hash_one : bytes → Z) `{HashOrder}.
#[local] Instance main_kv : KVMap StoreValue (CustomMap StoreValue) := claims_kv hash_one.
#[local] Instance main_laws : KVMapLaws StoreValue (CustomMap StoreValue) := claims_laws hash_one.
Implicit Types (st : Store (CustomMap StoreValue)) (e : Sweeper).

Lemma write_pass_ok c w e st :
  pass_ok hash_one e st → counts_ttl w = true → moves_ttl w = false → pass_ok hash_one e (write c w st).1.
Proof.
  intros [[Hw Htt] Hc Hs Hslot Hg Hlive] Ho Hm.
  pose proof (write_ok_spec (H0 := constant_laws hash_one (constants (data st))) c w st (conj Hw eq_refl)) as [[Hw' Hcon] _ _ Htt' Hgen Hnew].
  set (st' := (write c w st).1) in *. change (abs (data st')) with (abs (data st')) in *.
  pose proof (constants_shards _ _ Hcon) as Hlen.
  split; [split; [exact Hw'|by apply Htt']|by rewrite Hlen|by rewrite Hlen|done|lia|].
  intros Hge. assert (Hsame : ttl_generation st' = ttl_generation st) by lia.
  etrans; [|apply Hlive; congruence]. apply scanned_ttls_mono; [done|]. exact (Hnew Ho Hm Hsame).
Qed.

(** Turns of the thread and writes of clients, in any order, from the start on an
    empty store.  Four writes are left out: COPY and a conditional SET with an
    expiry, which do not count it, and RENAME and RENAMENX, which carry one
    behind the sweep ([rename_escapes_sweep]).  So is a snapshot loaded at the
    start, whose expiries are not counted ([loaded_keys_not_swept]). *)
Inductive running (shards max_keys : Z) : Sweeper → Store (CustomMap StoreValue) → Prop :=
| running_start : running shards max_keys (sweeper_start (with_config shards max_keys)) (with_config shards max_keys)
| running_write e st c w :
    running shards max_keys e st → counts_ttl w = true → moves_ttl w = false → running shards max_keys e (write c w st).1
| running_tick e st c r e' st' :
    running shards max_keys e st → small st → tick hash_one c r e st = Some (e', st') → running shards max_keys e' st'.

Lemma running_ok sh mk e st : running sh mk e st → pass_ok hash_one e st.
Proof.
  induction 1 as [|e st c w _ IH Ho Hm|e st c r e' st' _ IH Hsmall Ht].
  - destruct (with_capacity_wf (V := StoreValue) hash_one sh mk) as [Hw Ha].
    assert (Hok : store_ok hash_one (with_config sh mk)) by (split; [exact Hw|simpl; by rewrite Ha]).
    pose proof (map_shards_pos _ _ (cw_struct _ _ Hw)). split; simpl; try done.
    + by rewrite length_replicate.
    + intros _. by rewrite scanned_ttls_0.
  - by apply write_pass_ok.
  - destruct (tick_step_ok hash_one c r e st IH Hsmall) as (e1 & st1 & Ht1 & [Hp _ _ _]). congruence.
Qed.

(** C16: The expiry thread among the writes.  From an empty store, with any writes
    between its turns other than COPY, a conditional SET with an expiry, RENAME
    and RENAMENX (see [running]), the TTL counter never falls below the number of
    keys that expire; as long as every shard has at most 262144 slots, so that it
    fits in one turn ([small]), a turn never indexes out of bounds, and it removes
    nothing but keys that have expired. *)
Theorem expiry_thread_safe sh mk e st c r :
  running sh mk e st →
  ttl_keys (db st) <= ttl_count st ∧
  (small st → ∃ e' st', tick hash_one c r e st = Some (e', st') ∧
    (∀ k v, db st' !! k = Some v → db st !! k = Some v) ∧
    (∀ k v, db st !! k = Some v → db st' !! k = None → expires_ms v ≠ 0 ∧ expires_ms v <= now_ms c)).
Proof.
  intros Hr. pose proof (running_ok _ _ _ _ Hr) as Hp. split; [apply (sk_ttl _ _ (pk_store _ _ _ Hp))|].
  intros Hsmall. destruct (tick_step_ok hash_one c r e st Hp Hsmall) as (e' & st' & Ht & [_ _ _ Hres]).
  exists e', st'. split; [done|]. unfold db. simpl. destruct Hres as [[_ ->]|[Hsw _]]; [split; [done|congruence]|].
  split; [intros k v Hk; by apply Hsw|]. intros k v Hk Hn. destruct (sweep_expired c v) eqn:E.
  - unfold sweep_expired in E. split_bool. done.
  - assert (abs (data st') !! k = Some v) by (by apply Hsw). congruence.
Qed.

(** C17: Expired keys are reclaimed without being read.  Take a store that such a run
    reaches ([running]: no snapshot was loaded, no key was copied or renamed, no
    conditional SET gave an expiry), with shards of at most 262144 slots
    ([small]).  As many turns as there are shards, a second each and with no
    write between them, remove every key that expired before them, wherever the
    scan stands, and keep every key that does not expire until they are over.
    Outside such a run keys can stay for ever: [rename_escapes_sweep],
    [loaded_keys_not_swept]. *)
Theorem expiry_thread_reclaims sh mk e st l T :
  running sh mk e st → small st → length l = shard_count (data st) →
  Forall (λ x : Clock * Readings, T <= now_ms x.1) l →
  ∃ e' st', ticks hash_one l e st = Some (e', st') ∧
    (∀ k v, db st' !! k = Some v → db st !! k = Some v ∧ (expires_ms v = 0 ∨ T < expires_ms v)) ∧
    (∀ k v, db st !! k = Some v → Forall (λ x : Clock * Readings, sweep_expired x.1 v = false) l → db st' !! k = Some v).
Proof.
  intros Hr Hsmall Hl HT. pose proof (running_ok _ _ _ _ Hr) as Hp.
  destruct (ticks_ok hash_one T l e st Hp Hsmall HT) as (e' & st' & Ht & _ & Hsub & Hkeep & Hdone).
  exists e', st'. split; [done|]. split; [|exact Hkeep]. intros k v Hk. split; [by apply Hsub|].
  pose proof (shard_index_lt hash_one (data st) k (cw_struct _ _ (sk_wf _ _ (pk_store _ _ _ Hp)))) as Hh.
  destruct (visited (length (shards (data st))) (sw_shard e) (home hash_one (data st) k)) as (d & Hd & Hhd); [apply Hp|exact Hh|].
  apply (Hdone k v d); [rewrite Hl; exact Hd|done|exact Hk].
Qed.

(** ** What the thread never sweeps *)

Lemma cleanup_wf c i start n st :
  map_wf hash_one (data st) → Z.of_nat (shard_len (data st) i) <= usize_max →
  map_wf hash_one (data (cleanup_expired_shard c i start n st).1).
Proof.
  intros Hw Hle. unfold cleanup_expired_shard. destruct (negb (has_ttl_keys st)); [done|].
  pose proof (retain_range_spec hash_one (sweep_entry c) i start n (data st) (0, 0)%nat Hw Hle) as Hr.
  change (λ (_ : bytes) entry (acc : nat * nat), _) with (sweep_entry c).
  destruct (retain_shard_range _ _ _ _ _ _) as [[m' [lt rm]] r]. destruct Hr as [Hw' _].
  destruct (default _ r) as [nx cp]. destruct (iter_sub_ttl rm (with_data st m')) as [Hd _]. simpl. by rewrite Hd.
Qed.

(** A turn keeps the map well formed, whatever it counts. *)
Lemma tick_wf c r e st e' st' :
  map_wf hash_one (data st) → (∀ i, Z.of_nat (shard_len (data st) i) <= usize_max) →
  tick hash_one c r e st = Some (e', st') → map_wf hash_one (data st').
Proof.
  intros Hw Hle. unfold tick, count_ticks. cbv zeta. set (e1 := mkSweeper _ _ _ _ _ _ _ _ _ _). clearbody e1.
  set (due := _ && fragmented _ _). set (cdue := 120 <=? _).
  pose proof (maintained_quiet hash_one due cdue st) as Hq. cbv zeta in Hq. set (st1 := if cdue then _ else _) in *.
  assert (Hqw : ∀ s s', quiet hash_one s s' → map_wf hash_one (data s) → map_wf hash_one (data s')).
  { intros s s' Hq'. apply (qm_wf _ _ _ (q_map _ _ _ Hq')). }
  pose proof (Hqw _ _ Hq Hw) as Hw1. destruct (has_ttl_keys st1).
  - unfold sweep_some. cbv zeta. pose proof (cleanup_wf c (sw_shard e1) (sw_slot e1) SCAN_SLOTS_PER_TICK st1 Hw1) as Hw2.
    destruct (cleanup_expired_shard _ _ _ _ _) as [st2 [[[chunk nx] cp] rm]]. simpl in Hw2.
    specialize (Hw2 ltac:(pose proof (qm_len _ _ _ (q_map _ _ _ Hq) (sw_shard e1)); specialize (Hle (sw_shard e1)); lia)).
    destruct (capacities e1 !! sw_shard e1) as [known|]; [|done]. cbn [mbind option_bind].
    destruct (negb _ && negb _); [by intros [= <- <-]|]. destruct (nx <? cp)%nat; [by intros [= <- <-]|].
    set (st3 := if (_ =? 0)%nat then st2 else _). assert (Hw3 : map_wf hash_one (data st3)).
    { apply (Hqw st2); [|done]. unfold st3. case_goal; [apply quiet_same|apply quiet_with_data, compact_quiet]. }
    destruct (S (sw_shard e1) <? _)%nat; [by intros [= <- <-]|].
    set (st4 := finish_ttl_scan _ _ st3). assert (Hd4 : data st4 = data st3) by (unfold st4, finish_ttl_scan; by case_goal).
    pose proof (after_loss_quiet hash_one (length (capacities e1)) (last_key_count e1) st4) as Hq4.
    destruct (after_loss _ _ _) as [st5 cur]. intros [= _ <-]. apply (Hqw _ _ Hq4). by rewrite Hd4.
  - unfold sweep_none. pose proof (after_loss_quiet hash_one (length (capacities e1)) (last_key_count e1) st1) as Hq1.
    destruct (after_loss _ _ _) as [st2 cur]. intros [= _ <-]. by apply (Hqw _ _ Hq1).
Qed.

(** With the TTL counter at zero a turn changes nothing that can be read. *)
Lemma tick_idle c r e st :
  has_ttl_keys st = false → ∃ e' st', tick hash_one c r e st = Some (e', st') ∧ quiet hash_one st st'.
Proof.
  intros Ht. unfold tick, count_ticks. cbv zeta. set (e1 := mkSweeper _ _ _ _ _ _ _ _ _ _).
  set (due := _ && fragmented _ _). set (cdue := 120 <=? _).
  pose proof (maintained_quiet hash_one due cdue st) as Hq. cbv zeta in Hq. set (st1 := if cdue then _ else _) in *.
  assert (Ht1 : has_ttl_keys st1 = false) by (unfold has_ttl_keys in *; by rewrite (q_count _ _ _ Hq)).
  rewrite Ht1. unfold sweep_none.
  pose proof (after_loss_quiet hash_one (length (capacities e1)) (last_key_count e1) st1) as Hq1.
  destruct (after_loss _ _ _) as [st2 cur]. eexists _, st2. split; [done|]. by eapply quiet_seq.
Qed.

Lemma ticks_idle l e st :
  has_ttl_keys st = false → ∃ e' st', ticks hash_one l e st = Some (e', st') ∧ quiet hash_one st st'.
Proof.
  revert e st. induction l as [|[c r] l IH]; intros e st Ht; [exists e, st; split; [done|apply quiet_same]|].
  destruct (tick_idle c r e st Ht) as (e1 & st1 & Htick & Hq). cbn [ticks]. rewrite Htick.
  destruct (IH e1 st1) as (e' & st' & Hticks & Hq'); [unfold has_ttl_keys in *; by rewrite (q_count _ _ _ Hq)|].
  exists e', st'. split; [done|]. by eapply quiet_seq.
Qed.

Lemma load_loop_count fuel now r n st :
  store_wf st → store_wf (load_loop fuel now r n st).1 ∧ ttl_count (load_loop fuel now r n st).1 = ttl_count st.
Proof.
  revert r n st. induction fuel as [|fuel IH]; intros r n st Hw; [done|]. cbn [load_loop].
  destruct (read_u8 r) as [ty r'|[]]; [|done..]. destruct (ty =? TYPE_EOF); [done|].
  destruct (load_entry now ty r') as [[[k v]|] r''|]; [|by apply IH|done].
  destruct (put_spec k v st Hw) as (Hw' & _ & Hc & _). rewrite <- Hc. by apply IH.
Qed.

Lemma load_count c file st :
  store_wf st → store_wf (Rdb.load c file st).1 ∧ ttl_count (Rdb.load c file st).1 = ttl_count st.
Proof.
  intros Hw. unfold Rdb.load. destruct file as [r|]; [|done]. destruct (length r <? 6)%nat; [done|].
  destruct (read_exact 4 r) as [magic r1|]; [|done]. destruct (negb _); [done|].
  destruct (read_u8 r1) as [version r2|]; [|done]. destruct (VERSION <? version); [done|]. by apply load_loop_count.
Qed.

(** The store [main] starts the threads with: the snapshot is loaded into an
    empty store, and an error of the load is printed and forgotten. *)
Definition boot (c : Clock) (cfg : Config) (file : option bytes) : Store (CustomMap StoreValue) :=
  (Rdb.load c file (with_config (cf_shards cfg) (cf_max_keys cfg))).1.

(** The expiries of a snapshot are not swept.  Whatever the snapshot and the
    configuration, and however long the server then runs without a command, the expiry
    thread removes none of the loaded keys, expired or not. *)
Theorem loaded_keys_not_swept c cfg file l :
  let st := boot c cfg file in
  ∃ e' st', ticks hash_one l (sweeper_start st) st = Some (e', st') ∧ db st' = db st.
Proof.
  cbv zeta. destruct (with_capacity_wf (V := StoreValue) hash_one (cf_shards cfg) (cf_max_keys cfg)) as [Hw _].
  destruct (load_count c file (with_config (cf_shards cfg) (cf_max_keys cfg)) Hw) as [Hw' Hc].
  destruct (ticks_idle l (sweeper_start (boot c cfg file)) (boot c cfg file)) as (e' & st' & Ht & Hq).
  { unfold has_ttl_keys, boot. by rewrite Hc. }
  exists e', st'. split; [done|]. unfold db. simpl. apply (qm_abs _ _ _ (q_map _ _ _ Hq)). exact Hw'.
Qed.
End Thread.

(** ** Concrete runs *)

Definition idle : Readings := mkReadings 0 None.
Definition at_ms (t : Z) : Clock := mkClock t t.

(** A hasher that puts [a] into shard 1 of two and [0] into shard 0. *)
Definition first_byte_hash (k : bytes) : Z := match k with b :: _ => b2z b * 2 ^ 57 | [] => 0 end.

(** [a] expires at 2000; after the first turn, which looks at shard 0, it is renamed. *)
Definition with_expiry : Store (CustomMap StoreValue) :=
  set_string (H := claims_kv first_byte_hash) (B "a") (B "v") 2000 (with_config 2 16).

(** Two shards of eight slots. *)
Definition two_small (m : CustomMap StoreValue) : bool :=
  (length (shards m) =? 2)%nat && forallb (λ s, capacity (table s) =? 8) (shards m).

Lemma two_small_len m i : two_small m = true → (shard_len m i <= 8)%nat.
Proof.
  unfold two_small, shard_len, shard_slot_count. intros [_ Hf]%andb_true_iff.
  destruct (shards m !! i) as [s|] eqn:Hs; [|simpl; lia]. simpl. apply list_elem_of_lookup_2, list_elem_of_In in Hs.
  rewrite forallb_forall in Hf. apply Hf in Hs. split_bool. lia.
Qed.

Lemma two_small_usize m i : two_small m = true → Z.of_nat (shard_len m i) <= usize_max.
Proof. intros Hm%(two_small_len m i). unfold usize_max. lia. Qed.

(** A rename hides an expiry from the sweep.  A key that moves from a shard the pass has
    not reached to one it has passed is not counted; the counter then drops to zero with
    the key still there, and from then on no turn removes it, however long ago it
    expired. *)
Theorem rename_escapes_sweep :
  let kv := claims_kv first_byte_hash in
  ∃ e1 st1 e2 st2,
    tick first_byte_hash (at_ms 1000) idle (sweeper_start with_expiry) with_expiry = Some (e1, st1) ∧
    tick first_byte_hash (at_ms 1001) idle e1 (Store.rename (at_ms 1001) (B "a") (B "0") st1).1 = Some (e2, st2) ∧
    ttl_count st2 = 0 ∧
    ∀ l, ∃ e' st', ticks first_byte_hash l e2 st2 = Some (e', st') ∧
      CustomMap.get_ref first_byte_hash (data st') (B "0") = Some (mkValue (VString (B "v")) 2000).
Proof.
  cbv zeta. set (h := first_byte_hash). set (v := mkValue (VString (B "v")) 2000).
  assert (Hrun : (p ← tick h (at_ms 1000) idle (sweeper_start with_expiry) with_expiry;
      let renamed := (Store.rename (H := claims_kv h) (at_ms 1001) (B "a") (B "0") p.2).1 in
      q ← tick h (at_ms 1001) idle p.1 renamed;
      Some (two_small (data renamed), ttl_count q.2, CustomMap.get_ref h (data q.2) (B "0"))) = Some (true, 0, Some v))
    by (vm_compute; reflexivity).
  destruct (tick h (at_ms 1000) _ _ _) as [[e1 st1]|] eqn:E1; [|done]. cbn [mbind option_bind fst snd] in Hrun.
  set (st1r := (Store.rename (H := claims_kv h) (at_ms 1001) (B "a") (B "0") st1).1) in *.
  destruct (tick h (at_ms 1001) idle e1 st1r) as [[e2 st2]|] eqn:E2; [|done]. cbn [mbind option_bind fst snd] in Hrun.
  injection Hrun as Hsmall Hcount Hget. exists e1, st1, e2, st2. split; [done|]. split; [exact E2|]. split; [done|].
  destruct (with_capacity_wf (V := StoreValue) h 2 16) as [Hw0 _].
  pose proof (kv_set_spec (KVMapLaws := claims_laws h) (data (with_config 2 16)) (B "a") v Hw0) as [Hw _].
  assert (Hw1 : map_wf h (data st1)).
  { refine (tick_wf h _ _ _ _ _ _ _ _ E1); [exact Hw|]. intros i. by apply two_small_usize. }
  destruct (rename_spec (H0 := claims_laws h) (at_ms 1001) (B "a") (B "0") st1 Hw1) as [Hw1r _]; [done|].
  assert (Hw2 : map_wf h (data st2)).
  { refine (tick_wf h _ _ _ _ _ _ _ _ E2); [exact Hw1r|]. intros i. by apply two_small_usize. }
  intros l. destruct (ticks_idle h l e2 st2) as (e' & st' & Ht & Hq); [unfold has_ttl_keys; by rewrite Hcount|].
  exists e', st'. split; [done|]. pose proof (qm_wf _ _ _ (q_map _ _ _ Hq) Hw2) as Hw'.
  rewrite get_ref_abs, (qm_abs _ _ _ (q_map _ _ _ Hq) Hw2), <- (get_ref_abs h) by by apply cw_struct. exact Hget.
Qed.

(** A key that expired at 2000 in a store of two shards, whose thread has just started. *)
Definition one_expiry : Store (CustomMap StoreValue) :=
  (write (H := claims_kv first_byte_hash) (H0 := canonical_order) (at_ms 1000) (WTrySet (B "a") (B "v") 2000) (with_config 2 16)).1.

Lemma one_expiry_running :
  running first_byte_hash (H := canonical_order) 2 16 (sweeper_start (with_config 2 16)) one_expiry.
Proof. apply running_write; [apply running_start|done|done]. Qed.

Lemma one_expiry_small : small one_expiry.
Proof.
  intros i. assert (Hs : two_small (data one_expiry) = true) by (vm_compute; reflexivity).
  pose proof (two_small_len _ i Hs). pose proof scan_slots. lia.
Qed.

Example expiry_thread_safe_witness :
  ttl_keys (abs (data one_expiry)) <= ttl_count one_expiry ∧
  ∃ e' st', tick first_byte_hash (at_ms 5000) idle (sweeper_start (with_config 2 16)) one_expiry = Some (e', st').
Proof.
  pose proof (expiry_thread_safe first_byte_hash (H := canonical_order) 2 16 _ _ (at_ms 5000) idle one_expiry_running) as [Ht Hs].
  split; [exact Ht|]. destruct (Hs one_expiry_small) as (e' & st' & Htick & _). by exists e', st'.
Defined.

Example expiry_thread_reclaims_witness :
  ∃ e' st', ticks first_byte_hash [(at_ms 5000, idle); (at_ms 6000, idle)] (sweeper_start (with_config 2 16)) one_expiry =
    Some (e', st') ∧ ∀ k v, abs (data st') !! k = Some v → expires_ms v = 0 ∨ 5000 < expires_ms v.
Proof.
  pose proof (expiry_thread_reclaims first_byte_hash (H := canonical_order) 2 16 _ _ [(at_ms 5000, idle); (at_ms 6000, idle)] 5000
    one_expiry_running one_expiry_small eq_refl) as Hr.
  destruct Hr as (e' & st' & Ht & Hdb & _); [repeat constructor; simpl; lia|].
  exists e', st'. split; [exact Ht|]. intros k v Hk. apply (Hdb k v Hk).
Defined.
