(* ===== verification/Notify.v ===== *)
(** Publish/subscribe under contention (pubsub/slot.rs, pubsub/registry.rs, and
    the way worker.rs and handler/conn.rs use them).

    [Wakeup]: publishers push messages to the slots of one worker and notify
    it; the worker drains its slots and writes to its sockets.  A step is one
    atomic access to a queue, a flag or a counter.  [Snap]: subscribers replace
    the snapshot of a channel shard while publishers read it.  Steps interleave
    arbitrarily and take effect in that order.

    A message is its identity and its size; the output buffer of a connection
    holds messages, of the first of which some bytes may have been written. *)

From S2P Require Import Prelude.
Local Open Scope Z_scope.

Module Wakeup.

(** ** State *)

(** A message has a size in bytes; no message frame is empty. *)
Record Msg := mkMsg { m_id : nat; m_size : positive }.

(** A [SubSlot] with the output buffer of its connection; its token is its
    place in the list.  [wbuf] is what [stream.write] has not taken yet, [offset]
    how much of its first message it has; [received] lists the messages that the
    socket has taken in full. *)
Record Chan := mkChan {
  queue : list Msg;
  notify_pending : bool;
  qlen : Z;
  wbuf : list Msg;
  offset : Z;
  received : list Msg;
}.

(** The slots of a worker and its [WorkerNotifier]; [woken] is the event of the waker. *)
Record Mem := mkMem {
  chans : list Chan;
  pending : list nat;
  wake_pending : bool;
  woken : bool;
}.

Definition on_chan (t : nat) (f : Chan → Chan) (m : Mem) : Mem :=
  mkMem (alter f t (chans m)) (pending m) (wake_pending m) (woken m).
Definition set_queue (q : list Msg) (c : Chan) : Chan :=
  mkChan q (notify_pending c) (qlen c) (wbuf c) (offset c) (received c).
Definition set_flag (b : bool) (c : Chan) : Chan := mkChan (queue c) b (qlen c) (wbuf c) (offset c) (received c).
Definition add_len (n : Z) (c : Chan) : Chan :=
  mkChan (queue c) (notify_pending c) (qlen c + n) (wbuf c) (offset c) (received c).
Definition extend_wbuf (msg : Msg) (c : Chan) : Chan :=
  mkChan (queue c) (notify_pending c) (qlen c) (wbuf c ++ [msg]) (offset c) (received c).

(** The bytes in the output buffer. *)
Definition bytes_of (l : list Msg) : Z := foldr (λ m n, Zpos (m_size m) + n) 0 l.
Definition unsent (c : Chan) : Z := bytes_of (wbuf c) - offset c.

(** [n] bytes more of [l], of whose first message [off] are written: the
    messages that are now complete, the offset in the next one, and what is left. *)
Fixpoint take_bytes (n off : Z) (l : list Msg) : list Msg * Z * list Msg :=
  match l with
  | [] => ([], 0, [])
  | m :: l' =>
      if Zpos (m_size m) - off <=? n then
        let '(whole, off', rest) := take_bytes (n - (Zpos (m_size m) - off)) 0 l' in (m :: whole, off', rest)
      else ([], off + n, l)
  end.

(** The socket takes [n] bytes. *)
Definition write_bytes (n : Z) (c : Chan) : Chan :=
  let '(whole, off, rest) := take_bytes n (offset c) (wbuf c) in
  mkChan (queue c) (notify_pending c) (qlen c) rest off (received c ++ whole).
Definition push_pending (t : nat) (m : Mem) : Mem := mkMem (chans m) (pending m ++ [t]) (wake_pending m) (woken m).
Definition set_pending (l : list nat) (m : Mem) : Mem := mkMem (chans m) l (wake_pending m) (woken m).
Definition set_wake (b : bool) (m : Mem) : Mem := mkMem (chans m) (pending m) b (woken m).
Definition set_woken (b : bool) (m : Mem) : Mem := mkMem (chans m) (pending m) (wake_pending m) b.

(** ** Publishers *)

(** [SubSlot::push] and [WorkerNotifier::notify]. *)
Inductive PubPc :=
| PLen          (* [len.fetch_add] *)
| PPush         (* [queue.push] *)
| PSwap         (* [notify_pending.swap] *)
| PNotify       (* [pending.push] *)
| PWakeSwap     (* [wake_pending.swap] *)
| PWake         (* [waker.wake] *)
| PDone.

Definition pub_step (t : nat) (msg : Msg) (m : Mem) (pc : PubPc) : Mem * PubPc :=
  match pc with
  | PLen => (on_chan t (add_len 1) m, PPush)
  | PPush => (on_chan t (λ c, set_queue (queue c ++ [msg]) c) m, PSwap)
  | PSwap =>
      match chans m !! t with
      | Some c => if notify_pending c then (m, PDone) else (on_chan t (set_flag true) m, PNotify)
      | None => (m, PDone)
      end
  | PNotify => (push_pending t m, PWakeSwap)
  | PWakeSwap => if wake_pending m then (m, PDone) else (set_wake true m, PWake)
  | PWake => (set_woken true m, PDone)
  | PDone => (m, PDone)
  end.

(** ** The worker *)

Definition SUB_WRITE_BATCH_BYTES : Z := 256 * 1024.

(** [do_write] with [drain_into_limit]. *)
Inductive WritePc :=
| DStart                 (* is there room in the output buffer? *)
| DClear                 (* [notify_pending.store(false)] *)
| DPop (drained : Z)     (* [queue.pop] *)
| DLen (drained : Z)     (* [len.fetch_sub] *)
| DEmpty                 (* [queue.is_empty] *)
| DSwap                  (* [notify_pending.swap] *)
| DNotify
| DWakeSwap
| DWake
| DWrite                 (* [stream.write] *)
| DKeep.                 (* [has_pending_write] *)

Inductive WorkerPc :=
| WPoll                  (* [poll.poll] *)
| WPop                   (* [drain_pending_into]: [pending.pop] *)
| WClear                 (* [wake_pending.store(false)] *)
| WCheck                 (* [pending.is_empty] *)
| WReclaim               (* [wake_pending.swap] *)
| WServe                 (* the loops over [dirty] and [sub_dirty] *)
| WWrite (t : nat) (from_sub : bool) (d : WritePc).

(** What the schedule decides: where the worker goes on, and how much a socket takes. *)
Inductive Choice :=
| CWake                  (* [poll] reports the waker *)
| COther                 (* [poll] reports something else, or its timeout *)
| CSub (t : nat)         (* the next token of [sub_dirty] *)
| CReadable (t : nat)    (* the next token of [dirty], after a request *)
| CBack                  (* back to [poll] *)
| CAccept (n : Z).       (* the socket takes [n] bytes *)

Record Worker := mkWorker { pc : WorkerPc; sub_dirty : list nat }.

Definition goto (p : WorkerPc) (w : Worker) : Worker := mkWorker p (sub_dirty w).

Definition write_step (t : nat) (from_sub : bool) (ch : Choice) (m : Mem) (c : Chan) (w : Worker) (d : WritePc)
    : Mem * Worker :=
  let to d' := goto (WWrite t from_sub d') w in
  match d with
  | DStart => (m, to (if unsent c <? SUB_WRITE_BATCH_BYTES then DClear else DWrite))
  | DClear => (on_chan t (set_flag false) m, to (DPop 0))
  | DPop n =>
      match queue c with
      | [] => (m, to (DLen n))
      | msg :: q =>
          let out := unsent c + Zpos (m_size msg) in
          (on_chan t (λ c, extend_wbuf msg (set_queue q c)) m,
           to (if SUB_WRITE_BATCH_BYTES <=? out then DLen (n + 1) else DPop (n + 1)))
      end
  | DLen n => (on_chan t (add_len (- n)) m, to DEmpty)
  | DEmpty => (m, to (match queue c with [] => DWrite | _ => DSwap end))
  | DSwap => if notify_pending c then (m, to DWrite) else (on_chan t (set_flag true) m, to DNotify)
  | DNotify => (push_pending t m, to DWakeSwap)
  | DWakeSwap => if wake_pending m then (m, to DWrite) else (set_wake true m, to DWake)
  | DWake => (set_woken true m, to DWrite)
  | DWrite =>
      let n := match ch with CAccept n => Z.max 0 n | _ => 0 end in
      (on_chan t (write_bytes n) m, to DKeep)
  | DKeep =>
      let pending_write := match wbuf c, queue c with [], [] => false | _, _ => true end in
      (m, mkWorker WServe (if from_sub && negb pending_write then List.filter (λ i, negb (i =? t)%nat) (sub_dirty w) else sub_dirty w))
  end.

(** [None]: the choice does not apply, or the worker waits in [poll]. *)
Definition work_step (ch : Choice) (m : Mem) (w : Worker) : option (Mem * Worker) :=
  match pc w with
  | WPoll =>
      match ch with
      | CWake => if woken m then Some (set_woken false m, goto WPop w) else None
      | COther => Some (m, goto WServe w)
      | _ => None
      end
  | WPop =>
      match pending m with
      | t :: l => Some (set_pending l m, mkWorker WPop (sub_dirty w ++ [t]))
      | [] => Some (m, goto WClear w)
      end
  | WClear => Some (set_wake false m, goto WCheck w)
  | WCheck => Some (m, goto (match pending m with [] => WServe | _ => WReclaim end) w)
  | WReclaim => Some (set_wake true m, goto (if wake_pending m then WServe else WPop) w)
  | WServe =>
      match ch with
      | CSub t => if bool_decide (t ∈ sub_dirty w) then _ ← chans m !! t; Some (m, goto (WWrite t true DStart) w) else None
      | CReadable t => _ ← chans m !! t; Some (m, goto (WWrite t false DStart) w)
      | CBack => Some (m, goto WPoll w)
      | _ => None
      end
  | WWrite t from_sub d => c ← chans m !! t; Some (write_step t from_sub ch m c w d)
  end.

(** ** The system *)

Record Publisher := mkPub { p_slot : nat; p_msg : Msg; p_pc : PubPc }.

(** [pushed] lists the messages in the order in which they entered a queue. *)
Record Sys := mkSys { mem : Mem; pubs : list Publisher; worker : Worker; pushed : list (nat * Msg) }.

Inductive Act := Pub (i : nat) | Work (ch : Choice).

Definition sys_step (s : Sys) (a : Act) : Sys :=
  match a with
  | Pub i =>
      match pubs s !! i with
      | Some (mkPub t msg p) =>
          let '(m', p') := pub_step t msg (mem s) p in
          mkSys m' (<[i := mkPub t msg p']> (pubs s)) (worker s)
            (match p with PPush => pushed s ++ [(t, msg)] | _ => pushed s end)
      | None => s
      end
  | Work ch =>
      match work_step ch (mem s) (worker s) with
      | Some (m', w') => mkSys m' (pubs s) w' (pushed s)
      | None => s
      end
  end.

Definition run (sched : list Act) (s : Sys) : Sys := foldl sys_step s sched.

Definition start (n : nat) (l : list (nat * Msg)) : Sys :=
  mkSys (mkMem (replicate n (mkChan [] false 0 [] 0 [])) [] false false)
    ((λ p, mkPub p.1 p.2 PLen) <$> l) (mkWorker WPoll []) [].

(** Nothing is under way: the publishers have returned, and the worker waits
    for an event with no token left to serve. *)
Definition is_done (x : Publisher) : bool := match p_pc x with PDone => true | _ => false end.

Definition at_rest (s : Sys) : bool :=
  forallb is_done (pubs s) && match pc (worker s) with WPoll => true | _ => false end &&
  negb (woken (mem s)) && match sub_dirty (worker s) with [] => true | _ => false end.

(** ** Who is responsible *)

Definition pub_ix (p : PubPc) : nat :=
  match p with PLen => 0 | PPush => 1 | PSwap => 2 | PNotify => 3 | PWakeSwap => 4 | PWake => 5 | PDone => 6 end.

(** Publishers of slot [t] at [p], and all publishers at [p]. *)
Definition is_at (p : PubPc) (t : nat) (x : Publisher) : Z :=
  Z.b2z ((pub_ix (p_pc x) =? pub_ix p)%nat && (p_slot x =? t)%nat).
Definition is_any (p : PubPc) (x : Publisher) : Z := Z.b2z (pub_ix (p_pc x) =? pub_ix p)%nat.

Definition at_pub (p : PubPc) (t : nat) (s : Sys) : Z := tally (is_at p t) (pubs s).
Definition any_pub (p : PubPc) (s : Sys) : Z := tally (is_any p) (pubs s).

Definition notifying (t : nat) (p : WorkerPc) : Z :=
  match p with WWrite u _ DNotify => Z.b2z (u =? t)%nat | _ => 0 end.
(** Past the clearing of a token that [sub_dirty] is about to lose. *)
Definition past (t : nat) (p : WorkerPc) : bool :=
  match p with WWrite u true (DStart | DClear) => false | WWrite u true _ => (u =? t)%nat | _ => false end.
Definition listed (t : nat) (w : Worker) : Z := Z.b2z (negb (past t (pc w)) && bool_decide (t ∈ sub_dirty w)).
Definition popped (t : nat) (p : WorkerPc) : Z :=
  match p with WWrite u _ (DPop n | DLen n) => if (u =? t)%nat then n else 0 | _ => 0 end.
Definition waking (p : WorkerPc) : Z := match p with WWrite _ _ DWake => 1 | WPop | WClear => 1 | _ => 0 end.
Definition claiming (p : WorkerPc) : Z := match p with WWrite _ _ DWakeSwap => 1 | WCheck | WReclaim => 1 | _ => 0 end.

Definition of_slot (t : nat) (l : list (nat * Msg)) : list Msg := (filter (λ p, p.1 = t) l).*2.

Record inv (s : Sys) : Prop := {
  i_work : ∀ t c, chans (mem s) !! t = Some c → (queue c = [] → wbuf c ≠ []) →
    0 < at_pub PSwap t s + at_pub PNotify t s + Z.b2z (bool_decide (t ∈ pending (mem s))) +
        notifying t (pc (worker s)) + Z.b2z (bool_decide (t ∈ sub_dirty (worker s)));
  i_flag : ∀ t c, chans (mem s) !! t = Some c → notify_pending c = true →
    0 < at_pub PNotify t s + Z.b2z (bool_decide (t ∈ pending (mem s))) + notifying t (pc (worker s)) + listed t (worker s);
  i_pending : pending (mem s) ≠ [] →
    0 < Z.b2z (wake_pending (mem s)) + any_pub PWakeSwap s + claiming (pc (worker s));
  i_wake : wake_pending (mem s) = true →
    0 < Z.b2z (woken (mem s)) + any_pub PWake s + waking (pc (worker s));
  i_conn : ∀ t b d, pc (worker s) = WWrite t b d → (t < length (chans (mem s)))%nat;
  i_len : ∀ t c, chans (mem s) !! t = Some c →
    qlen c = Z.of_nat (length (queue c)) + at_pub PPush t s + popped t (pc (worker s));
  i_fifo : ∀ t c, chans (mem s) !! t = Some c → of_slot t (pushed s) = received c ++ wbuf c ++ queue c;
}.

Lemma take_bytes_all n off l : let '(whole, _, rest) := take_bytes n off l in whole ++ rest = l.
Proof.
  revert n off. induction l as [|m l IH]; intros n off; [done|]. simpl.
  destruct (_ <=? n); [|done].
  specialize (IH (n - (Zpos (m_size m) - off)) 0). destruct (take_bytes _ _ l) as [[w o] r]. simpl. by rewrite IH.
Qed.

(** Writing moves messages from the buffer to the client. *)
Lemma write_bytes_spec n c :
  received (write_bytes n c) ++ wbuf (write_bytes n c) ++ queue (write_bytes n c) = received c ++ wbuf c ++ queue c ∧
  (wbuf (write_bytes n c) ≠ [] → wbuf c ≠ []) ∧
  queue (write_bytes n c) = queue c ∧ notify_pending (write_bytes n c) = notify_pending c ∧ qlen (write_bytes n c) = qlen c.
Proof.
  unfold write_bytes. pose proof (take_bytes_all n (offset c) (wbuf c)) as Ht.
  destruct (take_bytes n (offset c) (wbuf c)) as [[w o] r]. simpl. split_and!; try done.
  - rewrite <- Ht, <- !app_assoc. done.
  - intros Hr E. rewrite E in Ht. by apply app_nil in Ht as [_ ->].
Qed.

Lemma at_pub_nonneg p t s : 0 <= at_pub p t s.
Proof. apply tally_nonneg. intros x. unfold is_at. destruct (_ && _); simpl; lia. Qed.

Lemma any_pub_nonneg p s : 0 <= any_pub p s.
Proof. apply tally_nonneg. intros x. unfold is_any. destruct (_ =? _)%nat; simpl; lia. Qed.

Lemma lookup_alter_inv {A} (f : A → A) t (l : list A) u c' :
  alter f t l !! u = Some c' → ∃ c, l !! u = Some c ∧ c' = if (t =? u)%nat then f c else c.
Proof.
  destruct (t =? u)%nat eqn:E; split_bool; [subst u; rewrite list_lookup_alter_eq|rewrite list_lookup_alter_ne by done].
  - intros (c & Hc & ->)%fmap_Some. by exists c.
  - intros Hc. by exists c'.
Qed.

Lemma at_pub_step p t s i x y m' w' l' :
  pubs s !! i = Some x →
  at_pub p t (mkSys m' (<[i := y]> (pubs s)) w' l') = at_pub p t s - is_at p t x + is_at p t y.
Proof. intros Hx. unfold at_pub. simpl. by apply tally_insert. Qed.

Lemma any_pub_step p s i x y m' w' l' :
  pubs s !! i = Some x →
  any_pub p (mkSys m' (<[i := y]> (pubs s)) w' l') = any_pub p s - is_any p x + is_any p y.
Proof. intros Hx. unfold any_pub. simpl. by apply tally_insert. Qed.

Lemma of_slot_snoc t l u msg : of_slot t (l ++ [(u, msg)]) = of_slot t l ++ if (u =? t)%nat then [msg] else [].
Proof.
  unfold of_slot. rewrite filter_app, fmap_app, filter_cons. simpl.
  destruct (u =? t)%nat eqn:E; split_bool; case_decide; simpl in *; done.
Qed.

(** Look up a slot of the new memory in the old one. *)
Ltac slot_was :=
  repeat match goal with
  | H : alter _ _ _ !! _ = Some _ |- _ => apply lookup_alter_inv in H as (?c & ?H & ->)
  end.

Ltac count_pubs Hx :=
  rewrite ?(at_pub_step _ _ _ _ _ _ _ _ _ Hx), ?(any_pub_step _ _ _ _ _ _ _ _ Hx); unfold is_at, is_any; simpl.



Lemma at_pub_has p t s i x : pubs s !! i = Some x → is_at p t x <= at_pub p t s.
Proof. apply tally_elem. intros y. unfold is_at. destruct (_ && _); simpl; lia. Qed.

Lemma any_pub_has p s i x : pubs s !! i = Some x → is_any p x <= any_pub p s.
Proof. apply tally_elem. intros y. unfold is_any. destruct (_ =? _)%nat; simpl; lia. Qed.

Lemma worker_nonneg t w :
  0 <= notifying t (pc w) ∧ 0 <= listed t w <= Z.b2z (bool_decide (t ∈ sub_dirty w)) ∧
  0 <= waking (pc w) ∧ 0 <= claiming (pc w).
Proof.
  assert (Hl : 0 <= listed t w <= Z.b2z (bool_decide (t ∈ sub_dirty w))).
  { unfold listed. destruct (past t (pc w)), (bool_decide _); simpl; lia. }
  destruct (pc w) as [| | | | | |u b d]; simpl; try lia. destruct d; simpl; try destruct (u =? t)%nat; simpl; lia.
Qed.

Lemma b2z_nonneg b : 0 <= Z.b2z b.
Proof. destruct b; simpl; lia. Qed.

Lemma elem_push (u t : nat) l : bool_decide (u ∈ l ++ [t]) = bool_decide (u ∈ l) || (t =? u)%nat.
Proof. destruct (t =? u)%nat eqn:E; split_bool; repeat case_bool_decide; try done; exfalso; set_solver. Qed.

Lemma elem_pop (u t : nat) l : bool_decide (u ∈ t :: l) = bool_decide (u ∈ l) || (t =? u)%nat.
Proof. destruct (t =? u)%nat eqn:E; split_bool; repeat case_bool_decide; try done; exfalso; set_solver. Qed.

(** The clauses of the invariant for the slot at hand, in the old state. *)
Ltac clauses s Hs :=
  lazymatch goal with
  | H : chans (mem s) !! ?u = Some ?c |- _ =>
      pose proof (i_work s Hs u c H); pose proof (i_flag s Hs u c H);
      pose proof (i_len s Hs u c H); pose proof (i_fifo s Hs u c H);
      pose proof (at_pub_nonneg PSwap u s); pose proof (at_pub_nonneg PNotify u s); pose proof (worker_nonneg u (worker s))
  | _ => pose proof (worker_nonneg 0 (worker s))
  end;
  pose proof (any_pub_nonneg PWakeSwap s); pose proof (any_pub_nonneg PWake s);
  pose proof (i_pending s Hs); pose proof (i_wake s Hs); pose proof (i_conn s Hs).

(** Use what the clauses say where their premises hold, and count. *)
Ltac by_count :=
  repeat match goal with
  | H : queue ?c = _, H' : context [length (queue ?c)] |- _ => rewrite H in H'; simpl in H'
  | H : ?b = true |- context [Z.b2z ?b] => rewrite H in *; simpl
  | H : ?P → _ |- _ =>
      lazymatch type of P with Prop => first [specialize (H ltac:(first [done | congruence])) | clear H] end
  | H : context [Z.b2z (?b || ?c)] |- _ => destruct b eqn:?; simpl in *
  | |- context [Z.b2z (?b || ?c)] => destruct b eqn:?; simpl in *
  end;
  repeat match goal with
  | |- context [Z.b2z ?b] => lazymatch goal with H : 0 <= Z.b2z b |- _ => fail | _ => pose proof (b2z_nonneg b) end
  end; lia.

Lemma pub_step_inv s i t msg p :
  inv s → pubs s !! i = Some (mkPub t msg p) → inv (sys_step s (Pub i)).
Proof.
  intros Hs Hx. unfold sys_step. rewrite Hx.
  assert (Hp : 1 <= at_pub p t s ∧ 1 <= any_pub p s).
  { pose proof (at_pub_has p t s _ _ Hx) as H1. pose proof (any_pub_has p s _ _ Hx) as H2.
    unfold is_at, is_any in *. simpl in *. rewrite !Nat.eqb_refl in *. done. }
  destruct p; simpl; repeat case_match; simplify_eq/=.
  all: split; simpl; intros; slot_was; simplify_eq; count_pubs Hx; clauses s Hs; rewrite ?elem_push, ?of_slot_snoc, ?length_alter.
  all: try match goal with H : chans _ !! ?u = Some _ |- _ => destruct (t =? u)%nat eqn:E; simpl in *; split_bool; simplify_eq end.
  all: rewrite ?length_app, ?app_nil_r, ?app_assoc in *; simpl.
  all: solve [eauto using lookup_lt_Some | congruence | by_count].
Qed.


Lemma at_pub_kept p t s m' w' l' : at_pub p t (mkSys m' (pubs s) w' l') = at_pub p t s.
Proof. done. Qed.

Lemma any_pub_kept p s m' w' l' : any_pub p (mkSys m' (pubs s) w' l') = any_pub p s.
Proof. done. Qed.


Lemma elem_drop (u t : nat) l :
  t ≠ u → bool_decide (u ∈ List.filter (λ i, negb (i =? t)%nat) l) = bool_decide (u ∈ l).
Proof.
  intros Hne. apply bool_decide_ext. rewrite !list_elem_of_In, filter_In. split; [tauto|].
  intros Hu. split; [done|]. destruct (u =? t)%nat eqn:E; split_bool; [congruence|done].
Qed.

(** There was work for the slot before the step, if there is after it. *)
Ltac still_work :=
  try match goal with
  | H : (queue ?c = [] → wbuf ?c ≠ []) → _ |- _ =>
      specialize (H ltac:(first
        [ assumption
        | match goal with I : _ → wbuf c ≠ [], K : queue _ = [] → _ |- _ => intros ?; apply I, K; congruence end
        | intros ?; congruence ]))
  end.

(** What is left of a clause after a step of the worker. *)
Ltac worker_clause s Hs t :=
  simpl; intros; slot_was; simplify_eq; rewrite ?at_pub_kept, ?any_pub_kept; clauses s Hs;
  unfold listed in *; simpl;
  repeat match goal with H : pc _ = _ |- _ => progress rewrite H in * end;
  try match goal with H : pending _ = _ |- _ => rewrite H in * end;
  simpl in *; rewrite ?elem_push, ?elem_pop in *; rewrite ?of_slot_snoc, ?length_alter;
  try match goal with
  | H : chans _ !! ?u = Some ?c |- _ =>
      destruct (t =? u)%nat eqn:?; simpl in *; split_bool; simplify_eq; rewrite ?elem_drop by done;
      try match goal with
      | |- context [write_bytes ?n ?c] => destruct (write_bytes_spec n c) as (? & ? & ? & ? & ?)
      | H : context [write_bytes ?n ?c] |- _ => destruct (write_bytes_spec n c) as (? & ? & ? & ? & ?)
      end
  end;
  rewrite ?length_app, ?app_nil_r, <- ?app_assoc in *; simpl in *; still_work;
  solve [eauto using lookup_lt_Some | congruence | by_count].

Lemma write_step_inv s ch t b d c :
  inv s → pc (worker s) = WWrite t b d → chans (mem s) !! t = Some c →
  (d = DStart → unsent c < SUB_WRITE_BATCH_BYTES) → inv (sys_step s (Work ch)).
Proof.
  intros Hs Hpc Hc Hfit. unfold sys_step, work_step. rewrite Hpc, Hc. simpl.
  destruct b, d; simpl; repeat case_match; simplify_eq/=; split; worker_clause s Hs t.
Qed.

Lemma loop_step_inv s ch :
  inv s → (∀ t b d, pc (worker s) ≠ WWrite t b d) → inv (sys_step s (Work ch)).
Proof.
  intros Hs Hpc. unfold sys_step, work_step.
  destruct (pc (worker s)) as [| | | | | |t b d] eqn:E; [..|by destruct (Hpc t b d)]; clear Hpc;
    repeat case_match; simplify_eq/=; try done;
    repeat match goal with H : _ ≫= _ = Some _ |- _ => apply bind_Some in H as (? & ? & ?); simplify_eq/= end.
  all: split; worker_clause s Hs 0%nat.
Qed.

(** The worker never finds an output buffer too full to drain a queue into. *)
Definition room (s : Sys) : bool :=
  match pc (worker s) with
  | WWrite t _ DStart => match chans (mem s) !! t with Some c => unsent c <? SUB_WRITE_BATCH_BYTES | None => true end
  | _ => true
  end.

Fixpoint always_room (sched : list Act) (s : Sys) : bool :=
  match sched with
  | [] => true
  | a :: sched => room s && always_room sched (sys_step s a)
  end.

Lemma sys_step_inv s a : room s = true → inv s → inv (sys_step s a).
Proof.
  intros Hr Hs. destruct a as [i|ch].
  - destruct (pubs s !! i) as [[t msg p]|] eqn:Hx; [by apply (pub_step_inv s i t msg p)|].
    simpl. by rewrite Hx.
  - destruct (pc (worker s)) as [| | | | | |t b d] eqn:Hpc; try (apply loop_step_inv; [done|congruence]).
    destruct (lookup_lt_is_Some_2 _ _ (i_conn s Hs t b d Hpc)) as [c Hc].
    apply (write_step_inv s ch t b d c); try done. intros ->. unfold room in Hr. rewrite Hpc, Hc in Hr. split_bool. done.
Qed.

Lemma notify_run_inv sched s : always_room sched s = true → inv s → inv (run sched s).
Proof.
  revert s. induction sched as [|a sched IH]; intros s Hr Hs; [done|]. simpl in Hr. apply andb_prop in Hr as [Hr Hrs].
  simpl. apply IH; [done|]. by apply sys_step_inv.
Qed.

Lemma notify_start_inv n l : inv (start n l).
Proof.
  assert (H0 : ∀ p t, p ≠ PLen → at_pub p t (start n l) = 0).
  { intros p t Hp. apply tally_all_zero. intros x Hx. simpl in Hx. apply list_elem_of_fmap in Hx as (y & -> & _).
    by destruct p. }
  split; simpl; try done.
  - intros t c [-> _]%lookup_replicate Hq. by destruct (Hq eq_refl).
  - intros t c [-> _]%lookup_replicate Hq. done.
  - intros t c [-> _]%lookup_replicate. simpl. by rewrite H0.
  - intros t c [-> _]%lookup_replicate. done.
Qed.

(** *** What is still to be pushed *)

Definition unpushed (x : Publisher) : option (nat * Msg) :=
  match p_pc x with PLen | PPush => Some (p_slot x, p_msg x) | _ => None end.

Definition all_msgs (s : Sys) : list (nat * Msg) := pushed s ++ omap unpushed (pubs s).

Lemma omap_update {A B} (f : A → option B) l i x y :
  l !! i = Some x →
  omap f l ≡ₚ option_list (f x) ++ omap f (delete i l) ∧
  omap f (<[i := y]> l) ≡ₚ option_list (f y) ++ omap f (delete i l).
Proof.
  intros Hx.
  assert (Hp : ∀ z, omap f (z :: delete i l) = option_list (f z) ++ omap f (delete i l)).
  { intros z. simpl. by destruct (f z). }
  split; rewrite <- Hp; apply omap_Permutation.
  - by apply delete_Permutation.
  - rewrite (delete_Permutation (<[i := y]> l) i y) by (apply list_lookup_insert_eq; by apply lookup_lt_Some in Hx).
    constructor. rewrite !delete_take_drop, take_insert_ge, drop_insert_lt by lia. done.
Qed.

Lemma all_msgs_step s a : all_msgs (sys_step s a) ≡ₚ all_msgs s.
Proof.
  unfold all_msgs. destruct a as [i|ch]; simpl; [|by repeat case_match].
  destruct (pubs s !! i) as [[t msg p]|] eqn:Hx; [|done].
  destruct (pub_step t msg (mem s) p) as [m' p'] eqn:Hp. simpl.
  destruct (omap_update unpushed _ _ _ (mkPub t msg p') Hx) as [-> ->].
  destruct p; simpl in Hp; repeat case_match; simplify_eq; simpl; try done.
  by rewrite <- app_assoc.
Qed.

Lemma all_msgs_run sched s : all_msgs (run sched s) ≡ₚ all_msgs s.
Proof.
  revert s. induction sched as [|a sched IH]; intros s; [done|]. simpl. by rewrite IH, all_msgs_step.
Qed.

Lemma all_msgs_start n l : all_msgs (start n l) = l.
Proof.
  unfold all_msgs. simpl. induction l as [|[t m] l IH]; [done|]. simpl. f_equal. exact IH.
Qed.

Lemma done_unpushed (l : list Publisher) : Forall (λ p, p_pc p = PDone) l → omap unpushed l = [].
Proof. induction 1 as [|x l Hx _ IH]; [done|]. simpl. unfold unpushed at 1. by rewrite Hx. Qed.

Lemma at_rest_iff s :
  at_rest s = true ↔
  Forall (λ p, p_pc p = PDone) (pubs s) ∧ pc (worker s) = WPoll ∧ woken (mem s) = false ∧ sub_dirty (worker s) = [].
Proof.
  unfold at_rest. rewrite !andb_true_iff, forallb_forall, negb_true_iff, Forall_forall.
  assert (Hd : ∀ x, is_done x = true ↔ p_pc x = PDone) by (intros x; unfold is_done; by destruct (p_pc x)).
  setoid_rewrite Hd. setoid_rewrite list_elem_of_In.
  destruct (pc (worker s)), (sub_dirty (worker s)); naive_solver.
Qed.

Lemma of_slot_perm t l l' : l ≡ₚ l' → of_slot t l ≡ₚ of_slot t l'.
Proof. intros Hl. unfold of_slot. by rewrite Hl. Qed.

(** C12: No wake-up is lost: publishers push to the slots of a worker and notify
    it in any interleaving, the worker drains and writes, and sockets block as
    they like; as long as the worker never serves a connection whose output
    buffer is full, when everything has come to rest no message is stranded:
    every queue and every output buffer is empty, no flag is left set, the
    counters are exact, and what the socket of each connection has taken is, in
    the order in which it entered the queue, every message published to it, once. *)
Theorem no_message_stranded (n : nat) (l : list (nat * Msg)) (sched : list Act) (t : nat) (c : Chan) :
  let s := run sched (start n l) in
  always_room sched (start n l) = true → at_rest s = true → chans (mem s) !! t = Some c →
  queue c = [] ∧ wbuf c = [] ∧ notify_pending c = false ∧ qlen c = 0 ∧
  received c = of_slot t (pushed s) ∧ received c ≡ₚ of_slot t l.
Proof.
  intros s Hr (Hpubs & Hpc & Hw & Hd)%at_rest_iff Hc.
  pose proof (notify_run_inv sched _ Hr (notify_start_inv n l)) as Hs. fold s in Hs.
  assert (H0 : ∀ p u, p ≠ PDone → at_pub p u s = 0).
  { intros p u Hp. apply tally_all_zero. intros x Hx. rewrite Forall_forall in Hpubs. specialize (Hpubs x Hx).
    unfold is_at. rewrite Hpubs. by destruct p. }
  assert (H1 : ∀ p, p ≠ PDone → any_pub p s = 0).
  { intros p Hp. apply tally_all_zero. intros x Hx. rewrite Forall_forall in Hpubs. specialize (Hpubs x Hx).
    unfold is_any. rewrite Hpubs. by destruct p. }
  assert (Hwake : wake_pending (mem s) = false).
  { destruct (wake_pending (mem s)) eqn:E; [|done]. pose proof (i_wake s Hs E) as H.
    rewrite Hw, H1, Hpc in H by done. simpl in H. lia. }
  assert (Hpend : pending (mem s) = []).
  { destruct (pending (mem s)) eqn:E; [done|]. pose proof (i_pending s Hs ltac:(congruence)) as H.
    rewrite Hwake, H1, Hpc in H by done. simpl in H. lia. }
  assert (Hflag : notify_pending c = false).
  { destruct (notify_pending c) eqn:E; [|done]. pose proof (i_flag s Hs t c Hc E) as H.
    unfold listed in H. rewrite Hpend, H0, Hpc, Hd in H by done. simpl in H. lia. }
  assert (Hidle : queue c = [] ∧ wbuf c = []).
  { destruct (decide (queue c = [])) as [Hq|Hq]; [destruct (decide (wbuf c = [])) as [Hb|Hb]; [done|]|].
    all: pose proof (i_work s Hs t c Hc ltac:(done)) as H; rewrite Hpend, !H0, Hpc, Hd in H by done; simpl in H; lia. }
  destruct Hidle as [Hq Hb].
  pose proof (i_len s Hs t c Hc) as Hl. rewrite Hq, H0, Hpc in Hl by done.
  pose proof (i_fifo s Hs t c Hc) as Hf. rewrite Hq, Hb, !app_nil_r in Hf.
  split_and!; try done. rewrite <- Hf.
  apply of_slot_perm. rewrite <- (all_msgs_start n l), <- (all_msgs_run sched). fold s.
  unfold all_msgs. by rewrite (done_unpushed (pubs s)), app_nil_r.
Qed.

(** Publisher [i] from its first to its last step. *)
Definition whole (i : nat) : list Act := replicate 6 (Pub i).
(** The worker takes the waker's event and then the tokens of one slot. *)
Definition woken_up (t : nat) : list Act := Work CWake :: replicate 4 (Work COther) ++ [Work (CSub t)].

(** The write of a slot whose queue holds [n] messages that fit. *)
Definition written (n : nat) (accepted : Z) : list Act :=
  replicate (5 + n) (Work COther) ++ [Work (CAccept accepted); Work COther].

(** The worker drains a message whose publisher has not notified yet. *)
Definition quiet_sched : list Act :=
  [Pub 1; Pub 1] ++ whole 0 ++ woken_up 0 ++ written 2 70 ++ [Pub 1; Pub 1] ++
  [Work (CSub 0)] ++ written 0 30 ++ [Pub 1; Pub 1] ++
  Work CBack :: woken_up 0 ++ written 0 0 ++ [Work CBack].

Lemma no_message_stranded_witness :
  let l := [(0%nat, mkMsg 1 60); (0%nat, mkMsg 2 40)] in
  let s := run quiet_sched (start 1 l) in
  let c := mkChan [] false 0 [] 0 [mkMsg 2 40; mkMsg 1 60] in
  chans (mem s) !! 0%nat = Some c ∧ wbuf c = [] ∧ received c ≡ₚ of_slot 0 l.
Proof.
  intros l s c. assert (Hc : chans (mem s) !! 0%nat = Some c) by (vm_compute; reflexivity).
  destruct (no_message_stranded 1 l quiet_sched 0 c) as (_ & H1 & _ & _ & _ & H2);
    [vm_compute; reflexivity..|exact Hc|exact (conj Hc (conj H1 H2))].
Defined.

(** *** A full output buffer *)

(** The worker, back in its loop, has nothing to serve; publishers find the flag set. *)
Record forgotten (msg : Msg) (done : list Msg) (s : Sys) : Prop := {
  fg_chan : ∃ c q, chans (mem s) = [c] ∧ queue c = msg :: q ∧ notify_pending c = true ∧ received c = done;
  fg_quiet : pending (mem s) = [] ∧ woken (mem s) = false ∧ sub_dirty (worker s) = [];
  fg_loop : pc (worker s) = WPoll ∨ pc (worker s) = WServe;
  fg_pubs : Forall (λ x, p_slot x = 0%nat ∧ p_pc x ∉ [PNotify; PWakeSwap; PWake]) (pubs s);
}.

Definition no_request (a : Act) : bool := match a with Work (CReadable _) => false | _ => true end.

Lemma forgotten_step msg l s a : no_request a = true → forgotten msg l s → forgotten msg l (sys_step s a).
Proof.
  intros Ha [(c & q & Hc & Hq & Hf & Hs) (Hp & Hw & Hd) Hl Hpubs]. destruct a as [i|ch]; simpl.
  - destruct (pubs s !! i) as [[t m p]|] eqn:Hx; [|by split; eauto 6].
    destruct (Forall_lookup_1 _ _ _ _ Hpubs Hx) as [Ht Hn]. simpl in Ht, Hn. subst t.
    destruct p; try (exfalso; set_solver); simpl; rewrite ?Hc; simpl; rewrite ?Hf; split; simpl;
      try done; rewrite ?Hc; simpl; try by (eexists _, _; split; [done|]; simpl; rewrite Hq).
    all: apply Forall_insert; [done|]; simpl; split; [done|set_solver].
  - unfold work_step. rewrite Hw, Hd.
    destruct Hl as [Hl|Hl]; rewrite Hl; destruct ch; simpl; try done.
    all: rewrite ?bool_decide_false by set_solver; split; simpl; rewrite ?Hc; eauto 8.
Qed.

Lemma forgotten_run msg l sched s : forallb no_request sched = true → forgotten msg l s → forgotten msg l (run sched s).
Proof.
  revert s. induction sched as [|a sched IH]; intros s Hn Hs; [done|]. simpl in *.
  apply andb_prop in Hn as [Ha Hn]. apply IH; [done|]. by apply forgotten_step.
Qed.

(** The queue is drained up to the limit, the socket blocks, and a publisher
    whose message the drain took sets the flag; the next write has no room to drain. *)
Definition full_sched : list Act :=
  [Pub 0; Pub 0] ++ whole 1 ++ woken_up 0 ++ written 1 0 ++ replicate 4 (Pub 0) ++
  Work CBack :: woken_up 0 ++ [Work COther; Work (CAccept 300010); Work COther] ++ [Pub 2; Pub 2; Pub 2; Work CBack].

Definition small_big_late : list (nat * Msg) :=
  [(0%nat, mkMsg 0 10); (0%nat, mkMsg 1 300000); (0%nat, mkMsg 2 10)].

(** Publishers that have not taken a step yet change nothing. *)
Definition joined_by (l : list Publisher) (s : Sys) : Sys := mkSys (mem s) (pubs s ++ l) (worker s) (pushed s).

Definition among (n : nat) (a : Act) : bool := match a with Pub i => (i <? n)%nat | Work _ => true end.

Lemma sys_step_pubs s a : length (pubs (sys_step s a)) = length (pubs s).
Proof. destruct a; simpl; repeat case_match; simpl; by rewrite ?length_insert. Qed.

Lemma joined_run l sched s :
  forallb (among (length (pubs s))) sched = true → run sched (joined_by l s) = joined_by l (run sched s).
Proof.
  revert s. induction sched as [|a sched IH]; intros s Ha; [done|]. simpl in Ha. apply andb_prop in Ha as [Ha Hs].
  simpl. rewrite <- IH by (by rewrite sys_step_pubs). f_equal.
  destruct a as [i|ch]; simpl in *; split_bool; [|by repeat case_match].
  rewrite lookup_app_l by done. destruct (pubs s !! i) as [[t m p]|] eqn:Hx; [|done].
  destruct (pub_step t m (mem s) p). unfold joined_by. simpl. by rewrite insert_app_l.
Qed.

Lemma start_joined n l l' : start n (l ++ l') = joined_by (pubs (start n l')) (start n l).
Proof. unfold start, joined_by. simpl. by rewrite fmap_app. Qed.

Definition small_and_big : list Msg := [mkMsg 0 10; mkMsg 1 300000].

Lemma full_run :
  run full_sched (start 1 small_big_late) =
  mkSys (mkMem [mkChan [mkMsg 2 10] true 1 [] 0 small_and_big] [] false false)
    ((λ p, mkPub p.1 p.2 PDone) <$> small_big_late) (mkWorker WPoll []) small_big_late.
Proof. vm_compute. reflexivity. Qed.

Lemma full_run_later l :
  run full_sched (start 1 (small_big_late ++ l)) = joined_by (pubs (start 1 l)) (run full_sched (start 1 small_big_late)).
Proof. rewrite start_joined. apply joined_run. vm_compute. reflexivity. Qed.

(** C32: With a full output buffer a wake-up is lost: a drain takes the message
    of a publisher that has not set the flag yet and fills the buffer past its
    limit, the socket blocks, the publisher sets the flag and notifies; served
    for that notification, the connection has no room to drain and so does not
    clear the flag, the socket takes everything, and the token is dropped.  From
    then on no publisher notifies: whatever is published later, and however
    long the server runs, the connection is sent nothing more unless its client
    sends a request. *)
Theorem full_buffer_strands_messages (later : list Msg) :
  let s := run full_sched (start 1 (small_big_late ++ ((λ m, (0%nat, m)) <$> later))) in
  chans (mem s) = [mkChan [mkMsg 2 10] true 1 [] 0 small_and_big] ∧ pc (worker s) = WPoll ∧
  ∀ more, forallb no_request more = true →
    ∃ c q, chans (mem (run more s)) = [c] ∧ queue c = mkMsg 2 10 :: q ∧ received c = small_and_big.
Proof.
  cbv zeta. rewrite full_run_later, full_run. split; [done|]. split; [done|]. intros more Hmore.
  set (s := joined_by _ _).
  assert (Hs : forgotten (mkMsg 2 10) small_and_big s).
  { split; [by eexists _, _; split_and!|by split_and!|by left|]. simpl.
    repeat (constructor; [split; [done|set_solver]|]).
    apply Forall_fmap, Forall_fmap, Forall_true. intros m. simpl. split; [done|set_solver]. }
  destruct (forgotten_run _ _ more s Hmore Hs) as [(c & q & Hc & Hq & _ & Hr) _ _ _]. by exists c, q.
Qed.
End Wakeup.

(** * The snapshot of a channel shard *)

Module Snap.
Section Snap.
(** The vector of channels a snapshot holds. *)
Context {V : Type}.

(** A box is freed once; [owner] is the thread that holds [mu]. *)
Record ChannelShard := mkShard { boxes : list (option V); snapshot : nat; owner : option nat }.

(** [load_snapshot] by itself, and inside [subscribe] or [unsubscribe]. *)
Inductive Pc :=
| SLock            (* [mu.lock] *)
| SLoad            (* [snapshot.load] *)
| SClone (p : nat) (* [Arc::clone] of what the pointer points to *)
| SSwap (old : V)  (* [snapshot.swap] with the new vector *)
| SFree (p : nat)  (* [drop(Box::from_raw(old_ptr))] *)
| SUnlock
| SDone
| SFault.          (* a freed box was read *)

(** A writer has an update of the vector, a reader none. *)
Record Thread := mkThread { update : option (V → V); at_ : Pc }.

Definition thread_step (i : nat) (f : option (V → V)) (sh : ChannelShard) (p : Pc) : ChannelShard * Pc :=
  match p with
  | SLock => match owner sh with None => (mkShard (boxes sh) (snapshot sh) (Some i), SLoad) | Some _ => (sh, SLock) end
  | SLoad => (sh, SClone (snapshot sh))
  | SClone p =>
      match boxes sh !! p with
      | Some (Some v) => (sh, match f with Some _ => SSwap v | None => SDone end)
      | _ => (sh, SFault)
      end
  | SSwap old =>
      match f with
      | Some f => (mkShard (boxes sh ++ [Some (f old)]) (length (boxes sh)) (owner sh), SFree (snapshot sh))
      | None => (sh, SDone)
      end
  | SFree p => (mkShard (<[p := None]> (boxes sh)) (snapshot sh) (owner sh), SUnlock)
  | SUnlock => (mkShard (boxes sh) (snapshot sh) None, SDone)
  | SDone => (sh, SDone)
  | SFault => (sh, SFault)
  end.

(** [swapped] lists the writers in the order of their swaps. *)
Record Sys := mkSys { shard : ChannelShard; threads : list Thread; swapped : list nat }.

Definition step (s : Sys) (i : nat) : Sys :=
  match threads s !! i with
  | Some (mkThread f p) =>
      let '(sh, p') := thread_step i f (shard s) p in
      mkSys sh (<[i := mkThread f p']> (threads s)) (match p with SSwap _ => swapped s ++ [i] | _ => swapped s end)
  | None => s
  end.

Definition run (sched : list nat) (s : Sys) : Sys := foldl step s sched.

Definition start (v : V) (l : list (option (V → V))) : Sys :=
  mkSys (mkShard [Some v] 0 None)
    ((λ f, mkThread f (match f with Some _ => SLock | None => SLoad end)) <$> l) [].

(** The updates of the writers [ws], one after the other. *)
Definition updates (l : list (option (V → V))) (ws : list nat) (v : V) : V :=
  foldl (λ v i, match l !! i with Some (Some f) => f v | _ => v end) v ws.

Definition inside (p : Pc) : bool :=
  match p with SLoad | SClone _ | SSwap _ | SFree _ | SUnlock => true | _ => false end.
Definition reader_pc (p : Pc) : bool := match p with SLoad | SClone _ | SDone | SFault => true | _ => false end.
Definition past_swap (p : Pc) : bool := match p with SFree _ | SUnlock | SDone => true | _ => false end.

(** What holds of a writer at [p]. *)
Definition writer_ok (sh : ChannelShard) (i : nat) (p : Pc) : Prop :=
  (inside p = true → owner sh = Some i) ∧
  match p with
  | SClone q => q = snapshot sh
  | SSwap v => boxes sh !! snapshot sh = Some (Some v)
  | SFree q => q ≠ snapshot sh
  | SFault => False
  | _ => True
  end.

Record inv (v0 : V) (l : list (option (V → V))) (s : Sys) : Prop := {
  i_updates : update <$> threads s = l;
  i_current : boxes (shard s) !! snapshot (shard s) = Some (Some (updates l (swapped s) v0));
  i_writers : ∀ i x f, threads s !! i = Some x → update x = Some f →
    writer_ok (shard s) i (at_ x) ∧ (i ∈ swapped s ↔ past_swap (at_ x) = true);
  i_readers : ∀ i x, threads s !! i = Some x → update x = None → (i ∉ swapped s) ∧ reader_pc (at_ x) = true;
  i_once : NoDup (swapped s);
}.

Lemma updates_snoc l ws i v : 
  updates l (ws ++ [i]) v = (match l !! i with Some (Some f) => f (updates l ws v) | _ => updates l ws v end).
Proof. unfold updates. by rewrite foldl_app. Qed.

Lemma snap_start_inv v l : inv v l (start v l).
Proof.
  split; simpl; try done.
  - rewrite <- list_fmap_compose. by apply list_fmap_id.
  - intros i x f Hx Hf. apply list_lookup_fmap_Some in Hx as (o & -> & Ho). simpl in *. subst o. simpl.
    split; [by split|]. split; [intros Hi; set_solver|done].
  - intros i x Hx Hf. apply list_lookup_fmap_Some in Hx as (o & -> & Ho). simpl in *. subst o. split; [set_solver|done].
  - constructor.
Qed.

(** Thread [i] goes to [p']; the others keep what they had. *)
Lemma thread_update_inv v l s i f p sh p' ws :
  inv v l s → threads s !! i = Some (mkThread f p) →
  boxes sh !! snapshot sh = Some (Some (updates l ws v)) →
  (∀ j q, j ≠ i → writer_ok (shard s) j q → writer_ok sh j q) →
  (is_Some f → writer_ok sh i p' ∧ (i ∈ ws ↔ past_swap p' = true)) →
  (f = None → (i ∉ ws) ∧ reader_pc p' = true) →
  (∀ j, j ≠ i → (j ∈ ws ↔ j ∈ swapped s)) → NoDup ws →
  inv v l (mkSys sh (<[i := mkThread f p']> (threads s)) ws).
Proof.
  intros Hs Hx Hc Hframe Hw Hr Hws Hnd. split; simpl; try done.
  - rewrite list_fmap_insert. simpl. rewrite (i_updates v l s Hs). apply list_insert_id.
    by rewrite <- (i_updates v l s Hs), list_lookup_fmap, Hx.
  - intros j x g [(<- & <- & _)|[Hne Hj]]%list_lookup_insert_Some Hg; simpl in *; [subst f; apply Hw; eauto|].
    destruct (i_writers v l s Hs j x g Hj Hg) as [H1 H2]. rewrite Hws by done. split; [|done]. by apply Hframe.
  - intros j x [(<- & <- & _)|[Hne Hj]]%list_lookup_insert_Some Hg; simpl in *; [by apply Hr|].
    rewrite Hws by done. by apply (i_readers v l s Hs j x).
Qed.

(** Nobody but [i] is inside: the others have no stake in the shard. *)
Lemma writer_frame (sh sh' : ChannelShard) i j q :
  owner sh = None ∨ owner sh = Some i → j ≠ i → writer_ok sh j q → writer_ok sh' j q.
Proof.
  intros Ho Hne [Hin Hq]. destruct q; simpl in *; try (specialize (Hin eq_refl); destruct Ho; congruence); by split.
Qed.

Lemma snap_writer_step_inv v l s i g p :
  inv v l s → threads s !! i = Some (mkThread (Some g) p) → inv v l (step s i).
Proof.
  intros Hs Hx. unfold step. rewrite Hx.
  assert (Hl : l !! i = Some (Some g)) by (rewrite <- (i_updates v l s Hs), list_lookup_fmap, Hx; done).
  destruct (i_writers v l s Hs i _ g Hx eq_refl) as [[Hin Hw] Hsw]. simpl in Hin, Hw, Hsw.
  pose proof (i_current v l s Hs) as Hc. pose proof (i_once v l s Hs) as Hnd.
  pose proof (lookup_lt_Some _ _ _ Hc) as Hlt.
  destruct p; simpl; repeat case_match; simplify_eq/=; try done;
    try specialize (Hin eq_refl); (apply (thread_update_inv _ _ _ _ _ _ _ _ _ Hs Hx); simpl; [try done| |intros _| | |try done]);
    try done; try (intros j q Hne; apply (writer_frame _ _ i); by auto); try (by split; [split|]).
  - rewrite lookup_app_r, Nat.sub_diag, updates_snoc, Hl by done. done.
  - split; [split; [done|simpl; lia]|]. split; [done|intros _; set_solver].
  - intros j Hne. set_solver.
  - apply NoDup_app. split_and!; [done| |apply NoDup_singleton].
    intros j Hj ->%list_elem_of_singleton. apply Hsw in Hj. done.
  - by rewrite list_lookup_insert_ne.
Qed.

Lemma snap_step_inv v l s i : inv v l s → inv v l (step s i).
Proof.
  intros Hs. destruct (threads s !! i) as [[[g|] p]|] eqn:Hx; [by apply (snap_writer_step_inv v l s i g p)| |].
  - unfold step. rewrite Hx. destruct (i_readers v l s Hs i _ Hx eq_refl) as [Hi Hp]. simpl in Hp.
    destruct p; try done; simpl; repeat case_match; simplify_eq/=;
      (apply (thread_update_inv _ _ _ _ _ _ _ _ _ Hs Hx); [by apply i_current|done|by intros []|done|done|by apply (i_once v l)]).
  - unfold step. by rewrite Hx.
Qed.

Lemma snap_run_inv v l sched s : inv v l s → inv v l (run sched s).
Proof. revert s. induction sched as [|i sched IH]; intros s Hs; [done|]. simpl. by apply IH, snap_step_inv. Qed.

(** Subscriptions and unsubscriptions of one channel shard, however they
    interleave with each other and with publishers, take effect one after the
    other: no writer reads a freed snapshot, the current snapshot is never
    freed and holds the updates of those that have swapped, in that order, each
    once, and a writer that has returned is one of them. *)
Theorem snapshot_updates_serialize (v : V) (l : list (option (V → V))) (sched : list nat) :
  let s := run sched (start v l) in
  boxes (shard s) !! snapshot (shard s) = Some (Some (updates l (swapped s) v)) ∧ NoDup (swapped s) ∧
  (∀ i x f, threads s !! i = Some x → update x = Some f → at_ x ≠ SFault ∧ (at_ x = SDone → i ∈ swapped s)).
Proof.
  intros s. pose proof (snap_run_inv v l sched _ (snap_start_inv v l)) as Hs. fold s in Hs.
  split; [by apply i_current|]. split; [by apply (i_once v l)|].
  intros i x f Hx Hf. destruct (i_writers v l s Hs i x f Hx Hf) as [[_ Hw] Hsw].
  split; [intros E; by rewrite E in Hw|intros E; apply Hsw; by rewrite E].
Qed.
End Snap.

(** A publisher reads the pointer, a subscriber replaces the snapshot and frees
    the old one, and the publisher follows the pointer into freed memory. *)
Theorem publisher_reads_freed_snapshot {V : Type} (v : V) (subscribe : V → V) :
  at_ <$> threads (run [0; 1; 1; 1; 1; 1; 0]%nat (start v [None; Some subscribe])) = [SFault; SUnlock].
Proof. reflexivity. Qed.
End Snap.
